(* ===== verification/_CoqProject ===== *)
-Q . S2P
Prelude.v
Text.v
Schema.v
Varint.v
Stream.v
StreamRound.v
StreamSafe.v
Ranges.v
Posting.v
DictBlock.v
Table.v
DictRev.v
StrOps.v
Tokenizer.v
TokenizerLen.v
TokenizerProps.v
Pattern.v
Language.v
Encoding.v
Walk.v
Prep.v
Db.v
Catalog.v
Reader.v
Located.v
Navigate.v
Descend.v
Nodes.v
Write.v
Dict.v
Store.v
Entities.v
Content.v
Storing.v
Ingest.v
Prune.v
Vacuum.v
Commit.v
Marked.v
Batch.v
Prepare.v
Refine.v
Describe.v
Described.v
Counted.v
Scan.v
Summary.v
Gaps.v
NameCache.v
Generations.v
LazySort.v
Symbols.v
SymbolIds.v
SearchFiles.v
Chains.v
SymbolSearch.v
History.v
Search.v
SearchSpec.v
SearchOwners.v
SearchMatch.v
SearchWalk.v
SearchExact.v
TokenScan.v
NestedScan.v
Extracted.v
LangGo.v
LangPython.v
Languages.v
WireError.v
Wire.v
RaftLog.v
RaftLogSpec.v
RaftApply.v
RaftApplySpec.v
RaftReplica.v
Service.v
Remote.v
RemoteSpec.v
