(* ===== verification/Prelude.v ===== *)
(** * memory-graph: a verification of the store, its search and its replication

    memory-graph indexes source code: a file is decoded, tokenized, cut into
    symbols by a language's extractor, and kept in a redb database as one
    byte stream with a dictionary, postings, symbol indexes and counters; the
    database is searched and navigated; a server replicates it with Raft and
    talks to clients in protobuf messages. This library models that path from
    the bytes of a file to the answer of a query, and the replication of the
    writes, as executable definitions, with the theorems that make them correct.
    File names below are relative to [src/crates/].

    ** Conventions

    [usize] and [u64] have 64 bits. A Rust [Result] that may also panic is
    [outcome E A] ([Ok], [Err], [Panic]); [result] is [outcome StoreError].
    An index out of range, a slice off a character boundary, an [unwrap] of
    nothing and an exhausted fuel are [Panic], so a theorem that says [Ok] or
    [Err] excludes them all. Strings are lists of Unicode scalar values
    ([Text], [StrOps]), bytes are [Z]. A write transaction is a
    function on the record of tables; what it returns is what is committed.

    ** Parts, files and correspondence

    - Vocabulary: [Schema] (graph-core/src/schema.rs, the records of
      extractor.rs, [StoreError] of graph-store/src/lib.rs).
    - Codecs (graph-store/src/codec.rs): [Varint], [Stream] with the proofs in
      [StreamRound], [StreamSafe], [Ranges]; [Posting]; [DictBlock].
    - Lexer (graph-core/src/tokenizer.rs): [Tokenizer], proofs in
      [TokenizerLen], [TokenizerProps].
    - Reading files: [Encoding] (graph-core/src/encoding.rs), [Language]
      (language.rs, extractor.rs), [Walk] and [Prep] (span validation of
      graph-store/src/common.rs, [V2Prep::build] of v2.rs).
    - Extractors: [TokenScan], [NestedScan] (graph-core/src/scan.rs);
      [Extracted]; [LangGo] (graph-lang-go); [LangPython]
      (graph-lang-python); [Languages] joins them to the store's registry.
    - Tables: [Table] (redb as an interface), [Db], [Catalog], [DictRev].
    - Reads (graph-store/src/v2.rs, the reader [R]): [Reader], [Located],
      [Navigate], [Descend], [Nodes]; summaries in [Describe], [Described],
      [Counted], [Scan], [Summary], [Gaps].
    - Writes (v2.rs, common.rs, api.rs): [Write], [Dict], [Store] (the
      invariant), [Entities], [Content], [Storing], [Ingest], [Prune],
      [Vacuum], [Commit], [Marked], [Batch], [Prepare], [Refine], [History].
    - Symbol search: [Pattern], [NameCache], [Generations], [LazySort],
      [Symbols], [SymbolIds], [SearchFiles], [Chains], [SymbolSearch].
    - Token search: [Search] and its proofs [SearchSpec], [SearchOwners],
      [SearchMatch], [SearchWalk], [SearchExact].
    - Wire (graph-proto/src): [WireError] (error.rs), [Wire] (convert.rs).
    - Replication (graph-server/src/raft): [RaftLog] and [RaftLogSpec]
      (types.rs, log_store.rs), [RaftApply], [RaftApplySpec] and
      [RaftReplica] (state_machine.rs).
    - Writing through the cluster: [Service] (graph-server/src/services/write.rs
      on the node that leads), [Remote] (graph-client/src/conn.rs, the writes of
      remote.rs, [PreparedFile::remote] of graph-store/src/api.rs), [RemoteSpec].

    ** What the theorems show

    - Codecs: decoding an encoded stream gives it back; decoding arbitrary
      bytes never panics and accepts only well-formed streams, and a debug
      build panics only on accepted streams whose dense ranges are wrong.
    - Lexer: every dialect terminates on every source of fewer than 2^32 - 1
      bytes and tiles it with tokens at their true positions.
    - Extractors: one-pass tables and memos agree with plain scans; Go sources
      are always stored with their symbols, Python sources whenever decorators
      are attached, and what is stored decodes to what was extracted.
    - Writes refine a map from (org, repo, path) to documents: ingest, prune,
      vacuum, batches and single files update it as specified or fail with a
      named error, which the theorems on batches compute ([abort_of],
      [first_abort]); every database that writes lead to from an empty one holds
      such a map; interrupted batches are marked and can be run again. They
      assume that ids are left ([room_for]) and that what is extracted fits the
      32-bit format ([shaped], [raw_ok]), and nothing of names.
    - Reads agree with it: range-based navigation equals the decoded tree, the
      catalog equals a full scan, symbol and token searches return exactly the
      page of rows that the documents have, with caches and early stops.
    - Wire: errors, queries, hits, files, results and summaries arrive as sent.
    - Replication: the log store is a log; applied entries are applied once
      and answered one by one; replicas that applied the same entries hold the
      same documents, refused entries included, which change nothing.
    - Writing through the cluster: with leaders, connections and answers lost
      anywhere, proposals landing late and the client retrying, an indexing
      stores the documents of a prefix of its files, of all of them when it
      reports success, and the other writes take effect at most once; a first
      attempt that arrives and is answered succeeds, or fails with the error of
      the first file that has one. This is for one writer ([sole]): between its
      proposals the cluster commits only blanks, memberships and its own earlier
      proposals.

    ** Interfaces

    Libraries enter as classes whose laws are their documentation, each with
    an instance that shows the laws can hold and on which the witnesses run:
    [Redb] (ordered tables; [gmap_redb]), [Serde] and [Json] (JSON round
    trips), [Prost] (protobuf round trips), [EncodingRs] (encoding_rs and
    chardetng), the unstable sorts of [LazySort]. SHA-256, the Unicode tables,
    openraft's membership type and the hook before a marked commit are
    variables. No injectivity of SHA-256 is assumed but where vacuuming needs
    that no two stored texts collide ([no_collisions]). Network and consensus
    are lists of outcomes the theorems quantify over: the fate of each proposal
    ([Fate]) and of each attempt of a call ([Attempt]).

    ** Fuel

    Loops that are not structural take fuel, always a bound the data gives:
    the length of the text, of the token list or of the input bytes for the
    lexer, the scanners and the decoders, ten bytes for a varint, the number
    of symbols for walks over parents, the number of rows for walks over
    tables and probe chains. A retried call makes as many attempts as its list
    of outcomes has, and fails with its deadline after them. The totality theorems show that it is enough.

    ** Not modelled

    Storage failures inside redb (a failed transaction changes nothing) and
    reads of corrupt rows that cannot occur in stores the writes made, beyond
    the codecs, which are proved safe on any bytes. Read statistics, tracing,
    metrics and test gates. The other language extractors: each is a scanner
    of its own over the lexer and the helpers modelled here (the Rust one over
    the syn parser), reached through the extractor interface, for which the
    store's theorems hold whatever it returns. Consensus itself (openraft),
    snapshot files, backups, connecting, delays between attempts, forwarding of
    a write to the leader, the reads of the remote store (their messages are
    converted in [Wire]), authentication and the MCP and command line front
    ends: input and output over libraries, with little of their own to state a
    theorem about. *)
From stdpp Require Export base tactics list numbers strings gmap pretty sorting.
From stdpp Require Import options.

#[global] Open Scope Z_scope.

(** ** Outcomes

    A Rust function returning [Result<T, E>] is modelled by [outcome E T].
    [Panic] is the third way a call can end: an index out of range, a failed
    [unwrap], or an [unreachable!] that is reached. *)
Inductive outcome (E A : Type) : Type :=
  | Ok (a : A)
  | Err (e : E)
  | Panic.
Arguments Ok {E A} a.
Arguments Err {E A} e.
Arguments Panic {E A}.

Definition outcome_bind {E A B} (f : A → outcome E B) (m : outcome E A) : outcome E B :=
  match m with
  | Ok a => f a
  | Err e => Err e
  | Panic => Panic
  end.

#[global] Instance outcome_mret {E} : MRet (outcome E) := λ A a, Ok a.
#[global] Instance outcome_mbind {E} : MBind (outcome E) := λ A B f m, outcome_bind f m.

(** [o.ok_or(e)]. *)
Definition ok_or {E A} (o : option A) (e : E) : outcome E A :=
  match o with Some a => Ok a | None => Err e end.

(** [v[i]] on a slice: a panic out of range. *)
Definition index {E A} (l : list A) (i : nat) : outcome E A :=
  match l !! i with Some a => Ok a | None => Panic end.

(** [o.unwrap()] / [o.expect(..)]. *)
Definition unwrap {E A} (o : option A) : outcome E A :=
  match o with Some a => Ok a | None => Panic end.

(** [iter.map(f).collect::<Result<Vec<_>>>()]: stops at the first error. *)
Fixpoint collect {E A B} (f : A → outcome E B) (l : list A) : outcome E (list B) :=
  match l with
  | [] => Ok []
  | a :: l => b ← f a; bs ← collect f l; Ok (b :: bs)
  end.

Lemma bind_Ok {E A B} (m : outcome E A) (f : A → outcome E B) b :
  (m ≫= f) = Ok b → ∃ a, m = Ok a ∧ f a = Ok b.
Proof. destruct m; simpl; naive_solver. Qed.

Lemma bind_not_Panic {E A B} (m : outcome E A) (f : A → outcome E B) :
  m ≠ Panic → (∀ a, m = Ok a → f a ≠ Panic) → (m ≫= f) ≠ Panic.
Proof. destruct m; simpl; naive_solver. Qed.

Lemma ok_or_not_Panic {E A} (o : option A) (e : E) : ok_or o e ≠ Panic.
Proof. by destruct o. Qed.

Lemma index_Ok {E A} (l : list A) i a : l !! i = Some a → index (E:=E) l i = Ok a.
Proof. unfold index. by intros ->. Qed.

(** [ends Q m]: [m] does not panic, and a value it returns satisfies [Q]. *)
Definition ends {E A} (Q : A → Prop) (m : outcome E A) : Prop :=
  match m with Ok a => Q a | Err _ => True | Panic => False end.

Lemma ends_bind {E A B} (P : A → Prop) (Q : B → Prop) (m : outcome E A) f :
  ends P m → (∀ a, P a → ends Q (f a)) → ends Q (m ≫= f).
Proof. destruct m; simpl; auto. Qed.
Lemma ends_weaken {E A} (P Q : A → Prop) (m : outcome E A) :
  ends P m → (∀ a, P a → Q a) → ends Q m.
Proof. destruct m; simpl; auto. Qed.
Lemma ends_ok_or {E A} (Q : A → Prop) (o : option A) (e : E) :
  (∀ a, o = Some a → Q a) → ends Q (ok_or o e).
Proof. destruct o; simpl; auto. Qed.
Lemma ends_index {E A} (Q : A → Prop) (l : list A) i :
  (i < length l)%nat → Forall Q l → ends Q (index (E:=E) l i).
Proof.
  intros Hi HF. unfold index. destruct (l !! i) eqn:El.
  - by apply (proj1 (Forall_lookup _ _) HF i).
  - apply lookup_ge_None in El. simpl. lia.
Qed.
Lemma ends_not_Panic {E A} (Q : A → Prop) (m : outcome E A) : ends Q m → m ≠ Panic.
Proof. by destruct m. Qed.
Lemma ends_Ok {E A} (Q : A → Prop) (m : outcome E A) a : ends Q m → m = Ok a → Q a.
Proof. by intros ? ->. Qed.
Lemma ends_True {E A} (m : outcome E A) : m ≠ Panic → ends (λ _, True) m.
Proof. by destruct m. Qed.

Lemma collect_length {E A B} (f : A → outcome E B) l bs :
  collect f l = Ok bs → length bs = length l.
Proof.
  revert bs. induction l as [|a l IH]; intros bs; simpl; [by intros [= <-]|].
  intros (b & Hb & H)%bind_Ok. apply bind_Ok in H as (bs' & Hbs & [= <-]).
  simpl. f_equal. auto.
Qed.

Lemma collect_Forall2 {E A B} (f : A → outcome E B) l bs :
  collect f l = Ok bs ↔ Forall2 (λ a b, f a = Ok b) l bs.
Proof.
  split.
  - revert bs. induction l as [|a l IH]; intros bs; simpl; [intros [= <-]; constructor|].
    intros (b & Hb & H)%bind_Ok. apply bind_Ok in H as (bs' & Hbs & [= <-]).
    constructor; auto.
  - induction 1 as [|a b l bs Hab _ IH]; simpl; [done|]. by rewrite Hab, IH.
Qed.

(** Peel every bind of a hypothesis that ends in [Ok]. *)
Ltac inv_ok :=
  repeat match goal with
  | H : (_ ≫= _) = Ok _ |- _ =>
      let a := fresh "a" in let Ha := fresh "Ha" in
      apply bind_Ok in H as (a & Ha & H)
  | H : Ok _ = Ok _ |- _ => injection H as H; subst
  | H : mret _ = Ok _ |- _ => injection H as H; subst
  | H : Err _ = Ok _ |- _ => discriminate H
  | H : Panic = Ok _ |- _ => discriminate H
  | a : _ * _ |- _ => destruct a
  end.

(** ** Machine integers

    A [uN] or [iN] value is a [Z] in range; conversions and arithmetic that
    can leave the range are written out. *)
Definition u8 (z : Z) : Prop := 0 ≤ z < 2 ^ 8.
Definition u32 (z : Z) : Prop := 0 ≤ z < 2 ^ 32.
Definition u64 (z : Z) : Prop := 0 ≤ z < 2 ^ 64.
Definition i64 (z : Z) : Prop := - 2 ^ 63 ≤ z < 2 ^ 63.

#[global] Instance u8_dec z : Decision (u8 z).
Proof. unfold u8. apply _. Defined.
#[global] Instance u32_dec z : Decision (u32 z).
Proof. unfold u32. apply _. Defined.
#[global] Instance u64_dec z : Decision (u64 z).
Proof. unfold u64. apply _. Defined.

(** [x as u8], [x as u32], [x as u64], [x as i64]. *)
Definition as_u8 (z : Z) : Z := z mod 2 ^ 8.
Definition as_u32 (z : Z) : Z := z mod 2 ^ 32.
Definition as_u64 (z : Z) : Z := z mod 2 ^ 64.
Definition as_i64 (z : Z) : Z := (z + 2 ^ 63) mod 2 ^ 64 - 2 ^ 63.

(** [u32::try_from(x).ok()]. *)
Definition try_u32 (z : Z) : option Z := if decide (u32 z) then Some z else None.

(** [a.checked_add(b)] on [u32], on [u64]/[usize] and on [i64]. *)
Definition checked_add_u32 (a b : Z) : option Z :=
  if a + b <? 2 ^ 32 then Some (a + b) else None.
Definition checked_add_u64 (a b : Z) : option Z :=
  if a + b <? 2 ^ 64 then Some (a + b) else None.
Definition checked_add_i64 (a b : Z) : option Z :=
  if (- 2 ^ 63 <=? a + b) && (a + b <? 2 ^ 63) then Some (a + b) else None.

(** [a.checked_sub(1)] on an unsigned value. *)
Definition checked_sub1 (a : Z) : option Z := if a =? 0 then None else Some (a - 1).

(** Turn the boolean tests of the code into propositions. *)
Ltac bool_prop :=
  repeat match goal with
  | H : (_ =? _) = true |- _ => apply Z.eqb_eq in H
  | H : (_ =? _) = false |- _ => apply Z.eqb_neq in H
  | H : (_ <? _) = true |- _ => apply Z.ltb_lt in H
  | H : (_ <? _) = false |- _ => apply Z.ltb_ge in H
  | H : (_ <=? _) = true |- _ => apply Z.leb_le in H
  | H : (_ <=? _) = false |- _ => apply Z.leb_gt in H
  | H : (_ <=? _)%nat = true |- _ => apply Nat.leb_le in H
  | H : (_ <=? _)%nat = false |- _ => apply Nat.leb_gt in H
  | H : (_ <? _)%nat = true |- _ => apply Nat.ltb_lt in H
  | H : (_ <? _)%nat = false |- _ => apply Nat.ltb_ge in H
  | H : (_ =? _)%nat = true |- _ => apply Nat.eqb_eq in H
  | H : (_ =? _)%nat = false |- _ => apply Nat.eqb_neq in H
  | H : (_ && _) = true |- _ => apply andb_true_iff in H as [??]
  | H : (_ || _) = false |- _ => apply orb_false_iff in H as [??]
  | H : negb _ = true |- _ => apply negb_true_iff in H
  | H : negb _ = false |- _ => apply negb_false_iff in H
  end.

(** Case on the condition of an [if] in the goal, with its meaning. *)
Ltac case_if :=
  match goal with
  | |- context [if ?b then _ else _] =>
      match type of b with
      | bool => let E := fresh "E" in destruct b eqn:E; bool_prop
      | _ => let E := fresh "E" in destruct b as [E|E]
      end
  end.

(** Solve a range goal after unfolding the machine types. *)
Ltac mach := unfold u8, u32, u64, i64, as_u8, as_u32, as_u64, as_i64 in *; lia.

Lemma as_u64_id z : u64 z → as_u64 z = z.
Proof. intros. apply Z.mod_small. mach. Qed.
Lemma as_u32_id z : u32 z → as_u32 z = z.
Proof. intros. apply Z.mod_small. mach. Qed.
Lemma as_u8_id z : u8 z → as_u8 z = z.
Proof. intros. apply Z.mod_small. mach. Qed.
Lemma as_i64_id z : i64 z → as_i64 z = z.
Proof. intros. unfold as_i64. rewrite Z.mod_small; mach. Qed.
Lemma as_u64_range z : u64 (as_u64 z).
Proof. apply Z.mod_pos_bound. lia. Qed.
Lemma as_u32_range z : u32 (as_u32 z).
Proof. apply Z.mod_pos_bound. lia. Qed.
Lemma as_u8_range z : u8 (as_u8 z).
Proof. apply Z.mod_pos_bound. lia. Qed.
Lemma as_u64_as_i64 z : as_u64 (as_i64 z) = as_u64 z.
Proof.
  unfold as_u64, as_i64. rewrite <- (Zminus_mod_idemp_l), Zmod_mod, Zminus_mod_idemp_l.
  f_equal. lia.
Qed.

Lemma try_u32_Some z : u32 z → try_u32 z = Some z.
Proof. intros. unfold try_u32. by rewrite decide_True. Qed.
Lemma try_u32_inv z z' : try_u32 z = Some z' → z' = z ∧ u32 z.
Proof. unfold try_u32. case_decide; naive_solver. Qed.

(** ** Lists *)

(** Offsets of a list of lengths: the start of block [i]. *)
Lemma drop_app_eq {A} (l k : list A) n : n = length l → drop n (l ++ k) = k.
Proof. intros ->. by rewrite drop_app_length. Qed.
Lemma take_app_eq {A} (l k : list A) n : n = length l → take n (l ++ k) = l.
Proof. intros ->. by rewrite take_app_length. Qed.

Lemma drop_app_inv {A} (l k rest : list A) n :
  drop n l = k ++ rest → drop (n + length k) l = rest.
Proof. intros H. rewrite <- drop_drop, H. apply drop_app_length. Qed.

Lemma drop_app_take {A} (l k rest : list A) n :
  drop n l = k ++ rest → take (length k) (drop n l) = k.
Proof. intros ->. apply take_app_length. Qed.

Lemma drop_length_le {A} (l k : list A) n :
  drop n l = k → (0 < length k)%nat → (n + length k = length l)%nat.
Proof. intros <-. rewrite length_drop. lia. Qed.

Lemma drop_lookup_Some {A} (l rest : list A) n x :
  drop n l = x :: rest → l !! n = Some x.
Proof.
  intros H. rewrite <- (Nat.add_0_r n), <- lookup_drop, H. done.
Qed.

(** Indices of a list paired with its elements: [iter().enumerate()]. *)
Fixpoint enum_from {A} (n : nat) (l : list A) : list (nat * A) :=
  match l with
  | [] => []
  | a :: l => (n, a) :: enum_from (S n) l
  end.
Definition enumerate {A} (l : list A) : list (nat * A) := enum_from 0 l.

Lemma length_enum_from {A} n (l : list A) : length (enum_from n l) = length l.
Proof. revert n. induction l; simpl; auto. Qed.

Lemma lookup_enum_from {A} n (l : list A) i :
  enum_from n l !! i = (λ a, ((n + i)%nat, a)) <$> l !! i.
Proof.
  revert n i. induction l as [|a l IH]; intros n [|i]; simpl; try done.
  - by rewrite Nat.add_0_r.
  - rewrite IH. by replace (S n + i)%nat with (n + S i)%nat by lia.
Qed.

Lemma elem_of_enum_from {A} n (l : list A) p :
  p ∈ enum_from n l ↔ (n ≤ p.1)%nat ∧ l !! (p.1 - n)%nat = Some p.2.
Proof.
  rewrite list_elem_of_lookup. setoid_rewrite lookup_enum_from. split.
  - intros [i Hi]. destruct (l !! i) eqn:E; simplify_eq/=. split; [lia|].
    by replace (n + i - n)%nat with i by lia.
  - intros [Hle Hl]. exists (p.1 - n)%nat. rewrite Hl. destruct p; simpl in *.
    do 2 f_equal. lia.
Qed.

(** ** Sorted lists *)

Lemma sorted_filter {A} (R : A → A → Prop) (P : A → Prop) `{∀ x, Decision (P x)} l :
  StronglySorted R l → StronglySorted R (filter P l).
Proof.
  induction 1 as [|x l Hl IH Hx]; [constructor|]. rewrite filter_cons. case_decide; [|done].
  constructor; [done|]. rewrite Forall_forall in Hx |- *. intros y [_ Hy]%list_elem_of_filter. by apply Hx.
Qed.
Lemma sorted_lookup {A} (R : A → A → Prop) l i j x y :
  StronglySorted R l → l !! i = Some x → l !! j = Some y → (i < j)%nat → R x y.
Proof.
  intros Hl Hx Hy Hij. rewrite <- (take_drop (S i) l) in Hl.
  eapply StronglySorted_app_1_elem_of; [exact Hl|..]; apply list_elem_of_lookup.
  - exists i. by rewrite lookup_take_lt by lia.
  - exists (j - S i)%nat. rewrite lookup_drop. by replace (S i + (j - S i))%nat with j by lia.
Qed.

Lemma sorted_impl_in {A} (R R' : A → A → Prop) l :
  StronglySorted R l → (∀ x y, x ∈ l → y ∈ l → R x y → R' x y) → StronglySorted R' l.
Proof.
  induction 1 as [|x l Hl IH Hx]; intros H; [constructor|]. constructor.
  - apply IH. intros y z Hy Hz. apply H; by right.
  - rewrite Forall_forall in Hx |- *. intros y Hy. apply H; [by left|by right|by apply Hx].
Qed.

Lemma filter_iff_in {A} (P Q : A → Prop) `{∀ x, Decision (P x), ∀ x, Decision (Q x)} (l : list A) :
  (∀ x, x ∈ l → P x ↔ Q x) → filter P l = filter Q l.
Proof.
  induction l as [|x l IH]; intros H'; [done|]. rewrite !filter_cons.
  assert (P x ↔ Q x) by (apply H'; by left).
  rewrite IH by (intros y Hy; apply H'; by right). repeat case_decide; naive_solver.
Qed.

Lemma filter_fmap {A B} (f : A → B) (P : B → Prop) `{∀ x, Decision (P x)} (l : list A) :
  filter P (f <$> l) = f <$> filter (λ a, P (f a)) l.
Proof. induction l as [|a l IH]; [done|]. rewrite fmap_cons, !filter_cons. case_decide; by rewrite IH. Qed.

Lemma enumerate_sorted {A} (l : list A) :
  StronglySorted (λ a b : nat * A, (a.1 < b.1)%nat) (enumerate l).
Proof.
  unfold enumerate. generalize 0%nat. induction l as [|x l IH]; intros n; constructor; [apply IH|].
  apply Forall_forall. intros y [Hy _]%elem_of_enum_from. simpl. lia.
Qed.
Lemma enumerate_elem {A} (l : list A) i x : (i, x) ∈ enumerate l ↔ l !! i = Some x.
Proof. unfold enumerate. rewrite elem_of_enum_from. simpl. rewrite Nat.sub_0_r. naive_solver lia. Qed.

Lemma filter_none {A} (P : A → Prop) `{∀ x, Decision (P x)} (l : list A) :
  (∀ x, x ∈ l → ¬ P x) → filter P l = [].
Proof.
  intros Hn. destruct (filter P l) as [|x k] eqn:E; [done|].
  assert (x ∈ filter P l) as [? ?]%list_elem_of_filter by (rewrite E; by left). by destruct (Hn x).
Qed.

Lemma filter_nil_inv {A} (P : A → Prop) `{∀ x, Decision (P x)} (l : list A) x :
  filter P l = [] → x ∈ l → ¬ P x.
Proof.
  intros Hl Hx HP. assert (x ∈ filter P l) as Hf by by apply list_elem_of_filter.
  rewrite Hl in Hf. by apply elem_of_nil in Hf.
Qed.
Lemma selected_sorted {A} (P : nat * A → Prop) `{∀ x, Decision (P x)} (l : list A) :
  StronglySorted lt (filter P (enumerate l)).*1.
Proof.
  apply (StronglySorted_fmap _ (λ a b : nat * A, (a.1 < b.1)%nat)); [done|].
  apply sorted_filter, enumerate_sorted.
Qed.

Lemma enumerate_NoDup {A} (l : list A) : NoDup (enumerate l).
Proof.
  unfold enumerate. generalize 0%nat. induction l as [|x l IH]; intros n; constructor; [|apply IH].
  intros [Hn _]%elem_of_enum_from. simpl in Hn. lia.
Qed.
