(* ===== verification/Text.v ===== *)
(** * Rust strings

    A [&str] or [String] is a sequence of Unicode scalar values ([str]); its
    bytes are the UTF-8 encoding ([as_bytes]) and [str::from_utf8] is the
    strict decoder of the language's standard library ([from_utf8]). *)
From S2P Require Import Prelude.

(** A Unicode scalar value. *)
Definition scalar (c : Z) : Prop := 0 ≤ c < 0xD800 ∨ 0xE000 ≤ c < 0x110000.
#[global] Instance scalar_dec c : Decision (scalar c).
Proof. unfold scalar. apply _. Defined.

Abbreviation str := (list Z).

(** Every [str] a program can hold. *)
Definition valid_str (s : str) : Prop := Forall scalar s.
#[global] Instance valid_str_dec s : Decision (valid_str s).
Proof. unfold valid_str. apply _. Defined.

(** An ASCII string literal. *)
Definition lit (s : string) : str :=
  (λ a, Z.of_N (Ascii.N_of_ascii a)) <$> String.list_ascii_of_string s.

(** ** UTF-8 *)

Definition utf8_char (c : Z) : list Z :=
  if c <? 0x80 then [c]
  else if c <? 0x800 then [0xC0 + c / 64; 0x80 + c mod 64]
  else if c <? 0x10000 then [0xE0 + c / 4096; 0x80 + c / 64 mod 64; 0x80 + c mod 64]
  else [0xF0 + c / 262144; 0x80 + c / 4096 mod 64; 0x80 + c / 64 mod 64; 0x80 + c mod 64].

(** [s.as_bytes()]. *)
Definition as_bytes (s : str) : list Z := s ≫= utf8_char.

(** [s.len()]: the length in bytes. *)
Definition str_len (s : str) : nat := length (as_bytes s).

(** The payload of a continuation byte. *)
Definition cont (b : Z) : option Z :=
  if (0x80 <=? b) && (b <? 0xC0) then Some (b - 0x80) else None.

(** One scalar value from the front of a byte string: the shortest form only,
    no surrogates, nothing above U+10FFFF. *)
Definition utf8_next (bs : list Z) : option (Z * list Z) :=
  match bs with
  | [] => None
  | b0 :: r0 =>
    if b0 <? 0x80 then Some (b0, r0)
    else if b0 <? 0xC2 then None
    else if b0 <? 0xE0 then
      match r0 with
      | b1 :: r1 => c1 ← cont b1; Some ((b0 - 0xC0) * 64 + c1, r1)
      | _ => None
      end
    else if b0 <? 0xF0 then
      match r0 with
      | b1 :: b2 :: r2 =>
          c1 ← cont b1; c2 ← cont b2;
          let c := (b0 - 0xE0) * 4096 + c1 * 64 + c2 in
          if (0x800 <=? c) && bool_decide (scalar c) then Some (c, r2) else None
      | _ => None
      end
    else if b0 <? 0xF5 then
      match r0 with
      | b1 :: b2 :: b3 :: r3 =>
          c1 ← cont b1; c2 ← cont b2; c3 ← cont b3;
          let c := (b0 - 0xF0) * 262144 + c1 * 4096 + c2 * 64 + c3 in
          if (0x10000 <=? c) && (c <? 0x110000) then Some (c, r3) else None
      | _ => None
      end
    else None
  end.

Fixpoint from_utf8_fuel (n : nat) (bs : list Z) : option str :=
  match bs with
  | [] => Some []
  | _ =>
    match n with
    | O => None
    | S n => '(c, r) ← utf8_next bs; s ← from_utf8_fuel n r; Some (c :: s)
    end
  end.

(** [str::from_utf8(bs).ok()]; every step consumes a byte, so the length is
    enough fuel. *)
Definition from_utf8 (bs : list Z) : option str := from_utf8_fuel (length bs) bs.

Lemma cont_mod x : 0 ≤ x → cont (0x80 + x mod 64) = Some (x mod 64).
Proof.
  intros Hx. pose proof (Z.mod_pos_bound x 64 ltac:(lia)) as B.
  unfold cont. assert ((0x80 <=? 0x80 + x mod 64) = true) as -> by (apply Z.leb_le; lia).
  assert ((0x80 + x mod 64 <? 0xC0) = true) as -> by (apply Z.ltb_lt; lia).
  simpl. f_equal. lia.
Qed.

Lemma utf8_next_char c rest : scalar c → utf8_next (utf8_char c ++ rest) = Some (c, rest).
Proof.
  intros Hc. pose proof Hc as Hs. unfold utf8_char. unfold scalar in Hc.
  repeat case_if; simpl.
  - by rewrite (proj2 (Z.ltb_lt c 0x80)).
  - assert (2 ≤ c / 64 < 32) by (split; [apply Z.div_le_lower_bound|apply Z.div_lt_upper_bound]; lia).
    repeat (case_if; try lia). simpl. rewrite cont_mod by lia. simpl.
    do 2 f_equal. pose proof (Z.div_mod c 64). lia.
  - assert (0 ≤ c / 4096 < 16) by (split; [apply Z.div_le_lower_bound|apply Z.div_lt_upper_bound]; lia).
    repeat (case_if; try lia). simpl.
    rewrite !cont_mod by (try apply Z.div_pos; lia). simpl.
    replace ((0xE0 + c / 4096 - 0xE0) * 4096 + c / 64 mod 64 * 64 + c mod 64) with c.
    + rewrite (proj2 (Z.leb_le 0x800 c)), bool_decide_true by (done || lia). done.
    + pose proof (Z.div_mod c 64). pose proof (Z.div_mod (c / 64) 64).
      rewrite Zdiv_Zdiv in * by lia. change (64 * 64) with 4096 in *. lia.
  - assert (0 ≤ c / 262144 < 5) by (split; [apply Z.div_le_lower_bound|apply Z.div_lt_upper_bound]; lia).
    repeat (case_if; try lia). simpl.
    rewrite !cont_mod by (try apply Z.div_pos; lia). simpl.
    match goal with |- context [if (_ <=? ?x) && _ then _ else _] => replace x with c end.
    + rewrite (proj2 (Z.leb_le 0x10000 c)), (proj2 (Z.ltb_lt c 0x110000)) by lia. done.
    + pose proof (Z.div_mod c 64). pose proof (Z.div_mod (c / 64) 64).
      pose proof (Z.div_mod (c / 4096) 64).
      rewrite !Zdiv_Zdiv in * by lia. change (64 * 64) with 4096 in *.
      change (4096 * 64) with 262144 in *. lia.
Qed.

Lemma utf8_char_nonempty c : (0 < length (utf8_char c))%nat.
Proof. unfold utf8_char. repeat case_if; simpl; lia. Qed.

Lemma from_utf8_fuel_bytes n s :
  valid_str s → (length (as_bytes s) ≤ n)%nat → from_utf8_fuel n (as_bytes s) = Some s.
Proof.
  unfold as_bytes. revert n. induction s as [|c s IH]; intros n Hv Hn; [by destruct n|].
  apply Forall_cons in Hv as [Hc Hv]. change ((c :: s) ≫= utf8_char) with (utf8_char c ++ (s ≫= utf8_char)) in *.
  rewrite length_app in Hn. pose proof (utf8_char_nonempty c).
  destruct n as [|n]; [lia|].
  assert (∀ l k : list Z, (0 < length l)%nat →
    from_utf8_fuel (S n) (l ++ k)
    = '(c, r) ← utf8_next (l ++ k); s ← from_utf8_fuel n r; Some (c :: s)) as Hstep.
  { intros [|x l] k Hl; simpl in *; [lia|done]. }
  rewrite Hstep, utf8_next_char by done. simpl. rewrite IH; [done|done|lia].
Qed.

Lemma from_utf8_as_bytes s : valid_str s → from_utf8 (as_bytes s) = Some s.
Proof. intros. by apply from_utf8_fuel_bytes. Qed.

Lemma cont_inv b x : cont b = Some x → b = 0x80 + x ∧ 0 ≤ x < 64.
Proof. unfold cont. case_if; intros; simplify_eq; lia. Qed.

(** The decoder accepts exactly the encodings: what it reads back is what it
    was given. *)
Lemma utf8_next_inv bs c rest :
  Forall u8 bs → utf8_next bs = Some (c, rest) → scalar c ∧ bs = utf8_char c ++ rest.
Proof.
  destruct bs as [|b0 r0]; [done|]. intros [Hb0 Hr]%Forall_cons. simpl.
  assert (∀ a b, 0 ≤ b < 64 → (a * 64 + b) / 64 = a ∧ (a * 64 + b) mod 64 = b) as Hdm.
  { intros a b Hb. split.
    - rewrite Z.div_add_l, Z.div_small by lia. lia.
    - rewrite Z.add_comm, Z.mod_add, Z.mod_small by lia. done. }
  repeat case_if; try done.
  - intros [= <- <-]. split; [left; mach|]. unfold utf8_char.
    by rewrite (proj2 (Z.ltb_lt b0 0x80)) by lia.
  - destruct r0 as [|b1 r1]; [done|]. intros H.
    destruct (cont b1) as [c1|] eqn:H1; simplify_eq/=.
    apply cont_inv in H1 as [-> Hc1]. split; [left; lia|].
    unfold utf8_char. repeat (case_if; try lia).
    destruct (Hdm (b0 - 0xC0) c1) as [-> ->]; [done|]. simpl. f_equal. lia.
  - destruct r0 as [|b1 [|b2 r2]]; [done|done|]. intros H.
    destruct (cont b1) as [c1|] eqn:H1; simplify_eq/=.
    destruct (cont b2) as [c2|] eqn:H2; simplify_eq/=.
    apply cont_inv in H1 as [-> Hc1]. apply cont_inv in H2 as [-> Hc2].
    destruct (_ && _) eqn:Hg; [|done]. apply andb_true_iff in Hg as [Hge Hsc].
    apply bool_decide_eq_true in Hsc. bool_prop. injection H as <- <-. split; [done|].
    replace ((b0 - 0xE0) * 4096 + c1 * 64 + c2) with (((b0 - 0xE0) * 64 + c1) * 64 + c2) in * by lia.
    set (c := _ * 64 + c2) in *.
    assert (c / 64 = (b0 - 0xE0) * 64 + c1 ∧ c mod 64 = c2) as [Hd Hm] by (by apply Hdm).
    assert (c / 4096 = b0 - 0xE0 ∧ c / 64 mod 64 = c1) as [Hd2 Hm2].
    { change 4096 with (64 * 64). rewrite <- Z.div_div, Hd by lia. by apply Hdm. }
    unfold utf8_char. repeat (case_if; try (unfold scalar in Hsc; lia)).
    rewrite Hd2, Hm2, Hm. simpl. f_equal. lia.
  - destruct r0 as [|b1 [|b2 [|b3 r3]]]; [done|done|done|]. intros H.
    destruct (cont b1) as [c1|] eqn:H1; simplify_eq/=.
    destruct (cont b2) as [c2|] eqn:H2; simplify_eq/=.
    destruct (cont b3) as [c3|] eqn:H3; simplify_eq/=.
    apply cont_inv in H1 as [-> Hc1]. apply cont_inv in H2 as [-> Hc2].
    apply cont_inv in H3 as [-> Hc3].
    destruct (_ && _) eqn:Hg; [|done]. bool_prop. injection H as <- <-.
    split; [right; lia|].
    replace ((b0 - 0xF0) * 262144 + c1 * 4096 + c2 * 64 + c3)
      with ((((b0 - 0xF0) * 64 + c1) * 64 + c2) * 64 + c3) in * by lia.
    set (c := _ * 64 + c3) in *.
    assert (c / 64 = ((b0 - 0xF0) * 64 + c1) * 64 + c2 ∧ c mod 64 = c3) as [Hd Hm] by (by apply Hdm).
    assert (c / 4096 = (b0 - 0xF0) * 64 + c1 ∧ c / 64 mod 64 = c2) as [Hd2 Hm2].
    { change 4096 with (64 * 64). rewrite <- Z.div_div, Hd by lia. by apply Hdm. }
    assert (c / 262144 = b0 - 0xF0 ∧ c / 4096 mod 64 = c1) as [Hd3 Hm3].
    { change 262144 with (4096 * 64). rewrite <- Z.div_div, Hd2 by lia. by apply Hdm. }
    unfold utf8_char. repeat (case_if; try lia).
    rewrite Hd3, Hm3, Hm2, Hm. simpl. f_equal. lia.
Qed.

#[local] Arguments utf8_next : simpl never.

Lemma from_utf8_fuel_inv n bs s :
  Forall u8 bs → from_utf8_fuel n bs = Some s → valid_str s ∧ as_bytes s = bs.
Proof.
  revert bs s. induction n as [|n IH]; intros bs s Hbs; destruct bs as [|b bs]; simpl;
    try (intros [= <-]; split; [constructor|done]); try done.
  destruct (utf8_next (b :: bs)) as [[c r]|] eqn:Hn; [|done]. simpl.
  destruct (from_utf8_fuel n r) as [s'|] eqn:Hr; [|done]. intros [= <-].
  apply utf8_next_inv in Hn as [Hc Heq]; [|done]. rewrite Heq in Hbs.
  apply Forall_app in Hbs as [_ Hrb]. apply IH in Hr as [Hv Hb]; [|done].
  split; [by constructor|]. by rewrite Heq, <- Hb.
Qed.

Lemma from_utf8_inv bs s :
  Forall u8 bs → from_utf8 bs = Some s → valid_str s ∧ as_bytes s = bs.
Proof. apply from_utf8_fuel_inv. Qed.

Lemma utf8_char_u8 c : scalar c → Forall u8 (utf8_char c).
Proof.
  unfold scalar, utf8_char. intros Hc.
  assert (∀ x, 0 ≤ x mod 64 < 64) by (intros; apply Z.mod_pos_bound; lia).
  assert (0 ≤ c / 64) by (apply Z.div_pos; lia).
  assert (0 ≤ c / 4096) by (apply Z.div_pos; lia).
  assert (0 ≤ c / 262144 < 5) by (split; [apply Z.div_pos|apply Z.div_lt_upper_bound]; lia).
  assert (c < 0x10000 → c / 4096 < 16) by (intros; apply Z.div_lt_upper_bound; lia).
  assert (c < 0x800 → c / 64 < 32) by (intros; apply Z.div_lt_upper_bound; lia).
  repeat case_if; repeat constructor;
    match goal with |- context [(?x mod 64)] => specialize (H x) | _ => idtac end; try mach.
Qed.

Lemma as_bytes_u8 s : valid_str s → Forall u8 (as_bytes s).
Proof.
  induction 1 as [|c s Hc _ IH]; [constructor|].
  change (as_bytes (c :: s)) with (utf8_char c ++ as_bytes s).
  apply Forall_app. split; [by apply utf8_char_u8|done].
Qed.

Lemma as_bytes_inj s t : valid_str s → valid_str t → as_bytes s = as_bytes t → s = t.
Proof.
  intros Hs Ht H. apply from_utf8_as_bytes in Hs. apply from_utf8_as_bytes in Ht.
  rewrite H in Hs. congruence.
Qed.

(** ** The string operations the sources use *)

(** [c.to_ascii_lowercase()]. *)
Definition char_lower (c : Z) : Z := if (65 <=? c) && (c <=? 90) then c + 32 else c.
(** [s.to_ascii_lowercase()]. *)
Definition to_ascii_lowercase (s : str) : str := char_lower <$> s.
(** [a.eq_ignore_ascii_case(b)]. *)
Definition eq_ignore_ascii_case (a b : str) : bool :=
  bool_decide (to_ascii_lowercase a = to_ascii_lowercase b).
(** [c.is_ascii_digit()]. *)
Definition is_ascii_digit (c : Z) : bool := (48 <=? c) && (c <=? 57).

(** [s.strip_prefix(p)]. *)
Fixpoint strip_prefix (p s : str) : option str :=
  match p, s with
  | [], _ => Some s
  | a :: p, b :: s => if a =? b then strip_prefix p s else None
  | _ :: _, [] => None
  end.
(** [s.strip_suffix(p)]. *)
Definition strip_suffix (p s : str) : option str :=
  reverse <$> strip_prefix (reverse p) (reverse s).
Definition starts_with (s p : str) : bool := bool_decide (is_Some (strip_prefix p s)).
Definition ends_with (s p : str) : bool := bool_decide (is_Some (strip_suffix p s)).
(** [s.contains(p)]. *)
Fixpoint contains (s p : str) : bool :=
  starts_with s p || match s with [] => false | _ :: s => contains s p end.

(** [s.split(c)]: at least one piece, empty pieces kept. *)
Fixpoint split_on (p : Z → bool) (s : str) : list str :=
  match s with
  | [] => [[]]
  | c :: s =>
      if p c then [] :: split_on p s
      else match split_on p s with
           | w :: ws => (c :: w) :: ws
           | [] => [[c]]
           end
  end.
(** [parts.join(sep)]. *)
Fixpoint join (sep : str) (l : list str) : str :=
  match l with
  | [] => []
  | [w] => w
  | w :: l => w ++ sep ++ join sep l
  end.

Lemma char_lower_idemp c : char_lower (char_lower c) = char_lower c.
Proof. unfold char_lower. repeat case_if; try done; bool_prop; lia. Qed.

Lemma lower_idemp s : to_ascii_lowercase (to_ascii_lowercase s) = to_ascii_lowercase s.
Proof.
  unfold to_ascii_lowercase. rewrite <- list_fmap_compose.
  apply list_fmap_ext. intros. apply char_lower_idemp.
Qed.

Lemma strip_prefix_Some p s r : strip_prefix p s = Some r ↔ s = p ++ r.
Proof.
  revert s. induction p as [|a p IH]; intros s; simpl; [naive_solver|].
  destruct s as [|b s]; [naive_solver|]. case_if; subst.
  - rewrite IH. naive_solver.
  - naive_solver.
Qed.

Lemma strip_suffix_Some p s r : strip_suffix p s = Some r ↔ s = r ++ p.
Proof.
  unfold strip_suffix. rewrite fmap_Some. setoid_rewrite strip_prefix_Some. split.
  - intros (x & Hx & ->). apply (f_equal reverse) in Hx.
    by rewrite reverse_involutive, reverse_app, reverse_involutive in Hx.
  - intros ->. exists (reverse r). by rewrite reverse_app, reverse_involutive.
Qed.

Lemma starts_with_spec s p : starts_with s p = true ↔ ∃ r, s = p ++ r.
Proof.
  unfold starts_with. rewrite bool_decide_eq_true. unfold is_Some.
  by setoid_rewrite strip_prefix_Some.
Qed.

Lemma ends_with_spec s p : ends_with s p = true ↔ ∃ r, s = r ++ p.
Proof.
  unfold ends_with. rewrite bool_decide_eq_true. unfold is_Some.
  by setoid_rewrite strip_suffix_Some.
Qed.

Lemma contains_spec s p : contains s p = true ↔ ∃ l r, s = l ++ p ++ r.
Proof.
  induction s as [|c s IH]; simpl; rewrite orb_true_iff, starts_with_spec.
  - split; [intros [[r Hr]|?]; [|done]|intros (l & r & H)].
    + by exists [], r.
    + left. exists r. symmetry in H. apply app_nil in H as [-> H]. done.
  - rewrite IH. split.
    + intros [[r Hr]|(l & r & ->)]; [by exists [], r|by exists (c :: l), r].
    + intros ([|x l] & r & H); simpl in *; [left; by exists r|].
      right. injection H as -> ->. by exists l, r.
Qed.

Lemma split_on_nonempty p s : split_on p s ≠ [].
Proof. destruct s as [|c s]; simpl; [done|]. case_if; [done|]. by destruct (split_on p s). Qed.

Lemma split_on_no_sep p s w : w ∈ split_on p s → Forall (λ c, p c = false) w.
Proof.
  revert w. induction s as [|c s IH]; simpl; intros w.
  - intros ->%list_elem_of_singleton. constructor.
  - case_if.
    + intros [->|Hw]%elem_of_cons; [constructor|auto].
    + destruct (split_on p s) as [|x xs] eqn:Hs.
      * intros ->%list_elem_of_singleton. by repeat constructor.
      * intros [->|Hw]%elem_of_cons.
        -- constructor; [done|]. apply IH. by left.
        -- apply IH. by right.
Qed.

Lemma split_on_word p w :
  Forall (λ c, p c = false) w → split_on p w = [w].
Proof. induction 1 as [|c w Hc _ IH]; simpl; [done|]. by rewrite Hc, IH. Qed.

Lemma split_on_app p w c s :
  Forall (λ c, p c = false) w → p c = true → split_on p (w ++ c :: s) = w :: split_on p s.
Proof.
  intros Hw Hc. induction Hw as [|x w Hx _ IH]; simpl; [by rewrite Hc|].
  by rewrite Hx, IH.
Qed.

(** Splitting what was joined gives the words back. *)
Lemma split_on_join p sep l :
  p sep = true → l ≠ [] → Forall (Forall (λ c, p c = false)) l →
  split_on p (join [sep] l) = l.
Proof.
  intros Hsep Hl H. induction H as [|w l Hw Hls IH]; [done|].
  destruct l as [|w' l]; [by apply split_on_word|].
  change (join [sep] (w :: w' :: l)) with (w ++ sep :: join [sep] (w' :: l)).
  rewrite split_on_app by done. f_equal. by apply IH.
Qed.
