(* ===== verification/Schema.v ===== *)
(** * graph-core schema and the store's errors

    The node vocabulary of [graph-core/src/schema.rs] (kinds, token classes,
    spans, nodes), the extractor's output records of
    [graph-core/src/extractor.rs] and [StoreError] of
    [graph-store/src/lib.rs]. *)
From S2P Require Import Prelude Text.

(** Hierarchy: Org > Repo > File > Symbol* > Token. *)
Inductive NodeKind : Set := Org | Repo | File | Symbol | Token.
#[global] Instance NodeKind_eq_dec : EqDecision NodeKind.
Proof. solve_decision. Defined.

Definition can_contain (parent child : NodeKind) : bool :=
  match parent, child with
  | Org, Repo | Repo, File | File, Symbol | File, Token
  | Symbol, Symbol | Symbol, Token => true
  | _, _ => false
  end.

Inductive SymbolKind : Set :=
  | SKModule | SKType | SKFunction | SKMethod | SKVariable | SKConstant | SKOther.
#[global] Instance SymbolKind_eq_dec : EqDecision SymbolKind.
Proof. solve_decision. Defined.

Inductive TokenClass : Set :=
  | Identifier | Keyword | Literal | Operator | Punctuation | Comment | TCOther.
#[global] Instance TokenClass_eq_dec : EqDecision TokenClass.
Proof. solve_decision. Defined.

Definition SymbolKind_as_str (k : SymbolKind) : str :=
  match k with
  | SKModule => lit "module"
  | SKType => lit "type"
  | SKFunction => lit "function"
  | SKMethod => lit "method"
  | SKVariable => lit "variable"
  | SKConstant => lit "constant"
  | SKOther => lit "other"
  end.

Definition TokenClass_as_str (c : TokenClass) : str :=
  match c with
  | Identifier => lit "identifier"
  | Keyword => lit "keyword"
  | Literal => lit "literal"
  | Operator => lit "operator"
  | Punctuation => lit "punctuation"
  | Comment => lit "comment"
  | TCOther => lit "other"
  end.

Definition SymbolKind_from_str (s : str) : outcome str SymbolKind :=
  if decide (s = lit "module") then Ok SKModule
  else if decide (s = lit "type") then Ok SKType
  else if decide (s = lit "function") then Ok SKFunction
  else if decide (s = lit "method") then Ok SKMethod
  else if decide (s = lit "variable") then Ok SKVariable
  else if decide (s = lit "constant") then Ok SKConstant
  else if decide (s = lit "other") then Ok SKOther
  else Err (lit "unknown symbol kind `" ++ s ++ lit "`").

Definition TokenClass_from_str (s : str) : outcome str TokenClass :=
  if decide (s = lit "identifier") then Ok Identifier
  else if decide (s = lit "keyword") then Ok Keyword
  else if decide (s = lit "literal") then Ok Literal
  else if decide (s = lit "operator") then Ok Operator
  else if decide (s = lit "punctuation") then Ok Punctuation
  else if decide (s = lit "comment") then Ok Comment
  else if decide (s = lit "other") then Ok TCOther
  else Err (lit "unknown token class `" ++ s ++ lit "`").

(** Source range: byte offsets [start, end), 1-based lines and columns; every
    field is a [u32]. *)
Record Span : Set := mkSpan {
  start : Z;
  end_ : Z;
  start_line : Z;
  start_col : Z;
  end_line : Z;
  end_col : Z;
}.
#[global] Instance Span_eq_dec : EqDecision Span.
Proof. solve_decision. Defined.

Definition span_ok (s : Span) : Prop :=
  u32 (start s) ∧ u32 (end_ s) ∧ u32 (start_line s) ∧
  u32 (start_col s) ∧ u32 (end_line s) ∧ u32 (end_col s).

(** A token as produced by an extractor. *)
Record TokenDecl : Set := mkTokenDecl {
  td_text : str;
  td_class : TokenClass;
  td_span : Span;
}.

(** A symbol declared by an extractor. *)
Record SymbolDecl : Set := mkSymbolDecl {
  sd_name : str;
  sd_kind : SymbolKind;
  sd_lang_kind : option str;
  sd_span : Span;
  sd_owner : option str;
}.

Record Extraction : Set := mkExtraction {
  ex_symbols : list SymbolDecl;
  ex_tokens : list TokenDecl;
  ex_has_errors : bool;
}.

(** A stored node. Fields not relevant to a kind are [None]. *)
Record Node : Set := mkNode {
  n_id : Z;
  n_parent : option Z;
  n_kind : NodeKind;
  n_name : str;
  n_language : option str;
  n_symbol_kind : option SymbolKind;
  n_lang_kind : option str;
  n_token_class : option TokenClass;
  n_has_errors : bool;
  n_origin : option str;
  n_fingerprint : option str;
  n_encoding : option str;
  n_lossy : bool;
  n_span : option Span;
}.

Inductive SchemaError : Set :=
  | InvalidContainment (parent child : NodeKind).

Definition check_contains (parent child : NodeKind) : outcome SchemaError () :=
  if can_contain parent child then Ok () else Err (InvalidContainment parent child).

(** ** Store errors *)

Inductive StoreError : Set :=
  | Locked (m : str)
  | SchemaMismatch (found : Z)
  | LegacyFormat (path : str) (version : Z)
  | OpenFailed (path reason : str)
  | Rejected (m : str)
  | NotUtf8 (m : str)
  | StrictEncoding (path encoding : str)
  | Binary (m : str)
  | TooLarge (m : str)
  | InvalidSpan (m : str)
  | Corrupt (m : str)
  | Schema (e : SchemaError)
  | Storage (m : str)
  | SnapshotExpired (age_secs max_age_secs : Z)
  | NotLeader (leader_id : option Z) (leader_addr : option str)
  | NoLeader (retry_after_ms : Z)
  | Protocol (m : str)
  | WrongCluster (expected found : str)
  | AlreadyApplied (idx : Z)
  | DeadlineExceeded (m : str)
  | Unauthenticated (m : str)
  | PermissionDenied (msg required_role : str).

Definition LEGACY_STRICT_ENCODING_SUFFIX : str := lit "(strict encoding)".

Definition is_strict_encoding_refusal (e : StoreError) : bool :=
  match e with
  | NotUtf8 _ | StrictEncoding _ _ => true
  | Rejected m => ends_with m LEGACY_STRICT_ENCODING_SUFFIX
  | _ => false
  end.

Abbreviation result := (outcome StoreError).

(** A decimal number in a message. *)
Definition show (z : Z) : str := lit (pretty z).

(** ** Facts *)

Lemma SymbolKind_roundtrip k : SymbolKind_from_str (SymbolKind_as_str k) = Ok k.
Proof. by destruct k. Qed.

Lemma TokenClass_roundtrip c : TokenClass_from_str (TokenClass_as_str c) = Ok c.
Proof. by destruct c. Qed.

Lemma SymbolKind_as_str_inj k k' : SymbolKind_as_str k = SymbolKind_as_str k' → k = k'.
Proof.
  intros H. pose proof (SymbolKind_roundtrip k). pose proof (SymbolKind_roundtrip k').
  congruence.
Qed.

Lemma TokenClass_as_str_inj k k' : TokenClass_as_str k = TokenClass_as_str k' → k = k'.
Proof.
  intros H. pose proof (TokenClass_roundtrip k). pose proof (TokenClass_roundtrip k').
  congruence.
Qed.
