(* ===== verification/Varint.v ===== *)
(** * Varints and the byte reader

    The integer layer of [graph-store/src/codec.rs]: LEB128 varints, zigzag
    deltas and the bounds-checked [Reader]. A writer [fn f(out: &mut Vec<u8>,
    ..)] is modelled by the bytes it appends to [out]. *)
From S2P Require Import Prelude Text Schema.

(** ** Writing *)

(** The loop of [put_varint]; a [u64] needs at most ten bytes, so fuel 10
    never runs out (see [varint_bytes_step]). *)
Fixpoint put_varint_loop (fuel : nat) (v : Z) : list Z :=
  match fuel with
  | O => [as_u8 v]
  | S n =>
      if 0x80 <=? v then Z.lor (as_u8 v) 0x80 :: put_varint_loop n (Z.shiftr v 7)
      else [as_u8 v]
  end.

Definition put_varint (v : Z) : list Z := put_varint_loop 10 v.
#[global] Arguments put_varint : simpl never.

(** [64 - v.leading_zeros()]. *)
Definition bit_length (v : Z) : Z := if v =? 0 then 0 else Z.log2 v + 1.

(** The number of bytes [put_varint] writes: [bits.max(1).div_ceil(7)]. *)
Definition varint_len (v : Z) : Z := (Z.max (bit_length v) 1 + 6) / 7.

Definition zigzag (d : Z) : Z :=
  as_u64 (Z.lxor (as_i64 (Z.shiftl d 1)) (Z.shiftr d 63)).

Definition unzigzag (v : Z) : Z :=
  Z.lxor (as_i64 (Z.shiftr v 1)) (- as_i64 (Z.land v 1)).

Definition diff (cur base : Z) : Z := zigzag (cur - base).

Definition put_span (s prev : Span) : list Z :=
  put_varint (diff (start s) (start prev)) ++
  put_varint (diff (end_ s) (start s)) ++
  put_varint (diff (start_line s) (start_line prev)) ++
  put_varint (diff (start_col s) (start_col prev)) ++
  put_varint (diff (end_line s) (start_line s)) ++
  put_varint (end_col s).

(** [parent.map_or(0, |p| p as u64 + 1)]. *)
Definition parent_field (p : option Z) : Z :=
  match p with None => 0 | Some p => p + 1 end.

Definition ZERO : Span := mkSpan 0 0 0 0 0 0.

(** ** Reading *)

Record Reader : Set := mkReader { rb : list Z; at_ : nat }.

(** A method of [Reader] with [&mut self]: the state goes in and out. *)
Definition rd (A : Type) : Type := Reader → result (A * Reader).
#[global] Instance rd_mret : MRet rd := λ A a r, Ok (a, r).
#[global] Instance rd_mbind : MBind rd := λ A B f m r,
  '(a, r') ← m r; f a r'.
Definition rd_lift {A} (m : result A) : rd A := λ r, a ← m; Ok (a, r).
Definition rd_pos : rd nat := λ r, Ok (at_ r, r).

Definition bad (what : string) : StoreError := Corrupt (lit "stream: " ++ lit what).

Definition byte : rd Z := λ r,
  v ← ok_or (rb r !! at_ r) (bad "truncated");
  Ok (v, mkReader (rb r) (S (at_ r))).

(** The loop of [varint]: eleven rounds reach [shift = 70], which is refused,
    so fuel 11 never runs out. *)
Fixpoint varint_loop (fuel : nat) (v shift : Z) : rd Z :=
  match fuel with
  | O => λ _, Panic
  | S n =>
      b ← byte;
      if (63 <? shift) || ((shift =? 63) && (1 <? b)) then
        rd_lift (Err (bad "varint overflow"))
      else
        let v := Z.lor v (as_u64 (Z.shiftl (Z.land b 0x7f) shift)) in
        if Z.land b 0x80 =? 0 then mret v else varint_loop n v (shift + 7)
  end.

Definition varint : rd Z := λ r,
  match rb r !! at_ r with
  | Some b =>
      if b <? 0x80 then Ok (b, mkReader (rb r) (S (at_ r)))
      else varint_loop 11 0 0 r
  | None => varint_loop 11 0 0 r
  end.

(** [base + zigzag delta], which must be a [u32]. *)
Definition rel (base : Z) : rd Z :=
  d ← varint;
  v ← rd_lift (ok_or (checked_add_i64 base (unzigzag d)) (bad "span delta overflow"));
  rd_lift (ok_or (try_u32 v) (bad "span field out of range")).

Definition span (prev : Span) : rd Span :=
  s ← rel (start prev);
  e ← rel s;
  sl ← rel (start_line prev);
  sc ← rel (start_col prev);
  el ← rel sl;
  c ← varint;
  ec ← rd_lift (ok_or (try_u32 c) (bad "span col out of range"));
  mret (mkSpan s e sl sc el ec).

Definition parent : rd (option Z) :=
  p ← varint;
  if p =? 0 then mret None
  else q ← rd_lift (ok_or (try_u32 (p - 1)) (bad "parent out of range")); mret (Some q).

(** ** Arithmetic of the encodings *)

Lemma put_varint_loop_step fuel v :
  0 ≤ v < 2 ^ (7 * Z.of_nat (S fuel)) →
  put_varint_loop fuel v =
    if 0x80 <=? v then Z.lor (as_u8 v) 0x80 :: put_varint_loop (pred fuel) (Z.shiftr v 7)
    else [v].
Proof.
  intros Hv. destruct fuel as [|fuel]; simpl.
  - rewrite Z.mul_1_r in Hv. change (2 ^ 7) with 128 in Hv.
    case_if; [lia|]. by rewrite as_u8_id by mach.
  - case_if; [done|]. by rewrite as_u8_id by mach.
Qed.

(** [v as u8 | 0x80] keeps the low seven bits and sets the top one. *)
Lemma low_bits v : 0 ≤ v → Z.lor (as_u8 v) 0x80 = v mod 128 + 128.
Proof.
  intros Hv. unfold as_u8. replace 0x80 with (2 ^ 7) by done.
  assert (Z.lor (v mod 2 ^ 8) (2 ^ 7) = Z.lor (v mod 2 ^ 7) (2 ^ 7)) as ->.
  { apply Z.bits_inj'. intros n Hn. rewrite !Z.lor_spec, Z.pow2_bits_eqb by lia.
    destruct (Z.eqb_spec 7 n); [by rewrite !orb_true_r|].
    rewrite !orb_false_r. destruct (decide (n < 7)).
    - by rewrite !Z.mod_pow2_bits_low by lia.
    - by rewrite !Z.mod_pow2_bits_high by lia. }
  symmetry. apply Z.add_nocarry_lor. apply Z.bits_inj'. intros n Hn.
  rewrite Z.land_spec, Z.pow2_bits_eqb, Z.bits_0 by lia.
  destruct (Z.eqb_spec 7 n); [|apply andb_false_r].
  by rewrite Z.mod_pow2_bits_high by lia.
Qed.

Lemma put_varint_loop_nonempty fuel v : (0 < length (put_varint_loop fuel v))%nat.
Proof. destruct fuel; simpl; [lia|]. case_if; simpl; lia. Qed.

Lemma put_varint_loop_length fuel v : (length (put_varint_loop fuel v) ≤ S fuel)%nat.
Proof.
  revert v. induction fuel as [|fuel IH]; intros v; simpl; [lia|].
  case_if; simpl; [|lia]. specialize (IH (Z.shiftr v 7)). lia.
Qed.

Lemma put_varint_loop_u8 fuel v : 0 ≤ v → Forall u8 (put_varint_loop fuel v).
Proof.
  revert v. induction fuel as [|fuel IH]; intros v Hv; simpl.
  - constructor; [apply as_u8_range|constructor].
  - case_if; constructor; try apply as_u8_range; try by constructor.
    + rewrite low_bits by done. pose proof (Z.mod_pos_bound v 128). mach.
    + apply IH. by apply Z.shiftr_nonneg.
Qed.

Lemma zigzag_spec d : i64 d → zigzag d = if 0 <=? d then 2 * d else - 2 * d - 1.
Proof.
  intros Hd. unfold zigzag. rewrite Z.shiftl_mul_pow2 by lia. change (2 ^ 1) with 2.
  case_if.
  - rewrite Z.shiftr_div_pow2, Z.div_small by mach. rewrite Z.lxor_0_r, as_u64_as_i64.
    rewrite as_u64_id by mach. lia.
  - rewrite Z.shiftr_div_pow2 by lia.
    replace (d / 2 ^ 63) with (-1).
    2:{ apply (Z.div_unique _ _ _ (d + 2 ^ 63)); mach. }
    rewrite Z.lxor_m1_r. unfold Z.lnot.
    assert (∃ k, as_i64 (d * 2) = d * 2 + k * 2 ^ 64) as [k ->].
    { exists (- ((d * 2 + 2 ^ 63) / 2 ^ 64)). unfold as_i64.
      rewrite Z.mod_eq by lia. lia. }
    replace (Z.pred (- (d * 2 + k * 2 ^ 64))) with (-2 * d - 1 + - k * 2 ^ 64) by lia.
    unfold as_u64. rewrite Z.mod_add, Z.mod_small by mach. done.
Qed.

Lemma zigzag_u64 d : i64 d → u64 (zigzag d).
Proof. intros. apply as_u64_range. Qed.

Lemma unzigzag_spec v :
  u64 v → unzigzag v = if Z.even v then v / 2 else - (v / 2) - 1.
Proof.
  intros Hv. unfold unzigzag. change 1 with (Z.ones 1) at 2.
  rewrite Z.land_ones by lia. change (2 ^ 1) with 2.
  rewrite Z.shiftr_div_pow2 by lia. change (2 ^ 1) with 2.
  assert (0 ≤ v / 2 < 2 ^ 63).
  { split; [apply Z.div_pos; mach|apply Z.div_lt_upper_bound; mach]. }
  rewrite !as_i64_id by (pose proof (Z.mod_pos_bound v 2); mach).
  rewrite Zmod_even. destruct (Z.even v).
  - by rewrite Z.lxor_0_r.
  - rewrite Z.lxor_m1_r. unfold Z.lnot. lia.
Qed.

Lemma unzigzag_zigzag d : i64 d → unzigzag (zigzag d) = d.
Proof.
  intros Hd. rewrite unzigzag_spec by (by apply zigzag_u64). rewrite zigzag_spec by done.
  destruct (Z.leb_spec 0 d).
  - rewrite Z.even_mul. simpl. rewrite Z.mul_comm, Z.div_mul; lia.
  - replace (-2 * d - 1) with (1 + 2 * (- d - 1)) by lia.
    rewrite Z.even_add_mul_2. simpl. rewrite Z.mul_comm, Z.div_add, Z.div_small by lia. lia.
Qed.

Lemma zigzag_unzigzag v : u64 v → zigzag (unzigzag v) = v.
Proof.
  intros Hv. rewrite unzigzag_spec by done.
  assert (0 ≤ v / 2 < 2 ^ 63).
  { split; [apply Z.div_pos; mach|apply Z.div_lt_upper_bound; mach]. }
  pose proof (Z.div_mod v 2 ltac:(lia)) as Hdm. rewrite Zmod_even in Hdm.
  destruct (Z.even v); rewrite zigzag_spec by mach; case_if; lia.
Qed.

Lemma diff_i64 a b : u32 a → u32 b → i64 (a - b).
Proof. mach. Qed.
Lemma diff_u64 a b : u32 a → u32 b → u64 (diff a b).
Proof. intros. apply zigzag_u64. mach. Qed.

(** A fact about all bytes, by evaluation. *)
Lemma u8_forall (P : Z → bool) :
  forallb P (seqZ 0 256) = true → ∀ b, u8 b → P b = true.
Proof.
  intros H b Hb. rewrite forallb_forall in H. apply H.
  apply list_elem_of_In, elem_of_seqZ. mach.
Qed.

Lemma land_80 b : u8 b → Z.land b 0x80 = if b <? 0x80 then 0 else 0x80.
Proof.
  intros Hb. apply Z.eqb_eq. revert b Hb. apply (u8_forall (λ b, _)). by vm_compute.
Qed.

Lemma land_7f b : Z.land b 0x7f = b mod 128.
Proof. change 0x7f with (Z.ones 7). by rewrite Z.land_ones by lia. Qed.

Lemma lor_shift acc b s :
  0 ≤ s → 0 ≤ acc < 2 ^ s → 0 ≤ b → Z.lor acc (Z.shiftl b s) = acc + b * 2 ^ s.
Proof.
  intros Hs Hacc Hb. rewrite Z.shiftl_mul_pow2 by done.
  symmetry. apply Z.add_nocarry_lor. apply Z.bits_inj'. intros n Hn.
  rewrite Z.land_spec, Z.bits_0. destruct (decide (n < s)).
  - by rewrite Z.mul_pow2_bits_low, andb_false_r by lia.
  - rewrite <- (Z.mod_small acc (2 ^ s)) by done.
    by rewrite Z.mod_pow2_bits_high by lia.
Qed.

(** ** What a reader reads

    [reads m bs a]: whenever the reader stands in front of [bs], [m] returns
    [a] and leaves the reader right after [bs]. It is the specification of
    every field reader against its writer, and composes along [≫=]. *)
Definition advance (r : Reader) (n : nat) : Reader := mkReader (rb r) (at_ r + n).
Definition ahead (r : Reader) : list Z := drop (at_ r) (rb r).

Definition reads {A} (m : rd A) (bs : list Z) (a : A) : Prop :=
  ∀ r rest, ahead r = bs ++ rest → m r = Ok (a, advance r (length bs)).

Lemma ahead_advance r bs rest : ahead r = bs ++ rest → ahead (advance r (length bs)) = rest.
Proof. apply drop_app_inv. Qed.

Lemma advance_0 r : advance r 0 = r.
Proof. destruct r. unfold advance. simpl. by rewrite Nat.add_0_r. Qed.
Lemma advance_add r n k : advance (advance r n) k = advance r (n + k).
Proof. unfold advance. simpl. by rewrite Nat.add_assoc. Qed.

Lemma rd_bind_Ok {A B} (m : rd A) (k : A → rd B) r a r' :
  m r = Ok (a, r') → (m ≫= k) r = k a r'.
Proof. intros H. change ((m ≫= k) r) with ('(a, r') ← m r; k a r'). by rewrite H. Qed.

Lemma rd_bind_eq {A B} (m : rd A) (k : A → rd B) r :
  (m ≫= k) r = match m r with Ok (a, r') => k a r' | Err e => Err e | Panic => Panic end.
Proof. change ((m ≫= k) r) with ('(a, r') ← m r; k a r'). by destruct (m r) as [[]| |]. Qed.

Lemma rd_bind_inv {A B} (m : rd A) (k : A → rd B) r b r'' :
  (m ≫= k) r = Ok (b, r'') → ∃ a r', m r = Ok (a, r') ∧ k a r' = Ok (b, r'').
Proof.
  change ((m ≫= k) r) with ('(a, r') ← m r; k a r').
  intros ([a r'] & ? & ?)%bind_Ok. eauto.
Qed.

Lemma rd_lift_inv {A} (m : result A) r a r' :
  rd_lift m r = Ok (a, r') → m = Ok a ∧ r' = r.
Proof. unfold rd_lift. destruct m; simpl; naive_solver. Qed.

Lemma reads_ret {A} (a : A) : reads (mret a) [] a.
Proof. intros r rest _. simpl. by rewrite advance_0. Qed.

Lemma reads_bind {A B} (m : rd A) (k : A → rd B) b1 b2 a b :
  reads m b1 a → reads (k a) b2 b → reads (m ≫= k) (b1 ++ b2) b.
Proof.
  intros Hm Hk r rest Hr. rewrite <- app_assoc in Hr.
  rewrite (rd_bind_Ok _ _ _ _ _ (Hm _ _ Hr)), (Hk _ _ (ahead_advance _ _ _ Hr)).
  by rewrite advance_add, length_app.
Qed.

Lemma reads_bind_pure {A B} (m : rd A) (k : A → rd B) bs a b :
  reads m [] a → reads (k a) bs b → reads (m ≫= k) bs b.
Proof. intros. by apply (reads_bind m k [] bs a). Qed.

Lemma reads_bind_last {A B} (m : rd A) (k : A → rd B) bs a b :
  reads m bs a → reads (k a) [] b → reads (m ≫= k) bs b.
Proof. intros. rewrite <- (app_nil_r bs). by apply (reads_bind m k bs [] a). Qed.

Lemma reads_lift {A} (m : result A) a : m = Ok a → reads (rd_lift m) [] a.
Proof. intros -> r rest _. unfold rd_lift. simpl. by rewrite advance_0. Qed.

Lemma reads_byte b : reads byte [b] b.
Proof.
  intros r rest Hr. unfold byte. simpl in Hr.
  rewrite (drop_lookup_Some _ _ _ _ Hr). simpl. do 3 f_equal. unfold advance. f_equal. simpl. lia.
Qed.

Lemma varint_loop_S n acc shift :
  varint_loop (S n) acc shift =
    (b ← byte;
     if (63 <? shift) || ((shift =? 63) && (1 <? b)) then
       rd_lift (Err (bad "varint overflow"))
     else
       let v := Z.lor acc (as_u64 (Z.shiftl (Z.land b 0x7f) shift)) in
       if Z.land b 0x80 =? 0 then mret v else varint_loop n v (shift + 7)).
Proof. done. Qed.

Lemma varint_loop_last n acc shift v :
  0 ≤ shift ≤ 63 → 0 ≤ acc < 2 ^ shift → 0 ≤ v < 128 → v * 2 ^ shift < 2 ^ 64 →
  reads (varint_loop (S n) acc shift) [v] (acc + v * 2 ^ shift).
Proof.
  intros Hs Hacc Hv Hf. rewrite varint_loop_S.
  apply reads_bind_last with v; [apply reads_byte|].
  rewrite land_80, land_7f, Z.mod_small, (proj2 (Z.ltb_lt v 0x80)) by (mach || lia).
  replace ((63 <? shift) || ((shift =? 63) && (1 <? v))) with false.
  - simpl. rewrite as_u64_id, lor_shift by (rewrite ?Z.shiftl_mul_pow2 by lia; mach || lia).
    apply reads_ret.
  - symmetry. rewrite (proj2 (Z.ltb_ge 63 shift)) by lia. simpl.
    destruct (Z.eqb_spec shift 63) as [->|]; [|done]. apply Z.ltb_ge. lia.
Qed.

Lemma varint_loop_more n acc shift c bs a :
  0 ≤ shift < 63 → 0 ≤ acc < 2 ^ shift → 0 ≤ c < 128 → c * 2 ^ shift < 2 ^ 64 →
  reads (varint_loop n (acc + c * 2 ^ shift) (shift + 7)) bs a →
  reads (varint_loop (S n) acc shift) (c + 128 :: bs) a.
Proof.
  intros Hs Hacc Hc Hf Hn. rewrite varint_loop_S. change (?x :: bs) with ([x] ++ bs).
  apply reads_bind with (c + 128); [apply reads_byte|].
  rewrite land_80, land_7f, (proj2 (Z.ltb_ge (c + 128) 0x80)) by (mach || lia).
  rewrite (proj2 (Z.ltb_ge 63 shift)), (proj2 (Z.eqb_neq shift 63)) by lia. simpl.
  replace ((c + 128) mod 128) with c.
  - by rewrite as_u64_id, lor_shift by (rewrite ?Z.shiftl_mul_pow2 by lia; mach || lia).
  - rewrite <- (Z.mul_1_l 128) at 1. rewrite Z.mod_add, Z.mod_small by lia. done.
Qed.

(** The low seven bits and the rest of a value, at their places. *)
Lemma varint_split v shift :
  0 ≤ v → 0 ≤ shift →
  0 ≤ v mod 128 < 128 ∧ 0 ≤ v / 128 ∧
  v * 2 ^ shift = v mod 128 * 2 ^ shift + v / 128 * 2 ^ (shift + 7) ∧
  v mod 128 * 2 ^ shift ≤ 127 * 2 ^ shift ∧ v mod 128 * 2 ^ shift ≤ v * 2 ^ shift.
Proof.
  intros Hv Hs. pose proof (Z.mod_pos_bound v 128 ltac:(lia)).
  assert (0 ≤ v / 128) by (apply Z.div_pos; lia).
  assert (0 < 2 ^ shift) by (apply Z.pow_pos_nonneg; lia).
  split_and!; try lia.
  - rewrite Z.pow_add_r by lia. change (2 ^ 7) with 128.
    rewrite (Z.div_mod v 128) at 1 by lia. ring.
  - apply Z.mul_le_mono_nonneg_r; lia.
  - apply Z.mul_le_mono_nonneg_r; [lia|]. apply Z.mod_le; lia.
Qed.

Lemma reads_varint_loop n fuel v acc shift :
  0 ≤ v < 2 ^ (7 * Z.of_nat (S fuel)) → 0 ≤ shift ≤ 63 → 0 ≤ acc < 2 ^ shift →
  v * 2 ^ shift < 2 ^ 64 → (fuel < n)%nat →
  reads (varint_loop n acc shift) (put_varint_loop fuel v) (acc + v * 2 ^ shift).
Proof.
  revert n v acc shift. induction fuel as [|fuel IH]; intros n v acc shift Hv Hs Hacc Hf Hn;
    (destruct n as [|n]; [lia|]); rewrite put_varint_loop_step by done;
    assert (0 < 2 ^ shift) by (apply Z.pow_pos_nonneg; lia); case_if.
  - rewrite Z.mul_1_r in Hv. change (2 ^ 7) with 128 in Hv. lia.
  - apply varint_loop_last; lia.
  - assert (shift ≤ 56).
    { destruct (decide (57 ≤ shift)); [|lia].
      pose proof (Z.pow_le_mono_r 2 57 shift ltac:(lia) ltac:(lia)).
      pose proof (Z.mul_le_mono_nonneg 128 v (2 ^ 57) (2 ^ shift)). lia. }
    rewrite low_bits by lia.
    destruct (varint_split v shift) as (Hc & Hq & Hsum & Hlt & Hle); [lia|lia|].
    apply varint_loop_more; try lia.
    rewrite Z.shiftr_div_pow2 by lia. change (2 ^ 7) with 128.
    assert (2 ^ (shift + 7) = 128 * 2 ^ shift) by (rewrite Z.pow_add_r; lia).
    assert (0 ≤ v mod 128 * 2 ^ shift) by (apply Z.mul_nonneg_nonneg; lia).
    rewrite Hsum, Z.add_assoc. apply IH; try lia.
    split; [lia|]. apply Z.div_lt_upper_bound; [lia|].
    replace (7 * Z.of_nat (S (S fuel))) with (7 + 7 * Z.of_nat (S fuel)) in Hv by lia.
    rewrite Z.pow_add_r in Hv by lia. lia.
  - apply varint_loop_last; lia.
Qed.

Lemma varint_eq r rest b :
  ahead r = b :: rest → u8 b → varint r = varint_loop 11 0 0 r.
Proof.
  intros Hr Hb. unfold varint. rewrite (drop_lookup_Some _ _ _ _ Hr). case_if; [|done].
  rewrite (varint_loop_last 10 0 0 b) with (rest := rest) by (done || mach || lia).
  unfold advance. simpl. rewrite Z.mul_1_r. do 3 f_equal. lia.
Qed.

Lemma put_varint_nonempty v : (0 < length (put_varint v))%nat.
Proof. apply put_varint_loop_nonempty. Qed.
Lemma put_varint_u8 v : 0 ≤ v → Forall u8 (put_varint v).
Proof. apply put_varint_loop_u8. Qed.

(** Reading back a written varint. *)
Lemma reads_varint v : u64 v → reads varint (put_varint v) v.
Proof.
  intros Hv r rest Hr.
  pose proof (put_varint_nonempty v) as Hne. pose proof (put_varint_u8 v ltac:(mach)) as Hu8.
  assert (varint r = varint_loop 11 0 0 r) as ->.
  { destruct (put_varint v) as [|b bs]; [simpl in Hne; lia|].
    apply Forall_cons in Hu8 as [? _]. by apply varint_eq with (bs ++ rest) b. }
  replace v with (0 + v * 2 ^ 0) at 1 by lia.
  by apply (reads_varint_loop 11 10 v 0 0) with rest; try mach; try lia.
Qed.

Lemma varint_len_small v : 0 ≤ v < 128 → varint_len v = 1.
Proof.
  intros Hv. unfold varint_len, bit_length. case_if; [done|].
  assert (Z.log2 v < 7) by (apply Z.log2_lt_pow2; lia).
  pose proof (Z.log2_nonneg v). symmetry.
  apply (Z.div_unique _ _ _ (Z.max (Z.log2 v + 1) 1 + 6 - 7)); lia.
Qed.

Lemma put_varint_loop_len fuel v :
  0 ≤ v < 2 ^ (7 * Z.of_nat (S fuel)) →
  Z.of_nat (length (put_varint_loop fuel v)) = varint_len v.
Proof.
  revert v. induction fuel as [|fuel IH]; intros v Hv; rewrite put_varint_loop_step by done;
    case_if.
  - rewrite Z.mul_1_r in Hv. change (2 ^ 7) with 128 in Hv. lia.
  - simpl. by rewrite varint_len_small by lia.
  - simpl. rewrite Nat2Z.inj_succ, IH.
    + unfold varint_len, bit_length. rewrite Z.shiftr_div_pow2 by lia. change (2 ^ 7) with 128.
      assert (1 ≤ v / 128) by (apply Z.div_le_lower_bound; lia).
      repeat (case_if; try lia).
      assert (Z.log2 (v / 128) = Z.log2 v - 7) as ->.
      { change 128 with (2 ^ 7). rewrite <- Z.shiftr_div_pow2, Z.log2_shiftr by lia.
        assert (7 ≤ Z.log2 v) by (apply Z.log2_le_pow2; lia). lia. }
      assert (7 ≤ Z.log2 v) by (apply Z.log2_le_pow2; lia).
      rewrite !Z.max_l by lia.
      replace (Z.log2 v + 1 + 6) with (Z.log2 v - 7 + 1 + 6 + 1 * 7) by lia.
      rewrite Z.div_add by lia. lia.
    + rewrite Z.shiftr_div_pow2 by lia. change (2 ^ 7) with 128.
      split; [apply Z.div_pos; lia|]. apply Z.div_lt_upper_bound; [lia|].
      replace (7 * Z.of_nat (S (S fuel))) with (7 + 7 * Z.of_nat (S fuel)) in Hv by lia.
      rewrite Z.pow_add_r in Hv by lia. lia.
  - simpl. by rewrite varint_len_small by lia.
Qed.

Lemma put_varint_len v : u64 v → Z.of_nat (length (put_varint v)) = varint_len v.
Proof. intros. apply put_varint_loop_len. mach. Qed.

Lemma put_varint_len_le v : u64 v → (length (put_varint v) ≤ 10)%nat.
Proof.
  intros Hv. enough (varint_len v ≤ 10) by (pose proof (put_varint_len v Hv); lia).
  unfold varint_len, bit_length. apply Z.lt_succ_r. apply Z.div_lt_upper_bound; [lia|].
  case_if; [lia|]. assert (Z.log2 v < 64) by (apply Z.log2_lt_pow2; mach). lia.
Qed.

(** ** The field readers against their writers *)

Lemma reads_rel a base : u32 a → u32 base → reads (rel base) (put_varint (diff a base)) a.
Proof.
  intros Ha Hb. unfold rel.
  apply reads_bind_last with (diff a base); [by apply reads_varint, diff_u64|].
  unfold diff. rewrite unzigzag_zigzag by mach.
  assert (checked_add_i64 base (a - base) = Some a) as ->.
  { unfold checked_add_i64. replace (base + (a - base)) with a by lia.
    case_if; [done|]. apply andb_false_iff in E as [E|E]; bool_prop; mach. }
  apply reads_bind_pure with a; [by apply reads_lift|].
  apply reads_lift. by rewrite try_u32_Some.
Qed.

Lemma reads_span s prev :
  span_ok s → u32 (start prev) → u32 (start_line prev) → u32 (start_col prev) →
  reads (span prev) (put_span s prev) s.
Proof.
  intros (?&?&?&?&?&?) ???. unfold span, put_span.
  do 5 (eapply reads_bind; [by apply reads_rel|]).
  eapply reads_bind_last; [apply reads_varint; mach|].
  eapply reads_bind_pure; [apply reads_lift; by rewrite try_u32_Some|].
  destruct s. apply reads_ret.
Qed.

Lemma reads_parent p :
  (∀ x, p = Some x → u32 x) → reads parent (put_varint (parent_field p)) p.
Proof.
  intros Hp. unfold parent.
  apply reads_bind_last with (parent_field p).
  { apply reads_varint. destruct p; simpl; [specialize (Hp _ eq_refl)|]; mach. }
  destruct p as [p|]; simpl; [|apply reads_ret].
  specialize (Hp _ eq_refl). case_if; [mach|].
  replace (p + 1 - 1) with p by lia.
  eapply reads_bind_pure; [apply reads_lift; by rewrite try_u32_Some|]. apply reads_ret.
Qed.

(** ** Safety of the reader on arbitrary bytes

    [safe m Q]: on any byte string, [m] never panics, never moves backwards or
    past the end, and what it returns satisfies [Q]. *)
Definition good (r : Reader) : Prop :=
  (at_ r ≤ length (rb r))%nat ∧ Forall u8 (rb r).

Definition stepped (r r' : Reader) : Prop :=
  good r' ∧ rb r' = rb r ∧ (at_ r ≤ at_ r')%nat.

Definition safe {A} (m : rd A) (Q : A → Prop) : Prop :=
  ∀ r, good r → ends (λ p, stepped r p.2 ∧ Q p.1) (m r).

Lemma stepped_refl r : good r → stepped r r.
Proof. intros. by split_and!. Qed.
Lemma stepped_trans r r' r'' : stepped r r' → stepped r' r'' → stepped r r''.
Proof. intros (?&E&?) (?&?&?). split_and!; [done|by rewrite <- E|lia]. Qed.

Lemma safe_bind {A B} (m : rd A) (k : A → rd B) Q P :
  safe m Q → (∀ a, Q a → safe (k a) P) → safe (m ≫= k) P.
Proof.
  intros Hm Hk r Hr. change ((m ≫= k) r) with ('(a, r') ← m r; k a r').
  specialize (Hm r Hr). destruct (m r) as [[a r']|e|]; simpl; [|done|done].
  destruct Hm as [Hst Ha]. specialize (Hk a Ha r' (proj1 Hst)).
  destruct (k a r') as [[b r'']|e|]; [|done|done].
  destruct Hk as [Hst' Hb]. split; [by apply stepped_trans with r'|done].
Qed.

Lemma safe_ret {A} (a : A) (Q : A → Prop) : Q a → safe (mret a) Q.
Proof. intros Ha r Hr. split; [by apply stepped_refl|done]. Qed.

Lemma safe_lift {A} (m : result A) (Q : A → Prop) :
  m ≠ Panic → (∀ a, m = Ok a → Q a) → safe (rd_lift m) Q.
Proof.
  intros Hm HQ r Hr. unfold rd_lift. destruct m; simpl; [|done|done].
  split; [by apply stepped_refl|auto].
Qed.

Lemma safe_weaken {A} (m : rd A) (Q P : A → Prop) :
  safe m Q → (∀ a, Q a → P a) → safe m P.
Proof.
  intros Hm HQ r Hr. specialize (Hm r Hr). destruct (m r) as [[]| |]; naive_solver.
Qed.

Lemma safe_byte : safe byte u8.
Proof.
  intros [b n] [Hle Hb]. unfold byte. simpl in *.
  destruct (b !! n) as [v|] eqn:E; simpl; [|done]. split.
  - split_and!; simpl; [split; simpl; [|done]|done|lia].
    apply lookup_lt_Some in E. lia.
  - by apply (proj1 (Forall_lookup _ _) Hb n).
Qed.

Lemma lor_u64 a b : u64 a → u64 b → u64 (Z.lor a b).
Proof.
  intros [Ha Ha'] [Hb Hb']. split; [by apply Z.lor_nonneg|].
  destruct (decide (Z.lor a b = 0)) as [->|]; [lia|].
  assert (0 ≤ Z.lor a b) by (by apply Z.lor_nonneg).
  apply Z.log2_lt_pow2; [lia|]. rewrite Z.log2_lor by done.
  apply Z.max_lub_lt.
  - destruct (decide (a = 0)) as [->|]; [simpl; lia|]. apply Z.log2_lt_pow2; lia.
  - destruct (decide (b = 0)) as [->|]; [simpl; lia|]. apply Z.log2_lt_pow2; lia.
Qed.

Lemma safe_varint_loop n acc shift :
  shift + 7 * Z.of_nat n = 77 → (0 < n)%nat → u64 acc → safe (varint_loop n acc shift) u64.
Proof.
  revert acc shift. induction n as [|n IH]; intros acc shift Hs Hn Hacc; [lia|].
  rewrite varint_loop_S. apply safe_bind with u8; [apply safe_byte|]. intros b Hb.
  case_if; [by apply safe_lift|]. simpl.
  assert (u64 (Z.lor acc (as_u64 (Z.shiftl (Z.land b 0x7f) shift)))).
  { apply lor_u64; [done|]. apply as_u64_range. }
  case_if; [by apply safe_ret|]. apply IH; try done; lia.
Qed.

Lemma safe_varint : safe varint u64.
Proof.
  intros r Hr. pose proof (safe_varint_loop 11 0 0 ltac:(lia) ltac:(lia) ltac:(mach) r Hr) as H.
  unfold varint. destruct (rb r !! at_ r) as [b|] eqn:E; [|done]. case_if; [|done].
  pose proof (safe_byte r Hr) as Hb. unfold byte in Hb. rewrite E in Hb. simpl in Hb.
  destruct Hb as [? Hb]. simpl in *. split; [done|]. mach.
Qed.

Lemma safe_rel base : safe (rel base) u32.
Proof.
  unfold rel. apply safe_bind with u64; [apply safe_varint|]. intros d _.
  apply safe_bind with (λ _, True); [by apply safe_lift; [apply ok_or_not_Panic|]|].
  intros v _. apply safe_lift; [apply ok_or_not_Panic|]. intros a.
  destruct (try_u32 v) eqn:E; [|done]. apply try_u32_inv in E as [-> ?]. by intros [= <-].
Qed.

Lemma safe_try_u32 z e : safe (rd_lift (ok_or (try_u32 z) e)) u32.
Proof.
  apply safe_lift; [apply ok_or_not_Panic|]. intros a.
  destruct (try_u32 z) eqn:E; [|done]. apply try_u32_inv in E as [-> ?]. by intros [= <-].
Qed.

Lemma safe_span prev : safe (span prev) span_ok.
Proof.
  unfold span. do 5 (eapply safe_bind; [apply safe_rel|intros ? ?]).
  eapply safe_bind; [apply safe_varint|intros ? _].
  eapply safe_bind; [apply safe_try_u32|intros ? ?].
  by apply safe_ret.
Qed.

Definition opt_u32 (o : option Z) : Prop := ∀ x, o = Some x → u32 x.

Lemma safe_parent : safe parent opt_u32.
Proof.
  unfold parent. eapply safe_bind; [apply safe_varint|intros p _]. case_if.
  - apply safe_ret. by intros x.
  - eapply safe_bind; [apply safe_try_u32|intros q Hq]. apply safe_ret. by intros x [= <-].
Qed.

(** A [span] or [rel] reads only the start, line and column of [prev]. *)
Definition same_base (p q : Span) : Prop :=
  start p = start q ∧ start_line p = start_line q ∧ start_col p = start_col q.

Lemma span_same_base p q : same_base p q → span p = span q.
Proof. unfold span. by intros (-> & -> & ->). Qed.

Create HintDb codec.
#[export] Hint Resolve safe_byte safe_varint safe_rel safe_span safe_parent
  safe_try_u32 safe_ret : codec.
#[export] Hint Resolve reads_byte reads_ret : codec.
