(* ===== verification/Stream.v ===== *)
(** * The per-file stream codec: definitions

    [graph-store/src/codec.rs], lines 87-730 and 1019-1055: one file's symbols
    and tokens as one byte string. Dictionary ids, spans delta-coded against
    the previous record, a transitive token range per symbol, and a checkpoint
    of the decoder's state before every 64th token. *)
From S2P Require Import Prelude Text Schema Varint.

Definition STREAM_FORMAT : Z := 3.
Definition CHECKPOINT_EVERY : nat := 64.

Record SymRec : Set := mkSymRec {
  s_name : Z;
  s_kind : SymbolKind;
  s_lang_kind : option Z;
  s_parent : option Z;
  s_span : Span;
  s_toks : option (Z * Z);
  s_owner : option Z;
}.

Record TokRec : Set := mkTokRec {
  t_term : Z;
  t_class : TokenClass;
  t_parent : option Z;
  t_span : Span;
}.

Record Stream : Set := mkStream { st_symbols : list SymRec; st_tokens : list TokRec }.

#[global] Instance SymRec_eq_dec : EqDecision SymRec.
Proof. solve_decision. Defined.
#[global] Instance TokRec_eq_dec : EqDecision TokRec.
Proof. solve_decision. Defined.

Definition KINDS : list SymbolKind :=
  [SKModule; SKType; SKFunction; SKMethod; SKVariable; SKConstant; SKOther].
Definition CLASSES : list TokenClass :=
  [Identifier; Keyword; Literal; Operator; Punctuation; Comment; TCOther].

(** [TABLE.iter().position(|k| *k == x).unwrap_or(6) as u8]. *)
Definition position {A} `{EqDecision A} (table : list A) (x : A) : Z :=
  match list_find (λ y, y = x) table with
  | Some (i, _) => as_u8 (Z.of_nat i)
  | None => 6
  end.

(** ** Token ranges *)

Record Ranges : Set := mkRanges {
  r_first : list (option Z);
  r_last : list (option Z);
  r_count : list Z;
}.

(** [first[i] = ..; last[i] = ..; count[i] += 1]. *)
Definition bump (ord : Z) (g : Ranges) (i : nat) : Ranges :=
  mkRanges
    (alter (λ o, Some (match o with None => ord | Some f => Z.min f ord end)) i (r_first g))
    (alter (λ o, Some (match o with None => ord | Some l => Z.max l ord end)) i (r_last g))
    (alter (λ c, c + 1) i (r_count g)).

(** The inner loop: at most [n] steps up the parent chain. *)
Fixpoint ascend (n : nat) (symbols : list SymRec) (ord : Z) (cur : option Z) (g : Ranges)
    : Ranges :=
  match n with
  | O => g
  | S n =>
      match cur with
      | None => g
      | Some idx =>
          match symbols !! Z.to_nat idx with
          | None => g
          | Some sym => ascend n symbols ord (s_parent sym) (bump ord g (Z.to_nat idx))
          end
      end
  end.

(** The loop over the tokens. *)
Definition token_ranges (symbols : list SymRec) (tokens : list TokRec) : Ranges :=
  let n := length symbols in
  foldl (λ g '(ord, t), ascend n symbols (as_u32 (Z.of_nat ord)) (t_parent t) g)
    (mkRanges (replicate n None) (replicate n None) (replicate n 0))
    (enumerate tokens).

(** The closing loop: each symbol's range, and whether all are contiguous. *)
Fixpoint finish_ranges (first last : list (option Z)) (count : list Z)
    : list (option (Z * Z)) * bool :=
  match first, last, count with
  | f :: first, l :: last, c :: count =>
      let '(ranges, dense) := finish_ranges first last count in
      match f, l with
      | Some f, Some l => (Some (f, l) :: ranges, (c =? as_u32 (l - f) + 1) && dense)
      | _, _ => (None :: ranges, dense)
      end
  | _, _, _ => ([], true)
  end.

Definition compute_ranges (symbols : list SymRec) (tokens : list TokRec)
    : list (option (Z * Z)) * bool :=
  let g := token_ranges symbols tokens in
  finish_ranges (r_first g) (r_last g) (r_count g).

(** ** Encoding *)

(** Decoder state before a token record. *)
Record Ck : Set := mkCk { ck_off : Z; ck_start : Z; ck_line : Z; ck_col : Z }.
Definition Ck_default : Ck := mkCk 0 0 0 0.

(** [o.map_or(0, |k| k + 1)] on a [u64]. *)
Definition id_field (o : option Z) : Z :=
  match o with None => 0 | Some k => as_u64 (k + 1) end.

Definition put_range (range : option (Z * Z)) (prev_first : Z) : list Z :=
  match range with
  | None => put_varint 0
  | Some (first, last) =>
      put_varint (as_u32 (last - first) + 1) ++ put_varint (diff first prev_first)
  end.

Definition next_first (range : option (Z * Z)) (prev_first : Z) : Z :=
  match range with None => prev_first | Some (first, _) => first end.

Definition put_sym (has_owners : bool) (prev : Span) (prev_first : Z)
    (s : SymRec) (range : option (Z * Z)) : list Z :=
  put_varint (s_name s) ++
  [position KINDS (s_kind s)] ++
  put_varint (id_field (s_lang_kind s)) ++
  (if has_owners then put_varint (id_field (s_owner s)) else []) ++
  put_varint (parent_field (s_parent s)) ++
  put_span (s_span s) prev ++
  put_range range prev_first.

(** The symbol loop of [encode], over [symbols.iter().zip(&ranges)]. *)
Fixpoint put_syms (has_owners : bool) (prev : Span) (prev_first : Z)
    (l : list (SymRec * option (Z * Z))) : list Z :=
  match l with
  | [] => []
  | (s, range) :: l =>
      put_sym has_owners prev prev_first s range ++
      put_syms has_owners (s_span s) (next_first range prev_first) l
  end.

Definition put_ck (ck last : Ck) : list Z :=
  put_varint (as_u64 (ck_off ck - ck_off last)) ++
  put_varint (diff (ck_start ck) (ck_start last)) ++
  put_varint (diff (ck_line ck) (ck_line last)) ++
  put_varint (diff (ck_col ck) (ck_col last)).

Definition put_tok (prev : Span) (t : TokRec) : list Z :=
  put_varint (t_term t) ++
  [position CLASSES (t_class t)] ++
  put_varint (parent_field (t_parent t)) ++
  put_span (t_span t) prev.

(** The locals of the token loop of [encode]. *)
Record EncToks : Set := mkEncToks {
  e_cks : list Z;
  e_toks : list Z;
  e_prev : Span;
  e_last : Ck;
}.

Definition is_checkpoint (i : nat) : bool :=
  (0 <? i)%nat && (i mod CHECKPOINT_EVERY =? 0)%nat.

Definition enc_tok (e : EncToks) (it : nat * TokRec) : EncToks :=
  let '(i, t) := it in
  let '(cks, last) :=
    if is_checkpoint i then
      let ck := mkCk (Z.of_nat (length (e_toks e))) (start (e_prev e))
                     (start_line (e_prev e)) (start_col (e_prev e)) in
      (e_cks e ++ put_ck ck (e_last e), ck)
    else (e_cks e, e_last e) in
  mkEncToks cks (e_toks e ++ put_tok (e_prev e) t) (t_span t) last.

Definition enc_toks (tokens : list TokRec) : EncToks :=
  foldl enc_tok (mkEncToks [] [] ZERO Ck_default) (enumerate tokens).

Definition b2z (b : bool) : Z := if b then 1 else 0.

Definition encode (st : Stream) : list Z :=
  let '(ranges, ranges_dense) := compute_ranges (st_symbols st) (st_tokens st) in
  let has_owners := existsb (λ s, bool_decide (is_Some (s_owner s))) (st_symbols st) in
  let syms := put_syms has_owners ZERO 0 (zip (st_symbols st) ranges) in
  let e := enc_toks (st_tokens st) in
  [STREAM_FORMAT] ++
  put_varint (Z.of_nat (length (st_symbols st))) ++
  put_varint (Z.of_nat (length (st_tokens st))) ++
  put_varint (Z.of_nat (length syms)) ++
  [Z.lor (b2z ranges_dense) (Z.shiftl (b2z has_owners) 1)] ++
  syms ++ e_cks e ++ e_toks e.

(** ** Decoding *)

(** A parsed stream header: symbols and tokens are decoded on demand. *)
Record Lazy : Set := mkLazy {
  lz_nsym : nat;
  lz_ntok : nat;
  lz_ranges_dense : bool;
  lz_has_owners : bool;
  lz_sym_bytes : list Z;
  lz_cks : list Ck;
  lz_toks : list Z;
}.

Fixpoint read_cks (n : nat) (last : Ck) : rd (list Ck) :=
  match n with
  | O => mret []
  | S n =>
      d ← varint;
      off ← rd_lift (ok_or (checked_add_u64 (ck_off last) d) (bad "checkpoint offset overflow"));
      s ← rel (ck_start last);
      l ← rel (ck_line last);
      c ← rel (ck_col last);
      rest ← read_cks n (mkCk off s l c);
      mret (mkCk off s l c :: rest)
  end.

Definition bad_format (fmt : Z) : StoreError :=
  Corrupt (lit "stream: unknown or old stream format byte " ++ show fmt ++
           lit " (expected " ++ show STREAM_FORMAT ++
           lit "); the v2 store's on-disk layout changed and old v2 files must be re-indexed").

Definition decode_lazy (b : list Z) : result Lazy :=
  let len := Z.of_nat (length b) in
  '(fmt, r) ← byte (mkReader b 0);
  if negb (fmt =? STREAM_FORMAT) then Err (bad_format fmt) else
  '(nsym, r) ← varint r;
  '(ntok, r) ← varint r;
  '(symlen, r) ← varint r;
  '(flags, r) ← byte r;
  if negb (Z.land flags (Z.lnot 3) =? 0) then Err (bad "reserved stream flag bits set") else
  let ranges_dense := negb (Z.land flags 1 =? 0) in
  let has_owners := negb (Z.land flags 2 =? 0) in
  if len <? Z.min (nsym + ntok) (2 ^ 64 - 1) then Err (bad "record count exceeds input") else
  sym_end ← ok_or (e ← checked_add_u64 (Z.of_nat (at_ r)) symlen; guard (e ≤ len);; Some e)
                  (bad "symbol section exceeds input");
  let sym_bytes := take (Z.to_nat sym_end - at_ r) (drop (at_ r) b) in
  let r := mkReader b (Z.to_nat sym_end) in
  let nck := Z.max (ntok - 1) 0 / Z.of_nat CHECKPOINT_EVERY in
  if len <? nck then Err (bad "checkpoint count exceeds input") else
  '(cks, r) ← read_cks (Z.to_nat nck) Ck_default r;
  let toks := drop (at_ r) b in
  if match last cks with
     | Some c => Z.of_nat (length toks) <=? ck_off c
     | None => false
     end
  then Err (bad "checkpoint offset out of range")
  else Ok (mkLazy (Z.to_nat nsym) (Z.to_nat ntok) ranges_dense has_owners sym_bytes cks toks).

Definition read_range (prev_first : Z) : rd (option (Z * Z)) :=
  tok_len_plus1 ← varint;
  if tok_len_plus1 =? 0 then mret None
  else
    first ← rel prev_first;
    len_minus1 ← rd_lift (ok_or (try_u32 (tok_len_plus1 - 1)) (bad "token range length out of range"));
    last ← rd_lift (ok_or (checked_add_u32 first len_minus1) (bad "token range overflow"));
    mret (Some (first, last)).

Definition table_get {A} (table : list A) (i : Z) (what : string) : rd A :=
  rd_lift (ok_or (table !! Z.to_nat i) (bad what)).

(** One round of the loop of [symbols_uncounted], for symbol [i]. *)
Definition read_sym (has_owners : bool) (i : nat) (prev : Span) (prev_first : Z) : rd SymRec :=
  name ← varint;
  k ← byte;
  kind ← table_get KINDS k "bad symbol kind";
  lk ← varint;
  owner ← (if has_owners then o ← varint; mret (checked_sub1 o) else mret None);
  p ← parent;
  if match p with Some p => Z.of_nat i <=? p | None => false end
  then rd_lift (Err (bad "parent index out of range"))
  else
    sp ← span prev;
    toks ← read_range prev_first;
    mret (mkSymRec name kind (checked_sub1 lk) p sp toks owner).

Fixpoint read_syms (has_owners : bool) (n i : nat) (prev : Span) (prev_first : Z)
    : rd (list SymRec) :=
  match n with
  | O => mret []
  | S n =>
      s ← read_sym has_owners i prev prev_first;
      rest ← read_syms has_owners n (S i) (s_span s) (next_first (s_toks s) prev_first);
      mret (s :: rest)
  end.

Definition lazy_symbols (lz : Lazy) : result (list SymRec) :=
  '(symbols, r) ← read_syms (lz_has_owners lz) (lz_nsym lz) 0 ZERO 0
                    (mkReader (lz_sym_bytes lz) 0);
  if negb (at_ r =? length (lz_sym_bytes lz))%nat
  then Err (bad "trailing bytes in symbol section")
  else Ok symbols.

Definition record (nsym : nat) (prev : Span) : rd TokRec :=
  term ← varint;
  c ← byte;
  class ← table_get CLASSES c "bad token class";
  p ← parent;
  if match p with Some p => Z.of_nat nsym <=? p | None => false end
  then rd_lift (Err (bad "parent index out of range"))
  else sp ← span prev; mret (mkTokRec term class p sp).

(** A visitor closure [FnMut(usize, &TokRec) -> bool], its captured state
    passed along; [false] stops the walk. *)
Definition visitor (S : Type) : Type := nat → TokRec → S → bool * S.

Definition ck_matches (c : Ck) (r : Reader) (prev : Span) : bool :=
  (ck_off c =? Z.of_nat (at_ r)) && (ck_start c =? start prev) &&
  (ck_line c =? start_line prev) && (ck_col c =? start_col prev).

(** The test in front of a record: a checkpointed ordinal must find the
    decoder in the recorded state. *)
Definition checkpoint_ok (lz : Lazy) (ord : nat) (prev : Span) (r : Reader) : result bool :=
  if is_checkpoint ord then
    c ← index (lz_cks lz) (ord / CHECKPOINT_EVERY - 1);
    Ok (ck_matches c r prev)
  else Ok true.

(** The loop of [tokens]: [inl] when the visitor stopped it. *)
Fixpoint tokens_loop {S} (lz : Lazy) (f : visitor S) (n ord : nat) (prev : Span)
    (r : Reader) (s : S) : result (S + Reader * S) :=
  match n with
  | O => Ok (inr (r, s))
  | Datatypes.S n =>
      okc ← checkpoint_ok lz ord prev r;
      if negb okc then Err (bad "checkpoint mismatch") else
      '(rec, r) ← record (lz_nsym lz) prev r;
      let '(go, s) := f ord rec s in
      if go then tokens_loop lz f n (Datatypes.S ord) (t_span rec) r s else Ok (inl s)
  end.

Definition lazy_tokens {S} (lz : Lazy) (f : visitor S) (s : S) : result S :=
  res ← tokens_loop lz f (lz_ntok lz) 0 ZERO (mkReader (lz_toks lz) 0) s;
  match res with
  | inl s => Ok s
  | inr (r, s) =>
      if negb (at_ r =? length (lz_toks lz))%nat then Err (bad "trailing bytes") else Ok s
  end.

(** The span a checkpoint stands for. *)
Definition ck_span (c : Ck) : Span := mkSpan (ck_start c) 0 (ck_line c) (ck_col c) 0 0.

(** [while next < ord { prev = self.record(..)?.span; next += 1 }]. *)
Fixpoint skip_records (lz : Lazy) (k : nat) (prev : Span) (r : Reader) : result (Span * Reader) :=
  match k with
  | O => Ok (prev, r)
  | S k => '(rec, r) ← record (lz_nsym lz) prev r; skip_records lz k (t_span rec) r
  end.

(** The loop of [tokens_at_while]; [next] is the ordinal of the next
    undecoded record. *)
Fixpoint tokens_at_loop {S} (lz : Lazy) (f : visitor S) (ords : list nat)
    (prev : Span) (r : Reader) (next : nat) (last : option nat) (s : S) : result S :=
  match ords with
  | [] => Ok s
  | ord :: ords =>
      if (lz_ntok lz <=? ord)%nat || match last with Some l => (ord <=? l)%nat | None => false end
      then Err (bad "token ordinal out of order or range")
      else
        let block := (ord / CHECKPOINT_EVERY)%nat in
        '(prev, r, next) ←
          (if (next <? block * CHECKPOINT_EVERY)%nat then
             c ← index (lz_cks lz) (block - 1);
             Ok (ck_span c, mkReader (lz_toks lz) (Z.to_nat (ck_off c)), (block * CHECKPOINT_EVERY)%nat)
           else Ok (prev, r, next));
        '(prev, r) ← skip_records lz (ord - next) prev r;
        '(rec, r) ← record (lz_nsym lz) prev r;
        let '(go, s) := f ord rec s in
        if go then
          tokens_at_loop lz f ords (t_span rec) r (Datatypes.S ord) (Some ord) s
        else Ok s
  end.

Definition tokens_at_while {S} (lz : Lazy) (ords : list nat) (f : visitor S) (s : S) : result S :=
  tokens_at_loop lz f ords ZERO (mkReader (lz_toks lz) 0) 0 None s.

Definition tokens_at {S} (lz : Lazy) (ords : list nat) (f : nat → TokRec → S → S) (s : S)
    : result S :=
  tokens_at_while lz ords (λ o t s, (true, f o t s)) s.

(** [cks.partition_point(|c| c.start < start)]: the length of the prefix that
    satisfies the predicate, which is the documented answer on a partitioned
    slice (tokens are stored sorted by start). *)
Fixpoint partition_point {A} (p : A → bool) (l : list A) : nat :=
  match l with
  | [] => 0
  | a :: l => if p a then S (partition_point p l) else 0
  end.

Definition block_ordinal_at (lz : Lazy) (start : Z) : nat :=
  (partition_point (λ c, (ck_start c <? start)%Z) (lz_cks lz) * CHECKPOINT_EVERY)%nat.

Fixpoint tokens_from_loop {S} (lz : Lazy) (f : visitor S) (first : nat) (n ord : nat)
    (prev : Span) (r : Reader) (s : S) : result S :=
  match n with
  | O => Ok s
  | Datatypes.S n =>
      '(rec, r) ← record (lz_nsym lz) prev r;
      if (first <=? ord)%nat then
        let '(go, s) := f ord rec s in
        if go then tokens_from_loop lz f first n (Datatypes.S ord) (t_span rec) r s else Ok s
      else tokens_from_loop lz f first n (Datatypes.S ord) (t_span rec) r s
  end.

Definition tokens_from_while {S} (lz : Lazy) (first : nat) (f : visitor S) (s : S) : result S :=
  if (lz_ntok lz <=? first)%nat then Ok s else
  let block := (first / CHECKPOINT_EVERY)%nat in
  '(r, prev, ord) ←
    (if (block =? 0)%nat then Ok (mkReader (lz_toks lz) 0, ZERO, 0%nat)
     else c ← index (lz_cks lz) (block - 1);
          Ok (mkReader (lz_toks lz) (Z.to_nat (ck_off c)), ck_span c,
              (block * CHECKPOINT_EVERY)%nat));
  tokens_from_loop lz f first (lz_ntok lz - ord) ord prev r s.

(** The visitor of [decode]: push a clone of every record. *)
Definition push_visitor : visitor (list TokRec) := λ _ t acc, (true, acc ++ [t]).

(** [decode] in a release build. *)
Definition decode (b : list Z) : result Stream :=
  lz ← decode_lazy b;
  symbols ← lazy_symbols lz;
  tokens ← lazy_tokens lz push_visitor [];
  Ok (mkStream symbols tokens).
(** [decode] in a debug build: ranges said to be dense are derived again from
    the tokens, and [debug_assert_eq!] compares. *)
Definition decode_debug (b : list Z) : result Stream :=
  lz ← decode_lazy b;
  symbols ← lazy_symbols lz;
  tokens ← lazy_tokens lz push_visitor [];
  if lz_ranges_dense lz && negb (forallb (λ '(sym, w), bool_decide (s_toks sym = w)) (zip symbols (compute_ranges symbols tokens).1))
  then Panic else Ok (mkStream symbols tokens).

(** ** The pinned byte layouts of the source's tests *)
Module Golden.
Definition sp := mkSpan.
Definition sample : Stream := mkStream
    [mkSymRec 0 SKType (Some 1) None (sp 0 20 1 1 3 2) (Some (1, 1)) None;
     mkSymRec 2 SKMethod None (Some 0) (sp 4 12 2 5 2 13) (Some (1, 1)) None]
    [mkTokRec 3 Keyword None (sp 0 2 1 1 1 3);
     mkTokRec 4 Identifier (Some 1) (sp 5 6 2 6 2 7)].

Example golden_bytes : encode sample =
    [3; 2; 2; 24; 1;
     0; 1; 2; 0; 0; 40; 2; 2; 4; 2; 1; 2;
     2; 3; 0; 1; 8; 16; 2; 8; 0; 13; 1; 0;
     3; 1; 0; 0; 4; 2; 2; 0; 3;
     4; 0; 2; 10; 2; 2; 10; 0; 7].
Proof. vm_compute. reflexivity. Qed.

Example golden_decode : decode (encode sample) = Ok sample.
Proof. vm_compute. reflexivity. Qed.

Definition irregular : Stream := mkStream []
    [mkTokRec 1 Literal None (sp 5 2 9 9 3 1);
     mkTokRec 2 TCOther None
       (sp 4294967295 4294967295 4294967295 4294967295 4294967295 4294967295)].

Example golden_bytes_irregular : encode irregular =
    [3; 0; 2; 0; 1;
     1; 2; 0; 10; 5; 18; 18; 11; 1;
     2; 6; 0; 244; 255; 255; 255; 31; 0; 236; 255; 255; 255; 31;
     236; 255; 255; 255; 31; 0; 255; 255; 255; 255; 15].
Proof. vm_compute. reflexivity. Qed.

Example golden_decode_irregular : decode (encode irregular) = Ok irregular.
Proof. vm_compute. reflexivity. Qed.

(** A stream long enough to have two checkpoints. *)
Definition many : Stream := mkStream []
  ((λ i : nat, let z := Z.of_nat i in
      mkTokRec z Identifier None (mkSpan (2 * z) (2 * z + 1) 1 (2 * z + 1) 1 (2 * z + 2)))
   <$> seq 0 150).
End Golden.
