(* ===== verification/StreamRound.v ===== *)
(** * The stream codec: decoding what was encoded

    [decode (encode st)] gives [st] back, with the token ranges filled in,
    for every well-formed stream. *)
From S2P Require Import Prelude Text Schema Varint Stream.

(** ** Well-formed streams *)

Definition opt_id (o : option Z) : Prop :=
  match o with None => True | Some k => 0 ≤ k < 2 ^ 64 - 1 end.
Definition parent_below (n : nat) (o : option Z) : Prop :=
  match o with None => True | Some p => 0 ≤ p < Z.of_nat n end.

Definition sym_ok (i : nat) (s : SymRec) : Prop :=
  u64 (s_name s) ∧ opt_id (s_lang_kind s) ∧ opt_id (s_owner s) ∧
  parent_below i (s_parent s) ∧ span_ok (s_span s).

Definition tok_ok (nsym : nat) (t : TokRec) : Prop :=
  u64 (t_term t) ∧ parent_below nsym (t_parent t) ∧ span_ok (t_span t).

Definition wf_stream (st : Stream) : Prop :=
  Z.of_nat (length (st_symbols st)) ≤ 2 ^ 32 ∧
  Z.of_nat (length (st_tokens st)) ≤ 2 ^ 32 ∧
  Forall (λ p, sym_ok p.1 p.2) (enumerate (st_symbols st)) ∧
  Forall (tok_ok (length (st_symbols st))) (st_tokens st).

#[global] Instance opt_id_dec o : Decision (opt_id o).
Proof. destruct o; simpl; apply _. Defined.
#[global] Instance parent_below_dec n o : Decision (parent_below n o).
Proof. destruct o; simpl; apply _. Defined.
#[global] Instance span_ok_dec sp : Decision (span_ok sp).
Proof. unfold span_ok. apply _. Defined.
#[global] Instance sym_ok_dec i s : Decision (sym_ok i s).
Proof. unfold sym_ok. apply _. Defined.
#[global] Instance tok_ok_dec n t : Decision (tok_ok n t).
Proof. unfold tok_ok. apply _. Defined.
#[global] Instance wf_stream_dec st : Decision (wf_stream st).
Proof. unfold wf_stream. apply _. Defined.

Lemma wf_syms st i s : wf_stream st → st_symbols st !! i = Some s → sym_ok i s.
Proof.
  intros (_ & _ & HF & _) Hi. apply (proj1 (Forall_forall _ _) HF (i, s)).
  apply elem_of_enum_from. simpl. split; [lia|]. by rewrite Nat.sub_0_r.
Qed.

(** The stream with every symbol's [toks] set to its range. *)
Definition set_toks (s : SymRec) (range : option (Z * Z)) : SymRec :=
  mkSymRec (s_name s) (s_kind s) (s_lang_kind s) (s_parent s) (s_span s) range (s_owner s).

Definition with_ranges (st : Stream) : Stream :=
  mkStream (zip_with set_toks (st_symbols st)
              (compute_ranges (st_symbols st) (st_tokens st)).1)
           (st_tokens st).

(** ** Ranges are [u32] intervals, one per symbol *)

Definition range_ok (o : option (Z * Z)) : Prop :=
  ∀ f l, o = Some (f, l) → 0 ≤ f ≤ l ∧ u32 l.

Definition cell_ok (f l : option Z) : Prop :=
  match f, l with
  | None, None => True
  | Some f, Some l => 0 ≤ f ≤ l ∧ u32 l
  | _, _ => False
  end.

Definition ranges_ok (n : nat) (g : Ranges) : Prop :=
  length (r_first g) = n ∧ length (r_count g) = n ∧ Forall2 cell_ok (r_first g) (r_last g).

Lemma bump_ok n ord g i : u32 ord → ranges_ok n g → ranges_ok n (bump ord g i).
Proof.
  intros Ho (Hf & Hc & HF). split_and!; simpl; rewrite ?length_alter; try done.
  apply Forall2_alter; [done|]. intros [f|] [l|]; simpl; try done; mach.
Qed.

Lemma ascend_ok n k syms ord cur g :
  u32 ord → ranges_ok k g → ranges_ok k (ascend n syms ord cur g).
Proof.
  intros Ho. revert cur g. induction n as [|n IH]; intros cur g Hg; simpl; [done|].
  destruct cur; [|done]. destruct (syms !! _); [|done]. by apply IH, bump_ok.
Qed.

Lemma foldl_inv {A B} (P : A → Prop) (f : A → B → A) l a :
  (∀ a b, P a → P (f a b)) → P a → P (foldl f a l).
Proof. intros Hf. revert a. induction l; simpl; auto. Qed.

Lemma token_ranges_ok syms toks : ranges_ok (length syms) (token_ranges syms toks).
Proof.
  unfold token_ranges. apply foldl_inv.
  - intros g [ord t] Hg. apply ascend_ok; [apply as_u32_range|done].
  - split_and!; simpl; rewrite ?length_replicate; try done. by apply Forall2_replicate.
Qed.

Lemma finish_ranges_ok first last count :
  Forall2 cell_ok first last → length count = length first →
  length (finish_ranges first last count).1 = length first ∧
  Forall range_ok (finish_ranges first last count).1.
Proof.
  intros HF. revert count. induction HF as [|f l first last Hfl HF IH]; intros count Hc.
  { split; [done|constructor]. }
  destruct count as [|c count]; [done|]. injection Hc as Hc. specialize (IH count Hc).
  simpl. destruct (finish_ranges first last count) as [ranges dense]. simpl in *.
  destruct IH as [Hlen HFr].
  destruct f as [f|], l as [l|]; simpl in *; try done; split; try by f_equal.
  - constructor; [|done]. by intros ? ? [= <- <-].
  - constructor; [|done]. by intros ? ?.
Qed.

Lemma compute_ranges_ok syms toks :
  length (compute_ranges syms toks).1 = length syms ∧
  Forall range_ok (compute_ranges syms toks).1.
Proof.
  destruct (token_ranges_ok syms toks) as (Hf & Hc & HF).
  unfold compute_ranges. destruct (finish_ranges_ok _ _ (r_count (token_ranges syms toks)) HF) as [Hl HR].
  - congruence.
  - by rewrite Hl, Hf.
Qed.

(** ** Symbols *)

Lemma position_ok {A} `{EqDecision A} (table : list A) x :
  x ∈ table → (length table ≤ 255)%nat →
  0 ≤ position table x < Z.of_nat (length table) ∧
  table !! Z.to_nat (position table x) = Some x.
Proof.
  intros Hx Hlen. unfold position.
  destruct (list_find_elem_of (λ y, y = x) table x) as [[i y] Hf]; [done|done|].
  rewrite Hf. apply list_find_Some in Hf as (Hi & -> & _).
  pose proof (lookup_lt_Some _ _ _ Hi).
  rewrite as_u8_id by mach. rewrite Nat2Z.id. split; [lia|done].
Qed.

Lemma KINDS_all k : k ∈ KINDS.
Proof. destruct k; set_solver. Qed.
Lemma CLASSES_all c : c ∈ CLASSES.
Proof. destruct c; set_solver. Qed.

Lemma reads_table {A} `{EqDecision A} (table : list A) x what :
  x ∈ table → (length table ≤ 255)%nat →
  reads (table_get table (position table x) what) [] x.
Proof.
  intros Hx Hl. apply reads_lift. destruct (position_ok table x Hx Hl) as [_ H].
  by rewrite H.
Qed.

Lemma reads_id_field o :
  opt_id o → reads varint (put_varint (id_field o)) (id_field o) ∧ checked_sub1 (id_field o) = o.
Proof.
  intros Ho. split.
  - apply reads_varint. destruct o; simpl; [apply as_u64_range|mach].
  - destruct o as [k|]; [|done]. simpl in *.
    rewrite as_u64_id by mach. unfold checked_sub1. case_if; [lia|]. f_equal. lia.
Qed.

Lemma reads_range range pf :
  range_ok range → u32 pf → reads (read_range pf) (put_range range pf) range.
Proof.
  intros Hr Hpf. destruct range as [[f l]|]; unfold read_range, put_range.
  - destruct (Hr _ _ eq_refl) as [Hfl Hl].
    assert (as_u32 (l - f) = l - f) as -> by (apply as_u32_id; mach).
    eapply reads_bind; [apply reads_varint; mach|]. case_if; [lia|].
    eapply reads_bind_last; [apply reads_rel; [mach|done]|].
    eapply reads_bind_pure.
    { apply reads_lift. rewrite try_u32_Some by mach. done. }
    eapply reads_bind_pure.
    { apply reads_lift. unfold checked_add_u32.
      rewrite (proj2 (Z.ltb_lt (f + _) _)) by mach. simpl. reflexivity. }
    replace (f + (l - f + 1 - 1)) with l by lia. apply reads_ret.
  - eapply reads_bind_last; [apply reads_varint; mach|]. simpl. apply reads_ret.
Qed.

Lemma next_first_u32 range pf : range_ok range → u32 pf → u32 (next_first range pf).
Proof. destruct range as [[f l]|]; simpl; [|done]. intros Hr _. destruct (Hr _ _ eq_refl). mach. Qed.

Lemma span_ok_base s : span_ok s → u32 (start s) ∧ u32 (start_line s) ∧ u32 (start_col s).
Proof. by intros (?&?&?&?&?&?). Qed.

Lemma parent_below_u32 n o : Z.of_nat n ≤ 2 ^ 32 → parent_below n o → opt_u32 o.
Proof. intros Hn Ho x ->. simpl in Ho. mach. Qed.

Lemma parent_below_guard n o :
  parent_below n o → match o with Some p => Z.of_nat n <=? p | None => false end = false.
Proof. destruct o as [p|]; [|done]. intros H. apply Z.leb_gt. apply H. Qed.

Lemma reads_sym ho i prev pf s range :
  Z.of_nat i ≤ 2 ^ 32 → sym_ok i s → (ho = false → s_owner s = None) →
  range_ok range → span_ok prev → u32 pf →
  reads (read_sym ho i prev pf) (put_sym ho prev pf s range) (set_toks s range).
Proof.
  intros Hi (Hn & Hlk & How & Hp & Hsp) Hho Hr Hprev Hpf.
  destruct (reads_id_field (s_lang_kind s) Hlk) as [Hr1 Hs1].
  destruct (reads_id_field (s_owner s) How) as [Hr2 Hs2].
  destruct (span_ok_base _ Hprev) as (?&?&?).
  unfold read_sym, put_sym.
  eapply reads_bind; [by apply reads_varint|].
  eapply reads_bind; [apply reads_byte|].
  eapply reads_bind_pure; [apply reads_table; [apply KINDS_all|simpl; lia]|].
  eapply reads_bind; [done|].
  eapply reads_bind with (a := s_owner s).
  { destruct ho; [|rewrite Hho by done; apply reads_ret].
    eapply reads_bind_last; [done|]. rewrite Hs2. apply reads_ret. }
  eapply reads_bind; [apply reads_parent, parent_below_u32 with i; done|].
  rewrite parent_below_guard by done.
  eapply reads_bind; [by apply reads_span|].
  eapply reads_bind_last; [by apply reads_range|]. rewrite Hs1. apply reads_ret.
Qed.

Lemma reads_syms ho l i prev pf :
  Z.of_nat (i + length l) ≤ 2 ^ 32 →
  (∀ j s range, l !! j = Some (s, range) →
     sym_ok (i + j) s ∧ (ho = false → s_owner s = None) ∧ range_ok range) →
  span_ok prev → u32 pf →
  reads (read_syms ho (length l) i prev pf) (put_syms ho prev pf l) ((λ p, set_toks p.1 p.2) <$> l).
Proof.
  revert i prev pf. induction l as [|[s range] l IH]; intros i prev pf Hi Hl Hprev Hpf;
    simpl; [apply reads_ret|].
  destruct (Hl 0%nat s range eq_refl) as (Hs & Hho & Hr). rewrite Nat.add_0_r in Hs.
  simpl in Hi. eapply reads_bind; [apply reads_sym; try done; lia|].
  eapply reads_bind_last; [|apply reads_ret]. simpl. apply IH; try lia.
  - intros j s' range' Hj. specialize (Hl (S j) s' range' Hj).
    by replace (S i + j)%nat with (i + S j)%nat by lia.
  - apply Hs.
  - by apply next_first_u32.
Qed.

(** ** Tokens and checkpoints *)

Lemma reads_tok n prev t :
  Z.of_nat n ≤ 2 ^ 32 → tok_ok n t → span_ok prev →
  reads (record n prev) (put_tok prev t) t.
Proof.
  intros Hn (Ht & Hp & Hsp) Hprev. destruct (span_ok_base _ Hprev) as (?&?&?).
  unfold record, put_tok.
  eapply reads_bind; [by apply reads_varint|].
  eapply reads_bind; [apply reads_byte|].
  eapply reads_bind_pure; [apply reads_table; [apply CLASSES_all|simpl; lia]|].
  eapply reads_bind; [apply reads_parent, parent_below_u32 with n; done|].
  rewrite parent_below_guard by done.
  eapply reads_bind_last; [by apply reads_span|]. destruct t; apply reads_ret.
Qed.

(** The token section after [prev], and the span the decoder holds after it. *)
Fixpoint tok_bytes (prev : Span) (ts : list TokRec) : list Z :=
  match ts with
  | [] => []
  | t :: ts => put_tok prev t ++ tok_bytes (t_span t) ts
  end.
Fixpoint prev_of (prev : Span) (ts : list TokRec) : Span :=
  match ts with [] => prev | t :: ts => prev_of (t_span t) ts end.

(** The checkpoint before ordinal [k], and all checkpoints of a stream. *)
Definition ck_at (ts : list TokRec) (k : nat) : Ck :=
  let p := prev_of ZERO (take k ts) in
  mkCk (Z.of_nat (length (tok_bytes ZERO (take k ts)))) (start p) (start_line p) (start_col p).
Definition nck (ntok : nat) : nat := (pred ntok / CHECKPOINT_EVERY)%nat.
Definition cks_of (ts : list TokRec) : list Ck :=
  (λ j, ck_at ts (S j * CHECKPOINT_EVERY)) <$> seq 0 (nck (length ts)).

Fixpoint put_cks (last : Ck) (l : list Ck) : list Z :=
  match l with [] => [] | c :: l => put_ck c last ++ put_cks c l end.

Lemma tok_bytes_app prev ts us :
  tok_bytes prev (ts ++ us) = tok_bytes prev ts ++ tok_bytes (prev_of prev ts) us.
Proof. revert prev. induction ts; intros; simpl; [done|]. by rewrite IHts, app_assoc. Qed.
Lemma prev_of_app prev ts us : prev_of prev (ts ++ us) = prev_of (prev_of prev ts) us.
Proof. revert prev. induction ts; intros; simpl; auto. Qed.
Lemma put_cks_app last l k :
  put_cks last (l ++ k) = put_cks last l ++ put_cks (default last (list.last l)) k.
Proof.
  revert last. induction l as [|c l IH]; intros; [done|].
  rewrite <- app_comm_cons. simpl put_cks. rewrite IH, <- app_assoc.
  do 2 f_equal. destruct l; [done|]. rewrite last_cons_cons. f_equal.
  by destruct (list.last (c0 :: l)) eqn:E; [|apply last_None in E].
Qed.

Lemma enum_from_app {A} n (l k : list A) :
  enum_from n (l ++ k) = enum_from n l ++ enum_from (n + length l) k.
Proof.
  revert n. induction l; intros n; simpl; [by rewrite Nat.add_0_r|].
  by rewrite IHl, Nat.add_succ_r.
Qed.

Lemma enc_toks_snoc ts t : enc_toks (ts ++ [t]) = enc_tok (enc_toks ts) (length ts, t).
Proof. unfold enc_toks, enumerate. by rewrite enum_from_app, foldl_app. Qed.

Lemma is_checkpoint_spec i :
  is_checkpoint i = true ↔ ∃ j, i = (S j * CHECKPOINT_EVERY)%nat.
Proof.
  unfold is_checkpoint. rewrite andb_true_iff, Nat.ltb_lt, Nat.eqb_eq.
  rewrite Nat.Lcm0.mod_divide. split.
  - intros [Hi [[|j] ->]]; [lia|]. by exists j.
  - intros [j ->]. split; [unfold CHECKPOINT_EVERY; lia|]. by exists (S j).
Qed.

(** One more token adds a checkpoint exactly at the multiples of 64. *)
Lemma nck_snoc i : nck (S i) = if is_checkpoint i then S (nck i) else nck i.
Proof.
  unfold nck. simpl pred. destruct (is_checkpoint i) eqn:E.
  - apply is_checkpoint_spec in E as [j ->]. rewrite Nat.div_mul by done.
    replace (pred (S j * CHECKPOINT_EVERY)) with ((CHECKPOINT_EVERY - 1) + j * CHECKPOINT_EVERY)%nat
      by (unfold CHECKPOINT_EVERY; lia).
    rewrite Nat.div_add by done. rewrite Nat.div_small by (unfold CHECKPOINT_EVERY; lia). lia.
  - destruct i as [|i]; [done|]. change (pred (S i)) with i.
    assert (S i mod CHECKPOINT_EVERY ≠ 0)%nat as Hne.
    { intros Hm. unfold is_checkpoint in E. by rewrite Hm in E. }
    pose proof (Nat.div_mod_eq (S i) CHECKPOINT_EVERY) as Hd.
    pose proof (Nat.mod_upper_bound (S i) CHECKPOINT_EVERY ltac:(done)) as Hb.
    apply (Nat.div_unique _ _ _ (S i mod CHECKPOINT_EVERY - 1)); lia.
Qed.

Lemma nck_checkpoint i :
  is_checkpoint i = true → (S (nck i) * CHECKPOINT_EVERY)%nat = i.
Proof.
  intros E. pose proof (nck_snoc i) as Hn. rewrite E in Hn.
  apply is_checkpoint_spec in E as [j ->]. 
  change (nck (S (S j * CHECKPOINT_EVERY))) with (S j * CHECKPOINT_EVERY / CHECKPOINT_EVERY)%nat in Hn.
  rewrite Nat.div_mul in Hn by done. by rewrite <- Hn.
Qed.

Lemma cks_of_snoc ts t :
  cks_of (ts ++ [t]) =
    cks_of ts ++ (if is_checkpoint (length ts) then [ck_at ts (length ts)] else []).
Proof.
  unfold cks_of. rewrite length_app, Nat.add_1_r, nck_snoc.
  assert (∀ n, (n * CHECKPOINT_EVERY ≤ length ts)%nat →
    (λ j, ck_at (ts ++ [t]) (S j * CHECKPOINT_EVERY)) <$> seq 0 n =
    (λ j, ck_at ts (S j * CHECKPOINT_EVERY)) <$> seq 0 n) as Hext.
  { intros n Hn. apply list_fmap_ext. intros j x Hj. apply lookup_seq in Hj as [-> Hj].
    unfold ck_at. rewrite take_app_le; [done|].
    transitivity (n * CHECKPOINT_EVERY)%nat; [|done]. apply Nat.mul_le_mono_r. lia. }
  pose proof (Nat.Div0.div_le_mono (pred (length ts)) (length ts) CHECKPOINT_EVERY ltac:(lia)).
  pose proof (Nat.Div0.mul_div_le (length ts) CHECKPOINT_EVERY).
  assert (nck (length ts) * CHECKPOINT_EVERY ≤ length ts)%nat.
  { unfold nck. unfold CHECKPOINT_EVERY in *. lia. }
  destruct (is_checkpoint (length ts)) eqn:E; [|by rewrite app_nil_r, Hext].
  rewrite seq_S, fmap_app, Hext by done. f_equal. rewrite list_fmap_singleton.
  change (0 + nck (length ts))%nat with (nck (length ts)).
  rewrite nck_checkpoint by done. unfold ck_at. by rewrite take_app_le.
Qed.

Lemma enc_toks_spec ts :
  let e := enc_toks ts in
  e_toks e = tok_bytes ZERO ts ∧ e_prev e = prev_of ZERO ts ∧
  e_cks e = put_cks Ck_default (cks_of ts) ∧ e_last e = default Ck_default (last (cks_of ts)).
Proof.
  induction ts as [|t ts IH] using rev_ind; [done|].
  destruct IH as (Ht & Hp & Hc & Hl). rewrite enc_toks_snoc, cks_of_snoc.
  rewrite tok_bytes_app, prev_of_app, put_cks_app. unfold enc_tok.
  rewrite Ht, Hp, Hc, Hl. unfold ck_at. rewrite firstn_all.
  destruct (is_checkpoint (length ts)) eqn:E; simpl; rewrite !app_nil_r; [|done].
  by rewrite last_snoc.
Qed.

Fixpoint cks_ok (last : Ck) (l : list Ck) : Prop :=
  match l with
  | [] => True
  | c :: l =>
      ck_off last ≤ ck_off c ∧ u64 (ck_off c) ∧
      u32 (ck_start c) ∧ u32 (ck_line c) ∧ u32 (ck_col c) ∧ cks_ok c l
  end.

Lemma reads_cks l last :
  cks_ok last l → u64 (ck_off last) → u32 (ck_start last) → u32 (ck_line last) →
  u32 (ck_col last) → reads (read_cks (length l) last) (put_cks last l) l.
Proof.
  revert last. induction l as [|c l IH]; intros last Hl Ho Hs Hln Hc; simpl; [apply reads_ret|].
  destruct Hl as (Hle & Ho' & Hs' & Hln' & Hc' & Hl). unfold put_ck.
  assert (as_u64 (ck_off c - ck_off last) = ck_off c - ck_off last) as ->
    by (apply as_u64_id; mach).
  rewrite <- !app_assoc. eapply reads_bind; [apply reads_varint; mach|].
  eapply reads_bind_pure.
  { apply reads_lift. unfold checked_add_u64. rewrite (proj2 (Z.ltb_lt _ _)) by mach. reflexivity. }
  do 3 (eapply reads_bind; [by apply reads_rel|]).
  replace (ck_off last + (ck_off c - ck_off last)) with (ck_off c) by lia.
  assert (mkCk (ck_off c) (ck_start c) (ck_line c) (ck_col c) = c) as -> by by destruct c.
  eapply reads_bind_last; [by apply IH|apply reads_ret].
Qed.

Lemma put_tok_length n prev t :
  tok_ok n t → Z.of_nat n ≤ 2 ^ 32 → span_ok prev →
  (1 ≤ length (put_tok prev t) ≤ 81)%nat.
Proof.
  intros (Ht & Hp & Hsp) Hn Hprev. destruct (span_ok_base _ Hprev) as (?&?&?).
  destruct Hsp as (?&?&?&?&?&?). unfold put_tok, put_span. rewrite !length_app.
  assert (u64 (parent_field (t_parent t))).
  { destruct (t_parent t) as [p|] eqn:E; simpl; [|mach].
    pose proof (parent_below_u32 _ _ Hn Hp p eq_refl). mach. }
  pose proof (put_varint_nonempty (t_term t)).
  repeat match goal with
  | |- context [length (put_varint ?v)] =>
      assert (length (put_varint v) ≤ 10)%nat by
        (apply put_varint_len_le; (by apply diff_u64) || mach);
      generalize dependent (length (put_varint v)); intros
  end.
  simpl. lia.
Qed.

Lemma tok_bytes_length n prev us :
  Forall (tok_ok n) us → Z.of_nat n ≤ 2 ^ 32 → span_ok prev →
  (length us ≤ length (tok_bytes prev us) ≤ 81 * length us)%nat.
Proof.
  intros Hus Hn. revert prev. induction Hus as [|t us Ht Hus IH]; intros prev Hp; simpl; [lia|].
  rewrite length_app. pose proof (put_tok_length n prev t Ht Hn Hp).
  specialize (IH (t_span t) (proj2 (proj2 Ht))). lia.
Qed.

Lemma prev_of_ok n prev us : Forall (tok_ok n) us → span_ok prev → span_ok (prev_of prev us).
Proof.
  intros Hus. revert prev. induction Hus as [|t us Ht Hus IH]; intros prev Hp; simpl; [done|].
  apply IH, Ht.
Qed.

Lemma ZERO_ok : span_ok ZERO.
Proof. by split_and!. Qed.

Section encoded_tokens.
Context (nsym : nat) (ts : list TokRec).
Context (Hts : Forall (tok_ok nsym) ts) (Hnsym : Z.of_nat nsym ≤ 2 ^ 32).
Context (Hntok : Z.of_nat (length ts) ≤ 2 ^ 32).

Lemma ck_at_mono k k' : (k ≤ k')%nat → ck_off (ck_at ts k) ≤ ck_off (ck_at ts k').
Proof.
  intros Hk. unfold ck_at. simpl.
  rewrite <- (take_drop k (take k' ts)), tok_bytes_app, take_take, Nat.min_l, length_app by done.
  lia.
Qed.

(** Before the last token, the token section has bytes left. *)
Lemma ck_at_lt k :
  (k < length ts)%nat → ck_off (ck_at ts k) < Z.of_nat (length (tok_bytes ZERO ts)).
Proof.
  intros Hk. unfold ck_at. simpl. rewrite <- (take_drop k ts) at 2.
  rewrite tok_bytes_app, length_app.
  assert (Forall (tok_ok nsym) (drop k ts)) by by apply Forall_drop.
  assert (span_ok (prev_of ZERO (take k ts))).
  { apply prev_of_ok with nsym; [by apply Forall_take|apply ZERO_ok]. }
  destruct (tok_bytes_length nsym (prev_of ZERO (take k ts)) (drop k ts)) as [Hl _]; [done..|].
  rewrite length_drop in Hl. lia.
Qed.

Lemma cks_of_ok m n :
  cks_ok (ck_at ts (m * CHECKPOINT_EVERY))
    ((λ j, ck_at ts (S j * CHECKPOINT_EVERY)) <$> seq m n).
Proof.
  revert m. induction n as [|n IH]; intros m; [done|].
  cbn [seq fmap list_fmap cks_ok]. set (k := (S m * CHECKPOINT_EVERY)%nat).
  assert (span_ok (prev_of ZERO (take k ts))) as Hp.
  { apply prev_of_ok with nsym; [by apply Forall_take|apply ZERO_ok]. }
  pose proof (tok_bytes_length nsym ZERO (take k ts)
    (Forall_take _ _ _ Hts) Hnsym ZERO_ok) as Hlen.
  rewrite length_take in Hlen. destruct (span_ok_base _ Hp) as (?&?&?).
  split_and!; try done.
  - apply ck_at_mono. subst k. lia.
  - unfold ck_at, u64. cbn [ck_off]. clearbody k. lia.
  - apply IH.
Qed.

Lemma reads_cks_of :
  reads (read_cks (nck (length ts)) Ck_default) (put_cks Ck_default (cks_of ts)) (cks_of ts).
Proof.
  pose proof (cks_of_ok 0 (nck (length ts))) as H.
  replace (nck (length ts)) with (length (cks_of ts)) at 1
    by (unfold cks_of; by rewrite length_fmap, length_seq).
  by apply reads_cks.
Qed.

Lemma nck_lt k : (k < length ts)%nat → is_checkpoint k = true →
  (k / CHECKPOINT_EVERY - 1 < nck (length ts))%nat.
Proof.
  intros Hk [j ->]%is_checkpoint_spec. rewrite Nat.div_mul by done.
  assert (S j ≤ nck (length ts))%nat; [|lia]. apply Nat.div_le_lower_bound; [done|].
  rewrite Nat.mul_comm. lia.
Qed.

Lemma cks_of_lookup k :
  (k < length ts)%nat → is_checkpoint k = true →
  cks_of ts !! (k / CHECKPOINT_EVERY - 1)%nat = Some (ck_at ts k).
Proof.
  intros Hk Hc. pose proof (nck_lt k Hk Hc) as Hlt. unfold cks_of.
  rewrite list_lookup_fmap, (proj2 (lookup_seq _ _ _ _) (conj eq_refl Hlt)).
  apply is_checkpoint_spec in Hc as [j ->]. rewrite Nat.div_mul by done.
  rewrite fmap_Some. exists j. split; [f_equal; lia|done].
Qed.

(** The checkpoint the loop finds before [us] is the state it is in. *)
Lemma ck_at_matches pre us bs :
  ts = pre ++ us →
  ck_matches (ck_at ts (length pre))
    (mkReader bs (length (tok_bytes ZERO pre))) (prev_of ZERO pre) = true.
Proof.
  intros ->. unfold ck_at, ck_matches. rewrite take_app_length. simpl. by rewrite !Z.eqb_refl.
Qed.

Lemma checkpoint_ok_encoded lz pre us :
  ts = pre ++ us → us ≠ [] → lz_cks lz = cks_of ts →
  checkpoint_ok lz (length pre) (prev_of ZERO pre)
    (mkReader (tok_bytes ZERO ts) (length (tok_bytes ZERO pre))) = Ok true.
Proof.
  intros Heq Hus Hck. unfold checkpoint_ok. rewrite Hck.
  destruct (is_checkpoint (length pre)) eqn:E; [|done].
  assert (length pre < length ts)%nat.
  { rewrite Heq, length_app. destruct us; [done|]. simpl. lia. }
  rewrite (index_Ok _ _ _ (cks_of_lookup _ ltac:(done) E)). simpl.
  by rewrite (ck_at_matches pre us).
Qed.

Lemma record_encoded pre t us :
  ts = pre ++ t :: us →
  record nsym (prev_of ZERO pre)
    (mkReader (tok_bytes ZERO ts) (length (tok_bytes ZERO pre))) =
  Ok (t, mkReader (tok_bytes ZERO ts) (length (tok_bytes ZERO (pre ++ [t])))).
Proof.
  intros Heq. pose proof Hts as HF. rewrite Heq in HF.
  apply Forall_app in HF as [Hpre HF]. apply Forall_cons in HF as [Ht _].
  assert (span_ok (prev_of ZERO pre)) as Hp by (apply prev_of_ok with nsym; [done|apply ZERO_ok]).
  rewrite (reads_tok nsym _ t Hnsym Ht Hp _ (tok_bytes (t_span t) us)).
  - unfold advance. simpl. rewrite tok_bytes_app, length_app. simpl. by rewrite app_nil_r.
  - unfold ahead. simpl. rewrite Heq, tok_bytes_app. by rewrite drop_app_length.
Qed.

Lemma tokens_loop_encoded lz us pre acc :
  ts = pre ++ us → lz_nsym lz = nsym → lz_cks lz = cks_of ts →
  tokens_loop lz push_visitor (length us) (length pre) (prev_of ZERO pre)
    (mkReader (tok_bytes ZERO ts) (length (tok_bytes ZERO pre))) acc =
  Ok (inr (mkReader (tok_bytes ZERO ts) (length (tok_bytes ZERO ts)), acc ++ us)).
Proof.
  intros Heq Hlz Hck. revert pre acc Heq.
  induction us as [|t us IH]; intros pre acc Heq; cbn [tokens_loop length].
  { by rewrite Heq, !app_nil_r. }
  rewrite (checkpoint_ok_encoded lz pre (t :: us)) by done. simpl.
  rewrite Hlz, (record_encoded pre t us) by done. simpl.
  replace (t_span t) with (prev_of ZERO (pre ++ [t])) by by rewrite prev_of_app.
  replace (S (length pre)) with (length (pre ++ [t])) by (rewrite length_app; simpl; lia).
  rewrite IH by by rewrite Heq, <- app_assoc. by rewrite <- app_assoc.
Qed.

Lemma lazy_tokens_encoded lz :
  lz_nsym lz = nsym → lz_ntok lz = length ts → lz_cks lz = cks_of ts →
  lz_toks lz = tok_bytes ZERO ts → lazy_tokens lz push_visitor [] = Ok ts.
Proof.
  intros Hn Hk Hc Ht. unfold lazy_tokens. rewrite Hk, Ht.
  rewrite (tokens_loop_encoded lz ts []) by done. simpl. by rewrite Nat.eqb_refl.
Qed.
End encoded_tokens.

(** ** The header *)

Lemma run_reads {A} (m : rd A) bs a b n rest :
  reads m bs a → drop n b = bs ++ rest →
  m (mkReader b n) = Ok (a, mkReader b (n + length bs)) ∧ drop (n + length bs) b = rest.
Proof. intros Hm Hb. split; [by apply Hm with rest|by apply drop_app_inv]. Qed.

Lemma put_sym_length ho prev pf s range : (1 ≤ length (put_sym ho prev pf s range))%nat.
Proof. unfold put_sym. rewrite length_app. pose proof (put_varint_nonempty (s_name s)). lia. Qed.

Lemma put_syms_length ho prev pf l : (length l ≤ length (put_syms ho prev pf l))%nat.
Proof.
  revert prev pf. induction l as [|[s range] l IH]; intros prev pf; simpl; [lia|].
  rewrite length_app. pose proof (put_sym_length ho prev pf s range).
  specialize (IH (s_span s) (next_first range pf)). lia.
Qed.

(** A symbol record has at most 121 bytes: twelve varints and the kind byte. *)
Lemma put_sym_length_le ho i prev pf s range :
  Z.of_nat i ≤ 2 ^ 32 → sym_ok i s → range_ok range → span_ok prev → u32 pf →
  (length (put_sym ho prev pf s range) ≤ 121)%nat.
Proof.
  intros Hi (Hn & Hlk & How & Hp & Hsp) Hr Hprev Hpf.
  destruct (span_ok_base _ Hprev) as (?&?&?). destruct Hsp as (?&?&?&?&?&?).
  assert (∀ o, u64 (id_field o)) as Hid by (intros []; simpl; [apply as_u64_range|mach]).
  assert (u64 (parent_field (s_parent s))).
  { destruct (s_parent s) as [p|]; simpl; [|mach].
    pose proof (parent_below_u32 _ _ Hi Hp p eq_refl). mach. }
  assert (length (put_range range pf) ≤ 20)%nat.
  { destruct range as [[f l]|]; simpl.
    - destruct (Hr _ _ eq_refl). rewrite length_app.
      pose proof (as_u32_range (l - f)).
      pose proof (put_varint_len_le (as_u32 (l - f) + 1) ltac:(mach)).
      pose proof (put_varint_len_le (diff f pf) ltac:(apply diff_u64; [mach|done])). lia.
    - pose proof (put_varint_len_le 0 ltac:(mach)). lia. }
  assert (length (if ho then put_varint (id_field (s_owner s)) else []) ≤ 10)%nat.
  { destruct ho; [by apply put_varint_len_le|simpl; lia]. }
  unfold put_sym, put_span. rewrite !length_app.
  repeat match goal with
  | |- context [length (put_varint ?v)] =>
      assert (length (put_varint v) ≤ 10)%nat by
        (apply put_varint_len_le; (by apply diff_u64) || (by apply Hid) || mach);
      generalize dependent (length (put_varint v)); intros
  end.
  simpl. lia.
Qed.

Lemma put_syms_length_le ho l i prev pf :
  Z.of_nat (i + length l) ≤ 2 ^ 32 →
  (∀ j s range, l !! j = Some (s, range) → sym_ok (i + j) s ∧ range_ok range) →
  span_ok prev → u32 pf →
  (length (put_syms ho prev pf l) ≤ 121 * length l)%nat.
Proof.
  revert i prev pf. induction l as [|[s range] l IH]; intros i prev pf Hi Hl Hprev Hpf;
    cbn [put_syms length]; [lia|].
  destruct (Hl 0%nat s range eq_refl) as (Hs & Hr). rewrite Nat.add_0_r in Hs.
  cbn [length] in Hi. rewrite length_app.
  pose proof (put_sym_length_le ho i prev pf s range ltac:(lia) Hs Hr Hprev Hpf).
  specialize (IH (S i) (s_span s) (next_first range pf) ltac:(lia)).
  assert (length (put_syms ho (s_span s) (next_first range pf) l) ≤ 121 * length l)%nat; [|lia].
  apply IH; [|apply Hs|by apply next_first_u32].
  intros j s' range' Hj. specialize (Hl (S j) s' range' Hj).
  by replace (S i + j)%nat with (i + S j)%nat by lia.
Qed.

Lemma flags_ok d h :
  let flags := Z.lor (b2z d) (Z.shiftl (b2z h) 1) in
  Z.land flags (Z.lnot 3) = 0 ∧
  negb (Z.land flags 1 =? 0) = d ∧ negb (Z.land flags 2 =? 0) = h.
Proof. by destruct d, h. Qed.

Lemma nck_Z n : Z.to_nat (Z.max (Z.of_nat n - 1) 0 / Z.of_nat CHECKPOINT_EVERY) = nck n.
Proof.
  unfold nck. replace (Z.max (Z.of_nat n - 1) 0) with (Z.of_nat (pred n)) by lia.
  by rewrite <- Nat2Z.inj_div, Nat2Z.id.
Qed.

(** The parsed header of an encoded stream. *)
Definition has_owners (syms : list SymRec) : bool :=
  existsb (λ s, bool_decide (is_Some (s_owner s))) syms.

Definition lazy_of (st : Stream) : Lazy :=
  let '(ranges, dense) := compute_ranges (st_symbols st) (st_tokens st) in
  let ho := has_owners (st_symbols st) in
  mkLazy (length (st_symbols st)) (length (st_tokens st)) dense ho
    (put_syms ho ZERO 0 (zip (st_symbols st) ranges))
    (cks_of (st_tokens st)) (tok_bytes ZERO (st_tokens st)).

Lemma lazy_of_sym_bytes st ranges dense :
  wf_stream st → compute_ranges (st_symbols st) (st_tokens st) = (ranges, dense) →
  let l := zip (st_symbols st) ranges in
  length l = length (st_symbols st) ∧
  (∀ j s range, l !! j = Some (s, range) →
     sym_ok j s ∧ (has_owners (st_symbols st) = false → s_owner s = None) ∧ range_ok range).
Proof.
  intros Hwf Hc l. destruct (compute_ranges_ok (st_symbols st) (st_tokens st)) as [Hlen HF].
  rewrite Hc in Hlen, HF. simpl in Hlen, HF. split.
  { unfold l. rewrite length_zip_with. lia. }
  intros j s range Hj. unfold l in Hj. apply lookup_zip_with_Some in Hj as (? & ? & [= <- <-] & Hs & Hr).
  split_and!.
  - by apply (wf_syms st).
  - intros Ho. destruct (s_owner s) eqn:E; [|done]. exfalso.
    assert (has_owners (st_symbols st) = true); [|congruence].
    apply existsb_exists. exists s. split; [by apply list_elem_of_In, list_elem_of_lookup_2 with j|].
    apply bool_decide_eq_true. by rewrite E.
  - by apply (proj1 (Forall_lookup _ _) HF j).
Qed.

Lemma encode_sections st :
  encode st =
    [STREAM_FORMAT] ++ put_varint (Z.of_nat (length (st_symbols st))) ++
    put_varint (Z.of_nat (length (st_tokens st))) ++
    put_varint (Z.of_nat (length (lz_sym_bytes (lazy_of st)))) ++
    [Z.lor (b2z (lz_ranges_dense (lazy_of st))) (Z.shiftl (b2z (lz_has_owners (lazy_of st))) 1)] ++
    lz_sym_bytes (lazy_of st) ++ put_cks Ck_default (cks_of (st_tokens st)) ++
    tok_bytes ZERO (st_tokens st).
Proof.
  unfold encode, lazy_of. destruct (enc_toks_spec (st_tokens st)) as (Ht & _ & Hc & _).
  destruct (compute_ranges _ _) as [ranges dense]. by rewrite Ht, Hc.
Qed.

Lemma last_ck_lt nsym ts c :
  Forall (tok_ok nsym) ts → Z.of_nat nsym ≤ 2 ^ 32 → last (cks_of ts) = Some c →
  ck_off c < Z.of_nat (length (tok_bytes ZERO ts)).
Proof.
  intros Hts Hn Hl. unfold cks_of in Hl. destruct (nck (length ts)) as [|n] eqn:E; [done|].
  rewrite seq_S, fmap_app, list_fmap_singleton, last_snoc in Hl. injection Hl as <-.
  apply ck_at_lt with nsym; [done|done|].
  pose proof (Nat.Div0.mul_div_le (pred (length ts)) CHECKPOINT_EVERY) as Hd.
  unfold nck in E. rewrite E, Nat.mul_comm in Hd. change (0 + n)%nat with n.
  unfold CHECKPOINT_EVERY in *. lia.
Qed.

Lemma lazy_of_sizes st :
  wf_stream st →
  (length (st_symbols st) ≤ length (lz_sym_bytes (lazy_of st)) ≤ 121 * length (st_symbols st))%nat.
Proof.
  intros Hwf. unfold lazy_of. destruct (compute_ranges _ _) as [ranges dense] eqn:E. cbn [lz_sym_bytes].
  destruct (lazy_of_sym_bytes st ranges dense Hwf E) as [Hlen Hl]. split; rewrite <- Hlen at 1.
  - apply put_syms_length.
  - rewrite Hlen, <- Hlen. apply put_syms_length_le with 0%nat; [| |apply ZERO_ok|mach].
    2:{ intros j s range Hj. by destruct (Hl j s range Hj) as (?&_&?). }
    rewrite Hlen. apply Hwf.
Qed.

(** One field read of [decode_lazy], with what lies ahead in [Hb]. *)
Ltac run_field lem Hb :=
  apply (run_reads _ _ _ _ _ _ lem) in Hb as [-> Hb]; cbn [mbind outcome_mbind outcome_bind].

Lemma decode_lazy_encode st : wf_stream st → decode_lazy (encode st) = Ok (lazy_of st).
Proof.
  intros Hwf. pose proof Hwf as (Hns & Hnt & _ & Ht). pose proof (lazy_of_sizes st Hwf) as Hsz.
  pose proof (encode_sections st) as Hb. set (b := encode st) in *. clearbody b.
  pose proof (tok_bytes_length _ ZERO _ Ht Hns ZERO_ok) as Htl.
  pose proof (f_equal length Hb) as Hlen. rewrite !length_app in Hlen. cbn [length] in Hlen.
  change b with (drop 0 b) in Hb. unfold decode_lazy.
  destruct (flags_ok (lz_ranges_dense (lazy_of st)) (lz_has_owners (lazy_of st))) as (Hf0 & Hf1 & Hf2).
  run_field (reads_byte STREAM_FORMAT) Hb. rewrite Z.eqb_refl. cbn [negb].
  run_field (reads_varint (Z.of_nat (length (st_symbols st))) ltac:(mach)) Hb.
  run_field (reads_varint (Z.of_nat (length (st_tokens st))) ltac:(mach)) Hb.
  run_field (reads_varint (Z.of_nat (length (lz_sym_bytes (lazy_of st)))) ltac:(mach)) Hb.
  run_field (reads_byte (Z.lor (b2z (lz_ranges_dense (lazy_of st)))
    (Z.shiftl (b2z (lz_has_owners (lazy_of st))) 1))) Hb.
  cbv zeta in *. rewrite Hf0, Hf1, Hf2. cbn [negb Z.eqb at_].
  rewrite (proj2 (Z.ltb_ge _ _)) by lia.
  match type of Hb with drop ?n b = _ =>
    assert (n ≤ 32 ∧ n + length (lz_sym_bytes (lazy_of st)) ≤ length b)%nat as [Hpos Hpos'] end.
  { pose proof (put_varint_len_le (Z.of_nat (length (st_symbols st))) ltac:(mach)).
    pose proof (put_varint_len_le (Z.of_nat (length (st_tokens st))) ltac:(mach)).
    pose proof (put_varint_len_le (Z.of_nat (length (lz_sym_bytes (lazy_of st)))) ltac:(mach)).
    cbn [length]. lia. }
  match type of Hb with drop ?n b = _ => set (pos := n) in * end. clearbody pos.
  unfold checked_add_u64. rewrite (proj2 (Z.ltb_lt (Z.of_nat pos + _) _)) by lia.
  rewrite <- Nat2Z.inj_add. simpl mbind. rewrite option_guard_True by lia. simpl ok_or.
  cbn [mbind outcome_mbind outcome_bind].
  rewrite (proj2 (Z.ltb_ge _ _)). 
  2:{ apply Z.div_le_upper_bound; unfold CHECKPOINT_EVERY; lia. }
  rewrite nck_Z, !Nat2Z.id. rewrite (Nat.add_comm pos), Nat.add_sub, (Nat.add_comm _ pos).
  rewrite (drop_app_take _ _ _ _ Hb). apply drop_app_inv in Hb.
  run_field (reads_cks_of _ _ Ht Hns Hnt) Hb. cbn [at_]. rewrite Hb.
  assert (∀ c, last (cks_of (st_tokens st)) = Some c →
    (Z.of_nat (length (tok_bytes ZERO (st_tokens st))) <=? ck_off c) = false) as Hlast.
  { intros c Hc. apply Z.leb_gt. by apply last_ck_lt with (length (st_symbols st)). }
  unfold lazy_of. destruct (compute_ranges _ _) as [ranges dense].
  destruct (last (cks_of (st_tokens st))) as [c|] eqn:E; [|done]. by rewrite Hlast.
Qed.

Lemma lazy_symbols_encode st :
  wf_stream st → lazy_symbols (lazy_of st) = Ok (st_symbols (with_ranges st)).
Proof.
  intros Hwf. unfold lazy_symbols, lazy_of, with_ranges.
  destruct (compute_ranges _ _) as [ranges dense] eqn:E. simpl.
  destruct (lazy_of_sym_bytes st ranges dense Hwf E) as [Hlen Hl].
  set (l := zip (st_symbols st) ranges) in *.
  assert (reads (read_syms (has_owners (st_symbols st)) (length l) 0 ZERO 0)
    (put_syms (has_owners (st_symbols st)) ZERO 0 l) ((λ p, set_toks p.1 p.2) <$> l)) as Hr.
  { apply reads_syms; [|done|apply ZERO_ok|mach]. rewrite Hlen. apply Hwf. }
  rewrite <- Hlen, (Hr _ []) by (unfold ahead; simpl; by rewrite app_nil_r). simpl.
  rewrite Nat.eqb_refl. simpl. f_equal. unfold l.
  rewrite (zip_with_zip set_toks). apply list_fmap_ext. by intros ? [] ?.
Qed.

Lemma lazy_tokens_encode st :
  wf_stream st → lazy_tokens (lazy_of st) push_visitor [] = Ok (st_tokens st).
Proof.
  intros Hwf. apply (lazy_tokens_encoded (length (st_symbols st))); [apply Hwf..| | | |];
    unfold lazy_of; by destruct (compute_ranges _ _).
Qed.

Lemma decode_encode_run st : wf_stream st → decode (encode st) = Ok (with_ranges st).
Proof.
  intros Hwf. unfold decode. rewrite decode_lazy_encode by done.
  cbn [mbind outcome_mbind outcome_bind]. rewrite lazy_symbols_encode by done.
  cbn [mbind outcome_mbind outcome_bind]. by rewrite lazy_tokens_encode.
Qed.

(** C1: decoding an encoded stream gives the stream back, every symbol now
    carrying its transitive token range. In particular the encoding of a
    well-formed stream is always accepted. *)
Theorem decode_encode st : wf_stream st → decode (encode st) = Ok (with_ranges st).
Proof. apply decode_encode_run. Qed.

Lemma decode_encode_witness :
  decode (encode Golden.sample) = Ok (with_ranges Golden.sample).
Proof. apply decode_encode. apply (bool_decide_unpack _). by vm_compute. Defined.
