(* ===== verification/Ranges.v ===== *)
(** * Token ranges of the stream codec

    What [compute_ranges] computes, against the tree the parents describe:
    each symbol's range is the first and the last token below it, and the
    dense flag says that a range holds nothing else. And the block search
    over the checkpoints. *)
From S2P Require Import Prelude Text Schema Varint Stream StreamRound StreamSafe.

(** ** The tree of symbols *)

(** [encloses syms i cur]: symbol [i] is met on the way up from [cur]. *)
Inductive encloses (syms : list SymRec) (i : nat) : option Z → Prop :=
  | encloses_here p : Z.to_nat p = i → (i < length syms)%nat → encloses syms i (Some p)
  | encloses_up p s :
      syms !! Z.to_nat p = Some s → encloses syms i (s_parent s) → encloses syms i (Some p).

(** Every parent is an earlier symbol. *)
Definition ordered (syms : list SymRec) : Prop :=
  ∀ i s, syms !! i = Some s → parent_below i (s_parent s).

Fixpoint chain (n : nat) (syms : list SymRec) (cur : option Z) : list nat :=
  match n, cur with
  | S n, Some p =>
      match syms !! Z.to_nat p with
      | Some s => Z.to_nat p :: chain n syms (s_parent s)
      | None => []
      end
  | _, _ => []
  end.

Lemma ascend_chain n syms ord cur g :
  ascend n syms ord cur g = foldl (bump ord) g (chain n syms cur).
Proof.
  revert cur g. induction n as [|n IH]; intros [p|] g; simpl; try done.
  destruct (syms !! Z.to_nat p); simpl; auto.
Qed.

Lemma chain_below n syms cur k :
  ordered syms → parent_below k cur → Forall (λ i, (i < k)%nat) (chain n syms cur).
Proof.
  intros Ho. revert cur k. induction n as [|n IH]; intros [p|] k Hk; simpl; try constructor.
  simpl in Hk. destruct (syms !! Z.to_nat p) as [s|] eqn:Hs; constructor; [lia|].
  eapply Forall_impl; [apply (IH _ (Z.to_nat p)); eauto|]. simpl. lia.
Qed.

Lemma chain_NoDup n syms cur : ordered syms → NoDup (chain n syms cur).
Proof.
  intros Ho. revert cur. induction n as [|n IH]; intros [p|]; simpl; try constructor.
  destruct (syms !! Z.to_nat p) as [s|] eqn:Hs; constructor; [|done].
  intros Hin. pose proof (chain_below n syms (s_parent s) _ Ho (Ho _ _ Hs)) as HF.
  pose proof (proj1 (Forall_forall _ _) HF _ Hin). simpl in *. lia.
Qed.

Lemma chain_encloses n syms cur i : i ∈ chain n syms cur → encloses syms i cur.
Proof.
  revert cur. induction n as [|n IH]; intros [p|]; simpl; try by intros ?%elem_of_nil.
  destruct (syms !! Z.to_nat p) as [s|] eqn:Hs; [|by intros ?%elem_of_nil].
  intros [->|Hin]%elem_of_cons.
  - apply encloses_here; [done|]. by apply lookup_lt_Some in Hs.
  - by apply encloses_up with s; [|apply IH].
Qed.

(** The ascent is long enough: [n] steps pass every ancestor of a symbol. *)
Lemma encloses_chain n syms cur i :
  ordered syms → (∀ p, cur = Some p → (Z.to_nat p < n)%nat) →
  encloses syms i cur → i ∈ chain n syms cur.
Proof.
  intros Ho Hn H. revert n Hn. induction H as [p Hp Hi|p s Hs H IH]; intros n Hn.
  - specialize (Hn p eq_refl). destruct n as [|n]; [lia|]. simpl.
    destruct (lookup_lt_is_Some_2 syms (Z.to_nat p)) as [s ->]; [lia|].
    rewrite <- Hp. apply elem_of_cons. by left.
  - specialize (Hn p eq_refl). destruct n as [|n]; [lia|]. simpl. rewrite Hs.
    apply elem_of_cons. right. apply IH. intros q Hq. specialize (Ho _ _ Hs).
    rewrite Hq in Ho. simpl in Ho. lia.
Qed.

(** ** What the fold has computed after a prefix of the tokens *)

(** The closing [match] on a symbol's first and last ordinal. *)
Definition both (f l : option Z) : option (Z * Z) :=
  match f, l with Some f, Some l => Some (f, l) | _, _ => None end.

Section ranges.
Context (syms : list SymRec) (Ho : ordered syms).

Definition under_chain (i : nat) (t : TokRec) : bool :=
  bool_decide (i ∈ chain (length syms) syms (t_parent t)).

(** The ordinals below symbol [i], ascending. *)
Definition ords_under (i : nat) (ts : list TokRec) : list Z :=
  (λ p, Z.of_nat p.1) <$> filter (λ p, under_chain i p.2 = true) (enumerate ts).

Definition cell_at (g : Ranges) (i : nat) (us : list Z) : Prop :=
  r_first g !! i = Some (head us) ∧ r_last g !! i = Some (last us) ∧
  r_count g !! i = Some (Z.of_nat (length us)).

Lemma bump_other ord g i j us : i ≠ j → cell_at g j us → cell_at (bump ord g i) j us.
Proof. intros Hij (?&?&?). by split_and!; simpl; rewrite list_lookup_alter_ne. Qed.

Lemma bump_self ord g i us :
  Forall (λ o, o ≤ ord) us → cell_at g i us → cell_at (bump ord g i) i (us ++ [ord]).
Proof.
  intros HF (Hf & Hl & Hc). unfold cell_at. simpl.
  rewrite !list_lookup_alter_eq, Hf, Hl, Hc, last_snoc, length_app. simpl.
  split_and!; [| |by rewrite Nat2Z.inj_add].
  - destruct us as [|u us]; simpl; [done|]. apply Forall_cons in HF as [? _]. do 2 f_equal. lia.
  - destruct (last us) as [u|] eqn:E; [|done]. do 2 f_equal.
    apply last_Some in E as [us' ->]. apply Forall_app in HF as [_ HF].
    apply Forall_cons in HF as [? _]. lia.
Qed.

Lemma bump_all ord g l i us :
  NoDup l → Forall (λ o, o ≤ ord) us → cell_at g i us →
  cell_at (foldl (bump ord) g l) i (us ++ (if bool_decide (i ∈ l) then [ord] else [])).
Proof.
  intros Hnd HF. revert g. induction Hnd as [|j l Hj Hnd IH]; intros g Hg.
  { rewrite bool_decide_false by (by intros ?%elem_of_nil). by rewrite app_nil_r. }
  cbn [foldl]. destruct (decide (i = j)) as [->|Hne].
  - rewrite (bool_decide_true (j ∈ j :: l)) by (apply elem_of_cons; by left).
    apply (bump_self ord) in Hg; [|done]. clear IH. revert Hg.
    generalize (bump ord g j), (us ++ [ord]). clear -Hj. induction l as [|k l IH]; intros g us Hg; [done|].
    apply not_elem_of_cons in Hj as [? ?]. simpl. apply IH; [done|]. by apply bump_other.
  - rewrite (bool_decide_ext (i ∈ j :: l) (i ∈ l)) by (rewrite elem_of_cons; naive_solver).
    apply IH. by apply bump_other.
Qed.

Lemma ords_under_snoc i ts t :
  ords_under i (ts ++ [t]) =
    ords_under i ts ++ (if under_chain i t then [Z.of_nat (length ts)] else []).
Proof.
  unfold ords_under, enumerate. rewrite enum_from_app, filter_app, fmap_app. f_equal. simpl.
  rewrite filter_cons, filter_nil. simpl. by destruct (under_chain i t).
Qed.

Lemma ords_under_elem i ts o :
  o ∈ ords_under i ts ↔
  ∃ t, 0 ≤ o ∧ ts !! Z.to_nat o = Some t ∧ under_chain i t = true.
Proof.
  unfold ords_under. rewrite list_elem_of_fmap. setoid_rewrite list_elem_of_filter. split.
  - intros ([k t] & -> & Hu & [_ Hk]%elem_of_enum_from). simpl in *. exists t.
    rewrite Nat2Z.id. rewrite Nat.sub_0_r in Hk. split_and!; [lia|done|done].
  - intros (t & Ho' & Ht & Hu). exists (Z.to_nat o, t). split_and!; simpl; [lia|done|].
    apply elem_of_enum_from. simpl. by rewrite Nat.sub_0_r; split; [lia|].
Qed.

Lemma token_ranges_spec ts i :
  Z.of_nat (length ts) ≤ 2 ^ 32 → (i < length syms)%nat →
  cell_at (token_ranges syms ts) i (ords_under i ts).
Proof.
  intros Hlen Hi. induction ts as [|t ts IH] using rev_ind.
  { unfold token_ranges. split_and!; simpl; by apply lookup_replicate_2. }
  rewrite length_app in Hlen. simpl in Hlen.
  unfold token_ranges, enumerate. rewrite enum_from_app, foldl_app. simpl.
  rewrite as_u32_id, ascend_chain, ords_under_snoc by mach.
  unfold under_chain. apply bump_all; [by apply chain_NoDup| |apply IH; lia].
  apply Forall_forall. intros o (t' & ? & Hlt%lookup_lt_Some & _)%ords_under_elem. lia.
Qed.

Lemma finish_ranges_lookup first last count i f l c :
  first !! i = Some f → last !! i = Some l → count !! i = Some c →
  (finish_ranges first last count).1 !! i =
    Some (both f l).
Proof.
  revert last count i. induction first as [|f' first IH]; intros [|l' last] [|c' count] [|i];
    simpl; try done; intros Hf Hl Hc.
  - simplify_eq. destruct (finish_ranges first last count). by destruct f, l.
  - specialize (IH _ _ _ Hf Hl Hc). destruct (finish_ranges first last count). by destruct f', l'.
Qed.

Lemma finish_ranges_dense first last count :
  length first = length last → length first = length count →
  (finish_ranges first last count).2 = true ↔
  ∀ i f l c, first !! i = Some (Some f) → last !! i = Some (Some l) → count !! i = Some c →
    c = as_u32 (l - f) + 1.
Proof.
  revert last count. induction first as [|f first IH]; intros [|l last] [|c count]; simpl;
    intros H1 H2; try done.
  injection H1 as H1. injection H2 as H2. specialize (IH last count H1 H2).
  assert ((finish_ranges first last count).2 = true ↔
    ∀ i f l c, first !! i = Some (Some f) → last !! i = Some (Some l) → count !! i = Some c →
      c = as_u32 (l - f) + 1) as IH' by done. clear IH.
  destruct (finish_ranges first last count) as [ranges dense]. simpl in IH'.
  assert ((∀ i f' l' c', (f :: first) !! i = Some (Some f') → (l :: last) !! i = Some (Some l') →
      (c :: count) !! i = Some c' → c' = as_u32 (l' - f') + 1) ↔
    (∀ f' l', f = Some f' → l = Some l' → c = as_u32 (l' - f') + 1) ∧ dense = true) as ->.
  { rewrite IH'. split.
    - intros H. split; [intros f' l' -> ->; by apply (H 0%nat)|].
      intros i f' l' c'. apply (H (S i)).
    - intros [H0 HS] [|i] f' l' c'; simpl; [intros; simplify_eq; by apply H0|apply HS]. }
  destruct f as [f|], l as [l|]; simpl; try (split; [by split|naive_solver]).
  rewrite andb_true_iff, Z.eqb_eq. naive_solver.
Qed.

Lemma ords_under_sorted i us : StronglySorted Z.lt (ords_under i us).
Proof.
  induction us as [|t us IH] using rev_ind; [constructor|]. rewrite ords_under_snoc.
  destruct (under_chain i t); [|by rewrite app_nil_r].
  apply StronglySorted_app_2; [|done|by repeat constructor].
  intros o ? (t' & ? & Hlt%lookup_lt_Some & _)%ords_under_elem ->%list_elem_of_singleton. lia.
Qed.

Context (ts : list TokRec) (Hts : Forall (λ t, parent_below (length syms) (t_parent t)) ts).
Context (Hlen : Z.of_nat (length ts) ≤ 2 ^ 32).

(** Token [o] lies below symbol [i]. *)
Definition under (i : nat) (o : Z) : Prop :=
  ∃ t, 0 ≤ o ∧ ts !! Z.to_nat o = Some t ∧ encloses syms i (t_parent t).

Lemma under_ords i o : o ∈ ords_under i ts ↔ under i o.
Proof.
  rewrite ords_under_elem. unfold under. apply exist_proper. intros t.
  split; intros (? & Ht & Hu); split_and!; try done.
  - by apply bool_decide_eq_true, chain_encloses in Hu.
  - apply bool_decide_eq_true, encloses_chain; [done| |done]. intros p Hp.
    pose proof (proj1 (Forall_lookup _ _) Hts _ _ Ht) as Hb. simpl in Hb. rewrite Hp in Hb.
    simpl in Hb. lia.
Qed.

End ranges.

(** The ends of a strictly sorted list bound it, and it is an interval
    exactly when it has as many elements as one. *)
Lemma sorted_bounds us f l o :
  StronglySorted Z.lt us → head us = Some f → last us = Some l → o ∈ us → f ≤ o ≤ l.
Proof.
  intros Hs Hf Hl Ho. destruct us as [|u us]; [done|]. injection Hf as ->.
  split.
  - apply StronglySorted_inv in Hs as [_ HF]. apply elem_of_cons in Ho as [->|Ho]; [lia|].
    pose proof (proj1 (Forall_forall _ _) HF _ Ho). simpl in *. lia.
  - apply last_Some in Hl as [us' Heq]. rewrite Heq in Hs, Ho.
    apply elem_of_app in Ho as [Ho| ->%list_elem_of_singleton]; [|lia].
    apply Z.lt_le_incl, (StronglySorted_app_1_elem_of _ us' [l]); [done|done|].
    by apply list_elem_of_singleton.
Qed.

Lemma sorted_NoDup us : StronglySorted Z.lt us → NoDup us.
Proof.
  induction 1 as [|u us Hs IH HF]; constructor; [|done].
  intros Hu. pose proof (proj1 (Forall_forall _ _) HF _ Hu). simpl in *. lia.
Qed.

Lemma sorted_interval us f l :
  StronglySorted Z.lt us → head us = Some f → last us = Some l →
  Z.of_nat (length us) = l - f + 1 ↔ (∀ o, f ≤ o ≤ l → o ∈ us).
Proof.
  intros Hs Hf Hl.
  assert (us ⊆+ seqZ f (l - f + 1)) as Hsub.
  { apply NoDup_submseteq; [by apply sorted_NoDup|]. intros o Ho.
    apply elem_of_seqZ. pose proof (sorted_bounds us f l o Hs Hf Hl Ho). lia. }
  assert (f ≤ l) as Hfl.
  { apply (sorted_bounds us f l f Hs Hf Hl). destruct us; [done|]. injection Hf as ->.
    apply elem_of_cons. by left. }
  split.
  - intros Hn o Ho.
    assert (us ≡ₚ seqZ f (l - f + 1)) as ->.
    { apply submseteq_length_Permutation; [done|]. rewrite length_seqZ. lia. }
    apply elem_of_seqZ. lia.
  - intros H. assert (seqZ f (l - f + 1) ⊆+ us) as Hsub'.
    { apply NoDup_submseteq; [apply NoDup_seqZ|]. intros o Ho%elem_of_seqZ. apply H. lia. }
    apply submseteq_length in Hsub, Hsub'. rewrite length_seqZ in *. lia.
Qed.

(** What a range says of the tokens below symbol [i]. *)
Definition range_of (syms : list SymRec) (ts : list TokRec) (i : nat) (r : option (Z * Z)) : Prop :=
  match r with
  | None => ∀ o, ¬ under syms ts i o
  | Some (f, l) => under syms ts i f ∧ under syms ts i l ∧ ∀ o, under syms ts i o → f ≤ o ≤ l
  end.

Lemma range_of_ords syms ts i :
  ordered syms → Forall (λ t, parent_below (length syms) (t_parent t)) ts →
  let us := ords_under syms i ts in
  range_of syms ts i (both (head us) (last us)).
Proof.
  intros Ho Hts us. pose proof (ords_under_sorted syms i ts) as Hs. fold us in Hs.
  assert (∀ o, o ∈ us ↔ under syms ts i o) as Hu by (intros; by apply under_ords).
  clearbody us. destruct (head us) as [f|] eqn:Hf.
  2:{ destruct us; [|done]. intros o Hund. apply Hu in Hund. by apply elem_of_nil in Hund. }
  destruct (last us) as [l|] eqn:Hl; [|apply last_None in Hl; by subst].
  split_and!.
  - apply Hu. destruct us; [done|]. injection Hf as ->. apply elem_of_cons. by left.
  - apply Hu. apply last_Some in Hl as [us' ->]. apply elem_of_app. right. by apply list_elem_of_singleton.
  - intros o Hund. apply Hu in Hund. by apply (sorted_bounds us f l).
Qed.

Lemma dense_iff syms ts i f l :
  ordered syms → Forall (λ t, parent_below (length syms) (t_parent t)) ts →
  Z.of_nat (length ts) ≤ 2 ^ 32 →
  head (ords_under syms i ts) = Some f → last (ords_under syms i ts) = Some l →
  Z.of_nat (length (ords_under syms i ts)) = as_u32 (l - f) + 1 ↔
  (∀ o, f ≤ o ≤ l → under syms ts i o).
Proof.
  intros Ho Hts Hlen Hf Hl. pose proof (ords_under_sorted syms i ts) as Hs.
  assert (∀ o, o ∈ ords_under syms i ts → 0 ≤ o < 2 ^ 32) as Hb.
  { intros o (t & ? & Ht%lookup_lt_Some & _)%ords_under_elem. lia. }
  assert (f ∈ ords_under syms i ts) as Hfi.
  { destruct (ords_under syms i ts); [done|]. injection Hf as ->. apply elem_of_cons. by left. }
  pose proof (sorted_bounds _ _ _ f Hs Hf Hl Hfi).
  assert (l ∈ ords_under syms i ts) as Hli.
  { apply last_Some in Hl as [us ->]. apply elem_of_app. right. by apply list_elem_of_singleton. }
  pose proof (Hb f Hfi). pose proof (Hb l Hli). rewrite as_u32_id by mach.
  rewrite (sorted_interval _ _ _ Hs Hf Hl).
  split; intros H' o Hol; specialize (H' o Hol); by apply (under_ords syms Ho ts Hts).
Qed.

Lemma compute_ranges_run syms ts ranges dense :
  ordered syms → Forall (λ t, parent_below (length syms) (t_parent t)) ts →
  Z.of_nat (length ts) ≤ 2 ^ 32 → compute_ranges syms ts = (ranges, dense) →
  length ranges = length syms ∧
  (∀ i r, ranges !! i = Some r → range_of syms ts i r) ∧
  (dense = true ↔
   ∀ i f l, ranges !! i = Some (Some (f, l)) → ∀ o, f ≤ o ≤ l → under syms ts i o).
Proof.
  intros Ho Hts Hlen Hc. destruct (compute_ranges_ok syms ts) as [Hn _]. rewrite Hc in Hn.
  simpl in Hn. destruct (token_ranges_ok syms ts) as (Hlf & Hlc & HF%Forall2_length).
  pose proof (token_ranges_spec syms Ho ts) as Hcell.
  assert (∀ i, (i < length syms)%nat →
    ranges !! i = Some (both (head (ords_under syms i ts)) (last (ords_under syms i ts)))) as Hr.
  { intros i Hi. destruct (Hcell i Hlen Hi) as (Hf & Hl & Hcn).
    pose proof (finish_ranges_lookup _ _ _ _ _ _ _ Hf Hl Hcn) as H.
    unfold compute_ranges in Hc. cbv zeta in Hc. rewrite Hc in H. exact H. }
  split_and!; [done| |].
  - intros i r Hi. pose proof (lookup_lt_Some _ _ _ Hi). rewrite Hr in Hi by lia.
    injection Hi as <-. by apply range_of_ords.
  - assert (dense = (compute_ranges syms ts).2) as -> by by rewrite Hc.
    unfold compute_ranges. rewrite finish_ranges_dense by congruence.
    split.
    + intros H i f l Hi. pose proof (lookup_lt_Some _ _ _ Hi) as Hlt. rewrite Hn in Hlt.
      rewrite Hr in Hi by done.
      destruct (head _) as [f'|] eqn:Hf, (last _) as [l'|] eqn:Hl; try done. injection Hi as -> ->.
      apply (dense_iff syms ts i f l); try done.
      destruct (Hcell i Hlen Hlt) as (Hcf & Hcl & Hcn). rewrite Hf in Hcf. rewrite Hl in Hcl.
      by apply (H i f l).
    + intros H i f l c Hcf Hcl Hcn. pose proof (lookup_lt_Some _ _ _ Hcf) as Hlt. rewrite Hlf in Hlt.
      destruct (Hcell i Hlen Hlt) as (Hcf' & Hcl' & Hcn').
      rewrite Hcf in Hcf'. rewrite Hcl in Hcl'. rewrite Hcn in Hcn'.
      injection Hcf' as Hf. injection Hcl' as Hl. injection Hcn' as ->.
      apply dense_iff; try done. apply (H i). rewrite Hr by done. by rewrite <- Hf, <- Hl.
Qed.

(** [compute_ranges] is exact: a symbol's range is the first and last token
    ordinal transitively below it ([None] when there is none), and the dense
    flag holds exactly when every token inside a symbol's range is below that
    symbol, so that readers may treat ranges as the token sets. *)
Theorem compute_ranges_spec syms ts ranges dense :
  ordered syms → Forall (λ t, parent_below (length syms) (t_parent t)) ts →
  Z.of_nat (length ts) ≤ 2 ^ 32 → compute_ranges syms ts = (ranges, dense) →
  length ranges = length syms ∧
  (∀ i r, ranges !! i = Some r → range_of syms ts i r) ∧
  (dense = true ↔
   ∀ i f l, ranges !! i = Some (Some (f, l)) → ∀ o, f ≤ o ≤ l → under syms ts i o).
Proof. apply compute_ranges_run. Qed.

Lemma wf_ordered st : wf_stream st → ordered (st_symbols st).
Proof. intros Hwf i s Hs. apply (wf_syms st i s Hwf Hs). Qed.

Lemma wf_token_parents st :
  wf_stream st → Forall (λ t, parent_below (length (st_symbols st)) (t_parent t)) (st_tokens st).
Proof. intros (_ & _ & _ & HF). eapply Forall_impl; [done|]. by intros t (_ & ? & _). Qed.


(** ** The checkpoint block of a byte position *)

Lemma partition_point_spec {A} (p : A → bool) l :
  (∀ i x, l !! i = Some x → (i < partition_point p l)%nat → p x = true) ∧
  (∀ x, l !! partition_point p l = Some x → p x = false) ∧ (partition_point p l ≤ length l)%nat.
Proof.
  induction l as [|a l (IH1 & IH2 & IH3)]; simpl; [split_and!; try done; by intros []|].
  destruct (p a) eqn:E; simpl; split_and!; try lia.
  - intros [|i] x; simpl; [by intros [= <-]|]. intros Hx Hi. apply (IH1 i); [done|lia].
  - done.
  - by intros x [= <-].
Qed.

Lemma prev_of_take ts k t : ts !! k = Some t → prev_of ZERO (take (S k) ts) = t_span t.
Proof. intros Ht. by rewrite (take_S_r _ _ _ Ht), prev_of_app. Qed.

(** Checkpoint [j] holds the start of the record before its block. *)
Lemma checkpoint_start lz ts j :
  Forall u8 (lz_toks lz) → Walk lz 0 ZERO (mkReader (lz_toks lz) 0) ts →
  length ts = lz_ntok lz → (S j * CHECKPOINT_EVERY < length ts)%nat →
  ∃ c m t, lz_cks lz !! j = Some c ∧ S m = (S j * CHECKPOINT_EVERY)%nat ∧
    ts !! m = Some t ∧ ck_start c = start (t_span t).
Proof.
  intros Htoks HW Hn Hj. destruct (checkpoint_at lz ts Htoks HW Hn _ j Hj eq_refl) as (c & Hc & Hst & _).
  assert (∃ m, S m = (S j * CHECKPOINT_EVERY)%nat) as [m Hm].
  { exists (pred (S j * CHECKPOINT_EVERY)). apply Nat.succ_pred. unfold CHECKPOINT_EVERY. lia. }
  destruct (lookup_lt_is_Some_2 ts m) as [t Ht]; [lia|].
  exists c, m, t. split_and!; try done. by rewrite Hst, <- Hm, (prev_of_take _ _ _ Ht).
Qed.

Lemma starts_ordered ts i j t u :
  StronglySorted (λ t u, start (t_span t) ≤ start (t_span u)) ts →
  ts !! i = Some t → ts !! j = Some u → (i ≤ j)%nat → start (t_span t) ≤ start (t_span u).
Proof.
  intros Hs Hi Hj Hij. destruct (decide (i = j)) as [->|]; [simplify_eq; lia|].
  by apply (sorted_lookup _ ts i j t u Hs); [..|lia].
Qed.

Lemma block_ordinal_at_walk lz ts s o t :
  Forall u8 (lz_toks lz) → length (lz_cks lz) = nck (lz_ntok lz) → lazy_tokens lz push_visitor [] = Ok ts →
  StronglySorted (λ t u, start (t_span t) ≤ start (t_span u)) ts →
  ts !! o = Some t → s ≤ start (t_span t) →
  (∀ o' t', (o' < o)%nat → ts !! o' = Some t' → start (t_span t') < s) →
  (block_ordinal_at lz s ≤ o < block_ordinal_at lz s + CHECKPOINT_EVERY)%nat.
Proof.
  intros Htoks Hck Hts Hsort Ho Hs Hfirst. apply decode_Walk in Hts as [Hn HW].
  unfold block_ordinal_at.
  destruct (partition_point_spec (λ c, (ck_start c <? s)%Z) (lz_cks lz)) as (Hlo & Hhi & Hle).
  set (k := partition_point _ _) in *. clearbody k. rewrite Hck, <- Hn in Hle.
  pose proof (lookup_lt_Some _ _ _ Ho) as Hlt.
  pose proof (Nat.Div0.mul_div_le (pred (length ts)) CHECKPOINT_EVERY) as Hd. fold (nck (length ts)) in Hd.
  split.
  - destruct k as [|j]; [lia|]. destruct (Nat.le_gt_cases (S j * CHECKPOINT_EVERY) o) as [|Hlo']; [done|].
    destruct (checkpoint_start lz ts j) as (c & m & tm & Hc & Hm & Htm & Hst); try done.
    { pose proof (Nat.mul_le_mono_l _ _ CHECKPOINT_EVERY Hle). lia. }
    specialize (Hlo j c Hc ltac:(lia)). bool_prop.
    pose proof (starts_ordered ts o m t tm Hsort Ho Htm). lia.
  - destruct (Nat.le_gt_cases (S k * CHECKPOINT_EVERY) o) as [Hge|]; [|lia].
    destruct (checkpoint_start lz ts k) as (c & m & tm & Hc & Hm & Htm & Hst); try done; [lia|].
    specialize (Hhi c Hc). specialize (Hfirst m tm ltac:(lia) Htm). bool_prop. lia.
Qed.

Lemma block_ordinal_at_run b lz ts s o t :
  slice b → decode_lazy b = Ok lz → lazy_tokens lz push_visitor [] = Ok ts →
  StronglySorted (λ t u, start (t_span t) ≤ start (t_span u)) ts →
  ts !! o = Some t → s ≤ start (t_span t) →
  (∀ o' t', (o' < o)%nat → ts !! o' = Some t' → start (t_span t') < s) →
  (block_ordinal_at lz s ≤ o < block_ordinal_at lz s + CHECKPOINT_EVERY)%nat.
Proof.
  intros Hb Hlz. destruct (ends_Ok _ _ _ (decode_lazy_ends b Hb) Hlz) as (Hck & _ & Htoks & _). by apply block_ordinal_at_walk.
Qed.

(** The block search is right: with the tokens sorted by start, the first
    token at or after byte [s] is in the 64 records from
    [block_ordinal_at lz s] on. *)
Theorem block_ordinal_at_spec b lz ts s o t :
  slice b → decode_lazy b = Ok lz → lazy_tokens lz push_visitor [] = Ok ts →
  StronglySorted (λ t u, start (t_span t) ≤ start (t_span u)) ts →
  ts !! o = Some t → s ≤ start (t_span t) →
  (∀ o' t', (o' < o)%nat → ts !! o' = Some t' → start (t_span t') < s) →
  (block_ordinal_at lz s ≤ o < block_ordinal_at lz s + CHECKPOINT_EVERY)%nat.
Proof. apply block_ordinal_at_run. Qed.

Lemma seq_sorted n k : StronglySorted lt (seq n k).
Proof.
  revert n. induction k as [|k IH]; intros n; simpl; constructor; [done|].
  apply Forall_forall. intros x [? _]%elem_of_seq. lia.
Qed.

