(* ===== verification/Posting.v ===== *)
(** * Posting values

    [graph-store/src/codec.rs], lines 746-823: the token ordinals of one term
    in one file, in self-contained blocks of up to 128. [usize] is 64 bits,
    so [usize::try_from] of a [u64] always succeeds. *)
From S2P Require Import Prelude Text Schema Varint Stream StreamRound StreamSafe.

Definition POSTING_BLOCK : nat := 128.

(** [slice.chunks(n)]; the fuel is the length. *)
Fixpoint chunks_fuel {A} (fuel n : nat) (l : list A) : list (list A) :=
  match fuel, l with
  | S fuel, _ :: _ => take n l :: chunks_fuel fuel n (drop n l)
  | _, _ => []
  end.
Definition chunks {A} (n : nat) (l : list A) : list (list A) := chunks_fuel (length l) n l.

Fixpoint put_gaps (prev : Z) (chunk : list Z) : list Z :=
  match chunk with
  | [] => []
  | o :: chunk => put_varint (as_u64 (o - prev)) ++ put_gaps o chunk
  end.

Definition put_block (chunk : list Z) : list Z :=
  let body := put_gaps 0 chunk in
  put_varint (Z.of_nat (length chunk)) ++ put_varint (Z.of_nat (length body)) ++ body.

Definition encode_posting (ords : list Z) : list Z :=
  put_varint (Z.of_nat (length ords)) ++ (chunks POSTING_BLOCK ords ≫= put_block).

Definition posting_count (b : list Z) : result Z :=
  '(n, _) ← varint (mkReader b 0); Ok n.

Fixpoint read_gaps (n : nat) (prev : Z) : rd (list Z) :=
  match n with
  | O => mret []
  | S n =>
      gap ← varint;
      o ← rd_lift (ok_or (checked_add_u64 prev gap) (bad "posting ordinal overflow"));
      rest ← read_gaps n o;
      mret (o :: rest)
  end.

(** [r.at] and [b.len()]. *)
Definition rd_len : rd Z := λ r, Ok (Z.of_nat (length (rb r)), r).
Definition rd_at : rd Z := λ r, Ok (Z.of_nat (at_ r), r).

(** The [while remaining > 0] loop. Every round takes at least one ordinal
    off [remaining], so fuel [remaining] never runs out. *)
Fixpoint read_blocks (fuel : nat) (remaining : Z) : rd (list Z) :=
  if remaining =? 0 then mret [] else
  match fuel with
  | O => λ _, Panic
  | S fuel =>
      block_len ← varint;
      if (block_len =? 0) || (remaining <? block_len)
      then rd_lift (Err (bad "posting block length invalid")) else
      block_bytes ← varint;
      at_now ← rd_at;
      block_end ← rd_lift (ok_or (checked_add_u64 at_now block_bytes) (bad "posting block overflow"));
      len ← rd_len;
      if len <? block_end then rd_lift (Err (bad "posting block exceeds input")) else
      out ← read_gaps (Z.to_nat block_len) 0;
      at_end ← rd_at;
      if negb (at_end =? block_end)
      then rd_lift (Err (bad "trailing bytes in posting block")) else
      rest ← read_blocks fuel (remaining - block_len);
      mret (out ++ rest)
  end.

(** The [windows(2)] loop. *)
Fixpoint strictly_ascending (l : list Z) : bool :=
  match l with
  | a :: (b :: _) as l' => negb (b <=? a) && strictly_ascending l'
  | _ => true
  end.

Definition posting_ordinals (b : list Z) : result (list Z) :=
  '(n, r) ← varint (mkReader b 0);
  if Z.of_nat (length b) <? n then Err (bad "posting count exceeds input") else
  '(out, r) ← read_blocks (Z.to_nat n) n r;
  if negb (at_ r =? length b)%nat then Err (bad "trailing bytes in posting") else
  if strictly_ascending out then Ok out else Err (bad "posting ordinals not ascending").

(** ** Lemmas *)

Lemma chunks_fuel_nil {A} fuel n : chunks_fuel fuel n (@nil A) = [].
Proof. by destruct fuel. Qed.

Lemma chunks_ind {A} (n : nat) (P : list A → list (list A) → Prop) :
  (0 < n)%nat → P [] [] →
  (∀ l cs, l ≠ [] → P (drop n l) cs → P l (take n l :: cs)) →
  ∀ l, P l (chunks n l).
Proof.
  intros Hn H0 HS l. unfold chunks. assert (length l ≤ length l)%nat as Hf by lia.
  revert Hf. generalize (length l) at 2 3 as fuel. intros fuel. revert l.
  induction fuel as [|fuel IH]; intros [|a l] Hl; simpl; try done; [simpl in Hl; lia|].
  apply (HS (a :: l)); [done|]. apply IH. rewrite length_drop. simpl in *. lia.
Qed.

Lemma strictly_ascending_spec l : strictly_ascending l = true ↔ StronglySorted Z.lt l.
Proof.
  split.
  - intros H. apply Sorted_StronglySorted; [intros ???; lia|].
    induction l as [|a [|b l] IH]; simpl in *; [constructor|by repeat constructor|].
    apply andb_true_iff in H as [Hab H]. bool_prop.
    constructor; [by apply IH|]. by constructor.
  - induction 1 as [|a l Hs IH HF]; [done|]. destruct l as [|b l]; [done|].
    cbn [strictly_ascending]. apply andb_true_iff. split; [|done].
    apply Forall_cons in HF as [? _]. apply negb_true_iff, Z.leb_gt. done.
Qed.

(** Ascending ordinals from [prev] on, each a [usize]. *)
Fixpoint gaps_ok (prev : Z) (l : list Z) : Prop :=
  match l with [] => True | o :: l => prev ≤ o ∧ u64 o ∧ gaps_ok o l end.

Lemma reads_gaps l prev : u64 prev → gaps_ok prev l → reads (read_gaps (length l) prev) (put_gaps prev l) l.
Proof.
  revert prev. induction l as [|o l IH]; intros prev Hp Hl; simpl; [apply reads_ret|].
  destruct Hl as (Hle & Ho & Hl). rewrite as_u64_id by mach.
  eapply reads_bind; [apply reads_varint; mach|].
  replace (prev + (o - prev)) with o by lia.
  eapply reads_bind_pure; [apply reads_lift|eapply reads_bind_last; [by apply IH|apply reads_ret]].
  unfold checked_add_u64. replace (prev + (o - prev)) with o by lia.
  rewrite (proj2 (Z.ltb_lt o _)) by mach. done.
Qed.

Lemma put_gaps_length prev l :
  (length l ≤ length (put_gaps prev l) ≤ 10 * length l)%nat.
Proof.
  revert prev. induction l as [|o l IH]; intros prev; cbn [put_gaps length]; [lia|].
  rewrite length_app. specialize (IH o).
  pose proof (put_varint_nonempty (as_u64 (o - prev))).
  pose proof (put_varint_len_le (as_u64 (o - prev)) (as_u64_range _)). lia.
Qed.

(** Run the first reader of a chain, with what lies ahead of it in [Hr]. *)
Ltac run_reads_in lem Hr :=
  rewrite (rd_bind_Ok _ _ _ _ _ (lem _ _ Hr)); apply ahead_advance in Hr.

Lemma ahead_length r bs rest :
  ahead r = bs ++ rest → bs ≠ [] → (at_ r + length bs + length rest = length (rb r))%nat.
Proof.
  intros Hr Hne. apply (f_equal length) in Hr. unfold ahead in Hr.
  rewrite length_drop, length_app in Hr. destruct bs; [done|]. simpl in *. lia.
Qed.

(** One block, in the middle of the value. *)
Lemma read_blocks_step fuel remaining chunk r tail :
  chunk ≠ [] → (length chunk ≤ POSTING_BLOCK)%nat → Z.of_nat (length chunk) ≤ remaining →
  gaps_ok 0 chunk → ahead r = put_block chunk ++ tail → Z.of_nat (length (rb r)) < 2 ^ 63 →
  read_blocks (S fuel) remaining r =
    ('(out, r') ← read_blocks fuel (remaining - Z.of_nat (length chunk))
                    (advance r (length (put_block chunk)));
     Ok (chunk ++ out, r')).
Proof.
  intros Hne Hlen Hrem Hg Hr Hsmall. cbn [read_blocks].
  assert (0 < length chunk)%nat by (destruct chunk; [done|simpl; lia]).
  pose proof (put_gaps_length 0 chunk) as Hgl. unfold POSTING_BLOCK in Hlen.
  rewrite (proj2 (Z.eqb_neq remaining 0)) by lia. unfold put_block in *.
  rewrite <- !app_assoc in Hr.
  pose proof (ahead_length _ _ _ Hr) as Hat. rewrite !length_app in Hat.
  pose proof (put_varint_nonempty (Z.of_nat (length chunk))) as Hv1.
  assert (put_varint (Z.of_nat (length chunk)) ≠ []) as Hv1' by (by intros E; rewrite E in Hv1; simpl in Hv1; lia).
  specialize (Hat Hv1').
  run_reads_in (reads_varint (Z.of_nat (length chunk)) ltac:(mach)) Hr.
  rewrite (proj2 (Z.eqb_neq _ 0)), (proj2 (Z.ltb_ge _ _)) by lia. cbn [orb].
  run_reads_in (reads_varint (Z.of_nat (length (put_gaps 0 chunk))) ltac:(mach)) Hr.
  rewrite (rd_bind_Ok rd_at _ _ _ _ eq_refl). rewrite advance_add in *.
  erewrite (rd_bind_Ok (rd_lift _)).
  2:{ unfold rd_lift, checked_add_u64. cbn [advance at_]. rewrite (proj2 (Z.ltb_lt _ _)) by lia.
      simpl. reflexivity. }
  rewrite (rd_bind_Ok rd_len _ _ _ _ eq_refl). cbn [advance rb at_].
  rewrite (proj2 (Z.ltb_ge _ _)) by lia. rewrite Nat2Z.id.
  fold (advance r (length (put_varint (Z.of_nat (length chunk))) +
    length (put_varint (Z.of_nat (length (put_gaps 0 chunk)))))).
  run_reads_in (reads_gaps chunk 0 ltac:(mach) Hg) Hr.
  rewrite (rd_bind_Ok rd_at _ _ _ _ eq_refl). rewrite advance_add in *. cbn [advance at_].
  rewrite (proj2 (Z.eqb_eq _ _)) by lia. cbn [negb]. rewrite !length_app, Nat.add_assoc.
  unfold mbind at 1, rd_mbind.
  destruct (read_blocks _ _ _) as [[out r']| |]; done.
Qed.

(** Ordinals as the store makes them: ascending [usize] values. *)
Definition ords_ok (l : list Z) : Prop := StronglySorted Z.lt l ∧ Forall u64 l.

Lemma gaps_ok_sorted prev l :
  StronglySorted Z.lt l → Forall u64 l → Forall (λ o, prev ≤ o) l → gaps_ok prev l.
Proof.
  intros Hs. revert prev. induction Hs as [|o l Hs IH HF]; intros prev Hu Hp; [done|].
  apply Forall_cons in Hu as [? ?]. apply Forall_cons in Hp as [? _]. split_and!; try done.
  apply IH; [done|]. eapply Forall_impl; [exact HF|]. simpl. lia.
Qed.

Lemma ords_ok_take n l : ords_ok l → gaps_ok 0 (take n l).
Proof.
  intros [Hs Hu]. rewrite <- (take_drop n l) in Hs. apply gaps_ok_sorted.
  - by apply StronglySorted_app_1_l in Hs.
  - by apply Forall_take.
  - eapply Forall_impl; [by apply Forall_take|]. intros o. mach.
Qed.

Lemma ords_ok_drop n l : ords_ok l → ords_ok (drop n l).
Proof.
  intros [Hs Hu]. split; [|by apply Forall_drop].
  rewrite <- (take_drop n l) in Hs. by apply StronglySorted_app_1_r in Hs.
Qed.

Lemma read_blocks_chunks l fuel r :
  ords_ok l → (length l ≤ fuel)%nat → Z.of_nat (length (rb r)) < 2 ^ 63 →
  ahead r = (chunks POSTING_BLOCK l ≫= put_block) →
  read_blocks fuel (Z.of_nat (length l)) r =
    Ok (l, advance r (length (chunks POSTING_BLOCK l ≫= put_block))).
Proof.
  revert l fuel r.
  refine (chunks_ind POSTING_BLOCK (λ l cs, ∀ fuel r, ords_ok l → (length l ≤ fuel)%nat →
    Z.of_nat (length (rb r)) < 2 ^ 63 → ahead r = (cs ≫= put_block) →
    read_blocks fuel (Z.of_nat (length l)) r = Ok (l, advance r (length (cs ≫= put_block)))) _ _ _).
  - unfold POSTING_BLOCK. lia.
  - intros fuel r _ _ _ _. simpl. rewrite advance_0. by destruct fuel.
  - intros l cs Hne IH fuel r Hl Hf Hs Hr. cbn [mbind list_bind] in *.
    assert (0 < length l)%nat by (destruct l; [done|simpl; lia]).
    destruct fuel as [|fuel]; [lia|].
    pose proof (length_take l POSTING_BLOCK) as Ht.
    assert (0 < POSTING_BLOCK)%nat by (unfold POSTING_BLOCK; lia).
    rewrite (read_blocks_step fuel _ (take POSTING_BLOCK l) r (cs ≫= put_block));
      [|by destruct l|lia|lia|by apply ords_ok_take|done|done].
    replace (Z.of_nat (length l) - _) with (Z.of_nat (length (drop POSTING_BLOCK l)))
      by (rewrite length_drop; lia).
    rewrite (IH fuel); [|by apply ords_ok_drop|rewrite length_drop; lia|done|by apply ahead_advance].
    simpl. by rewrite take_drop, advance_add, length_app.
Qed.

Lemma put_block_length t :
  (length t ≤ 128)%nat → (length t ≤ length (put_block t) ≤ 20 + 10 * length t)%nat.
Proof.
  intros Ht. pose proof (put_gaps_length 0 t). unfold put_block. rewrite !length_app.
  pose proof (put_varint_len_le (Z.of_nat (length t)) ltac:(mach)).
  pose proof (put_varint_len_le (Z.of_nat (length (put_gaps 0 t))) ltac:(mach)). lia.
Qed.

Lemma chunks_length l :
  (length l ≤ length (chunks POSTING_BLOCK l ≫= put_block) ≤ 30 * length l)%nat.
Proof.
  revert l. apply (chunks_ind POSTING_BLOCK (λ l cs,
    (length l ≤ length (cs ≫= put_block) ≤ 30 * length l)%nat));
    [unfold POSTING_BLOCK; lia|simpl; lia|].
  intros l cs Hne IH. cbn [mbind list_bind]. rewrite length_app.
  set (t := take POSTING_BLOCK l).
  assert (length l = length t + length (drop POSTING_BLOCK l))%nat as Hl
    by (unfold t; by rewrite <- length_app, take_drop).
  assert (1 ≤ length t ≤ 128)%nat.
  { unfold t, POSTING_BLOCK. rewrite length_take. destruct l; [done|cbn [length]; lia]. }
  pose proof (put_block_length t ltac:(lia)). lia.
Qed.

Lemma posting_roundtrip_run ords :
  ords_ok ords → Z.of_nat (length ords) ≤ 2 ^ 32 →
  posting_ordinals (encode_posting ords) = Ok ords ∧
  posting_count (encode_posting ords) = Ok (Z.of_nat (length ords)).
Proof.
  intros Hok Hlen. pose proof (chunks_length ords) as Hcl. unfold encode_posting.
  set (body := chunks POSTING_BLOCK ords ≫= put_block) in *.
  pose proof (put_varint_len_le (Z.of_nat (length ords)) ltac:(mach)) as Hv.
  assert (varint (mkReader (put_varint (Z.of_nat (length ords)) ++ body) 0) =
    Ok (Z.of_nat (length ords), mkReader (put_varint (Z.of_nat (length ords)) ++ body)
      (length (put_varint (Z.of_nat (length ords)))))) as Hvar.
  { exact (reads_varint (Z.of_nat (length ords)) ltac:(mach) (mkReader _ 0) body eq_refl). }
  unfold posting_ordinals, posting_count. rewrite Hvar. split; [|done].
  cbn [mbind outcome_mbind outcome_bind].
  rewrite (proj2 (Z.ltb_ge _ _)) by (rewrite length_app; lia).
  rewrite (read_blocks_chunks ords); [|done|lia| |].
  - fold body. simpl. rewrite length_app, Nat.eqb_refl. simpl.
    by rewrite (proj2 (strictly_ascending_spec ords)) by apply Hok.
  - simpl. rewrite length_app. lia.
  - unfold ahead. simpl. apply drop_app_length.
Qed.

(** The posting of an ascending list of token ordinals reads back as that
    list, and its count without decoding the blocks. *)
Theorem posting_roundtrip ords :
  ords_ok ords → Z.of_nat (length ords) ≤ 2 ^ 32 →
  posting_ordinals (encode_posting ords) = Ok ords ∧
  posting_count (encode_posting ords) = Ok (Z.of_nat (length ords)).
Proof. apply posting_roundtrip_run. Qed.


(** ** Arbitrary bytes *)

Lemma safe_read_gaps n prev :
  0 ≤ prev → safe (read_gaps n prev) (λ l, length l = n ∧ Forall u64 l).
Proof.
  revert prev. induction n as [|n IH]; intros prev Hp; simpl; [by apply safe_ret|].
  eapply safe_bind; [apply safe_varint|intros gap Hg].
  eapply safe_bind with (Q := u64).
  { apply safe_lift; [apply ok_or_not_Panic|]. intros o. unfold checked_add_u64.
    destruct (Z.ltb_spec (prev + gap) (2 ^ 64)); [|done]. intros [= <-]. mach. }
  intros o Ho. eapply safe_bind; [apply IH; mach|intros l [Hl HF]].
  apply safe_ret. simpl. rewrite Hl. by split; [|constructor].
Qed.

Lemma safe_rd_at : safe rd_at (λ _, True).
Proof. intros r Hr. by split; [apply stepped_refl|]. Qed.
Lemma safe_rd_len : safe rd_len (λ _, True).
Proof. intros r Hr. by split; [apply stepped_refl|]. Qed.

Lemma safe_read_blocks fuel remaining :
  0 ≤ remaining ≤ Z.of_nat fuel →
  safe (read_blocks fuel remaining) (λ l, Z.of_nat (length l) = remaining ∧ Forall u64 l).
Proof.
  revert remaining. induction fuel as [|fuel IH]; intros remaining Hr; cbn [read_blocks].
  { case_if; [by apply safe_ret|lia]. }
  case_if; [by apply safe_ret|].
  eapply safe_bind; [apply safe_varint|intros bl Hbl]. case_if; [by apply safe_lift|].
  eapply safe_bind; [apply safe_varint|intros bb Hbb].
  eapply safe_bind; [apply safe_rd_at|intros at1 _].
  eapply safe_bind with (Q := λ _, True); [by apply safe_lift; [apply ok_or_not_Panic|]|intros e _].
  eapply safe_bind; [apply safe_rd_len|intros len _]. case_if; [by apply safe_lift|].
  eapply safe_bind; [apply safe_read_gaps; lia|intros out [Hout Hu]].
  eapply safe_bind; [apply safe_rd_at|intros at2 _]. case_if; [by apply safe_lift|].
  eapply safe_bind; [apply IH; mach|intros rest [Hrest Hu']]. apply safe_ret.
  rewrite length_app. split; [mach|by apply Forall_app].
Qed.

(** On any bytes [posting_ordinals] returns or refuses; what it returns is
    strictly ascending [usize] ordinals, as many as the count in front says. *)
Theorem posting_ordinals_total b :
  slice b →
  ends (λ l, ords_ok l ∧ posting_count b = Ok (Z.of_nat (length l))) (posting_ordinals b).
Proof.
  intros [Hb Hs]. unfold posting_ordinals, posting_count.
  pose proof (run_safe _ _ b 0 safe_varint ltac:(lia) Hb) as Hv.
  destruct (varint (mkReader b 0)) as [[n [b' at1]]| |]; [|done|done].
  destruct Hv as (Hn & Hrb & Hat); simpl in *; subst b'. case_if; [done|].
  eapply ends_bind; [apply (run_safe _ _ b at1 (safe_read_blocks (Z.to_nat n) n ltac:(mach))); [lia|done]|].
  intros [out r] [[Hl Hu] _]. simpl in *. case_if; [done|].
  destruct (strictly_ascending out) eqn:Ea; [|done].
  split; [|by rewrite Hl]. by split; [apply strictly_ascending_spec|].
Qed.

