(* ===== verification/DictBlock.v ===== *)
(** * Dictionary blocks and file keys

    [graph-store/src/codec.rs], lines 833-1015: a row of the dictionary's
    reverse direction (up to 128 [(id, text)] entries) and the derived
    per-file sort key. *)
From S2P Require Import Prelude Text Schema Varint Stream StreamRound StreamSafe Posting.

Definition DICT_BLOCK : nat := POSTING_BLOCK.

Definition put_entry (e : Z * str) : list Z :=
  put_varint e.1 ++ put_varint (Z.of_nat (str_len e.2)) ++ as_bytes e.2.

Definition encode_dict_block (entries : list (Z * str)) : list Z :=
  put_varint (Z.of_nat (length entries)) ++ (entries ≫= put_entry).

Definition dict_entry_encoded_len (id : Z) (text : str) : Z :=
  varint_len id + varint_len (Z.of_nat (str_len text)) + Z.of_nat (str_len text).

Definition dict_block_count_len (n : nat) : Z := varint_len (Z.of_nat n).

Definition dict_block_entry_count (b : list Z) : result Z :=
  '(n, _) ← varint (mkReader b 0); Ok n.

(** [r.at.checked_add(len).filter(|&e| e <= b.len())], then the slice up to
    there as UTF-8 and [r.at = end]. *)
Definition text_of_len (len : Z) (truncated utf8 : StoreError) : rd str := λ r,
  end_ ← ok_or (e ← checked_add_u64 (Z.of_nat (at_ r)) len;
                guard (e ≤ Z.of_nat (length (rb r)));; Some e) truncated;
  text ← ok_or (from_utf8 (take (Z.to_nat end_ - at_ r) (drop (at_ r) (rb r)))) utf8;
  Ok (text, mkReader (rb r) (Z.to_nat end_)).

Definition read_entry : rd (Z * str) :=
  id ← varint;
  len ← varint;
  text ← text_of_len len (bad "dict entry exceeds input") (bad "dict entry is not valid UTF-8");
  mret (id, text).

Fixpoint read_entries (n : nat) : rd (list (Z * str)) :=
  match n with
  | O => mret []
  | S n => e ← read_entry; rest ← read_entries n; mret (e :: rest)
  end.

Definition decode_dict_block (b : list Z) : result (list (Z * str)) :=
  '(n, r) ← varint (mkReader b 0);
  if Z.of_nat (length b) <? n then Err (bad "dict block count exceeds input") else
  '(out, r) ← read_entries (Z.to_nat n) r;
  if negb (at_ r =? length b)%nat then Err (bad "trailing bytes in dict block") else Ok out.

(** The loop of [dict_block_find]: only the wanted text is kept. *)
Fixpoint find_entries (n : nat) (id : Z) (found : option str) : rd (option str) :=
  match n with
  | O => mret found
  | S n =>
      '(entry_id, text) ← read_entry;
      find_entries n id
        (if bool_decide (found = None) && (entry_id =? id) then Some text else found)
  end.

Definition dict_block_find (b : list Z) (id : Z) : result (option str) :=
  '(n, r) ← varint (mkReader b 0);
  if Z.of_nat (length b) <? n then Err (bad "dict block count exceeds input") else
  '(found, r) ← find_entries (Z.to_nat n) id None r;
  if negb (at_ r =? length b)%nat then Err (bad "trailing bytes in dict block") else Ok found.

Definition dict_block_first_id (b : list Z) : result (option Z) :=
  '(n, r) ← varint (mkReader b 0);
  if n =? 0 then Ok None else '(id, _) ← varint r; Ok (Some id).

(** ** File keys *)

Record FileKey : Set := mkFileKey { fk_parent : Z; fk_language : option str; fk_name : str }.

Definition encode_file_key (k : FileKey) : list Z :=
  put_varint (fk_parent k) ++
  match fk_language k with
  | None => [0]
  | Some l => put_varint (Z.of_nat (str_len l) + 1) ++ as_bytes l
  end ++
  as_bytes (fk_name k).

Definition bad_key (what : string) : StoreError := Corrupt (lit "file key: " ++ lit what).

Definition decode_file_key (b : list Z) : result FileKey :=
  '(parent, r) ← varint (mkReader b 0);
  '(n, r) ← varint r;
  '(language, r) ←
    (if n =? 0 then Ok (None, r)
     else '(l, r) ← text_of_len (n - 1) (bad_key "truncated language") (bad_key "language not UTF-8") r;
          Ok (Some l, r));
  name ← ok_or (from_utf8 (drop (at_ r) b)) (bad_key "path not UTF-8");
  Ok (mkFileKey parent language name).

(** ** Lemmas *)

(** Texts and ids as the dictionary holds them. *)
Definition text_ok (s : str) : Prop := valid_str s ∧ Z.of_nat (str_len s) < 2 ^ 32.
Definition entry_ok (e : Z * str) : Prop := u64 e.1 ∧ text_ok e.2.
#[global] Instance text_ok_dec s : Decision (text_ok s).
Proof. unfold text_ok. apply _. Defined.
#[global] Instance entry_ok_dec e : Decision (entry_ok e).
Proof. unfold entry_ok. apply _. Defined.

(** A text field, in a buffer of slice size. *)
Lemma text_of_len_run s e1 e2 r rest :
  valid_str s → ahead r = as_bytes s ++ rest → Z.of_nat (length (rb r)) < 2 ^ 63 →
  (at_ r ≤ length (rb r))%nat →
  text_of_len (Z.of_nat (str_len s)) e1 e2 r = Ok (s, advance r (str_len s)).
Proof.
  intros Hs Hr Hlen Hat. unfold text_of_len, checked_add_u64, str_len.
  pose proof (f_equal length Hr) as Hl. unfold ahead in Hl. rewrite length_drop, length_app in Hl.
  rewrite (proj2 (Z.ltb_lt _ _)) by lia. cbn [mbind option_bind]. rewrite option_guard_True by lia.
  cbn [ok_or mbind outcome_mbind outcome_bind].
  replace (Z.to_nat _ - at_ r)%nat with (length (as_bytes s)) by lia.
  rewrite (drop_app_take _ _ _ _ Hr), from_utf8_as_bytes by done. simpl.
  unfold advance. do 3 f_equal. lia.
Qed.

Lemma put_entry_length e : (1 ≤ length (put_entry e))%nat.
Proof. unfold put_entry. rewrite length_app. pose proof (put_varint_nonempty e.1). lia. Qed.

Lemma ahead_at r bs rest : ahead r = bs ++ rest → bs ≠ [] → (at_ r + length bs ≤ length (rb r))%nat.
Proof. intros Hr Hb. pose proof (ahead_length _ _ _ Hr Hb). lia. Qed.

Lemma put_varint_ne v : put_varint v ≠ [].
Proof. intros E. pose proof (put_varint_nonempty v). rewrite E in *. simpl in *. lia. Qed.

Lemma read_entry_run e r rest :
  entry_ok e → ahead r = put_entry e ++ rest → Z.of_nat (length (rb r)) < 2 ^ 63 →
  read_entry r = Ok (e, advance r (length (put_entry e))).
Proof.
  intros (Hid & Hv & Hl) Hr Hlen. unfold read_entry, put_entry in *.
  rewrite <- !app_assoc in Hr.
  pose proof (ahead_length _ _ _ Hr (put_varint_ne _)) as Hat. rewrite !length_app in Hat.
  run_reads_in (reads_varint e.1 Hid) Hr.
  run_reads_in (reads_varint (Z.of_nat (str_len e.2)) ltac:(mach)) Hr.
  rewrite (rd_bind_Ok _ _ _ _ _ (text_of_len_run e.2 _ _ _ rest Hv Hr Hlen ltac:(simpl; lia))).
  destruct e as [id s]. simpl. rewrite !advance_add, !length_app. unfold str_len.
  by rewrite Nat.add_assoc.
Qed.

Lemma read_entries_run es r :
  Forall entry_ok es → ahead r = (es ≫= put_entry) → Z.of_nat (length (rb r)) < 2 ^ 63 →
  read_entries (length es) r = Ok (es, advance r (length (es ≫= put_entry))).
Proof.
  intros HF. revert r. induction HF as [|e es He HF IH]; intros r Hr Hlen; simpl.
  { by rewrite advance_0. }
  cbn [mbind list_bind] in Hr.
  rewrite (rd_bind_Ok _ _ _ _ _ (read_entry_run e r _ He Hr Hlen)). apply ahead_advance in Hr.
  rewrite (rd_bind_Ok _ _ _ _ _ (IH _ Hr Hlen)).
  by rewrite advance_add, length_app.
Qed.

Lemma entries_length es : (length es ≤ length (es ≫= put_entry))%nat.
Proof.
  induction es as [|e es IH]; simpl; [lia|]. rewrite length_app.
  pose proof (put_entry_length e). unfold mbind in IH. lia.
Qed.

Lemma encode_dict_block_count es :
  Z.of_nat (length (encode_dict_block es)) < 2 ^ 63 →
  Z.of_nat (length es) < 2 ^ 63 ∧
  varint (mkReader (encode_dict_block es) 0) =
    Ok (Z.of_nat (length es),
        mkReader (encode_dict_block es) (length (put_varint (Z.of_nat (length es))))) ∧
  ahead (mkReader (encode_dict_block es) (length (put_varint (Z.of_nat (length es)))))
    = (es ≫= put_entry).
Proof.
  intros Hlen. pose proof (entries_length es). unfold encode_dict_block in *.
  rewrite length_app in Hlen. split_and!; [lia| |apply drop_app_length].
  exact (reads_varint (Z.of_nat (length es)) ltac:(mach) (mkReader _ 0) _ eq_refl).
Qed.

(** The size of a block's entries, as [pack_dict_blocks] sums it. *)
Definition body_len (es : list (Z * str)) : Z :=
  foldr Z.add 0 ((λ e, dict_entry_encoded_len e.1 e.2) <$> es).

Section encoded_block.
Context (es : list (Z * str)) (HF : Forall entry_ok es).
Context (Hlen : Z.of_nat (length (encode_dict_block es)) < 2 ^ 63).

Lemma decode_encode_block : decode_dict_block (encode_dict_block es) = Ok es.
Proof.
  destruct (encode_dict_block_count es Hlen) as (Hn & Hv & Ha).
  pose proof (entries_length es) as Hel. unfold decode_dict_block.
  rewrite Hv. cbn [mbind outcome_mbind outcome_bind].
  rewrite (proj2 (Z.ltb_ge _ _)) by (unfold encode_dict_block; rewrite length_app; lia).
  rewrite Nat2Z.id, (read_entries_run es _ HF Ha Hlen). simpl.
  unfold encode_dict_block. by rewrite length_app, Nat.eqb_refl.
Qed.

Lemma entry_count_encode :
  dict_block_entry_count (encode_dict_block es) = Ok (Z.of_nat (length es)).
Proof.
  destruct (encode_dict_block_count es Hlen) as (Hn & Hv & Ha).
  unfold dict_block_entry_count. by rewrite Hv.
Qed.

Lemma first_id_encode : dict_block_first_id (encode_dict_block es) = Ok (fst <$> head es).
Proof.
  destruct (encode_dict_block_count es Hlen) as (Hn & Hv & Ha).
  unfold dict_block_first_id. rewrite Hv. cbn [mbind outcome_mbind outcome_bind].
  destruct es as [|e es']; [done|]. apply Forall_cons in HF as [[Hid _] _].
  rewrite (proj2 (Z.eqb_neq _ 0)) by (cbn [length]; lia).
  cbn [mbind list_bind] in Ha. unfold put_entry at 1 in Ha.
  rewrite <- app_assoc in Ha. by rewrite (reads_varint e.1 Hid _ _ Ha).
Qed.
End encoded_block.

Lemma put_entry_len e :
  entry_ok e → Z.of_nat (length (put_entry e)) = dict_entry_encoded_len e.1 e.2.
Proof.
  intros (Hid & Hs & Hl). unfold put_entry, dict_entry_encoded_len.
  rewrite !length_app, !Nat2Z.inj_add, !put_varint_len by mach. unfold str_len. lia.
Qed.

Lemma encode_dict_block_len es :
  Forall entry_ok es → Z.of_nat (length es) < 2 ^ 64 →
  Z.of_nat (length (encode_dict_block es)) = dict_block_count_len (length es) + body_len es.
Proof.
  intros HF Hn. unfold encode_dict_block, dict_block_count_len.
  rewrite length_app, Nat2Z.inj_add, put_varint_len by mach. f_equal. clear Hn.
  induction HF as [|e es He HF IH]; [done|]. cbn [mbind list_bind].
  by rewrite length_app, Nat2Z.inj_add, IH, put_entry_len.
Qed.

(** A dictionary block reads back as its entries; its header and first id
    can be read without the entries, and the incremental size helpers add up
    to the size of the encoding. *)
Theorem dict_block_roundtrip es :
  Forall entry_ok es → Z.of_nat (length (encode_dict_block es)) < 2 ^ 63 →
  decode_dict_block (encode_dict_block es) = Ok es ∧
  dict_block_entry_count (encode_dict_block es) = Ok (Z.of_nat (length es)) ∧
  dict_block_first_id (encode_dict_block es) = Ok (fst <$> head es) ∧
  Z.of_nat (length (encode_dict_block es)) =
    dict_block_count_len (length es) +
    foldr Z.add 0 ((λ e, dict_entry_encoded_len e.1 e.2) <$> es).
Proof.
  intros HF Hlen. destruct (encode_dict_block_count es Hlen) as (Hn & _ & _). split_and!.
  - by apply decode_encode_block.
  - by apply entry_count_encode.
  - by apply first_id_encode.
  - apply encode_dict_block_len; [done|lia].
Qed.


(** The first entry with a given id. *)
Definition entry_text (id : Z) (es : list (Z * str)) : option str :=
  snd <$> head (filter (λ e : Z * str, e.1 = id) es).

Lemma find_entries_eq n id found r :
  find_entries n id found r =
    ('(es, r') ← read_entries n r;
     Ok (match found with Some t => Some t | None => entry_text id es end, r')).
Proof.
  revert found r. induction n as [|n IH]; intros found r; cbn [find_entries read_entries].
  { by destruct found. }
  rewrite !rd_bind_eq. destruct (read_entry r) as [[[eid text] r']| |]; [|done|done].
  rewrite IH, rd_bind_eq. destruct (read_entries n r') as [[es r'']| |]; [|done|done]. simpl.
  destruct found as [t|]; simpl; [done|]. unfold entry_text. rewrite filter_cons. simpl.
  by destruct (Z.eqb_spec eid id), (decide (eid = id)).
Qed.

Lemma dict_block_find_decode b id :
  dict_block_find b id = (es ← decode_dict_block b; Ok (entry_text id es)).
Proof.
  unfold dict_block_find, decode_dict_block.
  destruct (varint (mkReader b 0)) as [[n r]| |]; simpl; try done. case_if; [done|].
  rewrite find_entries_eq. destruct (read_entries (Z.to_nat n) r) as [[es r']| |]; simpl; try done.
  by case_if.
Qed.

(** [dict_block_find] is [decode_dict_block] followed by a search, on
    every input: the same text, the same refusals, the same errors. *)
Theorem dict_block_find_eq b id :
  dict_block_find b id = (es ← decode_dict_block b; Ok (entry_text id es)).
Proof. apply dict_block_find_decode. Qed.

(** ** File keys *)

Definition file_key_ok (k : FileKey) : Prop :=
  u64 (fk_parent k) ∧ valid_str (fk_name k) ∧
  match fk_language k with None => True | Some l => text_ok l end.
#[global] Instance file_key_ok_dec k : Decision (file_key_ok k).
Proof. unfold file_key_ok. destruct (fk_language k); apply _. Defined.

(** A file's sort key reads back, language and path included. *)
Theorem file_key_roundtrip k :
  file_key_ok k → Z.of_nat (length (encode_file_key k)) < 2 ^ 63 →
  decode_file_key (encode_file_key k) = Ok k.
Proof.
  destruct k as [p lang name]. intros (Hp & Hn & Hl) Hlen. simpl in *.
  unfold decode_file_key. set (b := encode_file_key _) in *.
  assert (ahead (mkReader b 0) = put_varint p ++ match lang with
     | None => [0] | Some l => put_varint (Z.of_nat (str_len l) + 1) ++ as_bytes l
     end ++ as_bytes name) as Hr by done. clearbody b.
  pose proof (ahead_length _ _ _ Hr (put_varint_ne _)) as Hat. simpl in Hat.
  rewrite !length_app in Hat.
  rewrite (reads_varint p Hp _ _ Hr). apply ahead_advance in Hr. cbn [mbind outcome_mbind outcome_bind].
  destruct lang as [l|].
  - destruct Hl as [Hvl Hll]. rewrite <- app_assoc in Hr. rewrite length_app in Hat.
    rewrite (reads_varint (Z.of_nat (str_len l) + 1) ltac:(mach) _ _ Hr). apply ahead_advance in Hr.
    cbn [mbind outcome_mbind outcome_bind]. rewrite (proj2 (Z.eqb_neq _ 0)) by lia.
    replace (Z.of_nat (str_len l) + 1 - 1) with (Z.of_nat (str_len l)) by lia.
    rewrite (text_of_len_run l _ _ _ _ Hvl Hr) by (simpl; lia). cbn [mbind outcome_mbind outcome_bind].
    apply ahead_advance in Hr. unfold ahead in Hr. unfold str_len in *. cbn [advance at_ rb] in *. rewrite Hr.
    by rewrite from_utf8_as_bytes.
  - change [0] with (put_varint 0) in Hr. rewrite (reads_varint 0 ltac:(mach) _ _ Hr).
    apply ahead_advance in Hr. cbn [mbind outcome_mbind outcome_bind Z.eqb].
    unfold ahead in Hr. cbn [advance at_ rb] in *. rewrite Hr. by rewrite from_utf8_as_bytes.
Qed.


(** ** Arbitrary bytes *)

Lemma from_utf8_sub b n k s :
  Forall u8 b → from_utf8 (take n (drop k b)) = Some s → valid_str s.
Proof. intros Hb H. apply from_utf8_inv in H as [? _]; [done|]. by apply Forall_take, Forall_drop. Qed.

Lemma safe_text_of_len len e1 e2 : 0 ≤ len → safe (text_of_len len e1 e2) valid_str.
Proof.
  intros Hl r [Hat Hb]. unfold text_of_len.
  eapply ends_bind; [by apply sym_end_ends|]. intros e [He1 He2].
  eapply ends_bind with (P := valid_str); [apply ends_ok_or; intros s; by apply from_utf8_sub|].
  intros s Hs. simpl. split; [|done]. split_and!; [split; simpl; [lia|done]|done|simpl; lia].
Qed.

Lemma safe_read_entry : safe read_entry (λ e, u64 e.1 ∧ valid_str e.2).
Proof.
  unfold read_entry. eapply safe_bind; [apply safe_varint|intros id Hid].
  eapply safe_bind; [apply safe_varint|intros len Hlen].
  eapply safe_bind; [apply safe_text_of_len; mach|intros text Ht]. by apply safe_ret.
Qed.

Lemma safe_read_entries n :
  safe (read_entries n) (λ l, length l = n ∧ Forall (λ e, u64 e.1 ∧ valid_str e.2) l).
Proof.
  induction n as [|n IH]; simpl; [by apply safe_ret|].
  eapply safe_bind; [apply safe_read_entry|intros e He].
  eapply safe_bind; [apply IH|intros l [Hl HF]]. apply safe_ret. simpl. rewrite Hl.
  by split; [|constructor].
Qed.

(** On any bytes the block decoder returns or refuses: no panic, ids are
    [u64], texts are valid strings. *)
Theorem decode_dict_block_total b :
  slice b → ends (λ es, Forall (λ e, u64 e.1 ∧ valid_str e.2) es) (decode_dict_block b).
Proof.
  intros [Hb Hs]. unfold decode_dict_block.
  eapply ends_bind; [apply (run_safe _ _ b 0 safe_varint); [lia|done]|].
  intros [n [b' at1]] (Hn & Hrb & Hat); simpl in *; subst b'. case_if; [done|].
  eapply ends_bind; [apply (run_safe _ _ b at1 (safe_read_entries _)); [lia|done]|].
  intros [out r] [[_ Hu] _]. by case_if.
Qed.

