(* ===== verification/Table.v ===== *)
(** * Tables

    The store keeps its rows in redb tables. redb is a library: it enters the
    development as the interface [Redb], whose laws are its documentation (a
    table is an ordered map from keys to values). Storage failures, which
    abort the transaction, are not modelled. [gmap_redb] shows that the laws
    can hold. *)
From S2P Require Import Prelude Text.

(** ** Key orders *)

Class KeyOrder (K : Type) := {
  key_lt : K → K → Prop;
  key_lt_dec :: RelDecision key_lt;
  key_lt_irrefl k : ¬ key_lt k k;
  key_lt_trans a b c : key_lt a b → key_lt b c → key_lt a c;
  key_lt_total a b : key_lt a b ∨ a = b ∨ key_lt b a;
}.

#[global] Instance Z_key_order : KeyOrder Z.
Proof. refine {| key_lt := Z.lt |}; intros; lia. Defined.

(** Tuples and strings are ordered lexicographically. *)
Definition prod_lt {A B} `{KeyOrder A, KeyOrder B} (p q : A * B) : Prop :=
  key_lt p.1 q.1 ∨ (p.1 = q.1 ∧ key_lt p.2 q.2).

#[global] Instance prod_key_order {A B} `{EqDecision A} `{KeyOrder A, KeyOrder B} :
  KeyOrder (A * B).
Proof.
  refine {| key_lt := prod_lt |}; unfold prod_lt.
  - intros p q. apply _.
  - intros p [Hp|[_ Hp]]; by apply key_lt_irrefl in Hp.
  - intros p q r [Hp|[E Hp]] [Hq|[F Hq]]; rewrite ?E, ?F in *; eauto using key_lt_trans.
  - intros [a b] [c d]; simpl. destruct (key_lt_total a c) as [?|[->|?]]; auto.
    destruct (key_lt_total b d) as [?|[->|?]]; auto.
Defined.

Fixpoint str_lt (s t : str) : Prop :=
  match s, t with
  | [], [] => False
  | [], _ :: _ => True
  | _ :: _, [] => False
  | a :: s, b :: t => a < b ∨ (a = b ∧ str_lt s t)
  end.

#[global] Instance str_lt_dec : RelDecision str_lt.
Proof.
  intros s. induction s as [|a s IH]; intros [|b t]; simpl; try apply _.
Defined.

#[global] Instance str_key_order : KeyOrder str.
Proof.
  refine {| key_lt := str_lt |}.
  - induction k as [|a s IH]; simpl; [by intros []|]. intros [?|[_ ?]]; [lia|done].
  - induction a as [|a s IH]; intros [|b t] [|c u]; simpl; try done.
    intros [?|[-> ?]] [?|[-> ?]]; try (left; lia). right. eauto.
  - induction a as [|a s IH]; intros [|b t]; simpl; auto.
    destruct (Z.lt_trichotomy a b) as [?|[->|?]]; auto.
    destruct (IH t) as [?|[->|?]]; auto.
Defined.

(** ** The interface *)

Class Redb (tbl : ∀ K `{Countable K}, Type → Type) := {
  tbl_map `{Countable K} {V} : tbl K V → gmap K V;
  tbl_empty `{Countable K} {V} : tbl K V;
  tbl_get `{Countable K} {V} : tbl K V → K → option V;
  tbl_insert `{Countable K} {V} : K → V → tbl K V → tbl K V;
  tbl_remove `{Countable K} {V} : K → tbl K V → tbl K V;
  tbl_len `{Countable K} {V} : tbl K V → Z;
  tbl_iter `{Countable K} `{KeyOrder K} {V} : tbl K V → list (K * V);
  tbl_empty_spec `{Countable K} V : tbl_map (tbl_empty (K:=K) (V:=V)) = ∅;
  tbl_get_spec `{Countable K} V (t : tbl K V) k : tbl_get t k = tbl_map t !! k;
  tbl_insert_spec `{Countable K} V k v (t : tbl K V) :
    tbl_map (tbl_insert k v t) = <[k := v]> (tbl_map t);
  tbl_remove_spec `{Countable K} V k (t : tbl K V) :
    tbl_map (tbl_remove k t) = delete k (tbl_map t);
  tbl_len_spec `{Countable K} V (t : tbl K V) : tbl_len t = Z.of_nat (size (tbl_map t));
  tbl_iter_elem `{Countable K} `{KeyOrder K} V (t : tbl K V) k v :
    (k, v) ∈ tbl_iter t ↔ tbl_map t !! k = Some v;
  tbl_iter_sorted `{Countable K} `{KeyOrder K} V (t : tbl K V) :
    StronglySorted key_lt (tbl_iter t).*1;
}.

Create Rewrite HintDb redb.
#[export] Hint Rewrite @tbl_empty_spec @tbl_get_spec @tbl_insert_spec @tbl_remove_spec
  @tbl_len_spec : redb.

(** [t.range(lo..hi)] and the like: the rows of an interval, in key order. *)
Definition tbl_range `{Redb tbl} `{Countable K} `{KeyOrder K} {V}
    (p : K → bool) (t : tbl K _ _ V) : list (K * V) :=
  filter (λ kv, p kv.1 = true) (tbl_iter t).

(** ** A model of the interface *)

Definition row_le {K V} `{KeyOrder K} (p q : K * V) : Prop := ¬ key_lt q.1 p.1.
#[global] Instance row_le_dec {K V} `{KeyOrder K} : RelDecision (row_le (K:=K) (V:=V)).
Proof. intros p q. unfold row_le. apply _. Defined.
#[global] Instance row_le_trans {K V} `{KeyOrder K} : Transitive (row_le (K:=K) (V:=V)).
Proof.
  intros [a x] [b y] [c z] Hab Hbc Hca; unfold row_le in *; simpl in *.
  destruct (key_lt_total a b) as [?|[->|?]]; [|naive_solver|naive_solver].
  eauto using key_lt_trans.
Qed.
#[global] Instance row_le_total {K V} `{KeyOrder K} : Total (row_le (K:=K) (V:=V)).
Proof.
  intros [a x] [b y]; unfold row_le; simpl. destruct (decide (key_lt b a)); [|auto].
  right. intros ?. by apply (key_lt_irrefl a), key_lt_trans with b.
Qed.

Definition gmap_rows `{Countable K} `{KeyOrder K} {V} (m : gmap K V) : list (K * V) :=
  merge_sort row_le (map_to_list m).

Lemma rows_sorted {K V} `{KeyOrder K} (l : list (K * V)) :
  StronglySorted row_le l → NoDup l.*1 → StronglySorted key_lt l.*1.
Proof.
  induction 1 as [|[k v] l Hs IH HF]; simpl; [constructor|]. intros [Hk Hnd]%NoDup_cons.
  constructor; [by apply IH|]. apply Forall_fmap. apply Forall_forall. intros [k' v'] Hin. simpl.
  pose proof (proj1 (Forall_forall _ _) HF _ Hin) as Hle. unfold row_le in Hle. simpl in Hle.
  destruct (key_lt_total k k') as [?|[->|?]]; [done| |done].
  destruct Hk. apply list_elem_of_fmap. by exists (k', v').
Qed.

Lemma gmap_rows_elem `{Countable K} `{KeyOrder K} {V} (m : gmap K V) k v :
  (k, v) ∈ gmap_rows m ↔ m !! k = Some v.
Proof. unfold gmap_rows. by rewrite merge_sort_Permutation, elem_of_map_to_list. Qed.
Lemma gmap_rows_sorted `{Countable K} `{KeyOrder K} {V} (m : gmap K V) :
  StronglySorted key_lt (gmap_rows m).*1.
Proof.
  unfold gmap_rows. apply rows_sorted.
  - apply Sorted_StronglySorted; [apply _|]. apply Sorted_merge_sort. apply _.
  - rewrite merge_sort_Permutation. apply NoDup_fst_map_to_list.
Qed.

Lemma gmap_rows_NoDup `{Countable K} `{KeyOrder K} {V} (m : gmap K V) : NoDup (gmap_rows m).*1.
Proof.
  pose proof (gmap_rows_sorted m) as Hs. induction Hs as [|k l Hl IH Hk]; constructor; [|done].
  intros Hin. rewrite Forall_forall in Hk. by apply (key_lt_irrefl k), Hk.
Qed.

Program Definition gmap_redb : Redb (λ K _ _ V, gmap K V) := {|
  tbl_map _ _ _ _ m := m;
  tbl_empty _ _ _ _ := ∅;
  tbl_get _ _ _ _ m k := m !! k;
  tbl_insert _ _ _ _ k v m := <[k := v]> m;
  tbl_remove _ _ _ _ k m := delete k m;
  tbl_len _ _ _ _ m := Z.of_nat (size m);
  tbl_iter _ _ _ _ _ m := gmap_rows m;
|}.
Next Obligation. done. Qed.
Next Obligation. done. Qed.
Next Obligation. done. Qed.
Next Obligation. done. Qed.
Next Obligation. done. Qed.
Next Obligation. intros. apply gmap_rows_elem. Qed.
Next Obligation. intros. apply gmap_rows_sorted. Qed.
