(* ===== verification/DictRev.v ===== *)
(** * The packed reverse dictionary, node ids and the raft marker

    [graph-store/src/v2.rs], lines 269-545: the table from term id to text
    (blocks of [(id, text)] entries under keys 0, 1, 2, ...), the id layout of
    symbols and tokens, and the raft marker row. *)
From S2P Require Import Prelude Text Schema Varint Stream StreamRound StreamSafe Posting DictBlock Table.

(** ** The raft marker *)

Record RaftMarker : Set := mkRaftMarker { rm_term : Z; rm_index : Z; rm_node_id : Z }.
#[global] Instance RaftMarker_eq_dec : EqDecision RaftMarker.
Proof. solve_decision. Defined.

Definition ENCODED_LEN : nat := 24.

(** [x.to_le_bytes()] and [u64::from_le_bytes] on eight bytes. *)
Fixpoint to_le_bytes (n : nat) (v : Z) : list Z :=
  match n with O => [] | S n => as_u8 v :: to_le_bytes n (Z.shiftr v 8) end.
Fixpoint from_le_bytes (bs : list Z) : Z :=
  match bs with [] => 0 | b :: bs => Z.lor b (Z.shiftl (from_le_bytes bs) 8) end.

Definition RaftMarker_encode (m : RaftMarker) : list Z :=
  to_le_bytes 8 (rm_term m) ++ to_le_bytes 8 (rm_index m) ++ to_le_bytes 8 (rm_node_id m).

Definition RaftMarker_decode (bytes : list Z) : result RaftMarker :=
  if (length bytes =? ENCODED_LEN)%nat then
    let u i := from_le_bytes (take 8 (drop i bytes)) in
    Ok (mkRaftMarker (u 0%nat) (u 8%nat) (u 16%nat))
  else Err (Corrupt (lit "raft marker is " ++ show (Z.of_nat (length bytes)) ++
                     lit " bytes, expected " ++ show (Z.of_nat ENCODED_LEN))).

(** ** Content ids and dictionary keys *)

Definition content_id (file : Z) : Z := file.

Definition MAX_INLINE_TERM : nat := 256.

(** [format!("{b:02x}")]. *)
Definition hex_digit (d : Z) : Z := if d <? 10 then 48 + d else 87 + d.
Definition hex_byte (b : Z) : str := [hex_digit (b / 16); hex_digit (b mod 16)].

(** [sha256] is the sha2 crate's digest. *)
Definition hashed_key (sha256 : list Z → list Z) (text : str) (n : Z) : str :=
  [0] ++ (sha256 (as_bytes text) ≫= hex_byte) ++
  (if 0 <? n then lit "." ++ show n else []).

Definition is_hashed (text : str) : bool :=
  (MAX_INLINE_TERM <? str_len text)%nat || starts_with text [0].

(** ** The blocks *)

Definition DICT_BLOCK_MAX_BYTES : Z := Z.shiftl 64 10.

Definition dict_block_is_full (encoded_len : Z) (entries : Z) : bool :=
  (DICT_BLOCK_MAX_BYTES <=? encoded_len) || (Z.of_nat DICT_BLOCK <=? entries).

Section tables.
Context `{Redb tbl}.
Definition rev_table : Type := tbl Z _ _ (list Z).

(** The [while lo < hi] search; the interval halves, so 64 rounds are enough
    for any [u64] length. *)
Fixpoint dict_rev_search (fuel : nat) (t : rev_table) (id lo hi : Z) : result Z :=
  if lo <? hi then
    match fuel with
    | O => Panic
    | S fuel =>
        let mid := lo + (hi - lo) / 2 in
        block ← ok_or (tbl_get t mid) (Corrupt (lit "missing dict block " ++ show mid));
        o ← dict_block_first_id block;
        first ← ok_or o (Corrupt (lit "empty dict block " ++ show mid));
        if first <=? id then dict_rev_search fuel t id (mid + 1) hi
        else dict_rev_search fuel t id lo mid
    end
  else Ok lo.

Definition dict_rev_block (t : rev_table) (id : Z) : result (option (list Z)) :=
  let n := tbl_len t in
  if n =? 0 then Ok None else
  lo ← dict_rev_search 64 t id 0 n;
  if lo =? 0 then Ok None else Ok (tbl_get t (lo - 1)).

Definition dict_rev_lookup (t : rev_table) (id : Z) : result (option str) :=
  block ← dict_rev_block t id;
  match block with None => Ok None | Some b => dict_block_find b id end.

Definition dict_rev_append (rev : rev_table) (id : Z) (text : str) : result rev_table :=
  let n := tbl_len rev in
  let fresh := Ok (tbl_insert n (encode_dict_block [(id, text)]) rev) in
  if 0 <? n then
    let last := n - 1 in
    block ← unwrap (tbl_get rev last);
    count ← dict_block_entry_count block;
    if negb (dict_block_is_full (Z.of_nat (length block)) count) then
      entries ← decode_dict_block block;
      Ok (tbl_insert last (encode_dict_block (entries ++ [(id, text)])) rev)
    else fresh
  else fresh.
End tables.

(** The loop of [pack_dict_blocks]: blocks so far, the open block and its
    running size. *)
Fixpoint pack_loop (entries : list (Z * str)) (current : list (Z * str)) (body : Z)
    : list (list Z) :=
  match entries with
  | [] => match current with [] => [] | _ => [encode_dict_block current] end
  | (id, text) :: entries =>
      let encoded_len := dict_block_count_len (length current) + body in
      if match current with [] => false | _ => dict_block_is_full encoded_len (Z.of_nat (length current)) end
      then encode_dict_block current ::
           pack_loop entries [(id, text)] (dict_entry_encoded_len id text)
      else pack_loop entries (current ++ [(id, text)]) (body + dict_entry_encoded_len id text)
  end.

Definition pack_dict_blocks (entries : list (Z * str)) : list (list Z) := pack_loop entries [] 0.

(** ** Node ids *)

Definition TAG_SYM : Z := 1.
Definition TAG_TOK : Z := 2.
Definition MAX_LOCAL : Z := Z.shiftl 1 30 - 1.

Definition sub_id (tag file index : Z) : Z :=
  Z.lor (Z.lor (as_u64 (Z.shiftl tag 62)) (as_u64 (Z.shiftl file 32))) index.

Definition split_id (id : Z) : Z * Z * Z :=
  (Z.shiftr id 62, Z.land (Z.shiftr id 32) MAX_LOCAL, Z.land id 0xffffffff).

Definition blank (id : Z) (parent : option Z) (kind : NodeKind) (name : str) : Node :=
  mkNode id parent kind name None None None None false None None None false None.

(** ** Little-endian words *)

Lemma to_le_bytes_length n v : length (to_le_bytes n v) = n.
Proof. revert v. induction n; intros; simpl; auto. Qed.

Lemma to_le_bytes_u8 n v : Forall u8 (to_le_bytes n v).
Proof. revert v. induction n; intros; simpl; constructor; [apply as_u8_range|auto]. Qed.

Lemma from_le_bytes_range bs :
  Forall u8 bs → 0 ≤ from_le_bytes bs < 2 ^ (8 * Z.of_nat (length bs)).
Proof.
  induction 1 as [|b bs Hb _ IH]; [simpl; lia|]. cbn [from_le_bytes length].
  rewrite (lor_shift b _ 8) by (lia || mach).
  replace (8 * Z.of_nat (S (length bs))) with (8 + 8 * Z.of_nat (length bs)) by lia.
  rewrite Z.pow_add_r by lia. unfold u8 in Hb. lia.
Qed.

Lemma from_to_le_bytes n v : 0 ≤ v < 2 ^ (8 * Z.of_nat n) → from_le_bytes (to_le_bytes n v) = v.
Proof.
  revert v. induction n as [|n IH]; intros v Hv; [simpl in *; lia|]. cbn [to_le_bytes from_le_bytes].
  rewrite Z.shiftr_div_pow2 by lia. rewrite IH.
  - unfold as_u8. rewrite lor_shift; [|lia|apply Z.mod_pos_bound; lia|apply Z.div_pos; lia].
    pose proof (Z.div_mod v (2 ^ 8)). lia.
  - split; [apply Z.div_pos; lia|]. apply Z.div_lt_upper_bound; [lia|].
    replace (8 * Z.of_nat (S n)) with (8 + 8 * Z.of_nat n) in Hv by lia.
    rewrite Z.pow_add_r in Hv by lia. lia.
Qed.

Lemma to_from_le_bytes bs : Forall u8 bs → to_le_bytes (length bs) (from_le_bytes bs) = bs.
Proof.
  induction 1 as [|b bs Hb HF IH]; [done|]. cbn [to_le_bytes from_le_bytes length].
  pose proof (from_le_bytes_range bs HF). rewrite lor_shift by (lia || mach).
  unfold as_u8. rewrite Z.mod_add, Z.mod_small by mach. f_equal.
  rewrite Z.shiftr_div_pow2 by lia. rewrite Z.div_add, Z.div_small by mach. done.
Qed.

Definition marker_ok (m : RaftMarker) : Prop :=
  u64 (rm_term m) ∧ u64 (rm_index m) ∧ u64 (rm_node_id m).

Lemma marker_decode_encode m : marker_ok m → RaftMarker_decode (RaftMarker_encode m) = Ok m.
Proof.
  intros (Ht & Hi & Hn). destruct m as [t i n]. unfold RaftMarker_decode, RaftMarker_encode. simpl rm_term.
  rewrite !length_app, !to_le_bytes_length. simpl Nat.eqb. cbv beta iota zeta. do 2 f_equal.
  - rewrite drop_0, take_app_eq by (by rewrite to_le_bytes_length). by apply from_to_le_bytes.
  - rewrite drop_app_eq, take_app_eq by (by rewrite to_le_bytes_length). by apply from_to_le_bytes.
  - rewrite app_assoc, drop_app_eq by (by rewrite length_app, !to_le_bytes_length).
    rewrite take_ge by (by rewrite to_le_bytes_length). by apply from_to_le_bytes.
Qed.

(** The raft marker row: encoding and decoding are inverse both ways on
    24-byte rows, and a row of any other length is refused. *)
Theorem raft_marker_roundtrip :
  (∀ m, marker_ok m → RaftMarker_decode (RaftMarker_encode m) = Ok m) ∧
  (∀ b m, Forall u8 b → RaftMarker_decode b = Ok m → marker_ok m ∧ RaftMarker_encode m = b) ∧
  (∀ b, length b ≠ 24%nat → ∃ e, RaftMarker_decode b = Err e).
Proof.
  split_and!.
  - apply marker_decode_encode.
  - intros b m Hb. unfold RaftMarker_decode. destruct (Nat.eqb_spec (length b) ENCODED_LEN) as [Hl|]; [|done].
    unfold ENCODED_LEN in Hl. intros [= <-].
    assert (∀ k, (k + 8 ≤ 24)%nat →
      u64 (from_le_bytes (take 8 (drop k b))) ∧
      to_le_bytes 8 (from_le_bytes (take 8 (drop k b))) = take 8 (drop k b)) as Hk.
    { intros k Hk. assert (Forall u8 (take 8 (drop k b))) as HU by (by apply Forall_take, Forall_drop).
      assert (length (take 8 (drop k b)) = 8%nat) as HL by (rewrite length_take, length_drop; lia).
      pose proof (from_le_bytes_range _ HU) as HR. pose proof (to_from_le_bytes _ HU) as HT.
      rewrite HL in HR, HT. by split. }
    destruct (Hk 0%nat) as [U0 L0], (Hk 8%nat) as [U1 L1], (Hk 16%nat) as [U2 L2]; try lia.
    split; [by split_and!|]. unfold RaftMarker_encode. cbn [rm_term rm_index rm_node_id].
    rewrite L0, L1, L2, (take_ge (drop 16 b)) by (rewrite length_drop; lia).
    replace (drop 16 b) with (drop 8 (drop 8 b)) by (by rewrite drop_drop).
    by rewrite take_drop, drop_0, take_drop.
  - intros b Hb. unfold RaftMarker_decode. rewrite (proj2 (Nat.eqb_neq _ _)) by done. eauto.
Qed.

(** ** Ids *)

Lemma sub_id_sum tag file index :
  0 ≤ tag < 4 → 0 ≤ file ≤ MAX_LOCAL → u32 index →
  sub_id tag file index = (tag * 2 ^ 30 + file) * 2 ^ 32 + index.
Proof.
  intros Ht Hf Hi. unfold sub_id. change MAX_LOCAL with (2 ^ 30 - 1) in Hf.
  rewrite !as_u64_id by (rewrite Z.shiftl_mul_pow2 by lia; mach).
  replace (Z.shiftl tag 62) with (Z.shiftl (Z.shiftl tag 30) 32) by by rewrite Z.shiftl_shiftl by lia.
  rewrite <- Z.shiftl_lor, (Z.lor_comm _ file), lor_shift by lia.
  rewrite Z.lor_comm, lor_shift by (mach || lia). lia.
Qed.

Lemma split_id_div id : u64 id → split_id id = (id / 2 ^ 62, id / 2 ^ 32 mod 2 ^ 30, id mod 2 ^ 32).
Proof.
  intros Hid. unfold split_id. change MAX_LOCAL with (Z.ones 30). change 0xffffffff with (Z.ones 32).
  by rewrite !Z.land_ones, !Z.shiftr_div_pow2 by lia.
Qed.
Lemma sub_id_run tag file index :
  0 ≤ tag < 4 → 0 ≤ file ≤ MAX_LOCAL → u32 index →
  u64 (sub_id tag file index) ∧ split_id (sub_id tag file index) = (tag, file, index).
Proof.
  intros Ht Hf Hi. rewrite sub_id_sum by done. change MAX_LOCAL with (2 ^ 30 - 1) in Hf.
  unfold u32 in Hi. assert (u64 ((tag * 2 ^ 30 + file) * 2 ^ 32 + index)) as Hu by mach.
  split; [done|]. rewrite split_id_div by done.
  assert (((tag * 2 ^ 30 + file) * 2 ^ 32 + index) / 2 ^ 32 = tag * 2 ^ 30 + file) as Hd.
  { rewrite Z.div_add_l, Z.div_small by lia. lia. }
  change (2 ^ 62) with (2 ^ 32 * 2 ^ 30). rewrite <- Z.div_div, Hd by lia. do 2 f_equal.
  - f_equal. rewrite Z.div_add_l, Z.div_small by lia. lia.
  - rewrite Z.add_comm, Z.mod_add, Z.mod_small by lia. done.
  - rewrite Z.add_comm, Z.mod_add, Z.mod_small by lia. done.
Qed.

(** Node ids: packing [(tag, file, index)] and taking an id apart are
    inverse, so a symbol's or token's id names its file and its place in it
    and no two nodes share one. *)
Theorem sub_id_split :
  (∀ tag file index, 0 ≤ tag < 4 → 0 ≤ file ≤ MAX_LOCAL → u32 index →
     u64 (sub_id tag file index) ∧ split_id (sub_id tag file index) = (tag, file, index)) ∧
  (∀ id, u64 id → let '(tag, file, index) := split_id id in sub_id tag file index = id).
Proof.
  split; [apply sub_id_run|]. intros id Hid. rewrite split_id_div by done. unfold u64 in Hid.
  pose proof (Z.mod_pos_bound id (2 ^ 32) ltac:(lia)).
  pose proof (Z.mod_pos_bound (id / 2 ^ 32) (2 ^ 30) ltac:(lia)).
  assert (0 ≤ id / 2 ^ 62 < 4).
  { split; [apply Z.div_pos; lia|apply Z.div_lt_upper_bound; lia]. }
  rewrite sub_id_sum; [|done|change MAX_LOCAL with (2 ^ 30 - 1); lia|mach].
  change (2 ^ 62) with (2 ^ 32 * 2 ^ 30). rewrite <- Z.div_div by lia.
  rewrite <- (Z.mul_comm (2 ^ 30)), <- Z.div_mod by lia. rewrite Z.mul_comm, <- Z.div_mod by lia. done.
Qed.

(** ** The reverse dictionary holds its entries *)

Lemma size_map_seqZ {A} (xs : list A) k :
  size (map_seqZ (M:=gmap Z A) k xs) = length xs.
Proof.
  revert k. induction xs as [|x xs IH]; intros k; [done|].
  rewrite map_seqZ_cons, map_size_insert_None by apply map_seqZ_cons_disjoint. simpl. by rewrite IH.
Qed.

Lemma block_small b :
  (length b ≤ DICT_BLOCK)%nat → Forall entry_ok b →
  Z.of_nat (length (encode_dict_block b)) < 2 ^ 63.
Proof.
  intros Hl HF. unfold DICT_BLOCK, POSTING_BLOCK in Hl.
  assert (Z.of_nat (length (b ≫= put_entry)) ≤ Z.of_nat (length b) * (20 + 2 ^ 32)) as Hb.
  { clear Hl. induction HF as [|e b (Hid & Hs & Hn) HF IH]; [simpl; lia|].
    cbn [mbind list_bind length]. rewrite length_app. unfold put_entry at 1. rewrite !length_app.
    pose proof (put_varint_len_le e.1 Hid).
    pose proof (put_varint_len_le (Z.of_nat (str_len e.2)) ltac:(mach)). unfold str_len in *. lia. }
  unfold encode_dict_block. rewrite length_app.
  pose proof (put_varint_len_le (Z.of_nat (length b)) ltac:(mach)). lia.
Qed.

Section rev_table.
Context `{Redb tbl}.

(** [t] is the blocks [bs], in order. *)
Definition rev_blocks (t : rev_table) (bs : list (list (Z * str))) : Prop :=
  tbl_map t = map_seqZ 0 (encode_dict_block <$> bs).

(** Blocks are never empty or oversized, and ids ascend through all of them. *)
Definition rev_ok (bs : list (list (Z * str))) : Prop :=
  Forall (λ b, b ≠ [] ∧ (length b ≤ DICT_BLOCK)%nat ∧ Forall entry_ok b) bs ∧
  StronglySorted Z.lt (concat bs).*1.

Lemma rev_len t bs : rev_blocks t bs → tbl_len t = Z.of_nat (length bs).
Proof. intros Ht. by rewrite tbl_len_spec, Ht, size_map_seqZ, length_fmap. Qed.

Lemma rev_get t bs i b :
  rev_blocks t bs → bs !! i = Some b → tbl_get t (Z.of_nat i) = Some (encode_dict_block b).
Proof.
  intros Ht Hb. rewrite tbl_get_spec, Ht, lookup_map_seqZ_0 by lia.
  by rewrite Nat2Z.id, list_lookup_fmap, Hb.
Qed.

Definition first_of (b : list (Z * str)) : Z := default 0 (fst <$> head b).

Lemma rev_ok_block bs i b :
  rev_ok bs → bs !! i = Some b →
  dict_block_first_id (encode_dict_block b) = Ok (Some (first_of b)) ∧
  (∀ id, dict_block_find (encode_dict_block b) id = Ok (entry_text id b)).
Proof.
  intros [HF _] Hb. destruct (proj1 (Forall_lookup _ _) HF _ _ Hb) as (Hne & Hl & Hok).
  pose proof (block_small b Hl Hok) as Hs. split.
  - rewrite first_id_encode by done. by destruct b as [|[]].
  - intros id. by rewrite dict_block_find_decode, decode_encode_block.
Qed.

(** Every id of an earlier block is below every id of a later one. *)
Lemma blocks_apart bs i j b c x y :
  rev_ok bs → bs !! i = Some b → bs !! j = Some c → (i < j)%nat →
  x ∈ b.*1 → y ∈ c.*1 → x < y.
Proof.
  intros [_ Hs] Hb Hc Hij Hx Hy. rewrite <- (take_drop_middle bs i b Hb), concat_app in Hs.
  rewrite fmap_app in Hs. apply StronglySorted_app_1_r in Hs. cbn [concat] in Hs.
  rewrite fmap_app in Hs. apply (StronglySorted_app_1_elem_of _ _ _ x y Hs Hx).
  apply list_elem_of_fmap in Hy as ([y' s] & -> & Hy). apply list_elem_of_fmap. exists (y', s).
  split; [done|]. apply list_elem_of_In, in_concat. exists c.
  split; [|by apply list_elem_of_In]. apply list_elem_of_In, list_elem_of_lookup.
  exists (j - S i)%nat. rewrite lookup_drop. by replace (S i + (j - S i))%nat with j by lia.
Qed.

Lemma block_ids_sorted bs i b : rev_ok bs → bs !! i = Some b → StronglySorted Z.lt b.*1.
Proof.
  intros [_ Hs] Hb. rewrite <- (take_drop_middle bs i b Hb), concat_app in Hs.
  rewrite fmap_app in Hs. apply StronglySorted_app_1_r in Hs. cbn [concat] in Hs.
  rewrite fmap_app in Hs. by apply StronglySorted_app_1_l in Hs.
Qed.

Lemma first_of_elem bs i b : rev_ok bs → bs !! i = Some b → first_of b ∈ b.*1.
Proof.
  intros [HF _] Hb. destruct (proj1 (Forall_lookup _ _) HF _ _ Hb) as (Hne & _).
  destruct b as [|[x s] b]; [done|]. apply elem_of_cons. by left.
Qed.

Lemma first_of_le bs i b x : rev_ok bs → bs !! i = Some b → x ∈ b.*1 → first_of b ≤ x.
Proof.
  intros Hok Hb Hx. pose proof (block_ids_sorted bs i b Hok Hb) as Hs.
  destruct b as [|[y s] b]; [by apply elem_of_nil in Hx|]. simpl in *.
  apply StronglySorted_inv in Hs as [_ HF]. apply elem_of_cons in Hx as [->|Hx]; [done|].
  pose proof (proj1 (Forall_forall _ _) HF _ Hx). simpl in *. unfold first_of. simpl. lia.
Qed.

(** The search splits the blocks by their first id. *)
Lemma dict_rev_search_spec t bs id fuel lo hi :
  rev_blocks t bs → rev_ok bs → (lo ≤ hi ≤ length bs)%nat → Z.of_nat hi - Z.of_nat lo < 2 ^ Z.of_nat fuel →
  (∀ i b, (i < lo)%nat → bs !! i = Some b → first_of b ≤ id) →
  (∀ i b, (hi ≤ i)%nat → bs !! i = Some b → id < first_of b) →
  ∃ k : nat, dict_rev_search fuel t id (Z.of_nat lo) (Z.of_nat hi) = Ok (Z.of_nat k) ∧
    (k ≤ length bs)%nat ∧
    (∀ i b, (i < k)%nat → bs !! i = Some b → first_of b ≤ id) ∧
    (∀ i b, (k ≤ i)%nat → bs !! i = Some b → id < first_of b).
Proof.
  intros Ht Hok. revert lo hi. induction fuel as [|fuel IH]; intros lo hi Hle Hf Hlo Hhi;
    cbn [dict_rev_search]; (destruct (Z.ltb_spec (Z.of_nat lo) (Z.of_nat hi)) as [Hlt|Hge];
      [|exists lo; split_and!; [done|lia|done|intros i b Hi; apply Hhi; lia]]).
  { simpl in Hf. lia. }
  set (mid := (lo + (hi - lo) / 2)%nat).
  assert (Z.of_nat lo + (Z.of_nat hi - Z.of_nat lo) / 2 = Z.of_nat mid) as ->.
  { unfold mid. rewrite Nat2Z.inj_add, Nat2Z.inj_div, Nat2Z.inj_sub by lia. lia. }
  assert (lo ≤ mid < hi)%nat as Hmid.
  { unfold mid. pose proof (Nat.div_lt (hi - lo) 2). lia. }
  assert (Z.of_nat hi - Z.of_nat mid ≤ 2 ^ Z.of_nat fuel ∧ Z.of_nat mid - Z.of_nat lo < 2 ^ Z.of_nat fuel)
    as [Hup Hdown].
  { rewrite Nat2Z.inj_succ, Z.pow_succ_r in Hf by lia.
    pose proof (Nat.div_mod_eq (hi - lo) 2). pose proof (Nat.mod_upper_bound (hi - lo) 2). unfold mid. lia. }
  destruct (lookup_lt_is_Some_2 bs mid) as [b Hb]; [lia|].
  rewrite (rev_get t bs mid b Ht Hb). cbn [ok_or mbind outcome_mbind outcome_bind].
  destruct (rev_ok_block bs mid b Hok Hb) as [-> _]. cbn [ok_or mbind outcome_mbind outcome_bind].
  destruct (Z.leb_spec (first_of b) id) as [Hfi|Hfi].
  - replace (Z.of_nat mid + 1) with (Z.of_nat (S mid)) by lia. apply IH; try lia; [|done].
    intros i c Hi Hc. destruct (decide (i = mid)) as [->|]; [by simplify_eq|].
    pose proof (blocks_apart bs i mid c b (first_of c) (first_of b) Hok Hc Hb ltac:(lia)
      (first_of_elem bs i c Hok Hc) (first_of_elem bs mid b Hok Hb)). lia.
  - apply IH; try lia; [done|].
    intros i c Hi Hc. destruct (decide (i = mid)) as [->|]; [by simplify_eq|].
    pose proof (blocks_apart bs mid i b c (first_of b) (first_of c) Hok Hb Hc ltac:(lia)
      (first_of_elem bs mid b Hok Hb) (first_of_elem bs i c Hok Hc)). lia.
Qed.

Lemma entry_text_app id a b :
  entry_text id (a ++ b) = match entry_text id a with Some s => Some s | None => entry_text id b end.
Proof.
  unfold entry_text. rewrite filter_app.
  destruct (filter (λ e : Z * str, e.1 = id) a) as [|e l]; [|done]. simpl. done.
Qed.

Lemma entry_text_None id a : id ∉ a.*1 → entry_text id a = None.
Proof.
  intros Hn. unfold entry_text. destruct (filter _ a) as [|e l] eqn:E; [done|]. exfalso.
  assert (e ∈ filter (λ e : Z * str, e.1 = id) a) as He by (rewrite E; apply elem_of_cons; by left).
  apply list_elem_of_filter in He as [<- He]. apply Hn, list_elem_of_fmap. eauto.
Qed.

Lemma concat_ids (bs : list (list (Z * str))) (P : Z → Prop) :
  (∀ i b, bs !! i = Some b → ∀ x, x ∈ b.*1 → P x) → ∀ x, x ∈ (concat bs).*1 → P x.
Proof.
  intros HP x Hx. apply list_elem_of_fmap in Hx as (e & -> & He).
  apply list_elem_of_In, in_concat in He as (b & Hb & He).
  apply list_elem_of_In, list_elem_of_lookup in Hb as [i Hi].
  apply (HP i b Hi), list_elem_of_fmap. exists e. split; [done|by apply list_elem_of_In].
Qed.

(** Where the search lands, the whole dictionary agrees with that block. *)
Lemma entry_text_block bs id k :
  rev_ok bs → (k ≤ length bs)%nat →
  (∀ i b, (i < k)%nat → bs !! i = Some b → first_of b ≤ id) →
  (∀ i b, (k ≤ i)%nat → bs !! i = Some b → id < first_of b) →
  entry_text id (concat bs) =
    match k with O => None | S j => bs !! j ≫= entry_text id end.
Proof.
  intros Hok Hk Hlo Hhi. destruct k as [|j].
  { apply entry_text_None. enough (∀ x, x ∈ (concat bs).*1 → id < x) as Hall
      by (intros Hx; specialize (Hall _ Hx); lia).
    apply concat_ids. intros i b Hb x Hx.
    pose proof (Hhi i b ltac:(lia) Hb). pose proof (first_of_le bs i b x Hok Hb Hx). lia. }
  destruct (lookup_lt_is_Some_2 bs j) as [b Hb]; [lia|]. rewrite Hb. cbn [mbind option_bind].
  rewrite <- (take_drop_middle bs j b Hb), concat_app. cbn [concat].
  rewrite !entry_text_app, (entry_text_None id (concat (take j bs))).
  - destruct (entry_text id b); [done|]. apply entry_text_None.
    enough (∀ x, x ∈ (concat (drop (S j) bs)).*1 → id < x) as Hall by (intros Hx; specialize (Hall _ Hx); lia).
    apply concat_ids. intros i c Hc x Hx. rewrite lookup_drop in Hc.
    pose proof (Hhi (S j + i)%nat c ltac:(lia) Hc). pose proof (first_of_le _ _ c x Hok Hc Hx). lia.
  - enough (∀ x, x ∈ (concat (take j bs)).*1 → x < id) as Hall by (intros Hx; specialize (Hall _ Hx); lia).
    apply concat_ids. intros i c Hc x Hx. apply lookup_take_Some in Hc as [Hc Hi].
    pose proof (blocks_apart bs i j c b x (first_of b) Hok Hc Hb Hi Hx (first_of_elem bs j b Hok Hb)).
    pose proof (Hlo j b ltac:(lia) Hb). lia.
Qed.

Lemma dict_rev_lookup_run t bs id :
  rev_blocks t bs → rev_ok bs → Z.of_nat (length bs) < 2 ^ 64 →
  dict_rev_lookup t id = Ok (entry_text id (concat bs)).
Proof.
  intros Ht Hok Hn. unfold dict_rev_lookup, dict_rev_block. rewrite (rev_len t bs Ht).
  destruct (Z.eqb_spec (Z.of_nat (length bs)) 0) as [H0|H0].
  { destruct bs; [done|simpl in H0; lia]. }
  destruct (dict_rev_search_spec t bs id 64 0 (length bs)) as (k & Hs & Hk & Hlo & Hhi);
    try done; try lia.
  { intros i b Hi Hb. apply lookup_lt_Some in Hb. lia. }
  change (Z.of_nat 0) with 0 in Hs. rewrite Hs. cbn [mbind outcome_mbind outcome_bind].
  rewrite (entry_text_block bs id k Hok Hk Hlo Hhi).
  destruct k as [|j]; [done|]. rewrite (proj2 (Z.eqb_neq _ 0)) by lia.
  destruct (lookup_lt_is_Some_2 bs j) as [b Hb]; [lia|]. rewrite Hb.
  replace (Z.of_nat (S j) - 1) with (Z.of_nat j) by lia. rewrite (rev_get t bs j b Ht Hb).
  cbn [mbind outcome_mbind outcome_bind]. by destruct (rev_ok_block bs j b Hok Hb) as [_ ->].
Qed.

(** A lookup in the packed reverse dictionary finds exactly the text stored
    under the id, by binary search over the blocks, which always terminates. *)
Theorem dict_rev_lookup_spec t bs id :
  rev_blocks t bs → rev_ok bs → Z.of_nat (length bs) < 2 ^ 64 →
  dict_rev_lookup t id = Ok (entry_text id (concat bs)).
Proof. apply dict_rev_lookup_run. Qed.

(** What appending one entry does to the blocks. *)
Definition block_full (b : list (Z * str)) : bool :=
  dict_block_is_full (Z.of_nat (length (encode_dict_block b))) (Z.of_nat (length b)).

Definition append_entry (bs : list (list (Z * str))) (e : Z * str) : list (list (Z * str)) :=
  match reverse bs with
  | [] => [[e]]
  | b :: rest => if block_full b then bs ++ [[e]] else reverse rest ++ [b ++ [e]]
  end.

Lemma append_entry_concat bs e : concat (append_entry bs e) = concat bs ++ [e].
Proof.
  unfold append_entry. destruct (reverse bs) as [|b rest] eqn:E.
  - apply (f_equal reverse) in E. rewrite reverse_involutive in E. by rewrite E.
  - apply (f_equal reverse) in E. rewrite reverse_involutive, reverse_cons in E.
    destruct (block_full b); rewrite ?concat_app; simpl; [done|].
    rewrite E, concat_app. simpl. by rewrite !app_nil_r, <- app_assoc.
Qed.

Lemma rev_ok_append bs e :
  rev_ok bs → entry_ok e → (∀ x, x ∈ (concat bs).*1 → x < e.1) → rev_ok (append_entry bs e).
Proof.
  intros [HF Hs] He Hx. split.
  - unfold append_entry. destruct (reverse bs) as [|b rest] eqn:E.
    { apply Forall_singleton. split_and!; [done|unfold DICT_BLOCK, POSTING_BLOCK; simpl; lia|by apply Forall_singleton]. }
    apply (f_equal reverse) in E. rewrite reverse_involutive, reverse_cons in E.
    destruct (block_full b) eqn:Hfull; apply Forall_app; split.
    + done.
    + apply Forall_singleton. split_and!; [done|unfold DICT_BLOCK, POSTING_BLOCK; simpl; lia|by apply Forall_singleton].
    + rewrite E in HF. by apply Forall_app in HF as [? _].
    + rewrite E in HF. apply Forall_app in HF as [_ HF]. apply Forall_singleton in HF as (_ & Hl & Hok).
      apply Forall_singleton. split_and!; [by destruct b|rewrite length_app; simpl|].
      * unfold block_full, dict_block_is_full in Hfull. apply orb_false_iff in Hfull as [_ Hfull]. bool_prop. lia.
      * apply Forall_app. by split; [|apply Forall_singleton].
  - rewrite append_entry_concat, fmap_app. apply StronglySorted_app_2; [|done|by repeat constructor].
    intros x y Hxin ->%list_elem_of_singleton. by apply Hx.
Qed.

Lemma dict_rev_append_run t bs id text :
  rev_blocks t bs → rev_ok bs → entry_ok (id, text) →
  (∀ x, x ∈ (concat bs).*1 → x < id) →
  ∃ t', dict_rev_append t id text = Ok t' ∧
    rev_blocks t' (append_entry bs (id, text)) ∧ rev_ok (append_entry bs (id, text)) ∧
    concat (append_entry bs (id, text)) = concat bs ++ [(id, text)].
Proof.
  intros Ht Hok He Hx.
  assert (∃ t', dict_rev_append t id text = Ok t' ∧ rev_blocks t' (append_entry bs (id, text))) as (t' & H1 & H2).
  2:{ exists t'. split_and!; [done|done|by apply rev_ok_append|apply append_entry_concat]. }
  unfold dict_rev_append, append_entry. rewrite (rev_len t bs Ht).
  destruct (reverse bs) as [|b rest] eqn:E.
  { apply (f_equal reverse) in E. rewrite reverse_involutive in E. subst bs. simpl.
    eexists. split; [done|]. unfold rev_blocks in *. by rewrite tbl_insert_spec, Ht. }
  apply (f_equal reverse) in E. rewrite reverse_involutive, reverse_cons in E.
  assert (bs !! length (reverse rest) = Some b) as Hb by (by rewrite E, list_lookup_middle).
  assert (length bs = S (length (reverse rest))) as Hn by (rewrite E, length_app; simpl; lia).
  rewrite (proj2 (Z.ltb_lt 0 _)) by lia.
  replace (Z.of_nat (length bs) - 1) with (Z.of_nat (length (reverse rest))) by lia.
  rewrite (rev_get t bs _ b Ht Hb). cbn [unwrap mbind outcome_mbind outcome_bind].
  destruct (proj1 (Forall_lookup _ _) (proj1 Hok) _ _ Hb) as (_ & Hl & Hbok).
  pose proof (block_small b Hl Hbok) as Hs. rewrite entry_count_encode by done.
  cbn [mbind outcome_mbind outcome_bind]. fold (block_full b). destruct (block_full b); cbn [negb].
  - eexists. split; [done|]. unfold rev_blocks in *.
    by rewrite tbl_insert_spec, Ht, fmap_app, list_fmap_singleton, map_seqZ_snoc, length_fmap.
  - rewrite decode_encode_block by done. cbn [mbind outcome_mbind outcome_bind]. eexists.
    split; [done|]. unfold rev_blocks in *. rewrite tbl_insert_spec, Ht, E, !fmap_app.
    rewrite !list_fmap_singleton, !map_seqZ_snoc, !Z.add_0_l, length_fmap. apply insert_insert_eq.
Qed.

(** A sequence of appends. *)
Fixpoint append_all (t : rev_table) (es : list (Z * str)) : result rev_table :=
  match es with
  | [] => Ok t
  | (id, text) :: es => t' ← dict_rev_append t id text; append_all t' es
  end.

Lemma append_entry_snoc pre b e :
  append_entry (pre ++ [b]) e = if block_full b then pre ++ [b; [e]] else pre ++ [b ++ [e]].
Proof.
  unfold append_entry. rewrite reverse_snoc, reverse_involutive.
  destruct (block_full b); [by rewrite <- app_assoc|done].
Qed.

Lemma body_len_snoc b e : body_len (b ++ [e]) = body_len b + dict_entry_encoded_len e.1 e.2.
Proof.
  induction b as [|x b IH]; [unfold body_len; simpl; lia|].
  change (dict_entry_encoded_len x.1 x.2 + body_len (b ++ [e]) =
          dict_entry_encoded_len x.1 x.2 + body_len b + dict_entry_encoded_len e.1 e.2). lia.
Qed.

(** The running size of [pack_dict_blocks] is the size of the open block. *)
Lemma pack_full b :
  (length b ≤ DICT_BLOCK)%nat → Forall entry_ok b →
  dict_block_is_full (dict_block_count_len (length b) + body_len b) (Z.of_nat (length b)) = block_full b.
Proof.
  intros Hl HF. unfold block_full. rewrite encode_dict_block_len; [done|done|].
  unfold DICT_BLOCK, POSTING_BLOCK in Hl. lia.
Qed.

Lemma pack_loop_spec es pre b :
  Forall entry_ok es → Forall entry_ok b → b ≠ [] → (length b ≤ DICT_BLOCK)%nat →
  encode_dict_block <$> foldl append_entry (pre ++ [b]) es =
    (encode_dict_block <$> pre) ++ pack_loop es b (body_len b).
Proof.
  intros Hes. revert pre b. induction Hes as [|[id text] es He Hes IH]; intros pre b Hb Hne Hl.
  { simpl. rewrite fmap_app. f_equal. by destruct b. }
  cbn [foldl]. rewrite append_entry_snoc.
  assert (pack_loop ((id, text) :: es) b (body_len b) =
    if block_full b then encode_dict_block b :: pack_loop es [(id, text)] (dict_entry_encoded_len id text)
    else pack_loop es (b ++ [(id, text)]) (body_len b + dict_entry_encoded_len id text)) as ->.
  { cbn [pack_loop]. rewrite pack_full by done. by destruct b. }
  destruct (block_full b) eqn:Hfull.
  - replace (pre ++ [b; [(id, text)]]) with ((pre ++ [b]) ++ [[(id, text)]]) by by rewrite <- app_assoc.
    rewrite (IH (pre ++ [b])); [|by apply Forall_singleton|done|unfold DICT_BLOCK, POSTING_BLOCK; simpl; lia].
    rewrite fmap_app, <- app_assoc. simpl. unfold body_len. simpl. by rewrite Z.add_0_r.
  - rewrite (IH pre); [by rewrite body_len_snoc| |by destruct b|].
    + apply Forall_app. by split; [|apply Forall_singleton].
    + unfold block_full, dict_block_is_full in Hfull. apply orb_false_iff in Hfull as [_ Hfull].
      bool_prop. rewrite length_app. simpl. lia.
Qed.

Lemma pack_dict_blocks_spec es :
  Forall entry_ok es → encode_dict_block <$> foldl append_entry [] es = pack_dict_blocks es.
Proof.
  intros Hes. destruct Hes as [|[id text] es He Hes]; [done|].
  unfold pack_dict_blocks. cbn [foldl pack_loop length]. rewrite app_nil_l, Z.add_0_l.
  change (append_entry [] (id, text)) with ([] ++ [[(id, text)]] : list (list (Z * str))).
  rewrite pack_loop_spec; [|done|by apply Forall_singleton|done|unfold DICT_BLOCK, POSTING_BLOCK; simpl; lia].
  unfold body_len. simpl. by rewrite Z.add_0_r.
Qed.

Lemma append_all_spec es t bs :
  rev_blocks t bs → rev_ok bs → Forall entry_ok es → StronglySorted Z.lt (concat bs ++ es).*1 →
  ∃ t', append_all t es = Ok t' ∧ rev_blocks t' (foldl append_entry bs es) ∧
    rev_ok (foldl append_entry bs es).
Proof.
  intros Ht Hok Hes. revert t bs Ht Hok. induction Hes as [|[id text] es He Hes IH];
    intros t bs Ht Hok Hs; cbn [append_all foldl]; [by eauto|].
  assert (∀ x, x ∈ (concat bs).*1 → x < id) as Hx.
  { intros x Hx. rewrite fmap_app in Hs. apply (StronglySorted_app_1_elem_of _ _ _ _ _ Hs Hx).
    apply elem_of_cons. by left. }
  destruct (dict_rev_append_run t bs id text Ht Hok He Hx) as (t' & -> & Ht' & Hok' & Hc).
  cbn [mbind outcome_mbind outcome_bind]. apply IH; [done|done|].
  by rewrite Hc, <- app_assoc.
Qed.

(** Vacuum's repacking and the incremental writes use one block-boundary
    rule: packing a list of entries at once gives exactly the rows that
    appending them one by one to an empty dictionary gives. *)
Theorem pack_is_append es :
  Forall entry_ok es → StronglySorted Z.lt es.*1 →
  ∃ t, append_all tbl_empty es = Ok t ∧ tbl_map t = map_seqZ 0 (pack_dict_blocks es).
Proof.
  intros Hes Hs. destruct (append_all_spec es tbl_empty []) as (t & Hr & Ht & _); try done.
  - unfold rev_blocks. by rewrite tbl_empty_spec.
  - by split; [constructor|constructor].
  - exists t. split; [done|]. unfold rev_blocks in Ht. by rewrite Ht, pack_dict_blocks_spec.
Qed.
End rev_table.

Section witnesses.
#[local] Existing Instance gmap_redb.
Definition three_terms : list (Z * str) := [(1, lit "fn"); (4, lit "main"); (9, lit "x")].

Lemma three_terms_ok : Forall entry_ok three_terms ∧ StronglySorted Z.lt three_terms.*1.
Proof.
  split; [apply (bool_decide_unpack _); by vm_compute|].
  apply strictly_ascending_spec. by vm_compute.
Qed.


Definition three_table : rev_table (tbl:=λ K _ _ V, gmap K V) :=
  map_seqZ 0 [encode_dict_block three_terms].

Lemma three_table_ok : rev_blocks three_table [three_terms] ∧ rev_ok [three_terms].
Proof.
  split; [done|]. split.
  - apply Forall_singleton. split_and!; [done|unfold DICT_BLOCK, POSTING_BLOCK; simpl; lia|apply three_terms_ok].
  - apply three_terms_ok.
Qed.

End witnesses.
