(* ===== verification/StrOps.v ===== *)
(** * Strings by byte offset

    The operations of [str] the lexers use: byte offsets, slices (which panic
    off a character boundary), searches and trimming. *)
From S2P Require Import Prelude Text.
From Stdlib Require Import Ascii.

(** Code that cannot fail but may panic. *)
Definition tk (A : Type) : Type := outcome Empty_set A.
#[global] Instance tk_mret : MRet tk := λ A a, Ok a.
#[global] Instance tk_mbind : MBind tk := λ A B f m, outcome_bind f m.

Definition len_utf8 (c : Z) : nat := length (utf8_char c).

(** [s.split_at(n)]: [None] off a character boundary or past the end. *)
Fixpoint split_at (n : nat) (s : str) : option (str * str) :=
  match n with
  | O => Some ([], s)
  | _ =>
      match s with
      | [] => None
      | c :: s =>
          if (len_utf8 c <=? n)%nat
          then '(a, b) ← split_at (n - len_utf8 c) s; Some (c :: a, b)
          else None
      end
  end.

(** [&s[n..]], [&s[..n]] and [&s[a..b]]. *)
Definition slice_from (s : str) (n : nat) : tk str := unwrap (snd <$> split_at n s).
Definition slice_to (s : str) (n : nat) : tk str := unwrap (fst <$> split_at n s).
Definition slice_range (s : str) (a b : nat) : tk str :=
  if (a <=? b)%nat then t ← slice_to s b; slice_from t a else Panic.

(** [s.char_indices()]. *)
Fixpoint char_indices_from (n : nat) (s : str) : list (nat * Z) :=
  match s with
  | [] => []
  | c :: s => (n, c) :: char_indices_from (n + len_utf8 c) s
  end.
Definition char_indices (s : str) : list (nat * Z) := char_indices_from 0 s.

(** [s.find(|c| ..)] and [s.find("..")]: byte offsets. *)
Fixpoint find_char (p : Z → bool) (s : str) : option nat :=
  match s with
  | [] => None
  | c :: s => if p c then Some O else Nat.add (len_utf8 c) <$> find_char p s
  end.
Fixpoint find_str (pat s : str) : option nat :=
  if starts_with s pat then Some O else
  match s with
  | [] => None
  | c :: s => Nat.add (len_utf8 c) <$> find_str pat s
  end.

(** [s.trim_start_matches(p)], [s.trim_end_matches(p)]. *)
Fixpoint trim_start_matches (p : Z → bool) (s : str) : str :=
  match s with
  | [] => []
  | c :: t => if p c then trim_start_matches p t else s
  end.
Definition trim_end_matches (p : Z → bool) (s : str) : str :=
  reverse (trim_start_matches p (reverse s)).

(** [s.split_inclusive('\n')]: the pieces end after each line feed. *)
Fixpoint split_inclusive (s : str) : list str :=
  match s with
  | [] => []
  | c :: s =>
      if c =? 10 then [c] :: split_inclusive s
      else match split_inclusive s with
           | [] => [[c]]
           | l :: ls => (c :: l) :: ls
           end
  end.

(** [c.is_whitespace()]: the Unicode [White_Space] property. *)
Definition is_whitespace (c : Z) : bool :=
  ((9 <=? c) && (c <=? 13)) || (c =? 32) || (c =? 0x85) || (c =? 0xA0) || (c =? 0x1680) ||
  ((0x2000 <=? c) && (c <=? 0x200A)) || (c =? 0x2028) || (c =? 0x2029) || (c =? 0x202F) ||
  (c =? 0x205F) || (c =? 0x3000).

Definition is_ascii_lower (c : Z) : bool := (97 <=? c) && (c <=? 122).
Definition is_ascii_upper (c : Z) : bool := (65 <=? c) && (c <=? 90).
Definition is_ascii_alphabetic (c : Z) : bool := is_ascii_lower c || is_ascii_upper c.
Definition is_ascii_alphanumeric (c : Z) : bool := is_ascii_alphabetic c || is_ascii_digit c.

(** [s.to_ascii_uppercase()]. *)
Definition char_upper (c : Z) : Z := if is_ascii_lower c then c - 32 else c.
Definition to_ascii_uppercase (s : str) : str := char_upper <$> s.

(** Membership in a literal set of characters: ["..".contains(c)]. *)
Definition in_set (set : str) (c : Z) : bool := existsb (Z.eqb c) set.

(** [haystack.windows(n).position(|w| w == pat)]. *)
Fixpoint window_position (pat b : list Z) : option nat :=
  if bool_decide (is_Some (strip_prefix pat b)) then Some O else
  match b with
  | [] => None
  | _ :: b => S <$> window_position pat b
  end.

(** [b[n..]] on bytes. *)
Definition bytes_from (b : list Z) (n : nat) : tk (list Z) :=
  if (n <=? length b)%nat then Ok (drop n b) else Panic.

(** ASCII characters by name. *)
Definition chr (a : Ascii.ascii) : Z := Z.of_N (Ascii.N_of_ascii a).
#[global] Arguments chr a%_char.
Definition DQ : Z := 34.
Definition SQ : Z := 39.
Definition BT : Z := 96.
Definition BS : Z := 92.
Definition LF : Z := 10.
Definition CR : Z := 13.
Definition TAB : Z := 9.
Definition BOM : Z := 0xFEFF.

(** ** Facts about strings by byte offset *)

Lemma tk_ends_bind {A B} (P : A → Prop) (Q : B → Prop) (m : tk A) (f : A → tk B) :
  ends P m → (∀ a, P a → ends Q (f a)) → ends Q (m ≫= f).
Proof. apply ends_bind. Qed.

(** [returns m Q]: [m] returns, without a panic, a value satisfying [Q]. For
    code that has no error this is total correctness. *)
Definition returns {A} (m : tk A) (Q : A → Prop) : Prop := ∃ a, m = Ok a ∧ Q a.

Lemma returns_Ok {A} (a : A) (Q : A → Prop) : Q a → returns (Ok a) Q.
Proof. by exists a. Qed.
Lemma returns_bind {A B} (m : tk A) (f : A → tk B) P Q :
  returns m P → (∀ a, P a → returns (f a) Q) → returns (m ≫= f) Q.
Proof. intros (a & -> & Ha) Hf. by apply Hf. Qed.
Lemma tk_bind_Ok {A B} (a : A) (f : A → tk B) : (Ok a : tk A) ≫= f = f a.
Proof. done. Qed.
Lemma returns_weaken {A} (m : tk A) (P Q : A → Prop) :
  returns m P → (∀ a, P a → Q a) → returns m Q.
Proof. intros (a & -> & Ha) H. exists a. auto. Qed.

(** ** Byte lengths and boundaries *)

Lemma str_len_app a b : str_len (a ++ b) = (str_len a + str_len b)%nat.
Proof. unfold str_len, as_bytes. by rewrite bind_app, length_app. Qed.
Lemma str_len_cons c s : str_len (c :: s) = (len_utf8 c + str_len s)%nat.
Proof. unfold str_len, as_bytes, len_utf8. cbn [mbind list_bind]. by rewrite length_app. Qed.
Lemma str_len_nil : str_len [] = 0%nat.
Proof. done. Qed.
Lemma len_utf8_pos c : (0 < len_utf8 c)%nat.
Proof. apply utf8_char_nonempty. Qed.
Lemma str_len_pos s : s ≠ [] → (0 < str_len s)%nat.
Proof. destruct s as [|c s]; [done|]. rewrite str_len_cons. pose proof (len_utf8_pos c). lia. Qed.
Lemma str_len_0 s : str_len s = 0%nat → s = [].
Proof. destruct s; [done|]. intros H. pose proof (str_len_pos (z :: s) ltac:(done)). lia. Qed.

Definition ascii_char (c : Z) : Prop := 0 ≤ c < 128.
#[global] Instance ascii_char_dec c : Decision (ascii_char c).
Proof. unfold ascii_char. apply _. Defined.
Lemma len_utf8_ascii c : ascii_char c → len_utf8 c = 1%nat.
Proof. intros [_ Hc]. unfold len_utf8, utf8_char. by rewrite (proj2 (Z.ltb_lt c 0x80)). Qed.
Lemma str_len_ascii s : Forall ascii_char s → str_len s = length s.
Proof.
  induction 1 as [|c s Hc _ IH]; [done|]. rewrite str_len_cons, IH, len_utf8_ascii by done. done.
Qed.

Lemma split_at_app a b : split_at (str_len a) (a ++ b) = Some (a, b).
Proof.
  induction a as [|c a IH]; [by destruct b|]. rewrite str_len_cons. cbn [app].
  pose proof (len_utf8_pos c). destruct (len_utf8 c + str_len a)%nat as [|n] eqn:E; [lia|].
  cbn [split_at]. rewrite <- E. rewrite (proj2 (Nat.leb_le _ _)) by lia.
  replace (len_utf8 c + str_len a - len_utf8 c)%nat with (str_len a) by lia. by rewrite IH.
Qed.

Lemma slice_from_app a b n : n = str_len a → slice_from (a ++ b) n = Ok b.
Proof. intros ->. unfold slice_from. by rewrite split_at_app. Qed.
Lemma slice_to_app a b n : n = str_len a → slice_to (a ++ b) n = Ok a.
Proof. intros ->. unfold slice_to. by rewrite split_at_app. Qed.
Lemma slice_range_app a m b i j :
  i = str_len a → j = (str_len a + str_len m)%nat → slice_range (a ++ m ++ b) i j = Ok m.
Proof.
  intros -> ->. unfold slice_range. rewrite (proj2 (Nat.leb_le _ _)) by lia.
  rewrite app_assoc, (slice_to_app (a ++ m)) by by rewrite str_len_app.
  cbn. by rewrite slice_from_app.
Qed.

(** [isb s n]: [n] is a character boundary of [s]. *)
Definition isb (s : str) (n : nat) : Prop := ∃ a b, s = a ++ b ∧ str_len a = n.

Lemma isb_0 s : isb s 0.
Proof. by exists [], s. Qed.
Lemma isb_len s : isb s (str_len s).
Proof. exists s, []. by rewrite app_nil_r. Qed.
Lemma isb_le s n : isb s n → (n ≤ str_len s)%nat.
Proof. intros (a & b & -> & <-). rewrite str_len_app. lia. Qed.
Lemma isb_app_l a b n : isb a n → isb (a ++ b) n.
Proof. intros (x & y & -> & <-). exists x, (y ++ b). by rewrite app_assoc. Qed.
Lemma isb_app_r a b n : isb b n → isb (a ++ b) (str_len a + n).
Proof. intros (x & y & -> & <-). exists (a ++ x), y. by rewrite <- app_assoc, str_len_app. Qed.
Lemma isb_prefix a b : isb (a ++ b) (str_len a).
Proof. by exists a, b. Qed.

(** Two boundaries cut a string in three. *)
Lemma app_len_split a b x y :
  a ++ b = x ++ y → (str_len a ≤ str_len x)%nat → ∃ m, x = a ++ m ∧ b = m ++ y.
Proof.
  revert x. induction a as [|c a IH]; intros x Heq Hl.
  { exists x. by simpl in Heq. }
  destruct x as [|d x].
  { rewrite str_len_cons in Hl. pose proof (len_utf8_pos c). simpl in Hl.
    unfold str_len at 2 in Hl. simpl in Hl. lia. }
  simpl in Heq. injection Heq as <- Heq. rewrite !str_len_cons in Hl.
  destruct (IH x Heq) as (m & -> & ->); [lia|]. by exists m.
Qed.

Lemma app_len_eq a b x y : a ++ b = x ++ y → str_len a = str_len x → a = x ∧ b = y.
Proof.
  intros Heq Hl. destruct (app_len_split a b x y Heq) as (m & -> & ->); [lia|].
  rewrite str_len_app in Hl. rewrite (str_len_0 m) by lia. by rewrite app_nil_r.
Qed.

Lemma isb_split s n k :
  isb s n → isb s k → (n ≤ k)%nat →
  ∃ a m b, s = a ++ m ++ b ∧ str_len a = n ∧ (str_len a + str_len m)%nat = k.
Proof.
  intros (a & b & -> & <-) (x & y & Heq & <-) Hle.
  destruct (app_len_split a b x y Heq Hle) as (m & -> & ->).
  exists a, m, y. by rewrite str_len_app.
Qed.

(** ** Searching *)

Lemma find_char_Some p s n :
  find_char p s = Some n →
  ∃ a c b, s = a ++ c :: b ∧ str_len a = n ∧ p c = true ∧ Forall (λ x, p x = false) a.
Proof.
  revert n. induction s as [|c s IH]; intros n; [done|]. simpl. destruct (p c) eqn:E.
  - intros [= <-]. exists [], c, s. by split_and!; [..|constructor].
  - intros (k & Hk & ->)%fmap_Some. destruct (IH k Hk) as (a & d & b & -> & <- & Hd & Ha).
    exists (c :: a), d, b. rewrite str_len_cons. split_and!; try done. by constructor.
Qed.

Lemma find_char_None p s : find_char p s = None → Forall (λ x, p x = false) s.
Proof.
  induction s as [|c s IH]; [constructor|]. simpl. destruct (p c) eqn:E; [done|].
  intros H%fmap_None. constructor; auto.
Qed.

(** [s.find(p).unwrap_or(s.len())]: the longest prefix without a hit. *)
Lemma find_char_or p s :
  ∃ a b, s = a ++ b ∧ default (str_len s) (find_char p s) = str_len a ∧
    Forall (λ x, p x = false) a ∧ (∀ c, head b = Some c → p c = true).
Proof.
  destruct (find_char p s) as [n|] eqn:E.
  - apply find_char_Some in E as (a & c & b & -> & <- & Hc & Ha). exists a, (c :: b).
    split_and!; try done. by intros ? [= <-].
  - exists s, []. rewrite app_nil_r. split_and!; try done. by apply find_char_None.
Qed.

(** The first line of [s], without its line feed. *)
Lemma find_lf_or s :
  ∃ a b, s = a ++ b ∧ default (str_len s) (find_char (Z.eqb LF) s) = str_len a ∧
    (LF ∉ a) ∧ (b = [] ∨ ∃ b', b = LF :: b').
Proof.
  destruct (find_char_or (Z.eqb LF) s) as (a & b & -> & -> & Ha & Hb). exists a, b.
  split_and!; try done.
  - intros Hin. rewrite Forall_forall in Ha. by specialize (Ha LF Hin).
  - destruct b as [|c b]; [by left|right]. specialize (Hb c eq_refl).
    apply Z.eqb_eq in Hb as <-. by exists b.
Qed.

Lemma find_str_Some pat s n :
  find_str pat s = Some n → ∃ a b, s = a ++ pat ++ b ∧ str_len a = n.
Proof.
  revert n. induction s as [|c s IH]; intros n; simpl.
  - destruct (starts_with [] pat) eqn:E; [|done]. intros [= <-].
    apply starts_with_spec in E as [r Hr]. exists [], r. by split.
  - destruct (starts_with (c :: s) pat) eqn:E.
    + intros [= <-]. apply starts_with_spec in E as [r Hr]. exists [], r. by split.
    + intros (k & Hk & ->)%fmap_Some. destruct (IH k Hk) as (a & b & -> & <-).
      exists (c :: a), b. by rewrite str_len_cons.
Qed.

Lemma trim_start_split p s :
  ∃ a, s = a ++ trim_start_matches p s ∧ Forall (λ c, p c = true) a ∧
    (∀ c, head (trim_start_matches p s) = Some c → p c = false).
Proof.
  induction s as [|c s (a & Hs & Ha & Hh)]; simpl; [by exists []; split_and!; [|constructor|]|].
  destruct (p c) eqn:E.
  - exists (c :: a). split_and!; [by simpl; f_equal|by constructor|done].
  - exists []. split_and!; [done|constructor|]. by intros ? [= <-].
Qed.

Lemma trim_end_split p s :
  ∃ b, s = trim_end_matches p s ++ b ∧ Forall (λ c, p c = true) b ∧
    (∀ c, last (trim_end_matches p s) = Some c → p c = false).
Proof.
  unfold trim_end_matches. destruct (trim_start_split p (reverse s)) as (a & Hs & Ha & Hh).
  exists (reverse a). split_and!.
  - rewrite <- reverse_app, <- Hs. by rewrite reverse_involutive.
  - by apply Forall_reverse.
  - intros c. rewrite last_reverse. apply Hh.
Qed.

Lemma char_indices_from_lookup n s i p c :
  char_indices_from n s !! i = Some (p, c) →
  ∃ a b, s = a ++ c :: b ∧ p = (n + str_len a)%nat ∧ length a = i.
Proof.
  revert n i. induction s as [|d s IH]; intros n i; [done|]. destruct i as [|i]; simpl.
  - intros [= <- <-]. exists [], s. split_and!; [done|rewrite str_len_nil; lia|done].
  - intros H%IH. destruct H as (a & b & -> & -> & <-). exists (d :: a), b.
    rewrite str_len_cons. split_and!; [done|lia|done].
Qed.

Lemma char_indices_elem s k p c :
  (p, c) ∈ drop k (char_indices s) →
  ∃ a b, s = a ++ c :: b ∧ p = str_len a ∧ (k ≤ length a)%nat.
Proof.
  intros [i Hi]%list_elem_of_lookup. rewrite lookup_drop in Hi.
  apply char_indices_from_lookup in Hi as (a & b & -> & -> & Hk).
  exists a, b. split_and!; [done|done|lia].
Qed.

(** ** Bytes *)

Lemma utf8_char_nonascii c b : scalar c → ¬ ascii_char c → b ∈ utf8_char c → 128 ≤ b.
Proof.
  unfold scalar, ascii_char, utf8_char. intros Hc Hn.
  assert (∀ x y, 0 < y → 0 ≤ x mod y) as Hm by (intros; apply Z.mod_pos_bound; lia).
  assert (∀ x y, 0 < y → 0 ≤ x → 0 ≤ x / y) as Hd by (intros; apply Z.div_pos; lia).
  repeat case_if; set_unfold; intros; try lia;
    pose proof (Hm c 64); pose proof (Hd c 64); pose proof (Hd c 4096); pose proof (Hd c 262144);
    pose proof (Hm (c / 64) 64); pose proof (Hm (c / 4096) 64); lia.
Qed.

(** An ASCII byte is a whole character. *)
Lemma ascii_boundary s p x :
  valid_str s → as_bytes s !! p = Some x → x < 128 →
  ∃ a b, s = a ++ x :: b ∧ str_len a = p.
Proof.
  intros Hv. revert p. induction Hv as [|c s Hc Hv IH]; intros p; [done|].
  change (as_bytes (c :: s)) with (utf8_char c ++ as_bytes s). intros Hp Hx.
  destruct (decide (ascii_char c)) as [Ha|Ha].
  - assert (utf8_char c = [c]) as Heq.
    { unfold utf8_char. by rewrite (proj2 (Z.ltb_lt c 0x80)) by apply Ha. }
    rewrite Heq in Hp. destruct p as [|p]; simpl in Hp.
    + injection Hp as ->. by exists [], s.
    + destruct (IH p Hp Hx) as (a & b & -> & <-). exists (c :: a), b.
      by rewrite str_len_cons, len_utf8_ascii.
  - destruct (decide (p < length (utf8_char c))%nat) as [Hlt|Hge].
    + rewrite lookup_app_l in Hp by done. apply list_elem_of_lookup_2 in Hp.
      pose proof (utf8_char_nonascii c x Hc Ha Hp). lia.
    + rewrite lookup_app_r in Hp by lia. destruct (IH _ Hp Hx) as (a & b & -> & Hl).
      exists (c :: a), b. rewrite str_len_cons. split; [done|]. unfold len_utf8. lia.
Qed.

Lemma ascii_boundary_after s p x :
  valid_str s → as_bytes s !! p = Some x → ascii_char x → isb s (p + 1).
Proof.
  intros Hv Hp Hx. destruct (ascii_boundary s p x Hv Hp) as (a & b & -> & <-); [apply Hx|].
  exists (a ++ [x]), b. rewrite <- app_assoc, str_len_app, str_len_cons, len_utf8_ascii by done.
  split; [done|]. rewrite str_len_nil. lia.
Qed.

(** ** Lines *)

Lemma concat_split_inclusive s : concat (split_inclusive s) = s.
Proof.
  induction s as [|c s IH]; [done|]. cbn [split_inclusive]. case_match; [by simpl; f_equal|].
  destruct (split_inclusive s) as [|l ls]; simpl in *; by rewrite <- IH.
Qed.

Lemma split_inclusive_nonempty s ls : split_inclusive s ≠ [] :: ls.
Proof.
  destruct s as [|c s]; [done|]. cbn [split_inclusive]. case_match; [done|].
  by destruct (split_inclusive s).
Qed.

(** A cut between two pieces is the start of a line. *)
Lemma split_inclusive_cut s l1 l2 :
  split_inclusive s = l1 ++ l2 → l2 ≠ [] → concat l1 = [] ∨ last (concat l1) = Some LF.
Proof.
  revert l1. induction s as [|c s IH]; intros l1; cbn [split_inclusive].
  { by destruct l1, l2. }
  destruct (c =? 10) eqn:E.
  - destruct l1 as [|l l1]; [by left|]. cbn [app]. intros [= <- Heq] Hl2. right. apply Z.eqb_eq in E as ->.
    destruct (IH l1 Heq Hl2) as [Hn|Hn]; cbn [concat]; [by rewrite Hn|].
    by rewrite last_app, Hn.
  - destruct (split_inclusive s) as [|l ls] eqn:Es; (destruct l1 as [|l' l1]; [by left|]); cbn [app].
    + intros [= _ Heq] ?. by destruct l1, l2.
    + intros [= <- Heq] Hl2. right. destruct (IH (l :: l1)) as [Hn|Hn]; [by rewrite Heq|done|..].
      * exfalso. simpl in Hn. apply app_nil in Hn as [-> _].
        by apply split_inclusive_nonempty in Es.
      * cbn [concat] in Hn |- *. cbn [app]. by rewrite last_cons, Hn.
Qed.
