(* ===== verification/Tokenizer.v ===== *)
(** * The tokenizer: definitions

    [graph-core/src/tokenizer.rs]: the language-agnostic lexer with its
    dialect switches. Offsets are byte offsets; a slice off a character
    boundary, an index out of range or an [unwrap] of nothing is a [Panic].
    The Unicode tables behind [char::is_alphabetic] and [char::is_numeric]
    are parameters. *)
From Stdlib Require Import Ascii.
From S2P Require Import Prelude Text Schema StrOps.

Definition TOKENIZER_VERSION : Z := 1.
Definition OPERATOR_CHARS : str := lit "+-*/%=<>!&|^~?@".

Inductive FixedLayout : Set := Cobol | Rpg.
#[global] Instance FixedLayout_eq_dec : EqDecision FixedLayout.
Proof. solve_decision. Defined.

Record TokenizerOptions : Set := mkOptions {
  rust_literals : bool;
  single_quote_strings : bool;
  csharp_strings : bool;
  markup : bool;
  aspx : bool;
  regex_literals : bool;
  no_line_slash_comments : bool;
  no_block_slash_comments : bool;
  hash_comments : bool;
  hash_comments_line_start_only : bool;
  dash_comments : bool;
  haskell_block_comments : bool;
  ml_block_comments : bool;
  semicolon_comments : bool;
  triple_quote_strings : bool;
  triple_quote_raw : bool;
  doubled_single_quotes : bool;
  prime_idents : bool;
  raw_backtick_strings : bool;
  sql_strings : bool;
  shell_words : bool;
  hyphen_idents : bool;
  fixed_columns : option FixedLayout;
  python_string_prefixes : bool;
  r_raw_strings : bool;
  sql_hash_comments : bool;
  rpg_compile_time_data : bool;
}.

Definition DEFAULT : TokenizerOptions :=
  mkOptions false false false false false false false false false false false false false
    false false false false false false false false false None false false false false.

(** The named dialects are written [Self { x: true, .., ..Self::DEFAULT }];
    here as the list of the switches that are on. *)
Inductive Flag : Set :=
  | F_rust_literals
  | F_single_quote_strings
  | F_csharp_strings
  | F_markup
  | F_aspx
  | F_regex_literals
  | F_no_line_slash_comments
  | F_no_block_slash_comments
  | F_hash_comments
  | F_hash_comments_line_start_only
  | F_dash_comments
  | F_haskell_block_comments
  | F_ml_block_comments
  | F_semicolon_comments
  | F_triple_quote_strings
  | F_triple_quote_raw
  | F_doubled_single_quotes
  | F_prime_idents
  | F_raw_backtick_strings
  | F_sql_strings
  | F_shell_words
  | F_hyphen_idents
  | F_python_string_prefixes
  | F_r_raw_strings
  | F_sql_hash_comments
  | F_rpg_compile_time_data.
#[global] Instance Flag_eq_dec : EqDecision Flag.
Proof. solve_decision. Defined.

Definition dialect (on : list Flag) (layout : option FixedLayout) : TokenizerOptions :=
  let has f := bool_decide (f ∈ on) in
  mkOptions
    (has F_rust_literals) (has F_single_quote_strings) (has F_csharp_strings)
    (has F_markup) (has F_aspx) (has F_regex_literals)
    (has F_no_line_slash_comments) (has F_no_block_slash_comments) (has F_hash_comments)
    (has F_hash_comments_line_start_only) (has F_dash_comments) (has F_haskell_block_comments)
    (has F_ml_block_comments) (has F_semicolon_comments) (has F_triple_quote_strings)
    (has F_triple_quote_raw) (has F_doubled_single_quotes) (has F_prime_idents)
    (has F_raw_backtick_strings) (has F_sql_strings) (has F_shell_words)
    (has F_hyphen_idents) layout (has F_python_string_prefixes)
    (has F_r_raw_strings) (has F_sql_hash_comments) (has F_rpg_compile_time_data).

Definition RUST : TokenizerOptions :=
  dialect [F_rust_literals] None.
Definition CSHARP : TokenizerOptions :=
  dialect [F_csharp_strings] None.
Definition JAVASCRIPT : TokenizerOptions :=
  dialect [F_single_quote_strings; F_regex_literals] None.
Definition TYPESCRIPT : TokenizerOptions := JAVASCRIPT.
Definition HTML : TokenizerOptions :=
  dialect [F_markup] None.
Definition ASPX : TokenizerOptions :=
  dialect [F_csharp_strings; F_markup; F_aspx] None.
Definition C : TokenizerOptions := DEFAULT.
Definition CPP : TokenizerOptions := DEFAULT.
Definition JAVA : TokenizerOptions :=
  dialect [F_triple_quote_strings] None.
Definition GO : TokenizerOptions :=
  dialect [F_raw_backtick_strings] None.
Definition SCALA : TokenizerOptions :=
  dialect [F_triple_quote_strings; F_triple_quote_raw] None.
Definition PYTHON : TokenizerOptions :=
  dialect [F_single_quote_strings; F_no_line_slash_comments; F_no_block_slash_comments;
    F_hash_comments; F_triple_quote_strings; F_python_string_prefixes] None.
Definition GDSCRIPT : TokenizerOptions := PYTHON.
Definition SHELL : TokenizerOptions :=
  dialect [F_no_line_slash_comments; F_no_block_slash_comments; F_hash_comments; F_shell_words]
    None.
Definition R : TokenizerOptions :=
  dialect [F_single_quote_strings; F_no_line_slash_comments; F_no_block_slash_comments;
    F_hash_comments; F_raw_backtick_strings; F_r_raw_strings] None.
Definition SQL : TokenizerOptions :=
  dialect [F_no_line_slash_comments; F_dash_comments; F_sql_strings; F_sql_hash_comments] None.
Definition HASKELL : TokenizerOptions :=
  dialect [F_prime_idents; F_no_line_slash_comments; F_no_block_slash_comments; F_dash_comments;
    F_haskell_block_comments] None.
Definition FSHARP : TokenizerOptions :=
  dialect [F_no_block_slash_comments; F_ml_block_comments; F_triple_quote_strings;
    F_triple_quote_raw; F_prime_idents] None.
Definition ELIXIR : TokenizerOptions :=
  dialect [F_single_quote_strings; F_no_line_slash_comments; F_no_block_slash_comments;
    F_hash_comments; F_triple_quote_strings] None.
Definition ASM : TokenizerOptions :=
  dialect [F_doubled_single_quotes; F_hash_comments; F_hash_comments_line_start_only;
    F_semicolon_comments] None.
Definition COBOL : TokenizerOptions :=
  dialect [F_doubled_single_quotes; F_no_line_slash_comments; F_no_block_slash_comments;
    F_hyphen_idents] (Some Cobol).
Definition RPG : TokenizerOptions :=
  dialect [F_doubled_single_quotes; F_no_block_slash_comments; F_hyphen_idents;
    F_rpg_compile_time_data] (Some Rpg).

(** ** Length functions *)

Definition is_gap (c : Z) : bool := is_whitespace c || (c =? BOM).

(** Length of [rest] up to its line break. *)
Definition line_len (rest : str) : tk nat :=
  let line := default (str_len rest) (find_char (Z.eqb LF) rest) in
  h ← slice_to rest line;
  Ok (if ends_with h [CR] && (1 <? line)%nat then (line - 1)%nat else line).

(** The [while p < rest.len()] loop of [nested_len]; every round moves [p]. *)
Fixpoint nested_loop (fuel : nat) (rest open close : str) (depth : Z) (p : nat) : tk nat :=
  if (p <? str_len rest)%nat then
    match fuel with
    | O => Panic
    | S fuel =>
        r ← slice_from rest p;
        if starts_with r open then nested_loop fuel rest open close (depth + 1) (p + str_len open)
        else if starts_with r close then
          let depth := as_u64 (depth - 1) in
          let p := (p + str_len close)%nat in
          if depth =? 0 then Ok p else nested_loop fuel rest open close depth p
        else
          c ← unwrap (head r);
          nested_loop fuel rest open close depth (p + len_utf8 c)
    end
  else Ok (str_len rest).
Definition nested_len (rest open close : str) : tk nat :=
  nested_loop (str_len rest) rest open close 0 0.

Fixpoint triple_loop (rest q : str) (raw esc : bool) (cis : list (nat * Z)) : tk (option nat) :=
  match cis with
  | [] => Ok (Some (str_len rest))
  | (p, ch) :: cis =>
      if esc then triple_loop rest q raw false cis
      else if (ch =? BS) && negb raw then triple_loop rest q raw true cis
      else
        r ← slice_from rest p;
        if starts_with r q then Ok (Some (p + 3)%nat) else triple_loop rest q raw false cis
  end.
Definition triple_quoted_len (rest : str) (raw : bool) : tk (option nat) :=
  match list_find (λ q, starts_with rest q = true) [[DQ; DQ; DQ]; [SQ; SQ; SQ]] with
  | None => Ok None
  | Some (_, q) => triple_loop rest q raw false (drop 3 (char_indices rest))
  end.

(** The byte loop of [doubled_len] and of the verbatim C# strings. *)
Fixpoint doubled_loop (fuel : nat) (b : list Z) (q : Z) (p : nat) : tk nat :=
  if (p <? length b)%nat then
    match fuel with
    | O => Panic
    | S fuel =>
        x ← index b p;
        if x =? q then
          if bool_decide (b !! S p = Some q) then doubled_loop fuel b q (p + 2)
          else Ok (p + 1)%nat
        else doubled_loop fuel b q (p + 1)
    end
  else Ok (length b).
Definition doubled_len (rest : str) : tk nat :=
  let b := as_bytes rest in
  q ← index b 0;
  doubled_loop (length b) b q 1.

Fixpoint brace_loop (depth : Z) (cis : list (nat * Z)) : option nat :=
  match cis with
  | [] => None
  | (p, ch) :: cis =>
      if ch =? LF then None
      else if ch =? chr "{" then brace_loop (depth + 1) cis
      else if ch =? chr "}" then
        let depth := as_u64 (depth - 1) in
        if depth =? 0 then Some (p + 1)%nat else brace_loop depth cis
      else brace_loop depth cis
  end.

Definition word_char (ch : Z) : bool := is_ascii_alphanumeric ch || (ch =? chr "_").

Definition shell_var_len (rest : str) : tk (option nat) :=
  r1 ← slice_from rest 1;
  match head r1 with
  | None => Ok None
  | Some c =>
      if c =? chr "{" then Ok (brace_loop 0 (drop 1 (char_indices rest)))
      else if is_ascii_alphabetic c || (c =? chr "_") then
        Ok (Some (1 + default (str_len rest - 1) (find_char (λ ch, negb (word_char ch)) r1))%nat)
      else if is_ascii_digit c || in_set (lit "@*#?$!-") c then Ok (Some 2%nat)
      else Ok None
  end.

Definition heredoc_word (word : str) (p : nat) (strip : bool) : tk (option (nat * str * bool)) :=
  let '(skip, word) :=
    match strip_prefix [BS] word with Some w => (1%nat, w) | None => (0%nat, word) end in
  if match head word with Some c => is_ascii_alphabetic c || (c =? chr "_") | None => false end then
    let n := default (str_len word) (find_char (λ c, negb (word_char c)) word) in
    d ← slice_to word n;
    Ok (Some ((p + skip + n)%nat, d, strip))
  else Ok None.

Definition heredoc_marker (rest : str) : tk (option (nat * str * bool)) :=
  match strip_prefix (lit "<<") rest with
  | None => Ok None
  | Some after =>
      if starts_with after (lit "<") then Ok None else
      let strip := starts_with after (lit "-") in
      let p := (2 + (if strip then 1 else 0))%nat in
      r ← slice_from rest p;
      let p := (p + default (str_len rest - p)
                  (find_char (λ c, negb (c =? chr " ")%Z && negb (c =? TAB)%Z) r))%nat in
      word ← slice_from rest p;
      match head word with
      | None => Ok None
      | Some q =>
          if (q =? SQ) || (q =? DQ) then
            ll ← line_len word;
            inner ← slice_range word 1 ll;
            match find_char (Z.eqb q) inner with
            | None => Ok None
            | Some close =>
                delim ← slice_range word 1 (1 + close);
                Ok (if bool_decide (delim = []) then None
                    else Some ((p + close + 2)%nat, delim, strip))
            end
          else heredoc_word word p strip
      end
  end.

Fixpoint quoted_loop (len : nat) (q : Z) (esc : bool) (cis : list (nat * Z)) : nat :=
  match cis with
  | [] => len
  | (p, ch) :: cis =>
      if esc then quoted_loop len q false cis
      else if ch =? BS then quoted_loop len q true cis
      else if ch =? q then (p + len_utf8 ch)%nat
      else quoted_loop len q false cis
  end.
Definition quoted_len (rest : str) (q : Z) : nat :=
  quoted_loop (str_len rest) q false (drop 1 (char_indices rest)).

Definition single_quoted_len (rest : str) : tk nat :=
  ll ← line_len rest;
  r ← slice_to rest ll;
  Ok (quoted_len r SQ).

Fixpoint attr_loop (rest : str) (q : Z) (aspx : bool) (cis : list (nat * Z)) : tk (nat * bool) :=
  match cis with
  | [] => Ok (str_len rest, false)
  | (p, ch) :: cis =>
      if ch =? q then Ok ((p + 1)%nat, true)
      else
        stop ← (if aspx then r ← slice_from rest p; Ok (starts_with r (lit "<%")) else Ok false);
        if stop : bool then Ok (p, false) else attr_loop rest q aspx cis
  end.
Definition attr_value_len (rest : str) (q : Z) (from : nat) (aspx : bool) : tk (nat * bool) :=
  attr_loop rest q aspx (drop from (char_indices rest)).

Definition csharp_prefixes : list str :=
  [lit "$@" ++ [DQ]; lit "@$" ++ [DQ]; lit "@" ++ [DQ]; lit "$" ++ [DQ]].

Definition csharp_literal_len (rest : str) : tk (option nat) :=
  match list_find (λ p, starts_with rest p = true) csharp_prefixes with
  | None => Ok None
  | Some (_, prefix) =>
      let open := (str_len prefix - 1)%nat in
      if negb (contains prefix (lit "@")) then
        r ← slice_from rest open; Ok (Some (open + quoted_len r DQ)%nat)
      else
        let b := as_bytes rest in
        n ← doubled_loop (length b) b DQ (open + 1); Ok (Some n)
  end.

Definition PYTHON_PREFIXES : list str :=
  [lit "r"; lit "u"; lit "b"; lit "f"; lit "t"; lit "br"; lit "rb"; lit "fr"; lit "rf";
   lit "tr"; lit "rt"].

Definition python_prefixed_len (rest : str) (sq : bool) : tk (option nat) :=
  let p := default (str_len rest) (find_char (λ c, negb (is_ascii_alphabetic c)) rest) in
  pre ← slice_to rest p;
  if negb (bool_decide (to_ascii_lowercase pre ∈ PYTHON_PREFIXES)) then Ok None else
  q ← slice_from rest p;
  t ← triple_quoted_len q false;
  match t with
  | Some n => Ok (Some (p + n)%nat)
  | None =>
      if starts_with q [DQ] then Ok (Some (p + quoted_len q DQ)%nat)
      else if starts_with q [SQ] && sq then n ← single_quoted_len q; Ok (Some (p + n)%nat)
      else Ok None
  end.

(** [iter().take_while(|&&c| c == x).count()]. *)
Fixpoint count_while (x : Z) (b : list Z) : nat :=
  match b with
  | c :: b => if c =? x then S (count_while x b) else 0
  | [] => 0
  end.

(** [Result<Option<usize>, ()>]: [None] is the [Err]. *)
Definition r_raw_len (rest : str) : tk (option (option nat)) :=
  let b := as_bytes rest in
  b0 ← index b 0;
  if negb ((b0 =? chr "r") || (b0 =? chr "R")) then Ok (Some None) else
  match b !! 1%nat with
  | None => Ok (Some None)
  | Some q =>
      if negb (q =? DQ) && negb (q =? SQ) then Ok (Some None) else
      t ← bytes_from b 2;
      let dashes := count_while (chr "-") t in
      match b !! (2 + dashes)%nat with
      | None => Ok (Some None)
      | Some o =>
          match (if o =? chr "(" then Some (chr ")")
                 else if o =? chr "[" then Some (chr "]")
                 else if o =? chr "{" then Some (chr "}") else None) with
          | None => Ok (Some None)
          | Some close =>
              let term := [close] ++ replicate dashes (chr "-") ++ [q] in
              let body := (3 + dashes)%nat in
              bb ← bytes_from b body;
              Ok (match window_position term bb with
                  | Some p => Some (Some (body + p + length term)%nat)
                  | None => None
                  end)
          end
      end
  end.

Definition SHELL_NEST_MAX : nat := 64.

(** The two scanners of nested shell quotes. Every step moves [p] forward, so
    the length of the input is enough fuel. *)
Fixpoint shell_dq_end (fuel : nat) (b : list Z) (p depth : nat) (subst : bool)
    : tk (option (nat * bool)) :=
  if (SHELL_NEST_MAX <? depth)%nat then Ok None else
  if (p <? length b)%nat then
    match fuel with
    | O => Panic
    | S fuel =>
        x ← index b p;
        if x =? BS then shell_dq_end fuel b (p + 2) depth subst
        else if x =? DQ then Ok (Some ((p + 1)%nat, subst))
        else if (x =? chr "$") && bool_decide (b !! S p = Some (chr "(")) then
          e ← shell_subst_end fuel b (p + 2) (depth + 1) 1;
          match e with
          | None => Ok None
          | Some p => shell_dq_end fuel b p depth true
          end
        else shell_dq_end fuel b (p + 1) depth subst
    end
  else Ok None
with shell_subst_end (fuel : nat) (b : list Z) (p depth : nat) (parens : Z) : tk (option nat) :=
  if (SHELL_NEST_MAX <? depth)%nat then Ok None else
  if (p <? length b)%nat then
    match fuel with
    | O => Panic
    | S fuel =>
        x ← index b p;
        if x =? BS then shell_subst_end fuel b (p + 2) depth parens
        else if x =? chr "(" then shell_subst_end fuel b (p + 1) depth (parens + 1)
        else if x =? chr ")" then
          let parens := as_u64 (parens - 1) in
          if parens =? 0 then Ok (Some (p + 1)%nat)
          else shell_subst_end fuel b (p + 1) depth parens
        else if x =? DQ then
          e ← shell_dq_end fuel b (p + 1) (depth + 1) false;
          match e with
          | None => Ok None
          | Some (p, _) => shell_subst_end fuel b p depth parens
          end
        else if (x =? SQ) || (x =? BT) then
          t ← bytes_from b (p + 1);
          match list_find (λ c, c = x) t with
          | None => Ok None
          | Some (k, _) => shell_subst_end fuel b (p + (2 + k)) depth parens
          end
        else shell_subst_end fuel b (p + 1) depth parens
    end
  else Ok None.

Definition shell_dq_len (rest : str) : tk (option (option nat)) :=
  let b := as_bytes rest in
  e ← shell_dq_end (length b) b 1 0 false;
  Ok (match e with
      | None => None
      | Some (end_, subst) => Some (if (subst : bool) then Some end_ else None)
      end).

Definition REGEX_WORDS : list str :=
  [lit "return"; lit "typeof"; lit "case"; lit "do"; lit "else"; lit "in"; lit "of"; lit "new";
   lit "delete"; lit "void"; lit "throw"; lit "instanceof"; lit "yield"; lit "await"].

Definition regex_allowed (prev : option TokenDecl) : bool :=
  match prev with
  | None => true
  | Some p =>
      match td_class p with
      | Identifier => bool_decide (td_text p ∈ REGEX_WORDS)
      | Literal => false
      | _ => negb (bool_decide (td_text p ∈ [lit ")"; lit "]"; lit "}"; lit "<"; lit ">"]))
      end
  end.

Fixpoint regex_loop (rest : str) (esc class : bool) (cis : list (nat * Z)) : tk (option nat) :=
  match cis with
  | [] => Ok None
  | (p, ch) :: cis =>
      if (ch =? LF) || (ch =? CR) then Ok None
      else if esc then regex_loop rest false class cis
      else if ch =? BS then regex_loop rest true class cis
      else if ch =? chr "[" then regex_loop rest false true cis
      else if ch =? chr "]" then regex_loop rest false false cis
      else if (ch =? chr "/") && negb class then
        let end_ := (p + 1)%nat in
        r ← slice_from rest end_;
        Ok (Some (end_ + default (str_len rest - end_)
                           (find_char (λ c, negb (is_ascii_alphabetic c)) r))%nat)
      else regex_loop rest false class cis
  end.
Definition regex_len (rest : str) : tk (option nat) :=
  if starts_with rest (lit "//") || starts_with rest (lit "/*") then Ok None
  else regex_loop rest false false (drop 1 (char_indices rest)).

Definition aspx_len (rest : str) : option (nat * TokenClass) :=
  match strip_prefix (lit "<%--") rest with
  | Some after =>
      Some (match find_str (lit "--%>") after with
            | Some p => (p + 8)%nat
            | None => str_len rest
            end, Comment)
  | None =>
      if starts_with rest (lit "%>") then Some (2%nat, Punctuation) else
      match strip_prefix (lit "<%") rest with
      | None => None
      | Some after =>
          Some (if match head after with Some c => in_set (lit "@=#:$") c | None => false end
                then 3%nat else 2%nat, Punctuation)
      end
  end.

Definition is_char_literal (rest : str) : bool :=
  match rest !! 1%nat with
  | Some c =>
      if c =? BS then existsb (Z.eqb SQ) (take 10 (drop 2 rest))
      else if negb (c =? SQ) && negb (c =? LF) then bool_decide (rest !! 2%nat = Some SQ)
      else false
  | None => false
  end.

Definition prefixed_literal_len (rest : str) : tk (option nat) :=
  let b := as_bytes rest in
  b0 ← index b 0;
  let p := if (b0 =? chr "b") || (b0 =? chr "c") then 1%nat else 0%nat in
  if bool_decide (b !! p = Some (chr "r")) then
    let p := (p + 1)%nat in
    t ← bytes_from b p;
    let hashes := count_while (chr "#") t in
    let p := (p + hashes)%nat in
    if negb (bool_decide (b !! p = Some DQ)) then Ok None else
    let body := (p + 1)%nat in
    let close := [DQ] ++ replicate hashes (chr "#") in
    bb ← bytes_from b body;
    Ok (Some (match window_position close bb with
              | Some q => (body + q + length close)%nat
              | None => str_len rest
              end))
  else if ((b0 =? chr "b") || (b0 =? chr "c")) && bool_decide (b !! 1%nat = Some DQ) then
    r ← slice_from rest 1; Ok (Some (1 + quoted_len r DQ)%nat)
  else if (b0 =? chr "b") && bool_decide (b !! 1%nat = Some SQ) then
    r ← slice_from rest 1;
    Ok (if is_char_literal r then Some (1 + quoted_len r SQ)%nat else None)
  else Ok None.

(** ** Rpg helpers *)

(** [line.strip_prefix(p).unwrap_or(line)] and its suffix twin. *)
Definition strip_prefix_or (p s : str) : str := default s (strip_prefix p s).
Definition strip_suffix_or (p s : str) : str := default s (strip_suffix p s).

Definition is_rpg_data_marker (line : str) (free : bool) : bool :=
  match strip_prefix (lit "**") line with
  | None => false
  | Some rest =>
      let rest := trim_end_matches (λ c, (c =? CR) || (c =? LF)) rest in
      let upper := to_ascii_uppercase rest in
      (negb free &&
       (bool_decide (rest = []) || starts_with rest (lit " ") || starts_with rest [TAB])) ||
      existsb (starts_with upper) [lit "CTDATA"; lit "FTRANS"; lit "ALTSEQ"]
  end.

(** [s.split('\n').next()]. *)
Definition first_line (s : str) : str := default [] (head (split_on (Z.eqb LF) s)).

Definition is_free_rpg (src : str) : bool :=
  let s := strip_prefix_or [BOM] src in
  let first := first_line s in
  let first := trim_end_matches is_whitespace (strip_suffix_or [CR] first) in
  eq_ignore_ascii_case first (lit "**free").

(** The loop of [rpg_data_start] over the lines from number [n] on. *)
Fixpoint rpg_data_loop (free : bool) (n off : nat) (lines : list str) : option nat :=
  match lines with
  | [] => None
  | line :: lines =>
      let l := if (n =? 0)%nat then strip_prefix_or [BOM] line else line in
      if is_rpg_data_marker l free && negb ((n =? 0)%nat && free) then Some off
      else rpg_data_loop free (S n) (off + str_len line) lines
  end.
Definition rpg_data_start (src : str) : nat :=
  default (str_len src) (rpg_data_loop (is_free_rpg src) 0 0 (split_inclusive src)).

(** ** The lexer *)

Record MarkupState : Set := mkMarkup { mk_tag : bool; mk_code : bool; mk_pending : option Z }.
Definition MarkupState_default : MarkupState := mkMarkup false false None.

(** The mutable fields of [Lexer]; [src] and [opts] never change. *)
Record Lexer : Set := mkLexer {
  lx_out : list TokenDecl;
  lx_i : nat;
  lx_line : Z;
  lx_col : Z;
  lx_m : MarkupState;
  lx_heredocs : list (str * bool);
  lx_parens : list bool;
  lx_shell_nest_off : bool;
  lx_r_raw_off : bool;
}.

Definition step_pos (lc : Z * Z) (c : Z) : Z * Z :=
  if c =? LF then (as_u32 (lc.1 + 1), 1)
  else if negb (c =? BOM) then (lc.1, as_u32 (lc.2 + 1))
  else lc.

Section lexer.
Context (is_alphabetic is_numeric : Z → bool).
Context (src : str) (opts : TokenizerOptions).

Definition is_alphanumeric (c : Z) : bool := is_alphabetic c || is_numeric c.

Definition adv_to (lx : Lexer) (to : nat) : tk Lexer :=
  s ← slice_range src (lx_i lx) to;
  let '(line, col) := foldl step_pos (lx_line lx, lx_col lx) s in
  Ok (mkLexer (lx_out lx) to line col (lx_m lx) (lx_heredocs lx) (lx_parens lx)
        (lx_shell_nest_off lx) (lx_r_raw_off lx)).

Definition set_out (lx : Lexer) (out : list TokenDecl) : Lexer :=
  mkLexer out (lx_i lx) (lx_line lx) (lx_col lx) (lx_m lx) (lx_heredocs lx) (lx_parens lx)
    (lx_shell_nest_off lx) (lx_r_raw_off lx).

Definition push (lx : Lexer) (end_ : nat) (class : TokenClass) : tk Lexer :=
  let '(start, sl, sc) := (lx_i lx, lx_line lx, lx_col lx) in
  lx ← adv_to lx end_;
  text ← slice_range src start end_;
  Ok (set_out lx (lx_out lx ++
    [mkTokenDecl text class
       (mkSpan (as_u32 (Z.of_nat start)) (as_u32 (Z.of_nat end_)) sl sc (lx_line lx) (lx_col lx))])).

Definition trimmed (lx : Lexer) (from to : nat) (class : TokenClass) : tk Lexer :=
  s ← slice_range src from to;
  let t := trim_start_matches is_gap s in
  let start := (to - str_len t)%nat in
  let end_ := (start + str_len (trim_end_matches is_gap t))%nat in
  if (start <? end_)%nat then lx ← adv_to lx start; push lx end_ class else Ok lx.

Definition trimmed_comment (lx : Lexer) (from to : nat) : tk Lexer := trimmed lx from to Comment.

Definition at_line_start (lx : Lexer) : bool :=
  match last (lx_out lx) with None => true | Some t => end_line (td_span t) <? lx_line lx end.

Fixpoint data_loop (free : bool) (lines : list str) (start off : nat) (lx : Lexer)
    : tk (Lexer * nat) :=
  match lines with
  | [] => Ok (lx, start)
  | line :: lines =>
      '(lx, start) ←
        (if (start <? off)%nat && is_rpg_data_marker line free
         then lx ← trimmed lx start off Literal; Ok (lx, off)
         else Ok (lx, start));
      data_loop free lines start (off + str_len line) lx
  end.

Definition data_sections (lx : Lexer) (from : nat) : tk Lexer :=
  tail ← slice_from src from;
  '(lx, start) ← data_loop (is_free_rpg src) (split_inclusive tail) from from lx;
  trimmed lx start (str_len src) Literal.

Definition sql_bracket_len (rest : str) : tk (option nat) :=
  r1 ← slice_from rest 1;
  match head r1 with
  | None => Ok None
  | Some first =>
      if negb (is_alphabetic first || in_set (lit "_@# ") first) then Ok None else
      ll ← line_len rest;
      body ← slice_range rest 1 ll;
      match find_char (Z.eqb (chr "]")) body with
      | None => Ok None
      | Some close =>
          pre ← slice_to body close;
          Ok (if contains pre (lit "[") then None else Some (close + 2)%nat)
      end
  end.

(** The [while let] loop of [ident_len]. *)
Fixpoint ident_loop (len : nat) (word : Z → bool) (join : Z → bool) (cis : list (nat * Z)) : nat :=
  match cis with
  | [] => len
  | (p, ch) :: cis =>
      if word ch then ident_loop len word join cis
      else if join ch && match cis with (_, next) :: _ => word next | [] => false end
      then ident_loop len word join cis
      else p
  end.
Definition ident_len (rest : str) (markup hyphen prime : bool) : nat :=
  ident_loop (str_len rest)
    (λ ch, is_alphanumeric ch || (ch =? chr "_") || (prime && (ch =? SQ)))
    (λ ch, (markup && ((ch =? chr "-") || (ch =? chr ":"))) || (hyphen && (ch =? chr "-")))
    (char_indices rest).

(** [while n > 1 && rest[..n].ends_with('.') { n -= 1 }]. *)
Fixpoint trim_dots (n : nat) (rest : str) : tk nat :=
  match n with
  | O => Ok n
  | S m =>
      if (0 <? m)%nat then
        h ← slice_to rest n; if ends_with h (lit ".") then trim_dots m rest else Ok n
      else Ok n
  end.

Definition HASKELL_SYMBOLS : str := lit "!#$%&*+./<=>?@" ++ [BS] ++ lit "^|-~:".

Definition dash_comment_at (lx : Lexer) (rest : str) : tk bool :=
  if negb (starts_with rest (lit "--")) then Ok false else
  if negb (haskell_block_comments opts) then Ok true else
  let dashes := (str_len rest - str_len (trim_start_matches (Z.eqb (chr "-")) rest))%nat in
  r ← slice_from rest dashes;
  before ← slice_to src (lx_i lx);
  let sym o := match o with Some c => in_set HASKELL_SYMBOLS c | None => false end in
  Ok (negb (sym (head r)) && negb (sym (last before))).

Definition hash_ok (lx : Lexer) : tk bool :=
  if hash_comments_line_start_only opts && negb (at_line_start lx) then Ok false else
  if shell_words opts && (0 <? lx_i lx)%nat then
    before ← slice_to src (lx_i lx);
    prev ← unwrap (last before);
    Ok (is_gap prev || in_set (lit ";&|()") prev)
  else Ok true.

(** The [while p < limit] search for a heredoc's terminator line. *)
Fixpoint heredoc_search (fuel : nat) (delim : str) (strip : bool) (limit p : nat) : tk nat :=
  if (p <? limit)%nat then
    match fuel with
    | O => Panic
    | S fuel =>
        s ← slice_range src p limit;
        let le := match find_char (Z.eqb LF) s with Some q => (p + q)%nat | None => limit end in
        l ← slice_range src p le;
        let content := strip_suffix_or [CR] l in
        let body := if strip then trim_start_matches (Z.eqb TAB) content else content in
        if bool_decide (body = delim) then Ok (p + str_len content)%nat
        else heredoc_search fuel delim strip limit (le + 1)
    end
  else Ok limit.

Fixpoint heredoc_loop (docs : list (str * bool)) (limit : nat) (lx : Lexer) : tk Lexer :=
  match docs with
  | [] => Ok lx
  | (delim, strip) :: docs =>
      let start := lx_i lx in
      if (limit <=? start)%nat then Ok lx else
      end_ ← heredoc_search (limit - start) delim strip limit start;
      s ← slice_range src start end_;
      let first := match find_char (λ c, negb (is_gap c)) s with
                   | Some q => (start + q)%nat | None => end_ end in
      lx ← (if (first <? end_)%nat then lx ← adv_to lx first; push lx end_ Literal
            else adv_to lx end_);
      t ← slice_range src (lx_i lx) limit;
      match find_char (Z.eqb LF) t with
      | Some nl =>
          g ← slice_range src (lx_i lx) (lx_i lx + nl);
          if forallb is_gap g then lx ← adv_to lx (lx_i lx + nl + 1); heredoc_loop docs limit lx
          else Ok lx
      | None => Ok lx
      end
  end.

Definition set_heredocs (lx : Lexer) (docs : list (str * bool)) : Lexer :=
  mkLexer (lx_out lx) (lx_i lx) (lx_line lx) (lx_col lx) (lx_m lx) docs (lx_parens lx)
    (lx_shell_nest_off lx) (lx_r_raw_off lx).

Definition heredoc_bodies (lx : Lexer) (limit : nat) : tk Lexer :=
  heredoc_loop (lx_heredocs lx) limit (set_heredocs lx []).

(** A token found at the cursor: its length and class, the markup state after
    it, and the heredoc it announces. *)
Record Hit : Set := mkHit {
  h_len : nat;
  h_class : TokenClass;
  h_m : MarkupState;
  h_doc : option (str * bool);
}.

(** An [if .. else if ..] chain: the first branch that answers. *)
Fixpoint first_hit (l : list (tk (option Hit))) : tk (option Hit) :=
  match l with
  | [] => Ok None
  | b :: l => o ← b; match o with Some h => Ok (Some h) | None => first_hit l end
  end.

(** [cond.then(|| f()).flatten()] as a branch of class [class]. *)
Definition when (cond : bool) (f : tk (option nat)) (class : TokenClass) (m : MarkupState)
    : tk (option Hit) :=
  if cond then o ← f; Ok ((λ n, mkHit n class m None) <$> o) else Ok None.
(** The same for a length that is always there. *)
Definition when_len (cond : bool) (f : tk nat) (class : TokenClass) (m : MarkupState)
    : tk (option Hit) :=
  if cond then n ← f; Ok (Some (mkHit n class m None)) else Ok None.

Definition to_eol (rest : str) : nat := default (str_len rest) (find_char (Z.eqb LF) rest).

Definition hash_comment (lx : Lexer) (rest : str) (c : Z) : tk bool :=
  if c =? chr "#" then
    a ← (if hash_comments opts then hash_ok lx else Ok false);
    if a : bool then Ok true else
    if sql_hash_comments opts && at_line_start lx then
      r1 ← slice_from rest 1;
      Ok (match head r1 with None => true | Some n => is_whitespace n end)
    else Ok false
  else Ok false.

Definition aspx_branch (rest : str) (m : MarkupState) : tk (option Hit) :=
  Ok (if aspx opts then
        (λ n, mkHit n.1 n.2
           (if bool_decide (n.2 = Punctuation)
            then mkMarkup (mk_tag m) (starts_with rest (lit "<%")) (mk_pending m) else m) None)
        <$> aspx_len rest
      else None).

Definition pending_branch (rest : str) (m : MarkupState) (markup : bool) : tk (option Hit) :=
  match (if markup then mk_pending m else None) with
  | None => Ok None
  | Some q =>
      '(n, closed) ← attr_value_len rest q 0 (aspx opts);
      Ok (Some (mkHit n Literal
        (if closed : bool then mkMarkup (mk_tag m) (mk_code m) None else m) None))
  end.

Definition html_comment (rest : str) : tk nat :=
  r2 ← slice_from rest 2;
  Ok (match find_str (lit "-->") r2 with Some p => (p + 5)%nat | None => str_len rest end).

Definition eol_comment (lx : Lexer) (rest : str) (c : Z) : tk bool :=
  h ← hash_comment lx rest c;
  if (h : bool) || (bool_decide (fixed_columns opts = Some Cobol) && starts_with rest (lit "*>"))
  then Ok true else
  d ← (if dash_comments opts then dash_comment_at lx rest else Ok false);
  Ok ((d : bool) || (semicolon_comments opts && (c =? chr ";"))).

Definition slash_comment (rest : str) (m : MarkupState) : tk nat :=
  let n := to_eol rest in
  if mk_code m then h ← slice_to rest n; Ok (default n (find_str (lit "%>") h)) else Ok n.

Definition block_comment (rest : str) : tk (option nat) :=
  Ok (after ← strip_prefix (lit "/*") rest;
      Some (match find_str (lit "*/") after with Some p => (p + 4)%nat | None => str_len rest end)).

Definition heredoc_branch (lx : Lexer) (rest : str) (c : Z) (m : MarkupState) : tk (option Hit) :=
  if shell_words opts && (c =? chr "<") then
    before ← slice_to src (lx_i lx);
    if negb (ends_with before (lit "<")) && negb (default false (last (lx_parens lx))) then
      o ← heredoc_marker rest;
      Ok ((λ '(n, delim, strip), mkHit n Operator m (Some (delim, strip))) <$> o)
    else Ok None
  else Ok None.

(** [rest[1..].find(q).map_or(.., |p| p + 2)]: a quoted run with no escapes. *)
Definition plain_quoted (rest : str) (q : Z) (unterminated : tk nat) : tk nat :=
  r1 ← slice_from rest 1;
  match find_char (Z.eqb q) r1 with Some p => Ok (p + 2)%nat | None => unterminated end.

(** The branches up to the R raw strings. *)
Definition hit_comments (lx : Lexer) (rest : str) (c : Z) (m : MarkupState) (markup : bool)
    : list (tk (option Hit)) :=
  [aspx_branch rest m;
   pending_branch rest m markup;
   when_len (markup && starts_with rest (lit "<!--")) (html_comment rest) Comment m;
   (e ← eol_comment lx rest c; when_len e (Ok (to_eol rest)) Comment m);
   when_len (haskell_block_comments opts && starts_with rest (lit "{-"))
     (nested_len rest (lit "{-") (lit "-}")) Comment m;
   when_len (ml_block_comments opts && starts_with rest (lit "(*") && negb (starts_with rest (lit "(*)")))
     (nested_len rest (lit "(*") (lit "*)")) Comment m;
   when_len (negb markup && negb (no_line_slash_comments opts) && starts_with rest (lit "//"))
     (slash_comment rest m) Comment m;
   when_len (rust_literals opts && starts_with rest (lit "/*"))
     (nested_len rest (lit "/*") (lit "*/")) Comment m;
   when (negb markup && negb (no_block_slash_comments opts)) (block_comment rest) Comment m].

Definition hit_strings (lx : Lexer) (rest : str) (c : Z) (m : MarkupState) (markup : bool)
    : list (tk (option Hit)) :=
  [when (shell_words opts && (c =? chr "$")) (shell_var_len rest) Identifier m;
   heredoc_branch lx rest c m;
   when_len (shell_words opts && starts_with rest [chr "$"; SQ])
     (r1 ← slice_from rest 1; Ok (1 + quoted_len r1 SQ)%nat) Literal m;
   when_len (shell_words opts && (c =? SQ) && negb markup)
     (plain_quoted rest SQ (line_len rest)) Literal m;
   when (triple_quote_strings opts) (triple_quoted_len rest (triple_quote_raw opts)) Literal m;
   when_len (raw_backtick_strings opts && (c =? BT) && negb markup)
     (plain_quoted rest BT (Ok (str_len rest))) Literal m;
   when_len (sql_strings opts && (c =? SQ)) (doubled_len rest) Literal m;
   when_len (sql_strings opts && (c =? DQ)) (doubled_len rest) Identifier m;
   when (sql_strings opts && (c =? chr "[")) (sql_bracket_len rest) Identifier m;
   when (rust_literals opts) (prefixed_literal_len rest) Literal m;
   when (csharp_strings opts && negb markup) (csharp_literal_len rest) Literal m;
   when (python_string_prefixes opts && negb markup)
     (python_prefixed_len rest (single_quote_strings opts)) Literal m].

Definition number_len (rest : str) : tk nat :=
  trim_dots (default (str_len rest)
    (find_char (λ ch, negb (is_alphanumeric ch || (ch =? chr "_") || (ch =? chr "."))) rest)) rest.

Definition markup_quote (rest : str) (c : Z) (m : MarkupState) (markup : bool) : tk (option Hit) :=
  if markup && ((c =? DQ) || (c =? SQ) || (c =? BT)) then
    if mk_tag m && negb (c =? BT) then
      '(n, closed) ← attr_value_len rest c 1 (aspx opts);
      Ok (Some (mkHit n Literal
        (if closed : bool then m else mkMarkup (mk_tag m) (mk_code m) (Some c)) None))
    else Ok (Some (mkHit 1 Punctuation m None))
  else Ok None.

Definition hit_words (rest : str) (c : Z) (m : MarkupState) (markup : bool)
    : list (tk (option Hit)) :=
  [when_len (is_alphabetic c || (c =? chr "_"))
     (Ok (ident_len rest (markup && mk_tag m) (hyphen_idents opts) (prime_idents opts))) Identifier m;
   when_len (is_ascii_digit c) (number_len rest) Literal m;
   markup_quote rest c m markup;
   when_len ((c =? SQ) && doubled_single_quotes opts)
     (ll ← line_len rest; r ← slice_to rest ll; doubled_len r) Literal m;
   when_len ((c =? SQ) && single_quote_strings opts) (single_quoted_len rest) Literal m].

Definition hit_last (lx : Lexer) (rest : str) (c : Z) (m : MarkupState) : list (tk (option Hit)) :=
  [when_len ((c =? DQ) || (c =? BT) || ((c =? SQ) && is_char_literal rest))
     (Ok (quoted_len rest c)) Literal m;
   when (regex_literals opts && (c =? chr "/") && regex_allowed (last (lx_out lx)))
     (regex_len rest) Literal m;
   when_len (in_set OPERATOR_CHARS c) (Ok (len_utf8 c)) Operator m;
   Ok (Some (mkHit (len_utf8 c) Punctuation m None))].

(** [cond.then(|| f(rest).unwrap_or_else(|()| { flag = true; None })).flatten()]:
    the length found, and the new value of the flag. *)
Definition giving_up (cond flag : bool) (f : tk (option (option nat))) : tk (option nat * bool) :=
  if cond && negb flag then
    o ← f; Ok (match o with Some n => (n, flag) | None => (None, true) end)
  else Ok (None, flag).

(** The whole chain: the hit, and the two give-up flags after it. *)
Definition scan (lx : Lexer) (rest : str) (c : Z) : tk (option Hit * bool * bool) :=
  let m := lx_m lx in
  let markup := markup opts && negb (mk_code m) in
  h ← first_hit (hit_comments lx rest c m markup ++ hit_strings lx rest c m markup);
  match h with
  | Some h => Ok (Some h, lx_r_raw_off lx, lx_shell_nest_off lx)
  | None =>
      '(n, raw_off) ← giving_up (r_raw_strings opts && negb markup) (lx_r_raw_off lx) (r_raw_len rest);
      match n with
      | Some n => Ok (Some (mkHit n Literal m None), raw_off, lx_shell_nest_off lx)
      | None =>
          h ← first_hit (hit_words rest c m markup);
          match h with
          | Some h => Ok (Some h, raw_off, lx_shell_nest_off lx)
          | None =>
              '(n, nest_off) ← giving_up (shell_words opts && (c =? DQ) && negb markup)
                                 (lx_shell_nest_off lx) (shell_dq_len rest);
              match n with
              | Some n => Ok (Some (mkHit n Literal m None), raw_off, nest_off)
              | None => h ← first_hit (hit_last lx rest c m); Ok (h, raw_off, nest_off)
              end
          end
      end
  end.

(** The tag tracking after a one-byte token. *)
Definition track_tag (m : MarkupState) (rest : str) (c : Z) (active : bool) : tk MarkupState :=
  if active then
    if c =? chr "<" then
      r1 ← slice_from rest 1;
      Ok (mkMarkup
        (match head r1 with Some n => is_alphabetic n || in_set (lit "/!?") n | None => false end)
        (mk_code m) (mk_pending m))
    else if c =? chr ">" then Ok (mkMarkup false (mk_code m) (mk_pending m))
    else Ok m
  else Ok m.

Definition track_parens (parens : list bool) (rest : str) (c : Z) (active : bool) : list bool :=
  if active then
    if c =? chr "(" then
      parens ++ [starts_with rest (lit "((") || bool_decide (last parens = Some true)]
    else if c =? chr ")" then removelast parens
    else parens
  else parens.

(** One round of [run] on a character that is not a gap. *)
Definition run_token (lx : Lexer) (limit : nat) (c : Z) : tk Lexer :=
  let i := lx_i lx in
  rest ← slice_range src i limit;
  '(h, raw_off, nest_off) ← scan lx rest c;
  h ← unwrap h;
  m ← track_tag (h_m h) rest c (markup opts && negb (mk_code (lx_m lx)) && (h_len h =? 1)%nat);
  let parens := track_parens (lx_parens lx) rest c (shell_words opts && (h_len h =? 1)%nat) in
  let docs := lx_heredocs lx ++ match h_doc h with Some d => [d] | None => [] end in
  push (mkLexer (lx_out lx) i (lx_line lx) (lx_col lx) m docs parens nest_off raw_off)
    (i + h_len h) (h_class h).

(** The [while self.i < limit] loop; every round moves the cursor. *)
Fixpoint run (fuel limit : nat) (lx : Lexer) : tk Lexer :=
  if (lx_i lx <? limit)%nat then
    match fuel with
    | O => Panic
    | S fuel =>
        tail ← slice_from src (lx_i lx);
        c ← unwrap (head tail);
        if is_gap c then
          lx ← adv_to lx (lx_i lx + len_utf8 c);
          lx ← (if (c =? LF) && negb (bool_decide (lx_heredocs lx = []))
                then heredoc_bodies lx limit else Ok lx);
          run fuel limit lx
        else
          lx ← run_token lx limit c;
          run fuel limit lx
    end
  else Ok lx.
Definition run_to (limit : nat) (lx : Lexer) : tk Lexer := run (limit - lx_i lx) limit lx.

(** ** Fixed columns *)

(** Byte offset where column [n] starts, clamped to [ce]. *)
Definition col_at (line : str) (ls ce n : nat) : nat :=
  match filter (λ pc : nat * Z, negb (pc.2 =? BOM) = true) (char_indices line) !! (n - 1)%nat with
  | Some (p, _) => (ls + p)%nat
  | None => ce
  end.

(** The part of the body of [fixed] after the line is cut: the sequence area,
    the indicator and the code, by column. *)
Definition fixed_areas (layout : FixedLayout) (ls ce : nat) (col_at : nat → nat) (lx : Lexer)
    : tk Lexer :=
  let '(seq, lead, code_end) :=
    match layout with Cobol => (6, false, 72)%nat | Rpg => (5, true, 80)%nat end in
  let seq_end := col_at (seq + 1)%nat in
  lx ← trimmed_comment lx ls seq_end;
  '(lx, code_start) ←
    (if lead : bool then
       let code_start := col_at (seq + 2)%nat in
       lx ← adv_to lx seq_end;
       lx ← run_to code_start lx;
       Ok (lx, code_start)
     else Ok (lx, seq_end));
  let ind_end := col_at 8%nat in
  ind ← slice_range src code_start ind_end;
  if bool_decide (ind = lit "*") || (bool_decide (layout = Cobol) && bool_decide (ind = lit "/"))
  then trimmed_comment lx code_start ce
  else
    let area_end := col_at (code_end + 1)%nat in
    '(lx, code_start) ←
      (if bool_decide (layout = Cobol) then
         lx ← adv_to lx code_start;
         lx ← run_to ind_end lx;
         Ok (lx, ind_end)
       else Ok (lx, code_start));
    lx ← adv_to lx code_start;
    lx ← run_to area_end lx;
    trimmed_comment lx area_end ce.

Definition fixed_line (layout : FixedLayout) (lx : Lexer) : tk Lexer :=
  let ls := lx_i lx in
  tail ← slice_from src ls;
  let le := match find_char (Z.eqb LF) tail with Some p => (ls + p)%nat | None => str_len src end in
  whole ← slice_range src ls le;
  let ce := if ends_with whole [CR] then (le - 1)%nat else le in
  line ← slice_range src ls ce;
  lx ← fixed_areas layout ls ce (col_at line ls ce) lx;
  adv_to lx (Nat.min (le + 1) (str_len src)).

Fixpoint fixed (fuel : nat) (layout : FixedLayout) (limit : nat) (lx : Lexer) : tk Lexer :=
  if (lx_i lx <? limit)%nat then
    match fuel with
    | O => Panic
    | S fuel => lx ← fixed_line layout lx; fixed fuel layout limit lx
    end
  else Ok lx.

Definition Lexer_new : Lexer := mkLexer [] 0 1 1 MarkupState_default [] [] false false.

Definition tokenize_with : tk (list TokenDecl) :=
  let end_ := if rpg_compile_time_data opts then rpg_data_start src else str_len src in
  lx ← (match fixed_columns opts with
        | Some Rpg => if is_free_rpg src then run_to end_ Lexer_new
                      else fixed end_ Rpg end_ Lexer_new
        | Some layout => fixed end_ layout end_ Lexer_new
        | None => run_to end_ Lexer_new
        end);
  lx ← (if (end_ <? str_len src)%nat then data_sections lx end_ else Ok lx);
  Ok (lx_out lx).
End lexer.

Definition tokenize (is_alphabetic is_numeric : Z → bool) (src : str) : tk (list TokenDecl) :=
  tokenize_with is_alphabetic is_numeric src DEFAULT.
