(* ===== verification/TokenizerLen.v ===== *)
(** * The tokenizer: the length functions

    Every function of the lexer that measures a token at the cursor returns,
    without a panic, a length that is positive and ends on a character
    boundary of the text left. *)
From Stdlib Require Import Ascii.
From S2P Require Import Prelude Text Schema StrOps Tokenizer.

(** [gl rest n]: [n] is a possible length of a token at the start of [rest]. *)
Definition gl (rest : str) (n : nat) : Prop := isb rest n ∧ (0 < n)%nat.
Definition glo (rest : str) (o : option nat) : Prop := from_option (gl rest) True o.

Lemma gl_app a b n : a ≠ [] → n = str_len a → gl (a ++ b) n.
Proof. intros Ha ->. split; [apply isb_prefix|by apply str_len_pos]. Qed.
Lemma gl_len s : s ≠ [] → gl s (str_len s).
Proof. intros. split; [apply isb_len|by apply str_len_pos]. Qed.
Lemma gl_app_l a b n : gl a n → gl (a ++ b) n.
Proof. intros [? ?]. split; [by apply isb_app_l|done]. Qed.
Lemma gl_app_r a b n : gl b n → gl (a ++ b) (str_len a + n).
Proof. intros [? ?]. split; [by apply isb_app_r|lia]. Qed.
Lemma gl_shift a b n : a ≠ [] → isb b n → gl (a ++ b) (str_len a + n).
Proof. intros ?%str_len_pos ?. split; [by apply isb_app_r|lia]. Qed.
Lemma gl_cons c b : gl (c :: b) (len_utf8 c).
Proof. apply (gl_app [c] b); [done|]. by rewrite str_len_cons, str_len_nil, Nat.add_0_r. Qed.

(** The character after which a token may end. *)
Lemma isb_after a c b n : n = (str_len a + len_utf8 c)%nat → isb (a ++ c :: b) n.
Proof.
  intros ->. exists (a ++ [c]), b.
  by rewrite <- app_assoc, str_len_app, str_len_cons, str_len_nil, Nat.add_0_r.
Qed.
Lemma gl_after a c b n : n = (str_len a + len_utf8 c)%nat → gl (a ++ c :: b) n.
Proof. intros Hn. split; [by apply isb_after|]. pose proof (len_utf8_pos c). lia. Qed.

Lemma lit_app_len a (b : str) : Forall ascii_char a → str_len (a ++ b) = (length a + str_len b)%nat.
Proof. intros. by rewrite str_len_app, str_len_ascii. Qed.

(** Goals [Forall ascii_char (lit ..)] and lengths of literals. *)
Ltac ascii := by apply (bool_decide_unpack _); vm_compute.
Ltac lits := rewrite ?str_len_app, ?str_len_cons, ?str_len_nil; try lia.

Lemma eol_split rest :
  head rest ≠ None → head rest ≠ Some LF →
  ∃ a b, rest = a ++ b ∧ to_eol rest = str_len a ∧ (LF ∉ a) ∧ a ≠ [].
Proof.
  intros Hne Hlf. destruct (find_lf_or rest) as (a & b & Heq & Hl & Ha & Hb). exists a, b.
  split_and!; [done..|]. intros ->. simpl in Heq. subst. by destruct Hb as [-> | [b' ->]].
Qed.

Lemma line_len_returns rest :
  head rest ≠ None → head rest ≠ Some LF →
  returns (line_len rest) (λ n, ∃ a b, rest = a ++ b ∧ str_len a = n ∧ (LF ∉ a) ∧ a ≠ []).
Proof.
  intros Hne Hlf. unfold line_len. fold (to_eol rest).
  destruct (eol_split rest Hne Hlf) as (a & b & Heq & -> & Ha & Hane).
  rewrite Heq, slice_to_app, tk_bind_Ok by done. apply returns_Ok.
  destruct (ends_with a [CR] && (1 <? str_len a)%nat) eqn:E; [|by exists a, b].
  apply andb_true_iff in E as [[r ->]%ends_with_spec Hl%Nat.ltb_lt].
  rewrite str_len_app in Hl |- *. change (str_len [CR]) with 1%nat in *.
  exists r, ([CR] ++ b). rewrite app_assoc. split_and!; [done|lia|set_solver|].
  intros ->. cbn in Hl. lia.
Qed.

Lemma to_eol_gl rest : head rest ≠ None → head rest ≠ Some LF → gl rest (to_eol rest).
Proof.
  intros Hne Hlf. destruct (eol_split rest Hne Hlf) as (a & b & -> & -> & _ & ?).
  by apply gl_app.
Qed.

Lemma line_len_gl rest :
  head rest ≠ None → head rest ≠ Some LF → returns (line_len rest) (gl rest).
Proof.
  intros Hne Hlf. eapply returns_weaken; [by apply line_len_returns|].
  intros n (a & b & -> & <- & _ & Ha). by apply gl_app.
Qed.

(** ** Comments *)

Lemma nested_loop_returns fuel rest open close depth p :
  rest ≠ [] → open ≠ [] → close ≠ [] →
  isb rest p → (str_len rest - p ≤ fuel)%nat →
  returns (nested_loop fuel rest open close depth p) (gl rest).
Proof.
  intros Hr Ho Hc. revert depth p. induction fuel as [|fuel IH]; intros depth p Hp Hf; simpl.
  - destruct (p <? str_len rest)%nat eqn:E; [apply Nat.ltb_lt in E; lia|].
    by apply returns_Ok, gl_len.
  - destruct (p <? str_len rest)%nat eqn:E; [|by apply returns_Ok, gl_len].
    apply Nat.ltb_lt in E. destruct Hp as (a & r & -> & <-).
    rewrite slice_from_app, tk_bind_Ok by done.
    pose proof (str_len_pos _ Ho). pose proof (str_len_pos _ Hc).
    destruct (starts_with r open) eqn:E1; [|destruct (starts_with r close) eqn:E2].
    + apply starts_with_spec in E1 as [r' ->]. apply IH; [|lia].
      apply isb_app_r, isb_prefix.
    + apply starts_with_spec in E2 as [r' ->].
      assert (isb (a ++ close ++ r') (str_len a + str_len close)) by apply isb_app_r, isb_prefix.
      case_match; [|apply IH; [done|lia]]. apply returns_Ok. split; [done|lia].
    + destruct r as [|c r].
      { exfalso. rewrite app_nil_r in E. lia. }
      cbn. pose proof (len_utf8_pos c). apply IH; [by apply isb_after|lia].
Qed.

Lemma nested_len_returns rest open close :
  rest ≠ [] → open ≠ [] → close ≠ [] → returns (nested_len rest open close) (gl rest).
Proof. intros. apply nested_loop_returns; [done..|apply isb_0|lia]. Qed.

Lemma html_comment_returns rest :
  starts_with rest (lit "<!--") = true → returns (html_comment rest) (gl rest).
Proof.
  intros [r ->]%starts_with_spec. unfold html_comment.
  change (lit "<!--" ++ r) with (lit "<!" ++ (lit "--" ++ r)).
  rewrite slice_from_app, tk_bind_Ok by done. apply returns_Ok.
  destruct (find_str (lit "-->") (lit "--" ++ r)) as [p|] eqn:E; [|by apply gl_len].
  apply find_str_Some in E as (a & b & -> & <-).
  rewrite app_assoc, app_assoc. apply gl_app; [done|].
  rewrite !str_len_app, !(str_len_ascii (lit _)) by ascii. cbn. lia.
Qed.

Lemma block_comment_returns rest : returns (block_comment rest) (glo rest).
Proof.
  unfold block_comment. apply returns_Ok.
  destruct (strip_prefix (lit "/*") rest) as [after|] eqn:E; [|done].
  apply strip_prefix_Some in E as ->. cbn -[lit app].
  destruct (find_str (lit "*/") after) as [p|] eqn:E; [|by apply gl_len].
  apply find_str_Some in E as (a & b & -> & <-).
  rewrite app_assoc, app_assoc. apply gl_app; [done|].
  rewrite !str_len_app, !(str_len_ascii (lit _)) by ascii. cbn. lia.
Qed.

Lemma slash_comment_returns rest m :
  starts_with rest (lit "//") = true → returns (slash_comment rest m) (gl rest).
Proof.
  intros [r ->]%starts_with_spec. unfold slash_comment.
  pose proof (to_eol_gl (lit "//" ++ r) ltac:(done) ltac:(done)) as Hg.
  destruct (mk_code m); [|by apply returns_Ok].
  destruct Hg as [(a & b & Heq & Hl) Hpos]. rewrite <- Hl in *. rewrite Heq.
  rewrite slice_to_app, tk_bind_Ok by done. apply returns_Ok, gl_app_l.
  assert (a ≠ []) by (intros ->; cbn in Hpos; lia).
  destruct (find_str (lit "%>") a) as [p|] eqn:E; [|by apply gl_len].
  apply find_str_Some in E as (x & y & -> & <-). apply gl_app; [|done].
  intros ->. by injection Heq.
Qed.

(** ** Scans over the characters *)

(** Every pair of the list is a character of [rest] and its offset. *)
Definition cis_ok (rest : str) (cis : list (nat * Z)) : Prop :=
  Forall (λ pc : nat * Z, ∃ a b, rest = a ++ pc.2 :: b ∧ pc.1 = str_len a) cis.

Lemma cis_ok_drop rest k : cis_ok rest (drop k (char_indices rest)).
Proof.
  apply Forall_forall. intros [p c] (a & b & -> & -> & _)%char_indices_elem. by exists a, b.
Qed.

Lemma triple_loop_returns rest q raw esc cis :
  rest ≠ [] → Forall ascii_char q → length q = 3%nat → cis_ok rest cis →
  returns (triple_loop rest q raw esc cis) (glo rest).
Proof.
  intros Hr Ha Hq Hc. revert esc.
  induction Hc as [|[p ch] cis (a & b & Heq & Hp) _ IH]; intros esc; simpl.
  { by apply returns_Ok, gl_len. }
  simpl in Heq, Hp. destruct esc; [apply IH|]. case_match; [apply IH|].
  subst p. rewrite Heq at 1. rewrite slice_from_app, tk_bind_Ok by done.
  destruct (starts_with (ch :: b) q) eqn:E; [|apply IH]. apply returns_Ok.
  apply starts_with_spec in E as [r Hr']. rewrite Heq, Hr', app_assoc. apply gl_app.
  - destruct a; [by destruct q|done].
  - by rewrite str_len_app, (str_len_ascii q), Hq.
Qed.

Lemma triple_quoted_len_returns rest raw : returns (triple_quoted_len rest raw) (glo rest).
Proof.
  unfold triple_quoted_len. destruct (list_find _ _) as [[i q]|] eqn:E; [|by apply returns_Ok].
  apply list_find_Some in E as (Hq%list_elem_of_lookup_2 & [r ->]%starts_with_spec & _).
  set_unfold in Hq. destruct Hq as [-> | [-> | []]];
    (apply triple_loop_returns; [done|ascii|done|apply cis_ok_drop]).
Qed.

Lemma quoted_loop_gl rest q esc cis :
  rest ≠ [] → cis_ok rest cis → gl rest (quoted_loop (str_len rest) q esc cis).
Proof.
  intros Hr Hc. revert esc.
  induction Hc as [|[p ch] cis (a & b & Heq & Hp) _ IH]; intros esc; simpl; [by apply gl_len|].
  simpl in Heq, Hp. repeat (case_match; try done). rewrite Heq. apply gl_after. by subst.
Qed.

Lemma quoted_len_gl rest q : rest ≠ [] → gl rest (quoted_len rest q).
Proof. intros. apply quoted_loop_gl; [done|apply cis_ok_drop]. Qed.

Lemma single_quoted_len_returns rest :
  head rest = Some SQ → returns (single_quoted_len rest) (gl rest).
Proof.
  intros Hh. unfold single_quoted_len.
  destruct (line_len_returns rest) as (n & -> & a & b & -> & <- & _ & Ha); [by rewrite Hh..|].
  rewrite tk_bind_Ok, slice_to_app, tk_bind_Ok by done.
  by apply returns_Ok, gl_app_l, quoted_len_gl.
Qed.

Lemma attr_loop_returns rest q asp cis :
  rest ≠ [] → ascii_char q → cis_ok rest cis →
  (∀ ch, (0%nat, ch) ∈ cis → asp = true → starts_with rest (lit "<%") = false) →
  returns (attr_loop rest q asp cis) (λ nc, gl rest nc.1).
Proof.
  intros Hr Hq Hc. induction Hc as [|[p ch] cis (a & b & Heq & Hp) _ IH]; intros H0; simpl.
  { by apply returns_Ok, gl_len. }
  simpl in Heq, Hp. destruct (ch =? q) eqn:E.
  { apply Z.eqb_eq in E as ->. apply returns_Ok. rewrite Heq. cbn [fst].
    apply gl_after. rewrite len_utf8_ascii by done. lia. }
  assert (returns (attr_loop rest q asp cis) (λ nc, gl rest nc.1)) as IH'.
  { apply IH. intros ch' ?. apply (H0 ch'). set_solver. }
  destruct asp; [|by rewrite tk_bind_Ok].
  subst p. rewrite Heq at 1. rewrite slice_from_app, !tk_bind_Ok by done.
  destruct (starts_with (ch :: b) (lit "<%")) eqn:E2; [|done]. apply returns_Ok.
  rewrite Heq. apply gl_app; [|done]. intros ->. simpl in Heq. subst rest.
  rewrite (H0 ch) in E2; [done|set_solver|done].
Qed.

Lemma attr_value_len_returns rest q from asp :
  rest ≠ [] → ascii_char q →
  (from = 0%nat → asp = true → starts_with rest (lit "<%") = false) →
  returns (attr_value_len rest q from asp) (λ nc, gl rest nc.1).
Proof.
  intros Hr Hq H0. apply attr_loop_returns; [done..|apply cis_ok_drop|].
  intros ch (a & b & -> & Hp & Hf)%char_indices_elem Hasp. apply H0; [|done].
  symmetry in Hp. apply str_len_0 in Hp as ->. simpl in Hf. lia.
Qed.

Lemma brace_loop_glo rest depth cis : cis_ok rest cis → glo rest (brace_loop depth cis).
Proof.
  intros Hc. revert depth.
  induction Hc as [|[p ch] cis (a & b & Heq & Hp) _ IH]; intros depth; simpl; [done|].
  simpl in Heq, Hp. repeat (case_match; try apply IH; try done). simpl. rewrite Heq.
  assert (ch = chr "}") as -> by by apply Z.eqb_eq.
  apply gl_after. subst p. by rewrite len_utf8_ascii by ascii.
Qed.

Lemma regex_loop_returns rest esc class cis :
  cis_ok rest cis → returns (regex_loop rest esc class cis) (glo rest).
Proof.
  intros Hc. revert esc class.
  induction Hc as [|[p ch] cis (a & b & Heq & Hp) _ IH]; intros esc class; simpl.
  { by apply returns_Ok. }
  simpl in Heq, Hp. repeat (case_match; try apply IH; try by apply returns_Ok).
  assert (ch = chr "/") as ->.
  { match goal with H : (_ =? _) && _ = true |- _ => apply andb_true_iff in H as [H _] end.
    by apply Z.eqb_eq. }
  change (chr "/" :: b) with ([chr "/"] ++ b) in Heq. rewrite app_assoc in Heq.
  assert ((p + 1)%nat = str_len (a ++ [chr "/"])) as -> by by rewrite str_len_app, Hp.
  rewrite Heq, slice_from_app, tk_bind_Ok by done. apply returns_Ok. cbn [glo from_option].
  rewrite (str_len_app (a ++ _) b), Nat.add_sub'.
  destruct (find_char_or (λ c, negb (is_ascii_alphabetic c)) b) as (x & y & -> & -> & _).
  apply gl_shift; [by destruct a|apply isb_prefix].
Qed.

Lemma regex_len_returns rest : returns (regex_len rest) (glo rest).
Proof.
  unfold regex_len. case_match; [by apply returns_Ok|]. apply regex_loop_returns, cis_ok_drop.
Qed.

(** ** Searches and prefixes *)

Lemma in_set_ascii set c : Forall ascii_char set → in_set set c = true → ascii_char c.
Proof.
  unfold in_set. intros Hs (x & Hx & <-%Z.eqb_eq)%existsb_exists. rewrite Forall_forall in Hs.
  by apply Hs, list_elem_of_In.
Qed.
Lemma is_ascii_digit_ascii c : is_ascii_digit c = true → ascii_char c.
Proof. unfold is_ascii_digit, ascii_char. intros [?%Z.leb_le ?%Z.leb_le]%andb_true_iff. lia. Qed.

Lemma shell_var_len_returns rest :
  head rest = Some (chr "$") → returns (shell_var_len rest) (glo rest).
Proof.
  destruct rest as [|d r]; [done|]. intros [= ->]. unfold shell_var_len.
  rewrite (slice_from_app [chr "$"] r), tk_bind_Ok by done.
  destruct r as [|c r]; [by apply returns_Ok|]. cbn [head].
  case_match; [by apply returns_Ok, brace_loop_glo, cis_ok_drop|].
  case_match.
  { apply returns_Ok. cbn [glo from_option]. rewrite (str_len_cons (chr "$")).
    change (len_utf8 (chr "$")) with 1%nat. rewrite Nat.add_sub'.
    destruct (find_char_or (λ ch, negb (word_char ch)) (c :: r)) as (x & y & -> & -> & _).
    by apply (gl_shift [chr "$"]), isb_prefix. }
  case_match; [|by apply returns_Ok]. apply returns_Ok.
  assert (ascii_char c).
  { match goal with H : _ || _ = true |- _ => apply orb_true_iff in H as [H|H] end;
      [by apply is_ascii_digit_ascii|]. eapply in_set_ascii; [|done]. ascii. }
  apply (gl_app [chr "$"; c]); [done|]. by rewrite !str_len_cons, (len_utf8_ascii c).
Qed.

Lemma heredoc_word_returns pre word strip :
  pre ≠ [] →
  returns (heredoc_word word (str_len pre) strip)
    (λ o, from_option (λ x, gl (pre ++ word) x.1.1) True o).
Proof.
  intros Hpre. unfold heredoc_word.
  assert (∃ skip w, match strip_prefix [BS] word with
      Some w => (1%nat, w) | None => (0%nat, word) end = (str_len skip, w) ∧ word = skip ++ w)
    as (skip & w & -> & ->).
  { destruct (strip_prefix [BS] word) as [w|] eqn:E.
    - apply strip_prefix_Some in E as ->. by exists [BS], w.
    - by exists [], word. }
  case_match; [|by apply returns_Ok].
  destruct (find_char_or (λ c, negb (word_char c)) w) as (x & y & -> & -> & _).
  rewrite slice_to_app, tk_bind_Ok by done. apply returns_Ok. cbn [from_option fst].
  rewrite <- Nat.add_assoc. apply gl_shift; [done|]. apply isb_app_r, isb_prefix.
Qed.

Lemma plain_close q (r : str) n :
  ascii_char q → find_char (Z.eqb q) r = Some n →
  ∃ a b, r = a ++ q :: b ∧ str_len a = n.
Proof.
  intros _ (a & c & b & -> & <- & <-%Z.eqb_eq & _)%find_char_Some. by exists a, b.
Qed.

Lemma heredoc_marker_returns rest :
  returns (heredoc_marker rest) (from_option (λ x, gl rest x.1.1) True).
Proof.
  unfold heredoc_marker. destruct (strip_prefix (lit "<<") rest) as [after|] eqn:E;
    [|by apply returns_Ok]. apply strip_prefix_Some in E as ->.
  case_match; [by apply returns_Ok|]. clear H.
  assert (∃ pre r, lit "<<" ++ after = pre ++ r ∧ pre ≠ [] ∧
    str_len pre = (2 + (if starts_with after (lit "-") then 1 else 0))%nat) as (pre & r & -> & Hp & <-).
  { destruct (starts_with after (lit "-")) eqn:E; [|by exists (lit "<<"), after].
    apply starts_with_spec in E as [r ->]. by exists (lit "<<-"), r. }
  rewrite slice_from_app, tk_bind_Ok by done. rewrite (str_len_app pre r), Nat.add_sub'.
  destruct (find_char_or (λ c, negb (c =? chr " ")%Z && negb (c =? TAB)%Z) r)
    as (sp & word & -> & -> & _).
  rewrite <- str_len_app, app_assoc, slice_from_app, tk_bind_Ok by done.
  destruct word as [|q word]; [by apply returns_Ok|]. cbn [head].
  destruct ((q =? SQ) || (q =? DQ)) eqn:E;
    [|by apply heredoc_word_returns; destruct pre].
  assert (q = SQ ∨ q = DQ) as Hq by (apply orb_true_iff in E as [?%Z.eqb_eq|?%Z.eqb_eq]; tauto).
  assert (ascii_char q) as Hqa by (destruct Hq as [-> | ->]; ascii).
  destruct (line_len_returns (q :: word)) as (n & -> & a & b & Heq & <- & _ & Ha);
    [done|by destruct Hq as [-> | ->]|].
  destruct a as [|q' a]; [done|]. injection Heq as <- ->.
  assert (str_len [q] = 1%nat) as Hq1 by by rewrite str_len_cons, len_utf8_ascii.
  rewrite tk_bind_Ok. rewrite (slice_range_app [q] a b), tk_bind_Ok
    by (rewrite ?str_len_cons, ?len_utf8_ascii by done; done).
  destruct (find_char (Z.eqb q) a) as [close|] eqn:Ec; [|by apply returns_Ok].
  apply plain_close in Ec as (x & y & -> & <-); [|done].
  change (q :: (x ++ q :: y) ++ b) with ([q] ++ (x ++ q :: y) ++ b).
  rewrite <- (app_assoc x), (slice_range_app [q] x), tk_bind_Ok by (rewrite ?Hq1; done).
  apply returns_Ok. case_bool_decide; [done|]. cbn [from_option fst].
  rewrite <- Nat.add_assoc. apply gl_shift; [by destruct pre|].
  change ([q] ++ x ++ (q :: y) ++ b) with ((q :: x) ++ (q :: y ++ b)).
  apply isb_after. rewrite str_len_cons, len_utf8_ascii by done. lia.
Qed.

Lemma aspx_len_glo rest : from_option (λ x, gl rest x.1) True (aspx_len rest).
Proof.
  unfold aspx_len. destruct (strip_prefix (lit "<%--") rest) as [after|] eqn:E.
  { apply strip_prefix_Some in E as ->. cbn [from_option fst].
    destruct (find_str (lit "--%>") after) as [p|] eqn:E; [|by apply gl_len].
    apply find_str_Some in E as (a & b & -> & <-). rewrite app_assoc, app_assoc.
    apply gl_app; [done|]. rewrite !str_len_app, !(str_len_ascii (lit _)) by ascii. cbn. lia. }
  destruct (starts_with rest (lit "%>")) eqn:E1.
  { apply starts_with_spec in E1 as [r ->]. by apply (gl_app (lit "%>")). }
  destruct (strip_prefix (lit "<%") rest) as [after|] eqn:E2; [|done].
  apply strip_prefix_Some in E2 as ->. cbn [from_option fst].
  case_match eqn:E3; [|by apply (gl_app (lit "<%"))].
  destruct after as [|c after]; [done|]. cbn [head] in E3.
  apply in_set_ascii in E3; [|ascii].
  apply (gl_app (lit "<%" ++ [c])); [done|].
  by rewrite str_len_app, str_len_cons, len_utf8_ascii.
Qed.

Lemma plain_quoted_returns rest q unt :
  head rest = Some q → ascii_char q → returns unt (gl rest) →
  returns (plain_quoted rest q unt) (gl rest).
Proof.
  destruct rest as [|d r]; [done|]. intros [= ->] Hq Hu. unfold plain_quoted.
  rewrite (slice_from_app [q] r), tk_bind_Ok by by rewrite str_len_cons, len_utf8_ascii.
  destruct (find_char (Z.eqb q) r) as [p|] eqn:E; [|done].
  apply plain_close in E as (a & b & -> & <-); [|done]. apply returns_Ok.
  change (q :: a ++ q :: b) with ((q :: a) ++ q :: b). apply gl_after.
  rewrite str_len_cons, len_utf8_ascii by done. lia.
Qed.

(** ** Byte scanners *)

Lemma index_Some {A} (l : list A) p x : l !! p = Some x → index (E:=Empty_set) l p = Ok x.
Proof. intros H. unfold index. by rewrite H. Qed.
Lemma index_lt {A} (l : list A) p :
  (p < length l)%nat → ∃ x, l !! p = Some x ∧ index (E:=Empty_set) l p = Ok x.
Proof. intros [x Hx]%lookup_lt_is_Some_2. exists x. split; [done|]. by apply index_Some. Qed.

Lemma bytes_from_Ok b n : (n ≤ length b)%nat → bytes_from b n = Ok (drop n b).
Proof. intros H. unfold bytes_from. by rewrite (proj2 (Nat.leb_le _ _)). Qed.

Lemma doubled_loop_returns fuel rest q p :
  rest ≠ [] → valid_str rest → ascii_char q → (str_len rest - p ≤ fuel)%nat →
  returns (doubled_loop fuel (as_bytes rest) q p) (gl rest).
Proof.
  intros Hr Hv Hq. fold (str_len rest). revert p.
  induction fuel as [|fuel IH]; intros p Hf; simpl; fold (str_len rest).
  - destruct (p <? str_len rest)%nat eqn:E; [apply Nat.ltb_lt in E; lia|].
    by apply returns_Ok, gl_len.
  - destruct (p <? str_len rest)%nat eqn:E; [|by apply returns_Ok, gl_len].
    apply Nat.ltb_lt in E. destruct (index_lt (as_bytes rest) p E) as (x & Hx & ->).
    rewrite tk_bind_Ok. destruct (x =? q) eqn:Eq; [|apply IH; lia].
    apply Z.eqb_eq in Eq as ->. case_bool_decide; [apply IH; lia|].
    apply returns_Ok. split; [by eapply ascii_boundary_after|lia].
Qed.

Lemma as_bytes_head c s : ascii_char c → as_bytes (c :: s) = c :: as_bytes s.
Proof.
  intros [_ Hc]. unfold as_bytes. cbn [mbind list_bind]. unfold utf8_char at 1.
  by rewrite (proj2 (Z.ltb_lt c 0x80)).
Qed.

Lemma doubled_len_returns rest q :
  head rest = Some q → ascii_char q → valid_str rest → returns (doubled_len rest) (gl rest).
Proof.
  destruct rest as [|d r]; [done|]. intros [= ->] Hq Hv. unfold doubled_len.
  rewrite (index_Some _ 0 q), tk_bind_Ok by by rewrite as_bytes_head.
  apply doubled_loop_returns; [done..|]. fold (str_len (q :: r)). lia.
Qed.

Lemma window_position_Some pat b n :
  window_position pat b = Some n → ∃ x y, b = x ++ pat ++ y ∧ length x = n.
Proof.
  revert n. induction b as [|c b IH]; intros n; simpl; case_bool_decide as Hp; try done.
  1, 2: intros [= <-]; destruct Hp as [r Hr]; apply strip_prefix_Some in Hr; by exists [], r.
  intros (k & Hk & ->)%fmap_Some. destruct (IH k Hk) as (x & y & -> & <-). by exists (c :: x), y.
Qed.

(** A run of bytes ending in an ASCII byte ends a character. *)
Lemma window_boundary rest k pat q n :
  valid_str rest → ascii_char q →
  window_position (pat ++ [q]) (drop k (as_bytes rest)) = Some n →
  gl rest (k + n + length (pat ++ [q])).
Proof.
  intros Hv Hq (x & y & Hd & <-)%window_position_Some.
  assert (as_bytes rest !! (k + length x + length pat)%nat = Some q) as Hb.
  { rewrite <- !Nat.add_assoc, <- lookup_drop, Hd, <- !app_assoc.
    rewrite !lookup_app_r by lia. by replace (_ - _ - _)%nat with 0%nat by lia. }
  apply ascii_boundary_after in Hb; [|done..]. rewrite length_app. cbn [length].
  rewrite Nat.add_assoc. split; [done|lia].
Qed.

Lemma count_while_le x b : (count_while x b ≤ length b)%nat.
Proof. induction b as [|c b IH]; simpl; [done|]. case_match; lia. Qed.

Lemma as_bytes_index0 rest :
  rest ≠ [] → ∃ x, as_bytes rest !! 0%nat = Some x ∧ index (E:=Empty_set) (as_bytes rest) 0 = Ok x.
Proof. intros H%str_len_pos. by apply index_lt. Qed.

Lemma r_raw_len_returns rest :
  rest ≠ [] → valid_str rest → returns (r_raw_len rest) (from_option (glo rest) True).
Proof.
  intros Hr Hv. unfold r_raw_len. destruct (as_bytes_index0 rest Hr) as (b0 & _ & ->).
  rewrite tk_bind_Ok. case_match; [by apply returns_Ok|].
  destruct (as_bytes rest !! 1%nat) as [q|] eqn:Eq; [|by apply returns_Ok].
  destruct (negb (q =? DQ) && negb (q =? SQ)) eqn:Eqq; [by apply returns_Ok|].
  assert (ascii_char q) as Hq.
  { apply andb_false_iff in Eqq as [E|E]; apply negb_false_iff, Z.eqb_eq in E as ->; ascii. }
  apply lookup_lt_Some in Eq. rewrite bytes_from_Ok, tk_bind_Ok by lia.
  set (dashes := count_while _ _).
  destruct (as_bytes rest !! (2 + dashes)%nat) as [o|] eqn:Eo; [|by apply returns_Ok].
  apply lookup_lt_Some in Eo. destruct (if o =? chr "(" then _ else _) as [close|];
    [|by apply returns_Ok].
  rewrite bytes_from_Ok, tk_bind_Ok by lia. apply returns_Ok.
  destruct (window_position _ _) as [n|] eqn:E; [|done]. rewrite app_assoc in E |- *.
  by apply window_boundary.
Qed.

(** [r"..."], [br#"..."#]: raw strings end on a quote or on a hash. *)
Lemma replicate_snoc {A} n (x : A) : replicate (S n) x = replicate n x ++ [x].
Proof. by rewrite replicate_S_end. Qed.

Lemma raw_close_gl rest k hashes n :
  valid_str rest →
  window_position ([DQ] ++ replicate hashes (chr "#")) (drop k (as_bytes rest)) = Some n →
  gl rest (k + n + length ([DQ] ++ replicate hashes (chr "#"))).
Proof.
  intros Hv. destruct hashes as [|h].
  - apply (window_boundary rest k [] DQ n Hv). ascii.
  - rewrite replicate_snoc, app_assoc. apply window_boundary; [done|ascii].
Qed.

Lemma ascii_head rest x :
  valid_str rest → as_bytes rest !! 0%nat = Some x → ascii_char x → ∃ r, rest = x :: r.
Proof.
  intros Hv Hx Ha. destruct (ascii_boundary rest 0 x Hv Hx) as (a & b & -> & Hl); [apply Ha|].
  apply str_len_0 in Hl as ->. by exists b.
Qed.

Lemma quoted_after x r q : ascii_char x → r ≠ [] → gl (x :: r) (1 + quoted_len r q).
Proof.
  intros Hx Hr. replace 1%nat with (str_len [x]) by by rewrite str_len_cons, len_utf8_ascii.
  apply (gl_shift [x] r); [done|]. by apply quoted_len_gl.
Qed.

Lemma prefixed_literal_len_returns rest :
  rest ≠ [] → valid_str rest → returns (prefixed_literal_len rest) (glo rest).
Proof.
  intros Hr Hv. unfold prefixed_literal_len. destruct (as_bytes_index0 rest Hr) as (b0 & Hb0 & ->).
  rewrite tk_bind_Ok. set (p := if _ || _ then 1%nat else 0%nat). case_bool_decide as Hp.
  { apply lookup_lt_Some in Hp. rewrite bytes_from_Ok, tk_bind_Ok by lia.
    set (hashes := count_while _ _). case_bool_decide as Hdq; simpl negb; cbv iota;
      [|by apply returns_Ok].
    apply lookup_lt_Some in Hdq. rewrite bytes_from_Ok, tk_bind_Ok by lia. apply returns_Ok.
    cbn [glo from_option]. destruct (window_position _ _) as [n|] eqn:E; [|by apply gl_len].
    by apply raw_close_gl. }
  assert (∀ x, b0 = x → ascii_char x → ∃ r, rest = x :: r ∧ slice_from rest 1 = Ok r) as Hs.
  { intros x -> Hx. destruct (ascii_head rest x Hv Hb0 Hx) as [r ->]. exists r. split; [done|].
    apply (slice_from_app [x] r). by rewrite str_len_cons, len_utf8_ascii. }
  assert (∀ x r q, ascii_char x → as_bytes (x :: r) !! 1%nat = Some q →
    gl (x :: r) (1 + quoted_len r q)) as Hg.
  { intros x r q Hx Hb. apply quoted_after; [done|]. intros ->. by rewrite as_bytes_head in Hb. }
  case_match eqn:E1.
  { apply andb_true_iff in E1 as [E1 Hb1%bool_decide_eq_true].
    assert (b0 = chr "b" ∨ b0 = chr "c") as Hbc
      by (apply orb_true_iff in E1 as [?%Z.eqb_eq|?%Z.eqb_eq]; tauto).
    destruct (Hs b0 eq_refl) as (r & -> & ->); [by destruct Hbc as [-> | ->]; ascii|].
    rewrite tk_bind_Ok. apply returns_Ok. apply Hg; [by destruct Hbc as [-> | ->]; ascii|done]. }
  case_match eqn:E2; [|by apply returns_Ok].
  apply andb_true_iff in E2 as [Hb%Z.eqb_eq Hb1%bool_decide_eq_true].
  destruct (Hs (chr "b") Hb) as (r & -> & ->); [ascii|]. rewrite tk_bind_Ok. apply returns_Ok.
  case_match; [|done]. apply Hg; [ascii|done].
Qed.

Lemma csharp_literal_len_returns rest :
  valid_str rest → returns (csharp_literal_len rest) (glo rest).
Proof.
  intros Hv. unfold csharp_literal_len.
  destruct (list_find _ _) as [[i p]|] eqn:E; [|by apply returns_Ok].
  apply list_find_Some in E as (Hp%list_elem_of_lookup_2 & [r ->]%starts_with_spec & _).
  case_match.
  - assert (∃ o, p = o ++ [DQ] ∧ o ≠ [] ∧ Forall ascii_char o) as (o & -> & Ho & Ha).
    { unfold csharp_prefixes in Hp. set_unfold in Hp.
      destruct Hp as [-> | [-> | [-> | [-> | []]]]];
        [exists (lit "$@")|exists (lit "@$")|exists (lit "@")|exists (lit "$")]; (split_and!; [done..|ascii]). }
    rewrite (str_len_app o). change (str_len [DQ]) with 1%nat. rewrite Nat.add_sub, <- app_assoc.
    rewrite slice_from_app, tk_bind_Ok by done. apply returns_Ok. apply gl_shift; [done|].
    by apply quoted_len_gl.
  - destruct (doubled_loop_returns (length (as_bytes (p ++ r))) (p ++ r) DQ (str_len p - 1 + 1))
      as (n & -> & Hn); [|done|ascii|fold (str_len (p ++ r)); lia|].
    { intros [-> ->]%app_nil. unfold csharp_prefixes in Hp. set_unfold in Hp. naive_solver. }
    by apply returns_Ok.
Qed.

Lemma python_prefixed_len_returns rest sq : returns (python_prefixed_len rest sq) (glo rest).
Proof.
  unfold python_prefixed_len.
  destruct (find_char_or (λ c, negb (is_ascii_alphabetic c)) rest) as (pre & q & Heq & -> & _).
  rewrite Heq, slice_to_app, tk_bind_Ok by done. case_match; [by apply returns_Ok|].
  rewrite slice_from_app, tk_bind_Ok by done.
  destruct (triple_quoted_len_returns q false) as ([n|] & -> & Hn); rewrite tk_bind_Ok.
  { by apply returns_Ok, gl_app_r. }
  destruct (starts_with q [DQ]) eqn:E1.
  { apply starts_with_spec in E1 as [r ->]. apply returns_Ok, gl_app_r. by apply quoted_len_gl. }
  case_match eqn:E2; [|by apply returns_Ok].
  apply andb_true_iff in E2 as [[r ->]%starts_with_spec _].
  destruct (single_quoted_len_returns ([SQ] ++ r) eq_refl) as (n & -> & ?).
  by apply returns_Ok, gl_app_r.
Qed.

(** Both shell scanners move forward and stay inside the text; the outer one
    stops just after a closing quote. *)
Lemma shell_scanners_return fuel b :
  (∀ p depth subst, (length b - p ≤ fuel)%nat →
     returns (shell_dq_end fuel b p depth subst)
       (from_option (λ es, (p < es.1)%nat ∧ b !! (es.1 - 1)%nat = Some DQ) True)) ∧
  (∀ p depth parens, (length b - p ≤ fuel)%nat →
     returns (shell_subst_end fuel b p depth parens) (from_option (λ e, p < e)%nat True)).
Proof.
  induction fuel as [|fuel [IHd IHs]].
  { split; intros p depth ? Hf; simpl; (case_match; [by apply returns_Ok|]);
      rewrite (proj2 (Nat.ltb_ge p (length b))) by lia; by apply returns_Ok. }
  assert (∀ p q depth subst, (length b - p ≤ S fuel)%nat → (p < length b)%nat → (p < q)%nat →
     returns (shell_dq_end fuel b q depth subst)
       (from_option (λ es, (p < es.1)%nat ∧ b !! (es.1 - 1)%nat = Some DQ) True)) as Hd.
  { intros p q depth subst Hf Hp Hq. eapply returns_weaken; [apply IHd; lia|].
    intros [[e s]|]; [|done]. simpl. intros [? ?]. split; [lia|done]. }
  assert (∀ p q depth parens, (length b - p ≤ S fuel)%nat → (p < length b)%nat → (p < q)%nat →
     returns (shell_subst_end fuel b q depth parens) (from_option (λ e, p < e)%nat True)) as Hs.
  { intros p q depth parens Hf Hp Hq. eapply returns_weaken; [apply IHs; lia|].
    intros [e|]; [|done]. simpl. lia. }
  split; intros p depth aux Hf; simpl; (case_match; [by apply returns_Ok|]);
    (destruct (p <? length b)%nat eqn:E; [apply Nat.ltb_lt in E|by apply returns_Ok]);
    destruct (index_lt b p E) as (x & Hx & ->); rewrite tk_bind_Ok.
  - destruct (x =? BS); [apply Hd; lia|]. destruct (x =? DQ) eqn:Eq.
    { apply returns_Ok. simpl. apply Z.eqb_eq in Eq as ->. rewrite Nat.add_sub. split; [lia|done]. }
    case_match; [|apply Hd; lia].
    destruct (Hs p (p + 2)%nat (depth + 1)%nat 1) as ([e|] & -> & He); [lia..| |];
      rewrite tk_bind_Ok; [apply Hd; simpl in He; lia|by apply returns_Ok].
  - repeat (case_match; [try (apply Hs; lia)|]); try (apply Hs; lia).
    + apply returns_Ok. simpl. lia.
    + destruct (Hd p (p + 1)%nat (depth + 1)%nat false) as ([[e s]|] & -> & He); [lia..| |];
        rewrite tk_bind_Ok; [apply Hs; simpl in He; lia|by apply returns_Ok].
    + rewrite bytes_from_Ok, tk_bind_Ok by lia.
      destruct (list_find _ _) as [[k ?]|]; [apply Hs; lia|by apply returns_Ok].
Qed.

Lemma shell_dq_len_returns rest :
  valid_str rest → returns (shell_dq_len rest) (from_option (glo rest) True).
Proof.
  intros Hv. unfold shell_dq_len.
  destruct (proj1 (shell_scanners_return (length (as_bytes rest)) (as_bytes rest)) 1%nat 0%nat false)
    as ([[e s]|] & -> & He); [lia| |]; rewrite tk_bind_Ok; apply returns_Ok; [|done].
  destruct s; [|done]. simpl in He. destruct He as [He Hq].
  apply ascii_boundary_after in Hq; [|done|ascii].
  replace (e - 1 + 1)%nat with e in Hq by lia. split; [done|lia].
Qed.

(** ** Names and numbers *)
Section words.
Context (is_alphabetic is_numeric : Z → bool).
Hypothesis digits_numeric : ∀ c, is_ascii_digit c = true → is_numeric c = true.

Lemma sql_bracket_len_returns rest :
  head rest = Some (chr "[") → returns (sql_bracket_len is_alphabetic rest) (glo rest).
Proof.
  destruct rest as [|d r]; [done|]. intros [= ->]. unfold sql_bracket_len.
  rewrite (slice_from_app [chr "["] r), tk_bind_Ok by done.
  destruct r as [|c r]; [by apply returns_Ok|]. cbn [head]. case_match; [by apply returns_Ok|].
  destruct (line_len_returns (chr "[" :: c :: r)) as (n & -> & a & b & Heq & <- & _ & Ha); [done..|].
  destruct a as [|d a]; [done|]. injection Heq as <- ->. rewrite tk_bind_Ok.
  rewrite (slice_range_app [chr "["] a b), tk_bind_Ok by (rewrite ?str_len_cons; done).
  destruct (find_char (Z.eqb (chr "]")) a) as [close|] eqn:Ec; [|by apply returns_Ok].
  apply plain_close in Ec as (x & y & -> & <-); [|ascii].
  rewrite slice_to_app, tk_bind_Ok by done. apply returns_Ok. case_match; [done|].
  cbn [glo from_option]. rewrite <- (app_assoc x).
  change (chr "[" :: x ++ (chr "]" :: y) ++ b) with ((chr "[" :: x) ++ chr "]" :: (y ++ b)).
  apply gl_after. rewrite str_len_cons. change (len_utf8 (chr "[")) with 1%nat.
  change (len_utf8 (chr "]")) with 1%nat. lia.
Qed.

Lemma ident_loop_isb rest word join cis :
  cis_ok rest cis → isb rest (ident_loop (str_len rest) word join cis).
Proof.
  induction 1 as [|[p ch] cis (a & b & Heq & Hp) _ IH]; simpl; [apply isb_len|].
  simpl in Heq, Hp. assert (isb rest p) by (rewrite Heq, Hp; apply isb_prefix).
  by repeat case_match.
Qed.
Lemma ident_loop_pos rest word join cis :
  (0 < str_len rest)%nat → Forall (λ pc : nat * Z, 0 < pc.1)%nat cis →
  (0 < ident_loop (str_len rest) word join cis)%nat.
Proof. intros ?. induction 1 as [|[p ch] cis Hp _ IH]; simpl; [done|]. by repeat case_match. Qed.

Lemma ident_len_gl c rest mk hy pr :
  is_alphabetic c || (c =? chr "_") = true →
  gl (c :: rest) (ident_len is_alphabetic is_numeric (c :: rest) mk hy pr).
Proof.
  intros Hc. unfold ident_len. split.
  - apply ident_loop_isb. rewrite <- (drop_0 (char_indices _)). apply cis_ok_drop.
  - unfold char_indices. cbn [char_indices_from ident_loop].
    match goal with |- context [if ?t then _ else _] => replace t with true end.
    + apply ident_loop_pos; [by apply str_len_pos|]. apply Forall_forall.
      intros [p d] [i Hi]%list_elem_of_lookup.
      apply char_indices_from_lookup in Hi as (a & b & _ & -> & _).
      pose proof (len_utf8_pos c). simpl. lia.
    + unfold is_alphanumeric. by destruct (is_alphabetic c), (c =? chr "_"), (is_numeric c).
Qed.

Lemma trim_dots_returns n rest : gl rest n → returns (trim_dots n rest) (gl rest).
Proof.
  induction n as [|m IH]; intros Hg; [by apply returns_Ok|]. cbn [trim_dots].
  destruct (0 <? m)%nat eqn:Em; [|by apply returns_Ok]. apply Nat.ltb_lt in Em.
  destruct Hg as [(a & b & -> & Hl) Hn]. rewrite slice_to_app, tk_bind_Ok by done.
  destruct (ends_with a (lit ".")) eqn:E.
  - apply ends_with_spec in E as [r ->]. rewrite str_len_app in Hl. change (str_len (lit ".")) with 1%nat in Hl.
    apply IH. split; [|done]. exists r, (lit "." ++ b). rewrite app_assoc. split; [done|lia].
  - apply returns_Ok. split; [by exists a, b|done].
Qed.

Lemma number_len_returns c rest :
  is_ascii_digit c = true → returns (number_len is_alphabetic is_numeric (c :: rest)) (gl (c :: rest)).
Proof.
  intros Hc%digits_numeric. apply trim_dots_returns.
  destruct (find_char_or (λ ch, negb (is_alphanumeric is_alphabetic is_numeric ch || (ch =? chr "_") ||
    (ch =? chr "."))) (c :: rest)) as (a & b & Heq & -> & _ & Hb).
  rewrite Heq. apply gl_app; [|done]. intros ->. simpl in Heq. subst b.
  specialize (Hb c eq_refl). unfold is_alphanumeric in Hb. rewrite Hc in Hb.
  by destruct (is_alphabetic c).
Qed.
End words.

(** The database of the length lemmas. *)
Create HintDb lexlen.
#[export] Hint Resolve gl_len to_eol_gl quoted_len_gl gl_cons ident_len_gl : lexlen.
#[export] Hint Resolve line_len_gl nested_len_returns html_comment_returns block_comment_returns
  slash_comment_returns triple_quoted_len_returns single_quoted_len_returns regex_len_returns
  shell_var_len_returns heredoc_marker_returns plain_quoted_returns doubled_len_returns
  r_raw_len_returns prefixed_literal_len_returns csharp_literal_len_returns
  python_prefixed_len_returns shell_dq_len_returns sql_bracket_len_returns
  number_len_returns returns_Ok : lexlen.
#[export] Hint Extern 1 (ascii_char _) => ascii : lexlen.
#[export] Hint Extern 1 (head _ = Some _) => simpl; congruence : lexlen.
#[export] Hint Extern 1 (_ ≠ _) => done : lexlen.
