(* ===== verification/TokenizerProps.v ===== *)
(** * The tokenizer: totality and the tiling of the source

    For every source shorter than 4 GiB and every dialect the lexer returns a
    list of tokens that tiles the source: each token is the text at its span,
    the tokens are in order and disjoint, only gaps lie between them, and
    every position is the true one. *)
From Stdlib Require Import Ascii.
From S2P Require Import Prelude Text Schema StrOps Tokenizer TokenizerLen.

(** ** Positions, declaratively *)

(** Lines count from 1, one more after each line feed. *)
Definition line_of (s : str) : Z := 1 + Z.of_nat (length (filter (λ c, c = LF) s)).
(** The text after the last line feed. *)
Definition last_line (s : str) : str := foldl (λ l c, if c =? LF then [] else l ++ [c]) [] s.
(** Columns count characters from 1; a byte order mark has no width. *)
Definition col_of (s : str) : Z := 1 + Z.of_nat (length (filter (λ c, c ≠ BOM) (last_line s))).

(** The token [text] found after [pre]. *)
Definition token_at (pre text : str) (class : TokenClass) : TokenDecl :=
  mkTokenDecl text class
    (mkSpan (Z.of_nat (str_len pre)) (Z.of_nat (str_len (pre ++ text)))
       (line_of pre) (col_of pre) (line_of (pre ++ text)) (col_of (pre ++ text))).

(** [Lexed out s]: [out] is a reading of [s]. A token starts with a character
    that is not a gap, and whatever is outside the tokens is a gap. *)
Inductive Lexed : list TokenDecl → str → Prop :=
  | Lexed_nil : Lexed [] []
  | Lexed_gap out s c : Lexed out s → is_gap c = true → Lexed out (s ++ [c])
  | Lexed_token out s c text class :
      Lexed out s → is_gap c = false →
      Lexed (out ++ [token_at s (c :: text) class]) (s ++ c :: text).

Lemma Lexed_gaps out s g : Lexed out s → Forall (λ c, is_gap c = true) g → Lexed out (s ++ g).
Proof.
  intros Hl Hg. revert s Hl. induction Hg as [|c g Hc _ IH]; intros s Hl; [by rewrite app_nil_r|].
  rewrite (app_assoc s [c] g : s ++ c :: g = _). apply IH. by constructor.
Qed.

Lemma line_of_snoc s c : line_of (s ++ [c]) = if c =? LF then line_of s + 1 else line_of s.
Proof.
  unfold line_of. rewrite filter_app, length_app, filter_cons.
  destruct (Z.eqb_spec c LF); case_decide; try done; cbn [length filter list_filter]; lia.
Qed.
Lemma col_of_snoc s c :
  col_of (s ++ [c]) = if c =? LF then 1 else if negb (c =? BOM) then col_of s + 1 else col_of s.
Proof.
  unfold col_of, last_line. rewrite foldl_snoc. destruct (c =? LF); [done|].
  rewrite filter_app, length_app, filter_cons.
  destruct (Z.eqb_spec c BOM); case_decide; try done; cbn; lia.
Qed.
Lemma line_col_bound s :
  1 ≤ line_of s ≤ 1 + Z.of_nat (str_len s) ∧ 1 ≤ col_of s ≤ 1 + Z.of_nat (str_len s).
Proof.
  induction s as [|c s IH] using rev_ind; [done|].
  rewrite line_of_snoc, col_of_snoc, str_len_app, str_len_cons, str_len_nil.
  pose proof (len_utf8_pos c). repeat case_match; lia.
Qed.

Lemma step_pos_snoc s c :
  Z.of_nat (str_len (s ++ [c])) < 2 ^ 32 - 1 →
  step_pos (line_of s, col_of s) c = (line_of (s ++ [c]), col_of (s ++ [c])).
Proof.
  intros Hl. unfold step_pos, as_u32. cbn [fst snd]. rewrite line_of_snoc, col_of_snoc.
  pose proof (line_col_bound s). rewrite str_len_app, str_len_cons, str_len_nil in Hl.
  pose proof (len_utf8_pos c).
  repeat case_match; try done; rewrite Z.mod_small by lia; done.
Qed.

Lemma step_pos_app s t :
  Z.of_nat (str_len (s ++ t)) < 2 ^ 32 - 1 →
  foldl step_pos (line_of s, col_of s) t = (line_of (s ++ t), col_of (s ++ t)).
Proof.
  revert s. induction t as [|c t IH]; intros s Hl; [by rewrite app_nil_r|].
  cbn [foldl]. rewrite (app_assoc s [c] t : s ++ c :: t = _) in Hl |- *.
  rewrite step_pos_snoc, IH; [done..|]. rewrite str_len_app in Hl. lia.
Qed.

(** ** The state invariant *)

Definition pending_ok (m : MarkupState) : Prop := ∀ q, mk_pending m = Some q → ascii_char q.

Section props.
Context (is_alphabetic is_numeric : Z → bool).
Hypothesis digits_numeric : ∀ c, is_ascii_digit c = true → is_numeric c = true.
Context (src : str) (opts : TokenizerOptions).
Hypothesis src_valid : valid_str src.
Hypothesis src_small : Z.of_nat (str_len src) < 2 ^ 32 - 1.

(** The cursor stands between [pre] and [post], and [pre] has been read. *)
Record Inv (lx : Lexer) (pre post : str) : Prop := mkInv {
  inv_src : src = pre ++ post;
  inv_i : lx_i lx = str_len pre;
  inv_line : lx_line lx = line_of pre;
  inv_col : lx_col lx = col_of pre;
  inv_lexed : Lexed (lx_out lx) pre;
  inv_pending : pending_ok (lx_m lx);
}.

Lemma prefix_small (a b : str) : src = a ++ b → Z.of_nat (str_len a) < 2 ^ 32 - 1.
Proof. intros ->. rewrite str_len_app in src_small. lia. Qed.

(** [adv_to] over a text: the cursor and the positions move, nothing else. *)
Lemma adv_to_Ok lx pre mid post to :
  Inv lx pre (mid ++ post) → to = str_len (pre ++ mid) →
  adv_to src lx to =
  Ok (mkLexer (lx_out lx) (str_len (pre ++ mid)) (line_of (pre ++ mid)) (col_of (pre ++ mid))
        (lx_m lx) (lx_heredocs lx) (lx_parens lx) (lx_shell_nest_off lx) (lx_r_raw_off lx)).
Proof.
  intros [Hs Hi Hl Hc _ _] ->. unfold adv_to. rewrite Hi, Hl, Hc.
  rewrite Hs at 1. rewrite slice_range_app, tk_bind_Ok by by rewrite ?str_len_app.
  rewrite step_pos_app; [done|]. apply (prefix_small _ post). by rewrite <- app_assoc.
Qed.

Lemma adv_gaps lx pre g post to :
  Inv lx pre (g ++ post) → Forall (λ c, is_gap c = true) g → to = str_len (pre ++ g) →
  returns (adv_to src lx to) (λ lx', Inv lx' (pre ++ g) post).
Proof.
  intros HI Hg ->. rewrite (adv_to_Ok lx pre g post) by done. apply returns_Ok.
  destruct HI. split; try done; [by rewrite <- app_assoc|]. by apply Lexed_gaps.
Qed.

Lemma as_u32_offset (a b : str) : src = a ++ b → as_u32 (Z.of_nat (str_len a)) = Z.of_nat (str_len a).
Proof. intros H%prefix_small. unfold as_u32. apply Z.mod_small. lia. Qed.

Lemma push_returns lx pre c text post to class :
  Inv lx pre ((c :: text) ++ post) → is_gap c = false → to = str_len (pre ++ c :: text) →
  returns (push src lx to class) (λ lx', Inv lx' (pre ++ c :: text) post).
Proof.
  intros HI Hc ->. unfold push. rewrite (adv_to_Ok lx pre (c :: text) post), tk_bind_Ok by done.
  destruct HI as [Hs Hi Hl Hcol Hx Hp]. rewrite Hi, Hl, Hcol.
  rewrite Hs at 1. rewrite slice_range_app, tk_bind_Ok by by rewrite ?str_len_app.
  apply returns_Ok.
  assert (src = (pre ++ c :: text) ++ post) as Hs' by by rewrite <- app_assoc.
  split; try done. simpl. rewrite !(as_u32_offset _ _ Hs), (as_u32_offset _ _ Hs').
  by apply Lexed_token.
Qed.

(** The cursor may lag behind by gaps. *)
Definition Near (lx : Lexer) (pre post : str) : Prop :=
  ∃ a g, pre = a ++ g ∧ Forall (λ c, is_gap c = true) g ∧ Inv lx a (g ++ post).

Lemma Inv_Near lx pre post : Inv lx pre post → Near lx pre post.
Proof. intros H. exists pre, []. by rewrite app_nil_r. Qed.

Lemma adv_near lx pre g post to :
  Near lx pre (g ++ post) → Forall (λ c, is_gap c = true) g → to = str_len (pre ++ g) →
  returns (adv_to src lx to) (λ lx', Inv lx' (pre ++ g) post).
Proof.
  intros (a & h & -> & Hh & HI) Hg ->. rewrite <- (app_assoc a). rewrite app_assoc in HI.
  eapply adv_gaps; [done| |done]. by apply Forall_app.
Qed.

Lemma adv_near_here lx pre post to :
  Near lx pre post → to = str_len pre → returns (adv_to src lx to) (λ lx', Inv lx' pre post).
Proof.
  intros HN ->. eapply returns_weaken; [apply (adv_near lx pre [] post)|]; rewrite ?app_nil_r; done.
Qed.

Lemma trimmed_returns lx pre s post from to class :
  Near lx pre (s ++ post) → from = str_len pre → to = str_len (pre ++ s) →
  returns (trimmed src lx from to class) (λ lx', Near lx' (pre ++ s) post).
Proof.
  intros HN -> ->. unfold trimmed.
  assert (src = pre ++ s ++ post) as Hs.
  { destruct HN as (a & g & -> & _ & HI). by rewrite (inv_src _ _ _ HI), <- !app_assoc. }
  rewrite Hs at 1. rewrite slice_range_app, tk_bind_Ok by by rewrite ?str_len_app.
  destruct (trim_start_split is_gap s) as (x & Hx & Hxg & Hh).
  destruct (trim_end_split is_gap (trim_start_matches is_gap s)) as (y & Hy & Hyg & _).
  set (t := trim_start_matches is_gap s) in *. set (u := trim_end_matches is_gap t) in *.
  rewrite Hx in HN |- *.
  replace (str_len (pre ++ x ++ t) - str_len t)%nat with (str_len (pre ++ x))
    by (rewrite !str_len_app; lia).
  destruct (_ <? _)%nat eqn:E.
  - destruct u as [|c u]; [rewrite str_len_nil, Nat.add_0_r, Nat.ltb_irrefl in E; done|].
    rewrite Hy in HN |- *. rewrite <- !app_assoc in HN. eapply returns_bind; [by apply (adv_near lx pre x)|].
    intros lx' HI. eapply returns_weaken;
      [apply (push_returns lx' (pre ++ x) c u (y ++ post))|].
    + done.
    + apply Hh. by rewrite Hy.
    + by rewrite (str_len_app (pre ++ x)).
    + intros lx'' HI'. exists ((pre ++ x) ++ c :: u), y. split_and!; try done.
      by rewrite <- !app_assoc.
  - assert (u = []) as Hu.
    { apply str_len_0. apply Nat.ltb_ge in E. lia. }
    apply returns_Ok. destruct HN as (a & g & -> & Hg & HI). rewrite Hu in Hy. simpl in Hy.
    exists a, (g ++ x ++ t). rewrite <- !app_assoc in *. split_and!; [done| |done].
    rewrite Hy. by rewrite !Forall_app.
Qed.

(** ** One token *)

Definition Hit_ok (rest : str) (h : Hit) : Prop := gl rest (h_len h) ∧ pending_ok (h_m h).
Definition hit_ok (rest : str) : option Hit → Prop := from_option (Hit_ok rest) True.

Lemma first_hit_returns rest l :
  Forall (λ b, returns b (hit_ok rest)) l → returns (first_hit l) (hit_ok rest).
Proof.
  induction 1 as [|b l Hb _ IH]; cbn [first_hit]; [by apply returns_Ok|].
  eapply returns_bind; [exact Hb|]. intros [h|] Hh; [by apply returns_Ok|done].
Qed.

(** The first branch is tried first; the others only when it has no answer. *)
Lemma first_hit_cons rest b l :
  returns b (λ o, hit_ok rest o ∧ (o = None → returns (first_hit l) (hit_ok rest))) →
  returns (first_hit (b :: l)) (hit_ok rest).
Proof.
  intros Hb. cbn [first_hit]. eapply returns_bind; [exact Hb|].
  intros [h|] [Hh Hl]; [by apply returns_Ok|by apply Hl].
Qed.

Lemma first_hit_last rest l h :
  Forall (λ b, returns b (hit_ok rest)) l → Hit_ok rest h →
  returns (first_hit (l ++ [Ok (Some h)])) (λ o, ∃ h', o = Some h' ∧ Hit_ok rest h').
Proof.
  intros Hl Hh. induction Hl as [|b l Hb _ IH]; cbn [first_hit app].
  - apply returns_Ok. by exists h.
  - eapply returns_bind; [exact Hb|]. intros [h'|] Hh'; [|done]. apply returns_Ok. by exists h'.
Qed.

Lemma when_returns rest cond f class m :
  pending_ok m → (cond = true → returns f (glo rest)) → returns (when cond f class m) (hit_ok rest).
Proof.
  intros Hm Hf. unfold when. destruct cond; [|by apply returns_Ok].
  eapply returns_bind; [by apply Hf|]. intros [n|] Hn; by apply returns_Ok.
Qed.
Lemma when_len_returns rest cond f class m :
  pending_ok m → (cond = true → returns f (gl rest)) → returns (when_len cond f class m) (hit_ok rest).
Proof.
  intros Hm Hf. unfold when_len. destruct cond; [|by apply returns_Ok].
  eapply returns_bind; [by apply Hf|]. intros n Hn; by apply returns_Ok.
Qed.

(** Splits the condition a branch was entered on. *)
Ltac conds := repeat match goal with
  | H : _ && _ = true |- _ => apply andb_true_iff in H as [? ?]
  | H : (?a =? _)%Z = true |- _ => apply Z.eqb_eq in H
  end.

Section at_cursor.
Context (lx : Lexer) (pre post : str) (c : Z) (r : str).
Let rest : str := c :: r.
Hypothesis HI : Inv lx pre (rest ++ post).
Hypothesis Hgap : is_gap c = false.

Lemma rest_valid : valid_str rest.
Proof.
  unfold valid_str in *. rewrite (inv_src _ _ _ HI), !Forall_app in src_valid. tauto.
Qed.
Lemma rest_head_lf : head rest ≠ Some LF.
Proof. intros [= ->]. by vm_compute in Hgap. Qed.

Lemma slice_before : slice_to src (lx_i lx) = Ok pre.
Proof. rewrite (inv_i _ _ _ HI), (inv_src _ _ _ HI). by apply slice_to_app. Qed.

Lemma slice_one : ascii_char c → slice_from rest 1 = Ok r.
Proof. intros Hc. apply (slice_from_app [c] r). by rewrite str_len_cons, len_utf8_ascii. Qed.

Lemma hash_ok_returns : returns (hash_ok src opts lx) (λ _, True).
Proof.
  unfold hash_ok. case_match; [by apply returns_Ok|]. case_match eqn:E; [|by apply returns_Ok].
  apply andb_true_iff in E as [_ E%Nat.ltb_lt]. rewrite slice_before, tk_bind_Ok.
  destruct (last pre) as [p|] eqn:El; [by apply returns_Ok|].
  apply last_None in El as ->. rewrite (inv_i _ _ _ HI) in E. cbn in E. lia.
Qed.

Lemma hash_comment_returns : returns (hash_comment src opts lx rest c) (λ _, True).
Proof.
  unfold hash_comment. destruct (c =? chr "#") eqn:E; [|by apply returns_Ok].
  eapply (returns_bind _ _ (λ _, True)).
  { destruct (hash_comments opts); [apply hash_ok_returns|by apply returns_Ok]. }
  intros [] _; [by apply returns_Ok|]. case_match; [|by apply returns_Ok].
  rewrite slice_one; [by apply returns_Ok|]. apply Z.eqb_eq in E as ->. ascii.
Qed.

Lemma dash_comment_returns : returns (dash_comment_at src opts lx rest) (λ _, True).
Proof.
  unfold dash_comment_at. repeat (case_match; [by apply returns_Ok|]).
  destruct (trim_start_split (Z.eqb (chr "-")) rest) as (a & Ha & _).
  set (t := trim_start_matches _ rest) in *. rewrite Ha.
  rewrite slice_from_app, tk_bind_Ok by (rewrite str_len_app; lia).
  rewrite slice_before. by apply returns_Ok.
Qed.

Lemma eol_comment_returns : returns (eol_comment src opts lx rest c) (λ _, True).
Proof.
  unfold eol_comment. eapply returns_bind; [apply hash_comment_returns|]. intros h _.
  case_match; [by apply returns_Ok|]. eapply (returns_bind _ _ (λ _, True)).
  { destruct (dash_comments opts); [apply dash_comment_returns|by apply returns_Ok]. }
  intros d _. by apply returns_Ok.
Qed.

Lemma aspx_branch_returns m :
  pending_ok m →
  returns (aspx_branch opts rest m) (λ o, hit_ok rest o ∧
    (o = None → aspx opts = true → starts_with rest (lit "<%") = false)).
Proof.
  intros Hm. unfold aspx_branch. apply returns_Ok. destruct (aspx opts); [|done].
  pose proof (aspx_len_glo rest) as Hg. destruct (aspx_len rest) as [[n cl]|] eqn:E.
  - split; [|done]. split; [done|]. simpl. by case_bool_decide.
  - split; [done|]. intros _ _. unfold aspx_len in E. unfold starts_with. by repeat case_match.
Qed.

Lemma pending_branch_returns m mk :
  pending_ok m → (aspx opts = true → starts_with rest (lit "<%") = false) →
  returns (pending_branch opts rest m mk) (hit_ok rest).
Proof.
  intros Hm Ha. unfold pending_branch. destruct mk; [|by apply returns_Ok].
  destruct (mk_pending m) as [q|] eqn:Eq; [|by apply returns_Ok].
  eapply returns_bind; [apply attr_value_len_returns; [done|by apply Hm|done]|].
  intros [n closed] Hn. apply returns_Ok. split; [done|]. simpl. by destruct closed.
Qed.

Lemma heredoc_branch_returns m :
  pending_ok m → returns (heredoc_branch src opts lx rest c m) (hit_ok rest).
Proof.
  intros Hm. unfold heredoc_branch. case_match; [|by apply returns_Ok].
  rewrite slice_before, tk_bind_Ok. case_match; [|by apply returns_Ok].
  eapply returns_bind; [apply heredoc_marker_returns|].
  intros [[[n d] s]|] Hn; by apply returns_Ok.
Qed.

Lemma ansi_quoted_returns :
  starts_with rest [chr "$"; SQ] = true →
  returns (r1 ← slice_from rest 1; Ok (1 + quoted_len r1 SQ)%nat) (gl rest).
Proof.
  intros [t Ht]%starts_with_spec. injection Ht as Hc Hr.
  assert (ascii_char c) by (rewrite Hc; ascii). rewrite slice_one by done.
  apply returns_Ok. apply quoted_after; [done|by rewrite Hr].
Qed.

Lemma markup_quote_returns m mk :
  pending_ok m → returns (markup_quote opts rest c m mk) (hit_ok rest).
Proof.
  intros Hm. unfold markup_quote. case_match eqn:E; [|by apply returns_Ok].
  assert (ascii_char c) as Hc.
  { apply andb_true_iff in E as [_ [[E|E]%orb_true_iff|E]%orb_true_iff];
      apply Z.eqb_eq in E as ->; ascii. }
  case_match.
  - eapply returns_bind; [by apply attr_value_len_returns|].
    intros [n closed] Hn. apply returns_Ok. split; [done|]. simpl. destruct closed; [done|].
    by intros ? [= <-].
  - apply returns_Ok. split; [|done]. simpl. rewrite <- (len_utf8_ascii c Hc). apply gl_cons.
Qed.

(** The branches of the chain, in their order. *)
Lemma hit_comments_returns m mk :
  pending_ok m → returns (first_hit (hit_comments src opts lx rest c m mk ++
    hit_strings is_alphabetic src opts lx rest c m mk)) (hit_ok rest).
Proof.
  intros Hm. unfold hit_comments, hit_strings. cbn [app]. apply first_hit_cons.
  eapply returns_weaken; [by apply aspx_branch_returns|].
  intros o [Hh Hasp]. split; [done|]. intros Ho. specialize (Hasp Ho). clear o Hh Ho.
  pose proof rest_valid as Hv. pose proof rest_head_lf as Hlf. apply first_hit_returns.
  assert (rest ≠ []) as Hne by done.
  repeat apply List.Forall_cons; [..|apply List.Forall_nil];
    try (apply when_returns; [done|intros]); try (apply when_len_returns; [done|intros]); conds.
  all: eauto 4 with lexlen.
  - by apply pending_branch_returns.
  - eapply returns_bind; [apply eol_comment_returns|]. intros e _.
    apply when_len_returns; eauto with lexlen.
  - by apply heredoc_branch_returns.
  - by apply ansi_quoted_returns.
  - apply (doubled_len_returns _ SQ); eauto with lexlen.
  - apply (doubled_len_returns _ DQ); eauto with lexlen.
Qed.

Lemma hit_words_returns m mk :
  pending_ok m →
  returns (first_hit (hit_words is_alphabetic is_numeric opts rest c m mk)) (hit_ok rest).
Proof.
  intros Hm. pose proof rest_valid as Hv. pose proof rest_head_lf as Hlf.
  assert (rest ≠ []) as Hne by done. apply first_hit_returns.
  repeat apply List.Forall_cons; [..|apply List.Forall_nil];
    try (apply when_returns; [done|intros]); try (apply when_len_returns; [done|intros]); conds.
  all: eauto 4 with lexlen.
  - by apply markup_quote_returns.
  - destruct (line_len_returns rest) as (n & -> & a & b & Heq & <- & _ & Ha); [done..|].
    rewrite tk_bind_Ok, Heq, slice_to_app, tk_bind_Ok by done.
    eapply returns_weaken; [apply (doubled_len_returns a SQ)|]; [..|intros; by apply gl_app_l].
    + destruct a; [done|]. injection Heq as <- _. by subst.
    + ascii.
    + rewrite Heq in Hv. by apply Forall_app in Hv as [? _].
Qed.

Lemma hit_last_returns m :
  pending_ok m →
  returns (first_hit (hit_last opts lx rest c m)) (λ o, ∃ h, o = Some h ∧ Hit_ok rest h).
Proof.
  intros Hm. assert (rest ≠ []) as Hne by done. unfold hit_last.
  apply (first_hit_last rest [_; _; _]); [|split; [apply gl_cons|done]].
  repeat apply List.Forall_cons; [..|apply List.Forall_nil];
    try (apply when_returns; [done|intros]); try (apply when_len_returns; [done|intros]);
    eauto 4 with lexlen.
Qed.

Lemma giving_up_returns cond flag f :
  (cond = true → returns f (from_option (glo rest) True)) →
  returns (giving_up cond flag f) (λ nf, glo rest nf.1).
Proof.
  intros Hf. unfold giving_up. case_match eqn:E; [|by apply returns_Ok]. conds.
  eapply returns_bind; [by apply Hf|]. intros [o|] Ho; by apply returns_Ok.
Qed.

(** Every chain of branches finds a token. *)
Lemma scan_returns :
  returns (scan is_alphabetic is_numeric src opts lx rest c)
    (λ hf, ∃ h, hf.1.1 = Some h ∧ Hit_ok rest h).
Proof.
  pose proof (inv_pending _ _ _ HI) as Hm. pose proof rest_valid as Hv.
  assert (rest ≠ []) as Hne by done. unfold scan.
  set (mk := markup opts && negb (mk_code (lx_m lx))).
  eapply returns_bind; [by apply hit_comments_returns|].
  intros [h|] Hh; [by apply returns_Ok; exists h|].
  eapply returns_bind; [apply giving_up_returns; by eauto with lexlen|].
  intros [[n|] raw_off] Hn; [by apply returns_Ok; eexists|]. 
  eapply returns_bind; [by apply hit_words_returns|].
  intros [h|] Hh'; [by apply returns_Ok; exists h|].
  eapply returns_bind; [apply giving_up_returns; by eauto with lexlen|].
  intros [[n'|] nest_off] Hn'; [by apply returns_Ok; eexists|].
  eapply returns_bind; [by apply hit_last_returns|].
  intros o (h & -> & Ho). apply returns_Ok. by exists h.
Qed.

Lemma track_tag_returns m active :
  pending_ok m → returns (track_tag is_alphabetic m rest c active) pending_ok.
Proof.
  intros Hm. unfold track_tag. destruct active; [|by apply returns_Ok].
  destruct (c =? chr "<") eqn:E; [|case_match; by apply returns_Ok].
  rewrite slice_one; [by apply returns_Ok|]. apply Z.eqb_eq in E as ->. ascii.
Qed.

(** A round of the loop consumes a token. *)
Lemma run_token_returns limit :
  limit = str_len (pre ++ rest) →
  returns (run_token is_alphabetic is_numeric src opts lx limit c)
    (λ lx', ∃ a b, rest = a ++ b ∧ a ≠ [] ∧ Inv lx' (pre ++ a) (b ++ post)).
Proof.
  intros ->. unfold run_token. destruct (id HI) as [Hs Hi Hl Hc Hx Hp].
  rewrite Hs at 1. rewrite slice_range_app, tk_bind_Ok by by rewrite ?str_len_app.
  eapply returns_bind; [apply scan_returns|].
  intros [[o raw_off] nest_off] (h & Ho & [(a & b & Hab & Hlen) Hpos] & Hhp).
  simpl in Ho. subst o. cbn [unwrap]. rewrite tk_bind_Ok.
  eapply returns_bind; [by apply track_tag_returns|]. intros m Hm.
  destruct a as [|d a]; [cbn in Hlen; lia|]. assert (d = c) as -> by by injection Hab.
  eapply returns_weaken; [apply (push_returns _ pre c a (b ++ post))|].
  - split; try done. by rewrite Hab, <- app_assoc in Hs.
  - done.
  - by rewrite str_len_app, Hlen, Hi.
  - intros lx' HI'. by exists (c :: a), b.
Qed.
End at_cursor.

(** ** Heredoc bodies *)

Lemma heredoc_search_returns pre body post delim strip limit fuel p :
  src = pre ++ body ++ post → limit = str_len (pre ++ body) →
  (limit < p)%nat ∨ (∃ x y, body = x ++ y ∧ p = str_len (pre ++ x)) → (limit - p ≤ fuel)%nat →
  returns (heredoc_search src fuel delim strip limit p)
    (λ e, ∃ x y, body = x ++ y ∧ e = str_len (pre ++ x)).
Proof.
  intros Hs Hlim. revert p. induction fuel as [|fuel IH]; intros p Hp Hf; simpl.
  { rewrite (proj2 (Nat.ltb_ge p limit)) by lia. apply returns_Ok. exists body, [].
    by rewrite app_nil_r. }
  destruct (p <? limit)%nat eqn:E; [apply Nat.ltb_lt in E|apply returns_Ok; exists body, [];
    by rewrite app_nil_r].
  destruct Hp as [Hp|(x & y & -> & ->)]; [lia|].
  assert (src = (pre ++ x) ++ y ++ post) as Hs1 by by rewrite Hs, <- !app_assoc.
  rewrite Hs1 at 1. rewrite slice_range_app, tk_bind_Ok by (rewrite ?Hlim, ?str_len_app; lia).
  destruct (find_lf_or y) as (a & b & Hy & Ha & Hnl & Hb).
  assert (match find_char (Z.eqb LF) y with
    Some q => (str_len (pre ++ x) + q)%nat | None => limit end = str_len (pre ++ x ++ a)) as ->.
  { rewrite Hlim. destruct (find_char (Z.eqb LF) y); simpl in Ha; rewrite !str_len_app; lia. }
  assert (src = (pre ++ x) ++ a ++ b ++ post) as Hs2 by by rewrite Hs1, Hy, <- !app_assoc.
  rewrite Hs2 at 1. rewrite slice_range_app, tk_bind_Ok by (rewrite ?str_len_app; lia).
  assert (∃ z, a = strip_suffix_or [CR] a ++ z) as [z Hz].
  { unfold strip_suffix_or. destruct (strip_suffix [CR] a) as [t|] eqn:Et.
    - apply strip_suffix_Some in Et as ->. by exists [CR].
    - exists []. by rewrite app_nil_r. }
  case_bool_decide.
  - apply returns_Ok. exists (x ++ strip_suffix_or [CR] a), (z ++ b). split.
    + rewrite <- (app_assoc x), (app_assoc _ z b), <- Hz. by rewrite Hy.
    + rewrite !str_len_app. lia.
  - apply IH; [|rewrite !str_len_app in *; lia].
    destruct Hb as [-> | [b' ->]]; [left|right].
    + rewrite Hlim, Hy, app_nil_r, !str_len_app. lia.
    + exists (x ++ a ++ [LF]), b'. rewrite Hy, <- !app_assoc. split; [done|].
      rewrite !str_len_app. change (str_len [LF]) with 1%nat. lia.
Qed.

(** What [heredoc_loop] does with one body: the gaps, then the text. *)
Lemma body_returns lx pre x post :
  Inv lx pre (x ++ post) →
  returns (let first := match find_char (λ c, negb (is_gap c)) x with
             Some q => (str_len pre + q)%nat | None => str_len (pre ++ x) end in
           if (first <? str_len (pre ++ x))%nat
           then lx ← adv_to src lx first; push src lx (str_len (pre ++ x)) Literal
           else adv_to src lx (str_len (pre ++ x)))
    (λ lx', Inv lx' (pre ++ x) post).
Proof.
  intros HI. destruct (find_char (λ c, negb (is_gap c)) x) as [q|] eqn:E; cbv zeta.
  - apply find_char_Some in E as (g & c & t & -> & <- & Hc & Hg).
    assert (Forall (λ c, is_gap c = true) g) as Hg'.
    { eapply Forall_impl; [exact Hg|]. intros d. simpl. by destruct (is_gap d). }
    rewrite (proj2 (Nat.ltb_lt _ _))
      by (pose proof (len_utf8_pos c); rewrite !str_len_app, str_len_cons; lia).
    rewrite <- app_assoc in HI. rewrite app_assoc.
    eapply returns_bind; [apply (adv_gaps lx pre g); [done..|by rewrite str_len_app]|].
    intros lx' HI'. apply (push_returns lx' (pre ++ g) c t post); [done| |done].
    by destruct (is_gap c).
  - rewrite Nat.ltb_irrefl. apply find_char_None in E. apply (adv_gaps lx pre x post); [done| |done].
    eapply Forall_impl; [exact E|]. intros d. simpl. by destruct (is_gap d).
Qed.

(** [Within lx pre body post]: the cursor is somewhere in [body]. *)
Definition Within (lx : Lexer) (pre body post : str) : Prop :=
  ∃ x y, body = x ++ y ∧ Inv lx (pre ++ x) (y ++ post).

Lemma Within_here lx pre body post : Inv lx pre (body ++ post) → Within lx pre body post.
Proof. intros H. exists [], body. by rewrite app_nil_r. Qed.
Lemma Within_shift lx pre a body post :
  Within lx (pre ++ a) body post → Within lx pre (a ++ body) post.
Proof. intros (x & y & -> & HI). exists (a ++ x), y. by rewrite <- !app_assoc in *. Qed.

Lemma heredoc_loop_returns docs limit lx pre body post :
  Inv lx pre (body ++ post) → limit = str_len (pre ++ body) →
  returns (heredoc_loop src docs limit lx) (λ lx', Within lx' pre body post).
Proof.
  revert lx pre body. induction docs as [|[delim strip] docs IH]; intros lx pre body HI Hlim;
    cbn [heredoc_loop]; [by apply returns_Ok, Within_here|].
  case_match; [by apply returns_Ok, Within_here|].
  rewrite (inv_i _ _ _ HI). pose proof (inv_src _ _ _ HI) as Hs.
  eapply returns_bind.
  { apply (heredoc_search_returns pre body post); [done..| |lia].
    right. exists [], body. by rewrite app_nil_r. }
  intros e (x & y & -> & ->). rewrite <- app_assoc in HI, Hs.
  rewrite Hs at 1. rewrite slice_range_app, tk_bind_Ok by by rewrite ?str_len_app.
  eapply returns_bind; [by apply body_returns|]. intros lx' HI'.
  pose proof (inv_src _ _ _ HI') as Hs'.
  rewrite (inv_i _ _ _ HI'). rewrite Hs' at 1.
  rewrite slice_range_app, tk_bind_Ok by (rewrite ?Hlim, ?str_len_app; lia).
  assert (Within lx' pre (x ++ y) post) as Hw by by exists x, y.
  destruct (find_char (Z.eqb LF) y) as [nl|] eqn:E; [|by apply returns_Ok].
  apply plain_close in E as (u & v & -> & <-); [|ascii]. rewrite <- (app_assoc u) in Hs', HI'.
  rewrite Hs' at 1. rewrite slice_range_app, tk_bind_Ok by done.
  destruct (forallb is_gap u) eqn:Eg; [|by apply returns_Ok].
  change (u ++ (LF :: v) ++ post) with (u ++ [LF] ++ v ++ post) in HI'.
  rewrite (app_assoc u) in HI'.
  eapply returns_bind; [apply (adv_gaps lx' (pre ++ x) (u ++ [LF]) (v ++ post)); [done| |]|].
  - apply Forall_app. split; [|by repeat constructor].
    rewrite forallb_forall in Eg. apply Forall_forall. intros d Hd. by apply Eg, list_elem_of_In.
  - rewrite !str_len_app. change (str_len [LF]) with 1%nat. lia.
  - intros lx2 HI2. eapply returns_weaken; [apply (IH lx2 _ v HI2)|].
    + rewrite Hlim. f_equal. by rewrite <- !app_assoc.
    + intros lx3 Hw3. do 2 apply Within_shift in Hw3. by rewrite <- (app_assoc u) in Hw3.
Qed.

Lemma heredoc_bodies_returns limit lx pre body post :
  Inv lx pre (body ++ post) → limit = str_len (pre ++ body) →
  returns (heredoc_bodies src lx limit) (λ lx', Within lx' pre body post).
Proof. intros [] ->. by apply heredoc_loop_returns. Qed.

(** The main loop reads exactly up to its limit. *)
Lemma run_returns fuel limit lx pre body post :
  Inv lx pre (body ++ post) → limit = str_len (pre ++ body) → (str_len body ≤ fuel)%nat →
  returns (run is_alphabetic is_numeric src opts fuel limit lx) (λ lx', Inv lx' (pre ++ body) post).
Proof.
  intros HI ->. revert lx pre body HI. induction fuel as [|fuel IH]; intros lx pre body HI Hf;
    cbn [run]; rewrite (inv_i _ _ _ HI), str_len_app.
  { rewrite (proj2 (Nat.ltb_ge _ _)) by lia. apply returns_Ok.
    assert (body = []) as -> by (apply str_len_0; lia). by rewrite app_nil_r. }
  destruct body as [|c r].
  { rewrite (proj2 (Nat.ltb_ge _ _)) by (rewrite str_len_nil; lia). apply returns_Ok.
    by rewrite app_nil_r. }
  rewrite (proj2 (Nat.ltb_lt _ _)) by (pose proof (str_len_pos (c :: r) ltac:(done)); lia).
  rewrite (inv_src _ _ _ HI) at 1. rewrite slice_from_app, tk_bind_Ok by done.
  cbn [head app unwrap]. rewrite tk_bind_Ok, <- str_len_app.
  assert (∀ lx' a b, c :: r = a ++ b → a ≠ [] → Within lx' (pre ++ a) b post →
    returns (run is_alphabetic is_numeric src opts fuel (str_len (pre ++ c :: r)) lx')
      (λ lx', Inv lx' (pre ++ c :: r) post)) as Hgo.
  { intros lx' a b Hab Ha (x & y & -> & HI'). rewrite Hab in Hf |- *. rewrite !app_assoc.
    apply (IH lx' ((pre ++ a) ++ x) y HI'). pose proof (str_len_pos _ Ha).
    rewrite !str_len_app in Hf. lia. }
  destruct (is_gap c) eqn:Eg.
  - eapply returns_bind; [apply (adv_gaps lx pre [c] (r ++ post)); [done|by repeat constructor|]|].
    { rewrite str_len_app, str_len_cons, str_len_nil. lia. }
    intros lx1 HI1. eapply (returns_bind _ _ (λ lx', Within lx' (pre ++ [c]) r post)).
    + case_match; [|by apply returns_Ok, Within_here].
      apply heredoc_bodies_returns; [done|by rewrite <- app_assoc].
    + intros lx2 Hw. by apply (Hgo lx2 [c] r).
  - eapply returns_bind; [by apply (run_token_returns lx pre post c r HI Eg)|].
    intros lx1 (a & b & Hab & Ha & HI1). apply (Hgo lx1 a b Hab Ha). by apply Within_here.
Qed.

(** ** By byte offset *)

Definition At (lx : Lexer) (n : nat) : Prop := ∃ pre post, Inv lx pre post ∧ str_len pre = n.
Definition NearAt (lx : Lexer) (n : nat) : Prop := ∃ pre post, Near lx pre post ∧ str_len pre = n.

Lemma At_NearAt lx n : At lx n → NearAt lx n.
Proof. intros (pre & post & HI & <-). exists pre, post. split; [by apply Inv_Near|done]. Qed.

(** Cutting the rest of the source at a later boundary. *)
Lemma cut_at pre post k :
  src = pre ++ post → isb src k → (str_len pre ≤ k)%nat →
  ∃ mid t, post = mid ++ t ∧ str_len (pre ++ mid) = k.
Proof.
  intros Hs (x & y & Hxy & <-) Hle. rewrite Hs in Hxy.
  destruct (app_len_split pre post x y Hxy Hle) as (m & -> & ->). by exists m, y.
Qed.

Lemma Near_src lx pre post : Near lx pre post → src = pre ++ post.
Proof. intros (a & g & -> & _ & HI). by rewrite (inv_src _ _ _ HI), <- app_assoc. Qed.

Lemma run_to_at lx n k :
  At lx n → isb src k → (n ≤ k)%nat →
  returns (run_to is_alphabetic is_numeric src opts k lx) (λ lx', At lx' k).
Proof.
  intros (pre & post & HI & <-) Hk Hle.
  destruct (cut_at pre post k (inv_src _ _ _ HI) Hk Hle) as (mid & t & -> & <-).
  unfold run_to. eapply returns_weaken; [apply (run_returns _ _ lx pre mid t HI); [done|]|].
  - rewrite (inv_i _ _ _ HI), str_len_app. lia.
  - intros lx' HI'. by exists (pre ++ mid), t.
Qed.

Lemma trimmed_at lx n k class :
  NearAt lx n → isb src k → (n ≤ k)%nat →
  returns (trimmed src lx n k class) (λ lx', NearAt lx' k).
Proof.
  intros (pre & post & HN & <-) Hk Hle.
  destruct (cut_at pre post k (Near_src _ _ _ HN) Hk Hle) as (mid & t & -> & <-).
  eapply returns_weaken; [by apply (trimmed_returns lx pre mid t)|].
  intros lx' HI'. by exists (pre ++ mid), t.
Qed.

Lemma adv_at lx n : NearAt lx n → returns (adv_to src lx n) (λ lx', At lx' n).
Proof.
  intros (pre & post & HN & <-). eapply returns_weaken; [by apply adv_near_here|].
  intros lx' HI. by exists pre, post.
Qed.

Lemma slice_range_at n k :
  isb src n → isb src k → (n ≤ k)%nat → returns (slice_range src n k) (λ _, True).
Proof.
  intros Hn Hk Hle. destruct (isb_split src n k Hn Hk Hle) as (a & m & b & -> & <- & <-).
  rewrite slice_range_app by done. by apply returns_Ok.
Qed.

(** ** Fixed columns *)

Lemma col_at_shift line ls n :
  col_at line ls (ls + str_len line) n = (ls + col_at line 0 (str_len line) n)%nat.
Proof. unfold col_at. by destruct (_ !! _) as [[p ?]|]. Qed.

Lemma col_at_isb line n : isb line (col_at line 0 (str_len line) n).
Proof.
  unfold col_at. destruct (_ !! _) as [[p c]|] eqn:E; [|apply isb_len].
  apply list_elem_of_lookup_2, list_elem_of_filter in E as [_ E].
  rewrite <- (drop_0 (char_indices line)) in E.
  apply char_indices_elem in E as (a & b & -> & -> & _). apply isb_prefix.
Qed.

Lemma char_indices_sorted k s : StronglySorted (λ x y : nat * Z, x.1 < y.1)%nat (char_indices_from k s).
Proof.
  revert k. induction s as [|c s IH]; intros k; cbn [char_indices_from]; constructor; [apply IH|].
  apply Forall_forall. intros [p d] [i Hi]%list_elem_of_lookup.
  apply char_indices_from_lookup in Hi as (a & b & _ & -> & _). pose proof (len_utf8_pos c).
  simpl. lia.
Qed.

Lemma col_at_mono line n m :
  (n ≤ m)%nat → (col_at line 0 (str_len line) n ≤ col_at line 0 (str_len line) m)%nat.
Proof.
  intros Hnm. pose proof (isb_le _ _ (col_at_isb line n)) as Hle. revert Hle. unfold col_at.
  set (L := filter _ _). destruct (L !! (m - 1)%nat) as [[p' c']|] eqn:Em; [|done].
  destruct (L !! (n - 1)%nat) as [[p c]|] eqn:En.
  - intros _. destruct (decide (n - 1 = m - 1)%nat) as [Heq|Hne]; [rewrite Heq in En; simplify_eq; lia|].
    pose proof (sorted_lookup (λ x y : nat * Z, x.1 < y.1)%nat L _ _ _ _
      (sorted_filter _ _ _ (char_indices_sorted 0 line)) En Em ltac:(lia)) as Hlt. simpl in Hlt. lia.
  - apply lookup_ge_None in En. apply lookup_lt_Some in Em. lia.
Qed.

(** The line under the cursor, with its line break. *)
Definition first_piece (post l t : str) : Prop :=
  post = l ++ t ∧ l ≠ [] ∧ ∃ a, (LF ∉ a) ∧ (l = a ++ [LF] ∨ (l = a ∧ t = [])).

Lemma first_piece_split post :
  post ≠ [] →
  ∃ a eol t, post = a ++ eol ++ t ∧ (LF ∉ a) ∧ first_piece post (a ++ eol) t ∧
    default (str_len post) (find_char (Z.eqb LF) post) = str_len a ∧
    Forall (λ c, is_gap c = true) eol ∧
    Nat.min (str_len a + 1) (str_len post) = str_len (a ++ eol).
Proof.
  intros Hne. destruct (find_lf_or post) as (a & b & -> & -> & Ha & [-> | [t ->]]).
  - exists a, [], []. rewrite !app_nil_r in *. split_and!; try done; [|lia].
    split_and!; [by rewrite app_nil_r|done|]. exists a. tauto.
  - exists a, [LF], t. split_and!; try done; [|by repeat constructor|].
    + split_and!; [by rewrite <- app_assoc|by destruct a|]. exists a. tauto.
    + rewrite !str_len_app, str_len_cons. change (str_len [LF]) with 1%nat.
      change (len_utf8 LF) with 1%nat. lia.
Qed.

(** A line without the carriage return that ends it. *)
Lemma cr_split (a : str) ls :
  ∃ line cr, a = line ++ cr ∧ Forall (λ c, is_gap c = true) cr ∧
    (if ends_with a [CR] then ls + str_len a - 1 else ls + str_len a)%nat = (ls + str_len line)%nat.
Proof.
  destruct (ends_with a [CR]) eqn:E.
  - apply ends_with_spec in E as [r ->]. exists r, [CR]. split_and!; [done|by repeat constructor|].
    rewrite str_len_app. change (str_len [CR]) with 1%nat. lia.
  - exists a, []. rewrite app_nil_r. split_and!; [done|constructor|done].
Qed.

(** Skip to a column, then read up to another. *)
Lemma adv_run {A} lx n k (f : Lexer → tk A) Q :
  NearAt lx n → isb src k → (n ≤ k)%nat → (∀ lx', At lx' k → returns (f lx') Q) →
  returns (lx ← adv_to src lx n; lx ← run_to is_alphabetic is_numeric src opts k lx; f lx) Q.
Proof.
  intros Hn Hk Hle Hf. eapply returns_bind; [by apply adv_at|]. intros lx1 H1.
  eapply returns_bind; [by apply (run_to_at lx1 n k)|]. done.
Qed.

(** The columns of a line: the comment area, the indicator, the code. *)
Lemma fixed_areas_returns layout lx ls ce col :
  At lx ls → (∀ n, isb src (col n)) → isb src ce → (∀ n, ls ≤ col n ≤ ce)%nat →
  (∀ n m, n ≤ m → col n ≤ col m)%nat →
  returns (fixed_areas is_alphabetic is_numeric src opts layout ls ce col lx) (λ lx', NearAt lx' ce).
Proof.
  intros Hat Hb Hce Hc Hmono. unfold fixed_areas, trimmed_comment. destruct layout.
  - eapply returns_bind; [apply (trimmed_at lx ls); [by apply At_NearAt|done|apply Hc]|].
    intros lx1 H1. rewrite tk_bind_Ok.
    eapply returns_bind; [by apply slice_range_at; [..|apply Hmono; lia]|]. intros ind _.
    case_match; [apply trimmed_at; [done..|apply Hc]|].
    rewrite (bool_decide_eq_true_2 (Cobol = Cobol)) by done.
    eapply (returns_bind _ _ (λ lc, lc.2 = col 8%nat ∧ At lc.1 (col 8%nat))).
    { apply adv_run; [done..|apply Hmono; lia|]. intros lx2 H2. by apply returns_Ok. }
    intros [lx2 cs] [Hcs H2]. simpl in Hcs, H2. subst cs. apply adv_run; [by apply At_NearAt|done|apply Hmono; lia|].
    intros lx3 H3. apply trimmed_at; [by apply At_NearAt|done|apply Hc].
  - eapply returns_bind; [apply (trimmed_at lx ls); [by apply At_NearAt|done|apply Hc]|].
    intros lx1 H1. eapply (returns_bind _ _ (λ lc, lc.2 = col 7%nat ∧ At lc.1 (col 7%nat))).
    { apply adv_run; [done..|apply Hmono; lia|]. intros lx2 H2. by apply returns_Ok. }
    intros [lx2 cs] [Hcs H2]. simpl in Hcs, H2. subst cs.
    eapply returns_bind; [by apply slice_range_at; [..|apply Hmono; lia]|]. intros ind _.
    case_match; [apply trimmed_at; [by apply At_NearAt|done|apply Hc]|].
    rewrite (bool_decide_eq_false_2 (Rpg = Cobol)), tk_bind_Ok by done.
    apply adv_run; [by apply At_NearAt|done|apply Hmono; lia|].
    intros lx3 H3. apply trimmed_at; [by apply At_NearAt|done|apply Hc].
Qed.

Lemma fixed_line_returns layout lx pre post :
  Inv lx pre post → post ≠ [] →
  returns (fixed_line is_alphabetic is_numeric src opts layout lx)
    (λ lx', ∃ l t, first_piece post l t ∧ Inv lx' (pre ++ l) t).
Proof.
  intros HI Hne. unfold fixed_line. rewrite (inv_i _ _ _ HI).
  pose proof (inv_src _ _ _ HI) as Hs. rewrite Hs at 1. rewrite slice_from_app, tk_bind_Ok by done.
  destruct (first_piece_split post Hne) as (a & eol & t & Hp & _ & Hf & Hle & Heol & Hmin).
  assert (match find_char (Z.eqb LF) post with
    Some p => (str_len pre + p)%nat | None => str_len src end = (str_len pre + str_len a)%nat) as ->.
  { rewrite Hs. destruct (find_char (Z.eqb LF) post); simpl in Hle; rewrite ?str_len_app; lia. }
  assert (src = pre ++ a ++ eol ++ t) as Hs1 by by rewrite Hs, Hp.
  rewrite Hs1 at 1. rewrite slice_range_app, tk_bind_Ok by done.
  destruct (cr_split a (str_len pre)) as (line & cr & -> & Hcr & ->).
  assert (src = pre ++ line ++ (cr ++ eol) ++ t) as Hs2 by by rewrite Hs1, <- !app_assoc.
  rewrite Hs2 at 1. rewrite slice_range_app, tk_bind_Ok by done.
  eapply returns_bind.
  { apply fixed_areas_returns; [by exists pre, post| | | |].
    - intros n. rewrite col_at_shift, Hs2. apply isb_app_r, isb_app_l, col_at_isb.
    - rewrite Hs2. apply isb_app_r, isb_app_l, isb_len.
    - intros n. rewrite col_at_shift. pose proof (isb_le _ _ (col_at_isb line n)). lia.
    - intros n m Hnm. rewrite (col_at_shift _ _ n), (col_at_shift _ _ m). pose proof (col_at_mono line n m Hnm). lia. }
  intros lx' (pre' & post' & HN & Hl). pose proof (Near_src _ _ _ HN) as Hs3.
  assert (pre' = pre ++ line ∧ post' = (cr ++ eol) ++ t) as [-> ->].
  { rewrite Hs3, app_assoc in Hs2. apply app_len_eq in Hs2; [done|]. by rewrite str_len_app. }
  eapply returns_weaken; [apply (adv_near lx' (pre ++ line) (cr ++ eol) t _ HN)|].
  - by apply Forall_app.
  - rewrite Hs. rewrite (str_len_app pre post).
    rewrite <- !Nat.add_assoc, Nat.add_min_distr_l, Hmin, <- str_len_app. f_equal.
    by rewrite <- !app_assoc.
  - intros lx2 HI2. exists ((line ++ cr) ++ eol), t. split; [done|]. by rewrite <- !app_assoc in *.
Qed.

(** A limit at which a line may end. *)
Definition line_cut (p q : str) : Prop := q = [] ∨ p = [] ∨ last p = Some LF.

(** No line crosses such a limit. *)
Lemma first_piece_cut pre mid q l t :
  line_cut (pre ++ mid) q → mid ≠ [] → first_piece (mid ++ q) l t →
  ∃ m, mid = l ++ m ∧ t = m ++ q.
Proof.
  intros Hcut Hmid (Heq & Hl & a & Ha & Hcase).
  destruct (decide (str_len l ≤ str_len mid)%nat) as [Hle|Hgt].
  { symmetry in Heq. by apply app_len_split in Heq. }
  exfalso. apply app_len_split in Heq as (m & -> & ->); [|lia].
  assert (m ≠ []) as Hm by (intros ->; rewrite app_nil_r in Hgt; lia).
  assert (LF ∈ mid) as Hin.
  { destruct Hcut as [[-> _]%app_nil|[[_ ->]%app_nil|Hlast]]; [done..|].
    rewrite last_app in Hlast. destruct (last mid) as [x|] eqn:E; [|by apply last_None in E].
    apply last_Some in E as [l' ->]. set_solver. }
  apply Ha. destruct Hcase as [Hc|[<- _]]; [|set_solver].
  destruct (exists_last Hm) as (m' & x & ->). rewrite app_assoc in Hc.
  apply app_inj_tail in Hc as [<- _]. set_solver.
Qed.

Lemma fixed_returns fuel layout limit lx pre mid q :
  Inv lx pre (mid ++ q) → line_cut (pre ++ mid) q → limit = str_len (pre ++ mid) →
  (str_len mid ≤ fuel)%nat →
  returns (fixed is_alphabetic is_numeric src opts fuel layout limit lx)
    (λ lx', Inv lx' (pre ++ mid) q).
Proof.
  intros HI Hcut ->. revert lx pre mid HI Hcut.
  induction fuel as [|fuel IH]; intros lx pre mid HI Hcut Hf; cbn [fixed];
    rewrite (inv_i _ _ _ HI), str_len_app.
  { rewrite (proj2 (Nat.ltb_ge _ _)) by lia. apply returns_Ok.
    assert (mid = []) as -> by (apply str_len_0; lia). by rewrite app_nil_r. }
  destruct (decide (mid = [])) as [-> | Hmid].
  { rewrite (proj2 (Nat.ltb_ge _ _)) by (rewrite str_len_nil; lia). apply returns_Ok.
    by rewrite app_nil_r. }
  rewrite (proj2 (Nat.ltb_lt _ _)) by (pose proof (str_len_pos mid Hmid); lia).
  eapply returns_bind; [apply (fixed_line_returns layout lx pre _ HI); by destruct mid|].
  intros lx' (l & t & Hp & HI'). pose proof Hp as (_ & Hl & _).
  destruct (first_piece_cut _ _ _ _ _ Hcut Hmid Hp) as (m & -> & ->).
  rewrite <- str_len_app, !app_assoc in *. apply IH; [done..|].
  pose proof (str_len_pos l Hl). rewrite str_len_app in Hf. lia.
Qed.

(** ** Data sections *)

Lemma data_loop_returns free lines start off lx :
  NearAt lx start → (start ≤ off)%nat → (∃ pre, src = pre ++ concat lines ∧ str_len pre = off) →
  returns (data_loop src free lines start off lx)
    (λ ls, NearAt ls.1 ls.2 ∧ (ls.2 ≤ str_len src)%nat).
Proof.
  revert start off lx. induction lines as [|line lines IH]; intros start off lx HN Hle (pre & Hs & Hl);
    cbn [data_loop].
  { apply returns_Ok. split; [done|]. rewrite Hs, str_len_app. simpl. lia. }
  eapply (returns_bind _ _ (λ ls, NearAt ls.1 ls.2 ∧ (ls.2 ≤ off)%nat)).
  - case_match; [|by apply returns_Ok].
    eapply returns_bind; [apply trimmed_at; [done| |done]|].
    + rewrite Hs, <- Hl. apply isb_prefix.
    + intros lx' HN'. by apply returns_Ok.
  - intros [lx' start'] [HN' Hle']. simpl in HN', Hle'. apply IH; [done|lia|].
    exists (pre ++ line). rewrite Hs, <- app_assoc, str_len_app. split; [done|lia].
Qed.

Lemma data_sections_returns lx n :
  NearAt lx n → returns (data_sections src lx n) (λ lx', NearAt lx' (str_len src)).
Proof.
  intros HN. unfold data_sections. destruct (id HN) as (pre & post & HN' & Hl).
  pose proof (Near_src _ _ _ HN') as Hs. rewrite Hs at 1. rewrite slice_from_app, tk_bind_Ok by done.
  eapply returns_bind.
  { apply (data_loop_returns _ _ n n); [done..|]. exists pre. by rewrite concat_split_inclusive. }
  intros [lx' start] [HN2 Hle]. apply trimmed_at; [done|apply isb_len|done].
Qed.

Lemma rpg_data_loop_cut free n off lines o :
  rpg_data_loop free n off lines = Some o →
  ∃ l1 l2, lines = l1 ++ l2 ∧ l2 ≠ [] ∧ o = (off + str_len (concat l1))%nat.
Proof.
  revert n off. induction lines as [|line lines IH]; intros n off; cbn [rpg_data_loop]; [done|].
  case_match.
  - intros [= <-]. exists [], (line :: lines). split_and!; [done..|]. simpl. rewrite str_len_nil. lia.
  - intros (l1 & l2 & -> & Hl2 & ->)%IH. exists (line :: l1), l2. split_and!; [done..|].
    cbn [concat]. rewrite str_len_app. lia.
Qed.

Lemma rpg_data_start_cut :
  ∃ p q, src = p ++ q ∧ line_cut p q ∧ rpg_data_start src = str_len p.
Proof.
  unfold rpg_data_start. destruct (rpg_data_loop _ _ _ _) as [o|] eqn:E.
  - apply rpg_data_loop_cut in E as (l1 & l2 & Heq & Hl2 & ->).
    exists (concat l1), (concat l2). split_and!; [|right|done].
    + by rewrite <- concat_app, <- Heq, concat_split_inclusive.
    + by apply (split_inclusive_cut src l1 l2).
  - exists src, []. rewrite app_nil_r. split_and!; [done|by left|done].
Qed.

Lemma Lexer_new_Inv : Inv Lexer_new [] src.
Proof. by split; [..|constructor|]. Qed.

Lemma tokenize_with_Lexed :
  ∃ out, tokenize_with is_alphabetic is_numeric src opts = Ok out ∧ Lexed out src.
Proof.
  unfold tokenize_with.
  assert (∃ p q, src = p ++ q ∧ line_cut p q ∧
    (if rpg_compile_time_data opts then rpg_data_start src else str_len src) = str_len p)
    as (p & q & Hs & Hcut & ->).
  { destruct (rpg_compile_time_data opts); [apply rpg_data_start_cut|].
    exists src, []. rewrite app_nil_r. split_and!; [done|by left|done]. }
  pose proof Lexer_new_Inv as HI. rewrite Hs in HI at 1.
  assert (At Lexer_new 0) as H0 by (exists [], src; split; [apply Lexer_new_Inv|done]).
  assert (returns (run_to is_alphabetic is_numeric src opts (str_len p) Lexer_new)
    (λ lx, At lx (str_len p))) as Hrun.
  { apply (run_to_at _ 0); [done| |lia]. rewrite Hs. apply isb_prefix. }
  assert (∀ lay, returns (fixed is_alphabetic is_numeric src opts (str_len p) lay (str_len p) Lexer_new)
    (λ lx, At lx (str_len p))) as Hfix.
  { intros lay. eapply returns_weaken; [by apply (fixed_returns _ _ _ _ [] p q)|].
    intros lx HI'. by exists p, q. }
  eapply (returns_bind _ _ (λ lx, At lx (str_len p))).
  { repeat case_match; first [apply Hrun|apply Hfix]. }
  intros lx Hlx. eapply (returns_bind _ _ (λ lx, NearAt lx (str_len src))).
  - case_match eqn:E; [by apply data_sections_returns, At_NearAt|]. apply returns_Ok.
    apply Nat.ltb_ge in E. apply At_NearAt in Hlx. rewrite Hs, str_len_app in E.
    assert (q = []) as -> by (apply str_len_0; lia). by rewrite Hs, app_nil_r.
  - intros lx' (a & b & HN & Hl). apply returns_Ok. pose proof (Near_src _ _ _ HN) as Hab.
    rewrite <- (app_nil_r src) in Hab at 1. apply app_len_eq in Hab as [-> _]; [|done].
    destruct HN as (x & g & -> & Hg & HI'). apply Lexed_gaps; [|done]. apply HI'.
Qed.
End props.

(** ** What the reading says of the spans *)

(** [t] is the text of [src] at its own span. *)
Definition slices (src : str) (t : TokenDecl) : Prop :=
  start (td_span t) < end_ (td_span t) ∧
  slice_range src (Z.to_nat (start (td_span t))) (Z.to_nat (end_ (td_span t))) = Ok (td_text t).

(** [a] ends before [b] starts. *)
Definition before (a b : TokenDecl) : Prop := end_ (td_span a) ≤ start (td_span b).

Lemma token_at_slices pre c text class post :
  slices ((pre ++ c :: text) ++ post) (token_at pre (c :: text) class).
Proof.
  unfold slices, token_at; simpl. rewrite !Nat2Z.id, <- app_assoc. split.
  - rewrite str_len_app, str_len_cons. pose proof (len_utf8_pos c). lia.
  - apply slice_range_app; [done|]. by rewrite str_len_app.
Qed.

Lemma Lexed_spans out s :
  Lexed out s →
  Forall (λ t, end_ (td_span t) ≤ Z.of_nat (str_len s)) out ∧ StronglySorted before out ∧
  ∀ post, Forall (slices (s ++ post)) out.
Proof.
  induction 1 as [|out s c _ (Hend & Hsort & Hsl) _|out s c text class _ (Hend & Hsort & Hsl) _].
  - by split_and!; intros; constructor.
  - split_and!; [|done|].
    + eapply Forall_impl; [exact Hend|]. intros t Ht. simpl in Ht |- *. rewrite str_len_app. lia.
    + intros post. rewrite <- app_assoc. apply Hsl.
  - split_and!.
    + apply Forall_app. split; [|by repeat constructor].
      eapply Forall_impl; [exact Hend|]. intros t Ht. simpl in Ht |- *. rewrite str_len_app. lia.
    + apply StronglySorted_app_2; [|done|by repeat constructor].
      intros t t' Ht ->%list_elem_of_singleton. rewrite Forall_forall in Hend. by apply Hend.
    + intros post. apply Forall_app. split; [rewrite <- app_assoc; apply Hsl|].
      apply Forall_singleton, token_at_slices.
Qed.

(** C4: For every dialect and every source of fewer than 2^32 - 1 bytes the lexer terminates,
    never panics (no slice off a character boundary, no index out of range),
    and returns a reading of the source: its tokens, in order, with exact
    byte offsets, lines and columns, are exactly the text that is not
    whitespace or a byte order mark between tokens; nothing is skipped. The
    only thing asked of Unicode is that ASCII digits are numeric. *)
Theorem tokenize_reads is_alphabetic is_numeric src opts :
  (∀ c, is_ascii_digit c = true → is_numeric c = true) →
  valid_str src → Z.of_nat (str_len src) < 2 ^ 32 - 1 →
  ∃ out, tokenize_with is_alphabetic is_numeric src opts = Ok out ∧ Lexed out src.
Proof. intros. by apply tokenize_with_Lexed. Qed.

(** Every token the lexer returns is the slice of the source at its span,
    is not empty, and ends before the next one starts. *)
Theorem tokenize_spans is_alphabetic is_numeric src opts :
  (∀ c, is_ascii_digit c = true → is_numeric c = true) →
  valid_str src → Z.of_nat (str_len src) < 2 ^ 32 - 1 →
  ∃ out, tokenize_with is_alphabetic is_numeric src opts = Ok out ∧
    Forall (slices src) out ∧ StronglySorted before out.
Proof.
  intros Hd Hv Hl. destruct (tokenize_with_Lexed is_alphabetic is_numeric Hd src opts Hv Hl)
    as (out & Ho & (_ & Hs & Hsl)%Lexed_spans). exists out. split_and!; [done| |done].
  rewrite <- (app_nil_r src). apply Hsl.
Qed.

(** A shell script with a here-document, and a fixed-column COBOL line. *)
Definition heredoc_script : str :=
  lit "cat <<EOF | sort # c" ++ [LF] ++ lit "b $x" ++ [LF] ++ lit "EOF" ++ [LF] ++ lit "echo done".
Definition cobol_line : str :=
  lit "000100 IDENTIFICATION DIVISION." ++ [CR; LF] ++ lit "000200*a comment" ++ [LF].

Lemma tokenize_reads_witness :
  ∃ out, tokenize_with is_ascii_alphabetic is_ascii_digit heredoc_script SHELL = Ok out ∧
    Lexed out heredoc_script.
Proof.
  apply (tokenize_reads is_ascii_alphabetic is_ascii_digit heredoc_script SHELL).
  - done.
  - apply (bool_decide_unpack _). by vm_compute.
  - by vm_compute.
Defined.

