(* ===== verification/Pattern.v ===== *)
(** * The symbol-name pattern language

    [graph-store/src/pattern.rs]: parsing of [name], [prefix*], [*infix*] and
    [*suffix], matching and case folding. *)
From Stdlib Require Import Ascii.
From S2P Require Import Prelude Text Schema StrOps.

Definition MIN_NEEDLE_BYTES : nat := 2.
Definition MAX_NEEDLE_BYTES : nat := 256.

Inductive SymbolPattern : Set :=
  | Exact (s : str)
  | Prefix (s : str)
  | Infix (s : str)
  | Suffix (s : str).
#[global] Instance SymbolPattern_eq_dec : EqDecision SymbolPattern.
Proof. solve_decision. Defined.

Definition needs_infix_capability (p : SymbolPattern) : bool :=
  match p with Infix _ | Suffix _ => true | _ => false end.

Definition folded (p : SymbolPattern) : SymbolPattern :=
  match p with
  | Exact s => Exact (to_ascii_lowercase s)
  | Prefix s => Prefix (to_ascii_lowercase s)
  | Infix s => Infix (to_ascii_lowercase s)
  | Suffix s => Suffix (to_ascii_lowercase s)
  end.

Definition pattern_matches (p : SymbolPattern) (name : str) : bool :=
  match p with
  | Exact s => bool_decide (name = s)
  | Prefix s => starts_with name s
  | Infix s => contains name s
  | Suffix s => ends_with name s
  end.

Definition STAR : Z := chr "*".
(** The escape [\*]. *)
Definition ESC_STAR : str := [BS; STAR].

(** The marker and the literal star at the front, and what follows. *)
Definition lead (input : str) : bool * bool * str :=
  match strip_prefix ESC_STAR input with
  | Some r => (false, true, r)
  | None =>
      match strip_prefix [STAR] input with
      | Some r => (true, false, r)
      | None => (false, false, input)
      end
  end.
Definition trail (rest : str) : bool * bool * str :=
  match strip_suffix ESC_STAR rest with
  | Some b => (false, true, b)
  | None =>
      match strip_suffix [STAR] rest with
      | Some b => (true, false, b)
      | None => (false, false, rest)
      end
  end.

(** The loop over the needle; [None] is the unescaped star. *)
Fixpoint needle_loop (body : str) : option str :=
  match body with
  | [] => Some []
  | c :: t =>
      if c =? BS then
        match t with
        | d :: t' => if d =? STAR then cons STAR <$> needle_loop t' else cons c <$> needle_loop t
        | [] => cons c <$> needle_loop t
        end
      else if c =? STAR then None
      else cons c <$> needle_loop t
  end.

Definition empty_message : str := lit "empty symbol pattern (use `*` to list all symbols)".
Definition ambiguous_message : str :=
  lit "pattern ending in `**` is ambiguous: use `prefix*` for a prefix, `*needle*` for a name containing `needle` (no `*` inside it), or `name\*` for a literal `*`".
Definition unescaped_message : str :=
  lit "unescaped `*` inside an infix or suffix needle (only `*needle*` and `*needle` are supported; write `\*` for a literal `*`)".

(** The length checks on a needle; [infix] is [trail_marker]. *)
Definition check_needle (infix : bool) (needle : str) : result SymbolPattern :=
  let what := if infix then lit "infix" else lit "suffix" in
  if bool_decide (needle = []) then
    Err (Rejected (lit "the " ++ what ++ lit " needle is empty"))
  else if (str_len needle <? MIN_NEEDLE_BYTES)%nat then
    Err (Rejected (what ++ lit " needle needs at least 2 bytes"))
  else if (MAX_NEEDLE_BYTES <? str_len needle)%nat then
    Err (Rejected (what ++ lit " needle is longer than 256 bytes"))
  else Ok (if infix then Infix needle else Suffix needle).

Definition star (b : bool) : str := if b then [STAR] else [].

Definition parse_symbol_pattern (input : str) : result SymbolPattern :=
  if bool_decide (input = []) then Err (Rejected empty_message) else
  if bool_decide (input = [STAR]) then Ok (Prefix []) else
  if ends_with input [STAR; STAR] then Err (Rejected ambiguous_message) else
  let '(lead_marker, lead_literal, rest) := lead input in
  let '(trail_marker, trail_literal, body) := trail rest in
  if negb lead_marker then
    let name := star lead_literal ++ body ++ star trail_literal in
    Ok (if trail_marker : bool then Prefix name else Exact name)
  else
    match needle_loop body with
    | None => Err (Rejected unescaped_message)
    | Some needle => check_needle trail_marker (needle ++ star trail_literal)
    end.

(** ** Which patterns there are *)

(** A needle of an allowed length. *)
Definition needle_ok (s : str) : Prop := (2 ≤ str_len s ≤ 256)%nat.
(** A text after which a marker star is read as a marker. *)
Definition open_end (s : str) : Prop := last s ≠ Some STAR ∧ last s ≠ Some BS.

(** The patterns that can be written. *)
Definition spellable (p : SymbolPattern) : Prop :=
  match p with
  | Exact s => s ≠ [] ∧ (s = ESC_STAR ∨ starts_with s ESC_STAR = false)
  | Prefix s => open_end s ∧ starts_with s ESC_STAR = false
  | Infix s => needle_ok s ∧ open_end s
  | Suffix s => needle_ok s
  end.
#[global] Instance spellable_dec p : Decision (spellable p).
Proof. unfold spellable, needle_ok, open_end. destruct p; apply _. Defined.

(** A way to write each. *)
Definition esc_lead (s : str) : str :=
  match s with c :: t => if c =? STAR then BS :: s else s | [] => [] end.
Definition esc_trail (s : str) : str :=
  match last s with Some c => if c =? STAR then removelast s ++ ESC_STAR else s | None => [] end.
Definition esc_all (s : str) : str := s ≫= λ c, if c =? STAR then ESC_STAR else [c].

Definition spell (p : SymbolPattern) : str :=
  match p with
  | Exact s =>
      match s with
      | c :: t => if c =? STAR then ESC_STAR ++ esc_trail t else esc_trail s
      | [] => []
      end
  | Prefix s => esc_lead s ++ [STAR]
  | Infix s => [STAR] ++ esc_all s ++ [STAR]
  | Suffix s => [STAR] ++ esc_all s
  end.

(** ** The two ends *)

Lemma starts_with_false s p : starts_with s p = false ↔ ∀ r, s ≠ p ++ r.
Proof. rewrite <- not_true_iff_false, starts_with_spec. naive_solver. Qed.
Lemma ends_with_false s p : ends_with s p = false ↔ ∀ r, s ≠ r ++ p.
Proof. rewrite <- not_true_iff_false, ends_with_spec. naive_solver. Qed.

Lemma lead_esc r : lead (ESC_STAR ++ r) = (false, true, r).
Proof. unfold lead. by rewrite (proj2 (strip_prefix_Some ESC_STAR _ r) eq_refl). Qed.
Lemma lead_star r : lead (STAR :: r) = (true, false, r).
Proof.
  unfold lead. destruct (strip_prefix ESC_STAR _) eqn:E; [by apply strip_prefix_Some in E|].
  by rewrite (proj2 (strip_prefix_Some [STAR] (STAR :: r) r) eq_refl).
Qed.
Lemma lead_none s :
  starts_with s ESC_STAR = false → head s ≠ Some STAR → lead s = (false, false, s).
Proof.
  rewrite starts_with_false. intros He Hs. unfold lead.
  destruct (strip_prefix ESC_STAR s) eqn:E; [apply strip_prefix_Some in E; by edestruct He|].
  destruct (strip_prefix [STAR] s) eqn:E2; [by apply strip_prefix_Some in E2 as ->|done].
Qed.

Lemma trail_esc b : trail (b ++ ESC_STAR) = (false, true, b).
Proof. unfold trail. by rewrite (proj2 (strip_suffix_Some ESC_STAR _ b) eq_refl). Qed.
Lemma trail_star b : last b ≠ Some BS → trail (b ++ [STAR]) = (true, false, b).
Proof.
  intros Hb. unfold trail. destruct (strip_suffix ESC_STAR _) as [r|] eqn:E.
  - apply strip_suffix_Some in E. change ESC_STAR with ([BS] ++ [STAR]) in E.
    rewrite app_assoc in E. apply app_inj_tail in E as [-> _]. by rewrite last_snoc in Hb.
  - by rewrite (proj2 (strip_suffix_Some [STAR] _ b) eq_refl).
Qed.
Lemma trail_none s : last s ≠ Some STAR → trail s = (false, false, s).
Proof.
  intros Hs. unfold trail. destruct (strip_suffix ESC_STAR s) as [r|] eqn:E.
  { apply strip_suffix_Some in E as ->. change ESC_STAR with ([BS] ++ [STAR]) in Hs.
    by rewrite app_assoc, last_snoc in Hs. }
  destruct (strip_suffix [STAR] s) as [r|] eqn:E2; [|done].
  apply strip_suffix_Some in E2 as ->. by rewrite last_snoc in Hs.
Qed.

(** Every text ends in one of the three ways. *)
Lemma ends_cases s :
  (∃ b, s = b ++ ESC_STAR) ∨ (∃ b, s = b ++ [STAR] ∧ last b ≠ Some BS) ∨ last s ≠ Some STAR.
Proof.
  destruct (decide (last s = Some STAR)) as [[b ->]%last_Some|]; [|by right; right].
  destruct (decide (last b = Some BS)) as [[d ->]%last_Some|]; [|right; left; by exists b].
  left. exists d. by rewrite <- app_assoc.
Qed.
Lemma starts_cases s :
  (∃ r, s = ESC_STAR ++ r) ∨ (∃ r, s = STAR :: r) ∨
  (starts_with s ESC_STAR = false ∧ head s ≠ Some STAR).
Proof.
  destruct (starts_with s ESC_STAR) eqn:E; [left; by apply starts_with_spec|right].
  destruct (decide (head s = Some STAR)) as [H|H]; [left|by right].
  destruct s as [|c s]; [done|]. injection H as ->. by exists s.
Qed.

(** ** The needle *)

Lemma needle_loop_last b n :
  needle_loop b = Some n → last b ≠ Some STAR → last n = last b.
Proof.
  remember (length b) as k eqn:Hk. revert b n Hk.
  induction (lt_wf k) as [k _ IH]; intros b n ->.
  destruct b as [|c t]; [by intros [= <-]|]. cbn [needle_loop].
  assert (∀ x m, (cons x <$> needle_loop t) = Some m → last (c :: t) ≠ Some STAR → x = c →
    last m = last (c :: t)) as Hstep.
  { intros x m (m' & Hm & ->)%fmap_Some Hl ->. rewrite last_cons in Hl |- *. rewrite last_cons.
    rewrite (IH (length t) ltac:(simpl; lia) t m' eq_refl Hm); [done|]. by destruct (last t). }
  destruct (c =? BS); [|destruct (c =? STAR); [done|by eauto]].
  destruct t as [|d t']; [by eauto|]. destruct (Z.eqb_spec d STAR) as [->|]; [|by eauto].
  intros (m & Hm & ->)%fmap_Some Hl. rewrite !last_cons in Hl |- *. rewrite last_cons.
  rewrite (IH (length t') ltac:(simpl; lia) t' m eq_refl Hm); by destruct (last t').
Qed.

Lemma esc_all_cons c s : esc_all (c :: s) = (if c =? STAR then ESC_STAR else [c]) ++ esc_all s.
Proof. done. Qed.
Lemma esc_all_head s : head (esc_all s) ≠ Some STAR.
Proof.
  destruct s as [|c s]; [done|]. rewrite esc_all_cons. destruct (Z.eqb_spec c STAR); [done|].
  by intros [= ->].
Qed.
Lemma esc_all_last s : last (esc_all s) = last s.
Proof.
  induction s as [|c s IH] using rev_ind; [done|]. unfold esc_all. rewrite bind_app.
  cbn [mbind list_bind]. rewrite app_nil_r, last_snoc. destruct (Z.eqb_spec c STAR) as [->|].
  - change ESC_STAR with ([BS] ++ [STAR]). by rewrite app_assoc, last_snoc.
  - by rewrite last_snoc.
Qed.
Lemma needle_loop_esc s : needle_loop (esc_all s) = Some s.
Proof.
  induction s as [|c s IH]; [done|]. rewrite esc_all_cons.
  destruct (Z.eqb_spec c STAR) as [->|Hc]; cbn [app ESC_STAR needle_loop].
  { change (BS =? BS) with true. change (STAR =? STAR) with true. cbv iota. by rewrite IH. }
  rewrite (proj2 (Z.eqb_neq c STAR)) by done. pose proof (esc_all_head s) as Hh.
  destruct (c =? BS); [|by rewrite IH]. destruct (esc_all s) as [|d t]; [by injection IH as <-|].
  rewrite (proj2 (Z.eqb_neq d STAR)); [by rewrite IH|]. intros ->. by apply Hh.
Qed.

(** ** The parser *)

Lemma double_star_last s b :
  ends_with s [STAR; STAR] = false → s = b ++ [STAR] → last b ≠ Some STAR.
Proof.
  rewrite ends_with_false. intros He -> [d ->]%last_Some. apply (He d). by rewrite <- app_assoc.
Qed.

(** The parser on an input that is cut at both ends. *)
Lemma parse_cut input lm ll rest tm tl body :
  input ≠ [] → input ≠ [STAR] → ends_with input [STAR; STAR] = false →
  lead input = (lm, ll, rest) → trail rest = (tm, tl, body) →
  parse_symbol_pattern input =
    if lm then match needle_loop body with
      | None => Err (Rejected unescaped_message)
      | Some needle => check_needle tm (needle ++ star tl)
      end
    else Ok (if tm then Prefix (star ll ++ body ++ star tl) else Exact (star ll ++ body ++ star tl)).
Proof.
  intros Hn Hs Hd Hl Ht. unfold parse_symbol_pattern.
  rewrite !bool_decide_eq_false_2, Hd, Hl, Ht by done. by destruct lm.
Qed.

(** Two characters that differ from [**] at the end. *)
Lemma no_double s x y : ¬ (x = STAR ∧ y = STAR) → ends_with (s ++ [x; y]) [STAR; STAR] = false.
Proof.
  rewrite ends_with_false. intros H r Heq. apply H.
  change [x; y] with ([x] ++ [y]) in Heq. change [STAR; STAR] with ([STAR] ++ [STAR]) in Heq.
  rewrite !app_assoc in Heq. apply app_inj_tail in Heq as [Heq ->].
  by apply app_inj_tail in Heq as [_ ->].
Qed.
Lemma no_double_last s : last s ≠ Some STAR → ends_with s [STAR; STAR] = false.
Proof.
  rewrite ends_with_false. intros H r ->. apply H.
  change [STAR; STAR] with ([STAR] ++ [STAR]). by rewrite app_assoc, last_snoc.
Qed.


Lemma check_needle_cases tm needle :
  (check_needle tm needle = Ok (if tm then Infix needle else Suffix needle) ∧ needle_ok needle) ∨
  ∃ m, check_needle tm needle = Err (Rejected m) ∧ ¬ needle_ok needle.
Proof.
  unfold check_needle, needle_ok, MIN_NEEDLE_BYTES, MAX_NEEDLE_BYTES. case_bool_decide as He.
  { right. eexists. split; [done|]. subst. change (str_len []) with 0%nat. lia. }
  destruct (Nat.ltb_spec (str_len needle) 2); [right; eexists; split; [done|lia]|].
  destruct (Nat.ltb_spec 256 (str_len needle)); [right; eexists; split; [done|lia]|].
  left. split; [done|lia].
Qed.

(** What a name or prefix written without a leading marker can be. *)
Lemma star_esc ll s :
  (ll = false → starts_with s ESC_STAR = false) → starts_with (star ll ++ s) ESC_STAR = false.
Proof. destruct ll; [|auto]. intros _. by apply starts_with_false. Qed.
Lemma starts_with_app_false a b p : starts_with (a ++ b) p = false → starts_with a p = false.
Proof. rewrite !starts_with_false. intros H r ->. apply (H (r ++ b)). by rewrite app_assoc. Qed.

Lemma plain_spellable ll rest tm tl body :
  trail rest = (tm, tl, body) → star ll ++ rest ≠ [] →
  ends_with (star ll ++ rest) [STAR; STAR] = false →
  (ll = false → starts_with rest ESC_STAR = false) →
  spellable (if tm then Prefix (star ll ++ body ++ star tl) else Exact (star ll ++ body ++ star tl)).
Proof.
  intros Ht Hne Hdd Hesc. destruct (ends_cases rest) as [[b ->]|[(b & -> & Hb)|Hl]].
  - rewrite trail_esc in Ht. injection Ht as <- <- <-. cbn [star]. split; [by destruct ll, b|].
    destruct ll; [by right; apply starts_with_false|]. specialize (Hesc eq_refl). cbn [star app].
    destruct (starts_with (b ++ [STAR]) ESC_STAR) eqn:E; [left|by right].
    apply starts_with_spec in E as [r Hr]. destruct r as [|x r _] using rev_ind; [done|].
    rewrite app_assoc in Hr. apply app_inj_tail in Hr as [-> _].
    rewrite <- app_assoc, starts_with_false in Hesc. by edestruct Hesc.
  - rewrite trail_star in Ht by done. injection Ht as <- <- <-. cbn [star]. rewrite app_nil_r.
    rewrite app_assoc in Hdd. split; [split|].
    + by apply (double_star_last _ _ Hdd).
    + rewrite last_app. destruct (last b); [done|]. by destruct ll.
    + apply star_esc. intros H. by eapply starts_with_app_false, Hesc.
  - rewrite trail_none in Ht by done. injection Ht as <- <- <-. cbn [star]. rewrite app_nil_r.
    split; [done|]. right. by apply star_esc.
Qed.

Lemma ends_with_app_false a b p : ends_with (a ++ b) p = false → ends_with b p = false.
Proof. rewrite !ends_with_false. intros H r ->. apply (H (a ++ r)). by rewrite app_assoc. Qed.

Lemma needle_spellable rest tm tl body needle :
  trail rest = (tm, tl, body) → needle_loop body = Some needle →
  ends_with (STAR :: rest) [STAR; STAR] = false → needle_ok (needle ++ star tl) →
  spellable (if tm then Infix (needle ++ star tl) else Suffix (needle ++ star tl)).
Proof.
  intros Ht Hn Hdd Hok. destruct tm; [|done]. split; [done|].
  destruct (ends_cases rest) as [[b ->]|[(b & -> & Hb)|Hl]].
  - by rewrite trail_esc in Ht.
  - rewrite trail_star in Ht by done. injection Ht as <- <-. cbn [star]. rewrite app_nil_r.
    assert (last b ≠ Some STAR) as Hs.
    { intros [d ->]%last_Some. rewrite ends_with_false in Hdd. apply (Hdd (STAR :: d)).
      by rewrite <- app_assoc. }
    unfold open_end. by rewrite (needle_loop_last b needle Hn Hs).
  - by rewrite trail_none in Ht.
Qed.

Lemma parse_sound input :
  (∃ p, parse_symbol_pattern input = Ok p ∧ spellable p) ∨
  ∃ m, parse_symbol_pattern input = Err (Rejected m).
Proof.
  destruct (decide (input = [])) as [->|Hn]; [right; by eexists|].
  destruct (decide (input = [STAR])) as [->|Hs]; [left; exists (Prefix []); by split; vm_compute|].
  destruct (ends_with input [STAR; STAR]) eqn:Hd.
  { right. unfold parse_symbol_pattern. rewrite !bool_decide_eq_false_2, Hd by done. by eexists. }
  destruct (lead input) as [[lm ll] rest] eqn:Hl. destruct (trail rest) as [[tm tl] body] eqn:Ht.
  rewrite (parse_cut input lm ll rest tm tl body) by done.
  destruct (starts_cases input) as [[r ->]|[[r ->]|[He Hh]]].
  - rewrite lead_esc in Hl. injection Hl as <- <- <-. left. eexists. split; [done|].
    change (ESC_STAR ++ r) with ([BS] ++ star true ++ r) in Hd. apply ends_with_app_false in Hd.
    by apply (plain_spellable true r).
  - rewrite lead_star in Hl. injection Hl as <- <- <-.
    destruct (needle_loop body) as [needle|] eqn:E; [|right; by eexists].
    destruct (check_needle_cases tm (needle ++ star tl)) as [[-> Hok]|(m & -> & _)];
      [left|right; by eexists]. eexists. split; [done|]. by apply (needle_spellable r tm tl body).
  - rewrite lead_none in Hl by done. injection Hl as <- <- <-. left. eexists. split; [done|].
    by apply (plain_spellable false input).
Qed.

(** ** Every such pattern has a spelling *)

Lemma no_double_star x : last x ≠ Some STAR → ends_with (x ++ [STAR]) [STAR; STAR] = false.
Proof.
  rewrite ends_with_false. intros H r Heq. apply H.
  change [STAR; STAR] with ([STAR] ++ [STAR]) in Heq. rewrite app_assoc in Heq.
  apply app_inj_tail in Heq as [-> _]. by rewrite last_snoc.
Qed.

Lemma esc_trail_cases t :
  (∃ i, t = i ++ [STAR] ∧ esc_trail t = i ++ ESC_STAR) ∨ (last t ≠ Some STAR ∧ esc_trail t = t).
Proof.
  unfold esc_trail. destruct t as [|c i _] using rev_ind; [by right|].
  rewrite last_snoc. destruct (Z.eqb_spec c STAR) as [->|Hc].
  - left. exists i. by rewrite removelast_last.
  - right. split; [by intros [= ->]|done].
Qed.

Lemma parse_exact ll t :
  star ll ++ t ≠ [] →
  (ll = false → head t ≠ Some STAR ∧ (t = ESC_STAR ∨ starts_with t ESC_STAR = false)) →
  parse_symbol_pattern ((if ll then ESC_STAR else []) ++ esc_trail t) = Ok (Exact (star ll ++ t)).
Proof.
  intros Hne Hll.
  assert (ends_with ((if ll then ESC_STAR else []) ++ esc_trail t) [STAR; STAR] = false) as Hd.
  { destruct (esc_trail_cases t) as [(i & -> & ->)|[Hl ->]].
    - rewrite app_assoc. apply no_double. by intros [? _].
    - destruct t as [|c t]; [destruct ll; by vm_compute|]. apply no_double_last.
      rewrite last_app. by destruct (last (c :: t)) eqn:E; [|by apply last_None in E]. }
  assert (lead ((if ll then ESC_STAR else []) ++ esc_trail t) = (false, ll, esc_trail t)) as Hlead.
  { destruct ll; [apply lead_esc|]. destruct (Hll eq_refl) as [Hh He]. cbn [app].
    apply lead_none; [apply starts_with_false; intros r Hr|];
      destruct (esc_trail_cases t) as [(i & -> & Hi)|[Hl Ht]]; rewrite ?Hi, ?Ht in *.
    - destruct i as [|x [|y i]]; [done|by injection Hr|]. injection Hr as -> -> _.
      destruct He as [He|He]; [by destruct i|]. rewrite starts_with_false in He. by apply (He (i ++ [STAR])).
    - destruct He as [->|He]; [done|]. rewrite starts_with_false in He. by apply (He r).
    - by destruct i as [|x i].
    - done. }
  assert ((if ll then ESC_STAR else []) ++ esc_trail t ≠ [] ∧
    (if ll then ESC_STAR else []) ++ esc_trail t ≠ [STAR]) as [Hn Hs].
  { destruct ll; [done|]. destruct (Hll eq_refl) as [Hh _]. cbn [app].
    destruct (esc_trail_cases t) as [(i & -> & ->)|[Hl ->]].
    - split; intros H; apply (f_equal length) in H; rewrite length_app in H; simpl in H; lia.
    - split; [done|]. by intros ->. }
  destruct (esc_trail_cases t) as [(i & -> & Hi)|[Hl Ht]].
  - rewrite Hi in *. by rewrite (parse_cut _ false ll _ false true i Hn Hs Hd Hlead (trail_esc i)).
  - rewrite Ht in *. rewrite (parse_cut _ false ll _ false false t Hn Hs Hd Hlead (trail_none t Hl)).
    cbn [star]. by rewrite app_nil_r.
Qed.

Lemma parse_prefix s :
  open_end s → starts_with s ESC_STAR = false →
  parse_symbol_pattern (esc_lead s ++ [STAR]) = Ok (Prefix s).
Proof.
  intros [Hs Hb] He. destruct s as [|c t]; [done|]. cbn [esc_lead].
  destruct (Z.eqb_spec c STAR) as [->|Hc].
  - destruct t as [|d t]; [done|]. set (u := d :: t) in *.
    assert (last u = last (STAR :: u)) as Hu.
    { rewrite last_cons. destruct (last u) eqn:E; [done|by apply last_None in E]. }
    change (BS :: STAR :: u) with (ESC_STAR ++ u). rewrite <- app_assoc.
    rewrite (parse_cut _ false true (u ++ [STAR]) true false u); try done.
    + cbn [star]. by rewrite app_nil_r.
    + rewrite app_assoc. apply no_double_star. rewrite last_app.
      destruct (last u) eqn:E; [by rewrite <- E, Hu in *|by apply last_None in E].
    + apply trail_star. by rewrite Hu.
  - rewrite (parse_cut _ false false ((c :: t) ++ [STAR]) true false (c :: t)); try done.
    + cbn [star app]. by rewrite app_nil_r.
    + by destruct t.
    + by apply no_double_star.
    + apply lead_none; [|by intros [= ->]]. apply starts_with_false. intros r Hr.
      rewrite starts_with_false in He. destruct t as [|d t]; [by injection Hr as ->|].
      injection Hr as -> -> _. by apply (He t).
    + by apply trail_star.
Qed.

Lemma check_needle_Ok tm needle :
  needle_ok needle → check_needle tm needle = Ok (if tm then Infix needle else Suffix needle).
Proof. intros H. by destruct (check_needle_cases tm needle) as [[-> _]|(m & _ & [])]. Qed.

Lemma parse_needle s tm tl body needle :
  s ≠ [] → ends_with (STAR :: s) [STAR; STAR] = false → trail s = (tm, tl, body) →
  needle_loop body = Some needle → needle_ok (needle ++ star tl) →
  parse_symbol_pattern (STAR :: s) =
    Ok (if tm then Infix (needle ++ star tl) else Suffix (needle ++ star tl)).
Proof.
  intros Hs Hd Ht Hn Hok. rewrite (parse_cut _ true false s tm tl body); try done.
  - rewrite Hn. by apply check_needle_Ok.
  - by destruct s.
Qed.

Lemma needle_last s : needle_ok s → s ≠ [] ∧ last (STAR :: esc_all s) = last s.
Proof.
  intros [Hl _]. assert (s ≠ []) as Hs by (intros ->; cbn in Hl; lia). split; [done|].
  rewrite last_cons, esc_all_last. destruct (last s) eqn:E; [done|by apply last_None in E].
Qed.

Lemma parse_spell p : spellable p → parse_symbol_pattern (spell p) = Ok p.
Proof.
  destruct p as [s|s|s|s]; cbn [spellable spell].
  - intros [Hne He]. destruct s as [|c t]; [done|]. destruct (Z.eqb_spec c STAR) as [->|Hc].
    + by apply (parse_exact true t).
    + apply (parse_exact false (c :: t)); [done|]. intros _. split; [by intros [= ->]|done].
  - intros [? ?]. by apply parse_prefix.
  - intros [Hok [Hs Hb]]. destruct (needle_last s Hok) as [Hne Hl].
    rewrite <- (app_nil_r s) at 2.
    apply (parse_needle (esc_all s ++ [STAR]) true false (esc_all s) s).
    + by destruct (esc_all s).
    + rewrite app_comm_cons. apply no_double_star. by rewrite Hl.
    + apply trail_star. by rewrite esc_all_last.
    + apply needle_loop_esc.
    + cbn [star]. by rewrite app_nil_r.
  - intros Hok. destruct (needle_last s Hok) as [Hne Hl].
    destruct (decide (last s = Some STAR)) as [[i ->]%last_Some|Hs].
    + assert (esc_all (i ++ [STAR]) = esc_all i ++ ESC_STAR) as Hi by (unfold esc_all; by rewrite bind_app).
      cbn [app]. rewrite Hi. apply (parse_needle _ false true (esc_all i) i); [by destruct (esc_all i)|..|done].
      * rewrite app_comm_cons. apply no_double. by intros [? _].
      * apply trail_esc.
      * apply needle_loop_esc.
    + rewrite <- (app_nil_r s) at 2. apply (parse_needle (esc_all s) false false (esc_all s) s).
      * intros H. apply (f_equal last) in H. rewrite esc_all_last in H. by apply last_None in H.
      * apply no_double_last. by rewrite Hl.
      * apply trail_none. by rewrite esc_all_last.
      * apply needle_loop_esc.
      * cbn [star]. by rewrite app_nil_r.
Qed.

(** The pattern language is exactly the documented one. Every input is
    either refused as [Rejected] or read as a pattern in the allowed set
    (needles of 2 to 256 bytes, no empty name, no ambiguous end), and every
    pattern of that set has a spelling that is read back as it. *)
Theorem parse_symbol_pattern_image :
  (∀ input, (∃ p, parse_symbol_pattern input = Ok p ∧ spellable p) ∨
     ∃ m, parse_symbol_pattern input = Err (Rejected m)) ∧
  (∀ p, spellable p ↔ ∃ input, parse_symbol_pattern input = Ok p).
Proof.
  split; [apply parse_sound|]. intros p. split.
  - intros Hp. exists (spell p). by apply parse_spell.
  - intros [input Hi]. destruct (parse_sound input) as [(p' & Hp' & ?)|[m Hm]]; [|by rewrite Hi in Hm].
    rewrite Hi in Hp'. by injection Hp' as ->.
Qed.

(** ** Case folding *)

Lemma lower_app a b : to_ascii_lowercase (a ++ b) = to_ascii_lowercase a ++ to_ascii_lowercase b.
Proof. apply fmap_app. Qed.
Lemma lower_app_inv n a b :
  to_ascii_lowercase n = a ++ b →
  ∃ x y, n = x ++ y ∧ to_ascii_lowercase x = a ∧ to_ascii_lowercase y = b.
Proof. intros (x & y & Hn & Hx & Hy)%fmap_app_inv. by exists x, y. Qed.

(** Folding the pattern and the name is exactly ASCII case insensitivity:
    the folded pattern matches the folded name if and only if the pattern
    matches some name that differs from it only in the case of ASCII
    letters. *)
Theorem folded_matches p name :
  pattern_matches (folded p) (to_ascii_lowercase name) = true ↔
  ∃ name', to_ascii_lowercase name' = to_ascii_lowercase name ∧ pattern_matches p name' = true.
Proof.
  destruct p as [s|s|s|s]; cbn [folded pattern_matches].
  - rewrite bool_decide_eq_true. setoid_rewrite bool_decide_eq_true. naive_solver.
  - rewrite starts_with_spec. setoid_rewrite starts_with_spec. split.
    + intros [r (x & y & -> & Hx & <-)%lower_app_inv]. exists (s ++ y). rewrite !lower_app, Hx. eauto.
    + intros (n' & <- & r & ->). rewrite lower_app. eauto.
  - rewrite contains_spec. setoid_rewrite contains_spec. split.
    + intros (l & r & (x & yz & -> & <- & Hyz)%lower_app_inv).
      apply lower_app_inv in Hyz as (y & z & -> & Hy & <-). exists (x ++ s ++ z).
      rewrite !lower_app, Hy. eauto.
    + intros (n' & <- & l & r & ->). rewrite !lower_app. eauto.
  - rewrite ends_with_spec. setoid_rewrite ends_with_spec. split.
    + intros [r (x & y & -> & <- & Hy)%lower_app_inv]. exists (x ++ s). rewrite !lower_app, Hy. eauto.
    + intros (n' & <- & r & ->). rewrite lower_app. eauto.
Qed.
