(* ===== verification/Language.v ===== *)
(** * Paths, languages and the extractor registry

    [graph-core/src/language.rs]: language detection by extension and by
    content, and the path normalization that gives files their identity;
    [graph-core/src/extractor.rs]: the extractor interface, the fallback
    extractor and the registry. *)
From Stdlib Require Import Ascii.
From S2P Require Import Prelude Text Schema StrOps Tokenizer.

Definition SLASH : Z := chr "/".
Definition DOT : Z := chr ".".
Definition is_sep (c : Z) : bool := (c =? SLASH) || (c =? BS).

(** [path.rsplit(['/', '\\']).next().unwrap_or(path)]. *)
Definition file_name (path : str) : str := default path (last (split_on is_sep path)).

(** [s.rsplitn(2, '.')]: the text before and after the last dot. *)
Fixpoint rsplit_dot (s : str) : option (str * str) :=
  match s with
  | [] => None
  | c :: t =>
      match rsplit_dot t with
      | Some (a, b) => Some (c :: a, b)
      | None => if c =? DOT then Some ([], t) else None
      end
  end.

(** [Path::new(name).extension()] for a name without separators: a name that
    is only dots up to [..], or starts with its only dot, has none. *)
Definition path_extension (name : str) : option str :=
  if bool_decide (name = lit "..") then None else
  match rsplit_dot name with
  | Some (before, after) => if bool_decide (before = []) then None else Some after
  | None => None
  end.
Definition extension (path : str) : option str :=
  to_ascii_lowercase <$> path_extension (file_name path).

Definition one_of (s : str) (l : list str) : bool := bool_decide (s ∈ l).

Definition detect_language (path : str) : str :=
  let ext := default [] (extension path) in
  if one_of ext [lit "rs"] then lit "rust"
  else if one_of ext [lit "py"] then lit "python"
  else if one_of ext [lit "js"; lit "mjs"; lit "cjs"; lit "jsx"] then lit "javascript"
  else if one_of ext [lit "ts"; lit "tsx"] then lit "typescript"
  else if one_of ext [lit "go"] then lit "go"
  else if one_of ext [lit "c"; lit "h"] then lit "c"
  else if one_of ext [lit "cc"; lit "cpp"; lit "hpp"] then lit "cpp"
  else if one_of ext [lit "java"] then lit "java"
  else if one_of ext [lit "rb"] then lit "ruby"
  else if one_of ext [lit "cs"] then lit "csharp"
  else if one_of ext [lit "kt"; lit "kts"] then lit "kotlin"
  else if one_of ext [lit "yml"] then lit "yaml"
  else if one_of ext [lit "sh"; lit "bash"; lit "zsh"] then lit "shell"
  else if bool_decide (ext = []) then lit "unknown"
  else ext.

(** [s.lines().next().unwrap_or("")]: a carriage return goes with the line
    feed it precedes. *)
Definition first_of_lines (s : str) : str :=
  match head (split_inclusive s) with
  | None => []
  | Some l =>
      match strip_suffix [LF] l with
      | None => l
      | Some l => default l (strip_suffix [CR] l)
      end
  end.

(** [s.split_whitespace()]. *)
Definition split_whitespace (s : str) : list str :=
  filter (λ w, w ≠ []) (split_on is_whitespace s).

Definition detect_language_from_content (path src : str) : str :=
  let by_path := detect_language path in
  let name := to_ascii_lowercase (file_name path) in
  if one_of name [lit "makefile"; lit "gnumakefile"] then lit "make"
  else if one_of name [lit "dockerfile"] then lit "dockerfile"
  else if bool_decide (by_path ≠ lit "unknown") then by_path
  else
    match strip_prefix (lit "#!") (first_of_lines (trim_start_matches (Z.eqb BOM) src)) with
    | None => by_path
    | Some shebang =>
        let parts := split_whitespace shebang in
        let prog := default [] (last (split_on (Z.eqb SLASH) (default [] (head parts)))) in
        let prog :=
          if bool_decide (prog = lit "env") then
            default [] (snd <$> list_find (λ a, starts_with a (lit "-") = false) (tail parts))
          else prog in
        let prog := trim_end_matches (λ c, is_ascii_digit c || (c =? DOT)) prog in
        if bool_decide (prog = []) then by_path
        else if one_of prog [lit "python"] then lit "python"
        else if one_of prog [lit "node"; lit "nodejs"] then lit "javascript"
        else if one_of prog [lit "bash"; lit "sh"; lit "zsh"; lit "dash"; lit "ksh"; lit "mksh"]
        then lit "shell"
        else if one_of prog [lit "Rscript"] then lit "r"
        else prog
    end.

(** ** Normalization *)

Definition DOTDOT : str := lit "..".

(** [path.replace('\\', "/")]. *)
Definition to_slash (path : str) : str := (λ c, if c =? BS then SLASH else c) <$> path.

(** One component of the loop. *)
Definition norm_step (abs : bool) (parts : list str) (c : str) : list str :=
  if bool_decide (c = []) || bool_decide (c = lit ".") then parts
  else if bool_decide (c = DOTDOT) then
    if match last parts with Some p => negb (bool_decide (p = DOTDOT)) | None => false end
    then removelast parts
    else if negb abs then parts ++ [DOTDOT] else parts
  else parts ++ [c].

Definition normalize_path (path : str) : str :=
  let path := to_slash path in
  let abs := starts_with path [SLASH] in
  let parts := foldl (norm_step abs) [] (split_on (Z.eqb SLASH) path) in
  (if abs then [SLASH] else []) ++ join [SLASH] parts.

(** ** The registry *)

Record Extractor : Type := mkExtractor {
  e_language : str;
  e_extract : str → Extraction;
  e_extract_noted : str → Extraction * option str;
  e_version : str;
  e_extensions : list str;
}.

Definition FALLBACK_EXTRACTOR_VERSION : str := lit "fallback-1".
Definition fallback_version : str := FALLBACK_EXTRACTOR_VERSION ++ lit "+tok" ++ show TOKENIZER_VERSION.

Section registry.
Context (is_alphabetic is_numeric : Z → bool).

(** The fallback's [extract]; the lexer may panic as far as its type goes. *)
Definition fallback_extract (source : str) : tk Extraction :=
  tokens ← tokenize is_alphabetic is_numeric source;
  Ok (mkExtraction [] tokens false).

Record Registry : Type := mkRegistry {
  r_extractors : gmap str Extractor;
  r_extensions : gmap str str;
}.
Definition Registry_default : Registry := mkRegistry ∅ ∅.

(** The extensions [register] records, lowercased and without their dot. *)
Definition claim (ext : str) : option str :=
  let ext := to_ascii_lowercase (default ext (strip_prefix [DOT] ext)) in
  if negb (bool_decide (ext = [])) && negb (contains ext [DOT]) then Some ext else None.

Definition register (r : Registry) (e : Extractor) : Registry :=
  let lang := to_ascii_lowercase (e_language e) in
  let exts := foldl (λ m ext, match claim ext with Some x => <[x := lang]> m | None => m end)
                (r_extensions r) (e_extensions e) in
  mkRegistry (<[lang := e]> (r_extractors r)) exts.

Definition get (r : Registry) (language : str) : option Extractor :=
  r_extractors r !! to_ascii_lowercase language.

Definition extract (r : Registry) (language source : str) : tk Extraction :=
  match get r language with
  | Some e => Ok (e_extract e source)
  | None => fallback_extract source
  end.

Definition extract_noted (r : Registry) (language source : str) : tk (Extraction * option str) :=
  match get r language with
  | Some e => Ok (e_extract_noted e source)
  | None => e ← extract r language source; Ok (e, None)
  end.

Definition version (r : Registry) (language : str) : str :=
  match get r language with Some e => e_version e | None => fallback_version end.
Definition has (r : Registry) (language : str) : bool := bool_decide (is_Some (get r language)).

Definition Registry_detect_language (r : Registry) (path src : str) : str :=
  match e ← extension path; r_extensions r !! e with
  | Some lang => lang
  | None => detect_language_from_content path src
  end.
End registry.

(** ** What a path names *)

Definition is_abs (path : str) : bool := match head path with Some c => is_sep c | None => false end.

(** Changing directory by one component; [..] stays at the root. *)
Definition cd (dir : list str) (c : str) : list str :=
  if bool_decide (c = []) || bool_decide (c = lit ".") then dir
  else if bool_decide (c = DOTDOT) then removelast dir
  else dir ++ [c].
(** Where [path] leads from [cwd], textually. *)
Definition resolve (cwd : list str) (path : str) : list str :=
  foldl cd (if is_abs path then [] else cwd) (split_on is_sep path).

(** The components the loop leaves. *)
Definition parts_of (path : str) : list str :=
  foldl (norm_step (is_abs path)) [] (split_on is_sep path).

Lemma to_slash_cons c t : to_slash (c :: t) = (if c =? BS then SLASH else c) :: to_slash t.
Proof. done. Qed.

Lemma split_to_slash path : split_on (Z.eqb SLASH) (to_slash path) = to_slash <$> split_on is_sep path.
Proof.
  induction path as [|c t IH]; [done|]. rewrite to_slash_cons. cbn [split_on]. rewrite IH.
  change (is_sep c) with ((c =? SLASH) || (c =? BS)). rewrite (Z.eqb_sym c SLASH). destruct (Z.eqb_spec c BS) as [->|Hb].
  - done.
  - rewrite orb_false_r. destruct (SLASH =? c); [done|].
    destruct (split_on is_sep t); cbn [fmap list_fmap]; rewrite to_slash_cons;
      by rewrite (proj2 (Z.eqb_neq c BS)).
Qed.

Lemma to_slash_word w : Forall (λ c, is_sep c = false) w → to_slash w = w.
Proof.
  induction 1 as [|c w Hc _ IH]; [done|]. unfold to_slash in *. cbn [fmap list_fmap]. rewrite IH.
  unfold is_sep in Hc. apply orb_false_iff in Hc as [_ ->]. done.
Qed.

Lemma split_sep path : split_on (Z.eqb SLASH) (to_slash path) = split_on is_sep path.
Proof.
  rewrite split_to_slash. rewrite <- (list_fmap_id (split_on is_sep path)) at 2.
  apply list_fmap_ext. intros i w Hw%list_elem_of_lookup_2. by eapply to_slash_word, split_on_no_sep.
Qed.

Lemma abs_slash path : starts_with (to_slash path) [SLASH] = is_abs path.
Proof.
  destruct path as [|c t]; [done|]. unfold is_abs, is_sep. cbn [head].
  unfold starts_with, to_slash. cbn [fmap list_fmap strip_prefix]. rewrite Z.eqb_sym.
  destruct (Z.eqb_spec c BS) as [->|]; [done|]. rewrite orb_false_r. by destruct (c =? SLASH).
Qed.

Lemma normalize_parts path :
  normalize_path path = (if is_abs path then [SLASH] else []) ++ join [SLASH] (parts_of path).
Proof. unfold normalize_path, parts_of. by rewrite abs_slash, split_sep. Qed.

(** ** The normal form *)

(** An ordinary component. *)
Definition plain (c : str) : Prop :=
  c ≠ [] ∧ c ≠ lit "." ∧ c ≠ DOTDOT ∧ Forall (λ x, is_sep x = false) c.
Definition normal (abs : bool) (parts : list str) : Prop :=
  ∃ k names, parts = replicate k DOTDOT ++ names ∧ Forall plain names ∧ (abs = true → k = 0%nat).

Lemma normal_last abs parts :
  normal abs parts →
  (∃ k, parts = replicate k DOTDOT ∧ (abs = true → k = 0%nat)) ∨
  (∃ init p, parts = init ++ [p] ∧ plain p ∧ normal abs init).
Proof.
  intros (k & names & -> & Hn & Hk). destruct names as [|p names _] using rev_ind.
  - left. exists k. by rewrite app_nil_r.
  - right. exists (replicate k DOTDOT ++ names), p. apply Forall_app in Hn as [Hn Hp].
    rewrite Forall_singleton in Hp.
    split; [by rewrite app_assoc|]. split; [done|]. by exists k, names.
Qed.

Lemma norm_step_skip abs parts c : c = [] ∨ c = lit "." → norm_step abs parts c = parts.
Proof. by intros [-> | ->]. Qed.
Lemma norm_step_plain abs parts c : plain c → norm_step abs parts c = parts ++ [c].
Proof. intros (? & ? & ? & _). unfold norm_step. by rewrite !bool_decide_eq_false_2. Qed.
Lemma cd_plain dir c : plain c → cd dir c = dir ++ [c].
Proof. intros (? & ? & ? & _). unfold cd. by rewrite !bool_decide_eq_false_2. Qed.

Lemma cd_dotdot dir : cd dir DOTDOT = removelast dir.
Proof. done. Qed.

(** A step keeps the normal form and does to any directory what changing
    directory by the component does. *)
Lemma norm_step_ok abs parts c dir :
  normal abs parts → Forall (λ x, is_sep x = false) c → (abs = true → dir = []) →
  normal abs (norm_step abs parts c) ∧
  foldl cd dir (norm_step abs parts c) = cd (foldl cd dir parts) c.
Proof.
  intros Hp Hc Hd. destruct (decide (c = [] ∨ c = lit ".")) as [Hs|Hs].
  { rewrite norm_step_skip by done. split; [done|]. by destruct Hs as [-> | ->]. }
  destruct (decide (c = DOTDOT)) as [->|Hdd]; cycle 1.
  { assert (plain c) as Hpc by (unfold plain; tauto). rewrite norm_step_plain by done. split.
    - destruct Hp as (k & names & -> & Hn & Hk). exists k, (names ++ [c]).
      rewrite app_assoc. split_and!; [done| |done]. apply Forall_app. split; [done|by constructor].
    - by rewrite foldl_snoc. }
  change (norm_step abs parts DOTDOT) with
    (if match last parts with Some p => negb (bool_decide (p = DOTDOT)) | None => false end
     then removelast parts else if negb abs then parts ++ [DOTDOT] else parts).
  destruct (normal_last abs parts Hp) as [(k & -> & Hk)|(init & p & -> & Hpl & Hi)].
  - replace (match last (replicate k DOTDOT) with
      Some p => negb (bool_decide (p = DOTDOT)) | None => false end) with false; cycle 1.
    { destruct k as [|k]; [done|]. by rewrite replicate_S_end, last_snoc. }
    destruct abs; cbn [negb].
    + rewrite (Hk eq_refl), (Hd eq_refl). split; [|done]. by exists 0%nat, [].
    + rewrite <- replicate_S_end. split; [by exists (S k), []; rewrite app_nil_r|].
      rewrite replicate_S_end. by rewrite foldl_snoc.
  - rewrite last_snoc. pose proof Hpl as (_ & _ & Hpd & _).
    rewrite bool_decide_eq_false_2, removelast_last by done. cbn [negb]. split; [done|].
    by rewrite foldl_snoc, (cd_plain _ p), cd_dotdot, removelast_last by done.
Qed.

Lemma norm_fold_ok abs comps parts dir :
  normal abs parts → Forall (Forall (λ x, is_sep x = false)) comps → (abs = true → dir = []) →
  normal abs (foldl (norm_step abs) parts comps) ∧
  foldl cd dir (foldl (norm_step abs) parts comps) = foldl cd (foldl cd dir parts) comps.
Proof.
  intros Hp Hc Hd. revert parts Hp. induction Hc as [|c comps Hc _ IH]; intros parts Hp; [done|].
  cbn [foldl]. destruct (norm_step_ok abs parts c dir Hp Hc Hd) as [Hn Hcd].
  destruct (IH _ Hn) as [? ->]. by rewrite Hcd.
Qed.

Lemma split_sep_words path : Forall (Forall (λ x, is_sep x = false)) (split_on is_sep path).
Proof. apply Forall_forall. intros w. apply split_on_no_sep. Qed.

Lemma parts_normal path : normal (is_abs path) (parts_of path).
Proof.
  apply (norm_fold_ok _ _ _ []); [by exists 0%nat, []|apply split_sep_words|done].
Qed.
Lemma resolve_parts cwd path :
  resolve cwd path = foldl cd (if is_abs path then [] else cwd) (parts_of path).
Proof.
  unfold resolve, parts_of. destruct (norm_fold_ok (is_abs path) (split_on is_sep path) []
    (if is_abs path then [] else cwd)) as [_ ->]; [by exists 0%nat, []|apply split_sep_words| |done].
  by intros ->.
Qed.

(** Normal components are their own normal form. *)
Lemma normal_fix abs parts : normal abs parts → foldl (norm_step abs) [] parts = parts.
Proof.
  induction parts as [|c parts IH] using rev_ind; [done|]. intros Hp. rewrite foldl_snoc.
  destruct (normal_last _ _ Hp) as [(k & Hk & Habs)|(init & p & Heq & Hpl & Hi)].
  - destruct k as [|k]; [by destruct parts|]. destruct abs; [by specialize (Habs eq_refl)|].
    rewrite replicate_S_end in Hk. apply app_inj_tail in Hk as [-> ->].
    rewrite IH by (exists k, []; by rewrite app_nil_r). unfold norm_step.
    rewrite (bool_decide_eq_true_2 (DOTDOT = DOTDOT)) by done.
    destruct k as [|k]; [done|]. by rewrite replicate_S_end, last_snoc.
  - apply app_inj_tail in Heq as [-> ->]. rewrite IH by done. by apply norm_step_plain.
Qed.

Lemma normal_words abs parts :
  normal abs parts → Forall (λ c, c ≠ [] ∧ Forall (λ x, is_sep x = false) c) parts.
Proof.
  intros (k & names & -> & Hn & _). apply Forall_app. split.
  - apply Forall_replicate. split; [done|by repeat constructor].
  - eapply Forall_impl; [exact Hn|]. by intros c (? & _ & _ & ?).
Qed.

(** Writing normal components down and reading them back. *)
Lemma parts_written (abs : bool) parts :
  normal abs parts →
  let s := (if abs then [SLASH] else []) ++ join [SLASH] parts in
  is_abs s = abs ∧ parts_of s = parts.
Proof.
  intros Hp s. pose proof (normal_words _ _ Hp) as Hw.
  assert (is_abs s = abs) as Ha.
  { destruct abs; [done|]. destruct Hw as [|c parts [Hne Hc] _]; [done|].
    destruct c as [|x c]; [done|]. apply Forall_cons in Hc as [Hx _].
    unfold s. by destruct parts. }
  split; [done|]. unfold parts_of. rewrite Ha.
  assert (foldl (norm_step abs) [] (split_on is_sep (join [SLASH] parts)) = parts) as Hj.
  { destruct (decide (parts = [])) as [->|Hne]; [done|].
    rewrite split_on_join; [by apply normal_fix|done|done|].
    eapply Forall_impl; [exact Hw|]. by intros c [_ ?]. }
  unfold s. by destruct abs.
Qed.

Lemma normalize_same path :
  is_abs (normalize_path path) = is_abs path ∧ parts_of (normalize_path path) = parts_of path.
Proof. rewrite normalize_parts. apply parts_written, parts_normal. Qed.

(** ** Two normal forms that lead to the same place are the same *)

Lemma cd_names dir names : Forall plain names → foldl cd dir names = dir ++ names.
Proof.
  intros H. revert dir. induction H as [|c names Hc _ IH]; intros dir; [by rewrite app_nil_r|].
  cbn [foldl]. by rewrite IH, cd_plain, <- app_assoc by done.
Qed.
Lemma cd_ups dir k : foldl cd dir (replicate k DOTDOT) = take (length dir - k) dir.
Proof.
  revert dir. induction k as [|k IH]; intros dir; [by rewrite Nat.sub_0_r, take_ge|].
  cbn [replicate foldl]. rewrite IH, cd_dotdot. destruct dir as [|x dir _] using rev_ind; [done|].
  rewrite removelast_last, length_app. cbn [length].
  replace (length dir + 1 - S k)%nat with (length dir - k)%nat by lia. by rewrite take_app_le by lia.
Qed.

Lemma cd_normal dir k names :
  Forall plain names →
  foldl cd dir (replicate k DOTDOT ++ names) = take (length dir - k) dir ++ names.
Proof. intros. by rewrite foldl_app, cd_ups, cd_names. Qed.

(** Fewer [..] keep a directory that more of them leave. *)
Lemma ups_lt k l (m n : list str) :
  (∀ dir, take (length dir - k) dir ++ m = take (length dir - l) dir ++ n) → (l ≤ k)%nat.
Proof.
  intros H. destruct (decide (l ≤ k)%nat) as [|Hkl]; [done|exfalso].
  specialize (H (replicate l (fresh n))). rewrite length_replicate, Nat.sub_diag in H.
  cbn [take app] in H. apply (infinite_is_fresh n). rewrite <- H at 2.
  replace l with (S (l - 1)) by lia. replace (S (l - 1) - k)%nat with (S (l - 1 - k)) by lia.
  cbn [replicate take app]. by left.
Qed.

Lemma normal_inj (abs : bool) p q :
  normal abs p → normal abs q →
  (∀ cwd, foldl cd (if abs then [] else cwd) p = foldl cd (if abs then [] else cwd) q) → p = q.
Proof.
  intros (k & m & -> & Hm & Hk) (l & n & -> & Hn & Hl) H. destruct abs.
  - rewrite (Hk eq_refl), (Hl eq_refl) in *. specialize (H []).
    by rewrite !cd_normal in H.
  - setoid_rewrite cd_normal in H; [|done..].
    assert (k = l) as ->.
    { pose proof (ups_lt k l m n H). pose proof (ups_lt l k n m (λ d, eq_sym (H d))). lia. }
    f_equal. by specialize (H []).
Qed.

(** File identity. Two paths are normalized to the same string exactly when
    both or neither are absolute and they lead to the same place from every
    directory, reading [\] as a separator; normalizing is idempotent, and the
    normalized path leads where the path did. *)
Theorem normalize_path_identity p q :
  (normalize_path p = normalize_path q ↔
     is_abs p = is_abs q ∧ ∀ cwd, resolve cwd p = resolve cwd q) ∧
  normalize_path (normalize_path p) = normalize_path p ∧
  (∀ cwd, resolve cwd (normalize_path p) = resolve cwd p).
Proof.
  split_and!; [split| |].
  - intros Heq. destruct (normalize_same p) as [Hap Hpp], (normalize_same q) as [Haq Hpq].
    rewrite Heq in Hap, Hpp. rewrite Haq in Hap. rewrite Hpq in Hpp. split; [done|].
    intros cwd. by rewrite !resolve_parts, Hap, Hpp.
  - intros [Ha H]. rewrite !normalize_parts, Ha. do 2 f_equal.
    apply (normal_inj (is_abs q)); [rewrite <- Ha; apply parts_normal|apply parts_normal|].
    intros cwd. specialize (H cwd). by rewrite !resolve_parts, Ha in H.
  - rewrite (normalize_parts (normalize_path p)). destruct (normalize_same p) as [-> ->].
    by rewrite normalize_parts.
  - intros cwd. rewrite !resolve_parts. by destruct (normalize_same p) as [-> ->].
Qed.

(** ** The registry *)

Lemma claims_lookup (m : gmap str str) lang (exts : list str) x :
  foldl (λ m ext, match claim ext with Some x => <[x := lang]> m | None => m end) m exts !! x =
  if bool_decide (Some x ∈ claim <$> exts) then Some lang else m !! x.
Proof.
  revert m. induction exts as [|e exts IH]; intros m; [done|]. cbn [foldl]. rewrite IH.
  rewrite fmap_cons. case_bool_decide as Hin; [by rewrite bool_decide_eq_true_2 by by right|].
  destruct (decide (claim e = Some x)) as [He|He].
  - rewrite bool_decide_eq_true_2 by (rewrite He; by left). by rewrite He, lookup_insert_eq.
  - rewrite bool_decide_eq_false_2 by (by intros [|]%elem_of_cons).
    destruct (claim e) as [y|]; [|done]. rewrite lookup_insert_ne; [done|]. by intros ->.
Qed.

(** The last registration wins, case-insensitively: after registering an
    extractor, its language is served by it whatever the case and every other
    language as before; a file whose extension it claims is detected as its
    language, before the built-in table, and every other file as before. *)
Theorem register_wins r e :
  (∀ language, get (register r e) language =
     if eq_ignore_ascii_case language (e_language e) then Some e else get r language) ∧
  (∀ path src, Registry_detect_language (register r e) path src =
     if match extension path with Some x => bool_decide (Some x ∈ claim <$> e_extensions e)
        | None => false end
     then to_ascii_lowercase (e_language e) else Registry_detect_language r path src).
Proof.
  split.
  - intros l. unfold get, register, eq_ignore_ascii_case. cbn [r_extractors].
    case_bool_decide as H; [by rewrite H, lookup_insert_eq|].
    by rewrite lookup_insert_ne.
  - intros path src. unfold Registry_detect_language, register. cbn [r_extensions].
    destruct (extension path) as [x|]; cbn [mbind option_bind]; [|done].
    rewrite claims_lookup. by case_bool_decide.
Qed.
