(* ===== verification/Encoding.v ===== *)
(** * Decoding source files

    [graph-core/src/encoding.rs]: which encoding a file's bytes are read in,
    and whether a file is binary. The decoders and the statistical guess are
    the [encoding_rs] and [chardetng] crates; their documented behaviour is the
    class [EncodingRs]. An encoding is its WHATWG name. *)
From S2P Require Import Prelude Text StrOps.

Abbreviation Encoding := str.
Definition UTF_8 : Encoding := lit "UTF-8".
Definition UTF_16LE : Encoding := lit "UTF-16LE".
Definition UTF_16BE : Encoding := lit "UTF-16BE".
Definition REPLACEMENT : Encoding := lit "replacement".
Definition ISO_2022_JP : Encoding := lit "ISO-2022-JP".
Definition WINDOWS_1252 : Encoding := lit "windows-1252".

(** [Encoding::for_bom]. *)
Definition bom_of (b : list Z) : option (Encoding * nat) :=
  match b with
  | 0xEF :: 0xBB :: 0xBF :: _ => Some (UTF_8, 3%nat)
  | 0xFF :: 0xFE :: _ => Some (UTF_16LE, 2%nat)
  | 0xFE :: 0xFF :: _ => Some (UTF_16BE, 2%nat)
  | _ => None
  end.

(** What the crates document: a strict decode is the replacing one when that
    replaced nothing; UTF-8 is decoded as [str::from_utf8] does; windows-1252
    maps every byte; the byte order marks. *)
Class EncodingRs : Type := {
  for_bom : list Z → option (Encoding * nat);
  for_label : list Z → option Encoding;
  decode_without_bom_handling : Encoding → list Z → str * bool;
  decode_without_replacement : Encoding → list Z → option str;
  guess : list Z → Encoding;
  for_bom_spec b : for_bom b = bom_of b;
  strict_spec e b t : decode_without_replacement e b = Some t ↔ decode_without_bom_handling e b = (t, false);
  utf8_spec b : decode_without_replacement UTF_8 b = from_utf8 b;
  windows_1252_spec b : Forall u8 b → is_Some (decode_without_replacement WINDOWS_1252 b);
}.

Definition DECODER_VERSION : Z := 1.
Definition UTF16_SNIFF_WINDOW : nat := 4096.

Record Decoded : Type := mkDecoded { d_text : str; d_encoding : Encoding; d_lossy : bool }.

Inductive EncodingError : Type :=
  | UnknownLabel (label : str)
  | Replacement (label : str)
  | UnmappedCodePage (page : Z).

(** The encodings step 5 accepts from the detector. *)
Definition DETECTABLE : list Encoding :=
  lit <$> ["windows-1250"; "windows-1251"; "windows-1252"; "windows-1253"; "windows-1254"; "windows-1255";
           "windows-1256"; "windows-1257"; "windows-1258"; "windows-874"; "ISO-8859-2"; "ISO-8859-3";
           "ISO-8859-4"; "ISO-8859-5"; "ISO-8859-6"; "ISO-8859-7"; "ISO-8859-8"; "ISO-8859-8-I";
           "ISO-8859-10"; "ISO-8859-13"; "ISO-8859-14"; "ISO-8859-15"; "ISO-8859-16"; "KOI8-R"; "KOI8-U";
           "IBM866"; "Shift_JIS"; "EUC-JP"; "ISO-2022-JP"; "EUC-KR"; "GBK"; "gb18030"; "Big5"].
Definition is_detectable (e : Encoding) : bool := bool_decide (e ∈ DETECTABLE).

Definition has_window (p : list Z → bool) : list Z → bool :=
  fix go b := match b with [] => false | _ :: b' => p (take 3 b) || go b' end.
(** 7-bit text with a JIS X 0208 designation. *)
Definition looks_like_iso_2022_jp (b : list Z) : bool :=
  forallb (λ x, x <? 128) b &&
  has_window (λ w, bool_decide (w = [0x1B; 36; 64]) || bool_decide (w = [0x1B; 36; 66])) b.

(** [iter().step_by(2)]. *)
Fixpoint step_by_2 {A} (l : list A) : list A :=
  match l with x :: _ :: l => x :: step_by_2 l | l => l end.
Definition nuls (b : list Z) : nat := length (filter (λ x, x = 0) b).

(** A control character other than tab, LF, FF and CR. *)
Definition dirty_char (c : Z) : bool :=
  (c <? 32) && negb ((c =? TAB) || (c =? LF) || (c =? 12) || (c =? CR)).

(** Windows code pages. *)
Definition encoding_for_code_page (page : Z) : option Encoding :=
  match page with
  | 874 => Some (lit "windows-874")
  | 932 => Some (lit "Shift_JIS")
  | 936 => Some (lit "GBK")
  | 949 => Some (lit "EUC-KR")
  | 950 => Some (lit "Big5")
  | 1250 => Some (lit "windows-1250")
  | 1251 => Some (lit "windows-1251")
  | 1252 => Some (lit "windows-1252")
  | 1253 => Some (lit "windows-1253")
  | 1254 => Some (lit "windows-1254")
  | 1255 => Some (lit "windows-1255")
  | 1256 => Some (lit "windows-1256")
  | 1257 => Some (lit "windows-1257")
  | 1258 => Some (lit "windows-1258")
  | _ => None
  end.

Section decode.
Context `{EncodingRs}.

Definition decode_with (e : Encoding) (b : list Z) : Decoded :=
  let '(text, lossy) := decode_without_bom_handling e b in mkDecoded text e lossy.

(** The [candidate] closure of the sniff. *)
Definition candidate (b : list Z) (units : nat) (valid_utf8 : bool) (high low : nat) (e : Encoding)
    : option (nat * Encoding) :=
  let ascii_heavy := (units <=? high * 2)%nat in
  let cjk := negb valid_utf8 && (0 <? high)%nat && (units <=? high * 64)%nat in
  if negb (ascii_heavy || cjk) || (units <=? low * 16)%nat then None
  else text ← decode_without_replacement e b;
       if existsb dirty_char text then None else Some (high, e).

Definition sniff_utf16 (b : list Z) : option Encoding :=
  let n := Z.to_nat (Z.land (Z.of_nat (Nat.min (length b) UTF16_SNIFF_WINDOW)) (Z.lnot 1)) in
  let window := take n b in
  match window with
  | [] => None
  | _ =>
      let units := (length window / 2)%nat in
      let even_nuls := nuls (step_by_2 window) in
      let odd_nuls := nuls (step_by_2 (drop 1 window)) in
      let valid_utf8 := bool_decide (is_Some (from_utf8 b)) in
      let be := candidate b units valid_utf8 even_nuls odd_nuls UTF_16BE in
      let le := candidate b units valid_utf8 odd_nuls even_nuls UTF_16LE in
      match le, be with
      | Some l, Some b => Some (if (l.1 <? b.1)%nat then b.2 else l.2)
      | Some l, None => Some l.2
      | None, be => snd <$> be
      end
  end.

(** Step 5 and 6: the guess when it decodes cleanly, else windows-1252. *)
Definition decode_guess (b : list Z) : Decoded :=
  let e := guess b in
  match (if is_detectable e then decode_without_replacement e b else None) with
  | Some text => mkDecoded text e false
  | None => decode_with WINDOWS_1252 b
  end.

Definition decode (b : list Z) (hint : option Encoding) : Decoded :=
  match for_bom b with
  | Some (e, _) => decode_with e b
  | None =>
  match (e ← hint; if bool_decide (e = REPLACEMENT) then None else Some e) with
  | Some e => decode_with e b
  | None =>
  match sniff_utf16 b with
  | Some e => decode_with e b
  | None =>
  match (if looks_like_iso_2022_jp b then decode_without_replacement ISO_2022_JP b else None) with
  | Some text => mkDecoded text ISO_2022_JP false
  | None =>
  match from_utf8 b with
  | Some text => mkDecoded text UTF_8 false
  | None => decode_guess b
  end end end end end.

Definition is_binary_with_hint (b : list Z) (hint : option Encoding) : bool :=
  bool_decide (0 ∈ b) && bool_decide (for_bom b = None) &&
  negb (bool_decide (hint = Some UTF_16LE) || bool_decide (hint = Some UTF_16BE)) &&
  bool_decide (sniff_utf16 b = None).
Definition is_binary (b : list Z) : bool := is_binary_with_hint b None.

Definition hint_from_label (label : str) : Encoding + EncodingError :=
  match for_label (as_bytes (trim_end_matches is_whitespace (trim_start_matches is_whitespace label))) with
  | Some e => if bool_decide (e = REPLACEMENT) then inr (Replacement label) else inl e
  | None => inr (UnknownLabel label)
  end.

(** Elsewhere than on Windows. *)
Definition resolve_ansi : Encoding + EncodingError := inl WINDOWS_1252.

(** ** What decoding promises *)

Lemma decode_with_strict e b t : decode_without_replacement e b = Some t → decode_with e b = mkDecoded t e false.
Proof. unfold decode_with. by intros ->%strict_spec. Qed.

Lemma bom_not_replacement b e n : for_bom b = Some (e, n) → e ≠ REPLACEMENT.
Proof. rewrite for_bom_spec. unfold bom_of. repeat case_match; by intros [= <- <-]. Qed.

Lemma candidate_Some b units valid high low e x :
  candidate b units valid high low e = Some x →
  x.2 = e ∧ (units ≤ high * 64)%nat ∧ (low * 16 < units)%nat ∧
  ∃ t, decode_without_replacement e b = Some t ∧ Forall (λ c, dirty_char c = false) t.
Proof.
  unfold candidate. destruct (negb _ || _) eqn:E; [done|]. intros (t & Ht & Hx)%bind_Some.
  destruct (existsb dirty_char t) eqn:Ed; [done|]. injection Hx as <-. cbn [snd].
  apply orb_false_iff in E as [E1 E2]. apply negb_false_iff, orb_true_iff in E1. apply Nat.leb_gt in E2.
  split_and!; [done| |done|].
  - destruct E1 as [E1|E1]; [apply Nat.leb_le in E1; lia|]. apply andb_true_iff in E1 as [_ E1]. by apply Nat.leb_le.
  - exists t. split; [done|]. apply Forall_forall. intros c Hc. destruct (dirty_char c) eqn:Ec; [|done].
    rewrite (proj2 (existsb_exists dirty_char t)) in Ed; [done|]. exists c. by rewrite <- list_elem_of_In.
Qed.

Lemma sniff_Some b e :
  sniff_utf16 b = Some e →
  (e = UTF_16LE ∨ e = UTF_16BE) ∧ ∃ t, decode_without_replacement e b = Some t ∧ Forall (λ c, dirty_char c = false) t.
Proof.
  unfold sniff_utf16. destruct (take _ b); [done|].
  destruct (candidate _ _ _ _ _ UTF_16LE) as [le|] eqn:El, (candidate _ _ _ _ _ UTF_16BE) as [be|] eqn:Ex;
    try apply candidate_Some in El as (El & _ & _ & Hl); try apply candidate_Some in Ex as (Ex & _ & _ & Hx);
    cbn [fmap option_fmap option_map]; intros [= <-]; rewrite ?El, ?Ex; auto.
  destruct (le.1 <? be.1)%nat; auto.
Qed.

(** Every step is the replacing decoder of one encoding. *)
Lemma decode_is_with b hint :
  ∃ e, decode b hint = decode_with e b ∧ e ≠ REPLACEMENT ∧
    match for_bom b with
    | Some (e', _) => e = e'
    | None => d_lossy (decode_with e b) = false ∨ e = WINDOWS_1252 ∨ hint = Some e
    end.
Proof.
  unfold decode. destruct (for_bom b) as [[e n]|] eqn:Eb.
  { exists e. by split_and!; [|eapply bom_not_replacement|]. }
  destruct (_ ≫= _) as [e|] eqn:Eh.
  { apply bind_Some in Eh as (e' & -> & Eh). case_bool_decide as Hr; [done|]. injection Eh as ->. exists e. auto. }
  clear Eh. destruct (sniff_utf16 b) as [e|] eqn:Es.
  { apply sniff_Some in Es as (He & t & Ht & _). exists e. rewrite (decode_with_strict _ _ _ Ht).
    split_and!; [done|by destruct He as [-> | ->]|by left]. }
  destruct (if looks_like_iso_2022_jp b then _ else _) as [t|] eqn:Ei.
  { destruct (looks_like_iso_2022_jp b); [|done]. exists ISO_2022_JP. rewrite (decode_with_strict _ _ _ Ei). auto. }
  destruct (from_utf8 b) as [t|] eqn:Eu.
  { exists UTF_8. rewrite <- utf8_spec in Eu. rewrite (decode_with_strict _ _ _ Eu). auto. }
  unfold decode_guess. destruct (if is_detectable (guess b) then _ else _) as [t|] eqn:Eg; [|exists WINDOWS_1252; auto].
  destruct (is_detectable (guess b)) eqn:Ed; [|done]. exists (guess b). rewrite (decode_with_strict _ _ _ Eg). split_and!; [done| |by left].
  intros Hr. unfold is_detectable in Ed. apply bool_decide_eq_true in Ed. rewrite Hr in Ed. revert Ed.
  apply (bool_decide_unpack (REPLACEMENT ∉ DETECTABLE)). by vm_compute.
Qed.

(** Decoding is a function of the encoding it reports: that encoding, given
    as the hint, decodes the same bytes to the same text with the same flag. A
    text that is not flagged is a strict decode in that encoding, and a flagged
    one occurs only below a byte order mark or a hint. *)
Theorem decode_stable b hint :
  let d := decode b hint in
  decode b (Some (d_encoding d)) = d ∧
  (d_lossy d = false → decode_without_replacement (d_encoding d) b = Some (d_text d)) ∧
  (Forall u8 b → d_lossy d = true → is_Some (for_bom b) ∨ ∃ e, hint = Some e ∧ e ≠ REPLACEMENT).
Proof.
  destruct (decode_is_with b hint) as (e & Hd & Hr & He). cbv zeta. rewrite Hd.
  assert (d_encoding (decode_with e b) = e) as -> by (unfold decode_with; by destruct (decode_without_bom_handling e b)).
  split_and!.
  - unfold decode. destruct (for_bom b) as [[e' n]|]; [by subst|]. cbn [mbind option_bind]. by rewrite bool_decide_eq_false_2.
  - intros Hl. apply strict_spec. unfold decode_with in *. destruct (decode_without_bom_handling e b). by cbn in *; subst.
  - intros Hb Hl. destruct (for_bom b) as [[e' n]|]; [left; by eexists|right].
    destruct He as [He|[->|He]]; [congruence| |eauto].
    destruct (windows_1252_spec b Hb) as [t Ht]. by rewrite (decode_with_strict _ _ _ Ht) in Hl.
Qed.

Lemma nuls_none b : 0 ∉ b → nuls b = 0%nat.
Proof.
  intros Hb. unfold nuls. induction b as [|x b IH]; [done|]. apply not_elem_of_cons in Hb as [Hx Hb].
  rewrite filter_cons, decide_False by done. by apply IH.
Qed.
Lemma step_by_2_elem {A} (x : A) l : x ∈ step_by_2 l → x ∈ l.
Proof.
  remember (length l) as n eqn:Hn. revert l Hn. induction (lt_wf n) as [n _ IH]; intros [|y [|z l]] ->; cbn [step_by_2]; try done.
  intros [->|Hx]%elem_of_cons; [by left|]. do 2 right. by apply (IH (length l)); [cbn; lia|..].
Qed.
(** [n & !1] is even and at most [n]. *)
Lemma even_window n :
  let m := Z.to_nat (Z.land (Z.of_nat n) (Z.lnot 1)) in (∃ k, m = 2 * k)%nat ∧ (m ≤ n)%nat.
Proof.
  cbv zeta. rewrite <- Z.ldiff_land. change 1 with (Z.ones 1). rewrite Z.ldiff_ones_r, Z.shiftr_div_pow2, Z.shiftl_mul_pow2 by lia.
  change (2 ^ 1) with 2. pose proof (Z.div_mod (Z.of_nat n) 2 ltac:(lia)) as Hdm. pose proof (Z.mod_pos_bound (Z.of_nat n) 2 ltac:(lia)).
  split; [exists (Z.to_nat (Z.of_nat n / 2)); lia|lia].
Qed.

Lemma take_drop_sub {A} n (l : list A) x : (x ∈ take n l → x ∈ l) ∧ (x ∈ drop n l → x ∈ l).
Proof. split; intros Hx; rewrite <- (take_drop n l); apply elem_of_app; auto. Qed.

Lemma sniff_no_nul b : 0 ∉ b → sniff_utf16 b = None.
Proof.
  intros Hb. unfold sniff_utf16. set (w := take _ b).
  assert (0 ∉ w) as Hw by (intros Hx; apply Hb; by eapply (proj1 (take_drop_sub _ _ _))).
  destruct w as [|x [|y w']] eqn:Ew; [done| |]; rewrite <- Ew in *.
  { exfalso. assert (length w = 1%nat) as Hl by by rewrite Ew. unfold w in Hl. rewrite length_take in Hl.
    destruct (even_window (Nat.min (length b) UTF16_SNIFF_WINDOW)) as [[k Hev] Hle]. lia. }
  assert (∀ v hi e, candidate b (length w / 2) v 0 hi e = None) as Hc.
  { intros v hi e. unfold candidate. assert (1 ≤ length w / 2)%nat as Hu by (apply Nat.div_le_lower_bound; [done|rewrite Ew; cbn; lia]).
    rewrite (proj2 (Nat.leb_gt _ _)) by lia. by rewrite andb_false_r. }
  rewrite !nuls_none, !Hc by (intros Hx%step_by_2_elem; apply Hw; try done; by eapply (proj2 (take_drop_sub _ _ _))). done.
Qed.

End decode.

(** ** An instance *)

(** UTF-16 in little-endian order, without surrogates. *)
Fixpoint utf16le (b : list Z) : option str :=
  match b with
  | [] => Some []
  | lo :: hi :: b =>
      if (0xD8 <=? hi) && (hi <? 0xE0) then None else (λ s, (hi * 256 + lo) :: s) <$> utf16le b
  | [_] => None
  end.
Definition sample_decoder (e : Encoding) (b : list Z) : option str :=
  if decide (e = UTF_8) then from_utf8 b
  else if decide (e = WINDOWS_1252) then Some b
  else if decide (e = UTF_16LE) then utf16le b
  else None.
Definition sample_rs : EncodingRs.
Proof.
  refine {| for_bom := bom_of; for_label b := if decide (b = as_bytes (lit "utf-8")) then Some UTF_8 else None;
    decode_without_bom_handling e b := match sample_decoder e b with Some t => (t, false) | None => ([0xFFFD], true) end;
    decode_without_replacement := sample_decoder; guess _ := WINDOWS_1252 |}.
  - done.
  - intros e b t. destruct (sample_decoder e b); naive_solver.
  - intros b. unfold sample_decoder. by rewrite decide_True.
  - intros b _. unfold sample_decoder. by eexists.
Defined.

#[local] Existing Instance sample_rs.


