(* ===== verification/Walk.v ===== *)
(** * The walk over an extraction, and its validation

    Both [validate_spans] ([graph-store/src/common.rs]) and [V2Prep::build]
    ([graph-store/src/v2.rs]) sort the symbols and tokens of an extraction and
    walk them together in span order with a stack of open symbols. Here is the
    shared walk, the stack, and the theorem on the validation. *)
From S2P Require Import Prelude Text Schema.

(** [Vec::sort_by_key], a stable sort. *)
Fixpoint insert_by {A} (le : A → A → bool) (x : A) (l : list A) : list A :=
  match l with
  | [] => [x]
  | y :: l' => if le x y then x :: l else y :: insert_by le x l'
  end.
Definition sort_by {A} (le : A → A → bool) (l : list A) : list A := foldr (insert_by le) [] l.

(** The keys [(start, Reverse(end))] and [start]. *)
Definition sym_le (a b : Span) : bool :=
  (start a <? start b) || ((start a =? start b) && (end_ b <=? end_ a)).
Definition tok_le (a b : Span) : bool := start a <=? start b.

(** The [while si < syms.len() || ti < toks.len()] walk: symbols first on
    equal starts. *)
Fixpoint walk {S T} (fs : S → Span) (ft : T → Span) (ss : list S) : list T → list (S + T) :=
  fix go (ts : list T) : list (S + T) :=
    match ss, ts with
    | [], [] => []
    | [], t :: ts => inr t :: go ts
    | s :: ss, [] => inl s :: walk fs ft ss []
    | s :: ss', t :: ts' =>
        if start (fs s) <=? start (ft t) then inl s :: walk fs ft ss' ts else inr t :: go ts'
    end.

(** [while open.last().is_some_and(|end| end <= start) { open.pop(); }]; the
    top of the stack is the head of the list. *)
Fixpoint pop {A} (end_of : A → Z) (pos : Z) (open : list A) : list A :=
  match open with
  | [] => []
  | a :: open' => if end_of a <=? pos then pop end_of pos open' else open
  end.

Definition ev_span (e : Span + Span) : Span := match e with inl s => s | inr s => s end.

Fixpoint validate_loop (open : list Z) (evs : list (Span + Span)) : result unit :=
  match evs with
  | [] => Ok ()
  | e :: evs =>
      let sp := ev_span e in
      let open := pop id (start sp) open in
      if end_ sp <? start sp then
        Err (InvalidSpan (lit "start " ++ show (start sp) ++ lit " > end " ++ show (end_ sp)))
      else if match open with [] => false | e :: _ => e <? end_ sp end then
        Err (InvalidSpan (lit "bytes " ++ show (start sp) ++ lit ".." ++ show (end_ sp) ++
          lit " partially overlap an enclosing symbol ending at " ++ show (default 0 (head open))))
      else validate_loop (match e with inl _ => end_ sp :: open | inr _ => open end) evs
  end.

Definition validate_spans (ex : Extraction) : result unit :=
  let syms := sort_by sym_le (sd_span <$> ex_symbols ex) in
  let toks := sort_by tok_le (td_span <$> ex_tokens ex) in
  validate_loop [] (walk id id syms toks).

(** ** Sorting *)

Lemma insert_by_perm {A} (le : A → A → bool) x l : insert_by le x l ≡ₚ x :: l.
Proof. induction l as [|y l IH]; simpl; [done|]. case_match; [done|]. rewrite IH. constructor. Qed.
Lemma sort_by_perm {A} (le : A → A → bool) l : sort_by le l ≡ₚ l.
Proof. induction l as [|x l IH]; simpl; [done|]. by rewrite insert_by_perm, IH. Qed.

Section sorted.
Context {A} (le : A → A → bool).
Hypothesis le_trans : ∀ x y z, le x y = true → le y z = true → le x z = true.
Hypothesis le_total : ∀ x y, le x y = true ∨ le y x = true.

Lemma insert_by_sorted x l :
  StronglySorted (λ x y, le x y = true) l → StronglySorted (λ x y, le x y = true) (insert_by le x l).
Proof.
  induction 1 as [|y l Hl IH Hy]; simpl; [by repeat constructor|].
  destruct (le x y) eqn:E.
  - constructor; [by constructor|]. constructor; [done|].
    eapply Forall_impl; [exact Hy|]. intros z. by apply le_trans.
  - constructor; [done|]. rewrite (insert_by_perm le x l). constructor; [|done].
    destruct (le_total x y); congruence.
Qed.
Lemma sort_by_sorted l : StronglySorted (λ x y, le x y = true) (sort_by le l).
Proof. induction l as [|x l IH]; simpl; [constructor|]. by apply insert_by_sorted. Qed.
End sorted.

Lemma insert_by_fmap {A B} (f : A → B) (le : B → B → bool) x l :
  insert_by le (f x) (f <$> l) = f <$> insert_by (λ a b, le (f a) (f b)) x l.
Proof. induction l as [|y l IH]; simpl; [done|]. case_match; [done|]. cbn. by f_equal. Qed.
Lemma sort_by_fmap {A B} (f : A → B) (le : B → B → bool) l :
  sort_by le (f <$> l) = f <$> sort_by (λ a b, le (f a) (f b)) l.
Proof. induction l as [|x l IH]; [done|]. cbn. unfold sort_by in IH. by rewrite IH, insert_by_fmap. Qed.

Lemma sym_le_trans a b c : sym_le a b = true → sym_le b c = true → sym_le a c = true.
Proof. unfold sym_le. rewrite !orb_true_iff, !andb_true_iff. lia. Qed.
Lemma sym_le_total a b : sym_le a b = true ∨ sym_le b a = true.
Proof. unfold sym_le. rewrite !orb_true_iff, !andb_true_iff. lia. Qed.
Lemma tok_le_trans a b c : tok_le a b = true → tok_le b c = true → tok_le a c = true.
Proof. unfold tok_le. lia. Qed.
Lemma tok_le_total a b : tok_le a b = true ∨ tok_le b a = true.
Proof. unfold tok_le. lia. Qed.

(** ** The walk *)
Section walk.
Context {S T : Type} (fs : S → Span) (ft : T → Span).

Lemma walk_cons s ss t ts :
  walk fs ft (s :: ss) (t :: ts) =
  if start (fs s) <=? start (ft t) then inl s :: walk fs ft ss (t :: ts)
  else inr t :: walk fs ft (s :: ss) ts.
Proof. done. Qed.
Lemma walk_nil_l ts : walk fs ft [] ts = inr <$> ts.
Proof. induction ts as [|t ts IH]; [done|]. cbn. cbn in IH. by rewrite IH. Qed.
Lemma walk_nil_r ss : walk fs ft ss [] = inl <$> ss.
Proof. induction ss as [|s ss IH]; [done|]. cbn. by rewrite IH. Qed.

(** The two sequences come out as they went in. *)
Definition left_of (e : S + T) : option S := match e with inl s => Some s | inr _ => None end.
Definition right_of (e : S + T) : option T := match e with inl _ => None | inr t => Some t end.

Lemma walk_parts ss ts :
  omap left_of (walk fs ft ss ts) = ss ∧ omap right_of (walk fs ft ss ts) = ts.
Proof.
  revert ts. induction ss as [|s ss IHs]; intros ts.
  { rewrite walk_nil_l. induction ts as [|t ts [IH1 IH2]]; [done|]. cbn. by rewrite IH1, IH2. }
  induction ts as [|t ts [IH1 IH2]].
  { rewrite walk_nil_r. clear IHs. cbn. split.
    - f_equal. induction ss as [|x ss IH]; [done|]. cbn. by rewrite IH.
    - induction ss as [|x ss IH]; [done|]. done. }
  rewrite walk_cons. case_match.
  - destruct (IHs (t :: ts)) as [H1 H2]. cbn [omap list_omap left_of right_of]. by rewrite H1, H2.
  - cbn [omap list_omap left_of right_of]. by rewrite IH1, IH2.
Qed.

Lemma walk_perm ss ts : walk fs ft ss ts ≡ₚ (inl <$> ss) ++ (inr <$> ts).
Proof.
  revert ts. induction ss as [|s ss IHs]; intros ts; [by rewrite walk_nil_l|].
  induction ts as [|t ts IHt]; [by rewrite walk_nil_r, app_nil_r|]. rewrite walk_cons. case_match.
  - by rewrite IHs.
  - rewrite IHt. by rewrite (fmap_cons inr), <- Permutation_middle.
Qed.
Lemma walk_elem_l ss ts s : inl s ∈ walk fs ft ss ts ↔ s ∈ ss.
Proof.
  rewrite <- (proj1 (walk_parts ss ts)) at 2. rewrite list_elem_of_omap. split; [by exists (inl s)|].
  by intros ([x|x] & Hx & [= ->]).
Qed.
Lemma walk_elem_r ss ts t : inr t ∈ walk fs ft ss ts ↔ t ∈ ts.
Proof.
  rewrite <- (proj2 (walk_parts ss ts)) at 2. rewrite list_elem_of_omap. split; [by exists (inr t)|].
  by intros ([x|x] & Hx & [= ->]).
Qed.

(** The order the walk visits in. *)
Definition visits (x y : S + T) : Prop :=
  match x, y with
  | inl a, inl b => sym_le (fs a) (fs b) = true
  | inl a, inr t => start (fs a) ≤ start (ft t)
  | inr t, inl a => start (ft t) < start (fs a)
  | inr t, inr u => start (ft t) ≤ start (ft u)
  end.

Lemma sym_le_start a b : sym_le a b = true → start a ≤ start b.
Proof. unfold sym_le. rewrite orb_true_iff, andb_true_iff. lia. Qed.

Lemma walk_visits_all ss ts (e : S + T) :
  (∀ a, a ∈ ss → visits e (inl a)) → (∀ t, t ∈ ts → visits e (inr t)) →
  Forall (visits e) (walk fs ft ss ts).
Proof.
  intros Hs Ht. apply Forall_forall. intros [a|t] Hin; [apply Hs|apply Ht].
  - by apply walk_elem_l in Hin.
  - by apply walk_elem_r in Hin.
Qed.

Lemma walk_sorted ss ts :
  StronglySorted (λ a b, sym_le (fs a) (fs b) = true) ss →
  StronglySorted (λ t u, tok_le (ft t) (ft u) = true) ts →
  StronglySorted visits (walk fs ft ss ts).
Proof.
  intros Hs. revert ts. induction Hs as [|s ss Hss IHs Hs]; intros ts Ht.
  { rewrite walk_nil_l. apply (StronglySorted_fmap _ (λ t u, tok_le (ft t) (ft u) = true)); [|done].
    intros t u. unfold tok_le. simpl. lia. }
  induction Ht as [|t ts Hts IHt Ht].
  { rewrite walk_nil_r. apply (StronglySorted_fmap _ (λ a b, sym_le (fs a) (fs b) = true));
      [done|by constructor]. }
  rewrite Forall_forall in Hs. rewrite Forall_forall in Ht. rewrite walk_cons.
  destruct (start (fs s) <=? start (ft t)) eqn:E; constructor.
  - apply IHs. constructor; [done|by apply Forall_forall].
  - apply walk_visits_all; [done|]. intros u [->|Hu]%elem_of_cons; cbn; [lia|].
    specialize (Ht u Hu). unfold tok_le in Ht. lia.
  - done.
  - apply walk_visits_all.
    + intros a [->|Ha]%elem_of_cons; cbn; [lia|]. specialize (Hs a Ha). apply sym_le_start in Hs. lia.
    + intros u Hu. specialize (Ht u Hu). unfold tok_le in Ht. cbn. lia.
Qed.
End walk.

Lemma walk_fmap {S T} (fs : S → Span) (ft : T → Span) ss ts :
  walk id id (fs <$> ss) (ft <$> ts) =
  (λ e, match e with inl s => inl (fs s) | inr t => inr (ft t) end) <$> walk fs ft ss ts.
Proof.
  revert ts. induction ss as [|s ss IHs]; intros ts.
  { cbn [fmap list_fmap]. rewrite !walk_nil_l, <- !list_fmap_compose. done. }
  induction ts as [|t ts IHt].
  { change (ft <$> []) with (@nil Span). rewrite !walk_nil_r, <- !list_fmap_compose. done. }
  rewrite !fmap_cons, !walk_cons in *. unfold id at 1 2. case_match.
  - rewrite fmap_cons, <- IHs. by rewrite fmap_cons.
  - rewrite fmap_cons, <- IHt. done.
Qed.

(** ** The stack *)
Section stack.
Context {A} (end_of : A → Z).

Lemma pop_pop p pos (open : list A) : p ≤ pos → pop end_of pos (pop end_of p open) = pop end_of pos open.
Proof.
  intros Hp. induction open as [|a open IH]; simpl; [done|].
  destruct (end_of a <=? p) eqn:E; [|done].
  rewrite IH. by rewrite (proj2 (Z.leb_le (end_of a) pos)) by lia.
Qed.

(** [open] is the stack after the symbols [xs], for any later position: the
    symbols that end after it, the last one on top. *)
Definition stack_ok (p0 : Z) (xs open : list A) : Prop :=
  ∀ pos, p0 ≤ pos → pop end_of pos open = reverse (filter (λ a, pos < end_of a) xs).

Lemma stack_nil p0 : stack_ok p0 [] [].
Proof. done. Qed.
Lemma stack_keep p0 p xs open :
  stack_ok p0 xs open → p0 ≤ p → stack_ok p xs (pop end_of p open).
Proof. intros H Hp pos Hpos. rewrite pop_pop by done. apply H. lia. Qed.
Lemma stack_push p0 p xs open x :
  stack_ok p0 xs open → p0 ≤ p →
  (∀ a, a ∈ xs → p < end_of a → end_of x ≤ end_of a) →
  stack_ok p (xs ++ [x]) (x :: pop end_of p open).
Proof.
  intros H Hp Hin pos Hpos. rewrite filter_app, reverse_app. cbn [pop].
  destruct (end_of x <=? pos) eqn:E.
  - rewrite pop_pop by done. rewrite filter_cons_False by lia. cbn. apply H. lia.
  - rewrite filter_cons_True by lia. rewrite H by done. cbn. f_equal. f_equal.
    apply filter_iff_in. intros a Ha. specialize (Hin a Ha). lia.
Qed.
End stack.

(** ** The validation *)

(** What an event asks of the ends of the symbols before it, and of itself. *)
Definition fits (ends : list Z) (sp : Span) : Prop :=
  start sp ≤ end_ sp ∧ ∀ a, a ∈ ends → start sp < a → end_ sp ≤ a.

(** The events, read against the ends of the symbols before them. *)
Fixpoint good (ends : list Z) (evs : list (Span + Span)) : Prop :=
  match evs with
  | [] => True
  | e :: evs =>
      fits ends (ev_span e) ∧
      good (match e with inl s => ends ++ [end_ s] | inr _ => ends end) evs
  end.

(** Symbols still open end no later than the ones they are in. *)
Definition ends_nest (p0 : Z) (ends : list Z) : Prop :=
  ∀ pos, p0 ≤ pos → StronglySorted (λ a b, b ≤ a) (filter (λ a, pos < a) ends).

Lemma ends_nest_push p0 p ends x :
  ends_nest p0 ends → p0 ≤ p → (∀ a, a ∈ ends → p < a → x ≤ a) → ends_nest p (ends ++ [x]).
Proof.
  intros H Hp Hx pos Hpos. rewrite filter_app. apply StronglySorted_app_2.
  - intros a b [? Ha]%list_elem_of_filter [_ ->%list_elem_of_singleton]%list_elem_of_filter.
    apply Hx; [done|lia].
  - apply H. lia.
  - rewrite filter_cons. case_decide; repeat constructor.
Qed.

Lemma top_fits (L : list Z) v :
  StronglySorted (λ a b, b ≤ a) L →
  match reverse L with [] => false | e :: _ => e <? v end = false ↔ ∀ a, a ∈ L → v ≤ a.
Proof.
  intros HL. destruct L as [|e L _] using rev_ind; [set_solver|]. rewrite reverse_snoc. split.
  - intros He a [Ha| ->%list_elem_of_singleton]%elem_of_app; [|lia].
    pose proof (StronglySorted_app_1_elem_of _ _ _ a e HL Ha ltac:(by left)). simpl in *. lia.
  - intros H. specialize (H e ltac:(apply elem_of_app; right; by left)). lia.
Qed.

Lemma validate_loop_good p0 ends open evs :
  stack_ok id p0 ends open → ends_nest p0 ends →
  StronglySorted (visits id id) evs → Forall (λ e, p0 ≤ start (ev_span e)) evs →
  (validate_loop open evs = Ok () ∧ good ends evs) ∨
  ((∃ m, validate_loop open evs = Err (InvalidSpan m)) ∧ ¬ good ends evs).
Proof.
  intros Hst Hn Hs. revert p0 ends open Hst Hn.
  induction Hs as [|e evs Hs IH He]; intros p0 ends open Hst Hn Hp; [by left|].
  apply Forall_cons in Hp as [Hp0 Hp]. cbn [validate_loop good].
  set (sp := ev_span e) in *. set (p := start sp) in *.
  destruct (end_ sp <? p) eqn:E1.
  { right. split; [by eexists|]. intros [[? _] _]. unfold p in *. lia. }
  rewrite (Hst p Hp0). pose proof (top_fits _ (end_ sp) (Hn p Hp0)) as Htop.
  destruct (match reverse _ with [] => false | e :: _ => e <? end_ sp end) eqn:E2.
  { right. split; [by eexists|]. intros [[_ Hf] _]. enough (true = false) by done.
    apply Htop. intros a [? ?]%list_elem_of_filter. by apply Hf. }
  assert (fits ends sp) as Hfit.
  { split; [lia|]. intros a Ha Hpa. apply (proj1 Htop eq_refl). by apply list_elem_of_filter. }
  rewrite <- (Hst p Hp0).
  assert (Forall (λ e, p ≤ start (ev_span e)) evs) as Hp'.
  { eapply Forall_impl; [exact He|]. intros x Hx. destruct e, x; cbn in Hx |- *;
      try apply sym_le_start in Hx; unfold p, sp; cbn; lia. }
  destruct e as [s|t]; cbn [ev_span] in *.
  - destruct (IH p (ends ++ [end_ s]) (end_ s :: pop id p open)) as [[? ?]|[? ?]]; [| |done|tauto..].
    + apply (stack_push id p0 p ends open (end_ s)); [done..|]. apply Hfit.
    + apply (ends_nest_push p0); [done..|]. apply Hfit.
  - destruct (IH p ends (pop id p open)) as [[? ?]|[? ?]]; [| |done|tauto..].
    + by apply (stack_keep id p0).
    + intros pos Hpos. apply Hn. lia.
Qed.

(** The condition on pairs. *)
Definition nests (x y : Span + Span) : Prop :=
  match x with
  | inl a => end_ a ≤ start (ev_span y) ∨ end_ (ev_span y) ≤ end_ a
  | inr _ => True
  end.

Lemma good_pairs ends evs :
  good ends evs ↔
  Forall (λ e, fits ends (ev_span e)) evs ∧ StronglySorted nests evs.
Proof.
  revert ends. induction evs as [|e evs IH]; intros ends; cbn [good].
  { split; [|done]. split; constructor. }
  rewrite IH. rewrite Forall_cons. split.
  - intros (Hf & HF & HS). rewrite Forall_forall in HF. split_and!; [done| |constructor; [done|]].
    + apply Forall_forall. intros x Hx. destruct (HF x Hx) as [H1 H2]. split; [done|].
      intros a Ha. apply H2. destruct e; set_solver.
    + apply Forall_forall. intros x Hx. destruct e as [s|t]; [|done]. cbn.
      destruct (HF x Hx) as [_ H2]. destruct (decide (start (ev_span x) < end_ s)); [right|left; lia].
      apply H2; [set_solver|done].
  - intros ([Hf HF] & HS). apply StronglySorted_inv in HS as [HS Hn]. split_and!; [done| |done].
    rewrite Forall_forall in HF. rewrite Forall_forall in Hn. apply Forall_forall. intros x Hx.
    destruct (HF x Hx) as [H1 H2]. split; [done|]. intros a Ha Hlt. destruct e as [s|t]; [|by apply H2].
    apply elem_of_app in Ha as [Ha| ->%list_elem_of_singleton]; [by apply H2|].
    specialize (Hn x Hx). cbn in Hn. lia.
Qed.

(** The spans of an extraction nest: none is backwards, a symbol that starts
    later than another, or a token that starts with a symbol or later, is
    inside it or after it. *)
Definition spans_ok (ex : Extraction) : Prop :=
  Forall (λ s, start (sd_span s) ≤ end_ (sd_span s)) (ex_symbols ex) ∧
  Forall (λ t, start (td_span t) ≤ end_ (td_span t)) (ex_tokens ex) ∧
  (∀ a b, a ∈ ex_symbols ex → b ∈ ex_symbols ex → start (sd_span a) < start (sd_span b) →
     end_ (sd_span a) ≤ start (sd_span b) ∨ end_ (sd_span b) ≤ end_ (sd_span a)) ∧
  (∀ a t, a ∈ ex_symbols ex → t ∈ ex_tokens ex → start (sd_span a) ≤ start (td_span t) →
     end_ (sd_span a) ≤ start (td_span t) ∨ end_ (td_span t) ≤ end_ (sd_span a)).

(** The walk of [V2Prep::build] over the declarations themselves. *)
Definition sorted_symbols (ex : Extraction) : list SymbolDecl :=
  sort_by (λ a b, sym_le (sd_span a) (sd_span b)) (ex_symbols ex).
Definition sorted_tokens (ex : Extraction) : list TokenDecl :=
  sort_by (λ a b, tok_le (td_span a) (td_span b)) (ex_tokens ex).
Definition events (ex : Extraction) : list (SymbolDecl + TokenDecl) :=
  walk sd_span td_span (sorted_symbols ex) (sorted_tokens ex).
Definition decl_span (e : SymbolDecl + TokenDecl) : Span + Span :=
  match e with inl s => inl (sd_span s) | inr t => inr (td_span t) end.

Lemma validate_events ex : validate_spans ex = validate_loop [] (decl_span <$> events ex).
Proof. unfold validate_spans. by rewrite !sort_by_fmap, walk_fmap. Qed.

Lemma events_symbols ex : omap left_of (events ex) = sorted_symbols ex.
Proof. apply walk_parts. Qed.
Lemma events_tokens ex : omap right_of (events ex) = sorted_tokens ex.
Proof. apply walk_parts. Qed.

Lemma events_sym ex s : inl s ∈ events ex ↔ s ∈ ex_symbols ex.
Proof. unfold events. by rewrite walk_elem_l; unfold sorted_symbols; rewrite sort_by_perm. Qed.
Lemma events_tok ex t : inr t ∈ events ex ↔ t ∈ ex_tokens ex.
Proof. unfold events. by rewrite walk_elem_r; unfold sorted_tokens; rewrite sort_by_perm. Qed.

Lemma sorted_symbols_elem ex s : s ∈ sorted_symbols ex ↔ s ∈ ex_symbols ex.
Proof. unfold sorted_symbols. by rewrite sort_by_perm. Qed.
Lemma sorted_symbols_sorted ex :
  StronglySorted (λ a b, sym_le (sd_span a) (sd_span b) = true) (sorted_symbols ex).
Proof. apply sort_by_sorted; intros *; [apply sym_le_trans|apply sym_le_total]. Qed.
Lemma sorted_tokens_sorted ex :
  StronglySorted (λ a b, tok_le (td_span a) (td_span b) = true) (sorted_tokens ex).
Proof. apply sort_by_sorted; intros *; [apply tok_le_trans|apply tok_le_total]. Qed.

Lemma events_sorted ex : StronglySorted (visits sd_span td_span) (events ex).
Proof.
  apply walk_sorted; [apply sorted_symbols_sorted|apply sorted_tokens_sorted].
Qed.

(** The same relations on the declarations. *)
Definition nested (x y : SymbolDecl + TokenDecl) : Prop := nests (decl_span x) (decl_span y).

Lemma events_spans_sorted ex : StronglySorted (visits id id) (decl_span <$> events ex).
Proof.
  eapply StronglySorted_fmap; [|apply events_sorted]. by intros [s|s] [t|t].
Qed.

Lemma events_fits ex :
  Forall (λ e, fits [] (ev_span e)) (decl_span <$> events ex) ↔
  Forall (λ s, start (sd_span s) ≤ end_ (sd_span s)) (ex_symbols ex) ∧
  Forall (λ t, start (td_span t) ≤ end_ (td_span t)) (ex_tokens ex).
Proof.
  rewrite Forall_fmap, !Forall_forall. split.
  - intros H. split; intros x Hx.
    + by apply (H (inl x)), events_sym.
    + by apply (H (inr x)), events_tok.
  - intros [Hs Ht] [s|t] Hx; (split; [|by intros ? ?%not_elem_of_nil]).
    + by apply Hs, events_sym.
    + by apply Ht, events_tok.
Qed.

(** Nesting is a matter of pairs, in the order of the walk. *)
Lemma events_nested ex :
  StronglySorted nests (decl_span <$> events ex) ↔
  ∀ x y, x ∈ events ex → y ∈ events ex → visits sd_span td_span x y → nested x y.
Proof.
  pose proof (events_sorted ex) as Hv. split.
  - intros Hn x y [i Hi]%list_elem_of_lookup [j Hj]%list_elem_of_lookup Hxy.
    assert ((i < j)%nat ∨ visits sd_span td_span y x) as [Hij|Hyx].
    { destruct (lt_eq_lt_dec i j) as [[?| ->]|?]; [by left|simplify_eq; by right|right].
      by eapply sorted_lookup. }
    + apply (sorted_lookup nests _ i j (decl_span x) (decl_span y) Hn); [..|done];
        by rewrite list_lookup_fmap, ?Hi, ?Hj.
    + unfold nested. destruct x as [a|t], y as [b|u]; cbn in *; try done; [|lia].
      unfold sym_le in *. rewrite !orb_true_iff, !andb_true_iff in *. lia.
  - intros H. apply (StronglySorted_fmap _ nested); [done|]. by eapply sorted_impl_in.
Qed.

Lemma good_spans_ok ex : good [] (decl_span <$> events ex) ↔ spans_ok ex.
Proof.
  rewrite good_pairs, events_fits, events_nested. unfold spans_ok.
  split.
  - intros [[Hfs Hft] H]. split_and!; [done|done|..].
    + intros a b Ha Hb Hlt. apply (H (inl a) (inl b)); [by apply events_sym..|].
      cbn. unfold sym_le. rewrite orb_true_iff. lia.
    + intros a t Ha Ht Hle. by apply (H (inl a) (inr t)); [apply events_sym|apply events_tok|].
  - intros (Hfs & Hft & Hs & Ht). split; [done|].
    intros [a|t] y Hx Hy Hv; [|done]. apply events_sym in Hx.
    destruct y as [b|t]; unfold nested; cbn.
    + apply events_sym in Hy. cbn in Hv. unfold sym_le in Hv. rewrite orb_true_iff, andb_true_iff in Hv.
      destruct (decide (start (sd_span a) < start (sd_span b))); [by apply Hs|right; lia].
    + apply events_tok in Hy. by apply Ht.
Qed.

Lemma spans_ok_nested ex :
  spans_ok ex →
  ∀ x y, x ∈ events ex → y ∈ events ex → visits sd_span td_span x y → nested x y.
Proof. rewrite <- good_spans_ok, good_pairs. intros [_ H]. by apply events_nested. Qed.

Lemma validate_spans_cases ex :
  (spans_ok ex ∧ validate_spans ex = Ok ()) ∨
  (¬ spans_ok ex ∧ ∃ m, validate_spans ex = Err (InvalidSpan m)).
Proof.
  rewrite validate_events, <- good_spans_ok.
  assert (∃ p0, Forall (λ e, p0 ≤ start (ev_span e)) (decl_span <$> events ex)) as [p0 Hp].
  { generalize (decl_span <$> events ex). intros l. induction l as [|e l [p IH]]; [by exists 0|].
    exists (Z.min p (start (ev_span e))). constructor; [lia|].
    eapply Forall_impl; [exact IH|]. simpl. lia. }
  destruct (validate_loop_good p0 [] [] (decl_span <$> events ex)) as [[? ?]|[? ?]];
    [done|intros ??; constructor|apply events_spans_sorted|done|tauto|tauto].
Qed.

(** C34: The span validation accepts exactly the extractions whose spans nest:
    no span runs backwards, and no symbol or token partially overlaps a symbol
    that starts before it. Everything else is refused as an invalid span. *)
Theorem validate_spans_spec ex :
  (spans_ok ex ∧ validate_spans ex = Ok ()) ∨
  (¬ spans_ok ex ∧ ∃ m, validate_spans ex = Err (InvalidSpan m)).
Proof. apply validate_spans_cases. Qed.
