(* ===== verification/Prep.v ===== *)
(** * Preparing a file for the store

    [V2Prep::build] ([graph-store/src/v2.rs]): the stream of an extraction
    with file-local term numbers, its posting lists and its catalog counts. *)
From S2P Require Import Prelude Text Schema Varint Stream StreamRound Posting Table DictRev StrOps Tokenizer.
From S2P Require Import TokenizerProps Language Walk.

(** The distinct terms in first-use order, and their numbers. *)
Definition Terms : Type := list str * gmap str Z.

Definition intern_local (t : str) (tl : Terms) : Z * Terms :=
  match tl.2 !! t with
  | Some i => (i, tl)
  | None =>
      let terms := tl.1 ++ [t] in
      let i := as_u64 (Z.of_nat (length terms)) - 1 in
      (i, (terms, <[t := i]> tl.2))
  end.
(** [o.map(|t| intern_local(t, ..))]. *)
Definition intern_opt (o : option str) (tl : Terms) : option Z * Terms :=
  match o with
  | None => (None, tl)
  | Some t => let '(i, tl) := intern_local t tl in (Some i, tl)
  end.

(** [Option<T>] is ordered with [None] first. *)
Definition option_lt {A} `{KeyOrder A} (a b : option A) : Prop :=
  match a, b with None, Some _ => True | Some x, Some y => key_lt x y | _, _ => False end.
#[global] Instance option_key_order {A} `{KeyOrder A} : KeyOrder (option A).
Proof.
  refine {| key_lt := option_lt |}.
  - intros [x|] [y|]; simpl; apply _.
  - intros [x|]; simpl; [apply key_lt_irrefl|tauto].
  - intros [x|] [y|] [z|]; simpl; try done. apply key_lt_trans.
  - intros [x|] [y|]; simpl; auto. destruct (key_lt_total x y) as [?|[->|?]]; auto.
Defined.

(** [map.entry(k).or_insert((v, 0)).1 += 1]. *)
Definition count {K V} `{Countable K} (k : K) (v : V) (m : gmap K (V * Z)) : gmap K (V * Z) :=
  let '(w, n) := default (v, 0) (m !! k) in <[k := (w, n + 1)]> m.

(** The locals of the loop. *)
Record PrepState : Type := mkPrepState {
  ps_terms : Terms;
  ps_symbols : list SymRec;
  ps_tokens : list TokRec;
  ps_open : list (Z * Z);
  ps_sym_counts : gmap (str * option str) (SymbolKind * Z);
  ps_class_counts : gmap str (TokenClass * Z);
}.
Definition PrepState_new : PrepState := mkPrepState ([], ∅) [] [] [] ∅ ∅.

(** One round of the loop. *)
Definition prep_step (st : PrepState) (e : SymbolDecl + TokenDecl) : PrepState :=
  let pos := start (match e with inl s => sd_span s | inr t => td_span t end) in
  let open := pop snd pos (ps_open st) in
  let parent := fst <$> head open in
  match e with
  | inl s =>
      let '(name, tl) := intern_local (sd_name s) (ps_terms st) in
      let '(lang_kind, tl) := intern_opt (sd_lang_kind s) tl in
      let '(owner, tl) := intern_opt (sd_owner s) tl in
      let idx := Z.of_nat (length (ps_symbols st)) in
      mkPrepState tl
        (ps_symbols st ++ [mkSymRec name (sd_kind s) lang_kind parent (sd_span s) None owner])
        (ps_tokens st) ((as_u32 idx, end_ (sd_span s)) :: open)
        (count (SymbolKind_as_str (sd_kind s), sd_lang_kind s) (sd_kind s) (ps_sym_counts st))
        (ps_class_counts st)
  | inr t =>
      let '(term, tl) := intern_local (td_text t) (ps_terms st) in
      mkPrepState tl (ps_symbols st)
        (ps_tokens st ++ [mkTokRec term (td_class t) parent (td_span t)]) open
        (ps_sym_counts st)
        (count (TokenClass_as_str (td_class t)) (td_class t) (ps_class_counts st))
  end.

(** [ords.entry(t.term).or_default().push(i)] over the tokens. *)
Definition ordinals_of (toks : list TokRec) : gmap Z (list Z) :=
  foldl (λ m '(i, t), <[t_term t := default [] (m !! t_term t) ++ [Z.of_nat i]]> m)
    ∅ (enumerate toks).

Definition with_symbol_kind (n : Node) (k : SymbolKind) (lang_kind : option str) : Node :=
  mkNode (n_id n) (n_parent n) (n_kind n) (n_name n) (n_language n) (Some k) lang_kind
    (n_token_class n) (n_has_errors n) (n_origin n) (n_fingerprint n) (n_encoding n) (n_lossy n)
    (n_span n).
Definition with_token_class (n : Node) (c : TokenClass) : Node :=
  mkNode (n_id n) (n_parent n) (n_kind n) (n_name n) (n_language n) (n_symbol_kind n)
    (n_lang_kind n) (Some c) (n_has_errors n) (n_origin n) (n_fingerprint n) (n_encoding n)
    (n_lossy n) (n_span n).

Record V2Prep : Type := mkV2Prep {
  vp_terms : list str;
  vp_stream : Stream;
  vp_postings : list (Z * list Z);
  vp_tally_nodes : list (Node * Z);
}.

Definition V2Prep_build (ex : Extraction) : V2Prep :=
  let st := foldl prep_step PrepState_new (events ex) in
  mkV2Prep (ps_terms st).1 (mkStream (ps_symbols st) (ps_tokens st))
    ((λ '(t, o), (t, encode_posting o)) <$> gmap_rows (ordinals_of (ps_tokens st)))
    (((λ '((_, lang_kind), (kind, n)),
        (with_symbol_kind (blank 0 None Symbol []) kind lang_kind, n)) <$>
        gmap_rows (ps_sym_counts st)) ++
     ((λ '(_, (class, n)), (with_token_class (blank 0 None Token []) class, n)) <$>
        gmap_rows (ps_class_counts st))).

(** ** Terms *)

(** Number [i] stands for [t]. *)
Definition term_is (terms : list str) (i : Z) (t : str) : Prop :=
  0 ≤ i ∧ terms !! Z.to_nat i = Some t.
Definition opt_term (terms : list str) (i : option Z) (t : option str) : Prop :=
  option_Forall2 (term_is terms) i t.

Definition terms_ok (tl : Terms) : Prop :=
  NoDup tl.1 ∧ ∀ t i, tl.2 !! t = Some i ↔ term_is tl.1 i t.

Lemma term_is_app a b i t : term_is a i t → term_is (a ++ b) i t.
Proof. intros [? H]. split; [done|]. by apply lookup_app_l_Some. Qed.
Lemma opt_term_app a b i t : opt_term a i t → opt_term (a ++ b) i t.
Proof. intros [x y H|]; constructor. by apply term_is_app. Qed.
Lemma term_is_u64 terms i t : term_is terms i t → Z.of_nat (length terms) < 2 ^ 64 → u64 i ∧ i < 2 ^ 64 - 1.
Proof. intros [? H%lookup_lt_Some] ?. unfold u64. lia. Qed.

(** [tl'] extends [tl] by at most [k] terms. *)
Definition extends (k : nat) (tl tl' : Terms) : Prop :=
  terms_ok tl' ∧ ∃ b, tl'.1 = tl.1 ++ b ∧ (length b ≤ k)%nat.

Lemma extends_trans j k a b c : extends j a b → extends k b c → extends (j + k) a c.
Proof.
  intros (_ & x & Hx & Hj) (Hc & y & Hy & Hk). split; [done|]. exists (x ++ y).
  rewrite Hy, Hx, <- app_assoc, length_app. split; [done|lia].
Qed.
Lemma extends_term k a b i t : extends k a b → term_is a.1 i t → term_is b.1 i t.
Proof. intros (_ & x & -> & _). apply term_is_app. Qed.
Lemma extends_opt k a b i t : extends k a b → opt_term a.1 i t → opt_term b.1 i t.
Proof. intros (_ & x & -> & _). apply opt_term_app. Qed.
Lemma extends_len k a b : extends k a b → (length b.1 ≤ length a.1 + k)%nat.
Proof. intros (_ & x & -> & ?). rewrite length_app. lia. Qed.

Lemma intern_local_ok t tl :
  terms_ok tl → Z.of_nat (length tl.1) < 2 ^ 64 - 1 →
  let '(i, tl') := intern_local t tl in extends 1 tl tl' ∧ term_is tl'.1 i t.
Proof.
  destruct tl as [terms local]. intros Hok Hl. pose proof Hok as [Hnd Hlk]. cbn in Hl, Hlk.
  unfold intern_local. cbn [fst snd].
  destruct (local !! t) as [i|] eqn:E.
  { split; [|by apply Hlk]. split; [done|]. exists []. rewrite app_nil_r. split; [done|simpl; lia]. }
  assert (as_u64 (Z.of_nat (length (terms ++ [t]))) - 1 = Z.of_nat (length terms)) as ->.
  { rewrite length_app, as_u64_id by (unfold u64; simpl; lia). simpl. lia. }
  assert (t ∉ terms) as Hnew.
  { intros [n Hn]%list_elem_of_lookup. assert (local !! t = Some (Z.of_nat n)) as H2; [|congruence].
    apply Hlk. split; [lia|]. by rewrite Nat2Z.id. }
  split; [split; [split|]|].
  - apply NoDup_app. split_and!; [done| |apply NoDup_singleton]. intros x Hx. set_solver.
  - intros t' i. cbn [fst snd]. destruct (decide (t' = t)) as [->|Hne].
    + rewrite lookup_insert_eq. split.
      * intros [= <-]. split; [lia|]. by rewrite Nat2Z.id, list_lookup_middle.
      * intros [Hi [H|[? [H1 H2]%list_lookup_singleton_Some]]%lookup_app_Some].
        -- destruct Hnew. by apply list_elem_of_lookup_2 in H.
        -- f_equal. lia.
    + rewrite lookup_insert_ne, Hlk by done. unfold term_is. rewrite lookup_app_Some. split.
      * intros [? H]. split; [done|by left].
      * intros [? [H|[_ [_ H]%list_lookup_singleton_Some]]]; [done|congruence].
  - exists [t]. by split.
  - split; [lia|]. cbn [fst]. by rewrite Nat2Z.id, list_lookup_middle.
Qed.

Lemma intern_opt_ok o tl :
  terms_ok tl → Z.of_nat (length tl.1) < 2 ^ 64 - 1 →
  let '(i, tl') := intern_opt o tl in extends 1 tl tl' ∧ opt_term tl'.1 i o.
Proof.
  intros Hok Hl. destruct o as [t|]; cbn [intern_opt].
  - pose proof (intern_local_ok t tl Hok Hl) as H. destruct (intern_local t tl) as [i tl'].
    destruct H as [? ?]. split; [done|by constructor].
  - split; [|constructor]. split; [done|]. exists []. rewrite app_nil_r. split; [done|simpl; lia].
Qed.

(** ** The loop *)

(** A record of the stream stands for a declaration. *)
Definition sym_rec (terms : list str) (s : SymbolDecl) (r : SymRec) : Prop :=
  term_is terms (s_name r) (sd_name s) ∧ s_kind r = sd_kind s ∧
  opt_term terms (s_lang_kind r) (sd_lang_kind s) ∧ opt_term terms (s_owner r) (sd_owner s) ∧
  s_span r = sd_span s.
Definition tok_rec (terms : list str) (t : TokenDecl) (r : TokRec) : Prop :=
  term_is terms (t_term r) (td_text t) ∧ t_class r = td_class t ∧ t_span r = td_span t.

Lemma sym_rec_extends k a b s r : extends k a b → sym_rec a.1 s r → sym_rec b.1 s r.
Proof. intros H (? & ? & ? & ? & ?). split_and!; eauto using extends_term, extends_opt. Qed.
Lemma tok_rec_extends k a b s r : extends k a b → tok_rec a.1 s r → tok_rec b.1 s r.
Proof. intros H (? & ? & ?). split_and!; eauto using extends_term. Qed.

Lemma pop_Forall {A} (P : A → Prop) end_of pos open : Forall P open → Forall P (pop end_of pos open).
Proof. induction 1 as [|a open Ha Ho IH]; simpl; [constructor|]. case_match; [done|by constructor]. Qed.

Record prep_inv (evs : list (SymbolDecl + TokenDecl)) (st : PrepState) : Prop := mkPrepInv {
  pi_terms : terms_ok (ps_terms st);
  pi_len : (length (ps_terms st).1 ≤ 3 * length evs)%nat;
  pi_syms : Forall2 (sym_rec (ps_terms st).1) (omap left_of evs) (ps_symbols st);
  pi_toks : Forall2 (tok_rec (ps_terms st).1) (omap right_of evs) (ps_tokens st);
  pi_sym_parents i r : ps_symbols st !! i = Some r → parent_below i (s_parent r);
  pi_tok_parents : Forall (λ t, parent_below (length (ps_symbols st)) (t_parent t)) (ps_tokens st);
  pi_open : Forall (λ p, 0 ≤ p.1 < Z.of_nat (length (ps_symbols st))) (ps_open st);
}.

Lemma head_parent_below n (open : list (Z * Z)) :
  Forall (λ p, 0 ≤ p.1 < Z.of_nat n) open → parent_below n (fst <$> head open).
Proof. by intros [|p l Hp _]. Qed.
Lemma parent_below_mono n k o : parent_below n o → (n ≤ k)%nat → parent_below k o.
Proof. destruct o; simpl; lia. Qed.

Lemma prep_inv_new : prep_inv [] PrepState_new.
Proof.
  split; try done; try constructor.
  - constructor.
  - intros t i. cbn. rewrite lookup_empty. split; [done|]. by intros [_ ?].
Qed.

Lemma prep_inv_token evs st t :
  prep_inv evs st → Z.of_nat (length evs) ≤ 2 ^ 33 → prep_inv (evs ++ [inr t]) (prep_step st (inr t)).
Proof.
  intros HI Hn. pose proof (pi_len _ _ HI) as Hlen.
  pose proof (intern_local_ok (td_text t) (ps_terms st) (pi_terms _ _ HI) ltac:(lia)) as Ht.
  cbn [prep_step]. destruct (intern_local (td_text t) (ps_terms st)) as [term tl].
  destruct Ht as [Hext Hterm]. pose proof (extends_len _ _ _ Hext).
  assert (omap left_of (evs ++ [inr t]) = omap left_of evs) as Hl by (rewrite omap_app; cbn; by rewrite app_nil_r).
  assert (omap right_of (evs ++ [inr t]) = omap right_of evs ++ [t]) as Hr by by rewrite omap_app.
  set (open := pop snd (start (td_span t)) (ps_open st)).
  assert (Forall (λ p, 0 ≤ p.1 < Z.of_nat (length (ps_symbols st))) open) as Hopen
    by apply pop_Forall, HI.
  split; cbn [ps_terms ps_symbols ps_tokens ps_open]; rewrite ?Hl, ?Hr.
  - apply Hext.
  - rewrite length_app. cbn [length]. lia.
  - eapply Forall2_impl; [apply HI|]. intros s r. by eapply sym_rec_extends.
  - apply Forall2_app; [|constructor; [by split|constructor]].
    eapply Forall2_impl; [apply HI|]. intros s r. by eapply tok_rec_extends.
  - apply HI.
  - apply Forall_app. split; [apply HI|]. constructor; [|constructor]. by apply head_parent_below.
  - done.
Qed.

Lemma prep_inv_symbol evs st s :
  prep_inv evs st → Z.of_nat (length evs) ≤ 2 ^ 33 →
  Z.of_nat (length (omap left_of evs)) < 2 ^ 32 → prep_inv (evs ++ [inl s]) (prep_step st (inl s)).
Proof.
  intros HI Hn Hs. pose proof (pi_len _ _ HI) as Hlen. cbn [prep_step].
  pose proof (intern_local_ok (sd_name s) (ps_terms st) (pi_terms _ _ HI) ltac:(lia)) as H1.
  destruct (intern_local (sd_name s) (ps_terms st)) as [name tl1]. destruct H1 as [He1 Hname].
  pose proof (extends_len _ _ _ He1) as Hl1.
  pose proof (intern_opt_ok (sd_lang_kind s) tl1 (proj1 He1) ltac:(lia)) as H2.
  destruct (intern_opt (sd_lang_kind s) tl1) as [kind tl2]. destruct H2 as [He2 Hkind].
  pose proof (extends_len _ _ _ He2) as Hl2.
  pose proof (intern_opt_ok (sd_owner s) tl2 (proj1 He2) ltac:(lia)) as H3.
  destruct (intern_opt (sd_owner s) tl2) as [owner tl3]. destruct H3 as [He3 Howner].
  pose proof (extends_len _ _ _ He3) as Hl3.
  pose proof (extends_trans _ _ _ _ _ He1 (extends_trans _ _ _ _ _ He2 He3)) as Hext.
  assert (omap left_of (evs ++ [inl s]) = omap left_of evs ++ [s]) as Hl by by rewrite omap_app.
  assert (omap right_of (evs ++ [inl s]) = omap right_of evs) as Hr by (rewrite omap_app; cbn; by rewrite app_nil_r).
  pose proof (Forall2_length _ _ _ (pi_syms _ _ HI)) as Hls. rewrite Hls in Hs.
  set (open := pop snd (start (sd_span s)) (ps_open st)).
  assert (Forall (λ p, 0 ≤ p.1 < Z.of_nat (length (ps_symbols st))) open) as Hopen
    by apply pop_Forall, HI.
  split; cbn [ps_terms ps_symbols ps_tokens ps_open]; rewrite ?Hl, ?Hr.
  - apply Hext.
  - rewrite length_app. cbn [length]. lia.
  - apply Forall2_app; [eapply Forall2_impl; [apply HI|]; intros ??; by eapply sym_rec_extends|].
    constructor; [|constructor]. split_and!; cbn; eauto using extends_term, extends_opt, extends_trans.
  - eapply Forall2_impl; [apply HI|]. intros ??. by eapply tok_rec_extends.
  - intros i r [Hi|[Hi [Hz <-]%list_lookup_singleton_Some]]%lookup_app_Some;
      [by eapply pi_sym_parents|]. cbn. eapply parent_below_mono; [by apply head_parent_below|lia].
  - eapply Forall_impl; [apply HI|]. intros x Hx. eapply parent_below_mono; [exact Hx|]. rewrite length_app. lia.
  - rewrite length_app. cbn [length]. constructor.
    + cbn. rewrite as_u32_id by (unfold u32; lia). lia.
    + eapply Forall_impl; [exact Hopen|]. intros p. simpl. lia.
Qed.

Lemma prep_inv_run evs :
  Z.of_nat (length (omap left_of evs)) ≤ 2 ^ 32 → Z.of_nat (length evs) ≤ 2 ^ 33 →
  prep_inv evs (foldl prep_step PrepState_new evs).
Proof.
  induction evs as [|e evs IH] using rev_ind; [intros; apply prep_inv_new|].
  rewrite omap_app, !length_app, foldl_snoc. intros Hs Hn.
  assert (prep_inv evs (foldl prep_step PrepState_new evs)) as HI by (apply IH; lia).
  destruct e as [s|t]; cbn in Hs, Hn.
  - apply prep_inv_symbol; [done|lia|lia].
  - apply prep_inv_token; [done|lia].
Qed.

(** ** The stream that is built *)

(** Sizes the format can hold. *)
Definition small_ex (ex : Extraction) : Prop :=
  Z.of_nat (length (ex_symbols ex)) ≤ 2 ^ 32 ∧ Z.of_nat (length (ex_tokens ex)) ≤ 2 ^ 32 ∧
  Forall (λ s, span_ok (sd_span s)) (ex_symbols ex) ∧ Forall (λ t, span_ok (td_span t)) (ex_tokens ex).
#[global] Instance small_ex_dec ex : Decision (small_ex ex).
Proof. unfold small_ex. apply _. Defined.

Lemma events_length ex : length (events ex) = (length (ex_symbols ex) + length (ex_tokens ex))%nat.
Proof.
  rewrite <- (Permutation_length (sort_by_perm (λ a b, sym_le (sd_span a) (sd_span b)) (ex_symbols ex))).
  rewrite <- (Permutation_length (sort_by_perm (λ a b, tok_le (td_span a) (td_span b)) (ex_tokens ex))).
  fold (sorted_symbols ex) (sorted_tokens ex). rewrite <- events_symbols, <- events_tokens.
  induction (events ex) as [|[s|t] l IH]; cbn; [done|..]; cbn in IH; lia.
Qed.

Lemma build_inv ex :
  small_ex ex → prep_inv (events ex) (foldl prep_step PrepState_new (events ex)).
Proof.
  intros (Hs & Ht & _). apply prep_inv_run.
  - rewrite events_symbols. unfold sorted_symbols. by rewrite (Permutation_length (sort_by_perm _ _)).
  - rewrite events_length. lia.
Qed.

Lemma opt_term_id terms i t : opt_term terms i t → Z.of_nat (length terms) < 2 ^ 64 → opt_id i.
Proof. intros [x y H|] Hl; [|done]. destruct (term_is_u64 _ _ _ H Hl) as [? ?]. simpl. mach. Qed.

Lemma build_wf ex : small_ex ex → wf_stream (vp_stream (V2Prep_build ex)).
Proof.
  intros Hsm. pose proof (build_inv ex Hsm) as HI. destruct Hsm as (Hs & Ht & Hss & Hts).
  unfold V2Prep_build. set (st := foldl prep_step PrepState_new (events ex)) in *. cbn [vp_stream].
  pose proof (pi_syms _ _ HI) as Hsym. pose proof (pi_toks _ _ HI) as Htok.
  rewrite events_symbols in Hsym. rewrite events_tokens in Htok.
  assert (Forall (λ s, span_ok (sd_span s)) (sorted_symbols ex)) as Hss'
    by (unfold sorted_symbols; by rewrite sort_by_perm).
  assert (Forall (λ t, span_ok (td_span t)) (sorted_tokens ex)) as Hts'
    by (unfold sorted_tokens; by rewrite sort_by_perm).
  pose proof (Forall2_length _ _ _ Hsym) as Hls. pose proof (Forall2_length _ _ _ Htok) as Hlt.
  unfold sorted_symbols in Hls. unfold sorted_tokens in Hlt.
  rewrite (Permutation_length (sort_by_perm _ _)) in Hls.
  rewrite (Permutation_length (sort_by_perm _ _)) in Hlt.
  assert (Z.of_nat (length (ps_terms st).1) < 2 ^ 64) as Hlen.
  { pose proof (pi_len _ _ HI). rewrite events_length in *. lia. }
  split_and!; cbn [st_symbols st_tokens]; [lia..| |].
  - apply Forall_forall. intros [i r] [_ Hi]%elem_of_enum_from. cbn in Hi |- *.
    rewrite Nat.sub_0_r in Hi. destruct (Forall2_lookup_r _ _ _ _ _ Hsym Hi) as (s & Hs' & Hr).
    destruct Hr as (Hn & _ & Hk & Ho & Hsp). rewrite Forall_lookup in Hss'.
    split_and!; [by eapply term_is_u64|by eapply opt_term_id|by eapply opt_term_id| |].
    + by eapply pi_sym_parents.
    + rewrite Hsp. by eapply Hss'.
  - apply Forall_forall. intros r Hr. pose proof (pi_tok_parents _ _ HI) as Hpp.
    rewrite Forall_forall in Hpp. apply list_elem_of_lookup in Hr as [i Hi].
    destruct (Forall2_lookup_r _ _ _ _ _ Htok Hi) as (t & Ht' & (Hn & _ & Hsp)).
    rewrite Forall_lookup in Hts'. split_and!; [by eapply term_is_u64| |].
    + apply Hpp. by eapply list_elem_of_lookup_2.
    + rewrite Hsp. by eapply Hts'.
Qed.

Lemma set_toks_recs terms (l : list SymbolDecl) k ranges :
  Forall2 (sym_rec terms) l k → length ranges = length k →
  Forall2 (sym_rec terms) l (zip_with set_toks k ranges).
Proof.
  intros H. revert ranges. induction H as [|s r l k Hr _ IH]; intros [|x ranges] Hl; try done.
  cbn. constructor; [done|]. apply IH. by injection Hl.
Qed.

Lemma build_decoded ex :
  small_ex ex →
  let p := V2Prep_build ex in
  ∃ s, decode (encode (vp_stream p)) = Ok s ∧ st_tokens s = st_tokens (vp_stream p) ∧
    Forall2 (sym_rec (vp_terms p)) (sorted_symbols ex) (st_symbols s) ∧
    Forall2 (tok_rec (vp_terms p)) (sorted_tokens ex) (st_tokens s) ∧ NoDup (vp_terms p).
Proof.
  intros Hsm p. pose proof (build_inv ex Hsm) as HI.
  exists (with_ranges (vp_stream p)). split; [by apply decode_encode_run, build_wf|].
  split; [done|]. pose proof (pi_syms _ _ HI) as Hs. pose proof (pi_toks _ _ HI) as Ht.
  rewrite events_symbols in Hs. rewrite events_tokens in Ht.
  split_and!; [|done|apply HI]. apply set_toks_recs; [done|]. apply compute_ranges_ok.
Qed.

(** Preparing a file loses nothing: the stream it builds is always
    accepted by the codec, and decoding it and looking the file-local term
    numbers up gives back the extraction's symbols and tokens (names, kinds,
    owners, texts, classes, spans), in span order. The term table has no
    duplicates. *)
Theorem prep_roundtrip ex :
  small_ex ex →
  let p := V2Prep_build ex in
  ∃ s, decode (encode (vp_stream p)) = Ok s ∧
    Forall2 (sym_rec (vp_terms p)) (sorted_symbols ex) (st_symbols s) ∧
    Forall2 (tok_rec (vp_terms p)) (sorted_tokens ex) (st_tokens s) ∧ NoDup (vp_terms p).
Proof. intros H p. destruct (build_decoded ex H) as (s & ? & _ & ?). by exists s. Qed.

(** ** Postings *)

(** The ordinals of the tokens with term [k]. *)
Definition ords_with (k : Z) (toks : list TokRec) : list Z :=
  (λ p : nat * TokRec, Z.of_nat p.1) <$> filter (λ p, t_term p.2 = k) (enumerate toks).

Lemma ords_with_snoc k toks t :
  ords_with k (toks ++ [t]) =
  ords_with k toks ++ (if decide (t_term t = k) then [Z.of_nat (length toks)] else []).
Proof.
  unfold ords_with, enumerate. rewrite enum_from_app, filter_app, fmap_app. f_equal.
  cbn [enum_from]. rewrite filter_cons. cbn. case_decide; done.
Qed.

Lemma ordinals_of_lookup toks k :
  ordinals_of toks !! k = if decide (ords_with k toks = []) then None else Some (ords_with k toks).
Proof.
  induction toks as [|t toks IH] using rev_ind; [done|].
  unfold ordinals_of, enumerate in *. rewrite enum_from_app, foldl_app, ords_with_snoc. cbn [enum_from foldl].
  set (m := foldl _ _ _) in *. cbn [length Nat.add] in *.
  destruct (decide (t_term t = k)) as [->|Hne].
  - rewrite lookup_insert_eq, IH. case_decide as H0; [rewrite H0; done|].
    rewrite decide_False; [done|]. intros [? ?]%app_nil. done.
  - rewrite lookup_insert_ne, app_nil_r by done. apply IH.
Qed.

Lemma ords_with_sorted k toks :
  StronglySorted Z.lt (ords_with k toks) ∧ Forall (λ o, 0 ≤ o < Z.of_nat (length toks)) (ords_with k toks).
Proof.
  induction toks as [|t toks [IHs IHb]] using rev_ind; [split; constructor|].
  rewrite ords_with_snoc, length_app. cbn [length]. split.
  - apply StronglySorted_app_2; [|done|case_decide; repeat constructor].
    intros a b Ha Hb. rewrite Forall_forall in IHb. specialize (IHb a Ha).
    case_decide; [apply list_elem_of_singleton in Hb as ->; lia|by apply not_elem_of_nil in Hb].
  - apply Forall_app. split; [eapply Forall_impl; [exact IHb|]; simpl; lia|].
    case_decide; repeat constructor; lia.
Qed.

(** The posting lists are exactly the inverted index of the stream: they
    are in ascending term order, every term that has tokens has one, and
    each decodes to the ordinals of the tokens with that term, in order. *)
Theorem prep_postings ex :
  small_ex ex →
  let p := V2Prep_build ex in
  StronglySorted Z.lt (vp_postings p).*1 ∧
  ∀ k ords, (∃ b, (k, b) ∈ vp_postings p ∧ posting_ordinals b = Ok ords) ↔
    ords ≠ [] ∧ ords = ords_with k (st_tokens (vp_stream p)).
Proof.
  intros Hsm p. pose proof (build_wf ex Hsm) as (_ & Hlt & _).
  unfold p, V2Prep_build in *. cbn [vp_postings vp_stream st_tokens] in *.
  set (toks := ps_tokens _) in *. split.
  { rewrite <- list_fmap_compose, (list_fmap_ext _ fst) by by intros ? [] ?.
    exact (gmap_rows_sorted (ordinals_of toks)). }
  assert (∀ k, posting_ordinals (encode_posting (ords_with k toks)) = Ok (ords_with k toks)) as Hrt.
  { intros k. destruct (ords_with_sorted k toks) as [Hs Hb]. apply posting_roundtrip_run; [split; [done|]|].
    - eapply Forall_impl; [exact Hb|]. intros o. simpl. mach.
    - unfold ords_with, enumerate. rewrite length_fmap.
      pose proof (length_filter (λ p : nat * TokRec, t_term p.2 = k) (enum_from 0 toks)).
      rewrite length_enum_from in *. lia. }
  intros k ords. split.
  - intros (b & Hb & Hd). apply list_elem_of_fmap in Hb as ([k' o] & [= -> ->] & Hko).
    apply gmap_rows_elem in Hko. rewrite ordinals_of_lookup in Hko. case_decide; [done|].
    injection Hko as <-. rewrite Hrt in Hd. by injection Hd as <-.
  - intros [Hne ->]. exists (encode_posting (ords_with k toks)). split; [|apply Hrt].
    apply list_elem_of_fmap. exists (k, ords_with k toks). split; [done|].
    apply gmap_rows_elem. rewrite ordinals_of_lookup. by rewrite decide_False.
Qed.

(** ** Parents *)

(** The last of the symbols whose span covers byte [p]. *)
Definition covers (p : Z) (ir : nat * SymRec) : Prop :=
  start (s_span ir.2) ≤ p ∧ p < end_ (s_span ir.2).
#[global] Instance covers_dec p ir : Decision (covers p ir).
Proof. unfold covers. apply _. Defined.
Definition innermost (syms : list SymRec) (p : Z) : option Z :=
  (λ ir : nat * SymRec, Z.of_nat ir.1) <$> last (filter (covers p) (enumerate syms)).

(** The entries of the stack, one per symbol. *)
Definition pairs (syms : list SymRec) : list (Z * Z) :=
  (λ ir : nat * SymRec, (Z.of_nat ir.1, end_ (s_span ir.2))) <$> enumerate syms.

Lemma pairs_snoc syms r :
  pairs (syms ++ [r]) = pairs syms ++ [(Z.of_nat (length syms), end_ (s_span r))].
Proof. unfold pairs, enumerate. by rewrite enum_from_app, fmap_app. Qed.

Lemma innermost_snoc syms r p :
  start (s_span r) > p → innermost (syms ++ [r]) p = innermost syms p.
Proof.
  intros H. unfold innermost, enumerate. rewrite enum_from_app, filter_app. cbn [enum_from].
  rewrite filter_cons_False by (unfold covers; simpl; lia). cbn. by rewrite app_nil_r.
Qed.

Lemma innermost_top syms p :
  Forall (λ r, start (s_span r) ≤ p) syms →
  fst <$> head (reverse (filter (λ a : Z * Z, p < a.2) (pairs syms))) = innermost syms p.
Proof.
  intros Hs. unfold innermost, pairs. rewrite filter_fmap.
  rewrite (filter_iff_in _ (covers p)); cycle 1.
  { intros [i r] [_ Hi]%elem_of_enum_from. cbn in Hi. rewrite Forall_lookup in Hs.
    specialize (Hs _ _ Hi). unfold covers. simpl in *. tauto. }
  rewrite <- last_reverse, reverse_involutive, fmap_last. by destruct (last _).
Qed.

Lemma sorted_snoc {A} (R : A → A → Prop) l x :
  StronglySorted R (l ++ [x]) → StronglySorted R l ∧ ∀ y, y ∈ l → R y x.
Proof.
  intros H. split; [by eapply StronglySorted_app_1_l|].
  intros y Hy. eapply StronglySorted_app_1_elem_of; [exact H|done|by left].
Qed.

Definition ev_start (e : SymbolDecl + TokenDecl) : Z :=
  start (match e with inl s => sd_span s | inr t => td_span t end).

Record par_inv (p0 : Z) (st : PrepState) : Prop := mkParInv {
  pa_stack : stack_ok snd p0 (pairs (ps_symbols st)) (ps_open st);
  pa_syms : Forall (λ r, start (s_span r) ≤ p0) (ps_symbols st);
  pa_toks : Forall (λ t, t_parent t = innermost (ps_symbols st) (start (t_span t))) (ps_tokens st);
  pa_parents j r : ps_symbols st !! j = Some r →
    s_parent r = innermost (take j (ps_symbols st)) (start (s_span r));
}.

Lemma par_parent p0 st p :
  par_inv p0 st → p0 ≤ p →
  fst <$> head (pop snd p (ps_open st)) = innermost (ps_symbols st) p.
Proof.
  intros HI Hp. rewrite (pa_stack _ _ HI p Hp). apply innermost_top.
  eapply Forall_impl; [apply HI|]. simpl. lia.
Qed.

Lemma par_inv_token p0 st t :
  par_inv p0 st → p0 ≤ start (td_span t) → par_inv (start (td_span t)) (prep_step st (inr t)).
Proof.
  intros HI Hp. cbn [prep_step]. rewrite (par_parent p0 st _ HI Hp).
  destruct (intern_local _ _) as [term tl]. split; cbn [ps_symbols ps_open ps_tokens].
  - by eapply stack_keep, Hp; apply HI.
  - eapply Forall_impl; [apply HI|]. simpl. lia.
  - apply Forall_app. split; [apply HI|]. by repeat constructor.
  - apply HI.
Qed.

Lemma par_inv_symbol p0 st s :
  par_inv p0 st → p0 ≤ start (sd_span s) → Z.of_nat (length (ps_symbols st)) < 2 ^ 32 →
  Forall (λ t, start (t_span t) < start (sd_span s)) (ps_tokens st) →
  (∀ r, r ∈ ps_symbols st → start (sd_span s) < end_ (s_span r) → end_ (sd_span s) ≤ end_ (s_span r)) →
  par_inv (start (sd_span s)) (prep_step st (inl s)).
Proof.
  intros HI Hp Hl Ht Hn. cbn [prep_step]. rewrite (par_parent p0 st _ HI Hp).
  destruct (intern_local _ _) as [name tl1], (intern_opt _ tl1) as [kind tl2].
  destruct (intern_opt _ tl2) as [owner tl3]. split; cbn [ps_symbols ps_open ps_tokens].
  - rewrite pairs_snoc, as_u32_id by (unfold u32; lia). cbn [s_span].
    apply (stack_push snd p0 _ _ _ (_, _)); [apply HI|done|].
    intros a Ha. apply list_elem_of_fmap in Ha as ([i r] & -> & [_ Hi]%elem_of_enum_from). simpl in *.
    apply Hn. by eapply list_elem_of_lookup_2.
  - apply Forall_app. split; [|by repeat constructor]. eapply Forall_impl; [apply HI|]. simpl. lia.
  - pose proof (pa_toks _ _ HI) as Htk. rewrite Forall_forall in Htk, Ht. apply Forall_forall.
    intros t Hin. rewrite innermost_snoc; [by apply Htk|]. specialize (Ht t Hin). simpl. lia.
  - intros j r [Hj|[Hj [Hz <-]%list_lookup_singleton_Some]]%lookup_app_Some.
    + rewrite take_app_le by (apply lookup_lt_Some in Hj; lia). by apply HI.
    + cbn [s_parent s_span]. assert (j = length (ps_symbols st)) as -> by lia.
      by rewrite take_app_length.
Qed.

Definition last_start (evs : list (SymbolDecl + TokenDecl)) : Z := default 0 (ev_start <$> last evs).

Lemma visits_start x y : visits sd_span td_span x y → ev_start x ≤ ev_start y.
Proof. destruct x, y; unfold ev_start; cbn; [apply sym_le_start|lia..]. Qed.

Lemma sym_decl evs st r :
  prep_inv evs st → r ∈ ps_symbols st → ∃ s, inl s ∈ evs ∧ s_span r = sd_span s.
Proof.
  intros HI [i Hi]%list_elem_of_lookup.
  destruct (Forall2_lookup_r _ _ _ _ _ (pi_syms _ _ HI) Hi) as (s & Hs%list_elem_of_lookup_2 & Hr).
  apply list_elem_of_omap in Hs as ([x|x] & Hx & [= ->]). exists s. split; [done|]. apply Hr.
Qed.
Lemma tok_decl evs st r :
  prep_inv evs st → r ∈ ps_tokens st → ∃ t, inr t ∈ evs ∧ t_span r = td_span t.
Proof.
  intros HI [i Hi]%list_elem_of_lookup.
  destruct (Forall2_lookup_r _ _ _ _ _ (pi_toks _ _ HI) Hi) as (s & Hs%list_elem_of_lookup_2 & Hr).
  apply list_elem_of_omap in Hs as ([x|x] & Hx & [= ->]). exists s. split; [done|]. apply Hr.
Qed.

Lemma par_inv_run evs :
  Z.of_nat (length (omap left_of evs)) ≤ 2 ^ 32 → Z.of_nat (length evs) ≤ 2 ^ 33 →
  Forall (λ e, 0 ≤ ev_start e) evs →
  StronglySorted (visits sd_span td_span) evs → StronglySorted nested evs →
  par_inv (last_start evs) (foldl prep_step PrepState_new evs).
Proof.
  induction evs as [|e evs IH] using rev_ind.
  { intros _ _ _ _ _. split; [apply stack_nil|constructor|constructor|done]. }
  rewrite omap_app, !length_app, foldl_snoc. intros Hs Hn H0 Hv Hnest.
  apply sorted_snoc in Hv as [Hv Hve], Hnest as [Hnest Hne].
  apply Forall_app in H0 as [H0 He0]. rewrite Forall_singleton in He0.
  assert (par_inv (last_start evs) (foldl prep_step PrepState_new evs)) as HP by (apply IH; [lia|lia|done..]).
  assert (prep_inv evs (foldl prep_step PrepState_new evs)) as HI by (apply prep_inv_run; lia).
  assert (last_start evs ≤ ev_start e) as Hle.
  { unfold last_start. destruct (last evs) as [x|] eqn:E; [|done]. simpl.
    apply visits_start, Hve. apply last_Some in E as [l ->]. set_solver. }
  replace (last_start (evs ++ [e])) with (ev_start e) by (unfold last_start; by rewrite last_snoc).
  pose proof (Forall2_length _ _ _ (pi_syms _ _ HI)) as Hlen.
  destruct e as [s|t]; cbn in Hs, Hn; [|by apply (par_inv_token (last_start evs))].
  apply (par_inv_symbol (last_start evs)); [done|done|lia|..].
  - apply Forall_forall. intros r Hr. destruct (tok_decl _ _ _ HI Hr) as (t & Ht & ->).
    apply (Hve _ Ht).
  - intros r Hr Hlt. destruct (sym_decl _ _ _ HI Hr) as (a & Ha & Hsp). rewrite Hsp in *.
    destruct (Hne _ Ha) as [H|H]; cbn in H; lia.
Qed.

Lemma innermost_Some syms p i :
  innermost syms p = Some (Z.of_nat i) →
  ∃ r, syms !! i = Some r ∧ start (s_span r) ≤ p < end_ (s_span r).
Proof.
  unfold innermost. intros ([i' r] & Hl & Hi%Nat2Z.inj)%fmap_Some. simpl in Hi. subst i'.
  apply last_Some in Hl as [l Hl]. exists r.
  assert ((i, r) ∈ filter (covers p) (enumerate syms)) as Hin by (rewrite Hl; set_solver).
  apply list_elem_of_filter in Hin as [Hc [_ Hk]%elem_of_enum_from]. cbn in Hk.
  rewrite Nat.sub_0_r in Hk. done.
Qed.

Lemma build_parents ex :
  small_ex ex → spans_ok ex →
  par_inv (last_start (events ex)) (foldl prep_step PrepState_new (events ex)).
Proof.
  intros (Hs & Ht & Hss & Hts) Hok. apply par_inv_run.
  - rewrite events_symbols. unfold sorted_symbols. by rewrite (Permutation_length (sort_by_perm _ _)).
  - rewrite events_length. lia.
  - rewrite Forall_forall in Hss. rewrite Forall_forall in Hts. apply Forall_forall. intros [s|t] Hin.
    + apply events_sym in Hin. by destruct (Hss s Hin) as [[? _] _].
    + apply events_tok in Hin. by destruct (Hts t Hin) as [[? _] _].
  - apply events_sorted.
  - eapply sorted_impl_in; [apply events_sorted|]. by apply spans_ok_nested.
Qed.

(** C39: Every symbol and token hangs under the innermost symbol around it: for
    an extraction that passes validation, the parent the walk records is the
    last symbol, in span order, whose span covers the start of the item, and
    the item lies wholly inside it; an item under no symbol has no parent. *)
Theorem prep_parents ex :
  small_ex ex → spans_ok ex →
  let s := vp_stream (V2Prep_build ex) in
  (∀ t, t ∈ st_tokens s → t_parent t = innermost (st_symbols s) (start (t_span t)) ∧
     ∀ i r, t_parent t = Some (Z.of_nat i) → st_symbols s !! i = Some r →
       end_ (t_span t) ≤ end_ (s_span r)) ∧
  (∀ j q, st_symbols s !! j = Some q →
     s_parent q = innermost (take j (st_symbols s)) (start (s_span q)) ∧
     ∀ i r, s_parent q = Some (Z.of_nat i) → st_symbols s !! i = Some r →
       end_ (s_span q) ≤ end_ (s_span r)).
Proof.
  intros Hsm Hok s. pose proof (build_parents ex Hsm Hok) as HP. pose proof (build_inv ex Hsm) as HI.
  unfold s, V2Prep_build. cbn [vp_stream st_tokens st_symbols].
  set (st := foldl prep_step PrepState_new (events ex)) in *.
  pose proof (spans_ok_nested ex Hok) as Hn. split.
  - intros t Ht. pose proof (pa_toks _ _ HP) as Hpt. rewrite Forall_forall in Hpt.
    rewrite (Hpt t Ht). split; [done|]. intros i r Hi Hr.
    destruct (innermost_Some _ _ _ Hi) as (r' & Hr' & Hc). simplify_eq.
    destruct (tok_decl _ _ _ HI Ht) as (td & Htd & Hst).
    destruct (sym_decl _ _ r HI) as (a & Ha & Hsa); [by eapply list_elem_of_lookup_2|].
    rewrite Hst, Hsa in *. destruct (Hn _ _ Ha Htd) as [H|H]; cbn in *; lia.
  - intros j q Hq. rewrite (pa_parents _ _ HP j q Hq). split; [done|]. intros i r Hi Hr.
    destruct (innermost_Some _ _ _ Hi) as (r' & [Hr' Hij]%lookup_take_Some & Hc). simplify_eq.
    pose proof (pi_syms _ _ HI) as Hsym. rewrite events_symbols in Hsym.
    destruct (Forall2_lookup_r _ _ _ _ _ Hsym Hq) as (b & Hb & (_ & _ & _ & _ & Hqb)).
    destruct (Forall2_lookup_r _ _ _ _ _ Hsym Hr) as (a & Ha & (_ & _ & _ & _ & Hra)).
    pose proof (sorted_symbols_sorted ex) as Hsort.
    pose proof (sorted_lookup _ _ i j a b Hsort Ha Hb Hij) as Hab.
    rewrite Hqb, Hra in *. destruct (Hn (inl a) (inl b)) as [H|H]; cbn in *; [| |done|lia|lia].
    + apply events_sym. apply list_elem_of_lookup_2 in Ha. by apply sorted_symbols_elem.
    + apply events_sym. apply list_elem_of_lookup_2 in Hb. by apply sorted_symbols_elem.
Qed.

(** ** Catalog counts *)

(** How many of [l] have key [k]. *)
Definition tally {A K} `{EqDecision K} (key : A → K) (l : list A) (k : K) : Z :=
  Z.of_nat (length (filter (λ a, key a = k) l)).

Section counts.
Context {A K V} `{Countable K} (key : A → K) (val : A → V).
Hypothesis val_key : ∀ a b, key a = key b → val a = val b.

Definition count_all (l : list A) : gmap K (V * Z) := foldl (λ m a, count (key a) (val a) m) ∅ l.

Lemma tally_snoc l a k : tally key (l ++ [a]) k = tally key l k + (if decide (key a = k) then 1 else 0).
Proof.
  unfold tally. rewrite filter_app, length_app, filter_cons. case_decide; cbn; lia.
Qed.

Lemma tally_pos l k : 0 < tally key l k ↔ ∃ a, a ∈ l ∧ key a = k.
Proof.
  unfold tally. split.
  - destruct (filter _ l) as [|a l'] eqn:E; simpl; [lia|]. intros _. exists a.
    assert (a ∈ filter (λ a, key a = k) l) as [? ?]%list_elem_of_filter by (rewrite E; by left). done.
  - intros (a & Ha & Hk). assert (a ∈ filter (λ a, key a = k) l) as Hin by by apply list_elem_of_filter.
    destruct (filter _ l); [by apply not_elem_of_nil in Hin|simpl; lia].
Qed.

Lemma count_lookup k v (m : gmap K (V * Z)) k' :
  count k v m !! k' =
  if decide (k = k') then Some (default v (fst <$> m !! k), default 0 (snd <$> m !! k) + 1) else m !! k'.
Proof.
  unfold count. destruct (m !! k) as [[w n]|] eqn:E; simpl; case_decide as Hk;
    try (subst; by rewrite lookup_insert_eq); by rewrite lookup_insert_ne.
Qed.

Lemma count_all_lookup l k v n :
  count_all l !! k = Some (v, n) ↔ 0 < n ∧ n = tally key l k ∧ ∃ a, a ∈ l ∧ key a = k ∧ val a = v.
Proof.
  revert v n. induction l as [|a l IH] using rev_ind; intros v n.
  { unfold count_all, tally. cbn. rewrite lookup_empty. split; [done|].
    by intros (_ & _ & a & Ha%not_elem_of_nil & _). }
  unfold count_all. rewrite foldl_snoc. fold (count_all l). rewrite tally_snoc, count_lookup.
  case_decide as Hk; [subst k|rewrite IH, Z.add_0_r; set_solver].
  assert (snd <$> count_all l !! key a = Some (tally key l (key a)) ∨
    (count_all l !! key a = None ∧ tally key l (key a) = 0)) as Hm.
  { destruct (count_all l !! key a) as [[w m]|] eqn:E.
    - left. by destruct (proj1 (IH w m) eq_refl) as (_ & -> & _).
    - right. split; [done|]. destruct (decide (0 < tally key l (key a))) as [Hp|];
        [|unfold tally in *; lia]. pose proof Hp as (b & Hb & Hkb)%tally_pos.
      enough (None = Some (val b, tally key l (key a))) by done. apply IH. eauto 6. }
  assert (default (val a) (fst <$> count_all l !! key a) = val a) as ->.
  { destruct (count_all l !! key a) as [[w m]|] eqn:E; [|done].
    destruct (proj1 (IH w m) eq_refl) as (_ & _ & b & _ & Hb & <-). by apply val_key. }
  assert (default 0 (snd <$> count_all l !! key a) = tally key l (key a)) as ->.
  { destruct Hm as [-> | [-> ->]]; done. }
  split.
  - intros [= <- <-]. split_and!; [unfold tally; lia|done|]. exists a. set_solver.
  - intros (_ & -> & c & _ & Hc & <-). do 2 f_equal. by apply val_key.
Qed.
End counts.

Lemma prep_counts evs :
  let st := foldl prep_step PrepState_new evs in
  ps_sym_counts st =
    count_all (λ s, (SymbolKind_as_str (sd_kind s), sd_lang_kind s)) sd_kind (omap left_of evs) ∧
  ps_class_counts st = count_all (λ t, TokenClass_as_str (td_class t)) td_class (omap right_of evs).
Proof.
  induction evs as [|e evs [IHs IHc]] using rev_ind; [done|]. cbv zeta in *.
  rewrite foldl_snoc, !omap_app. unfold count_all. rewrite !foldl_app.
  fold (count_all (λ s, (SymbolKind_as_str (sd_kind s), sd_lang_kind s)) sd_kind (omap left_of evs)).
  fold (count_all (λ t, TokenClass_as_str (td_class t)) td_class (omap right_of evs)).
  rewrite <- IHs, <- IHc. destruct e as [s|t]; cbn [prep_step].
  - destruct (intern_local _ _) as [? tl1], (intern_opt _ tl1) as [? tl2], (intern_opt _ tl2). done.
  - destruct (intern_local _ _). done.
Qed.

Lemma tally_perm {A K} `{EqDecision K} (key : A → K) l l' k : l ≡ₚ l' → tally key l k = tally key l' k.
Proof. intros Hp. unfold tally. by rewrite Hp. Qed.

(** Counting by name is counting by kind. *)
Lemma tally_inj {A K L} `{EqDecision K, EqDecision L} (key : A → K) (f : K → L) l k :
  (∀ x y, f x = f y → x = y) → tally (λ a, f (key a)) l (f k) = tally key l k.
Proof.
  intros Hf. unfold tally. do 2 f_equal. apply filter_iff_in. intros a _. split; [apply Hf|by intros ->].
Qed.

Definition kind_key (kl : SymbolKind * option str) : str * option str :=
  (SymbolKind_as_str kl.1, kl.2).
Lemma kind_key_inj x y : kind_key x = kind_key y → x = y.
Proof. destruct x, y. intros [= ?%SymbolKind_as_str_inj ->]. by subst. Qed.

Lemma tally_symbols ex k lk :
  tally (λ s, (SymbolKind_as_str (sd_kind s), sd_lang_kind s)) (sorted_symbols ex)
    (SymbolKind_as_str k, lk) =
  tally (λ s, (sd_kind s, sd_lang_kind s)) (ex_symbols ex) (k, lk).
Proof.
  unfold sorted_symbols. rewrite (tally_perm _ _ _ _ (sort_by_perm _ (ex_symbols ex))).
  apply (tally_inj (λ s, (sd_kind s, sd_lang_kind s)) kind_key _ (k, lk)), kind_key_inj.
Qed.
Lemma tally_tokens ex c :
  tally (λ t, TokenClass_as_str (td_class t)) (sorted_tokens ex) (TokenClass_as_str c) =
  tally td_class (ex_tokens ex) c.
Proof.
  unfold sorted_tokens. rewrite (tally_perm _ _ _ _ (sort_by_perm _ (ex_tokens ex))).
  apply (tally_inj td_class), TokenClass_as_str_inj.
Qed.
Lemma sorted_tokens_elem ex t : t ∈ sorted_tokens ex ↔ t ∈ ex_tokens ex.
Proof. unfold sorted_tokens. by rewrite sort_by_perm. Qed.

(** The catalog deltas are exact: for every symbol kind (with its language
    kind) and every token class the file has, and no other, there is one
    sample node, with the number of such symbols or tokens in the file. *)
Theorem prep_tally ex node n :
  (node, n) ∈ vp_tally_nodes (V2Prep_build ex) ↔
  0 < n ∧
  ((∃ s, s ∈ ex_symbols ex ∧
      node = with_symbol_kind (blank 0 None Symbol []) (sd_kind s) (sd_lang_kind s) ∧
      n = tally (λ s, (sd_kind s, sd_lang_kind s)) (ex_symbols ex) (sd_kind s, sd_lang_kind s)) ∨
   (∃ t, t ∈ ex_tokens ex ∧
      node = with_token_class (blank 0 None Token []) (td_class t) ∧
      n = tally td_class (ex_tokens ex) (td_class t))).
Proof.
  unfold V2Prep_build. cbn [vp_tally_nodes]. destruct (prep_counts (events ex)) as [-> ->].
  rewrite events_symbols, events_tokens, elem_of_app, !list_elem_of_fmap.
  assert (∀ a b : SymbolDecl, (SymbolKind_as_str (sd_kind a), sd_lang_kind a) =
    (SymbolKind_as_str (sd_kind b), sd_lang_kind b) → sd_kind a = sd_kind b) as Hk.
  { by intros a b [= ?%SymbolKind_as_str_inj _]. }
  assert (∀ a b, TokenClass_as_str (td_class a) = TokenClass_as_str (td_class b) →
    td_class a = td_class b) as Hc by (intros a b; apply TokenClass_as_str_inj).
  split.
  - intros [([[? lk] [k m]] & [= -> ->] & Hin%gmap_rows_elem)|([? [c m]] & [= -> ->] & Hin%gmap_rows_elem)].
    + apply (count_all_lookup _ _ Hk) in Hin as (Hm & -> & s & Hs%sorted_symbols_elem & [= <- <-] & <-).
      split; [done|]. left. exists s. by rewrite tally_symbols.
    + apply (count_all_lookup _ _ Hc) in Hin as (Hm & -> & t & Ht%sorted_tokens_elem & <- & <-).
      split; [done|]. right. exists t. by rewrite tally_tokens.
  - intros (Hn & [(s & Hs & -> & ->)|(t & Ht & -> & ->)]); [left|right].
    + exists ((SymbolKind_as_str (sd_kind s), sd_lang_kind s), (sd_kind s,
        tally (λ s, (sd_kind s, sd_lang_kind s)) (ex_symbols ex) (sd_kind s, sd_lang_kind s))).
      split; [done|]. apply gmap_rows_elem, (count_all_lookup _ _ Hk).
      rewrite tally_symbols. split_and!; [done..|]. exists s. by rewrite sorted_symbols_elem.
    + exists (TokenClass_as_str (td_class t), (td_class t, tally td_class (ex_tokens ex) (td_class t))).
      split; [done|]. apply gmap_rows_elem, (count_all_lookup _ _ Hc).
      rewrite tally_tokens. split_and!; [done..|]. exists t. by rewrite sorted_tokens_elem.
Qed.

(** ** An extraction to evaluate *)

Definition line_span (a b : Z) : Span := mkSpan a b 1 (a + 1) 1 (b + 1).
Definition demo : Extraction :=
  mkExtraction
    [mkSymbolDecl (lit "get") SKMethod None (line_span 12 30) (Some (lit "Rect"));
     mkSymbolDecl (lit "Rect") SKType (Some (lit "struct")) (line_span 0 40) None]
    [mkTokenDecl (lit "struct") Identifier (line_span 0 6);
     mkTokenDecl (lit "get") Identifier (line_span 12 15);
     mkTokenDecl (lit "Rect") Identifier (line_span 7 11);
     mkTokenDecl (lit ";") Punctuation (line_span 41 42)]
    false.

Lemma demo_small : small_ex demo.
Proof. apply (bool_decide_unpack _). by vm_compute. Qed.
Lemma demo_spans_ok : spans_ok demo.
Proof. destruct (validate_spans_cases demo) as [[? _]|[_ [m Hm]]]; [done|by vm_compute in Hm]. Qed.
Lemma prep_parents_witness :
  t_parent <$> st_tokens (vp_stream (V2Prep_build demo)) = [Some 0; Some 0; Some 1; None] ∧
  ∀ t, t ∈ st_tokens (vp_stream (V2Prep_build demo)) →
    t_parent t = innermost (st_symbols (vp_stream (V2Prep_build demo))) (start (t_span t)).
Proof.
  destruct (prep_parents demo) as [Ht _]; [apply demo_small|apply demo_spans_ok|].
  split; [by vm_compute|]. intros t Hin. apply Ht. exact Hin.
Defined.


(** ** From source text to the stored stream

    The pipeline for a language without an extractor of its own: the fallback
    extraction (tokens only), its validation, the preparation of the stream
    and the codec, composed. *)

(** Sorting what is sorted changes nothing. *)
Lemma sort_by_id {A} (le : A → A → bool) l :
  StronglySorted (λ x y, le x y = true) l → sort_by le l = l.
Proof.
  induction 1 as [|x l Hl IH Hx]; [done|]. cbn. unfold sort_by in IH. rewrite IH.
  destruct Hx as [|y l Hy _]; [done|]. cbn. by rewrite Hy.
Qed.

Lemma Lexed_length out s : Lexed out s → (length out ≤ str_len s)%nat.
Proof.
  induction 1 as [|out s c _ IH _|out s c text class _ IH _]; [done|..]; rewrite str_len_app.
  - lia.
  - rewrite length_app, str_len_cons. pose proof (len_utf8_pos c). cbn [length]. lia.
Qed.

(** The spans of a reading fit their fields. *)
Lemma Lexed_span_ok out s :
  Lexed out s → Z.of_nat (str_len s) < 2 ^ 32 - 1 → Forall (λ t, span_ok (td_span t)) out.
Proof.
  induction 1 as [|out s c _ IH _|out s c text class _ IH _]; intros Hl; [constructor|..].
  - apply IH. rewrite str_len_app in Hl. lia.
  - apply Forall_app. split; [apply IH; rewrite str_len_app in Hl; lia|].
    apply Forall_singleton. pose proof (line_col_bound s). pose proof (line_col_bound (s ++ c :: text)).
    rewrite str_len_app in *. unfold span_ok, token_at, u32. cbn. rewrite str_len_app. lia.
Qed.

Lemma tokens_in_order out :
  Forall (λ t, start (td_span t) < end_ (td_span t)) out → StronglySorted before out →
  StronglySorted (λ a b, tok_le (td_span a) (td_span b) = true) out.
Proof.
  intros Hne Hs. rewrite Forall_forall in Hne. eapply sorted_impl_in; [exact Hs|].
  intros a b Ha Hb Hab. specialize (Hne a Ha). unfold before in Hab. unfold tok_le. lia.
Qed.

(** Indexing a source with the fallback extractor and reading the stored
    stream back gives the lexer's reading of the source: for every source
    below 4 GiB the extraction succeeds, passes validation, is encoded in a
    stream the decoder accepts, and the decoded tokens, with their terms
    looked up, are the tokens of a reading of the source, in order. *)
Theorem fallback_index is_alphabetic is_numeric src :
  (∀ c, is_ascii_digit c = true → is_numeric c = true) →
  valid_str src → Z.of_nat (str_len src) < 2 ^ 32 - 1 →
  ∃ ex s, fallback_extract is_alphabetic is_numeric src = Ok ex ∧
    validate_spans ex = Ok () ∧
    decode (encode (vp_stream (V2Prep_build ex))) = Ok s ∧
    st_symbols s = [] ∧
    Forall2 (tok_rec (vp_terms (V2Prep_build ex))) (ex_tokens ex) (st_tokens s) ∧
    Lexed (ex_tokens ex) src.
Proof.
  intros Hd Hv Hl.
  destruct (tokenize_with_Lexed is_alphabetic is_numeric Hd src DEFAULT Hv Hl) as (out & Ho & HL).
  pose proof (Lexed_spans out src HL) as (_ & Hsort & Hsl). specialize (Hsl []).
  rewrite app_nil_r in Hsl. set (ex := mkExtraction [] out false).
  assert (small_ex ex) as Hsm.
  { pose proof (Lexed_length _ _ HL). split_and!; cbn; [lia|lia|constructor|by eapply Lexed_span_ok]. }
  assert (spans_ok ex) as Hok.
  { split_and!; cbn; [constructor| |intros ?? ?%not_elem_of_nil; done..].
    eapply Forall_impl; [exact Hsl|]. intros t [? _]. lia. }
  destruct (build_decoded ex Hsm) as (s & Hs & _ & Hsym & Htok & _).
  exists ex, s. split_and!; try done.
  - unfold fallback_extract, tokenize. by rewrite Ho.
  - destruct (validate_spans_cases ex) as [[_ ?]|[[] _]]; done.
  - by apply Forall2_nil_inv_l in Hsym.
  - unfold sorted_tokens in Htok. rewrite sort_by_id in Htok; [done|].
    apply tokens_in_order; [|done]. eapply Forall_impl; [exact Hsl|]. by intros t [? _].
Qed.
