(* ===== verification/Db.v ===== *)
(** * The tables of a store

    One record of all tables of a database ([graph-store/src/v2.rs],
    [graph-store/src/common.rs]). A read transaction sees a record; a write
    transaction is a function from records to records, and an error leaves
    the old one in place. Node rows are JSON, written and read by serde: the
    interface [Serde], whose law is the round trip. The law is for all nodes;
    reading refuses a row that names an unknown encoding, and no row that the
    store writes does. *)
From S2P Require Import Prelude Text Schema DictBlock Table DictRev.

(** ** Node rows *)

Class Serde := {
  enc : Node → list Z;
  dec : list Z → result Node;
  dec_enc n : dec (enc n) = Ok n;
}.

(** The interface can be met: a row of one cell holding the node's code. *)
#[global] Instance NodeKind_countable : Countable NodeKind.
Proof.
  refine (inj_countable' (λ k, match k with Org => 0 | Repo => 1 | File => 2 | Symbol => 3 | Token => 4 end)
    (λ z, if z =? 0 then Org else if z =? 1 then Repo else if z =? 2 then File
          else if z =? 3 then Symbol else Token) _).
  by intros [].
Defined.
#[global] Instance SymbolKind_countable : Countable SymbolKind.
Proof.
  refine (inj_countable SymbolKind_as_str
    (λ s, match SymbolKind_from_str s with Ok k => Some k | _ => None end) _).
  intros k. by rewrite SymbolKind_roundtrip.
Defined.
#[global] Instance TokenClass_countable : Countable TokenClass.
Proof.
  refine (inj_countable TokenClass_as_str
    (λ s, match TokenClass_from_str s with Ok k => Some k | _ => None end) _).
  intros k. by rewrite TokenClass_roundtrip.
Defined.
#[global] Instance Span_countable : Countable Span.
Proof.
  refine (inj_countable' (λ s, (start s, end_ s, start_line s, start_col s, end_line s, end_col s))
    (λ '(a, b, c, d, e, f), mkSpan a b c d e f) _).
  by intros [].
Defined.
#[global] Instance Node_eq_dec : EqDecision Node.
Proof. solve_decision. Defined.
#[global] Instance Node_countable : Countable Node.
Proof.
  refine (inj_countable' (λ n, ((n_id n, n_parent n, n_kind n, n_name n, n_language n, n_symbol_kind n),
      (n_lang_kind n, n_token_class n, n_has_errors n, n_origin n, n_fingerprint n, n_encoding n, n_lossy n,
       n_span n)))
    (λ '((a, b, c, d, e, f), (g, h, i, j, k, l, m, n)), mkNode a b c d e f g h i j k l m n) _).
  by intros [].
Defined.
Definition coded_row (b : list Z) : result Node :=
  match b with
  | [Z.pos p] => match decode p with Some n => Ok n | None => Err (Corrupt (lit "row")) end
  | _ => Err (Corrupt (lit "row"))
  end.
Definition coded_serde : Serde.
Proof.
  refine {| enc n := [Z.pos (encode n)]; dec := coded_row |}.
  intros n. unfold coded_row. by rewrite decode_encode.
Defined.

(** ** The tables *)
Section db.
Context {tbl : ∀ K `{Countable K}, Type → Type}.

(** A multimap table is the ordered set of its pairs. *)
Abbreviation multimap K V := (tbl (K * V) _ _ unit).

Record Db : Type := mkDb {
  db_meta : tbl str _ _ Z;
  db_nodes : tbl Z _ _ (list Z);
  db_names : tbl str _ _ Z;
  db_children : multimap Z Z;
  db_dict : tbl str _ _ Z;
  db_rev : rev_table (tbl:=tbl);
  db_streams : tbl Z _ _ (list Z);
  db_post : tbl (Z * Z) _ _ (list Z);
  db_sym_idx : multimap str Z;
  db_sym_fold : multimap str Z;
  db_file_keys : tbl Z _ _ (list Z);
  db_cat : tbl str _ _ Z;
  db_refs : tbl Z _ _ Z;
  db_content_files : multimap Z Z;
  db_open_batch : tbl str _ _ str;
  db_raft_sm : tbl str _ _ (list Z);
}.

(** Writing to one table. *)
Definition upd_meta f d := mkDb (f (db_meta d)) (db_nodes d) (db_names d) (db_children d) (db_dict d)
  (db_rev d) (db_streams d) (db_post d) (db_sym_idx d) (db_sym_fold d) (db_file_keys d) (db_cat d)
  (db_refs d) (db_content_files d) (db_open_batch d) (db_raft_sm d).
Definition upd_nodes f d := mkDb (db_meta d) (f (db_nodes d)) (db_names d) (db_children d) (db_dict d)
  (db_rev d) (db_streams d) (db_post d) (db_sym_idx d) (db_sym_fold d) (db_file_keys d) (db_cat d)
  (db_refs d) (db_content_files d) (db_open_batch d) (db_raft_sm d).
Definition upd_names f d := mkDb (db_meta d) (db_nodes d) (f (db_names d)) (db_children d) (db_dict d)
  (db_rev d) (db_streams d) (db_post d) (db_sym_idx d) (db_sym_fold d) (db_file_keys d) (db_cat d)
  (db_refs d) (db_content_files d) (db_open_batch d) (db_raft_sm d).
Definition upd_children f d := mkDb (db_meta d) (db_nodes d) (db_names d) (f (db_children d)) (db_dict d)
  (db_rev d) (db_streams d) (db_post d) (db_sym_idx d) (db_sym_fold d) (db_file_keys d) (db_cat d)
  (db_refs d) (db_content_files d) (db_open_batch d) (db_raft_sm d).
Definition upd_dict f d := mkDb (db_meta d) (db_nodes d) (db_names d) (db_children d) (f (db_dict d))
  (db_rev d) (db_streams d) (db_post d) (db_sym_idx d) (db_sym_fold d) (db_file_keys d) (db_cat d)
  (db_refs d) (db_content_files d) (db_open_batch d) (db_raft_sm d).
Definition upd_rev f d := mkDb (db_meta d) (db_nodes d) (db_names d) (db_children d) (db_dict d)
  (f (db_rev d)) (db_streams d) (db_post d) (db_sym_idx d) (db_sym_fold d) (db_file_keys d) (db_cat d)
  (db_refs d) (db_content_files d) (db_open_batch d) (db_raft_sm d).
Definition upd_streams f d := mkDb (db_meta d) (db_nodes d) (db_names d) (db_children d) (db_dict d)
  (db_rev d) (f (db_streams d)) (db_post d) (db_sym_idx d) (db_sym_fold d) (db_file_keys d) (db_cat d)
  (db_refs d) (db_content_files d) (db_open_batch d) (db_raft_sm d).
Definition upd_post f d := mkDb (db_meta d) (db_nodes d) (db_names d) (db_children d) (db_dict d)
  (db_rev d) (db_streams d) (f (db_post d)) (db_sym_idx d) (db_sym_fold d) (db_file_keys d) (db_cat d)
  (db_refs d) (db_content_files d) (db_open_batch d) (db_raft_sm d).
Definition upd_sym_idx f d := mkDb (db_meta d) (db_nodes d) (db_names d) (db_children d) (db_dict d)
  (db_rev d) (db_streams d) (db_post d) (f (db_sym_idx d)) (db_sym_fold d) (db_file_keys d) (db_cat d)
  (db_refs d) (db_content_files d) (db_open_batch d) (db_raft_sm d).
Definition upd_sym_fold f d := mkDb (db_meta d) (db_nodes d) (db_names d) (db_children d) (db_dict d)
  (db_rev d) (db_streams d) (db_post d) (db_sym_idx d) (f (db_sym_fold d)) (db_file_keys d) (db_cat d)
  (db_refs d) (db_content_files d) (db_open_batch d) (db_raft_sm d).
Definition upd_file_keys f d := mkDb (db_meta d) (db_nodes d) (db_names d) (db_children d) (db_dict d)
  (db_rev d) (db_streams d) (db_post d) (db_sym_idx d) (db_sym_fold d) (f (db_file_keys d)) (db_cat d)
  (db_refs d) (db_content_files d) (db_open_batch d) (db_raft_sm d).
Definition upd_cat f d := mkDb (db_meta d) (db_nodes d) (db_names d) (db_children d) (db_dict d)
  (db_rev d) (db_streams d) (db_post d) (db_sym_idx d) (db_sym_fold d) (db_file_keys d) (f (db_cat d))
  (db_refs d) (db_content_files d) (db_open_batch d) (db_raft_sm d).
Definition upd_refs f d := mkDb (db_meta d) (db_nodes d) (db_names d) (db_children d) (db_dict d)
  (db_rev d) (db_streams d) (db_post d) (db_sym_idx d) (db_sym_fold d) (db_file_keys d) (db_cat d)
  (f (db_refs d)) (db_content_files d) (db_open_batch d) (db_raft_sm d).
Definition upd_content_files f d := mkDb (db_meta d) (db_nodes d) (db_names d) (db_children d) (db_dict d)
  (db_rev d) (db_streams d) (db_post d) (db_sym_idx d) (db_sym_fold d) (db_file_keys d) (db_cat d)
  (db_refs d) (f (db_content_files d)) (db_open_batch d) (db_raft_sm d).
Definition upd_open_batch f d := mkDb (db_meta d) (db_nodes d) (db_names d) (db_children d) (db_dict d)
  (db_rev d) (db_streams d) (db_post d) (db_sym_idx d) (db_sym_fold d) (db_file_keys d) (db_cat d)
  (db_refs d) (db_content_files d) (f (db_open_batch d)) (db_raft_sm d).
Definition upd_raft_sm f d := mkDb (db_meta d) (db_nodes d) (db_names d) (db_children d) (db_dict d)
  (db_rev d) (db_streams d) (db_post d) (db_sym_idx d) (db_sym_fold d) (db_file_keys d) (db_cat d)
  (db_refs d) (db_content_files d) (db_open_batch d) (f (db_raft_sm d)).
End db.
Arguments Db : clear implicits.

(** ** Multimaps and keys *)
Section keys.
Context `{Redb tbl}.

(** [t.get(k)]: the values of [k], in order. *)
Definition multimap_get {K V} `{Countable K, Countable V, KeyOrder K, KeyOrder V}
    (t : tbl (K * V) _ _ unit) (k : K) : list V :=
  (λ kv : K * V * unit, kv.1.2) <$> tbl_range (λ kv, bool_decide (kv.1 = k)) t.

Definition db_empty : Db tbl :=
  mkDb tbl_empty tbl_empty tbl_empty tbl_empty tbl_empty tbl_empty tbl_empty tbl_empty tbl_empty
    tbl_empty tbl_empty tbl_empty tbl_empty tbl_empty tbl_empty tbl_empty.
End keys.

(** [format!("{kind:?}")]. *)
Definition NodeKind_debug (k : NodeKind) : str :=
  match k with
  | Org => lit "Org"
  | Repo => lit "Repo"
  | File => lit "File"
  | Symbol => lit "Symbol"
  | Token => lit "Token"
  end.

Definition name_key (parent : option Z) (kind : NodeKind) (name : str) : str :=
  show (default 0 parent) ++ [0] ++ NodeKind_debug kind ++ [0] ++ name.

Definition file_key_row (n : Node) : result (list Z) :=
  parent ← ok_or (n_parent n) (Corrupt (lit "file without repo"));
  Ok (encode_file_key (mkFileKey parent (n_language n) (n_name n))).
