(* ===== verification/Catalog.v ===== *)
(** * Catalog bookkeeping

    [Scope], [Tally] and [kind_label] ([graph-store/src/common.rs]): the
    counters of the catalog table, collected during a write and applied at
    its end. Counters are far below [i64::MAX]: they count nodes. *)
From S2P Require Import Prelude Text Schema Table DictRev.

Record Scope : Type := mkScope {
  sc_org : str;
  sc_repo : str;
  sc_lang : str;
  sc_encoding : option str;
  sc_lossy : bool;
}.

Definition kind_label (n : Node) : str :=
  let generic := SymbolKind_as_str (default SKOther (n_symbol_kind n)) in
  match n_lang_kind n with
  | Some k => if decide (k = generic) then generic else generic ++ lit "/" ++ k
  | None => generic
  end.

(** [format!("x\0{}\0{}..", ..)]. *)
Definition cat_key (tag : string) (fields : list str) : str :=
  lit tag ++ (fields ≫= λ f, 0 :: f).

Abbreviation Tally := (gmap str Z).
Definition Tally_add (key : str) (d : Z) (t : Tally) : Tally := <[key := default 0 (t !! key) + d]> t.

Definition Tally_encoding (s : Scope) (d : Z) (t : Tally) : Tally :=
  let t := match sc_encoding s with
           | Some e => Tally_add (cat_key "e" [sc_org s; sc_repo s; e]) d t
           | None => t
           end in
  if sc_lossy s then Tally_add (cat_key "l" [sc_org s; sc_repo s]) d t else t.

Definition Tally_file (s : Scope) (d : Z) (t : Tally) : Tally :=
  Tally_encoding s d (Tally_add (cat_key "f" [sc_org s; sc_repo s; sc_lang s]) d t).

Definition Tally_node (s : Scope) (n : Node) (d : Z) (t : Tally) : Tally :=
  match n_kind n with
  | Symbol =>
      let t := Tally_add (cat_key "s" [sc_org s; sc_repo s; sc_lang s]) d t in
      Tally_add (cat_key "k" [sc_org s; sc_repo s; sc_lang s; kind_label n]) d t
  | Token =>
      let t := Tally_add (cat_key "t" [sc_org s; sc_repo s; sc_lang s]) d t in
      match n_token_class n with
      | Some c => Tally_add (cat_key "c" [sc_org s; sc_repo s; TokenClass_as_str c]) d t
      | None => t
      end
  | _ => t
  end.

Section apply.
Context `{Redb tbl}.

Definition apply_row (cat : tbl str _ _ Z) (kd : str * Z) : tbl str _ _ Z :=
  let '(k, d) := kd in
  if d =? 0 then cat else
  let new := default 0 (tbl_get cat k) + d in
  if 0 <? new then tbl_insert k new cat else tbl_remove k cat.
Definition Tally_apply (t : Tally) (cat : tbl str _ _ Z) : tbl str _ _ Z :=
  foldl apply_row cat (gmap_rows t).
End apply.

(** ** Tallies as functions *)

(** The count a tally holds for a key. *)
Definition tally_at (t : Tally) (k : str) : Z := default 0 (t !! k).

Lemma tally_at_add key d t k :
  tally_at (Tally_add key d t) k = tally_at t k + (if decide (k = key) then d else 0).
Proof.
  unfold tally_at, Tally_add. case_decide as E.
  - subst. by rewrite lookup_insert_eq.
  - rewrite lookup_insert_ne by done. lia.
Qed.

(** What one entry of a tally call adds to key [k]. *)
Definition hit (key k : str) : Z := if decide (k = key) then 1 else 0.

Definition enc_hits (s : Scope) (k : str) : Z :=
  match sc_encoding s with Some e => hit (cat_key "e" [sc_org s; sc_repo s; e]) k | None => 0 end +
  (if sc_lossy s then hit (cat_key "l" [sc_org s; sc_repo s]) k else 0).
Definition file_hits (s : Scope) (k : str) : Z :=
  hit (cat_key "f" [sc_org s; sc_repo s; sc_lang s]) k + enc_hits s k.
Definition node_hits (s : Scope) (n : Node) (k : str) : Z :=
  match n_kind n with
  | Symbol =>
      hit (cat_key "s" [sc_org s; sc_repo s; sc_lang s]) k +
      hit (cat_key "k" [sc_org s; sc_repo s; sc_lang s; kind_label n]) k
  | Token =>
      hit (cat_key "t" [sc_org s; sc_repo s; sc_lang s]) k +
      match n_token_class n with
      | Some c => hit (cat_key "c" [sc_org s; sc_repo s; TokenClass_as_str c]) k
      | None => 0
      end
  | _ => 0
  end.

Ltac tally := rewrite ?tally_at_add; unfold hit; repeat case_decide; lia.

Lemma tally_at_file s d t k : tally_at (Tally_file s d t) k = tally_at t k + d * file_hits s k.
Proof.
  unfold Tally_file, Tally_encoding, file_hits, enc_hits.
  destruct (sc_encoding s), (sc_lossy s); tally.
Qed.
Lemma tally_at_node s n d t k : tally_at (Tally_node s n d t) k = tally_at t k + d * node_hits s n k.
Proof.
  unfold Tally_node, node_hits.
  destruct (n_kind n); [lia..| |destruct (n_token_class n)]; tally.
Qed.

(** Applying a tally adds it to the counters, and a counter at zero has no
    row. *)
Section apply_spec.
Context `{Redb tbl}.

(** [cat] holds the counts [f], at the keys [P]. *)
Definition counts (P : str → Prop) (f : str → Z) (cat : tbl str _ _ Z) : Prop :=
  ∀ k, P k → tbl_map cat !! k = (if 0 <? f k then Some (f k) else None).

Lemma apply_row_counts P f cat k d :
  counts P f cat → 0 ≤ f k → 0 ≤ f k + d → P k →
  counts P (λ k', f k' + if decide (k' = k) then d else 0) (apply_row cat (k, d)).
Proof.
  intros Hc H0 Hd Hk k' Hk'. unfold apply_row. destruct (d =? 0) eqn:E; bool_prop.
  { rewrite Hc by done. subst. case_decide; by rewrite Z.add_0_r. }
  rewrite tbl_get_spec, (Hc k Hk).
  assert (default 0 (if 0 <? f k then Some (f k) else None) = f k) as ->.
  { destruct (0 <? f k) eqn:E'; bool_prop; cbn; lia. }
  case_decide as Ek; [subst k'|].
  - destruct (0 <? f k + d) eqn:E'.
    + by rewrite tbl_insert_spec, lookup_insert_eq.
    + by rewrite tbl_remove_spec, lookup_delete_eq.
  - rewrite Z.add_0_r. destruct (0 <? f k + d).
    + by rewrite tbl_insert_spec, lookup_insert_ne, Hc.
    + by rewrite tbl_remove_spec, lookup_delete_ne, Hc.
Qed.

Lemma apply_row_other cat k d k' : k' ≠ k → tbl_map (apply_row cat (k, d)) !! k' = tbl_map cat !! k'.
Proof.
  intros Hne. unfold apply_row. destruct (d =? 0); [done|]. case_match.
  - by rewrite tbl_insert_spec, lookup_insert_ne.
  - by rewrite tbl_remove_spec, lookup_delete_ne.
Qed.

Lemma counts_ext P f g cat : (∀ k, f k = g k) → counts P f cat → counts P g cat.
Proof. intros Hfg Hc k Hk. by rewrite <- Hfg, Hc. Qed.

Lemma apply_rows_counts P (l : list (str * Z)) : ∀ f cat,
  NoDup l.*1 → counts P f cat → (∀ k, 0 ≤ f k) →
  (∀ k d, (k, d) ∈ l → P k ∧ 0 ≤ f k + d) →
  counts P (λ k, f k + tally_at (list_to_map l) k) (foldl apply_row cat l).
Proof.
  induction l as [|[k d] l IH]; intros f cat Hnd Hc H0 Hl.
  { eapply counts_ext; [|exact Hc]. intros k. unfold tally_at. cbn [list_to_map foldr]. rewrite lookup_empty. cbn. lia. }
  apply NoDup_cons in Hnd as [Hk Hnd]. destruct (Hl k d ltac:(by left)) as [HP Hd]. cbn [foldl].
  eapply counts_ext; [|apply (IH _ _ Hnd (apply_row_counts P f cat k d Hc (H0 k) Hd HP))].
  - intros k'. unfold tally_at. cbn [list_to_map foldr]. case_decide as E.
    + subst k'. rewrite (not_elem_of_list_to_map_1 l k) by done.
      cbn. rewrite lookup_insert_eq. cbn. lia.
    + cbn. rewrite lookup_insert_ne by done. lia.
  - intros k'. pose proof (H0 k'). case_decide; subst; lia.
  - intros k' d' Hin. destruct (Hl k' d' ltac:(by right)) as [? ?]. split; [done|].
    rewrite decide_False; [lia|]. intros ->. apply Hk. apply list_elem_of_fmap. by exists (k, d').
Qed.
Lemma apply_rows_other (l : list (str * Z)) k : ∀ cat,
  k ∉ l.*1 → tbl_map (foldl apply_row cat l) !! k = tbl_map cat !! k.
Proof.
  induction l as [|[k' d] l IH]; intros cat Hk; [done|]. cbn in Hk. apply not_elem_of_cons in Hk as [? ?].
  cbn [foldl]. rewrite IH by done. by apply apply_row_other.
Qed.

Lemma Tally_apply_counts P f t cat :
  counts P f cat → (∀ k, is_Some (t !! k) → P k) → (∀ k, 0 ≤ f k) → (∀ k, 0 ≤ f k + tally_at t k) →
  counts P (λ k, f k + tally_at t k) (Tally_apply t cat).
Proof.
  intros Hc HP H0 H1. unfold Tally_apply.
  assert (NoDup (gmap_rows t).*1) as Hnd by apply gmap_rows_NoDup.
  assert (list_to_map (gmap_rows t) = t) as Ht.
  { apply map_eq. intros k. destruct (t !! k) as [d|] eqn:E.
    - apply elem_of_list_to_map_1; [done|]. by apply gmap_rows_elem.
    - apply not_elem_of_list_to_map_1. intros ([k' d] & -> & Hin%gmap_rows_elem)%list_elem_of_fmap.
      cbn in E. congruence. }
  eapply counts_ext; [|apply (apply_rows_counts P (gmap_rows t) f cat Hnd Hc H0)].
  - intros k. by rewrite Ht.
  - intros k d Hin%gmap_rows_elem. split; [by apply HP; eexists|].
    specialize (H1 k). unfold tally_at in H1. rewrite Hin in H1. exact H1.
Qed.
Lemma Tally_apply_other t cat k :
  t !! k = None → tbl_map (Tally_apply t cat) !! k = tbl_map cat !! k.
Proof.
  intros Hk. apply apply_rows_other. intros ([k' d] & -> & Hin%gmap_rows_elem)%list_elem_of_fmap.
  cbn in Hk. congruence.
Qed.
End apply_spec.
