(* ===== verification/Reader.v ===== *)
(** * Reading the graph

    The navigation half of the reader [R] ([graph-store/src/v2.rs]): nodes by
    id, children, descendants and ancestors, over the stored rows. Symbols and
    tokens have no rows of their own; they are read out of the stream of their
    file, either from the stored token ranges or by decoding all of it. Read
    statistics are left out. *)
From S2P Require Import Prelude Text Schema Varint Stream DictBlock Table DictRev Db Walk.

(** A symbol or token of one stream, by index. *)
Inductive Item : Set :=
  | ISym (i : nat)
  | ITok (i : nat).
#[global] Instance Item_eq_dec : EqDecision Item.
Proof. solve_decision. Defined.

(** A point in a source file. *)
Record Position : Set := mkPosition { p_byte : Z; p_line : Z; p_col : Z }.
Definition start_of (s : Span) : Position := mkPosition (start s) (start_line s) (start_col s).

(** ** Containment inside one stream *)

Record Tree : Set := mkTree { tr_top : list Item; tr_kids : list (list Item) }.

(** [v[p].push(x)]. *)
Definition push_at {A} (v : list (list A)) (p : nat) (x : A) : result (list (list A)) :=
  l ← index v p; Ok (<[p := l ++ [x]]> v).

(** [for x in l { s = f(s, x)?; }]. *)
Fixpoint try_fold {S A} (f : S → A → result S) (s : S) (l : list A) : result S :=
  match l with
  | [] => Ok s
  | a :: l => s ← f s a; try_fold f s l
  end.

Definition isym_span (ir : nat * SymRec) : Span := s_span ir.2.
Definition itok_span (it : nat * TokRec) : Span := t_span it.2.

Definition tree_push (t : Tree) (e : nat * SymRec + nat * TokRec) : result Tree :=
  let '(item, parent) :=
    match e with inl (i, r) => (ISym i, s_parent r) | inr (i, r) => (ITok i, t_parent r) end in
  match parent with
  | Some p => kids ← push_at (tr_kids t) (Z.to_nat p) item; Ok (mkTree (tr_top t) kids)
  | None => Ok (mkTree (tr_top t ++ [item]) (tr_kids t))
  end.

Definition stream_tree (s : Stream) : result Tree :=
  try_fold tree_push (mkTree [] (replicate (length (st_symbols s)) []))
    (walk isym_span itok_span (enumerate (st_symbols s)) (enumerate (st_tokens s))).

(** [(a..b).map(|o| o as usize)] *)
Definition ords_in (a b : Z) : list nat := Z.to_nat <$> seqZ a (b - a).

Fixpoint gaps_loop (cur last : Z) (child_ranges : list (Z * Z)) : list nat :=
  match child_ranges with
  | [] => if cur <=? last then ords_in cur (last + 1) else []
  | (cf, cl) :: rs => (if cur <? cf then ords_in cur cf else []) ++ gaps_loop (as_u32 (cl + 1)) last rs
  end.
Definition range_gaps (first last : Z) (child_ranges : list (Z * Z)) : list nat :=
  gaps_loop first last child_ranges.

Definition sym_kids_map (syms : list SymRec) : result (list (list nat)) :=
  try_fold (λ m '(j, s), match s_parent s with Some p => push_at m (Z.to_nat p) j | None => Ok m end)
    (replicate (length syms) []) (enumerate syms).

Definition direct_token_ordinals (syms : list SymRec) (i : nat) (child_idxs : list nat)
    : result (list nat) :=
  s ← index syms i;
  match s_toks s with
  | None => Ok []
  | Some (first, last) =>
      cs ← collect (index syms) child_idxs;
      Ok (range_gaps first last (omap s_toks cs))
  end.

Definition top_level_ordinals (syms : list SymRec) (top_idxs : list nat) (ntok : nat)
    : result (list nat) :=
  if (ntok =? 0)%nat then Ok []
  else
    cs ← collect (index syms) top_idxs;
    Ok (range_gaps 0 (as_u32 (Z.of_nat (ntok - 1))) (omap s_toks cs)).

(** [(0..syms.len()).filter(|&j| syms[j].parent == p)]. *)
Definition idxs_under (p : option Z) (syms : list SymRec) : list nat :=
  (filter (λ ir : nat * SymRec, s_parent ir.2 = p) (enumerate syms)).*1.
Definition top_level_idxs (syms : list SymRec) : list nat := idxs_under None syms.

(** The merge of [item_children], over symbol indexes and token ordinals. *)
Fixpoint merge_children (syms : list SymRec) (tok_map : gmap nat TokRec) (kids : list nat)
    : list nat → result (list Item) :=
  fix go (ords : list nat) : result (list Item) :=
    match kids, ords with
    | [], [] => Ok []
    | [], o :: ords => rest ← go ords; Ok (ITok o :: rest)
    | k :: kids, [] => rest ← merge_children syms tok_map kids []; Ok (ISym k :: rest)
    | k :: kids', o :: ords' =>
        s ← index syms k;
        t ← unwrap (tok_map !! o);
        if start (s_span s) <=? start (t_span t)
        then rest ← merge_children syms tok_map kids' ords; Ok (ISym k :: rest)
        else rest ← go ords'; Ok (ITok o :: rest)
    end.

(** The closure of [descendants_ranged_one]: the merged children of symbol
    [j]. *)
Definition item_children (syms : list SymRec) (sym_kids : list (list nat))
    (tok_map : gmap nat TokRec) (j : nat) : result (list Item) :=
  kids ← index sym_kids j;
  ords ← direct_token_ordinals syms j kids;
  merge_children syms tok_map kids ords.

(** The items under a stack of items, depth first; [d] bounds the depth. *)
Fixpoint preorder (d : nat) (kids : nat → result (list Item)) (it : Item) : list Item :=
  it ::
  match d, it with
  | S d, ISym j => match kids j with Ok l => l ≫= preorder d kids | _ => [] end
  | _, _ => []
  end.

(** [while let Some(it) = stack.pop()]: a node per item, then the item's
    children, reversed, on the stack. The head of the list is the top. *)
Fixpoint descend (fuel : nat) (kids : nat → result (list Item)) (node_of : Item → result Node)
    (stack : list Item) : result (list Node) :=
  match fuel, stack with
  | _, [] => Ok []
  | O, _ :: _ => Panic
  | S fuel, it :: stack =>
      n ← node_of it;
      below ← (match it with ISym j => kids j | ITok _ => Ok [] end);
      rest ← descend fuel kids node_of (below ++ stack);
      Ok (n :: rest)
  end.
(** A round per item: as many as the preorder has. *)
Definition descend_all (depth : nat) (kids : nat → result (list Item))
    (node_of : Item → result Node) (stack : list Item) : result (list Node) :=
  descend (S (length (stack ≫= preorder depth kids))) kids node_of stack.

(** ** The reader *)

Section reader.
Context `{Redb tbl}.

(** [R] reads the tables of one transaction. *)
Context `{Serde} (r : Db tbl).

Definition dangling_node (id : Z) : StoreError := Corrupt (lit "dangling node " ++ show id).

Definition node (id : Z) : result (option Node) :=
  match tbl_get (db_nodes r) id with
  | Some v => n ← dec v; Ok (Some n)
  | None => Ok None
  end.

Definition need (id : Z) : result Node :=
  n ← node id; ok_or n (dangling_node id).

Definition stream (file : Z) : result (option Stream) :=
  match tbl_get (db_streams r) file with
  | Some v => s ← decode v; Ok (Some s)
  | None => Ok None
  end.

Definition with_lazy {T} (file : Z) (f : Lazy → result T) : result (option T) :=
  match tbl_get (db_streams r) file with
  | Some v => lz ← decode_lazy v; x ← f lz; Ok (Some x)
  | None => Ok None
  end.

(** A dictionary text, and the same through the memo of one query. *)
Definition text (term : Z) : result str :=
  t ← dict_rev_lookup (db_rev r) term;
  ok_or t (Corrupt (lit "dangling term " ++ show term)).
Definition text_memo (texts : gmap Z str) (term : Z) : result (str * gmap Z str) :=
  match texts !! term with
  | Some t => Ok (t, texts)
  | None =>
      t ← dict_rev_lookup (db_rev r) term;
      t ← ok_or t (Corrupt (lit "dangling term " ++ show term));
      Ok (t, <[term := t]> texts)
  end.

Definition sub_parent (file : Z) (p : option Z) : Z :=
  match p with Some p => sub_id TAG_SYM file p | None => file end.

Definition sym_node (file : Z) (i : nat) (syms : list SymRec) : result Node :=
  s ← index syms i;
  name ← text (s_name s);
  lang_kind ← (match s_lang_kind s with Some k => t ← text k; Ok (Some t) | None => Ok None end);
  Ok (mkNode (sub_id TAG_SYM file (Z.of_nat i)) (Some (sub_parent file (s_parent s))) Symbol name
        None (Some (s_kind s)) lang_kind None false None None None false (Some (s_span s))).

Definition tok_node (file : Z) (i : nat) (t : TokRec) : result Node :=
  name ← text (t_term t);
  Ok (mkNode (sub_id TAG_TOK file (Z.of_nat i)) (Some (sub_parent file (t_parent t))) Token name
        None None None (Some (t_class t)) false None None None false (Some (t_span t))).

Definition item_node (file : Z) (s : Stream) (it : Item) : result Node :=
  match it with
  | ISym i => sym_node file i (st_symbols s)
  | ITok i => t ← index (st_tokens s) i; tok_node file i t
  end.

(** [Option<Option<T>>::flatten]. *)
Definition flatten {A} (o : option (option A)) : option A := o ≫= id.

Definition get (id : Z) : result (option Node) :=
  let '(tag, file, i) := split_id id in
  let i := Z.to_nat i in
  if tag =? 0 then node id else
  found ← with_lazy file (λ lz,
    if (tag =? TAG_SYM) && (i <? lz_nsym lz)%nat then
      syms ← lazy_symbols lz;
      n ← sym_node file i syms;
      Ok (Some n)
    else if (tag =? TAG_TOK) && (i <? lz_ntok lz)%nat then
      rec ← tokens_at lz [i] (λ _ t _, Some t) None;
      match rec with
      | Some t => n ← tok_node file i t; Ok (Some n)
      | None => Ok None
      end
    else Ok None);
  Ok (flatten found).

Definition parent_of (id : Z) : result (option Node) :=
  n ← get id;
  match n ≫= n_parent with Some p => get p | None => Ok None end.

(** ** Children *)

Definition children_fallback (file : Z) (i : nat) : result (list Node) :=
  s ← stream file;
  match s with
  | None => Ok []
  | Some s =>
      if (length (st_symbols s) <=? i)%nat then Ok [] else
      tree ← stream_tree s;
      items ← index (tr_kids tree) i;
      collect (item_node file s) items
  end.

(** [if !ords.is_empty() { lz.tokens_at(&ords, |ord, t| toks.push(..))?; }]. *)
Definition fetch (lz : Lazy) (ords : list nat) : result (list (nat * TokRec)) :=
  match ords with
  | [] => Ok []
  | _ => tokens_at lz ords (λ o t acc, acc ++ [(o, t)]) []
  end.

(** The merge of child symbols and tokens, and their nodes. *)
Definition merged_nodes (file : Z) (syms : list SymRec) (idxs : list nat)
    (toks : list (nat * TokRec)) : result (list Node) :=
  kids ← collect (λ j, s ← index syms j; Ok (j, s)) idxs;
  collect (λ e : nat * SymRec + nat * TokRec, match e with
    | inl (j, _) => sym_node file j syms
    | inr (o, t) => tok_node file o t
    end) (walk isym_span itok_span kids toks).

Definition children_ranged (file : Z) (i : nat) : result (option (list Node)) :=
  res ← with_lazy file (λ lz,
    if negb (lz_ranges_dense lz) then Ok None else
    syms ← lazy_symbols lz;
    if (length syms <=? i)%nat then Ok None else
    let child_idxs := idxs_under (Some (as_u32 (Z.of_nat i))) syms in
    ords ← direct_token_ordinals syms i child_idxs;
    toks ← fetch lz ords;
    out ← merged_nodes file syms child_idxs toks;
    Ok (Some out));
  Ok (flatten res).

Definition children_ranged_file (file : Z) : result (option (list Node)) :=
  res ← with_lazy file (λ lz,
    if negb (lz_ranges_dense lz) then Ok None else
    syms ← lazy_symbols lz;
    let top_idxs := top_level_idxs syms in
    ords ← top_level_ordinals syms top_idxs (lz_ntok lz);
    toks ← fetch lz ords;
    out ← merged_nodes file syms top_idxs toks;
    Ok (Some out));
  Ok (flatten res).

(** The decoding branch of [children] for a file. *)
Definition top_fallback (file : Z) : result (list Node) :=
  s ← stream file;
  match s with
  | None => Ok []
  | Some s => tree ← stream_tree s; collect (item_node file s) (tr_top tree)
  end.

Definition children (id : Z) : result (list Node) :=
  let '(tag, file, i) := split_id id in
  let i := Z.to_nat i in
  if tag =? 0 then
    n ← node id;
    match n with
    | None => Ok []
    | Some n =>
        if decide (n_kind n = File) then
          ranged ← children_ranged_file id;
          match ranged with
          | Some out => Ok out
          | None => top_fallback id
          end
        else collect need (multimap_get (db_children r) id)
    end
  else if negb (tag =? TAG_SYM) then Ok []
  else
    ranged ← children_ranged file i;
    match ranged with Some out => Ok out | None => children_fallback file i end.

(** ** Descendants *)

Definition descendants_ranged_one (lz : Lazy) (syms : list SymRec) (sym_kids : list (list nat))
    (file : Z) (i : nat) : result (list Node) :=
  s ← index syms i;
  tok_map ← (match s_toks s with
    | Some (first, last) =>
        tokens_at lz (ords_in first (last + 1)) (λ o t (m : gmap nat TokRec), <[o := t]> m) ∅
    | None => Ok ∅
    end);
  let children_of := item_children syms sym_kids tok_map in
  items ← children_of i;
  descend_all (length syms) children_of (λ it, match it with
    | ISym j => sym_node file j syms
    | ITok o => t ← unwrap (tok_map !! o); tok_node file o t
    end) items.

Definition descendants_ranged (file : Z) (i : nat) : result (option (list Node)) :=
  res ← with_lazy file (λ lz,
    if negb (lz_ranges_dense lz) then Ok None else
    syms ← lazy_symbols lz;
    if (length syms <=? i)%nat then Ok None else
    sym_kids ← sym_kids_map syms;
    out ← descendants_ranged_one lz syms sym_kids file i;
    Ok (Some out));
  Ok (flatten res).

(** The [for n in top] loop; [None] is the early [return Ok(None)]. *)
Fixpoint ranged_file_loop (lz : Lazy) (syms : list SymRec) (sym_kids : list (list nat))
    (file : Z) (top : list Node) : result (option (list Node)) :=
  match top with
  | [] => Ok (Some [])
  | n :: top =>
      if decide (n_kind n = Symbol) then
        let i := Z.to_nat (split_id (n_id n)).2 in
        if (length syms <=? i)%nat then Ok None else
        sub ← descendants_ranged_one lz syms sym_kids file i;
        rest ← ranged_file_loop lz syms sym_kids file top;
        Ok (option_map (λ rest, n :: sub ++ rest) rest)
      else
        rest ← ranged_file_loop lz syms sym_kids file top;
        Ok (option_map (cons n) rest)
  end.

Definition descendants_ranged_file (file : Z) : result (option (list Node)) :=
  top ← children_ranged_file file;
  match top with
  | None => Ok None
  | Some top =>
      res ← with_lazy file (λ lz,
        if negb (lz_ranges_dense lz) then Ok None else
        syms ← lazy_symbols lz;
        sym_kids ← sym_kids_map syms;
        ranged_file_loop lz syms sym_kids file top);
      Ok (flatten res)
  end.

(** What the walk appends to [out]. *)
Definition file_walk (file : Z) (from : option nat) : result (list Node) :=
  s ← stream file;
  match s with
  | None => Ok []
  | Some s =>
      if match from with Some i => (length (st_symbols s) <=? i)%nat | None => false end
      then Ok [] else
      tree ← stream_tree s;
      start ← (match from with Some i => index (tr_kids tree) i | None => Ok (tr_top tree) end);
      descend_all (length (st_symbols s)) (index (tr_kids tree)) (item_node file s) start
  end.

Definition file_descendants (id : Z) : result (list Node) :=
  v ← descendants_ranged_file id;
  match v with Some v => Ok v | None => file_walk id None end.

(** [fuel] bounds the depth of the entity rows; a store has orgs over repos
    over files. *)
Fixpoint descendants (fuel : nat) (id : Z) : result (list Node) :=
  match fuel with
  | O => Panic
  | S fuel =>
      let '(tag, file, i) := split_id id in
      let i := Z.to_nat i in
      if tag =? 0 then
        n ← node id;
        match n with
        | None => Ok []
        | Some n =>
            if decide (n_kind n = File) then file_descendants id
            else
              outs ← collect (λ k,
                c ← need k;
                sub ← (if decide (n_kind c = File) then file_descendants (n_id c)
                       else descendants fuel (n_id c));
                Ok (c :: sub)) (multimap_get (db_children r) id);
              Ok (concat outs)
        end
      else if tag =? TAG_SYM then
        v ← descendants_ranged file i;
        match v with Some v => Ok v | None => file_walk file (Some i) end
      else Ok []
  end.

(** ** Ancestors *)

(** [while let Some(p) = cur { out.push(..); cur = syms[p].parent; }]: a
    parent is an earlier symbol, so [S (length syms)] rounds are enough. *)
Fixpoint sym_chain (fuel : nat) (file : Z) (syms : list SymRec) (cur : option Z)
    : result (list Node) :=
  match fuel, cur with
  | _, None => Ok []
  | O, Some _ => Panic
  | S fuel, Some p =>
      n ← sym_node file (Z.to_nat p) syms;
      s ← index syms (Z.to_nat p);
      rest ← sym_chain fuel file syms (s_parent s);
      Ok (n :: rest)
  end.

(** [while let Some(p) = up { .. }] over the entity rows. *)
Fixpoint entity_chain (fuel : nat) (up : option Z) : result (list Node) :=
  match fuel, up with
  | _, None => Ok []
  | O, Some _ => Panic
  | S fuel, Some p =>
      n ← need p;
      rest ← entity_chain fuel (n_parent n);
      Ok (n :: rest)
  end.

Definition ancestors (fuel : nat) (id : Z) : result (list Node) :=
  let '(tag, file, i) := split_id id in
  let i := Z.to_nat i in
  if tag =? 0 then
    n ← node id;
    entity_chain fuel (n ≫= n_parent)
  else
    done ← with_lazy file (λ lz,
      syms ← lazy_symbols lz;
      cur ← (if (tag =? TAG_SYM) && (i <? length syms)%nat then
               s ← index syms i; Ok (Some (s_parent s))
             else if (tag =? TAG_TOK) && (i <? lz_ntok lz)%nat then
               p ← tokens_at lz [i] (λ _ t _, t_parent t) None; Ok (Some p)
             else Ok None);
      match cur with
      | None => Ok None
      | Some cur => out ← sym_chain (S (length syms)) file syms cur; Ok (Some out)
      end);
    match flatten done with
    | None => Ok []
    | Some out => rest ← entity_chain fuel (Some file); Ok (out ++ rest)
    end.

(** ** Name positions *)



Definition name_pos_visit (sym : SymRec) : visitor (option Position) := λ _ t found,
  let sp := s_span sym in
  if start (t_span t) <? start sp then (true, found)
  else if end_ sp <=? start (t_span t) then (false, found)
  else if (t_term t =? s_name sym) && bool_decide (t_class t = Identifier) &&
          (end_ (t_span t) <=? end_ sp)
  then (false, Some (start_of (t_span t)))
  else (true, found).

Definition name_pos (lz : Lazy) (sym : SymRec) : result Position :=
  found ← tokens_from_while lz (block_ordinal_at lz (start (s_span sym))) (name_pos_visit sym) None;
  Ok (default (start_of (s_span sym)) found).

Definition name_pos_of_id (id : Z) : result (option Position) :=
  let '(tag, file, i) := split_id id in
  if negb (tag =? TAG_SYM) then Ok None else
  match tbl_get (db_streams r) file with
  | None => Ok None
  | Some raw =>
      lz ← decode_lazy raw;
      syms ← lazy_symbols lz;
      match syms !! Z.to_nat i with
      | Some s => p ← name_pos lz s; Ok (Some p)
      | None => Ok None
      end
  end.
End reader.
