(* ===== verification/Located.v ===== *)
(** * Streams whose parents follow the spans

    [located]: the symbols and tokens of a stream are in span order, symbols
    nest, and every parent is the innermost symbol around an item. Streams
    that [V2Prep_build] makes of a validated extraction are located, and in a
    located stream the tokens below a symbol are an interval of ordinals,
    apart from those of its siblings: the facts the range-based readers use. *)
From S2P Require Import Prelude Text Schema Varint Stream StreamRound StreamSafe Ranges Table DictRev Walk Prep.

Record located (st : Stream) : Prop := mkLocated {
  lo_wf : wf_stream st;
  lo_syms : StronglySorted (λ a b, sym_le (s_span a) (s_span b) = true) (st_symbols st);
  lo_toks : StronglySorted (λ a b, start (t_span a) ≤ start (t_span b)) (st_tokens st);
  lo_nest i j a b :
    (i < j)%nat → st_symbols st !! i = Some a → st_symbols st !! j = Some b →
    end_ (s_span a) ≤ start (s_span b) ∨ end_ (s_span b) ≤ end_ (s_span a);
  lo_tok o t : st_tokens st !! o = Some t →
    t_parent t = innermost (st_symbols st) (start (t_span t));
  lo_sym j q : st_symbols st !! j = Some q →
    s_parent q = innermost (take j (st_symbols st)) (start (s_span q));
}.

(** ** Prepared files are located *)

Lemma sorted_Forall2 {A B} (f : A → Span) (g : B → Span) (R : Span → Span → Prop) l k :
  Forall2 (λ a b, g b = f a) l k →
  StronglySorted (λ a b, R (f a) (f b)) l → StronglySorted (λ a b, R (g a) (g b)) k.
Proof.
  induction 1 as [|a b l k Hab Hlk IH]; intros Hs; [constructor|].
  apply StronglySorted_inv in Hs as [Hs Ha]. constructor; [by apply IH|].
  apply Forall_forall. intros y [i Hi]%list_elem_of_lookup.
  destruct (Forall2_lookup_r _ _ _ _ _ Hlk Hi) as (x & Hx & Hy). rewrite Hab, Hy.
  rewrite Forall_forall in Ha. apply Ha. by eapply list_elem_of_lookup_2.
Qed.

Lemma build_located ex :
  small_ex ex → spans_ok ex → located (vp_stream (V2Prep_build ex)).
Proof.
  intros Hsm Hok. pose proof (build_parents ex Hsm Hok) as HP. pose proof (build_inv ex Hsm) as HI.
  pose proof (build_wf ex Hsm) as Hwf. unfold V2Prep_build in *. cbn [vp_stream] in *.
  set (st := foldl prep_step PrepState_new (events ex)) in *.
  pose proof (pi_syms _ _ HI) as Hs. pose proof (pi_toks _ _ HI) as Ht.
  rewrite events_symbols in Hs. rewrite events_tokens in Ht.
  split; cbn [st_symbols st_tokens]; [done| | | |..].
  - eapply (sorted_Forall2 sd_span s_span (λ a b, sym_le a b = true)); [|apply sorted_symbols_sorted].
    eapply Forall2_impl; [exact Hs|]. intros a b Hab. apply Hab.
  - eapply (sorted_Forall2 td_span t_span (λ a b, start a ≤ start b)).
    + eapply Forall2_impl; [exact Ht|]. intros a b Hab. apply Hab.
    + eapply sorted_impl_in; [apply sorted_tokens_sorted|]. intros a b _ _. unfold tok_le. lia.
  - intros i j a b Hij Ha Hb.
    destruct (Forall2_lookup_r _ _ _ _ _ Hs Ha) as (x & Hx & (_ & _ & _ & _ & Hax)).
    destruct (Forall2_lookup_r _ _ _ _ _ Hs Hb) as (y & Hy & (_ & _ & _ & _ & Hby)).
    pose proof (sorted_lookup _ _ i j x y (sorted_symbols_sorted ex) Hx Hy Hij) as Hxy.
    rewrite Hax, Hby. apply (spans_ok_nested ex Hok (inl x) (inl y)); [..|done];
      by apply events_sym, sorted_symbols_elem; eapply list_elem_of_lookup_2.
  - intros o t Ho. by apply (proj1 (Forall_lookup _ _) (pa_toks _ _ HP) o).
  - apply HP.
Qed.

(** ** The innermost symbol *)

Lemma innermost_ge syms p i s :
  syms !! i = Some s → start (s_span s) ≤ p < end_ (s_span s) →
  ∃ m, innermost syms p = Some (Z.of_nat m) ∧ (i ≤ m)%nat.
Proof.
  intros Hi Hc. assert ((i, s) ∈ filter (covers p) (enumerate syms)) as Hin.
  { apply list_elem_of_filter. split; [done|]. apply elem_of_enum_from. simpl.
    split; [lia|]. by rewrite Nat.sub_0_r. }
  unfold innermost. destruct (last (filter (covers p) (enumerate syms))) as [[m r]|] eqn:E.
  2:{ apply last_None in E. rewrite E in Hin. by apply elem_of_nil in Hin. }
  exists m. split; [done|].
  assert (StronglySorted (λ a b : nat * SymRec, (a.1 < b.1)%nat) (filter (covers p) (enumerate syms))) as Hs
    by apply sorted_filter, enumerate_sorted.
  apply last_Some in E as [l El]. rewrite El in Hin, Hs.
  apply elem_of_app in Hin as [Hin|[= -> _]%list_elem_of_singleton]; [|lia].
  pose proof (StronglySorted_app_1_elem_of _ _ _ (i, s) (m, r) Hs Hin ltac:(by left)). simpl in *. lia.
Qed.

Lemma innermost_nat syms p q : innermost syms p = Some q → q = Z.of_nat (Z.to_nat q).
Proof. unfold innermost. intros ([i r] & _ & ->)%fmap_Some. simpl. lia. Qed.

Lemma innermost_at syms p q :
  innermost syms p = Some q →
  ∃ s, syms !! Z.to_nat q = Some s ∧ start (s_span s) ≤ p < end_ (s_span s).
Proof. intros H. apply innermost_Some. rewrite <- (innermost_nat _ _ _ H). done. Qed.

Section located.
Context (st : Stream) (L : located st).
Abbreviation syms := (st_symbols st).
Abbreviation ts := (st_tokens st).

Lemma sym_starts i j a b :
  (i ≤ j)%nat → syms !! i = Some a → syms !! j = Some b → start (s_span a) ≤ start (s_span b).
Proof.
  intros Hij Ha Hb. destruct (decide (i = j)) as [->|]; [by simplify_eq|].
  apply sym_le_start, (sorted_lookup _ _ i j a b (lo_syms _ L) Ha Hb). lia.
Qed.
Lemma tok_starts o o' t t' :
  ts !! o = Some t → ts !! o' = Some t' → start (t_span t) < start (t_span t') → (o < o')%nat.
Proof.
  intros Ht Ht' Hlt. destruct (Nat.lt_ge_cases o o') as [|Hge]; [done|].
  destruct (decide (o = o')) as [->|]; [simplify_eq; lia|].
  pose proof (sorted_lookup _ _ o' o t' t (lo_toks _ L) Ht' Ht ltac:(lia)). simpl in *. lia.
Qed.

(** A symbol encloses an item exactly when its span covers the item's start. *)
Lemma encloses_covers i k p :
  encloses syms i (innermost (take k syms) p) →
  ∃ s, syms !! i = Some s ∧ (i < k)%nat ∧ start (s_span s) ≤ p < end_ (s_span s).
Proof.
  remember (innermost (take k syms) p) as cur eqn:Hcur. intros H. revert k p Hcur.
  induction H as [q Hq Hi|q s Hs He IH]; intros k p Hcur; symmetry in Hcur;
    destruct (innermost_at _ _ _ Hcur) as (s' & [Hs' Hqk]%lookup_take_Some & Hc).
  - subst i. eauto.
  - assert (s' = s) as -> by congruence. destruct (IH _ _ (lo_sym _ L _ _ Hs)) as (a & Ha & Hiq & Hca).
    exists a. split_and!; [done|lia|lia|].
    destruct (lo_nest _ L i (Z.to_nat q) a s) as [?|?]; [done..|lia|lia].
Qed.

Lemma covers_encloses k : ∀ i p s,
  (i < k)%nat → (k ≤ length syms)%nat → syms !! i = Some s →
  start (s_span s) ≤ p < end_ (s_span s) → encloses syms i (innermost (take k syms) p).
Proof.
  induction (lt_wf k) as [k _ IH]. intros i p s Hik Hk Hs Hc.
  destruct (innermost_ge (take k syms) p i s) as (m & Hm & Him); [by apply lookup_take_Some|done|].
  destruct (innermost_at _ _ _ Hm) as (r & [Hr Hmk]%lookup_take_Some & Hcr).
  rewrite Nat2Z.id in *. rewrite Hm. destruct (decide (i = m)) as [->|Hne].
  - apply encloses_here; [by rewrite Nat2Z.id|]. by eapply lookup_lt_Some.
  - apply (encloses_up _ _ _ r); [by rewrite Nat2Z.id|]. rewrite (lo_sym _ L _ _ Hr).
    apply (IH m Hmk i _ s); [lia|lia|done|].
    pose proof (sym_starts i m s r Him Hs Hr). lia.
Qed.

Lemma under_covers i o :
  under syms ts i o ↔
  ∃ s t, 0 ≤ o ∧ syms !! i = Some s ∧ ts !! Z.to_nat o = Some t ∧
    start (s_span s) ≤ start (t_span t) < end_ (s_span s).
Proof.
  split.
  - intros (t & Ho & Ht & He). rewrite (lo_tok _ L _ _ Ht) in He.
    destruct (encloses_covers i (length syms) (start (t_span t))) as (s & Hs & _ & Hc).
    + by rewrite firstn_all.
    + eauto 10.
  - intros (s & t & Ho & Hs & Ht & Hc). exists t. split_and!; [done|done|].
    rewrite (lo_tok _ L _ _ Ht). pose proof (covers_encloses (length syms) i (start (t_span t)) s) as H.
    rewrite firstn_all in H. apply H; [by eapply lookup_lt_Some|done..].
Qed.

(** The tokens below a symbol are an interval. *)
Lemma under_interval i a b o : under syms ts i a → under syms ts i b → a ≤ o ≤ b → under syms ts i o.
Proof.
  rewrite !under_covers. intros (s & ta & Ha & Hs & Hta & Hca) (s' & tb & Hb & Hs' & Htb & Hcb) Ho.
  assert (s' = s) as -> by congruence. destruct (lookup_lt_is_Some_2 ts (Z.to_nat o)) as [t Ht].
  { apply lookup_lt_Some in Htb. lia. }
  exists s, t. split_and!; [lia|done|done|..].
  - destruct (decide (a = o)) as [->|]; [simplify_eq; lia|].
    pose proof (sorted_lookup _ _ _ _ _ _ (lo_toks _ L) Hta Ht ltac:(lia)). simpl in *. lia.
  - destruct (decide (o = b)) as [->|]; [simplify_eq; lia|].
    pose proof (sorted_lookup _ _ _ _ _ _ (lo_toks _ L) Ht Htb ltac:(lia)). simpl in *. lia.
Qed.

(** Siblings have their tokens one after the other. *)
Lemma siblings_apart j k a b o o' :
  (j < k)%nat → syms !! j = Some a → syms !! k = Some b → s_parent a = s_parent b →
  under syms ts j o → under syms ts k o' → o < o'.
Proof.
  intros Hjk Ha Hb Hp. rewrite !under_covers.
  intros (? & t & Ho & ? & Ht & Hc) (? & t' & Ho' & ? & Ht' & Hc'). simplify_eq.
  assert (end_ (s_span a) ≤ start (s_span b)) as Hend.
  { destruct (decide (end_ (s_span a) ≤ start (s_span b))) as [|Hlt]; [done|exfalso].
    rewrite (lo_sym _ L _ _ Ha), (lo_sym _ L _ _ Hb) in Hp.
    destruct (innermost_ge (take k syms) (start (s_span b)) j a) as (m & Hm & Hjm).
    - by apply lookup_take_Some.
    - pose proof (sym_starts j k a b ltac:(lia) Ha Hb). lia.
    - rewrite Hm in Hp. destruct (innermost_at _ _ _ Hp) as (r & [_ Hlt']%lookup_take_Some & _). lia. }
  assert (Z.to_nat o < Z.to_nat o')%nat; [|lia]. apply (tok_starts _ _ t t'); [done..|lia].
Qed.

Lemma located_dense : lz_ranges_dense (lazy_of st) = true.
Proof.
  destruct (compute_ranges syms ts) as [ranges dense] eqn:E.
  destruct (compute_ranges_run syms ts ranges dense) as (_ & Hr & Hd); [..|done|].
  - apply wf_ordered, L.
  - apply wf_token_parents, L.
  - apply L.
  - unfold lazy_of. rewrite E. apply Hd. intros i f l Hi o Ho.
    destruct (Hr _ _ Hi) as (Hf & Hl & _). by apply (under_interval i f l).
Qed.
End located.
