(* ===== verification/Navigate.v ===== *)
(** * Navigation

    Children and descendants read from the stored token ranges are those of
    the decoded tree; nodes, parents and ancestors fit together; the position
    of a symbol's name is found without reading the file from its start. *)
From S2P Require Import Prelude Text Schema Varint Stream StreamRound StreamSafe Ranges.
From S2P Require Import DictBlock Table DictRev Db Walk Prep Reader Located.

(** ** Outcomes and lists *)

Lemma collect_ext {E A B} (f g : A → outcome E B) l :
  (∀ a, a ∈ l → f a = g a) → collect f l = collect g l.
Proof.
  induction l as [|a l IH]; intros H; [done|]. simpl.
  rewrite H by (by left). destruct (g a); simpl; [|done..]. rewrite IH; [done|]. intros b Hb. apply H. by right.
Qed.
Lemma collect_fmap {E A B C} (h : A → B) (f : B → outcome E C) l :
  collect f (h <$> l) = collect (λ a, f (h a)) l.
Proof. induction l as [|a l IH]; [done|]. rewrite fmap_cons. cbn [collect]. by rewrite IH. Qed.
Lemma collect_Ok {E A B} (f : A → outcome E B) (g : A → B) l :
  (∀ a, a ∈ l → f a = Ok (g a)) → collect f l = Ok (g <$> l).
Proof.
  induction l as [|a l IH]; intros H; [done|]. simpl. rewrite H by (by left). simpl.
  rewrite IH; [done|]. intros b Hb. apply H. by right.
Qed.
Lemma collect_app {E A B} (f : A → outcome E B) l k :
  collect f (l ++ k) = (a ← collect f l; b ← collect f k; Ok (a ++ b)).
Proof.
  induction l as [|x l IH]; simpl; [by destruct (collect f k)|].
  destruct (f x); simpl; [|done..]. rewrite IH. destruct (collect f l); simpl; [|done..].
  by destruct (collect f k).
Qed.

Lemma collect_sub {E A B} (f : A → outcome E B) (k l : list A) bs :
  collect f l = Ok bs → (∀ a, a ∈ k → a ∈ l) → ∃ cs, collect f k = Ok cs.
Proof.
  intros Hl%collect_Forall2. induction k as [|a k IH]; intros Hsub; [by exists []|].
  destruct IH as [cs Hcs]; [intros x Hx; apply Hsub; by right|].
  destruct (proj1 (list_elem_of_lookup _ _) (Hsub a ltac:(by left))) as [i Hi].
  destruct (Forall2_lookup_l _ _ _ _ _ Hl Hi) as (b & _ & Hb). exists (b :: cs). simpl. by rewrite Hb, Hcs.
Qed.

(** Strictly sorted lists with the same elements are the same. *)
Lemma sorted_eq (l k : list nat) :
  StronglySorted lt l → StronglySorted lt k → (∀ o, o ∈ l ↔ o ∈ k) → l = k.
Proof.
  assert (∀ m, StronglySorted lt m → NoDup m) as HN.
  { induction 1 as [|x m Hm IH Hx]; constructor; [|done]. intros Hin.
    rewrite Forall_forall in Hx. specialize (Hx x Hin). lia. }
  intros Hl Hk H. apply (StronglySorted_unique_strong lt); [|done|done|].
  - intros ??????. lia.
  - apply NoDup_Permutation; auto.
Qed.

(** ** The walk of a selection *)
Section walk_filter.
Context {S T : Type} (fs : S → Span) (ft : T → Span).

Lemma walk_take_left s ss ts :
  Forall (λ t, start (fs s) ≤ start (ft t)) ts →
  walk fs ft (s :: ss) ts = inl s :: walk fs ft ss ts.
Proof.
  destruct ts as [|t ts]; [done|]. intros [Ht _]%Forall_cons. rewrite walk_cons.
  by rewrite (proj2 (Z.leb_le _ _)) by done.
Qed.
Lemma walk_take_right ss t ts :
  Forall (λ s, start (ft t) < start (fs s)) ss →
  walk fs ft ss (t :: ts) = inr t :: walk fs ft ss ts.
Proof.
  destruct ss as [|s ss]; [done|]. intros [Hs _]%Forall_cons. rewrite walk_cons.
  by rewrite (proj2 (Z.leb_gt _ _)) by done.
Qed.

Definition keep (P : S → Prop) (Q : T → Prop) (e : S + T) : Prop :=
  match e with inl s => P s | inr t => Q t end.
#[global] Instance keep_dec P Q `{∀ s, Decision (P s), ∀ t, Decision (Q t)} e : Decision (keep P Q e).
Proof. destruct e; simpl; apply _. Defined.

Lemma walk_filter (P : S → Prop) (Q : T → Prop) `{∀ s, Decision (P s), ∀ t, Decision (Q t)} ss ts :
  StronglySorted (λ a b, start (fs a) ≤ start (fs b)) ss →
  StronglySorted (λ a b, start (ft a) ≤ start (ft b)) ts →
  walk fs ft (filter P ss) (filter Q ts) = filter (keep P Q) (walk fs ft ss ts).
Proof.
  intros Hs. revert ts. induction Hs as [|s ss Hss IHs Hs]; intros ts Ht.
  { change (filter P []) with (@nil S). rewrite !walk_nil_l. by rewrite filter_fmap. }
  induction Ht as [|t ts Hts IHt Ht].
  { change (filter Q []) with (@nil T). rewrite !walk_nil_r. by rewrite filter_fmap. }
  rewrite (walk_cons fs ft s ss). destruct (start (fs s) <=? start (ft t)) eqn:E; bool_prop.
  - rewrite filter_cons, (filter_cons (keep P Q)). cbn [keep].
    rewrite <- IHs by (by constructor). case_decide as HP; [|by rewrite decide_False].
    rewrite (decide_True (P := P s)) by done. apply walk_take_left. apply Forall_forall.
    intros u [_ [->|Hu]%elem_of_cons]%list_elem_of_filter; [done|].
    rewrite Forall_forall in Ht. specialize (Ht u Hu). simpl in *. lia.
  - rewrite (filter_cons Q), (filter_cons (keep P Q)). cbn [keep]. rewrite <- IHt.
    destruct (decide (Q t)); [|done].
    apply walk_take_right. apply Forall_forall.
    intros u [_ [->|Hu]%elem_of_cons]%list_elem_of_filter; [done|].
    rewrite Forall_forall in Hs. specialize (Hs u Hu). simpl in *. lia.
Qed.
End walk_filter.

(** ** The decoded tree *)

Definition event : Type := nat * SymRec + nat * TokRec.
Definition event_item (e : event) : Item :=
  match e with inl (i, _) => ISym i | inr (i, _) => ITok i end.
Definition event_parent (e : event) : option Z :=
  match e with inl (_, r) => s_parent r | inr (_, t) => t_parent t end.
Definition stream_events (s : Stream) : list event :=
  walk isym_span itok_span (enumerate (st_symbols s)) (enumerate (st_tokens s)).

Lemma stream_events_elem s e :
  e ∈ stream_events s →
  match e with inl (i, r) => st_symbols s !! i = Some r | inr (o, t) => st_tokens s !! o = Some t end.
Proof.
  unfold stream_events. destruct e as [[i r]|[o t]]; intros Hin; apply enumerate_elem.
  - by apply walk_elem_l in Hin.
  - by apply walk_elem_r in Hin.
Qed.

Lemma try_fold_app {S A} (f : S → A → result S) s l k :
  try_fold f s (l ++ k) = (s ← try_fold f s l; try_fold f s k).
Proof. revert s. induction l as [|a l IH]; intros s; [done|]. simpl. destruct (f s a); simpl; auto. Qed.

Lemma insert_seq {A} (f g : nat → A) n p :
  (p < n)%nat → (∀ i, i ≠ p → g i = f i) → <[p := g p]> (f <$> seq 0 n) = g <$> seq 0 n.
Proof.
  intros Hp H. apply list_eq. intros i. destruct (decide (i = p)) as [->|Hi].
  - rewrite list_lookup_insert_eq by (by rewrite length_fmap, length_seq).
    by rewrite list_lookup_fmap, lookup_seq_lt.
  - rewrite list_lookup_insert_ne, !list_lookup_fmap by done.
    destruct (seq 0 n !! i) as [k|] eqn:E; [|done]. apply lookup_seq in E as [-> _]. simpl. by rewrite H.
Qed.

(** Pushing each element of a list to the vector of its parent. *)
Section groups.
Context {A B} (par : A → option Z) (f : A → B).

Definition selected (p : option Z) (l : list A) : list B := f <$> filter (λ a, par a = p) l.
Definition groups (n : nat) (l : list A) : list (list B) :=
  (λ i, selected (Some (Z.of_nat i)) l) <$> seq 0 n.

Lemma selected_snoc p l a :
  selected p (l ++ [a]) = selected p l ++ (if decide (par a = p) then [f a] else []).
Proof. unfold selected. rewrite filter_app, fmap_app. f_equal. rewrite filter_cons. by case_decide. Qed.

Lemma groups_nil n : groups n [] = replicate n [].
Proof.
  apply list_eq. intros i. unfold groups. rewrite list_lookup_fmap. destruct (decide (i < n)%nat).
  - by rewrite lookup_seq_lt, lookup_replicate_2.
  - rewrite lookup_seq_ge by lia. symmetry. apply lookup_replicate_None. lia.
Qed.
Lemma groups_top n l a : par a = None → groups n (l ++ [a]) = groups n l.
Proof.
  intros Ha. apply list_fmap_ext. intros i x _. rewrite selected_snoc, Ha. simpl. by rewrite app_nil_r.
Qed.
Lemma groups_push n l a p :
  par a = Some p → parent_below n (Some p) →
  push_at (groups n l) (Z.to_nat p) (f a) = Ok (groups n (l ++ [a])).
Proof.
  intros Ha Hb. simpl in Hb. unfold push_at, groups. rewrite (index_Ok _ _ (selected (Some p) l)).
  2:{ rewrite list_lookup_fmap, lookup_seq_lt by lia. simpl. by rewrite Z2Nat.id by lia. }
  cbn [mbind outcome_mbind outcome_bind]. f_equal.
  assert (selected (Some p) l ++ [f a] = selected (Some (Z.of_nat (Z.to_nat p))) (l ++ [a])) as ->.
  { rewrite Z2Nat.id by lia. rewrite selected_snoc, Ha. by rewrite decide_True. }
  apply (insert_seq (λ i, selected (Some (Z.of_nat i)) l)
    (λ i, selected (Some (Z.of_nat i)) (l ++ [a]))); [lia|].
  intros i Hi. rewrite selected_snoc, Ha, decide_False, app_nil_r; [done|]. intros [= ->]. lia.
Qed.
End groups.

(** The items with parent [p], in source order. *)
Definition items_under (s : Stream) (p : option Z) : list Item :=
  selected event_parent event_item p (stream_events s).

Definition tree_of (n : nat) (evs : list event) : Tree :=
  mkTree (selected event_parent event_item None evs) (groups event_parent event_item n evs).

Lemma tree_push_of n evs e :
  parent_below n (event_parent e) → tree_push (tree_of n evs) e = Ok (tree_of n (evs ++ [e])).
Proof.
  intros Hb. unfold tree_push.
  replace (match e with inl (i, r) => (ISym i, s_parent r) | inr (i, r) => (ITok i, t_parent r) end)
    with (event_item e, event_parent e) by (by destruct e as [[]|[]]).
  unfold tree_of. cbn [tr_top tr_kids]. rewrite selected_snoc.
  destruct (event_parent e) as [p|] eqn:Ep.
  - rewrite (groups_push event_parent event_item n evs e p) by done.
    rewrite decide_False by done. by rewrite app_nil_r.
  - by rewrite decide_True, groups_top.
Qed.

Lemma tree_fold n evs :
  Forall (λ e, parent_below n (event_parent e)) evs →
  try_fold tree_push (tree_of n []) evs = Ok (tree_of n evs).
Proof.
  induction evs as [|e evs IH] using rev_ind; [done|]. intros [H1 H2]%Forall_app.
  rewrite try_fold_app, IH by done. cbn [try_fold mbind outcome_mbind outcome_bind].
  rewrite tree_push_of; [done|]. by rewrite Forall_singleton in H2.
Qed.

Lemma stream_tree_run s :
  ordered (st_symbols s) →
  Forall (λ t, parent_below (length (st_symbols s)) (t_parent t)) (st_tokens s) →
  stream_tree s = Ok (tree_of (length (st_symbols s)) (stream_events s)).
Proof.
  intros Ho Ht. unfold stream_tree. rewrite <- (groups_nil event_parent event_item).
  apply (tree_fold (length (st_symbols s)) (stream_events s)). apply Forall_forall.
  intros [[i r]|[i t]] Hi%stream_events_elem; cbn.
  - apply parent_below_mono with i; [by apply Ho|]. apply lookup_lt_Some in Hi. lia.
  - rewrite Forall_forall in Ht. apply Ht. by eapply list_elem_of_lookup_2.
Qed.

Lemma sym_kids_map_run syms :
  ordered syms → sym_kids_map syms = Ok ((λ i, idxs_under (Some (Z.of_nat i)) syms) <$> seq 0 (length syms)).
Proof.
  intros Ho. unfold sym_kids_map. set (par := λ ir : nat * SymRec, s_parent ir.2).
  rewrite <- (groups_nil par fst). change (_ <$> seq 0 _) with (groups par fst (length syms) (enumerate syms)).
  assert (Forall (λ ir, parent_below (length syms) (par ir)) (enumerate syms)) as HF.
  { apply Forall_forall. intros [i s] Hi%enumerate_elem. apply parent_below_mono with i; [by apply Ho|].
    apply lookup_lt_Some in Hi. lia. }
  generalize dependent (enumerate syms). intros l. generalize (length syms). clear Ho.
  induction l as [|[i s] l IH] using rev_ind; intros n; [done|]. intros [H1 H2]%Forall_app.
  rewrite Forall_singleton in H2. rewrite try_fold_app, IH by done.
  cbn [try_fold mbind outcome_mbind outcome_bind]. unfold par in H2 |- *. cbn [snd] in *.
  destruct (s_parent s) as [p|] eqn:Ep.
  - pose proof (groups_push (λ ir : nat * SymRec, s_parent ir.2) fst n l (i, s) p Ep H2) as Hp.
    cbn [fst] in Hp. by rewrite Hp.
  - by rewrite groups_top.
Qed.

(** ** Gaps *)

Lemma ords_in_elem a b o : 0 ≤ a → o ∈ ords_in a b ↔ a ≤ Z.of_nat o < b.
Proof.
  intros Ha. unfold ords_in. rewrite list_elem_of_fmap. setoid_rewrite elem_of_seqZ. split.
  - intros (z & -> & Hz). lia.
  - intros Hz. exists (Z.of_nat o). lia.
Qed.
Lemma ords_in_sorted a b : 0 ≤ a → StronglySorted lt (ords_in a b).
Proof.
  intros Ha. unfold ords_in. eapply (StronglySorted_fmap _ (λ x y, 0 ≤ x ∧ x < y)); [lia|].
  remember (Z.to_nat (b - a)) as n eqn:Hn. destruct (decide (b ≤ a)).
  { rewrite seqZ_nil by lia. constructor. }
  replace (b - a) with (Z.of_nat n) by lia. clear - Ha. revert a Ha. induction n as [|n IH]; intros a Ha.
  { constructor. }
  rewrite seqZ_cons by lia. replace (Z.pred (Z.of_nat (S n))) with (Z.of_nat n) by lia.
  constructor; [apply IH; lia|]. apply Forall_forall. intros x Hx%elem_of_seqZ. lia.
Qed.

Definition in_range (o : nat) (r : Z * Z) : Prop := r.1 ≤ Z.of_nat o ≤ r.2.

(** On disjoint ascending ranges the gaps are the ordinals in no range. *)
Lemma gaps_spec last rs : ∀ cur,
  0 ≤ cur → last < 2 ^ 32 - 1 →
  StronglySorted (λ a b : Z * Z, a.2 < b.1) rs → Forall (λ r, cur ≤ r.1 ≤ r.2 ∧ r.2 ≤ last) rs →
  StronglySorted lt (gaps_loop cur last rs) ∧
  ∀ o, o ∈ gaps_loop cur last rs ↔ cur ≤ Z.of_nat o ≤ last ∧ ∀ r, r ∈ rs → ¬ in_range o r.
Proof.
  induction rs as [|[cf cl] rs IH]; intros cur Hc Hl Hs Hr; cbn [gaps_loop].
  { split.
    - case_if; [by apply ords_in_sorted|constructor].
    - intros o. case_if; [rewrite ords_in_elem by done|rewrite elem_of_nil]; set_solver by lia. }
  apply StronglySorted_inv in Hs as [Hs Hlt]. apply Forall_cons in Hr as [[Hcf Hcl] Hr].
  cbn [fst snd] in *. rewrite as_u32_id by mach.
  rewrite Forall_forall in Hlt. rewrite Forall_forall in Hr.
  destruct (IH (cl + 1)) as [Hss Hel]; [lia|done|done|apply Forall_forall|].
  { intros r Hin. specialize (Hlt r Hin). specialize (Hr r Hin). simpl in *. lia. }
  assert (∀ o, o ∈ (if cur <? cf then ords_in cur cf else []) ↔ cur ≤ Z.of_nat o < cf) as Hfst.
  { intros o. case_if; [by apply ords_in_elem|]. rewrite elem_of_nil. lia. }
  split.
  - apply StronglySorted_app_2; [| |done].
    + intros a b Ha%Hfst Hb%Hel. lia.
    + case_if; [by apply ords_in_sorted|constructor].
  - intros o. rewrite elem_of_app, Hfst, Hel. split.
    + intros [Ho|[Ho Hn]]; (split; [lia|]); intros r [->|Hin]%elem_of_cons; unfold in_range; simpl; try lia.
      * specialize (Hlt r Hin). simpl in *. lia.
      * by apply Hn.
    + intros [Ho Hn]. pose proof (Hn (cf, cl) ltac:(by left)) as Hn0. unfold in_range in Hn0. simpl in Hn0.
      destruct (decide (Z.of_nat o < cf)); [by left; lia|right]. split; [lia|].
      intros r Hin. apply Hn. by right.
Qed.

(** ** Tokens directly under a symbol *)

Lemma sorted_omap {A B} (R : A → A → Prop) (R' : B → B → Prop) (f : A → option B) l :
  StronglySorted R l →
  (∀ a b x y, a ∈ l → b ∈ l → R a b → f a = Some x → f b = Some y → R' x y) →
  StronglySorted R' (omap f l).
Proof.
  induction 1 as [|a l Hl IH Ha]; intros H; [constructor|]. cbn.
  assert (StronglySorted R' (omap f l)) as Hs.
  { apply IH. intros x y u v Hx Hy. apply H; by right. }
  destruct (f a) as [x|] eqn:E; [|done]. constructor; [done|]. apply Forall_forall.
  intros y (b & Hb & Ey)%list_elem_of_omap. rewrite Forall_forall in Ha.
  apply (H a b x y); [by left|by right|by apply Ha|done|done].
Qed.

(** The symbols and the tokens right under [p]. *)
Definition syms_under (p : option Z) (syms : list SymRec) : list (nat * SymRec) :=
  filter (λ ir, s_parent ir.2 = p) (enumerate syms).
Definition toks_under (p : option Z) (ts : list TokRec) : list (nat * TokRec) :=
  filter (λ it, t_parent it.2 = p) (enumerate ts).
Lemma syms_under_elem p syms i s : (i, s) ∈ syms_under p syms ↔ syms !! i = Some s ∧ s_parent s = p.
Proof. unfold syms_under. rewrite list_elem_of_filter, enumerate_elem. naive_solver. Qed.
Lemma toks_under_elem p ts i t : (i, t) ∈ toks_under p ts ↔ ts !! i = Some t ∧ t_parent t = p.
Proof. unfold toks_under. rewrite list_elem_of_filter, enumerate_elem. naive_solver. Qed.

Lemma idxs_collect p (syms : list SymRec) :
  collect (λ j, s ← index syms j; Ok (j, s)) (idxs_under p syms) =
  Ok (E:=StoreError) (syms_under p syms).
Proof.
  change (idxs_under p syms) with (syms_under p syms).*1. rewrite collect_fmap, (collect_Ok _ id), list_fmap_id; [done|].
  intros [j s] [Hj _]%syms_under_elem. simpl. by rewrite (index_Ok _ _ _ Hj).
Qed.
Lemma idxs_syms p (syms : list SymRec) :
  collect (index syms) (idxs_under p syms) =
  Ok (E:=StoreError) (syms_under p syms).*2.
Proof.
  change (idxs_under p syms) with (syms_under p syms).*1. rewrite collect_fmap, (collect_Ok _ snd); [done|].
  intros [j s] [Hj _]%syms_under_elem. simpl. by apply index_Ok.
Qed.

Lemma encloses_le syms c q :
  ordered syms → encloses syms c (Some q) → (c ≤ Z.to_nat q)%nat.
Proof.
  intros Ho. remember (Some q) as cur eqn:E. intros H. revert q E.
  induction H as [p Hp _|p s Hs H IH]; intros q [= ->]; [lia|].
  destruct (s_parent s) as [u|] eqn:Eu; [|by inversion H].
  specialize (IH u eq_refl). specialize (Ho _ _ Hs). rewrite Eu in Ho. simpl in Ho. lia.
Qed.
Lemma encloses_trans syms c s i cur :
  syms !! c = Some s → s_parent s = Some (Z.of_nat i) → (i < length syms)%nat →
  encloses syms c cur → encloses syms i cur.
Proof.
  intros Hs Hp Hi. induction 1 as [p Hc _|p s' Hs' H IH].
  - apply (encloses_up _ _ _ s); [by rewrite Hc|]. rewrite Hp.
    apply encloses_here; [by rewrite Nat2Z.id|done].
  - by apply (encloses_up _ _ _ s').
Qed.
(** An item below [i] is right below it, or below one of its children. *)
Lemma encloses_split syms i cur :
  encloses syms i cur → Z.to_nat <$> cur = Some i ∨
  ∃ c s, syms !! c = Some s ∧ Z.to_nat <$> s_parent s = Some i ∧ encloses syms c cur.
Proof.
  induction 1 as [p Hp _|p s Hs H IH]; [left; by rewrite <- Hp|right].
  destruct IH as [Hi|(c & r & Hc & Hr & He)].
  - exists (Z.to_nat p), s. split_and!; [done|done|]. apply encloses_here; [done|].
    by eapply lookup_lt_Some.
  - exists c, r. split_and!; [done|done|]. by apply (encloses_up _ _ _ s).
Qed.
(** An item is at the top, or below a symbol that is. *)
Lemma encloses_top syms n : ∀ q,
  ordered syms → (Z.to_nat q < n)%nat → (Z.to_nat q < length syms)%nat →
  ∃ c s, syms !! c = Some s ∧ s_parent s = None ∧ encloses syms c (Some q).
Proof.
  induction n as [|n IH]; intros q Ho Hn Hq; [lia|].
  destruct (lookup_lt_is_Some_2 syms _ Hq) as [s Hs]. pose proof (Ho _ _ Hs) as Hp.
  destruct (s_parent s) as [u|] eqn:Eu; simpl in Hp.
  - destruct (IH u) as (c & r & Hc & Hr & He); [done|lia|lia|].
    exists c, r. split_and!; [done..|]. apply (encloses_up _ _ _ s); [done|]. by rewrite Eu.
  - exists (Z.to_nat q), s. split_and!; [done..|]. by apply encloses_here.
Qed.

(** ** Stored ranges of a located stream *)
Section ranged.
Context (st : Stream) (L : located st) (Hfit : Z.of_nat (length (st_tokens st)) < 2 ^ 32).
Abbreviation syms := (st_symbols st).
Abbreviation ts := (st_tokens st).
Abbreviation full := (with_ranges st).

Lemma full_lookup i s :
  st_symbols full !! i = Some s →
  ∃ s0, syms !! i = Some s0 ∧ s_parent s = s_parent s0 ∧ s_span s = s_span s0 ∧
    range_of syms ts i (s_toks s) ∧
    ∀ f l, s_toks s = Some (f, l) → ∀ o, f ≤ o ≤ l ↔ under syms ts i o.
Proof.
  unfold with_ranges. cbn [st_symbols]. intros (s0 & r & Hr & Hs0 & Hi)%lookup_zip_with_Some. subst s.
  destruct (compute_ranges syms ts) as [ranges dense] eqn:E. simpl in Hi.
  destruct (compute_ranges_run syms ts ranges dense) as (_ & Hrange & Hdense); [..|done|].
  - apply wf_ordered, L.
  - apply wf_token_parents, L.
  - apply L.
  - specialize (Hrange _ _ Hi). exists s0. split_and!; [done..|]. simpl. intros f l -> o.
    split; [|by apply Hrange]. destruct Hrange as (Hf & Hl & _). by apply (under_interval st L i f l).
Qed.
Lemma full_length : length (st_symbols full) = length syms.
Proof.
  unfold with_ranges. cbn [st_symbols]. rewrite length_zip_with.
  rewrite (proj1 (compute_ranges_ok syms ts)). lia.
Qed.
Lemma full_at i s0 : syms !! i = Some s0 → ∃ s, st_symbols full !! i = Some s.
Proof. intros Hi%lookup_lt_Some. apply lookup_lt_is_Some_2. by rewrite full_length. Qed.
Lemma full_ordered : ordered (st_symbols full).
Proof.
  intros i s Hi. destruct (full_lookup i s Hi) as (s0 & Hs0 & -> & _). by apply (wf_ordered st (lo_wf _ L)).
Qed.
Lemma full_parents : Forall (λ t, parent_below (length (st_symbols full)) (t_parent t)) (st_tokens full).
Proof. rewrite full_length. exact (wf_token_parents st (lo_wf _ L)). Qed.
Lemma under_bound i o : under syms ts i o → 0 ≤ o < Z.of_nat (length ts).
Proof. intros (t & Ho & Ht%lookup_lt_Some & _). lia. Qed.

(** The ranges of the symbols under [p]. *)
Definition child_ranges (p : option Z) : list (Z * Z) :=
  omap s_toks (syms_under p (st_symbols full)).*2.

Lemma child_ranges_elem p f l :
  (f, l) ∈ child_ranges p ↔
  ∃ c s, st_symbols full !! c = Some s ∧ s_parent s = p ∧ s_toks s = Some (f, l).
Proof.
  unfold child_ranges. rewrite list_elem_of_omap. setoid_rewrite list_elem_of_fmap. split.
  - intros (s & ([c s'] & -> & [Hc Hp]%syms_under_elem) & Hl). eauto.
  - intros (c & s & Hc & Hp & Hl). exists s. split; [|done]. exists (c, s). split; [done|].
    by apply syms_under_elem.
Qed.

Lemma child_ranges_sorted p : StronglySorted (λ a b : Z * Z, a.2 < b.1) (child_ranges p).
Proof.
  unfold child_ranges.
  assert (∀ l : list (nat * SymRec), omap s_toks l.*2 = omap (λ ir, s_toks ir.2) l) as ->.
  { induction l as [|x l IH]; [done|]. cbn. cbn in IH. by rewrite IH. }
  eapply sorted_omap; [apply sorted_filter, enumerate_sorted|].
  intros [i a] [j b] [f l] [f' l'] [Hi Ha]%syms_under_elem
    [Hj Hb]%syms_under_elem Hij Hfl Hfl'. cbn in *.
  destruct (full_lookup i a Hi) as (a0 & Ha0 & Hpa & _ & Hra & _). rewrite Hfl in Hra.
  destruct (full_lookup j b Hj) as (b0 & Hb0 & Hpb & _ & Hrb & _). rewrite Hfl' in Hrb.
  apply (siblings_apart st L i j a0 b0); [done..|congruence|apply Hra|apply Hrb].
Qed.

(** The gaps between them, within bounds that hold all there is under [p],
    are the tokens right under [p]. *)
Lemma gaps_direct p first last :
  0 ≤ first → last < Z.of_nat (length ts) →
  (∀ o t, ts !! o = Some t → t_parent t = p → first ≤ Z.of_nat o ≤ last) →
  (∀ c s o, syms !! c = Some s → s_parent s = p → under syms ts c o → first ≤ o ≤ last) →
  (∀ o t, first ≤ Z.of_nat o ≤ last → ts !! o = Some t → t_parent t = p ∨
     ∃ c s, syms !! c = Some s ∧ s_parent s = p ∧ encloses syms c (t_parent t)) →
  range_gaps first last (child_ranges p) =
  (toks_under p ts).*1.
Proof.
  intros Hf Hl Hdir Hkid Hall.
  destruct (gaps_spec last (child_ranges p) first) as [Hs Hel];
    [done|lia|apply child_ranges_sorted|apply Forall_forall|].
  { intros [f l] (c & s & Hc & Hp & Hr)%child_ranges_elem.
    destruct (full_lookup c s Hc) as (s0 & Hs0 & Hps & _ & Hro & _). rewrite Hr in Hro.
    destruct Hro as (Huf & Hul & Hb). cbn.
    pose proof (Hkid c s0 f Hs0 ltac:(congruence) Huf). pose proof (Hkid c s0 l Hs0 ltac:(congruence) Hul).
    specialize (Hb l Hul). lia. }
  apply sorted_eq; [done|apply selected_sorted|].
  intros o. unfold range_gaps. rewrite Hel, list_elem_of_fmap. split.
  - intros [Ho Hn]. destruct (lookup_lt_is_Some_2 ts o) as [t Ht]; [lia|].
    exists (o, t). split; [done|]. apply toks_under_elem. split; [done|].
    destruct (Hall o t Ho Ht) as [|(c & s0 & Hc & Hp & He)]; [done|exfalso].
    destruct (full_at c s0 Hc) as [s Hcs]. destruct (full_lookup c s Hcs) as (s1 & Hs1 & Hps & _ & Hro & Hd).
    simplify_eq.
    assert (under syms ts c (Z.of_nat o)) as Hu by (exists t; rewrite Nat2Z.id; split_and!; [lia|done|done]).
    destruct (s_toks s) as [[f l]|] eqn:Er; [|by apply (Hro _ Hu)].
    apply (Hn (f, l)); [|by apply (Hd f l)]. apply child_ranges_elem. by exists c, s.
  - intros ([o' t] & -> & [Ht Hp]%toks_under_elem). cbn in *. split; [by apply (Hdir o' t)|].
    intros [f l] (c & s & Hc & Hps & Hr)%child_ranges_elem Hin.
    destruct (full_lookup c s Hc) as (s0 & Hs0 & Hp0 & _ & _ & Hd).
    apply (Hd f l Hr) in Hin as (t' & _ & Ht' & He). rewrite Nat2Z.id in Ht'.
    assert (t_parent t' = s_parent s0) as Ep by congruence. rewrite Ep in He. destruct (s_parent s0) as [q|] eqn:Eq; [|by inversion He].
    apply (encloses_le _ _ _ (wf_ordered st (lo_wf _ L))) in He.
    pose proof (wf_ordered st (lo_wf _ L) c s0 Hs0) as Hb. rewrite Eq in Hb. simpl in Hb. lia.
Qed.

Lemma under_direct i o t :
  (i < length syms)%nat → ts !! o = Some t → t_parent t = Some (Z.of_nat i) →
  under syms ts i (Z.of_nat o).
Proof.
  intros Hi Ht Hp. exists t. rewrite Nat2Z.id, Hp. split_and!; [lia|done|].
  apply encloses_here; [by rewrite Nat2Z.id|done].
Qed.

Lemma direct_run i s :
  st_symbols full !! i = Some s →
  direct_token_ordinals (st_symbols full) i (idxs_under (Some (Z.of_nat i)) (st_symbols full)) =
  Ok (toks_under (Some (Z.of_nat i)) ts).*1.
Proof.
  intros Hi. destruct (full_lookup i s Hi) as (s0 & Hs0 & _ & _ & Hr & Hd).
  pose proof (lookup_lt_Some _ _ _ Hs0) as Hlt. unfold direct_token_ordinals. rewrite (index_Ok _ _ _ Hi).
  cbn [mbind outcome_mbind outcome_bind]. destruct (s_toks s) as [[f l]|] eqn:Er.
  2:{ unfold toks_under. rewrite filter_none; [done|]. intros [o t] Ht%enumerate_elem Hp. by apply (Hr (Z.of_nat o)), (under_direct i o t). }
  rewrite idxs_syms. cbn [mbind outcome_mbind outcome_bind]. f_equal.
  destruct Hr as (Huf & Hul & _). pose proof (under_bound i f Huf). pose proof (under_bound i l Hul).
  apply gaps_direct; [lia|lia|..].
  - intros o t Ht Hp. by apply (Hd f l eq_refl), (under_direct i o t).
  - intros c s1 o Hc Hp (t & Ho & Ht & He). apply (Hd f l eq_refl). exists t. split_and!; [done..|].
    by apply (encloses_trans syms c s1).
  - intros o t (t' & _ & Ht' & He)%(Hd f l eq_refl) Ht. rewrite Nat2Z.id in Ht'. assert (t' = t) as -> by congruence.
    assert (∀ n q, parent_below n q → Z.to_nat <$> q = Some i → q = Some (Z.of_nat i)) as Hnat.
    { intros n [q|] Hb [= <-]. simpl in Hb. f_equal. lia. }
    destruct (encloses_split _ _ _ He) as [Hp|(c & s1 & Hc & Hp & Hec)]; [left|right].
    + apply (Hnat (length syms)); [|done].
      by apply (proj1 (Forall_lookup _ _) (wf_token_parents st (lo_wf _ L)) o).
    + exists c, s1. split_and!; [done| |done]. apply (Hnat c); [|done].
      by apply (wf_ordered st (lo_wf _ L)).
Qed.

Lemma top_run :
  top_level_ordinals (st_symbols full) (top_level_idxs (st_symbols full)) (length ts) =
  Ok (toks_under None ts).*1.
Proof.
  unfold top_level_ordinals, top_level_idxs. case_if.
  { destruct ts; [done|]. simpl in *. lia. }
  rewrite idxs_syms, as_u32_id by mach. cbn [mbind outcome_mbind outcome_bind]. f_equal.
  apply gaps_direct; [lia|lia|..].
  - intros o t Ht%lookup_lt_Some _. lia.
  - intros c s o _ _ Hu%under_bound. lia.
  - intros o t _ Ht. destruct (t_parent t) as [q|] eqn:Ep; [right|by left].
    pose proof (proj1 (Forall_lookup _ _) (wf_token_parents st (lo_wf _ L)) o t Ht) as Hb. simpl in Hb.
    rewrite Ep in Hb. simpl in Hb.
    apply (encloses_top syms (S (Z.to_nat q))); [apply wf_ordered, L|lia|lia].
Qed.
End ranged.

(** ** Tokens by ordinal *)

Lemma put_tok_u8 nsym prev t : tok_ok nsym t → Forall u8 (put_tok prev t).
Proof.
  intros (Hterm & Hp & Hsp). unfold put_tok, put_span.
  assert (∀ a b, 0 ≤ diff a b) as Hd by (intros; apply as_u64_range).
  rewrite !Forall_app, Forall_singleton. split_and!; try (by apply put_varint_u8, Hd).
  - apply put_varint_u8. mach.
  - destruct (t_class t); by vm_compute.
  - apply put_varint_u8. destruct (t_parent t); simpl in *; lia.
  - apply put_varint_u8, Hsp.
Qed.
Lemma tok_bytes_u8 nsym prev ts : Forall (tok_ok nsym) ts → Forall u8 (tok_bytes prev ts).
Proof.
  intros H. revert prev. induction H as [|t ts Ht _ IH]; intros prev; simpl; [constructor|].
  apply Forall_app. split; [by eapply put_tok_u8|apply IH].
Qed.

Lemma tokens_at_encoded {S} st (f : visitor S) ords s :
  wf_stream st → ascending 0 (length (st_tokens st)) ords →
  tokens_at_while (lazy_of st) ords f s = Ok (visit_at f (st_tokens st) ords s).
Proof.
  intros Hwf Hasc. destruct (decode_Walk _ _ (lazy_tokens_encode st Hwf)) as [Hn HW].
  apply tokens_at_loop_spec; try done; [|by apply at_record_0].
  replace (lz_toks (lazy_of st)) with (tok_bytes ZERO (st_tokens st)).
  - eapply tok_bytes_u8, Hwf.
  - unfold lazy_of. by destruct (compute_ranges _ _).
Qed.

Lemma ascending_sorted ords lo hi :
  StronglySorted lt ords → Forall (λ o, lo ≤ o < hi)%nat ords → ascending lo hi ords.
Proof.
  intros H. revert lo. induction H as [|o ords Hs IH Ho]; intros lo; simpl; [done|].
  intros [Hlo HF]%Forall_cons. split; [done|]. apply IH.
  rewrite Forall_forall in Ho. rewrite Forall_forall in HF. apply Forall_forall. intros x Hx.
  specialize (Ho x Hx). specialize (HF x Hx). lia.
Qed.

Lemma visit_at_fold {S} (f : nat → TokRec → S → S) ts (l : list (nat * TokRec)) s :
  (∀ o t, (o, t) ∈ l → ts !! o = Some t) →
  visit_at (λ o t s, (true, f o t s)) ts l.*1 s = foldl (λ s it, f it.1 it.2 s) s l.
Proof.
  revert s. induction l as [|[o t] l IH]; intros s H; [done|]. cbn.
  rewrite (H o t) by (by left). apply IH. intros o' t' Hin. apply H. by right.
Qed.

Lemma tokens_at_selected {S} st (f : nat → TokRec → S → S) s (P : nat * TokRec → Prop)
    `{∀ x, Decision (P x)} :
  wf_stream st →
  let l := filter P (enumerate (st_tokens st)) in
  tokens_at (lazy_of st) l.*1 f s = Ok (foldl (λ s it, f it.1 it.2 s) s l).
Proof.
  intros Hwf l. unfold tokens_at. rewrite tokens_at_encoded; [|done|].
  - f_equal. apply visit_at_fold. intros o t [_ Ht%enumerate_elem]%list_elem_of_filter. done.
  - apply ascending_sorted; [apply selected_sorted|]. apply Forall_forall.
    intros o ([o' t] & -> & [_ Ht%enumerate_elem%lookup_lt_Some]%list_elem_of_filter)%list_elem_of_fmap.
    simpl. lia.
Qed.

Lemma fetch_under st p :
  wf_stream st → fetch (lazy_of st) (toks_under p (st_tokens st)).*1 = Ok (toks_under p (st_tokens st)).
Proof.
  intros Hwf.
  assert (∀ ords, fetch (lazy_of st) ords = tokens_at (lazy_of st) ords (λ o t acc, acc ++ [(o, t)]) []) as ->
    by by intros [].
  unfold toks_under. rewrite tokens_at_selected by done. f_equal.
  generalize (filter (λ it : nat * TokRec, t_parent it.2 = p) (enumerate (st_tokens st))). intros l.
  assert (∀ acc, foldl (λ s it, s ++ [(it.1, it.2)]) acc l = acc ++ l) as Hl; [|apply (Hl [])].
  induction l as [|[o t] l IH]; intros acc; [by rewrite app_nil_r|]. cbn. by rewrite IH, <- app_assoc.
Qed.

Lemma enumerate_lookup_sorted {A} (R : A → A → Prop) (l : list A) :
  (∀ i j a b, (i < j)%nat → l !! i = Some a → l !! j = Some b → R a b) →
  StronglySorted (λ x y : nat * A, R x.2 y.2) (enumerate l).
Proof.
  intros H. eapply sorted_impl_in; [apply enumerate_sorted|].
  intros [i a] [j b] Ha%enumerate_elem Hb%enumerate_elem Hij. by apply (H i j).
Qed.

(** ** Children *)
Section children.
Context `{Redb tbl} (r : Db tbl) (file : Z) (st : Stream).
Context (L : located st) (Hfit : Z.of_nat (length (st_tokens st)) < 2 ^ 32).
Context (Hrow : tbl_get (db_streams r) file = Some (encode st)).
Abbreviation full := (with_ranges st).

(** The nodes of the items under [p], in the order of the decoded tree. *)
Definition nodes_under (p : option Z) : result (list Node) :=
  collect (item_node r file full) (items_under full p).

Lemma full_events_filter p :
  walk isym_span itok_span (syms_under p (st_symbols full)) (toks_under p (st_tokens st)) =
  filter (λ e, event_parent e = p) (stream_events full).
Proof.
  unfold syms_under, toks_under. rewrite walk_filter.
  - apply filter_iff_in. by intros [[]|[]].
  - apply (enumerate_lookup_sorted (λ a b, start (s_span a) ≤ start (s_span b))).
    intros i j a b Hij Ha Hb.
    destruct (full_lookup st L i a Ha) as (a0 & Ha0 & _ & -> & _).
    destruct (full_lookup st L j b Hb) as (b0 & Hb0 & _ & -> & _).
    apply (sym_starts st L i j); [lia|done..].
  - apply (enumerate_lookup_sorted (λ a b, start (t_span a) ≤ start (t_span b))).
    intros i j a b Hij Ha Hb. by apply (sorted_lookup _ _ i j a b (lo_toks _ L)).
Qed.

Lemma merged_run p :
  merged_nodes r file (st_symbols full) (idxs_under p (st_symbols full)) (toks_under p (st_tokens st)) =
  nodes_under p.
Proof.
  unfold merged_nodes. rewrite idxs_collect. cbn [mbind outcome_mbind outcome_bind].
  rewrite full_events_filter. unfold nodes_under, items_under, selected. rewrite collect_fmap.
  apply collect_ext. intros [[i s]|[o t]] [_ Hin%stream_events_elem]%list_elem_of_filter; [done|].
  cbn. by rewrite (index_Ok _ _ _ Hin).
Qed.

Lemma stream_run : stream r file = Ok (Some full).
Proof. unfold stream. rewrite Hrow, decode_encode_run by apply L. done. Qed.
Lemma with_lazy_run {T} (f : Lazy → result T) :
  with_lazy r file f = (x ← f (lazy_of st); Ok (Some x)).
Proof. unfold with_lazy. rewrite Hrow, decode_lazy_encode by apply L. done. Qed.
Lemma tree_run :
  stream_tree full = Ok (tree_of (length (st_symbols full)) (stream_events full)).
Proof. apply stream_tree_run; [by apply full_ordered|by apply full_parents]. Qed.

Lemma kids_lookup i :
  (i < length (st_symbols full))%nat →
  index (tr_kids (tree_of (length (st_symbols full)) (stream_events full))) i =
  Ok (E:=StoreError) (items_under full (Some (Z.of_nat i))).
Proof. intros Hi. apply index_Ok. cbn. by rewrite list_lookup_fmap, lookup_seq_lt. Qed.

Lemma fallback_run i :
  children_fallback r file i =
  if (i <? length (st_symbols st))%nat then nodes_under (Some (Z.of_nat i)) else Ok [].
Proof.
  unfold children_fallback. rewrite stream_run. cbn [mbind outcome_mbind outcome_bind].
  rewrite tree_run, full_length. destruct (Nat.ltb_spec i (length (st_symbols st))).
  - rewrite (proj2 (Nat.leb_gt _ _)) by done. cbn [mbind outcome_mbind outcome_bind].
    rewrite <- full_length, kids_lookup by (by rewrite full_length). done.
  - by rewrite (proj2 (Nat.leb_le _ _)) by done.
Qed.

Lemma ranged_run i :
  children_ranged r file i =
  if (i <? length (st_symbols st))%nat
  then (l ← nodes_under (Some (Z.of_nat i)); Ok (Some l)) else Ok None.
Proof.
  unfold children_ranged. rewrite with_lazy_run, located_dense, lazy_symbols_encode by (done || apply L).
  cbn [negb mbind outcome_mbind outcome_bind]. rewrite full_length.
  destruct (Nat.ltb_spec i (length (st_symbols st))) as [Hi|Hi].
  - rewrite (proj2 (Nat.leb_gt _ _)) by done. destruct (lookup_lt_is_Some_2 (st_symbols st) i Hi) as [s0 Hs0].
    destruct (full_at st i s0 Hs0) as [s Hs].
    rewrite as_u32_id by (pose proof (proj1 (lo_wf _ L)); mach).
    rewrite (direct_run st L Hfit i s Hs). cbn [mbind outcome_mbind outcome_bind].
    rewrite fetch_under by apply L. cbn [mbind outcome_mbind outcome_bind]. rewrite merged_run.
    by destruct (nodes_under _).
  - by rewrite (proj2 (Nat.leb_le _ _)) by done.
Qed.

Lemma ranged_file_run :
  children_ranged_file r file = (l ← nodes_under None; Ok (Some l)).
Proof.
  unfold children_ranged_file. rewrite with_lazy_run, located_dense, lazy_symbols_encode by (done || apply L).
  cbn [negb mbind outcome_mbind outcome_bind].
  replace (lz_ntok (lazy_of st)) with (length (st_tokens st)) by (unfold lazy_of; by destruct (compute_ranges _ _)).
  rewrite top_run by done. cbn [mbind outcome_mbind outcome_bind].
  rewrite fetch_under by apply L. cbn [mbind outcome_mbind outcome_bind].
  unfold top_level_idxs. rewrite merged_run. by destruct (nodes_under _).
Qed.
End children.

Lemma top_fallback_run `{Redb tbl} (r : Db tbl) file st :
  located st → tbl_get (db_streams r) file = Some (encode st) →
  top_fallback r file = nodes_under r file st None.
Proof.
  intros L Hrow. unfold top_fallback. rewrite (stream_run r file st L Hrow).
  cbn [mbind outcome_mbind outcome_bind]. by rewrite (tree_run st L).
Qed.

(** C29: Children read from the stored token ranges are exactly the children of
    the decoded tree: on a file whose parents follow the spans, the range-based
    paths of [children] always apply to a symbol and to a file, and give node
    for node (and error for error) what decoding the whole stream and building
    its tree gives. *)
Theorem children_ranged_agree `{Redb tbl} (r : Db tbl) file st :
  located st → Z.of_nat (length (st_tokens st)) < 2 ^ 32 →
  tbl_get (db_streams r) file = Some (encode st) →
  (∀ i, children_ranged r file i =
     if (i <? length (st_symbols st))%nat
     then (l ← children_fallback r file i; Ok (Some l)) else Ok None) ∧
  children_ranged_file r file = (l ← top_fallback r file; Ok (Some l)).
Proof.
  intros L Hfit Hrow. split.
  - intros i. rewrite (ranged_run r file st L Hfit Hrow i), (fallback_run r file st L Hrow i).
    by case_if.
  - by rewrite (ranged_file_run r file st L Hfit Hrow), (top_fallback_run r file st L Hrow).
Qed.

(** ** An example file *)
Module Demo.
#[local] Existing Instance gmap_redb.
#[local] Existing Instance coded_serde.

Definition terms : list str := vp_terms (V2Prep_build demo).
Definition rows : gmap Z (list Z) := list_to_map
  [(7, enc (blank 7 (Some 3) File (lit "a.rs"))); (3, enc (blank 3 (Some 1) Repo (lit "repo")));
   (1, enc (blank 1 None Org (lit "org")))].
Definition store : Db (λ K _ _ V, gmap K V) :=
  mkDb ∅ rows ∅ (list_to_map [((1, 3), ()); ((3, 7), ())]) ∅
    {[0 := encode_dict_block (imap (λ i t, (Z.of_nat i, t)) terms)]}
    {[7 := encode (vp_stream (V2Prep_build demo))]} ∅ ∅ ∅ ∅ ∅ ∅ ∅ ∅ ∅.
Definition names (m : result (list Node)) : result (list str) :=
  outcome_bind (λ l : list Node, Ok (n_name <$> l)) m.

Lemma stream_located : located (vp_stream (V2Prep_build demo)).
Proof. apply build_located; [apply demo_small|apply demo_spans_ok]. Qed.
Lemma store_row : tbl_get (db_streams store) 7 = Some (encode (vp_stream (V2Prep_build demo))).
Proof. done. Qed.
Lemma stream_fits : Z.of_nat (length (st_tokens (vp_stream (V2Prep_build demo)))) < 2 ^ 32.
Proof. by vm_compute. Qed.
End Demo.

#[local] Existing Instance gmap_redb.
Lemma children_ranged_agree_witness :
  children_ranged Demo.store 7 0 = (l ← children_fallback Demo.store 7 0; Ok (Some l)) ∧
  Demo.names (children_fallback Demo.store 7 0) = Ok [lit "struct"; lit "Rect"; lit "get"].
Proof.
  split; [|by vm_compute].
  apply (children_ranged_agree Demo.store 7 (vp_stream (V2Prep_build demo)) Demo.stream_located
    Demo.stream_fits Demo.store_row).
Defined.
