(* ===== verification/Descend.v ===== *)
(** * Descendants

    The depth-first walks of [R] ([graph-store/src/v2.rs]): the stack loop
    visits the preorder of the tree, and the walk over stored token ranges
    visits the same items as the walk over the decoded tree. *)
From S2P Require Import Prelude Text Schema Varint Stream StreamRound StreamSafe Ranges.
From S2P Require Import DictBlock Table DictRev Db Walk Prep Reader Located Navigate.

(** ** The stack loop *)
Section preorder.
Context (n : nat) (kids : nat → result (list Item)).
(** Children are later symbols. *)
Hypothesis Hkids : ∀ j, (j < n)%nat →
  ∃ l, kids j = Ok l ∧ ∀ k, ISym k ∈ l → (j < k < n)%nat.

Lemma preorder_depth d : ∀ d' it,
  (∀ j, it = ISym j → (j < n ∧ n - j ≤ d ∧ n - j ≤ d')%nat) →
  preorder d kids it = preorder d' kids it.
Proof.
  induction d as [|d IH]; intros d' [j|o] H; try (by destruct d').
  - destruct (H j eq_refl). lia.
  - destruct (H j eq_refl) as (Hj & Hd & Hd'). destruct d' as [|d']; [lia|]. simpl.
    destruct (Hkids j Hj) as (l & -> & Hl). f_equal.
    assert (∀ k, k ⊆ l → (k ≫= preorder d kids) = (k ≫= preorder d' kids)) as Hk; [|by apply Hk].
    induction k as [|x k IHk]; intros Hsub; [done|]. cbn.
    rewrite IHk by set_solver. f_equal. apply IH. intros q ->. specialize (Hl q ltac:(set_solver)). lia.
Qed.

Lemma preorder_sym j l :
  (j < n)%nat → kids j = Ok l → preorder n kids (ISym j) = ISym j :: (l ≫= preorder n kids).
Proof.
  intros Hj Hl. transitivity (preorder (S n) kids (ISym j)).
  - apply preorder_depth. intros ? [= ->]. lia.
  - cbn [preorder]. by rewrite Hl.
Qed.

(** Enough fuel: the loop is the list of nodes of the preorder. *)
Lemma descend_preorder node_of fuel : ∀ stack,
  (∀ j, ISym j ∈ stack → (j < n)%nat) →
  (length (stack ≫= preorder n kids) < fuel)%nat →
  descend fuel kids node_of stack = collect node_of (stack ≫= preorder n kids).
Proof.
  induction fuel as [|fuel IH]; intros [|it stack] Hs Hf; [lia|lia|done|]. cbn [descend].
  assert (∃ below, match it with ISym j => kids j | ITok _ => Ok [] end = Ok below ∧
    preorder n kids it = it :: (below ≫= preorder n kids) ∧ ∀ j, ISym j ∈ below → (j < n)%nat)
    as (below & -> & Hpre & Hb).
  { destruct it as [j|o].
    - specialize (Hs j ltac:(by left)). destruct (Hkids j Hs) as (l & Hl & Hlt). exists l.
      split_and!; [done|by apply preorder_sym|]. intros k Hk. by apply Hlt.
    - exists []. split_and!; [done|by destruct n|]. intros j Hj. by apply elem_of_nil in Hj. }
  change ((it :: stack) ≫= preorder n kids) with (preorder n kids it ++ (stack ≫= preorder n kids)) in *.
  rewrite Hpre in *. cbn [app collect] in *. rewrite <- bind_app in *.
  destruct (node_of it); cbn; [|done..]. rewrite IH; [done| |simpl in Hf; lia].
  intros j [Hj|Hj]%elem_of_app; [by apply Hb|]. apply Hs. by right.
Qed.

Lemma descend_all_preorder node_of stack :
  (∀ j, ISym j ∈ stack → (j < n)%nat) →
  descend_all n kids node_of stack = collect node_of (stack ≫= preorder n kids).
Proof. intros Hs. apply descend_preorder; [done|lia]. Qed.
End preorder.

(** The loop looks only at the items it reaches. *)
Section reached.
Context (P : Item → Prop) (k1 k2 : nat → result (list Item)).
Hypothesis Hk : ∀ j, P (ISym j) → k1 j = k2 j.
Hypothesis HP : ∀ j l it, P (ISym j) → k1 j = Ok l → it ∈ l → P it.

Lemma bind_ext_in {A B} (f g : A → list B) l : (∀ x, x ∈ l → f x = g x) → l ≫= f = l ≫= g.
Proof.
  induction l as [|x l IH]; intros H; [done|]. cbn. rewrite H by (by left).
  rewrite IH; [done|]. intros y Hy. apply H. by right.
Qed.

Lemma preorder_ext d : ∀ it, P it → preorder d k1 it = preorder d k2 it.
Proof.
  induction d as [|d IH]; intros [j|o] Hit; [done..| |done]. simpl. rewrite <- Hk by done.
  destruct (k1 j) as [l| |] eqn:E; [|done..]. f_equal. apply bind_ext_in. intros x Hx.
  apply IH. by apply (HP j l).
Qed.

Lemma descend_ext node1 node2 fuel : ∀ stack,
  (∀ it, P it → node1 it = node2 it) → Forall P stack →
  descend fuel k1 node1 stack = descend fuel k2 node2 stack.
Proof.
  induction fuel as [|fuel IH]; intros [|it stack] Hn Hs; [done..|]. apply Forall_cons in Hs as [Hit Hs].
  cbn [descend]. rewrite Hn by done. destruct (node2 it); [|done..].
  cbn [mbind outcome_mbind outcome_bind]. destruct it as [j|o].
  - rewrite <- Hk by done. destruct (k1 j) as [l| |] eqn:E; [|done..].
    cbn [mbind outcome_mbind outcome_bind]. rewrite IH; [done|done|]. apply Forall_app. split; [|done].
    apply Forall_forall. intros x Hx. by apply (HP j l).
  - cbn [mbind outcome_mbind outcome_bind]. by rewrite IH.
Qed.

Lemma descend_all_ext node1 node2 d stack :
  (∀ it, P it → node1 it = node2 it) → Forall P stack →
  descend_all d k1 node1 stack = descend_all d k2 node2 stack.
Proof.
  intros Hn Hs. unfold descend_all. rewrite (bind_ext_in _ (preorder d k2)); [by apply descend_ext|].
  intros x Hx. apply preorder_ext. rewrite Forall_forall in Hs. by apply Hs.
Qed.
End reached.

(** ** The merge of a symbol's children *)
Lemma merge_cons syms tok_map k kids o ords :
  merge_children syms tok_map (k :: kids) (o :: ords) =
  (s ← index syms k;
   t ← unwrap (tok_map !! o);
   if start (s_span s) <=? start (t_span t)
   then rest ← merge_children syms tok_map kids (o :: ords); Ok (ISym k :: rest)
   else rest ← merge_children syms tok_map (k :: kids) ords; Ok (ITok o :: rest)).
Proof. done. Qed.

Lemma merge_walk syms tok_map ss : ∀ tt,
  (∀ k s, (k, s) ∈ ss → syms !! k = Some s) → (∀ o t, (o, t) ∈ tt → tok_map !! o = Some t) →
  merge_children syms tok_map ss.*1 tt.*1 = Ok (event_item <$> walk isym_span itok_span ss tt).
Proof.
  induction ss as [|[k s] ss IHs]; intros tt Hs Ht.
  { rewrite walk_nil_l. clear Ht. induction tt as [|[o t] tt IH]; [done|]. cbn in *. by rewrite IH. }
  induction tt as [|[o t] tt IHt].
  { rewrite walk_nil_r. specialize (IHs [] ltac:(set_solver) ltac:(set_solver)).
    rewrite walk_nil_r in IHs. cbn in *. by rewrite IHs. }
  rewrite walk_cons, !fmap_cons. cbn [fst]. rewrite merge_cons.
  rewrite (index_Ok _ _ s) by (apply Hs; by left). rewrite (Ht o t) by (by left).
  cbn [unwrap mbind outcome_mbind outcome_bind]. unfold isym_span at 1, itok_span at 1. cbn [snd].
  case_if.
  - specialize (IHs ((o, t) :: tt) ltac:(set_solver) Ht). rewrite fmap_cons in IHs. cbn [fst] in IHs.
    by rewrite IHs.
  - specialize (IHt ltac:(set_solver)). rewrite fmap_cons in IHt. cbn [fst] in IHt. by rewrite IHt.
Qed.

Section descendants.
Context `{Redb tbl} (r : Db tbl) (file : Z) (st : Stream).
Context (L : located st) (Hfit : Z.of_nat (length (st_tokens st)) < 2 ^ 32).
Context (Hrow : tbl_get (db_streams r) file = Some (encode st)).
Abbreviation syms := (st_symbols st).
Abbreviation ts := (st_tokens st).
Abbreviation full := (with_ranges st).
Abbreviation nsym := (length (st_symbols full)).

Definition tree_kids : nat → result (list Item) :=
  index (tr_kids (tree_of nsym (stream_events full))).
(** Everything below [p], depth first. *)
Definition below (p : option Z) : list Item := items_under full p ≫= preorder nsym tree_kids.

Lemma items_under_elem p it :
  it ∈ items_under full p →
  match it with
  | ISym k => ∃ s, st_symbols full !! k = Some s ∧ s_parent s = p
  | ITok o => ∃ t, ts !! o = Some t ∧ t_parent t = p
  end.
Proof.
  unfold items_under, selected.
  intros (e & -> & [Hp Hin%stream_events_elem]%list_elem_of_filter)%list_elem_of_fmap.
  destruct e as [[k s]|[o t]]; cbn in *; eauto.
Qed.

Lemma kids_later j k : ISym k ∈ items_under full (Some (Z.of_nat j)) → (j < k < nsym)%nat.
Proof.
  intros (s & Hk & Hp)%items_under_elem. pose proof (full_ordered st L k s Hk) as Hb.
  rewrite Hp in Hb. simpl in Hb. apply lookup_lt_Some in Hk. lia.
Qed.
Lemma tree_kids_Ok j : (j < nsym)%nat →
  ∃ l, tree_kids j = Ok l ∧ ∀ k, ISym k ∈ l → (j < k < nsym)%nat.
Proof.
  intros Hj. exists (items_under full (Some (Z.of_nat j))). split; [by apply kids_lookup|apply kids_later].
Qed.
Lemma items_under_bound p j : ISym j ∈ items_under full p → (j < nsym)%nat.
Proof. intros (s & Hj & _)%items_under_elem. by eapply lookup_lt_Some. Qed.

Lemma file_walk_run from :
  file_walk r file from =
  if match from with Some i => (nsym <=? i)%nat | None => false end then Ok []
  else collect (item_node r file full) (below (Z.of_nat <$> from)).
Proof.
  unfold file_walk. rewrite (stream_run r file st L Hrow). cbn [mbind outcome_mbind outcome_bind].
  rewrite (tree_run st L). cbn [mbind outcome_mbind outcome_bind].
  destruct from as [i|].
  - case_if; [done|]. rewrite kids_lookup by lia. cbn [mbind outcome_mbind outcome_bind].
    apply (descend_all_preorder nsym tree_kids tree_kids_Ok). apply items_under_bound.
  - apply (descend_all_preorder nsym tree_kids tree_kids_Ok). apply items_under_bound.
Qed.

(** Item [it] lies below symbol [i]. *)
Definition inside (i : nat) (it : Item) : Prop :=
  match it with
  | ISym j => ∃ s, syms !! j = Some s ∧ encloses syms i (s_parent s)
  | ITok o => under syms ts i (Z.of_nat o)
  end.
Definition within (i j : nat) : Prop := j = i ∨ inside i (ISym j).

Lemma inside_items i j it :
  (i < nsym)%nat → within i j → it ∈ items_under full (Some (Z.of_nat j)) → inside i it.
Proof.
  rewrite full_length. intros Hi Hw Hin%items_under_elem.
  assert (encloses syms i (Some (Z.of_nat j))) as He.
  { destruct Hw as [->|(s & Hs & He)].
    - apply encloses_here; [by rewrite Nat2Z.id|done].
    - apply (encloses_up _ _ _ s); [by rewrite Nat2Z.id|done]. }
  destruct it as [k|o].
  - destruct Hin as (s & Hk & Hp). destruct (full_lookup st L k s Hk) as (s0 & Hs0 & Hp0 & _).
    exists s0. split; [done|]. by rewrite <- Hp0, Hp.
  - destruct Hin as (t & Ht & Hp). exists t. rewrite Nat2Z.id, Hp. split_and!; [lia|done..].
Qed.

Lemma ords_in_selected f l :
  0 ≤ f → l < Z.of_nat (length ts) →
  ords_in f (l + 1) = (filter (λ it : nat * TokRec, f ≤ Z.of_nat it.1 ≤ l) (enumerate ts)).*1.
Proof.
  intros Hf Hl. apply sorted_eq; [by apply ords_in_sorted|apply selected_sorted|].
  intros o. rewrite ords_in_elem by done. rewrite list_elem_of_fmap. split.
  - intros Ho. destruct (lookup_lt_is_Some_2 ts o) as [t Ht]; [lia|].
    exists (o, t). split; [done|]. apply list_elem_of_filter. split; [cbn; lia|]. by apply enumerate_elem.
  - intros ([o' t] & -> & [Ho _]%list_elem_of_filter). cbn in *. lia.
Qed.

(** The map of tokens the walk fetches holds all tokens below the symbol. *)
Lemma foldl_insert_lookup (l : list (nat * TokRec)) (m : gmap nat TokRec) o t :
  (o, t) ∈ l → (∀ t', (o, t') ∈ l → t' = t) →
  foldl (λ m it, <[it.1 := it.2]> m) m l !! o = Some t.
Proof.
  induction l as [|[o' t'] l IH] using rev_ind; [by intros ?%elem_of_nil|].
  rewrite foldl_snoc. cbn [fst snd]. intros Hin Hu. destruct (decide (o' = o)) as [->|Hne].
  - rewrite lookup_insert_eq. f_equal. apply Hu. set_solver.
  - rewrite lookup_insert_ne by done. apply IH; [set_solver|]. intros t'' Ht''. apply Hu. set_solver.
Qed.

Definition fetched (i : nat) (m : gmap nat TokRec) : Prop :=
  ∀ o t, under syms ts i (Z.of_nat o) → ts !! o = Some t → m !! o = Some t.

Lemma fetch_all i s :
  st_symbols full !! i = Some s →
  ∃ m, fetched i m ∧
    match s_toks s with
    | Some (first, last) =>
        tokens_at (lazy_of st) (ords_in first (last + 1)) (λ o t (m : gmap nat TokRec), <[o := t]> m) ∅
    | None => Ok ∅
    end = Ok m.
Proof.
  intros Hi. destruct (full_lookup st L i s Hi) as (s0 & Hs0 & _ & _ & Hr & Hd).
  destruct (s_toks s) as [[f l]|] eqn:E.
  2:{ exists ∅. split; [|done]. intros o t Hu _. by destruct (Hr _ Hu). }
  destruct Hr as (Huf & Hul & _). pose proof (under_bound st i f Huf). pose proof (under_bound st i l Hul).
  rewrite ords_in_selected, tokens_at_selected by (lia || apply L). eexists. split; [|done].
  intros o t Hu Ht. apply foldl_insert_lookup.
  - apply list_elem_of_filter. split; [by apply (Hd f l eq_refl)|by apply enumerate_elem].
  - intros t' [_ Ht'%enumerate_elem]%list_elem_of_filter. congruence.
Qed.

Definition kids_map : list (list nat) :=
  (λ i, idxs_under (Some (Z.of_nat i)) (st_symbols full)) <$> seq 0 nsym.

Lemma within_bound i j : (i < nsym)%nat → within i j → (j < nsym)%nat.
Proof. intros Hi [->|(s & Hs & _)]; [done|]. rewrite full_length. by eapply lookup_lt_Some. Qed.

Lemma item_children_run i j m :
  (i < nsym)%nat → fetched i m → within i j →
  item_children (st_symbols full) kids_map m j = Ok (items_under full (Some (Z.of_nat j))).
Proof.
  intros Hi Hm Hw. pose proof (within_bound i j Hi Hw) as Hj. unfold item_children, kids_map.
  rewrite (index_Ok _ _ (idxs_under (Some (Z.of_nat j)) (st_symbols full)))
    by (by rewrite list_lookup_fmap, lookup_seq_lt). cbn [mbind outcome_mbind outcome_bind].
  destruct (lookup_lt_is_Some_2 _ _ Hj) as [sj Hsj].
  rewrite (direct_run st L Hfit j sj Hsj). cbn [mbind outcome_mbind outcome_bind].
  change (idxs_under ?p ?l) with (syms_under p l).*1. rewrite merge_walk, (full_events_filter st L); [done|..].
  - intros k sk Hk. by apply syms_under_elem in Hk as [? _].
  - intros o t [Ht Hp]%toks_under_elem. apply Hm; [|done].
    apply (inside_items i j (ITok o) Hi Hw). unfold items_under, selected. apply list_elem_of_fmap.
    exists (inr (o, t)). split; [done|]. apply list_elem_of_filter. split; [done|].
    unfold stream_events. apply (walk_elem_r isym_span itok_span). by apply enumerate_elem.
Qed.

Lemma ranged_one_run i :
  (i < nsym)%nat →
  descendants_ranged_one r (lazy_of st) (st_symbols full) kids_map file i =
  collect (item_node r file full) (below (Some (Z.of_nat i))).
Proof.
  intros Hi. destruct (lookup_lt_is_Some_2 _ _ Hi) as [s Hs]. unfold descendants_ranged_one.
  rewrite (index_Ok _ _ _ Hs). cbn [mbind outcome_mbind outcome_bind].
  destruct (fetch_all i s Hs) as (m & Hm & ->). cbn [mbind outcome_mbind outcome_bind].
  rewrite (item_children_run i i m) by (done || by left). cbn [mbind outcome_mbind outcome_bind].
  rewrite (descend_all_ext (inside i) _ tree_kids) with (node2 := item_node r file full).
  - apply (descend_all_preorder nsym tree_kids tree_kids_Ok). apply items_under_bound.
  - intros j Hj. rewrite (item_children_run i j m) by (done || by right). symmetry.
    apply kids_lookup, (within_bound i); [done|by right].
  - intros j l it Hj. rewrite (item_children_run i j m) by (done || by right).
    intros [= <-]. apply inside_items; [done|by right].
  - intros [j|o] Hit; [done|]. cbn. destruct Hit as (t & Ho & Ht & He). rewrite Nat2Z.id in Ht.
    rewrite (Hm o t); [|exists t; rewrite Nat2Z.id; by split_and!|done]. by rewrite (index_Ok _ _ _ Ht).
  - apply Forall_forall. intros it Hit. apply (inside_items i i); [done|by left|done].
Qed.

(** ** The walk from the file *)

Lemma sym_node_shape i ss n :
  sym_node r file i ss = Ok n → n_kind n = Symbol ∧ n_id n = sub_id TAG_SYM file (Z.of_nat i).
Proof. unfold sym_node. intros Hn. inv_ok. done. Qed.
Lemma tok_node_shape o t n :
  tok_node r file o t = Ok n → n_kind n = Token ∧ n_id n = sub_id TAG_TOK file (Z.of_nat o).
Proof. unfold tok_node. intros Hn. inv_ok. done. Qed.

Lemma sym_index i :
  0 ≤ file ≤ MAX_LOCAL → (i < nsym)%nat →
  Z.to_nat (split_id (sub_id TAG_SYM file (Z.of_nat i))).2 = i.
Proof.
  intros Hf Hi. rewrite full_length in Hi. pose proof (proj1 (lo_wf _ L)).
  destruct (sub_id_run TAG_SYM file (Z.of_nat i)) as [_ ->]; [done|done|mach|]. cbn. lia.
Qed.

Lemma option_map_both {A} (m : result (option A)) (c : result A) (f : A → A) l :
  (∀ rest, m = Ok (Some rest) ↔ c = Ok rest) →
  (rest ← m; Ok (option_map f rest)) = Ok (Some l) ↔ (rest ← c; Ok (f rest)) = Ok l.
Proof.
  intros Hmc. split.
  - intros ([rest|] & Hm & [= <-])%bind_Ok. apply Hmc in Hm. by rewrite Hm.
  - intros (rest & Hc & [= <-])%bind_Ok. apply Hmc in Hc. by rewrite Hc.
Qed.

(** The top-level nodes each followed by what is below them. *)
Lemma ranged_file_loop_run (items : list Item) top l :
  0 ≤ file ≤ MAX_LOCAL →
  (∀ j, ISym j ∈ items → (j < nsym)%nat) → collect (item_node r file full) items = Ok top →
  ranged_file_loop r (lazy_of st) (st_symbols full) kids_map file top = Ok (Some l) ↔
  collect (item_node r file full) (items ≫= preorder nsym tree_kids) = Ok l.
Proof.
  intros Hf. revert top l. induction items as [|it items IH]; intros top l Hb; cbn [collect].
  { intros [= <-]. cbn. split; congruence. }
  intros (n & Hn & H')%bind_Ok. apply bind_Ok in H' as (top' & Htop & [= <-]).
  assert (∀ rest, ranged_file_loop r (lazy_of st) (st_symbols full) kids_map file top' = Ok (Some rest) ↔
    collect (item_node r file full) (items ≫= preorder nsym tree_kids) = Ok rest) as IH'.
  { intros rest. apply IH; [|done]. intros k Hk'. apply Hb. by right. }
  clear IH. cbn [ranged_file_loop].
  change ((it :: items) ≫= preorder nsym tree_kids)
    with (preorder nsym tree_kids it ++ (items ≫= preorder nsym tree_kids)).
  rewrite collect_app. destruct it as [j|o].
  - destruct (sym_node_shape _ _ _ Hn) as [Hk Hid]. specialize (Hb j ltac:(by left)) as Hj.
    rewrite decide_True by done. rewrite Hid, sym_index by done. rewrite (proj2 (Nat.leb_gt _ _)) by done.
    rewrite (ranged_one_run j Hj), (preorder_sym nsym tree_kids tree_kids_Ok j _ Hj (kids_lookup st j Hj)).
    change (items_under full _ ≫= _) with (below (Some (Z.of_nat j))). cbn [collect]. rewrite Hn.
    destruct (collect _ (below _)) as [sub| |]; cbn; [|done..]. by apply option_map_both.
  - cbn [item_node] in Hn. apply bind_Ok in Hn as (t & Ht & Hn).
    destruct (tok_node_shape _ _ _ Hn) as [Hk Hid]. rewrite decide_False by congruence.
    replace (preorder nsym tree_kids (ITok o)) with [ITok o] by (by destruct nsym).
    cbn [collect item_node]. rewrite Ht. cbn [mbind outcome_mbind outcome_bind]. rewrite Hn. cbn.
    by apply option_map_both.
Qed.

Lemma ranged_descendants_run i :
  descendants_ranged r file i =
  if (i <? nsym)%nat then (l ← file_walk r file (Some i); Ok (Some l)) else Ok None.
Proof.
  unfold descendants_ranged. rewrite (with_lazy_run r file st L Hrow), (located_dense st L), lazy_symbols_encode by apply L.
  cbn [negb mbind outcome_mbind outcome_bind]. rewrite file_walk_run.
  destruct (Nat.ltb_spec i nsym) as [Hi|Hi].
  - rewrite (proj2 (Nat.leb_gt _ _)) by done. rewrite sym_kids_map_run by (by apply full_ordered).
    cbn [mbind outcome_mbind outcome_bind]. change (_ <$> seq 0 _) with kids_map.
    rewrite (ranged_one_run i Hi). cbn [fmap option_fmap option_map]. by destruct (collect _ _).
  - by rewrite (proj2 (Nat.leb_le _ _)) by done.
Qed.

Lemma below_top p it : it ∈ items_under full p → it ∈ below p.
Proof.
  intros Hit. unfold below. apply list_elem_of_bind. exists it. split; [|done].
  destruct nsym, it; by left.
Qed.

Lemma ranged_file_descendants_run l :
  0 ≤ file ≤ MAX_LOCAL →
  descendants_ranged_file r file = Ok (Some l) ↔ file_walk r file None = Ok l.
Proof.
  intros Hf. rewrite file_walk_run. unfold descendants_ranged_file.
  rewrite (ranged_file_run r file st L Hfit Hrow). cbn [fmap option_fmap option_map].
  pose proof (ranged_file_loop_run (items_under full None)) as Hloop.
  unfold nodes_under. destruct (collect (item_node r file full) (items_under full None)) as [top|e|] eqn:E.
  - cbn [mbind outcome_mbind outcome_bind].
    rewrite (with_lazy_run r file st L Hrow), (located_dense st L), lazy_symbols_encode by apply L.
    cbn [negb mbind outcome_mbind outcome_bind]. rewrite sym_kids_map_run by (by apply full_ordered).
    cbn [mbind outcome_mbind outcome_bind]. change (_ <$> seq 0 _) with kids_map.
    rewrite <- (Hloop top l Hf (items_under_bound None) eq_refl).
    destruct (ranged_file_loop _ _ _ _ _ _) as [[]| |]; cbn; split; congruence.
  - cbn. split; [done|]. intros [top Hc]%(collect_sub _ (items_under full None)); [congruence|apply below_top].
  - cbn. split; [done|]. intros [top Hc]%(collect_sub _ (items_under full None)); [congruence|apply below_top].
Qed.

(** ** What lies below *)

Lemma encloses_linear j k cur :
  encloses syms j cur → encloses syms k cur → (j < k)%nat →
  ∃ s, syms !! k = Some s ∧ encloses syms j (s_parent s).
Proof.
  intros Hj Hk Hlt. revert Hj. induction Hk as [p Hp Hk|p s Hs Hk IH]; intros Hj.
  - inversion Hj as [? Hp'|? s Hs Hj']; subst; [lia|eauto].
  - inversion Hj as [? Hp'|? s' Hs' Hj']; subst; [|apply IH; congruence].
    pose proof (wf_ordered st (lo_wf _ L) _ _ Hs) as Hb.
    destruct (s_parent s) as [q|]; [|by inversion Hk].
    apply (encloses_le _ _ _ (wf_ordered st (lo_wf _ L))) in Hk. simpl in Hb. lia.
Qed.

Lemma not_own_parent j s : syms !! j = Some s → ¬ encloses syms j (s_parent s).
Proof.
  intros Hs He. pose proof (wf_ordered st (lo_wf _ L) j s Hs) as Hb.
  destruct (s_parent s) as [q|]; [|by inversion He].
  apply (encloses_le _ _ _ (wf_ordered st (lo_wf _ L))) in He. simpl in Hb. lia.
Qed.

Definition item_parent (it : Item) : option (option Z) :=
  match it with ISym k => s_parent <$> syms !! k | ITok o => t_parent <$> ts !! o end.

Lemma inside_parent i it : inside i it ↔ ∃ cur, item_parent it = Some cur ∧ encloses syms i cur.
Proof.
  destruct it as [k|o]; cbn.
  - split.
    + intros (s & -> & He). cbn. eauto.
    + intros (cur & (s & Hs & ->)%fmap_Some & He). eauto.
  - unfold under. rewrite Nat2Z.id. split.
    + intros (t & _ & -> & He). cbn. eauto.
    + intros (cur & (t & Ht & ->)%fmap_Some & He). exists t. split_and!; [lia|done..].
Qed.

Lemma items_under_spec p it : it ∈ items_under full p ↔ item_parent it = Some p.
Proof.
  split.
  - intros Hit%items_under_elem. destruct it as [k|o]; cbn.
    + destruct Hit as (s & Hk & <-). destruct (full_lookup st L k s Hk) as (s0 & -> & -> & _). done.
    + destruct Hit as (t & -> & <-). done.
  - intros Hp. unfold items_under, selected. apply list_elem_of_fmap.
    destruct it as [k|o]; cbn in Hp; apply fmap_Some in Hp as (x & Hx & ->).
    + destruct (full_at st k x Hx) as [s Hs]. destruct (full_lookup st L k s Hs) as (s0 & Hs0 & Hp & _).
      exists (inl (k, s)). split; [done|]. apply list_elem_of_filter. split; [cbn; congruence|].
      unfold stream_events. apply (walk_elem_l isym_span itok_span). by apply enumerate_elem.
    + exists (inr (o, x)). split; [done|]. apply list_elem_of_filter. split; [done|].
      unfold stream_events. apply (walk_elem_r isym_span itok_span). by apply enumerate_elem.
Qed.

(** Below [j] is a child of [j] or below one. *)
Lemma inside_step j it :
  (j < nsym)%nat →
  inside j it ↔ ∃ x, x ∈ items_under full (Some (Z.of_nat j)) ∧
    (it = x ∨ ∃ k, x = ISym k ∧ inside k it).
Proof.
  intros Hj. rewrite full_length in Hj. split.
  - intros (cur & Hcur & He)%inside_parent.
    assert (∀ x q, item_parent x = Some q → Z.to_nat <$> q = Some j → q = Some (Z.of_nat j)) as Hnat.
    { intros x [q|] Hx [= <-]. f_equal. destruct x as [k|o]; cbn in Hx; apply fmap_Some in Hx as (y & Hy & Hq).
      - pose proof (wf_ordered st (lo_wf _ L) k y Hy) as Hb. rewrite <- Hq in Hb. simpl in Hb. lia.
      - pose proof (proj1 (Forall_lookup _ _) (wf_token_parents st (lo_wf _ L)) o y Hy) as Hb. simpl in Hb.
        rewrite <- Hq in Hb. simpl in Hb. lia. }
    destruct (encloses_split _ _ _ He) as [Hq|(c & s & Hc & Hq & Hec)].
    + exists it. split; [|by left]. apply items_under_spec. rewrite Hcur. f_equal. by apply (Hnat it).
    + exists (ISym c). split.
      * apply items_under_spec. cbn. rewrite Hc. cbn. f_equal. apply (Hnat (ISym c)); [|done]. cbn. by rewrite Hc.
      * right. exists c. split; [done|]. apply inside_parent. eauto.
  - intros (x & Hx%items_under_spec & [->|(k & -> & Hk)]).
    + apply inside_parent. exists (Some (Z.of_nat j)). split; [done|].
      apply encloses_here; [by rewrite Nat2Z.id|done].
    + cbn in Hx. apply fmap_Some in Hx as (s & Hs & Hp). apply inside_parent in Hk as (cur & Hcur & He).
      apply inside_parent. exists cur. split; [done|]. by apply (encloses_trans syms k s).
Qed.

Lemma preorder_elem m : ∀ x it, (∀ j, x = ISym j → (j < nsym ∧ nsym - j < m)%nat) →
  it ∈ preorder nsym tree_kids x ↔ it = x ∨ ∃ j, x = ISym j ∧ inside j it.
Proof.
  induction m as [|m IH]; intros [j|o] it Hm.
  1: destruct (Hm j eq_refl); lia.
  2: destruct (Hm j eq_refl) as [Hj Hd].
  1, 3: destruct nsym; cbn; rewrite list_elem_of_singleton; naive_solver.
  rewrite (preorder_sym nsym tree_kids tree_kids_Ok j _ Hj (kids_lookup st j Hj)).
  rewrite elem_of_cons, list_elem_of_bind. split.
  - intros [->|(x & Hit & Hx)]; [by left|right]. exists j. split; [done|]. apply inside_step; [done|].
    exists x. split; [done|]. apply IH; [|done]. intros k ->. apply kids_later in Hx. lia.
  - intros [->|(? & [= <-] & Hin)]; [by left|right].
    apply inside_step in Hin as (x & Hx & Hit); [|done]. exists x. split; [|done]. apply IH; [|done]. intros k ->. apply kids_later in Hx. lia.
Qed.

Lemma item_elem x it :
  (∀ j, x = ISym j → (j < nsym)%nat) →
  it ∈ preorder nsym tree_kids x ↔ it = x ∨ ∃ j, x = ISym j ∧ inside j it.
Proof. intros Hx. apply (preorder_elem (S nsym)). intros j ->. specialize (Hx j eq_refl). lia. Qed.

(** Two items with one parent have nothing below them in common. *)
Lemma siblings_disjoint p x y it :
  x ∈ items_under full p → y ∈ items_under full p →
  it ∈ preorder nsym tree_kids x → it ∈ preorder nsym tree_kids y → x = y.
Proof.
  intros Hx Hy. assert (∀ x j, x ∈ items_under full p → x = ISym j → (j < nsym)%nat) as Hb.
  { intros ? j Hin ->. by eapply items_under_bound. }
  rewrite !item_elem by eauto. apply items_under_spec in Hx, Hy.
  assert (∀ z w cur, item_parent z = Some p → item_parent w = Some p →
    (∃ j, z = ISym j ∧ encloses syms j cur) → (∃ k, w = ISym k ∧ encloses syms k cur) →
    (∀ j k, z = ISym j → w = ISym k → (j < k)%nat → False)) as Hno.
  { intros ? ? cur Hz Hw (j & -> & Hj) (k & -> & Hk) ? ? [= <-] [= <-] Hlt.
    destruct (encloses_linear j k cur Hj Hk Hlt) as (s & Hs & He). cbn in Hz, Hw. rewrite Hs in Hw.
    injection Hw as Hw. rewrite Hw in He. apply fmap_Some in Hz as (s' & Hs' & Hz).
    apply (not_own_parent j s' Hs'). by rewrite <- Hz. }
  intros [->|(j & -> & Hj)] [->|(k & -> & Hk)]; [done|..].
  - exfalso. apply inside_parent in Hk as (cur & Hcur & He). rewrite Hx in Hcur. injection Hcur as <-.
    cbn in Hy. apply fmap_Some in Hy as (s & Hs & ->). by apply (not_own_parent k s).
  - exfalso. apply inside_parent in Hj as (cur & Hcur & He). rewrite Hy in Hcur. injection Hcur as <-.
    cbn in Hx. apply fmap_Some in Hx as (s & Hs & ->). by apply (not_own_parent j s).
  - apply inside_parent in Hj as (cur & Hcur & Hj), Hk as (cur' & Hcur' & Hk).
    assert (cur' = cur) as -> by congruence. f_equal.
    destruct (lt_eq_lt_dec j k) as [[Hlt| ->]|Hlt]; [exfalso|done|exfalso].
    + by apply (Hno (ISym j) (ISym k) cur Hx Hy ltac:(eauto) ltac:(eauto) j k).
    + by apply (Hno (ISym k) (ISym j) cur Hy Hx ltac:(eauto) ltac:(eauto) k j).
Qed.

Lemma items_under_NoDup p : NoDup (items_under full p).
Proof.
  unfold items_under, selected. apply NoDup_fmap_2_strong.
  - intros [[i s]|[o t]] [[i' s']|[o' t']] [_ H1%stream_events_elem]%list_elem_of_filter
      [_ H2%stream_events_elem]%list_elem_of_filter [= ->]; cbn in *; congruence.
  - apply NoDup_filter. unfold stream_events. rewrite walk_perm. apply NoDup_app. split_and!.
    + apply (NoDup_fmap_2 inl), enumerate_NoDup.
    + intros x (a & -> & _)%list_elem_of_fmap (b & ? & _)%list_elem_of_fmap. done.
    + apply (NoDup_fmap_2 inr), enumerate_NoDup.
Qed.

Lemma preorder_NoDup m : ∀ x, (∀ j, x = ISym j → (j < nsym ∧ nsym - j < m)%nat) →
  NoDup (preorder nsym tree_kids x).
Proof.
  induction m as [|m IH]; intros [j|o] Hm.
  1: destruct (Hm j eq_refl); lia.
  2: destruct (Hm j eq_refl) as [Hj Hd].
  1, 3: destruct nsym; apply NoDup_singleton.
  rewrite (preorder_sym nsym tree_kids tree_kids_Ok j _ Hj (kids_lookup st j Hj)). apply NoDup_cons. split.
  - intros (x & Hit & Hx)%list_elem_of_bind. apply item_elem in Hit as [<-|(k & -> & Hk)].
    + apply kids_later in Hx. lia.
    + destruct Hk as (s & Hs & He). apply (not_own_parent j s Hs).
      apply items_under_spec in Hx. cbn in Hx. apply fmap_Some in Hx as (sk & Hsk & Hp).
      apply (encloses_trans syms k sk); [done..| |done]. by eapply lookup_lt_Some.
    + intros k ->. apply kids_later in Hx. lia.
  - apply NoDup_bind; [intros x y it; apply siblings_disjoint| |apply items_under_NoDup].
    intros x Hx. apply IH. intros k ->. apply kids_later in Hx. lia.
Qed.

(** Everything below, once each. *)
Lemma below_spec p it :
  it ∈ below p ↔ ∃ x, x ∈ items_under full p ∧ (it = x ∨ ∃ j, x = ISym j ∧ inside j it).
Proof.
  unfold below. rewrite list_elem_of_bind. split; intros (x & H1 & H2).
  - exists x. split; [done|]. apply item_elem in H1; [done|]. intros j ->. by eapply items_under_bound.
  - exists x. split; [|done]. apply item_elem; [|done]. intros j ->. by eapply items_under_bound.
Qed.
Lemma below_NoDup p : NoDup (below p).
Proof.
  apply NoDup_bind; [intros x y it; apply siblings_disjoint| |apply items_under_NoDup].
  intros x Hx. apply (preorder_NoDup (S nsym)). intros j ->. apply items_under_bound in Hx. lia.
Qed.
Lemma below_all it : it ∈ below None ↔ is_Some (item_parent it).
Proof.
  rewrite below_spec. split.
  - intros (x & Hx%items_under_spec & [->|(j & -> & (cur & -> & _)%inside_parent)]); [by rewrite Hx|done].
  - intros [[q|] Hq]; [|exists it; split; [by apply items_under_spec|by left]].
    assert (Z.to_nat q < length syms)%nat as Hlt.
    { destruct it as [k|o]; cbn in Hq; apply fmap_Some in Hq as (x & Hx & Hp).
      - pose proof (wf_ordered st (lo_wf _ L) k x Hx) as Hb. rewrite <- Hp in Hb. simpl in Hb.
        apply lookup_lt_Some in Hx. lia.
      - pose proof (proj1 (Forall_lookup _ _) (wf_token_parents st (lo_wf _ L)) o x Hx) as Hb. simpl in Hb.
        rewrite <- Hp in Hb. simpl in Hb. lia. }
    destruct (encloses_top syms (S (Z.to_nat q)) q) as (c & s & Hc & Hs & He);
      [apply wf_ordered, L|lia|done|].
    exists (ISym c). split; [apply items_under_spec; cbn; by rewrite Hc; cbn; rewrite Hs|].
    right. exists c. split; [done|]. apply inside_parent. eauto.
Qed.
End descendants.

(** C33: Descendants read from the stored token ranges are those of the decoded
    tree: below a symbol the range-based walk always applies and gives the same
    nodes in the same depth-first order (or the same error); for a whole file
    it returns a list exactly when the walk over the decoded tree returns that
    list. *)
Theorem descendants_ranged_agree `{Redb tbl} (r : Db tbl) file st :
  located st → Z.of_nat (length (st_tokens st)) < 2 ^ 32 →
  tbl_get (db_streams r) file = Some (encode st) → 0 ≤ file ≤ MAX_LOCAL →
  (∀ i, descendants_ranged r file i =
     if (i <? length (st_symbols st))%nat
     then (l ← file_walk r file (Some i); Ok (Some l)) else Ok None) ∧
  (∀ l, descendants_ranged_file r file = Ok (Some l) ↔ file_walk r file None = Ok l).
Proof.
  intros L Hfit Hrow Hf. split.
  - intros i. rewrite (ranged_descendants_run r file st L Hfit Hrow i), full_length. done.
  - intros l. by apply (ranged_file_descendants_run r file st L Hfit Hrow).
Qed.

(** The depth-first walk of one stream is complete and ends: it never runs
    out of stack or of rounds, and it visits every symbol and token of the file
    exactly once, or, from a symbol, exactly those that have the symbol among
    their ancestors. *)
Theorem file_walk_complete `{Redb tbl} (r : Db tbl) file st :
  located st → tbl_get (db_streams r) file = Some (encode st) →
  (∃ items, NoDup items ∧ file_walk r file None = collect (item_node r file (with_ranges st)) items ∧
     ∀ it, it ∈ items ↔ match it with
       | ISym i => (i < length (st_symbols st))%nat | ITok o => (o < length (st_tokens st))%nat end) ∧
  (∀ i, (i < length (st_symbols st))%nat → ∃ items,
     NoDup items ∧ file_walk r file (Some i) = collect (item_node r file (with_ranges st)) items ∧
     ∀ it, it ∈ items ↔ inside st i it).
Proof.
  intros L Hrow. split.
  - exists (below st None). split_and!; [by apply below_NoDup|by rewrite (file_walk_run r file st L Hrow)|].
    intros it. rewrite below_all by done. destruct it; cbn; by rewrite fmap_is_Some, lookup_lt_is_Some.
  - intros i Hi. exists (below st (Some (Z.of_nat i))). rewrite <- full_length in Hi.
    split_and!; [by apply below_NoDup| |].
    + rewrite (file_walk_run r file st L Hrow). by rewrite (proj2 (Nat.leb_gt _ _)).
    + intros it. rewrite below_spec by done. symmetry. by apply inside_step.
Qed.

#[local] Existing Instance gmap_redb.
Lemma descendants_ranged_agree_witness :
  descendants_ranged Demo.store 7 0 = (l ← file_walk Demo.store 7 (Some 0%nat); Ok (Some l)) ∧
  Demo.names (file_walk Demo.store 7 None) =
    Ok [lit "Rect"; lit "struct"; lit "Rect"; lit "get"; lit "get"; lit ";"].
Proof.
  split; [|by vm_compute].
  apply (descendants_ranged_agree Demo.store 7 (vp_stream (V2Prep_build demo)) Demo.stream_located
    Demo.stream_fits Demo.store_row). by vm_compute.
Defined.

