(* ===== verification/Nodes.v ===== *)
(** * Nodes by id

    Reading one node back by its id, the agreement of children, parents and
    ancestors, the position of a symbol's name, and the text memo of a query
    ([graph-store/src/v2.rs]). *)
From S2P Require Import Prelude Text Schema Varint Stream StreamRound StreamSafe Ranges.
From S2P Require Import DictBlock Table DictRev Db Walk Prep Reader Located Navigate Descend.

(** ** The memo *)
Section memo.
Context `{Redb tbl} (r : Db tbl).

(** Every remembered text is the dictionary's. *)
Definition memo_ok (texts : gmap Z str) : Prop := map_Forall (λ term t, text r term = Ok t) texts.

Lemma text_memo_ok texts term :
  memo_ok texts →
  match text_memo r texts term with
  | Ok (t, texts') => text r term = Ok t ∧ memo_ok texts'
  | Err e => text r term = Err e
  | Panic => text r term = Panic
  end.
Proof.
  intros Hm. unfold text_memo. destruct (texts !! term) as [t|] eqn:E; [by split; [apply (Hm _ _ E)|]|].
  assert (∀ t, text r term = Ok t → memo_ok (<[term := t]> texts)) as Hins.
  { intros t Ht. by apply map_Forall_insert_2. }
  unfold text in *. destruct (dict_rev_lookup _ _) as [[t|]| |]; cbn in *; auto.
Qed.
End memo.

(** ** One node *)
Section nodes.
Context `{Redb tbl, Serde} (r : Db tbl) (file : Z) (st : Stream).
Context (Hwf : wf_stream st) (Hfile : 0 ≤ file ≤ MAX_LOCAL).
Context (Hsmall : Z.of_nat (length (st_symbols st)) < 2 ^ 32 ∧ Z.of_nat (length (st_tokens st)) < 2 ^ 32).
Context (Hrow : tbl_get (db_streams r) file = Some (encode st)).
Abbreviation full := (with_ranges st).

Definition item_id (it : Item) : Z :=
  match it with
  | ISym i => sub_id TAG_SYM file (Z.of_nat i)
  | ITok o => sub_id TAG_TOK file (Z.of_nat o)
  end.
Definition item_in (it : Item) : Prop :=
  match it with
  | ISym i => (i < length (st_symbols full))%nat
  | ITok o => (o < length (st_tokens full))%nat
  end.

Lemma lazy_of_counts :
  lz_nsym (lazy_of st) = length (st_symbols full) ∧ lz_ntok (lazy_of st) = length (st_tokens full).
Proof. rewrite full_length. unfold lazy_of. by destruct (compute_ranges _ _). Qed.

Lemma item_in_u32 it : item_in it → u32 (match it with ISym i => Z.of_nat i | ITok o => Z.of_nat o end).
Proof. destruct it; unfold item_in; rewrite ?full_length; cbn [st_tokens with_ranges]; mach. Qed.

Lemma with_lazy_encoded {T} (f : Lazy → result T) :
  with_lazy r file f = (x ← f (lazy_of st); Ok (Some x)).
Proof. unfold with_lazy. by rewrite Hrow, decode_lazy_encode. Qed.

Lemma token_at {S} (f : nat → TokRec → S → S) o t s :
  st_tokens st !! o = Some t → tokens_at (lazy_of st) [o] f s = Ok (f o t s).
Proof.
  intros Ht. unfold tokens_at. rewrite tokens_at_encoded; [|done|].
  - cbn. by rewrite Ht.
  - cbn. split; [|done]. apply lookup_lt_Some in Ht. lia.
Qed.

Lemma get_item it :
  item_in it → get r (item_id it) = (n ← item_node r file full it; Ok (Some n)).
Proof.
  intros Hin. pose proof (item_in_u32 it Hin) as Hu. destruct lazy_of_counts as [Hns Hnt].
  unfold get. destruct it as [i|o]; cbn [item_id] in *.
  - destruct (sub_id_run TAG_SYM file (Z.of_nat i)) as [_ ->]; [done..|]. rewrite Nat2Z.id, with_lazy_encoded.
    cbn [Z.eqb TAG_SYM TAG_TOK Pos.eqb andb]. rewrite Hns, (proj2 (Nat.ltb_lt _ _)) by done.
    rewrite lazy_symbols_encode by done. cbn. by destruct (sym_node _ _ _ _).
  - destruct (sub_id_run TAG_TOK file (Z.of_nat o)) as [_ ->]; [done..|]. rewrite Nat2Z.id, with_lazy_encoded.
    cbn [Z.eqb TAG_SYM TAG_TOK Pos.eqb andb]. rewrite Hnt, (proj2 (Nat.ltb_lt _ _)) by done.
    destruct (lookup_lt_is_Some_2 (st_tokens st) o Hin) as [t Ht].
    rewrite (token_at _ o t) by done. cbn [mbind outcome_mbind outcome_bind item_node st_tokens with_ranges].
    rewrite (index_Ok _ _ _ Ht). cbn [mbind outcome_mbind outcome_bind].
    by destruct (tok_node r file o t).
Qed.

(** What the node of an item says of it. *)
Definition full_parent (it : Item) : option (option Z) :=
  match it with
  | ISym i => s_parent <$> st_symbols full !! i
  | ITok o => t_parent <$> st_tokens full !! o
  end.
Lemma item_node_shape it n :
  item_node r file full it = Ok n →
  n_id n = item_id it ∧ ∃ p, full_parent it = Some p ∧ n_parent n = Some (sub_parent file p).
Proof.
  destruct it as [i|o]; cbn [item_node item_id full_parent]; intros Hn.
  - unfold sym_node in Hn. apply bind_Ok in Hn as (s & Hs & Hn). unfold index in Hs.
    destruct (st_symbols full !! i); [|done]. injection Hs as ->. inv_ok. cbn. eauto.
  - apply bind_Ok in Hn as (t & Ht & Hn). unfold index in Ht.
    destruct (st_tokens full !! o); [|done]. injection Ht as ->. unfold tok_node in Hn. inv_ok. cbn. eauto.
Qed.

Lemma full_parent_in it : is_Some (full_parent it) ↔ item_in it.
Proof. destruct it; cbn; by rewrite fmap_is_Some, lookup_lt_is_Some. Qed.
End nodes.

(** ** Children and parents *)
Section family.
Context `{Redb tbl, Serde} (r : Db tbl) (file : Z) (st : Stream).
Context (L : located st) (Hfile : 0 ≤ file ≤ MAX_LOCAL).
Context (Hsmall : Z.of_nat (length (st_symbols st)) < 2 ^ 32 ∧ Z.of_nat (length (st_tokens st)) < 2 ^ 32).
Context (Hrow : tbl_get (db_streams r) file = Some (encode st)).
Abbreviation full := (with_ranges st).

Lemma split_entity : split_id file = (0, 0, file).
Proof.
  clear - Hfile. change MAX_LOCAL with (2 ^ 30 - 1) in Hfile. rewrite split_id_div by mach.
  rewrite !Z.div_small, !Z.mod_small by lia. done.
Qed.

Lemma children_symbol i :
  (i < length (st_symbols st))%nat →
  children r (sub_id TAG_SYM file (Z.of_nat i)) = nodes_under r file st (Some (Z.of_nat i)).
Proof.
  intros Hi. unfold children.
  destruct (sub_id_run TAG_SYM file (Z.of_nat i)) as [_ ->]; [done|done|mach|].
  rewrite Nat2Z.id. cbn [Z.eqb TAG_SYM Pos.eqb negb].
  rewrite (ranged_run r file st L (proj2 Hsmall) Hrow), (proj2 (Nat.ltb_lt _ _)) by done.
  by destruct (nodes_under _ _ _ _).
Qed.
Lemma children_file n :
  node r file = Ok (Some n) → n_kind n = File →
  children r file = nodes_under r file st None.
Proof.
  intros Hn Hk. unfold children. rewrite split_entity. cbn [Z.eqb]. rewrite Hn.
  cbn [mbind outcome_mbind outcome_bind]. rewrite decide_True by done.
  rewrite (ranged_file_run r file st L (proj2 Hsmall) Hrow). by destruct (nodes_under _ _ _ _).
Qed.

Definition parent_in (p : option Z) : Prop :=
  match p with None => True | Some q => 0 ≤ q < Z.of_nat (length (st_symbols st)) end.

Lemma sub_parent_split p :
  parent_in p →
  split_id (sub_parent file p) = match p with None => (0, 0, file) | Some q => (TAG_SYM, file, q) end.
Proof.
  destruct p as [q|]; cbn; intros Hp; [|apply split_entity].
  apply sub_id_run; [done|done|mach].
Qed.
Lemma sub_parent_inj p q :
  parent_in p → parent_in q → sub_parent file p = sub_parent file q → p = q.
Proof.
  intros Hp Hq Heq. apply (f_equal split_id) in Heq. rewrite !sub_parent_split in Heq by done.
  unfold TAG_SYM in Heq. destruct p, q; congruence.
Qed.

Lemma full_parent_eq it : full_parent st it = item_parent st it.
Proof.
  destruct it as [i|o]; [|done]. cbn [full_parent item_parent].
  destruct (st_symbols full !! i) as [s|] eqn:E.
  - destruct (full_lookup st L i s E) as (s0 & -> & Hp & _). cbn. by rewrite Hp.
  - apply lookup_ge_None in E. rewrite full_length in E. by rewrite (lookup_ge_None_2 (st_symbols st)).
Qed.
Lemma item_parent_in it p : item_parent st it = Some p → parent_in p.
Proof.
  destruct it as [k|o]; cbn; intros (x & Hx & ->)%fmap_Some.
  - pose proof (wf_ordered st (lo_wf _ L) k x Hx) as Hb. apply lookup_lt_Some in Hx.
    destruct (s_parent x); cbn in *; [lia|done].
  - pose proof (proj1 (Forall_lookup _ _) (wf_token_parents st (lo_wf _ L)) o x Hx) as Hb. simpl in Hb.
    by destruct (t_parent x).
Qed.

Lemma nodes_under_elem p l c :
  parent_in p → nodes_under r file st p = Ok l →
  c ∈ l ↔ ∃ it, item_in st it ∧ n_id c = item_id file it ∧
    get r (n_id c) = Ok (Some c) ∧ n_parent c = Some (sub_parent file p).
Proof.
  intros Hp Hl. unfold nodes_under in Hl. apply collect_Forall2 in Hl. split.
  - intros [i Hi]%list_elem_of_lookup. destruct (Forall2_lookup_r _ _ _ _ _ Hl Hi) as (it & Hit & Hn).
    apply list_elem_of_lookup_2, (items_under_spec st L) in Hit. exists it.
    destruct (item_node_shape r file st it c Hn) as (Hid & q & Hq & Hpar).
    assert (item_in st it) as Hin by (apply full_parent_in; eauto).
    rewrite full_parent_eq in Hq. assert (q = p) as -> by congruence. split_and!; [done..| |done].
    rewrite Hid, (get_item r file st) by (done || apply L). by rewrite Hn.
  - intros (it & Hin & Hid & Hget & Hpar). rewrite Hid, (get_item r file st) in Hget by (done || apply L).
    apply bind_Ok in Hget as (n & Hn & [= ->]).
    destruct (item_node_shape r file st it c Hn) as (_ & q & Hq & Hpar'). rewrite full_parent_eq in Hq.
    assert (q = p) as ->.
    { apply sub_parent_inj; [by eapply item_parent_in|done|congruence]. }
    apply (items_under_spec st L) in Hq as [i Hi]%list_elem_of_lookup.
    destruct (Forall2_lookup_l _ _ _ _ _ Hl Hi) as (c' & Hc' & Hn'). assert (c' = c) as -> by congruence.
    by eapply list_elem_of_lookup_2.
Qed.
End family.

(** Children and parents are inverse: the children of a symbol, or of a
    file, are exactly the nodes of that file which [get] returns under their
    own id and whose parent field is that symbol's or the file's id. *)
Theorem children_parent `{Redb tbl, Serde} (r : Db tbl) file st n :
  located st → 0 ≤ file ≤ MAX_LOCAL →
  Z.of_nat (length (st_symbols st)) < 2 ^ 32 → Z.of_nat (length (st_tokens st)) < 2 ^ 32 →
  tbl_get (db_streams r) file = Some (encode st) →
  node r file = Ok (Some n) → n_kind n = File →
  ∀ p l, parent_in st p → children r (sub_parent file p) = Ok l →
  ∀ c, c ∈ l ↔ ∃ it, item_in st it ∧ n_id c = item_id file it ∧
    get r (n_id c) = Ok (Some c) ∧ n_parent c = Some (sub_parent file p).
Proof.
  intros L Hf Hs Ht Hrow Hn Hk p l Hp Hl c.
  apply (nodes_under_elem r file st L Hf (conj Hs Ht) Hrow p l c Hp).
  destruct p as [q|]; cbn [parent_in sub_parent] in Hp, Hl.
  - rewrite <- Hl. rewrite <- (Z2Nat.id q) by lia. symmetry. apply children_symbol; [done..|lia].
  - by rewrite <- Hl, (children_file r file st L Hf (conj Hs Ht) Hrow n Hn Hk).
Qed.

(** ** Ancestors *)
Section ancestors.
Context `{Redb tbl, Serde} (r : Db tbl) (file : Z) (st : Stream).
Context (L : located st) (Hfile : 0 ≤ file ≤ MAX_LOCAL).
Context (Hsmall : Z.of_nat (length (st_symbols st)) < 2 ^ 32 ∧ Z.of_nat (length (st_tokens st)) < 2 ^ 32).
Context (Hrow : tbl_get (db_streams r) file = Some (encode st)).
Abbreviation full := (with_ranges st).

(** Parents are earlier symbols, so more fuel changes nothing. *)
Lemma sym_chain_fuel f : ∀ g cur,
  parent_below f cur → parent_below g cur → parent_in st cur →
  sym_chain r (S f) file (st_symbols full) cur = sym_chain r (S g) file (st_symbols full) cur.
Proof.
  induction f as [|f IH]; intros g [p|] Hf Hg Hin; [cbn in Hf; lia|done| |done].
  destruct g as [|g]; [cbn in Hg; lia|].
  change (sym_chain r (S (S ?k)) file ?ss (Some p)) with
    (n ← sym_node r file (Z.to_nat p) ss; s ← index ss (Z.to_nat p);
     rest ← sym_chain r (S k) file ss (s_parent s); Ok (n :: rest)).
  destruct (sym_node r file (Z.to_nat p) _); [|done..]. cbn [mbind outcome_mbind outcome_bind].
  unfold index. destruct (st_symbols full !! Z.to_nat p) as [s|] eqn:E; [|done].
  cbn [mbind outcome_mbind outcome_bind]. pose proof (full_ordered st L _ _ E) as Hb.
  cbn in Hf, Hg. rewrite (IH g); [done|..]; eapply parent_below_mono; try exact Hb; [lia|lia|].
  cbn in Hin. lia.
Qed.

Lemma ancestors_item fuel it p :
  item_parent st it = Some p →
  ancestors r fuel (item_id file it) =
  (out ← sym_chain r (S (length (st_symbols full))) file (st_symbols full) p;
   rest ← entity_chain r fuel (Some file); Ok (out ++ rest)).
Proof.
  intros Hp. assert (item_in st it) as Hin.
  { apply full_parent_in. rewrite full_parent_eq by done. eauto. }
  pose proof (item_in_u32 st Hsmall it Hin) as Hu. destruct (lazy_of_counts st) as [_ Hnt].
  pose proof (full_parent_eq st L it) as Hfp. rewrite Hp in Hfp.
  unfold ancestors. destruct it as [i|o]; cbn [item_id full_parent] in *.
  - destruct (sub_id_run TAG_SYM file (Z.of_nat i)) as [_ ->]; [done..|].
    rewrite Nat2Z.id, (with_lazy_encoded r file st (lo_wf _ L) Hrow), lazy_symbols_encode by apply L.
    cbn [Z.eqb TAG_SYM TAG_TOK Pos.eqb andb mbind outcome_mbind outcome_bind].
    rewrite (proj2 (Nat.ltb_lt _ _)) by done. apply fmap_Some in Hfp as (s & Hs & ->).
    rewrite (index_Ok _ _ _ Hs). cbn [mbind outcome_mbind outcome_bind].
    by destruct (sym_chain _ _ _ _ _).
  - destruct (sub_id_run TAG_TOK file (Z.of_nat o)) as [_ ->]; [done..|].
    rewrite Nat2Z.id, (with_lazy_encoded r file st (lo_wf _ L) Hrow), lazy_symbols_encode by apply L.
    cbn [Z.eqb TAG_SYM TAG_TOK Pos.eqb andb mbind outcome_mbind outcome_bind].
    rewrite Hnt, (proj2 (Nat.ltb_lt _ _)) by done. apply fmap_Some in Hfp as (t & Ht & ->).
    rewrite (token_at st (lo_wf _ L) _ o t) by done. cbn [mbind outcome_mbind outcome_bind].
    by destruct (sym_chain _ _ _ _ _).
Qed.

Lemma ancestors_up fuel it p :
  item_parent st it = Some (Some p) →
  ancestors r fuel (item_id file it) =
  (n ← item_node r file full (ISym (Z.to_nat p));
   rest ← ancestors r fuel (item_id file (ISym (Z.to_nat p))); Ok (n :: rest)).
Proof.
  intros Hp. pose proof (item_parent_in st L it _ Hp) as Hin. cbn in Hin.
  rewrite (ancestors_item fuel it (Some p) Hp). cbn [item_node].
  destruct (lookup_lt_is_Some_2 (st_symbols st) (Z.to_nat p)) as [s0 Hs0]; [lia|].
  destruct (full_at st _ s0 Hs0) as [s Hs]. destruct (full_lookup st L _ s Hs) as (s1 & Hs1 & Hps & _).
  rewrite (ancestors_item fuel (ISym (Z.to_nat p)) (s_parent s))
    by (cbn; by rewrite Hs1, Hps).
  change (sym_chain r (S (length (st_symbols full))) file ?ss (Some p)) with
    (n ← sym_node r file (Z.to_nat p) ss; s ← index ss (Z.to_nat p);
     rest ← sym_chain r (length (st_symbols full)) file ss (s_parent s); Ok (n :: rest)).
  destruct (sym_node r file _ _); [|done..]. cbn [mbind outcome_mbind outcome_bind].
  rewrite (index_Ok _ _ _ Hs). cbn [mbind outcome_mbind outcome_bind].
  pose proof (full_ordered st L _ _ Hs) as Hb. pose proof (lookup_lt_Some _ _ _ Hs) as Hlt.
  assert (sym_chain r (length (st_symbols full)) file (st_symbols full) (s_parent s) =
    sym_chain r (S (length (st_symbols full))) file (st_symbols full) (s_parent s)) as ->.
  { destruct (length (st_symbols full)) as [|n] eqn:E; [lia|]. rewrite full_length in E.
    apply sym_chain_fuel; eapply parent_below_mono; try exact Hb; try lia. }
  destruct (sym_chain _ _ _ _ (s_parent s)); [|done..]. cbn [mbind outcome_mbind outcome_bind].
  by destruct (entity_chain _ _ _).
Qed.
End ancestors.

(** Ancestors are the parents, one after the other: for a symbol or token,
    [ancestors] is the node [get] returns for its parent followed by that
    node's own ancestors, up to the file, whose ancestors are its entity rows.
    A file row that is missing is the only new error. *)
Theorem ancestors_climb `{Redb tbl, Serde} (r : Db tbl) file st fuel it p :
  located st → 0 ≤ file ≤ MAX_LOCAL →
  Z.of_nat (length (st_symbols st)) < 2 ^ 32 → Z.of_nat (length (st_tokens st)) < 2 ^ 32 →
  tbl_get (db_streams r) file = Some (encode st) → item_parent st it = Some p →
  ancestors r (S fuel) (item_id file it) =
  (up ← get r (sub_parent file p);
   match up with
   | Some n =>
       rest ← ancestors r (match p with Some _ => S fuel | None => fuel end) (sub_parent file p);
       Ok (n :: rest)
   | None => Err (dangling_node file)
   end).
Proof.
  intros L Hf Hs Ht Hrow Hp. destruct p as [q|].
  - rewrite (ancestors_up r file st L Hf (conj Hs Ht) Hrow _ it q Hp).
    pose proof (item_parent_in st L it _ Hp) as Hin. cbn in Hin. cbn [sub_parent].
    assert (sub_id TAG_SYM file q = item_id file (ISym (Z.to_nat q))) as ->
      by (cbn [item_id]; by rewrite Z2Nat.id by lia).
    rewrite (get_item r file st (lo_wf _ L) Hf (conj Hs Ht) Hrow (ISym (Z.to_nat q)))
      by (cbn [item_in]; rewrite full_length; lia).
    by destruct (item_node _ _ _ _).
  - rewrite (ancestors_item r file st L Hf (conj Hs Ht) Hrow _ it None Hp). cbn [sub_parent].
    unfold get, ancestors. rewrite (split_entity file Hf). cbn [Z.eqb].
    cbn [sym_chain mbind outcome_mbind outcome_bind entity_chain]. unfold need.
    destruct (node r file) as [[n|]|e|]; try done. cbn. by destruct (entity_chain _ _ _).
Qed.

(** ** Name positions *)

(** An identifier token with the symbol's name, inside its span. *)
Definition name_token (sym : SymRec) (t : TokRec) : Prop :=
  start (s_span sym) ≤ start (t_span t) ∧ start (t_span t) < end_ (s_span sym) ∧
  t_term t = s_name sym ∧ t_class t = Identifier ∧ end_ (t_span t) ≤ end_ (s_span sym).
#[global] Instance name_token_dec sym t : Decision (name_token sym t).
Proof. unfold name_token. apply _. Defined.

(** The position of the first of them. *)
Definition first_name (sym : SymRec) (ts : list TokRec) : option Position :=
  (λ it : nat * TokRec, start_of (t_span it.2)) <$> list_find (name_token sym) ts.

Lemma first_name_cons sym t ts :
  first_name sym (t :: ts) = if decide (name_token sym t) then Some (start_of (t_span t)) else first_name sym ts.
Proof.
  unfold first_name. cbn. case_decide; [done|]. by destruct (list_find _ ts).
Qed.
Lemma first_name_none sym ts : (∀ t, t ∈ ts → ¬ name_token sym t) → first_name sym ts = None.
Proof. intros Hn. unfold first_name. rewrite (proj2 (list_find_None _ _)); [done|]. by apply Forall_forall. Qed.

Lemma visit_names sym ts n : ∀ k,
  StronglySorted (λ a b, start (t_span a) ≤ start (t_span b)) ts → (k + n = length ts)%nat →
  visit_at (name_pos_visit sym) ts (seq k n) None = first_name sym (drop k ts).
Proof.
  induction n as [|n IH]; intros k Hs Hk.
  { cbn. by rewrite drop_ge by lia. }
  destruct (lookup_lt_is_Some_2 ts k) as [t Ht]; [lia|]. rewrite (drop_S _ _ _ Ht), first_name_cons.
  cbn [seq visit_at]. rewrite Ht. unfold name_pos_visit at 1.
  destruct (start (t_span t) <? start (s_span sym)) eqn:E1; bool_prop.
  { rewrite decide_False by (unfold name_token; lia). apply IH; [done|lia]. }
  destruct (end_ (s_span sym) <=? start (t_span t)) eqn:E2; bool_prop.
  { rewrite decide_False by (unfold name_token; lia). symmetry. apply first_name_none.
    intros u [j Hj]%list_elem_of_lookup. rewrite lookup_drop in Hj.
    pose proof (sorted_lookup _ _ k _ t u Hs Ht Hj ltac:(lia)). simpl in *. unfold name_token. lia. }
  destruct ((t_term t =? s_name sym) && bool_decide (t_class t = Identifier) &&
            (end_ (t_span t) <=? end_ (s_span sym))) eqn:E3.
  - rewrite !andb_true_iff, bool_decide_eq_true in E3. by rewrite decide_True by (unfold name_token; split_and!; lia || tauto).
  - rewrite decide_False; [apply IH; [done|lia]|]. intros (_ & _ & Hn & Hc & He).
    rewrite !andb_false_iff, bool_decide_eq_false in E3. destruct E3 as [[?|?]|?]; bool_prop; [lia|done|lia].
Qed.

Lemma least_start (ts : list TokRec) s :
  (∃ o t, ts !! o = Some t ∧ s ≤ start (t_span t) ∧
     ∀ o' t', (o' < o)%nat → ts !! o' = Some t' → start (t_span t') < s) ∨
  (∀ t, t ∈ ts → start (t_span t) < s).
Proof.
  destruct (list_find (λ t, s ≤ start (t_span t)) ts) as [[o t]|] eqn:E.
  - left. apply list_find_Some in E as (Ho & Hs & Hfirst). exists o, t. split_and!; [done..|].
    intros o' t' Hlt Ht'. specialize (Hfirst o' t' Ht' Hlt). lia.
  - right. apply list_find_None in E. rewrite Forall_forall in E. intros t Ht. specialize (E t Ht). simpl in E. lia.
Qed.

Lemma name_pos_run lz ts sym :
  Forall u8 (lz_toks lz) → length (lz_cks lz) = nck (lz_ntok lz) → lazy_tokens lz push_visitor [] = Ok ts →
  StronglySorted (λ a b, start (t_span a) ≤ start (t_span b)) ts →
  name_pos lz sym = Ok (default (start_of (s_span sym)) (first_name sym ts)).
Proof.
  intros Htoks Hck Hts Hs.
  unfold name_pos. rewrite (tokens_from_walk lz ts) by done. cbn [mbind outcome_mbind outcome_bind].
  set (k := block_ordinal_at lz (start (s_span sym))). do 2 f_equal.
  destruct (least_start ts (start (s_span sym))) as [(o & t & Ho & Hge & Hlt)|Hall].
  - assert (k ≤ o)%nat as Hk by (by apply (block_ordinal_at_walk lz ts (start (s_span sym)) o t)).
    pose proof (lookup_lt_Some _ _ _ Ho). rewrite visit_names by (done || lia).
    rewrite <- (take_drop k ts) at 2. clear - Hlt Hk.
    assert (∀ u, u ∈ take k ts → ¬ name_token sym u) as Hn.
    { intros u [j [Hj Hjk]%lookup_take_Some]%list_elem_of_lookup Hu. specialize (Hlt j u ltac:(lia) Hj).
      destruct Hu. lia. }
    revert Hn. generalize (take k ts). intros l. induction l as [|u l IH]; intros Hn; [done|].
    cbn [app]. rewrite first_name_cons, decide_False by (apply Hn; by left). apply IH. intros v Hv. apply Hn. by right.
  - rewrite (first_name_none sym ts); cycle 1.
    { intros u Hu Hn. specialize (Hall u Hu). destruct Hn. lia. }
    destruct (Nat.le_gt_cases k (length ts)) as [Hk|Hk].
    + rewrite visit_names by (done || lia). apply first_name_none. intros u [j Hj]%list_elem_of_lookup Hn.
      rewrite lookup_drop in Hj. apply list_elem_of_lookup_2 in Hj. specialize (Hall u Hj). destruct Hn. lia.
    + by replace (length ts - k)%nat with 0%nat by lia.
Qed.

(** C40: The name position of a symbol, looked up from the checkpoint block
    that holds the start of its span, is the one a scan of all the file's
    tokens gives: the start of the first identifier token inside the span whose
    text is the symbol's name, or else the start of the span. *)
Theorem name_pos_spec b lz st sym :
  slice b → decode_lazy b = Ok lz → decode b = Ok st →
  StronglySorted (λ a b, start (t_span a) ≤ start (t_span b)) (st_tokens st) →
  name_pos lz sym = Ok (default (start_of (s_span sym)) (first_name sym (st_tokens st))).
Proof.
  intros Hb Hlz Hd Hs. unfold decode in Hd. rewrite Hlz in Hd. cbn [mbind outcome_mbind outcome_bind] in Hd.
  apply bind_Ok in Hd as (syms & _ & Hd). apply bind_Ok in Hd as (ts & Hts & [= <-]). cbn [st_tokens] in *.
  destruct (ends_Ok _ _ _ (decode_lazy_ends b Hb) Hlz) as (Hck & _ & Htoks & _). by apply name_pos_run.
Qed.

#[local] Existing Instance gmap_redb.
#[local] Existing Instance coded_serde.
Abbreviation demo_stream := (vp_stream (V2Prep_build demo)).

Lemma demo_file_row : node Demo.store 7 = Ok (Some (blank 7 (Some 3) File (lit "a.rs"))).
Proof. by vm_compute. Qed.
Lemma demo_symbols_fit : Z.of_nat (length (st_symbols demo_stream)) < 2 ^ 32.
Proof. by vm_compute. Qed.
Lemma demo_file_id : 0 ≤ 7 ≤ MAX_LOCAL.
Proof. by vm_compute. Qed.
Module Named.
Definition row : list Z := encode demo_stream.
Definition method : SymRec := default (mkSymRec 0 SKType None None ZERO None None) (st_symbols demo_stream !! 1%nat).
End Named.
(** The stream of the example: the method's name is found in its block. *)
Lemma name_pos_spec_witness :
  ∃ lz, decode_lazy Named.row = Ok lz ∧ name_pos lz Named.method = Ok (default (start_of (s_span Named.method)) (first_name Named.method (st_tokens demo_stream))) ∧
    is_Some (first_name Named.method (st_tokens demo_stream)).
Proof.
  assert (slice Named.row) as Hs by (apply (bool_decide_unpack _); vm_compute; exact I).
  assert (∃ lz, decode_lazy Named.row = Ok lz) as [lz Hlz] by (eexists; vm_compute; exact eq_refl).
  assert (decode Named.row = Ok (with_ranges demo_stream)) as Hd by (vm_compute; exact eq_refl).
  assert (StronglySorted (λ a b, start (t_span a) ≤ start (t_span b)) (st_tokens (with_ranges demo_stream))) as Hsort
    by (vm_compute; repeat constructor; discriminate).
  exists lz. split; [exact Hlz|]. split; [exact (name_pos_spec Named.row lz (with_ranges demo_stream) Named.method Hs Hlz Hd Hsort)|].
  apply (bool_decide_unpack _). vm_compute. exact I.
Defined.
