(* ===== verification/Write.v ===== *)
(** * Writing the store

    The writer [W] and the writes of [V2Store] ([graph-store/src/v2.rs]):
    interning, ingesting and removing a file, pruning a repository, vacuuming
    the dictionary, and the raft marker. A write transaction is a function on
    [Db] whose result the caller commits; on an error nothing is written. The
    [LEGACY_WRITER] switch of the tests is off. *)
From S2P Require Import Prelude Text StrOps Schema Varint Stream Posting DictBlock Table DictRev Db.
From S2P Require Import Language Walk Prep Reader Catalog.

Record FileMeta : Type := mkFileMeta {
  fm_origin : option str;
  fm_fingerprint : option str;
  fm_encoding : option str;
  fm_lossy : bool;
}.
Definition FileMeta_extracted (origin : option str) : FileMeta := mkFileMeta origin None None false.

Record IngestStats : Type := mkIngestStats {
  is_file_id : Z;
  is_symbols : nat;
  is_tokens : nat;
  is_replaced : bool;
  is_unchanged : bool;
  is_has_errors : bool;
  is_path : str;
  is_language : str;
  is_encoding : option str;
  is_lossy : bool;
  is_span_warning : option str;
}.

Definition fold_symbol_name (name : str) : str := to_ascii_lowercase name.

Definition DERIVED_WRITER_MARK : Z := 1.
Definition ORIGIN_DIRECTORY : str := lit "directory".

Section write.
Context `{Redb tbl} `{Serde}.
(** [sha256] is the sha2 crate's digest. *)
Context (sha256 : list Z → list Z).

(** ** The dictionary *)

(** [for n in 0..]: the keys are distinct, so a dictionary of [k] rows ends
    the search within [k + 1] rounds. *)
Fixpoint dict_key_loop (fuel : nat) (d : Db tbl) (t : str) (id : option Z) (n : Z)
    : result (str * option Z) :=
  match fuel with
  | O => Panic
  | S fuel =>
      let key := hashed_key sha256 t n in
      match tbl_get (db_dict d) key with
      | None => Ok (key, None)
      | Some found =>
          same ← (match id with
            | Some i => Ok (i =? found)
            | None => u ← dict_rev_lookup (db_rev d) found; Ok (bool_decide (u = Some t))
            end);
          if same : bool then Ok (key, Some found) else dict_key_loop fuel d t id (as_u32 (n + 1))
      end
  end.

Definition dict_key (d : Db tbl) (t : str) (id : option Z) : result (str * option Z) :=
  if negb (is_hashed t) then Ok (t, tbl_get (db_dict d) t)
  else dict_key_loop (S (Z.to_nat (tbl_len (db_dict d)))) d t id 0.

(** The reader's [lookup]. *)
Fixpoint lookup_loop (fuel : nat) (d : Db tbl) (t : str) (n : Z) : result (option Z) :=
  match fuel with
  | O => Panic
  | S fuel =>
      match tbl_get (db_dict d) (hashed_key sha256 t n) with
      | None => Ok None
      | Some id =>
          u ← dict_rev_lookup (db_rev d) id;
          if decide (u = Some t) then Ok (Some id) else lookup_loop fuel d t (as_u32 (n + 1))
      end
  end.
Definition lookup_term (d : Db tbl) (t : str) : result (option Z) :=
  if negb (is_hashed t) then Ok (tbl_get (db_dict d) t)
  else lookup_loop (S (Z.to_nat (tbl_len (db_dict d)))) d t 0.

Definition intern (t : str) (s : Db tbl * Z) : result (Z * (Db tbl * Z)) :=
  let '(d, next_term) := s in
  '(key, found) ← dict_key d t None;
  match found with
  | Some v => Ok (v, (d, next_term))
  | None =>
      let id := next_term in
      let d := upd_dict (tbl_insert key id) d in
      rev ← dict_rev_append (db_rev d) id t;
      Ok (id, (upd_rev (λ _, rev) d, as_u64 (next_term + 1)))
  end.

(** [terms.iter().map(|t| w.intern(t, ..)).collect()]. *)
Fixpoint intern_all (terms : list str) (s : Db tbl * Z) : result (list Z * (Db tbl * Z)) :=
  match terms with
  | [] => Ok ([], s)
  | t :: terms =>
      '(id, s) ← intern t s;
      '(ids, s) ← intern_all terms s;
      Ok (id :: ids, s)
  end.

(** ** Removing a file *)

Definition tally_sym (d : Db tbl) (scope : Scope) (file : Z) (delta : Z) (t : Tally) (s : SymRec)
    : result Tally :=
  lang_kind ← (match s_lang_kind s with Some k => x ← text d k; Ok (Some x) | None => Ok None end);
  Ok (Tally_node scope (with_symbol_kind (blank 0 (Some file) Symbol []) (s_kind s) lang_kind) delta t).
Definition tally_tok (scope : Scope) (file : Z) (delta : Z) (t : Tally) (r : TokRec) : Tally :=
  Tally_node scope (with_token_class (blank 0 (Some file) Token []) (t_class r)) delta t.

Definition tally_stream (d : Db tbl) (t : Tally) (scope : Scope) (file : Z) (s : Stream) (delta : Z)
    : result Tally :=
  t ← try_fold (tally_sym d scope file delta) t (st_symbols s);
  Ok (foldl (tally_tok scope file delta) t (st_tokens s)).

(** One round of the symbol loop. *)
Definition unindex_sym (file : Z) (d : Db tbl) (ir : nat * SymRec) : result (Db tbl) :=
  let '(i, s) := ir in
  name ← text d (s_name s);
  let id := sub_id TAG_SYM file (Z.of_nat i) in
  Ok (upd_sym_fold (tbl_remove (fold_symbol_name name, id)) (upd_sym_idx (tbl_remove (name, id)) d)).

(** The terms of the tokens, ordered and without repetition. *)
Definition token_terms (toks : list TokRec) : list Z :=
  (gmap_rows (list_to_map ((λ t, (t_term t, ())) <$> toks) : gmap Z unit)).*1.

Definition remove_stream (d : Db tbl) (file : Z) (scope : Scope) (t : Tally) (s : Stream)
    : result (Db tbl * Tally) :=
  let d := upd_streams (tbl_remove file) d in
  t ← tally_stream d t scope file s (-1);
  let d := foldl (λ d term, upd_post (tbl_remove (term, file)) d) d (token_terms (st_tokens s)) in
  d ← try_fold (unindex_sym file) d (enumerate (st_symbols s));
  Ok (d, t).

Definition remove_content (d : Db tbl) (file : Z) (scope : Scope) (t : Tally)
    : result (Db tbl * Tally) :=
  match tbl_get (db_streams d) file with
  | None => Ok (d, t)
  | Some raw =>
      s ← decode raw;
      let cid := content_id file in
      let d := upd_content_files (tbl_remove (cid, file)) d in
      let count := default 0 (tbl_get (db_refs d) cid) in
      let remaining := Z.max 0 (count - 1) in
      if 0 <? remaining then Ok (upd_refs (tbl_insert cid remaining) d, t)
      else remove_stream (upd_refs (tbl_remove cid) d) file scope t s
  end.

(** ** Ingesting a file *)

(** The [ensure] closure: the id of an entity row, made when missing. *)
Definition ensure (parent : option Z) (kind : NodeKind) (name : str) (language : option str)
    (s : Db tbl * Z) : result (Z * bool * (Db tbl * Z)) :=
  let '(d, next) := s in
  let key := name_key parent kind name in
  match tbl_get (db_names d) key with
  | Some v => Ok (v, true, (d, next))
  | None =>
      if MAX_LOCAL <? next then Err (Storage (lit "entity id space exhausted")) else
      let id := next in
      let n := blank id parent kind name in
      let n := mkNode (n_id n) (n_parent n) (n_kind n) (n_name n) language None None None false
                 None None None false None in
      let d := upd_nodes (tbl_insert id (enc n)) d in
      let d := upd_names (tbl_insert key id) d in
      let d := match parent with Some p => upd_children (tbl_insert (p, id) ()) d | None => d end in
      Ok (id, false, (d, next + 1))
  end.

Definition nul (what : string) (v : str) : result unit :=
  if decide (0 ∈ v) then Err (Rejected (lit what ++ lit " must not contain NUL bytes")) else Ok ().

Definition nul_opt (what : string) (v : option str) : result unit :=
  match v with Some v => nul what v | None => Ok () end.

(** One round of the symbol loop: index the name, and put the ids in. *)
Definition index_sym (file : Z) (terms : list str) (ids : list Z) (acc : Db tbl * list SymRec)
    (ir : nat * SymRec) : result (Db tbl * list SymRec) :=
  let '(d, out) := acc in
  let '(idx, s) := ir in
  name ← index terms (Z.to_nat (s_name s));
  let id := sub_id TAG_SYM file (Z.of_nat idx) in
  let d := upd_sym_idx (tbl_insert (name, id) ()) d in
  let d := upd_sym_fold (tbl_insert (fold_symbol_name name, id) ()) d in
  nm ← index ids (Z.to_nat (s_name s));
  lk ← (match s_lang_kind s with Some k => x ← index ids (Z.to_nat k); Ok (Some x) | None => Ok None end);
  ow ← (match s_owner s with Some k => x ← index ids (Z.to_nat k); Ok (Some x) | None => Ok None end);
  Ok (d, out ++ [mkSymRec nm (s_kind s) lk (s_parent s) (s_span s) (s_toks s) ow]).

Definition rename_tok (ids : list Z) (t : TokRec) : result TokRec :=
  term ← index ids (Z.to_nat (t_term t));
  Ok (mkTokRec term (t_class t) (t_parent t) (t_span t)).

Definition rename_post (ids : list Z) (p : Z * list Z) : result (Z * list Z) :=
  t ← index ids (Z.to_nat p.1);
  Ok (t, p.2).

Definition file_node (id repo : Z) (path language : str) (has_errors : bool) (meta : FileMeta) : Node :=
  mkNode id (Some repo) File path (Some language) None None None has_errors (fm_origin meta)
    (fm_fingerprint meta) (fm_encoding meta) (fm_lossy meta) None.

(** The checks at the start. *)
Definition ingest_guard (org repo language : str) (ex : Extraction) : result unit :=
  if bool_decide (org = []) || bool_decide (repo = [])
  then Err (Rejected (lit "org and repo must not be empty")) else
  _ ← nul "org" org;
  _ ← nul "repo" repo;
  _ ← nul "language" language;
  _ ← collect (λ sd, _ ← nul_opt "symbol lang_kind" (sd_lang_kind sd);
                     nul_opt "symbol owner" (sd_owner sd)) (ex_symbols ex);
  Ok ().

(** The scope a stored file was counted under. *)
Definition file_scope (org repo : str) (f : Node) : Scope :=
  mkScope org repo (default (lit "unknown") (n_language f)) (n_encoding f) (n_lossy f).

(** The stored scope of the replaced file goes, with its content. *)
Definition drop_old (d : Db tbl) (org repo : str) (file : Z) (t : Tally) : result (Db tbl * Tally) :=
  raw ← ok_or (tbl_get (db_nodes d) file) (Corrupt (lit "dangling file"));
  old ← dec raw;
  let old_scope := file_scope org repo old in
  let t := Tally_file old_scope (-1) t in
  remove_content d file old_scope t.

(** The prepared stream goes in, with the dictionary ids. *)
Definition store_stream (d : Db tbl) (next_term file : Z) (prep : V2Prep)
    : result (Stream * (Db tbl * Z)) :=
  '(ids, (d, next_term)) ← intern_all (vp_terms prep) (d, next_term);
  '(d, symbols) ← try_fold (index_sym file (vp_terms prep) ids) (d, []) (enumerate (st_symbols (vp_stream prep)));
  tokens ← collect (rename_tok ids) (st_tokens (vp_stream prep));
  postings ← collect (rename_post ids) (vp_postings prep);
  let postings := sort_by (λ a b : Z * list Z, a.1 <=? b.1) postings in
  let d := foldl (λ d '(term, bytes), upd_post (tbl_insert (term, file) bytes) d) d postings in
  let s := mkStream symbols tokens in
  let d := upd_streams (tbl_insert file (encode s)) d in
  let cid := content_id file in
  let d := upd_refs (tbl_insert cid 1) d in
  let d := upd_content_files (tbl_insert (cid, file) ()) d in
  Ok (s, (d, next_term)).

Definition ingest_prepped (d : Db tbl) (org repo path language : str) (ex : Extraction)
    (meta : FileMeta) (prep : option V2Prep) : result (IngestStats * Db tbl) :=
  _ ← ingest_guard org repo language ex;
  let language := to_ascii_lowercase language in
  let path := normalize_path path in
  let next := default 1 (tbl_get (db_meta d) (lit "next_id")) in
  let next_term := default 0 (tbl_get (db_meta d) (lit "next_term")) in
  '(org_id, _, s) ← ensure None Org org None (d, next);
  '(repo_id, _, s) ← ensure (Some org_id) Repo repo None s;
  '(file_id, existed, s) ← ensure (Some repo_id) File path (Some language) s;
  let '(d, next) := s in
  let d := upd_cat (tbl_insert (cat_key "r" [org; repo]) DERIVED_WRITER_MARK) d in
  let scope := mkScope org repo language (fm_encoding meta) (fm_lossy meta) in
  let t := Tally_file scope 1 ∅ in
  '(d, t) ← (if existed : bool then drop_old d org repo file_id t else Ok (d, t));
  let f := file_node file_id repo_id path language (ex_has_errors ex) meta in
  let d := upd_nodes (tbl_insert file_id (enc f)) d in
  row ← file_key_row f;
  let d := upd_file_keys (tbl_insert file_id row) d in
  let prep := default (V2Prep_build ex) prep in
  '(stream, (d, next_term)) ← store_stream d next_term file_id prep;
  let t := foldl (λ t '(n, count), Tally_node scope n count t) t (vp_tally_nodes prep) in
  let d := upd_meta (tbl_insert (lit "next_id") next) d in
  let d := upd_meta (tbl_insert (lit "next_term") next_term) d in
  let d := upd_cat (Tally_apply t) d in
  Ok (mkIngestStats file_id (length (st_symbols stream)) (length (st_tokens stream)) existed false
        (ex_has_errors ex) path language (fm_encoding meta) (fm_lossy meta) None, d).

Definition ingest_validated (d : Db tbl) (org repo path language : str) (ex : Extraction)
    (meta : FileMeta) : result (IngestStats * Db tbl) :=
  ingest_prepped d org repo path language ex meta None.

(** ** Pruning a repository *)

(** The id of org/repo, if both exist. *)
Definition repo_id_in (names : tbl str _ _ Z) (org repo : str) : option Z :=
  match tbl_get names (name_key None Org org) with
  | None => None
  | Some org_id => tbl_get names (name_key (Some org_id) Repo repo)
  end.

(** One round of the loop over the repository's files. *)
Definition prune_step (org repo : str) (keep : list str) (dry_run : bool) (repo_id : Z)
    (acc : Db tbl * Tally * list str) (fid : Z) : result (Db tbl * Tally * list str) :=
  let '(d, t, removed) := acc in
  raw ← ok_or (tbl_get (db_nodes d) fid) (Corrupt (lit "dangling file"));
  f ← dec raw;
  if bool_decide (n_name f ∈ keep) || negb (bool_decide (n_origin f = Some ORIGIN_DIRECTORY))
  then Ok (d, t, removed)
  else if dry_run then Ok (d, t, removed ++ [n_name f])
  else
    let scope := file_scope org repo f in
    '(d, t) ← remove_content d fid scope t;
    let t := Tally_file scope (-1) t in
    let d := upd_nodes (tbl_remove fid) d in
    let d := upd_file_keys (tbl_remove fid) d in
    let d := upd_names (tbl_remove (name_key (Some repo_id) File (n_name f))) d in
    let d := upd_children (tbl_remove (repo_id, fid)) d in
    Ok (d, t, removed ++ [n_name f]).

Definition str_le (a b : str) : bool := bool_decide (¬ str_lt b a).

Definition prune_in (d : Db tbl) (org repo : str) (keep : list str) (dry_run : bool)
    : result (list str * Db tbl) :=
  let keep := normalize_path <$> keep in
  '(d, t, removed) ← (match repo_id_in (db_names d) org repo with
    | None => Ok (d, ∅, [])
    | Some repo_id =>
        try_fold (prune_step org repo keep dry_run repo_id) (d, ∅, [])
          (multimap_get (db_children d) repo_id)
    end);
  Ok (sort_by str_le removed, upd_cat (Tally_apply t) d).

(** A dry run is aborted. *)
Definition prune_files (d : Db tbl) (org repo : str) (keep : list str) (dry_run : bool)
    : result (list str * Db tbl) :=
  '(removed, d') ← prune_in d org repo keep dry_run;
  Ok (removed, if dry_run then d else d').

(** ** Vacuuming the dictionary *)

Record VacuumStats : Type := mkVacuumStats { vs_terms_removed : nat; vs_terms_kept : nat }.

Definition live_step (live : gset Z) (row : Z * list Z) : result (gset Z) :=
  lz ← decode_lazy row.2;
  syms ← lazy_symbols lz;
  Ok (foldl (λ live s, {[s_name s]} ∪ list_to_set (option_list (s_lang_kind s))
                       ∪ list_to_set (option_list (s_owner s)) ∪ live) live syms).

Definition live_terms (d : Db tbl) : result (gset Z) :=
  let live := foldl (λ (live : gset Z) (row : Z * Z * list Z), {[row.1.1]} ∪ live) ∅ (tbl_iter (db_post d)) in
  try_fold live_step live (tbl_iter (db_streams d)).

Definition all_terms (d : Db tbl) : result (list (Z * str)) :=
  try_fold (λ all (row : Z * list Z), es ← decode_dict_block row.2; Ok (all ++ es)) [] (tbl_iter (db_rev d)).

Definition drop_dead (d : Db tbl) (e : Z * str) : result (Db tbl) :=
  '(key, found) ← dict_key d e.2 (Some e.1);
  Ok (match found with Some _ => upd_dict (tbl_remove key) d | None => d end).

(** Removing the old blocks and inserting the packed ones. *)
Definition repack (rev : rev_table (tbl:=tbl)) (kept : list (Z * str)) : rev_table :=
  let old_blocks := tbl_len rev in
  let rev := foldl (λ t i, tbl_remove i t) rev (seqZ 0 old_blocks) in
  foldl (λ t '(i, block), tbl_insert (Z.of_nat i) block t) rev (enumerate (pack_dict_blocks kept)).

Definition vacuum_in (d : Db tbl) : result (VacuumStats * bool * Db tbl) :=
  live ← live_terms d;
  all ← all_terms d;
  let kept := filter (λ e, e.1 ∈ live) all in
  let dead := filter (λ e, e.1 ∉ live) all in
  d ← try_fold drop_dead d dead;
  let d := match dead with [] => d | _ => upd_rev (λ rev, repack rev kept) d end in
  Ok (mkVacuumStats (length dead) (length kept), bool_decide (dead = []), d).

(** Nothing to remove aborts the transaction. *)
Definition vacuum (d : Db tbl) : result (VacuumStats * Db tbl) :=
  '(stats, nothing, d') ← vacuum_in d;
  Ok (stats, if nothing : bool then d else d').
End write.
