(* ===== verification/Dict.v ===== *)
(** * The dictionary

    [intern], [lookup] and [dict_key] of [graph-store/src/v2.rs] over the pair
    of tables that hold the dictionary: [dict] from keys to ids (long texts
    and texts with a leading NUL are stored under a digest, with a probe
    number for colliding digests) and [rev] from ids to texts. *)
From S2P Require Import Prelude Text StrOps Schema Varint Stream DictBlock Table DictRev Db Reader Write.

(** ** Keys *)

Lemma lit_inj a b : lit a = lit b → a = b.
Proof.
  unfold lit. intros Heq. apply list_fmap_eq_inj in Heq.
  - rewrite <- (String.string_of_list_ascii_of_string a), Heq. apply String.string_of_list_ascii_of_string.
  - intros x y Hxy%N2Z.inj. rewrite <- (Ascii.ascii_N_embedding x), Hxy. apply Ascii.ascii_N_embedding.
Qed.
Lemma show_inj a b : show a = show b → a = b.
Proof. unfold show. intros Heq%lit_inj. by apply (inj pretty) in Heq. Qed.

Section keys.
Context (sha256 : list Z → list Z).

(** The key of a text, at its [n]-th probe. *)
Definition key_of (t : str) (n : Z) : str := if is_hashed t then hashed_key sha256 t n else t.

Lemma hashed_key_inj t n m : 0 ≤ n → 0 ≤ m → hashed_key sha256 t n = hashed_key sha256 t m → n = m.
Proof.
  unfold hashed_key. intros Hn Hm Heq. apply app_inv_head in Heq. apply app_inv_head in Heq.
  destruct (0 <? n) eqn:En, (0 <? m) eqn:Em; bool_prop; try done; [|lia].
  apply app_inv_head in Heq. by apply show_inj.
Qed.

Lemma is_hashed_key t n : is_hashed (hashed_key sha256 t n) = true.
Proof. unfold is_hashed, hashed_key. cbn [app]. apply orb_true_iff. right. done. Qed.

(** The keys of hashed and of plain texts are apart. *)
Lemma key_of_hashed t u n m : key_of t n = key_of u m → is_hashed t = is_hashed u.
Proof.
  unfold key_of. destruct (is_hashed t) eqn:Et, (is_hashed u) eqn:Eu; intros Heq; try done.
  - rewrite <- Heq, is_hashed_key in Eu. done.
  - rewrite Heq, is_hashed_key in Et. done.
Qed.
Lemma key_of_plain t u n m : is_hashed t = false → key_of t n = key_of u m → t = u.
Proof.
  intros Ht Heq. pose proof (key_of_hashed _ _ _ _ Heq) as Hu. rewrite Ht in Hu.
  unfold key_of in Heq. by rewrite Ht, <- Hu in Heq.
Qed.
End keys.

(** ** Entries *)

Lemma sorted_lt_NoDup (l : list Z) : StronglySorted Z.lt l → NoDup l.
Proof.
  induction 1 as [|x l Hl IH Hx]; constructor; [|done].
  intros Hin. rewrite Forall_forall in Hx. specialize (Hx _ Hin). lia.
Qed.

(** One id has one text, and one text one id. *)
Lemma NoDup_fst_eq {A B} (es : list (A * B)) (i : A) (t u : B) : NoDup es.*1 → (i, t) ∈ es → (i, u) ∈ es → t = u.
Proof.
  induction es as [|[j v] es IH]; cbn; intros Hnd Ht Hu; [by apply elem_of_nil in Ht|].
  apply NoDup_cons in Hnd as [Hj Hnd].
  apply elem_of_cons in Ht as [Ht|Ht], Hu as [Hu|Hu]; simplify_eq; [done| | |by apply IH].
  - destruct Hj. apply list_elem_of_fmap. by exists (j, u).
  - destruct Hj. apply list_elem_of_fmap. by exists (j, t).
Qed.
Lemma NoDup_snd_eq {A B} (es : list (A * B)) (i j : A) (t : B) : NoDup es.*2 → (i, t) ∈ es → (j, t) ∈ es → i = j.
Proof.
  induction es as [|[l v] es IH]; cbn; intros Hnd Ht Hu; [by apply elem_of_nil in Ht|].
  apply NoDup_cons in Hnd as [Hj Hnd].
  apply elem_of_cons in Ht as [Ht|Ht], Hu as [Hu|Hu]; simplify_eq; [done| | |by apply IH].
  - destruct Hj. apply list_elem_of_fmap. by exists (j, v).
  - destruct Hj. apply list_elem_of_fmap. by exists (i, v).
Qed.

Lemma entry_text_elem (es : list (Z * str)) id t : NoDup es.*1 → entry_text id es = Some t ↔ (id, t) ∈ es.
Proof.
  intros Hnd. unfold entry_text. split.
  - intros ([j u] & Hh & [= <-])%fmap_Some. apply head_Some_elem_of in Hh.
    by apply list_elem_of_filter in Hh as [[= ->] Hh].
  - intros Hin. destruct (head (filter _ es)) as [[j u]|] eqn:Hh.
    + apply head_Some_elem_of in Hh. apply list_elem_of_filter in Hh as [Hj Hh]. cbn in Hj. subst j.
      cbn. f_equal. by eapply NoDup_fst_eq.
    + apply head_None in Hh. by destruct (filter_nil_inv _ _ _ Hh Hin).
Qed.

(** ** The invariant *)
Section dict.
Context `{Redb tbl} `{Serde} (sha256 : list Z → list Z).
Implicit Types (d : Db tbl) (es : list (Z * str)) (t u : str).

(** [m] maps keys to the ids of [es]: every entry is found along its probe
    chain, which has no gap, and no two keys share an id. *)
Record keys_ok (m : gmap str Z) (es : list (Z * str)) : Prop := mkKeysOk {
  ko_key k id : m !! k = Some id → ∃ t n, (id, t) ∈ es ∧ 0 ≤ n ∧ k = key_of sha256 t n;
  ko_chain id t : (id, t) ∈ es → ∃ n, 0 ≤ n ∧ m !! key_of sha256 t n = Some id ∧
    ∀ i, 0 ≤ i < n → is_Some (m !! key_of sha256 t i);
  ko_inj k k' id : m !! k = Some id → m !! k' = Some id → k = k';
}.

(** The dictionary of [d] is [es], in blocks [bs], below the id [next]. *)
Record dict_ok d (es : list (Z * str)) (next : Z) : Prop := mkDictOk {
  dk_rev : ∃ bs, rev_blocks (db_rev d) bs ∧ rev_ok bs ∧ concat bs = es;
  dk_keys : keys_ok (tbl_map (db_dict d)) es;
  dk_texts : NoDup es.*2;
  dk_below id : id ∈ es.*1 → 0 ≤ id < next;
  dk_size : Z.of_nat (length es) < 2 ^ 32;
}.

Lemma dk_sorted d es next : dict_ok d es next → StronglySorted Z.lt es.*1.
Proof. intros [(bs & _ & [_ Hs] & <-) _ _ _ _]. exact Hs. Qed.

Lemma dk_ids d es next : dict_ok d es next → NoDup es.*1.
Proof. intros Hd. eapply sorted_lt_NoDup, dk_sorted, Hd. Qed.

Lemma rev_text d es next id :
  dict_ok d es next → dict_rev_lookup (db_rev d) id = Ok (entry_text id es).
Proof.
  intros [(bs & Hb & Hok & <-) _ _ _ Hs]. apply dict_rev_lookup_run; [done|done|].
  enough (length bs ≤ length (concat bs))%nat by lia.
  destruct Hok as [HF _]. clear -HF. induction HF as [|b bs [Hb _] _ IH]; [done|].
  cbn. rewrite length_app. destruct b; [done|cbn; lia].
Qed.

(** As many keys as entries. *)
Lemma keys_size m es : keys_ok m es → NoDup es.*1 → size m = length es.
Proof.
  intros [Hk Hc Hi] Hnd. rewrite <- (length_fmap fst es).
  assert (Permutation (map_to_list m).*2 es.*1) as Hp.
  2:{ rewrite <- Hp, length_fmap. by rewrite length_map_to_list. }
  apply NoDup_Permutation; [|done|].
  - apply NoDup_fmap_2_strong; [|apply NoDup_map_to_list].
    intros [k id] [k' id'] H1 H2 Heq. cbn in Heq. subst id'.
    apply elem_of_map_to_list in H1, H2. f_equal. by eapply Hi.
  - intros id. rewrite !list_elem_of_fmap. split.
    + intros ([k i] & -> & Hin%elem_of_map_to_list). destruct (Hk _ _ Hin) as (t & n & He & _).
      by exists (i, t).
    + intros ([i t] & -> & He). destruct (Hc _ _ He) as (n & _ & Hm & _).
      exists (key_of sha256 t n, i). by rewrite elem_of_map_to_list.
Qed.

(** ** Probing *)

(** A chain of occupied keys is no longer than the table. *)
Lemma probe_bound (m : gmap str Z) t n :
  0 ≤ n → (∀ i, 0 ≤ i < n → is_Some (m !! hashed_key sha256 t i)) → n ≤ Z.of_nat (size m).
Proof.
  intros Hn Hm. set (l := hashed_key sha256 t <$> seqZ 0 n).
  assert (NoDup l) as Hnd.
  { apply NoDup_fmap_2_strong; [|apply NoDup_seqZ]. intros x y Hx%elem_of_seqZ Hy%elem_of_seqZ.
    apply hashed_key_inj; lia. }
  assert (length l = Z.to_nat n) as Hl by (unfold l; by rewrite length_fmap, length_seqZ).
  enough (length l ≤ size (dom m))%nat by (rewrite size_dom in *; lia).
  rewrite <- (size_list_to_set (C:=gset str) l Hnd). apply subseteq_size.
  intros k (i & -> & Hi%elem_of_seqZ)%elem_of_list_to_set%list_elem_of_fmap.
  apply elem_of_dom, Hm. lia.
Qed.

(** What ends the search of [dict_key]. *)
Definition same es t (id : option Z) (found : Z) : Prop :=
  match id with Some i => i = found | None => (found, t) ∈ es end.

Lemma probe_run d es next t id fuel n :
  dict_ok d es next → is_hashed t = true → 0 ≤ n →
  Z.of_nat fuel = Z.of_nat (size (tbl_map (db_dict d))) + 1 - n →
  (∀ i, 0 ≤ i < n → ∃ f, tbl_map (db_dict d) !! hashed_key sha256 t i = Some f ∧ ¬ same es t id f) →
  ∃ k, 0 ≤ k ∧
    (∀ i, 0 ≤ i < k → ∃ f, tbl_map (db_dict d) !! hashed_key sha256 t i = Some f ∧ ¬ same es t id f) ∧
    match tbl_map (db_dict d) !! hashed_key sha256 t k with
    | None => dict_key_loop sha256 fuel d t id n = Ok (hashed_key sha256 t k, None)
    | Some f => same es t id f ∧ dict_key_loop sha256 fuel d t id n = Ok (hashed_key sha256 t k, Some f)
    end.
Proof.
  intros Hd Ht. revert n. induction fuel as [|fuel IH]; intros n Hn Hf Hocc.
  { pose proof (probe_bound (tbl_map (db_dict d)) t n Hn) as Hb.
    enough (n ≤ Z.of_nat (size (tbl_map (db_dict d)))) by lia. apply Hb.
    intros i Hi. destruct (Hocc i Hi) as (f & -> & _). done. }
  cbn [dict_key_loop]. rewrite tbl_get_spec.
  destruct (tbl_map (db_dict d) !! hashed_key sha256 t n) as [f|] eqn:E.
  2:{ exists n. rewrite E. split_and!; [lia|done|done]. }
  assert (∃ b, match id with Some i => Ok (i =? f) | None => u ← dict_rev_lookup (db_rev d) f; Ok (bool_decide (u = Some t)) end
    = Ok (E:=StoreError) b ∧ (b = true ↔ same es t id f)) as (b & -> & Hb).
  { destruct id as [i|]; cbn [same].
    - eexists. split; [done|]. apply Z.eqb_eq.
    - rewrite (rev_text _ _ _ _ Hd). eexists. split; [done|].
      rewrite bool_decide_eq_true, (entry_text_elem es); [done|]. by eapply dk_ids. }
  cbn [mbind outcome_mbind outcome_bind]. destruct b.
  { exists n. rewrite E. split_and!; [lia|done|by apply Hb|done]. }
  assert (∀ i, 0 ≤ i < n + 1 → ∃ g, tbl_map (db_dict d) !! hashed_key sha256 t i = Some g ∧ ¬ same es t id g) as Hocc'.
  { intros i Hi. destruct (decide (i = n)) as [->|]; [|apply Hocc; lia].
    exists f. split; [done|]. by intros Hs%Hb. }
  assert (n + 1 ≤ Z.of_nat (size (tbl_map (db_dict d)))) as Hsz.
  { apply (probe_bound _ t); [lia|]. intros i Hi. destruct (Hocc' i Hi) as (g & -> & _). done. }
  rewrite (keys_size _ _ (dk_keys _ _ _ Hd) (dk_ids _ _ _ Hd)) in Hsz. pose proof (dk_size _ _ _ Hd).
  rewrite as_u32_id by (unfold u32; lia). apply IH; [lia|lia|done].
Qed.

(** [dict_key] finds the entry of a text, or the first free key of its chain. *)
Lemma dict_key_run d es next t :
  dict_ok d es next →
  (∃ k id, dict_key sha256 d t None = Ok (k, Some id) ∧ (id, t) ∈ es) ∨
  ((t ∉ es.*2) ∧ ∃ n, 0 ≤ n ∧ dict_key sha256 d t None = Ok (key_of sha256 t n, None) ∧
    tbl_map (db_dict d) !! key_of sha256 t n = None ∧
    ∀ i, 0 ≤ i < n → is_Some (tbl_map (db_dict d) !! key_of sha256 t i)).
Proof.
  intros Hd. pose proof (dk_keys _ _ _ Hd) as Hk. unfold dict_key, key_of.
  destruct (is_hashed t) eqn:Ht; cbn [negb].
  - destruct (probe_run d es next t None (S (Z.to_nat (tbl_len (db_dict d)))) 0 Hd Ht)
      as (k & Hk0 & Hocc & Hm); [lia|rewrite tbl_len_spec; lia|lia|].
    destruct (tbl_map (db_dict d) !! hashed_key sha256 t k) as [f|] eqn:E.
    { left. destruct Hm as [Hs Hm]. by eexists _, _. }
    right. split.
    + intros ([id u] & -> & Hin)%list_elem_of_fmap. cbn [fst snd] in *. unfold same in Hocc.
      destruct (ko_chain _ _ Hk _ _ Hin) as (n & Hn & Hmn & Hch). unfold key_of in *. rewrite Ht in *.
      destruct (Z.lt_trichotomy n k) as [Hlt|[->|Hlt]].
      * destruct (Hocc n) as (f & Hf & Hns); [lia|]. assert (f = id) as -> by congruence. done.
      * congruence.
      * destruct (Hch k) as [? ?]; [lia|]. congruence.
    + exists k. split_and!; [done|done|done|]. intros i Hi. destruct (Hocc i Hi) as (f & -> & _). done.
  - rewrite tbl_get_spec. destruct (tbl_map (db_dict d) !! t) as [id|] eqn:E.
    + left. exists t, id. split; [done|]. destruct (ko_key _ _ Hk _ _ E) as (u & n & Hin & _ & Hku).
      by rewrite <- (key_of_plain sha256 t u 0 n Ht) in Hin by (unfold key_of; by rewrite Ht).
    + right. split.
      * intros ([id u] & -> & Hin)%list_elem_of_fmap. cbn [fst snd] in *.
        destruct (ko_chain _ _ Hk _ _ Hin) as (n & _ & Hmn & _). unfold key_of in Hmn. rewrite Ht in Hmn. congruence.
      * exists 0. split_and!; [lia|done|done|]. intros i Hi. lia.
Qed.

(** The reader finds the same entries. *)
Lemma lookup_loop_eq d t fuel n :
  lookup_loop sha256 fuel d t n = (kf ← dict_key_loop sha256 fuel d t None n; Ok kf.2).
Proof.
  revert n. induction fuel as [|fuel IH]; intros n; [done|]. cbn [lookup_loop dict_key_loop].
  destruct (tbl_get _ _) as [f|]; [|done]. destruct (dict_rev_lookup _ _) as [u| |]; [|done|done].
  cbn [mbind outcome_mbind outcome_bind]. rewrite IH.
  destruct (decide (u = Some t)); [rewrite bool_decide_eq_true_2 by done|rewrite bool_decide_eq_false_2 by done]; done.
Qed.

(** The id of a text. *)
Definition id_of (t : str) (es : list (Z * str)) : option Z :=
  fst <$> head (filter (λ e : Z * str, e.2 = t) es).

Lemma id_of_elem es id t : NoDup es.*2 → id_of t es = Some id ↔ (id, t) ∈ es.
Proof.
  intros Hnd. unfold id_of. split.
  - intros ([j u] & Hh & [= <-])%fmap_Some. apply head_Some_elem_of in Hh.
    by apply list_elem_of_filter in Hh as [[= ->] Hh].
  - intros Hin. destruct (head (filter _ es)) as [[j u]|] eqn:Hh.
    + apply head_Some_elem_of in Hh. apply list_elem_of_filter in Hh as [Hj Hh]. cbn in Hj. subst u.
      cbn. f_equal. by eapply NoDup_snd_eq.
    + apply head_None in Hh. by destruct (filter_nil_inv _ _ _ Hh Hin).
Qed.
Lemma id_of_None es t : t ∉ es.*2 → id_of t es = None.
Proof.
  intros Ht. unfold id_of. destruct (head (filter _ es)) as [[j u]|] eqn:Hh; [|done].
  apply head_Some_elem_of, list_elem_of_filter in Hh as [[= ->] Hh].
  destruct Ht. apply list_elem_of_fmap. by exists (j, t).
Qed.

Lemma lookup_run d es next t : dict_ok d es next → lookup_term sha256 d t = Ok (id_of t es).
Proof.
  intros Hd.
  assert (lookup_term sha256 d t = (kf ← dict_key sha256 d t None; Ok kf.2)) as ->.
  { unfold lookup_term, dict_key. destruct (is_hashed t); [apply lookup_loop_eq|done]. }
  destruct (dict_key_run d es next t Hd) as [(k & id & -> & Hin)|(Hn & n & _ & -> & _)]; cbn.
  - by rewrite (proj2 (id_of_elem es id t (dk_texts _ _ _ Hd)) Hin).
  - by rewrite id_of_None.
Qed.

(** ** Interning *)

Lemma keys_ok_insert m es id t n :
  keys_ok m es → id ∉ es.*1 → 0 ≤ n → m !! key_of sha256 t n = None →
  (∀ i, 0 ≤ i < n → is_Some (m !! key_of sha256 t i)) →
  keys_ok (<[key_of sha256 t n := id]> m) (es ++ [(id, t)]).
Proof.
  intros [Hk Hc Hi] Hid Hn Hfree Hch.
  assert (∀ k j, m !! k = Some j → j ≠ id) as Hne.
  { intros k j (u & i & Hin & _)%Hk ->. apply Hid, list_elem_of_fmap. by exists (id, u). }
  split.
  - intros k j [[<- <-]|[_ Hm]]%lookup_insert_Some.
    + exists t, n. split_and!; [|done|done]. apply elem_of_app. right. by apply list_elem_of_singleton.
    + destruct (Hk _ _ Hm) as (u & i & Hin & ? & ->). exists u, i. split_and!; [|done|done].
      apply elem_of_app. by left.
  - intros j u [Hin|[= -> ->]%list_elem_of_singleton]%elem_of_app.
    + destruct (Hc _ _ Hin) as (i & Hi0 & Hm & Hocc). exists i. split_and!; [done| |].
      * rewrite lookup_insert_ne; [done|]. intros Heq. by rewrite Heq, Hm in Hfree.
      * intros l Hl. destruct (Hocc l Hl) as [x Hx]. destruct (decide (key_of sha256 t n = key_of sha256 u l)) as [->|].
        -- by rewrite lookup_insert_eq.
        -- rewrite lookup_insert_ne by done. by exists x.
    + exists n. split_and!; [done|by rewrite lookup_insert_eq|]. intros i Hl.
      destruct (decide (key_of sha256 t n = key_of sha256 t i)) as [->|].
      * by rewrite lookup_insert_eq.
      * rewrite lookup_insert_ne by done. by apply Hch.
  - intros k k' j [[<- <-]|[Hkne Hm]]%lookup_insert_Some [[<- Hj]|[_ Hm']]%lookup_insert_Some.
    + done.
    + by apply Hne in Hm'.
    + subst j. by apply Hne in Hm.
    + by eapply Hi.
Qed.

(** What interning does to a dictionary: a known text keeps its id; a new one
    is appended under the next id. *)
Definition interned es next t : list (Z * str) * Z :=
  match id_of t es with Some _ => (es, next) | None => (es ++ [(next, t)], next + 1) end.

(** The tables interning leaves alone. *)
Definition same_but_dict d d' : Prop :=
  d' = upd_rev (λ _, db_rev d') (upd_dict (λ _, db_dict d') d).
#[local] Instance same_but_dict_trans : Transitive same_but_dict.
Proof. intros d d' d'' H1 H2. unfold same_but_dict in *. rewrite H2, H1. by destruct d. Qed.

Lemma intern_run d es next t :
  dict_ok d es next → text_ok t → 0 ≤ next → next + 1 < 2 ^ 64 → Z.of_nat (length es) + 1 < 2 ^ 32 →
  ∃ id d', intern sha256 t (d, next) = Ok (id, (d', (interned es next t).2)) ∧
    (id, t) ∈ (interned es next t).1 ∧
    dict_ok d' (interned es next t).1 (interned es next t).2 ∧ same_but_dict d d' ∧
    (t ∈ es.*2 → d' = d).
Proof.
  intros Hd Ht Hn0 Hn Hlen. unfold intern, interned.
  destruct (dict_key_run d es next t Hd) as [(k & id & -> & Hin)|(Hnt & n & Hn1 & -> & Hfree & Hch)];
    cbn [mbind outcome_mbind outcome_bind].
  { rewrite (proj2 (id_of_elem es id t (dk_texts _ _ _ Hd)) Hin). exists id, d. cbn [fst snd].
    split_and!; [done..| |done]. by destruct d. }
  rewrite id_of_None by done. cbn [fst snd].
  destruct Hd as [(bs & Hb & Hok & Hes) Hk Htx Hbel Hsz].
  destruct (dict_rev_append_run (db_rev d) bs next t Hb Hok) as (rev' & Hrev & Hb' & Hok' & Hcc).
  { split; cbn; [unfold u64; lia|done]. }
  { rewrite Hes. intros x Hx%Hbel. lia. }
  change (db_rev (upd_dict _ d)) with (db_rev d). rewrite Hrev. cbn [mbind outcome_mbind outcome_bind].
  eexists next, _. rewrite as_u64_id by (unfold u64; lia). split; [done|]. split.
  { apply elem_of_app. right. by apply list_elem_of_singleton. }
  split; [|split; [by destruct d|done]]. assert (next ∉ es.*1) as Hfresh by (intros Hx%Hbel; lia). split.
  - eexists. split_and!; [exact Hb'|done|]. by rewrite Hcc, Hes.
  - cbn. rewrite tbl_insert_spec. by apply keys_ok_insert.
  - rewrite fmap_app. apply NoDup_app. split_and!; [done| |apply NoDup_singleton].
    intros x Hx ->%list_elem_of_singleton. done.
  - intros x. rewrite fmap_app. intros [Hx%Hbel|Hx%list_elem_of_singleton]%elem_of_app; cbn in *; lia.
  - rewrite length_app. cbn. lia.
Qed.

(** A whole file's terms. *)
Lemma intern_all_run terms d es next :
  dict_ok d es next → Forall text_ok terms → 0 ≤ next →
  next + Z.of_nat (length terms) < 2 ^ 64 → Z.of_nat (length es + length terms) < 2 ^ 32 →
  ∃ ids d' b next', intern_all sha256 terms (d, next) = Ok (ids, (d', next')) ∧
    Forall2 (λ id t, (id, t) ∈ es ++ b) ids terms ∧ (length b ≤ length terms)%nat ∧
    next ≤ next' ≤ next + Z.of_nat (length terms) ∧ dict_ok d' (es ++ b) next' ∧ same_but_dict d d'.
Proof.
  revert d es next. induction terms as [|t terms IH]; intros d es next Hd Hok Hn Hn' Hl.
  { exists [], d, [], next. rewrite app_nil_r. split_and!; try done; [cbn; lia..|]. by destruct d. }
  apply Forall_cons in Hok as [Ht Hok]. cbn [length] in *.
  destruct (intern_run d es next t Hd Ht) as (id & d1 & H1 & Hin & Hd1 & Hs1 & _); [lia..|].
  cbn [intern_all]. rewrite H1. cbn [mbind outcome_mbind outcome_bind].
  assert (∃ a, (interned es next t).1 = es ++ a ∧ (length a ≤ 1)%nat ∧
    next ≤ (interned es next t).2 ≤ next + 1) as (a & Ha & Hla & Hna).
  { unfold interned. destruct (id_of t es); cbn [fst snd].
    - exists []. rewrite app_nil_r. split_and!; [done|cbn; lia..].
    - eexists. split_and!; [done|cbn; lia..]. }
  rewrite Ha in *. set (next1 := (interned es next t).2) in *.
  destruct (IH d1 (es ++ a) next1 Hd1 Hok) as (ids & d2 & b & next2 & H2 & HF & Hlb & Hnb & Hd2 & Hs2);
    [lia|lia|rewrite length_app; lia|].
  rewrite H2. cbn [mbind outcome_mbind outcome_bind]. rewrite <- app_assoc in *.
  exists (id :: ids), d2, (a ++ b), next2. rewrite length_app.
  split_and!; [done| |lia..|done|by etransitivity].
  constructor; [|done]. rewrite app_assoc. apply elem_of_app. by left.
Qed.

Lemma dict_empty : dict_ok db_empty [] 0.
Proof.
  split; cbn; rewrite ?tbl_empty_spec; try done.
  - exists []. split_and!; [|split; constructor|done]. unfold rev_blocks. by rewrite tbl_empty_spec.
  - split; intros *; rewrite ?lookup_empty; try done. by intros ?%elem_of_nil.
  - constructor.
  - by intros ? ?%elem_of_nil.
Qed.

Lemma id_of_snoc es id t u :
  t ∉ es.*2 → id_of u (es ++ [(id, t)]) = if decide (u = t) then Some id else id_of u es.
Proof.
  intros Ht. unfold id_of. rewrite filter_app, filter_cons, filter_nil. cbn [snd].
  case_decide as E1; case_decide as E2; subst; try done.
  - destruct (filter _ es) as [|[i v] l] eqn:Ef; [done|]. destruct Ht.
    assert ((i, v) ∈ filter (λ e : Z * str, e.2 = u) es) as [<- Hin]%list_elem_of_filter by (rewrite Ef; by left).
    apply list_elem_of_fmap. by exists (i, v).
  - by rewrite app_nil_r.
Qed.

(** C32: interning a text gives it an id that both directions of the
    dictionary agree on, leaves every other text and id as it was, and leaves
    the store alone when the text is known; the probing for hashed keys
    terminates whatever digests collide. *)
Theorem intern_spec d es next t :
  dict_ok d es next → text_ok t → 0 ≤ next → next + 1 < 2 ^ 64 → Z.of_nat (length es) + 1 < 2 ^ 32 →
  ∃ id d' next', intern sha256 t (d, next) = Ok (id, (d', next')) ∧
    (∀ u, lookup_term sha256 d' u = if decide (u = t) then Ok (Some id) else lookup_term sha256 d u) ∧
    (∀ j, dict_rev_lookup (db_rev d') j = if decide (j = id) then Ok (Some t) else dict_rev_lookup (db_rev d) j) ∧
    (∀ j, lookup_term sha256 d t = Ok (Some j) → j = id ∧ d' = d ∧ next' = next) ∧
    ∃ es', dict_ok d' es' next'.
Proof.
  intros Hd Ht Hn Hn' Hl. destruct (intern_run d es next t Hd Ht Hn Hn' Hl) as (id & d' & Hr & Hin & Hd' & _ & Hold).
  exists id, d', (interned es next t).2. split; [exact Hr|]. clear Hr. unfold interned in *.
  pose proof (lookup_run d es next t Hd) as Hlt. pose proof (dk_texts _ _ _ Hd) as Hnt. pose proof (dk_ids _ _ _ Hd) as Hni.
  destruct (id_of t es) as [i|] eqn:E; cbn [fst snd] in *.
  - assert ((i, t) ∈ es) as Hit by by apply id_of_elem. assert (i = id) as -> by by eapply (NoDup_snd_eq es i id t).
    rewrite Hold by (apply list_elem_of_fmap; by exists (id, t)). split_and!; [| |by intros j [= <-]%(eq_trans (eq_sym Hlt))|by exists es].
    + intros u. case_decide; [by subst|done].
    + intros j. case_decide; [|done]. subst. rewrite (rev_text _ _ _ _ Hd). f_equal. by apply entry_text_elem.
  - assert (t ∉ es.*2) as Hnew.
    { intros ([j u] & -> & Hj)%list_elem_of_fmap. apply (id_of_elem es j u Hnt) in Hj. cbn in E. congruence. }
    assert (id = next) as ->.
    { apply elem_of_app in Hin as [Hin|Hin%list_elem_of_singleton]; [|congruence].
      destruct Hnew. apply list_elem_of_fmap. by exists (id, t). }
    split_and!; [| |by rewrite Hlt|by eexists].
    + intros u. rewrite (lookup_run _ _ _ _ Hd'), (lookup_run _ _ _ _ Hd), id_of_snoc by done. by case_decide.
    + intros j. rewrite (rev_text _ _ _ _ Hd'), (rev_text _ _ _ _ Hd). case_decide as Hj.
      * subst. f_equal. apply entry_text_elem; [eapply dk_ids, Hd'|done].
      * f_equal. apply option_eq. intros u. rewrite !entry_text_elem by (eapply dk_ids; eassumption).
        rewrite elem_of_app, list_elem_of_singleton. naive_solver.
Qed.
End dict.

#[local] Existing Instance gmap_redb.
#[local] Existing Instance coded_serde.
(** A new text in an empty dictionary, where every digest collides. *)
Lemma intern_spec_witness :
  let sha (_ : list Z) : list Z := [] in
  let text := replicate 2000 97 in
  is_hashed text = true ∧
  ∃ id d' next', intern sha text (db_empty (tbl:=λ K _ _ V, gmap K V), 0) = Ok (id, (d', next')) ∧
    lookup_term sha d' text = Ok (Some id).
Proof.
  intros sha text. split; [by vm_compute|]. destruct (intern_spec sha (tbl:=λ K _ _ V, gmap K V) db_empty [] 0 text) as (id & d' & next' & Hr & Hl & _);
    [apply dict_empty|apply (bool_decide_unpack _); by vm_compute|done|done|done|].
  exists id, d', next'. split; [exact Hr|]. by rewrite Hl, decide_True.
Defined.
