(* ===== verification/Store.v ===== *)
(** * What a store holds

    The invariant of a version 2 store ([graph-store/src/v2.rs]): the tables
    are determined by the entities (org, repo and file rows), the streams of
    the files and the dictionary, and together they represent a map from
    (org, repo, path) to documents. The clauses are those the test oracle
    [check_consistency] recomputes. *)
From S2P Require Import Prelude Text StrOps Schema Varint Stream StreamRound Posting DictBlock Table DictRev.
From S2P Require Import Walk Prep Located Db Catalog Reader Write Dict.

(** ** Name keys *)

Definition nul_free (s : str) : Prop := 0 ∉ s.

Lemma pretty_N_go_nul x s :
  nul_free (lit s) → nul_free (lit (pretty_N_go x s)).
Proof.
  revert s. induction (N.lt_wf_0 x) as [x _ IH]; intros s Hs.
  destruct (decide (0 < x)%N) as [Hx|Hx].
  - rewrite pretty_N_go_step by done. apply IH; [by apply N.div_lt|].
    unfold nul_free, lit. cbn. rewrite not_elem_of_cons. split; [|exact Hs].
    unfold pretty_N_char. repeat case_match; done.
  - assert (x = 0)%N as -> by lia. by rewrite pretty_N_go_0.
Qed.
Lemma show_nul z : nul_free (show z).
Proof.
  assert (∀ x : N, nul_free (lit (pretty x))) as HN.
  { intros x. unfold pretty, pretty_N. destruct (decide (x = 0)%N); [|apply pretty_N_go_nul];
      unfold nul_free, lit; cbn; set_solver. }
  unfold show. destruct z as [|p|p].
  - by apply (bool_decide_unpack (0 ∉ show 0)).
  - apply (HN (N.pos p)).
  - change (0 ∉ 45 :: lit (pretty (N.pos p))). apply not_elem_of_cons. split; [done|]. apply HN.
Qed.
Lemma NodeKind_debug_nul k : nul_free (NodeKind_debug k).
Proof. unfold nul_free. by destruct k; apply (bool_decide_unpack _). Qed.
Lemma NodeKind_debug_inj j k : NodeKind_debug j = NodeKind_debug k → j = k.
Proof. by destruct j, k. Qed.

Lemma nul_split (a b c e : str) :
  nul_free a → nul_free b → a ++ [0] ++ c = b ++ [0] ++ e → a = b ∧ c = e.
Proof.
  unfold nul_free. revert b. induction a as [|x a IH]; intros [|y b] Ha Hb Heq; cbn in Heq.
  - by injection Heq as ->.
  - injection Heq as <- _. destruct Hb. by left.
  - injection Heq as -> _. destruct Ha. by left.
  - injection Heq as -> Heq. apply not_elem_of_cons in Ha as [_ Ha], Hb as [_ Hb].
    by destruct (IH b Ha Hb Heq) as [-> ->].
Qed.

Lemma name_key_inj p q j k a b :
  name_key p j a = name_key q k b → default 0 p = default 0 q ∧ j = k ∧ a = b.
Proof.
  unfold name_key. intros [Hp%show_inj Heq]%nul_split; [|apply show_nul..].
  apply nul_split in Heq as [Hk%NodeKind_debug_inj ->]; [done|apply NodeKind_debug_nul..].
Qed.

(** ** Sums *)

Fixpoint sum_list {A} (g : A → Z) (l : list A) : Z :=
  match l with [] => 0 | a :: l => g a + sum_list g l end.
Definition sum_map {K V} `{Countable K} (g : K → V → Z) (m : gmap K V) : Z :=
  sum_list (λ kv, g kv.1 kv.2) (map_to_list m).

Lemma sum_list_perm {A} (g : A → Z) l k : l ≡ₚ k → sum_list g l = sum_list g k.
Proof. induction 1; cbn in *; lia. Qed.
#[global] Instance sum_list_proper {A} (g : A → Z) : Proper (Permutation ==> eq) (sum_list g).
Proof. intros l k. apply sum_list_perm. Qed.
Lemma sum_list_app {A} (g : A → Z) l k : sum_list g (l ++ k) = sum_list g l + sum_list g k.
Proof. induction l as [|a l IH]; cbn in *; lia. Qed.
Lemma sum_list_fmap {A B} (f : A → B) (g : B → Z) l : sum_list g (f <$> l) = sum_list (λ a, g (f a)) l.
Proof. induction l as [|a l IH]; cbn in *; [done|]. by rewrite IH. Qed.
Lemma sum_list_nonneg {A} (g : A → Z) l : (∀ a, 0 ≤ g a) → 0 ≤ sum_list g l.
Proof. intros Hg. induction l as [|a l IH]; cbn; [lia|]. specialize (Hg a). lia. Qed.
Lemma sum_list_ext {A B} (g : A → Z) (h : B → Z) l k :
  Forall2 (λ a b, g a = h b) l k → sum_list g l = sum_list h k.
Proof. induction 1 as [|a b l k Hab _ IH]; cbn; [done|]. lia. Qed.

Section sum_map.
Context {K V} `{Countable K} (g : K → V → Z).
Implicit Types m : gmap K V.

Lemma sum_map_insert m k v : m !! k = None → sum_map g (<[k := v]> m) = g k v + sum_map g m.
Proof. intros Hk. unfold sum_map. by rewrite map_to_list_insert. Qed.
Lemma sum_map_delete m k v : m !! k = Some v → sum_map g m = g k v + sum_map g (delete k m).
Proof.
  intros Hk. rewrite <- (insert_delete_id m k v Hk) at 1. apply sum_map_insert, lookup_delete_eq.
Qed.
Lemma sum_map_nonneg m : (∀ k v, 0 ≤ g k v) → 0 ≤ sum_map g m.
Proof. intros Hg. apply sum_list_nonneg. intros [k v]. apply Hg. Qed.
Lemma sum_map_update m k v :
  sum_map g (<[k := v]> m) = sum_map g m + g k v - match m !! k with Some w => g k w | None => 0 end.
Proof.
  destruct (m !! k) as [w|] eqn:E.
  - rewrite <- insert_delete_eq, sum_map_insert by apply lookup_delete_eq.
    rewrite (sum_map_delete m k w E). lia.
  - rewrite sum_map_insert by done. lia.
Qed.
End sum_map.

(** ** Documents *)

(** A file as its author sees it: what was extracted, in span order. *)
Record Doc : Type := mkDoc { doc_language : option str; doc_meta : FileMeta; doc_ex : Extraction }.
Abbreviation dkey := (str * str * str)%type.

Definition opt_text (es : list (Z * str)) (o : option Z) : option (option str) :=
  match o with None => Some None | Some k => Some <$> entry_text k es end.
Definition decl_of_sym (es : list (Z * str)) (r : SymRec) : option SymbolDecl :=
  name ← entry_text (s_name r) es;
  lk ← opt_text es (s_lang_kind r);
  ow ← opt_text es (s_owner r);
  Some (mkSymbolDecl name (s_kind r) lk (s_span r) ow).
Definition decl_of_tok (es : list (Z * str)) (r : TokRec) : option TokenDecl :=
  text ← entry_text (t_term r) es;
  Some (mkTokenDecl text (t_class r) (t_span r)).
Definition decls_of (es : list (Z * str)) (s : Stream) (errors : bool) : option Extraction :=
  syms ← mapM (decl_of_sym es) (st_symbols s);
  toks ← mapM (decl_of_tok es) (st_tokens s);
  Some (mkExtraction syms toks errors).
Definition doc_of (es : list (Z * str)) (n : Node) (s : Stream) : option Doc :=
  ex ← decls_of es s (n_has_errors n);
  Some (mkDoc (n_language n) (mkFileMeta (n_origin n) (n_fingerprint n) (n_encoding n) (n_lossy n)) ex).

(** The catalog counters a document is part of. *)
Definition scope_of (k : dkey) (v : Doc) : Scope :=
  mkScope k.1.1 k.1.2 (default (lit "unknown") (doc_language v)) (fm_encoding (doc_meta v))
    (fm_lossy (doc_meta v)).
Definition sym_hits (sc : Scope) (c : str) (s : SymbolDecl) : Z :=
  node_hits sc (with_symbol_kind (blank 0 None Symbol []) (sd_kind s) (sd_lang_kind s)) c.
Definition tok_hits (sc : Scope) (c : str) (t : TokenDecl) : Z :=
  node_hits sc (with_token_class (blank 0 None Token []) (td_class t)) c.
Definition ex_hits (sc : Scope) (ex : Extraction) (c : str) : Z :=
  sum_list (sym_hits sc c) (ex_symbols ex) + sum_list (tok_hits sc c) (ex_tokens ex).
Definition doc_hits (c : str) (k : dkey) (v : Doc) : Z :=
  file_hits (scope_of k v) c + ex_hits (scope_of k v) (doc_ex v) c.
Definition total (a : gmap dkey Doc) (c : str) : Z := sum_map (doc_hits c) a.

(** ** The invariant, by groups of tables *)

Definition has_parent (N : gmap Z Node) (n : Node) (k : NodeKind) : Prop :=
  ∃ p m, n_parent n = Some p ∧ N !! p = Some m ∧ n_kind m = k.
Definition shape_ok (N : gmap Z Node) (n : Node) : Prop :=
  match n_kind n with
  | Org => n_parent n = None
  | Repo => has_parent N n Org
  | File => has_parent N n Repo
  | _ => False
  end.

(** Entity rows, names and children. Ids are below [next]. *)
Record ents_ok `{Serde} (nodes : gmap Z (list Z)) (names : gmap str Z) (kids : gmap (Z * Z) unit)
    (N : gmap Z Node) (next : Z) : Prop := mkEntsOk {
  en_nodes : nodes = enc <$> N;
  en_id id n : N !! id = Some n → n_id n = id ∧ 1 ≤ id < next;
  en_shape id n : N !! id = Some n → shape_ok N n;
  en_names k id : names !! k = Some id ↔
    ∃ n, N !! id = Some n ∧ k = name_key (n_parent n) (n_kind n) (n_name n);
  en_kids p c : kids !! (p, c) = Some () ↔ ∃ n, N !! c = Some n ∧ n_parent n = Some p;
  en_order id n p : N !! id = Some n → n_parent n = Some p → p < id;
  en_clean id n : N !! id = Some n → n_kind n ≠ File → nul_free (n_name n);
  en_max : 1 ≤ next ≤ MAX_LOCAL + 1;
}.

(** The derived sort keys: one row per file. *)
Definition file_row (N : gmap Z Node) (id : Z) : option (list Z) :=
  n ← N !! id;
  if decide (n_kind n = File) then match file_key_row n with Ok b => Some b | _ => None end else None.
Definition rows_ok (keys : gmap Z (list Z)) (N : gmap Z Node) : Prop :=
  ∀ id, keys !! id = file_row N id.

(** The row of a term in a stream's postings. *)
Definition post_row (s : Stream) (t : Z) : option (list Z) :=
  if decide (ords_with t (st_tokens s) = []) then None
  else Some (encode_posting (ords_with t (st_tokens s))).

(** Symbol [i] of file [f] has the name [k]. *)
Definition sym_at (S : gmap Z Stream) (es : list (Z * str)) (k : str) (id : Z) : Prop :=
  ∃ f s i r, S !! f = Some s ∧ st_symbols s !! i = Some r ∧ id = sub_id TAG_SYM f (Z.of_nat i) ∧
    entry_text (s_name r) es = Some k.

(** Streams, postings, symbol indexes and reference counts. *)
Record content_ok (streams : gmap Z (list Z)) (post : gmap (Z * Z) (list Z))
    (idx fold : gmap (str * Z) unit) (refs : gmap Z Z) (files : gmap (Z * Z) unit)
    (S : gmap Z Stream) (es : list (Z * str)) : Prop := mkContentOk {
  co_streams : streams = encode <$> S;
  co_stream f s : S !! f = Some s → 1 ≤ f ≤ MAX_LOCAL ∧ located s ∧ is_Some (decls_of es s false);
  co_post t f : post !! (t, f) = s ← S !! f; post_row s t;
  co_idx k id : idx !! (k, id) = Some () ↔ sym_at S es k id;
  co_fold k id : fold !! (k, id) = Some () ↔ ∃ name, k = fold_symbol_name name ∧ sym_at S es name id;
  co_refs c : refs !! c = _ ← S !! c; Some 1;
  co_files c f : files !! (c, f) = Some () ↔ c = f ∧ is_Some (S !! f);
}.

(** A document's place in the hierarchy. *)
Definition path_of (N : gmap Z Node) (f : Z) : option dkey :=
  n ← N !! f; r ← n_parent n; rn ← N !! r; o ← n_parent rn; on ← N !! o;
  if decide (n_kind n = File) then Some (n_name on, n_name rn, n_name n) else None.
Definition entry_at (N : gmap Z Node) (S : gmap Z Stream) (es : list (Z * str)) (f : Z)
    : option (dkey * Doc) :=
  k ← path_of N f; n ← N !! f; s ← S !! f; v ← doc_of es n s; Some (k, v).

(** Counter rows, and the mark of every repository. *)
Definition counter (k : str) : Prop := head k ≠ Some (Z.of_N 114).
#[global] Instance counter_dec k : Decision (counter k).
Proof. unfold counter. apply _. Defined.
Definition repo_at (N : gmap Z Node) (org repo : str) : Prop :=
  ∃ r rn o on, N !! r = Some rn ∧ n_kind rn = Repo ∧ n_parent rn = Some o ∧ N !! o = Some on ∧
    org = n_name on ∧ repo = n_name rn.
Definition marked (cat : gmap str Z) (N : gmap Z Node) : Prop :=
  ∀ k v, ¬ counter k → cat !! k = Some v ↔
    v = DERIVED_WRITER_MARK ∧ ∃ org repo, repo_at N org repo ∧ k = cat_key "r" [org; repo].

(** The catalog separates names by NUL, so they have none. *)
Definition clean_doc (v : Doc) : Prop :=
  (∀ l, doc_language v = Some l → nul_free l) ∧ (∀ e, fm_encoding (doc_meta v) = Some e → nul_free e) ∧
  Forall (λ s, ∀ k, sd_lang_kind s = Some k → nul_free k) (ex_symbols (doc_ex v)).

Section rep.
Context `{Redb tbl} `{Serde} (sha256 : list Z → list Z).

(** The store [d] represents the documents [a], with the entities [N], the
    streams [S] and the dictionary [es]. *)
Record rep (d : Db tbl) (a : gmap dkey Doc) (N : gmap Z Node) (S : gmap Z Stream)
    (es : list (Z * str)) (next next_term : Z) : Prop := mkRep {
  rp_ents : ents_ok (tbl_map (db_nodes d)) (tbl_map (db_names d)) (tbl_map (db_children d)) N next;
  rp_rows : rows_ok (tbl_map (db_file_keys d)) N;
  rp_dict : dict_ok sha256 d es next_term;
  rp_content : content_ok (tbl_map (db_streams d)) (tbl_map (db_post d)) (tbl_map (db_sym_idx d))
    (tbl_map (db_sym_fold d)) (tbl_map (db_refs d)) (tbl_map (db_content_files d)) S es;
  rp_link f : is_Some (S !! f) ↔ ∃ n, N !! f = Some n ∧ n_kind n = File;
  rp_docs k v : a !! k = Some v ↔ ∃ f, entry_at N S es f = Some (k, v);
  rp_cat : counts counter (total a) (db_cat d);
  rp_marks : marked (tbl_map (db_cat d)) N;
  rp_clean k v : a !! k = Some v → clean_doc v;
  rp_next : default 1 (tbl_map (db_meta d) !! lit "next_id") = next;
  rp_next_term : default 0 (tbl_map (db_meta d) !! lit "next_term") = next_term;
  rp_terms : 0 ≤ next_term;
}.

Definition stores (d : Db tbl) (a : gmap dkey Doc) : Prop :=
  ∃ N S es next next_term, rep d a N S es next next_term.

(** A new store holds no documents. *)
Lemma stores_empty : stores db_empty ∅.
Proof.
  exists ∅, ∅, [], 1, 0. split; cbn; rewrite ?tbl_empty_spec; try done.
  - split; [done|by intros ? ? ?%lookup_empty_Some..| | |by intros ? ? ? ?%lookup_empty_Some|by intros ? ? ?%lookup_empty_Some|done].
    + intros k id. split; [by intros ?%lookup_empty_Some|by intros (? & ?%lookup_empty_Some & _)].
    + intros k id. split; [by intros ?%lookup_empty_Some|by intros (? & ?%lookup_empty_Some & _)].
  - apply dict_empty.
  - split; try done; intros *; rewrite ?lookup_empty; try done.
    + split; [done|]. by intros (? & ? & ? & ? & ?%lookup_empty_Some & _).
    + split; [done|]. by intros (? & _ & ? & ? & ? & ? & ?%lookup_empty_Some & _).
    + split; [done|]. by intros [_ [? ?]].
  - intros f. rewrite !lookup_empty. split; [by intros []|by intros (? & ? & _)].
  - intros k v. rewrite lookup_empty. split; [done|]. intros (f & Hf). unfold entry_at, path_of in Hf.
    by rewrite lookup_empty in Hf.
  - intros k _. by rewrite tbl_empty_spec, lookup_empty.
  - intros k v _. rewrite lookup_empty. split; [done|]. by intros (_ & ? & ? & (? & ? & ? & ? & ?%lookup_empty_Some & _) & _).
Qed.
End rep.
