(* ===== verification/Entities.v ===== *)
(** * Entity rows

    The [ensure] closure of [V2Store::ingest_prepped] and the rows of orgs,
    repos and files ([graph-store/src/v2.rs]). *)
From S2P Require Import Prelude Text StrOps Schema Varint Stream Posting DictBlock Table DictRev Located.
From S2P Require Import Db Catalog Reader Write Dict Store.

Section entities.
Context `{Redb tbl} `{Serde}.
Implicit Types (d : Db tbl) (N : gmap Z Node) (n : Node).

Abbreviation ents d N next :=
  (ents_ok (tbl_map (db_nodes d)) (tbl_map (db_names d)) (tbl_map (db_children d)) N next).

(** A row's name key determines the row. *)
Lemma ents_key_inj nodes names kids N next i j n m :
  ents_ok nodes names kids N next → N !! i = Some n → N !! j = Some m →
  n_parent n = n_parent m → n_kind n = n_kind m → n_name n = n_name m → i = j.
Proof.
  intros He Hi Hj Hp Hk Hn.
  assert (names !! name_key (n_parent n) (n_kind n) (n_name n) = Some i) as H1 by (apply He; eauto).
  assert (names !! name_key (n_parent m) (n_kind m) (n_name m) = Some j) as H2 by (apply He; eauto).
  congruence.
Qed.

(** Parents have positive ids, so a key's parent field is not ambiguous. *)
Lemma ents_parent_pos nodes names kids N next i n p :
  ents_ok nodes names kids N next → N !! i = Some n → n_parent n = Some p → 1 ≤ p.
Proof.
  intros He Hi Hp. pose proof (en_shape _ _ _ _ _ He _ _ Hi) as Hs. unfold shape_ok, has_parent in Hs.
  destruct (n_kind n); try done; try congruence; destruct Hs as (q & m & Hq & Hm & _);
    apply (en_id _ _ _ _ _ He) in Hm; assert (q = p) as -> by congruence; lia.
Qed.
Definition parent_ok N (parent : option Z) (kind : NodeKind) : Prop :=
  match kind with
  | Org => parent = None
  | Repo => ∃ p m, parent = Some p ∧ N !! p = Some m ∧ n_kind m = Org
  | File => ∃ p m, parent = Some p ∧ N !! p = Some m ∧ n_kind m = Repo
  | _ => False
  end.
Lemma parent_default nodes names kids N next i n parent kind :
  ents_ok nodes names kids N next → N !! i = Some n → n_kind n = kind → parent_ok N parent kind →
  default 0 (n_parent n) = default 0 parent → n_parent n = parent.
Proof.
  intros He Hi Hk Hp Hd. pose proof (en_shape _ _ _ _ _ He _ _ Hi) as Hs.
  unfold shape_ok, has_parent in Hs. rewrite Hk in Hs.
  destruct kind; cbn in *; try done; try congruence;
    destruct Hs as (q & ? & Hq & _), Hp as (p & ? & -> & _); rewrite Hq in *; cbn in Hd; congruence.
Qed.

Lemma shape_mono N N' n : N ⊆ N' → shape_ok N n → shape_ok N' n.
Proof.
  intros Hsub. unfold shape_ok, has_parent.
  destruct (n_kind n); try done; intros (p & m & ? & ? & ?); exists p, m; eauto using lookup_weaken.
Qed.

(** The node [ensure] makes. *)
Definition fresh_node (id : Z) (parent : option Z) (kind : NodeKind) (name : str) (language : option str)
    : Node :=
  mkNode id parent kind name language None None None false None None None false None.

Lemma ents_insert nodes names kids N next parent kind name language :
  ents_ok nodes names kids N next → parent_ok N parent kind → next ≤ MAX_LOCAL →
  names !! name_key parent kind name = None → (kind ≠ File → nul_free name) →
  let n := fresh_node next parent kind name language in
  ents_ok (<[next := enc n]> nodes) (<[name_key parent kind name := next]> names)
    (match parent with Some p => <[(p, next) := ()]> kids | None => kids end)
    (<[next := n]> N) (next + 1).
Proof.
  intros He Hp Hmax Hfree Hclean0 n. destruct He as [Hnodes Hid Hshape Hnames Hkids Horder Hclean Hnext].
  assert (N !! next = None) as Hnone.
  { destruct (N !! next) as [m|] eqn:E; [|done]. apply Hid in E. lia. }
  assert (N ⊆ <[next := n]> N) as Hsub by by apply insert_subseteq.
  split; [| | | | | | |lia].
  - by rewrite Hnodes, fmap_insert.
  - intros i m [[<- <-]|[_ Hm%Hid]]%lookup_insert_Some; [cbn|]; lia.
  - intros i m [[<- <-]|[_ Hm%Hshape]]%lookup_insert_Some; [|by eapply shape_mono].
    apply (shape_mono N); [done|]. subst n. unfold shape_ok, has_parent, fresh_node. cbn [n_kind n_parent].
    by destruct kind.
  - intros k i. rewrite !lookup_insert_Some, Hnames. split.
    + intros [[<- <-]|[Hne (m & Hm & ->)]]; [exists n; by rewrite lookup_insert_eq|].
      exists m. split; [|done]. by eapply lookup_weaken.
    + intros (m & [[<- <-]|[Hne Hm]]%lookup_insert_Some & ->); [by left|]. right. split; [|by exists m].
      intros Heq. rewrite Heq in Hfree. assert (names !! name_key (n_parent m) (n_kind m) (n_name m) = Some i)
        by (apply Hnames; eauto). congruence.
  - intros p c. trans ((parent = Some p ∧ c = next) ∨ kids !! (p, c) = Some ()).
    { destruct parent as [q|]; [|naive_solver]. rewrite lookup_insert_Some. split.
      - intros [[[= <- <-] _]|[_ ?]]; auto.
      - intros [[[= <-] ->]|Hk]; [by left|]. destruct (decide ((q, next) = (p, c))); [by left|by right]. }
    rewrite Hkids. split.
    + intros [[Hq ->]|(m & Hm & Hpm)]; [exists n; by rewrite lookup_insert_eq|].
      exists m. split; [|done]. by eapply lookup_weaken.
    + intros (m & [[<- <-]|[Hne Hm]]%lookup_insert_Some & Hpm); [by left|]. right. by exists m.
  - intros i m p [[<- <-]|[_ Hm]]%lookup_insert_Some Hpm; [|by eapply Horder]. cbn in Hpm. subst parent.
    assert (∃ q, N !! p = Some q) as [q Hq].
    { destruct kind; cbn in Hp; try done; destruct Hp as (? & q & [= <-] & Hq & _); by exists q. }
    apply Hid in Hq. lia.
  - intros i m [[<- <-]|[_ Hm]]%lookup_insert_Some; [done|]. by eapply Hclean.
Qed.

(** [ensure] finds the row of a name or makes it; the other tables stay. *)
Definition ents_only d d' : Prop :=
  d' = upd_nodes (λ _, db_nodes d') (upd_names (λ _, db_names d') (upd_children (λ _, db_children d') d)).

Definition exhausted : StoreError := Storage (lit "entity id space exhausted").

Lemma ensure_run d N next parent kind name language :
  ents d N next → parent_ok N parent kind → (kind ≠ File → nul_free name) →
  (ensure parent kind name language (d, next) = Err exhausted ∧ MAX_LOCAL < next) ∨
  ∃ id existed d' N' next', ensure parent kind name language (d, next) = Ok (id, existed, (d', next')) ∧
    ents d' N' next' ∧ next ≤ next' ≤ next + 1 ∧ ents_only d d' ∧
    (∃ n, N' !! id = Some n ∧ n_parent n = parent ∧ n_kind n = kind ∧ n_name n = name) ∧
    (if existed : bool then N' = N
     else N !! id = None ∧ N' = <[id := fresh_node id parent kind name language]> N).
Proof.
  intros He Hp Hclean. unfold ensure. rewrite tbl_get_spec.
  destruct (tbl_map (db_names d) !! name_key parent kind name) as [id|] eqn:E.
  - right. exists id, true, d, N, next. split_and!; [done|done|lia|lia|by destruct d| |done].
    apply (en_names _ _ _ _ _ He) in E as (n & Hn & Hk).
    apply name_key_inj in Hk as (Hd & Hk & Hnm). exists n. split_and!; [done| |done|done].
    symmetry in Hd, Hk. by eapply parent_default.
  - destruct (MAX_LOCAL <? next) eqn:Hmax; bool_prop; [by left|right].
    exists next, false. eexists _, (<[next := fresh_node next parent kind name language]> N), (next + 1). split; [done|].
    pose proof (ents_insert _ _ _ _ _ _ _ name language He Hp Hmax E Hclean) as Hins.
    split_and!; [|lia|lia|by destruct parent, d|by eexists; split_and!; [apply lookup_insert_eq|done..]| |done].
    + destruct parent; cbn; by rewrite !tbl_insert_spec.
    + destruct (N !! next) as [m|] eqn:Em; [|done]. apply (en_id _ _ _ _ _ He) in Em. lia.
Qed.

(** Rewriting a row under the same name. *)
Lemma ents_update nodes names kids N next id n n' :
  ents_ok nodes names kids N next → N !! id = Some n → n_id n' = n_id n →
  n_parent n' = n_parent n → n_kind n' = n_kind n → n_name n' = n_name n →
  ents_ok (<[id := enc n']> nodes) names kids (<[id := n']> N) next.
Proof.
  intros [Hnodes Hid Hshape Hnames Hkids Horder Hclean Hnext] Hn Ei Ep Ek En.
  assert (∀ p m, N !! p = Some m → ∃ m', <[id := n']> N !! p = Some m' ∧ n_kind m' = n_kind m) as Hsim.
  { intros p m Hm. destruct (decide (p = id)) as [->|Hne].
    - exists n'. rewrite lookup_insert_eq. split; congruence.
    - exists m. by rewrite lookup_insert_ne. }
  assert (∀ m, shape_ok N m → shape_ok (<[id := n']> N) m) as Hsh.
  { intros m. unfold shape_ok, has_parent. destruct (n_kind m); try done;
      intros (p & q & Hp & Hq & Hk); destruct (Hsim _ _ Hq) as (q' & ? & ?); exists p, q'; split_and!; congruence. }
  assert (∀ i (P : Node → Prop), (P n' ↔ P n) → (∃ m, <[id := n']> N !! i = Some m ∧ P m) ↔ ∃ m, N !! i = Some m ∧ P m) as Hex.
  { intros i P HP. destruct (decide (i = id)) as [->|Hne].
    - rewrite lookup_insert_eq, Hn. naive_solver.
    - by rewrite lookup_insert_ne. }
  split; [by rewrite Hnodes, fmap_insert| | | | | | |done].
  - intros i m [[<- <-]|[_ Hm%Hid]]%lookup_insert_Some; [|done]. apply Hid in Hn. by rewrite Ei.
  - intros i m [[<- <-]|[_ Hm%Hshape]]%lookup_insert_Some; [|by apply Hsh].
    apply Hsh. apply Hshape in Hn. unfold shape_ok, has_parent in *. by rewrite Ek, Ep.
  - intros k i. by rewrite Hnames, (Hex i (λ m, k = name_key (n_parent m) (n_kind m) (n_name m))) by by rewrite Ep, Ek, En.
  - intros p c. by rewrite Hkids, (Hex c (λ m, n_parent m = Some p)) by by rewrite Ep.
  - intros i m p [[<- <-]|[_ Hm]]%lookup_insert_Some Hpm; [|by eapply Horder]. rewrite Ep in Hpm. by eapply Horder.
  - intros i m [[<- <-]|[_ Hm]]%lookup_insert_Some Hkm; [|by eapply Hclean]. rewrite En. rewrite Ek in Hkm. by eapply Hclean.
Qed.

(** Dropping a file's row. *)
Lemma ents_delete nodes names kids N next id n p :
  ents_ok nodes names kids N next → N !! id = Some n → n_kind n = File → n_parent n = Some p →
  ents_ok (delete id nodes) (delete (name_key (Some p) File (n_name n)) names) (delete (p, id) kids)
    (delete id N) next.
Proof.
  intros He Hn Hk Hp. destruct He as [Hnodes Hid Hshape Hnames Hkids Horder Hclean Hnext] eqn:EHe.
  assert (∀ m, shape_ok N m → shape_ok (delete id N) m) as Hsh.
  { intros m. unfold shape_ok, has_parent. destruct (n_kind m); try done; intros (q & w & Hq & Hw & Hkw);
      exists q, w; (split_and!; [done| |done]); rewrite lookup_delete_ne; [done|intros ->; congruence|done|intros ->; congruence]. }
  split; [by rewrite Hnodes, fmap_delete| | | | | | |done].
  - intros i m [_ Hm]%lookup_delete_Some. by apply Hid.
  - intros i m [_ Hm]%lookup_delete_Some. by eapply Hsh, Hshape.
  - intros k i. rewrite lookup_delete_Some, Hnames. split.
    + intros (Hne & m & Hm & ->). exists m. split; [|done]. rewrite lookup_delete_ne; [done|].
      intros ->. assert (m = n) as -> by congruence. by rewrite Hp, Hk in Hne.
    + intros (m & [Hne Hm]%lookup_delete_Some & ->). split; [|by exists m].
      intros (Hd & Hkm & Hnm)%name_key_inj. apply Hne.
      eapply (ents_key_inj _ _ _ _ _ id i n m He); [done|done| |congruence|congruence].
      rewrite Hp. symmetry. eapply (parent_default _ _ _ _ _ i m (Some p) File He); [done|congruence| |done].
      apply Hshape in Hn. unfold shape_ok, has_parent in Hn. rewrite Hk in Hn.
      destruct Hn as (q & w & Hq & Hw & Hkw). exists q, w. split_and!; congruence.
  - intros q c. rewrite lookup_delete_Some, Hkids. split.
    + intros (Hne & m & Hm & Hpm). exists m. split; [|done]. rewrite lookup_delete_ne; [done|].
      intros ->. apply Hne. congruence.
    + intros (m & [Hne Hm]%lookup_delete_Some & Hpm). split; [congruence|by exists m].
  - intros i m q [_ Hm]%lookup_delete_Some. by eapply Horder.
  - intros i m [_ Hm]%lookup_delete_Some. by eapply Hclean.
Qed.

(** ** Paths *)

Lemma path_of_Some N f k :
  path_of N f = Some k ↔
  ∃ n r rn o on, N !! f = Some n ∧ n_kind n = File ∧ n_parent n = Some r ∧ N !! r = Some rn ∧
    n_parent rn = Some o ∧ N !! o = Some on ∧ k = (n_name on, n_name rn, n_name n).
Proof.
  unfold path_of. split.
  - intros (n & Hn & (r & Hr & (rn & Hrn & (o & Ho & (on & Hon & Hk)%bind_Some)%bind_Some)%bind_Some)%bind_Some)%bind_Some.
    case_decide; [|done]. injection Hk as <-. by exists n, r, rn, o, on.
  - intros (n & r & rn & o & on & Hn & Hk & Hr & Hrn & Ho & Hon & ->). rewrite Hn. cbn [mbind option_bind].
    rewrite Hr. cbn [mbind option_bind]. rewrite Hrn. cbn [mbind option_bind]. rewrite Ho. cbn [mbind option_bind].
    rewrite Hon. cbn [mbind option_bind]. by rewrite decide_True.
Qed.

(** The kinds along a path. *)
Lemma file_parents nodes names kids N next f n :
  ents_ok nodes names kids N next → N !! f = Some n → n_kind n = File →
  ∃ r rn o on, n_parent n = Some r ∧ N !! r = Some rn ∧ n_kind rn = Repo ∧ n_parent rn = Some o ∧
    N !! o = Some on ∧ n_kind on = Org ∧ n_parent on = None.
Proof.
  intros He Hn Hk. pose proof (en_shape _ _ _ _ _ He _ _ Hn) as Hs. unfold shape_ok in Hs. rewrite Hk in Hs.
  destruct Hs as (r & rn & Hr & Hrn & Hkr). pose proof (en_shape _ _ _ _ _ He _ _ Hrn) as Hs.
  unfold shape_ok in Hs. rewrite Hkr in Hs. destruct Hs as (o & on & Ho & Hon & Hko).
  pose proof (en_shape _ _ _ _ _ He _ _ Hon) as Hs. unfold shape_ok in Hs. rewrite Hko in Hs.
  by exists r, rn, o, on.
Qed.

(** Two files do not share a path. *)
Lemma path_unique nodes names kids N next f g k :
  ents_ok nodes names kids N next → path_of N f = Some k → path_of N g = Some k → f = g.
Proof.
  intros He (n & r & rn & o & on & Hn & Hk & Hr & Hrn & Ho & Hon & ->)%path_of_Some
    (m & q & qn & p & pn & Hm & Hkm & Hq & Hqn & Hp & Hpn & [= E1 E2 E3])%path_of_Some.
  destruct (file_parents _ _ _ _ _ _ _ He Hn Hk) as (r' & rn' & o' & on' & Hr' & Hrn' & Hkr & Ho' & Hon' & Hko & Hpo).
  destruct (file_parents _ _ _ _ _ _ _ He Hm Hkm) as (q' & qn' & p' & pn' & Hq' & Hqn' & Hkq & Hp' & Hpn' & Hkp & Hpp).
  assert (r' = r) as -> by congruence. assert (rn' = rn) as -> by congruence.
  assert (o' = o) as -> by congruence. assert (on' = on) as -> by congruence.
  assert (q' = q) as -> by congruence. assert (qn' = qn) as -> by congruence.
  assert (p' = p) as -> by congruence. assert (pn' = pn) as -> by congruence.
  assert (o = p) as -> by (eapply (ents_key_inj _ _ _ _ _ _ _ _ _ He Hon Hpn); congruence).
  assert (r = q) as -> by (eapply (ents_key_inj _ _ _ _ _ _ _ _ _ He Hrn Hqn); congruence).
  eapply (ents_key_inj _ _ _ _ _ _ _ _ _ He Hn Hm); congruence.
Qed.

(** The files with a repository's names hang under its row. *)
Lemma file_under nodes names kids N next r rn o on f p :
  ents_ok nodes names kids N next → N !! r = Some rn → n_kind rn = Repo → n_parent rn = Some o → N !! o = Some on →
  path_of N f = Some (n_name on, n_name rn, p) →
  ∃ n, N !! f = Some n ∧ n_kind n = File ∧ n_parent n = Some r ∧ n_name n = p.
Proof.
  intros He Hr Hkr Hpr Ho (n & q & qn & t & tn & Hn & Hk & Hq & Hqn & Ht & Htn & [= E1 E2 E3])%path_of_Some.
  destruct (file_parents _ _ _ _ _ _ _ He Hn Hk) as (q' & qn' & t' & tn' & Hq' & Hqn' & Hkq & Ht' & Htn' & Hkt & Hpt).
  pose proof (en_shape _ _ _ _ _ He _ _ Hr) as Hs. unfold shape_ok, has_parent in Hs. rewrite Hkr in Hs.
  destruct Hs as (o' & on' & Ho' & Hon' & Hko). pose proof (en_shape _ _ _ _ _ He _ _ Hon') as Hpo.
  unfold shape_ok in Hpo. rewrite Hko in Hpo.
  assert (t' = o') as -> by (eapply (ents_key_inj _ _ _ _ _ _ _ _ _ He Htn' Hon'); congruence).
  assert (q' = r) as -> by (eapply (ents_key_inj _ _ _ _ _ _ _ _ _ He Hqn' Hr); congruence).
  by exists n.
Qed.

(** A file keeps its path as long as its rows' names stay. *)
Lemma path_of_keeps nodes names kids N N' next f n :
  ents_ok nodes names kids N next → N !! f = Some n → n_kind n = File → N' !! f = Some n →
  (∀ i m, N !! i = Some m → n_kind m ≠ File → N' !! i = Some m) → path_of N' f = path_of N f.
Proof.
  intros He Hn Hk Hf Hkeep. destruct (file_parents _ _ _ _ _ _ _ He Hn Hk) as (r & rn & o & on & Hr & Hrn & Hkr & Ho & Hon & Hko & _).
  unfold path_of. rewrite Hf, Hn. cbn [mbind option_bind]. rewrite Hr. cbn [mbind option_bind].
  rewrite (Hkeep _ _ Hrn), Hrn by congruence. cbn [mbind option_bind]. rewrite Ho. cbn [mbind option_bind].
  by rewrite (Hkeep _ _ Hon), Hon by congruence.
Qed.
Lemma path_of_is_Some nodes names kids N next f n :
  ents_ok nodes names kids N next → N !! f = Some n → n_kind n = File → is_Some (path_of N f).
Proof.
  intros He Hn Hk. destruct (file_parents _ _ _ _ _ _ _ He Hn Hk) as (r & rn & o & on & Hr & Hrn & _ & Ho & Hon & _).
  eexists. apply path_of_Some. by exists n, r, rn, o, on.
Qed.
End entities.
