(* ===== verification/Content.v ===== *)
(** * A file's content

    [remove_content] and the half of [ingest_prepped] that stores a stream
    ([graph-store/src/v2.rs]): streams, postings, symbol indexes, reference
    counts and the catalog tally stay in step. *)
From S2P Require Import Prelude Text StrOps Schema Varint Stream StreamRound Posting DictBlock Table DictRev.
From S2P Require Import Walk Prep Located Db Catalog Reader Write Dict Store.

(** ** Folds over tables *)
Section folds.
Context `{Redb tbl} `{Countable K} {V : Type}.
Implicit Types (t : tbl K _ _ V).

Lemma removes_lookup {A} (f : A → K) (l : list A) t k :
  tbl_map (foldl (λ t a, tbl_remove (f a) t) t l) !! k = if decide (k ∈ f <$> l) then None else tbl_map t !! k.
Proof.
  revert t. induction l as [|a l IH]; intros t; [by rewrite decide_False by apply not_elem_of_nil|].
  cbn [foldl fmap list_fmap]. rewrite IH, tbl_remove_spec.
  destruct (decide (k ∈ f <$> l)) as [Hk|Hk].
  - rewrite decide_True; [done|]. by right.
  - destruct (decide (k = f a)) as [->|Hne].
    + rewrite lookup_delete_eq. by rewrite decide_True by left.
    + rewrite lookup_delete_ne, decide_False by (try done; set_solver). done.
Qed.
End folds.

Lemma inserts_lookup `{Redb tbl} `{Countable K} {A} (f : A → K) (l : list A) (t : tbl K _ _ unit) k :
  tbl_map (foldl (λ t a, tbl_insert (f a) () t) t l) !! k =
  if decide (k ∈ f <$> l) then Some () else tbl_map t !! k.
Proof.
  revert t. induction l as [|a l IH]; intros t; [by rewrite decide_False by apply not_elem_of_nil|].
  cbn [foldl fmap list_fmap]. rewrite IH, tbl_insert_spec.
  destruct (decide (k ∈ f <$> l)) as [Hk|Hk].
  - rewrite decide_True; [done|]. by right.
  - destruct (decide (k = f a)) as [->|Hne].
    + rewrite lookup_insert_eq. by rewrite decide_True by left.
    + rewrite lookup_insert_ne, decide_False by (try done; set_solver). done.
Qed.

(** ** Token ranges change nothing else *)

Lemma with_ranges_fmap {B} (g : SymRec → B) s :
  (∀ r x, g (set_toks r x) = g r) → g <$> st_symbols (with_ranges s) = g <$> st_symbols s.
Proof.
  intros Hg. unfold with_ranges. cbn [st_symbols].
  destruct (compute_ranges_ok (st_symbols s) (st_tokens s)) as [Hl _].
  revert Hl. generalize (compute_ranges (st_symbols s) (st_tokens s)).1 as rs.
  induction (st_symbols s) as [|r l IH]; intros [|x rs] Hl; try done. cbn. rewrite Hg, IH; [done|].
  cbn in Hl. lia.
Qed.
Lemma mapM_fmap {A B} (f : A → option B) l : mapM f l = mapM id (f <$> l).
Proof. induction l as [|a l IH]; [done|]. cbn in *. by rewrite IH. Qed.
Lemma decls_with_ranges es s b : decls_of es (with_ranges s) b = decls_of es s b.
Proof. unfold decls_of. by rewrite !(mapM_fmap (decl_of_sym es)), with_ranges_fmap. Qed.

(** ** Index rows *)

(** The rows of a file's symbols in the name index. *)
Definition idx_rows (es : list (Z * str)) (f : Z) (syms : list SymRec) : list (str * Z) :=
  omap (λ ir : nat * SymRec, name ← entry_text (s_name ir.2) es; Some (name, sub_id TAG_SYM f (Z.of_nat ir.1)))
    (enumerate syms).

Lemma idx_rows_elem es f syms k id :
  (k, id) ∈ idx_rows es f syms ↔
  ∃ i r, syms !! i = Some r ∧ id = sub_id TAG_SYM f (Z.of_nat i) ∧ entry_text (s_name r) es = Some k.
Proof.
  unfold idx_rows. rewrite list_elem_of_omap. split.
  - intros ([i r] & Hi%enumerate_elem & Hk). cbn in Hk. exists i, r.
    destruct (entry_text (s_name r) es) as [n|]; [|done]. by injection Hk as -> ->.
  - intros (i & r & Hi & -> & Hk). exists (i, r). rewrite enumerate_elem. cbn. by rewrite Hk.
Qed.

Lemma sub_id_inj f g i j :
  1 ≤ f ≤ MAX_LOCAL → 1 ≤ g ≤ MAX_LOCAL → Z.of_nat i < 2 ^ 32 → Z.of_nat j < 2 ^ 32 →
  sub_id TAG_SYM f (Z.of_nat i) = sub_id TAG_SYM g (Z.of_nat j) → f = g ∧ i = j.
Proof.
  intros Hf Hg Hi Hj Heq. unfold TAG_SYM in *.
  pose proof (sub_id_run 1 f (Z.of_nat i) ltac:(lia) ltac:(lia) ltac:(unfold u32; lia)) as [_ H1].
  pose proof (sub_id_run 1 g (Z.of_nat j) ltac:(lia) ltac:(lia) ltac:(unfold u32; lia)) as [_ H2].
  rewrite Heq, H2 in H1. injection H1. lia.
Qed.

(** ** The tally of a stream *)

Definition counters (t : Tally) : Prop := ∀ c, is_Some (t !! c) → counter c.

Lemma counters_add key d t : counter key → counters t → counters (Tally_add key d t).
Proof.
  intros Hk Ht c Hc. unfold Tally_add in Hc. destruct (decide (key = c)) as [<-|Hne]; [done|].
  rewrite lookup_insert_ne in Hc by done. by apply Ht.
Qed.
Lemma counters_file sc d t : counters t → counters (Tally_file sc d t).
Proof.
  intros Ht. unfold Tally_file, Tally_encoding.
  destruct (sc_encoding sc), (sc_lossy sc); by repeat apply counters_add.
Qed.
Lemma counters_node sc n d t : counters t → counters (Tally_node sc n d t).
Proof.
  intros Ht. unfold Tally_node. destruct (n_kind n); [done..| |]; [|case_match]; by repeat apply counters_add.
Qed.

Section content.
Context `{Redb tbl} `{Serde} (sha256 : list Z → list Z).
Implicit Types (d : Db tbl).

Lemma text_run d es next k t : dict_ok sha256 d es next → entry_text k es = Some t → text d k = Ok t.
Proof. intros Hd Hk. unfold text. by rewrite (rev_text _ _ _ _ _ Hd), Hk. Qed.

Lemma tally_syms_run d es next sc f delta l decls t :
  dict_ok sha256 d es next → mapM (decl_of_sym es) l = Some decls →
  ∃ t', try_fold (tally_sym d sc f delta) t l = Ok t' ∧ (counters t → counters t') ∧
    ∀ c, tally_at t' c = tally_at t c + delta * sum_list (sym_hits sc c) decls.
Proof.
  intros Hd. revert decls t. induction l as [|r l IH]; intros decls t Hl.
  { injection Hl as <-. exists t. split_and!; [done|done|]. intros c. cbn. lia. }
  cbn in Hl. apply bind_Some in Hl as (s & Hs & Hl). apply bind_Some in Hl as (decls' & Hl & [= <-]).
  unfold decl_of_sym in Hs. apply bind_Some in Hs as (name & _ & Hs). apply bind_Some in Hs as (lk & Hlk & Hs).
  apply bind_Some in Hs as (ow & _ & [= <-]). cbn [try_fold].
  assert (tally_sym d sc f delta t r =
    Ok (Tally_node sc (with_symbol_kind (blank 0 (Some f) Symbol []) (s_kind r) lk) delta t)) as ->.
  { unfold tally_sym, opt_text in *. destruct (s_lang_kind r) as [k|]; [|by injection Hlk as <-].
    apply fmap_Some in Hlk as (x & Hx & ->). by rewrite (text_run d es next k x Hd Hx). }
  cbn [mbind outcome_mbind outcome_bind].
  destruct (IH decls' (Tally_node sc (with_symbol_kind (blank 0 (Some f) Symbol []) (s_kind r) lk) delta t) Hl)
    as (t' & -> & Hc & Hat).
  exists t'. split_and!; [done|intros; by apply Hc, counters_node|]. intros c. rewrite Hat, tally_at_node.
  cbn [sum_list]. unfold sym_hits at 2. cbn [sd_kind sd_lang_kind].
  change (node_hits sc (with_symbol_kind (blank 0 (Some f) Symbol []) (s_kind r) lk) c)
    with (node_hits sc (with_symbol_kind (blank 0 None Symbol []) (s_kind r) lk) c). lia.
Qed.

Lemma tally_toks_run es sc f delta l decls t :
  mapM (decl_of_tok es) l = Some decls →
  (counters t → counters (foldl (tally_tok sc f delta) t l)) ∧
  ∀ c, tally_at (foldl (tally_tok sc f delta) t l) c = tally_at t c + delta * sum_list (tok_hits sc c) decls.
Proof.
  revert decls t. induction l as [|r l IH]; intros decls t Hl.
  { injection Hl as <-. split; [done|]. intros c. cbn. lia. }
  cbn in Hl. apply bind_Some in Hl as (s & Hs & Hl). apply bind_Some in Hl as (decls' & Hl & [= <-]).
  unfold decl_of_tok in Hs. apply bind_Some in Hs as (text & _ & [= <-]). cbn [foldl].
  destruct (IH decls' (tally_tok sc f delta t r) Hl) as [Hc Hat]. split.
  { intros Ht. by apply Hc, counters_node. }
  intros c. rewrite Hat. unfold tally_tok. rewrite tally_at_node. cbn [sum_list]. unfold tok_hits at 2. cbn [td_class].
  change (node_hits sc (with_token_class (blank 0 (Some f) Token []) (t_class r)) c)
    with (node_hits sc (with_token_class (blank 0 None Token []) (t_class r)) c). lia.
Qed.

Lemma tally_stream_run d es next sc f delta s b ex t :
  dict_ok sha256 d es next → decls_of es s b = Some ex →
  ∃ t', tally_stream d t sc f s delta = Ok t' ∧ (counters t → counters t') ∧
    ∀ c, tally_at t' c = tally_at t c + delta * ex_hits sc ex c.
Proof.
  intros Hd Hex. unfold decls_of in Hex. apply bind_Some in Hex as (syms & Hs & Hex).
  apply bind_Some in Hex as (toks & Ht & [= <-]).
  destruct (tally_syms_run d es next sc f delta _ _ t Hd Hs) as (t1 & H1 & Hc1 & Hat1).
  destruct (tally_toks_run es sc f delta _ _ t1 Ht) as [Hc2 Hat2].
  unfold tally_stream. rewrite H1. cbn [mbind outcome_mbind outcome_bind]. eexists. split; [done|].
  split; [auto|]. intros c. rewrite Hat2, Hat1. unfold ex_hits. cbn [ex_symbols ex_tokens]. lia.
Qed.

(** ** Removing *)

Lemma foldl_upd_post l d f :
  foldl (λ d term, upd_post (tbl_remove (term, f)) d) d l =
  upd_post (λ p, foldl (λ p term, tbl_remove (term, f) p) p l) d.
Proof. revert d. induction l as [|x l IH]; intros d; [by destruct d|]. cbn [foldl]. by rewrite IH. Qed.

Definition fold_row (kid : str * Z) : str * Z := (fold_symbol_name kid.1, kid.2).

Lemma unindex_run d es f l :
  (∀ i r, (i, r) ∈ l → ∃ name, entry_text (s_name r) es = Some name ∧ text d (s_name r) = Ok name) →
  let rows := omap (λ ir : nat * SymRec, name ← entry_text (s_name ir.2) es;
                      Some (name, sub_id TAG_SYM f (Z.of_nat ir.1))) l in
  try_fold (unindex_sym f) d l =
  Ok (upd_sym_fold (λ t, foldl (λ t kid, tbl_remove (fold_row kid) t) t rows)
       (upd_sym_idx (λ t, foldl (λ t kid, tbl_remove kid t) t rows) d)).
Proof.
  revert d. induction l as [|[i r] l IH]; intros d Hl; [by destruct d|]. cbn [try_fold omap list_omap].
  destruct (Hl i r) as (name & Hn & Ht); [by left|]. unfold unindex_sym at 2. rewrite Ht.
  cbn [mbind outcome_mbind outcome_bind snd fst option_bind]. rewrite IH.
  - rewrite Hn. done.
  - intros j q Hj. destruct (Hl j q) as (nm & ? & ?); [by right|]. by exists nm.
Qed.

Lemma token_terms_elem toks t : t ∈ token_terms toks ↔ ords_with t toks ≠ [].
Proof.
  unfold token_terms. rewrite list_elem_of_fmap. split.
  - intros ([k []] & -> & Hin%gmap_rows_elem). apply elem_of_list_to_map_2 in Hin.
    apply list_elem_of_fmap in Hin as (tok & [= ->] & Hin). apply list_elem_of_lookup in Hin as [i Hi].
    unfold ords_with. intros Hnil%fmap_nil_inv.
    by destruct (filter_nil_inv _ _ (i, tok) Hnil (proj2 (enumerate_elem _ _ _) Hi)).
  - intros Hne. destruct (ords_with t toks) as [|o l] eqn:E; [done|].
    assert (o ∈ ords_with t toks) as Ho by (rewrite E; by left). unfold ords_with in Ho.
    apply list_elem_of_fmap in Ho as ([i tok] & _ & [Ht Hi%enumerate_elem]%list_elem_of_filter). cbn in Ht.
    exists (t, ()). split; [done|]. apply gmap_rows_elem.
    destruct (list_to_map ((λ t, (t_term t, ())) <$> toks) !! t) as [[]|] eqn:Es; [done|].
    apply not_elem_of_list_to_map_2 in Es. destruct Es. rewrite <- list_fmap_compose.
    apply list_elem_of_fmap. exists tok. split; [done|]. by eapply list_elem_of_lookup_2.
Qed.

(** The tables a file's content is in. *)
Definition content_only d d' : Prop :=
  d' = upd_streams (λ _, db_streams d') (upd_post (λ _, db_post d') (upd_sym_idx (λ _, db_sym_idx d')
    (upd_sym_fold (λ _, db_sym_fold d') (upd_refs (λ _, db_refs d')
      (upd_content_files (λ _, db_content_files d') d))))).
Abbreviation content d S es :=
  (content_ok (tbl_map (db_streams d)) (tbl_map (db_post d)) (tbl_map (db_sym_idx d))
    (tbl_map (db_sym_fold d)) (tbl_map (db_refs d)) (tbl_map (db_content_files d)) S es).

Lemma decls_names es s b ex i r :
  decls_of es s b = Some ex → st_symbols s !! i = Some r → is_Some (entry_text (s_name r) es).
Proof.
  intros Hex Hi. unfold decls_of in Hex. apply bind_Some in Hex as (syms & Hs & _).
  apply mapM_Some in Hs. destruct (Forall2_lookup_l _ _ _ _ _ Hs Hi) as (sd & _ & Hsd).
  unfold decl_of_sym in Hsd. apply bind_Some in Hsd as (name & -> & _). done.
Qed.

(** The symbol indexes without a file. *)
Definition sizes_ok (S : gmap Z Stream) : Prop :=
  ∀ g s, S !! g = Some s → 1 ≤ g ≤ MAX_LOCAL ∧ Z.of_nat (length (st_symbols s)) ≤ 2 ^ 32.

Lemma sym_at_owner S es f s k k' id :
  sizes_ok S → S !! f = Some s → sym_at S es k id → (k', id) ∈ idx_rows es f (st_symbols s) →
  k' = k ∧ (k, id) ∈ idx_rows es f (st_symbols s).
Proof.
  intros Hok Hf (g & s' & i & r & Hg & Hi & -> & Hk) (j & q & Hj & Hid & Hk')%idx_rows_elem.
  destruct (Hok _ _ Hf), (Hok _ _ Hg). pose proof (lookup_lt_Some _ _ _ Hi). pose proof (lookup_lt_Some _ _ _ Hj).
  apply sub_id_inj in Hid as [-> ->]; [|lia..]. assert (s' = s) as -> by congruence.
  assert (r = q) as -> by congruence. split; [congruence|]. apply idx_rows_elem. by exists j, q.
Qed.
Lemma sym_at_delete S es f s k id :
  sizes_ok S → S !! f = Some s →
  sym_at (delete f S) es k id ↔ sym_at S es k id ∧ (k, id) ∉ idx_rows es f (st_symbols s).
Proof.
  intros Hok Hf. split.
  - intros (g & s' & i & r & [Hne Hg]%lookup_delete_Some & Hi & -> & Hk). split; [by exists g, s', i, r|].
    rewrite idx_rows_elem. intros (j & q & Hj & Hid & _). destruct (Hok _ _ Hf), (Hok _ _ Hg).
    apply lookup_lt_Some in Hi, Hj. apply sub_id_inj in Hid as [? _]; [done|lia..].
  - intros [(g & s' & i & r & Hg & Hi & -> & Hk) Hn]. exists g, s', i, r. split_and!; try done.
    rewrite lookup_delete_ne; [done|]. intros <-. apply Hn, idx_rows_elem. exists i, r.
    assert (s' = s) as -> by congruence. done.
Qed.

Lemma content_sizes streams post idx fold refs files S es :
  content_ok streams post idx fold refs files S es → sizes_ok S.
Proof. intros Hc g s Hg. destruct (co_stream _ _ _ _ _ _ _ _ Hc _ _ Hg) as (? & L & _). split; [done|]. apply L. Qed.

Lemma content_delete streams post idx fold refs files S es f s post' idx' fold' :
  content_ok streams post idx fold refs files S es → S !! f = Some s →
  (∀ k, post' !! k = if decide (k ∈ (λ t, (t, f)) <$> token_terms (st_tokens s)) then None else post !! k) →
  (∀ k, idx' !! k = if decide (k ∈ idx_rows es f (st_symbols s)) then None else idx !! k) →
  (∀ k, fold' !! k = if decide (k ∈ fold_row <$> idx_rows es f (st_symbols s)) then None else fold !! k) →
  content_ok (delete f streams) post' idx' fold' (delete f refs) (delete (f, f) files) (delete f S) es.
Proof.
  intros Hc Hf Hpost Hidx Hfold. pose proof (content_sizes _ _ _ _ _ _ _ _ Hc) as Hsz.
  destruct Hc as [Hs Hst Hp Hi Hfd Hr Hfl]. split.
  - by rewrite Hs, fmap_delete.
  - intros g s' [_ Hg]%lookup_delete_Some. by apply Hst.
  - intros t g. rewrite Hpost, Hp. destruct (decide (g = f)) as [->|Hne].
    + rewrite lookup_delete_eq, Hf. cbn. case_decide as Ht; [done|]. unfold post_row. rewrite decide_True; [done|].
      apply dec_stable. intros Hne%token_terms_elem. apply Ht, list_elem_of_fmap. by exists t.
    + rewrite lookup_delete_ne, decide_False by (try done; intros (x & [= _ ->] & _)%list_elem_of_fmap; done). done.
  - intros k id. rewrite Hidx, (sym_at_delete S es f s k id Hsz Hf), <- Hi. case_decide; naive_solver.
  - intros k id. rewrite Hfold. setoid_rewrite (sym_at_delete S es f s _ id Hsz Hf). split.
    + case_decide as Hk; [done|]. intros (name & -> & Hat)%Hfd. exists name. split_and!; [done|done|].
      intros Hrow. apply Hk, list_elem_of_fmap. by exists (name, id).
    + intros (name & -> & Hat & Hrow). rewrite decide_False; [apply Hfd; by exists name|].
      intros ([k' id'] & [= _ ->] & Hin)%list_elem_of_fmap. apply Hrow.
      by destruct (sym_at_owner S es f s name k' id' Hsz Hf Hat Hin).
  - intros c. destruct (decide (c = f)) as [->|Hne].
    + by rewrite !lookup_delete_eq.
    + by rewrite !lookup_delete_ne by done.
  - intros c g. rewrite lookup_delete_Some, Hfl, lookup_delete_is_Some. naive_solver.
Qed.

Lemma idx_rows_ranges es f s : idx_rows es f (st_symbols (with_ranges s)) = idx_rows es f (st_symbols s).
Proof.
  unfold idx_rows, enumerate. pose proof (with_ranges_fmap (λ r, entry_text (s_name r) es) s ltac:(done)) as Heq.
  revert Heq. generalize (st_symbols (with_ranges s)) as l, (st_symbols s) as k, 0%nat as n.
  induction l as [|r l IH]; intros [|q k] n Heq; try done. cbn [fmap list_fmap] in Heq. injection Heq as Hrq Heq.
  cbn [enum_from omap list_omap fst snd]. rewrite Hrq. by rewrite (IH k (S n) Heq).
Qed.

Lemma remove_stream_run d es next f s b ex sc t :
  dict_ok sha256 d es next → decls_of es s b = Some ex →
  ∃ d' t', remove_stream d f sc t (with_ranges s) = Ok (d', t') ∧
    db_streams d' = tbl_remove f (db_streams d) ∧
    (∀ k, tbl_map (db_post d') !! k =
       if decide (k ∈ (λ t, (t, f)) <$> token_terms (st_tokens s)) then None else tbl_map (db_post d) !! k) ∧
    (∀ k, tbl_map (db_sym_idx d') !! k =
       if decide (k ∈ idx_rows es f (st_symbols s)) then None else tbl_map (db_sym_idx d) !! k) ∧
    (∀ k, tbl_map (db_sym_fold d') !! k =
       if decide (k ∈ fold_row <$> idx_rows es f (st_symbols s)) then None else tbl_map (db_sym_fold d) !! k) ∧
    d' = upd_streams (λ _, db_streams d') (upd_post (λ _, db_post d') (upd_sym_idx (λ _, db_sym_idx d')
      (upd_sym_fold (λ _, db_sym_fold d') d))) ∧
    (counters t → counters t') ∧ ∀ c, tally_at t' c = tally_at t c - ex_hits sc ex c.
Proof.
  intros Hd Hex. unfold remove_stream.
  assert (dict_ok sha256 (upd_streams (tbl_remove f) d) es next) as Hd' by by destruct Hd.
  rewrite <- decls_with_ranges in Hex.
  destruct (tally_stream_run _ es next sc f (-1) (with_ranges s) b ex t Hd' Hex) as (t' & -> & Hcs & Hat).
  cbn [mbind outcome_mbind outcome_bind]. rewrite foldl_upd_post, (unindex_run _ es f).
  2:{ intros i r Hi%enumerate_elem. destruct (decls_names _ _ _ _ _ _ Hex Hi) as [name Hn].
      exists name. split; [done|]. exact (text_run _ es next _ _ Hd Hn). }
  cbn [mbind outcome_mbind outcome_bind]. fold (idx_rows es f (st_symbols (with_ranges s))).
  rewrite idx_rows_ranges. eexists _, t'. split; [done|]. split_and!.
  - done.
  - intros k. apply (removes_lookup (λ t, (t, f))).
  - intros k. cbn. rewrite (removes_lookup id). by rewrite list_fmap_id.
  - intros k. apply (removes_lookup fold_row).
  - by destruct d.
  - done.
  - intros c. rewrite Hat. lia.
Qed.

(** Removing a file's content. *)
Lemma remove_content_run d S es next f s b ex sc t :
  content d S es → dict_ok sha256 d es next → S !! f = Some s → decls_of es s b = Some ex →
  ∃ d' t', remove_content d f sc t = Ok (d', t') ∧ content d' (delete f S) es ∧ content_only d d' ∧
    (counters t → counters t') ∧ ∀ c, tally_at t' c = tally_at t c - ex_hits sc ex c.
Proof.
  intros Hc Hd Hf Hex. unfold remove_content. rewrite tbl_get_spec, (co_streams _ _ _ _ _ _ _ _ Hc), lookup_fmap, Hf.
  cbn [fmap option_fmap option_map].
  rewrite decode_encode_run by apply (co_stream _ _ _ _ _ _ _ _ Hc _ _ Hf).
  cbn [mbind outcome_mbind outcome_bind]. unfold content_id.
  assert (tbl_get (db_refs (upd_content_files (tbl_remove (f, f)) d)) f = Some 1) as ->.
  { rewrite tbl_get_spec. etransitivity; [apply (co_refs _ _ _ _ _ _ _ _ Hc)|]. by rewrite Hf. }
  change (0 <? Z.max 0 (default 0 (Some 1) - 1)) with false. cbv iota.
  set (d1 := upd_refs (tbl_remove f) (upd_content_files (tbl_remove (f, f)) d)).
  assert (dict_ok sha256 d1 es next) as Hd1 by by destruct Hd.
  destruct (remove_stream_run d1 es next f s b ex sc t Hd1 Hex) as (d' & t' & Hrun & Hst & Hp & Hi & Hfo & Hd' & Hcs & Hat).
  exists d', t'. split; [done|].
  assert (db_refs d' = tbl_remove f (db_refs d) ∧ db_content_files d' = tbl_remove (f, f) (db_content_files d))
    as [Hr Hfl] by by rewrite Hd'.
  split_and!; [|by rewrite Hd'; destruct d|done|done].
  rewrite Hst, Hr, Hfl, !tbl_remove_spec. by eapply content_delete.
Qed.
End content.
