(* ===== verification/Storing.v ===== *)
(** * Storing a prepared stream

    The second half of [V2Store::ingest_prepped] ([graph-store/src/v2.rs]):
    interning the terms of a [V2Prep], putting the dictionary ids into its
    stream, and writing the stream, its postings and its symbol rows. *)
From S2P Require Import Prelude Text StrOps Schema Varint Stream StreamRound Posting DictBlock Table DictRev.
From S2P Require Import Walk Prep Located Db Catalog Reader Write Dict Store Content.

(** ** Renaming *)

Definition ren_opt (ids : list Z) (o : option Z) : option (option Z) :=
  match o with None => Some None | Some k => Some <$> ids !! Z.to_nat k end.
Definition ren_sym (ids : list Z) (r : SymRec) : option SymRec :=
  nm ← ids !! Z.to_nat (s_name r);
  lk ← ren_opt ids (s_lang_kind r);
  ow ← ren_opt ids (s_owner r);
  Some (mkSymRec nm (s_kind r) lk (s_parent r) (s_span r) (s_toks r) ow).
Definition ren_tok (ids : list Z) (t : TokRec) : option TokRec :=
  term ← ids !! Z.to_nat (t_term t);
  Some (mkTokRec term (t_class t) (t_parent t) (t_span t)).

Section rename.
Context (es : list (Z * str)) (terms : list str) (ids : list Z).
Hypothesis Hids : Forall2 (λ id t, (id, t) ∈ es) ids terms.
Hypothesis Hes : NoDup es.*1.

Lemma ren_term i t : term_is terms i t → ∃ id, ids !! Z.to_nat i = Some id ∧ entry_text id es = Some t.
Proof.
  intros [_ Ht]. destruct (Forall2_lookup_r _ _ _ _ _ Hids Ht) as (id & Hid & Hin).
  exists id. split; [done|]. by apply entry_text_elem.
Qed.
Lemma ren_opt_ok o t : opt_term terms o t → ∃ o', ren_opt ids o = Some o' ∧ opt_text es o' = Some t.
Proof.
  intros [i u Hu|]; [|by exists None]. destruct (ren_term i u Hu) as (id & Hid & Htx).
  exists (Some id). cbn. by rewrite Hid, Htx.
Qed.

(** Renaming a record gives one whose declaration is the extracted one. *)
Lemma ren_sym_ok s r : sym_rec terms s r → ∃ r', ren_sym ids r = Some r' ∧ decl_of_sym es r' = Some s.
Proof.
  intros (Hn & Hk & Hl & Ho & Hsp). destruct (ren_term _ _ Hn) as (nm & Hnm & Htx).
  destruct (ren_opt_ok _ _ Hl) as (lk & Hlk & Hlt), (ren_opt_ok _ _ Ho) as (ow & How & Hot).
  unfold ren_sym, decl_of_sym. rewrite Hnm, Hlk, How. eexists. split; [done|].
  cbn [mbind option_bind s_name s_lang_kind s_owner s_kind s_span]. rewrite Htx, Hlt, Hot. cbn. rewrite Hk, Hsp. by destruct s.
Qed.
Lemma ren_tok_ok t r : tok_rec terms t r → ∃ r', ren_tok ids r = Some r' ∧ decl_of_tok es r' = Some t.
Proof.
  intros (Hn & Hc & Hsp). destruct (ren_term _ _ Hn) as (nm & Hnm & Htx). unfold ren_tok, decl_of_tok.
  rewrite Hnm. eexists. split; [done|]. cbn. rewrite Htx. cbn. rewrite Hc, Hsp. by destruct t.
Qed.

Lemma rename_all {A B C} (f : B → option C) (g : C → option A) (R : A → B → Prop) l k :
  (∀ a b, R a b → ∃ c, f b = Some c ∧ g c = Some a) → Forall2 R l k →
  ∃ m, mapM f k = Some m ∧ mapM g m = Some l.
Proof.
  intros HR. induction 1 as [|a b l k Hab _ (m & Hm & Hl)]; [by exists []|].
  destruct (HR _ _ Hab) as (c & Hc & Ha). exists (c :: m). cbn. by rewrite Hc, Hm, Ha, Hl.
Qed.

(** Distinct terms have distinct ids. *)
Lemma ids_inj i j x : NoDup terms → ids !! i = Some x → ids !! j = Some x → i = j.
Proof.
  intros Hnd Hi Hj. destruct (Forall2_lookup_l _ _ _ _ _ Hids Hi) as (t & Ht & Hit).
  destruct (Forall2_lookup_l _ _ _ _ _ Hids Hj) as (u & Hu & Hju).
  assert (t = u) as -> by by eapply NoDup_fst_eq. by eapply NoDup_lookup.
Qed.

Lemma ords_renamed toks toks' k x :
  NoDup terms → mapM (ren_tok ids) toks = Some toks' → Forall (λ t, 0 ≤ t_term t) toks → 0 ≤ k →
  ids !! Z.to_nat k = Some x → ords_with x toks' = ords_with k toks.
Proof.
  intros Hnd Hm Hpos Hk Hx. apply mapM_Some in Hm. revert Hpos.
  unfold ords_with, enumerate. generalize 0%nat as n.
  induction Hm as [|t t' toks toks' Ht Hm IH]; intros n Hpos; [done|]. apply Forall_cons in Hpos as [Hp Hpos].
  cbn [enum_from]. rewrite !filter_cons. cbn [snd].
  unfold ren_tok in Ht. apply bind_Some in Ht as (y & Hy & [= <-]). cbn [t_term].
  destruct (decide (y = x)) as [->|Hne].
  - pose proof (ids_inj _ _ _ Hnd Hy Hx). rewrite decide_True by lia. cbn [fmap list_fmap]. by rewrite IH.
  - rewrite decide_False by congruence. by apply IH.
Qed.
Lemma ords_unused toks toks' x :
  mapM (ren_tok ids) toks = Some toks' → x ∉ ids → ords_with x toks' = [].
Proof.
  intros Hm%mapM_Some Hx. unfold ords_with. rewrite filter_none; [done|].
  intros [i t'] Hi%enumerate_elem. cbn. intros <-. destruct (Forall2_lookup_r _ _ _ _ _ Hm Hi) as (t & _ & Ht).
  unfold ren_tok in Ht. apply bind_Some in Ht as (y & Hy & [= <-]). apply Hx. by eapply list_elem_of_lookup_2.
Qed.
End rename.

(** ** Renaming keeps a stream located *)

Definition same_place (r r' : SymRec) : Prop := s_span r' = s_span r ∧ s_parent r' = s_parent r.

Lemma innermost_same l k p : Forall2 same_place l k → innermost k p = innermost l p.
Proof.
  intros HF. unfold innermost, enumerate.
  enough (Forall2 (λ x y : nat * SymRec, y.1 = x.1) (filter (covers p) (enum_from 0 l)) (filter (covers p) (enum_from 0 k))) as HG.
  { clear HF. revert HG. generalize (filter (covers p) (enum_from 0 l)) (filter (covers p) (enum_from 0 k)).
    intros u v HG. induction HG as [|x y u v Hxy HG IH]; [done|]. destruct HG; [by cbn; rewrite Hxy|done]. }
  generalize 0%nat as n. induction HF as [|r r' l k [Hs _] HF IH]; intros n; [constructor|].
  cbn [enum_from]. rewrite !filter_cons.
  assert (covers p (n, r') ↔ covers p (n, r)) as Hc by (unfold covers; cbn [snd]; by rewrite Hs).
  destruct (decide (covers p (n, r))); [rewrite decide_True by by apply Hc|rewrite decide_False by by rewrite Hc].
  - constructor; [done|apply IH].
  - apply IH.
Qed.

Lemma located_renamed st syms toks :
  located st → Forall2 same_place (st_symbols st) syms →
  Forall2 (λ t t', t_span t' = t_span t ∧ t_parent t' = t_parent t) (st_tokens st) toks →
  Forall (λ r, u64 (s_name r) ∧ opt_id (s_lang_kind r) ∧ opt_id (s_owner r)) syms →
  Forall (λ t, u64 (t_term t)) toks → located (mkStream syms toks).
Proof.
  intros L Hs Ht Hsid Htid. pose proof (Forall2_length _ _ _ Hs) as Hls. pose proof (Forall2_length _ _ _ Ht) as Hlt.
  split; cbn [st_symbols st_tokens].
  - destruct (lo_wf _ L) as (Hn & Hm & HS & HT). split_and!; cbn [st_symbols st_tokens]; [lia..| |].
    + apply Forall_forall. intros [i r'] Hi%enumerate_elem. cbn [fst snd].
      destruct (Forall2_lookup_r _ _ _ _ _ Hs Hi) as (r & Hr & [Hsp Hpa]).
      rewrite Forall_lookup in Hsid. destruct (Hsid _ _ Hi) as (? & ? & ?).
      destruct (wf_syms _ _ _ (lo_wf _ L) Hr) as (_ & _ & _ & ? & ?).
      unfold sym_ok. rewrite Hsp, Hpa. done.
    + apply Forall_lookup. intros i t' Hi. destruct (Forall2_lookup_r _ _ _ _ _ Ht Hi) as (t & Ht' & [Hsp Hpa]).
      rewrite Forall_lookup in HT, Htid. destruct (HT _ _ Ht') as (_ & ? & ?).
      unfold tok_ok. rewrite Hsp, Hpa, <- Hls. by split_and!; [eapply Htid|..].
  - eapply (sorted_Forall2 s_span s_span (λ a b, sym_le a b = true)); [|apply L].
    eapply Forall2_impl; [exact Hs|]. by intros ? ? [? _].
  - eapply (sorted_Forall2 t_span t_span (λ a b, start a ≤ start b)); [|apply L].
    eapply Forall2_impl; [exact Ht|]. by intros ? ? [? _].
  - intros i j a b Hij Ha Hb. destruct (Forall2_lookup_r _ _ _ _ _ Hs Ha) as (x & Hx & [-> _]).
    destruct (Forall2_lookup_r _ _ _ _ _ Hs Hb) as (y & Hy & [-> _]). by eapply (lo_nest _ L i j).
  - intros o t' Ho. destruct (Forall2_lookup_r _ _ _ _ _ Ht Ho) as (t & Hto & [-> ->]).
    rewrite (innermost_same _ _ _ Hs). by eapply lo_tok.
  - intros j q' Hj. destruct (Forall2_lookup_r _ _ _ _ _ Hs Hj) as (q & Hq & [-> ->]).
    rewrite (innermost_same (take j (st_symbols st)) (take j syms)) by by apply Forall2_take. by eapply lo_sym.
Qed.

(** ** The loops *)
Section loops.
Context `{Redb tbl} `{Serde}.
Implicit Types (d : Db tbl).

Lemma index_opt_run ids o o' :
  ren_opt ids o = Some o' →
  (match o with Some k => x ← index (E:=StoreError) ids (Z.to_nat k); Ok (Some x) | None => Ok None end) = Ok o'.
Proof.
  unfold ren_opt. destruct o as [k|]; [|by intros [= <-]]. intros (x & Hx & ->)%fmap_Some. by rewrite (index_Ok _ _ _ Hx).
Qed.

Definition rows_from (es : list (Z * str)) (f : Z) (n : nat) (syms : list SymRec) : list (str * Z) :=
  omap (λ ir : nat * SymRec, name ← entry_text (s_name ir.2) es; Some (name, sub_id TAG_SYM f (Z.of_nat ir.1)))
    (enum_from n syms).

Lemma index_syms_run es terms ids f l l' n d out :
  mapM (ren_sym ids) l = Some l' →
  Forall2 (λ r r', terms !! Z.to_nat (s_name r) = entry_text (s_name r') es ∧ is_Some (entry_text (s_name r') es)) l l' →
  let rows := rows_from es f n l' in
  try_fold (index_sym f terms ids) (d, out) (enum_from n l) =
  Ok (upd_sym_fold (λ t, foldl (λ t kid, tbl_insert (fold_row kid) () t) t rows)
       (upd_sym_idx (λ t, foldl (λ t kid, tbl_insert kid () t) t rows) d), out ++ l').
Proof.
  revert l' n d out. induction l as [|r l IH]; intros l' n d out Hl HF.
  { injection Hl as <-. rewrite app_nil_r. by destruct d. }
  cbn in Hl. apply bind_Some in Hl as (r' & Hr & Hl). apply bind_Some in Hl as (l1 & Hl & [= <-]).
  apply Forall2_cons in HF as [[Hn [name Hname]] HF]. cbn [enum_from try_fold rows_from omap list_omap].
  unfold ren_sym in Hr. apply bind_Some in Hr as (nm & Hnm & Hr). apply bind_Some in Hr as (lk & Hlk & Hr).
  apply bind_Some in Hr as (ow & How & [= <-]). cbn [s_name] in *.
  assert (index_sym f terms ids (d, out) (n, r) =
    Ok (upd_sym_fold (tbl_insert (fold_symbol_name name, sub_id TAG_SYM f (Z.of_nat n)) ())
         (upd_sym_idx (tbl_insert (name, sub_id TAG_SYM f (Z.of_nat n)) ()) d),
        out ++ [mkSymRec nm (s_kind r) lk (s_parent r) (s_span r) (s_toks r) ow])) as ->.
  { unfold index_sym. rewrite (index_Ok _ _ name) by congruence. cbn [mbind outcome_mbind outcome_bind].
    rewrite (index_Ok _ _ _ Hnm), (index_opt_run _ _ _ Hlk). cbn [mbind outcome_mbind outcome_bind].
    by rewrite (index_opt_run _ _ _ How). }
  cbn [mbind outcome_mbind outcome_bind]. rewrite (IH l1) by done. rewrite <- app_assoc.
  unfold rows_from. cbn [enum_from omap list_omap fst snd s_name]. rewrite Hname. done.
Qed.

Lemma rename_toks_run ids l l' : mapM (ren_tok ids) l = Some l' → collect (rename_tok ids) l = Ok l'.
Proof.
  revert l'. induction l as [|t l IH]; intros l' Hl; [by injection Hl as <-|].
  cbn in Hl. apply bind_Some in Hl as (t' & Ht & Hl). apply bind_Some in Hl as (l1 & Hl & [= <-]).
  unfold ren_tok in Ht. apply bind_Some in Ht as (x & Hx & [= <-]). cbn [collect].
  assert (rename_tok ids t = Ok (mkTokRec x (t_class t) (t_parent t) (t_span t))) as ->
    by (unfold rename_tok; by rewrite (index_Ok _ _ _ Hx)).
  cbn [mbind outcome_mbind outcome_bind]. by rewrite (IH l1 Hl).
Qed.

(** ** Postings *)

Lemma foldl_upd_post_ins (l : list (Z * list Z)) d f :
  foldl (λ d '(term, bytes), upd_post (tbl_insert (term, f) bytes) d) d l =
  upd_post (λ p, foldl (λ p tb, tbl_insert (tb.1, f) tb.2 p) p l) d.
Proof. revert d. induction l as [|[x b] l IH]; intros d; [by destruct d|]. cbn [foldl]. by rewrite IH. Qed.

Lemma posts_out (l : list (Z * list Z)) (p : tbl (Z * Z) _ _ (list Z)) f t g :
  g ≠ f ∨ t ∉ l.*1 →
  tbl_map (foldl (λ p tb, tbl_insert (tb.1, f) tb.2 p) p l) !! (t, g) = tbl_map p !! (t, g).
Proof.
  intros Hg. revert p Hg. induction l as [|[x b] l IH]; intros p Hg; [done|]. cbn [foldl fst snd].
  rewrite IH by set_solver. rewrite tbl_insert_spec, lookup_insert_ne; [done|].
  intros [= -> ->]. destruct Hg as [Hg|Hg]; [done|]. apply Hg. by left.
Qed.
Lemma posts_in (l : list (Z * list Z)) (p : tbl (Z * Z) _ _ (list Z)) f t b :
  NoDup l.*1 → (t, b) ∈ l →
  tbl_map (foldl (λ p tb, tbl_insert (tb.1, f) tb.2 p) p l) !! (t, f) = Some b.
Proof.
  revert p. induction l as [|[x c] l IH]; intros p Hnd Hin; [by apply elem_of_nil in Hin|].
  apply NoDup_cons in Hnd as [Hx Hnd]. cbn [foldl fst snd].
  apply elem_of_cons in Hin as [[= <- <-]|Hin]; [|by apply IH].
  rewrite posts_out by by right. by rewrite tbl_insert_spec, lookup_insert_eq.
Qed.

(** The rows [ingest_prepped] inserts, by dictionary id. *)
Definition posted (ids : list Z) (toks : list TokRec) (l : list (Z * list Z)) : Prop :=
  NoDup l.*1 ∧ ∀ x b, (x, b) ∈ l ↔
    ∃ k, 0 ≤ k ∧ ids !! Z.to_nat k = Some x ∧ ords_with k toks ≠ [] ∧ b = encode_posting (ords_with k toks).

Lemma posted_run (es : list (Z * str)) (terms : list str) ids toks :
  Forall2 (λ id t, (id, t) ∈ es) ids terms → NoDup es.*1 → NoDup terms →
  Forall (λ t, 0 ≤ t_term t < Z.of_nat (length ids)) toks →
  ∃ l, collect (rename_post ids)
        ((λ '((t, o) : Z * list Z), (t, encode_posting o)) <$> gmap_rows (ordinals_of toks)) = Ok l ∧
    posted ids toks (sort_by (λ a b : Z * list Z, a.1 <=? b.1) l).
Proof.
  intros Hids Hes Hnd Hpos. set (rows := gmap_rows (ordinals_of toks)).
  assert (∀ k o, (k, o) ∈ rows ↔ ords_with k toks ≠ [] ∧ o = ords_with k toks) as Hrows.
  { intros k o. unfold rows. rewrite gmap_rows_elem, ordinals_of_lookup. case_decide; naive_solver. }
  assert (∀ k o, (k, o) ∈ rows → 0 ≤ k < Z.of_nat (length ids)) as Hk.
  { intros k o [Hne%token_terms_elem _]%Hrows. unfold token_terms in Hne.
    apply list_elem_of_fmap in Hne as ([j []] & -> & Hj%gmap_rows_elem%elem_of_list_to_map_2).
    apply list_elem_of_fmap in Hj as (t & [= ->] & Ht). rewrite Forall_forall in Hpos. by apply Hpos. }
  assert (NoDup rows.*1) as Hndr by apply gmap_rows_NoDup.
  assert (∃ l, collect (rename_post ids)
      ((λ '((t, o) : Z * list Z), (t, encode_posting o)) <$> rows) = Ok l ∧
    Forall2 (λ ko xb, ids !! Z.to_nat ko.1 = Some xb.1 ∧ xb.2 = encode_posting ko.2) rows l) as (l & Hl & HF).
  { clear Hrows Hndr. induction rows as [|[k o] rows IH]; [by exists []|].
    destruct (lookup_lt_is_Some_2 ids (Z.to_nat k)) as [x Hx]; [specialize (Hk k o ltac:(by left)); lia|].
    destruct IH as (l & Hl & HF); [intros j q Hj; apply (Hk j q); by right|].
    exists ((x, encode_posting o) :: l). cbn [fmap list_fmap collect].
    assert (rename_post ids (k, encode_posting o) = Ok (x, encode_posting o)) as ->
      by (unfold rename_post; cbn [fst snd]; by rewrite (index_Ok _ _ _ Hx)).
    cbn [mbind outcome_mbind outcome_bind]. rewrite Hl. by split; [|constructor]. }
  exists l. split; [done|]. unfold posted. rewrite sort_by_perm. split.
  - clear Hl Hrows. induction HF as [|[k o] [x b] rows l [Hx _] HF IH]; [constructor|].
    cbn [fmap list_fmap fst snd] in *. apply NoDup_cons in Hndr as [Hkr Hndr]. constructor.
    + intros ([y c] & Hyx & Hy)%list_elem_of_fmap. cbn in Hyx. subst y. apply list_elem_of_lookup in Hy as [i Hi].
      destruct (Forall2_lookup_r _ _ _ _ _ HF Hi) as ([j q] & Hj & [Hjx _]). cbn [fst] in Hjx.
      pose proof (ids_inj _ _ _ Hids Hes _ _ _ Hnd Hx Hjx). apply Hkr, list_elem_of_fmap.
      apply list_elem_of_lookup_2 in Hj. exists (j, q). split; [|done].
      pose proof (Hk k o ltac:(by left)). pose proof (Hk j q ltac:(by right)). cbn. lia.
    + apply IH; [|done]. intros j q Hj. apply (Hk j q). by right.
  - intros x b. rewrite sort_by_perm. split.
    + intros [i Hi]%list_elem_of_lookup. destruct (Forall2_lookup_r _ _ _ _ _ HF Hi) as ([k o] & Hko & [Hx Hb]).
      cbn [fst snd] in *. apply list_elem_of_lookup_2 in Hko. exists k. pose proof (Hk _ _ Hko).
      apply Hrows in Hko as [? ->]. split_and!; [lia|done..].
    + intros (k & Hk0 & Hx & Hne & ->). assert ((k, ords_with k toks) ∈ rows) as Hin by by apply Hrows.
      apply list_elem_of_lookup in Hin as [i Hi].
      destruct (Forall2_lookup_l _ _ _ _ _ HF Hi) as ([y c] & Hy & [Hyx Hc]). cbn [fst snd] in *. subst c.
      assert (y = x) as -> by congruence. by eapply list_elem_of_lookup_2.
Qed.
End loops.

(** ** A larger dictionary *)

Lemma entry_text_mono id es b t : entry_text id es = Some t → entry_text id (es ++ b) = Some t.
Proof. intros Ht. rewrite entry_text_app, Ht. done. Qed.
Lemma opt_text_mono es b o t : opt_text es o = Some t → opt_text (es ++ b) o = Some t.
Proof.
  unfold opt_text. destruct o as [k|]; [|done]. intros (x & Hx & ->)%fmap_Some. by rewrite (entry_text_mono _ _ _ _ Hx).
Qed.
Lemma decl_of_sym_mono es b r s : decl_of_sym es r = Some s → decl_of_sym (es ++ b) r = Some s.
Proof.
  unfold decl_of_sym. intros (n & Hn & (l & Hl & (o & Ho & [= <-])%bind_Some)%bind_Some)%bind_Some.
  by rewrite (entry_text_mono _ _ _ _ Hn), (opt_text_mono _ _ _ _ Hl), (opt_text_mono _ _ _ _ Ho).
Qed.
Lemma decl_of_tok_mono es b r t : decl_of_tok es r = Some t → decl_of_tok (es ++ b) r = Some t.
Proof.
  unfold decl_of_tok. intros (n & Hn & [= <-])%bind_Some. by rewrite (entry_text_mono _ _ _ _ Hn).
Qed.
Lemma mapM_mono {A B} (f g : A → option B) l k :
  (∀ x y, f x = Some y → g x = Some y) → mapM f l = Some k → mapM g l = Some k.
Proof. intros Hfg. rewrite !mapM_Some. intros HF. eapply Forall2_impl; eauto. Qed.
Lemma decls_of_mono es b s e ex : decls_of es s e = Some ex → decls_of (es ++ b) s e = Some ex.
Proof.
  unfold decls_of. intros (l & Hl & (k & Hk & [= <-])%bind_Some)%bind_Some.
  by rewrite (mapM_mono _ _ _ _ (decl_of_sym_mono es b) Hl), (mapM_mono _ _ _ _ (decl_of_tok_mono es b) Hk).
Qed.
Lemma decls_of_errors es s e e' : is_Some (decls_of es s e) → is_Some (decls_of es s e').
Proof. unfold decls_of. intros [ex (l & -> & (k & -> & _)%bind_Some)%bind_Some]. by eexists. Qed.

Lemma sym_at_mono S es b k id :
  (∀ f s, S !! f = Some s → is_Some (decls_of es s false)) → sym_at S (es ++ b) k id ↔ sym_at S es k id.
Proof.
  intros HS. unfold sym_at. split; intros (f & s & i & r & Hf & Hi & -> & Hk); exists f, s, i, r; (split_and!; [done..|]).
  - destruct (HS _ _ Hf) as [ex Hex]. destruct (decls_names _ _ _ _ _ _ Hex Hi) as [n Hn].
    rewrite (entry_text_mono _ _ b _ Hn) in Hk. congruence.
  - by apply entry_text_mono.
Qed.
Lemma content_mono streams post idx fold refs files S es b :
  content_ok streams post idx fold refs files S es →
  content_ok streams post idx fold refs files S (es ++ b).
Proof.
  intros [Hs Hst Hp Hi Hfd Hr Hfl].
  assert (∀ f s, S !! f = Some s → is_Some (decls_of es s false)) as HS by (intros f s Hf; apply (Hst f s Hf)).
  split; try done.
  - intros f s Hf. destruct (Hst f s Hf) as (? & ? & [ex Hex]). split; [done|]. split; [done|].
    exists ex. by apply decls_of_mono.
  - intros k id. by rewrite Hi, sym_at_mono.
  - intros k id. rewrite Hfd. by setoid_rewrite (sym_at_mono S es b _ id HS).
Qed.

(** ** A new stream *)

Lemma sym_at_insert S es f s k id :
  S !! f = None →
  sym_at (<[f := s]> S) es k id ↔ (k, id) ∈ idx_rows es f (st_symbols s) ∨ sym_at S es k id.
Proof.
  intros Hf. rewrite idx_rows_elem. unfold sym_at. split.
  - intros (g & s' & i & r & [[<- <-]|[Hne Hg]]%lookup_insert_Some & Hi & -> & Hk); [left; by exists i, r|].
    right. by exists g, s', i, r.
  - intros [(i & r & Hi & -> & Hk)|(g & s' & i & r & Hg & Hi & -> & Hk)].
    + exists f, s, i, r. by rewrite lookup_insert_eq.
    + exists g, s', i, r. rewrite lookup_insert_ne by congruence. done.
Qed.
Lemma content_insert streams post idx fold refs files S es f s post' idx' fold' :
  content_ok streams post idx fold refs files S es → S !! f = None →
  1 ≤ f ≤ MAX_LOCAL → located s → is_Some (decls_of es s false) →
  (∀ t g, post' !! (t, g) = if decide (g = f) then post_row s t else post !! (t, g)) →
  (∀ k, idx' !! k = if decide (k ∈ idx_rows es f (st_symbols s)) then Some () else idx !! k) →
  (∀ k, fold' !! k = if decide (k ∈ fold_row <$> idx_rows es f (st_symbols s)) then Some () else fold !! k) →
  content_ok (<[f := encode s]> streams) post' idx' fold' (<[f := 1]> refs) (<[(f, f) := ()]> files)
    (<[f := s]> S) es.
Proof.
  intros [Hs Hst Hp Hi Hfd Hr Hfl] Hf Hfr L Hdec Hpost Hidx Hfold. split.
  - by rewrite Hs, fmap_insert.
  - intros g s' [[<- <-]|[_ Hg]]%lookup_insert_Some; [done|by apply Hst].
  - intros t g. rewrite Hpost. case_decide as Hg; [subst g; by rewrite lookup_insert_eq|].
    by rewrite lookup_insert_ne, Hp by done.
  - intros k id. rewrite Hidx, (sym_at_insert S es f s k id Hf), <- Hi. case_decide; naive_solver.
  - intros k id. rewrite Hfold. setoid_rewrite (sym_at_insert S es f s _ id Hf). split.
    + case_decide as Hk.
      * intros _. apply list_elem_of_fmap in Hk as ([name j] & [= -> ->] & Hin). exists name. by split; [|left].
      * intros (name & -> & Hat)%Hfd. exists name. by split; [|right].
    + intros (name & -> & [Hin|Hat]); [rewrite decide_True; [done|]; apply list_elem_of_fmap; by exists (name, id)|].
      case_decide; [done|]. apply Hfd. by exists name.
  - intros c. destruct (decide (c = f)) as [->|]; [by rewrite !lookup_insert_eq|by rewrite !lookup_insert_ne].
  - intros c g. rewrite lookup_insert_Some, Hfl, lookup_insert_is_Some. naive_solver.
Qed.
