(* ===== verification/Ingest.v ===== *)
(** * Ingesting a file

    [V2Store::ingest_prepped] ([graph-store/src/v2.rs]) replaces one document
    of the store: the other documents stay, all derived tables follow, and
    nothing else can happen but the errors it names. *)
From S2P Require Import Prelude Text StrOps Schema Varint Stream StreamRound Posting DictBlock Table DictRev.
From S2P Require Import Language Walk Prep Located Db Catalog Reader Write Dict Store Entities Content Storing.

(** ** Texts *)

Definition opt_text_ok (o : option str) : Prop := match o with Some t => text_ok t | None => True end.
#[global] Instance opt_text_ok_dec o : Decision (opt_text_ok o).
Proof. destruct o; apply _. Defined.

(** Every text is a string a program can hold, below 4 GiB. *)
Definition texts_ok (ex : Extraction) : Prop :=
  Forall (λ s, text_ok (sd_name s) ∧ opt_text_ok (sd_lang_kind s) ∧ opt_text_ok (sd_owner s)) (ex_symbols ex) ∧
  Forall (λ t, text_ok (td_text t)) (ex_tokens ex).
#[global] Instance texts_ok_dec ex : Decision (texts_ok ex).
Proof. unfold texts_ok. apply _. Defined.

Lemma intern_local_Forall (P : str → Prop) t tl :
  P t → Forall P tl.1 → Forall P (intern_local t tl).2.1.
Proof.
  intros Ht Hl. unfold intern_local. destruct (tl.2 !! t); [done|]. cbn. apply Forall_app. by split; [|constructor].
Qed.
Lemma intern_opt_text o tl : opt_text_ok o → Forall text_ok tl.1 → Forall text_ok (intern_opt o tl).2.1.
Proof.
  intros Ho Hl. unfold intern_opt. destruct o as [t|]; [|done].
  pose proof (intern_local_Forall text_ok t tl Ho Hl). by destruct (intern_local t tl).
Qed.
Lemma prep_terms_text evs st :
  Forall (λ e, match e with
    | inl s => text_ok (sd_name s) ∧ opt_text_ok (sd_lang_kind s) ∧ opt_text_ok (sd_owner s)
    | inr t => text_ok (td_text t) end) evs →
  Forall text_ok (ps_terms st).1 → Forall text_ok (ps_terms (foldl prep_step st evs)).1.
Proof.
  intros HF. revert st. induction HF as [|e evs He HF IH]; intros st Hst; [done|]. cbn [foldl]. apply IH.
  destruct e as [s|t]; cbn [prep_step].
  - destruct He as (Hn & Hl & Ho). pose proof (intern_local_Forall text_ok _ _ Hn Hst) as H1.
    destruct (intern_local (sd_name s) (ps_terms st)) as [n tl1]. cbn [snd] in H1.
    pose proof (intern_opt_text _ _ Hl H1) as H2. destruct (intern_opt (sd_lang_kind s) tl1) as [l tl2]. cbn [snd] in H2.
    pose proof (intern_opt_text _ _ Ho H2) as H3. destruct (intern_opt (sd_owner s) tl2).
    exact H3.
  - pose proof (intern_local_Forall text_ok _ _ He Hst) as H1. destruct (intern_local (td_text t) (ps_terms st)).
    exact H1.
Qed.
Lemma build_texts ex : texts_ok ex → Forall text_ok (vp_terms (V2Prep_build ex)).
Proof.
  intros [Hs Ht]. apply prep_terms_text; [|constructor]. apply Forall_forall. intros [s|t] Hin.
  - apply events_sym in Hin. rewrite Forall_forall in Hs. by apply Hs.
  - apply events_tok in Hin. rewrite Forall_forall in Ht. by apply Ht.
Qed.

(** ** The stream *)
Section stream.
Context `{Redb tbl} `{Serde} (sha256 : list Z → list Z).
Implicit Types (d : Db tbl).

Definition stored_only d d' : Prop :=
  d' = upd_dict (λ _, db_dict d') (upd_rev (λ _, db_rev d') (upd_streams (λ _, db_streams d')
    (upd_post (λ _, db_post d') (upd_sym_idx (λ _, db_sym_idx d') (upd_sym_fold (λ _, db_sym_fold d')
      (upd_refs (λ _, db_refs d') (upd_content_files (λ _, db_content_files d') d))))))).

Lemma ids_u64 es d next (ids : list Z) (terms : list str) i x :
  dict_ok sha256 d es next → next < 2 ^ 64 → Forall2 (λ id t, (id, t) ∈ es) ids terms →
  ids !! i = Some x → 0 ≤ x < 2 ^ 64 - 1.
Proof.
  intros Hd Hn Hids Hx. destruct (Forall2_lookup_l _ _ _ _ _ Hids Hx) as (t & _ & Hin).
  assert (x ∈ es.*1) as Hx' by (apply list_elem_of_fmap; by exists (x, t)).
  apply (dk_below _ _ _ _ Hd) in Hx'. lia.
Qed.

Lemma renamed_places ids l l' : mapM (ren_sym ids) l = Some l' → Forall2 same_place l l'.
Proof.
  intros Hm%mapM_Some. eapply Forall2_impl; [exact Hm|]. intros r r' Hr. unfold ren_sym in Hr.
  by apply bind_Some in Hr as (nm & _ & (lk & _ & (ow & _ & [= <-])%bind_Some)%bind_Some).
Qed.
Lemma renamed_tok_places ids l l' :
  mapM (ren_tok ids) l = Some l' → Forall2 (λ t t', t_span t' = t_span t ∧ t_parent t' = t_parent t) l l'.
Proof.
  intros Hm%mapM_Some. eapply Forall2_impl; [exact Hm|]. intros r r' Hr. unfold ren_tok in Hr.
  by apply bind_Some in Hr as (nm & _ & [= <-]).
Qed.
Lemma renamed_ids (P : Z → Prop) ids l l' :
  (∀ i x, ids !! i = Some x → P x) → mapM (ren_sym ids) l = Some l' →
  Forall (λ r, P (s_name r) ∧ from_option P True (s_lang_kind r) ∧ from_option P True (s_owner r)) l'.
Proof.
  intros HP Hm%mapM_Some. apply Forall_lookup. intros i r' Hi.
  destruct (Forall2_lookup_r _ _ _ _ _ Hm Hi) as (r & _ & Hr). unfold ren_sym in Hr.
  apply bind_Some in Hr as (nm & Hnm & (lk & Hlk & (ow & How & [= <-])%bind_Some)%bind_Some). cbn.
  assert (∀ o o', ren_opt ids o = Some o' → from_option P True o') as Ho.
  { intros [k|] o' Ho; [|by injection Ho as <-]. apply fmap_Some in Ho as (x & Hx & ->). by eapply HP. }
  split_and!; eauto.
Qed.

(** The stream of a prepared file under dictionary ids. *)
Lemma renamed_stream d es next ids ex :
  small_ex ex → spans_ok ex → dict_ok sha256 d es next → next < 2 ^ 64 →
  Forall2 (λ id t, (id, t) ∈ es) ids (vp_terms (V2Prep_build ex)) →
  ∃ syms toks, mapM (ren_sym ids) (st_symbols (vp_stream (V2Prep_build ex))) = Some syms ∧
    mapM (ren_tok ids) (st_tokens (vp_stream (V2Prep_build ex))) = Some toks ∧
    located (mkStream syms toks) ∧
    ∀ e, decls_of es (mkStream syms toks) e = Some (mkExtraction (sorted_symbols ex) (sorted_tokens ex) e).
Proof.
  intros Hsm Hok Hd Hn Hids. pose proof (build_inv ex Hsm) as HI. pose proof (build_located ex Hsm Hok) as L.
  pose proof (pi_syms _ _ HI) as Hs. pose proof (pi_toks _ _ HI) as Ht.
  rewrite events_symbols in Hs. rewrite events_tokens in Ht. pose proof (dk_ids _ _ _ _ Hd) as Hnd.
  destruct (rename_all _ _ _ _ _ (ren_sym_ok es _ ids Hids Hnd) Hs) as (syms & Hsy & Hsd).
  destruct (rename_all _ _ _ _ _ (ren_tok_ok es _ ids Hids Hnd) Ht) as (toks & Hto & Htd).
  exists syms, toks. split_and!; [done|done| |].
  - pose proof (λ i x, ids_u64 es d next ids _ i x Hd Hn Hids) as Hu.
    eapply located_renamed; [exact L|by eapply renamed_places|by eapply renamed_tok_places| |].
    + eapply Forall_impl; [exact (renamed_ids _ _ _ _ Hu Hsy)|]. intros r (H1 & H2 & H3). cbn beta in *.
      split; [unfold u64; lia|]. by destruct (s_lang_kind r), (s_owner r).
    + apply Forall_lookup. intros i t' Hi. apply mapM_Some in Hto.
      destruct (Forall2_lookup_r _ _ _ _ _ Hto Hi) as (t & _ & Hr). unfold ren_tok in Hr.
      apply bind_Some in Hr as (x & Hx & [= <-]). cbn. apply Hu in Hx. unfold u64. lia.
  - intros e. unfold decls_of. cbn [st_symbols st_tokens]. by rewrite Hsd, Htd.
Qed.

Lemma renamed_names (es : list (Z * str)) (terms : list str) ids l l' :
  Forall2 (λ id t, (id, t) ∈ es) ids terms → NoDup es.*1 → mapM (ren_sym ids) l = Some l' →
  Forall2 (λ r r', terms !! Z.to_nat (s_name r) = entry_text (s_name r') es ∧ is_Some (entry_text (s_name r') es)) l l'.
Proof.
  intros Hids Hnd Hm%mapM_Some. eapply Forall2_impl; [exact Hm|]. intros r r' Hr. unfold ren_sym in Hr.
  apply bind_Some in Hr as (nm & Hnm & (lk & _ & (ow & _ & [= <-])%bind_Some)%bind_Some). cbn [s_name].
  destruct (Forall2_lookup_l _ _ _ _ _ Hids Hnm) as (t & Ht & Hin).
  rewrite (proj2 (entry_text_elem es nm t Hnd) Hin). by rewrite Ht.
Qed.

(** The posting rows of the renamed stream. *)
Lemma posted_rows (es : list (Z * str)) (terms : list str) (ids : list Z) (toks toks' : list TokRec)
    (l : list (Z * list Z)) (f t : Z) (syms : list SymRec) (p : tbl (Z * Z) _ _ (list Z)) :
  Forall2 (λ id t, (id, t) ∈ es) ids terms → NoDup es.*1 → NoDup terms →
  mapM (ren_tok ids) toks = Some toks' → Forall (λ t, 0 ≤ t_term t) toks →
  posted ids toks l → tbl_map p !! (t, f) = None →
  tbl_map (foldl (λ p tb, tbl_insert (tb.1, f) tb.2 p) p l) !! (t, f) = post_row (mkStream syms toks') t.
Proof.
  intros Hids Hnd Hndt Hto Hpos [Hl Hel] Hp. unfold post_row. cbn [st_tokens].
  assert (∀ k, 0 ≤ k → ids !! Z.to_nat k = Some t → ords_with t toks' = ords_with k toks) as Hren
    by (intros k Hk Hx; by eapply (ords_renamed es terms ids)).
  case_decide as Ht.
  - rewrite posts_out; [done|]. right. intros ([x b] & -> & Hin)%list_elem_of_fmap.
    apply Hel in Hin as (k & Hk & Hx & Hne & _). cbn [fst] in *. rewrite (Hren k Hk Hx) in Ht. done.
  - apply posts_in; [done|]. apply Hel. destruct (decide (t ∈ ids)) as [Hin|Hni].
    + apply list_elem_of_lookup in Hin as [i Hi]. exists (Z.of_nat i). rewrite Nat2Z.id.
      rewrite (Hren (Z.of_nat i)) in * by (try lia; by rewrite Nat2Z.id). split_and!; [lia|done..].
    + by rewrite (ords_unused ids toks toks' t Hto Hni) in Ht.
Qed.

Lemma build_token_terms ex :
  small_ex ex →
  Forall (λ t, 0 ≤ t_term t < Z.of_nat (length (vp_terms (V2Prep_build ex)))) (st_tokens (vp_stream (V2Prep_build ex))) ∧
  NoDup (vp_terms (V2Prep_build ex)).
Proof.
  intros Hsm. pose proof (build_inv ex Hsm) as HI. split; [|apply HI].
  apply Forall_lookup. intros i t Hi. destruct (Forall2_lookup_r _ _ _ _ _ (pi_toks _ _ HI) Hi) as (td & _ & Ht & _).
  destruct Ht as [Hge Hlt%lookup_lt_Some]. cbn [V2Prep_build vp_terms]. lia.
Qed.

Lemma store_stream_run d S es next f ex :
  content_ok (tbl_map (db_streams d)) (tbl_map (db_post d)) (tbl_map (db_sym_idx d))
    (tbl_map (db_sym_fold d)) (tbl_map (db_refs d)) (tbl_map (db_content_files d)) S es →
  dict_ok sha256 d es next → 0 ≤ next → S !! f = None → 1 ≤ f ≤ MAX_LOCAL →
  small_ex ex → spans_ok ex → texts_ok ex →
  let n := length (vp_terms (V2Prep_build ex)) in
  next + Z.of_nat n < 2 ^ 64 → Z.of_nat (length es + n) < 2 ^ 32 →
  ∃ s d' b next', store_stream sha256 d next f (V2Prep_build ex) = Ok (s, (d', next')) ∧
    content_ok (tbl_map (db_streams d')) (tbl_map (db_post d')) (tbl_map (db_sym_idx d'))
      (tbl_map (db_sym_fold d')) (tbl_map (db_refs d')) (tbl_map (db_content_files d')) (<[f := s]> S) (es ++ b) ∧
    dict_ok sha256 d' (es ++ b) next' ∧ (next ≤ next' ≤ next + Z.of_nat n ∧ (length b ≤ n)%nat) ∧ stored_only d d' ∧
    ∀ e, decls_of (es ++ b) s e = Some (mkExtraction (sorted_symbols ex) (sorted_tokens ex) e).
Proof.
  intros Hc Hd Hn Hf Hfr Hsm Hsp Htx n Hroom Hsize.
  destruct (build_token_terms ex Hsm) as [Htt Hndt]. unfold store_stream.
  destruct (intern_all_run sha256 (vp_terms (V2Prep_build ex)) d es next Hd (build_texts ex Htx) Hn Hroom Hsize)
    as (ids & d1 & b & next' & -> & Hids & Hlb & Hnext & Hd1 & Hsd).
  cbn [mbind outcome_mbind outcome_bind].
  destruct (renamed_stream d1 (es ++ b) next' ids ex Hsm Hsp Hd1 ltac:(lia) Hids) as (syms & toks & Hsy & Hto & L & Hdec).
  pose proof (dk_ids _ _ _ _ Hd1) as Hnd. unfold enumerate.
  rewrite (index_syms_run (es ++ b) _ ids f _ syms 0 d1 [] Hsy) by by eapply renamed_names.
  cbn [mbind outcome_mbind outcome_bind]. rewrite (rename_toks_run _ _ _ Hto). cbn [mbind outcome_mbind outcome_bind].
  destruct (posted_run (es ++ b) _ ids (st_tokens (vp_stream (V2Prep_build ex))) Hids Hnd Hndt) as (l & Hl & Hpd).
  { by rewrite (Forall2_length _ _ _ Hids). }
  change (vp_postings (V2Prep_build ex)) with ((λ '((t, o) : Z * list Z), (t, encode_posting o)) <$>
    gmap_rows (ordinals_of (st_tokens (vp_stream (V2Prep_build ex))))). rewrite Hl.
  cbn [mbind outcome_mbind outcome_bind]. rewrite foldl_upd_post_ins. cbn [app].
  eexists (mkStream syms toks), _, b, next'. split; [done|]. split; [|split; [by destruct Hd1|split; [done|split; [|done]]]].
  - apply content_mono with (b := b) in Hc. cbn. unfold content_id. rewrite !tbl_insert_spec.
    rewrite Hsd. cbn. eapply content_insert; try done.
    + by rewrite Hdec.
    + intros t g. cbn. case_decide as Hg; [subst g|by apply posts_out; left].
      eapply (posted_rows (es ++ b)); try done; [eapply Forall_impl; [exact Htt|]; cbn; lia|].
      etransitivity; [apply (co_post _ _ _ _ _ _ _ _ Hc)|]. by rewrite Hf.
    + intros k. rewrite (inserts_lookup id), list_fmap_id. done.
    + intros k. apply (inserts_lookup fold_row).
  - unfold stored_only. cbn. rewrite Hsd. by destruct d.
Qed.
End stream.

(** ** The catalog deltas of a prepared file *)

Lemma count_all_sum {A K V} `{Countable K} `{!KeyOrder K} (key : A → K) (val : A → V) (h : K → V → Z) l :
  (∀ a b, key a = key b → val a = val b) →
  sum_list (λ r : K * (V * Z), r.2.2 * h r.1 r.2.1) (gmap_rows (count_all key val l)) =
  sum_list (λ a, h (key a) (val a)) l.
Proof.
  intros Hval. unfold gmap_rows. rewrite merge_sort_Permutation.
  change (sum_map (λ k vn, vn.2 * h k vn.1) (count_all key val l) = sum_list (λ a, h (key a) (val a)) l).
  induction l as [|a l IH] using rev_ind; [done|]. unfold count_all. rewrite foldl_snoc. fold (count_all key val l).
  rewrite sum_list_app, <- IH. cbn [sum_list]. unfold count.
  destruct (count_all key val l !! key a) as [[w n]|] eqn:E; cbn [default from_option id]; rewrite sum_map_update, E; cbn.
  - apply (count_all_lookup key val Hval) in E as (_ & _ & b & _ & Hb & <-). rewrite (Hval _ _ Hb). lia.
  - lia.
Qed.

Lemma tally_fold_at sc (l : list (Node * Z)) t :
  (counters t → counters (foldl (λ t '(n, count), Tally_node sc n count t) t l)) ∧
  ∀ c, tally_at (foldl (λ t '(n, count), Tally_node sc n count t) t l) c =
    tally_at t c + sum_list (λ nc : Node * Z, nc.2 * node_hits sc nc.1 c) l.
Proof.
  revert t. induction l as [|[n k] l IH]; intros t; [split; [done|]; intros c; cbn; lia|]. cbn [foldl].
  destruct (IH (Tally_node sc n k t)) as [Hc Hat]. split; [intros; by apply Hc, counters_node|].
  intros c. rewrite Hat, tally_at_node. cbn. lia.
Qed.

Lemma prep_tally_at sc ex t e :
  let t' := foldl (λ t '(n, count), Tally_node sc n count t) t (vp_tally_nodes (V2Prep_build ex)) in
  (counters t → counters t') ∧
  ∀ c, tally_at t' c = tally_at t c + ex_hits sc (mkExtraction (sorted_symbols ex) (sorted_tokens ex) e) c.
Proof.
  cbv zeta. destruct (tally_fold_at sc (vp_tally_nodes (V2Prep_build ex)) t) as [Hc Hat]. split; [done|].
  intros c. rewrite Hat. f_equal. unfold V2Prep_build. cbn [vp_tally_nodes].
  destruct (prep_counts (events ex)) as [-> ->]. rewrite events_symbols, events_tokens.
  rewrite sum_list_app, !sum_list_fmap. unfold ex_hits. cbn [ex_symbols ex_tokens]. f_equal.
  - etransitivity; [|apply (count_all_sum (λ s, (SymbolKind_as_str (sd_kind s), sd_lang_kind s)) sd_kind
      (λ k v, node_hits sc (with_symbol_kind (blank 0 None Symbol []) v k.2) c))].
    + apply sum_list_ext, Forall_Forall2_diag, Forall_forall. by intros [[? ?] [? ?]] _.
    + by intros a b [= ?%SymbolKind_as_str_inj _].
  - etransitivity; [|apply (count_all_sum (λ t, TokenClass_as_str (td_class t)) td_class
      (λ k v, node_hits sc (with_token_class (blank 0 None Token []) v) c))].
    + apply sum_list_ext, Forall_Forall2_diag, Forall_forall. by intros [? [? ?]] _.
    + intros a b. apply TokenClass_as_str_inj.
Qed.

(** ** Documents *)

Lemma doc_of_mono es b n s v : doc_of es n s = Some v → doc_of (es ++ b) n s = Some v.
Proof. unfold doc_of. intros (ex & Hex & [= <-])%bind_Some. by rewrite (decls_of_mono _ b _ _ _ Hex). Qed.

Section docs.
Context `{Serde}.

Lemma entry_at_Some N S es f k v :
  entry_at N S es f = Some (k, v) ↔
  ∃ n s, path_of N f = Some k ∧ N !! f = Some n ∧ S !! f = Some s ∧ doc_of es n s = Some v.
Proof.
  unfold entry_at. split.
  - intros (k' & Hk & (n & Hn & (s & Hs & (v' & Hv & [= -> ->])%bind_Some)%bind_Some)%bind_Some)%bind_Some. by exists n, s.
  - intros (n & s & -> & -> & -> & Hv). cbn. by rewrite Hv.
Qed.

(** Writing one file leaves the documents of the others. *)
Lemma entry_other nodes names kids N next N' S es b fid s g :
  ents_ok nodes names kids N next →
  (∀ f, is_Some (S !! f) ↔ ∃ n, N !! f = Some n ∧ n_kind n = File) →
  (∀ f s, S !! f = Some s → is_Some (decls_of es s false)) →
  (∀ i m, N !! i = Some m → i ≠ fid → N' !! i = Some m) →
  (∀ n, N !! fid = Some n → n_kind n = File) → g ≠ fid →
  entry_at N' (<[fid := s]> (delete fid S)) (es ++ b) g = entry_at N S es g.
Proof.
  intros He Hlink Hdec Hkeep Hfid Hne. unfold entry_at. rewrite lookup_insert_ne, lookup_delete_ne by done.
  destruct (S !! g) as [s'|] eqn:Hg.
  2:{ destruct (path_of N' g), (path_of N g), (N' !! g), (N !! g); done. }
  destruct (proj1 (Hlink g)) as (n & Hn & Hk); [by rewrite Hg|].
  assert (path_of N' g = path_of N g) as ->.
  { eapply path_of_keeps; [exact He|done|done|by apply Hkeep|]. intros i m Hi Hki. apply Hkeep; [done|].
    intros ->. by apply Hki, Hfid. }
  rewrite (Hkeep _ _ Hn Hne), Hn.
  destruct (path_of N g); [|done]. cbn [mbind option_bind].
  destruct (decls_of_errors _ _ _ (n_has_errors n) (Hdec _ _ Hg)) as [ex Hex]. unfold doc_of.
  by rewrite (decls_of_mono _ b _ _ _ Hex), Hex.
Qed.

Lemma docs_replace (a : gmap dkey Doc) nodes names kids N next nodes' names' kids' N' next' (S : gmap Z Stream)
    (es b : list (Z * str)) fid s K v :
  ents_ok nodes names kids N next → ents_ok nodes' names' kids' N' next' →
  (∀ f, is_Some (S !! f) ↔ ∃ n, N !! f = Some n ∧ n_kind n = File) →
  (∀ f s, S !! f = Some s → is_Some (decls_of es s false)) →
  (∀ k v, a !! k = Some v ↔ ∃ f, entry_at N S es f = Some (k, v)) →
  (∀ i m, N !! i = Some m → i ≠ fid → N' !! i = Some m) →
  (∀ n, N !! fid = Some n → n_kind n = File) →
  entry_at N' (<[fid := s]> (delete fid S)) (es ++ b) fid = Some (K, v) →
  (∀ k, path_of N fid = Some k → k = K) →
  ∀ k w, <[K := v]> a !! k = Some w ↔ ∃ f, entry_at N' (<[fid := s]> (delete fid S)) (es ++ b) f = Some (k, w).
Proof.
  intros He He' Hlink Hdec Hdocs Hkeep Hfile Hnew Hold k w.
  pose proof (λ g, entry_other _ _ _ N next N' S es b fid s g He Hlink Hdec Hkeep Hfile) as Hother.
  rewrite lookup_insert_Some, Hdocs. split.
  - intros [[<- <-]|[Hne (g & Hg)]]; [by exists fid|]. exists g. rewrite Hother; [done|].
    intros ->. apply entry_at_Some in Hg as (n & s' & Hp & _). by apply Hne, eq_sym, Hold.
  - intros (g & Hg). destruct (decide (g = fid)) as [->|Hne].
    { left. rewrite Hnew in Hg. by injection Hg. }
    right. pose proof Hg as (n & s' & Hp & _)%entry_at_Some. split; [|exists g; by rewrite <- Hother].
    intros ->. apply Hne. apply entry_at_Some in Hnew as (? & ? & Hp' & _).
    by eapply (path_unique _ _ _ _ _ g fid k He').
Qed.
End docs.

(** ** The rows of a path *)
Section rows.
Context `{Redb tbl} `{Serde}.
Implicit Types (d : Db tbl).

(** [N'] is [N] with the rows of a path: org [o], repo [r] and file [f]. *)
Record path_rows (N N' : gmap Z Node) (org repo path : str) (o r f : Z) (existed : bool) : Prop := mkPathRows {
  pr_org : ∃ n, N' !! o = Some n ∧ n_parent n = None ∧ n_kind n = Org ∧ n_name n = org;
  pr_repo : ∃ n, N' !! r = Some n ∧ n_parent n = Some o ∧ n_kind n = Repo ∧ n_name n = repo;
  pr_file : ∃ n, N' !! f = Some n ∧ n_parent n = Some r ∧ n_kind n = File ∧ n_name n = path;
  pr_keep i m : N !! i = Some m → N' !! i = Some m;
  pr_repos i m : N' !! i = Some m → n_kind m = Repo → N !! i = Some m ∨ i = r;
  pr_files i m : N' !! i = Some m → n_kind m = File → N !! i = Some m ∨ i = f;
  pr_old : N !! f = if existed then N' !! f else None;
}.

(** What one [ensure] does to the rows. *)
Lemma ensure_grows (N N' : gmap Z Node) id parent kind name language (existed : bool) :
  (if existed then N' = N else N !! id = None ∧ N' = <[id := fresh_node id parent kind name language]> N) →
  N ⊆ N' ∧ ∀ i m, N' !! i = Some m → N !! i = Some m ∨ i = id ∧ n_kind m = kind ∧ existed = false.
Proof.
  destruct existed; [intros ->; split; [done|auto]|]. intros [Hn ->]. split; [by apply insert_subseteq|].
  intros i m [[<- <-]|[_ Hm]]%lookup_insert_Some; auto.
Qed.

(** One of the three rows has no id left. *)
Definition path_exhausted d next (org repo path language : str) : Prop :=
  ensure None Org org None (d, next) = Err exhausted ∨
  ∃ o eo s1, ensure None Org org None (d, next) = Ok (o, eo, s1) ∧
    (ensure (Some o) Repo repo None s1 = Err exhausted ∨
     ∃ r er s2, ensure (Some o) Repo repo None s1 = Ok (r, er, s2) ∧
       ensure (Some r) File path (Some language) s2 = Err exhausted).

Lemma ensure_path d N next org repo path language :
  ents_ok (tbl_map (db_nodes d)) (tbl_map (db_names d)) (tbl_map (db_children d)) N next →
  nul_free org → nul_free repo →
  (path_exhausted d next org repo path language ∧ MAX_LOCAL < next + 2) ∨
  ∃ o eo s1 r er s2 f existed d' next' N',
    ensure None Org org None (d, next) = Ok (o, eo, s1) ∧
    ensure (Some o) Repo repo None s1 = Ok (r, er, s2) ∧
    ensure (Some r) File path (Some language) s2 = Ok (f, existed, (d', next')) ∧
    ents_ok (tbl_map (db_nodes d')) (tbl_map (db_names d')) (tbl_map (db_children d')) N' next' ∧
    ents_only d d' ∧ next' ≤ next + 3 ∧ path_rows N N' org repo path o r f existed.
Proof.
  intros He Hno Hnr. unfold path_exhausted.
  destruct (ensure_run d N next None Org org None He eq_refl (λ _, Hno)) as [[-> ?]|(o & eo & d1 & N1 & n1 & -> & He1 & Hn1 & Hd1 & (on & Hon & Hop & Hok & Hoo) & Hg1)];
    [left; split; [by left|lia]|].
  destruct (ensure_run d1 N1 n1 (Some o) Repo repo None He1) as [[Hr2 ?]|(r & er & d2 & N2 & n2 & Hr2 & He2 & Hn2 & Hd2 & (rn & Hrn & Hrp & Hrk & Hrr) & Hg2)];
    [by exists o, on|done|left; split; [right; eexists _, _, _; split; [done|by left]|lia]|].
  destruct (ensure_run d2 N2 n2 (Some r) File path (Some language) He2) as [[Hf3 ?]|(f & ef & d3 & N3 & n3 & Hf3 & He3 & Hn3 & Hd3 & (fn & Hfn & Hfp & Hfk & Hff) & Hg3)];
    [by exists r, rn|done|left; split; [right; eexists _, _, _; split; [done|right; by eexists _, _, _]|lia]|right].
  exists o, eo, (d1, n1), r, er, (d2, n2), f, ef, d3, n3, N3. split_and!; try done; [|lia|].
  { unfold ents_only in *. rewrite Hd3, Hd2, Hd1. by destruct d. }
  destruct (ensure_grows _ _ _ _ _ _ _ _ Hg1) as [S1 B1], (ensure_grows _ _ _ _ _ _ _ _ Hg2) as [S2 B2],
    (ensure_grows _ _ _ _ _ _ _ _ Hg3) as [S3 B3].
  split.
  - exists on. split_and!; try done. eapply lookup_weaken; [|exact S3]. by eapply lookup_weaken.
  - exists rn. split_and!; try done. by eapply lookup_weaken.
  - by exists fn.
  - intros i m Hm. eapply lookup_weaken; [|exact S3]. eapply lookup_weaken; [|exact S2]. by eapply lookup_weaken.
  - intros i m Hm Hk. destruct (B3 _ _ Hm) as [Hm2|(? & ? & _)]; [|congruence].
    destruct (B2 _ _ Hm2) as [Hm1|(? & _)]; [|by right]. destruct (B1 _ _ Hm1) as [?|(? & ? & _)]; [by left|congruence].
  - intros i m Hm Hk. destruct (B3 _ _ Hm) as [Hm2|(? & ? & _)]; [|by right].
    destruct (B2 _ _ Hm2) as [Hm1|(? & ? & _)]; [|congruence]. destruct (B1 _ _ Hm1) as [?|(? & ? & _)]; [by left|congruence].
  - destruct ef.
    + subst N3. destruct (B2 _ _ Hfn) as [Hm1|(? & ? & _)]; [|congruence].
      destruct (B1 _ _ Hm1) as [?|(? & ? & _)]; [congruence|congruence].
    + destruct Hg3 as [Hnone _]. destruct (N !! f) as [m|] eqn:E; [|done].
      eapply lookup_weaken in E; [|exact S1]. eapply lookup_weaken in E; [|exact S2]. congruence.
Qed.
End rows.

(** ** The guard of an ingest *)

(** What the checks ask of the names. *)
Definition names_ok (org repo language : str) (ex : Extraction) : Prop :=
  org ≠ [] ∧ repo ≠ [] ∧ nul_free org ∧ nul_free repo ∧ nul_free language ∧
  Forall (λ s, (∀ k, sd_lang_kind s = Some k → nul_free k) ∧ ∀ k, sd_owner s = Some k → nul_free k) (ex_symbols ex).

Lemma nul_cases what v :
  (nul what v = Ok () ∧ nul_free v) ∨ ((∃ m, nul what v = Err (Rejected m)) ∧ ¬ nul_free v).
Proof. unfold nul, nul_free. case_decide; [right; split; [by eexists|by intros ?]|by left]. Qed.
Lemma nul_opt_cases what o :
  (nul_opt what o = Ok () ∧ ∀ k, o = Some k → nul_free k) ∨
  ((∃ m, nul_opt what o = Err (Rejected m)) ∧ ¬ ∀ k, o = Some k → nul_free k).
Proof.
  destruct o as [k|]; [|left; by split]. cbn [nul_opt]. destruct (nul_cases what k) as [[-> Hk]|[[m ->] Hk]].
  - left. split; [done|]. by intros k' [= <-].
  - right. split; [by eexists|]. intros Hall. by apply Hk, Hall.
Qed.

Lemma ingest_guard_cases org repo language ex :
  (ingest_guard org repo language ex = Ok () ∧ names_ok org repo language ex) ∨
  ((∃ m, ingest_guard org repo language ex = Err (Rejected m)) ∧ ¬ names_ok org repo language ex).
Proof.
  unfold ingest_guard, names_ok.
  destruct (bool_decide (org = []) || bool_decide (repo = [])) eqn:E.
  { right. split; [by eexists|]. apply orb_true_iff in E as [E%bool_decide_eq_true|E%bool_decide_eq_true]; tauto. }
  apply orb_false_iff in E as [Ho%bool_decide_eq_false Hr%bool_decide_eq_false].
  destruct (nul_cases "org" org) as [[-> ?]|[[m ->] ?]]; [|right; split; [by eexists|tauto]].
  destruct (nul_cases "repo" repo) as [[-> ?]|[[m ->] ?]]; [|right; split; [by eexists|tauto]].
  destruct (nul_cases "language" language) as [[-> ?]|[[m ->] ?]]; [|right; split; [by eexists|tauto]].
  cbn [mbind outcome_mbind outcome_bind]. set (g := λ sd : SymbolDecl, _).
  set (P := λ s : SymbolDecl, _). enough ((∃ l, collect g (ex_symbols ex) = Ok l) ∧ Forall P (ex_symbols ex) ∨
    (∃ m, collect g (ex_symbols ex) = Err (Rejected m)) ∧ ¬ Forall P (ex_symbols ex)) as [[[l ->] HF]|[[m ->] HF]].
  { by left. } { right. split; [by eexists|tauto]. }
  assert (∀ s, (g s = Ok () ∧ P s) ∨ ((∃ m, g s = Err (Rejected m)) ∧ ¬ P s)) as Hg.
  { intros s. unfold g, P.
    destruct (nul_opt_cases "symbol lang_kind" (sd_lang_kind s)) as [[-> ?]|[[m ->] ?]]; [|right; split; [by eexists|tauto]].
    cbn [mbind outcome_mbind outcome_bind].
    destruct (nul_opt_cases "symbol owner" (sd_owner s)) as [[-> ?]|[[m ->] ?]]; [by left|right; split; [by eexists|tauto]]. }
  clearbody g P. induction (ex_symbols ex) as [|s syms IH]; [left; split; [by eexists|constructor]|]. cbn [collect].
  destruct (Hg s) as [[-> ?]|[[m ->] ?]]; [|right; split; [by eexists|by intros [? _]%Forall_cons]].
  cbn [mbind outcome_mbind outcome_bind]. destruct IH as [[[l ->] HF]|[[m ->] HF]].
  - left. split; [by eexists|]. by constructor.
  - right. split; [by eexists|]. by intros [_ ?]%Forall_cons.
Qed.

Lemma ingest_guard_ok org repo language ex :
  ingest_guard org repo language ex = Ok () → names_ok org repo language ex.
Proof. destruct (ingest_guard_cases org repo language ex) as [[_ ?]|[[m ->] _]]; done. Qed.

Lemma lowercase_nul s : nul_free s → nul_free (to_ascii_lowercase s).
Proof.
  unfold nul_free, to_ascii_lowercase. intros Hs (c & Hc & Hin)%list_elem_of_fmap. unfold char_lower in Hc.
  case_match; [|by subst]. bool_prop. lia.
Qed.

(** ** The whole write *)
Section ingest.
Context `{Redb tbl} `{Serde} (sha256 : list Z → list Z).
Implicit Types (d : Db tbl).

Abbreviation content d S es :=
  (content_ok (tbl_map (db_streams d)) (tbl_map (db_post d)) (tbl_map (db_sym_idx d))
    (tbl_map (db_sym_fold d)) (tbl_map (db_refs d)) (tbl_map (db_content_files d)) S es).

Lemma doc_scope es n s v org repo path :
  doc_of es n s = Some v → file_scope org repo n = scope_of (org, repo, path) v.
Proof. unfold doc_of. by intros (ex & _ & [= <-])%bind_Some. Qed.
Lemma doc_decls es n s v :
  doc_of es n s = Some v → decls_of es s (n_has_errors n) = Some (doc_ex v).
Proof. unfold doc_of. by intros (ex & -> & [= <-])%bind_Some. Qed.

Lemma drop_old_run d S es next f n s v org repo path t :
  content d S es → dict_ok sha256 d es next → tbl_map (db_nodes d) !! f = Some (enc n) → S !! f = Some s →
  doc_of es n s = Some v →
  ∃ d' t', drop_old d org repo f t = Ok (d', t') ∧ content d' (delete f S) es ∧ content_only d d' ∧
    (counters t → counters t') ∧ ∀ c, tally_at t' c = tally_at t c - doc_hits c (org, repo, path) v.
Proof.
  intros Hc Hd Hn Hf Hv. unfold drop_old. rewrite tbl_get_spec, Hn. cbn [ok_or mbind outcome_mbind outcome_bind].
  rewrite dec_enc. cbn [mbind outcome_mbind outcome_bind]. rewrite (doc_scope _ _ _ _ org repo path Hv).
  set (sc := scope_of (org, repo, path) v).
  destruct (remove_content_run sha256 d S es next f s _ _ sc (Tally_file sc (-1) t) Hc Hd Hf (doc_decls _ _ _ _ Hv))
    as (d' & t' & Hr & Hc' & Hd' & Hcs & Hat).
  exists d', t'. split_and!; [done..|intros; by apply Hcs, counters_file|].
  intros c. rewrite Hat, tally_at_file. unfold doc_hits. fold sc. lia.
Qed.

(** A mark is not a counter. *)
Lemma mark_not_counter l : ¬ counter (cat_key "r" l).
Proof. unfold counter. cbn. by intros []. Qed.
Lemma counts_mark (f : str → Z) (cat : tbl str _ _ Z) l v :
  counts counter f cat → counts counter f (tbl_insert (cat_key "r" l) v cat).
Proof.
  intros Hc k Hk. rewrite tbl_insert_spec, lookup_insert_ne; [by apply Hc|].
  intros <-. by apply mark_not_counter in Hk.
Qed.
Lemma repo_rows N N' org repo path o r f existed nodes names kids next org' repo' :
  path_rows N N' org repo path o r f existed → ents_ok nodes names kids N next →
  repo_at N' org' repo' ↔ repo_at N org' repo' ∨ (org' = org ∧ repo' = repo).
Proof.
  intros Hp He. destruct (pr_repo _ _ _ _ _ _ _ _ _ Hp) as (x & Hx & Hxp & Hxk & Hxn), (pr_org _ _ _ _ _ _ _ _ _ Hp) as (y & Hy & _ & _ & Hyn).
  split.
  - intros (i & rn & p & on & Hi & Hk & Hpar & Hon & -> & ->). destruct (pr_repos _ _ _ _ _ _ _ _ _ Hp _ _ Hi Hk) as [Hold| ->].
    + left. exists i, rn, p, on. split_and!; try done. pose proof (en_shape _ _ _ _ _ He _ _ Hold) as Hs. unfold shape_ok in Hs.
      rewrite Hk in Hs. destruct Hs as (q & m & Hq & Hm' & _). assert (q = p) as -> by congruence.
      pose proof (pr_keep _ _ _ _ _ _ _ _ _ Hp _ _ Hm'). congruence.
    + right. assert (x = rn) as -> by congruence. assert (p = o) as -> by congruence. assert (y = on) as -> by congruence. done.
  - intros [(i & rn & p & on & Hi & Hk & Hpar & Hon & -> & ->)|[-> ->]].
    + exists i, rn, p, on. split_and!; try done; by eapply pr_keep.
    + by exists r, x, o, y.
Qed.
Lemma marked_insert (cat : gmap str Z) N N' o r f org repo path existed nodes names kids next :
  marked cat N → path_rows N N' org repo path o r f existed → ents_ok nodes names kids N next →
  marked (<[cat_key "r" [org; repo] := DERIVED_WRITER_MARK]> cat) N'.
Proof.
  intros Hm Hp He k v Hk. setoid_rewrite (repo_rows _ _ _ _ _ _ _ _ _ _ _ _ _ _ _ Hp He). rewrite lookup_insert_Some, (Hm k v Hk). split.
  - intros [[<- <-]|[Hne (-> & org' & repo' & Hr & ->)]]; [split; [done|exists org, repo; auto]|]. split; [done|exists org', repo'; auto].
  - intros (-> & org' & repo' & [Hr|[-> ->]] & ->); [|by left].
    destruct (decide (cat_key "r" [org; repo] = cat_key "r" [org'; repo'])) as [Heq|Hne]; [by left|right].
    split; [done|]. split; [done|]. by exists org', repo'.
Qed.
Lemma repo_at_update N id n n' org repo :
  N !! id = Some n → n_kind n' = n_kind n → n_name n' = n_name n → n_parent n' = n_parent n →
  repo_at (<[id := n']> N) org repo ↔ repo_at N org repo.
Proof.
  intros Hn Hk Hnm Hp. assert (∀ i m, <[id := n']> N !! i = Some m → ∃ m', N !! i = Some m' ∧
    n_kind m = n_kind m' ∧ n_name m = n_name m' ∧ n_parent m = n_parent m') as Hsim.
  { intros i m [[<- <-]|[_ Hi]]%lookup_insert_Some; [by exists n|by exists m]. }
  assert (∀ i m, N !! i = Some m → ∃ m', <[id := n']> N !! i = Some m' ∧
    n_kind m' = n_kind m ∧ n_name m' = n_name m ∧ n_parent m' = n_parent m) as Hsim'.
  { intros i m Hi. destruct (decide (i = id)) as [->|Hne]; [|exists m; by rewrite lookup_insert_ne].
    exists n'. rewrite lookup_insert_eq. assert (m = n) as -> by congruence. done. }
  split; intros (r & rn & o & on & Hr & Hkr & Hpr & Ho & -> & ->).
  - destruct (Hsim _ _ Hr) as (rn' & Hr' & E1 & E2 & E3), (Hsim _ _ Ho) as (on' & Ho' & _ & E4 & _).
    exists r, rn', o, on'. split_and!; congruence.
  - destruct (Hsim' _ _ Hr) as (rn' & Hr' & E1 & E2 & E3), (Hsim' _ _ Ho) as (on' & Ho' & _ & E4 & _).
    exists r, rn', o, on'. split_and!; congruence.
Qed.
Lemma marked_update (cat cat' : gmap str Z) N id n n' :
  marked cat N → N !! id = Some n → n_kind n' = n_kind n → n_name n' = n_name n → n_parent n' = n_parent n →
  (∀ k, ¬ counter k → cat' !! k = cat !! k) → marked cat' (<[id := n']> N).
Proof.
  intros Hm Hn Hk Hnm Hp Hcat k v Hc. rewrite Hcat by done. rewrite (Hm k v Hc).
  by setoid_rewrite (repo_at_update _ _ _ _ _ _ Hn Hk Hnm Hp).
Qed.

Lemma dict_ok_frame d d' es next :
  db_rev d' = db_rev d → db_dict d' = db_dict d → dict_ok sha256 d es next → dict_ok sha256 d' es next.
Proof. intros Hr Hk [Hrev Hkeys Ht Hb Hs]. split; rewrite ?Hr, ?Hk; done. Qed.

Lemma rep_file d a N S es next nt f n :
  rep sha256 d a N S es next nt → N !! f = Some n → n_kind n = File →
  ∃ s v k, S !! f = Some s ∧ doc_of es n s = Some v ∧ path_of N f = Some k ∧ a !! k = Some v.
Proof.
  intros R Hn Hk. destruct (proj2 (rp_link _ _ _ _ _ _ _ _ R f)) as [s Hs]; [by exists n|].
  destruct (path_of_is_Some _ _ _ _ _ _ _ (rp_ents _ _ _ _ _ _ _ _ R) Hn Hk) as [k Hp].
  destruct (co_stream _ _ _ _ _ _ _ _ (rp_content _ _ _ _ _ _ _ _ R) _ _ Hs) as (_ & _ & Hd).
  apply (decls_of_errors _ _ _ (n_has_errors n)) in Hd as [ex Hex].
  assert (∃ v, doc_of es n s = Some v) as [v Hv] by (unfold doc_of; rewrite Hex; by eexists).
  exists s, v, k. split_and!; try done. apply (rp_docs _ _ _ _ _ _ _ _ R). exists f.
  apply entry_at_Some. by exists n, s.
Qed.

(** The path of the ensured file. *)
Lemma path_rows_path N N' org repo path o r f existed :
  path_rows N N' org repo path o r f existed → path_of N' f = Some (org, repo, path).
Proof.
  intros [(on & Ho & _ & _ & <-) (rn & Hr & Hro & _ & <-) (n & Hf & Hfr & Hk & <-) _ _ _ _].
  apply path_of_Some. by exists n, r, rn, o, on.
Qed.
Lemma path_rows_old nodes names kids N next N' org repo path o r f existed k :
  ents_ok nodes names kids N next → path_rows N N' org repo path o r f existed →
  path_of N f = Some k → k = (org, repo, path).
Proof.
  intros He Hp Hk. pose proof (path_rows_path _ _ _ _ _ _ _ _ _ Hp) as Hk'.
  pose proof Hk as (n & r' & rn & o' & on & Hn & Hkn & _)%path_of_Some.
  rewrite (path_of_keeps _ _ _ N N' _ f n He Hn Hkn) in Hk'; [congruence|by eapply pr_keep|].
  intros i m Hi _. by eapply pr_keep.
Qed.

(** Taking the old document out. *)
Lemma drop_stage d a N S es next nt d' N' nodes names kids next' org repo path o r f existed t :
  rep sha256 d a N S es next nt → path_rows N N' org repo path o r f existed → ents_ok nodes names kids N' next' →
  content d' S es → dict_ok sha256 d' es nt → tbl_map (db_nodes d') = enc <$> N' →
  ∃ d1 t1, (if existed : bool then drop_old d' org repo f t else Ok (d', t)) = Ok (d1, t1) ∧
    content d1 (delete f S) es ∧ content_only d' d1 ∧ existed = bool_decide (is_Some (a !! (org, repo, path))) ∧
    (counters t → counters t1) ∧
    ∀ c, tally_at t1 c = tally_at t c - match a !! (org, repo, path) with Some v => doc_hits c (org, repo, path) v | None => 0 end.
Proof.
  intros R Hp He' Hc Hd Hn. pose proof (rp_ents _ _ _ _ _ _ _ _ R) as He. pose proof (pr_old _ _ _ _ _ _ _ _ _ Hp) as Hold.
  destruct (pr_file _ _ _ _ _ _ _ _ _ Hp) as (n & Hf & _ & Hk & _). destruct existed.
  - rewrite Hf in Hold. destruct (rep_file _ _ _ _ _ _ _ _ _ R Hold Hk) as (s & v & k & Hs & Hv & Hpa & Ha).
    rewrite (path_rows_old _ _ _ _ _ _ _ _ _ _ _ _ _ _ He Hp Hpa) in Ha. rewrite Ha.
    destruct (drop_old_run d' S es nt f n s v org repo path t) as (d1 & t1 & ? & ? & ? & ? & ?); try done.
    { by rewrite Hn, lookup_fmap, Hf. }
    by exists d1, t1.
  - assert (S !! f = None) as Hs.
    { destruct (S !! f) as [s|] eqn:E; [|done]. destruct (proj1 (rp_link _ _ _ _ _ _ _ _ R f)) as (m & Hm & _);
        [by rewrite E|congruence]. }
    assert (a !! (org, repo, path) = None) as ->.
    { destruct (a !! (org, repo, path)) as [v|] eqn:E; [|done]. apply (rp_docs _ _ _ _ _ _ _ _ R) in E as (g & Hg).
      apply entry_at_Some in Hg as (m & s & Hpg & Hm & _ & _). pose proof Hpg as (m' & _ & _ & _ & _ & Hm' & Hkm & _)%path_of_Some.
      assert (m' = m) as -> by congruence.
      assert (path_of N' g = path_of N g) as Heq.
      { eapply path_of_keeps; [exact He|done|done|by eapply pr_keep|]. intros i x Hi _. by eapply pr_keep. }
      rewrite <- Heq in Hpg. pose proof (path_unique _ _ _ _ _ _ _ _ He' Hpg (path_rows_path _ _ _ _ _ _ _ _ _ Hp)).
      congruence. }
    exists d', t. rewrite (delete_id S f Hs). split_and!; [done|done|by destruct d'|done|done|]. intros c. lia.
Qed.

(** The new state represents the documents with one replaced. *)
Lemma rep_replace d a N S es next nt N' nodes names kids next' org repo path o r f existed fn s b nt' v row dF :
  rep sha256 d a N S es next nt → path_rows N N' org repo path o r f existed →
  ents_ok nodes names kids N' next' →
  n_id fn = f → n_parent fn = Some r → n_kind fn = File → n_name fn = path → file_key_row fn = Ok row →
  doc_of (es ++ b) fn s = Some v →
  tbl_map (db_nodes dF) = <[f := enc fn]> nodes → tbl_map (db_names dF) = names →
  tbl_map (db_children dF) = kids →
  tbl_map (db_file_keys dF) = <[f := row]> (tbl_map (db_file_keys d)) →
  content dF (<[f := s]> (delete f S)) (es ++ b) → dict_ok sha256 dF (es ++ b) nt' →
  counts counter (total (<[(org, repo, path) := v]> a)) (db_cat dF) →
  (∀ l, ¬ counter l → tbl_map (db_cat dF) !! l =
        <[cat_key "r" [org; repo] := DERIVED_WRITER_MARK]> (tbl_map (db_cat d)) !! l) → clean_doc v →
  default 1 (tbl_map (db_meta dF) !! lit "next_id") = next' →
  default 0 (tbl_map (db_meta dF) !! lit "next_term") = nt' → 0 ≤ nt' →
  rep sha256 dF (<[(org, repo, path) := v]> a) (<[f := fn]> N') (<[f := s]> (delete f S)) (es ++ b) next' nt'.
Proof.
  intros R Hp He' Hid Hpar Hk Hnm Hrow Hv Hn Hna Hki Hfk Hc Hd Hcat Hmk Hcl Hm1 Hm2 Hnt.
  pose proof (rp_ents _ _ _ _ _ _ _ _ R) as He. destruct (pr_file _ _ _ _ _ _ _ _ _ Hp) as (n & Hf & Hfp & Hfk' & Hfn).
  pose proof (en_id _ _ _ _ _ He' _ _ Hf) as [Hfid _].
  assert (ents_ok (tbl_map (db_nodes dF)) (tbl_map (db_names dF)) (tbl_map (db_children dF)) (<[f := fn]> N') next') as HeF.
  { rewrite Hn, Hna, Hki. eapply ents_update; [exact He'|exact Hf|congruence..]. }
  assert (∀ g m, g ≠ f → n_kind m = File → <[f := fn]> N' !! g = Some m ↔ N !! g = Some m) as Hfiles.
  { intros g m Hne Hkm. rewrite lookup_insert_ne by done. split; [|by eapply pr_keep].
    intros Hg. by destruct (pr_files _ _ _ _ _ _ _ _ _ Hp _ _ Hg Hkm). }
  split; try done.
  - intros g. unfold file_row. rewrite Hfk. destruct (decide (g = f)) as [->|Hne].
    { rewrite !lookup_insert_eq. cbn [mbind option_bind]. by rewrite decide_True, Hrow. }
    rewrite lookup_insert_ne, (rp_rows _ _ _ _ _ _ _ _ R) by done. unfold file_row.
    destruct (N !! g) as [m|] eqn:Eg.
    + rewrite lookup_insert_ne, (pr_keep _ _ _ _ _ _ _ _ _ Hp _ _ Eg) by done. done.
    + destruct (<[f := fn]> N' !! g) as [m|] eqn:Eg'; [|done]. cbn. case_decide as Hkm; [|done].
      apply (Hfiles _ _ Hne Hkm) in Eg'. congruence.
  - intros g. destruct (decide (g = f)) as [->|Hne].
    { rewrite !lookup_insert_eq. split; [intros _; by exists fn|by eexists]. }
    rewrite lookup_insert_ne, lookup_delete_ne, (rp_link _ _ _ _ _ _ _ _ R) by done.
    split; intros (m & Hm & Hkm); exists m; (split; [|done]); by apply (Hfiles g m Hne Hkm).
  - eapply docs_replace; [exact He|exact HeF|apply R| |apply R| | | |].
    + intros g s' Hg. by apply (co_stream _ _ _ _ _ _ _ _ (rp_content _ _ _ _ _ _ _ _ R) _ _ Hg).
    + intros i m Hi Hne. rewrite lookup_insert_ne by done. by eapply pr_keep.
    + intros m Hm. apply (pr_keep _ _ _ _ _ _ _ _ _ Hp) in Hm. congruence.
    + apply entry_at_Some. exists fn, s. rewrite !lookup_insert_eq. split_and!; try done.
      rewrite <- (path_rows_path _ _ _ _ _ _ _ _ _ Hp). unfold path_of. rewrite lookup_insert_eq, Hf. cbn [mbind option_bind].
      rewrite Hpar, Hfp. cbn [mbind option_bind]. rewrite Hk, Hfk', Hnm, Hfn.
      destruct (pr_repo _ _ _ _ _ _ _ _ _ Hp) as (rn & Hr & Hro & Hrk & _).
      destruct (pr_org _ _ _ _ _ _ _ _ _ Hp) as (on & Ho & _ & Hok & _).
      rewrite (lookup_insert_ne _ f r), Hr by congruence. cbn [mbind option_bind]. rewrite Hro. cbn [mbind option_bind].
      by rewrite (lookup_insert_ne _ f o) by congruence.
    + intros k. by eapply path_rows_old.
  - eapply marked_update; [|exact Hf|congruence..|exact Hmk].
    eapply marked_insert; [apply R|exact Hp|exact He].
  - intros k w [[<- <-]|[_ Hw]]%lookup_insert_Some; [done|]. by eapply (rp_clean _ _ _ _ _ _ _ _ R).
Qed.

(** The document an ingest stores. *)
Definition new_doc (language : str) (meta : FileMeta) (ex : Extraction) : Doc :=
  mkDoc (Some (to_ascii_lowercase language)) meta
    (mkExtraction (sorted_symbols ex) (sorted_tokens ex) (ex_has_errors ex)).

(** An encoding is named without NUL. *)
Definition meta_ok (meta : FileMeta) : Prop := ∀ e, fm_encoding meta = Some e → nul_free e.
Lemma extracted_ok origin : meta_ok (FileMeta_extracted origin).
Proof. done. Qed.
Lemma new_doc_clean org repo language meta ex :
  names_ok org repo language ex → meta_ok meta → clean_doc (new_doc language meta ex).
Proof.
  intros (_ & _ & _ & _ & Hl & Hs) Hm. split_and!; [|exact Hm|].
  - intros l [= <-]. by apply lowercase_nul.
  - cbn [new_doc doc_ex ex_symbols]. rewrite Forall_forall in Hs |- *. intros s Hin. unfold sorted_symbols in Hin.
    rewrite sort_by_perm in Hin. by apply Hs.
Qed.

(** Ids are left for [k] files with [n] terms: a file takes up to three entity
    rows. Entity ids are 30 bits, term ids 64, and probe numbers 32. *)
Definition room_for d (k n : nat) : Prop :=
  default 1 (tbl_get (db_meta d) (lit "next_id")) + 3 * Z.of_nat k ≤ MAX_LOCAL + 1 ∧
  default 0 (tbl_get (db_meta d) (lit "next_term")) + Z.of_nat n < 2 ^ 64 ∧
  tbl_len (db_dict d) + Z.of_nat n < 2 ^ 32.
Definition terms_fit d (n : nat) : Prop :=
  default 0 (tbl_get (db_meta d) (lit "next_term")) + Z.of_nat n < 2 ^ 64 ∧ tbl_len (db_dict d) + Z.of_nat n < 2 ^ 32.
Definition term_count (ex : Extraction) : nat := length (vp_terms (V2Prep_build ex)).
Definition room d (ex : Extraction) : Prop := room_for d 1 (term_count ex).
Definition id_room d : Prop := default 1 (tbl_get (db_meta d) (lit "next_id")) + 2 ≤ MAX_LOCAL.
Definition term_room d (ex : Extraction) : Prop :=
  default 0 (tbl_get (db_meta d) (lit "next_term")) + Z.of_nat (term_count ex) < 2 ^ 64 ∧
  tbl_len (db_dict d) + Z.of_nat (term_count ex) < 2 ^ 32.

Lemma total_replace (a : gmap dkey Doc) k v c :
  total (<[k := v]> a) c =
  total a c + doc_hits c k v - match a !! k with Some w => doc_hits c k w | None => 0 end.
Proof. apply sum_map_update. Qed.

Lemma hit_nonneg k c : 0 ≤ hit k c.
Proof. unfold hit. case_decide; lia. Qed.
Lemma file_hits_nonneg sc c : 0 ≤ file_hits sc c.
Proof.
  unfold file_hits, enc_hits. destruct (sc_encoding sc), (sc_lossy sc); repeat (apply Z.add_nonneg_nonneg || apply hit_nonneg || done).
Qed.
Lemma node_hits_nonneg sc n c : 0 ≤ node_hits sc n c.
Proof.
  unfold node_hits. destruct (n_kind n); [done..| |destruct (n_token_class n)];
    repeat (apply Z.add_nonneg_nonneg || apply hit_nonneg || done).
Qed.
Lemma doc_hits_nonneg c k v : 0 ≤ doc_hits c k v.
Proof.
  unfold doc_hits, ex_hits. pose proof (file_hits_nonneg (scope_of k v) c).
  pose proof (sum_list_nonneg (sym_hits (scope_of k v) c) (ex_symbols (doc_ex v)) ltac:(intros; apply node_hits_nonneg)).
  pose proof (sum_list_nonneg (tok_hits (scope_of k v) c) (ex_tokens (doc_ex v)) ltac:(intros; apply node_hits_nonneg)).
  lia.
Qed.
Lemma total_nonneg a c : 0 ≤ total a c.
Proof. apply sum_map_nonneg. intros. apply doc_hits_nonneg. Qed.

Lemma apply_total (a a' : gmap dkey Doc) (t : Tally) (cat : tbl str _ _ Z) :
  counts counter (total a) cat → counters t → (∀ c, tally_at t c = total a' c - total a c) →
  counts counter (total a') (Tally_apply t cat) ∧
  ∀ l, ¬ counter l → tbl_map (Tally_apply t cat) !! l = tbl_map cat !! l.
Proof.
  intros Hc Ht Hat. split.
  - eapply counts_ext; [|apply (Tally_apply_counts counter (total a) t cat Hc Ht)].
    + intros c. cbn beta. rewrite Hat. lia.
    + intros c. apply total_nonneg.
    + intros c. rewrite Hat. pose proof (total_nonneg a' c). lia.
  - intros l Hl. apply Tally_apply_other. destruct (t !! l) as [x|] eqn:E; [|done].
    destruct Hl. by apply Ht; eexists.
Qed.

Lemma decls_lengths es s e ex :
  decls_of es s e = Some (mkExtraction (sorted_symbols ex) (sorted_tokens ex) e) →
  length (st_symbols s) = length (ex_symbols ex) ∧ length (st_tokens s) = length (ex_tokens ex).
Proof.
  unfold decls_of. intros (l & Hl%length_mapM & (k & Hk%length_mapM & [= -> ->])%bind_Some)%bind_Some.
  rewrite Hl, Hk. split; [unfold sorted_symbols|unfold sorted_tokens]; by rewrite sort_by_perm.
Qed.

Lemma path_exhausted_run {A} d next org repo path language (k : _ → _ → result A) :
  path_exhausted d next org repo path language →
  ('(org_id, _, s) ← ensure None Org org None (d, next);
   '(repo_id, _, s) ← ensure (Some org_id) Repo repo None s;
   x ← ensure (Some repo_id) File path (Some language) s; k repo_id x) = Err exhausted.
Proof.
  intros [->|(o & eo & s1 & -> & [Hr|(r & er & s2 & Hr & Hf)])]; [done|..]; cbn [mbind outcome_mbind outcome_bind]; rewrite Hr; [done|].
  cbn [mbind outcome_mbind outcome_bind]. by rewrite Hf.
Qed.

(** The whole behaviour of an ingest past its guard, on a store with room for
    the terms. *)
Lemma ingest_total d a org repo path language ex meta prep :
  stores sha256 d a → ingest_guard org repo language ex = Ok () →
  small_ex ex → spans_ok ex → texts_ok ex → meta_ok meta → term_room d ex → default (V2Prep_build ex) prep = V2Prep_build ex →
  (ingest_prepped sha256 d org repo path language ex meta prep = Err exhausted ∧ ¬ id_room d) ∨
  ∃ file d', ingest_prepped sha256 d org repo path language ex meta prep =
      Ok (mkIngestStats file (length (ex_symbols ex)) (length (ex_tokens ex))
            (bool_decide (is_Some (a !! (org, repo, normalize_path path)))) false (ex_has_errors ex)
            (normalize_path path) (to_ascii_lowercase language) (fm_encoding meta) (fm_lossy meta) None, d') ∧
    stores sha256 d' (<[(org, repo, normalize_path path) := new_doc language meta ex]> a) ∧
    (∀ k n, room_for d (Datatypes.S k) (term_count ex + n) → room_for d' k n) ∧
    ∀ n, terms_fit d (term_count ex + n) → terms_fit d' n.
Proof.
  intros (N & S & es & next & nt & R) Hg Hsm Hsp Htx Hme (Hr2 & Hr3) Hprep. unfold term_count in *. unfold ingest_prepped.
  destruct (ingest_guard_ok _ _ _ _ Hg) as (_ & _ & Hno & Hnr & Hnl & Hns).
  rewrite Hg. cbn [mbind outcome_mbind outcome_bind].
  assert (default 1 (tbl_get (db_meta d) (lit "next_id")) = next) as En
    by (rewrite tbl_get_spec; exact (rp_next _ _ _ _ _ _ _ _ R)).
  assert (default 0 (tbl_get (db_meta d) (lit "next_term")) = nt) as Ent
    by (rewrite tbl_get_spec; exact (rp_next_term _ _ _ _ _ _ _ _ R)).
  rewrite Ent in Hr2. unfold id_room. rewrite En, Ent.
  rewrite tbl_len_spec, (keys_size _ _ _ (dk_keys _ _ _ _ (rp_dict _ _ _ _ _ _ _ _ R))
    (dk_ids _ _ _ _ (rp_dict _ _ _ _ _ _ _ _ R))) in Hr3.
  set (lang := to_ascii_lowercase language). set (p := normalize_path path).
  destruct (ensure_path d N next org repo p lang (rp_ents _ _ _ _ _ _ _ _ R) Hno Hnr) as
    [[Hx Hmax]|(o & eo & s1 & r & er & s2 & f & existed & d3 & n3 & N3 & -> & E2 & E3 & He3 & Hd3 & Hn3 & Hp)].
  { left. split; [|lia]. by apply path_exhausted_run. }
  right.
  cbn [mbind outcome_mbind outcome_bind]. rewrite E2. cbn [mbind outcome_mbind outcome_bind]. rewrite E3.
  cbn [mbind outcome_mbind outcome_bind]. set (d4 := upd_cat _ d3).
  assert (content d4 S es) as Hc4 by (unfold d4; rewrite Hd3; apply R).
  assert (dict_ok sha256 d4 es nt) as Hdk4.
  { eapply dict_ok_frame; [..|apply R]; unfold d4; rewrite Hd3; done. }
  destruct (drop_stage d a N S es next nt d4 N3 _ _ _ n3 org repo p o r f existed
    (Tally_file (mkScope org repo lang (fm_encoding meta) (fm_lossy meta)) 1 ∅) R Hp He3 Hc4 Hdk4)
    as (d5 & t5 & -> & Hc5 & Hd5 & Hex5 & Hcs5 & Hat5); [apply He3|].
  cbn [mbind outcome_mbind outcome_bind]. set (fn := file_node f r p lang (ex_has_errors ex) meta).
  destruct (pr_file _ _ _ _ _ _ _ _ _ Hp) as (fo & Hfo & _).
  pose proof (en_id _ _ _ _ _ He3 _ _ Hfo) as [_ Hfid]. pose proof (en_max _ _ _ _ _ He3) as Hmax.
  destruct (file_key_row fn) as [row| |] eqn:Hrow; [|done|done]. cbn [mbind outcome_mbind outcome_bind].
  set (d6 := upd_file_keys _ _). rewrite Hprep.
  destruct (store_stream_run sha256 d6 (delete f S) es nt f ex) as (s & d7 & b & nt' & -> & Hc7 & Hdk7 & [Hnt Hlb] & Hd7 & Hdec);
    try done; [|exact (rp_terms _ _ _ _ _ _ _ _ R)|by rewrite lookup_delete_eq|lia|lia|].
  { eapply dict_ok_frame; [..|exact Hdk4]; unfold d6; cbn; by rewrite Hd5. }
  cbn [mbind outcome_mbind outcome_bind]. destruct (decls_lengths _ _ _ _ (Hdec false)) as [Hls Hlt].
  eexists f, _. rewrite Hls, Hlt, Hex5. split; [done|].
  set (sc := mkScope org repo lang (fm_encoding meta) (fm_lossy meta)) in *.
  assert (doc_of (es ++ b) fn s = Some (new_doc language meta ex)) as Hv.
  { unfold doc_of. rewrite Hdec. cbn. by destruct meta. }
  destruct (prep_tally_at sc ex t5 (ex_has_errors ex)) as [Hcs8 Hat8]. set (t8 := foldl _ t5 _) in *.
  assert (∀ c, tally_at t8 c = total (<[(org, repo, p) := new_doc language meta ex]> a) c - total a c) as Hat.
  { intros c. rewrite Hat8, Hat5, tally_at_file, total_replace. unfold doc_hits. cbn [new_doc doc_ex].
    change (scope_of (org, repo, p) (new_doc language meta ex)) with sc. unfold tally_at at 1. rewrite lookup_empty. cbn [default from_option id]. lia. }
  assert (counts counter (total a) (db_cat d4)) as Hcat4 by (apply counts_mark; rewrite Hd3; apply R).
  assert (counters t8) as Hcs by (apply Hcs8, Hcs5, counters_file; intros c [x Hx]; by rewrite lookup_empty in Hx).
  destruct (apply_total a (<[(org, repo, p) := new_doc language meta ex]> a) t8 (db_cat d4) Hcat4 Hcs Hat) as [Hcat Hmk].
  match goal with |- stores _ ?x _ ∧ _ => set (dF := x) end.
  assert (tbl_map (db_meta dF) = <[lit "next_term" := nt']> (<[lit "next_id" := n3]> (tbl_map (db_meta d7)))) as Hmeta.
  { change (db_meta dF) with (tbl_insert (lit "next_term") nt' (tbl_insert (lit "next_id") n3 (db_meta d7))).
    by rewrite !tbl_insert_spec. }
  assert (dict_ok sha256 dF (es ++ b) nt') as HdkF by (by eapply dict_ok_frame; [..|exact Hdk7]).
  assert (tbl_map (db_meta dF) !! lit "next_id" = Some n3) as Hid by (by rewrite Hmeta, lookup_insert_ne, lookup_insert_eq by done).
  assert (tbl_map (db_meta dF) !! lit "next_term" = Some nt') as Hterm by (by rewrite Hmeta, lookup_insert_eq).
  split.
  2:{ assert (default 1 (tbl_get (db_meta dF) (lit "next_id")) = n3 ∧ default 0 (tbl_get (db_meta dF) (lit "next_term")) = nt' ∧
        tbl_len (db_dict dF) = Z.of_nat (length es + length b)) as (G1 & G2 & G3).
      { rewrite !tbl_get_spec, Hid, Hterm, tbl_len_spec, (keys_size _ _ _ (dk_keys _ _ _ _ HdkF) (dk_ids _ _ _ _ HdkF)), length_app. by split_and!. }
      assert (tbl_len (db_dict d) = Z.of_nat (length es)) as G4.
      { by rewrite tbl_len_spec, (keys_size _ _ _ (dk_keys _ _ _ _ (rp_dict _ _ _ _ _ _ _ _ R)) (dk_ids _ _ _ _ (rp_dict _ _ _ _ _ _ _ _ R))). }
      unfold room_for, terms_fit. rewrite G1, G2, G3, G4, En, Ent. split; intros; lia. }
  eexists _, _, _, n3, nt'.
  assert (db_nodes d7 = tbl_insert f (enc fn) (db_nodes d3) ∧ db_names d7 = db_names d3 ∧
    db_children d7 = db_children d3 ∧ db_file_keys d7 = tbl_insert f row (db_file_keys d) ∧
    db_cat d7 = db_cat d4 ∧ db_cat d3 = db_cat d) as (F1 & F2 & F3 & F4 & F5 & F6).
  { rewrite Hd7. unfold d6. rewrite Hd5. unfold d4. by rewrite Hd3. }
  eapply (rep_replace d a N S es next nt N3 _ _ _ n3 org repo p o r f existed fn s b nt' _ row); try done.
  - exact (eq_trans (f_equal tbl_map F1) (tbl_insert_spec _ _ _ _)).
  - exact (f_equal tbl_map F2).
  - exact (f_equal tbl_map F3).
  - exact (eq_trans (f_equal tbl_map F4) (tbl_insert_spec _ _ _ _)).
  - change (db_cat dF) with (Tally_apply t8 (db_cat d7)). by rewrite F5.
  - intros l Hl. change (db_cat dF) with (Tally_apply t8 (db_cat d7)). rewrite F5, Hmk, <- F6 by done. unfold d4.
    change (db_cat (upd_cat ?g d3)) with (g (db_cat d3)). by rewrite tbl_insert_spec.
  - exact (new_doc_clean org repo language meta ex (ingest_guard_ok _ _ _ _ Hg) Hme).
  - by rewrite Hid.
  - by rewrite Hterm.
  - pose proof (rp_terms _ _ _ _ _ _ _ _ R). lia.
Qed.

Lemma room_split d ex : room d ex ↔ id_room d ∧ term_room d ex.
Proof. unfold room, room_for, id_room, term_room. lia. Qed.

Lemma ingest_run d a org repo path language ex meta prep :
  stores sha256 d a → ingest_guard org repo language ex = Ok () →
  small_ex ex → spans_ok ex → texts_ok ex → meta_ok meta → room d ex → default (V2Prep_build ex) prep = V2Prep_build ex →
  ∃ file d', ingest_prepped sha256 d org repo path language ex meta prep =
      Ok (mkIngestStats file (length (ex_symbols ex)) (length (ex_tokens ex))
            (bool_decide (is_Some (a !! (org, repo, normalize_path path)))) false (ex_has_errors ex)
            (normalize_path path) (to_ascii_lowercase language) (fm_encoding meta) (fm_lossy meta) None, d') ∧
    stores sha256 d' (<[(org, repo, normalize_path path) := new_doc language meta ex]> a) ∧
    ∀ k n, room_for d (Datatypes.S k) (term_count ex + n) → room_for d' k n.
Proof.
  intros R Hg Hsm Hsp Htx Hme [Hid Ht]%room_split Hprep.
  destruct (ingest_total d a org repo path language ex meta prep) as [[_ ?]|(file & d' & ? & ? & ? & _)]; [done..|]. by exists file, d'.
Qed.
End ingest.
