(* ===== verification/Prune.v ===== *)
(** * Pruning a repository

    [V2Store::prune_files] ([graph-store/src/v2.rs]) removes exactly the
    files of the repository that came from a directory and are not kept. *)
From S2P Require Import Prelude Text StrOps Schema Varint Stream StreamRound Posting DictBlock Table DictRev.
From S2P Require Import Language Walk Prep Located Db Catalog Reader Write Dict Store Entities Content Ingest.

Section prune.
Context `{Redb tbl} `{Serde} (sha256 : list Z → list Z).
Implicit Types (d : Db tbl) (N : gmap Z Node) (S : gmap Z Stream) (a : gmap dkey Doc).

(** ** Removing one file *)

Lemma entry_deleted nodes names kids N next S es f n g :
  ents_ok nodes names kids N next → N !! f = Some n → n_kind n = File →
  (∀ h, is_Some (S !! h) ↔ ∃ n, N !! h = Some n ∧ n_kind n = File) →
  entry_at (delete f N) (delete f S) es g = if decide (g = f) then None else entry_at N S es g.
Proof.
  intros He Hf Hk Hlink. case_decide as Hg.
  { subst g. unfold entry_at, path_of. by rewrite (lookup_delete_eq N). }
  unfold entry_at. rewrite !lookup_delete_ne by done.
  destruct (N !! g) as [m|] eqn:Em.
  2:{ destruct (path_of N g), (path_of (delete f N) g); done. }
  destruct (S !! g) as [s|] eqn:Es.
  2:{ destruct (path_of N g), (path_of (delete f N) g); done. }
  destruct (proj1 (Hlink g)) as (m' & Hm' & Hkm); [by rewrite Es|]. assert (m' = m) as -> by congruence.
  assert (path_of (delete f N) g = path_of N g) as ->; [|done].
  eapply path_of_keeps; [exact He|exact Em|done|by rewrite lookup_delete_ne|].
  intros i x Hi Hx. rewrite lookup_delete_ne; [done|]. intros ->. congruence.
Qed.

Lemma repo_at_delete nodes names kids N next f n org repo :
  ents_ok nodes names kids N next → N !! f = Some n → n_kind n = File →
  repo_at (delete f N) org repo ↔ repo_at N org repo.
Proof.
  intros He Hf Hk. split; intros (r & rn & o & on & Hr & Hkr & Hpr & Ho & -> & ->).
  - apply lookup_delete_Some in Hr as [_ Hr], Ho as [_ Ho]. by exists r, rn, o, on.
  - pose proof (en_shape _ _ _ _ _ He _ _ Hr) as Hs. unfold shape_ok, has_parent in Hs. rewrite Hkr in Hs.
    destruct Hs as (q & m & Hq & Hm & Hkm). assert (q = o) as -> by congruence. assert (m = on) as -> by congruence.
    exists r, rn, o, on. rewrite !lookup_delete_ne by congruence. done.
Qed.

Lemma rep_remove d a N S es next nt f n s v k r d' :
  rep sha256 d a N S es next nt → N !! f = Some n → n_kind n = File → n_parent n = Some r →
  S !! f = Some s → doc_of es n s = Some v → path_of N f = Some k →
  tbl_map (db_nodes d') = delete f (tbl_map (db_nodes d)) →
  tbl_map (db_names d') = delete (name_key (Some r) File (n_name n)) (tbl_map (db_names d)) →
  tbl_map (db_children d') = delete (r, f) (tbl_map (db_children d)) →
  tbl_map (db_file_keys d') = delete f (tbl_map (db_file_keys d)) →
  content_ok (tbl_map (db_streams d')) (tbl_map (db_post d')) (tbl_map (db_sym_idx d'))
    (tbl_map (db_sym_fold d')) (tbl_map (db_refs d')) (tbl_map (db_content_files d')) (delete f S) es →
  db_rev d' = db_rev d → db_dict d' = db_dict d → db_meta d' = db_meta d →
  counts counter (total (delete k a)) (db_cat d') →
  (∀ l, ¬ counter l → tbl_map (db_cat d') !! l = tbl_map (db_cat d) !! l) →
  rep sha256 d' (delete k a) (delete f N) (delete f S) es next nt.
Proof.
  intros R Hf Hk Hr Hs Hv Hp Hn Hna Hki Hfk Hc Hrev Hdict Hmeta Hcat Hmk.
  pose proof (rp_ents _ _ _ _ _ _ _ _ R) as He. split; try done.
  - rewrite Hn, Hna, Hki. by eapply ents_delete.
  - intros g. unfold file_row. rewrite Hfk. destruct (decide (g = f)) as [->|Hne].
    + by rewrite !lookup_delete_eq.
    + rewrite !lookup_delete_ne by done. apply (rp_rows _ _ _ _ _ _ _ _ R).
  - eapply dict_ok_frame; [done|done|apply R].
  - intros g. destruct (decide (g = f)) as [->|Hne].
    + rewrite !lookup_delete_eq. split; [by intros []|by intros (? & ? & _)].
    + rewrite !lookup_delete_ne by done. apply (rp_link _ _ _ _ _ _ _ _ R).
  - intros k' w. rewrite lookup_delete_Some, (rp_docs _ _ _ _ _ _ _ _ R).
    setoid_rewrite (entry_deleted _ _ _ N next S es f n _ He Hf Hk (rp_link _ _ _ _ _ _ _ _ R)). split.
    + intros [Hne (g & Hg)]. exists g. rewrite decide_False; [done|]. intros ->.
      apply entry_at_Some in Hg as (? & ? & Hp' & _). congruence.
    + intros (g & Hg). case_decide as Hgf; [done|]. split; [|by exists g]. intros <-. apply Hgf.
      apply entry_at_Some in Hg as (? & ? & Hp' & _). by eapply path_unique.
  - intros l w Hl. rewrite Hmk, (rp_marks _ _ _ _ _ _ _ _ R l w Hl) by done. by setoid_rewrite (repo_at_delete _ _ _ _ _ _ _ _ _ He Hf Hk).
  - intros k' w [_ Hw]%lookup_delete_Some. by eapply (rp_clean _ _ _ _ _ _ _ _ R).
  - rewrite Hmeta. apply (rp_next _ _ _ _ _ _ _ _ R).
  - rewrite Hmeta. apply (rp_next_term _ _ _ _ _ _ _ _ R).
  - apply (rp_terms _ _ _ _ _ _ _ _ R).
Qed.

(** ** The loop *)

(** A file row the loop removes. *)
Definition doomed (keep : list str) (n : Node) : Prop :=
  (n_name n ∉ keep) ∧ n_origin n = Some ORIGIN_DIRECTORY.
#[local] Instance doomed_dec keep n : Decision (doomed keep n).
Proof. unfold doomed. apply _. Defined.

Definition dead_key (org repo : str) (keep : list str) N (f : Z) : option dkey :=
  n ← N !! f; if decide (doomed keep n) then Some (org, repo, n_name n) else None.

Lemma dead_key_eq org repo keep N f n :
  N !! f = Some n → dead_key org repo keep N f = if decide (doomed keep n) then Some (org, repo, n_name n) else None.
Proof. intros Hn. unfold dead_key. by rewrite Hn. Qed.

(** [f] is a file of the repository [r]. *)
Definition file_of (org repo : str) (r : Z) N (f : Z) : Prop :=
  ∃ n, N !! f = Some n ∧ n_kind n = File ∧ n_parent n = Some r ∧ path_of N f = Some (org, repo, n_name n).

Lemma prune_skip org repo keep dry r d t rm f n :
  tbl_map (db_nodes d) !! f = Some (enc n) → ¬ doomed keep n →
  prune_step org repo keep dry r (d, t, rm) f = Ok (d, t, rm).
Proof.
  intros Hn Hdoom. unfold prune_step. rewrite tbl_get_spec, Hn. cbn [ok_or mbind outcome_mbind outcome_bind].
  rewrite dec_enc. cbn [mbind outcome_mbind outcome_bind]. unfold doomed in Hdoom.
  destruct (decide (n_name n ∈ keep)); [by rewrite bool_decide_eq_true_2|].
  destruct (decide (n_origin n = Some ORIGIN_DIRECTORY)) as [?|Hne]; [by destruct Hdoom|].
  by rewrite (bool_decide_eq_false_2 _ Hne), orb_true_r.
Qed.

Lemma doomed_guard keep n :
  doomed keep n → bool_decide (n_name n ∈ keep) || negb (bool_decide (n_origin n = Some ORIGIN_DIRECTORY)) = false.
Proof. intros [Hk Ho]. by rewrite bool_decide_eq_false_2, bool_decide_eq_true_2. Qed.

(** [t] holds what separates the documents [a] from the catalog of [d]. *)
Definition pending d (t : Tally) (a0 a : gmap dkey Doc) : Prop :=
  counts counter (total a0) (db_cat d) ∧ counters t ∧ ∀ c, tally_at t c = total a c - total a0 c.

Lemma prune_one d t rm a0 a N S es next nt org repo keep r f n :
  rep sha256 (upd_cat (Tally_apply t) d) a N S es next nt → pending d t a0 a →
  N !! f = Some n → n_kind n = File → n_parent n = Some r → path_of N f = Some (org, repo, n_name n) →
  doomed keep n →
  ∃ d' t', prune_step org repo keep false r (d, t, rm) f = Ok (d', t', rm ++ [n_name n]) ∧
    rep sha256 (upd_cat (Tally_apply t') d') (delete (org, repo, n_name n) a) (delete f N) (delete f S) es next nt ∧
    pending d' t' a0 (delete (org, repo, n_name n) a).
Proof.
  intros R (Hcnt & Hcs & Hat) Hn Hk Hr Hp Hdoom.
  destruct (rep_file _ _ _ _ _ _ _ _ _ _ R Hn Hk) as (s & v & k & Hs & Hv & Hp' & Ha).
  assert (k = (org, repo, n_name n)) as -> by congruence.
  unfold prune_step. assert (tbl_map (db_nodes d) = enc <$> N) as Hnodes by apply (rp_ents _ _ _ _ _ _ _ _ R).
  rewrite tbl_get_spec, Hnodes, lookup_fmap, Hn. cbn [fmap option_fmap option_map ok_or mbind outcome_mbind outcome_bind].
  rewrite dec_enc. cbn [mbind outcome_mbind outcome_bind]. rewrite doomed_guard by done.
  rewrite (doc_scope _ _ _ _ org repo (n_name n) Hv). set (sc := scope_of (org, repo, n_name n) v).
  assert (dict_ok sha256 d es nt) as Hd by (apply (dict_ok_frame sha256 (upd_cat (Tally_apply t) d)); [done|done|apply R]).
  destruct (remove_content_run sha256 d S es nt f s _ _ sc t (rp_content _ _ _ _ _ _ _ _ R) Hd Hs (doc_decls _ _ _ _ Hv))
    as (d1 & t1 & -> & Hc1 & Hd1 & Hcs1 & Hat1).
  cbn [mbind outcome_mbind outcome_bind]. eexists _, _. split; [done|].
  set (d' := upd_children _ _). set (t' := Tally_file sc (-1) t1).
  assert (pending d' t' a0 (delete (org, repo, n_name n) a)) as Hpend.
  { assert (db_cat d' = db_cat d) as Hcat by (unfold d'; cbn; by rewrite Hd1).
    split_and!; [by rewrite Hcat|by apply counters_file, Hcs1|]. intros c. unfold t'.
    rewrite tally_at_file, Hat1, Hat. unfold total. rewrite (sum_map_delete _ a _ v Ha). unfold doc_hits at 1. fold sc. lia. }
  split; [|done]. destruct Hpend as (Hcnt' & Hcs' & Hat').
  destruct (apply_total a0 _ t' (db_cat d') Hcnt' Hcs' Hat') as [Hcat' Hmk'].
  destruct (apply_total a0 _ t (db_cat d) Hcnt Hcs Hat) as [_ Hmk].
  assert (db_cat d' = db_cat d) as Hcat by (unfold d'; cbn; by rewrite Hd1).
  eapply (rep_remove _ _ _ _ _ _ _ f n s v _ r); try done.
  - cbn. rewrite tbl_remove_spec. by rewrite Hd1.
  - cbn. rewrite tbl_remove_spec. by rewrite Hd1.
  - cbn. rewrite tbl_remove_spec. by rewrite Hd1.
  - cbn. rewrite tbl_remove_spec. by rewrite Hd1.
  - unfold d'. cbn. by rewrite Hd1.
  - unfold d'. cbn. by rewrite Hd1.
  - unfold d'. cbn. by rewrite Hd1.
  - intros l Hl. change (db_cat (upd_cat _ d')) with (Tally_apply t' (db_cat d')).
    change (db_cat (upd_cat _ d)) with (Tally_apply t (db_cat d)). by rewrite Hmk', Hmk, Hcat by done.
Qed.

Lemma file_of_delete org repo r N nodes names kids next f n g :
  ents_ok nodes names kids N next → N !! f = Some n → n_kind n = File → g ≠ f →
  file_of org repo r N g → file_of org repo r (delete f N) g.
Proof.
  intros He Hf Hk Hne (m & Hm & Hkm & Hr & Hp). exists m. rewrite lookup_delete_ne by done. split_and!; try done.
  rewrite <- Hp. eapply path_of_keeps; [exact He|exact Hm|done|by rewrite lookup_delete_ne|].
  intros i x Hi Hx. rewrite lookup_delete_ne; [done|]. intros ->. congruence.
Qed.

Lemma prune_loop org repo keep r l : ∀ d t rm a0 a N S es next nt,
  rep sha256 (upd_cat (Tally_apply t) d) a N S es next nt → pending d t a0 a →
  NoDup l → (∀ f, f ∈ l → file_of org repo r N f) →
  let ks := omap (dead_key org repo keep N) l in
  ∃ d' t' N' S', try_fold (prune_step org repo keep false r) (d, t, rm) l = Ok (d', t', rm ++ (snd <$> ks)) ∧
    rep sha256 (upd_cat (Tally_apply t') d') (foldl (λ a k, delete k a) a ks) N' S' es next nt.
Proof.
  induction l as [|f l IH]; intros d t rm a0 a N S es next nt R Hpend Hnd Hl.
  { exists d, t, N, S. cbn. by rewrite app_nil_r. }
  apply NoDup_cons in Hnd as [Hfl Hnd]. destruct (Hl f) as (n & Hn & Hk & Hr & Hp); [by left|].
  cbn [try_fold omap list_omap]. rewrite (dead_key_eq org repo keep N f n Hn).
  destruct (decide (doomed keep n)) as [Hd|Hd].
  - destruct (prune_one d t rm a0 a N S es next nt org repo keep r f n R Hpend Hn Hk Hr Hp Hd) as (d1 & t1 & -> & R1 & Hp1).
    cbn [mbind outcome_mbind outcome_bind].
    destruct (IH d1 t1 (rm ++ [n_name n]) a0 _ _ _ _ _ _ R1 Hp1 Hnd) as (d' & t' & N' & S' & Hrun & R').
    { intros g Hg. eapply (file_of_delete _ _ _ _ _ _ _ _ f n); [apply R|done|done| |apply Hl; by right].
      intros ->. done. }
    assert (omap (dead_key org repo keep (delete f N)) l = omap (dead_key org repo keep N) l) as Hks.
    { apply list_omap_ext, Forall_Forall2_diag, Forall_forall. intros g Hg. unfold dead_key.
      rewrite lookup_delete_ne; [done|]. intros ->. done. }
    rewrite Hks in *. exists d', t', N', S'. rewrite Hrun. cbn [fmap list_fmap foldl snd]. by rewrite <- app_assoc.
  - assert (tbl_map (db_nodes d) = enc <$> N) as Hnodes by apply (rp_ents _ _ _ _ _ _ _ _ R).
    rewrite (prune_skip org repo keep false r d t rm f n); [|by rewrite Hnodes, lookup_fmap, Hn|done].
    cbn [mbind outcome_mbind outcome_bind]. apply (IH d t rm a0 a N S es next nt R Hpend Hnd).
    intros g Hg. apply Hl. by right.
Qed.

Lemma dry_loop org repo keep r l d t rm N :
  tbl_map (db_nodes d) = enc <$> N → (∀ f, f ∈ l → file_of org repo r N f) →
  try_fold (prune_step org repo keep true r) (d, t, rm) l =
    Ok (d, t, rm ++ (snd <$> omap (dead_key org repo keep N) l)).
Proof.
  intros Hnodes. revert rm. induction l as [|f l IH]; intros rm Hl; [cbn; by rewrite app_nil_r|].
  destruct (Hl f) as (n & Hn & _); [by left|]. cbn [try_fold omap list_omap].
  rewrite (dead_key_eq org repo keep N f n Hn).
  destruct (decide (doomed keep n)) as [Hd|Hd].
  - assert (prune_step org repo keep true r (d, t, rm) f = Ok (d, t, rm ++ [n_name n])) as ->.
    { unfold prune_step. rewrite tbl_get_spec, Hnodes, lookup_fmap, Hn. cbn [fmap option_fmap option_map ok_or mbind outcome_mbind outcome_bind].
      rewrite dec_enc. cbn [mbind outcome_mbind outcome_bind]. by rewrite doomed_guard. }
    cbn [mbind outcome_mbind outcome_bind]. rewrite IH by (intros; apply Hl; by right).
    cbn [fmap list_fmap snd]. by rewrite <- app_assoc.
  - rewrite (prune_skip org repo keep true r d t rm f n); [|by rewrite Hnodes, lookup_fmap, Hn|done].
    cbn [mbind outcome_mbind outcome_bind]. rewrite IH; [done|]. intros. apply Hl. by right.
Qed.

(** ** The repository's files *)

Lemma multimap_elem {K V} `{Countable K, Countable V, KeyOrder K, KeyOrder V} (t : tbl (K * V) _ _ unit) k v :
  v ∈ multimap_get t k ↔ tbl_map t !! (k, v) = Some ().
Proof.
  unfold multimap_get, tbl_range. rewrite list_elem_of_fmap. split.
  - intros ([[q x] []] & -> & [Hq Hin]%list_elem_of_filter). cbn in *. apply bool_decide_eq_true in Hq as ->. by apply tbl_iter_elem in Hin.
  - intros Hk. exists (k, v, ()). split; [done|]. apply list_elem_of_filter. cbn. rewrite bool_decide_eq_true. split; [done|]. by apply tbl_iter_elem.
Qed.
Lemma multimap_NoDup {K V} `{Countable K, Countable V, KeyOrder K, KeyOrder V} (t : tbl (K * V) _ _ unit) k : NoDup (multimap_get t k).
Proof.
  unfold multimap_get, tbl_range. apply NoDup_fmap_2_strong.
  - intros [[q x] []] [[q' y] []] [Hq _]%list_elem_of_filter [Hq' _]%list_elem_of_filter Hxy. cbn in *.
    apply bool_decide_eq_true in Hq as ->, Hq' as ->. by subst.
  - apply NoDup_filter. apply (NoDup_fmap_1 fst). pose proof (tbl_iter_sorted _ t) as Hs.
    induction Hs as [|x l Hl IH Hx]; constructor; [|done]. intros Hin. rewrite Forall_forall in Hx.
    by apply (key_lt_irrefl x), Hx.
Qed.

(** The row of a repository. *)
Lemma repo_id_run d a N S es next nt org repo :
  rep sha256 d a N S es next nt →
  match repo_id_in (db_names d) org repo with
  | Some r => ∃ rn o on, N !! r = Some rn ∧ n_kind rn = Repo ∧ n_name rn = repo ∧ n_parent rn = Some o ∧
      N !! o = Some on ∧ n_name on = org
  | None => ∀ p, a !! (org, repo, p) = None
  end.
Proof.
  intros R. pose proof (rp_ents _ _ _ _ _ _ _ _ R) as He. unfold repo_id_in. rewrite !tbl_get_spec.
  assert (∀ p v, a !! (org, repo, p) = Some v → ∃ o r, tbl_map (db_names d) !! name_key None Org org = Some o ∧
    tbl_map (db_names d) !! name_key (Some o) Repo repo = Some r) as Hsome.
  { intros p v (f & Hf)%(rp_docs _ _ _ _ _ _ _ _ R). apply entry_at_Some in Hf as (? & ? & Hp & _).
    apply path_of_Some in Hp as (n & r & rn & o & on & Hn & Hk & Hr & Hrn & Ho & Hon & [= -> -> ->]).
    destruct (file_parents _ _ _ _ _ _ _ He Hn Hk) as (r' & rn' & o' & on' & Hr' & Hrn' & Hkr & Ho' & Hon' & Hko & Hpo).
    exists o, r. split; apply He; [exists on|exists rn]; split; try done; f_equal; congruence. }
  destruct (tbl_map (db_names d) !! name_key None Org org) as [o|] eqn:Eo.
  2:{ intros p. destruct (a !! (org, repo, p)) as [v|] eqn:E; [|done]. destruct (Hsome _ _ E) as (? & ? & ? & _). congruence. }
  rewrite tbl_get_spec. apply He in Eo as (on & Hon & (_ & Hko & Hno)%name_key_inj).
  destruct (tbl_map (db_names d) !! name_key (Some o) Repo repo) as [r|] eqn:Er.
  - apply He in Er as (rn & Hrn & (Hd & Hkr & Hnr)%name_key_inj). exists rn, o, on. split_and!; try done.
    eapply parent_default; [exact He|exact Hrn|done| |done]. by exists o, on.
  - intros p. destruct (a !! (org, repo, p)) as [v|] eqn:E; [|done]. destruct (Hsome _ _ E) as (o' & r' & Ho' & Hr').
    assert (tbl_map (db_names d) !! name_key None Org org = Some o) as Eo.
    { apply He. exists on. split; [done|]. pose proof (en_shape _ _ _ _ _ He _ _ Hon) as Hs. unfold shape_ok in Hs.
      rewrite <- Hko in Hs. by rewrite Hs, <- Hko, <- Hno. }
    assert (o' = o) as -> by congruence. congruence.
Qed.

Lemma repo_files d a N S es next nt org repo r rn o on f :
  rep sha256 d a N S es next nt → N !! r = Some rn → n_kind rn = Repo → n_name rn = repo →
  n_parent rn = Some o → N !! o = Some on → n_name on = org →
  f ∈ multimap_get (db_children d) r → file_of org repo r N f.
Proof.
  intros R Hr Hkr Hnr Hpr Ho Hno Hf. pose proof (rp_ents _ _ _ _ _ _ _ _ R) as He.
  apply multimap_elem, (en_kids _ _ _ _ _ He) in Hf as (n & Hn & Hp). exists n.
  assert (n_kind n = File) as Hk.
  { pose proof (en_shape _ _ _ _ _ He _ _ Hn) as Hs. unfold shape_ok, has_parent in Hs.
    destruct (n_kind n); try done; [congruence|]. destruct Hs as (p & m & Hpm & Hm & Hkm). congruence. }
  split_and!; try done. apply path_of_Some. exists n, r, rn, o, on. split_and!; try done. congruence.
Qed.

(** What pruning removes. *)
Definition pruned (org repo : str) (keep : list str) (k : dkey) (v : Doc) : Prop :=
  k.1 = (org, repo) ∧ (k.2 ∉ normalize_path <$> keep) ∧ fm_origin (doc_meta v) = Some ORIGIN_DIRECTORY.
#[global] Instance pruned_dec org repo keep k v : Decision (pruned org repo keep k v).
Proof. unfold pruned. apply _. Defined.

Lemma dead_keys_spec d a N S es next nt org repo keep r rn o on k :
  rep sha256 d a N S es next nt → N !! r = Some rn → n_kind rn = Repo → n_name rn = repo →
  n_parent rn = Some o → N !! o = Some on → n_name on = org →
  k ∈ omap (dead_key org repo (normalize_path <$> keep) N) (multimap_get (db_children d) r) ↔
  ∃ v, a !! k = Some v ∧ pruned org repo keep k v.
Proof.
  intros R Hr Hkr Hnr Hpr Ho Hno. pose proof (rp_ents _ _ _ _ _ _ _ _ R) as He. rewrite list_elem_of_omap. split.
  - intros (f & Hf & Hk). destruct (repo_files _ _ _ _ _ _ _ _ _ _ _ _ _ _ R Hr Hkr Hnr Hpr Ho Hno Hf) as (n & Hn & Hkn & _ & Hp).
    rewrite (dead_key_eq _ _ _ _ _ _ Hn) in Hk. case_decide as Hd; [|done]. injection Hk as <-.
    destruct (rep_file _ _ _ _ _ _ _ _ _ _ R Hn Hkn) as (s & v & k & Hs & Hv & Hp' & Ha).
    assert (k = (org, repo, n_name n)) as -> by congruence. exists v. split; [done|]. destruct Hd as [Hd1 Hd2].
    split_and!; [done|done|]. unfold doc_of in Hv. by apply bind_Some in Hv as (ex & _ & [= <-]).
  - intros (v & Ha & Hk1 & Hk2 & Hor). destruct k as [[? ?] p]. injection Hk1 as -> ->. cbn [snd] in Hk2.
    apply (rp_docs _ _ _ _ _ _ _ _ R) in Ha as (f & (n & s & Hp & Hn & Hs & Hv)%entry_at_Some).
    rewrite <- Hnr, <- Hno in Hp. destruct (file_under _ _ _ _ _ _ _ _ _ _ _ He Hr Hkr Hpr Ho Hp) as (n' & Hn' & Hkn & Hr' & E3).
    assert (n' = n) as -> by congruence.
    exists f. split; [apply multimap_elem, (en_kids _ _ _ _ _ He); by exists n|].
    rewrite (dead_key_eq _ _ _ _ _ _ Hn). rewrite decide_True; [by rewrite E3|]. split; [by rewrite E3|].
    unfold doc_of in Hv. by apply bind_Some in Hv as (ex & _ & [= <-]).
Qed.

Lemma foldl_delete_lookup (ks : list dkey) a k :
  foldl (λ a k, delete k a) a ks !! k = if decide (k ∈ ks) then None else a !! k.
Proof.
  revert a. induction ks as [|x ks IH]; intros a; [by rewrite decide_False by apply not_elem_of_nil|].
  cbn [foldl]. rewrite IH. destruct (decide (k ∈ ks)) as [Hk|Hk]; [by rewrite decide_True by by right|].
  destruct (decide (k = x)) as [->|Hne].
  - by rewrite lookup_delete_eq, decide_True by by left.
  - rewrite lookup_delete_ne, decide_False by (try done; set_solver). done.
Qed.

Lemma str_le_sorted (l : list str) : NoDup l → StronglySorted str_lt (sort_by str_le l).
Proof.
  intros Hnd. assert (StronglySorted (λ x y, str_le x y = true) (sort_by str_le l)) as Hs.
  { unfold str_le. apply sort_by_sorted.
    - intros x y z Hxy%bool_decide_eq_true Hyz%bool_decide_eq_true. apply bool_decide_eq_true. intros Hzx.
      destruct (key_lt_total x y) as [Hlt|[->|Hlt]]; [|done|done]. apply Hyz. exact (@key_lt_trans _ str_key_order z x y Hzx Hlt).
    - intros x y. rewrite !bool_decide_eq_true. destruct (decide (str_lt y x)) as [Hlt|]; [right|by left].
      intros Hlt'. exact (@key_lt_irrefl _ str_key_order x (@key_lt_trans _ str_key_order x y x Hlt' Hlt)). }
  rewrite <- (sort_by_perm str_le l) in Hnd. induction Hs as [|x k Hk IH Hx]; [constructor|].
  apply NoDup_cons in Hnd as [Hxk Hnd]. constructor; [by apply IH|]. apply Forall_forall. intros y Hy.
  rewrite Forall_forall in Hx. specialize (Hx y Hy). apply bool_decide_eq_true in Hx.
  destruct (key_lt_total x y) as [?|[->|?]]; done.
Qed.

Lemma dead_names_NoDup d a N S es next nt org repo keep r l :
  rep sha256 d a N S es next nt → NoDup l → (∀ f, f ∈ l → file_of org repo r N f) →
  NoDup (snd <$> omap (dead_key org repo keep N) l).
Proof.
  intros R Hnd Hl. induction Hnd as [|f l Hf Hnd IH]; [constructor|]. cbn [omap list_omap].
  assert (∀ g, g ∈ l → file_of org repo r N g) as Hl' by (intros; apply Hl; by right). specialize (IH Hl').
  destruct (Hl f) as (n & Hn & Hk & Hr & Hp); [by left|]. rewrite (dead_key_eq _ _ _ _ _ _ Hn).
  case_decide; [|done]. cbn [fmap list_fmap snd]. constructor; [|done].
  intros (k & Hkn & (g & Hg & Hgk)%list_elem_of_omap)%list_elem_of_fmap.
  destruct (Hl' g Hg) as (m & Hm & Hkm & Hrm & Hpm). rewrite (dead_key_eq _ _ _ _ _ _ Hm) in Hgk.
  case_decide; [|done]. injection Hgk as <-. cbn in Hkn.
  assert (f = g) as ->; [|done]. eapply path_unique; [apply R|exact Hp|]. by rewrite Hkn.
Qed.

Lemma prune_run d a org repo keep :
  stores sha256 d a →
  ∃ removed d', prune_files d org repo keep false = Ok (removed, d') ∧
    prune_files d org repo keep true = Ok (removed, d) ∧
    stores sha256 d' (filter (λ kv, ¬ pruned org repo keep kv.1 kv.2) a) ∧
    StronglySorted str_lt removed ∧
    ∀ p, p ∈ removed ↔ ∃ v, a !! (org, repo, p) = Some v ∧ pruned org repo keep (org, repo, p) v.
Proof.
  intros (N & S & es & next & nt & R). unfold prune_files, prune_in.
  pose proof (repo_id_run _ _ _ _ _ _ _ org repo R) as Hrepo.
  destruct (repo_id_in (db_names d) org repo) as [r|].
  2:{ cbn [mbind outcome_mbind outcome_bind]. exists [], (upd_cat (Tally_apply ∅) d).
      assert (Tally_apply ∅ (db_cat d) = db_cat d) as Hcat by done.
      split_and!; [done|done| |constructor|].
      - assert (upd_cat (Tally_apply ∅) d = d) as -> by (by destruct d).
        rewrite map_filter_id; [by exists N, S, es, next, nt|]. intros [[o q] p] v Ha [[= -> ->] _]. cbn in *. by rewrite Hrepo in Ha.
      - intros p. rewrite Hrepo. split; [by intros ?%elem_of_nil|by intros (? & ? & _)]. }
  destruct Hrepo as (rn & o & on & Hr & Hkr & Hnr & Hpr & Ho & Hno).
  set (l := multimap_get (db_children d) r). set (kp := normalize_path <$> keep).
  assert (∀ f, f ∈ l → file_of org repo r N f) as Hl by (intros f; by eapply repo_files).
  assert (NoDup l) as Hnd by apply multimap_NoDup.
  assert (upd_cat (Tally_apply ∅) d = d) as Hd0 by (by destruct d).
  assert (pending d ∅ a a) as Hpend.
  { split_and!; [apply R|intros c [x Hx]; by rewrite lookup_empty in Hx|]. intros c. unfold tally_at. rewrite lookup_empty. cbn. lia. }
  pose proof R as R0. rewrite <- Hd0 in R0.
  destruct (prune_loop org repo kp r l d ∅ [] a a N S es next nt R0 Hpend Hnd Hl) as (d' & t' & N' & S' & -> & R').
  rewrite (dry_loop org repo kp r l d ∅ [] N) by (try done; apply (rp_ents _ _ _ _ _ _ _ _ R)).
  cbn [mbind outcome_mbind outcome_bind app]. eexists _, _. split; [done|]. split; [done|].
  pose proof (λ k, dead_keys_spec _ _ _ _ _ _ _ org repo keep r rn o on k R Hr Hkr Hnr Hpr Ho Hno) as Hks. fold l kp in Hks.
  split_and!.
  - exists N', S', es, next, nt.
    assert (filter (λ kv, ¬ pruned org repo keep kv.1 kv.2) a =
      foldl (λ a k, delete k a) a (omap (dead_key org repo kp N) l)) as ->; [|done].
    apply map_eq. intros k. rewrite foldl_delete_lookup, map_lookup_filter.
    destruct (a !! k) as [v|] eqn:Ha; cbn; [|by case_decide]. destruct (decide (k ∈ _)) as [Hk|Hk].
    + apply Hks in Hk as (w & Hw & Hpr'). assert (w = v) as -> by congruence. by rewrite option_guard_False by auto.
    + rewrite option_guard_True; [done|]. intros Hpr'. apply Hk, Hks. by exists v.
  - apply str_le_sorted. by eapply dead_names_NoDup.
  - intros p. rewrite sort_by_perm, list_elem_of_fmap. rewrite <- Hks. split.
    + intros (k & -> & Hk). pose proof Hk as (v & _ & Hk1 & _)%Hks. destruct k as [[? ?] ?]. cbn in *. by injection Hk1 as -> ->.
    + intros Hk. by exists (org, repo, p).
Qed.
End prune.
