(* ===== verification/Vacuum.v ===== *)
(** * Vacuuming the dictionary

    [V2Store::vacuum] ([graph-store/src/v2.rs]) drops the terms nothing
    refers to. The documents and the ids of all other terms stay. As the
    source notes, colliding digests are not handled, so the theorem assumes
    that no two stored texts collide. *)
From S2P Require Import Prelude Text StrOps Schema Varint Stream StreamRound Posting DictBlock Table DictRev.
From S2P Require Import Walk Prep Located Db Catalog Reader Write Dict Store Entities Content Storing Ingest.

(** ** Iterating a table *)

Section rows.
Context `{Countable K} `{!KeyOrder K} {V : Type}.

Lemma rows_unique (l k : list (K * V)) :
  StronglySorted key_lt l.*1 → StronglySorted key_lt k.*1 → (∀ x, x ∈ l ↔ x ∈ k) → l = k.
Proof.
  assert (∀ l : list (K * V), StronglySorted key_lt l.*1 → StronglySorted (λ x y, key_lt x.1 y.1) l ∧ NoDup l) as Hs.
  { clear l k. induction l as [|[k v] l IH]; cbn; intros Hs; [split; constructor|].
    apply StronglySorted_inv in Hs as [Hs Hk]. destruct (IH Hs) as [IHs IHn].
    rewrite Forall_fmap in Hk. split; constructor; try done.
    intros Hin. rewrite Forall_forall in Hk. by apply (key_lt_irrefl k), (Hk (k, v)). }
  intros Hl Hk Heq. destruct (Hs l Hl) as [Hsl Hnl], (Hs k Hk) as [Hsk Hnk].
  eapply (StronglySorted_unique_strong (λ x y : K * V, key_lt x.1 y.1)); [|done|done|by apply NoDup_Permutation].
  intros x y _ _ Hxy Hyx. destruct (key_lt_irrefl x.1). by eapply key_lt_trans.
Qed.
End rows.

(** The rows of a table of blocks, in order. *)
Fixpoint number {A} (n : Z) (xs : list A) : list (Z * A) :=
  match xs with [] => [] | x :: xs => (n, x) :: number (n + 1) xs end.

Lemma number_elem {A} n (xs : list A) i x :
  (i, x) ∈ number n xs ↔ (map_seqZ n xs : gmap Z A) !! i = Some x.
Proof.
  revert n. induction xs as [|y xs IH]; intros n; cbn [number map_seqZ].
  - rewrite lookup_empty. split; [by intros ?%elem_of_nil|done].
  - rewrite elem_of_cons, (IH (n + 1)), lookup_insert_Some. split.
    + intros [[= -> ->]|Hi]; [by left|]. right. split; [|done]. intros ->.
      apply lookup_map_seqZ_Some in Hi as [? _]. lia.
    + intros [[-> ->]|[_ Hi]]; [by left|by right].
Qed.
Lemma number_sorted {A} n (xs : list A) :
  StronglySorted Z.lt (number n xs).*1 ∧ Forall (Z.le n) (number n xs).*1.
Proof.
  revert n. induction xs as [|x xs IH]; intros n; cbn; [split; constructor|].
  destruct (IH (n + 1)) as [Hs HF]. split; constructor; [done| |lia|];
    (eapply Forall_impl; [exact HF|]; intros; lia).
Qed.
Lemma iter_blocks `{Redb tbl} (t : tbl Z _ _ (list Z)) (xs : list (list Z)) :
  tbl_map t = map_seqZ 0 xs → tbl_iter t = number 0 xs.
Proof.
  intros Ht. apply rows_unique; [apply tbl_iter_sorted|apply number_sorted|].
  intros [i x]. by rewrite tbl_iter_elem, Ht, number_elem.
Qed.

(** ** Digests *)

Lemma hex_digit_chars x : 0 ≤ x < 16 → hex_digit x ≠ 46 ∧ ∀ y, 0 ≤ y < 16 → hex_digit x = hex_digit y → x = y.
Proof.
  unfold hex_digit. intros Hx. split; [destruct (x <? 10) eqn:E; bool_prop; lia|].
  intros y Hy. destruct (x <? 10) eqn:E, (y <? 10) eqn:E'; bool_prop; lia.
Qed.
Lemma hex_split (a b : list Z) s t :
  Forall u8 a → Forall u8 b → (s = [] ∨ head s = Some 46) → (t = [] ∨ head t = Some 46) →
  (a ≫= hex_byte) ++ s = (b ≫= hex_byte) ++ t → a = b ∧ s = t.
Proof.
  intros Ha. revert b. assert (∀ x, u8 x → 0 ≤ x / 16 < 16 ∧ 0 ≤ x mod 16 < 16) as Hd.
  { unfold u8. intros x Hx. pose proof (Z.div_mod x 16). pose proof (Z.mod_pos_bound x 16). lia. }
  induction Ha as [|x a Hx Ha IH]; intros b Hb Hs Ht Heq; destruct Hb as [|y b Hy Hb].
  - done.
  - exfalso. cbn in Heq. subst s. destruct Hs as [Hs|[= Hs]]; [done|].
    by destruct (hex_digit_chars (y / 16)) as [? _]; [apply Hd|].
  - exfalso. cbn in Heq. subst t. destruct Ht as [Ht|[= Ht]]; [done|].
    by destruct (hex_digit_chars (x / 16)) as [? _]; [apply Hd|].
  - cbn in Heq. injection Heq as H1 H2 Heq. destruct (IH b Hb Hs Ht Heq) as [-> ->]. split; [|done]. f_equal.
    apply hex_digit_chars in H1; [|by apply Hd..]. apply hex_digit_chars in H2; [|by apply Hd..].
    pose proof (Z.div_mod x 16). pose proof (Z.div_mod y 16). lia.
Qed.

Section digests.
Context (sha256 : list Z → list Z).
(** A digest is a string of bytes. *)
Hypothesis sha256_bytes : ∀ b, Forall u8 (sha256 b).

Lemma hashed_key_0 t u n :
  0 ≤ n → hashed_key sha256 t 0 = hashed_key sha256 u n → sha256 (as_bytes t) = sha256 (as_bytes u) ∧ n = 0.
Proof.
  unfold hashed_key. intros Hn Heq. apply app_inv_head in Heq. change (0 <? 0) with false in Heq. cbv iota in Heq.
  apply hex_split in Heq as [-> Hs]; [|apply sha256_bytes..|by left|].
  - split; [done|]. destruct (0 <? n) eqn:E; bool_prop; [done|lia].
  - destruct (0 <? n); [by right|by left].
Qed.
End digests.

(** ** The live terms *)

Definition sym_uses (r : SymRec) (x : Z) : Prop :=
  x = s_name r ∨ s_lang_kind r = Some x ∨ s_owner r = Some x.
Definition uses (s : Stream) (x : Z) : Prop :=
  (∃ r, r ∈ st_symbols s ∧ sym_uses r x) ∨ ∃ t, t ∈ st_tokens s ∧ t_term t = x.

Lemma live_syms_elem (syms : list SymRec) (live : gset Z) x :
  x ∈ foldl (λ live s, {[s_name s]} ∪ list_to_set (option_list (s_lang_kind s))
               ∪ list_to_set (option_list (s_owner s)) ∪ live) live syms ↔
  x ∈ live ∨ ∃ r, r ∈ syms ∧ sym_uses r x.
Proof.
  revert live. induction syms as [|r syms IH]; intros live; cbn [foldl].
  { split; [by left|]. intros [?|(r & Hr & _)]; [done|]. by apply elem_of_nil in Hr. }
  rewrite IH. unfold sym_uses.
  assert (∀ o : option Z, x ∈ (list_to_set (option_list o) : gset Z) ↔ o = Some x) as Ho.
  { intros [y|]; cbn; set_solver. }
  rewrite !elem_of_union, !Ho, elem_of_singleton. setoid_rewrite elem_of_cons. naive_solver.
Qed.

Lemma with_ranges_uses s x : (∃ r, r ∈ st_symbols (with_ranges s) ∧ sym_uses r x) ↔ ∃ r, r ∈ st_symbols s ∧ sym_uses r x.
Proof.
  set (g := λ r, (s_name r, s_lang_kind r, s_owner r)).
  pose proof (with_ranges_fmap g s ltac:(done)) as Heq.
  assert (∀ l k : list SymRec, g <$> l = g <$> k → (∃ r, r ∈ l ∧ sym_uses r x) → ∃ r, r ∈ k ∧ sym_uses r x) as Hgo.
  { intros l k Hlk (r & Hr & Hu). assert (g r ∈ g <$> k) as Hg by (rewrite <- Hlk; apply list_elem_of_fmap; by exists r).
    apply list_elem_of_fmap in Hg as (q & Hq & Hk). exists q. split; [done|]. injection Hq as E1 E2 E3.
    unfold sym_uses in *. by rewrite <- E1, <- E2, <- E3. }
  split; by apply Hgo.
Qed.

Section vacuum.
Context `{Redb tbl} `{Serde} (sha256 : list Z → list Z).
Hypothesis sha256_bytes : ∀ b, Forall u8 (sha256 b).
Implicit Types (d : Db tbl).

Lemma live_fold (rows : list (Z * list Z)) live (S : gmap Z Stream) :
  (∀ f raw, (f, raw) ∈ rows → ∃ s, S !! f = Some s ∧ raw = encode s ∧ wf_stream s) →
  ∃ live', try_fold live_step live rows = Ok live' ∧
    ∀ x, x ∈ live' ↔ x ∈ live ∨ ∃ f raw s r, (f, raw) ∈ rows ∧ S !! f = Some s ∧ r ∈ st_symbols s ∧ sym_uses r x.
Proof.
  revert live. induction rows as [|[f raw] rows IH]; intros live Hrows.
  { exists live. split; [done|]. intros x. split; [by left|]. intros [?|(? & ? & ? & ? & Hin & _)]; [done|]. by apply elem_of_nil in Hin. }
  destruct (Hrows f raw) as (s & Hs & -> & Hwf); [by left|]. cbn [try_fold].
  assert (live_step live (f, encode s) = Ok (foldl (λ live s, {[s_name s]} ∪ list_to_set (option_list (s_lang_kind s))
      ∪ list_to_set (option_list (s_owner s)) ∪ live) live (st_symbols (with_ranges s)))) as ->.
  { unfold live_step. cbn [snd]. rewrite decode_lazy_encode by done. cbn [mbind outcome_mbind outcome_bind].
    by rewrite lazy_symbols_encode. }
  cbn [mbind outcome_mbind outcome_bind].
  destruct (IH (foldl (λ live s, {[s_name s]} ∪ list_to_set (option_list (s_lang_kind s))
      ∪ list_to_set (option_list (s_owner s)) ∪ live) live (st_symbols (with_ranges s)))) as (live' & Hrun & Hel).
  { intros g raw Hg. apply (Hrows g raw). by right. }
  exists live'. split; [done|]. intros x. rewrite Hel, live_syms_elem, with_ranges_uses. split.
  - intros [[Hx|(r & Hr & Hu)]|(g & raw & s' & r & Hin & ?)]; [by left| |].
    + right. exists f, (encode s), s, r. split_and!; try done. by left.
    + right. exists g, raw, s', r. split; [by right|done].
  - intros [Hx|(g & raw & s' & r & [[= -> ->]|Hin]%elem_of_cons & Hs' & Hr & Hu)]; [by left; left| |].
    + left. right. assert (s' = s) as -> by congruence. by exists r.
    + right. by exists g, raw, s', r.
Qed.

Lemma post_keys (rows : list (Z * Z * list Z)) (live : gset Z) x :
  x ∈ foldl (λ (live : gset Z) (row : Z * Z * list Z), {[row.1.1]} ∪ live) live rows ↔
  x ∈ live ∨ ∃ f b, (x, f, b) ∈ rows.
Proof.
  revert live. induction rows as [|[[t f] b] rows IH]; intros live; cbn [foldl fst].
  - split; [by left|]. intros [?|(? & ? & Hin)]; [done|]. by apply elem_of_nil in Hin.
  - rewrite IH, elem_of_union, elem_of_singleton. setoid_rewrite elem_of_cons. naive_solver.
Qed.

Lemma live_run d a N S es next nt :
  rep sha256 d a N S es next nt →
  ∃ live, live_terms d = Ok live ∧ ∀ x, x ∈ live ↔ ∃ f s, S !! f = Some s ∧ uses s x.
Proof.
  intros R. pose proof (rp_content _ _ _ _ _ _ _ _ R) as Hc. unfold live_terms.
  set (l0 := foldl _ ∅ _).
  destruct (live_fold (tbl_iter (db_streams d)) l0 S) as (live & Hrun & Hel).
  { intros f raw Hin%tbl_iter_elem. rewrite (co_streams _ _ _ _ _ _ _ _ Hc), lookup_fmap in Hin.
    apply fmap_Some in Hin as (s & Hs & ->). exists s. split_and!; [done|done|].
    apply (co_stream _ _ _ _ _ _ _ _ Hc _ _ Hs). }
  exists live. split; [done|]. intros x. rewrite Hel. unfold l0. rewrite post_keys. unfold uses. split.
  - intros [[Hx|(f & b & Hin%tbl_iter_elem)]|(f & raw & s & r & _ & Hs & Hr & Hu)]; [set_solver| |].
    + rewrite (co_post _ _ _ _ _ _ _ _ Hc) in Hin. apply bind_Some in Hin as (s & Hs & Hp). exists f, s. split; [done|]. right.
      unfold post_row in Hp. case_decide as Hne; [done|]. apply token_terms_elem in Hne. unfold token_terms in Hne.
      apply list_elem_of_fmap in Hne as ([j []] & -> & Hj%gmap_rows_elem%elem_of_list_to_map_2).
      apply list_elem_of_fmap in Hj as (t & [= ->] & Ht). by exists t.
    + exists f, s. split; [done|]. left. by exists r.
  - intros (f & s & Hs & [(r & Hr & Hu)|(t & Ht & <-)]).
    + right. exists f, (encode s), s, r. split_and!; try done. apply tbl_iter_elem.
      by rewrite (co_streams _ _ _ _ _ _ _ _ Hc), lookup_fmap, Hs.
    + left. right. exists f. setoid_rewrite tbl_iter_elem. rewrite (co_post _ _ _ _ _ _ _ _ Hc), Hs.
      cbn [mbind option_bind]. unfold post_row. rewrite decide_False; [by eexists|].
      apply list_elem_of_lookup in Ht as [i Hi]. unfold ords_with. intros Hnil%fmap_nil_inv.
      by destruct (filter_nil_inv _ _ (i, t) Hnil (proj2 (enumerate_elem _ _ _) Hi)).
Qed.

(** ** The entries *)

Lemma all_fold (bs : list (list (Z * str))) n acc :
  Forall (λ b, (length b ≤ DICT_BLOCK)%nat ∧ Forall entry_ok b) bs →
  try_fold (λ all (row : Z * list Z), es ← decode_dict_block row.2; Ok (all ++ es)) acc
    (number n (encode_dict_block <$> bs)) = Ok (acc ++ concat bs).
Proof.
  intros HF. revert n acc. induction HF as [|b bs [Hl Hb] HF IH]; intros n acc; cbn [fmap list_fmap number try_fold concat].
  { by rewrite app_nil_r. }
  pose proof (block_small b Hl Hb) as Hs. cbn [snd]. rewrite decode_encode_block by done.
  cbn [mbind outcome_mbind outcome_bind]. by rewrite IH, app_assoc.
Qed.
Lemma all_run d es next : dict_ok sha256 d es next → all_terms d = Ok es.
Proof.
  intros [(bs & Hb & [HF _] & <-) _ _ _ _]. unfold all_terms. rewrite (iter_blocks _ _ Hb).
  rewrite all_fold; [done|]. eapply Forall_impl; [exact HF|]. by intros b (_ & ? & ?).
Qed.

(** ** Keys without collisions *)

Definition collision_free (es : list (Z * str)) : Prop :=
  ∀ i t j u, (i, t) ∈ es → (j, u) ∈ es → is_hashed t = true → is_hashed u = true →
    sha256 (as_bytes t) = sha256 (as_bytes u) → t = u.

Lemma keys_at_0 m es :
  keys_ok sha256 m es → NoDup es.*1 → NoDup es.*2 → collision_free es →
  ∀ k id, m !! k = Some id ↔ ∃ t, (id, t) ∈ es ∧ k = key_of sha256 t 0.
Proof.
  intros Hk Hnd Hnt Hcf.
  assert (∀ id t, (id, t) ∈ es → m !! key_of sha256 t 0 = Some id) as H0'.
  { intros id t Hin. destruct (ko_chain _ _ _ Hk _ _ Hin) as (n & Hn & Hm & Hch).
    destruct (decide (n = 0)) as [->|Hn0]; [done|]. destruct (Hch 0) as [j Hj]; [lia|].
    destruct (ko_key _ _ _ Hk _ _ Hj) as (u & n' & Hu & Hn' & Heq).
    assert (t = u) as ->; [|by rewrite (NoDup_snd_eq es id j u Hnt Hin Hu)].
    destruct (is_hashed t) eqn:Et; [|by eapply key_of_plain].
    pose proof (key_of_hashed _ _ _ _ _ Heq) as Eu. rewrite Et in Eu. unfold key_of in Heq. rewrite Et, <- Eu in Heq.
    apply hashed_key_0 in Heq as [Heq _]; [|done|done]. by eapply Hcf. }
  intros k id. split.
  - intros Hm. destruct (ko_key _ _ _ Hk _ _ Hm) as (t & n & Hin & _). exists t. split; [done|].
    eapply (ko_inj _ _ _ Hk); [exact Hm|by apply H0'].
  - intros (t & Hin & ->). by apply H0'.
Qed.

(** ** Dropping the dead *)

Lemma dict_key_found d id t :
  tbl_map (db_dict d) !! key_of sha256 t 0 = Some id →
  dict_key sha256 d t (Some id) = Ok (key_of sha256 t 0, Some id).
Proof.
  unfold dict_key, key_of. destruct (is_hashed t); cbn [negb]; intros Hk.
  - cbn [dict_key_loop]. rewrite tbl_get_spec, Hk. cbn [mbind outcome_mbind outcome_bind]. by rewrite Z.eqb_refl.
  - by rewrite tbl_get_spec, Hk.
Qed.
Lemma drop_fold (dead : list (Z * str)) d :
  (∀ id t, (id, t) ∈ dead → tbl_map (db_dict d) !! key_of sha256 t 0 = Some id) →
  NoDup ((λ e : Z * str, key_of sha256 e.2 0) <$> dead) →
  try_fold (drop_dead sha256) d dead =
    Ok (upd_dict (λ m, foldl (λ m (e : Z * str), tbl_remove (key_of sha256 e.2 0) m) m dead) d).
Proof.
  revert d. induction dead as [|[id t] dead IH]; intros d Hd Hnd; [by destruct d|].
  cbn [fmap list_fmap] in Hnd. apply NoDup_cons in Hnd as [Hni Hnd]. cbn [try_fold].
  assert (drop_dead sha256 d (id, t) = Ok (upd_dict (tbl_remove (key_of sha256 t 0)) d)) as ->.
  { unfold drop_dead. cbn [fst snd]. by rewrite (dict_key_found d id t (Hd id t ltac:(by left))). }
  cbn [mbind outcome_mbind outcome_bind]. rewrite IH; [done| |done].
  intros j u Hu. change (db_dict (upd_dict ?g d)) with (g (db_dict d)). rewrite tbl_remove_spec, lookup_delete_ne.
  - apply Hd. by right.
  - intros Heq. apply Hni. cbn [snd]. rewrite Heq. apply list_elem_of_fmap. by exists (j, u).
Qed.

(** ** Repacking *)

Lemma inserts_number (xs : list (list Z)) n (t : tbl Z _ _ (list Z)) :
  tbl_map (foldl (λ t '(i, block), tbl_insert (Z.of_nat i) block t) t (enum_from n xs)) =
  map_seqZ (Z.of_nat n) xs ∪ tbl_map t.
Proof.
  revert n t. induction xs as [|x xs IH]; intros n t; cbn [enum_from foldl map_seqZ]; [by rewrite (left_id_L ∅ (∪))|].
  rewrite IH, tbl_insert_spec. replace (Z.of_nat (S n)) with (Z.succ (Z.of_nat n)) by lia.
  rewrite <- insert_union_l, insert_union_r; [done|].
  apply eq_None_not_Some. intros [y Hy]. apply lookup_map_seqZ_Some in Hy as [? _]. lia.
Qed.
Lemma repack_run t bs kept :
  rev_blocks t bs → Forall entry_ok kept → tbl_map (repack t kept) = map_seqZ 0 (pack_dict_blocks kept).
Proof.
  intros Hb Hok. unfold repack. unfold enumerate. rewrite inserts_number.
  assert (tbl_map (foldl (λ t i, tbl_remove i t) t (seqZ 0 (tbl_len t))) = ∅) as ->; [|by rewrite (right_id_L ∅ (∪))].
  apply map_eq. intros i. rewrite lookup_empty, (removes_lookup (λ i : Z, i)), list_fmap_id, (rev_len t bs Hb).
  case_decide as Hi; [done|]. rewrite Hb. apply eq_None_not_Some. intros [y Hy].
  apply lookup_map_seqZ_Some in Hy as [Hi0 Hy%lookup_lt_Some]. rewrite length_fmap in Hy. apply Hi, elem_of_seqZ. lia.
Qed.

Lemma packed_blocks (kept : list (Z * str)) :
  Forall entry_ok kept → StronglySorted Z.lt kept.*1 →
  ∃ bs, encode_dict_block <$> bs = pack_dict_blocks kept ∧ rev_ok bs ∧ concat bs = kept.
Proof.
  intros Hok Hs. exists (foldl append_entry [] kept). split_and!.
  - by apply pack_dict_blocks_spec.
  - destruct (append_all_spec kept (tbl_empty : rev_table (tbl:=tbl)) []) as (t & _ & _ & Hr); try done.
    + unfold rev_blocks. by rewrite tbl_empty_spec.
    + by split; constructor.
  - clear Hok Hs. assert (∀ bs, concat (foldl append_entry bs kept) = concat bs ++ kept) as Hc; [|apply (Hc [])].
    induction kept as [|e kept IH]; intros bs; cbn [foldl]; [by rewrite app_nil_r|].
    by rewrite IH, append_entry_concat, <- app_assoc.
Qed.

(** ** Live terms keep their texts *)

Lemma mapM_ext_in {A B} (f g : A → option B) l : (∀ x, x ∈ l → f x = g x) → mapM f l = mapM g l.
Proof.
  induction l as [|x l IH]; intros Hl; [done|]. cbn. rewrite (Hl x) by by left. destruct (g x); [|done]. cbn.
  rewrite IH; [done|]. intros y Hy. apply Hl. by right.
Qed.

Section kept.
Context (es kept : list (Z * str)) (S : gmap Z Stream) (live : gset Z).
Hypothesis Hlive : ∀ x, x ∈ live ↔ ∃ f s, S !! f = Some s ∧ uses s x.
Hypothesis Hkept : ∀ id, id ∈ live → entry_text id kept = entry_text id es.

Lemma kept_sym f s r : S !! f = Some s → r ∈ st_symbols s → decl_of_sym kept r = decl_of_sym es r.
Proof.
  intros Hs Hr. assert (∀ x, sym_uses r x → entry_text x kept = entry_text x es) as Hx.
  { intros x Hx. apply Hkept, Hlive. exists f, s. split; [done|]. left. by exists r. }
  assert (∀ o, (∀ x, o = Some x → sym_uses r x) → opt_text kept o = opt_text es o) as Ho.
  { intros [x|] Ho; [|done]. cbn. by rewrite Hx by by apply Ho. }
  unfold decl_of_sym. rewrite Hx by by left. rewrite !Ho; [done|unfold sym_uses; auto..].
Qed.
Lemma kept_decls f s e : S !! f = Some s → decls_of kept s e = decls_of es s e.
Proof.
  intros Hs. unfold decls_of. rewrite (mapM_ext_in (decl_of_sym kept) (decl_of_sym es)) by (intros; by eapply kept_sym).
  rewrite (mapM_ext_in (decl_of_tok kept) (decl_of_tok es)); [done|]. intros t Ht. unfold decl_of_tok.
  rewrite Hkept; [done|]. apply Hlive. exists f, s. split; [done|]. right. by exists t.
Qed.
Lemma kept_sym_at k id : sym_at S kept k id ↔ sym_at S es k id.
Proof.
  unfold sym_at. split; intros (f & s & i & r & Hf & Hi & -> & Hk); exists f, s, i, r; (split_and!; [done..|]);
    rewrite <- Hk; [symmetry|]; apply Hkept, Hlive; exists f, s; (split; [done|]); left; exists r; (split; [|by left]);
    by eapply list_elem_of_lookup_2.
Qed.
Lemma kept_content streams post idx fold refs files :
  content_ok streams post idx fold refs files S es → content_ok streams post idx fold refs files S kept.
Proof.
  intros [Hs Hst Hp Hi Hfd Hr Hfl]. split; try done.
  - intros f s Hf. rewrite (kept_decls f s false Hf). by apply Hst.
  - intros k id. by rewrite Hi, kept_sym_at.
  - intros k id. rewrite Hfd. by setoid_rewrite kept_sym_at.
Qed.
Lemma kept_entry N f : entry_at N S kept f = entry_at N S es f.
Proof.
  unfold entry_at. destruct (path_of N f), (N !! f) as [n|], (S !! f) as [s|] eqn:Hs; try done. cbn [mbind option_bind].
  unfold doc_of. by rewrite (kept_decls f s _ Hs).
Qed.
End kept.

(** ** The dictionary after a vacuum *)

Lemma filter_sub {A B} (g : A → B) (P : A → Prop) `{∀ x, Decision (P x)} (l : list A) :
  NoDup (g <$> l) → NoDup (g <$> filter P l).
Proof. intros Hnd. eapply sublist_NoDup; [exact Hnd|]. apply fmap_sublist, sublist_filter. Qed.

Lemma sorted_fmap_iff {A B} (R : B → B → Prop) (f : A → B) (l : list A) :
  StronglySorted R (f <$> l) ↔ StronglySorted (λ a b, R (f a) (f b)) l.
Proof.
  induction l as [|a l IH]; cbn; [split; constructor|].
  split; intros [Hs Ha]%StronglySorted_inv; constructor; (by apply IH) || by apply Forall_fmap.
Qed.

Lemma keys_exact m (es : list (Z * str)) :
  NoDup es.*1 → (∀ k id, m !! k = Some id ↔ ∃ t, (id, t) ∈ es ∧ k = key_of sha256 t 0) → keys_ok sha256 m es.
Proof.
  intros Hnd Hm. split.
  - intros k id (t & Hin & ->)%Hm. by exists t, 0.
  - intros id t Hin. exists 0. split_and!; [lia|apply Hm; by exists t|lia].
  - intros k k' id (t & Ht & ->)%Hm (u & Hu & ->)%Hm. by rewrite (NoDup_fst_eq es id t u Hnd Ht Hu).
Qed.

Lemma vacuum_dict d es next (live : gset Z) :
  dict_ok sha256 d es next → collision_free es →
  let kept := filter (λ e : Z * str, e.1 ∈ live) es in
  let dead := filter (λ e : Z * str, e.1 ∉ live) es in
  try_fold (drop_dead sha256) d dead =
    Ok (upd_dict (λ m, foldl (λ m (e : Z * str), tbl_remove (key_of sha256 e.2 0) m) m dead) d) ∧
  dict_ok sha256 (upd_rev (λ rev, repack rev kept)
    (upd_dict (λ m, foldl (λ m (e : Z * str), tbl_remove (key_of sha256 e.2 0) m) m dead) d)) kept next.
Proof.
  intros Hd Hcf kept dead. pose proof (dk_ids _ _ _ _ Hd) as Hnd. pose proof (dk_texts _ _ _ _ Hd) as Hnt.
  pose proof (keys_at_0 _ es (dk_keys _ _ _ _ Hd) Hnd Hnt Hcf) as Hm.
  assert (∀ e, e ∈ es → tbl_map (db_dict d) !! key_of sha256 e.2 0 = Some e.1) as Hkey.
  { intros [id t] Hin. apply Hm. by exists t. }
  assert (NoDup ((λ e : Z * str, key_of sha256 e.2 0) <$> es)) as Hndk.
  { apply NoDup_fmap_2_strong; [|by apply NoDup_fmap_1 in Hnd]. intros [i t] [j u] Hi Hj Heq. cbn in Heq.
    pose proof (Hkey _ Hi) as H1. pose proof (Hkey _ Hj) as H2. cbn in *. rewrite Heq in H1.
    assert (i = j) as -> by congruence. f_equal. by eapply NoDup_fst_eq. }
  split.
  { apply drop_fold; [|by apply filter_sub]. intros id t [_ Hin]%list_elem_of_filter. by apply (Hkey (id, t)). }
  destruct Hd as [(bs & Hb & [HF Hs] & Hes) Hk _ Hbel Hsz].
  assert (Forall entry_ok es) as Heok.
  { rewrite <- Hes. clear -HF. induction HF as [|b bs (_ & _ & Hb) _ IH]; [constructor|]. cbn. by apply Forall_app. }
  assert (Forall entry_ok kept) as Hkok.
  { rewrite Forall_forall in Heok |- *. intros e [_ He]%list_elem_of_filter. by apply Heok. }
  assert (StronglySorted Z.lt kept.*1) as Hks.
  { rewrite Hes in Hs. apply (proj2 (sorted_fmap_iff _ _ _)), sorted_filter. exact (proj1 (sorted_fmap_iff _ _ _) Hs). }
  destruct (packed_blocks kept Hkok Hks) as (bs' & Hb' & Hok' & Hc'). split.
  - exists bs'. split_and!; [|done|done]. unfold rev_blocks. rewrite Hb'. exact (repack_run _ bs kept Hb Hkok).
  - apply keys_exact; [by apply filter_sub|]. intros k id.
    change (db_dict (upd_rev _ (upd_dict ?g d))) with (g (db_dict d)). cbn beta.
    rewrite (removes_lookup (λ e : Z * str, key_of sha256 e.2 0)). split.
    + case_decide as Hdk; [done|]. intros (t & Hin & ->)%Hm. exists t. split; [|done]. apply list_elem_of_filter.
      split; [|done]. cbn. apply dec_stable. intros Hni. apply Hdk, list_elem_of_fmap. exists (id, t). split; [done|].
      by apply list_elem_of_filter.
    + intros (t & [Hl Hin]%list_elem_of_filter & ->). rewrite decide_False; [apply Hm; by exists t|].
      intros ([j u] & Heq & [Hnl Hju]%list_elem_of_filter)%list_elem_of_fmap. cbn in *.
      pose proof (Hkey _ Hin) as H1. pose proof (Hkey _ Hju) as H2. cbn in *. rewrite Heq in H1. congruence.
  - by apply filter_sub.
  - intros id ([i t] & -> & [_ Hin]%list_elem_of_filter)%list_elem_of_fmap. apply Hbel, list_elem_of_fmap. by exists (i, t).
  - pose proof (length_filter (λ e : Z * str, e.1 ∈ live) es). unfold kept. lia.
Qed.

(** ** The whole write *)

(** A term a stored stream refers to. *)
Definition term_live d (id : Z) : Prop :=
  ∃ f raw s, tbl_get (db_streams d) f = Some raw ∧ decode raw = Ok s ∧ uses s id.
(** No two stored texts have one digest. *)
Definition no_collisions d : Prop :=
  ∀ i t j u, dict_rev_lookup (db_rev d) i = Ok (Some t) → dict_rev_lookup (db_rev d) j = Ok (Some u) →
    is_hashed t = true → is_hashed u = true → sha256 (as_bytes t) = sha256 (as_bytes u) → t = u.

Lemma term_live_iff d a N S es next nt id :
  rep sha256 d a N S es next nt → term_live d id ↔ ∃ f s, S !! f = Some s ∧ uses s id.
Proof.
  intros R. pose proof (rp_content _ _ _ _ _ _ _ _ R) as Hc. unfold term_live.
  assert (∀ s, uses (with_ranges s) id ↔ uses s id) as Hu.
  { intros s. unfold uses. by rewrite with_ranges_uses. }
  setoid_rewrite tbl_get_spec. rewrite (co_streams _ _ _ _ _ _ _ _ Hc). setoid_rewrite lookup_fmap. split.
  - intros (f & raw & s' & (s & Hs & ->)%fmap_Some & Hdec & Hus). exists f, s. split; [done|].
    rewrite decode_encode_run in Hdec by apply (co_stream _ _ _ _ _ _ _ _ Hc _ _ Hs). injection Hdec as <-. by apply Hu.
  - intros (f & s & Hs & Hus). exists f, (encode s), (with_ranges s). rewrite Hs. split_and!; [done| |by apply Hu].
    apply decode_encode_run, (co_stream _ _ _ _ _ _ _ _ Hc _ _ Hs).
Qed.

Lemma filter_all {A} (P : A → Prop) `{∀ x, Decision (P x)} (l : list A) :
  filter (λ x, ¬ P x) l = [] → filter P l = l.
Proof.
  intros Hl. induction l as [|x l IH]; [done|]. rewrite filter_cons in Hl |- *. destruct (decide (P x)) as [Hx|Hx].
  - rewrite decide_False in Hl by auto. by rewrite IH.
  - by rewrite decide_True in Hl.
Qed.

Lemma vacuum_run d a :
  stores sha256 d a → no_collisions d →
  ∃ stats d', vacuum sha256 d = Ok (stats, d') ∧ stores sha256 d' a ∧
    tbl_len (db_dict d) = Z.of_nat (vs_terms_removed stats + vs_terms_kept stats) ∧
    tbl_len (db_dict d') = Z.of_nat (vs_terms_kept stats) ∧
    ∀ t id, lookup_term sha256 d' t = Ok (Some id) ↔ lookup_term sha256 d t = Ok (Some id) ∧ term_live d id.
Proof.
  intros (N & S & es & next & nt & R) Hnc. pose proof (rp_dict _ _ _ _ _ _ _ _ R) as Hd.
  assert (collision_free es) as Hcf.
  { intros i t j u Hi Hj Ht Hu Heq. pose proof (dk_ids _ _ _ _ Hd) as Hnd.
    apply (Hnc i t j u); [..|done|done|done]; rewrite (rev_text _ _ _ _ _ Hd); f_equal; by apply entry_text_elem. }
  destruct (live_run _ _ _ _ _ _ _ R) as (live & Hlr & Hlive). destruct (vacuum_dict d es nt live Hd Hcf) as [Hdrop Hd'].
  set (kept := filter (λ e : Z * str, e.1 ∈ live) es) in *. set (dead := filter (λ e : Z * str, e.1 ∉ live) es) in *.
  unfold vacuum, vacuum_in. rewrite Hlr. cbn [mbind outcome_mbind outcome_bind].
  rewrite (all_run _ _ _ Hd). cbn [mbind outcome_mbind outcome_bind]. fold dead kept.
  rewrite Hdrop. cbn [mbind outcome_mbind outcome_bind]. eexists _, _. split; [done|].
  set (dF := if bool_decide (dead = []) then d else _).
  assert (rep sha256 dF a N S kept next nt) as RF.
  { unfold dF. destruct dead as [|e dead'] eqn:Edead; [rewrite bool_decide_eq_true_2 by done|rewrite bool_decide_eq_false_2 by done].
    { unfold kept. by rewrite (filter_all (λ e : Z * str, e.1 ∈ live) es Edead). }
    pose proof R as [Re Rr _ Rc Rl Rdo Rca Rm Rn Rnt Rt].
    assert (∀ id, id ∈ live → entry_text id kept = entry_text id es) as Hkept.
    { intros id Hid. apply option_eq. intros t. rewrite !entry_text_elem by (try apply filter_sub; by eapply dk_ids).
      unfold kept. rewrite list_elem_of_filter. naive_solver. }
    split; try done.
    - by eapply kept_content.
    - intros k v. rewrite Rdo. by setoid_rewrite (kept_entry es kept S live Hlive Hkept N). }
  assert (∀ d es nt, dict_ok sha256 d es nt → tbl_len (db_dict d) = Z.of_nat (length es)) as Hlen.
  { intros d0 es0 nt0 Hd0. rewrite tbl_len_spec. by rewrite (keys_size _ _ _ (dk_keys _ _ _ _ Hd0) (dk_ids _ _ _ _ Hd0)). }
  pose proof (rp_dict _ _ _ _ _ _ _ _ RF) as HdF. cbn [vs_terms_removed vs_terms_kept].
  split_and!; [by exists N, S, kept, next, nt| |by apply (Hlen _ _ nt)|].
  - rewrite (Hlen _ _ _ Hd). unfold kept, dead. clear. induction es as [|e es IH]; [done|]. rewrite !filter_cons.
    destruct (decide (e.1 ∈ live)); [rewrite (decide_False (P:=e.1 ∉ live)) by auto|rewrite (decide_True (P:=e.1 ∉ live)) by done]; cbn [length]; lia.
  - intros t id. rewrite (lookup_run _ _ _ _ _ HdF), (lookup_run _ _ _ _ _ Hd), (term_live_iff _ _ _ _ _ _ _ _ R).
    rewrite <- Hlive. assert (∀ x y : option Z, Ok (E:=StoreError) x = Ok y ↔ x = y) as Hok by naive_solver.
    rewrite !Hok, !id_of_elem by (eapply dk_texts; eassumption). unfold kept. rewrite list_elem_of_filter. cbn. tauto.
Qed.
End vacuum.
