(* ===== verification/Commit.v ===== *)
(** * Write transactions

    The batches of [V2Store] ([graph-store/src/v2.rs]) with the unchanged
    check and the committing half of indexing ([graph-store/src/common.rs]),
    and the marked writes a replicated log applies. A write returns the
    committed database; an error leaves what was committed before it. *)
From S2P Require Import Prelude Text StrOps Schema Varint Stream Posting DictBlock Table DictRev Db.
From S2P Require Import Language Walk Prep Reader Catalog Write.

Record IndexOptions : Type := mkIndexOptions {
  io_reindex : bool;
  io_encoding : option str;
  io_strict_encoding : bool;
}.

Inductive Prepared : Type :=
  | PUnchanged (src : str)
  | PExtracted (ex : Extraction)
  | PRejected (e : StoreError)
  | PRemote (bytes : list Z).

(** An encoding is its WHATWG name. *)
Record PreparedFile : Type := mkPreparedFile {
  pf_org : str;
  pf_repo : str;
  pf_path : str;
  pf_language : str;
  pf_fingerprint : str;
  pf_bytes_len : Z;
  pf_origin : option str;
  pf_work : Prepared;
  pf_v2 : option V2Prep;
  pf_encoding : option str;
  pf_lossy : bool;
  pf_hint : option str;
  pf_strict_encoding : bool;
  pf_span_warning : option str;
}.

Definition FileMeta_of (p : PreparedFile) : FileMeta :=
  mkFileMeta (pf_origin p) (Some (pf_fingerprint p)) (pf_encoding p) (pf_lossy p).

Definition with_origin (f : Node) (origin : option str) : Node :=
  mkNode (n_id f) (n_parent f) (n_kind f) (n_name f) (n_language f) (n_symbol_kind f) (n_lang_kind f)
    (n_token_class f) (n_has_errors f) origin (n_fingerprint f) (n_encoding f) (n_lossy f) (n_span f).
Definition with_warning (s : IngestStats) (w : option str) : IngestStats :=
  mkIngestStats (is_file_id s) (is_symbols s) (is_tokens s) (is_replaced s) (is_unchanged s)
    (is_has_errors s) (is_path s) (is_language s) (is_encoding s) (is_lossy s) w.

Definition REMOTE_PREPARED_REJECTION : str :=
  lit "remote-prepared file cannot be committed to an embedded store".

(** A panic of the lexer is a panic of the caller. *)
Definition lift {A} (m : tk A) : result A := match m with Ok a => Ok a | Err e => match e with end | Panic => Panic end.

Section commit.
Context `{Redb tbl} `{Serde} (sha256 : list Z → list Z).
Context (is_alphabetic is_numeric : Z → bool).

(** ** The unchanged check *)

Definition check_unchanged (d : Db tbl) (org repo path lang fp : str) (origin : option str)
    : result (option (IngestStats * bool) * Db tbl) :=
  match tbl_get (db_names d) (name_key None Org org) with
  | None => Ok (None, d)
  | Some org_id =>
  match tbl_get (db_names d) (name_key (Some org_id) Repo repo) with
  | None => Ok (None, d)
  | Some repo_id =>
  match tbl_get (db_names d) (name_key (Some repo_id) File path) with
  | None => Ok (None, d)
  | Some file_id =>
  match tbl_get (db_nodes d) file_id with
  | None => Ok (None, d)
  | Some raw =>
      f ← dec raw;
      if decide (n_fingerprint f = Some fp) then
        let dirty := negb (bool_decide (n_origin f = origin)) in
        let stats := mkIngestStats file_id 0 0 false true (n_has_errors f) path lang (n_encoding f)
                       (n_lossy f) None in
        Ok (Some (stats, dirty),
            if dirty then upd_nodes (tbl_insert file_id (enc (with_origin f origin))) d else d)
      else Ok (None, d)
  end end end end.

Definition stored_fingerprint_matches (d : Db tbl) (org repo path fp : str) : result bool :=
  match repo_id_in (db_names d) org repo with
  | None => Ok false
  | Some repo_id =>
  match tbl_get (db_names d) (name_key (Some repo_id) File path) with
  | None => Ok false
  | Some file_id =>
  match tbl_get (db_nodes d) file_id with
  | None => Ok false
  | Some raw => f ← dec raw; Ok (bool_decide (n_fingerprint f = Some fp))
  end end end.

(** One round of the scan; [out] is the map from paths to fingerprints. *)
Definition fingerprint_step (d : Db tbl) (out : gmap str str) (fid : Z) : result (gmap str str) :=
  match tbl_get (db_nodes d) fid with
  | None => Ok out
  | Some raw =>
      f ← dec raw;
      Ok (match n_fingerprint f with Some fp => <[n_name f := fp]> out | None => out end)
  end.
Definition stored_fingerprints (d : Db tbl) (org repo : str) : result (gmap str str) :=
  match repo_id_in (db_names d) org repo with
  | None => Ok ∅
  | Some repo_id => try_fold (fingerprint_step d) ∅ (multimap_get (db_children d) repo_id)
  end.

(** ** Extracting and committing one file *)

Definition extract_checked (registry : Registry) (path lang src : str) : result (Prepared * option str) :=
  '(ex, note) ← lift (extract_noted is_alphabetic is_numeric registry lang src);
  match validate_spans ex with
  | Err (InvalidSpan why) =>
      let tokens_only := mkExtraction [] (ex_tokens ex) (ex_has_errors ex) in
      match validate_spans tokens_only with
      | Err (InvalidSpan token_why) =>
          Ok (PRejected (InvalidSpan (lit "`" ++ path ++ lit "`: " ++ token_why)), None)
      | _ =>
          let note := match note with Some n => lit "; it also noted: " ++ n | None => [] end in
          let warning := lit "extractor `" ++ version registry lang ++
            lit "` produced an invalid span (" ++ why ++ lit ")" ++ note ++
            lit "; stored tokens only, no symbols" in
          Ok (PExtracted tokens_only, Some warning)
      end
  | _ =>
      let warning := (λ n, lit "extractor `" ++ version registry lang ++ lit "` " ++ n ++
                           lit "; stored tokens only, no symbols") <$> note in
      Ok (PExtracted ex, warning)
  end.

(** The inner outcome is the file's own; an outer error aborts the
    transaction. *)
Definition commit_prepared (d : Db tbl) (registry : Registry) (org repo : str) (p : PreparedFile)
    (opts : IndexOptions) : result (result IngestStats * Db tbl) :=
  if negb (bool_decide (pf_org p = org)) || negb (bool_decide (pf_repo p = repo)) then
    Err (Rejected (lit "`" ++ pf_path p ++ lit "` was prepared for " ++ pf_org p ++ lit "/" ++
                   pf_repo p ++ lit ", not " ++ org ++ lit "/" ++ repo))
  else
  match pf_work p with
  | PRejected e => Ok (Err e, d)
  | PRemote _ => Ok (Err (Rejected REMOTE_PREPARED_REJECTION), d)
  | work =>
      '(unchanged, d) ← (if io_reindex opts then Ok (None, d) else
        check_unchanged d org repo (pf_path p) (pf_language p) (pf_fingerprint p) (pf_origin p));
      match unchanged with
      | Some (stats, _) => Ok (Ok stats, d)
      | None =>
          '(work, warning) ← (match work with
            | PUnchanged src => extract_checked registry (pf_path p) (pf_language p) src
            | w => Ok (w, pf_span_warning p)
            end);
          match work with
          | PExtracted ex =>
              '(stats, d) ← ingest_prepped sha256 d org repo (pf_path p) (pf_language p) ex
                              (FileMeta_of p) (pf_v2 p);
              Ok (Ok (with_warning stats warning), d)
          | PRejected e => Ok (Err e, d)
          | PUnchanged _ | PRemote _ => Panic
          end
      end
  end.

(** ** The raft marker *)

Definition RAFT_LAST_APPLIED : str := lit "last_applied".
Definition RAFT_MEMBERSHIP : str := lit "membership".

Definition raft_marker (d : Db tbl) : result (option RaftMarker) :=
  match tbl_get (db_raft_sm d) RAFT_LAST_APPLIED with
  | None => Ok None
  | Some b => m ← RaftMarker_decode b; Ok (Some m)
  end.
Definition raft_membership (d : Db tbl) : option (list Z) := tbl_get (db_raft_sm d) RAFT_MEMBERSHIP.

Definition stamp_marker (d : Db tbl) (marker : RaftMarker) (membership : option (list Z)) : result (Db tbl) :=
  _ ← (match tbl_get (db_raft_sm d) RAFT_LAST_APPLIED with
    | Some b =>
        cur ← RaftMarker_decode b;
        if rm_index marker <=? rm_index cur then Err (AlreadyApplied (rm_index marker)) else Ok ()
    | None => Ok ()
    end);
  let d := upd_raft_sm (tbl_insert RAFT_LAST_APPLIED (RaftMarker_encode marker)) d in
  Ok (match membership with Some m => upd_raft_sm (tbl_insert RAFT_MEMBERSHIP m) d | None => d end).

Definition clear_raft_state (d : Db tbl) : Db tbl := upd_raft_sm (λ _, tbl_empty) d.

(** ** Batches *)

Definition USIZE_MAX : Z := 2 ^ 64 - 1.

Definition next_batch_id (d : Db tbl) : Z * Db tbl :=
  let id := default 0 (tbl_get (db_meta d) (lit "next_batch_id")) in
  (id, upd_meta (tbl_insert (lit "next_batch_id") (as_u64 (id + 1))) d).

Definition mark_open_batch (batch_id : Z) (org repo : str) (d : Db tbl) : Db tbl :=
  let d := upd_meta (tbl_insert (lit "open_batch_id") batch_id) d in
  let d := upd_open_batch (tbl_insert (lit "org") org) d in
  upd_open_batch (tbl_insert (lit "repo") repo) d.

Definition clear_open_batch (d : Db tbl) : Db tbl :=
  let d := upd_meta (tbl_remove (lit "open_batch_id")) d in
  let d := upd_open_batch (tbl_remove (lit "org")) d in
  upd_open_batch (tbl_remove (lit "repo")) d.

(** [hook] is the marked-commit hook, [Ok ()] unless a test installed one. *)
Context (hook : RaftMarker → result unit).

(** The loop: [db] is what is committed, [wt] the open transaction, which
    [next] may read and write. *)
Fixpoint batch_loop (registry : Registry) (org repo : str) (opts : IndexOptions) (chunk_bytes batch_id : Z)
    (next : Db tbl → nat → result (PreparedFile * Db tbl)) (n i : nat) (db wt : Db tbl) (in_txn : Z)
    (out : list (result IngestStats)) (commits : Z)
    : Db tbl * result (Db tbl * list (result IngestStats) * Z) :=
  match n with
  | O => (db, Ok (wt, out, commits))
  | S n =>
      match '(p, wt) ← next wt i; '(r, wt) ← commit_prepared wt registry org repo p opts; Ok (pf_bytes_len p, r, wt) with
      | Ok (len, r, wt) =>
          let stored := match r with Ok s => negb (is_unchanged s) | _ => false end in
          let out := out ++ [r] in
          if negb stored then
            batch_loop registry org repo opts chunk_bytes batch_id next n (S i) db wt in_txn out commits
          else
            let in_txn := as_u64 (in_txn + len) in
            if chunk_bytes <=? in_txn then
              let db := wt in
              batch_loop registry org repo opts chunk_bytes batch_id next n (S i) db
                (mark_open_batch batch_id org repo db) 0 out (commits + 1)
            else batch_loop registry org repo opts chunk_bytes batch_id next n (S i) db wt in_txn out commits
      | Err e => (db, Err e)
      | Panic => (db, Panic)
      end
  end.

(** What is committed in the end, and the outcome. *)
Definition commit_each_counted (d : Db tbl) (registry : Registry) (org repo : str) (n : nat)
    (opts : IndexOptions) (chunk_bytes : Z) (marker : option (RaftMarker * option (list Z)))
    (next : Db tbl → nat → result (PreparedFile * Db tbl)) : Db tbl * result (list (result IngestStats) * Z) :=
  let chunk_bytes := match marker with Some _ => USIZE_MAX | None => chunk_bytes end in
  match (match marker with Some (m, membership) => stamp_marker d m membership | None => Ok d end) with
  | Err e => (d, Err e)
  | Panic => (d, Panic)
  | Ok wt =>
      let '(batch_id, wt) := next_batch_id wt in
      let wt := mark_open_batch batch_id org repo wt in
      match batch_loop registry org repo opts chunk_bytes batch_id next n 0 d wt 0 [] 0 with
      | (db, Ok (wt, out, commits)) =>
          let wt := clear_open_batch wt in
          match (match marker with Some (m, _) => hook m | None => Ok () end) with
          | Ok _ => (wt, Ok (out, commits + 1))
          | Err e => (db, Err e)
          | Panic => (db, Panic)
          end
      | (db, Err e) => (db, Err e)
      | (db, Panic) => (db, Panic)
      end
  end.

(** [it.next().expect(..)]. *)
Definition nth_file (files : list PreparedFile) (wt : Db tbl) (i : nat) : result (PreparedFile * Db tbl) :=
  p ← index files i; Ok (p, wt).

Definition index_prepared_counted (d : Db tbl) (registry : Registry) (chunk_bytes : Z) (org repo : str)
    (files : list PreparedFile) (opts : IndexOptions) : Db tbl * result (list (result IngestStats) * Z) :=
  commit_each_counted d registry org repo (length files) opts chunk_bytes None (nth_file files).

(** ** Marked writes *)

Definition index_prepared_marked (d : Db tbl) (registry : Registry) (org repo : str)
    (files : list PreparedFile) (opts : IndexOptions) (marker : RaftMarker) (membership : option (list Z))
    : Db tbl * result (list (result IngestStats)) :=
  let '(d, r) := commit_each_counted d registry org repo (length files) opts USIZE_MAX
                   (Some (marker, membership)) (nth_file files) in
  (d, '(out, _) ← r; Ok out).

Definition prune_files_marked (d : Db tbl) (org repo : str) (keep : list str) (marker : RaftMarker)
    (membership : option (list Z)) : result (list str * Db tbl) :=
  wt ← stamp_marker d marker membership;
  '(removed, wt) ← prune_in wt org repo keep false;
  _ ← hook marker;
  Ok (removed, wt).

Definition vacuum_marked (d : Db tbl) (marker : RaftMarker) (membership : option (list Z))
    : result (VacuumStats * Db tbl) :=
  wt ← stamp_marker d marker membership;
  '(stats, _, wt) ← vacuum_in sha256 wt;
  _ ← hook marker;
  Ok (stats, wt).

Definition ingest_file_marked (d : Db tbl) (org repo path language : str) (ex : Extraction)
    (origin : option str) (marker : RaftMarker) (membership : option (list Z))
    : result (IngestStats * Db tbl) :=
  _ ← validate_spans ex;
  wt ← stamp_marker d marker membership;
  '(stats, wt) ← ingest_validated sha256 wt org repo path language ex (FileMeta_extracted origin);
  _ ← hook marker;
  Ok (stats, wt).

Definition ingest_file_with_origin (d : Db tbl) (org repo path language : str) (ex : Extraction)
    (origin : option str) : result (IngestStats * Db tbl) :=
  _ ← validate_spans ex;
  ingest_validated sha256 d org repo path language ex (FileMeta_extracted origin).

Definition mark_only (d : Db tbl) (marker : RaftMarker) (membership : option (list Z)) : result (Db tbl) :=
  wt ← stamp_marker d marker membership;
  _ ← hook marker;
  Ok wt.
End commit.
