(* ===== verification/Marked.v ===== *)
(** * Marked writes apply once

    Every marked write ([graph-store/src/v2.rs]) is its plain counterpart
    and the marker in one transaction, so applying a replicated log again
    from any earlier point leaves the store as it was. *)
From S2P Require Import Prelude Text StrOps Schema Varint Stream Posting DictBlock Table DictRev Db.
From S2P Require Import Language Walk Prep Reader Catalog Write Commit.

Section frame.
Context `{Redb tbl} `{Serde} (sha256 : list Z → list Z).
Implicit Types (d : Db tbl).

(** ** No write of content touches the markers *)

(** The raft state and the open-batch marker. *)
Definition markers d := (db_raft_sm d, db_open_batch d, tbl_map (db_meta d) !! lit "open_batch_id").
Definition keeps d d' : Prop := markers d' = markers d.

Lemma try_fold_keeps {S A} (P : S → Db tbl) (f : S → A → result S) l s s' :
  (∀ s x s', f s x = Ok s' → keeps (P s) (P s')) → try_fold f s l = Ok s' → keeps (P s) (P s').
Proof.
  intros Hf. revert s. induction l as [|x l IH]; intros s Hr; cbn [try_fold] in Hr; [by injection Hr as <-|].
  apply bind_Ok in Hr as (s1 & H1 & Hr). unfold keeps in *. rewrite (IH _ Hr). by eapply Hf.
Qed.
Lemma foldl_keeps {A} (f : Db tbl → A → Db tbl) l d :
  (∀ d x, keeps d (f d x)) → keeps d (foldl f d l).
Proof.
  intros Hf. revert d. induction l as [|x l IH]; intros d; [done|]. cbn [foldl]. unfold keeps in *.
  rewrite IH. apply Hf.
Qed.

Lemma intern_keeps t d n id d' n' : intern sha256 t (d, n) = Ok (id, (d', n')) → keeps d d'.
Proof.
  unfold intern. intros Hr. apply bind_Ok in Hr as ([k [v|]] & _ & Hr); [by injection Hr as <- <- <-|].
  apply bind_Ok in Hr as (rev & _ & Hr). by injection Hr as <- <- <-.
Qed.
Lemma intern_all_keeps terms d n ids d' n' :
  intern_all sha256 terms (d, n) = Ok (ids, (d', n')) → keeps d d'.
Proof.
  revert d n ids. induction terms as [|t terms IH]; intros d n ids Hr; cbn [intern_all] in Hr; [by injection Hr as <- <- <-|].
  apply bind_Ok in Hr as ([id [d1 n1]] & H1 & Hr). apply bind_Ok in Hr as ([ids1 [d2 n2]] & H2 & [= <- <- <-]).
  apply intern_keeps in H1. apply IH in H2. unfold keeps in *. congruence.
Qed.
Lemma remove_content_keeps d f sc t d' t' : remove_content d f sc t = Ok (d', t') → keeps d d'.
Proof.
  unfold remove_content. destruct (tbl_get _ _) as [raw|]; [|by intros [= <- <-]].
  intros Hr. apply bind_Ok in Hr as (s & _ & Hr). case_match; [by injection Hr as <- <-|].
  unfold remove_stream in Hr. apply bind_Ok in Hr as (t1 & _ & Hr). apply bind_Ok in Hr as (d1 & Hr & [= <- <-]).
  apply (try_fold_keeps id) in Hr.
  - unfold keeps, id in *. rewrite Hr.
    etransitivity; [by apply (foldl_keeps (λ d term, upd_post (tbl_remove (term, f)) d))|done].
  - intros d2 [i r] d3 H3. unfold unindex_sym in H3. by apply bind_Ok in H3 as (nm & _ & [= <-]).
Qed.
Lemma ensure_keeps parent kind name lang d n id e d' n' :
  ensure parent kind name lang (d, n) = Ok (id, e, (d', n')) → keeps d d'.
Proof.
  unfold ensure. destruct (tbl_get _ _); [by intros [= <- <- <- <-]|]. case_match; [done|].
  intros [= <- <- <- <-]. by destruct parent.
Qed.
Lemma drop_old_keeps d org repo f t d' t' : drop_old d org repo f t = Ok (d', t') → keeps d d'.
Proof.
  unfold drop_old. intros Hr. apply bind_Ok in Hr as (raw & _ & Hr). apply bind_Ok in Hr as (old & _ & Hr).
  by eapply remove_content_keeps.
Qed.
Lemma store_stream_keeps d n f prep s d' n' :
  store_stream sha256 d n f prep = Ok (s, (d', n')) → keeps d d'.
Proof.
  unfold store_stream. intros Hr. apply bind_Ok in Hr as ([ids [d1 n1]] & H1 & Hr). apply bind_Ok in Hr as ([d2 syms] & H2 & Hr).
  apply bind_Ok in Hr as (toks & _ & Hr). apply bind_Ok in Hr as (posts & _ & [= <- <- <-]).
  apply intern_all_keeps in H1. apply (try_fold_keeps fst) in H2.
  - unfold keeps in *. cbn [fst] in H2. rewrite <- H1, <- H2.
    change (markers (upd_content_files _ (upd_refs _ (upd_streams _ ?x)))) with (markers x).
    etransitivity; [apply (foldl_keeps (λ d '(term, bytes), upd_post (tbl_insert (term, f) bytes) d)); by intros ? []|done].
  - intros [d3 out] [i r] [d4 out'] H3. unfold index_sym in H3. apply bind_Ok in H3 as (nm & _ & H3).
    apply bind_Ok in H3 as (? & _ & H3). apply bind_Ok in H3 as (? & _ & H3). by apply bind_Ok in H3 as (? & _ & [= <- <-]).
Qed.
Lemma ingest_keeps d org repo path language ex meta prep stats d' :
  ingest_prepped sha256 d org repo path language ex meta prep = Ok (stats, d') → keeps d d'.
Proof.
  unfold ingest_prepped. intros Hr. apply bind_Ok in Hr as (u & _ & Hr).
  apply bind_Ok in Hr as ([[o eo] [d1 n1]] & H1 & Hr). apply bind_Ok in Hr as ([[r er] [d2 n2]] & H2 & Hr).
  apply bind_Ok in Hr as ([[f ef] [d3 n3]] & H3 & Hr). apply bind_Ok in Hr as ([d4 t4] & H4 & Hr).
  apply bind_Ok in Hr as (row & _ & Hr). apply bind_Ok in Hr as ([s [d5 n5]] & H5 & [= <- <-]).
  apply ensure_keeps in H1, H2, H3. apply store_stream_keeps in H5. unfold keeps in *.
  assert (markers d4 = markers d3) as H4'.
  { destruct ef; [|by injection H4 as <- _]. by apply drop_old_keeps in H4. }
  assert (markers d5 = markers d) as Heq by (rewrite H5; change (markers d4 = markers d); rewrite H4'; change (markers d3 = markers d); congruence).
  rewrite <- Heq. unfold markers. change (db_meta (upd_cat _ (upd_meta ?g (upd_meta ?h d5)))) with (g (h (db_meta d5))).
  by rewrite !tbl_insert_spec, !lookup_insert_ne by done.
Qed.
Lemma prune_keeps d org repo keep dry removed d' : prune_in d org repo keep dry = Ok (removed, d') → keeps d d'.
Proof.
  unfold prune_in. intros Hr. apply bind_Ok in Hr as ([[d1 t1] rm] & H1 & [= <- <-]).
  unfold keeps. change (markers (upd_cat _ d1)) with (markers d1).
  destruct (repo_id_in _ _ _) as [r|]; [|by injection H1 as <- _ _].
  apply (try_fold_keeps (λ x, x.1.1)) in H1; [done|]. intros [[d2 t2] rm2] f [[d3 t3] rm3] H2. unfold prune_step in H2.
  apply bind_Ok in H2 as (raw & _ & H2). apply bind_Ok in H2 as (n & _ & H2). case_match; [by injection H2 as <- _ _|].
  destruct dry; [by injection H2 as <- _ _|]. apply bind_Ok in H2 as ([d4 t4] & H4 & [= <- <- <-]).
  apply remove_content_keeps in H4. exact H4.
Qed.
Lemma vacuum_keeps d stats b d' : vacuum_in sha256 d = Ok (stats, b, d') → keeps d d'.
Proof.
  unfold vacuum_in. intros Hr. apply bind_Ok in Hr as (live & _ & Hr). apply bind_Ok in Hr as (all & _ & Hr).
  apply bind_Ok in Hr as (d1 & H1 & [= <- <- <-]). apply (try_fold_keeps id) in H1.
  - unfold keeps, id in *. by destruct (filter _ all).
  - intros d2 e d3 H2. unfold drop_dead in H2. apply bind_Ok in H2 as ([k [v|]] & _ & [= <-]); done.
Qed.
End frame.

Section batch_frame.
Context `{Redb tbl} `{Serde} (sha256 : list Z → list Z) (is_alphabetic is_numeric : Z → bool).
Implicit Types (d : Db tbl).

Lemma check_unchanged_keeps d org repo path lang fp origin r d' :
  check_unchanged d org repo path lang fp origin = Ok (r, d') → keeps d d'.
Proof.
  unfold check_unchanged. repeat (case_match; [|by intros [= _ <-]]).
  intros Hr. apply bind_Ok in Hr as (f & _ & Hr). case_decide; [|by injection Hr as _ <-].
  injection Hr as _ <-. by case_match.
Qed.
Lemma commit_keeps d registry org repo p opts r d' :
  commit_prepared sha256 is_alphabetic is_numeric d registry org repo p opts = Ok (r, d') → keeps d d'.
Proof.
  unfold commit_prepared. destruct (_ || _); [done|]. destruct (pf_work p) as [src|ex|e|b]; try (by intros [= _ <-]);
    intros Hr; apply bind_Ok in Hr as ([un d1] & H1 & Hr);
    (assert (keeps d d1) as Hk by (destruct (io_reindex opts); [by injection H1 as _ <-|by eapply check_unchanged_keeps]));
    unfold keeps in *; (destruct un as [[stats b]|]; [by injection Hr as _ <-|]);
    apply bind_Ok in Hr as ([work w] & _ & Hr); (destruct work; try done; [|by injection Hr as _ <-]);
    apply bind_Ok in Hr as ([stats d2] & H2 & [= _ <-]); apply ingest_keeps in H2; unfold keeps in H2; congruence.
Qed.
Definition keeps_marker d d' : Prop := db_raft_sm d' = db_raft_sm d.
Lemma nth_file_keeps files wt i p wt' : nth_file files wt i = Ok (p, wt') → keeps wt wt'.
Proof. unfold nth_file. intros Hr. by apply bind_Ok in Hr as (? & _ & [= _ <-]). Qed.
Lemma keeps_raft d d' : keeps d d' → keeps_marker d d'.
Proof. by intros [= ? _ _]. Qed.

Lemma batch_loop_keeps registry org repo opts chunk bid next n :
  (∀ wt i p wt', next wt i = Ok (p, wt') → keeps wt wt') → ∀ i d0 db wt in_txn out commits db' r,
  (db = d0 ∨ keeps_marker wt db) →
  batch_loop sha256 is_alphabetic is_numeric registry org repo opts chunk bid next n i db wt in_txn out commits = (db', r) →
  (db' = d0 ∨ keeps_marker wt db') ∧
  ∀ wt' out' c', r = Ok (wt', out', c') → keeps_marker wt wt'.
Proof.
  intros Hnext. induction n as [|n IH]; intros i d0 db wt in_txn out commits db' r Hdb Hr; cbn [batch_loop] in Hr.
  { injection Hr as <- <-. split; [done|]. by intros wt' out' c' [= <- _ _]. }
  destruct ('(p, wt) ← next wt i; '(r, wt) ← commit_prepared sha256 is_alphabetic is_numeric wt registry org repo p opts; Ok (pf_bytes_len p, r, wt))
    as [[[len r1] wt1]| |] eqn:E; [|by injection Hr as <- <-|by injection Hr as <- <-].
  assert (keeps_marker wt wt1) as Hk.
  { apply bind_Ok in E as ([p wt0] & E0 & E). apply bind_Ok in E as ([r2 wt2] & E & [= _ _ <-]).
    apply Hnext, keeps_raft in E0. apply commit_keeps, keeps_raft in E. unfold keeps_marker in *. congruence. }
  unfold keeps_marker in *.
  assert (∀ wt2, db_raft_sm wt2 = db_raft_sm wt1 → ∀ db2, db2 = d0 ∨ db_raft_sm db2 = db_raft_sm wt →
    ∀ txn out2 c2, batch_loop sha256 is_alphabetic is_numeric registry org repo opts chunk bid next n (S i) db2 wt2 txn out2 c2 = (db', r) →
    (db' = d0 ∨ db_raft_sm db' = db_raft_sm wt) ∧ ∀ wt' out' c', r = Ok (wt', out', c') → db_raft_sm wt' = db_raft_sm wt) as Hgo.
  { intros wt2 H2 db2 Hdb2 txn out2 c2 Hrun.
    destruct (IH (S i) d0 db2 wt2 txn out2 c2 db' r) as [HA HB]; [rewrite H2, Hk; done|done|].
    rewrite H2, Hk in HA. split; [done|]. intros wt' out' c' Heq. rewrite (HB _ _ _ Heq). congruence. }
  destruct (negb _); [by eapply (Hgo wt1 eq_refl db Hdb)|]. destruct (chunk <=? _).
  - eapply (Hgo (mark_open_batch bid org repo wt1) eq_refl wt1); [by right|exact Hr].
  - by eapply (Hgo wt1 eq_refl db Hdb).
Qed.
End batch_frame.

(** ** The log *)
Section log.
Context `{Redb tbl} `{Serde} (sha256 : list Z → list Z) (is_alphabetic is_numeric : Z → bool).
Context (hook : RaftMarker → result unit) (registry : Registry).
Implicit Types (d : Db tbl).

(** The write of a log entry. *)
Inductive Cmd : Type :=
  | CIndex (org repo : str) (files : list PreparedFile) (opts : IndexOptions)
  | CPrune (org repo : str) (keep : list str)
  | CVacuum
  | CIngest (org repo path language : str) (ex : Extraction) (origin : option str)
  | CMark.
Record LogEntry : Type := mkLogEntry { le_cmd : Cmd; le_marker : RaftMarker; le_membership : option (list Z) }.

(** The database after an attempt at a write. *)
Definition after {A} d (r : result (A * Db tbl)) : Db tbl := match r with Ok (_, d') => d' | _ => d end.
Definition apply_entry (e : LogEntry) d : Db tbl :=
  let m := le_marker e in
  let mem := le_membership e in
  match le_cmd e with
  | CIndex org repo files opts =>
      (index_prepared_marked sha256 is_alphabetic is_numeric hook d registry org repo files opts m mem).1
  | CPrune org repo keep => after d (prune_files_marked hook d org repo keep m mem)
  | CVacuum => after d (vacuum_marked sha256 hook d m mem)
  | CIngest org repo path language ex origin =>
      after d (ingest_file_marked sha256 hook d org repo path language ex origin m mem)
  | CMark => match mark_only hook d m mem with Ok d' => d' | _ => d end
  end.
Definition run_log (log : list LogEntry) d : Db tbl := foldl (λ d e, apply_entry e d) d log.

(** ** Stamps *)

Lemma stamp_marker_run d m mem wt :
  marker_ok m → stamp_marker d m mem = Ok wt →
  ∀ d', keeps_marker wt d' → raft_marker d' = Ok (Some m).
Proof.
  intros Hm Hs d' Hk. unfold stamp_marker in Hs. apply bind_Ok in Hs as (u & _ & [= <-]).
  unfold raft_marker. rewrite tbl_get_spec, Hk.
  assert (tbl_map (db_raft_sm (match mem with
    | Some m0 => upd_raft_sm (tbl_insert RAFT_MEMBERSHIP m0) (upd_raft_sm (tbl_insert RAFT_LAST_APPLIED (RaftMarker_encode m)) d)
    | None => upd_raft_sm (tbl_insert RAFT_LAST_APPLIED (RaftMarker_encode m)) d end)) !! RAFT_LAST_APPLIED
    = Some (RaftMarker_encode m)) as ->.
  { destruct mem; change (db_raft_sm (upd_raft_sm ?g ?x)) with (g (db_raft_sm x)); rewrite !tbl_insert_spec.
    - rewrite lookup_insert_ne by done. change (db_raft_sm (upd_raft_sm ?g ?x)) with (g (db_raft_sm x)).
      by rewrite tbl_insert_spec, lookup_insert_eq.
    - by rewrite lookup_insert_eq. }
  by rewrite marker_decode_encode.
Qed.

Lemma stamp_refused d m mem cur :
  raft_marker d = Ok (Some cur) → rm_index m ≤ rm_index cur →
  stamp_marker d m mem = Err (AlreadyApplied (rm_index m)).
Proof.
  unfold raft_marker, stamp_marker. destruct (tbl_get _ _) as [b|]; [|done].
  intros Hc Hle. apply bind_Ok in Hc as (c & -> & [= ->]). cbn [mbind outcome_mbind outcome_bind].
  by rewrite (proj2 (Z.leb_le _ _) Hle).
Qed.

(** An attempt either leaves the store or leaves its marker. *)
Lemma after_marked {A} d m mem (body : Db tbl → result (A * Db tbl)) :
  marker_ok m → (∀ wt x d', body wt = Ok (x, d') → keeps_marker wt d') →
  let d' := after d (wt ← stamp_marker d m mem; body wt) in d' = d ∨ raft_marker d' = Ok (Some m).
Proof.
  intros Hm Hb. cbv zeta. destruct (stamp_marker d m mem) as [wt| |] eqn:Es; [|by left|by left].
  cbn [mbind outcome_mbind outcome_bind]. destruct (body wt) as [[x d']| |] eqn:Eb; [|by left|by left].
  right. cbn [after]. eapply stamp_marker_run; [done|exact Es|]. by eapply Hb.
Qed.
Lemma after_refused {A} d m mem cur (body : Db tbl → result (A * Db tbl)) :
  raft_marker d = Ok (Some cur) → rm_index m ≤ rm_index cur →
  after d (wt ← stamp_marker d m mem; body wt) = d.
Proof. intros Hc Hle. by rewrite (stamp_refused d m mem cur Hc Hle). Qed.

Lemma index_marked_run d org repo files opts m mem :
  marker_ok m →
  let d' := (index_prepared_marked sha256 is_alphabetic is_numeric hook d registry org repo files opts m mem).1 in
  (d' = d ∨ raft_marker d' = Ok (Some m)) ∧
  ∀ cur, raft_marker d = Ok (Some cur) → rm_index m ≤ rm_index cur → d' = d.
Proof.
  intros Hm. unfold index_prepared_marked, commit_each_counted.
  destruct (stamp_marker d m mem) as [wt| |] eqn:Es; [|split; [by left|done]|split; [by left|done]].
  split; [|intros cur Hc Hle; rewrite (stamp_refused d m mem cur Hc Hle) in Es; done].
  pose proof (stamp_marker_run d m mem wt Hm Es) as Hst. unfold next_batch_id.
  set (wt1 := mark_open_batch _ org repo _). assert (keeps_marker wt wt1) as Hk1 by done.
  destruct (batch_loop _ _ _ _ _ _ _ _ _ _ _ _ _ _ _ _) as [db r] eqn:Eb.
  apply (batch_loop_keeps _ _ _ _ _ _ _ _ _ _ _ (nth_file_keeps files) _ d) in Eb as [Hdb Hr]; [|by left].
  assert (db = d ∨ raft_marker db = Ok (Some m)) as Hdb'.
  { destruct Hdb as [?|Hdb]; [by left|right]. apply Hst. unfold keeps_marker in *. congruence. }
  destruct r as [[[wt2 out] c]| |]; [|done|done]. specialize (Hr _ _ _ eq_refl). destruct (hook m); [|done|done].
  right. apply Hst. unfold keeps_marker in *. change (db_raft_sm wt2 = db_raft_sm wt). congruence.
Qed.

Lemma apply_entry_run d e :
  marker_ok (le_marker e) →
  (apply_entry e d = d ∨ raft_marker (apply_entry e d) = Ok (Some (le_marker e))) ∧
  ∀ cur, raft_marker d = Ok (Some cur) → rm_index (le_marker e) ≤ rm_index cur → apply_entry e d = d.
Proof.
  intros Hm. destruct e as [cmd m mem]. unfold apply_entry. cbn [le_cmd le_marker le_membership] in *.
  destruct cmd as [org repo files opts|org repo keep| |org repo path language ex origin|].
  - by apply index_marked_run.
  - split; [apply after_marked; [done|]|intros; by eapply after_refused]. intros wt x d' Hr.
    apply bind_Ok in Hr as ([rm d1] & H1 & Hr). apply bind_Ok in Hr as (u & _ & [= <- <-]). by eapply keeps_raft, prune_keeps.
  - split; [apply after_marked; [done|]|intros; by eapply after_refused]. intros wt x d' Hr.
    apply bind_Ok in Hr as ([[st b] d1] & H1 & Hr). apply bind_Ok in Hr as (u & _ & [= <- <-]). by eapply keeps_raft, vacuum_keeps.
  - unfold ingest_file_marked. destruct (validate_spans ex) as [[]| |]; [|split; [by left|done]|split; [by left|done]].
    cbn [mbind outcome_mbind outcome_bind].
    split; [apply after_marked; [done|]|intros; by eapply after_refused]. intros wt x d' Hr.
    apply bind_Ok in Hr as ([st d1] & H1 & Hr). apply bind_Ok in Hr as (u & _ & [= <- <-]). by eapply keeps_raft, ingest_keeps.
  - unfold mark_only. destruct (stamp_marker d m mem) as [wt| |] eqn:Es; [|split; [by left|done]|split; [by left|done]].
    cbn [mbind outcome_mbind outcome_bind]. split.
    + destruct (hook m); [|by left|by left]. right. by eapply stamp_marker_run.
    + intros cur Hc Hle. rewrite (stamp_refused d m mem cur Hc Hle) in Es. done.
Qed.

(** ** Replaying *)

Definition ascending (log : list LogEntry) : Prop :=
  StronglySorted (λ a b, rm_index (le_marker a) < rm_index (le_marker b)) log.

Lemma run_log_settled log d :
  ascending log → Forall (λ e, marker_ok (le_marker e)) log →
  ∀ e, e ∈ log → apply_entry e (run_log log d) = run_log log d.
Proof.
  induction log as [|e log IH] using rev_ind; intros Hs Hm e' He'; [by apply elem_of_nil in He'|].
  apply Forall_app in Hm as [Hm Hme]. rewrite Forall_singleton in Hme. pose proof (StronglySorted_app_1_l _ _ _ Hs) as Hs'.
  unfold run_log in *. rewrite foldl_snoc. set (d1 := foldl _ d log) in *.
  destruct (apply_entry_run d1 e Hme) as [[Heq|Hmk] _].
  - rewrite Heq. apply elem_of_app in He' as [He'|He'%list_elem_of_singleton]; [by apply IH|by subst].
  - assert (marker_ok (le_marker e')) as Hme' by (apply elem_of_app in He' as [He'|He'%list_elem_of_singleton];
      [rewrite Forall_forall in Hm; by apply Hm|by subst]).
    apply (apply_entry_run (apply_entry e d1) e' Hme') with (cur := le_marker e); [done|].
    apply elem_of_app in He' as [He'|He'%list_elem_of_singleton]; [|subst; lia].
    pose proof (StronglySorted_app_1_elem_of _ _ _ _ _ Hs He' ltac:(by left)) as Hlt. cbn in Hlt. lia.
Qed.
Lemma run_log_fixed log d : (∀ e, e ∈ log → apply_entry e d = d) → run_log log d = d.
Proof.
  unfold run_log. induction log as [|e log IH]; intros He; [done|]. cbn [foldl]. rewrite (He e) by by left.
  apply IH. intros e' He'. apply He. by right.
Qed.

(** Applying a replicated log is idempotent from any point: after a
    crash, applying the whole log again to a store that already has a prefix
    of it gives the store that applying the log once gives, whatever each
    entry does (index, prune, vacuum, ingest, or nothing) and whether it
    succeeded or failed. *)
Theorem replay_idempotent p q d :
  ascending (p ++ q) → Forall (λ e, marker_ok (le_marker e)) (p ++ q) →
  run_log (p ++ q) (run_log p d) = run_log (p ++ q) d.
Proof.
  intros Hs [Hm _]%Forall_app. apply StronglySorted_app_1_l in Hs. unfold run_log. rewrite !foldl_app.
  fold (run_log p (foldl (λ d e, apply_entry e d) d p)) (run_log p d). rewrite run_log_fixed; [done|].
  by apply run_log_settled.
Qed.
End log.
