(* ===== verification/Batch.v ===== *)
(** * Batches

    Committing prepared files ([commit_prepared] in [graph-store/src/common.rs]
    and the batch loop of [graph-store/src/v2.rs]) on a store that represents
    documents: a file whose fingerprint is stored keeps its document, every
    other file replaces it, and the chunking of a batch into transactions
    shows only while the batch is open. *)
From S2P Require Import Prelude Text StrOps Schema Varint Stream StreamRound Posting DictBlock Table DictRev.
From S2P Require Import Language Walk Prep Located Db Catalog Reader Write Dict Store Entities Content Ingest Prune Commit Marked.

Lemma alter_as_insert (f : Doc → Doc) (a : gmap dkey Doc) k v : a !! k = Some v → alter f k a = <[k := f v]> a.
Proof.
  intros Ha. apply map_eq. intros j. destruct (decide (j = k)) as [->|].
  - by rewrite lookup_alter_eq, Ha, lookup_insert_eq.
  - by rewrite lookup_alter_ne, lookup_insert_ne.
Qed.

Lemma alter_twice (g : Doc → Doc) (a : gmap dkey Doc) k : (∀ v, g (g v) = g v) → alter g k (alter g k a) = alter g k a.
Proof.
  intros Hg. apply map_eq. intros j. destruct (decide (j = k)) as [->|Hne].
  - rewrite !lookup_alter_eq. destruct (a !! k); cbn; [by rewrite Hg|done].
  - by rewrite !lookup_alter_ne.
Qed.

Section lookup.
Context `{Redb tbl} `{Serde} (sha256 : list Z → list Z).
Implicit Types (d : Db tbl) (N : gmap Z Node) (S : gmap Z Stream) (a : gmap dkey Doc).

(** ** Finding a file's row *)

Definition find_file d (org repo path : str) : option Z :=
  r ← repo_id_in (db_names d) org repo; tbl_get (db_names d) (name_key (Some r) File path).

Lemma find_file_run d a N S es next nt org repo path :
  rep sha256 d a N S es next nt →
  match find_file d org repo path with
  | Some f => ∃ n s v, N !! f = Some n ∧ n_kind n = File ∧ S !! f = Some s ∧ doc_of es n s = Some v ∧
      path_of N f = Some (org, repo, path) ∧ a !! (org, repo, path) = Some v
  | None => a !! (org, repo, path) = None
  end.
Proof.
  intros R. pose proof (rp_ents _ _ _ _ _ _ _ _ R) as He. unfold find_file.
  pose proof (repo_id_run sha256 _ _ _ _ _ _ _ org repo R) as Hr.
  destruct (repo_id_in (db_names d) org repo) as [r|]; cbn [mbind option_bind]; [|apply Hr].
  destruct Hr as (rn & o & on & Hrn & Hkr & Hnr & Hpr & Hon & Hno). rewrite tbl_get_spec.
  destruct (tbl_map (db_names d) !! name_key (Some r) File path) as [f|] eqn:Ef.
  - apply He in Ef as (n & Hn & (Hd & Hk & Hnm)%name_key_inj).
    assert (n_parent n = Some r) as Hp by (eapply parent_default; [exact He|exact Hn|done| |done]; by exists r, rn).
    destruct (rep_file _ _ _ _ _ _ _ _ _ _ R Hn (eq_sym Hk)) as (s & v & k & Hs & Hv & Hpa & Ha).
    assert (path_of N f = Some (org, repo, path)) as Hpath.
    { apply path_of_Some. exists n, r, rn, o, on. split_and!; try done. congruence. }
    exists n, s, v. split_and!; try done. congruence.
  - destruct (a !! (org, repo, path)) as [v|] eqn:Ea; [|done].
    apply (rp_docs _ _ _ _ _ _ _ _ R) in Ea as (f & Hf). apply entry_at_Some in Hf as (n & ? & Hp & Hn & _).
    rewrite <- Hnr, <- Hno in Hp. destruct (file_under _ _ _ _ _ _ _ _ _ _ _ He Hrn Hkr Hpr Hon Hp) as (n' & Hn' & Hk & Hr & Hnm).
    assert (tbl_map (db_names d) !! name_key (Some r) File path = Some f) by (apply He; exists n'; split; congruence).
    congruence.
Qed.

(** ** The unchanged check *)

Definition re_origin (v : Doc) (origin : option str) : Doc :=
  let m := doc_meta v in
  mkDoc (doc_language v) (mkFileMeta origin (fm_fingerprint m) (fm_encoding m) (fm_lossy m)) (doc_ex v).

Lemma re_origin_same v : re_origin v (fm_origin (doc_meta v)) = v.
Proof. by destruct v as [? [] ?]. Qed.
Lemma total_re_origin a k v origin c : a !! k = Some v → total (<[k := re_origin v origin]> a) c = total a c.
Proof.
  intros Hk. rewrite total_replace, Hk.
  assert (doc_hits c k (re_origin v origin) = doc_hits c k v) as -> by done. lia.
Qed.

(** Writing a file's origin into its row. *)
Lemma rep_re_origin d a N S es next nt f n s v k origin :
  rep sha256 d a N S es next nt → N !! f = Some n → n_kind n = File → S !! f = Some s →
  doc_of es n s = Some v → path_of N f = Some k →
  rep sha256 (upd_nodes (tbl_insert f (enc (with_origin n origin))) d) (<[k := re_origin v origin]> a)
    (<[f := with_origin n origin]> N) S es next nt.
Proof.
  intros R Hn Hk Hs Hv Hp. pose proof (rp_ents _ _ _ _ _ _ _ _ R) as He.
  assert (a !! k = Some v) as Ha.
  { apply (rp_docs _ _ _ _ _ _ _ _ R). exists f. apply entry_at_Some. by exists n, s. }
  apply path_of_Some in Hp as (n0 & r & rn & o & on & Hn0 & _ & Hr & Hrn & Ho & Hon & ->).
  assert (n0 = n) as -> by congruence.
  destruct (file_parents _ _ _ _ _ _ _ He Hn Hk) as (r' & rn' & o' & on' & Hr' & Hrn' & Hkr & Ho' & Hon' & Hko & Hpo).
  assert (r' = r) as -> by congruence. assert (rn' = rn) as -> by congruence.
  assert (o' = o) as -> by congruence. assert (on' = on) as -> by congruence.
  assert (path_rows N N (n_name on) (n_name rn) (n_name n) o r f true) as Hrows.
  { split; eauto 10. }
  pose proof (rp_rows _ _ _ _ _ _ _ _ R f) as Hrow. unfold file_row in Hrow. rewrite Hn in Hrow. cbn [mbind option_bind] in Hrow.
  rewrite decide_True in Hrow by done. unfold file_key_row in Hrow. rewrite Hr in Hrow. cbn [ok_or mbind outcome_mbind outcome_bind] in Hrow.
  pose proof (rep_replace sha256 d a N S es next nt N _ _ _ next (n_name on) (n_name rn) (n_name n) o r f true
    (with_origin n origin) s [] nt (re_origin v origin) (encode_file_key (mkFileKey r (n_language n) (n_name n)))
    (upd_nodes (tbl_insert f (enc (with_origin n origin))) d) R Hrows He) as H1.
  rewrite app_nil_r, (insert_delete_id S f s Hs) in H1. apply H1; try done; clear H1.
  - by destruct (en_id _ _ _ _ _ He _ _ Hn).
  - unfold file_key_row. cbn [with_origin n_parent]. by rewrite Hr.
  - unfold doc_of in Hv |- *. cbn [with_origin n_has_errors]. apply bind_Some in Hv as (ex & -> & [= <-]). done.
  - apply tbl_insert_spec.
  - cbn. symmetry. apply insert_id. exact Hrow.
  - apply R.
  - eapply (dict_ok_frame sha256 d); [done|done|apply R].
  - cbn [upd_nodes db_cat]. eapply counts_ext; [|apply R]. intros c. symmetry. by apply total_re_origin.
  - intros l _. symmetry. cbn [upd_nodes db_cat]. rewrite insert_id; [done|].
    apply (rp_marks _ _ _ _ _ _ _ _ R); [apply mark_not_counter|]. split; [done|].
    eexists _, _. split; [|done]. by exists r, rn, o, on.
  - exact (rp_clean _ _ _ _ _ _ _ _ R _ _ Ha).
  - exact (rp_next _ _ _ _ _ _ _ _ R).
  - exact (rp_next_term _ _ _ _ _ _ _ _ R).
  - exact (rp_terms _ _ _ _ _ _ _ _ R).
Qed.

Lemma doc_of_fields es n s v :
  doc_of es n s = Some v →
  doc_meta v = mkFileMeta (n_origin n) (n_fingerprint n) (n_encoding n) (n_lossy n) ∧
  ex_has_errors (doc_ex v) = n_has_errors n ∧ doc_language v = n_language n.
Proof.
  unfold doc_of, decls_of. intros (ex & He & [= <-])%bind_Some. split; [done|]. split; [|done].
  apply bind_Some in He as (? & _ & He). by apply bind_Some in He as (? & _ & [= <-]).
Qed.

Lemma check_unchanged_run d a org repo path lang fp origin :
  stores sha256 d a →
  match a !! (org, repo, path) with
  | Some v =>
      if decide (fm_fingerprint (doc_meta v) = Some fp) then
        ∃ file d', check_unchanged d org repo path lang fp origin =
            Ok (Some (mkIngestStats file 0 0 false true (ex_has_errors (doc_ex v)) path lang
                        (fm_encoding (doc_meta v)) (fm_lossy (doc_meta v)) None,
                      negb (bool_decide (fm_origin (doc_meta v) = origin))), d') ∧
          stores sha256 d' (<[(org, repo, path) := re_origin v origin]> a) ∧
          db_meta d' = db_meta d ∧ db_dict d' = db_dict d
      else check_unchanged d org repo path lang fp origin = Ok (None, d)
  | None => check_unchanged d org repo path lang fp origin = Ok (None, d)
  end.
Proof.
  intros (N & S & es & next & nt & R). pose proof (find_file_run _ _ _ _ _ _ _ org repo path R) as Hf.
  unfold find_file, repo_id_in in Hf. unfold check_unchanged.
  destruct (tbl_get (db_names d) (name_key None Org org)) as [o|]; cbn [mbind option_bind] in Hf; [|by rewrite Hf].
  destruct (tbl_get (db_names d) (name_key (Some o) Repo repo)) as [r|]; cbn [mbind option_bind] in Hf; [|by rewrite Hf].
  destruct (tbl_get (db_names d) (name_key (Some r) File path)) as [f|]; [|by rewrite Hf].
  destruct Hf as (n & s & v & Hn & Hk & Hs & Hv & Hp & Ha). rewrite Ha, tbl_get_spec.
  rewrite (en_nodes _ _ _ _ _ (rp_ents _ _ _ _ _ _ _ _ R)), lookup_fmap, Hn. cbn [fmap option_fmap option_map].
  rewrite dec_enc. cbn [mbind outcome_mbind outcome_bind]. destruct (doc_of_fields _ _ _ _ Hv) as (Hm & He & _).
  rewrite Hm, He. cbn [fm_fingerprint fm_origin fm_encoding fm_lossy]. case_decide; [|done].
  eexists f, _. split; [done|]. destruct (decide (n_origin n = origin)) as [<-|Hne].
  - rewrite bool_decide_eq_true_2 by done. split; [|done].
    pose proof (re_origin_same v) as Hsame. rewrite Hm in Hsame. cbn in Hsame. rewrite Hsame, insert_id by done.
    by exists N, S, es, next, nt.
  - rewrite bool_decide_eq_false_2 by done. split; [|done]. eexists _, S, es, next, nt. by eapply rep_re_origin.
Qed.

(** ** Reading fingerprints *)

Definition doc_fp (v : Doc) : option str := fm_fingerprint (doc_meta v).
Definition has_fp a (k : dkey) (fp : str) : Prop := (v ← a !! k; doc_fp v) = Some fp.
#[global] Instance has_fp_dec a k fp : Decision (has_fp a k fp).
Proof. unfold has_fp. apply _. Defined.

Lemma fingerprint_matches_run d a org repo path fp :
  stores sha256 d a → ∃ b, stored_fingerprint_matches d org repo path fp = Ok b ∧ (b = true ↔ has_fp a (org, repo, path) fp).
Proof.
  intros (N & S & es & next & nt & R). pose proof (find_file_run _ _ _ _ _ _ _ org repo path R) as Hf.
  unfold find_file in Hf. unfold stored_fingerprint_matches, has_fp.
  destruct (repo_id_in (db_names d) org repo) as [r|]; cbn [mbind option_bind] in Hf; [|exists false; by rewrite Hf].
  destruct (tbl_get (db_names d) (name_key (Some r) File path)) as [f|]; [|exists false; by rewrite Hf].
  destruct Hf as (n & s & v & Hn & Hk & Hs & Hv & Hp & Ha). rewrite Ha, tbl_get_spec.
  rewrite (en_nodes _ _ _ _ _ (rp_ents _ _ _ _ _ _ _ _ R)), lookup_fmap, Hn. cbn [fmap option_fmap option_map].
  rewrite dec_enc. cbn [mbind outcome_mbind outcome_bind option_bind]. destruct (doc_of_fields _ _ _ _ Hv) as (Hm & _).
  unfold doc_fp. rewrite Hm. eexists. split; [done|]. apply bool_decide_eq_true.
Qed.

Lemma fingerprint_fold d a N S es next nt org repo r l out :
  rep sha256 d a N S es next nt → (∀ f, f ∈ l → file_of org repo r N f) →
  (∀ p fp, out !! p = Some fp → has_fp a (org, repo, p) fp) →
  ∃ m, try_fold (fingerprint_step d) out l = Ok m ∧
    (∀ p fp, m !! p = Some fp → has_fp a (org, repo, p) fp) ∧ out ⊆ m ∧
    ∀ f p fp, f ∈ l → path_of N f = Some (org, repo, p) → has_fp a (org, repo, p) fp → m !! p = Some fp.
Proof.
  intros R. revert out. induction l as [|f l IH]; intros out Hl Hout.
  { exists out. split_and!; [done|done|done|]. by intros f p fp ?%elem_of_nil. }
  destruct (Hl f) as (n & Hn & Hk & Hr & Hp); [by left|].
  destruct (rep_file _ _ _ _ _ _ _ _ _ _ R Hn Hk) as (s & v & k & Hs & Hv & Hp' & Ha).
  assert (k = (org, repo, n_name n)) as -> by congruence. destruct (doc_of_fields _ _ _ _ Hv) as (Hm & _).
  set (out' := match n_fingerprint n with Some fp => <[n_name n := fp]> out | None => out end).
  assert (fingerprint_step d out f = Ok out') as Hstep.
  { unfold fingerprint_step.
    rewrite tbl_get_spec, (en_nodes _ _ _ _ _ (rp_ents _ _ _ _ _ _ _ _ R)), lookup_fmap, Hn. cbn [fmap option_fmap option_map].
    by rewrite dec_enc. }
  assert (∀ fp, has_fp a (org, repo, n_name n) fp ↔ n_fingerprint n = Some fp) as Hfp.
  { intros fp. unfold has_fp, doc_fp. rewrite Ha. cbn [mbind option_bind]. by rewrite Hm. }
  assert (out ⊆ out') as Hsub.
  { unfold out'. destruct (n_fingerprint n) as [fp|] eqn:E; [|done].
    destruct (out !! n_name n) as [fp'|] eqn:Eo; [|by apply insert_subseteq].
    pose proof Eo as Ho%Hout%Hfp. assert (fp' = fp) as -> by congruence. by rewrite insert_id. }
  cbn [try_fold]. rewrite Hstep. cbn [mbind outcome_mbind outcome_bind].
  destruct (IH out') as (m & -> & Hm1 & Hm2 & Hm3).
  - intros g Hg. apply Hl. by right.
  - unfold out'. destruct (n_fingerprint n) as [fp|] eqn:E; [|done].
    intros p fp' [[<- <-]|[_ Hp'']]%lookup_insert_Some; [by apply Hfp|by apply Hout].
  - exists m. split_and!; [done|done|by etransitivity|].
    intros g p fp [->|Hg]%elem_of_cons Hgp Hg'; [|by eapply Hm3]. rewrite Hp in Hgp. injection Hgp as <-.
    apply Hfp in Hg'. eapply lookup_weaken; [|exact Hm2]. unfold out'. rewrite Hg'. by rewrite lookup_insert_eq.
Qed.

Lemma fingerprints_run d a org repo :
  stores sha256 d a →
  ∃ m, stored_fingerprints d org repo = Ok m ∧ ∀ p fp, m !! p = Some fp ↔ has_fp a (org, repo, p) fp.
Proof.
  intros (N & S & es & next & nt & R). unfold stored_fingerprints.
  pose proof (repo_id_run sha256 _ _ _ _ _ _ _ org repo R) as Hr.
  destruct (repo_id_in (db_names d) org repo) as [r|].
  2:{ exists ∅. split; [done|]. intros p fp. unfold has_fp. rewrite Hr. split; [by rewrite lookup_empty|done]. }
  destruct Hr as (rn & o & on & Hrn & Hkr & Hnr & Hpr & Hon & Hno).
  destruct (fingerprint_fold d a N S es next nt org repo r (multimap_get (db_children d) r) ∅ R) as (m & -> & H1 & _ & H3).
  { intros f. by eapply repo_files. }
  { intros p fp. by rewrite lookup_empty. }
  exists m. split; [done|]. intros p fp. split; [apply H1|]. intros Hfp.
  unfold has_fp in Hfp. apply bind_Some in Hfp as Hv. destruct Hv as (v & Ha & _).
  apply (rp_docs _ _ _ _ _ _ _ _ R) in Ha as (f & He). apply entry_at_Some in He as (n & ? & Hp & Hn & _).
  eapply H3; [|exact Hp|exact Hfp]. apply multimap_elem, (en_kids _ _ _ _ _ (rp_ents _ _ _ _ _ _ _ _ R)).
  rewrite <- Hnr, <- Hno in Hp.
  destruct (file_under _ _ _ _ _ _ _ _ _ _ _ (rp_ents _ _ _ _ _ _ _ _ R) Hrn Hkr Hpr Hon Hp) as (m' & Hm' & _ & Hr & _).
  by exists m'.
Qed.
End lookup.

(** ** Committing one prepared file *)
Section commit.
Context `{Redb tbl} `{Serde} (sha256 : list Z → list Z) (is_alphabetic is_numeric : Z → bool).
Context (registry : Registry) (opts : IndexOptions).
Implicit Types (d : Db tbl) (a : gmap dkey Doc) (p : PreparedFile).

(** What a file has to store: an unchanged file whose row is gone is
    extracted again. *)
Definition work_of p : result (Prepared * option str) :=
  match pf_work p with
  | PUnchanged src => extract_checked is_alphabetic is_numeric registry (pf_path p) (pf_language p) src
  | w => Ok (w, pf_span_warning p)
  end.
Definition pf_key p : dkey := (pf_org p, pf_repo p, pf_path p).
Definition up_to_date a p : bool := negb (io_reindex opts) && bool_decide (has_fp a (pf_key p) (pf_fingerprint p)).

(** The documents after committing a file: what indexing promises. *)
Definition commit_doc a p : gmap dkey Doc :=
  match pf_work p with
  | PRejected _ | PRemote _ => a
  | _ =>
      if up_to_date a p then alter (λ v, re_origin v (pf_origin p)) (pf_key p) a
      else match work_of p with
           | Ok (PExtracted ex, _) => <[pf_key p := new_doc (pf_language p) (FileMeta_of p) ex]> a
           | _ => a
           end
  end.

(** The outcome of a file: stored, up to date, or refused. *)
Definition commit_outcome a p (r : result IngestStats) : Prop :=
  match pf_work p with
  | PRejected e => r = Err e
  | PRemote _ => r = Err (Rejected REMOTE_PREPARED_REJECTION)
  | _ =>
      if up_to_date a p then ∃ s, r = Ok s ∧ is_unchanged s = true
      else match work_of p with
           | Ok (PExtracted ex, w) => ∃ s, r = Ok s ∧ is_unchanged s = false ∧ is_span_warning s = w ∧
               is_replaced s = bool_decide (is_Some (a !! pf_key p)) ∧
               is_symbols s = length (ex_symbols ex) ∧ is_tokens s = length (ex_tokens ex)
           | Ok (PRejected e, _) => r = Err e
           | _ => False
           end
  end.

(** A file as [prepare_file] gives it: a normalized path, and an extraction that
    nests and that the format of a stored file can hold. Its names are not
    checked. *)
Definition shaped p : Prop :=
  normalize_path (pf_path p) = pf_path p ∧ meta_ok (FileMeta_of p) ∧
  match work_of p with
  | Ok (PExtracted ex, _) => small_ex ex ∧ spans_ok ex ∧ texts_ok ex ∧ default (V2Prep_build ex) (pf_v2 p) = V2Prep_build ex
  | Ok _ => True
  | _ => False
  end.

(** The error with which a file ends the batch it is in: it was prepared for
    another repository, or a name of what is to be stored is empty or has a
    NUL. *)
Definition abort_of (org repo : str) a p : option StoreError :=
  if negb (bool_decide (pf_org p = org)) || negb (bool_decide (pf_repo p = repo)) then
    Some (Rejected (lit "`" ++ pf_path p ++ lit "` was prepared for " ++ pf_org p ++ lit "/" ++
                    pf_repo p ++ lit ", not " ++ org ++ lit "/" ++ repo))
  else
  match pf_work p with
  | PRejected _ | PRemote _ => None
  | _ =>
      if up_to_date a p then None
      else match work_of p with
           | Ok (PExtracted ex, _) => match ingest_guard org repo (pf_language p) ex with Err e => Some e | _ => None end
           | _ => None
           end
  end.
(** The first file that ends the batch, with its error. *)
Fixpoint first_abort (org repo : str) a (l : list PreparedFile) : option (nat * StoreError) :=
  match l with
  | [] => None
  | p :: l =>
      match abort_of org repo a p with
      | Some e => Some (0%nat, e)
      | None => prod_map S id <$> first_abort org repo (commit_doc a p) l
      end
  end.
Definition terms_of p : nat :=
  match work_of p with Ok (PExtracted ex, _) => term_count ex | _ => 0%nat end.

Lemma room_mono d d' k n m : db_meta d' = db_meta d → db_dict d' = db_dict d →
  room_for d (S k) (m + n) → room_for d' k n.
Proof. unfold room_for. intros -> ->. lia. Qed.

Lemma extract_checked_work path lang src w :
  extract_checked is_alphabetic is_numeric registry path lang src = Ok w →
  match w.1 with PExtracted _ | PRejected _ => True | _ => False end.
Proof.
  unfold extract_checked. intros Hw. apply bind_Ok in Hw as ([ex note] & _ & Hw).
  destruct (validate_spans ex) as [[]|e|]; [by injection Hw as <-| |by injection Hw as <-].
  destruct e; try (by injection Hw as <-).
  destruct (validate_spans _) as [[]|e|]; [by injection Hw as <-| |by injection Hw as <-].
  by destruct e; injection Hw as <-.
Qed.

Lemma up_to_date_run d a p :
  stores sha256 d a →
  ∃ un d', (if io_reindex opts then Ok (None, d) else
      check_unchanged d (pf_org p) (pf_repo p) (pf_path p) (pf_language p) (pf_fingerprint p) (pf_origin p)) = Ok (un, d') ∧
    db_meta d' = db_meta d ∧ db_dict d' = db_dict d ∧
    if up_to_date a p then (∃ s b, un = Some (s, b) ∧ is_unchanged s = true) ∧
      stores sha256 d' (alter (λ v, re_origin v (pf_origin p)) (pf_key p) a)
    else un = None ∧ d' = d.
Proof.
  intros R. unfold up_to_date. destruct (io_reindex opts); cbn [negb andb]; [by exists None, d|].
  pose proof (check_unchanged_run sha256 d a (pf_org p) (pf_repo p) (pf_path p) (pf_language p) (pf_fingerprint p) (pf_origin p) R) as Hc.
  fold (pf_key p) in Hc. case_bool_decide as Hfp; unfold has_fp, doc_fp in Hfp; destruct (a !! pf_key p) as [v|] eqn:Ea;
    cbn [mbind option_bind] in Hfp; try done.
  - rewrite decide_True in Hc by done. destruct Hc as (file & d' & -> & Hd' & Hm & Hdi).
    eexists _, d'. split_and!; [done..|by eexists _, _|].
    by rewrite (alter_as_insert _ a (pf_key p) v Ea).
  - rewrite decide_False in Hc by done. by exists None, d.
  - by exists None, d.
Qed.

Lemma guard_unit org repo language ex : ingest_guard org repo language ex ≠ Panic.
Proof. by destruct (ingest_guard_cases org repo language ex) as [[-> _]|[[m ->] _]]. Qed.

Lemma commit_run d a org repo p k n :
  stores sha256 d a → shaped p → room_for d (S k) (terms_of p + n) →
  match abort_of org repo a p with
  | None => ∃ r d', commit_prepared sha256 is_alphabetic is_numeric d registry org repo p opts = Ok (r, d') ∧
      commit_outcome a p r ∧ stores sha256 d' (commit_doc a p) ∧ room_for d' k n
  | Some e => commit_prepared sha256 is_alphabetic is_numeric d registry org repo p opts = Err e
  end.
Proof.
  intros R (Hnorm & Hme & Hw) Hroom. unfold abort_of, commit_prepared. destruct (negb _ || negb _) eqn:Eown; [done|].
  apply orb_false_iff in Eown as [<-%negb_false_iff%bool_decide_eq_true <-%negb_false_iff%bool_decide_eq_true].
  destruct (up_to_date_run d a p R) as (un & d1 & Hun & Hm & Hdi & Hcase).
  assert (room_for d1 k n) as Hroom1 by (by eapply room_mono).
  unfold commit_outcome, commit_doc.
  assert (∀ ex w, work_of p = Ok (PExtracted ex, w) →
    match ingest_guard (pf_org p) (pf_repo p) (pf_language p) ex with
    | Err e => ingest_prepped sha256 d (pf_org p) (pf_repo p) (pf_path p) (pf_language p) ex (FileMeta_of p) (pf_v2 p) = Err e
    | _ => ∃ stats d',
      ingest_prepped sha256 d (pf_org p) (pf_repo p) (pf_path p) (pf_language p) ex (FileMeta_of p) (pf_v2 p) = Ok (stats, d') ∧
      (∃ s, with_warning stats w = s ∧ is_unchanged s = false ∧ is_span_warning s = w ∧
        is_replaced s = bool_decide (is_Some (a !! pf_key p)) ∧
        is_symbols s = length (ex_symbols ex) ∧ is_tokens s = length (ex_tokens ex)) ∧
      stores sha256 d' (<[pf_key p := new_doc (pf_language p) (FileMeta_of p) ex]> a) ∧ room_for d' k n
    end) as Hstore.
  { intros ex w E. rewrite E in Hw. destruct Hw as (Hsm & Hsp & Htx & Hv2). unfold terms_of in Hroom. rewrite E in Hroom.
    pose proof (guard_unit (pf_org p) (pf_repo p) (pf_language p) ex) as Hnp.
    destruct (ingest_guard _ _ _ ex) as [[]|e|] eqn:Hg; [|by unfold ingest_prepped; rewrite Hg|done].
    destruct (ingest_run sha256 d a (pf_org p) (pf_repo p) (pf_path p) (pf_language p) ex (FileMeta_of p) (pf_v2 p) R Hg Hsm Hsp Htx Hme)
      as (file & d' & -> & Hd' & Hr'); [|done|].
    { unfold room, room_for in *. lia. }
    rewrite Hnorm in *. eexists _, d'. split_and!; [done|by eexists|done|by apply Hr']. }
  unfold work_of in *. destruct (pf_work p) as [src|ex|e|b] eqn:Ew.
  - rewrite Hun. cbn [mbind outcome_mbind outcome_bind]. destruct (up_to_date a p).
    { destruct Hcase as [(s & b & -> & Hs) Hd']. exists (Ok s), d1. split_and!; [done|by exists s| |done].
      destruct (extract_checked _ _ _ _ _ _) as [[[] ?]| |]; done. }
    destruct Hcase as [-> ->]. destruct (extract_checked _ _ _ _ _ _) as [[w warn]| |] eqn:Ex; [|done|done].
    cbn [mbind outcome_mbind outcome_bind]. pose proof (extract_checked_work _ _ _ _ Ex) as Hk. cbn [fst] in Hk.
    destruct w as [|ex|e|]; try done; [|by exists (Err e), d].
    specialize (Hstore ex warn eq_refl). destruct (ingest_guard _ _ _ ex) as [[]|e|]; [|by rewrite Hstore|];
      destruct Hstore as (stats & d' & -> & (s & <- & Hs) & Hd' & Hr'); cbn [mbind outcome_mbind outcome_bind];
      eexists _, d'; by split_and!; [|eexists|..].
  - rewrite Hun. cbn [mbind outcome_mbind outcome_bind]. destruct (up_to_date a p).
    { destruct Hcase as [(s & b & -> & Hs) Hd']. exists (Ok s), d1. split_and!; [done|by exists s|done|done]. }
    destruct Hcase as [-> ->]. cbn [mbind outcome_mbind outcome_bind].
    specialize (Hstore ex _ eq_refl). destruct (ingest_guard _ _ _ ex) as [[]|e|]; [|by rewrite Hstore|];
      destruct Hstore as (stats & d' & -> & (s & <- & Hs) & Hd' & Hr'); cbn [mbind outcome_mbind outcome_bind];
      eexists _, d'; by split_and!; [|eexists|..].
  - exists (Err e), d. split_and!; try done. exact (room_mono d d k n _ eq_refl eq_refl Hroom).
  - eexists _, d. split_and!; try done. exact (room_mono d d k n _ eq_refl eq_refl Hroom).
Qed.

(** How the first error divides a list. *)
Lemma first_abort_app org repo l1 l2 : ∀ a,
  first_abort org repo a (l1 ++ l2) =
  match first_abort org repo a l1 with
  | Some x => Some x
  | None => prod_map (Nat.add (length l1)) id <$> first_abort org repo (foldl commit_doc a l1) l2
  end.
Proof.
  induction l1 as [|p l1 IH]; intros a; cbn [app first_abort length foldl].
  { by destruct (first_abort org repo a l2) as [[]|]. }
  destruct (abort_of org repo a p); [done|]. rewrite IH. destruct (first_abort _ _ _ l1) as [[]|]; [done|]. cbn.
  by destruct (first_abort _ _ _ l2) as [[]|].
Qed.
Lemma first_abort_Some org repo l : ∀ a i e, first_abort org repo a l = Some (i, e) →
  ∃ l1 p l2, l = l1 ++ p :: l2 ∧ length l1 = i ∧ first_abort org repo a l1 = None ∧ abort_of org repo (foldl commit_doc a l1) p = Some e.
Proof.
  induction l as [|p l IH]; intros a i e; cbn [first_abort]; [done|]. destruct (abort_of org repo a p) as [e'|] eqn:E.
  - intros [= <- <-]. by exists [], p, l.
  - destruct (first_abort org repo (commit_doc a p) l) as [[j e']|] eqn:El; [|done]. intros [= <- <-].
    destruct (IH _ _ _ El) as (l1 & q & l2 & -> & <- & H1 & H2). exists (p :: l1), q, l2. cbn [first_abort foldl]. by rewrite E, H1.
Qed.

(** ** The batch loop *)

Lemma stores_meta d a g h :
  tbl_map (g (db_meta d)) !! lit "next_id" = tbl_map (db_meta d) !! lit "next_id" →
  tbl_map (g (db_meta d)) !! lit "next_term" = tbl_map (db_meta d) !! lit "next_term" →
  stores sha256 d a → stores sha256 (upd_open_batch h (upd_meta g d)) a.
Proof.
  intros H1 H2 (N & S & es & next & nt & R). exists N, S, es, next, nt. destruct R. split; try done.
  - by eapply (dict_ok_frame sha256 d).
  - cbn [upd_open_batch upd_meta db_meta]. by rewrite H1.
  - cbn [upd_open_batch upd_meta db_meta]. by rewrite H2.
Qed.
Lemma room_meta d g h k n :
  tbl_map (g (db_meta d)) !! lit "next_id" = tbl_map (db_meta d) !! lit "next_id" →
  tbl_map (g (db_meta d)) !! lit "next_term" = tbl_map (db_meta d) !! lit "next_term" →
  room_for d k n → room_for (upd_open_batch h (upd_meta g d)) k n.
Proof.
  intros H1 H2. unfold room_for. rewrite !tbl_get_spec. cbn [upd_open_batch upd_meta db_meta db_dict].
  by rewrite H1, H2.
Qed.
Lemma mark_run bid org repo d a k n :
  (stores sha256 d a → stores sha256 (mark_open_batch bid org repo d) a) ∧
  (room_for d k n → room_for (mark_open_batch bid org repo d) k n).
Proof.
  assert (mark_open_batch bid org repo d = upd_open_batch (λ t, tbl_insert (lit "repo") repo (tbl_insert (lit "org") org t))
    (upd_meta (tbl_insert (lit "open_batch_id") bid) d)) as -> by done.
  split; (apply stores_meta || apply room_meta); by rewrite tbl_insert_spec, lookup_insert_ne.
Qed.
Lemma clear_run d a : stores sha256 d a → stores sha256 (clear_open_batch d) a.
Proof.
  assert (clear_open_batch d = upd_open_batch (λ t, tbl_remove (lit "repo") (tbl_remove (lit "org") t))
    (upd_meta (tbl_remove (lit "open_batch_id")) d)) as -> by done.
  apply stores_meta; by rewrite tbl_remove_spec, lookup_delete_ne.
Qed.
Lemma batch_id_run d a k n :
  (stores sha256 d a → stores sha256 (next_batch_id d).2 a) ∧ (room_for d k n → room_for (next_batch_id d).2 k n).
Proof.
  assert ((next_batch_id d).2 = upd_open_batch (λ t, t) (upd_meta (tbl_insert (lit "next_batch_id")
    (as_u64 (default 0 (tbl_get (db_meta d) (lit "next_batch_id")) + 1))) d)) as -> by done.
  split; (apply stores_meta || apply room_meta); by rewrite tbl_insert_spec, lookup_insert_ne.
Qed.

(** The files one after the other. *)
Fixpoint outcomes a (l : list PreparedFile) (rs : list (result IngestStats)) : Prop :=
  match l, rs with
  | [], [] => True
  | p :: l, r :: rs => commit_outcome a p r ∧ outcomes (commit_doc a p) l rs
  | _, _ => False
  end.
Definition all_terms_of (l : list PreparedFile) : nat := sum_list_with terms_of l.

(** One round of the loop. *)
Definition round (org repo : str) (next : Db tbl → nat → result (PreparedFile * Db tbl)) (i : nat) (wt : Db tbl)
    : result (Z * result IngestStats * Db tbl) :=
  '(p, wt) ← next wt i;
  '(r, wt) ← commit_prepared sha256 is_alphabetic is_numeric wt registry org repo p opts;
  Ok (pf_bytes_len p, r, wt).
(** A round for the file [q]: whatever [next] gives is committed as [q]. *)
Definition step_ok (org repo : str) (next : Db tbl → nat → result (PreparedFile * Db tbl)) (i : nat) (q : PreparedFile) : Prop :=
  ∀ wt a k n, stores sha256 wt a → room_for wt (S k) (terms_of q + n) →
  match abort_of org repo a q with
  | None => ∃ len r wt', round org repo next i wt = Ok (len, r, wt') ∧
      commit_outcome a q r ∧ stores sha256 wt' (commit_doc a q) ∧ room_for wt' k n
  | Some e => round org repo next i wt = Err e
  end.

Lemma nth_file_step org repo files i p : files !! i = Some p → shaped p → step_ok org repo (nth_file files) i p.
Proof.
  intros Hi Hp wt a k n R Hroom. unfold round, nth_file, index. rewrite Hi. cbn [unwrap mbind outcome_mbind outcome_bind].
  pose proof (commit_run wt a org repo p k n R Hp Hroom) as Hc. destruct (abort_of org repo a p); [by rewrite Hc|].
  destruct Hc as (r & wt' & -> & Hr & HR & Hn). by eexists _, r, wt'.
Qed.

(** What is committed when the rounds for [l] are done, and when the one after
    them fails: [db] is the last commit before them. *)
Section loop.
Context (org repo : str) (chunk bid : Z) (next : Db tbl → nat → result (PreparedFile * Db tbl)).
Abbreviation loop := (batch_loop sha256 is_alphabetic is_numeric registry org repo opts chunk bid next).

Lemma batch_loop_rounds l m : ∀ i db wt txn out c a k n,
  (∀ j q, l !! j = Some q → step_ok org repo next (i + j) q) → first_abort org repo a l = None →
  stores sha256 wt a → room_for wt (length l + k) (all_terms_of l + n) →
  ∃ db' wt' rs txn' c', loop (length l + m) i db wt txn out c = loop m (i + length l) db' wt' txn' (out ++ rs) c' ∧
    stores sha256 wt' (foldl commit_doc a l) ∧ room_for wt' k n ∧ outcomes a l rs ∧
    (db' = db ∨ ∃ j, stores sha256 db' (foldl commit_doc a (take j l)) ∧ room_for db' k n).
Proof.
  induction l as [|q l IH]; intros i db wt txn out c a k n Hstep Hno R Hroom.
  { exists db, wt, [], txn, c. rewrite app_nil_r, Nat.add_0_r. split_and!; try done. by left. }
  pose proof (Hstep 0%nat q eq_refl) as Hq. rewrite Nat.add_0_r in Hq.
  cbn [first_abort] in Hno. destruct (abort_of org repo a q) eqn:Ea; [done|].
  destruct (first_abort org repo (commit_doc a q) l) eqn:El; [done|].
  assert (room_for wt (S (length l + k)) (terms_of q + (all_terms_of l + n))) as Hroom0 by (by rewrite Nat.add_assoc).
  specialize (Hq wt a _ _ R Hroom0). rewrite Ea in Hq. destruct Hq as (len & r & wt1 & Hc & Hr & R1 & Hroom1).
  assert (∀ db2 wt2 txn2 c2, stores sha256 wt2 (commit_doc a q) → room_for wt2 (length l + k) (all_terms_of l + n) →
    (db2 = db ∨ stores sha256 db2 (commit_doc a q) ∧ room_for db2 k n) →
    ∃ db' wt' rs txn' c', loop (length l + m) (S i) db2 wt2 txn2 (out ++ [r]) c2 = loop m (i + length (q :: l)) db' wt' txn' (out ++ rs) c' ∧
      stores sha256 wt' (foldl commit_doc a (q :: l)) ∧ room_for wt' k n ∧ outcomes a (q :: l) rs ∧
      (db' = db ∨ ∃ j, stores sha256 db' (foldl commit_doc a (take j (q :: l))) ∧ room_for db' k n)) as Hgo.
  { intros db2 wt2 txn2 c2 R2 Hroom2 Hdb2. destruct (IH (S i) db2 wt2 txn2 (out ++ [r]) c2 (commit_doc a q) k n)
      as (db' & wt' & rs & txn' & c' & Hrun & HR & Hrm & Hrs & Hdb); [|done|done|done|].
    { intros j x Hj. rewrite Nat.add_succ_comm. by apply (Hstep (S j)). }
    exists db', wt', (r :: rs), txn', c'. cbn [length]. rewrite Hrun, <- app_assoc, Nat.add_succ_comm. split_and!; try done.
    destruct Hdb as [->|(j & Hj)]; [|right; by exists (S j)]. destruct Hdb2 as [->|Hdb2]; [by left|]. right. by exists 1%nat. }
  cbn [length Nat.add batch_loop]. unfold round in Hc. rewrite Hc. destruct (negb _); [apply Hgo; auto|].
  destruct (chunk <=? _); [|apply Hgo; auto].
  destruct (mark_run bid org repo wt1 (commit_doc a q) (length l + k) (all_terms_of l + n)) as [Hmk Hmr].
  apply Hgo; [by apply Hmk|by apply Hmr|]. right. split; [done|]. unfold room_for in *. lia.
Qed.

Lemma batch_loop_stops l m i db wt txn out c a k n e :
  (∀ j q, l !! j = Some q → step_ok org repo next (i + j) q) → first_abort org repo a l = None →
  (∀ wt, stores sha256 wt (foldl commit_doc a l) → room_for wt k n → round org repo next (i + length l) wt = Err e) →
  stores sha256 wt a → room_for wt (length l + k) (all_terms_of l + n) →
  ∃ db', loop (length l + S m) i db wt txn out c = (db', Err e) ∧
    (db' = db ∨ ∃ j, stores sha256 db' (foldl commit_doc a (take j l)) ∧ room_for db' k n).
Proof.
  intros Hstep Hno Hstop R Hroom.
  destruct (batch_loop_rounds l (S m) i db wt txn out c a k n Hstep Hno R Hroom) as (db' & wt' & rs & txn' & c' & -> & HR & Hrm & _ & Hdb).
  exists db'. cbn [batch_loop]. pose proof (Hstop wt' HR Hrm) as He. unfold round in He. by rewrite He.
Qed.
End loop.

(** A whole batch, from any source of files, and one that a file ends. *)
Lemma batch_run d a chunk org repo next l :
  stores sha256 d a → (∀ j q, l !! j = Some q → step_ok org repo next j q) → room_for d (length l) (all_terms_of l) →
  first_abort org repo a l = None →
  ∃ wt rs c, commit_each_counted sha256 is_alphabetic is_numeric (λ _, Ok ()) d registry org repo (length l) opts chunk None next =
      (clear_open_batch wt, Ok (rs, c)) ∧
    outcomes a l rs ∧ stores sha256 (clear_open_batch wt) (foldl commit_doc a l).
Proof.
  intros R Hstep Hroom Hno. unfold commit_each_counted.
  destruct (batch_id_run d a (length l) (all_terms_of l)) as [H1 H2].
  specialize (H1 R). specialize (H2 Hroom). destruct (next_batch_id d) as [bid wt]. cbn [snd] in *.
  destruct (mark_run bid org repo wt a (length l) (all_terms_of l)) as [H3 H4].
  specialize (H3 H1). specialize (H4 H2).
  destruct (batch_loop_rounds org repo chunk bid next l 0 0 d (mark_open_batch bid org repo wt) 0 [] 0 a 0 0 Hstep Hno H3)
    as (db' & wt' & rs & txn' & c' & Hrun & Hwt' & _ & Hrs & _); [by rewrite !Nat.add_0_r|].
  rewrite Nat.add_0_r in Hrun. rewrite Hrun. cbn [batch_loop app].
  exists wt', rs, (c' + 1). split; [done|]. split; [done|]. by apply clear_run.
Qed.
Lemma batch_stops d a chunk org repo next l m k n e :
  stores sha256 d a → (∀ j q, l !! j = Some q → step_ok org repo next j q) → room_for d (length l + k) (all_terms_of l + n) →
  first_abort org repo a l = None →
  (∀ wt, stores sha256 wt (foldl commit_doc a l) → room_for wt k n → round org repo next (length l) wt = Err e) →
  ∃ d', commit_each_counted sha256 is_alphabetic is_numeric (λ _, Ok ()) d registry org repo (length l + S m) opts chunk None next =
      (d', Err e) ∧
    (d' = d ∨ ∃ j, stores sha256 d' (foldl commit_doc a (take j l)) ∧ room_for d' k n).
Proof.
  intros R Hstep Hroom Hno Hstop. unfold commit_each_counted.
  destruct (batch_id_run d a (length l + k) (all_terms_of l + n)) as [H1 H2].
  specialize (H1 R). specialize (H2 Hroom). destruct (next_batch_id d) as [bid wt]. cbn [snd] in *.
  destruct (mark_run bid org repo wt a (length l + k) (all_terms_of l + n)) as [H3 H4].
  specialize (H3 H1). specialize (H4 H2).
  destruct (batch_loop_stops org repo chunk bid next l m 0 d (mark_open_batch bid org repo wt) 0 [] 0 a k n e Hstep Hno Hstop H3 H4)
    as (db' & -> & Hdb). by exists db'.
Qed.
(** A batch that one of its files ends. *)
Lemma batch_aborts d a chunk org repo next l i e :
  stores sha256 d a → (∀ j q, l !! j = Some q → step_ok org repo next j q) → room_for d (length l) (all_terms_of l) →
  first_abort org repo a l = Some (i, e) →
  ∃ d', commit_each_counted sha256 is_alphabetic is_numeric (λ _, Ok ()) d registry org repo (length l) opts chunk None next =
      (d', Err e) ∧
    ∃ j, (j ≤ i)%nat ∧ stores sha256 d' (foldl commit_doc a (take j l)).
Proof.
  intros R Hstep Hroom (l1 & p & l2 & -> & <- & Hno & Hp)%first_abort_Some.
  rewrite length_app in *. cbn [length] in *.
  destruct (batch_stops d a chunk org repo next l1 (length l2) (S (length l2)) (terms_of p + all_terms_of l2) e)
    as (d' & -> & Hd'); [done| | |done| |].
  - intros j q Hj. apply Hstep. by apply lookup_app_l_Some.
  - unfold all_terms_of in *. by rewrite sum_list_with_app in Hroom.
  - intros wt Hwt Hrm. assert (step_ok org repo next (length l1) p) as Hs.
    { apply Hstep. by rewrite lookup_app_r, Nat.sub_diag by done. }
    specialize (Hs wt _ _ _ Hwt Hrm). by rewrite Hp in Hs.
  - exists d'. split; [done|]. destruct Hd' as [->|(j & Hj & _)]; [exists 0%nat; split; [lia|done]|].
    exists (j `min` length l1)%nat. split; [lia|]. rewrite take_app_le by lia.
    destruct (decide (j ≤ length l1)%nat); [by rewrite Nat.min_l|]. rewrite Nat.min_r, firstn_all by lia. by rewrite take_ge in Hj by lia.
Qed.
End commit.

(** ** Running a batch again *)
Section again.
Context (is_alphabetic is_numeric : Z → bool) (registry : Registry) (opts : IndexOptions).
Implicit Types (a : gmap dkey Doc) (p : PreparedFile) (l : list PreparedFile).
Abbreviation commit := (commit_doc is_alphabetic is_numeric registry opts).

(** What a file does to the document under its key. *)
Definition doc_step p (o : option Doc) : option Doc := commit (match o with Some v => {[pf_key p := v]} | None => ∅ end) p !! pf_key p.

Lemma up_to_date_local a b p : a !! pf_key p = b !! pf_key p → up_to_date opts a p = up_to_date opts b p.
Proof. intros Hab. unfold up_to_date. f_equal. apply bool_decide_ext. unfold has_fp. by rewrite Hab. Qed.
Lemma commit_local a b p : a !! pf_key p = b !! pf_key p → commit a p !! pf_key p = commit b p !! pf_key p.
Proof.
  intros Hab. pose proof (up_to_date_local a b p Hab) as Hu. unfold commit_doc. rewrite Hu.
  repeat case_match; rewrite ?lookup_insert_eq, ?lookup_alter_eq, ?Hab; done.
Qed.
Lemma commit_key a p : commit a p !! pf_key p = doc_step p (a !! pf_key p).
Proof. apply commit_local. destruct (a !! pf_key p); [by rewrite lookup_singleton_eq|by rewrite lookup_empty]. Qed.
Lemma commit_other a p k : k ≠ pf_key p → commit a p !! k = a !! k.
Proof.
  intros Hk. unfold commit_doc. repeat case_match; rewrite ?lookup_insert_ne, ?lookup_alter_ne by done; done.
Qed.

(** Committing a file again changes nothing: without a forced reindex it is up
    to date, with one the same document is put in again. *)
Lemma commit_again a p : commit (commit a p) p = commit a p.
Proof.
  destruct (io_reindex opts) eqn:Hre.
  { assert (∀ b, up_to_date opts b p = false) as Hno by (intros b; unfold up_to_date; by rewrite Hre).
    unfold commit_doc. rewrite !Hno. destruct (pf_work p); try done;
      (destruct (work_of is_alphabetic is_numeric registry p) as [[[] ?]| |]; try done); apply insert_insert_eq. }
  assert (∀ v : Doc, re_origin (re_origin v (pf_origin p)) (pf_origin p) = re_origin v (pf_origin p)) as Hid by done.
  assert (∀ b, up_to_date opts b p = true → up_to_date opts (alter (λ v, re_origin v (pf_origin p)) (pf_key p) b) p = true) as Hup.
  { intros b. unfold up_to_date. rewrite Hre. cbn [negb andb]. rewrite !bool_decide_eq_true. unfold has_fp.
    rewrite lookup_alter_eq. by destruct (b !! pf_key p). }
  assert (∀ ex, up_to_date opts (<[pf_key p := new_doc (pf_language p) (FileMeta_of p) ex]> a) p = true) as Hnew.
  { intros ex. unfold up_to_date. rewrite Hre. cbn [negb andb]. apply bool_decide_eq_true. unfold has_fp. by rewrite lookup_insert_eq. }
  unfold commit_doc. destruct (pf_work p); try done; destruct (up_to_date opts a p) eqn:Eup; try (by rewrite (Hup a Eup), alter_twice);
    (destruct (work_of is_alphabetic is_numeric registry p) as [[[] ?]| |]; rewrite ?Hnew, ?Eup; try done);
    (erewrite alter_as_insert by apply lookup_insert_eq); by rewrite insert_insert_eq.
Qed.

Lemma doc_step_again p o : doc_step p (doc_step p o) = doc_step p o.
Proof.
  set (a := match o with Some v => {[pf_key p := v]} | None => ∅ end : gmap dkey Doc).
  change (doc_step p o) with (commit a p !! pf_key p). by rewrite <- commit_key, commit_again.
Qed.
Lemma commits_other l : ∀ a k, (k ∉ pf_key <$> l) → foldl commit a l !! k = a !! k.
Proof.
  induction l as [|p l IH]; intros a k Hk; [done|]. cbn in Hk. apply not_elem_of_cons in Hk as [Hk Hl].
  cbn [foldl]. by rewrite IH, commit_other.
Qed.
Lemma commits_key l : NoDup (pf_key <$> l) → ∀ a p, p ∈ l → foldl commit a l !! pf_key p = doc_step p (a !! pf_key p).
Proof.
  induction l as [|q l IH]; intros Hnd a p Hp; [by apply elem_of_nil in Hp|]. cbn in Hnd. apply NoDup_cons in Hnd as [Hq Hnd].
  cbn [foldl]. apply elem_of_cons in Hp as [->|Hp]; [by rewrite commits_other, commit_key|].
  rewrite IH by done. rewrite commit_other; [done|]. intros Heq. apply Hq. rewrite <- Heq. by apply list_elem_of_fmap_2.
Qed.

(** A batch of distinct files that stopped after some of them can be run again
    from the start. *)
Lemma commit_settled l a p : NoDup (pf_key <$> l) → p ∈ l → commit (foldl commit a l) p = foldl commit a l.
Proof.
  intros Hnd Hp. pose proof (commits_key l Hnd a p Hp) as Hk. apply map_eq. intros k.
  destruct (decide (k = pf_key p)) as [->|Hne]; [|by apply commit_other]. by rewrite commit_key, Hk, doc_step_again.
Qed.
Lemma commits_absorbed l a m : NoDup (pf_key <$> l) → m ⊆ l → foldl commit (foldl commit a l) m = foldl commit a l.
Proof.
  intros Hnd. induction m as [|p m IH]; intros Hm; [done|]. cbn [foldl].
  rewrite commit_settled by (done || set_solver). apply IH. set_solver.
Qed.
Lemma commits_resume l1 l2 a :
  NoDup (pf_key <$> (l1 ++ l2)) → foldl commit (foldl commit a l1) (l1 ++ l2) = foldl commit a (l1 ++ l2).
Proof.
  intros Hnd. rewrite !foldl_app, (commits_absorbed l1 a l1); [done| |set_solver]. rewrite fmap_app in Hnd. by apply NoDup_app in Hnd as (? & _).
Qed.

(** What ends a batch at a file, and the outcome of a file, are decided by the
    document under its key. *)
Abbreviation abort := (abort_of is_alphabetic is_numeric registry opts).
Abbreviation first := (first_abort is_alphabetic is_numeric registry opts).
Abbreviation outcome_of := (commit_outcome is_alphabetic is_numeric registry opts).
Lemma abort_local org repo a b p : a !! pf_key p = b !! pf_key p → abort org repo a p = abort org repo b p.
Proof. intros Hab. unfold abort_of. by rewrite (up_to_date_local a b p Hab). Qed.
Lemma outcome_local a b p r : a !! pf_key p = b !! pf_key p → outcome_of a p r ↔ outcome_of b p r.
Proof. intros Hab. unfold commit_outcome. by rewrite (up_to_date_local a b p Hab), Hab. Qed.
Lemma first_local org repo l : NoDup (pf_key <$> l) → ∀ a b, (∀ p, p ∈ l → a !! pf_key p = b !! pf_key p) →
  first org repo a l = first org repo b l ∧
  ∀ rs, outcomes is_alphabetic is_numeric registry opts a l rs ↔ outcomes is_alphabetic is_numeric registry opts b l rs.
Proof.
  induction l as [|p l IH]; intros Hnd a b Hab; [done|]. cbn in Hnd. apply NoDup_cons in Hnd as [Hp Hnd].
  cbn [first_abort outcomes]. rewrite (abort_local org repo a b p) by (apply Hab; by left).
  destruct (IH Hnd (commit a p) (commit b p)) as [Hf Ho].
  { intros q Hq. rewrite !commit_other; [apply Hab; by right|..]; intros Heq; apply Hp; rewrite <- Heq; by apply list_elem_of_fmap_2. }
  split; [by rewrite Hf|]. intros [|r rs]; [done|]. cbn [outcomes]. rewrite (outcome_local a b p r) by (apply Hab; by left). by rewrite Ho.
Qed.
Lemma up_to_date_again a p : up_to_date opts a p = true → up_to_date opts (commit a p) p = true.
Proof.
  intros Hu. unfold commit_doc. rewrite Hu. unfold up_to_date in *. apply andb_true_iff in Hu as [-> Hfp%bool_decide_eq_true].
  destruct (pf_work p); apply bool_decide_eq_true; try done; unfold has_fp in *; rewrite lookup_alter_eq; by destruct (a !! pf_key p).
Qed.
Lemma abort_again org repo a p : abort org repo a p = None → abort org repo (commit a p) p = None.
Proof.
  pose proof (up_to_date_again a p) as Hu. unfold abort_of. destruct (negb _ || negb _); [done|].
  destruct (up_to_date opts a p); [by rewrite Hu|]. intros Hn. destruct (up_to_date opts (commit a p) p); [by destruct (pf_work p)|done].
Qed.
Lemma first_distinct org repo l : NoDup (pf_key <$> l) → ∀ a, first org repo a l = None ↔ ∀ p, p ∈ l → abort org repo a p = None.
Proof.
  induction l as [|p l IH]; intros Hnd a; [split; [by intros _ p ?%elem_of_nil|done]|]. cbn in Hnd. apply NoDup_cons in Hnd as [Hp Hnd].
  assert (∀ q, q ∈ l → abort org repo (commit a p) q = abort org repo a q) as Hother.
  { intros q Hq. apply abort_local, commit_other. intros Heq. apply Hp. rewrite <- Heq. by apply list_elem_of_fmap_2. }
  cbn [first_abort]. split.
  - destruct (abort org repo a p) eqn:E; [done|]. intros Hl q [->|Hq]%elem_of_cons; [done|].
    destruct (first org repo (commit a p) l) eqn:El; [done|]. rewrite <- Hother by done. by apply IH.
  - intros Hl. rewrite Hl by by left. rewrite (proj2 (IH Hnd _)); [done|]. intros q Hq. rewrite Hother by done. apply Hl. by right.
Qed.
(** Some first files are there; the whole batch still meets no file that ends it. *)
Lemma first_again org repo l j a : NoDup (pf_key <$> l) → first org repo a l = None → first org repo (foldl commit a (take j l)) l = None.
Proof.
  intros Hnd. rewrite !first_distinct by done. intros Hl p Hp. specialize (Hl p Hp).
  assert (NoDup (pf_key <$> take j l)) as Hndj. { rewrite <- (take_drop j l), fmap_app in Hnd. by apply NoDup_app in Hnd as (? & _). }
  destruct (decide (pf_key p ∈ pf_key <$> take j l)) as [Hk|Hk].
  - apply list_elem_of_fmap in Hk as (q & Hpq & Hq). rewrite (abort_local org repo _ (commit a p)); [by apply abort_again|].
    assert (p = q) as <-.
    { assert (∀ x y, x ∈ l → y ∈ l → pf_key x = pf_key y → x = y) as Hinj; [|apply Hinj; [done|by apply elem_of_take in Hq as (? & ?%list_elem_of_lookup_2 & _)|done]].
      clear -Hnd. intros x y (i & Hi)%list_elem_of_lookup (k & Hk)%list_elem_of_lookup Hxy.
      assert (i = k) as ->; [|congruence]. eapply NoDup_lookup; [exact Hnd|by rewrite list_lookup_fmap, Hi|by rewrite list_lookup_fmap, Hk, Hxy]. }
    rewrite commits_key by done. by rewrite commit_key.
  - by rewrite (abort_local org repo _ a) by by rewrite commits_other.
Qed.

(** After a commit the file is up to date, unless there was nothing to store. *)
Lemma commit_up_to_date a p ex w :
  io_reindex opts = false → work_of is_alphabetic is_numeric registry p = Ok (PExtracted ex, w) →
  up_to_date opts (commit a p) p = true.
Proof.
  intros Hre Hw. assert (∀ b, has_fp b (pf_key p) (pf_fingerprint p) → up_to_date opts b p = true) as Hup.
  { intros b Hb. unfold up_to_date. rewrite Hre. by apply bool_decide_eq_true. }
  apply Hup. unfold commit_doc. rewrite Hw. unfold work_of in Hw.
  destruct (pf_work p); try done; (destruct (up_to_date opts a p) eqn:Eup; [|unfold has_fp; by rewrite lookup_insert_eq]);
    unfold up_to_date in Eup; apply andb_true_iff in Eup as [_ Hfp%bool_decide_eq_true]; unfold has_fp in *;
    rewrite lookup_alter_eq; by destruct (a !! pf_key p).
Qed.

(** A stored batch has nothing left to do. *)
Definition skipped (r : result IngestStats) : Prop := match r with Ok s => is_unchanged s = true | Err _ => True | Panic => False end.
Lemma commits_settled l a p :
  io_reindex opts = false → NoDup (pf_key <$> l) → p ∈ l →
  commit (foldl commit a l) p = foldl commit a l ∧
  ∀ r, commit_outcome is_alphabetic is_numeric registry opts (foldl commit a l) p r → skipped r.
Proof.
  intros Hre Hnd Hp. pose proof (commits_key l Hnd a p Hp) as Hk. set (b := foldl commit a l) in *. split.
  - by apply commit_settled.
  - intros r. unfold commit_outcome. destruct (pf_work p) eqn:Ew; try (by intros ->).
    all: destruct (up_to_date opts b p) eqn:Eup; [by intros (s & -> & ?)|].
    all: destruct (work_of is_alphabetic is_numeric registry p) as [[[] w]| |] eqn:Ewk; try done; try (by intros ->).
    all: exfalso; assert (b !! pf_key p = commit a p !! pf_key p) as Hb by (by rewrite commit_key).
    all: by rewrite (up_to_date_local _ _ p Hb), (commit_up_to_date a p _ _ Hre Ewk) in Eup.
Qed.
Lemma outcomes_settled l a rs :
  (∀ p, p ∈ l → commit a p = a ∧ ∀ r, commit_outcome is_alphabetic is_numeric registry opts a p r → skipped r) →
  outcomes is_alphabetic is_numeric registry opts a l rs → Forall skipped rs.
Proof.
  revert rs. induction l as [|p l IH]; intros [|r rs] Hl Hrs; try done. destruct Hrs as [Hr Hrs].
  destruct (Hl p) as [Hp Hsk]; [by left|]. rewrite Hp in Hrs. constructor; [by apply Hsk|].
  apply IH; [|done]. intros q Hq. apply Hl. by right.
Qed.
Lemma outcomes_app l1 l2 a rs :
  outcomes is_alphabetic is_numeric registry opts a (l1 ++ l2) rs →
  outcomes is_alphabetic is_numeric registry opts a l1 (take (length l1) rs).
Proof.
  revert a rs. induction l1 as [|p l1 IH]; intros a [|r rs] Hrs; try done. destruct Hrs as [Hr Hrs]. cbn. split; [done|]. by apply IH.
Qed.
End again.

(** ** What a batch leaves behind *)
Section marks.
Context `{Redb tbl} `{Serde} (sha256 : list Z → list Z) (is_alphabetic is_numeric : Z → bool).
Context (registry : Registry) (opts : IndexOptions).
Implicit Types (d : Db tbl).

(** The open-batch marker of [open_batch] in [graph-store/src/v2.rs]. *)
Definition open_for d (bid : Z) (org repo : str) : Prop :=
  tbl_get (db_meta d) (lit "open_batch_id") = Some bid ∧
  tbl_get (db_open_batch d) (lit "org") = Some org ∧ tbl_get (db_open_batch d) (lit "repo") = Some repo.
Definition closed d : Prop :=
  tbl_get (db_meta d) (lit "open_batch_id") = None ∧
  tbl_get (db_open_batch d) (lit "org") = None ∧ tbl_get (db_open_batch d) (lit "repo") = None.

Lemma open_keeps d d' bid org repo : keeps d d' → open_for d bid org repo → open_for d' bid org repo.
Proof. intros [= _ Hb Hm]. unfold open_for. rewrite !tbl_get_spec. by rewrite Hb, Hm. Qed.
Lemma mark_open bid org repo d : open_for (mark_open_batch bid org repo d) bid org repo.
Proof.
  unfold open_for, mark_open_batch. rewrite !tbl_get_spec. cbn [upd_open_batch upd_meta db_meta db_open_batch].
  rewrite !tbl_insert_spec, !lookup_insert_eq. split_and!; [done| |done]. by rewrite lookup_insert_ne, lookup_insert_eq.
Qed.
Lemma clear_closed d : closed (clear_open_batch d).
Proof.
  unfold closed, clear_open_batch. rewrite !tbl_get_spec. cbn [upd_open_batch upd_meta db_meta db_open_batch].
  rewrite !tbl_remove_spec, !lookup_delete_eq. split_and!; [done| |done]. by rewrite lookup_delete_ne, lookup_delete_eq.
Qed.

(** Every commit inside the loop carries the marker. *)
Lemma batch_loop_open org repo chunk bid next n :
  (∀ wt i p wt', next wt i = Ok (p, wt') → keeps wt wt') → ∀ i d0 db wt txn out c db' r,
  open_for wt bid org repo → db = d0 ∨ open_for db bid org repo →
  batch_loop sha256 is_alphabetic is_numeric registry org repo opts chunk bid next n i db wt txn out c = (db', r) →
  db' = d0 ∨ open_for db' bid org repo.
Proof.
  intros Hnext. induction n as [|n IH]; intros i d0 db wt txn out c db' r Hwt Hdb Hr; cbn [batch_loop] in Hr; [by injection Hr as <- <-|].
  destruct ('(p, wt) ← next wt i; '(r, wt) ← commit_prepared sha256 is_alphabetic is_numeric wt registry org repo p opts; Ok (pf_bytes_len p, r, wt))
    as [[[len r1] wt1]| |] eqn:E; [|by injection Hr as <- <-|by injection Hr as <- <-].
  assert (open_for wt1 bid org repo) as Hwt1.
  { apply bind_Ok in E as ([p wt0] & E0 & E). apply bind_Ok in E as ([r2 wt2] & E & [= _ _ <-]).
    eapply open_keeps; [by eapply commit_keeps|]. eapply open_keeps; [by eapply Hnext|done]. }
  destruct (negb _); [by eapply IH|]. destruct (chunk <=? _); [|by eapply IH].
  eapply IH; [apply mark_open|by right|exact Hr].
Qed.

(** A batch that never fills a chunk commits nothing on the way. *)
Lemma batch_loop_whole org repo chunk bid files n : ∀ i db wt txn out c db' r,
  0 ≤ txn → chunk ≤ USIZE_MAX → Forall (λ p, 0 ≤ pf_bytes_len p) files →
  txn + sum_list pf_bytes_len (drop i files) < chunk →
  batch_loop sha256 is_alphabetic is_numeric registry org repo opts chunk bid (nth_file files) n i db wt txn out c = (db', r) →
  db' = db.
Proof.
  unfold USIZE_MAX. induction n as [|n IH]; intros i db wt txn out c db' r Ht Hch Hlen Hsum Hr; cbn [batch_loop] in Hr; [by injection Hr as <- _|].
  destruct (files !! i) as [p|] eqn:Ei.
  2:{ unfold nth_file at 1, index in Hr. rewrite Ei in Hr. cbn in Hr. by injection Hr as <- _. }
  rewrite (drop_S _ _ _ Ei) in Hsum. cbn [sum_list] in Hsum.
  pose proof (proj1 (Forall_lookup _ _) Hlen i p Ei) as Hp. cbn in Hp.
  assert (0 ≤ sum_list pf_bytes_len (drop (S i) files)) as Hrest.
  { clear -Hlen. apply (Forall_drop _ (S i)) in Hlen. induction Hlen; cbn [sum_list]; lia. }
  unfold nth_file at 1, index in Hr. rewrite Ei in Hr. cbn [unwrap mbind outcome_mbind outcome_bind] in Hr.
  destruct (commit_prepared _ _ _ _ _ _ _ _ _) as [[r1 wt1]| |]; cbn [mbind outcome_mbind outcome_bind] in Hr;
    [|by injection Hr as <- _|by injection Hr as <- _].
  rewrite as_u64_id in Hr by (unfold u64; lia).
  destruct (negb _); [eapply IH; [..|exact Hr]; (done || lia)|]. rewrite (proj2 (Z.leb_gt _ _)) in Hr by lia.
  eapply IH; [..|exact Hr]; (done || lia).
Qed.
End marks.
