(* ===== verification/Prepare.v ===== *)
(** * Preparing files

    The pure half of indexing ([prepare_file] and the fingerprint in
    [graph-store/src/common.rs]) and the ways a store prepares and indexes
    files ([graph-store/src/v2.rs], [graph-store/src/api.rs]). The check for
    stored fingerprints may read and write the open transaction, so it takes
    and returns a state. *)
From S2P Require Import Prelude Text StrOps Schema Varint Stream StreamRound Posting DictBlock Table DictRev.
From S2P Require Import Language Encoding Walk Prep Located Db Catalog Reader Write Dict Store Entities Content Ingest Prune.
From S2P Require Import Commit Marked Batch.

Definition FINGERPRINT_FORMAT_VERSION : Z := 1.
Definition MAX_SOURCE_BYTES : Z := 2 ^ 32 - 1.

Record BatchFile : Type := mkBatchFile {
  bf_path : str;
  bf_bytes : list Z;
  bf_language : option str;
  bf_origin : option str;
  bf_encoding : option Encoding;
  bf_strict_encoding : bool;
}.

(** [s.rfind(pat)] with both sides of the match. *)
Fixpoint rfind_split (pat s : str) : option (str * str) :=
  match s with
  | [] => if bool_decide (pat = []) then Some ([], []) else None
  | c :: s' =>
      match rfind_split pat s' with
      | Some (a, b) => Some (c :: a, b)
      | None => match strip_prefix pat s with Some b => Some ([], b) | None => None end
      end
  end.
Fixpoint split_once (c : Z) (s : str) : option (str * str) :=
  match s with
  | [] => None
  | x :: s => if x =? c then Some ([], s) else '(a, b) ← split_once c s; Some (x :: a, b)
  end.

Definition BAR : Z := 124.
Definition AT : Z := 64.

Definition strip_encoding_suffix (fp : str) : str :=
  match rfind_split (lit "|enc=") fp with
  | None => fp
  | Some (before, tail) =>
      match rfind_split [AT] tail with
      | None => fp
      | Some (name, version) =>
          let name := default name (strip_suffix (lit "+lossy") name) in
          let well_formed := negb (bool_decide (name = [])) && negb (existsb (λ c, (c =? BAR) || (c =? AT)) name)
            && negb (bool_decide (version = [])) && forallb is_ascii_digit version in
          if well_formed then before else fp
      end
  end.

Definition fingerprint_extractor_version (fp lang : str) : option str :=
  let fp := strip_encoding_suffix fp in
  rest ← strip_prefix (lit "sha256:") fp;
  '(_, rest) ← split_once BAR rest;
  rest ← strip_prefix (to_ascii_lowercase lang) rest;
  rest ← strip_prefix [BAR] rest;
  strip_suffix ([BAR] ++ show FINGERPRINT_FORMAT_VERSION) rest.

Definition strict_refusal (path : str) (e : Encoding) : StoreError :=
  if decide (e = UTF_8) then NotUtf8 (lit "`" ++ path ++ lit "`") else StrictEncoding path e.

(** ** Searching from the end *)

Lemma rfind_split_none c pat s : (c ∉ s) → rfind_split (c :: pat) s = None.
Proof.
  induction s as [|x s IH]; intros Hc; [done|]. apply not_elem_of_cons in Hc as [Hx Hs]. cbn [rfind_split].
  rewrite IH by done. destruct (strip_prefix (c :: pat) (x :: s)) as [b|] eqn:E; [|done].
  by apply strip_prefix_Some in E as [= -> _].
Qed.
Lemma rfind_split_last c pat a b : (c ∉ pat ++ b) → rfind_split (c :: pat) (a ++ (c :: pat) ++ b) = Some (a, b).
Proof.
  intros Hc. induction a as [|x a IH]; [|cbn [app rfind_split]; cbn [app] in IH; by rewrite IH].
  cbn [app rfind_split]. rewrite rfind_split_none by done.
  by rewrite (proj2 (strip_prefix_Some (c :: pat) (c :: pat ++ b) b)).
Qed.
Lemma rfind_split_Some pat s a b : rfind_split pat s = Some (a, b) → s = a ++ pat ++ b.
Proof.
  revert a. induction s as [|x s IH]; intros a; cbn [rfind_split].
  - case_bool_decide as Hp; [|done]. by intros [= <- <-]; subst.
  - destruct (rfind_split pat s) as [[a' b']|]; [intros [= <- <-]; by rewrite (IH a' eq_refl)|].
    destruct (strip_prefix pat (x :: s)) as [b'|] eqn:E; [|done]. intros [= <- <-]. by apply strip_prefix_Some in E.
Qed.

(** The last character that is not a digit. *)
Lemma last_nondigit (p q : str) c c' v v' :
  p ++ [c] ++ v = q ++ [c'] ++ v' → forallb is_ascii_digit v = true → forallb is_ascii_digit v' = true →
  is_ascii_digit c = false → is_ascii_digit c' = false → c = c'.
Proof.
  revert v'. induction v as [|x v IH] using rev_ind; intros v' Heq Hv Hv' Hc Hc';
    (destruct v' as [|y v' _] using rev_ind; [|rewrite forallb_app in Hv'; apply andb_true_iff in Hv' as [Hv' Hy]; cbn in Hy; rewrite andb_true_r in Hy]).
  - rewrite !app_nil_r in Heq. by apply app_inj_tail in Heq as [_ ?].
  - exfalso. rewrite app_nil_r in Heq. rewrite !app_assoc in Heq. apply app_inj_tail in Heq as [_ ->]. congruence.
  - exfalso. rewrite forallb_app in Hv. apply andb_true_iff in Hv as [_ Hx]. cbn in Hx. rewrite andb_true_r in Hx.
    rewrite app_nil_r, !app_assoc in Heq. apply app_inj_tail in Heq as [_ ->]. congruence.
  - rewrite forallb_app in Hv. apply andb_true_iff in Hv as [Hv _]. rewrite !app_assoc in Heq. apply app_inj_tail in Heq as [Heq _].
    rewrite <- !app_assoc in Heq. by apply (IH v').
Qed.

Lemma split_once_first c a b : (c ∉ a) → split_once c (a ++ [c] ++ b) = Some (a, b).
Proof.
  induction a as [|x a IH]; intros Hc; cbn [app split_once].
  - by rewrite Z.eqb_refl.
  - apply not_elem_of_cons in Hc as [Hx Ha]. rewrite (proj2 (Z.eqb_neq _ _)) by done. cbn [app] in IH. by rewrite IH.
Qed.

Section prepare.
Context (sha256 : list Z → list Z) (is_alphabetic is_numeric : Z → bool) `{EncodingRs}.

Definition fingerprint (registry : Registry) (bytes : list Z) (lang : str) (e : Encoding) (lossy : bool) : str :=
  let hash := sha256 bytes ≫= hex_byte in
  let fp := lit "sha256:" ++ hash ++ [BAR] ++ to_ascii_lowercase lang ++ [BAR] ++ version registry lang ++ [BAR] ++
            show FINGERPRINT_FORMAT_VERSION in
  if negb (bool_decide (e = UTF_8)) || lossy then
    fp ++ lit "|enc=" ++ e ++ (if lossy then lit "+lossy" else []) ++ [AT] ++ show DECODER_VERSION
  else fp.

(** A file before anything is known of it. *)
Definition raw_file (org repo : str) (f : BatchFile) (work : Prepared) : PreparedFile :=
  mkPreparedFile org repo (normalize_path (bf_path f)) [] [] (Z.of_nat (length (bf_bytes f))) (bf_origin f) work
    None None false None false None.

Definition prepare_file {St : Type} (registry : Registry) (org repo : str) (f : BatchFile) (opts : IndexOptions)
    (unchanged : str → str → str → St → result (bool * St)) (s : St) : result (PreparedFile * St) :=
  if MAX_SOURCE_BYTES <? Z.of_nat (length (bf_bytes f)) then
    Ok (raw_file org repo f (PRejected (TooLarge (lit "`" ++ bf_path f ++ lit "`"))), s) else
  let hint := match bf_encoding f with Some e => Some e | None => io_encoding opts end in
  let strict := bf_strict_encoding f || io_strict_encoding opts in
  if is_binary_with_hint (bf_bytes f) hint then
    Ok (raw_file org repo f (PRejected (Binary (lit "`" ++ bf_path f ++ lit "`"))), s) else
  let decoded := decode (bf_bytes f) hint in
  if strict && d_lossy decoded then
    Ok (raw_file org repo f (PRejected (strict_refusal (bf_path f) (d_encoding decoded))), s) else
  let src := d_text decoded in
  let path := normalize_path (bf_path f) in
  let language := match bf_language f with
    | Some l => to_ascii_lowercase l
    | None => Registry_detect_language registry path src
    end in
  let fp := fingerprint registry (bf_bytes f) language (d_encoding decoded) (d_lossy decoded) in
  let encoding := if bool_decide (d_encoding decoded = UTF_8) then None else Some (d_encoding decoded) in
  '(same, s) ← (if io_reindex opts then Ok (false, s) else unchanged path language fp s);
  '(work, warning) ← (if same : bool then Ok (PUnchanged src, None)
                      else extract_checked is_alphabetic is_numeric registry path language src);
  Ok (mkPreparedFile org repo path language fp (Z.of_nat (length (bf_bytes f))) (bf_origin f) work None
        encoding (d_lossy decoded) None false warning, s).

Definition build_v2_prep (p : PreparedFile) : PreparedFile :=
  match pf_work p with
  | PExtracted ex =>
      mkPreparedFile (pf_org p) (pf_repo p) (pf_path p) (pf_language p) (pf_fingerprint p) (pf_bytes_len p)
        (pf_origin p) (pf_work p) (Some (V2Prep_build ex)) (pf_encoding p) (pf_lossy p) (pf_hint p)
        (pf_strict_encoding p) (pf_span_warning p)
  | _ => p
  end.

(** ** Snapshots of fingerprints *)

Record FingerprintSnapshot : Type := mkFingerprintSnapshot {
  fs_org : str; fs_repo : str; fs_fps : gmap str str; fs_taken : bool }.
Definition is_for (s : FingerprintSnapshot) (org repo : str) : bool :=
  fs_taken s && bool_decide (fs_org s = org) && bool_decide (fs_repo s = repo).
Definition snapshot_matches (s : FingerprintSnapshot) (org repo path fp : str) : option bool :=
  if is_for s org repo then Some (bool_decide (fs_fps s !! path = Some fp)) else None.

(** ** The store's ways in *)
Context `{Redb tbl} `{Serde} (hook : RaftMarker → result unit).

Definition prepare (d : Db tbl) (registry : Registry) (org repo : str) (f : BatchFile) (opts : IndexOptions)
    : result PreparedFile :=
  '(p, _) ← prepare_file registry org repo f opts
    (λ path _ fp u, b ← stored_fingerprint_matches d org repo path fp; Ok (b, u)) tt;
  Ok (build_v2_prep p).

Definition fingerprint_snapshot (d : Db tbl) (org repo : str) : result FingerprintSnapshot :=
  fps ← stored_fingerprints d org repo;
  Ok (mkFingerprintSnapshot org repo fps true).

Definition prepare_with (d : Db tbl) (registry : Registry) (org repo : str) (f : BatchFile) (opts : IndexOptions)
    (known : FingerprintSnapshot) : result PreparedFile :=
  if negb (is_for known org repo) then prepare d registry org repo f opts else
  '(p, _) ← prepare_file registry org repo f opts
    (λ path _ fp u, Ok (default false (snapshot_matches known org repo path fp), u)) tt;
  Ok (build_v2_prep p).

(** The [unchanged] closure inside a write transaction. *)
Definition check_in (org repo : str) (f : BatchFile) (path lang fp : str) (wt : Db tbl) : result (bool * Db tbl) :=
  '(r, wt) ← check_unchanged wt org repo path lang fp (bf_origin f);
  Ok (bool_decide (is_Some r), wt).

Definition next_file (registry : Registry) (org repo : str) (files : list BatchFile) (opts : IndexOptions)
    (wt : Db tbl) (i : nat) : result (PreparedFile * Db tbl) :=
  f ← index files i;
  prepare_file registry org repo f opts (check_in org repo f) wt.

Definition index_batch (d : Db tbl) (registry : Registry) (chunk_bytes : Z) (org repo : str)
    (files : list BatchFile) (opts : IndexOptions) : Db tbl * result (list (result IngestStats)) :=
  let '(d, r) := commit_each_counted sha256 is_alphabetic is_numeric hook d registry org repo (length files) opts
                   chunk_bytes None (next_file registry org repo files opts) in
  (d, '(out, _) ← r; Ok out).

(** The single-file write; the second state is the result of the check in
    this transaction. *)
Definition check_keep (org repo : str) (f : BatchFile) (path lang fp : str)
    (s : Db tbl * option (IngestStats * bool)) : result (bool * (Db tbl * option (IngestStats * bool))) :=
  '(r, wt) ← check_unchanged s.1 org repo path lang fp (bf_origin f);
  Ok (bool_decide (is_Some r), (wt, r)).
Definition index_bytes_opts (d : Db tbl) (registry : Registry) (org repo path : str) (bytes : list Z)
    (language origin : option str) (opts : IndexOptions) : result (IngestStats * Db tbl) :=
  let f := mkBatchFile path bytes language origin (io_encoding opts) (io_strict_encoding opts) in
  '(p, (wt, unchanged)) ← prepare_file registry org repo f opts (check_keep org repo f) (d, None);
  match pf_work p with
  | PRejected (InvalidSpan why) =>
      Err (InvalidSpan (default why (strip_prefix (lit "`" ++ pf_path p ++ lit "`: ") why)))
  | PRejected e => Err e
  | PUnchanged _ =>
      '(stats, dirty) ← unwrap unchanged;
      Ok (stats, if dirty : bool then wt else d)
  | PExtracted ex =>
      '(stats, wt) ← ingest_prepped sha256 wt org repo (pf_path p) (pf_language p) ex (FileMeta_of p) None;
      Ok (with_warning stats (pf_span_warning p), wt)
  | PRemote _ => Panic
  end.

(** ** The shape of a prepared file *)
Implicit Types (a : gmap dkey Doc) (p q : PreparedFile).

(** What is known before the check: a refusal, or the text with its language,
    fingerprint and encoding. *)
Definition head_of (registry : Registry) (f : BatchFile) (opts : IndexOptions)
    : StoreError + (str * str * str * option Encoding * bool) :=
  if MAX_SOURCE_BYTES <? Z.of_nat (length (bf_bytes f)) then inl (TooLarge (lit "`" ++ bf_path f ++ lit "`")) else
  let hint := match bf_encoding f with Some e => Some e | None => io_encoding opts end in
  if is_binary_with_hint (bf_bytes f) hint then inl (Binary (lit "`" ++ bf_path f ++ lit "`")) else
  let decoded := decode (bf_bytes f) hint in
  if (bf_strict_encoding f || io_strict_encoding opts) && d_lossy decoded
  then inl (strict_refusal (bf_path f) (d_encoding decoded)) else
  let language := match bf_language f with
    | Some l => to_ascii_lowercase l
    | None => Registry_detect_language registry (normalize_path (bf_path f)) (d_text decoded)
    end in
  inr (d_text decoded, language,
       fingerprint registry (bf_bytes f) language (d_encoding decoded) (d_lossy decoded),
       if bool_decide (d_encoding decoded = UTF_8) then None else Some (d_encoding decoded), d_lossy decoded).

Definition full_file (org repo : str) (f : BatchFile) (lang fp : str) (enc : option Encoding) (lossy : bool)
    (ww : Prepared * option str) : PreparedFile :=
  mkPreparedFile org repo (normalize_path (bf_path f)) lang fp (Z.of_nat (length (bf_bytes f))) (bf_origin f) ww.1 None
    enc lossy None false ww.2.

Lemma prepare_file_eq {St} registry org repo f opts unchanged (s : St) :
  prepare_file registry org repo f opts unchanged s =
  match head_of registry f opts with
  | inl e => Ok (raw_file org repo f (PRejected e), s)
  | inr (src, lang, fp, enc, lossy) =>
      '(same, s) ← (if io_reindex opts then Ok (false, s) else unchanged (normalize_path (bf_path f)) lang fp s);
      ww ← (if same : bool then Ok (PUnchanged src, None)
            else extract_checked is_alphabetic is_numeric registry (normalize_path (bf_path f)) lang src);
      Ok (full_file org repo f lang fp enc lossy ww, s)
  end.
Proof.
  unfold prepare_file, head_of. destruct (MAX_SOURCE_BYTES <? _); [done|]. destruct (is_binary_with_hint _ _); [done|].
  destruct ((_ || _) && _); [done|]. cbv zeta. destruct (if io_reindex opts then _ else _) as [[same s']| |]; [|done|done].
  cbn [mbind outcome_mbind outcome_bind]. by destruct (if same then _ else _) as [[w warn]| |].
Qed.

(** Whatever the check says, the file's own work is the same. *)
Lemma full_file_work registry org repo f lang fp enc lossy src same ww :
  (if same : bool then Ok (PUnchanged src, None)
   else extract_checked is_alphabetic is_numeric registry (normalize_path (bf_path f)) lang src) = Ok ww →
  let p := full_file org repo f lang fp enc lossy ww in
  work_of is_alphabetic is_numeric registry p =
    extract_checked is_alphabetic is_numeric registry (normalize_path (bf_path f)) lang src ∧
  if same then pf_work p = PUnchanged src
  else match pf_work p with PExtracted _ | PRejected _ => True | _ => False end.
Proof.
  intros Hw p. destruct same; [by injection Hw as <-|]. pose proof (extract_checked_work _ _ _ _ _ _ _ Hw) as Hk.
  unfold work_of. cbn [p full_file pf_work pf_path pf_language pf_span_warning]. rewrite Hw. by destruct ww as [[] ?].
Qed.

Lemma build_v2_same registry opts a p :
  let b := build_v2_prep p in
  commit_doc is_alphabetic is_numeric registry opts a b = commit_doc is_alphabetic is_numeric registry opts a p ∧
  ∀ r, commit_outcome is_alphabetic is_numeric registry opts a b r ↔ commit_outcome is_alphabetic is_numeric registry opts a p r.
Proof. unfold build_v2_prep. destruct p as [? ? ? ? ? ? ? [] ? ? ? ? ? ?]; done. Qed.

Lemma build_v2_fields p : let b := build_v2_prep p in
  pf_org b = pf_org p ∧ pf_repo b = pf_repo p ∧ pf_path b = pf_path p ∧ pf_language b = pf_language p ∧ pf_fingerprint b = pf_fingerprint p ∧
  pf_work b = pf_work p ∧ pf_span_warning b = pf_span_warning p ∧ FileMeta_of b = FileMeta_of p ∧ pf_bytes_len b = pf_bytes_len p.
Proof. unfold build_v2_prep. destruct p as [? ? ? ? ? ? ? [] ? ? ? ? ? ?]; by split_and!. Qed.
Lemma build_v2_shaped registry p : pf_v2 p = None →
  shaped is_alphabetic is_numeric registry p → shaped is_alphabetic is_numeric registry (build_v2_prep p) ∧
  terms_of is_alphabetic is_numeric registry (build_v2_prep p) = terms_of is_alphabetic is_numeric registry p.
Proof.
  destruct (build_v2_fields p) as (_ & _ & Hp & Hl & _ & Hw & Hs & Hm & _). intros Hv.
  assert (work_of is_alphabetic is_numeric registry (build_v2_prep p) = work_of is_alphabetic is_numeric registry p) as Hwork
    by (unfold work_of; by rewrite Hw, Hp, Hl, Hs).
  unfold shaped, terms_of. rewrite Hwork, Hp, Hm. intros (Hn & Hme & Hok). split_and!; [done|done| |done].
  destruct (work_of is_alphabetic is_numeric registry p) as [[[|ex| |] w]| |] eqn:E; try done. destruct Hok as (? & ? & ? & _). split_and!; [done..|].
  unfold build_v2_prep. destruct (pf_work p) as [src|ex0| |] eqn:Ew; cbn [pf_v2]; try (by rewrite Hv). unfold work_of in E. rewrite Ew in E. by injection E as ->.
Qed.
Lemma build_v2_abort registry opts org repo a p :
  abort_of is_alphabetic is_numeric registry opts org repo a (build_v2_prep p) = abort_of is_alphabetic is_numeric registry opts org repo a p.
Proof. unfold build_v2_prep. destruct p as [? ? ? ? ? ? ? [] ? ? ? ? ? ?]; done. Qed.
Lemma build_v2_batch registry opts org repo l : ∀ a,
  foldl (commit_doc is_alphabetic is_numeric registry opts) a (build_v2_prep <$> l) = foldl (commit_doc is_alphabetic is_numeric registry opts) a l ∧
  first_abort is_alphabetic is_numeric registry opts org repo a (build_v2_prep <$> l) = first_abort is_alphabetic is_numeric registry opts org repo a l ∧
  ∀ rs, outcomes is_alphabetic is_numeric registry opts a (build_v2_prep <$> l) rs ↔ outcomes is_alphabetic is_numeric registry opts a l rs.
Proof.
  induction l as [|p l IH]; intros a; [done|]. destruct (build_v2_same registry opts a p) as [Hc Ho]. cbn [fmap list_fmap foldl first_abort].
  rewrite Hc, build_v2_abort. destruct (IH (commit_doc is_alphabetic is_numeric registry opts a p)) as (IHc & IHf & IHo).
  split_and!; [done|by destruct (abort_of _ _ _ _ _ _ _ p); rewrite ?IHf|]. intros [|r rs]; [done|]. cbn [outcomes]. by rewrite Ho, Hc, IHo.
Qed.

(** ** What a raw file stands for *)

(** The file with its text still to be extracted, or refused for its bytes. *)
Definition raw_prepared (registry : Registry) (org repo : str) (opts : IndexOptions) (f : BatchFile) : PreparedFile :=
  match head_of registry f opts with
  | inl e => raw_file org repo f (PRejected e)
  | inr (src, lang, fp, enc, lossy) => full_file org repo f lang fp enc lossy (PUnchanged src, None)
  end.
(** The file as it is prepared when the store holds [a]: extracted unless it is
    up to date. *)
Definition with_work p (ww : Prepared * option str) : PreparedFile :=
  mkPreparedFile (pf_org p) (pf_repo p) (pf_path p) (pf_language p) (pf_fingerprint p) (pf_bytes_len p) (pf_origin p) ww.1
    (pf_v2 p) (pf_encoding p) (pf_lossy p) (pf_hint p) (pf_strict_encoding p) ww.2.
Definition prepared_at (registry : Registry) (opts : IndexOptions) a q : PreparedFile :=
  match pf_work q with
  | PUnchanged _ =>
      if up_to_date opts a q then q
      else match work_of is_alphabetic is_numeric registry q with Ok ww => with_work q ww | _ => q end
  | _ => q
  end.

(** A caller's encoding has a name, which has no NUL. *)
Definition named (hint : option Encoding) : Prop := ∀ e, hint = Some e → nul_free e.
(** The extractor returns, and what it returns for the file fits the format. *)
Definition raw_ok (registry : Registry) (org repo : str) (opts : IndexOptions) (f : BatchFile) : Prop :=
  named (bf_encoding f) ∧ named (io_encoding opts) ∧
  match work_of is_alphabetic is_numeric registry (raw_prepared registry org repo opts f) with
  | Ok (PExtracted ex, _) => small_ex ex ∧ texts_ok ex
  | Ok _ => True
  | _ => False
  end.

(** Every encoding a text can have has a plain name. *)
Definition plain_names : list Encoding := [UTF_8; UTF_16LE; UTF_16BE; ISO_2022_JP; WINDOWS_1252] ++ DETECTABLE.
Lemma plain_named e : e ∈ plain_names → nul_free e.
Proof. intros He. assert (Forall (λ e, 0 ∉ e) plain_names) as HF by (apply (bool_decide_unpack _); by vm_compute). by rewrite Forall_forall in HF; apply HF. Qed.
Lemma sniff_named bytes e : sniff_utf16 bytes = Some e → e = UTF_16LE ∨ e = UTF_16BE.
Proof.
  assert (∀ u b h l e x, candidate bytes u b h l e = Some x → x.2 = e) as Hc.
  { intros u b h l e0 x. unfold candidate. destruct (_ || _); [done|]. destruct (decode_without_replacement _ _); [|done]. cbn. destruct (existsb _ _); by intros [= <-]. }
  unfold sniff_utf16. case_match; [done|]. cbv zeta.
  destruct (candidate bytes _ _ _ _ UTF_16LE) as [cl|] eqn:El, (candidate bytes _ _ _ _ UTF_16BE) as [cb|] eqn:Eb;
    try apply Hc in El; try apply Hc in Eb; cbn [fmap option_fmap option_map]; intros [= <-]; auto.
  destruct (_ <? _)%nat; auto.
Qed.
Lemma decode_unhinted bytes :
  nul_free (d_encoding (match sniff_utf16 bytes with
    | Some e => decode_with e bytes
    | None =>
        match (if looks_like_iso_2022_jp bytes then decode_without_replacement ISO_2022_JP bytes else None) with
        | Some text => mkDecoded text ISO_2022_JP false
        | None => match from_utf8 bytes with Some text => mkDecoded text UTF_8 false | None => decode_guess bytes end
        end
    end)).
Proof.
  assert (∀ e, d_encoding (decode_with e bytes) = e) as Hw by (intros e; unfold decode_with; by destruct (decode_without_bom_handling e bytes)).
  apply plain_named. destruct (sniff_utf16 bytes) as [e|] eqn:Es; [rewrite Hw; apply sniff_named in Es as [-> | ->]; unfold plain_names; set_solver|].
  destruct (if looks_like_iso_2022_jp bytes then _ else _); [unfold plain_names; set_solver|]. destruct (from_utf8 bytes); [unfold plain_names; set_solver|].
  unfold decode_guess. destruct (is_detectable (guess bytes)) eqn:Ed; [|rewrite Hw; unfold plain_names; set_solver].
  destruct (decode_without_replacement _ _); [|rewrite Hw; unfold plain_names; set_solver]. apply elem_of_app. right. by apply bool_decide_eq_true in Ed.
Qed.
Lemma decode_named bytes hint : named hint → nul_free (d_encoding (decode bytes hint)).
Proof.
  intros Hh. assert (∀ e, d_encoding (decode_with e bytes) = e) as Hw by (intros e; unfold decode_with; by destruct (decode_without_bom_handling e bytes)).
  unfold decode. rewrite for_bom_spec. destruct (bom_of bytes) as [[e n]|] eqn:Eb.
  { rewrite Hw. apply plain_named. unfold bom_of in Eb. repeat case_match; try done; injection Eb as <- _; unfold plain_names; set_solver. }
  destruct hint as [e|]; cbn [mbind option_bind].
  { destruct (bool_decide _); [|rewrite Hw; by apply Hh]. by apply decode_unhinted. }
  by apply decode_unhinted.
Qed.

Lemma extract_spans registry path lang src ex w :
  extract_checked is_alphabetic is_numeric registry path lang src = Ok (PExtracted ex, w) → spans_ok ex.
Proof.
  unfold extract_checked. intros Hx. apply bind_Ok in Hx as ([ex0 note] & _ & Hx).
  destruct (validate_spans_cases ex0) as [[Hs He]|[_ [m He]]]; rewrite He in Hx; [by injection Hx as <- _|].
  destruct (validate_spans_cases (mkExtraction [] (ex_tokens ex0) (ex_has_errors ex0))) as [[Hs' He']|[_ [m' He']]]; rewrite He' in Hx; [by injection Hx as <- _|done].
Qed.

Lemma head_named registry f opts src lang fp enc lossy :
  named (bf_encoding f) → named (io_encoding opts) → head_of registry f opts = inr (src, lang, fp, enc, lossy) → named enc.
Proof.
  intros Hf Ho Eh e He. unfold head_of in Eh. destruct (MAX_SOURCE_BYTES <? _); [done|]. destruct (is_binary_with_hint _ _); [done|].
  destruct ((_ || _) && _); [done|]. injection Eh as _ _ _ <- _. case_bool_decide; [done|]. injection He as <-. apply decode_named. by destruct (bf_encoding f).
Qed.
Lemma normalize_again path : normalize_path (normalize_path path) = normalize_path path.
Proof. rewrite (normalize_parts (normalize_path path)). destruct (normalize_same path) as [-> ->]. by rewrite normalize_parts. Qed.
Lemma raw_shaped registry org repo opts f :
  raw_ok registry org repo opts f → shaped is_alphabetic is_numeric registry (raw_prepared registry org repo opts f).
Proof.
  intros (Hf & Ho & Hx). unfold shaped, raw_prepared in *. destruct (head_of registry f opts) as [e|[[[[src lang] fp] enc] lossy]] eqn:Eh.
  { split_and!; [apply normalize_again|done|done]. }
  split_and!; [apply normalize_again|exact (head_named _ _ _ _ _ _ _ _ Hf Ho Eh)|].
  unfold work_of in *. cbn [full_file pf_work pf_path pf_language fst snd] in *.
  destruct (extract_checked _ _ _ _ _ _) as [[[|ex| |] w]| |] eqn:Ex; try done. destruct Hx as [Hsm Htx].
  split_and!; [done|by eapply extract_spans|done|done].
Qed.
Lemma raw_repo registry org repo opts f :
  pf_org (raw_prepared registry org repo opts f) = org ∧ pf_repo (raw_prepared registry org repo opts f) = repo.
Proof. unfold raw_prepared. by destruct (head_of registry f opts) as [e|[[[[src lang] fp] enc] lossy]]. Qed.

(** What the check for a stored fingerprint is asked, and that it answers for
    the documents [a]. *)
Definition asks_for {St} opts (unchanged : str → str → str → St → result (bool * St)) a q (s s' : St) : Prop :=
  match pf_work q with
  | PUnchanged _ =>
      (if io_reindex opts then Ok (false, s) else unchanged (pf_path q) (pf_language q) (pf_fingerprint q) s) = Ok (up_to_date opts a q, s')
  | _ => s' = s
  end.
Lemma prepare_file_at {St} registry org repo f opts unchanged a (s s' : St) :
  raw_ok registry org repo opts f → asks_for opts unchanged a (raw_prepared registry org repo opts f) s s' →
  prepare_file registry org repo f opts unchanged s = Ok (prepared_at registry opts a (raw_prepared registry org repo opts f), s').
Proof.
  intros (_ & _ & Hx) Ha. rewrite prepare_file_eq. unfold asks_for, raw_prepared, prepared_at in *.
  destruct (head_of registry f opts) as [e|[[[[src lang] fp] enc] lossy]]; [by rewrite Ha|].
  cbn [full_file pf_work pf_path pf_language pf_fingerprint fst snd] in *. rewrite Ha. cbn [mbind outcome_mbind outcome_bind].
  set (q := full_file _ _ _ _ _ _ _ _) in *. destruct (up_to_date opts a q); [done|]. unfold work_of in *. cbn [q full_file pf_work pf_path pf_language fst] in *.
  by destruct (extract_checked _ _ _ _ _ _) as [[w warn]| |].
Qed.

(** Extracting a file early makes no difference where it is not stored. *)
Lemma prepared_work registry opts a q :
  (∀ e, pf_work q ≠ PExtracted e) →
  work_of is_alphabetic is_numeric registry (prepared_at registry opts a q) = work_of is_alphabetic is_numeric registry q.
Proof.
  intros Hq. unfold prepared_at. destruct (pf_work q) as [src| | |] eqn:Ew; try done. destruct (up_to_date opts a q); [done|].
  destruct (work_of is_alphabetic is_numeric registry q) as [[w warn]| |] eqn:E; [|done|done].
  unfold work_of in E. rewrite Ew in E. pose proof (extract_checked_work _ _ _ _ _ _ _ E) as Hk. unfold work_of. by destruct w.
Qed.
Lemma raw_work registry org repo opts f e : pf_work (raw_prepared registry org repo opts f) ≠ PExtracted e.
Proof. unfold raw_prepared. by destruct (head_of registry f opts) as [|[[[[src lang] fp] enc] lossy]]. Qed.
Lemma prepared_fields registry opts a q : let p := prepared_at registry opts a q in
  pf_org p = pf_org q ∧ pf_repo p = pf_repo q ∧ pf_path p = pf_path q ∧ pf_language p = pf_language q ∧ pf_fingerprint p = pf_fingerprint q ∧
  pf_origin p = pf_origin q ∧ pf_v2 p = pf_v2 q ∧ FileMeta_of p = FileMeta_of q ∧ pf_bytes_len p = pf_bytes_len q.
Proof. unfold prepared_at. destruct (pf_work q); try done. destruct (up_to_date opts a q); [done|]. by destruct (work_of _ _ _ q). Qed.
Lemma prepared_shaped registry opts a q : (∀ e, pf_work q ≠ PExtracted e) →
  shaped is_alphabetic is_numeric registry q → shaped is_alphabetic is_numeric registry (prepared_at registry opts a q).
Proof.
  intros Hq. destruct (prepared_fields registry opts a q) as (_ & _ & Hp & _ & _ & _ & Hv & Hm & _). unfold shaped. by rewrite prepared_work, Hp, Hm, Hv.
Qed.

(** Committing a file that was prepared for the documents [a] on documents [b]
    that have the same one under its key. *)
Lemma prepared_commit registry opts org repo a b q :
  (∀ e, pf_work q ≠ PExtracted e) → b !! pf_key q = a !! pf_key q →
  let p := prepared_at registry opts a q in
  commit_doc is_alphabetic is_numeric registry opts b p = commit_doc is_alphabetic is_numeric registry opts b q ∧
  abort_of is_alphabetic is_numeric registry opts org repo b p = abort_of is_alphabetic is_numeric registry opts org repo b q ∧
  ∀ r, commit_outcome is_alphabetic is_numeric registry opts b p r ↔ commit_outcome is_alphabetic is_numeric registry opts b q r.
Proof.
  intros Hq Hab p. pose proof (prepared_work registry opts a q Hq) as Hwork. fold p in Hwork.
  destruct (prepared_fields registry opts a q) as (Ho & Hr & Hp & Hl & Hf & Hg & _ & Hm & _). fold p in Ho, Hr, Hp, Hl, Hf, Hg, Hm.
  assert (pf_key p = pf_key q) as Hk by (unfold pf_key; by rewrite Ho, Hr, Hp).
  assert (up_to_date opts b p = up_to_date opts b q) as Hu by (unfold up_to_date; by rewrite Hk, Hf).
  pose proof (up_to_date_local opts b a q Hab) as Hua.
  unfold commit_doc, abort_of, commit_outcome. rewrite Hwork, Hu, Ho, Hr, Hp, Hl, Hg, Hk, Hm, Hua.
  unfold p, prepared_at in *. destruct (pf_work q) as [src| | |] eqn:Ew; try (by rewrite Ew).
  destruct (up_to_date opts a q); [by rewrite Ew|].
  destruct (work_of is_alphabetic is_numeric registry q) as [[w warn]| |] eqn:E; [|by rewrite Ew..].
  unfold work_of in E. rewrite Ew in E. pose proof (extract_checked_work _ _ _ _ _ _ _ E) as Hkind. cbn [with_work pf_work fst] in *. by destruct w.
Qed.

(** A list of files with distinct keys, all prepared for the documents [a]. *)
Lemma prepared_batch registry opts org repo l a : ∀ b, NoDup (pf_key <$> l) → (∀ q e, q ∈ l → pf_work q ≠ PExtracted e) →
  (∀ q, q ∈ l → b !! pf_key q = a !! pf_key q) →
  let ps := prepared_at registry opts a <$> l in
  foldl (commit_doc is_alphabetic is_numeric registry opts) b ps = foldl (commit_doc is_alphabetic is_numeric registry opts) b l ∧
  first_abort is_alphabetic is_numeric registry opts org repo b ps = first_abort is_alphabetic is_numeric registry opts org repo b l ∧
  ∀ rs, outcomes is_alphabetic is_numeric registry opts b ps rs ↔ outcomes is_alphabetic is_numeric registry opts b l rs.
Proof.
  induction l as [|q l IH]; intros b Hnd Hne Hab; [done|]. cbn in Hnd. apply NoDup_cons in Hnd as [Hq Hnd].
  destruct (prepared_commit registry opts org repo a b q) as (Hc & Ha & Ho); [intros e; apply Hne; by left|apply Hab; by left|].
  cbn [fmap list_fmap foldl first_abort]. rewrite Hc, Ha.
  destruct (IH (commit_doc is_alphabetic is_numeric registry opts b q) Hnd) as (IHc & IHf & IHo).
  - intros x e Hx. apply Hne. by right.
  - intros x Hx. rewrite commit_other; [apply Hab; by right|]. intros Heq. apply Hq. rewrite <- Heq. by apply list_elem_of_fmap_2.
  - split_and!; [done|by destruct (abort_of _ _ _ _ _ _ _ q); rewrite ?IHf|]. intros [|r rs]; [done|]. cbn [outcomes]. by rewrite Ho, Hc, IHo.
Qed.

(** Two results of preparing one file. *)
Definition same_file (registry : Registry) p q : Prop :=
  work_of is_alphabetic is_numeric registry p = work_of is_alphabetic is_numeric registry q ∧
  pf_key p = pf_key q ∧ pf_language p = pf_language q ∧ pf_origin p = pf_origin q ∧
  pf_fingerprint p = pf_fingerprint q ∧ FileMeta_of p = FileMeta_of q.
(** The extractor does not refuse the text of [p]. *)
Definition not_refused (registry : Registry) p : Prop :=
  ∀ src e w, pf_work p = PUnchanged src → work_of is_alphabetic is_numeric registry p ≠ Ok (PRejected e, w).

Lemma prepared_same {St1 St2} registry org repo f opts u v (s s' : St1) (t t' : St2) p q :
  prepare_file registry org repo f opts u s = Ok (p, s') → prepare_file registry org repo f opts v t = Ok (q, t') →
  same_file registry p q ∧ (pf_work p = pf_work q ∨
    ∃ src w warn, work_of is_alphabetic is_numeric registry p = Ok (w, warn) ∧
      (pf_work p = PUnchanged src ∧ pf_work q = w ∨ pf_work q = PUnchanged src ∧ pf_work p = w)).
Proof.
  rewrite !prepare_file_eq. destruct (head_of registry f opts) as [e|[[[[src lang] fp] enc] lossy]].
  { intros [= <- _] [= <- _]. split; [done|]. by left. }
  intros Hp Hq. apply bind_Ok in Hp as ([b1 s1] & _ & Hp). apply bind_Ok in Hp as (w1 & X1 & [= <- _]).
  apply bind_Ok in Hq as ([b2 t1] & _ & Hq). apply bind_Ok in Hq as (w2 & X2 & [= <- _]).
  destruct (full_file_work _ org repo _ _ fp enc lossy _ _ _ X1) as [W1 K1], (full_file_work _ org repo _ _ fp enc lossy _ _ _ X2) as [W2 K2].
  split; [split_and!; [congruence|done..]|].
  destruct b1, b2; [left; congruence| | |left; congruence]; right.
  - destruct w2 as [w warn]. exists src, w, warn. split; [congruence|]. by left.
  - destruct w1 as [w warn]. exists src, w, warn. split; [congruence|]. by right.
Qed.

(** Committing sees no difference between them. *)
Lemma same_commit registry opts a p q :
  same_file registry p q → not_refused registry p → not_refused registry q →
  (pf_work p = pf_work q ∨ ∃ src w warn, work_of is_alphabetic is_numeric registry p = Ok (w, warn) ∧
    (pf_work p = PUnchanged src ∧ pf_work q = w ∨ pf_work q = PUnchanged src ∧ pf_work p = w)) →
  commit_doc is_alphabetic is_numeric registry opts a p = commit_doc is_alphabetic is_numeric registry opts a q ∧
  ∀ r, commit_outcome is_alphabetic is_numeric registry opts a p r ↔ commit_outcome is_alphabetic is_numeric registry opts a q r.
Proof.
  intros (Hw & Hk & Hl & Ho & Hf & Hm) Np Nq Hc.
  assert (up_to_date opts a p = up_to_date opts a q) as Hu by (unfold up_to_date; by rewrite Hk, Hf).
  unfold commit_doc, commit_outcome. rewrite Hw, Hu, Hk, Ho, Hl, Hm.
  destruct Hc as [->|(src & w & warn & Hwork & Hc)]; [done|].
  rewrite <- Hw, Hwork.
  assert (∃ ex, w = PExtracted ex) as [ex ->].
  { assert (∀ x, work_of is_alphabetic is_numeric registry x = Ok (w, warn) → pf_work x = PUnchanged src →
      not_refused registry x → ∃ ex, w = PExtracted ex) as Hx.
    { intros x Hx Hsrc Nx. pose proof (Nx src) as Hn. unfold work_of in Hx. rewrite Hsrc in Hx.
      pose proof (extract_checked_work _ _ _ _ _ _ _ Hx) as Hkind. destruct w as [|ex|e|]; try done; [by exists ex|].
      destruct (Hn e warn Hsrc). unfold work_of. by rewrite Hsrc. }
    destruct Hc as [[Hp _]|[Hq _]]; [by apply (Hx p)|apply (Hx q); by rewrite <- ?Hw]. }
  destruct Hc as [[-> ->]|[-> ->]]; done.
Qed.

(** What a store prepares is one of these, with the layout built. *)
Lemma prepare_with_file d registry org repo f opts known p :
  prepare_with d registry org repo f opts known = Ok p →
  ∃ (u : str → str → str → unit → result (bool * unit)) q,
    prepare_file registry org repo f opts u tt = Ok (q, tt) ∧ p = build_v2_prep q.
Proof.
  unfold prepare_with, prepare. intros Hp. destruct (negb _); apply bind_Ok in Hp as ([q []] & Hq & [= <-]); by eexists _, q.
Qed.


(** ** Indexing a batch *)

Abbreviation commit := (commit_doc is_alphabetic is_numeric).
Abbreviation raw_aborts := (first_abort is_alphabetic is_numeric).
Lemma next_file_step registry org repo files opts i f :
  files !! i = Some f → raw_ok registry org repo opts f →
  step_ok sha256 is_alphabetic is_numeric registry opts org repo (next_file registry org repo files opts) i (raw_prepared registry org repo opts f).
Proof.
  intros Hi Hok wt a k n R Hroom. set (q := raw_prepared registry org repo opts f) in *. pose proof (raw_shaped _ _ _ _ _ Hok) as Hsh. fold q in Hsh.
  pose proof (raw_work registry org repo opts f) as Hne. fold q in Hne. destruct (raw_repo registry org repo opts f) as [Ho Hr]. fold q in Ho, Hr.
  destruct (up_to_date_run sha256 opts wt a q R) as (un & wt1 & Hun & Hm & Hd & Hcase).
  assert (∃ wt2, asks_for opts (check_in org repo f) a q wt wt2 ∧ (wt2 = wt ∨ up_to_date opts a q = true ∧ (∃ src, pf_work q = PUnchanged src) ∧ wt2 = wt1)) as (wt2 & Hask & Hwt2).
  { unfold asks_for. destruct (pf_work q) as [src| | |] eqn:Ew; try (exists wt; by auto). exists wt1. rewrite Ho, Hr in Hun.
    assert (pf_origin q = bf_origin f) as Hor by (unfold q, raw_prepared; by destruct (head_of registry f opts) as [|[[[[? ?] ?] ?] ?]]).
    assert (bool_decide (is_Some un) = up_to_date opts a q) as Hb.
    { destruct (up_to_date opts a q); [destruct Hcase as [(s & b & -> & _) _]|destruct Hcase as [-> _]]; [by apply bool_decide_eq_true_2|].
      by apply bool_decide_eq_false_2; intros []. }
    split.
    - destruct (io_reindex opts); [injection Hun as <- <-; by rewrite <- Hb|]. unfold check_in. rewrite <- Hor, Hun. cbn. by rewrite Hb.
    - destruct (up_to_date opts a q); [right; eauto|left; by destruct Hcase as [_ ->]]. }
  unfold round, next_file, index. rewrite Hi. cbn [unwrap mbind outcome_mbind outcome_bind].
  rewrite (prepare_file_at _ _ _ _ _ _ a _ wt2 Hok Hask). cbn [mbind outcome_mbind outcome_bind]. fold q. set (p := prepared_at registry opts a q).
  assert (terms_of is_alphabetic is_numeric registry p = terms_of is_alphabetic is_numeric registry q) as Ht by (unfold terms_of, p; by rewrite prepared_work).
  pose proof (prepared_shaped registry opts a q Hne Hsh) as Hp. fold p in Hp.
  destruct Hwt2 as [->|(Eup & [src Ew] & ->)].
  - pose proof (commit_run sha256 is_alphabetic is_numeric registry opts wt a org repo p k n R Hp ltac:(by rewrite Ht)) as Hc.
    destruct (prepared_commit registry opts org repo a a q Hne eq_refl) as (Ed & Ea & Eo). fold p in Ed, Ea, Eo. rewrite Ea, Ed in Hc.
    destruct (abort_of _ _ _ _ _ _ a q); [by rewrite Hc|]. destruct Hc as (r & wt' & -> & Hr' & HR & Hn). apply Eo in Hr'. by eexists _, r, wt'.
  - rewrite Eup in Hcase. destruct Hcase as [_ R1]. set (a1 := alter _ _ a) in *.
    assert (p = q) as -> by (unfold p, prepared_at; by rewrite Ew, Eup).
    assert (a1 = commit registry opts a q) as Ha1 by (unfold a1, commit_doc; by rewrite Ew, Eup).
    pose proof (commit_run sha256 is_alphabetic is_numeric registry opts wt1 a1 org repo q k n R1 Hp) as Hc.
    assert (room_for wt1 (S k) (terms_of is_alphabetic is_numeric registry q + n)) as Hroom1 by (unfold room_for in *; by rewrite Hm, Hd).
    specialize (Hc Hroom1). pose proof (up_to_date_again is_alphabetic is_numeric registry opts a q Eup) as Eup1. rewrite <- Ha1 in Eup1.
    assert (commit registry opts a1 q = a1) as Ed by (rewrite Ha1; apply commit_again).
    assert (abort_of is_alphabetic is_numeric registry opts org repo a q = None) as Ea.
    { unfold abort_of. rewrite Ho, Hr, !bool_decide_eq_true_2, Ew, Eup by done. done. }
    assert (abort_of is_alphabetic is_numeric registry opts org repo a1 q = None) as Ea1 by (rewrite Ha1; by apply abort_again).
    rewrite Ea. rewrite Ea1, Ed in Hc. destruct Hc as (r & wt' & -> & Hr' & HR & Hn). eexists _, r, wt'. split; [done|].
    rewrite <- Ha1. split_and!; [|done|done]. unfold commit_outcome in *. rewrite Ew, Eup1 in Hr'. by rewrite Ew, Eup.
Qed.

(** C10: indexing a batch of raw files ([index_batch]) is committing them in
    order, each taken as it is when its turn comes: up to date, stored with its
    extraction, or refused. The batch completes with the outcomes and the
    documents of the files in order and no batch open; or a file that can be
    stored under no name ends it with that error, and the store holds the
    documents of some files before it. For every chunk size. The extractors
    return extractions that fit the format, and there is room for the ids. *)
Theorem index_batch_refines d a registry chunk_bytes org repo files opts :
  stores sha256 d a → Forall (raw_ok registry org repo opts) files →
  let qs := raw_prepared registry org repo opts <$> files in
  room_for d (length qs) (all_terms_of is_alphabetic is_numeric registry qs) →
  match raw_aborts registry opts org repo a qs with
  | None => ∃ d' outs, index_batch d registry chunk_bytes org repo files opts = (d', Ok outs) ∧
      outcomes is_alphabetic is_numeric registry opts a qs outs ∧
      stores sha256 d' (foldl (commit registry opts) a qs) ∧ closed d'
  | Some (i, e) => ∃ d' j, index_batch d registry chunk_bytes org repo files opts = (d', Err e) ∧ (j ≤ i)%nat ∧
      stores sha256 d' (foldl (commit registry opts) a (take j qs))
  end.
Proof.
  intros R Hok qs Hroom.
  assert (∀ j q, qs !! j = Some q → step_ok sha256 is_alphabetic is_numeric registry opts org repo (next_file registry org repo files opts) j q) as Hstep.
  { intros j q Hj. unfold qs in Hj. rewrite list_lookup_fmap in Hj. destruct (files !! j) as [f|] eqn:Ef; [|done]. injection Hj as <-.
    apply next_file_step; [done|]. by eapply Forall_lookup_1 in Hok. }
  unfold index_batch. replace (length files) with (length qs) by apply length_fmap.
  change (commit_each_counted sha256 is_alphabetic is_numeric hook d registry org repo (length qs) opts chunk_bytes None) with
    (commit_each_counted sha256 is_alphabetic is_numeric (λ _, Ok ()) d registry org repo (length qs) opts chunk_bytes None).
  destruct (raw_aborts registry opts org repo a qs) as [[i e]|] eqn:Ef.
  - destruct (batch_aborts sha256 is_alphabetic is_numeric registry opts d a chunk_bytes org repo _ qs i e R Hstep Hroom Ef) as (d' & -> & j & Hj & Hd').
    by exists d', j.
  - destruct (batch_run sha256 is_alphabetic is_numeric registry opts d a chunk_bytes org repo _ qs R Hstep Hroom Ef) as (wt & rs & c & -> & Hrs & Hwt).
    exists (clear_open_batch wt), rs. split_and!; [done|done|done|apply clear_closed].
Qed.

Lemma head_refusal registry f opts :
  match head_of registry f opts with inl (InvalidSpan _) => False | _ => True end.
Proof. unfold head_of, strict_refusal. by repeat case_match. Qed.

Lemma check_clean d org repo path lang fp origin s d' :
  check_unchanged d org repo path lang fp origin = Ok (Some (s, false), d') → d' = d.
Proof.
  unfold check_unchanged. repeat (case_match; [|done]). intros Hr. apply bind_Ok in Hr as (f & _ & Hr).
  case_decide; [|done]. injection Hr as _ Hd <-. by rewrite Hd.
Qed.

(** The single-file write reports a bad span without the path. *)
Definition bare p (e : StoreError) : StoreError :=
  match e with
  | InvalidSpan why => InvalidSpan (default why (strip_prefix (lit "`" ++ pf_path p ++ lit "`: ") why))
  | e => e
  end.

(** C13: the single-file write ([index_bytes_opts]) agrees with a batch of that
    file: where the file ends the batch it fails with that error; otherwise it
    succeeds or fails as the batch reports the file, a bad span without its
    path, and on success the documents are those after the batch; a failure
    means that the batch changes no document either. For a file whose extraction
    fits the format, with room for its ids. *)
Theorem index_bytes_agrees d a registry org repo path bytes language origin opts :
  let f := mkBatchFile path bytes language origin (io_encoding opts) (io_strict_encoding opts) in
  let q := raw_prepared registry org repo opts f in
  stores sha256 d a → raw_ok registry org repo opts f → room_for d 1 (terms_of is_alphabetic is_numeric registry q) →
  match abort_of is_alphabetic is_numeric registry opts org repo a q with
  | Some e => index_bytes_opts d registry org repo path bytes language origin opts = Err e
  | None =>
      match index_bytes_opts d registry org repo path bytes language origin opts with
      | Ok (s, d') => commit_outcome is_alphabetic is_numeric registry opts a q (Ok s) ∧ stores sha256 d' (commit registry opts a q)
      | Err e => ∃ e', commit_outcome is_alphabetic is_numeric registry opts a q (Err e') ∧ e = bare q e' ∧ commit registry opts a q = a
      | Panic => False
      end
  end.
Proof.
  intros f q R Hok Hroom. pose proof (raw_shaped _ _ _ _ _ Hok) as (Hnorm & Hme & Hw). fold q in Hnorm, Hme, Hw.
  destruct (raw_repo registry org repo opts f) as [Ho Hr]. fold q in Ho, Hr.
  destruct (up_to_date_run sha256 opts d a q R) as (un & wt & Hun & Hm & Hd & Hcase). rewrite Ho, Hr in Hun.
  assert (pf_key q = (org, repo, pf_path q)) as Hk by (unfold pf_key; by rewrite Ho, Hr).
  assert (pf_origin q = origin) as Hor by (unfold q, raw_prepared; by destruct (head_of registry f opts) as [|[[[[? ?] ?] ?] ?]]).
  assert (∃ s2, asks_for opts (check_keep org repo f) a q (d, None) s2 ∧ ((∃ src, pf_work q = PUnchanged src) → s2 = (wt, un))) as (s2 & Hask & Hs2).
  { unfold asks_for. destruct (pf_work q) as [src| | |] eqn:Ew; try (exists (d, None); split; [done|by intros []]). exists (wt, un). split; [|done].
    assert (bool_decide (is_Some un) = up_to_date opts a q) as Hb.
    { destruct (up_to_date opts a q); [destruct Hcase as [(s & b & -> & _) _]|destruct Hcase as [-> _]]; [by apply bool_decide_eq_true_2|].
      by apply bool_decide_eq_false_2; intros []. }
    destruct (io_reindex opts); [injection Hun as <- <-; by rewrite <- Hb|]. unfold check_keep. cbn [fst bf_origin f]. rewrite <- Hor, Hun. cbn. by rewrite Hb. }
  unfold index_bytes_opts. fold f. rewrite (prepare_file_at _ _ _ _ _ _ a _ s2 Hok Hask). cbn [mbind outcome_mbind outcome_bind]. fold q.
  unfold abort_of, commit_outcome, commit_doc. rewrite Ho, Hr, !bool_decide_eq_true_2 by done. cbn [negb orb].
  pose proof (raw_work registry org repo opts f) as Hne. fold q in Hne. unfold prepared_at, terms_of in *. unfold work_of in *.
  destruct (pf_work q) as [src|ex|e|b] eqn:Ew; [| by destruct (Hne ex)| |].
  - rewrite Hs2 by by eexists. destruct (up_to_date opts a q) eqn:Eup.
    { rewrite Ew. destruct Hcase as [(st & b & -> & Hst) R1]. cbn [unwrap mbind outcome_mbind outcome_bind].
      destruct (io_reindex opts); [discriminate Hun|].
      split; [by exists st|]. destruct b; [done|]. by apply check_clean in Hun as ->. }
    destruct Hcase as [-> ->]. destruct (extract_checked _ _ _ _ _ _) as [[w warn]| |] eqn:Ex; [|done|done].
    pose proof (extract_checked_work _ _ _ _ _ _ _ Ex) as Hkind. cbn [with_work pf_work fst snd] in *. destruct w as [|ex|e|]; try done.
    + destruct Hw as (Hsm & Hsp & Htx & _). pose proof (guard_unit org repo (pf_language q) ex) as Hnp.
      change (FileMeta_of (with_work q (PExtracted ex, warn))) with (FileMeta_of q). cbn [with_work pf_path pf_language pf_span_warning snd].
      destruct (ingest_guard org repo (pf_language q) ex) as [[]|e|] eqn:Hg; [|by unfold ingest_prepped; rewrite Hg|done].
      destruct (ingest_run sha256 d a org repo (pf_path q) (pf_language q) ex (FileMeta_of q) None R Hg Hsm Hsp Htx Hme) as (file & d' & -> & Hd' & _);
        [exact Hroom|done|]. cbn [mbind outcome_mbind outcome_bind]. rewrite Hnorm, <- Hk in *. split; [|exact Hd']. by eexists.
    + destruct e; (eexists; split; [reflexivity|split; reflexivity]).
  - unfold asks_for in Hask. rewrite Ew in Hask |- *. subst s2. destruct e; (eexists; split; [reflexivity|split; reflexivity]).
  - unfold q, raw_prepared in Ew. destruct (head_of registry f opts) as [|[[[[? ?] ?] ?] ?]]; discriminate Ew.
Qed.
End prepare.

(** ** The size guard *)

(** C31: the size guard counts the bytes of the file, while spans are 32-bit
    offsets into the decoded text. Of a windows-1252 file of 2^31 to 2^32 - 1
    bytes, all letters and signs from A0 to FF (which windows-1252 decodes to
    the code points of the same numbers), preparing hands a text of more than
    2^32 - 1 bytes to the extractor: no guard stands between. *)
Theorem size_guard_raw `{EncodingRs} sha256 is_alphabetic is_numeric registry org repo path bytes reindex {St} unchanged (s s' : St) :
  Forall (λ b, 0xA0 ≤ b ≤ 0xFF) bytes → decode_without_replacement WINDOWS_1252 bytes = Some bytes → bom_of bytes = None →
  2 ^ 31 ≤ Z.of_nat (length bytes) ≤ MAX_SOURCE_BYTES →
  let f := mkBatchFile path bytes None None (Some WINDOWS_1252) false in
  let opts := mkIndexOptions reindex None false in
  let lang := Registry_detect_language registry (normalize_path path) bytes in
  (∀ p l fp t, unchanged p l fp t = Ok (false, s')) →
  (∃ fp enc lossy s'', prepare_file sha256 is_alphabetic is_numeric registry org repo f opts unchanged s =
     (ww ← extract_checked is_alphabetic is_numeric registry (normalize_path path) lang bytes;
      Ok (full_file org repo f lang fp enc lossy ww, s''))) ∧
  MAX_SOURCE_BYTES < Z.of_nat (length (as_bytes bytes)).
Proof.
  intros Hhigh Hdec Hbom [Hlo Hhi] f opts lang Hun. split.
  - rewrite prepare_file_eq. assert (∃ fp enc lossy, head_of sha256 registry f opts = inr (bytes, lang, fp, enc, lossy)) as (fp & enc & lossy & ->).
    { unfold head_of. cbn [f opts bf_bytes bf_encoding bf_strict_encoding bf_language bf_path io_strict_encoding orb].
      rewrite (proj2 (Z.ltb_ge _ _)) by done.
      assert (is_binary_with_hint bytes (Some WINDOWS_1252) = false) as ->.
      { unfold is_binary_with_hint. rewrite bool_decide_eq_false_2; [done|]. intros Hz. rewrite Forall_forall in Hhigh. specialize (Hhigh 0 Hz). lia. }
      assert (decode bytes (Some WINDOWS_1252) = mkDecoded bytes WINDOWS_1252 false) as ->.
      { unfold decode. rewrite for_bom_spec, Hbom. cbn [mbind option_bind]. rewrite bool_decide_eq_false_2 by done. by apply decode_with_strict. }
      cbn [d_text d_lossy d_encoding]. by eexists _, _, _. }
    destruct reindex; [by exists fp, enc, lossy, s|]. cbn [opts io_reindex]. rewrite Hun. by exists fp, enc, lossy, s'.
  - assert (length (as_bytes bytes) = (2 * length bytes)%nat) as ->; [|unfold MAX_SOURCE_BYTES; lia].
    clear -Hhigh. induction Hhigh as [|b bytes Hb _ IH]; [done|]. unfold as_bytes in *. rewrite bind_cons, length_app, IH.
    assert (length (utf8_char b) = 2%nat) as -> by (unfold utf8_char; repeat case_match; bool_prop; try lia; done). cbn. lia.
Qed.

(** In the sample decoder windows-1252 is Latin-1. *)
Lemma size_guard_raw_witness :
  let bytes := replicate (Z.to_nat (2 ^ 31)) 0xE9 in
  MAX_SOURCE_BYTES < Z.of_nat (length (as_bytes bytes)) ∧ Z.of_nat (length bytes) ≤ MAX_SOURCE_BYTES.
Proof.
  assert (2 ^ 31 ≤ Z.of_nat (length (replicate (Z.to_nat (2 ^ 31)) 0xE9)) ≤ MAX_SOURCE_BYTES) as Hl.
  { rewrite length_replicate. unfold MAX_SOURCE_BYTES. rewrite Z2Nat.id by lia. lia. }
  split; [|apply Hl].
  apply (size_guard_raw (H:=sample_rs) (λ _, []) (λ _, false) (λ _, false) Registry_default [] [] [] (replicate (Z.to_nat (2 ^ 31)) 0xE9) false
    (λ _ _ _ u, Ok (false, u)) () ()).
  - apply Forall_replicate. lia.
  - exact eq_refl.
  - destruct (Z.to_nat (2 ^ 31)) as [|[|m]]; exact eq_refl.
  - exact Hl.
  - intros _ _ _ []. exact eq_refl.
Defined.

(** ** Reading a fingerprint back *)
Section fingerprint.
Context (sha256 : list Z → list Z).
Hypothesis sha256_bytes : ∀ b, Forall u8 (sha256 b).

(** WHATWG names are like this. *)
Definition encoding_name (e : Encoding) : Prop :=
  e ≠ [] ∧ e ≠ lit "+lossy" ∧ Forall (λ c, c ≠ BAR ∧ c ≠ AT) e.
#[global] Instance encoding_name_dec e : Decision (encoding_name e).
Proof. unfold encoding_name. apply _. Defined.

Lemma hex_no_bar b : BAR ∉ (sha256 b ≫= hex_byte).
Proof.
  pose proof (sha256_bytes b) as Hb. intros (x & Hx & Hin)%list_elem_of_bind. rewrite Forall_forall in Hb. specialize (Hb x Hin).
  unfold hex_byte, hex_digit, BAR, u8 in *. pose proof (Z.div_mod x 16 ltac:(lia)). pose proof (Z.mod_pos_bound x 16 ltac:(lia)).
  set_unfold in Hx. destruct (x / 16 <? 10) eqn:E1, (x mod 16 <? 10) eqn:E2; bool_prop; lia.
Qed.

(** The part before the encoding suffix. *)
Definition fp_base (registry : Registry) (bytes : list Z) (lang : str) : str :=
  lit "sha256:" ++ (sha256 bytes ≫= hex_byte) ++ [BAR] ++ to_ascii_lowercase lang ++ [BAR] ++ version registry lang ++ [BAR] ++
  show FINGERPRINT_FORMAT_VERSION.

Lemma strip_base registry bytes lang : strip_encoding_suffix (fp_base registry bytes lang) = fp_base registry bytes lang.
Proof.
  unfold strip_encoding_suffix. destruct (rfind_split _ (fp_base registry bytes lang)) as [[before tail]|] eqn:E1; [|done].
  destruct (rfind_split [AT] tail) as [[name v]|] eqn:E2; [|done]. apply rfind_split_Some in E1, E2. subst tail.
  destruct (_ && forallb is_ascii_digit v) eqn:E3; [|done]. exfalso. apply andb_true_iff in E3 as [_ Hv].
  unfold fp_base in E1. rewrite !app_assoc, <- (app_assoc _ [BAR] (show _)) in E1.
  rewrite <- (app_assoc _ [AT] v) in E1. apply last_nondigit in E1; done.
Qed.
Lemma strip_suffixed base e (lossy : bool) :
  encoding_name e →
  strip_encoding_suffix (base ++ lit "|enc=" ++ e ++ (if lossy then lit "+lossy" else []) ++ [AT] ++ show DECODER_VERSION) = base.
Proof.
  intros (Hne & Hnl & He). unfold strip_encoding_suffix. change (lit "|enc=") with (BAR :: lit "enc="). rewrite rfind_split_last.
  2:{ rewrite !elem_of_app. intros [Hx|[Hx|[Hx|Hx]]].
      - by apply (bool_decide_unpack (BAR ∉ lit "enc=")) in Hx.
      - rewrite Forall_forall in He. by destruct (He _ Hx).
      - destruct lossy; [by apply (bool_decide_unpack (BAR ∉ lit "+lossy")) in Hx|by apply elem_of_nil in Hx].
      - rewrite <-elem_of_app in Hx. by apply (bool_decide_unpack (BAR ∉ [AT] ++ show DECODER_VERSION)) in Hx. }
  rewrite app_assoc. change ([AT] ++ show DECODER_VERSION) with ((AT :: []) ++ show DECODER_VERSION). rewrite rfind_split_last by (by apply (bool_decide_unpack _)).
  set (name := e ++ _). assert (∃ n, default name (strip_suffix (lit "+lossy") name) = n ∧ n ≠ [] ∧ Forall (λ c, c ≠ BAR ∧ c ≠ AT) n) as (n & -> & Hn & Hok).
  { unfold name. destruct lossy; [exists e; by rewrite (proj2 (strip_suffix_Some _ _ e))|]. rewrite app_nil_r.
    destruct (strip_suffix (lit "+lossy") e) as [n|] eqn:E; [|by exists e]. apply strip_suffix_Some in E. exists n.
    split_and!; [done| |]; [intros ->; by rewrite E in Hnl|]. rewrite E in He. by apply Forall_app in He as [? _]. }
  assert (existsb (λ c, (c =? BAR) || (c =? AT)) n = false) as ->.
  { apply not_true_is_false. intros (c & Hc & Hx)%existsb_exists. rewrite Forall_forall in Hok. apply list_elem_of_In, Hok in Hc.
    apply orb_true_iff in Hx. rewrite !Z.eqb_eq in Hx. tauto. }
  by rewrite bool_decide_eq_false_2.
Qed.

(** The extractor version reads back from a fingerprint, whatever bars
    the language or the version hold, with and without an encoding suffix. *)
Theorem fingerprint_version_roundtrip registry bytes lang e lossy :
  encoding_name e →
  fingerprint_extractor_version (fingerprint sha256 registry bytes lang e lossy) lang = Some (version registry lang).
Proof.
  intros He. assert (strip_encoding_suffix (fingerprint sha256 registry bytes lang e lossy) = fp_base registry bytes lang) as Hs.
  { unfold fingerprint. fold (fp_base registry bytes lang). destruct (negb _ || lossy); [by apply strip_suffixed|apply strip_base]. }
  unfold fingerprint_extractor_version. rewrite Hs. unfold fp_base.
  rewrite (proj2 (strip_prefix_Some (lit "sha256:") _ _) eq_refl). cbn [mbind option_bind].
  rewrite split_once_first by apply hex_no_bar. cbn [mbind option_bind].
  rewrite (proj2 (strip_prefix_Some (to_ascii_lowercase lang) _ _) eq_refl). cbn [mbind option_bind].
  rewrite (proj2 (strip_prefix_Some [BAR] _ _) eq_refl). cbn [mbind option_bind].
  by apply strip_suffix_Some.
Qed.
End fingerprint.

