(* ===== verification/Refine.v ===== *)
(** * What the writes promise

    The writes of [V2Store] ([graph-store/src/v2.rs]) against a specification
    in which a store is a map from (org, repo, path) to documents: every write
    is an update of that map, and the tables stay a representation of it. *)
From S2P Require Import Prelude Text StrOps Schema Varint Stream StreamRound Posting DictBlock Table DictRev.
From S2P Require Import Language Walk Prep Located Db Catalog Reader Write Dict Store Entities Content Ingest Prune.
From S2P Require Import Vacuum Commit Marked Batch Encoding Prepare.

Section writes.
Context `{Redb tbl} `{Serde} (sha256 : list Z → list Z).
Implicit Types (d : Db tbl) (a : gmap dkey Doc).

(** C2: storing an extraction ([ingest_file_with_origin]) has exactly these
    outcomes on a store of the documents [a], and never panics: the store of
    [a] with the file's document put in or replaced, all tables in step; an
    invalid span, when the spans do not nest; a rejection, when a name is empty
    or has a NUL; or an exhausted id space, when fewer than three entity ids
    are left. *)
Theorem ingest_refines d a org repo path language ex origin :
  stores sha256 d a → small_ex ex → texts_ok ex → term_room d ex →
  let k := (org, repo, normalize_path path) in
  match ingest_file_with_origin sha256 d org repo path language ex origin with
  | Ok (stats, d') =>
      names_ok org repo language ex ∧ spans_ok ex ∧
      stores sha256 d' (<[k := new_doc language (FileMeta_extracted origin) ex]> a) ∧
      is_replaced stats = bool_decide (is_Some (a !! k)) ∧ is_unchanged stats = false ∧
      is_symbols stats = length (ex_symbols ex) ∧ is_tokens stats = length (ex_tokens ex)
  | Err (InvalidSpan _) => ¬ spans_ok ex
  | Err (Rejected _) => spans_ok ex ∧ ¬ names_ok org repo language ex
  | Err e => e = exhausted ∧ ¬ id_room d
  | Panic => False
  end.
Proof.
  intros R Hsm Htx Hroom k. unfold ingest_file_with_origin.
  destruct (validate_spans_cases ex) as [[Hsp ->]|[Hsp [m ->]]]; [|done]. cbn [mbind outcome_mbind outcome_bind].
  unfold ingest_validated. destruct (ingest_guard_cases org repo language ex) as [[Hg Hok]|[[m Hg] Hok]].
  - destruct (ingest_total sha256 d a org repo path language ex (FileMeta_extracted origin) None R Hg Hsm Hsp Htx (extracted_ok origin) Hroom eq_refl)
      as [[-> Hid]|(file & d' & -> & Hd' & _)]; [done|]. by split_and!.
  - unfold ingest_prepped. by rewrite Hg.
Qed.

(** C14: pruning a repository removes exactly its documents that came from a
    directory and are not kept, whatever else is stored; it cannot fail, the
    removed paths are reported in order, and a dry run reports the same paths
    and changes nothing. *)
Theorem prune_refines d a org repo keep :
  stores sha256 d a →
  ∃ removed d', prune_files d org repo keep false = Ok (removed, d') ∧
    prune_files d org repo keep true = Ok (removed, d) ∧
    stores sha256 d' (filter (λ kv, ¬ pruned org repo keep kv.1 kv.2) a) ∧
    StronglySorted str_lt removed ∧
    ∀ p, p ∈ removed ↔ ∃ v, a !! (org, repo, p) = Some v ∧ pruned org repo keep (org, repo, p) v.
Proof. apply prune_run. Qed.

(** C25: vacuuming keeps every document, succeeds, and leaves in the
    dictionary exactly the terms that a stored file uses, under the same ids;
    the counts it reports are those of the dictionary before and after.
    Without a SHA-256 collision, as the code notes. *)
Theorem vacuum_refines d a :
  (∀ b, Forall u8 (sha256 b)) → stores sha256 d a → no_collisions sha256 d →
  ∃ stats d', vacuum sha256 d = Ok (stats, d') ∧ stores sha256 d' a ∧
    tbl_len (db_dict d) = Z.of_nat (vs_terms_removed stats + vs_terms_kept stats) ∧
    tbl_len (db_dict d') = Z.of_nat (vs_terms_kept stats) ∧
    ∀ t id, lookup_term sha256 d' t = Ok (Some id) ↔ lookup_term sha256 d t = Ok (Some id) ∧ term_live d id.
Proof. intros Hb. by apply vacuum_run. Qed.

(** The three ways to ask whether a file is stored with a fingerprint
    agree on every store: the single check and the scan of a repository that
    preparing uses, and the check inside the write transaction. *)
Theorem unchanged_checks_agree d a org repo path lang fp origin :
  stores sha256 d a →
  ∃ b m r d', stored_fingerprint_matches d org repo path fp = Ok b ∧
    stored_fingerprints d org repo = Ok m ∧
    check_unchanged d org repo path lang fp origin = Ok (r, d') ∧
    (b = true ↔ m !! path = Some fp) ∧ (b = true ↔ is_Some r) ∧
    (b = true ↔ ∃ v, a !! (org, repo, path) = Some v ∧ fm_fingerprint (doc_meta v) = Some fp) ∧
    stores sha256 d' (if b then alter (λ v, re_origin v origin) (org, repo, path) a else a).
Proof.
  intros R. destruct (fingerprint_matches_run sha256 d a org repo path fp R) as (b & Hb & Hbfp).
  destruct (fingerprints_run sha256 d a org repo R) as (m & Hm & Hmfp).
  pose proof (check_unchanged_run sha256 d a org repo path lang fp origin R) as Hc.
  assert (has_fp a (org, repo, path) fp ↔ ∃ v, a !! (org, repo, path) = Some v ∧ fm_fingerprint (doc_meta v) = Some fp) as Hfp.
  { unfold has_fp, doc_fp. by rewrite bind_Some. }
  destruct (a !! (org, repo, path)) as [v|] eqn:Ea; [case_decide as Hv|].
  - destruct Hc as (file & d' & Hc & Hd' & _). eexists b, m, _, d'. split_and!; [done..|by rewrite Hmfp|naive_solver|naive_solver|].
    assert (b = true) as -> by naive_solver.
    by rewrite (alter_as_insert _ a _ v Ea).
  - assert (b = false) as -> by (destruct b; [|done]; by destruct (proj1 Hfp (proj1 Hbfp eq_refl)) as (? & [= <-] & ?)). eexists false, m, None, d.
    rewrite Hmfp. split_and!; [done..| | |done]; naive_solver.
  - assert (b = false) as -> by (destruct b; [|done]; by destruct (proj1 Hfp (proj1 Hbfp eq_refl)) as (? & [= <-] & ?)). eexists false, m, None, d.
    rewrite Hmfp. split_and!; [done..| | |done]; naive_solver.
Qed.
End writes.

(** ** Batches *)
Section batches.
Context `{Redb tbl} `{Serde} (sha256 : list Z → list Z) (is_alphabetic is_numeric : Z → bool).
Context (registry : Registry) (opts : IndexOptions).
Implicit Types (d : Db tbl) (a : gmap dkey Doc).

(** A prepared file whose names are not yet checked. *)
Definition well_prepared d (p : PreparedFile) : Prop :=
  meta_ok (FileMeta_of p) ∧
  match work_of is_alphabetic is_numeric registry p with
  | Ok (PExtracted ex, _) => small_ex ex ∧ spans_ok ex ∧ texts_ok ex ∧ term_room d ex ∧
      default (V2Prep_build ex) (pf_v2 p) = V2Prep_build ex
  | Ok _ => True
  | _ => False
  end.

Lemma store_errors d a org repo p ex w :
  stores sha256 d a → well_prepared d p → work_of is_alphabetic is_numeric registry p = Ok (PExtracted ex, w) →
  match ingest_prepped sha256 d org repo (pf_path p) (pf_language p) ex (FileMeta_of p) (pf_v2 p) with
  | Ok _ => names_ok org repo (pf_language p) ex
  | Err (Rejected _) => ¬ names_ok org repo (pf_language p) ex
  | Err e => e = exhausted ∧ ¬ id_room d
  | Panic => False
  end.
Proof.
  intros R [Hme Hp] Hw. rewrite Hw in Hp. destruct Hp as (Hsm & Hsp & Htx & Hroom & Hv2).
  destruct (ingest_guard_cases org repo (pf_language p) ex) as [[Hg Hok]|[[m Hg] Hok]].
  - by destruct (ingest_total sha256 d a org repo (pf_path p) (pf_language p) ex (FileMeta_of p) (pf_v2 p) R Hg Hsm Hsp Htx Hme Hroom Hv2)
      as [[-> Hid]|(file & d' & -> & _)].
  - unfold ingest_prepped. by rewrite Hg.
Qed.

(** C12: what aborts a batch at one file ([commit_prepared] fails): the file
    was prepared for another repository, a name of it is empty or has a NUL
    (unless the file is stored already), or the ids are exhausted. A file that
    is refused by the extractor, by the decoder or as remote aborts nothing. *)
Theorem commit_errors d a org repo p :
  stores sha256 d a → well_prepared d p →
  let bad_names := up_to_date opts a p = false ∧
    ∃ ex w, work_of is_alphabetic is_numeric registry p = Ok (PExtracted ex, w) ∧ ¬ names_ok org repo (pf_language p) ex in
  match commit_prepared sha256 is_alphabetic is_numeric d registry org repo p opts with
  | Ok _ => pf_org p = org ∧ pf_repo p = repo ∧ ¬ bad_names
  | Err (Rejected _) => pf_org p ≠ org ∨ pf_repo p ≠ repo ∨ bad_names
  | Err e => e = exhausted ∧ ¬ id_room d
  | Panic => False
  end.
Proof.
  intros R Hp bad. unfold commit_prepared.
  destruct (decide (pf_org p = org)) as [Ho|Ho]; [|rewrite bool_decide_eq_false_2 by done; by left].
  destruct (decide (pf_repo p = repo)) as [Hr|Hr]; [|rewrite bool_decide_eq_true_2, bool_decide_eq_false_2 by done; by right; left].
  rewrite !bool_decide_eq_true_2 by done. cbn [negb orb]. subst org repo.
  destruct (up_to_date_run sha256 opts d a p R) as (un & d1 & Hun & _ & _ & Hcase).
  pose proof (λ ex w, store_errors d a (pf_org p) (pf_repo p) p ex w R Hp) as Hstore. destruct Hp as [_ Hp].
  assert (∀ r, work_of is_alphabetic is_numeric registry p = Ok r → (∀ ex w, r ≠ (PExtracted ex, w)) → ¬ bad) as Hnot.
  { intros r Hr Hne (_ & ex & w & Hw & _). rewrite Hr in Hw. by injection Hw as ->; eapply Hne. }
  assert (∀ ex w, work_of is_alphabetic is_numeric registry p = Ok (PExtracted ex, w) → names_ok (pf_org p) (pf_repo p) (pf_language p) ex → ¬ bad) as Hnames.
  { intros ex w Hw Hok (_ & ex' & w' & Hw' & Hbad). rewrite Hw in Hw'. by injection Hw' as <- <-. }
  unfold work_of in Hstore, Hnot, Hnames, Hp. unfold bad, work_of in *.
  destruct (pf_work p) as [src|ex|e|b] eqn:Ew; [| |split_and!; [done..|by eapply Hnot]|split_and!; [done..|by eapply Hnot]];
    rewrite Hun; cbn [mbind outcome_mbind outcome_bind]; destruct (up_to_date opts a p);
    try (destruct Hcase as [(s & b & -> & _) _]; split_and!; [done..|by intros [? _]]); destruct Hcase as [-> ->].
  - destruct (extract_checked _ _ _ _ _ _) as [[w warn]| |] eqn:Ex; [|done|done]. cbn [mbind outcome_mbind outcome_bind].
    pose proof (extract_checked_work _ _ _ _ _ _ _ Ex) as Hk. destruct w as [|ex|e|]; try done; [|split_and!; [done..|by eapply Hnot]].
    specialize (Hstore ex warn eq_refl). destruct (ingest_prepped _ _ _ _ _ _ _ _ _) as [[stats d']|e|]; [|by destruct e; naive_solver|done].
    split_and!; [done..|by eapply Hnames].
  - specialize (Hstore ex _ eq_refl). cbn [mbind outcome_mbind outcome_bind].
    destruct (ingest_prepped _ _ _ _ _ _ _ _ _) as [[stats d']|e|]; [|by destruct e; naive_solver|done].
    split_and!; [done..|by eapply Hnames].
Qed.

Lemma nth_files_step files org repo : Forall (shaped is_alphabetic is_numeric registry) files →
  ∀ j q, files !! j = Some q → step_ok sha256 is_alphabetic is_numeric registry opts org repo (nth_file files) j q.
Proof. intros Hsh j q Hj. apply nth_file_step; [done|]. by eapply Forall_lookup_1 in Hsh. Qed.

Lemma interrupted_run hook d org repo n chunk_bytes marker next :
  (∀ wt i p wt', next wt i = Ok (p, wt') → keeps wt wt') →
  let bid := default 0 (tbl_get (db_meta d) (lit "next_batch_id")) in
  match commit_each_counted sha256 is_alphabetic is_numeric hook d registry org repo n opts chunk_bytes marker next with
  | (d', Ok _) => closed d'
  | (d', _) => d' = d ∨ open_for d' bid org repo
  end.
Proof.
  intros Hnext bid. unfold commit_each_counted.
  destruct (match marker with Some (m, membership) => stamp_marker d m membership | None => Ok d end) as [wt| |] eqn:Es;
    [|by left|by left].
  assert (default 0 (tbl_get (db_meta wt) (lit "next_batch_id")) = bid) as Hbid.
  { destruct marker as [[m mem]|]; [|by injection Es as <-]. unfold stamp_marker in Es.
    apply bind_Ok in Es as (u & _ & [= <-]). by destruct mem. }
  unfold next_batch_id. rewrite Hbid.
  destruct (batch_loop _ _ _ _ _ _ _ _ _ _ _ _ _ _ _ _) as [db r] eqn:Eb.
  apply (batch_loop_open _ _ _ _ _ _ _ _ _ _ _ Hnext _ d) in Eb; [|apply mark_open|by left].
  destruct r as [[[wt' out] c]| |]; [|done|done]. destruct (match marker with Some (m, _) => hook m | None => Ok () end); [|done|done].
  apply clear_closed.
Qed.

(** C9: whatever fails, a batch does not leave half its files behind
    unnoticed: the store is the one before the batch, or every committed part
    carries the marker of this batch with its org and repo; a batch that
    completes leaves no marker. For every source of files, chunk size, marker
    and hook. *)
Theorem batch_interrupted hook d org repo n chunk_bytes marker next :
  (∀ wt i p wt', next wt i = Ok (p, wt') → keeps wt wt') →
  let bid := default 0 (tbl_get (db_meta d) (lit "next_batch_id")) in
  match commit_each_counted sha256 is_alphabetic is_numeric hook d registry org repo n opts chunk_bytes marker next with
  | (d', Ok _) => closed d'
  | (d', _) => d' = d ∨ open_for d' bid org repo
  end.
Proof. apply interrupted_run. Qed.

(** C8: a batch of prepared files applies them one after the other. Either it
    completes: each file has its own outcome (stored, up to date, or refused,
    which stops nothing), and the store ends with the documents of the files in
    order and no batch open. Or one of the files ends it, prepared for another
    repository or with a name that is empty or has a NUL: the batch fails with
    the error of the first such file, and the store holds the documents of some
    files before it and is the one before the batch or marked as its open
    batch. How the batch is cut into transactions ([chunk_bytes]) changes only
    how many files that is. For files as preparing makes them, with room for
    their ids. *)
Theorem batch_refines d a chunk_bytes org repo files :
  stores sha256 d a → Forall (shaped is_alphabetic is_numeric registry) files →
  room_for d (length files) (all_terms_of is_alphabetic is_numeric registry files) →
  let bid := default 0 (tbl_get (db_meta d) (lit "next_batch_id")) in
  let run := index_prepared_counted sha256 is_alphabetic is_numeric (λ _, Ok ()) d registry chunk_bytes org repo files opts in
  match first_abort is_alphabetic is_numeric registry opts org repo a files with
  | None => ∃ d' outs commits, run = (d', Ok (outs, commits)) ∧
      outcomes is_alphabetic is_numeric registry opts a files outs ∧
      stores sha256 d' (foldl (commit_doc is_alphabetic is_numeric registry opts) a files) ∧ closed d'
  | Some (i, e) => ∃ d' j, run = (d', Err e) ∧ (j ≤ i)%nat ∧
      stores sha256 d' (foldl (commit_doc is_alphabetic is_numeric registry opts) a (take j files)) ∧
      (d' = d ∨ open_for d' bid org repo)
  end.
Proof.
  intros R Hsh Hroom bid run. pose proof (nth_files_step files org repo Hsh) as Hstep.
  destruct (first_abort _ _ _ _ _ _ _ files) as [[i e]|] eqn:Ef.
  - destruct (batch_aborts sha256 is_alphabetic is_numeric registry opts d a chunk_bytes org repo _ files i e R Hstep Hroom Ef) as (d' & Hr & j & Hj & Hd').
    exists d', j. split_and!; [exact Hr|done|done|].
    pose proof (interrupted_run (λ _, Ok ()) d org repo (length files) chunk_bytes None (nth_file files) (nth_file_keeps files)) as Hi. by rewrite Hr in Hi.
  - destruct (batch_run sha256 is_alphabetic is_numeric registry opts d a chunk_bytes org repo _ files R Hstep Hroom Ef) as (wt & rs & c & Hr & Hrs & Hwt).
    eexists _, _, _. split; [exact Hr|]. split_and!; [done|done|apply clear_closed].
Qed.

(** A source of files that fails at one of them: a crash or a storage error
    there. *)
Definition stopping (i : nat) (e : StoreError) (next : Db tbl → nat → result (PreparedFile * Db tbl)) (wt : Db tbl) (k : nat)
    : result (PreparedFile * Db tbl) := if (k =? i)%nat then Err e else next wt k.

Lemma stopped_run d a chunk_bytes org repo files i e :
  stores sha256 d a → Forall (shaped is_alphabetic is_numeric registry) files →
  first_abort is_alphabetic is_numeric registry opts org repo a files = None → (i < length files)%nat →
  room_for d (2 * length files) (2 * all_terms_of is_alphabetic is_numeric registry files) →
  ∃ d1 j, commit_each_counted sha256 is_alphabetic is_numeric (λ _, Ok ()) d registry org repo (length files) opts chunk_bytes None
      (stopping i e (nth_file files)) = (d1, Err e) ∧ (j ≤ i)%nat ∧
    stores sha256 d1 (foldl (commit_doc is_alphabetic is_numeric registry opts) a (take j files)) ∧
    room_for d1 (length files) (all_terms_of is_alphabetic is_numeric registry files).
Proof.
  intros R Hsh Hno Hi Hroom. set (l := take i files). assert (length l = i) as Hl by (apply length_take_le; lia).
  assert (all_terms_of is_alphabetic is_numeric registry l ≤ all_terms_of is_alphabetic is_numeric registry files)%nat as Ht.
  { rewrite <- (take_drop i files). unfold all_terms_of. rewrite sum_list_with_app. unfold l. lia. }
  destruct (batch_stops sha256 is_alphabetic is_numeric registry opts d a chunk_bytes org repo (stopping i e (nth_file files)) l (length files - S i)
    (length files) (all_terms_of is_alphabetic is_numeric registry files) e R) as (d1 & Hr & Hd1).
  - intros j q Hj. assert (j < i)%nat as Hji by (apply lookup_lt_Some in Hj; lia). unfold l in Hj. rewrite lookup_take_lt in Hj by done.
    pose proof (nth_files_step files org repo Hsh j q Hj) as Hs. unfold step_ok, round, stopping in *. rewrite (proj2 (Nat.eqb_neq j i)) by lia. exact Hs.
  - unfold room_for in *. lia.
  - rewrite <- (take_drop i files), first_abort_app in Hno. unfold l. by destruct (first_abort _ _ _ _ _ _ _ (take i files)).
  - intros wt _ _. unfold round, stopping. by rewrite Hl, Nat.eqb_refl.
  - replace (length l + S (length files - S i))%nat with (length files) in Hr by lia. exists d1. destruct Hd1 as [->|(j & Hj & Hrm)].
    + exists 0%nat. split_and!; [done|lia|done|]. unfold room_for in *. lia.
    + exists (j `min` i)%nat. split_and!; [done|lia| |done]. unfold l in Hj. by rewrite take_take in Hj.
Qed.

(** C11: a batch that stopped on the way can be run again from the start. Let
    a batch of distinct files, none of which ends a batch, stop at any of them
    with any error: the store then holds the documents of some files before it;
    the whole batch, run again on that store with any chunk size, completes with
    the documents an uninterrupted run gives and no batch open, and without a
    forced reindex it skips the files that were there. For files as preparing
    makes them, with room for their ids twice. *)
Theorem batch_resume d a chunk_bytes chunk_bytes' org repo files i e :
  stores sha256 d a → Forall (shaped is_alphabetic is_numeric registry) files → NoDup (pf_key <$> files) →
  first_abort is_alphabetic is_numeric registry opts org repo a files = None → (i < length files)%nat →
  room_for d (2 * length files) (2 * all_terms_of is_alphabetic is_numeric registry files) →
  ∃ d1 j, commit_each_counted sha256 is_alphabetic is_numeric (λ _, Ok ()) d registry org repo (length files) opts chunk_bytes None
      (stopping i e (nth_file files)) = (d1, Err e) ∧ (j ≤ i)%nat ∧
    stores sha256 d1 (foldl (commit_doc is_alphabetic is_numeric registry opts) a (take j files)) ∧
    ∃ d2 outs commits,
      index_prepared_counted sha256 is_alphabetic is_numeric (λ _, Ok ()) d1 registry chunk_bytes' org repo files opts = (d2, Ok (outs, commits)) ∧
      stores sha256 d2 (foldl (commit_doc is_alphabetic is_numeric registry opts) a files) ∧ closed d2 ∧
      (io_reindex opts = false → Forall skipped (take j outs)).
Proof.
  intros R Hsh Hnd Hno Hi Hroom. destruct (stopped_run d a chunk_bytes org repo files i e R Hsh Hno Hi Hroom) as (d1 & j & Hr & Hj & Hd1 & Hroom1).
  exists d1, j. split_and!; [done|done|done|].
  pose proof (first_again is_alphabetic is_numeric registry opts org repo files j a Hnd Hno) as Hno1.
  destruct (batch_run sha256 is_alphabetic is_numeric registry opts d1 _ chunk_bytes' org repo _ files Hd1 (nth_files_step files org repo Hsh) Hroom1 Hno1)
    as (wt & rs & c & Hrun & Hrs & Hwt).
  eexists _, _, _. split; [exact Hrun|]. rewrite <- (take_drop j files) in Hnd.
  assert (foldl (commit_doc is_alphabetic is_numeric registry opts) (foldl (commit_doc is_alphabetic is_numeric registry opts) a (take j files)) files =
    foldl (commit_doc is_alphabetic is_numeric registry opts) a files) as Heq.
  { rewrite <- (take_drop j files) at 2 3. by apply commits_resume. }
  rewrite Heq in Hwt. split_and!; [done|apply clear_closed|]. intros Hre.
  pose proof (outcomes_app is_alphabetic is_numeric registry opts (take j files) (drop j files)) as Ho. rewrite take_drop in Ho.
  specialize (Ho _ _ Hrs). rewrite length_take_le in Ho by lia. eapply outcomes_settled; [|exact Ho]. intros p Hp. apply commits_settled; [done| |done].
  rewrite fmap_app in Hnd. by apply NoDup_app in Hnd as (? & _).
Qed.

Lemma marked_run hook d org repo files marker membership :
  Forall (λ p, 0 ≤ pf_bytes_len p) files → sum_list pf_bytes_len files < USIZE_MAX → marker_ok marker →
  match index_prepared_marked sha256 is_alphabetic is_numeric hook d registry org repo files opts marker membership with
  | (d', Ok _) => raft_marker d' = Ok (Some marker) ∧ closed d'
  | (d', _) => d' = d
  end.
Proof.
  intros Hlen Hsum Hm. unfold index_prepared_marked, commit_each_counted.
  destruct (stamp_marker d marker membership) as [wt| |] eqn:Es; [|done|done]. unfold next_batch_id.
  set (wt1 := mark_open_batch _ org repo _).
  destruct (batch_loop _ _ _ _ _ _ _ _ _ _ _ _ _ _ _ _) as [db r] eqn:Eb. pose proof Eb as Ek.
  apply (batch_loop_keeps _ _ _ _ _ _ _ _ _ _ _ (nth_file_keeps files) _ d) in Ek as [_ Hk]; [|by left].
  apply batch_loop_whole in Eb as ->; [|done|done|done|by rewrite drop_0].
  destruct r as [[[wt2 out] c]| |]; [|done|done]. destruct (hook marker); [|done|done]. cbn [mbind outcome_mbind outcome_bind].
  split; [|apply clear_closed]. eapply stamp_marker_run; [done|exact Es|]. specialize (Hk _ _ _ eq_refl).
  unfold keeps_marker in *. change (db_raft_sm wt2 = db_raft_sm wt). by rewrite Hk.
Qed.

(** A replicated batch ([index_prepared_marked]) is atomic: when it does
    not succeed the store is the one before it, as long as the files together
    are below 2^64 - 1 bytes; when it succeeds the log marker is the entry's. *)
Theorem marked_batch_atomic hook d org repo files marker membership :
  Forall (λ p, 0 ≤ pf_bytes_len p) files → sum_list pf_bytes_len files < USIZE_MAX → marker_ok marker →
  match index_prepared_marked sha256 is_alphabetic is_numeric hook d registry org repo files opts marker membership with
  | (d', Ok _) => raft_marker d' = Ok (Some marker) ∧ closed d'
  | (d', _) => d' = d
  end.
Proof. apply marked_run. Qed.
End batches.

(** ** An example store *)
#[local] Existing Instance gmap_redb.
#[local] Existing Instance coded_serde.
Module Sample.
Definition sha (_ : list Z) : list Z := [].
Definition no_char (_ : Z) : bool := false.
Abbreviation db := (Db (λ K _ _ V, gmap K V)).
Definition ingested : result (IngestStats * db) :=
  ingest_file_with_origin sha db_empty (lit "o") (lit "r") (lit "src//a.rs") (lit "Rust") demo (Some ORIGIN_DIRECTORY).
Definition store : db := match ingested with Ok (_, d) => d | _ => db_empty end.
Definition key : dkey := (lit "o", lit "r", lit "src/a.rs").
Definition docs : gmap dkey Doc :=
  {[key := new_doc (lit "Rust") (FileMeta_extracted (Some ORIGIN_DIRECTORY)) demo]}.

Lemma demo_texts : texts_ok demo.
Proof. apply (bool_decide_unpack _). by vm_compute. Qed.
Lemma demo_names : names_ok (lit "o") (lit "r") (lit "Rust") demo.
Proof.
  destruct (ingest_guard_cases (lit "o") (lit "r") (lit "Rust") demo) as [[_ ?]|[[m Hm] _]]; [done|]. by vm_compute in Hm.
Qed.
Lemma empty_room n : (n < 1000)%nat → room_for (db_empty (tbl:=λ K _ _ V, gmap K V)) 1000 n.
Proof.
  intros Hn. unfold room_for. rewrite !tbl_get_spec, tbl_len_spec. cbn [db_empty db_meta db_dict].
  rewrite !tbl_empty_spec, !lookup_empty, map_size_empty. cbn [default from_option id]. split; [by vm_compute|lia].
Qed.
Lemma demo_term_room : term_room (db_empty (tbl:=λ K _ _ V, gmap K V)) demo.
Proof. unfold term_room. by vm_compute. Qed.
Lemma stored : stores sha store docs.
Proof.
  assert (ingest_guard (lit "o") (lit "r") (lit "Rust") demo = Ok ()) as Hg by by vm_compute.
  destruct (ingest_run sha (tbl:=λ K _ _ V, gmap K V) db_empty ∅ (lit "o") (lit "r") (lit "src//a.rs") (lit "Rust") demo
    (FileMeta_extracted (Some ORIGIN_DIRECTORY)) None (stores_empty sha) Hg demo_small demo_spans_ok demo_texts)
    as (file & d' & Hr & Hd' & _); [done|by vm_compute|done|].
  assert (ingested = Ok (mkIngestStats file 2 4 false false false (lit "src/a.rs") (lit "rust") None false None, d')) as Hi.
  { unfold ingested, ingest_file_with_origin. destruct (validate_spans_cases demo) as [[_ ->]|[Hsp _]]; [|destruct (Hsp demo_spans_ok)].
    exact Hr. }
  unfold store. by rewrite Hi.
Qed.
End Sample.

Lemma ingest_refines_witness :
  ∃ stats d', Sample.ingested = Ok (stats, d') ∧ stores Sample.sha d' Sample.docs ∧ is_tokens stats = 4%nat.
Proof.
  pose proof (ingest_refines Sample.sha (tbl:=λ K _ _ V, gmap K V) db_empty ∅ (lit "o") (lit "r") (lit "src//a.rs") (lit "Rust")
    demo (Some ORIGIN_DIRECTORY) (stores_empty _) demo_small Sample.demo_texts Sample.demo_term_room) as Hr.
  cbv zeta in Hr. unfold Sample.ingested. destruct (ingest_file_with_origin _ _ _ _ _ _ _ _) as [[stats d']|e|]; [|exfalso|done].
  - exists stats, d'. by destruct Hr as (_ & _ & Hd' & _ & _ & _ & Ht).
  - assert (id_room (db_empty (tbl:=λ K _ _ V, gmap K V))) as Hid by (unfold id_room; by vm_compute).
    pose proof demo_spans_ok. pose proof Sample.demo_names. destruct e; tauto.
Defined.

Lemma prune_refines_witness :
  ∃ removed d', prune_files Sample.store (lit "o") (lit "r") [] false = Ok (removed, d') ∧
    lit "src/a.rs" ∈ removed ∧ stores Sample.sha d' (filter (λ kv, ¬ pruned (lit "o") (lit "r") [] kv.1 kv.2) Sample.docs).
Proof.
  destruct (prune_refines Sample.sha Sample.store Sample.docs (lit "o") (lit "r") [] Sample.stored)
    as (removed & d' & Hr & _ & Hd' & _ & Hel).
  exists removed, d'. split_and!; [exact Hr| |exact Hd']. apply Hel. eexists. split; [apply lookup_singleton_eq|].
  split_and!; [done|by intros ?%elem_of_nil|done].
Defined.

(** No text of the sample is hashed. *)
Lemma sample_no_collisions : no_collisions Sample.sha Sample.store.
Proof.
  destruct Sample.stored as (N & S & es & next & nt & R). pose proof (rp_dict _ _ _ _ _ _ _ _ R) as Hd.
  assert (match all_terms Sample.store with Ok es => forallb (λ e, negb (is_hashed e.2)) es | _ => false end = true) as HF by by vm_compute.
  rewrite (all_run _ _ _ _ Hd) in HF. rewrite forallb_forall in HF.
  intros i t j u Hi _ Ht. rewrite (rev_text _ _ _ _ _ Hd) in Hi. injection Hi as Hi.
  apply entry_text_elem in Hi; [|by eapply dk_ids]. apply list_elem_of_In, HF in Hi. cbn in Hi. by rewrite Ht in Hi.
Qed.

Lemma vacuum_refines_witness :
  ∃ stats d', vacuum Sample.sha Sample.store = Ok (stats, d') ∧ stores Sample.sha d' Sample.docs ∧
    tbl_len (db_dict d') = Z.of_nat (vs_terms_kept stats).
Proof.
  destruct (vacuum_refines Sample.sha Sample.store Sample.docs) as (stats & d' & Hr & Hd' & _ & Hl & _);
    [by constructor|apply Sample.stored|apply sample_no_collisions|].
  exists stats, d'. split_and!; [exact Hr|exact Hd'|exact Hl].
Defined.


(** ** An example batch *)
Module Sampled.
Definition file (path : string) (work : Prepared) : PreparedFile :=
  mkPreparedFile (lit "o") (lit "r") (lit path) (lit "rust") (lit "f") 42 None work None None false None false None.
Definition files : list PreparedFile :=
  [file "a.rs" (PExtracted demo); file "b.rs" (PRejected (Rejected (lit "binary"))); file "a.rs" (PExtracted demo)].
Definition opts : IndexOptions := mkIndexOptions false None false.
Definition registry : Registry := Registry_default.
Definition marker (i : Z) : RaftMarker := mkRaftMarker 1 i 1.

Lemma demo_shaped path : normalize_path (lit path) = lit path → shaped Sample.no_char Sample.no_char registry (file path (PExtracted demo)).
Proof.
  intros Hp. split; [exact Hp|]. split; [done|]. change (work_of Sample.no_char Sample.no_char registry (file path (PExtracted demo))) with
    (Ok (PExtracted demo, None) : result (Prepared * option str)).
  split; [exact demo_small|]. split; [exact demo_spans_ok|]. split; [exact Sample.demo_texts|done].
Qed.
Lemma binary_shaped : shaped Sample.no_char Sample.no_char registry (file "b.rs" (PRejected (Rejected (lit "binary")))).
Proof. split; [by vm_compute|]. split; done. Qed.
Lemma files_shaped : Forall (shaped Sample.no_char Sample.no_char registry) files.
Proof.
  apply Forall_cons. split; [apply demo_shaped; by vm_compute|]. apply Forall_cons. split; [apply binary_shaped|].
  apply Forall_singleton. apply demo_shaped. by vm_compute.
Qed.

(** Two files, of which the first is stored. *)
Definition first : PreparedFile := file "a.rs" (PExtracted demo).
Definition second : PreparedFile := file "b.rs" (PExtracted demo).
Definition bad_language : PreparedFile :=
  mkPreparedFile (lit "o") (lit "r") (lit "b.rs") [0] (lit "f") 42 None (PExtracted demo) None None false None false None.
Definition stray : PreparedFile :=
  mkPreparedFile (lit "o") (lit "other") (lit "b.rs") (lit "rust") (lit "f") 42 None (PExtracted demo) None None false None false None.
Lemma both_shaped : Forall (shaped Sample.no_char Sample.no_char registry) [first; second].
Proof. apply Forall_cons. split; [|apply Forall_singleton]; apply demo_shaped; by vm_compute. Qed.
Lemma stray_shaped : Forall (shaped Sample.no_char Sample.no_char registry) [first; stray].
Proof.
  apply Forall_cons. split; [apply demo_shaped; by vm_compute|]. apply Forall_singleton.
  exact (demo_shaped "b.rs" eq_refl).
Qed.

(** A text file and what it stands for. *)
#[local] Existing Instance sample_rs.
Definition raw : BatchFile := mkBatchFile (lit "./a.txt") (as_bytes (lit "fn a")) None None None false.
Definition made : PreparedFile := raw_prepared Sample.sha registry (lit "o") (lit "r") opts raw.
Definition text : Extraction := match work_of Sample.no_char Sample.no_char registry made with Ok (PExtracted ex, _) => ex | _ => demo end.
Lemma made_work : work_of Sample.no_char Sample.no_char registry made = Ok (PExtracted text, None).
Proof. by vm_compute. Qed.
Lemma made_unknown : ∃ src, pf_work made = PUnchanged src.
Proof. exists (lit "fn a"). by vm_compute. Qed.
Lemma text_small : small_ex text ∧ texts_ok text.
Proof. split; apply (bool_decide_unpack _); by vm_compute. Qed.
Lemma raw_fine : raw_ok Sample.sha Sample.no_char Sample.no_char registry (lit "o") (lit "r") opts raw.
Proof. split; [done|]. split; [done|]. fold made. rewrite made_work. exact text_small. Qed.
End Sampled.

(** The second file of two is of another repository: the first is kept, marked. *)
Lemma batch_refines_witness :
  ∃ d' j e,
    index_prepared_counted Sample.sha Sample.no_char Sample.no_char (λ _, Ok ()) (db_empty (tbl:=λ K _ _ V, gmap K V))
      Sampled.registry 10 (lit "o") (lit "r") [Sampled.first; Sampled.stray] Sampled.opts = (d', Err (Rejected e)) ∧ (j ≤ 1)%nat ∧
    stores Sample.sha d' (foldl (commit_doc Sample.no_char Sample.no_char Sampled.registry Sampled.opts) ∅ (take j [Sampled.first; Sampled.stray])).
Proof.
  assert (room_for (db_empty (tbl:=λ K _ _ V, gmap K V)) 2
    (all_terms_of Sample.no_char Sample.no_char Sampled.registry [Sampled.first; Sampled.stray])) as Hroom by (unfold room_for; by vm_compute).
  pose proof (batch_refines Sample.sha Sample.no_char Sample.no_char Sampled.registry Sampled.opts
    (tbl:=λ K _ _ V, gmap K V) db_empty ∅ 10 (lit "o") (lit "r") [Sampled.first; Sampled.stray] (stores_empty _) Sampled.stray_shaped
    Hroom) as Hr. cbv zeta in Hr. clear Hroom.
  assert (∃ e, first_abort Sample.no_char Sample.no_char Sampled.registry Sampled.opts (lit "o") (lit "r") ∅ [Sampled.first; Sampled.stray] =
    Some (1%nat, Rejected e)) as [e He] by (eexists; vm_compute; reflexivity).
  rewrite He in Hr. destruct Hr as (d' & j & Hrun & Hj & Hd' & _). exists d', j, e. split; [exact Hrun|]. split; [exact Hj|exact Hd'].
Defined.

(** The second file was prepared for another repository, which fails the
    batch after the first is committed: the marker stays. *)
Lemma batch_interrupted_witness :
  ∃ d', open_for d' 0 (lit "o") (lit "r") ∧
    (commit_each_counted Sample.sha Sample.no_char Sample.no_char (λ _, Ok ())
      (db_empty (tbl:=λ K _ _ V, gmap K V)) Sampled.registry (lit "o") (lit "r") 2 Sampled.opts 1 None
      (nth_file [Sampled.first; Sampled.stray])).1 = d'.
Proof.
  pose proof (batch_interrupted Sample.sha Sample.no_char Sample.no_char Sampled.registry Sampled.opts (tbl:=λ K _ _ V, gmap K V)
    (λ _, Ok ()) db_empty (lit "o") (lit "r") 2 1 None (nth_file [Sampled.first; Sampled.stray]) (nth_file_keeps _)) as Hr.
  set (run := commit_each_counted _ _ _ _ _ _ _ _ _ _ _ _ _) in *.
  assert (match run.2 with Ok _ => false | _ => true end = true) as Hf by by vm_compute.
  assert (tbl_get (db_meta run.1) (lit "open_batch_id") = Some 0) as Hid by by vm_compute.
  exists run.1. split; [|done]. clearbody run. destruct run as [d' r]. cbn [fst snd] in *.
  assert (d' = db_empty ∨ open_for d' 0 (lit "o") (lit "r")) as [->|Ho]; [by destruct r| |exact Ho].
  by vm_compute in Hid.
Defined.

(** A crash at the second file, with the first committed. *)
Lemma batch_resume_witness :
  ∃ d1 d2 outs commits,
    commit_each_counted Sample.sha Sample.no_char Sample.no_char (λ _, Ok ()) (db_empty (tbl:=λ K _ _ V, gmap K V)) Sampled.registry
      (lit "o") (lit "r") 2 Sampled.opts 1 None (stopping 1 (Storage []) (nth_file [Sampled.first; Sampled.second])) = (d1, Err (Storage [])) ∧
    index_prepared_counted Sample.sha Sample.no_char Sample.no_char (λ _, Ok ()) d1 Sampled.registry 10 (lit "o") (lit "r")
      [Sampled.first; Sampled.second] Sampled.opts = (d2, Ok (outs, commits)) ∧ closed d2.
Proof.
  destruct (batch_resume Sample.sha Sample.no_char Sample.no_char Sampled.registry Sampled.opts (tbl:=λ K _ _ V, gmap K V) db_empty ∅ 1 10
    (lit "o") (lit "r") [Sampled.first; Sampled.second] 1 (Storage []) (stores_empty _) Sampled.both_shaped)
    as (d1 & j & H1 & _ & _ & d2 & outs & commits & H2 & _ & Hc & _).
  - apply (bool_decide_unpack _). by vm_compute.
  - by vm_compute.
  - cbn [length]. lia.
  - unfold room_for. by vm_compute.
  - exists d1, d2, outs, commits. split_and!; [exact H1|exact H2|exact Hc].
Defined.

(** A NUL in the language the caller names aborts the batch. *)
Lemma commit_errors_witness :
  ∃ m, commit_prepared Sample.sha Sample.no_char Sample.no_char (db_empty (tbl:=λ K _ _ V, gmap K V)) Sampled.registry
    (lit "o") (lit "r") Sampled.bad_language Sampled.opts = Err (Rejected m).
Proof.
  assert (work_of Sample.no_char Sample.no_char Sampled.registry Sampled.bad_language = Ok (PExtracted demo, None)) as Hw by done.
  assert (well_prepared Sample.no_char Sample.no_char Sampled.registry (db_empty (tbl:=λ K _ _ V, gmap K V)) Sampled.bad_language) as Hp.
  { split; [done|]. rewrite Hw. pose proof demo_small. pose proof demo_spans_ok. pose proof Sample.demo_texts.
    split_and!; [assumption..|apply Sample.demo_term_room|exact eq_refl]. }
  pose proof (commit_errors Sample.sha Sample.no_char Sample.no_char Sampled.registry Sampled.opts (tbl:=λ K _ _ V, gmap K V)
    db_empty ∅ (lit "o") (lit "r") Sampled.bad_language (stores_empty _) Hp) as Hr. cbv zeta in Hr.
  assert (id_room (db_empty (tbl:=λ K _ _ V, gmap K V))) as Hid by (unfold id_room; by vm_compute).
  assert (¬ names_ok (lit "o") (lit "r") [0] demo) as Hn.
  { intros (_ & _ & _ & _ & Hl & _). apply Hl. constructor. }
  destruct (commit_prepared _ _ _ _ _ _ _ _ _) as [x|e|]; [exfalso|destruct e|exfalso; exact Hr].
  { destruct Hr as (_ & _ & Hr). apply Hr. split; [exact eq_refl|]. exists demo, None. split; [exact Hw|exact Hn]. }
  all: try (exfalso; destruct Hr as [_ Hr]; exact (Hr Hid)). eexists. exact eq_refl.
Defined.

(** ** Preparing examples *)
#[local] Existing Instance sample_rs.

Lemma index_batch_refines_witness :
  ∃ d' outs, index_batch Sample.sha Sample.no_char Sample.no_char (λ _, Ok ()) (db_empty (tbl:=λ K _ _ V, gmap K V))
    Sampled.registry 10 (lit "o") (lit "r") [Sampled.raw; Sampled.raw] Sampled.opts = (d', Ok outs) ∧ closed d' ∧ length outs = 2%nat.
Proof.
  pose proof Sampled.raw_fine as Hp.
  assert (room_for (db_empty (tbl:=λ K _ _ V, gmap K V)) 2
    (all_terms_of Sample.no_char Sample.no_char Sampled.registry [Sampled.made; Sampled.made])) as Hroom by (unfold room_for; by vm_compute).
  pose proof (index_batch_refines Sample.sha Sample.no_char Sample.no_char (tbl:=λ K _ _ V, gmap K V) (λ _, Ok ()) db_empty ∅
    Sampled.registry 10 (lit "o") (lit "r") [Sampled.raw; Sampled.raw] Sampled.opts (stores_empty _)
    (Forall_cons_2 _ _ _ Hp (Forall_cons_2 _ _ _ Hp (Forall_nil_2 _))) Hroom) as Hr. cbv zeta in Hr. clear Hroom.
  assert (first_abort Sample.no_char Sample.no_char Sampled.registry Sampled.opts (lit "o") (lit "r") ∅
    (raw_prepared Sample.sha Sampled.registry (lit "o") (lit "r") Sampled.opts <$> [Sampled.raw; Sampled.raw]) = None) as Hno by by vm_compute.
  rewrite Hno in Hr. destruct Hr as (d' & outs & Hr & Ho & _ & Hc).
  exists d', outs. split_and!; [exact Hr|exact Hc|]. clear -Ho. destruct outs as [|? [|? []]]; cbn [outcomes fmap list_fmap] in Ho; tauto.
Defined.

Lemma index_bytes_agrees_witness :
  ∃ s d', index_bytes_opts Sample.sha Sample.no_char Sample.no_char (db_empty (tbl:=λ K _ _ V, gmap K V)) Sampled.registry
    (lit "o") (lit "r") (lit "./a.txt") (as_bytes (lit "fn a")) None None Sampled.opts = Ok (s, d') ∧
    is_tokens s = length (ex_tokens Sampled.text).
Proof.
  assert (room_for (db_empty (tbl:=λ K _ _ V, gmap K V)) 1 (terms_of Sample.no_char Sample.no_char Sampled.registry Sampled.made)) as Hroom
    by (unfold room_for; by vm_compute).
  pose proof (index_bytes_agrees Sample.sha Sample.no_char Sample.no_char (tbl:=λ K _ _ V, gmap K V) db_empty ∅ Sampled.registry
    (lit "o") (lit "r") (lit "./a.txt") (as_bytes (lit "fn a")) None None Sampled.opts (stores_empty _)
    Sampled.raw_fine Hroom) as Hr. clear Hroom. change (raw_prepared _ _ _ _ _ _) with Sampled.made in Hr.
  assert (abort_of Sample.no_char Sample.no_char Sampled.registry Sampled.opts (lit "o") (lit "r") ∅ Sampled.made = None) as Hno by by vm_compute.
  assert (up_to_date Sampled.opts ∅ Sampled.made = false) as Hu by by vm_compute. destruct Sampled.made_unknown as [src Hw].
  rewrite Hno in Hr. unfold commit_outcome in Hr. rewrite Hw, Hu, Sampled.made_work in Hr. clear Hu Hw Hno.
  destruct (index_bytes_opts _ _ _ _ _ _ _ _ _ _ _ _) as [[s d']|e|]; [|exfalso|exfalso; exact Hr].
  - exists s, d'. split; [exact eq_refl|]. destruct Hr as [(s' & Hs & _ & _ & _ & _ & Ht) _]. injection Hs as ->. exact Ht.
  - destruct Hr as (e' & (s' & Hs & _) & _). discriminate Hs.
Defined.

