(* ===== verification/Describe.v ===== *)
(** * Describing a store

    The summary of what a store holds: [describe_in], which reads the
    counters of the catalog ([graph-store/src/common.rs]), and
    [describe_by_scan], which decodes every file ([graph-store/src/v2.rs]),
    with the gaps in the registered extractors and the node counts. Maps
    listed in key order ([BTreeMap]) are finite maps; their values are listed
    by [gmap_rows]. *)
From S2P Require Import Prelude Text StrOps Schema Varint Stream StreamRound Posting DictBlock Table DictRev.
From S2P Require Import Language Walk Prep Located Db Catalog Reader Encoding Write Dict Store Commit Prepare.

Record LanguageInfo : Type := mkLanguageInfo {
  li_files : Z;
  li_symbols : Z;
  li_tokens : Z;
  li_symbol_kinds : gmap str Z;
}.
Definition LanguageInfo_default : LanguageInfo := mkLanguageInfo 0 0 0 ∅.

Record RepoInfo : Type := mkRepoInfo {
  ri_org : str;
  ri_repo : str;
  ri_files : Z;
  ri_languages : gmap str LanguageInfo;
  ri_token_classes : gmap str Z;
  ri_open_batch : bool;
  ri_encodings : gmap str Z;
  ri_lossy : Z;
}.
Definition RepoInfo_new (org repo : str) : RepoInfo := mkRepoInfo org repo 0 ∅ ∅ false ∅ 0.

Record ExtractorGap : Type := mkExtractorGap {
  eg_org : str;
  eg_repo : str;
  eg_language : str;
  eg_stored_version : str;
  eg_symbols : Z;
}.

(** Field updates. *)
Definition upd_languages f i := mkRepoInfo (ri_org i) (ri_repo i) (ri_files i) (f (ri_languages i))
  (ri_token_classes i) (ri_open_batch i) (ri_encodings i) (ri_lossy i).
Definition upd_classes f i := mkRepoInfo (ri_org i) (ri_repo i) (ri_files i) (ri_languages i)
  (f (ri_token_classes i)) (ri_open_batch i) (ri_encodings i) (ri_lossy i).
Definition upd_encodings f i := mkRepoInfo (ri_org i) (ri_repo i) (ri_files i) (ri_languages i)
  (ri_token_classes i) (ri_open_batch i) (f (ri_encodings i)) (ri_lossy i).
Definition upd_files f i := mkRepoInfo (ri_org i) (ri_repo i) (f (ri_files i)) (ri_languages i)
  (ri_token_classes i) (ri_open_batch i) (ri_encodings i) (ri_lossy i).
Definition upd_lossy f i := mkRepoInfo (ri_org i) (ri_repo i) (ri_files i) (ri_languages i)
  (ri_token_classes i) (ri_open_batch i) (ri_encodings i) (f (ri_lossy i)).
Definition set_open i := mkRepoInfo (ri_org i) (ri_repo i) (ri_files i) (ri_languages i)
  (ri_token_classes i) true (ri_encodings i) (ri_lossy i).

(** [info.languages.entry(l).or_default()] and a change of it. *)
Definition at_language (l : str) (f : LanguageInfo → LanguageInfo) (i : RepoInfo) : RepoInfo :=
  upd_languages (λ m, <[l := f (default LanguageInfo_default (m !! l))]> m) i.
Definition li_set_files (v : Z) l := mkLanguageInfo v (li_symbols l) (li_tokens l) (li_symbol_kinds l).
Definition li_set_symbols (v : Z) l := mkLanguageInfo (li_files l) v (li_tokens l) (li_symbol_kinds l).
Definition li_set_tokens (v : Z) l := mkLanguageInfo (li_files l) (li_symbols l) v (li_symbol_kinds l).
Definition li_upd_kinds f l := mkLanguageInfo (li_files l) (li_symbols l) (li_tokens l) (f (li_symbol_kinds l)).
(** [*m.entry(k).or_default() += 1]. *)
Definition bump (k : str) (m : gmap str Z) : gmap str Z := <[k := default 0 (m !! k) + 1]> m.

(** [k.split('\0').collect()]. *)
Fixpoint split_nul (s : str) : list str :=
  match s with
  | [] => [[]]
  | c :: s =>
      if c =? 0 then [] :: split_nul s
      else match split_nul s with f :: fs => (c :: f) :: fs | [] => [[c]] end
  end.

Definition bad_catalog_key : StoreError := Corrupt (lit "bad catalog key").

(** The match on the tag and the number of fields. *)
Definition catalog_entry (tag : str) (rest : list str) (v : Z) (info : RepoInfo) : result RepoInfo :=
  match rest with
  | [] =>
      if decide (tag = lit "r") then Ok info
      else if decide (tag = lit "l") then Ok (upd_lossy (λ _, v) info)
      else Err bad_catalog_key
  | [x] =>
      if decide (tag = lit "e") then Ok (upd_encodings <[x := v]> info)
      else if decide (tag = lit "c") then Ok (upd_classes <[x := v]> info)
      else if decide (tag = lit "f") then Ok (at_language x (li_set_files v) (upd_files (λ n, n + v) info))
      else if decide (tag = lit "s") then Ok (at_language x (li_set_symbols v) info)
      else if decide (tag = lit "t") then Ok (at_language x (li_set_tokens v) info)
      else Err bad_catalog_key
  | [x; y] =>
      if decide (tag = lit "k") then Ok (at_language x (li_upd_kinds <[y := v]>) info)
      else Err bad_catalog_key
  | _ => Err bad_catalog_key
  end.

(** Whether an org and repo pass the optional filters. *)
Definition wanted (org repo : option str) (key : str * str) : bool :=
  match org with Some o => bool_decide (key.1 = o) | None => true end &&
  match repo with Some r => bool_decide (key.2 = r) | None => true end.

(** One row of the catalog: the repositories with a mark so far, and the
    summaries. *)
Definition describe_row (org repo : option str) (s : gset (str * str) * gmap (str * str) RepoInfo) (kv : str * Z)
    : result (gset (str * str) * gmap (str * str) RepoInfo) :=
  let '(seen_repo, infos) := s in
  match split_nul kv.1 with
  | tag :: o :: r :: rest =>
      if negb (wanted org repo (o, r)) then Ok s else
      let seen_repo := if decide (tag = lit "r") then {[(o, r)]} ∪ seen_repo else seen_repo in
      info ← catalog_entry tag rest kv.2 (default (RepoInfo_new o r) (infos !! (o, r)));
      Ok (seen_repo, <[(o, r) := info]> infos)
  | _ => Err bad_catalog_key
  end.

Section describe.
Context `{Redb tbl} `{Serde} (d : Db tbl).

(** The open-batch marker. *)
Definition open_batch_marker : option (str * str) :=
  org ← tbl_get (db_open_batch d) (lit "org");
  repo ← tbl_get (db_open_batch d) (lit "repo");
  Some (org, repo).
Definition mark_open_repo (infos : gmap (str * str) RepoInfo) : gmap (str * str) RepoInfo :=
  match open_batch_marker with Some key => alter set_open key infos | None => infos end.

Definition describe_in (org repo : option str) : result (list RepoInfo) :=
  '(seen_repo, infos) ← try_fold (describe_row org repo) (∅, ∅) (tbl_iter (db_cat d));
  if existsb (λ row : str * str * RepoInfo, negb (bool_decide (row.1 ∈ seen_repo))) (gmap_rows infos) then
    Err (Corrupt (lit "catalog has counters for a repo without its marker row"))
  else Ok (gmap_rows (mark_open_repo infos)).*2.

(** ** By decoding every file *)

(** A symbol of the language's info. *)
Definition scan_symbol (file : Z) (syms : list SymRec) (l : LanguageInfo) (i : nat) : result LanguageInfo :=
  n ← sym_node d file i syms;
  Ok (li_upd_kinds (bump (kind_label n)) (li_set_symbols (li_symbols l + 1) l)).

Definition scan_file (n : Node) (info : RepoInfo) : result RepoInfo :=
  let lang := default (lit "unknown") (n_language n) in
  let info := upd_files (λ f, f + 1) info in
  let info := match n_encoding n with Some e => upd_encodings (bump e) info | None => info end in
  let info := upd_lossy (λ x, x + if n_lossy n then 1 else 0) info in
  let l := default LanguageInfo_default (ri_languages info !! lang) in
  let l := li_set_files (li_files l + 1) l in
  s ← stream d (n_id n);
  s ← ok_or s (Corrupt (lit "file " ++ show (n_id n) ++ lit " no stream"));
  l ← try_fold (scan_symbol (n_id n) (st_symbols s)) l (seq 0 (length (st_symbols s)));
  let l := li_set_tokens (li_tokens l + Z.of_nat (length (st_tokens s))) l in
  Ok (upd_classes (λ m, foldl (λ m t, bump (TokenClass_as_str (t_class t)) m) m (st_tokens s))
        (upd_languages <[lang := l]> info)).

(** Org names, repository keys and summaries so far. *)
Definition scan_node (s : gmap Z str * gmap Z (str * str) * gmap (str * str) RepoInfo) (n : Node)
    : result (gmap Z str * gmap Z (str * str) * gmap (str * str) RepoInfo) :=
  let '(org_name, repo_key, infos) := s in
  match n_kind n with
  | Org => Ok (<[n_id n := n_name n]> org_name, repo_key, infos)
  | Repo =>
      let o := default [] (p ← n_parent n; org_name !! p) in
      let key := (o, n_name n) in
      let infos := match infos !! key with Some _ => infos | None => <[key := RepoInfo_new o (n_name n)]> infos end in
      Ok (org_name, <[n_id n := key]> repo_key, infos)
  | File =>
      match (p ← n_parent n; repo_key !! p) with
      | None => Ok s
      | Some key =>
          info ← unwrap (infos !! key);
          info ← scan_file n info;
          Ok (org_name, repo_key, <[key := info]> infos)
      end
  | _ => Ok s
  end.

(** [for r in nodes.iter() { all.push(dec(..)?); } all.sort_by_key(|n| n.id)]. *)
Definition all_nodes : result (list Node) :=
  all ← collect (λ row : Z * list Z, dec row.2) (tbl_iter (db_nodes d));
  Ok (sort_by (λ a b, n_id a <=? n_id b) all).

Definition describe_by_scan (org repo : option str) : result (list RepoInfo) :=
  all ← all_nodes;
  '(_, _, infos) ← try_fold scan_node (∅, ∅, ∅) all;
  Ok (filter (λ i, wanted org repo (ri_org i, ri_repo i)) (gmap_rows (mark_open_repo infos)).*2).

(** ** Counts and roots *)

Definition count_nodes (kind : NodeKind) : result Z :=
  match kind with
  | Symbol | Token =>
      let prefix := if decide (kind = Symbol) then cat_key "s" [[]] else cat_key "t" [[]] in
      Ok (foldl (λ n kv, if starts_with kv.1 prefix then n + kv.2 else n) 0 (tbl_iter (db_cat d)))
  | _ =>
      try_fold (λ n (row : Z * list Z), x ← dec row.2; Ok (if decide (n_kind x = kind) then n + 1 else n)) 0
        (tbl_iter (db_nodes d))
  end.

Definition roots : result (list Node) :=
  all ← collect (λ row : Z * list Z, dec row.2) (tbl_iter (db_nodes d));
  Ok (sort_by (λ a b, n_id a <=? n_id b) (filter (λ n, n_kind n = Org ∧ n_parent n = None) all)).

Definition find (parent : option Z) (kind : NodeKind) (name : str) : option Z :=
  tbl_get (db_names d) (name_key parent kind name).

Definition file_tokens (org repo path : str) : result (option (list Node)) :=
  match find None Org org with
  | None => Ok None
  | Some o =>
      match find (Some o) Repo repo with
      | None => Ok None
      | Some r =>
          match find (Some r) File (normalize_path path) with
          | None => Ok None
          | Some f =>
              s ← stream d f;
              s ← ok_or s (Corrupt (lit "file " ++ show f ++ lit " without stream"));
              toks ← collect (λ it : nat * TokRec, tok_node d f it.1 it.2) (enumerate (st_tokens s));
              Ok (Some toks)
          end
      end
  end.
End describe.

(** ** What a summary says of documents *)

Definition doc_lang (v : Doc) : str := default (lit "unknown") (doc_language v).
Definition sym_label (s : SymbolDecl) : str :=
  kind_label (with_symbol_kind (blank 0 None Symbol []) (sd_kind s) (sd_lang_kind s)).
Definition ind (P : Prop) `{Decision P} : Z := if decide P then 1 else 0.

(** Sums over the documents of a repository, and over those in a language. *)
Definition in_repo (a : gmap dkey Doc) (key : str * str) (g : Doc → Z) : Z :=
  sum_map (λ k v, if decide (k.1 = key) then g v else 0) a.
Definition in_lang (a : gmap dkey Doc) (key : str * str) (l : str) (g : Doc → Z) : Z :=
  in_repo a key (λ v, if decide (doc_lang v = l) then g v else 0).
(** A counter that is kept only when positive. *)
Definition pos (z : Z) : option Z := if 0 <? z then Some z else None.

Definition kind_count (k : str) (v : Doc) : Z := sum_list (λ s, ind (sym_label s = k)) (ex_symbols (doc_ex v)).
Definition class_count (c : str) (v : Doc) : Z :=
  sum_list (λ t, ind (TokenClass_as_str (td_class t) = c)) (ex_tokens (doc_ex v)).

Definition lang_is (a : gmap dkey Doc) (key : str * str) (l : str) (o : option LanguageInfo) : Prop :=
  match o with
  | None => in_lang a key l (λ _, 1) = 0
  | Some li =>
      0 < in_lang a key l (λ _, 1) ∧ li_files li = in_lang a key l (λ _, 1) ∧
      li_symbols li = in_lang a key l (λ v, Z.of_nat (length (ex_symbols (doc_ex v)))) ∧
      li_tokens li = in_lang a key l (λ v, Z.of_nat (length (ex_tokens (doc_ex v)))) ∧
      ∀ k, li_symbol_kinds li !! k = pos (in_lang a key l (kind_count k))
  end.

(** [i] is the summary of the documents of [key]. *)
Record info_is (a : gmap dkey Doc) (opened : option (str * str)) (key : str * str) (i : RepoInfo) : Prop := mkInfoIs {
  ii_key : (ri_org i, ri_repo i) = key;
  ii_open : ri_open_batch i = bool_decide (opened = Some key);
  ii_files : ri_files i = in_repo a key (λ _, 1);
  ii_lossy : ri_lossy i = in_repo a key (λ v, if fm_lossy (doc_meta v) then 1 else 0);
  ii_encodings e : ri_encodings i !! e = pos (in_repo a key (λ v, ind (fm_encoding (doc_meta v) = Some e)));
  ii_classes c : ri_token_classes i !! c = pos (in_repo a key (class_count c));
  ii_languages l : lang_is a key l (ri_languages i !! l);
}.

Lemma lang_is_inj a key l o o' : lang_is a key l o → lang_is a key l o' → o = o'.
Proof.
  destruct o as [[f s t k]|], o' as [[f' s' t' k']|]; cbn; [|lia|lia|done].
  intros (_ & -> & -> & -> & Hk) (_ & -> & -> & -> & Hk'). do 2 f_equal. apply map_eq. intros x. by rewrite Hk, Hk'.
Qed.
Lemma info_is_inj a opened key i j : info_is a opened key i → info_is a opened key j → i = j.
Proof.
  intros [K1 O1 F1 L1 E1 C1 A1] [K2 O2 F2 L2 E2 C2 A2]. destruct i as [o r f la tc ob en lo], j as [o' r' f' la' tc' ob' en' lo'].
  cbn in *. subst. injection K2 as <- <-. f_equal; apply map_eq; intros x.
  - by eapply lang_is_inj.
  - by rewrite C1, C2.
  - by rewrite E1, E2.
Qed.

(** ** Keys of the catalog *)

Lemma split_nul_field f : nul_free f → split_nul f = [f].
Proof.
  unfold nul_free. induction f as [|c f IH]; intros Hf; [done|]. apply not_elem_of_cons in Hf as [Hc Hf]. cbn [split_nul].
  rewrite (proj2 (Z.eqb_neq c 0)) by done. by rewrite IH.
Qed.
Lemma split_nul_cons f s : nul_free f → split_nul (f ++ 0 :: s) = f :: split_nul s.
Proof.
  unfold nul_free. induction f as [|c f IH]; intros Hf; [done|]. apply not_elem_of_cons in Hf as [Hc Hf]. cbn [app split_nul].
  rewrite (proj2 (Z.eqb_neq c 0)) by done. by rewrite IH.
Qed.
Lemma split_cat_key tag fs : nul_free (lit tag) → Forall nul_free fs → split_nul (cat_key tag fs) = lit tag :: fs.
Proof.
  unfold cat_key. revert tag. assert (∀ t, nul_free t → Forall nul_free fs → split_nul (t ++ (fs ≫= λ f, 0 :: f)) = t :: fs) as Hg.
  { induction fs as [|f fs IH]; intros t Ht Hfs; cbn [mbind list_bind]; [by rewrite app_nil_r, split_nul_field|].
    apply Forall_cons in Hfs as [Hf Hfs]. cbn [app]. rewrite split_nul_cons by done. by rewrite IH. }
  intros tag. apply Hg.
Qed.
Lemma split_nul_inj s t : split_nul s = split_nul t → s = t.
Proof.
  assert (∀ s, split_nul s ≠ []) as Hne.
  { intros [|c u]; [done|]. cbn. case_match; [done|]. by destruct (split_nul u). }
  revert t. induction s as [|c s IH]; intros [|e t]; cbn; [done|..].
  - destruct (e =? 0); [intros [= Ht]; by destruct (Hne t)|]. destruct (split_nul t); done.
  - destruct (c =? 0); [intros [= Ht]; by destruct (Hne s)|]. destruct (split_nul s); done.
  - specialize (Hne s) as Hs. specialize (Hne t) as Ht.
    destruct (c =? 0) eqn:Ec, (e =? 0) eqn:Ee; bool_prop.
    + intros [= Hst]. subst. f_equal. by apply IH.
    + destruct (split_nul t); done.
    + destruct (split_nul s); done.
    + specialize (IH t). destruct (split_nul s), (split_nul t); try done. intros [= -> -> ->]. f_equal. by apply IH.
Qed.
