(* ===== verification/Described.v ===== *)
(** * The catalog summary

    [describe_in] ([graph-store/src/common.rs]) reads the summary of every
    repository off the rows of the catalog. *)
From S2P Require Import Prelude Text StrOps Schema Varint Stream StreamRound Posting DictBlock Table DictRev.
From S2P Require Import Language Walk Prep Located Db Catalog Reader Encoding Write Dict Store Entities Content Ingest.
From S2P Require Import Commit Prepare Describe.

(** ** Rows and summaries *)

(** What a row adds to the file count of a repository. *)
Definition file_rows (key : str * str) (f : list str) (v : Z) : Z :=
  match f with
  | [t; o; r; _] => if decide (t = lit "f" ∧ (o, r) = key) then v else 0
  | _ => 0
  end.
Definition lang_rows (m : gmap (list str) Z) (key : str * str) (l : str) (o : option LanguageInfo) : Prop :=
  let at_ t := m !! [lit t; key.1; key.2; l] in
  let kind k := m !! [lit "k"; key.1; key.2; l; k] in
  match o with
  | None => at_ "f" = None ∧ at_ "s" = None ∧ at_ "t" = None ∧ ∀ k, kind k = None
  | Some li =>
      (is_Some (at_ "f") ∨ is_Some (at_ "s") ∨ is_Some (at_ "t") ∨ ∃ k, is_Some (kind k)) ∧
      li_files li = default 0 (at_ "f") ∧ li_symbols li = default 0 (at_ "s") ∧ li_tokens li = default 0 (at_ "t") ∧
      ∀ k, li_symbol_kinds li !! k = kind k
  end.

(** [i] holds what the rows [m] say of [key]. *)
Record rows_info (m : gmap (list str) Z) (key : str * str) (i : RepoInfo) : Prop := mkRowsInfo {
  rw_key : (ri_org i, ri_repo i) = key;
  rw_open : ri_open_batch i = false;
  rw_files : ri_files i = sum_map (file_rows key) m;
  rw_lossy : ri_lossy i = default 0 (m !! [lit "l"; key.1; key.2]);
  rw_encodings e : ri_encodings i !! e = m !! [lit "e"; key.1; key.2; e];
  rw_classes c : ri_token_classes i !! c = m !! [lit "c"; key.1; key.2; c];
  rw_languages l : lang_rows m key l (ri_languages i !! l);
}.

(** The fields of a row that the catalog knows. *)
Inductive row_fields (key : str * str) : list str → Prop :=
  | row_r : row_fields key [lit "r"; key.1; key.2]
  | row_l : row_fields key [lit "l"; key.1; key.2]
  | row_e e : row_fields key [lit "e"; key.1; key.2; e]
  | row_c c : row_fields key [lit "c"; key.1; key.2; c]
  | row_f l : row_fields key [lit "f"; key.1; key.2; l]
  | row_s l : row_fields key [lit "s"; key.1; key.2; l]
  | row_t l : row_fields key [lit "t"; key.1; key.2; l]
  | row_k l k : row_fields key [lit "k"; key.1; key.2; l; k].

Lemma rows_info_other m key i f v key' :
  rows_info m key i → row_fields key' f → key' ≠ key → m !! f = None → rows_info (<[f := v]> m) key i.
Proof.
  intros [K O F L E C A] Hf Hne Hnone. destruct key as [o r], key' as [o' r']. cbn in *.
  assert (∀ t rest, f ≠ t :: o :: r :: rest) as Hother by (intros t rest ->; inversion Hf; by subst).
  split; try done; cbn.
  - rewrite sum_map_insert, F by done. assert (file_rows (o, r) f v = 0) as ->; [|lia].
    inversion Hf; subst; cbn; [done..| | | |done]; rewrite decide_False; by try intros [_ ?].
  - by rewrite lookup_insert_ne.
  - intros e. by rewrite lookup_insert_ne.
  - intros c. by rewrite lookup_insert_ne.
  - intros l. specialize (A l). unfold lang_rows in *. cbn in *.
    destruct (ri_languages i !! l); repeat setoid_rewrite lookup_insert_ne; done.
Qed.

(** A row of another field leaves a lookup. *)
Ltac lookups := repeat (rewrite ?lookup_insert; repeat (case_decide; [simplify_eq/=|]; try done)).

Definition off_lang (key : str * str) (l : str) (f : list str) : Prop :=
  f ≠ [lit "f"; key.1; key.2; l] ∧ f ≠ [lit "s"; key.1; key.2; l] ∧ f ≠ [lit "t"; key.1; key.2; l] ∧
  ∀ k, f ≠ [lit "k"; key.1; key.2; l; k].
Lemma lang_rows_other m key l o f v :
  lang_rows m key l o → off_lang key l f → lang_rows (<[f := v]> m) key l o.
Proof.
  unfold lang_rows. intros Hl (H1 & H2 & H3 & H4). destruct o as [li|]; by repeat setoid_rewrite lookup_insert_ne.
Qed.

(** The change of one language's entry. *)
Lemma at_language_rows m key x f v g i :
  (∀ l, lang_rows m key l (ri_languages i !! l)) → (∀ l, l ≠ x → off_lang key l f) →
  (lang_rows m key x (ri_languages i !! x) →
   lang_rows (<[f := v]> m) key x (Some (g (default LanguageInfo_default (ri_languages i !! x))))) →
  ∀ l, lang_rows (<[f := v]> m) key l (ri_languages (at_language x g i) !! l).
Proof.
  intros Hall Hother Hx l. cbn [at_language upd_languages ri_languages].
  destruct (decide (l = x)) as [->|Hne]; [by rewrite lookup_insert_eq; apply Hx|].
  rewrite lookup_insert_ne by done. by apply lang_rows_other; [|apply Hother].
Qed.

Ltac off_row := unfold off_lang; cbn [fst snd]; split_and!; intros; intros ?; simplify_eq.
(** The entry of the row's own language. *)
Ltac own_row := apply at_language_rows; [done|intros; off_row|]; unfold lang_rows; cbn [fst snd];
  match goal with |- context [ri_languages ?i !! ?x] => destruct (ri_languages i !! x) as [[]|] end;
  cbn [default from_option id li_set_files li_set_symbols li_set_tokens li_upd_kinds li_files li_symbols li_tokens
       li_symbol_kinds LanguageInfo_default]; intros HA; destruct_and! HA;
  rewrite ?lookup_insert_eq, ?lookup_insert_ne by (intros ?; simplify_eq); split_and!; eauto.

Lemma rows_info_row m key i f v :
  rows_info m key i → row_fields key f → m !! f = None →
  ∃ tag rest i', f = tag :: key.1 :: key.2 :: rest ∧ catalog_entry tag rest v i = Ok i' ∧ rows_info (<[f := v]> m) key i'.
Proof.
  intros [K O F L E C A] Hf Hnone. destruct key as [o r]. cbn [fst snd] in *.
  assert (ri_files i + file_rows (o, r) f v = sum_map (file_rows (o, r)) (<[f := v]> m)) as Hsum.
  { rewrite sum_map_insert, F by done. lia. }
  inversion Hf; subst f; cbn [fst snd] in *; (eexists _, _, _; split; [done|]; split; [done|]); split; try done; cbn [fst snd].
  all: cbn [ri_files ri_lossy ri_encodings ri_token_classes at_language upd_languages upd_classes upd_encodings upd_files upd_lossy].
  all: lazymatch goal with
    | |- _ = sum_map _ _ => rewrite <- Hsum; unfold file_rows; (lia || (rewrite decide_True by done; lia) || (rewrite decide_False by (by intros [? _]); lia))
    | |- _ = default 0 _ => by rewrite ?lookup_insert_eq, ?lookup_insert_ne by (intros ?; simplify_eq)
    | |- ∀ _, lang_rows _ _ _ _ => first [by intros ?; apply lang_rows_other; [apply A|off_row]|own_row]
    | |- ∀ _, _ => intros ?; rewrite ?lookup_insert; repeat case_decide; simplify_eq; auto
    end.
  all: lazymatch goal with
    | |- is_Some _ ∨ _ => right; right; right; eexists; by rewrite lookup_insert_eq
    | |- 0 = default 0 _ => by match goal with E : ?l = None |- context [?l] => rewrite E end
    | |- ∀ _, _ => intros x; rewrite ?lookup_insert; repeat case_decide; simplify_eq; rewrite ?lookup_empty; done || (symmetry; eauto)
    end.
Qed.

(** ** The rows of a catalog *)

(** A summary of no rows. *)
Definition no_rows (m : gmap (list str) Z) (key : str * str) : Prop := ∀ f, row_fields key f → m !! f = None.
Lemma rows_info_new m key : no_rows m key → rows_info m key (RepoInfo_new key.1 key.2).
Proof.
  intros Hno. split; try done; cbn [RepoInfo_new ri_org ri_repo ri_files ri_lossy ri_encodings ri_token_classes ri_languages];
    intros; rewrite ?lookup_empty.
  - by destruct key.
  - unfold sum_map. assert (Forall (λ kv, m !! kv.1 = Some kv.2) (map_to_list m)) as HF.
    { apply Forall_forall. intros [f v] Hin%elem_of_map_to_list. done. }
    induction HF as [|[f v] l Hf _ IH]; [done|]. cbn [sum_list fst snd]. rewrite <- IH. cbn [fst snd] in Hf.
    assert (file_rows key f v = 0); [|lia]. destruct f as [|t [|o [|r [|x []]]]]; try done. unfold file_rows.
    case_decide as Ht; [|done]. destruct Ht as [-> <-]. pose proof (Hno _ (row_f (o, r) x)) as Hn. cbn [fst snd] in Hn. congruence.
  - by rewrite (Hno _ (row_l key)).
  - by rewrite (Hno _ (row_e key _)).
  - by rewrite (Hno _ (row_c key _)).
  - unfold lang_rows. split_and!; intros; by apply Hno; constructor.
Qed.

(** The state of the fold after the rows [m]. *)
Record described (org repo : option str) (m : gmap (list str) Z) (seen : gset (str * str))
    (infos : gmap (str * str) RepoInfo) : Prop := mkDescribed {
  de_seen key : key ∈ seen ↔ wanted org repo key = true ∧ is_Some (m !! [lit "r"; key.1; key.2]);
  de_info key i : infos !! key = Some i → rows_info m key i;
  de_some key : is_Some (infos !! key) ↔ wanted org repo key = true ∧ ∃ f, row_fields key f ∧ is_Some (m !! f);
}.

Lemma row_fields_inj key key' f : row_fields key f → row_fields key' f → key = key'.
Proof. destruct key, key'. inversion 1; inversion 1; simplify_eq/=; done. Qed.

Lemma described_skip org repo m seen infos f v key :
  described org repo m seen infos → row_fields key f → m !! f = None → wanted org repo key = false →
  described org repo (<[f := v]> m) seen infos.
Proof.
  intros [Hs Hi Ho] Hf Hm Hw. assert (∀ key' f', row_fields key' f' → wanted org repo key' = true → f ≠ f') as Hne.
  { intros key' f' Hf' Hw' ->. rewrite (row_fields_inj _ _ _ Hf Hf') in Hw. congruence. }
  split.
  - intros key'. rewrite Hs. split; intros [Hw' ?]; (split; [done|]); [|revert H]; rewrite lookup_insert_ne by (eapply Hne; [constructor|done]); done.
  - intros key' i Hk. apply (rows_info_other _ _ _ _ _ key); [by apply Hi|done| |done]. intros ->.
    destruct (proj1 (Ho key')) as [? _]; [by rewrite Hk|]. congruence.
  - intros key'. rewrite Ho. split; intros (Hw' & g & Hg & HS); (split; [done|]); exists g; (split; [done|]);
      [|revert HS]; by rewrite lookup_insert_ne by (by eapply Hne).
Qed.

Lemma describe_row_run org repo m seen infos k v key :
  described org repo m seen infos → row_fields key (split_nul k) → m !! split_nul k = None →
  ∃ seen' infos', describe_row org repo (seen, infos) (k, v) = Ok (seen', infos') ∧
    described org repo (<[split_nul k := v]> m) seen' infos'.
Proof.
  intros D Hf Hm. unfold describe_row. cbn [fst snd]. set (f := split_nul k) in *. clearbody f.
  destruct (wanted org repo key) eqn:Hw.
  2:{ exists seen, infos. split; [|by eapply described_skip]. destruct key as [o r]. inversion Hf; subst f; cbn [fst snd]; by rewrite Hw. }
  assert (rows_info m key (default (RepoInfo_new key.1 key.2) (infos !! key))) as Hi.
  { destruct (infos !! key) as [i|] eqn:Ei; [by eapply de_info|]. apply rows_info_new. intros g Hg.
    destruct (m !! g) as [x|] eqn:Eg; [|done]. destruct (proj2 (de_some _ _ _ _ _ D key)) as [? ?]; [|congruence].
    split; [done|]. exists g. by rewrite Eg. }
  destruct (rows_info_row _ _ _ _ v Hi Hf Hm) as (tag & rest & i' & -> & Hc & Hi'). destruct key as [o r]. cbn [fst snd] in *.
  rewrite Hw. cbn [negb]. rewrite Hc. cbn [mbind outcome_mbind outcome_bind]. eexists _, _. split; [done|].
  destruct D as [Hs Hinfo Hsome]. split.
  - intros [o' r']. cbn [fst snd]. rewrite lookup_insert. specialize (Hs (o', r')). cbn [fst snd] in Hs.
    case_decide as Ht; [rewrite elem_of_union, elem_of_singleton|]; rewrite Hs; case_decide as He; simplify_eq/=.
    + split; [auto|by left].
    + split; [intros [[= -> ->]|?]; [|done]|by right]. destruct He. inversion Hf; by simplify_eq/=.
    + done.
  - intros key' i [[<- <-]|[Hne Hk]]%lookup_insert_Some; [done|]. by apply (rows_info_other _ _ _ _ _ (o, r)); [apply Hinfo|..].
  - intros key'. rewrite lookup_insert_is_Some, Hsome. split.
    + intros [<-|[Hne (Hw' & g & Hg & HS)]]; [split; [done|]; eexists; split; [exact Hf|by rewrite lookup_insert_eq]|].
      split; [done|]. exists g. split; [done|]. rewrite lookup_insert_is_Some. by destruct (decide (tag :: o :: r :: rest = g)); [left|right].
    + intros (Hw' & g & Hg & HS). destruct (decide ((o, r) = key')) as [|Hne]; [by left|right]. split; [done|]. split; [done|].
      exists g. split; [done|]. rewrite lookup_insert_ne in HS; [done|]. intros <-. by apply Hne, (row_fields_inj _ _ _ Hf).
Qed.

Lemma describe_rows_run org repo l : ∀ m seen infos,
  described org repo m seen infos → NoDup l.*1 →
  (∀ k v, (k, v) ∈ l → m !! split_nul k = None ∧ ∃ key, row_fields key (split_nul k)) →
  ∃ m' seen' infos', try_fold (describe_row org repo) (seen, infos) l = Ok (seen', infos') ∧
    described org repo m' seen' infos' ∧
    ∀ f v, m' !! f = Some v ↔ m !! f = Some v ∨ ∃ k, (k, v) ∈ l ∧ split_nul k = f.
Proof.
  induction l as [|[k v] l IH]; intros m seen infos D Hnd Hl; cbn [try_fold].
  { exists m, seen, infos. split; [done|]. split; [done|]. intros f v. split; [by left|]. intros [?|(k & ?%elem_of_nil & _)]; done. }
  apply NoDup_cons in Hnd as [Hk Hnd]. destruct (Hl k v) as (Hm & key & Hf); [by left|].
  destruct (describe_row_run org repo m seen infos k v key D Hf Hm) as (seen1 & infos1 & -> & D1). cbn [mbind outcome_mbind outcome_bind].
  destruct (IH _ _ _ D1 Hnd) as (m' & seen' & infos' & -> & D' & Hm').
  { intros k' v' Hin. destruct (Hl k' v') as (Hm1 & Hf'); [by right|]. split; [|done]. rewrite lookup_insert_ne; [done|].
    intros ->%split_nul_inj. apply Hk. apply list_elem_of_fmap. by exists (k', v'). }
  exists m', seen', infos'. split; [done|]. split; [done|]. intros f w. rewrite Hm', lookup_insert_Some. split.
  - intros [[[<- <-]|[_ ?]]|(k' & Hin & <-)]; [right; exists k; split; [by left|done]|by left|right; exists k'; split; [by right|done]].
  - intros [Hfw|(k' & [[= <- <-]|Hin]%elem_of_cons & <-)].
    + destruct (decide (split_nul k = f)) as [<-|]; [congruence|]. left. by right.
    + left. by left.
    + right. by exists k'.
Qed.
