(* ===== verification/Counted.v ===== *)
(** * Counters and documents

    Which counters of the catalog a document is part of ([Tally] in
    [graph-store/src/common.rs]), and what each counter sums to over the
    documents of a store. *)
From S2P Require Import Prelude Text StrOps Schema Varint Stream StreamRound Posting DictBlock Table DictRev.
From S2P Require Import Language Walk Prep Located Db Catalog Reader Encoding Write Dict Store Entities Content Ingest.
From S2P Require Import Commit Prepare Describe Described.

Lemma split_nul_free s : Forall nul_free (split_nul s).
Proof.
  induction s as [|c s IH]; cbn; [by repeat constructor; apply not_elem_of_nil|]. destruct (c =? 0) eqn:E; bool_prop.
  - constructor; [apply not_elem_of_nil|done].
  - destruct (split_nul s) as [|f fs]; [repeat constructor|]; [apply not_elem_of_cons; split; [done|apply not_elem_of_nil]|].
    apply Forall_cons in IH as [Hf Hfs]. constructor; [|done]. unfold nul_free in *. by apply not_elem_of_cons.
Qed.

Definition clean_key (key : str * str) : Prop := nul_free key.1 ∧ nul_free key.2.

Lemma hit_keys t fs t' fs' :
  nul_free (lit t) → nul_free (lit t') → Forall nul_free fs → Forall nul_free fs' →
  hit (cat_key t fs) (cat_key t' fs') = ind (lit t' = lit t ∧ fs' = fs).
Proof.
  intros Ht Ht' Hf Hf'. unfold hit, ind. destruct (decide (cat_key t' fs' = cat_key t fs)) as [E|E].
  - apply (f_equal split_nul) in E. rewrite !split_cat_key in E by done. injection E as E1 E2. by rewrite decide_True.
  - rewrite decide_False; [done|]. intros [E1 E2]. apply E. unfold cat_key. by rewrite E1, E2.
Qed.

Lemma kind_name_nul k : nul_free (SymbolKind_as_str k).
Proof. unfold nul_free. by destruct k; apply (bool_decide_unpack _). Qed.
Lemma class_name_nul c : nul_free (TokenClass_as_str c).
Proof. unfold nul_free. by destruct c; apply (bool_decide_unpack _). Qed.
Lemma sym_label_nul s : (∀ k, sd_lang_kind s = Some k → nul_free k) → nul_free (sym_label s).
Proof.
  intros Hk. unfold sym_label, kind_label. cbn [with_symbol_kind n_symbol_kind n_lang_kind default from_option id].
  destruct (sd_lang_kind s) as [k|]; [|apply kind_name_nul]. case_decide; [apply kind_name_nul|].
  unfold nul_free. rewrite !not_elem_of_app. split_and!; [apply kind_name_nul| |by apply Hk].
  by apply (bool_decide_unpack _).
Qed.

(** The tags of the counters. *)
Definition tags : list string := ["f"; "e"; "l"; "s"; "k"; "t"; "c"]%string.
Lemma tag_nul t : t ∈ tags → nul_free (lit t) ∧ ∀ fs, counter (cat_key t fs).
Proof.
  intros Hin. unfold nul_free, counter. repeat (apply elem_of_cons in Hin as [->|Hin]; [split; [by apply (bool_decide_unpack _)|done]|]).
  by apply elem_of_nil in Hin.
Qed.

(** The counters of one document, by key. *)
Section hits.
Context (k : dkey) (v : Doc).
Hypothesis Hk : clean_key k.1.
Hypothesis Hv : clean_doc v.

Lemma lang_nul : nul_free (doc_lang v).
Proof. destruct Hv as (Hl & _). unfold doc_lang. destruct (doc_language v) as [l|]; [by apply Hl|]. by apply (bool_decide_unpack (0 ∉ lit "unknown")). Qed.

Lemma sum_zero {A} (g : A → Z) l : (∀ x, x ∈ l → g x = 0) → sum_list g l = 0.
Proof. induction l as [|x l IH]; intros Hg; cbn; [done|]. rewrite (Hg x), IH; [done| |by left]. intros y Hy. apply Hg. by right. Qed.
Lemma sum_const {A} (g : A → Z) z l : (∀ x, x ∈ l → g x = z) → sum_list g l = z * Z.of_nat (length l).
Proof. induction l as [|x l IH]; intros Hg; cbn [sum_list length]; [lia|]. rewrite (Hg x), IH; [lia| |by left]. intros y Hy. apply Hg. by right. Qed.
Lemma sum_same {A} (g h : A → Z) l : (∀ x, x ∈ l → g x = h x) → sum_list g l = sum_list h l.
Proof. induction l as [|x l IH]; intros Hg; cbn; [done|]. rewrite (Hg x), IH; [done| |by left]. intros y Hy. apply Hg. by right. Qed.

(** The same over the fields of the key. *)
Definition field_hits (t : str) (fs : list str) : Z :=
  let o := k.1.1 in
  let r := k.1.2 in
  ind (t = lit "f" ∧ fs = [o; r; doc_lang v]) +
  (match fm_encoding (doc_meta v) with Some e => ind (t = lit "e" ∧ fs = [o; r; e]) | None => 0 end +
   (if fm_lossy (doc_meta v) then ind (t = lit "l" ∧ fs = [o; r]) else 0)) +
  (sum_list (λ s, ind (t = lit "s" ∧ fs = [o; r; doc_lang v]) + ind (t = lit "k" ∧ fs = [o; r; doc_lang v; sym_label s]))
     (ex_symbols (doc_ex v)) +
   sum_list (λ x, ind (t = lit "t" ∧ fs = [o; r; doc_lang v]) + ind (t = lit "c" ∧ fs = [o; r; TokenClass_as_str (td_class x)]))
     (ex_tokens (doc_ex v))).

(** The keys a document counts under. *)
Definition doc_keys : list (list str) :=
  let o := k.1.1 in
  let r := k.1.2 in
  [[lit "f"; o; r; doc_lang v]] ++ (match fm_encoding (doc_meta v) with Some e => [[lit "e"; o; r; e]] | None => [] end) ++
  (if fm_lossy (doc_meta v) then [[lit "l"; o; r]] else []) ++
  (ex_symbols (doc_ex v) ≫= λ s, [[lit "s"; o; r; doc_lang v]; [lit "k"; o; r; doc_lang v; sym_label s]]) ++
  (ex_tokens (doc_ex v) ≫= λ x, [[lit "t"; o; r; doc_lang v]; [lit "c"; o; r; TokenClass_as_str (td_class x)]]).

Lemma field_hits_keys t fs : field_hits t fs = sum_list (λ g, ind (t :: fs = g)) doc_keys.
Proof.
  assert (∀ (t t' : str) (gs gs' : list str), ind (t :: gs = t' :: gs') = ind (t = t' ∧ gs = gs')) as Hc.
  { intros. unfold ind. repeat case_decide; naive_solver. }
  assert (∀ {A} (g h : A → list str) l, sum_list (λ x, ind (t :: fs = x)) (l ≫= λ s, [g s; h s]) =
    sum_list (λ s, ind (t :: fs = g s) + ind (t :: fs = h s)) l) as Hb.
  { intros A g h l. induction l as [|x l IH]; [done|]. rewrite bind_cons, sum_list_app, IH. cbn [sum_list]. lia. }
  unfold doc_keys. rewrite !sum_list_app, !Hb. unfold field_hits. cbn [sum_list].
  assert (∀ {A} (g g' : A → list str) (a b : str) l, sum_list (λ s, ind (t :: fs = a :: g s) + ind (t :: fs = b :: g' s)) l =
    sum_list (λ s, ind (t = a ∧ fs = g s) + ind (t = b ∧ fs = g' s)) l) as He.
  { intros A g g' a b l. apply sum_same. intros x _. by rewrite !Hc. }
  rewrite !He, Hc. destruct (fm_encoding _), (fm_lossy _); cbn [sum_list]; rewrite ?Hc; lia.
Qed.

Lemma doc_keys_rows : Forall (λ g, row_fields k.1 g ∧ head g ≠ Some (lit "r") ∧ Forall nul_free g) doc_keys.
Proof.
  destruct Hk as [Ho Hr]. pose proof lang_nul as Hl. destruct Hv as (_ & He & Hs). rewrite Forall_forall in Hs.
  assert (∀ tag, tag ∈ tags → nul_free (lit tag)) as Htag by (intros tag Hin; by apply tag_nul).
  unfold doc_keys. rewrite !Forall_app, !Forall_bind. split_and!.
  - apply Forall_singleton. split_and!; [constructor|done|]. repeat constructor; try done. apply Htag. unfold tags. set_solver.
  - destruct (fm_encoding (doc_meta v)) as [e|]; [|constructor]. apply Forall_singleton. split_and!; [constructor|done|].
    repeat constructor; try done; [apply Htag; unfold tags; set_solver|by apply He].
  - destruct (fm_lossy (doc_meta v)); [|constructor]. apply Forall_singleton. split_and!; [constructor|done|].
    repeat constructor; try done. apply Htag; unfold tags; set_solver.
  - apply Forall_forall. intros s Hin. apply Forall_cons. split; [|apply Forall_singleton]; (split_and!; [constructor|done|]);
      repeat constructor; try done; [apply Htag; unfold tags; set_solver|apply Htag; unfold tags; set_solver|by apply sym_label_nul, Hs].
  - apply Forall_forall. intros s Hin. apply Forall_cons. split; [|apply Forall_singleton]; (split_and!; [constructor|done|]);
      repeat constructor; try done; [apply Htag; unfold tags; set_solver|apply Htag; unfold tags; set_solver|apply class_name_nul].
Qed.

Lemma doc_hits_key c : doc_hits c k v ≠ 0 → ∃ t fs, t ∈ tags ∧ Forall nul_free fs ∧ c = cat_key t fs.
Proof.
  set (G := ∃ t fs, _). destruct Hk as [Ho Hr]. pose proof lang_nul as Hl. destruct Hv as (_ & He & Hs). rewrite Forall_forall in Hs.
  assert (∀ t fs, t ∈ tags → Forall nul_free fs → hit (cat_key t fs) c = 0 ∨ G) as Hh.
  { intros t fs Ht Hfs. unfold hit. case_decide as E; [right|by left]. by exists t, fs. }
  assert (∀ {A} (g : A → Z) l, (∀ x, x ∈ l → g x = 0 ∨ G) → sum_list g l = 0 ∨ G) as Hsum.
  { intros A g l Hg. induction l as [|x l IH]; [by left|]. destruct (Hg x) as [Hx|?]; [by left| |by right].
    destruct IH as [IH|?]; [intros; apply Hg; by right| |by right]. left. cbn. lia. }
  intros Hne. unfold doc_hits, file_hits, enc_hits, ex_hits in Hne. cbn [scope_of sc_org sc_repo sc_lang sc_encoding sc_lossy] in Hne.
  fold (doc_lang v) in Hne.
  destruct (Hh "f" [k.1.1; k.1.2; doc_lang v]) as [H1|]; [unfold tags; set_solver|by repeat constructor| |done].
  assert (match fm_encoding (doc_meta v) with Some e => hit (cat_key "e" [k.1.1; k.1.2; e]) c | None => 0 end = 0 ∨ G) as [H2|]; [|..|done].
  { destruct (fm_encoding (doc_meta v)) as [e|]; [|by left]. apply Hh; [unfold tags; set_solver|]. repeat constructor; try done. by apply He. }
  assert ((if fm_lossy (doc_meta v) then hit (cat_key "l" [k.1.1; k.1.2]) c else 0) = 0 ∨ G) as [H3|]; [|..|done].
  { destruct (fm_lossy (doc_meta v)); [|by left]. apply Hh; [unfold tags; set_solver|by repeat constructor]. }
  destruct (Hsum _ (sym_hits (scope_of k v) c) (ex_symbols (doc_ex v))) as [H4|]; [|..|done].
  { intros x Hx. destruct (Hh "s" [k.1.1; k.1.2; doc_lang v]) as [E1|]; [unfold tags; set_solver|by repeat constructor| |by right].
    destruct (Hh "k" [k.1.1; k.1.2; doc_lang v; sym_label x]) as [E2|]; [unfold tags; set_solver| | |by right].
    - repeat constructor; try done. by apply sym_label_nul, Hs.
    - left. unfold sym_hits, node_hits. cbn [with_symbol_kind n_kind blank scope_of sc_org sc_repo sc_lang]. fold (doc_lang v) (sym_label x). lia. }
  destruct (Hsum _ (tok_hits (scope_of k v) c) (ex_tokens (doc_ex v))) as [H5|]; [|..|done].
  { intros x Hx. destruct (Hh "t" [k.1.1; k.1.2; doc_lang v]) as [E1|]; [unfold tags; set_solver|by repeat constructor| |by right].
    destruct (Hh "c" [k.1.1; k.1.2; TokenClass_as_str (td_class x)]) as [E2|]; [unfold tags; set_solver| | |by right].
    - repeat constructor; try done. apply class_name_nul.
    - left. unfold tok_hits, node_hits. cbn [with_token_class n_kind n_token_class blank scope_of sc_org sc_repo sc_lang]. fold (doc_lang v). lia. }
  lia.
Qed.

Lemma field_nonzero t fs :
  field_hits t fs ≠ 0 → row_fields k.1 (t :: fs) ∧ t ≠ lit "r" ∧ Forall nul_free (t :: fs).
Proof.
  rewrite field_hits_keys. intros Hne. pose proof doc_keys_rows as HF. rewrite Forall_forall in HF.
  destruct (decide (t :: fs ∈ doc_keys)) as [Hin|Hin].
  - destruct (HF _ Hin) as (? & ? & ?). split_and!; [done|by intros ->|done].
  - destruct Hne. apply sum_zero. intros g Hg. unfold ind. rewrite decide_False; [done|]. by intros <-.
Qed.

Lemma doc_hits_fields t fs : nul_free (lit t) → Forall nul_free fs → doc_hits (cat_key t fs) k v = field_hits (lit t) fs.
Proof.
  intros Ht Hfs. destruct Hk as [Ho Hr]. pose proof lang_nul as Hl. destruct Hv as (_ & He & Hs).
  assert (∀ tag, tag ∈ tags → nul_free (lit tag)) as Htag by (intros tag Hin; by apply tag_nul).
  unfold doc_hits, file_hits, enc_hits, ex_hits, field_hits. cbn [scope_of sc_org sc_repo sc_lang sc_encoding sc_lossy]. fold (doc_lang v).
  rewrite (hit_keys "f") by first [done|by apply Htag; unfold tags; set_solver|by repeat constructor].
  f_equal; [f_equal; f_equal|f_equal; apply sum_same].
  - destruct (fm_encoding (doc_meta v)) as [e|]; [|done]. apply hit_keys; [apply Htag; unfold tags; set_solver|done| |done]. repeat constructor; try done. by apply He.
  - destruct (fm_lossy (doc_meta v)); [|done]. apply hit_keys; [apply Htag; unfold tags; set_solver|done|by repeat constructor|done].
  - intros x Hx. unfold sym_hits, node_hits. cbn [with_symbol_kind n_kind blank scope_of sc_org sc_repo sc_lang]. fold (doc_lang v).
    fold (sym_label x). rewrite Forall_forall in Hs.
    rewrite !hit_keys by first [done|by apply Htag; unfold tags; set_solver|by repeat (constructor || apply sym_label_nul, Hs)]. done.
  - intros x Hx. unfold tok_hits, node_hits. cbn [with_token_class n_kind n_token_class blank scope_of sc_org sc_repo sc_lang]. fold (doc_lang v).
    rewrite !hit_keys by first [done|by apply Htag; unfold tags; set_solver|by repeat (constructor || apply class_name_nul)]. done.
Qed.
End hits.

Lemma ind_tag (t t' : str) (fs gs : list str) : t ≠ t' → ind (t = t' ∧ fs = gs) = 0.
Proof. intros Hne. unfold ind. rewrite decide_False; [done|]. by intros [? _]. Qed.
Lemma ind_own (t : str) (fs gs : list str) : ind (t = t ∧ fs = gs) = ind (fs = gs).
Proof. unfold ind. destruct (decide (fs = gs)); [by rewrite decide_True|rewrite decide_False; [done|]]. by intros [_ ?]. Qed.
Lemma ind_iff (P Q : Prop) `{Decision P, Decision Q} : (P ↔ Q) → ind P = ind Q.
Proof. intros HPQ. unfold ind. destruct (decide P), (decide Q); tauto. Qed.
Ltac tag_rows := repeat match goal with
  | |- context [ind (?t = ?t ∧ _)] => rewrite (ind_own t)
  | |- context [ind (?t = ?t' ∧ ?a = ?b)] => rewrite (ind_tag t t' a b) by done
  end.

Lemma ind_in_repo (k : dkey) (key : str * str) P `{Decision P} (fs gs : list str) :
  (fs = gs ↔ k.1 = key ∧ P) → ind (fs = gs) = if decide (k.1 = key) then ind P else 0.
Proof. intros Hiff. unfold ind. repeat case_decide; tauto. Qed.

Lemma field_f k v key l :
  field_hits k v (lit "f") [key.1; key.2; l] = if decide (k.1 = key) then ind (doc_lang v = l) else 0.
Proof.
  unfold field_hits. rewrite !sum_zero by (intros; tag_rows; done). tag_rows.
  rewrite (ind_in_repo k key (doc_lang v = l)) by (destruct k as [[]], key; cbn; naive_solver).
  destruct (fm_encoding _), (fm_lossy _); tag_rows; lia.
Qed.
Lemma field_e k v key e :
  field_hits k v (lit "e") [key.1; key.2; e] = if decide (k.1 = key) then ind (fm_encoding (doc_meta v) = Some e) else 0.
Proof.
  unfold field_hits. rewrite !sum_zero by (intros; tag_rows; done). tag_rows.
  destruct (fm_encoding _) as [e'|], (fm_lossy _); tag_rows; rewrite ?(ind_in_repo k key (Some e' = Some e)) by (destruct k as [[]], key; cbn; naive_solver);
    unfold ind; repeat case_decide; lia || done.
Qed.
Lemma field_l k v key :
  field_hits k v (lit "l") [key.1; key.2] = if decide (k.1 = key) then if fm_lossy (doc_meta v) then 1 else 0 else 0.
Proof.
  unfold field_hits. rewrite !sum_zero by (intros; tag_rows; done). tag_rows.
  destruct (fm_encoding _) as [e'|], (fm_lossy _); tag_rows; rewrite ?(ind_in_repo k key True) by (destruct k as [[]], key; cbn; naive_solver);
    unfold ind; repeat case_decide; lia || done.
Qed.
Lemma field_s k v key l :
  field_hits k v (lit "s") [key.1; key.2; l] =
  if decide (k.1 = key) then if decide (doc_lang v = l) then Z.of_nat (length (ex_symbols (doc_ex v))) else 0 else 0.
Proof.
  unfold field_hits. rewrite (sum_zero (λ x : TokenDecl, _)) by (intros; tag_rows; done).
  rewrite (sum_const _ (if decide (k.1 = key) then ind (doc_lang v = l) else 0)).
  2:{ intros x _. tag_rows. rewrite (ind_in_repo k key (doc_lang v = l)) by (destruct k as [[]], key; cbn; naive_solver). lia. }
  destruct (fm_encoding _), (fm_lossy _); tag_rows; unfold ind; repeat case_decide; lia.
Qed.
Lemma field_t k v key l :
  field_hits k v (lit "t") [key.1; key.2; l] =
  if decide (k.1 = key) then if decide (doc_lang v = l) then Z.of_nat (length (ex_tokens (doc_ex v))) else 0 else 0.
Proof.
  unfold field_hits. rewrite (sum_zero (λ x : SymbolDecl, _)) by (intros; tag_rows; done).
  rewrite (sum_const _ (if decide (k.1 = key) then ind (doc_lang v = l) else 0)).
  2:{ intros x _. tag_rows. rewrite (ind_in_repo k key (doc_lang v = l)) by (destruct k as [[]], key; cbn; naive_solver). lia. }
  destruct (fm_encoding _), (fm_lossy _); tag_rows; unfold ind; repeat case_decide; lia.
Qed.
Lemma field_c k v key c :
  field_hits k v (lit "c") [key.1; key.2; c] = if decide (k.1 = key) then class_count c v else 0.
Proof.
  unfold field_hits. rewrite (sum_zero (λ x : SymbolDecl, _)) by (intros; tag_rows; done).
  rewrite (sum_same _ (λ x, if decide (k.1 = key) then ind (TokenClass_as_str (td_class x) = c) else 0)).
  2:{ intros x _. tag_rows. rewrite (ind_in_repo k key (TokenClass_as_str (td_class x) = c)) by (destruct k as [[]], key; cbn; naive_solver). lia. }
  unfold class_count. destruct (fm_encoding _), (fm_lossy _); tag_rows; case_decide; rewrite ?sum_zero by done; lia.
Qed.
Lemma field_k k v key l x :
  field_hits k v (lit "k") [key.1; key.2; l; x] =
  if decide (k.1 = key) then if decide (doc_lang v = l) then kind_count x v else 0 else 0.
Proof.
  unfold field_hits. rewrite (sum_zero (λ x : TokenDecl, _)) by (intros; tag_rows; done).
  rewrite (sum_same _ (λ y, if decide (k.1 = key) then if decide (doc_lang v = l) then ind (sym_label y = x) else 0 else 0)).
  2:{ intros y _. tag_rows. rewrite (ind_in_repo k key (doc_lang v = l ∧ sym_label y = x)) by (destruct k as [[]], key; cbn; naive_solver).
      unfold ind. repeat case_decide; naive_solver lia. }
  unfold kind_count. destruct (fm_encoding _), (fm_lossy _); tag_rows; repeat case_decide; rewrite ?sum_zero by done; lia.
Qed.

Lemma sum_map_ext {V} (g h : dkey → V → Z) (a : gmap dkey V) :
  (∀ k v, a !! k = Some v → g k v = h k v) → sum_map g a = sum_map h a.
Proof.
  intros Hgh. unfold sum_map. apply sum_same. intros [k v] Hin%elem_of_map_to_list. by apply Hgh.
Qed.
Lemma sum_map_pos {V} (g : dkey → V → Z) (a : gmap dkey V) :
  0 < sum_map g a → ∃ k v, a !! k = Some v ∧ g k v ≠ 0.
Proof.
  intros Hpos. destruct (decide (Exists (λ kv, g kv.1 kv.2 ≠ 0) (map_to_list a))) as [HE|HE].
  - apply Exists_exists in HE as ([k v] & Hin%elem_of_map_to_list & Hg). by exists k, v.
  - unfold sum_map in Hpos. rewrite sum_zero in Hpos; [lia|]. intros kv Hin. apply not_Exists_Forall in HE; [|apply _].
    rewrite Forall_forall in HE. specialize (HE _ Hin). cbn in HE. lia.
Qed.

(** The languages of a repository partition its documents. *)
Lemma in_repo_langs (a : gmap dkey Doc) key g ls :
  NoDup ls → (∀ k v, a !! k = Some v → k.1 = key → doc_lang v ∈ ls) →
  sum_list (λ l, in_lang a key l g) ls = in_repo a key g.
Proof.
  intros Hnd. induction a as [|k v a Hk IH] using map_ind; intros Hall.
  { unfold in_lang, in_repo, sum_map. rewrite map_to_list_empty. by apply sum_zero. }
  unfold in_repo in *. rewrite sum_map_insert by done.
  rewrite <- IH by (intros k' v' Hk'; apply Hall; rewrite lookup_insert_ne; [done|congruence]).
  assert (sum_list (λ l, in_lang (<[k := v]> a) key l g) ls =
    sum_list (λ l, (if decide (k.1 = key) then if decide (doc_lang v = l) then g v else 0 else 0) + in_lang a key l g) ls) as ->.
  { apply sum_same. intros l _. unfold in_lang, in_repo. by rewrite sum_map_insert. }
  assert (∀ (p q : str → Z), sum_list (λ l, p l + q l) ls = sum_list p ls + sum_list q ls) as Hplus.
  { intros p q. clear. induction ls as [|l ls IH]; cbn; [done|]. lia. }
  rewrite Hplus. f_equal. case_decide as Hkey; [|by apply sum_zero].
  assert (doc_lang v ∈ ls) as Hin by (apply (Hall k v); [by rewrite lookup_insert_eq|done]).
  clear -Hnd Hin. induction ls as [|l ls IH]; [by apply elem_of_nil in Hin|]. apply NoDup_cons in Hnd as [Hl Hnd]. cbn [sum_list].
  apply elem_of_cons in Hin as [->|Hin].
  - rewrite decide_True, sum_zero; [lia| |done]. intros x Hx. rewrite decide_False; [done|congruence].
  - rewrite decide_False, IH by first [done|congruence]. lia.
Qed.

Lemma pos_none z : 0 ≤ z → pos z = None ↔ z = 0.
Proof. unfold pos. intros Hz. destruct (0 <? z) eqn:E; bool_prop; naive_solver lia. Qed.
Lemma pos_default z : 0 ≤ z → default 0 (pos z) = z.
Proof. unfold pos. intros Hz. destruct (0 <? z) eqn:E; bool_prop; cbn; lia. Qed.

Section counters.
Context (a : gmap dkey Doc).
Hypothesis clean : ∀ k v, a !! k = Some v → clean_key k.1 ∧ clean_doc v.

Lemma total_fields t fs :
  nul_free (lit t) → Forall nul_free fs → total a (cat_key t fs) = sum_map (λ k v, field_hits k v (lit t) fs) a.
Proof. intros Ht Hfs. apply sum_map_ext. intros k v Ha. destruct (clean _ _ Ha). by apply doc_hits_fields. Qed.

(** The rows of the counters. *)
Definition counter_rows (m : gmap (list str) Z) : Prop :=
  ∀ t fs, t ∈ tags → m !! (lit t :: fs) = pos (sum_map (λ k v, field_hits k v (lit t) fs) a).
(** The file count, summed over the rows of the languages. *)
Lemma file_rows_sum m key :
  (∀ l, m !! [lit "f"; key.1; key.2; l] = pos (in_lang a key l (λ _, 1))) →
  sum_map (file_rows key) m = in_repo a key (λ _, 1).
Proof.
  intros Hm. pose (lang_of := λ f : list str, match f with [t; o; r; l] => if decide (t = lit "f" ∧ (o, r) = key) then Some l else None | _ => None end).
  assert (∀ f l, lang_of f = Some l → f = [lit "f"; key.1; key.2; l]) as Hl.
  { intros f l. destruct f as [|t [|o [|r [|l' []]]]]; try done. unfold lang_of. case_decide as E; [|done]. intros [= ->]. by destruct E as [-> <-]. }
  assert (∀ (L : list (list str * Z)), Forall (λ fv, m !! fv.1 = Some fv.2) L → NoDup L.*1 →
    sum_list (λ fv, file_rows key fv.1 fv.2) L = sum_list (λ l, in_lang a key l (λ _, 1)) (omap lang_of L.*1) ∧ NoDup (omap lang_of L.*1)) as HL.
  { induction L as [|[f v] L IH]; intros HF Hnd; cbn [fmap list_fmap fst]; [by split; [|constructor]|].
    apply Forall_cons in HF as [Hf HF]. cbn in Hnd. apply NoDup_cons in Hnd as [Hn Hnd]. destruct (IH HF Hnd) as [IH1 IH2].
    cbn [sum_list fst snd omap list_omap]. destruct (lang_of f) as [l|] eqn:El.
    - pose proof El as Ef%Hl. subst f. cbn [fst snd] in Hf. rewrite Hm in Hf. cbn [sum_list]. rewrite IH1. split.
      + unfold file_rows. rewrite decide_True by (by destruct key). unfold pos in Hf. destruct (0 <? _); [by injection Hf as ->|done].
      + constructor; [|done]. intros (f' & Hin & Hf')%list_elem_of_omap. apply Hl in Hf'. subst. done.
    - split; [|done]. rewrite IH1. assert (file_rows key f v = 0); [|lia]. unfold lang_of in El. unfold file_rows.
      destruct f as [|t [|o [|r [|l' []]]]]; try done. by case_decide. }
  destruct (HL (map_to_list m)) as [HL1 HL2]; [|apply NoDup_fst_map_to_list|].
  { apply Forall_forall. by intros [f v] Hin%elem_of_map_to_list. }
  unfold sum_map at 1. rewrite HL1. apply in_repo_langs; [done|]. intros k v Hk Hkey. apply list_elem_of_omap.
  exists [lit "f"; key.1; key.2; doc_lang v]. split.
  - apply list_elem_of_fmap. exists ([lit "f"; key.1; key.2; doc_lang v], in_lang a key (doc_lang v) (λ _, 1)). split; [done|].
    apply elem_of_map_to_list. rewrite Hm. unfold pos. rewrite (proj2 (Z.ltb_lt _ _)); [done|].
    unfold in_lang, in_repo. rewrite (sum_map_delete _ a k v Hk). rewrite !decide_True by done.
    match goal with |- 0 < 1 + ?x => enough (0 ≤ x) by lia end. apply sum_map_nonneg. intros. repeat case_decide; lia.
  - unfold lang_of. by rewrite decide_True by (by destruct key).
Qed.

(** No symbol or token is counted in a language without files. *)
Lemma in_lang_zero key l g : in_lang a key l (λ _, 1) = 0 → in_lang a key l g = 0.
Proof.
  intros Hz. destruct (decide (in_lang a key l g = 0)) as [|Hne]; [done|]. exfalso.
  assert (∃ k v, a !! k = Some v ∧ k.1 = key ∧ doc_lang v = l) as (k & v & Hk & Hkey & Hl).
  { destruct (decide (Exists (λ kv, kv.1.1 = key ∧ doc_lang kv.2 = l) (map_to_list a))) as [HE|HE].
    - apply Exists_exists in HE as ([k v] & Hin%elem_of_map_to_list & ? & ?). by exists k, v.
    - destruct Hne. unfold in_lang, in_repo, sum_map. apply sum_zero. intros kv Hin. apply not_Exists_Forall in HE; [|apply _].
      rewrite Forall_forall in HE. specialize (HE _ Hin). cbn in HE. repeat case_decide; tauto. }
  unfold in_lang, in_repo in Hz. rewrite (sum_map_delete _ a k v Hk), !decide_True in Hz by done.
  match type of Hz with 1 + ?x = 0 => enough (0 ≤ x) by lia end. apply sum_map_nonneg. intros. repeat case_decide; lia.
Qed.

Lemma in_lang_nonneg key l g : (∀ v, 0 ≤ g v) → 0 ≤ in_lang a key l g.
Proof. intros Hg. apply sum_map_nonneg. intros k v. repeat case_decide; by auto. Qed.
Lemma in_repo_nonneg key g : (∀ v, 0 ≤ g v) → 0 ≤ in_repo a key g.
Proof. intros Hg. apply sum_map_nonneg. intros k v. repeat case_decide; by auto. Qed.
End counters.

Lemma sum_field_nonneg k v t fs : 0 ≤ field_hits k v t fs.
Proof. rewrite field_hits_keys. apply sum_list_nonneg. intros. unfold ind. case_decide; lia. Qed.
Lemma count_nonneg : (∀ k v, 0 ≤ kind_count k v) ∧ (∀ c v, 0 ≤ class_count c v).
Proof. split; intros; apply sum_list_nonneg; intros; unfold ind; case_decide; lia. Qed.

(** ** Summaries of documents *)
Section summaries.
Context (a : gmap dkey Doc) (m : gmap (list str) Z) (key : str * str).
Hypothesis rows : counter_rows a m.

Lemma row_f_is l : m !! [lit "f"; key.1; key.2; l] = pos (in_lang a key l (λ _, 1)).
Proof. rewrite (rows "f") by (unfold tags; set_solver). f_equal. apply sum_map_ext. intros k v _. apply field_f. Qed.
Lemma row_s_is l : m !! [lit "s"; key.1; key.2; l] = pos (in_lang a key l (λ v, Z.of_nat (length (ex_symbols (doc_ex v))))).
Proof. rewrite (rows "s") by (unfold tags; set_solver). f_equal. apply sum_map_ext. intros k v _. apply field_s. Qed.
Lemma row_t_is l : m !! [lit "t"; key.1; key.2; l] = pos (in_lang a key l (λ v, Z.of_nat (length (ex_tokens (doc_ex v))))).
Proof. rewrite (rows "t") by (unfold tags; set_solver). f_equal. apply sum_map_ext. intros k v _. apply field_t. Qed.
Lemma row_k_is l x : m !! [lit "k"; key.1; key.2; l; x] = pos (in_lang a key l (kind_count x)).
Proof. rewrite (rows "k") by (unfold tags; set_solver). f_equal. apply sum_map_ext. intros k v _. apply field_k. Qed.
Lemma row_c_is c : m !! [lit "c"; key.1; key.2; c] = pos (in_repo a key (class_count c)).
Proof. rewrite (rows "c") by (unfold tags; set_solver). f_equal. apply sum_map_ext. intros k v _. apply field_c. Qed.
Lemma row_e_is e : m !! [lit "e"; key.1; key.2; e] = pos (in_repo a key (λ v, ind (fm_encoding (doc_meta v) = Some e))).
Proof. rewrite (rows "e") by (unfold tags; set_solver). f_equal. apply sum_map_ext. intros k v _. apply field_e. Qed.
Lemma row_l_is : m !! [lit "l"; key.1; key.2] = pos (in_repo a key (λ v, if fm_lossy (doc_meta v) then 1 else 0)).
Proof. rewrite (rows "l") by (unfold tags; set_solver). f_equal. apply sum_map_ext. intros k v _. apply field_l. Qed.

Lemma rows_info_docs i : rows_info m key i → info_is a None key i.
Proof.
  intros [K O F L E C A]. destruct count_nonneg as [Hkn _]. split; try done.
  - rewrite F. apply file_rows_sum, row_f_is.
  - rewrite L, row_l_is. apply pos_default, in_repo_nonneg. intros v. by destruct (fm_lossy _).
  - intros e. by rewrite E, row_e_is.
  - intros c. by rewrite C, row_c_is.
  - intros l. specialize (A l). unfold lang_rows in A. rewrite row_f_is, row_s_is, row_t_is in A. unfold lang_is. destruct (ri_languages i !! l) as [li|].
    + destruct A as (Hsome & -> & -> & -> & Hk). rewrite !pos_default by (apply in_lang_nonneg; intros; lia).
      split_and!; [|done..|intros k; by rewrite Hk, row_k_is]. destruct (decide (in_lang a key l (λ _, 1) = 0)) as [Hz|Hz].
      * exfalso. rewrite Hz, !(in_lang_zero a key l _ Hz) in Hsome.
        destruct Hsome as [[x Hx]|[[x Hx]|[[x Hx]|[k [x Hx]]]]]; try done. by rewrite row_k_is, (in_lang_zero a key l _ Hz) in Hx.
      * pose proof (in_lang_nonneg a key l (λ _, 1) ltac:(done)). lia.
    + destruct A as (Hf & _). apply pos_none in Hf; [done|]. by apply in_lang_nonneg.
Qed.
End summaries.
