(* ===== verification/Scan.v ===== *)
(** * Describing a store by decoding its files

    The loop of [describe_by_scan] ([graph-store/src/v2.rs]): after a prefix
    of the nodes in id order, the summaries are those of the documents whose
    files are in the prefix. *)
From S2P Require Import Prelude Text StrOps Schema Varint Stream StreamRound Posting Table DictRev Ranges Navigate.
From S2P Require Import Language Walk Prep Located Db Catalog Reader Write Dict Store Entities Content Ingest.
From S2P Require Import Describe Counted.

(** ** Counting in a map *)

Lemma bump_pos (g : str → Z) m x :
  (∀ c, 0 ≤ g c) → (∀ c, m !! c = pos (g c)) → ∀ c, bump x m !! c = pos (g c + ind (x = c)).
Proof.
  intros Hg Hm c. unfold bump, ind. specialize (Hg x) as Hx. case_decide as Hc.
  - subst c. rewrite lookup_insert_eq, Hm. unfold pos. rewrite (proj2 (Z.ltb_lt 0 (g x + 1))) by lia.
    destruct (0 <? g x) eqn:E; bool_prop; cbn; f_equal; lia.
  - rewrite lookup_insert_ne, Hm by done. f_equal. lia.
Qed.
Lemma ind_nonneg P `{Decision P} : 0 ≤ ind P.
Proof. unfold ind. case_decide; lia. Qed.

Lemma bump_fold {A} (lab : A → str) l : ∀ (g : str → Z) m,
  (∀ c, 0 ≤ g c) → (∀ c, m !! c = pos (g c)) →
  ∀ c, foldl (λ m t, bump (lab t) m) m l !! c = pos (g c + sum_list (λ t, ind (lab t = c)) l).
Proof.
  induction l as [|t l IH]; intros g m Hg Hm c; cbn; [by rewrite Hm, Z.add_0_r|].
  rewrite (IH (λ c, g c + ind (lab t = c))).
  - f_equal. cbn. lia.
  - intros x. specialize (Hg x). pose proof (ind_nonneg (lab t = x)). lia.
  - by apply bump_pos.
Qed.

Lemma in_repo_insert a k v key g :
  a !! k = None → in_repo (<[k := v]> a) key g = in_repo a key g + if decide (k.1 = key) then g v else 0.
Proof. intros Hk. unfold in_repo. rewrite sum_map_insert by done. lia. Qed.
Lemma in_lang_insert a k v key l g :
  a !! k = None →
  in_lang (<[k := v]> a) key l g = in_lang a key l g + if decide (k.1 = key ∧ doc_lang v = l) then g v else 0.
Proof. intros Hk. unfold in_lang. rewrite in_repo_insert by done. f_equal. repeat case_decide; tauto. Qed.

Section scan.
Context `{Redb tbl} `{Serde} (sha256 : list Z → list Z).
Implicit Types (d : Db tbl).

(** ** The symbols of a file *)

Lemma sym_node_label d es next f syms i r s :
  dict_ok sha256 d es next → syms !! i = Some r → decl_of_sym es r = Some s →
  ∃ n, sym_node d f i syms = Ok n ∧ kind_label n = sym_label s.
Proof.
  intros Hd Hi. unfold decl_of_sym. intros (name & Hn & (lk & Hlk & (ow & _ & [= <-])%bind_Some)%bind_Some)%bind_Some.
  unfold sym_node, index. rewrite Hi. cbn [mbind outcome_mbind outcome_bind].
  rewrite (text_run _ _ _ _ _ _ Hd Hn). cbn [mbind outcome_mbind outcome_bind].
  destruct (s_lang_kind r) as [k|]; cbn in Hlk.
  - apply bind_Some in Hlk as (t & Ht & [= <-]). rewrite (text_run _ _ _ _ _ _ Hd Ht).
    cbn [mbind outcome_mbind outcome_bind]. eexists. split; [done|]. done.
  - injection Hlk as <-. cbn [mbind outcome_mbind outcome_bind]. eexists. split; [done|]. done.
Qed.

Lemma scan_symbols_run d es next f syms l : ∀ pre decls li (g : str → Z),
  dict_ok sha256 d es next → syms = pre ++ l → mapM (decl_of_sym es) l = Some decls →
  (∀ c, 0 ≤ g c) → (∀ c, li_symbol_kinds li !! c = pos (g c)) →
  ∃ li', try_fold (scan_symbol d f syms) li (seq (length pre) (length l)) = Ok li' ∧
    li_files li' = li_files li ∧ li_tokens li' = li_tokens li ∧
    li_symbols li' = li_symbols li + Z.of_nat (length decls) ∧
    ∀ c, li_symbol_kinds li' !! c = pos (g c + sum_list (λ s, ind (sym_label s = c)) decls).
Proof.
  induction l as [|r l IH]; intros pre decls li g Hd Hs Hl Hg Hk.
  { injection Hl as <-. exists li. split; [done|]. split_and!; [done|done|cbn; lia|]. intros c. by rewrite Hk, Z.add_0_r. }
  cbn in Hl. apply bind_Some in Hl as (s & Hr & (decls' & Hl & [= <-])%bind_Some).
  destruct (sym_node_label d es next f syms (length pre) r s Hd) as (n & Hn & Hlab); [|done|].
  { rewrite Hs. by rewrite lookup_app_r, Nat.sub_diag by lia. }
  cbn [length seq try_fold].
  assert (scan_symbol d f syms li (length pre) =
    Ok (li_upd_kinds (bump (sym_label s)) (li_set_symbols (li_symbols li + 1) li))) as ->.
  { unfold scan_symbol. rewrite Hn. cbn [mbind outcome_mbind outcome_bind]. by rewrite Hlab. }
  cbn [mbind outcome_mbind outcome_bind]. destruct (IH (pre ++ [r]) decls' (li_upd_kinds (bump (sym_label s)) (li_set_symbols (li_symbols li + 1) li))
    (λ c, g c + ind (sym_label s = c))) as (li' & Hrun & Hf & Ht & Hc & Hk'); [done|by rewrite <- app_assoc|done|..].
  { intros c. specialize (Hg c). pose proof (ind_nonneg (sym_label s = c)). lia. }
  { cbn. by apply bump_pos. }
  rewrite length_app, Nat.add_comm in Hrun. exists li'. split; [exact Hrun|]. split_and!; [done|done|rewrite Hc; cbn; lia|].
  intros c. rewrite Hk'. cbn. f_equal. lia.
Qed.

(** ** A file *)

(** The documents of other repositories do not change a summary. *)
Lemma info_is_other a opened k v key i :
  a !! k = None → k.1 ≠ key → info_is a opened key i → info_is (<[k := v]> a) opened key i.
Proof.
  intros Ha Hk [K O F L E C A].
  assert (∀ g, in_repo (<[k := v]> a) key g = in_repo a key g) as Hr.
  { intros g. rewrite in_repo_insert, decide_False by done. lia. }
  split; [done|done|rewrite Hr; done|rewrite Hr; done|intros; rewrite Hr; done|intros; rewrite Hr; done|].
  intros l. specialize (A l). unfold lang_is in *. destruct (ri_languages i !! l); [|unfold in_lang; by rewrite Hr].
  unfold in_lang in *. rewrite !Hr. destruct A as (? & ? & ? & ? & ?). split_and!; try done. intros x. by rewrite Hr.
Qed.

Lemma lang_is_other a k v key l o :
  a !! k = None → doc_lang v ≠ l → lang_is a key l o → lang_is (<[k := v]> a) key l o.
Proof.
  intros Ha Hl. assert (∀ g, in_lang (<[k := v]> a) key l g = in_lang a key l g) as Hr.
  { intros g. rewrite in_lang_insert, decide_False by tauto. lia. }
  unfold lang_is. destruct o; rewrite ?Hr; [|done]. intros (? & ? & ? & ? & ?). split_and!; try done. intros x. by rewrite Hr.
Qed.

(** A language's summary before a file of it is counted. *)
Lemma lang_before a key l o :
  lang_is a key l o → let li := default LanguageInfo_default o in
  li_files li = in_lang a key l (λ _, 1) ∧
  li_symbols li = in_lang a key l (λ v, Z.of_nat (length (ex_symbols (doc_ex v)))) ∧
  li_tokens li = in_lang a key l (λ v, Z.of_nat (length (ex_tokens (doc_ex v)))) ∧
  ∀ x, li_symbol_kinds li !! x = pos (in_lang a key l (kind_count x)).
Proof.
  unfold lang_is. destruct o as [li|]; cbn; [by intros (_ & ? & ? & ? & ?)|]. intros Hz.
  pose proof (λ g, in_lang_zero a key l g Hz) as Hz'. rewrite Hz, !Hz'. split_and!; try done. intros x. by rewrite lookup_empty, Hz'.
Qed.

Lemma lang_counted a k v li :
  a !! k = None →
  li_files li = in_lang a k.1 (doc_lang v) (λ _, 1) + 1 →
  li_symbols li = in_lang a k.1 (doc_lang v) (λ v, Z.of_nat (length (ex_symbols (doc_ex v)))) + Z.of_nat (length (ex_symbols (doc_ex v))) →
  li_tokens li = in_lang a k.1 (doc_lang v) (λ v, Z.of_nat (length (ex_tokens (doc_ex v)))) + Z.of_nat (length (ex_tokens (doc_ex v))) →
  (∀ x, li_symbol_kinds li !! x = pos (in_lang a k.1 (doc_lang v) (kind_count x) + kind_count x v)) →
  lang_is (<[k := v]> a) k.1 (doc_lang v) (Some li).
Proof.
  intros Ha Hf Hs Ht Hk. assert (∀ g, in_lang (<[k := v]> a) k.1 (doc_lang v) g = in_lang a k.1 (doc_lang v) g + g v) as Hr.
  { intros g. by rewrite in_lang_insert, decide_True. }
  cbn. rewrite !Hr. pose proof (in_lang_nonneg a k.1 (doc_lang v) (λ _, 1) ltac:(done)). split_and!; [lia|done..|].
  intros x. by rewrite Hr.
Qed.

Lemma stream_at d a N S es next nt f s :
  rep sha256 d a N S es next nt → S !! f = Some s → stream d f = Ok (Some (with_ranges s)).
Proof.
  intros R Hs. unfold stream. rewrite tbl_get_spec, (co_streams _ _ _ _ _ _ _ _ (rp_content _ _ _ _ _ _ _ _ R)), lookup_fmap, Hs.
  cbn [fmap option_fmap option_map]. rewrite decode_encode_run; [done|]. by apply (co_stream _ _ _ _ _ _ _ _ (rp_content _ _ _ _ _ _ _ _ R) _ _ Hs).
Qed.

Lemma tok_classes es toks decls c :
  mapM (decl_of_tok es) toks = Some decls →
  length toks = length decls ∧
  sum_list (λ t, ind (TokenClass_as_str (t_class t) = c)) toks = sum_list (λ t, ind (TokenClass_as_str (td_class t) = c)) decls.
Proof.
  intros HF%mapM_Some. split; [by eapply Forall2_length|]. apply sum_list_ext. eapply Forall2_impl; [exact HF|].
  intros t td. cbn. unfold decl_of_tok. by intros (x & _ & [= <-])%bind_Some.
Qed.

Lemma scan_file_run d a N S es next nt aP k v f n i :
  rep sha256 d a N S es next nt → N !! f = Some n → entry_at N S es f = Some (k, v) →
  aP !! k = None → info_is aP None k.1 i →
  ∃ i', scan_file d n i = Ok i' ∧ info_is (<[k := v]> aP) None k.1 i'.
Proof.
  intros R Hn He Ha [K O F L E C A]. apply entry_at_Some in He as (n' & s & _ & Hn' & Hs & Hv).
  rewrite Hn in Hn'. injection Hn' as <-.
  destruct (en_id _ _ _ _ _ (rp_ents _ _ _ _ _ _ _ _ R) _ _ Hn) as [Hid _].
  unfold doc_of in Hv. apply bind_Some in Hv as (ex & Hex & [= <-]).
  rewrite <- decls_with_ranges in Hex. unfold decls_of in Hex.
  apply bind_Some in Hex as (syms & Hsyms & (toks & Htoks & [= <-])%bind_Some). set (v := mkDoc _ _ _).
  pose proof (A (doc_lang v)) as (Hf & Hy & Ht & Hk)%lang_before.
  destruct count_nonneg as [Hkn Hcn].
  set (l0 := default LanguageInfo_default (ri_languages i !! doc_lang v)) in *. set (li0 := li_set_files (li_files l0 + 1) l0).
  destruct (scan_symbols_run d es nt f (st_symbols (with_ranges s)) (st_symbols (with_ranges s)) [] syms li0
    (λ x, in_lang aP k.1 (doc_lang v) (kind_count x))) as (li & Hrun & Hf' & Ht' & Hy' & Hk');
    [apply R|done|done|intros; by apply in_lang_nonneg|exact Hk|].
  exists (upd_classes (λ m, foldl (λ m t, bump (TokenClass_as_str (t_class t)) m) m (st_tokens (with_ranges s)))
    (upd_languages <[doc_lang v := li_set_tokens (li_tokens li + Z.of_nat (length toks)) li]>
      (upd_lossy (λ x, x + if n_lossy n then 1 else 0)
        (match n_encoding n with Some e => upd_encodings (bump e) | None => id end (upd_files (λ x, x + 1) i))))).
  split.
  - unfold scan_file. cbv zeta. rewrite Hid, (stream_at _ _ _ _ _ _ _ _ _ R Hs). cbn [mbind outcome_mbind outcome_bind ok_or].
    change (default (lit "unknown") (n_language n)) with (doc_lang v).
    assert (ri_languages (upd_lossy (λ x, x + if n_lossy n then 1 else 0)
      (match n_encoding n with Some e => upd_encodings (bump e) (upd_files (λ x, x + 1) i) | None => upd_files (λ x, x + 1) i end))
      = ri_languages i) as -> by by destruct (n_encoding n).
    fold l0 li0. cbn [length] in Hrun. rewrite Hrun. cbn [mbind outcome_mbind outcome_bind].
    destruct (tok_classes es _ _ [] Htoks) as [-> _]. by destruct (n_encoding n).
  - assert (∀ g, in_repo (<[k := v]> aP) k.1 g = in_repo aP k.1 g + g v) as Hr.
    { intros g. by rewrite in_repo_insert, decide_True. }
    split.
    + by destruct (n_encoding n).
    + by destruct (n_encoding n).
    + rewrite Hr. destruct (n_encoding n); cbn; by rewrite F.
    + rewrite Hr. destruct (n_encoding n); cbn; by rewrite L.
    + intros e. rewrite Hr. cbn [doc_meta fm_encoding v]. destruct (n_encoding n) as [e'|]; cbn.
      * rewrite (bump_pos (λ e, in_repo aP k.1 (λ v, ind (fm_encoding (doc_meta v) = Some e)))); [|intros; apply in_repo_nonneg; intros; apply ind_nonneg|done].
        do 2 f_equal. unfold ind. repeat case_decide; congruence.
      * unfold ind at 2. rewrite decide_False, Z.add_0_r by done. apply E.
    + intros c. rewrite Hr. cbn [upd_classes ri_token_classes].
      rewrite (bump_fold _ _ (λ c, in_repo aP k.1 (class_count c))); [|intros; by apply in_repo_nonneg|intros x; rewrite <- C; by destruct (n_encoding n)].
      destruct (tok_classes es _ _ c Htoks) as [_ ->]. done.
    + intros l. destruct (decide (doc_lang v = l)) as [<-|Hl].
      * match goal with |- lang_is _ _ _ ?o => assert (o = Some (li_set_tokens (li_tokens li + Z.of_nat (length toks)) li)) as -> end.
        { destruct (n_encoding n); cbn; by rewrite lookup_insert_eq. }
        apply lang_counted; [done|..].
        -- rewrite <- Hf. exact Hf'.
        -- rewrite <- Hy. exact Hy'.
        -- rewrite <- Ht. cbn [li_set_tokens li_tokens]. by rewrite Ht'.
        -- exact Hk'.
      * apply lang_is_other; [done..|]. specialize (A l).
        destruct (n_encoding n); cbn; by rewrite lookup_insert_ne.
Qed.

(** ** The loop *)

(** A repository and its organisation. *)
Definition repo_node (N : gmap Z Node) (rn : Node) (key : str * str) : Prop :=
  n_kind rn = Repo ∧ ∃ o on, n_parent rn = Some o ∧ N !! o = Some on ∧ key = (n_name on, n_name rn).

(** The state after the nodes [pre]; [aP] are the documents of their files. *)
Record scanned (N : gmap Z Node) (S : gmap Z Stream) (es : list (Z * str)) (pre : list Node)
    (orgs : gmap Z str) (repos : gmap Z (str * str)) (infos : gmap (str * str) RepoInfo) (aP : gmap dkey Doc) : Prop := mkScanned {
  sc_orgs n : n ∈ pre → n_kind n = Org → orgs !! n_id n = Some (n_name n);
  sc_repos rn key : rn ∈ pre → repo_node N rn key → repos !! n_id rn = Some key;
  sc_docs k v : aP !! k = Some v ↔ ∃ n, n ∈ pre ∧ entry_at N S es (n_id n) = Some (k, v);
  sc_some key : is_Some (infos !! key) ↔ ∃ rn, rn ∈ pre ∧ repo_node N rn key;
  sc_info key i : infos !! key = Some i → info_is aP None key i;
  sc_in k : is_Some (aP !! k) → is_Some (infos !! k.1);
}.

Lemma entry_total d a N S es next nt f n :
  rep sha256 d a N S es next nt → N !! f = Some n → n_kind n = File →
  ∃ r rn k v, n_parent n = Some r ∧ N !! r = Some rn ∧ repo_node N rn k.1 ∧ entry_at N S es f = Some (k, v).
Proof.
  intros R Hn Hk. destruct (file_parents _ _ _ _ _ _ _ (rp_ents _ _ _ _ _ _ _ _ R) Hn Hk) as (r & rn & o & on & Hr & Hrn & Hkr & Ho & Hon & _).
  destruct (proj2 (rp_link _ _ _ _ _ _ _ _ R f)) as [s Hs]; [by exists n|].
  destruct (co_stream _ _ _ _ _ _ _ _ (rp_content _ _ _ _ _ _ _ _ R) _ _ Hs) as (_ & _ & [ex Hex]).
  assert (is_Some (doc_of es n s)) as [v Hv].
  { unfold doc_of, decls_of in *. apply bind_Some in Hex as (syms & -> & (toks & -> & _)%bind_Some). done. }
  exists r, rn, (n_name on, n_name rn, n_name n), v. split_and!; [done|done|split; [done|by exists o, on]|].
  apply entry_at_Some. exists n, s. split_and!; try done. apply path_of_Some. by exists n, r, rn, o, on.
Qed.

Lemma entry_file N S es f k v : entry_at N S es f = Some (k, v) → ∃ n, N !! f = Some n ∧ n_kind n = File.
Proof. intros (n & s & (n' & r & rn & o & on & Hn & Hk & _)%path_of_Some & _)%entry_at_Some. by exists n'. Qed.

Lemma info_new a key : (∀ k, is_Some (a !! k) → k.1 ≠ key) → info_is a None key (RepoInfo_new key.1 key.2).
Proof.
  intros Hk. assert (∀ g, in_repo a key g = 0) as Hz.
  { intros g. unfold in_repo, sum_map. apply sum_zero. intros [k v] Hin%elem_of_map_to_list. cbn. rewrite decide_False; [done|]. apply Hk. by rewrite Hin. }
  split; rewrite ?Hz; intros; cbn; rewrite ?lookup_empty, ?Hz; [by destruct key|done..|apply Hz].
Qed.

Section step.
Context (d : Db tbl) (a : gmap dkey Doc) (N : gmap Z Node) (S : gmap Z Stream) (es : list (Z * str)) (next nt : Z).
Context (pre : list Node) (n : Node) (orgs : gmap Z str) (repos : gmap Z (str * str)).
Context (infos : gmap (str * str) RepoInfo) (aP : gmap dkey Doc).
Hypothesis R : rep sha256 d a N S es next nt.
Hypothesis G : scanned N S es pre orgs repos infos aP.
Hypothesis pre_nodes : ∀ m, m ∈ pre → N !! n_id m = Some m.
Hypothesis node : N !! n_id n = Some n.
Hypothesis fresh : n ∉ pre.
Hypothesis before : ∀ p m, N !! p = Some m → p < n_id n → m ∈ pre.

Lemma pre_id m : m ∈ pre → n_id m ≠ n_id n.
Proof. intros Hm Heq. apply fresh. assert (m = n) as <-; [|done]. specialize (pre_nodes m Hm). congruence. Qed.
Lemma parent_before p m : n_parent n = Some p → N !! p = Some m → m ∈ pre ∧ n_id m = p.
Proof.
  intros Hp Hm. destruct (en_id _ _ _ _ _ (rp_ents _ _ _ _ _ _ _ _ R) _ _ Hm) as [Hid _]. split; [|done].
  apply (before p m Hm). by eapply (en_order _ _ _ _ _ (rp_ents _ _ _ _ _ _ _ _ R)).
Qed.
Lemma same_docs : n_kind n ≠ File → ∀ k v, aP !! k = Some v ↔ ∃ m, m ∈ pre ++ [n] ∧ entry_at N S es (n_id m) = Some (k, v).
Proof.
  intros Hk k v. rewrite (sc_docs _ _ _ _ _ _ _ _ G). split; [intros (m & ? & ?); exists m; set_solver|].
  intros (m & [Hm|Hm]%elem_of_app & He); [by exists m|].
  apply list_elem_of_singleton in Hm as ->. destruct (entry_file _ _ _ _ _ _ He) as (n' & ? & ?). congruence.
Qed.
Lemma same_repos : n_kind n ≠ Repo → ∀ key, (∃ rn, rn ∈ pre ++ [n] ∧ repo_node N rn key) ↔ ∃ rn, rn ∈ pre ∧ repo_node N rn key.
Proof.
  intros Hk key. split; intros (rn & Hin & Hr); [|exists rn; set_solver]. apply elem_of_app in Hin as [Hin|Hin]; [by exists rn|].
  apply list_elem_of_singleton in Hin as ->. by destruct Hr.
Qed.

Lemma scan_org_step : n_kind n = Org → scanned N S es (pre ++ [n]) (<[n_id n := n_name n]> orgs) repos infos aP.
Proof.
  intros Hk. assert (n_kind n ≠ File) as Hf by congruence. assert (n_kind n ≠ Repo) as Hr by congruence. destruct G as [Go Gr Gd Gs Gi Gin]. split.
  - intros m [Hm|Hm]%elem_of_app Hkm; [rewrite lookup_insert_ne by (symmetry; by apply pre_id); by apply Go|].
    apply list_elem_of_singleton in Hm as ->. by rewrite lookup_insert_eq.
  - intros rn key [Hm|Hm]%elem_of_app Hrn; [by apply Gr|]. apply list_elem_of_singleton in Hm as ->. by destruct Hrn.
  - by apply same_docs.
  - intros key. by rewrite same_repos.
  - done.
  - done.
Qed.

Lemma scan_repo_step key :
  repo_node N n key →
  scanned N S es (pre ++ [n]) orgs (<[n_id n := key]> repos)
    (match infos !! key with Some _ => infos | None => <[key := RepoInfo_new key.1 key.2]> infos end) aP.
Proof.
  intros Hr. assert (n_kind n ≠ File) as Hf by (destruct Hr; congruence). destruct G as [Go Gr Gd Gs Gi Gin].
  set (infos' := match infos !! key with Some _ => infos | None => _ end).
  assert (∀ key', infos' !! key' = match infos !! key' with Some i => Some i | None => if decide (key = key') then Some (RepoInfo_new key.1 key.2) else None end) as Hi.
  { intros key'. unfold infos'. destruct (infos !! key) eqn:E; case_decide as Heq; subst; rewrite ?lookup_insert_eq, ?E; try done.
    - by destruct (infos !! key').
    - rewrite lookup_insert_ne by done. by destruct (infos !! key'). }
  split.
  - intros m [Hm|Hm]%elem_of_app Hkm; [by apply Go|]. apply list_elem_of_singleton in Hm as ->. destruct Hr; congruence.
  - intros rn key' [Hm|Hm]%elem_of_app Hrn; [rewrite lookup_insert_ne by (symmetry; by apply pre_id); by apply Gr|].
    apply list_elem_of_singleton in Hm as ->. rewrite lookup_insert_eq. f_equal.
    destruct Hr as (_ & o & on & Ho & Hon & ->), Hrn as (_ & o' & on' & Ho' & Hon' & ->). congruence.
  - by apply same_docs.
  - intros key'. rewrite Hi. split.
    + destruct (infos !! key') eqn:E; [|case_decide; [subst|by intros []]].
      * intros _. destruct (proj1 (Gs key')) as (rn & ? & ?); [by rewrite E|]. exists rn. set_solver.
      * intros _. exists n. set_solver.
    + intros (rn & [Hm|Hm]%elem_of_app & Hrn).
      * destruct (proj2 (Gs key')) as [i ->]; [by exists rn|done].
      * apply list_elem_of_singleton in Hm as ->. destruct (infos !! key'); [done|]. rewrite decide_True; [done|].
        destruct Hr as (_ & o & on & Ho & Hon & ->), Hrn as (_ & o' & on' & Ho' & Hon' & ->). congruence.
  - intros key' i. rewrite Hi. destruct (infos !! key') eqn:E; [intros [= ->]; by apply Gi|]. case_decide; [subst|done].
    intros [= <-]. apply info_new. intros k Hk Heq. destruct (Gin k Hk). congruence.
  - intros k Hk. rewrite Hi. by destruct (Gin k Hk) as [? ->].
Qed.

Lemma scan_file_step k v i i' :
  n_kind n = File → entry_at N S es (n_id n) = Some (k, v) → infos !! k.1 = Some i →
  info_is (<[k := v]> aP) None k.1 i' → aP !! k = None →
  scanned N S es (pre ++ [n]) orgs repos (<[k.1 := i']> infos) (<[k := v]> aP).
Proof.
  intros Hk He Hi Hi' Hfr. assert (n_kind n ≠ Repo) as Hr by congruence. destruct G as [Go Gr Gd Gs Gi Gin]. split.
  - intros m [Hm|Hm]%elem_of_app Hkm; [by apply Go|]. apply list_elem_of_singleton in Hm as ->. congruence.
  - intros rn key [Hm|Hm]%elem_of_app Hrn; [by apply Gr|]. apply list_elem_of_singleton in Hm as ->. by destruct Hrn.
  - intros k' v'. destruct (decide (k = k')) as [<-|Hne].
    + rewrite lookup_insert_eq. split; [intros [= <-]; exists n; set_solver|]. intros (m & [Hm|Hm]%elem_of_app & He').
      * assert (aP !! k = Some v') by (apply Gd; by exists m). congruence.
      * apply list_elem_of_singleton in Hm as ->. congruence.
    + rewrite lookup_insert_ne, Gd by done. split; [intros (m & ? & ?); exists m; set_solver|]. intros (m & [Hm|Hm]%elem_of_app & He'); [by exists m|].
      apply list_elem_of_singleton in Hm as ->. congruence.
  - intros key. rewrite same_repos, <- Gs by done. destruct (decide (k.1 = key)) as [<-|Hne]; [rewrite lookup_insert_eq, Hi|by rewrite lookup_insert_ne].
    by split.
  - intros key j. destruct (decide (k.1 = key)) as [<-|Hne]; [rewrite lookup_insert_eq; by intros [= <-]|].
    rewrite lookup_insert_ne by done. intros Hj. apply info_is_other; [done..|]. by apply Gi.
  - intros k' Hk'. destruct (decide (k.1 = k'.1)) as [->|Hne]; [by rewrite lookup_insert_eq|]. 
    assert (k ≠ k') as Hkk by congruence. rewrite lookup_insert_ne in Hk' by exact Hkk. rewrite lookup_insert_ne by exact Hne. by apply Gin.
Qed.

Lemma scan_node_run :
  ∃ orgs' repos' infos' aP', scan_node d (orgs, repos, infos) n = Ok (orgs', repos', infos') ∧
    scanned N S es (pre ++ [n]) orgs' repos' infos' aP'.
Proof.
  pose proof (en_shape _ _ _ _ _ (rp_ents _ _ _ _ _ _ _ _ R) _ _ node) as Hs. unfold shape_ok in Hs. unfold scan_node.
  destruct (n_kind n) eqn:Hk; try done.
  - eexists _, _, _, aP. split; [done|]. by apply scan_org_step.
  - destruct Hs as (o & on & Ho & Hon & Hko). destruct (parent_before o on Ho Hon) as [Hin Hid].
    rewrite Ho. cbn [mbind option_bind]. rewrite <- Hid, (sc_orgs _ _ _ _ _ _ _ _ G on Hin Hko). cbn [default from_option id].
    eexists _, _, _, aP. split; [done|]. apply (scan_repo_step (n_name on, n_name n)). split; [done|]. by exists o, on.
  - destruct (entry_total _ _ _ _ _ _ _ _ _ R node Hk) as (r & rn & k & v & Hr & Hrn & Hrk & He).
    destruct (parent_before r rn Hr Hrn) as [Hin Hid]. rewrite Hr. cbn [mbind option_bind].
    rewrite <- Hid, (sc_repos _ _ _ _ _ _ _ _ G rn _ Hin Hrk).
    destruct (proj2 (sc_some _ _ _ _ _ _ _ _ G k.1)) as [i Hi]; [by exists rn|]. rewrite Hi. cbn [unwrap mbind outcome_mbind outcome_bind].
    assert (aP !! k = None) as Hfr.
    { apply eq_None_not_Some. intros [v' (m & Hm & He')%(sc_docs _ _ _ _ _ _ _ _ G)].
      apply (pre_id m Hm). apply entry_at_Some in He as (? & ? & Hp & _), He' as (? & ? & Hp' & _).
      by eapply path_unique; [apply R|..]. }
    destruct (scan_file_run _ _ _ _ _ _ _ aP k v _ n i R node He Hfr) as (i' & -> & Hi'); [by eapply (sc_info _ _ _ _ _ _ _ _ G)|].
    cbn [mbind outcome_mbind outcome_bind]. eexists _, _, _, _. split; [done|]. by eapply scan_file_step.
Qed.
End step.

Lemma scan_nodes_run d a N S es next nt suf : ∀ pre orgs repos infos aP,
  rep sha256 d a N S es next nt → scanned N S es pre orgs repos infos aP →
  (∀ m, m ∈ pre ++ suf ↔ N !! n_id m = Some m) → StronglySorted Z.lt (n_id <$> pre ++ suf) →
  ∃ orgs' repos' infos' aP', try_fold (scan_node d) (orgs, repos, infos) suf = Ok (orgs', repos', infos') ∧
    scanned N S es (pre ++ suf) orgs' repos' infos' aP'.
Proof.
  induction suf as [|n suf IH]; intros pre orgs repos infos aP R G Hall Hsort.
  { exists orgs, repos, infos, aP. by rewrite app_nil_r. }
  assert (∀ m, m ∈ pre → n_id m < n_id n) as Hlt.
  { intros m Hm. rewrite fmap_app in Hsort. apply (StronglySorted_app_1_elem_of Z.lt _ _ _ _ Hsort); [by apply list_elem_of_fmap_2|]. cbn. left. }
  assert (∀ m, m ∈ suf → n_id n < n_id m) as Hgt.
  { intros m Hm. rewrite fmap_app in Hsort. apply StronglySorted_app_1_r in Hsort. cbn in Hsort. apply StronglySorted_inv in Hsort as [_ HF].
    rewrite Forall_forall in HF. by apply HF, list_elem_of_fmap_2. }
  destruct (scan_node_run d a N S es next nt pre n orgs repos infos aP R G) as (orgs1 & repos1 & infos1 & aP1 & Hrun & G1).
  - intros m Hm. apply Hall. set_solver.
  - apply Hall. set_solver.
  - intros Hn. specialize (Hlt n Hn). lia.
  - intros p m Hm Hp. destruct (en_id _ _ _ _ _ (rp_ents _ _ _ _ _ _ _ _ R) _ _ Hm) as [Hid _]. subst p.
    apply Hall in Hm. apply elem_of_app in Hm as [Hm|[->|Hm]%elem_of_cons]; [done|lia|]. specialize (Hgt m Hm). lia.
  - cbn [try_fold]. rewrite Hrun. cbn [mbind outcome_mbind outcome_bind].
    destruct (IH (pre ++ [n]) orgs1 repos1 infos1 aP1 R G1) as (orgs2 & repos2 & infos2 & aP2 & Hrun2 & G2); [by rewrite <- app_assoc..|].
    rewrite <- app_assoc in G2. by exists orgs2, repos2, infos2, aP2.
Qed.

(** Every node, in id order. *)
Lemma all_nodes_run d a N S es next nt :
  rep sha256 d a N S es next nt →
  ∃ all, all_nodes d = Ok all ∧ (∀ n, n ∈ all ↔ N !! n_id n = Some n) ∧ StronglySorted Z.lt (n_id <$> all).
Proof.
  intros R. pose proof (rp_ents _ _ _ _ _ _ _ _ R) as He.
  assert (∃ l, collect (λ row : Z * list Z, dec row.2) (tbl_iter (db_nodes d)) = Ok l ∧
    (∀ n, n ∈ l ↔ N !! n_id n = Some n) ∧ n_id <$> l = (tbl_iter (db_nodes d)).*1) as (l & Hl & Hin & Hids).
  { assert (∀ id b, (id, b) ∈ tbl_iter (db_nodes d) ↔ ∃ n, N !! id = Some n ∧ b = enc n) as Hrows.
    { intros id b. rewrite tbl_iter_elem, (en_nodes _ _ _ _ _ He), lookup_fmap, fmap_Some. naive_solver. }
    exists ((λ row : Z * list Z, default (blank 0 None Org []) (N !! row.1)) <$> tbl_iter (db_nodes d)). split_and!.
    - apply collect_Ok. intros [id b] (n & Hn & ->)%Hrows. cbn. by rewrite dec_enc, Hn.
    - intros n. rewrite list_elem_of_fmap. split.
      + intros ([id b] & -> & (n' & Hn & _)%Hrows). cbn. rewrite Hn. cbn. by destruct (en_id _ _ _ _ _ He _ _ Hn) as [-> _].
      + intros Hn. exists (n_id n, enc n). cbn. rewrite Hn. split; [done|]. apply Hrows. by exists n.
    - rewrite <- list_fmap_compose. apply list_fmap_ext. intros i [id b] Hi%list_elem_of_lookup_2. apply Hrows in Hi as (n & Hn & _).
      cbn. rewrite Hn. cbn. by destruct (en_id _ _ _ _ _ He _ _ Hn) as [-> _]. }
  unfold all_nodes. rewrite Hl. cbn [mbind outcome_mbind outcome_bind]. exists l.
  assert (StronglySorted Z.lt (n_id <$> l)) as Hs by (rewrite Hids; exact (tbl_iter_sorted _ (db_nodes d))).
  split; [|done]. rewrite sort_by_id; [done|]. clear -Hs. induction l as [|n l IH]; [constructor|]. cbn in Hs. apply StronglySorted_inv in Hs as [Hs HF].
  constructor; [by apply IH|]. rewrite Forall_fmap in HF. eapply Forall_impl; [exact HF|]. intros m. cbn. intros. apply Z.leb_le. lia.
Qed.

(** What the scan has after every node. *)
Lemma scan_all_run d a N S es next nt :
  rep sha256 d a N S es next nt →
  ∃ all orgs repos infos, all_nodes d = Ok all ∧ try_fold (scan_node d) (∅, ∅, ∅) all = Ok (orgs, repos, infos) ∧
    (∀ key, is_Some (infos !! key) ↔ repo_at N key.1 key.2) ∧ ∀ key i, infos !! key = Some i → info_is a None key i.
Proof.
  intros R. destruct (all_nodes_run _ _ _ _ _ _ _ R) as (all & Hall & Hin & Hs).
  destruct (scan_nodes_run d a N S es next nt all [] ∅ ∅ ∅ ∅ R) as (orgs & repos & infos & aP & Hrun & [_ _ Gd Gs Gi _]); [|done|done|].
  { split; try by intros ? ?%elem_of_nil.
    - by intros ? ? ?%elem_of_nil.
    - intros k v. rewrite lookup_empty. split; [done|]. by intros (? & ?%elem_of_nil & _).
    - intros key. rewrite lookup_empty. split; [by intros []|]. by intros (? & ?%elem_of_nil & _).
    - by intros ? ? ?%lookup_empty_Some.
    - intros k. rewrite lookup_empty. by intros []. }
  cbn [app] in *. exists all, orgs, repos, infos. split; [done|]. split; [done|].
  assert (aP = a) as ->.
  { apply map_eq. intros k. apply option_eq. intros v. rewrite Gd, (rp_docs _ _ _ _ _ _ _ _ R). split; [intros (n & _ & ?); by eexists|].
    intros (f & He). destruct (entry_file _ _ _ _ _ _ He) as (n & Hn & _). destruct (en_id _ _ _ _ _ (rp_ents _ _ _ _ _ _ _ _ R) _ _ Hn) as [<- _].
    exists n. split; [by apply Hin|done]. }
  split; [|done]. intros [o r]. rewrite Gs. cbn [fst snd]. split.
  - intros (rn & Hrn%Hin & Hk & oi & on & Ho & Hon & [= -> ->]). by exists (n_id rn), rn, oi, on.
  - intros (ri & rn & oi & on & Hrn & Hk & Ho & Hon & -> & ->). destruct (en_id _ _ _ _ _ (rp_ents _ _ _ _ _ _ _ _ R) _ _ Hrn) as [<- _].
    exists rn. split; [by apply Hin|]. split; [done|]. by exists oi, on.
Qed.
End scan.
