(* ===== verification/Summary.v ===== *)
(** * What a summary promises

    On every store the catalog summary ([describe_in],
    [graph-store/src/common.rs]) and the scan of all files
    ([describe_by_scan], [graph-store/src/v2.rs]) succeed with the same
    answer, and that answer counts the stored documents. *)
From S2P Require Import Prelude Text StrOps Schema Varint Stream StreamRound Posting DictBlock Table DictRev.
From S2P Require Import Language Walk Prep Located Db Catalog Reader Encoding Write Dict Store Entities Content Ingest.
From S2P Require Import Prune Commit Prepare Describe Described Counted Scan Refine.

(** Rows in strict key order are determined by their elements. *)
Lemma rows_eq `{KeyOrder K} {V} (l k : list (K * V)) :
  StronglySorted key_lt l.*1 → StronglySorted key_lt k.*1 → (∀ x, x ∈ l ↔ x ∈ k) → l = k.
Proof.
  assert (∀ (a : K * V) m, Forall (key_lt a.1) m.*1 → a ∉ m) as Hout.
  { intros a m HF Hin. rewrite Forall_forall in HF. apply (key_lt_irrefl a.1), HF, list_elem_of_fmap. by exists a. }
  revert k. induction l as [|a l IH]; intros [|b k] Hl Hk Heq; [done|..].
  - destruct (elem_of_nil (A:=K * V) b) as [Hb _]. destruct Hb. apply Heq. by left.
  - destruct (elem_of_nil (A:=K * V) a) as [Ha _]. destruct Ha. apply Heq. by left.
  - cbn in Hl, Hk. apply StronglySorted_inv in Hl as [Hl Ha], Hk as [Hk Hb].
    assert (a = b) as ->.
    { pose proof (proj1 (Heq a) ltac:(by left)) as [->|Hin]%elem_of_cons; [done|].
      pose proof (proj2 (Heq b) ltac:(by left)) as [->|Hin']%elem_of_cons; [done|]. exfalso.
      rewrite Forall_forall in Ha, Hb. apply (key_lt_irrefl a.1). eapply key_lt_trans.
      - apply Ha, list_elem_of_fmap. by exists b.
      - apply Hb, list_elem_of_fmap. by exists a. }
    f_equal. apply IH; [done|done|]. intros x. split; intros Hx.
    + pose proof (proj1 (Heq x) ltac:(by right)) as [->|?]%elem_of_cons; [|done]. by destruct (Hout b l).
    + pose proof (proj2 (Heq x) ltac:(by right)) as [->|?]%elem_of_cons; [|done]. by destruct (Hout b k).
Qed.
Lemma filter_rows_sorted `{KeyOrder K} {V} (P : K * V → Prop) `{∀ x, Decision (P x)} (l : list (K * V)) :
  StronglySorted key_lt l.*1 → StronglySorted key_lt (filter P l).*1.
Proof.
  induction l as [|a l IH]; intros Hl; [done|]. cbn in Hl. apply StronglySorted_inv in Hl as [Hl Ha]. rewrite filter_cons.
  case_decide; [|by apply IH]. cbn. constructor; [by apply IH|]. apply Forall_forall. intros k (x & -> & [_ Hx]%list_elem_of_filter)%list_elem_of_fmap.
  rewrite Forall_forall in Ha. apply Ha, list_elem_of_fmap. by exists x.
Qed.
Lemma gmap_rows_filter `{Countable K} `{KeyOrder K} {V} (P : K * V → Prop) `{∀ x, Decision (P x)} (m : gmap K V) :
  gmap_rows (filter P m) = filter P (gmap_rows m).
Proof.
  apply rows_eq; [apply gmap_rows_sorted|apply filter_rows_sorted, gmap_rows_sorted|].
  intros [k v]. rewrite list_elem_of_filter, !gmap_rows_elem, map_lookup_filter_Some. tauto.
Qed.

Lemma key_sorted_NoDup {K} `{KeyOrder K} (l : list K) : StronglySorted key_lt l → NoDup l.
Proof.
  induction 1 as [|k l Hl IH Hk]; constructor; [|done].
  intros Hin. rewrite Forall_forall in Hk. by apply (key_lt_irrefl k), Hk.
Qed.

Section summary.
Context `{Redb tbl} `{Serde} (sha256 : list Z → list Z).
Implicit Types (d : Db tbl) (a : gmap dkey Doc).

(** ** From the catalog *)

Lemma repo_clean nodes names kids N next org repo :
  ents_ok nodes names kids N next → repo_at N org repo → clean_key (org, repo).
Proof.
  intros He (r & rn & o & on & Hr & Hkr & Hp & Ho & -> & ->). pose proof (en_shape _ _ _ _ _ He _ _ Hr) as Hs.
  unfold shape_ok, has_parent in Hs. rewrite Hkr in Hs. destruct Hs as (q & m & Hq & Hm & Hkm).
  assert (q = o) as -> by congruence. assert (m = on) as -> by congruence.
  split; cbn; eapply (en_clean _ _ _ _ _ He); try done; congruence.
Qed.

Lemma doc_repo d a N S es next nt k v :
  rep sha256 d a N S es next nt → a !! k = Some v → repo_at N k.1.1 k.1.2.
Proof.
  intros R Ha. apply (rp_docs _ _ _ _ _ _ _ _ R) in Ha as (f & Hf). apply entry_at_Some in Hf as (n & s & Hp & Hn & _).
  apply path_of_Some in Hp as (n' & r & rn & o & on & Hn' & Hk & Hr & Hrn & Ho & Hon & ->).
  destruct (file_parents _ _ _ _ _ _ _ (rp_ents _ _ _ _ _ _ _ _ R) Hn' Hk) as (r' & rn' & o' & on' & Hr' & Hrn' & Hkr & _).
  assert (r' = r) as -> by congruence. assert (rn' = rn) as -> by congruence. by exists r, rn, o, on.
Qed.

Lemma docs_clean d a N S es next nt :
  rep sha256 d a N S es next nt → ∀ k v, a !! k = Some v → clean_key k.1 ∧ clean_doc v.
Proof.
  intros R k v Ha. split; [|by eapply (rp_clean _ _ _ _ _ _ _ _ R)].
  rewrite (surjective_pairing k.1). eapply repo_clean; [apply R|]. by eapply doc_repo.
Qed.

(** A row of the catalog is a mark or a counter of a document. *)
Lemma cat_row d a N S es next nt k v :
  rep sha256 d a N S es next nt → tbl_map (db_cat d) !! k = Some v →
  (∃ org repo, repo_at N org repo ∧ split_nul k = [lit "r"; org; repo]) ∨
  ∃ kd w, a !! kd = Some w ∧ row_fields kd.1 (split_nul k) ∧ head (split_nul k) ≠ Some (lit "r").
Proof.
  intros R Hk. destruct (decide (counter k)) as [Hc|Hc].
  - right. rewrite (rp_cat _ _ _ _ _ _ _ _ R k Hc) in Hk. destruct (0 <? total a k) eqn:E; [|done]. bool_prop.
    apply sum_map_pos in E as (kd & w & Ha & Hne). exists kd, w. split; [done|].
    destruct (docs_clean _ _ _ _ _ _ _ R _ _ Ha) as [Hck Hcw].
    assert (∃ t fs, t ∈ tags ∧ Forall nul_free fs ∧ k = cat_key t fs) as (t & fs & Ht & Hfs & ->).
    { by eapply doc_hits_key. }
    destruct (tag_nul t Ht) as [Hnt _]. rewrite doc_hits_fields in Hne by done. rewrite split_cat_key by done.
    destruct (field_nonzero kd w Hck Hcw _ _ Hne) as (? & ? & _). split; [done|]. by intros [= ?].
  - left. apply (rp_marks _ _ _ _ _ _ _ _ R k v Hc) in Hk as (_ & org & repo & Hr & ->). exists org, repo. split; [done|].
    destruct (repo_clean _ _ _ _ _ _ _ (rp_ents _ _ _ _ _ _ _ _ R) Hr) as [? ?]. apply split_cat_key; [by apply (bool_decide_unpack _)|by repeat constructor].
Qed.

(** The rows of the catalog, by fields. *)
Lemma cat_rows d a N S es next nt m :
  rep sha256 d a N S es next nt → (∀ f v, m !! f = Some v ↔ ∃ k, tbl_map (db_cat d) !! k = Some v ∧ split_nul k = f) →
  counter_rows a m.
Proof.
  intros R Hm t fs Ht. destruct (tag_nul t Ht) as [Hnt Hct].
  destruct (decide (Forall nul_free fs)) as [Hfs|Hfs].
  - rewrite <- (total_fields a (docs_clean _ _ _ _ _ _ _ R)) by done.
    assert (m !! (lit t :: fs) = tbl_map (db_cat d) !! cat_key t fs) as ->.
    { apply option_eq. intros v. rewrite Hm. split; [|intros Hv; exists (cat_key t fs); by rewrite split_cat_key].
      intros (k & Hk & Hs). rewrite <- split_cat_key in Hs by done. by apply split_nul_inj in Hs as ->. }
    by rewrite (rp_cat _ _ _ _ _ _ _ _ R).
  - assert (m !! (lit t :: fs) = None) as ->.
    { destruct (m !! (lit t :: fs)) as [v|] eqn:E; [|done]. apply Hm in E as (k & _ & Hk). destruct Hfs.
      pose proof (split_nul_free k) as HF. rewrite Hk in HF. by apply Forall_cons in HF as [_ ?]. }
    symmetry. apply pos_none; [apply sum_map_nonneg; intros; apply sum_field_nonneg|].
    unfold sum_map. apply sum_zero. intros [k v] Hin%elem_of_map_to_list. cbn [fst snd].
    destruct (decide (field_hits k v (lit t) fs = 0)) as [|Hne]; [done|]. destruct (docs_clean _ _ _ _ _ _ _ R _ _ Hin) as [Hk Hv].
    destruct (field_nonzero k v Hk Hv _ _ Hne) as (_ & _ & HF). by apply Forall_cons in HF as [_ ?].
Qed.

(** The open repository, among the summaries. *)
Lemma mark_open_is d a (P : str * str → Prop) infos :
  (∀ key, is_Some (infos !! key) ↔ P key) → (∀ key i, infos !! key = Some i → info_is a None key i) →
  (∀ key, is_Some (mark_open_repo d infos !! key) ↔ P key) ∧
  ∀ key i, mark_open_repo d infos !! key = Some i → info_is a (open_batch_marker d) key i.
Proof.
  intros HP Hi. unfold mark_open_repo. destruct (open_batch_marker d) as [key0|]; [|done]. split.
  - intros key. rewrite <- HP. destruct (decide (key0 = key)) as [<-|Hne]; [rewrite lookup_alter_eq|by rewrite lookup_alter_ne].
    apply fmap_is_Some.
  - intros key i. destruct (decide (key0 = key)) as [<-|Hne].
    + rewrite lookup_alter_eq. intros (j & Hj%Hi & ->)%fmap_Some. destruct Hj. split; try done. by rewrite bool_decide_eq_true_2.
    + rewrite lookup_alter_ne by done. intros Hj%Hi. destruct Hj. split; try done. rewrite bool_decide_eq_false_2; [done|]. by intros [= ->].
Qed.

Lemma describe_in_run d a N S es next nt org repo :
  rep sha256 d a N S es next nt →
  ∃ infos : gmap (str * str) RepoInfo, describe_in d org repo = Ok (gmap_rows infos).*2 ∧
    (∀ key, is_Some (infos !! key) ↔ wanted org repo key = true ∧ repo_at N key.1 key.2) ∧
    ∀ key i, infos !! key = Some i → info_is a (open_batch_marker d) key i.
Proof.
  intros R. unfold describe_in.
  destruct (describe_rows_run org repo (tbl_iter (db_cat d)) ∅ ∅ ∅) as (m & seen & infos & -> & D & Hm).
  { split; [|by intros ? ? ?%lookup_empty_Some|]; intros key; rewrite ?lookup_empty.
    - split; [by intros ?%elem_of_empty|by intros [_ []]].
    - split; [by intros []|]. intros (_ & f & _ & Hf). rewrite lookup_empty in Hf. by destruct Hf. }
  { apply key_sorted_NoDup, tbl_iter_sorted. }
  { intros k v Hin%tbl_iter_elem. split; [by rewrite lookup_empty|].
    destruct (cat_row _ _ _ _ _ _ _ _ _ R Hin) as [(o & r & _ & ->)|(kd & w & _ & ? & _)]; [|by exists kd.1].
    exists (o, r). apply (row_r (o, r)). }
  cbn [mbind outcome_mbind outcome_bind].
  assert (∀ f v, m !! f = Some v ↔ ∃ k, tbl_map (db_cat d) !! k = Some v ∧ split_nul k = f) as Hm'.
  { intros f v. rewrite Hm, lookup_empty. setoid_rewrite tbl_iter_elem. split; [by intros [|]|by right]. }
  clear Hm. pose proof (cat_rows _ _ _ _ _ _ _ _ R Hm') as Hrows.
  assert (∀ key, is_Some (m !! [lit "r"; key.1; key.2]) ↔ repo_at N key.1 key.2) as Hmark.
  { intros [o r]. cbn [fst snd]. split.
    - intros [v (k & Hk & Hs)%Hm']. destruct (cat_row _ _ _ _ _ _ _ _ _ R Hk) as [(o' & r' & Hr & Hs')|(kd & w & _ & _ & Hne)].
      + rewrite Hs in Hs'. by injection Hs' as -> ->.
      + by rewrite Hs in Hne.
    - intros Hr. exists DERIVED_WRITER_MARK. apply Hm'. exists (cat_key "r" [o; r]). split.
      + apply (rp_marks _ _ _ _ _ _ _ _ R); [apply mark_not_counter|]. split; [done|]. by exists o, r.
      + destruct (repo_clean _ _ _ _ _ _ _ (rp_ents _ _ _ _ _ _ _ _ R) Hr). apply split_cat_key; [by apply (bool_decide_unpack _)|by repeat constructor]. }
  assert (∀ key, is_Some (infos !! key) ↔ wanted org repo key = true ∧ repo_at N key.1 key.2) as Hsome.
  { intros key. rewrite (de_some _ _ _ _ _ D). split; intros [Hw Hx]; (split; [done|]).
    - destruct Hx as (f & Hf & [v (k & Hk & <-)%Hm']). destruct (cat_row _ _ _ _ _ _ _ _ _ R Hk) as [(o & r & Hr & Hs)|(kd & w & Ha & Hf' & _)].
      + rewrite Hs in Hf. by rewrite (row_fields_inj _ _ _ Hf (row_r (o, r))).
      + rewrite (row_fields_inj _ _ _ Hf Hf'). by eapply doc_repo.
    - exists [lit "r"; key.1; key.2]. split; [constructor|]. by apply Hmark. }
  assert (existsb (λ row, negb (bool_decide (row.1 ∈ seen))) (gmap_rows infos) = false) as ->.
  { apply not_true_is_false. intros ([key i] & Hin%list_elem_of_In & Hneg)%existsb_exists. apply gmap_rows_elem in Hin.
    apply negb_true_iff, bool_decide_eq_false in Hneg. apply Hneg. apply (de_seen _ _ _ _ _ D). cbn [fst].
    destruct (proj1 (Hsome key)) as [Hw Hr]; [by rewrite Hin|]. split; [done|]. by apply Hmark. }
  destruct (mark_open_is d a _ infos Hsome) as [H1 H2].
  { intros key i Hi. eapply rows_info_docs; [done|]. by eapply (de_info _ _ _ _ _ D). }
  by exists (mark_open_repo d infos).
Qed.

(** ** Both summaries *)

Lemma wanted_rows (org repo : option str) a (opened : option (str * str)) (infos : gmap (str * str) RepoInfo) :
  (∀ key i, infos !! key = Some i → info_is a opened key i) →
  filter (λ i, wanted org repo (ri_org i, ri_repo i)) (gmap_rows infos).*2 =
  (gmap_rows (filter (λ kv : str * str * RepoInfo, wanted org repo kv.1) infos)).*2.
Proof.
  intros Hi. rewrite gmap_rows_filter.
  assert (∀ x, x ∈ gmap_rows infos → (ri_org x.2, ri_repo x.2) = x.1) as Hk.
  { intros [key i] Hin%gmap_rows_elem. by destruct (Hi _ _ Hin). }
  revert Hk. generalize (gmap_rows infos) as l. induction l as [|x l IH]; intros Hk; [done|]. rewrite fmap_cons, !filter_cons.
  rewrite (Hk x) by (by left). rewrite IH by (intros; apply Hk; by right). by destruct (decide (wanted org repo x.1)).
Qed.

(** C23: the summary read off the catalog's counters is the one computed by
    decoding every file, for a store that holds the documents [a] and any
    filter: one entry per wanted repository, in name order, whose counts of
    files, languages, symbols, kinds, tokens, classes, encodings and lossy
    files are those of the documents in [a], with the open repository
    flagged. *)
Theorem describe_agrees d a (org repo : option str) :
  stores sha256 d a →
  ∃ infos : gmap (str * str) RepoInfo,
    describe_in d org repo = Ok (gmap_rows infos).*2 ∧ describe_by_scan d org repo = Ok (gmap_rows infos).*2 ∧
    (∀ key i, infos !! key = Some i → wanted org repo key = true ∧ info_is a (open_batch_marker d) key i) ∧
    ∀ k v, a !! k = Some v → wanted org repo k.1 = true → is_Some (infos !! k.1).
Proof.
  intros (N & S & es & next & nt & R).
  destruct (describe_in_run d a N S es next nt org repo R) as (infos & Hd & Hsome & Hi).
  destruct (scan_all_run sha256 d a N S es next nt R) as (all & orgs & repos & scan & Hall & Hrun & Hss & Hsi).
  exists infos. split; [done|]. split; [|split].
  - unfold describe_by_scan. rewrite Hall. cbn [mbind outcome_mbind outcome_bind]. rewrite Hrun. cbn [mbind outcome_mbind outcome_bind].
    destruct (mark_open_is d a _ scan Hss Hsi) as [Hms Hmi]. rewrite (wanted_rows _ _ a (open_batch_marker d)) by done. do 3 f_equal.
    apply map_eq. intros key. apply option_eq. intros i. rewrite map_lookup_filter_Some. cbn [fst]. split.
    + intros [Hk Hw%Is_true_true]. destruct (proj2 (Hsome key)) as [j Hj]; [split; [done|]; apply Hms; by rewrite Hk|].
      rewrite Hj. f_equal. eapply info_is_inj; [by apply Hi|by apply Hmi].
    + intros Hk. destruct (proj1 (Hsome key)) as [Hw Hr]; [by rewrite Hk|]. split; [|by apply Is_true_true].
      destruct (proj2 (Hms key) Hr) as [j Hj]. rewrite Hj. f_equal. eapply info_is_inj; [by apply Hmi|by apply Hi].
  - intros key i Hk. split; [|by apply Hi]. apply Hsome. by rewrite Hk.
  - intros k v Hk Hw. apply Hsome. split; [done|]. by eapply doc_repo.
Qed.
End summary.

#[local] Existing Instance gmap_redb.
#[local] Existing Instance coded_serde.
Lemma one_info (r : result (list RepoInfo)) :
  match r with Ok [i] => (ri_files i =? 1) && bool_decide (ri_org i = lit "o") | _ => false end = true →
  ∃ i, r = Ok [i] ∧ ri_files i = 1 ∧ ri_org i = lit "o".
Proof. destruct r as [[|i [|]]| |]; try done. intros [?%Z.eqb_eq ?%bool_decide_eq_true]%andb_true_iff. by exists i. Qed.

Lemma describe_agrees_witness :
  ∃ i, describe_in Sample.store None None = Ok [i] ∧ describe_by_scan Sample.store None None = Ok [i] ∧
    ri_files i = 1 ∧ ri_org i = lit "o".
Proof.
  destruct (describe_agrees Sample.sha Sample.store Sample.docs None None Sample.stored) as (infos & Hd & Hs & _).
  destruct (one_info (describe_in Sample.store None None)) as (i & Hi & Hf & Ho); [vm_compute; exact eq_refl|].
  exists i. rewrite Hs, <- Hd. exact (conj Hi (conj Hi (conj Hf Ho))).
Defined.
