(* ===== verification/Gaps.v ===== *)
(** * Extractor gaps

    [extractor_gaps_in] of [graph-store/src/common.rs]: the languages of the
    described repositories whose symbols came from an extractor that is not
    registered any more. *)
From S2P Require Import Prelude Text StrOps Schema Varint Stream StreamRound Posting Table DictRev.
From S2P Require Import Language Walk Prep Located Db Catalog Reader Encoding Write Dict Store Entities Content Ingest.
From S2P Require Import Prune Commit Batch Prepare Refine Describe Counted Scan Summary.

Section gaps.
Context `{Redb tbl} `{Serde} (d : Db tbl) (registry : Registry).

(** Languages with stored symbols and no extractor. *)
Definition suspects (info : RepoInfo) : list (str * Z) :=
  (λ x : str * LanguageInfo, (x.1, li_symbols x.2)) <$>
    filter (λ x : str * LanguageInfo, 0 < li_symbols x.2 ∧ has registry x.1 = false) (gmap_rows (ri_languages info)).

(** The pass over a repository's files, up to a file for every suspect. *)
Fixpoint gap_loop (susp : list (str * Z)) (found : gmap str str) (kids : list Z) : result (gmap str str) :=
  match kids with
  | [] => Ok found
  | c :: kids =>
      match tbl_get (db_nodes d) c with
      | None => gap_loop susp found kids
      | Some raw =>
          n ← dec raw;
          match n_language n, n_fingerprint n with
          | Some lang, Some fp =>
              if negb (bool_decide (lang ∈ susp.*1)) then gap_loop susp found kids
              else if bool_decide (is_Some (found !! lang)) then gap_loop susp found kids
              else
                let found := match fingerprint_extractor_version fp lang with
                  | Some v => if bool_decide (v = version registry lang) then found else <[lang := v]> found
                  | None => found
                  end in
                if (size found =? length susp)%nat then Ok found else gap_loop susp found kids
          | _, _ => gap_loop susp found kids
          end
      end
  end.

Definition repo_gaps (info : RepoInfo) : result (list ExtractorGap) :=
  let susp := suspects info in
  if decide (susp = []) then Ok [] else
  match (o ← find d None Org (ri_org info); find d (Some o) Repo (ri_repo info)) with
  | None => Ok []
  | Some repo_id =>
      found ← gap_loop susp ∅ (multimap_get (db_children d) repo_id);
      Ok (omap (λ s : str * Z, v ← found !! s.1;
            Some (mkExtractorGap (ri_org info) (ri_repo info) s.1 v s.2)) susp)
  end.

Definition extractor_gaps_in (org repo : option str) : result (list ExtractorGap) :=
  infos ← describe_in d org repo;
  gaps ← collect repo_gaps infos;
  Ok (concat gaps).
End gaps.

(** ** What a gap is *)

(** A document whose symbols were extracted by version [v], not the registered one. *)
Definition gap_doc (a : gmap dkey Doc) (registry : Registry) (key : str * str) (l v : str) : Prop :=
  ∃ path w fp, a !! (key, path) = Some w ∧ doc_language w = Some l ∧ doc_fp w = Some fp ∧
    fingerprint_extractor_version fp l = Some v ∧ v ≠ version registry l.
Definition symbols_in (a : gmap dkey Doc) (key : str * str) (l : str) : Z :=
  in_lang a key l (λ v, Z.of_nat (length (ex_symbols (doc_ex v)))).

Section proofs.
Context `{Redb tbl} `{Serde} (sha256 : list Z → list Z) (registry : Registry).
Implicit Types (d : Db tbl).

(** Once there is a version per suspect, none is missing. *)
Lemma all_found (susp : list (str * Z)) (m : gmap str str) :
  NoDup susp.*1 → (∀ l v, m !! l = Some v → l ∈ susp.*1) → size m = length susp → ∀ l, l ∈ susp.*1 → is_Some (m !! l).
Proof.
  intros Hnd Hsub Hsize l Hl. apply elem_of_dom.
  assert (dom m = list_to_set (C:=gset str) susp.*1) as ->; [|by apply elem_of_list_to_set].
  apply set_subseteq_size_eq.
  - intros x [v Hv]%elem_of_dom. apply elem_of_list_to_set. by eapply Hsub.
  - rewrite size_list_to_set by done. by rewrite size_dom, Hsize, length_fmap.
Qed.

(** A version that the pass has to find for [l], from the row [n]. *)
Definition due (n : Node) (l : str) : Prop :=
  ∃ fp v, n_language n = Some l ∧ n_fingerprint n = Some fp ∧
    fingerprint_extractor_version fp l = Some v ∧ v ≠ version registry l.

Lemma gap_loop_run d a N S es next nt key r susp kids : ∀ found,
  rep sha256 d a N S es next nt → (∀ f, f ∈ kids → file_of key.1 key.2 r N f) → NoDup susp.*1 →
  (∀ l v, found !! l = Some v → l ∈ susp.*1 ∧ gap_doc a registry key l v) →
  ∃ m, gap_loop d registry susp found kids = Ok m ∧ found ⊆ m ∧
    (∀ l v, m !! l = Some v → l ∈ susp.*1 ∧ gap_doc a registry key l v) ∧
    ∀ f n l, f ∈ kids → N !! f = Some n → due n l → l ∈ susp.*1 → is_Some (m !! l).
Proof.
  induction kids as [|f kids IH]; intros found R Hk Hnd Hf; cbn [gap_loop].
  { exists found. split; [done|]. split; [done|]. split; [done|]. by intros ? ? ? ?%elem_of_nil. }
  destruct (Hk f) as (n & Hn & Hkn & Hr & Hp); [by left|].
  assert (∀ found1, found ⊆ found1 → (∀ l v, found1 !! l = Some v → l ∈ susp.*1 ∧ gap_doc a registry key l v) →
    (∀ l, due n l → l ∈ susp.*1 → is_Some (found1 !! l)) →
    ∃ m, gap_loop d registry susp found1 kids = Ok m ∧ found ⊆ m ∧
      (∀ l v, m !! l = Some v → l ∈ susp.*1 ∧ gap_doc a registry key l v) ∧
      ∀ f0 n0 l, f0 ∈ f :: kids → N !! f0 = Some n0 → due n0 l → l ∈ susp.*1 → is_Some (m !! l)) as Hgo.
  { intros found1 Hsub Hf1 Hhead. destruct (IH found1 R ltac:(intros; apply Hk; by right) Hnd Hf1) as (m & Hrun & Hsub1 & Hm & Hc).
    exists m. split; [done|]. split; [by etransitivity|]. split; [done|]. intros f0 n0 l [->|Hin]%elem_of_cons Hn0 Hd Hl; [|by eapply Hc].
    assert (n0 = n) as -> by congruence. destruct (Hhead l Hd Hl) as [v Hv]. exists v. by eapply lookup_weaken. }
  destruct (rep_file _ _ _ _ _ _ _ _ _ _ R Hn Hkn) as (s & w & k & Hs & Hw & Hp' & Ha).
  assert (k = (key, n_name n)) as -> by (destruct key; cbn in *; congruence). destruct (doc_of_fields _ _ _ _ Hw) as (Hm & _ & Hl).
  rewrite tbl_get_spec, (en_nodes _ _ _ _ _ (rp_ents _ _ _ _ _ _ _ _ R)), lookup_fmap, Hn. cbn [fmap option_fmap option_map].
  rewrite dec_enc. cbn [mbind outcome_mbind outcome_bind].
  destruct (n_language n) as [lang|] eqn:El; [|apply Hgo; [done..|intros l (? & ? & ? & _); congruence]].
  destruct (n_fingerprint n) as [fp|] eqn:Ef; [|apply Hgo; [done..|intros l (? & ? & _ & ? & _); congruence]].
  case_bool_decide as Hin; cbn [negb]; [|apply Hgo; [done..|intros l (? & ? & ? & _) ?; congruence]].
  case_bool_decide as Hfound; [apply Hgo; [done..|intros l (? & ? & ? & _) ?; by simplify_eq]|].
  set (found1 := match fingerprint_extractor_version fp lang with Some v => _ | None => _ end).
  assert (found ⊆ found1 ∧ (∀ l v, found1 !! l = Some v → l ∈ susp.*1 ∧ gap_doc a registry key l v) ∧
    ∀ l, due n l → l ∈ susp.*1 → is_Some (found1 !! l)) as (Hsub & Hf1 & Hhead).
  { unfold found1. destruct (fingerprint_extractor_version fp lang) as [v|] eqn:Ev; [case_bool_decide as Hv|].
    - split_and!; [done..|]. intros l (fp' & v' & ? & ? & ? & ?) _. simplify_eq.
    - split_and!.
      + apply insert_subseteq. by apply eq_None_not_Some.
      + intros l v' [[<- <-]|[_ ?]]%lookup_insert_Some; [|by apply Hf]. split; [done|].
        exists (n_name n), w, fp. split_and!; try done. unfold doc_fp. by rewrite Hm.
      + intros l (fp' & v' & ? & _) _. simplify_eq. by rewrite lookup_insert_eq.
    - split_and!; [done..|]. intros l (fp' & v' & ? & ? & ? & ?) _. simplify_eq. }
  destruct (size found1 =? length susp)%nat eqn:Es; [|by apply Hgo]. apply Nat.eqb_eq in Es.
  exists found1. split; [done|]. split; [done|]. split; [done|]. intros f0 n0 l _ _ _ Hl0.
  eapply all_found; [done| |done|done]. intros l' v'. apply Hf1.
Qed.

Lemma suspects_elem a opened key i l z :
  info_is a opened key i → (l, z) ∈ suspects registry i ↔ z = symbols_in a key l ∧ 0 < z ∧ has registry l = false.
Proof.
  intros Hi. pose proof (ii_languages _ _ _ _ Hi l) as Hl. unfold suspects. rewrite list_elem_of_fmap. split.
  - intros ([l' li] & [= -> ->] & [[Hz Hh] Hin%gmap_rows_elem]%list_elem_of_filter). cbn in *. rewrite Hin in Hl.
    destruct Hl as (_ & _ & Hs & _). by rewrite Hs in *.
  - intros (-> & Hz & Hh). destruct (ri_languages i !! l) as [li|] eqn:E; cbn in Hl.
    + destruct Hl as (_ & _ & Hs & _). exists (l, li). cbn. rewrite Hs. split; [done|]. apply list_elem_of_filter. cbn.
      rewrite Hs. split; [done|]. by apply gmap_rows_elem.
    + unfold symbols_in in Hz. rewrite in_lang_zero in Hz by done. lia.
Qed.
Lemma suspects_NoDup i : NoDup (suspects registry i).*1.
Proof.
  unfold suspects. rewrite <- list_fmap_compose. change (NoDup ((filter (λ x : str * LanguageInfo, 0 < li_symbols x.2 ∧ has registry x.1 = false) (gmap_rows (ri_languages i))).*1)).
  apply key_sorted_NoDup, filter_rows_sorted, gmap_rows_sorted.
Qed.

(** One gap of a repository's summary. *)
Definition gap_of (a : gmap dkey Doc) (g : ExtractorGap) : Prop :=
  has registry (eg_language g) = false ∧ 0 < eg_symbols g ∧
  eg_symbols g = symbols_in a (eg_org g, eg_repo g) (eg_language g) ∧
  gap_doc a registry (eg_org g, eg_repo g) (eg_language g) (eg_stored_version g).

Lemma repo_gaps_run d a opened key i :
  stores sha256 d a → info_is a opened key i →
  ∃ gs, repo_gaps d registry i = Ok gs ∧ (∀ g, g ∈ gs → (eg_org g, eg_repo g) = key ∧ gap_of a g) ∧
    NoDup (eg_language <$> gs) ∧
    ∀ l v, gap_doc a registry key l v → has registry l = false → 0 < symbols_in a key l → l ∈ eg_language <$> gs.
Proof.
  intros (N & S & es & next & nt & R) Hi. unfold repo_gaps.
  assert (∀ l z, (l, z) ∈ suspects registry i ↔ z = symbols_in a key l ∧ 0 < z ∧ has registry l = false) as Hsusp by (intros; by eapply suspects_elem).
  pose proof (suspects_NoDup i) as Hnd.
  case_decide as E.
  { exists []. split; [done|]. split; [by intros ? ?%elem_of_nil|]. split; [constructor|].
    intros l v _ Hh Hz. assert ((l, symbols_in a key l) ∈ suspects registry i) as Hin by by apply Hsusp. rewrite E in Hin. by apply elem_of_nil in Hin. }
  assert ((o ← find d None Org (ri_org i); find d (Some o) Repo (ri_repo i)) = repo_id_in (db_names d) key.1 key.2) as ->.
  { destruct Hi as [<- _ _ _ _ _ _]. cbn [fst snd]. unfold repo_id_in, find. by destruct (tbl_get _ _). }
  pose proof (repo_id_run sha256 _ _ _ _ _ _ _ key.1 key.2 R) as Hr.
  destruct (repo_id_in (db_names d) key.1 key.2) as [r|].
  2:{ exists []. split; [done|]. split; [by intros ? ?%elem_of_nil|]. split; [constructor|].
      intros l v (p & w & fp & Ha & _). destruct key. cbn in Hr. by rewrite Hr in Ha. }
  destruct Hr as (rn & o & on & Hrn & Hkr & Hnr & Hpr & Hon & Hno).
  destruct (gap_loop_run d a N S es next nt key r (suspects registry i) (multimap_get (db_children d) r) ∅ R) as (m & -> & _ & Hm & Hc);
    [intros f; by eapply repo_files|done|by intros ? ? ?%lookup_empty_Some|].
  cbn [mbind outcome_mbind outcome_bind]. eexists. split; [done|].
  set (gap := λ s : str * Z, v ← m !! s.1; Some (mkExtractorGap (ri_org i) (ri_repo i) s.1 v s.2)).
  split_and!.
  - intros g ([l z] & Hin & (v & Hv & [= <-])%bind_Some)%list_elem_of_omap. unfold gap_of. cbn in *.
    destruct Hi as [-> _ _ _ _ _ _]. apply Hsusp in Hin as (-> & Hz & Hh). destruct (Hm l v Hv) as [_ Hd]. done.
  - assert (∀ l, NoDup l.*1 → NoDup (eg_language <$> omap gap l) ∧ ∀ x, x ∈ eg_language <$> omap gap l → x ∈ l.*1) as Hgen; [|by apply Hgen].
    clear. induction l as [|[x z] l IH]; [split; [constructor|done]|]. cbn [fmap list_fmap fst]. intros [Hx Hnd]%NoDup_cons.
    destruct (IH Hnd) as [IH1 IH2]. cbn [omap list_omap].
    assert (gap (x, z) = v ← m !! x; Some (mkExtractorGap (ri_org i) (ri_repo i) x v z)) as -> by done.
    destruct (m !! x) as [v|]; cbn [mbind option_bind fmap list_fmap eg_language].
    + split; [constructor; [|done]; intros Hin; by apply Hx, IH2|]. intros y [->|Hy]%elem_of_cons; [left|right; by apply IH2].
    + split; [done|]. intros y Hy. right. by apply IH2.
  - intros l v (p & w & fp & Ha & Hl & Hfp & Hv & Hne) Hh Hz.
    assert ((l, symbols_in a key l) ∈ suspects registry i) as Hin by by apply Hsusp.
    assert (is_Some (m !! l)) as [v' Hv'].
    { apply (rp_docs _ _ _ _ _ _ _ _ R) in Ha as (f & He). apply entry_at_Some in He as (n & s & Hp & Hn & _ & Hw).
      destruct (doc_of_fields _ _ _ _ Hw) as (Hmeta & _ & Hlang). destruct key as [ko kr]. cbn in *. subst ko kr.
      destruct (file_under _ _ _ _ _ _ _ _ _ _ _ (rp_ents _ _ _ _ _ _ _ _ R) Hrn Hkr Hpr Hon Hp) as (n' & Hn' & _ & Hr & _).
      assert (n' = n) as -> by congruence. eapply (Hc f n l); [|done| |apply list_elem_of_fmap; by exists (l, symbols_in a (n_name on, n_name rn) l)].
      - apply multimap_elem, (en_kids _ _ _ _ _ (rp_ents _ _ _ _ _ _ _ _ R)). by exists n.
      - exists fp, v. unfold doc_fp in Hfp. rewrite Hmeta in Hfp. by rewrite <- Hlang. }
    apply list_elem_of_fmap. exists (mkExtractorGap (ri_org i) (ri_repo i) l v' (symbols_in a key l)). split; [done|].
    apply list_elem_of_omap. exists (l, symbols_in a key l). unfold gap. cbn. by rewrite Hv'.
Qed.

Lemma repos_gaps_run d a opened (rows : list (str * str * RepoInfo)) :
  stores sha256 d a → (∀ key i, (key, i) ∈ rows → info_is a opened key i) → NoDup rows.*1 →
  ∃ gss, collect (repo_gaps d registry) rows.*2 = Ok gss ∧
    (∀ g, g ∈ concat gss → (eg_org g, eg_repo g) ∈ rows.*1 ∧ gap_of a g) ∧
    NoDup ((λ g, (eg_org g, eg_repo g, eg_language g)) <$> concat gss) ∧
    ∀ key l v, key ∈ rows.*1 → gap_doc a registry key l v → has registry l = false → 0 < symbols_in a key l →
      (key, l) ∈ (λ g, (eg_org g, eg_repo g, eg_language g)) <$> concat gss.
Proof.
  intros Ha. induction rows as [|[key i] rows IH]; intros Hrows Hnd.
  { exists []. split; [done|]. split; [by intros ? ?%elem_of_nil|]. split; [constructor|]. by intros ? ? ? ?%elem_of_nil. }
  cbn [fmap list_fmap fst] in Hnd. apply NoDup_cons in Hnd as [Hk Hnd].
  destruct (repo_gaps_run d a opened key i Ha) as (gs & Hgs & H1 & H2 & H3); [apply Hrows; by left|].
  destruct IH as (gss & Hrun & I1 & I2 & I3); [intros; apply Hrows; by right|done|].
  exists (gs :: gss). cbn [fmap list_fmap snd fst collect]. rewrite Hgs. cbn [mbind outcome_mbind outcome_bind]. rewrite Hrun.
  split; [done|]. cbn [concat]. rewrite fmap_app. split_and!.
  - intros g [Hg|Hg]%elem_of_app; [destruct (H1 g Hg) as [-> ?]; split; [by left|done]|]. destruct (I1 g Hg). split; [by right|done].
  - apply NoDup_app. split_and!.
    + eapply (NoDup_fmap_1 snd). rewrite <- list_fmap_compose. exact H2.
    + intros x (g & -> & Hg)%list_elem_of_fmap (g' & [= E1 E2 E3] & Hg')%list_elem_of_fmap. destruct (H1 g Hg) as [E _], (I1 g' Hg') as [Hin _].
      apply Hk. rewrite <- E, E1, E2. exact Hin.
    + done.
  - intros key' l v [->|Hin]%elem_of_cons Hd Hh Hz; apply elem_of_app; [left|right; by eapply I3].
    destruct (proj1 (list_elem_of_fmap _ _ _) (H3 l v Hd Hh Hz)) as (g & -> & Hg). apply list_elem_of_fmap. exists g.
    by destruct (H1 g Hg) as [<- _].
Qed.

(** C26: the reported extractor gaps are exactly the wanted repositories'
    languages that have symbols stored, no registered extractor now, and a
    file whose fingerprint names another extractor version than the fallback's;
    each is reported once, with the symbols stored in that language and the
    version of such a file. *)
Theorem extractor_gaps_exact d a (org repo : option str) :
  stores sha256 d a →
  ∃ gaps, extractor_gaps_in d registry org repo = Ok gaps ∧
    (∀ g, g ∈ gaps → wanted org repo (eg_org g, eg_repo g) = true ∧ gap_of a g) ∧
    NoDup ((λ g, (eg_org g, eg_repo g, eg_language g)) <$> gaps) ∧
    ∀ key l v, wanted org repo key = true → gap_doc a registry key l v → has registry l = false → 0 < symbols_in a key l →
      (key, l) ∈ (λ g, (eg_org g, eg_repo g, eg_language g)) <$> gaps.
Proof.
  intros Ha. pose proof Ha as (N & S & es & next & nt & R).
  destruct (describe_in_run sha256 d a N S es next nt org repo R) as (infos & Hd & Hsome & Hi).
  unfold extractor_gaps_in. rewrite Hd. cbn [mbind outcome_mbind outcome_bind].
  assert (∀ key i, (key, i) ∈ gmap_rows infos → wanted org repo key = true ∧ info_is a (open_batch_marker d) key i) as Hrows.
  { intros key i Hin%gmap_rows_elem. split; [apply Hsome; by rewrite Hin|by apply Hi]. }
  assert (∀ key v l, wanted org repo key = true → gap_doc a registry key l v → ∃ i, (key, i) ∈ gmap_rows infos) as Hall.
  { intros key v l Hw (p & w & fp & Hk & _). destruct (proj2 (Hsome key)) as [i Hin]; [split; [done|by eapply (doc_repo sha256 _ _ _ _ _ _ _ (key, p))]|].
    exists i. by apply gmap_rows_elem. }
  destruct (repos_gaps_run d a (open_batch_marker d) (gmap_rows infos) Ha) as (gss & -> & H1 & H2 & H3);
    [intros key i Hin; by apply Hrows|apply gmap_rows_NoDup|].
  cbn [mbind outcome_mbind outcome_bind]. exists (concat gss). split; [done|]. split_and!; [|done|].
  - intros g Hg. destruct (H1 g Hg) as [([key i] & Hk & Hin)%list_elem_of_fmap Hgap]. split; [|done]. rewrite Hk. by eapply Hrows.
  - intros key l v Hw Hg Hh Hz. eapply H3; [|done..]. destruct (Hall key v l Hw Hg) as (i & Hin). apply list_elem_of_fmap. by exists (key, i).
Qed.
End proofs.

#[local] Existing Instance gmap_redb.
#[local] Existing Instance coded_serde.

(** A file of the Rust extractor [rs-9], read by a store without extractors. *)
Module Gapped.
Definition meta : FileMeta := mkFileMeta (Some ORIGIN_DIRECTORY) (Some (lit "sha256:ab|rust|rs-9|1")) None false.
Definition ingested : result (IngestStats * Sample.db) :=
  ingest_prepped Sample.sha db_empty (lit "o") (lit "r") (lit "a.rs") (lit "Rust") demo meta None.
Definition store : Sample.db := match ingested with Ok (_, d) => d | _ => db_empty end.
Definition docs : gmap dkey Doc := {[(lit "o", lit "r", lit "a.rs") := new_doc (lit "Rust") meta demo]}.

Lemma gapped : stores Sample.sha store docs.
Proof.
  assert (ingest_guard (lit "o") (lit "r") (lit "Rust") demo = Ok ()) as Hg by by vm_compute.
  destruct (ingest_run Sample.sha (tbl:=λ K _ _ V, gmap K V) db_empty ∅ (lit "o") (lit "r") (lit "a.rs") (lit "Rust") demo
    meta None (stores_empty Sample.sha) Hg demo_small demo_spans_ok Sample.demo_texts) as (file & d' & Hr & Hd' & _); [done|by vm_compute|done|].
  unfold store, ingested. rewrite Hr. assert (normalize_path (lit "a.rs") = lit "a.rs") as Hp by by vm_compute.
  rewrite Hp in Hd'. exact Hd'.
Qed.
End Gapped.

Lemma one_gap (r : result (list ExtractorGap)) :
  match r with Ok [g] => bool_decide (eg_language g = lit "rust") && bool_decide (eg_stored_version g = lit "rs-9") | _ => false end = true →
  ∃ g, r = Ok [g] ∧ eg_language g = lit "rust" ∧ eg_stored_version g = lit "rs-9".
Proof. destruct r as [[|g [|]]| |]; try done. intros [?%bool_decide_eq_true ?%bool_decide_eq_true]%andb_true_iff. by exists g. Qed.

Lemma extractor_gaps_exact_witness :
  ∃ g, extractor_gaps_in Gapped.store Registry_default None None = Ok [g] ∧ eg_language g = lit "rust" ∧
    eg_stored_version g = lit "rs-9" ∧ gap_of Registry_default Gapped.docs g.
Proof.
  destruct (extractor_gaps_exact Sample.sha Registry_default Gapped.store Gapped.docs None None Gapped.gapped) as (gaps & Hg & H1 & _).
  destruct (one_gap (extractor_gaps_in Gapped.store Registry_default None None)) as (g & Hi & Hl & Hv); [vm_compute; exact eq_refl|].
  exists g. rewrite Hi in Hg. injection Hg as <-. exact (conj Hi (conj Hl (conj Hv (proj2 (H1 g (list_elem_of_here g [])))))).
Defined.
