(* ===== verification/NameCache.v ===== *)
(** * The cache of symbol names

    [graph-store/src/name_cache.rs]: the distinct names of a symbol index in
    one string, built by the walk of an infix or suffix query, and the search
    of it. Offsets are byte offsets. The write generations that say when a
    cache may be used are in [Generations.v]. *)
From S2P Require Import Prelude Text StrOps Schema Varint Stream Pattern.

Definition DEFAULT_NAME_CACHE_MAX_BYTES : Z := Z.shiftl 256 20.

Record NameCache : Type := mkNameCache {
  nc_generation : Z;
  nc_names : str;
  nc_ends : list nat;
  nc_id_ends : list nat;
  nc_ids : list Z;
}.

Definition bytes (c : NameCache) : Z :=
  Z.of_nat (str_len (nc_names c)) + 4 * Z.of_nat (length (nc_ends c) + length (nc_id_ends c)) +
  8 * Z.of_nat (length (nc_ids c)).

(** [&v[lo..hi]]. *)
Definition slice_vec {A} (l : list A) (lo hi : nat) : tk (list A) :=
  if (lo <=? hi)%nat && (hi <=? length l)%nat then Ok (take (hi - lo) (drop lo l)) else Panic.

(** Where entry [i] of running ends starts. *)
Definition start_at (ends : list nat) (i : nat) : tk nat :=
  if (i =? 0)%nat then Ok 0%nat else index ends (i - 1).

Fixpoint collect_loop (fuel : nat) (c : NameCache) (needle : str) (matches : str → bool)
    (pos : nat) (out : list Z) : tk (list Z) :=
  match fuel with
  | O => Panic
  | S fuel =>
      rest ← slice_from (nc_names c) pos;
      match find_str needle rest with
      | None => Ok out
      | Some m =>
          let at_ := (pos + m)%nat in
          let i := partition_point (λ e, e <=? at_)%nat (nc_ends c) in
          if (length (nc_ends c) <=? i)%nat then Ok out else
          start ← start_at (nc_ends c) i;
          end_ ← index (nc_ends c) i;
          name ← slice_range (nc_names c) start end_;
          out ← (if matches name then
                   lo ← start_at (nc_id_ends c) i;
                   hi ← index (nc_id_ends c) i;
                   ids ← slice_vec (nc_ids c) lo hi;
                   Ok (out ++ ids)
                 else Ok out);
          let pos := Nat.max end_ (at_ + 1) in
          if (str_len (nc_names c) <? pos)%nat then Ok out
          else collect_loop fuel c needle matches pos out
      end
  end.
(** Each round passes at least one name. *)
Definition NameCache_collect (c : NameCache) (needle : str) (matches : str → bool) (out : list Z) : tk (list Z) :=
  collect_loop (S (length (nc_ends c))) c needle matches 0 out.

(** ** Building *)

Record Builder : Type := mkBuilder { nb_cache : option NameCache; nb_max_bytes : Z }.

(** [u32::try_from(n)]. *)
Definition fits_u32 (n : nat) : bool := Z.of_nat n <? 2 ^ 32.

Definition push_name (b : Builder) (name : str) : Builder :=
  match nb_cache b with
  | None => b
  | Some c =>
      let names := nc_names c ++ name in
      mkBuilder (if fits_u32 (str_len names)
                 then Some (mkNameCache (nc_generation c) names (nc_ends c ++ [str_len names]) (nc_id_ends c) (nc_ids c))
                 else None) (nb_max_bytes b)
  end.
Definition push_id (b : Builder) (id : Z) : Builder :=
  match nb_cache b with
  | None => b
  | Some c => mkBuilder (Some (mkNameCache (nc_generation c) (nc_names c) (nc_ends c) (nc_id_ends c) (nc_ids c ++ [id]))) (nb_max_bytes b)
  end.
Definition end_name (b : Builder) : Builder :=
  match nb_cache b with
  | None => b
  | Some c =>
      if fits_u32 (length (nc_ids c)) then
        let c := mkNameCache (nc_generation c) (nc_names c) (nc_ends c) (nc_id_ends c ++ [length (nc_ids c)]) (nc_ids c) in
        mkBuilder (if nb_max_bytes b <? bytes c then None else Some c) (nb_max_bytes b)
      else mkBuilder None (nb_max_bytes b)
  end.

(** ** The two caches of a store *)

Record NameCaches : Type := mkNameCaches {
  ns_fold : option NameCache;
  ns_exact : option NameCache;
  ns_building_fold : bool;
  ns_building_exact : bool;
  ns_max_bytes : Z;
}.
Definition NameCaches_default : NameCaches := mkNameCaches None None false false DEFAULT_NAME_CACHE_MAX_BYTES.

Definition slot (s : NameCaches) (exact_case : bool) : option NameCache :=
  if exact_case then ns_exact s else ns_fold s.
Definition set_slot (exact_case : bool) (c : option NameCache) (s : NameCaches) : NameCaches :=
  if exact_case then mkNameCaches (ns_fold s) c (ns_building_fold s) (ns_building_exact s) (ns_max_bytes s)
  else mkNameCaches c (ns_exact s) (ns_building_fold s) (ns_building_exact s) (ns_max_bytes s).
Definition building (s : NameCaches) (exact_case : bool) : bool :=
  if exact_case then ns_building_exact s else ns_building_fold s.
Definition set_building (exact_case b : bool) (s : NameCaches) : NameCaches :=
  if exact_case then mkNameCaches (ns_fold s) (ns_exact s) (ns_building_fold s) b (ns_max_bytes s)
  else mkNameCaches (ns_fold s) (ns_exact s) b (ns_building_exact s) (ns_max_bytes s).

Definition set_max_bytes (n : Z) (s : NameCaches) : NameCaches :=
  let keep (o : option NameCache) := c ← o; if n <? bytes c then None else Some c in
  mkNameCaches (keep (ns_fold s)) (keep (ns_exact s)) (ns_building_fold s) (ns_building_exact s) n.

Definition NameCaches_get (s : NameCaches) (exact_case : bool) (generation : Z) : option NameCache :=
  c ← slot s exact_case; if nc_generation c =? generation then Some c else None.

(** [compare_exchange(false, true)] on the mode's flag. *)
Definition builder (s : NameCaches) (exact_case : bool) (generation : Z) : option Builder * NameCaches :=
  if ns_max_bytes s =? 0 then (None, s)
  else if building s exact_case then (None, s)
  else (Some (mkBuilder (Some (mkNameCache generation [] [] [] [])) (ns_max_bytes s)), set_building exact_case true s).
(** A dropped builder clears the flag. *)
Definition drop_builder (exact_case : bool) (s : NameCaches) : NameCaches := set_building exact_case false s.

(** The builder is consumed, so dropped. *)
Definition put (s : NameCaches) (exact_case : bool) (b : Builder) : NameCaches :=
  let s' := match nb_cache b with
    | None => s
    | Some c =>
        match slot s exact_case with
        | Some old => if nc_generation old <? nc_generation c then set_slot exact_case (Some c) s else s
        | None => set_slot exact_case (Some c) s
        end
    end in
  drop_builder exact_case s'.

Definition held_bytes (s : NameCaches) : Z * Z :=
  let b (o : option NameCache) := match o with Some c => bytes c | None => 0 end in
  (b (ns_fold s), b (ns_exact s)).

(** ** What a cache holds *)

Fixpoint runs {A} (f : A → nat) (n : nat) (l : list A) : list nat :=
  match l with
  | [] => []
  | x :: l => (n + f x)%nat :: runs f (n + f x) l
  end.
Fixpoint weight {A} (f : A → nat) (l : list A) : nat :=
  match l with [] => 0 | x :: l => f x + weight f l end.

(** The cache of the rows of an index. *)
Definition cache_of (g : Z) (rows : list (str * list Z)) : NameCache :=
  mkNameCache g (concat rows.*1) (runs (λ r, str_len r.1) 0 rows) (runs (λ r, length r.2) 0 rows) (concat rows.*2).

Definition push_row (b : Builder) (row : str * list Z) : Builder :=
  end_name (foldl push_id (push_name b row.1) row.2).

Lemma runs_app {A} (f : A → nat) l k : ∀ n, runs f n (l ++ k) = runs f n l ++ runs f (n + weight f l) k.
Proof.
  induction l as [|x l IH]; intros n; cbn; [by rewrite Nat.add_0_r|]. rewrite IH. do 3 f_equal. lia.
Qed.
Lemma weight_app {A} (f : A → nat) l k : weight f (l ++ k) = (weight f l + weight f k)%nat.
Proof. induction l as [|x l IH]; cbn; [done|]. lia. Qed.
Lemma runs_length {A} (f : A → nat) l : ∀ n, length (runs f n l) = length l.
Proof. induction l as [|x l IH]; intros n; cbn; [done|]. by rewrite IH. Qed.
Lemma names_len rows : str_len (concat rows.*1) = weight (λ r : str * list Z, str_len r.1) rows.
Proof. induction rows as [|r rows IH]; [done|]. cbn [fmap list_fmap concat weight]. by rewrite str_len_app, IH. Qed.
Lemma ids_len rows : length (concat rows.*2) = weight (λ r : str * list Z, length r.2) rows.
Proof. induction rows as [|r rows IH]; [done|]. cbn [fmap list_fmap concat weight]. by rewrite length_app, IH. Qed.

(** The running ends around a row. *)
Lemma runs_at {A} (f : A → nat) pre x suf :
  runs f 0 (pre ++ x :: suf) !! length pre = Some (weight f pre + f x)%nat ∧
  start_at (runs f 0 (pre ++ x :: suf)) (length pre) = Ok (weight f pre).
Proof.
  rewrite runs_app. cbn [runs]. split; [by rewrite lookup_app_r, runs_length, Nat.sub_diag by (by rewrite runs_length)|].
  unfold start_at. destruct (length pre =? 0)%nat eqn:E; bool_prop.
  - apply length_zero_iff_nil in E as ->. done.
  - destruct pre as [|y l _] using rev_ind; [done|]. rewrite length_app, Nat.add_sub, runs_app, <- app_assoc. cbn [runs app].
    unfold index. rewrite lookup_app_r, runs_length, Nat.sub_diag by (by rewrite runs_length). rewrite weight_app. cbn.
    do 2 f_equal. lia.
Qed.
Lemma partition_runs {A} (f : A → nat) pre x suf at_ :
  (weight f pre ≤ at_)%nat → (at_ < weight f pre + f x)%nat →
  partition_point (λ e, e <=? at_)%nat (runs f 0 (pre ++ x :: suf)) = length pre.
Proof.
  assert (∀ n, (n + weight f pre ≤ at_)%nat → (at_ < n + weight f pre + f x)%nat →
    partition_point (λ e, e <=? at_)%nat (runs f n (pre ++ x :: suf)) = length pre) as Hg; [|intros; by apply Hg].
  induction pre as [|y pre IH]; intros n Hle Hlt; cbn in *.
  - destruct (n + f x <=? at_)%nat eqn:E; bool_prop; [lia|done].
  - destruct (n + f y <=? at_)%nat eqn:E; bool_prop; [|lia]. f_equal. apply IH; lia.
Qed.

(** ** Searching a cache *)

Lemma find_str_first pat s n :
  find_str pat s = Some n →
  ∃ a b, s = a ++ pat ++ b ∧ str_len a = n ∧ ∀ a' b', s = a' ++ pat ++ b' → (str_len a ≤ str_len a')%nat.
Proof.
  revert n. induction s as [|c s IH]; intros n; cbn [find_str].
  - destruct (starts_with [] pat) eqn:E; [|done]. intros [= <-]. apply starts_with_spec in E as (r & Hr). exists [], r.
    split; [done|]. split; [done|]. intros. apply Nat.le_0_l.
  - destruct (starts_with (c :: s) pat) eqn:E.
    + intros [= <-]. apply starts_with_spec in E as (r & Hr). exists [], r. split; [done|]. split; [done|]. intros. apply Nat.le_0_l.
    + intros (m & Hm & ->)%fmap_Some. destruct (IH m Hm) as (a & b & -> & <- & Hmin). exists (c :: a), b. split; [done|].
      rewrite str_len_cons. split; [done|]. intros [|c' a'] b' Heq.
      * apply not_true_iff_false in E. destruct E. apply starts_with_spec. by exists b'.
      * injection Heq as -> Heq. rewrite str_len_cons. specialize (Hmin a' b' Heq). lia.
Qed.
Lemma find_str_None pat s : find_str pat s = None → contains s pat = false.
Proof.
  induction s as [|c s IH]; cbn [find_str contains]; (destruct (starts_with _ pat); [done|]); [done|]. by intros ?%fmap_None%IH.
Qed.

(** The row an offset falls in. *)
Lemma row_at (rows : list (str * list Z)) n :
  (n < weight (λ r, str_len r.1) rows)%nat →
  ∃ mid r suf, rows = mid ++ r :: suf ∧ (weight (λ r, str_len r.1) mid ≤ n < weight (λ r, str_len r.1) mid + str_len r.1)%nat.
Proof.
  revert n. induction rows as [|r rows IH]; intros n; cbn [weight]; [lia|]. intros Hn.
  destruct (decide (n < str_len r.1)%nat) as [Hlt|Hge]; [exists [], r, rows; cbn [weight]; split; [done|lia]|].
  destruct (IH (n - str_len r.1)%nat ltac:(lia)) as (mid & r' & suf & -> & Hw). exists (r :: mid), r', suf. cbn [weight]. split; [done|lia].
Qed.

Section collect.
Context (g : Z) (needle : str) (matches : str → bool).
Hypothesis needle_some : needle ≠ [].
Hypothesis matches_contains : ∀ n, matches n = true → contains n needle = true.

(** The ids of the matching rows. *)
Definition matching (rows : list (str * list Z)) : list Z :=
  concat (filter (λ r : str * list Z, matches r.1 = true) rows).*2.

Lemma matching_none (rows : list (str * list Z)) :
  (∀ r, r ∈ rows → contains r.1 needle = false) → matching rows = [].
Proof.
  intros Hr. unfold matching. assert (filter (λ r : str * list Z, matches r.1 = true) rows = []) as ->; [|done].
  induction rows as [|r rows IH]; [done|]. rewrite filter_cons_False; [apply IH; intros; apply Hr; by right|].
  intros Hm%matches_contains. rewrite Hr in Hm by (by left). done.
Qed.
Lemma matching_app l k : matching (l ++ k) = matching l ++ matching k.
Proof. unfold matching. by rewrite filter_app, fmap_app, concat_app. Qed.

(** The ids of one row. *)
Lemma collect_ids P (r : str * list Z) suf (out : list Z) :
  (if matches r.1 then
     lo ← start_at (nc_id_ends (cache_of g (P ++ r :: suf))) (length P);
     hi ← index (nc_id_ends (cache_of g (P ++ r :: suf))) (length P);
     ids ← slice_vec (nc_ids (cache_of g (P ++ r :: suf))) lo hi;
     Ok (out ++ ids)
   else Ok out : tk (list Z)) = Ok (out ++ if matches r.1 then r.2 else []).
Proof.
  destruct (matches r.1); [|by rewrite app_nil_r]. destruct (runs_at (λ r : str * list Z, length r.2) P r suf) as [Hi1 Hi2].
  change (nc_id_ends (cache_of g (P ++ r :: suf))) with (runs (λ r : str * list Z, length r.2) 0 (P ++ r :: suf)).
  rewrite Hi2. cbn [mbind tk_mbind outcome_bind]. unfold index. rewrite Hi1. cbn [mbind tk_mbind outcome_bind].
  assert (nc_ids (cache_of g (P ++ r :: suf)) = concat P.*2 ++ r.2 ++ concat suf.*2) as ->.
  { cbn. by rewrite fmap_app, concat_app. }
  unfold slice_vec. rewrite (proj2 (Nat.leb_le _ _)) by lia. rewrite !length_app, ids_len, (proj2 (Nat.leb_le _ _)) by lia.
  cbn [andb mbind tk_mbind outcome_bind]. rewrite <- ids_len, drop_app_length. replace (length (concat P.*2) + length r.2 - length (concat P.*2))%nat with (length r.2) by lia.
  by rewrite take_app_length.
Qed.

Lemma collect_loop_run fuel : ∀ pre suf out,
  (length suf < fuel)%nat →
  collect_loop fuel (cache_of g (pre ++ suf)) needle matches (weight (λ r, str_len r.1) pre) out = Ok (out ++ matching suf).
Proof.
  induction fuel as [|fuel IH]; intros pre suf out Hfuel; [lia|]. cbn [collect_loop]. set (c := cache_of g (pre ++ suf)).
  assert (nc_names c = concat pre.*1 ++ concat suf.*1) as Hn by (cbn; by rewrite fmap_app, concat_app).
  assert (slice_from (nc_names c) (weight (λ r, str_len r.1) pre) = Ok (concat suf.*1)) as ->
    by (rewrite Hn; apply slice_from_app; by rewrite names_len).
  cbn [mbind tk_mbind outcome_bind]. destruct (find_str needle (concat suf.*1)) as [m|] eqn:Ef.
  2:{ apply find_str_None in Ef. rewrite matching_none, app_nil_r; [done|]. intros r Hr. apply not_true_is_false. intros Hc.
      apply not_true_iff_false in Ef. destruct Ef. apply contains_spec in Hc as (x & y & Hc). apply list_elem_of_split in Hr as (l & k & ->).
      apply contains_spec. rewrite fmap_app, concat_app. cbn [fmap list_fmap concat]. rewrite Hc.
      exists (concat l.*1 ++ x), (y ++ concat k.*1). by rewrite <- !app_assoc. }
  destruct (find_str_first _ _ _ Ef) as (x & y & Hx & Hm & Hmin).
  assert (0 < str_len needle)%nat as Hpos by by apply str_len_pos.
  destruct (row_at suf m) as (mid & r & suf' & -> & Hw).
  { rewrite <- names_len, Hx, !str_len_app. lia. }
  assert (∀ q, q ∈ mid → contains q.1 needle = false) as Hmid.
  { intros q Hq. apply not_true_is_false. intros Hc. apply contains_spec in Hc as (u & v & Hc). apply list_elem_of_split in Hq as (l & k & ->).
    assert (weight (λ r : str * list Z, str_len r.1) (l ++ q :: k) = weight (λ r : str * list Z, str_len r.1) l + str_len q.1 + weight (λ r : str * list Z, str_len r.1) k)%nat as Hwl.
    { rewrite weight_app. cbn [weight]. lia. }
    specialize (Hmin (concat l.*1 ++ u) (v ++ concat k.*1 ++ concat (r :: suf').*1)).
    rewrite str_len_app, names_len in Hmin. rewrite Hc, !str_len_app in Hwl.
    enough (str_len x ≤ weight (λ r : str * list Z, str_len r.1) l + str_len u)%nat by lia. apply Hmin.
    rewrite !fmap_app, !concat_app. cbn [fmap list_fmap concat]. rewrite Hc. by rewrite <- !app_assoc. }
  set (w := weight (λ r : str * list Z, str_len r.1)) in *.
  assert (c = cache_of g ((pre ++ mid) ++ r :: suf')) as Hc by (unfold c; by rewrite <- app_assoc).
  assert (w (pre ++ mid) = w pre + w mid)%nat as Hwa by apply weight_app.
  clearbody c. clear Hn. subst c. set (P := pre ++ mid) in *.
  assert (nc_names (cache_of g (P ++ r :: suf')) = concat P.*1 ++ r.1 ++ concat suf'.*1) as Hnames.
  { cbn. by rewrite fmap_app, concat_app. }
  destruct (runs_at (λ r : str * list Z, str_len r.1) P r suf') as [He1 He2].
  cbv zeta. change (nc_ends (cache_of g (P ++ r :: suf'))) with (runs (λ r : str * list Z, str_len r.1) 0 (P ++ r :: suf')).
  rewrite partition_runs by (fold w; lia). rewrite (proj2 (Nat.leb_gt _ _)) by (rewrite runs_length, length_app; cbn; lia).
  assert (index (E:=Empty_set) (runs (λ r : str * list Z, str_len r.1) 0 (P ++ r :: suf')) (length P) = Ok (w P + str_len r.1)%nat) as ->
    by (unfold index; by rewrite He1).
  rewrite He2. cbn [mbind tk_mbind outcome_bind]. rewrite Hnames, slice_range_app by (by rewrite names_len). cbn [mbind tk_mbind outcome_bind].
  rewrite collect_ids. cbn [mbind tk_mbind outcome_bind]. fold w.
  replace (Nat.max (w P + str_len r.1) (w pre + m + 1)) with (w (P ++ [r])) by (unfold w at 1; rewrite weight_app; cbn [weight]; fold w; lia).
  rewrite <- Hnames. change (nc_names (cache_of g (P ++ r :: suf'))) with (concat (P ++ r :: suf').*1). rewrite names_len. fold w.
  rewrite (proj2 (Nat.ltb_ge _ _)) by (unfold w; rewrite !weight_app; cbn [weight]; lia).
  assert (P ++ r :: suf' = (P ++ [r]) ++ suf') as -> by by rewrite <- app_assoc.
  rewrite IH by (rewrite length_app in Hfuel; cbn in Hfuel; lia). rewrite matching_app, (matching_none mid) by done.
  f_equal. cbn [app]. unfold matching at 2. rewrite filter_cons. destruct (matches r.1) eqn:Em.
  - rewrite decide_True by done. cbn [fmap list_fmap concat]. unfold matching. by rewrite app_assoc.
  - rewrite decide_False by done. by rewrite app_nil_r.
Qed.

Lemma NameCache_collect_run rows out :
  NameCache_collect (cache_of g rows) needle matches out = Ok (out ++ matching rows).
Proof.
  unfold NameCache_collect. rewrite (collect_loop_run _ [] rows); [done|]. cbn. rewrite runs_length. lia.
Qed.
End collect.

(** ** What a build gives *)

Lemma push_ids_run ids : ∀ b c,
  nb_cache b = Some c →
  foldl push_id b ids = mkBuilder (Some (mkNameCache (nc_generation c) (nc_names c) (nc_ends c) (nc_id_ends c) (nc_ids c ++ ids))) (nb_max_bytes b).
Proof.
  induction ids as [|i ids IH]; intros [o m] c; cbn [nb_cache]; intros ->; cbn [foldl].
  - rewrite app_nil_r. by destruct c.
  - rewrite (IH (push_id (mkBuilder (Some c) m) i) _ eq_refl). cbn. by rewrite <- app_assoc.
Qed.
Lemma push_ids_none ids b : nb_cache b = None → foldl push_id b ids = b.
Proof. intros Hb. induction ids as [|i ids IH]; [done|]. cbn. assert (push_id b i = b) as -> by (unfold push_id; by rewrite Hb). done. Qed.

(** Both offset tables are of 32-bit entries, and the whole is bounded. *)
Definition cache_fits (max : Z) (c : NameCache) : Prop :=
  Z.of_nat (str_len (nc_names c)) < 2 ^ 32 ∧ Z.of_nat (length (nc_ids c)) < 2 ^ 32 ∧ bytes c ≤ max.
#[global] Instance cache_fits_dec max c : Decision (cache_fits max c).
Proof. unfold cache_fits. apply _. Defined.

Lemma cache_snoc g rows r :
  cache_of g (rows ++ [r]) =
  mkNameCache g (concat rows.*1 ++ r.1) (runs (λ r, str_len r.1) 0 rows ++ [str_len (concat rows.*1 ++ r.1)])
    (runs (λ r, length r.2) 0 rows ++ [length (concat rows.*2 ++ r.2)]) (concat rows.*2 ++ r.2).
Proof.
  unfold cache_of. rewrite !fmap_app, !concat_app, !runs_app. cbn [fmap list_fmap concat runs]. rewrite !app_nil_r.
  by rewrite str_len_app, length_app, names_len, ids_len.
Qed.

Lemma push_row_run max g rows r :
  push_row (mkBuilder (Some (cache_of g rows)) max) r =
  mkBuilder (if decide (cache_fits max (cache_of g (rows ++ [r]))) then Some (cache_of g (rows ++ [r])) else None) max.
Proof.
  unfold push_row, push_name. cbn [nb_cache nb_max_bytes]. rewrite cache_snoc. unfold cache_fits, fits_u32. cbn [nc_names nc_ids cache_of].
  destruct (Z.of_nat (str_len (concat rows.*1 ++ r.1)) <? 2 ^ 32) eqn:E1; bool_prop.
  2:{ rewrite push_ids_none by done. unfold end_name. cbn [nb_cache]. rewrite decide_False by lia. done. }
  erewrite push_ids_run by done. unfold end_name. cbn [nb_cache nc_ids nc_generation nc_names nc_ends nc_id_ends nb_max_bytes]. unfold fits_u32.
  destruct (Z.of_nat (length (concat rows.*2 ++ r.2)) <? 2 ^ 32) eqn:E2; bool_prop; [|by rewrite decide_False by lia].
  cbn [cache_of nc_generation nc_ends nc_id_ends]. match goal with |- context [max <? ?b] => destruct (max <? b) eqn:E3; bool_prop end.
  - by rewrite decide_False by lia.
  - by rewrite decide_True by lia.
Qed.
Lemma push_row_none b r : nb_cache b = None → push_row b r = b.
Proof. intros Hb. unfold push_row, push_name. rewrite Hb, push_ids_none by done. unfold end_name. by rewrite Hb. Qed.

Lemma cache_fits_prefix max g rows r : cache_fits max (cache_of g (rows ++ [r])) → cache_fits max (cache_of g rows).
Proof.
  rewrite cache_snoc. unfold cache_fits, bytes. cbn [cache_of nc_names nc_ids nc_ends nc_id_ends].
  rewrite !length_app, !str_len_app. cbn [length]. lia.
Qed.

(** A build keeps exactly the rows that fit. *)
Lemma build_run max g rows :
  foldl push_row (mkBuilder (Some (mkNameCache g [] [] [] [])) max) rows =
  mkBuilder (if decide (rows = [] ∨ cache_fits max (cache_of g rows)) then Some (cache_of g rows) else None) max.
Proof.
  induction rows as [|r rows IH] using rev_ind; [by rewrite decide_True by (by left)|].
  rewrite foldl_snoc, IH. destruct (decide (rows = [] ∨ cache_fits max (cache_of g rows))) as [Hf|Hf].
  - rewrite push_row_run. f_equal. destruct (decide (cache_fits max (cache_of g (rows ++ [r])))) as [H|H].
    + by rewrite decide_True by (by right).
    + rewrite decide_False; [done|]. intros [Hn|?]; [by destruct rows|done].
  - rewrite push_row_none by done. rewrite decide_False; [done|]. intros [Hn|?%cache_fits_prefix]; [by destruct rows|tauto].
Qed.

(** A pattern whose needle occurs in every name it matches. *)
Definition needle_of (p : SymbolPattern) : option str :=
  match p with Infix n | Suffix n => Some n | _ => None end.
Lemma needle_contains p n name : needle_of p = Some n → pattern_matches p name = true → contains name n = true.
Proof.
  destruct p; try done; intros [= ->]; [done|]. unfold pattern_matches, ends_with. rewrite bool_decide_eq_true.
  intros [x Hx%strip_suffix_Some]. apply contains_spec. exists x, []. by rewrite app_nil_r.
Qed.

(** C27: a name cache answers an infix or suffix query as the walk of the
    index it was built from does: a build of the index's rows that is kept
    gives, for any such pattern with a non-empty needle, the ids of exactly the
    names that match, in the order of the index; matches that run across the
    end of a name into the next do not count. A build is kept exactly when its
    offsets fit 32 bits and its size is within the bound. *)
Theorem name_cache_exact max g rows p needle out :
  needle_of p = Some needle → needle ≠ [] →
  let b := foldl push_row (mkBuilder (Some (mkNameCache g [] [] [] [])) max) rows in
  match nb_cache b with
  | Some c => (rows = [] ∨ cache_fits max c) ∧ nc_generation c = g ∧
      NameCache_collect c needle (pattern_matches p) out =
        Ok (out ++ concat (filter (λ r : str * list Z, pattern_matches p r.1 = true) rows).*2)
  | None => ¬ cache_fits max (cache_of g rows)
  end.
Proof.
  intros Hp Hn. cbv zeta. rewrite build_run. cbn [nb_cache]. case_decide as Hf; [|tauto]. split; [done|]. split; [done|].
  rewrite NameCache_collect_run; [done|done|]. intros name. by apply needle_contains.
Qed.

Lemma name_cache_exact_witness :
  NameCache_collect (cache_of 7 [(lit "ab", [1]); (lit "cab", [2; 3]); (lit "abab", [4]); (lit "x", [])]) (lit "ba")
    (pattern_matches (Infix (lit "ba"))) [] = Ok [4].
Proof.
  pose proof (name_cache_exact 1000 7 [(lit "ab", [1]); (lit "cab", [2; 3]); (lit "abab", [4]); (lit "x", [])]
    (Infix (lit "ba")) (lit "ba") [] eq_refl ltac:(done)) as Hc.
  cbv zeta in Hc. rewrite build_run in Hc. cbn [nb_cache] in Hc. rewrite decide_True in Hc by (right; vm_compute; done).
  destruct Hc as (_ & _ & Hc). exact Hc.
Defined.
