(* ===== verification/Generations.v ===== *)
(** * Write generations

    [GenDb] and [GenWt] of [graph-store/src/name_cache.rs]: the counters that
    tell a reader which committed state it sees, and the use of the name caches
    by concurrent queries. A step is one atomic action of one thread: a counter
    update, a redb transaction starting or ending, a query taking, building or
    storing a cache. A query's walk reads its own snapshot and its own builder,
    so it is one step. The counters are integers; those of the source are 64
    bits wide, and would wrap after 2^64 writes. *)
From S2P Require Import Prelude Text StrOps Schema Pattern NameCache.

Section generations.
(** The committed content, and the rows of its folded and exact symbol index. *)
Context {D : Type} (rows : bool → D → list (str * list Z)).

(** A write: counted as started, holding the transaction, or ended and not yet
    counted as done; [WRaw] runs a helper on the plain database. *)
Inductive Writer : Type := WStarted | WOpen | WEnded | WRaw.

(** A query: [done] read; snapshot taken; generation known (or not); building. *)
Inductive Query : Type :=
  | QDone (n : Z)
  | QSnap (n : Z) (d : D)
  | QRead (d : D) (g : option Z)
  | QBuild (d : D) (g : Z) (exact_case : bool) (b : Builder).

Record GenDb : Type := mkGenDb {
  gd_db : D;
  gd_started : Z;
  gd_done : Z;
  gd_writers : gmap nat Writer;
  gd_queries : gmap nat Query;
  gd_caches : NameCaches;
}.
Definition GenDb_new (d : D) : GenDb := mkGenDb d 0 0 ∅ ∅ NameCaches_default.

Definition set_writer (t : nat) (w : Writer) (s : GenDb) : GenDb :=
  mkGenDb (gd_db s) (gd_started s) (gd_done s) (<[t := w]> (gd_writers s)) (gd_queries s) (gd_caches s).
(** [self.started.fetch_add(1)], for a thread that is not writing. *)
Definition count_start (t : nat) (w : Writer) (s : GenDb) : GenDb :=
  mkGenDb (gd_db s) (gd_started s + 1) (gd_done s) (<[t := w]> (gd_writers s)) (gd_queries s) (gd_caches s).
(** [self.done.fetch_add(1)]: the write is over. *)
Definition count_done (t : nat) (s : GenDb) : GenDb :=
  mkGenDb (gd_db s) (gd_started s) (gd_done s + 1) (delete t (gd_writers s)) (gd_queries s) (gd_caches s).
Definition set_db (d : D) (s : GenDb) : GenDb :=
  mkGenDb d (gd_started s) (gd_done s) (gd_writers s) (gd_queries s) (gd_caches s).
Definition set_query (q : nat) (x : Query) (s : GenDb) : GenDb :=
  mkGenDb (gd_db s) (gd_started s) (gd_done s) (gd_writers s) (<[q := x]> (gd_queries s)) (gd_caches s).
Definition set_caches (c : NameCaches) (s : GenDb) : GenDb :=
  mkGenDb (gd_db s) (gd_started s) (gd_done s) (gd_writers s) (gd_queries s) c.

(** [begin_read_gen]'s last line. *)
Definition read_gen (n started : Z) : option Z := if started =? n then Some n else None.

Inductive gen_step : GenDb → GenDb → Prop :=
  (* [begin_write]: count, then redb's transaction, one at a time *)
  | s_start s t : gd_writers s !! t = None → gen_step s (count_start t WStarted s)
  | s_open s t : gd_writers s !! t = Some WStarted → (∀ u, gd_writers s !! u ≠ Some WOpen) → gen_step s (set_writer t WOpen s)
  | s_open_failed s t : gd_writers s !! t = Some WStarted → gen_step s (count_done t s)
  (* [commit], [abort] and the drop that counts them *)
  | s_commit s t d : gd_writers s !! t = Some WOpen → gen_step s (set_db d (set_writer t WEnded s))
  | s_abort s t : gd_writers s !! t = Some WOpen → gen_step s (set_writer t WEnded s)
  | s_dropped s t : gd_writers s !! t = Some WEnded → gen_step s (count_done t s)
  (* [raw_write] *)
  | s_raw s t : gd_writers s !! t = None → gen_step s (count_start t WRaw s)
  | s_raw_commit s t d : gd_writers s !! t = Some WRaw → gen_step s (set_db d s)
  | s_raw_done s t : gd_writers s !! t = Some WRaw → gen_step s (count_done t s)
  (* [begin_read_gen] *)
  | s_load_done s q : gd_queries s !! q = None → gen_step s (set_query q (QDone (gd_done s)) s)
  | s_begin_read s q n : gd_queries s !! q = Some (QDone n) → gen_step s (set_query q (QSnap n (gd_db s)) s)
  | s_load_started s q n d : gd_queries s !! q = Some (QSnap n d) →
      gen_step s (set_query q (QRead d (read_gen n (gd_started s))) s)
  (* a cold query builds as it walks, then stores the cache or gives up *)
  | s_build s q d g exact_case b c : gd_queries s !! q = Some (QRead d (Some g)) →
      builder (gd_caches s) exact_case g = (Some b, c) →
      gen_step s (set_caches c (set_query q (QBuild d g exact_case (foldl push_row b (rows exact_case d))) s))
  | s_put s q d g exact_case b : gd_queries s !! q = Some (QBuild d g exact_case b) →
      gen_step s (set_caches (put (gd_caches s) exact_case b) (set_query q (QRead d (Some g)) s))
  | s_give_up s q d g exact_case b : gd_queries s !! q = Some (QBuild d g exact_case b) →
      gen_step s (set_caches (drop_builder exact_case (gd_caches s)) (set_query q (QRead d (Some g)) s))
  (* [set_max_bytes] *)
  | s_max_bytes s n : gen_step s (set_caches (set_max_bytes n (gd_caches s)) s).

Definition gen_reachable (d : D) : GenDb → Prop := rtc gen_step (GenDb_new d).

(** ** The invariant *)

(** A generation a query or a cache holds, with the content it stands for. *)
Inductive seen (s : GenDb) : Z → D → Prop :=
  | seen_read q d g : gd_queries s !! q = Some (QRead d (Some g)) → seen s g d
  | seen_build q d g exact_case b : gd_queries s !! q = Some (QBuild d g exact_case b) → seen s g d.

(** [c] is the cache of [d]'s index. *)
Definition holds (exact_case : bool) (d : D) (c : NameCache) : Prop := c = cache_of (nc_generation c) (rows exact_case d).

Record gen_inv (s : GenDb) : Prop := mkGenInv {
  gi_count : gd_started s = gd_done s + Z.of_nat (size (gd_writers s));
  gi_done q n : gd_queries s !! q = Some (QDone n) → n ≤ gd_done s;
  gi_snap q n d : gd_queries s !! q = Some (QSnap n d) → n ≤ gd_done s ∧ (gd_started s = n → d = gd_db s);
  gi_seen g d : seen s g d → g ≤ gd_done s ∧ (gd_started s = g → d = gd_db s);
  gi_same g d e : seen s g d → seen s g e → d = e;
  gi_build q d g exact_case b : gd_queries s !! q = Some (QBuild d g exact_case b) →
    ∀ c, nb_cache b = Some c → nc_generation c = g ∧ holds exact_case d c;
  gi_cache exact_case c : slot (gd_caches s) exact_case = Some c →
    ∃ d, holds exact_case d c ∧ nc_generation c ≤ gd_done s ∧ (gd_started s = nc_generation c → d = gd_db s) ∧
      ∀ e, seen s (nc_generation c) e → holds exact_case e c;
}.

Lemma inv_le s : gen_inv s → gd_done s ≤ gd_started s.
Proof. intros [Hc _ _ _ _ _ _]. lia. Qed.

(** Steps of a writer that leave the content as it is. *)
Lemma inv_counts s s' :
  gen_inv s → gd_db s' = gd_db s → gd_queries s' = gd_queries s → gd_caches s' = gd_caches s →
  gd_started s ≤ gd_started s' → gd_done s ≤ gd_done s' →
  gd_started s' = gd_done s' + Z.of_nat (size (gd_writers s')) → gen_inv s'.
Proof.
  intros I Hdb Hq Hc Hs Hd Hcount. pose proof (inv_le s I) as Hle. destruct I as [_ I2 I3 I4 I5 I6 I7].
  assert (∀ g d, seen s' g d ↔ seen s g d) as Hseen.
  { intros g d. split; intros Hx; destruct Hx; rewrite ?Hq in *; econstructor; (done || rewrite Hq; done). }
  split; [done|..]; rewrite ?Hq, ?Hc, ?Hdb.
  - intros q n Hn. specialize (I2 q n Hn). lia.
  - intros q n d Hn. destruct (I3 q n d Hn) as [? He]. split; [lia|]. intros. apply He. lia.
  - intros g d Hg%Hseen. destruct (I4 g d Hg) as [? He]. split; [lia|]. intros. apply He. lia.
  - intros g d e Hx%Hseen He%Hseen. by eapply I5.
  - done.
  - intros exact_case c Hcache. destruct (I7 _ _ Hcache) as (d & Hh & Hg & He & Hall). exists d. split; [done|]. split; [lia|].
    split; [intros; apply He; lia|]. intros e Hx%Hseen. by apply Hall.
Qed.

(** A commit happens while a write is counted as started and not as done. *)
Lemma inv_commit s d w :
  gen_inv s → size (gd_writers s) ≠ 0%nat → size w = size (gd_writers s) →
  gen_inv (mkGenDb d (gd_started s) (gd_done s) w (gd_queries s) (gd_caches s)).
Proof.
  intros [I1 I2 I3 I4 I5 I6 I7] Hw Hsize.
  set (s' := mkGenDb _ _ _ _ _ _). assert (∀ g e, seen s' g e → seen s g e) as Hseen.
  { intros g e Hx. destruct Hx; [by eapply seen_read|by eapply seen_build]. }
  split; cbn [gd_started gd_done gd_writers gd_queries gd_caches gd_db s'].
  - by rewrite Hsize.
  - done.
  - intros q n e Hn. destruct (I3 q n e Hn). split; [done|]. intros. lia.
  - intros g e Hg%Hseen. destruct (I4 g e Hg). split; [done|]. intros. lia.
  - intros g e f He%Hseen Hf%Hseen. by eapply I5.
  - done.
  - intros exact_case c Hc. destruct (I7 _ _ Hc) as (e & Hh & Hg & _ & Hall). exists e. split_and!; [done|done|intros; lia|].
    intros f Hf%Hseen. by apply Hall.
Qed.

(** A query moving on: what it holds now is [seen], or it was before. *)
Lemma inv_query s q x c :
  gen_inv s →
  (∀ n, x = QDone n → n ≤ gd_done s) →
  (∀ n d, x = QSnap n d → n ≤ gd_done s ∧ (gd_started s = n → d = gd_db s)) →
  (∀ d g, x = QRead d (Some g) ∨ (∃ m b, x = QBuild d g m b) →
     (gd_started s = g ∧ g = gd_done s ∧ d = gd_db s) ∨ seen s g d) →
  (∀ d g m b k, x = QBuild d g m b → nb_cache b = Some k → nc_generation k = g ∧ holds m d k) →
  (∀ m k, slot c m = Some k → slot (gd_caches s) m = Some k ∨
     ∃ d, holds m d k ∧ seen s (nc_generation k) d) →
  gen_inv (set_caches c (set_query q x s)).
Proof.
  intros I X1 X2 X3 X4 X5. pose proof (inv_le s I) as Hle. destruct I as [I1 I2 I3 I4 I5 I6 I7].
  set (s' := set_caches c (set_query q x s)).
  assert (∀ g d, seen s' g d → (gd_started s = g ∧ g = gd_done s ∧ d = gd_db s) ∨ seen s g d) as Hseen.
  { intros g d Hx. destruct Hx as [q' d g Hx|q' d g m b Hx]; cbn in Hx; apply lookup_insert_Some in Hx as [[-> ->]|[_ Hx]].
    - apply X3. by left.
    - right. by eapply seen_read.
    - apply X3. right. by exists m, b.
    - right. by eapply seen_build. }
  split; cbn [s' set_caches set_query gd_started gd_done gd_writers gd_queries gd_caches gd_db]; [done|..].
  - intros q' n [[-> ->]|[_ Hx]]%lookup_insert_Some; [by apply X1|by eapply I2].
  - intros q' n d [[-> ->]|[_ Hx]]%lookup_insert_Some; [by apply X2|by eapply I3].
  - intros g d [(? & ? & ?)|Hg]%Hseen; [split; [lia|done]|by apply I4].
  - intros g d e [(? & ? & ->)|Hd]%Hseen [(? & ? & ->)|He]%Hseen; [done|symmetry; by apply (I4 g e)|by apply (I4 g d)|by eapply I5].
  - intros q' d g m b [[-> ->]|[_ Hx]]%lookup_insert_Some; [intros k; by eapply X4|by eapply I6].
  - intros m k Hk. destruct (X5 m k Hk) as [Hold|(d & Hh & Hd)].
    + destruct (I7 m k Hold) as (d & Hh & Hg & He & Hall). exists d. split_and!; [done..|].
      intros e [(Hs & _ & ->)|Hx]%Hseen; [|by apply Hall]. by rewrite <- (He Hs).
    + destruct (I4 _ _ Hd) as [Hg He]. exists d. split_and!; [done..|]. intros e [(Hs & _ & ->)|Hx]%Hseen; [by rewrite <- (He Hs)|].
      by rewrite <- (I5 _ _ _ Hd Hx).
Qed.

Lemma slot_set s m m' o : slot (set_slot m o s) m' = if decide (m = m') then o else slot s m'.
Proof. by destruct m, m'. Qed.
Lemma slot_building s m b m' : slot (set_building m b s) m' = slot s m'.
Proof. by destruct m, m'. Qed.
Lemma slot_put s m b m' k : slot (put s m b) m' = Some k → slot s m' = Some k ∨ (m = m' ∧ nb_cache b = Some k).
Proof.
  unfold put, drop_builder. rewrite slot_building. destruct (nb_cache b) as [c|]; [|by left].
  destruct (slot s m) as [old|] eqn:E; [case_match|]; rewrite ?slot_set; try case_decide; subst; try (by left).
  - intros [= ->]. by right.
  - intros [= ->]. by right.
Qed.
Lemma slot_max n s m k : slot (set_max_bytes n s) m = Some k → slot s m = Some k.
Proof. destruct m; cbn; intros (c & Hc & Hk)%bind_Some; case_match; congruence. Qed.

Lemma size_update (w : gmap nat Writer) t x y : w !! t = Some x → size (<[t := y]> w) = size w ∧ size w ≠ 0%nat.
Proof.
  intros Ht. split; [by rewrite map_size_insert_Some|]. intros Hz%map_size_empty_inv. by rewrite Hz, lookup_empty in Ht.
Qed.

Lemma gen_inv_step s s' : gen_inv s → gen_step s s' → gen_inv s'.
Proof.
  intros I Hs. destruct Hs as [s t Ht|s t Ht|s t Ht|s t d Ht|s t Ht|s t Ht|s t Ht|s t d Ht|s t Ht|s q Hq|s q n Hq|s q n d Hq
    |s q d g m b c Hq Hb|s q d g m b Hq|s q d g m b Hq|s n];
    pose proof (gi_count _ I) as Hc; try pose proof (λ y, size_update _ t _ y Ht) as Hw.
  - eapply inv_counts; [done..| | |]; cbn; [lia|lia|]. rewrite map_size_insert_None by done. lia.
  - eapply inv_counts; [done..| | |]; cbn; [lia|lia|]. by rewrite (proj1 (Hw _)).
  - eapply inv_counts; [done..| | |]; cbn; [lia|lia|]. destruct (Hw WOpen). rewrite map_size_delete_Some by done. lia.
  - destruct (Hw WEnded). by apply (inv_commit s d).
  - eapply inv_counts; [done..| | |]; cbn; [lia|lia|]. by rewrite (proj1 (Hw _)).
  - eapply inv_counts; [done..| | |]; cbn; [lia|lia|]. destruct (Hw WOpen). rewrite map_size_delete_Some by done. lia.
  - eapply inv_counts; [done..| | |]; cbn; [lia|lia|]. rewrite map_size_insert_None by done. lia.
  - destruct (Hw WEnded). by apply (inv_commit s d).
  - eapply inv_counts; [done..| | |]; cbn; [lia|lia|]. destruct (Hw WOpen). rewrite map_size_delete_Some by done. lia.
  - apply (inv_query s q _ (gd_caches s)); try done; [by intros n [= <-]|by intros d g [?|(? & ? & ?)]|by left].
  - apply (inv_query s q _ (gd_caches s)); try done; [|by intros d g [?|(? & ? & ?)]|by left].
    intros n' d' [= -> ->]. split; [by eapply gi_done|done].
  - apply (inv_query s q _ (gd_caches s)); try done; [|by left]. destruct (gi_snap _ I _ _ _ Hq) as [Hn He].
    intros d' g [[= -> Hg]|(? & ? & ?)]; [|done]. unfold read_gen in Hg. destruct (gd_started s =? n) eqn:E; [|done]. injection Hg as <-.
    apply Z.eqb_eq in E. left. split_and!; [done|lia|by apply He].
  - apply inv_query; try done.
    + intros d' g' [?|(m' & b' & [= <- <- _ _])]; [done|]. right. by eapply seen_read.
    + intros d' g' m' b' k [= <- <- <- <-]. unfold builder in Hb. repeat case_match; try done. injection Hb as <- _.
      rewrite build_run. cbn [nb_cache]. case_decide; [|done]. by intros [= <-].
    + intros m' k Hk. left. unfold builder in Hb. repeat case_match; try done. injection Hb as _ <-. by rewrite slot_building in Hk.
  - apply inv_query; try done.
    + intros d' g' [[= <- <-]|(m' & b' & ?)]; [|done]. right. by eapply seen_build.
    + intros m' k [?|[<- Hk]]%slot_put; [by left|]. right. destruct (gi_build _ I _ _ _ _ _ Hq k Hk) as [<- Hh].
      exists d. split; [done|]. by eapply seen_build.
  - apply inv_query; try done.
    + intros d' g' [[= <- <-]|(m' & b' & ?)]; [|done]. right. by eapply seen_build.
    + intros m' k Hk. left. unfold drop_builder in Hk. by rewrite slot_building in Hk.
  - destruct I as [I1 I2 I3 I4 I5 I6 I7]. set (s' := set_caches _ s).
    assert (∀ g e, seen s' g e → seen s g e) as Hseen.
    { intros g e Hx. destruct Hx; [by eapply seen_read|by eapply seen_build]. }
    split; try done.
    + intros g e Hx%Hseen. by apply I4.
    + intros g e f Hx%Hseen Hy%Hseen. by eapply I5.
    + intros m k Hk%slot_max. destruct (I7 _ _ Hk) as (d & ? & ? & ? & Hall). exists d. split_and!; try done. intros e Hx%Hseen. by apply Hall.
Qed.

Lemma gen_inv_reachable d s : gen_reachable d s → gen_inv s.
Proof.
  intros Hr. unfold gen_reachable in Hr. remember (GenDb_new d) as s0 eqn:E. assert (gen_inv s0) as I0.
  { subst s0. assert (∀ g e, ¬ seen (GenDb_new d) g e) as Hno by (intros g e Hx; destruct Hx as [? ? ? Hx|? ? ? ? ? Hx]; cbn in Hx; by rewrite lookup_empty in Hx).
    split; cbn; intros; repeat match goal with
      | E : ∅ !! _ = Some _ |- _ => by rewrite lookup_empty in E
      | E : seen _ _ _ |- _ => by apply Hno in E
      | m : bool |- _ => by destruct m
      end; done. }
  clear E. induction Hr as [|s0 s1 s2 Hs _ IH]; [done|]. apply IH. by eapply gen_inv_step.
Qed.

(** C24: under any interleaving of writes and queries, a query that got a
    write generation and finds a name cache of that generation gets from it, for
    an infix or suffix pattern, exactly what a walk of its own snapshot's index
    gives; and all queries that got the same generation see the same content. *)
Theorem cached_query_agrees d0 s q d g exact_case c p needle :
  gen_reachable d0 s → gd_queries s !! q = Some (QRead d (Some g)) →
  NameCaches_get (gd_caches s) exact_case g = Some c → needle_of p = Some needle → needle ≠ [] →
  NameCache_collect c needle (pattern_matches p) [] =
    Ok (concat (filter (λ r : str * list Z, pattern_matches p r.1 = true) (rows exact_case d)).*2) ∧
  ∀ q' d', gd_queries s !! q' = Some (QRead d' (Some g)) → d' = d.
Proof.
  intros I%gen_inv_reachable Hq Hc Hp Hn. unfold NameCaches_get in Hc. apply bind_Some in Hc as (c' & Hs & Hg).
  destruct (nc_generation c' =? g) eqn:E; [|done]. injection Hg as ->. apply Z.eqb_eq in E.
  destruct (gi_cache _ I _ _ Hs) as (_ & _ & _ & _ & Hall). split.
  - rewrite (Hall d) by (rewrite E; by eapply seen_read). rewrite NameCache_collect_run; [done|done|].
    intros name. by apply needle_contains.
  - intros q' d' Hq'. by eapply (gi_same _ I); [eapply seen_read..].
Qed.
End generations.

(** A query builds the cache of two names and stores it; another one uses it. *)
Module Warm.
Definition content : Type := list (str * list Z).
Definition rows (_ : bool) (d : content) : list (str * list Z) := d.
Definition d0 : content := [(lit "get_all", [5]); (lit "put", [7; 9])].
Abbreviation st := (@GenDb content).
Definition read (q : nat) (s : st) : st :=
  set_query q (QRead d0 (read_gen 0 0)) (set_query q (QSnap 0 d0) (set_query q (QDone 0) s)).
Definition s1 : st := read 1 (GenDb_new d0).
Definition b : Builder := mkBuilder (Some (mkNameCache 0 [] [] [] [])) DEFAULT_NAME_CACHE_MAX_BYTES.
Definition full : Builder := foldl push_row b (rows false d0).
Definition s2 : st :=
  set_caches (set_building false true NameCaches_default) (set_query 1 (QBuild d0 0 false full) s1).
Definition s3 : st := set_caches (put (gd_caches s2) false full) (set_query 1 (QRead d0 (Some 0)) s2).
Definition s4 : st := read 2 s3.

Lemma read_steps (q : nat) (s : st) :
  gd_queries s !! q = None → gd_db s = d0 → gd_started s = 0 → gd_done s = 0 → rtc (gen_step rows) s (read q s).
Proof.
  intros Hq Hd Hs He. eapply rtc_l; [by apply (s_load_done rows s q)|]. rewrite He.
  eapply rtc_l; [apply (s_begin_read rows _ q 0); apply lookup_insert_eq|]. cbn [gd_db set_query]. rewrite Hd.
  eapply rtc_l; [apply (s_load_started rows _ q 0 d0); apply lookup_insert_eq|]. cbn [gd_started set_query]. rewrite Hs. apply rtc_refl.
Qed.
Lemma reached : gen_reachable rows d0 s4.
Proof.
  unfold gen_reachable. etransitivity; [by apply (read_steps 1)|]. eapply rtc_l.
  { apply (s_build rows (read 1 (GenDb_new d0)) 1 d0 0 false b (set_building false true NameCaches_default)); [apply lookup_insert_eq|done]. }
  eapply rtc_l; [apply (s_put rows s2 1 d0 0 false full); apply lookup_insert_eq|]. by apply (read_steps 2).
Qed.
End Warm.

Lemma cached_query_agrees_witness :
  ∃ c, NameCaches_get (gd_caches Warm.s4) false 0 = Some c ∧
    NameCache_collect c (lit "ut") (pattern_matches (Suffix (lit "ut"))) [] = Ok [7; 9].
Proof.
  assert (NameCaches_get (gd_caches Warm.s4) false 0 = Some (cache_of 0 Warm.d0)) as Hc by (vm_compute; exact eq_refl).
  destruct (cached_query_agrees Warm.rows Warm.d0 Warm.s4 2 Warm.d0 0 false _ (Suffix (lit "ut")) (lit "ut")
    Warm.reached (lookup_insert_eq _ _ _) Hc eq_refl ltac:(done)) as [Hr _].
  exists (cache_of 0 Warm.d0). exact (conj Hc Hr).
Defined.
