(* ===== verification/LazySort.v ===== *)
(** * Sorting as far as it is read

    [LazySorted] of [graph-store/src/v2.rs]: a vector handed out in order,
    of which only the next chunk is selected and sorted when it is reached.
    The unstable algorithms of the standard library enter as an interface with
    their documented results. *)
From S2P Require Import Prelude Schema Walk Prep.

(** [slice::sort_unstable_by] and [slice::select_nth_unstable_by]. *)
Class Unstable := {
  sort_unstable {A} : (A → A → bool) → list A → list A;
  select_nth {A} : (A → A → bool) → nat → list A → list A;
  sort_unstable_perm {A} (le : A → A → bool) l : sort_unstable le l ≡ₚ l;
  sort_unstable_sorted {A} (le : A → A → bool) l :
    (∀ x y, le x y = true ∨ le y x = true) → (∀ x y z, le x y = true → le y z = true → le x z = true) →
    StronglySorted (λ x y, le x y = true) (sort_unstable le l);
  select_nth_perm {A} (le : A → A → bool) n l : select_nth le n l ≡ₚ l;
  (* the element at [n] is in its place: none before is greater, none after less *)
  select_nth_placed {A} (le : A → A → bool) n l x y z :
    (∀ x y, le x y = true ∨ le y x = true) → (∀ x y z, le x y = true → le y z = true → le x z = true) →
    select_nth le n l !! n = Some y →
    (x ∈ take n (select_nth le n l) → le x y = true) ∧ (z ∈ drop (S n) (select_nth le n l) → le y z = true);
}.

Record LazySorted (T : Type) : Type := mkLazySorted {
  ls_items : list (option T);
  ls_pos : nat;
  ls_sorted_to : nat;
  ls_chunk : Z;
}.
Arguments mkLazySorted {T}.
Arguments ls_items {T}.
Arguments ls_pos {T}.
Arguments ls_sorted_to {T}.
Arguments ls_chunk {T}.

Section lazy.
Context {T : Type} `{Unstable} (le : T → T → bool).

Definition FIRST_CHUNK : Z := 64.

Definition LazySorted_new (items : list T) : LazySorted T := mkLazySorted (Some <$> items) 0 0 FIRST_CHUNK.

(** Comparing an item that was taken panics. *)
Definition LazySorted_prepare (s : LazySorted T) : result (LazySorted T) :=
  if (ls_pos s <? ls_sorted_to s)%nat || (length (ls_items s) <=? ls_pos s)%nat then Ok s else
  rest ← collect unwrap (drop (ls_pos s) (ls_items s));
  let k := Z.to_nat (Z.min (ls_chunk s) (Z.of_nat (length rest))) in
  let rest := if (k <? length rest)%nat then select_nth le (k - 1) rest else rest in
  let rest := sort_unstable le (take k rest) ++ drop k rest in
  Ok (mkLazySorted (take (ls_pos s) (ls_items s) ++ (Some <$> rest)) (ls_pos s) (ls_pos s + k)
        (Z.min (ls_chunk s * 2) (2 ^ 64 - 1))).

Definition LazySorted_next (s : LazySorted T) : result (option T * LazySorted T) :=
  s ← LazySorted_prepare s;
  match ls_items s !! ls_pos s with
  | None => Ok (None, s)
  | Some item => Ok (item, mkLazySorted (<[ls_pos s := None]> (ls_items s)) (ls_pos s + 1) (ls_sorted_to s) (ls_chunk s))
  end.

(** ** The items come in order *)

Hypothesis le_total : ∀ x y, le x y = true ∨ le y x = true.
Hypothesis le_trans : ∀ x y z, le x y = true → le y z = true → le x z = true.

(** [ready] is in order and before [later]. *)
Record lazy_ok (s : LazySorted T) (taken : nat) (ready later : list T) : Prop := mkLazyOk {
  lo_items : ls_items s = replicate taken None ++ (Some <$> ready ++ later);
  lo_pos : ls_pos s = taken;
  lo_to : ls_sorted_to s = (taken + length ready)%nat;
  lo_ready : StronglySorted (λ x y, le x y = true) ready;
  lo_later x y : x ∈ ready → y ∈ later → le x y = true;
  lo_chunk : 0 < ls_chunk s;
}.

(** The items still to come, in order: they are distinguished by [le]. *)
Definition lazy_is (s : LazySorted T) (l : list T) : Prop :=
  ∃ taken ready later, lazy_ok s taken ready later ∧ ready ++ later ≡ₚ l ∧ StronglySorted (λ x y, le x y = true) l ∧
    ∀ x y, x ∈ l → y ∈ l → le x y = true → le y x = true → x = y.

Lemma collect_unwrap (l : list T) : collect (E:=StoreError) unwrap (Some <$> l) = Ok l.
Proof. induction l as [|x l IH]; [done|]. cbn. by rewrite IH. Qed.

(** One refill: the least [k] items, in order, then the others. *)
Definition refill (k : nat) (rest : list T) : list T * list T :=
  let rest := if (k <? length rest)%nat then select_nth le (k - 1) rest else rest in
  (sort_unstable le (take k rest), drop k rest).

Lemma refill_run k rest :
  (0 < k ≤ length rest)%nat →
  let '(a, b) := refill k rest in
  a ++ b ≡ₚ rest ∧ length a = k ∧ StronglySorted (λ x y, le x y = true) a ∧ ∀ x y, x ∈ a → y ∈ b → le x y = true.
Proof.
  intros Hk. unfold refill. set (rest' := if (k <? length rest)%nat then _ else _).
  assert (rest' ≡ₚ rest) as Hperm by (unfold rest'; case_match; [apply select_nth_perm|done]).
  split_and!.
  - by rewrite sort_unstable_perm, take_drop.
  - rewrite sort_unstable_perm, length_take, Hperm. lia.
  - by apply sort_unstable_sorted.
  - intros x y Hx Hy. rewrite sort_unstable_perm in Hx. revert Hx Hy. unfold rest'.
    destruct (k <? length rest)%nat eqn:E; bool_prop; [|rewrite (drop_ge rest) by lia; by intros _ ?%elem_of_nil].
    set (l := select_nth le (k - 1) rest). assert (length l = length rest) as Hl by (unfold l; by rewrite select_nth_perm).
    destruct (lookup_lt_is_Some_2 l (k - 1)) as [z Hz]; [lia|]. intros Hx Hy.
    apply le_trans with z.
    + assert (take k l = take (k - 1) l ++ [z]) as Htk.
      { replace k with (S (k - 1)) at 1 by lia. by apply take_S_r. }
      rewrite Htk in Hx. apply elem_of_app in Hx as [Hx|Hx%list_elem_of_singleton]; [|subst; by destruct (le_total z z)].
      by apply (select_nth_placed le (k - 1) rest x z z).
    + replace k with (S (k - 1)) in Hy by lia. by apply (select_nth_placed le (k - 1) rest z z y).
Qed.

Lemma lazy_prepare s l :
  lazy_is s l → ∃ s', LazySorted_prepare s = Ok s' ∧ lazy_is s' l ∧
    ∃ taken ready later, lazy_ok s' taken ready later ∧ ready ++ later ≡ₚ l ∧ (ready = [] → l = []).
Proof.
  intros (taken & ready & later & [Hi Hp Ht Hr Hl Hc] & Hperm & Hs & Hanti). unfold LazySorted_prepare.
  assert (length (ls_items s) = taken + length ready + length later)%nat as Hlen.
  { rewrite Hi, length_app, length_replicate, length_fmap, length_app. lia. }
  destruct ready as [|r ready]; cycle 1.
  { rewrite (proj2 (Nat.ltb_lt _ _)) by (rewrite Hp, Ht; cbn; lia). exists s. split; [done|]. split; [by exists taken, (r :: ready), later|].
    by exists taken, (r :: ready), later. }
  rewrite (proj2 (Nat.ltb_ge (ls_pos s) _)) by (rewrite Hp, Ht; cbn; lia). cbn [orb]. cbn [length app] in *.
  destruct later as [|x later].
  { rewrite (proj2 (Nat.leb_le _ _)) by (cbn in *; lia). exists s. split; [done|]. split; [by exists taken, [], []|]. exists taken, [], [].
    split; [done|]. split; [done|]. intros _. by apply Permutation_nil in Hperm. }
  rewrite (proj2 (Nat.leb_gt _ _)) by (cbn in *; lia).
  assert (drop (ls_pos s) (ls_items s) = Some <$> x :: later) as ->.
  { rewrite Hi, Hp. apply drop_app_length'. by rewrite length_replicate. }
  assert (take (ls_pos s) (ls_items s) = replicate taken None) as ->.
  { rewrite Hi, Hp. apply take_app_length'. by rewrite length_replicate. }
  rewrite collect_unwrap. cbn [mbind outcome_mbind outcome_bind]. cbv zeta.
  set (rest := x :: later) in *. set (k := Z.to_nat (Z.min (ls_chunk s) (Z.of_nat (length rest)))).
  assert (0 < k ≤ length rest)%nat as Hk by (unfold k, rest; cbn [length]; lia).
  pose proof (refill_run k rest Hk) as Hf. unfold refill in Hf. set (b := drop k _) in Hf. set (a := sort_unstable le _) in Hf.
  destruct Hf as (Hpa & Hla & Hsa & Hab). eexists. split; [done|]. fold a b.
  assert (lazy_ok (mkLazySorted (replicate taken None ++ (Some <$> a ++ b)) (ls_pos s) (ls_pos s + k) (Z.min (ls_chunk s * 2) (2 ^ 64 - 1))) taken a b) as Hok.
  { split; cbn; [done|done|by rewrite Hp, Hla|done|done|lia]. }
  split; [exists taken, a, b|exists taken, a, b].
  - split; [done|]. split; [by rewrite Hpa|done].
  - split; [done|]. split; [by rewrite Hpa|]. intros ->. cbn in Hla. lia.
Qed.

Lemma lazy_next s x l : lazy_is s (x :: l) → ∃ s', LazySorted_next s = Ok (Some x, s') ∧ lazy_is s' l.
Proof.
  intros Hs. destruct (lazy_prepare _ _ Hs) as (s1 & Hrun & (_ & _ & _ & _ & _ & Hsort & Hanti) & taken & ready & later & [Hi Hp Ht Hr Hl Hc] & Hperm & Hne).
  destruct ready as [|r ready]; [by specialize (Hne eq_refl)|].
  unfold LazySorted_next. rewrite Hrun. cbn [mbind outcome_mbind outcome_bind].
  assert (ls_items s1 !! ls_pos s1 = Some (Some r)) as ->.
  { rewrite Hi, Hp, lookup_app_r by (by rewrite length_replicate). rewrite length_replicate, Nat.sub_diag. done. }
  apply StronglySorted_inv in Hsort as [Hsort Hx]. apply StronglySorted_inv in Hr as [Hr Hrr]. rewrite Forall_forall in Hx, Hrr.
  assert (r = x) as ->.
  { assert (r ∈ x :: l) as Hrl by (rewrite <- Hperm; by left). assert (x ∈ (r :: ready) ++ later) as Hxl by (rewrite Hperm; by left).
    apply Hanti; [done|by left| |].
    - apply elem_of_app in Hxl as [[->|Hin]%elem_of_cons|Hin]; [by destruct (le_total r r)|by apply Hrr|apply Hl; [by left|done]].
    - apply elem_of_cons in Hrl as [->|Hin]; [by destruct (le_total x x)|by apply Hx]. }
  eexists. split; [done|]. exists (S taken), ready, later. cbn [app] in Hperm. apply Permutation_cons_inv in Hperm. split; [|split_and!; [done|done|]].
  - split; cbn [ls_items ls_pos ls_sorted_to ls_chunk]; [|lia|rewrite Ht; cbn; lia|done|intros; apply Hl; [by right|done]|done].
    rewrite replicate_S_end, <- app_assoc, Hi, Hp, <- (Nat.add_0_r taken) at 1.
    rewrite <- (length_replicate taken (None (A:=T))) at 1. by rewrite insert_app_r.
  - intros y z Hy Hz. apply Hanti; by right.
Qed.
Lemma lazy_end s : lazy_is s [] → ∃ s', LazySorted_next s = Ok (None, s').
Proof.
  intros Hs. destruct (lazy_prepare _ _ Hs) as (s1 & Hrun & _ & taken & ready & later & [Hi Hp _ _ _ _] & Hperm & _).
  apply Permutation_nil_r, app_nil in Hperm as [-> ->]. unfold LazySorted_next. rewrite Hrun. cbn [mbind outcome_mbind outcome_bind].
  assert (ls_items s1 !! ls_pos s1 = None) as ->; [|by exists s1]. rewrite Hi, Hp. apply lookup_ge_None_2.
  rewrite length_app, length_replicate. cbn. lia.
Qed.

(** Items that [le] tells apart. *)
Lemma lazy_new items :
  (∀ x y, x ∈ items → y ∈ items → le x y = true → le y x = true → x = y) →
  lazy_is (LazySorted_new items) (sort_by le items).
Proof.
  intros Hanti. exists 0%nat, [], items. split; [split; cbn; [done|done|done|constructor|by intros ? ? ?%elem_of_nil|done]|].
  split; [by rewrite sort_by_perm|]. split; [by apply sort_by_sorted|]. intros x y Hx Hy. rewrite sort_by_perm in Hx, Hy. by apply Hanti.
Qed.
End lazy.

(** Reading [n] items. *)
Fixpoint read_items `{Unstable} {T} (le : T → T → bool) (n : nat) (s : LazySorted T) : result (list T) :=
  match n with
  | O => Ok []
  | S n =>
      '(x, s) ← LazySorted_next le s;
      match x with
      | None => Ok []
      | Some x => l ← read_items le n s; Ok (x :: l)
      end
  end.

(** A lazily sorted vector hands out its items as a full sort would,
    however far it is read and whatever the unstable algorithms do with the
    chunks they are given, for an order that is total and tells the items
    apart; it never compares an item it handed out. *)
Theorem lazy_sorted_prefix `{Unstable} {T} (le : T → T → bool) items n :
  (∀ x y, le x y = true ∨ le y x = true) → (∀ x y z, le x y = true → le y z = true → le x z = true) →
  (∀ x y, x ∈ items → y ∈ items → le x y = true → le y x = true → x = y) →
  read_items le n (LazySorted_new items) = Ok (take n (sort_by le items)).
Proof.
  intros Ht Htr Ha. assert (∀ n s l, lazy_is le s l → read_items le n s = Ok (take n l)) as Hg; [|by apply Hg, lazy_new].
  clear n. induction n as [|n IH]; intros s l Hs; [done|]. cbn [read_items]. destruct l as [|x l].
  - destruct (lazy_end le Ht Htr s Hs) as (s' & ->). done.
  - destruct (lazy_next le Ht Htr s x l Hs) as (s' & -> & Hs'). cbn [mbind outcome_mbind outcome_bind]. by rewrite (IH s' l Hs').
Qed.

(** The interface is met by the stable sort. *)
#[refine] Definition stable_unstable : Unstable := {|
  sort_unstable A := sort_by; select_nth A le _ := sort_by le
|}.
Proof.
  - intros. apply sort_by_perm.
  - intros. by apply sort_by_sorted.
  - intros. apply sort_by_perm.
  - intros A le n l x y z Htot Htr Hy. pose proof (sort_by_sorted le Htr Htot l) as Hs.
    rewrite <- (take_drop_middle _ _ _ Hy) in Hs. split; intros Hin.
    + by apply (StronglySorted_app_1_elem_of _ _ _ _ _ Hs); [|left].
    + apply StronglySorted_app_1_r, StronglySorted_inv in Hs as [_ HF]. rewrite Forall_forall in HF. by apply HF.
Defined.

#[local] Existing Instance stable_unstable.

