(* ===== verification/Symbols.v ===== *)
(** * Symbol search

    [R::search_symbols] of [graph-store/src/v2.rs] with the queries and hits of
    [graph-store/src/lib.rs]. No query deadline is set, so
    [check_query_deadline] passes. [sym_fold] and [file_keys] are [None] on a
    store that was not healed yet. The per-query memo tables of [R] hold what
    the tables hold, so [entity] and [ctx] read the tables. *)
From S2P Require Import Prelude Text StrOps Schema Varint Stream Posting DictBlock Table DictRev.
From S2P Require Import Language Walk Pattern Prep Db Catalog Reader Encoding Write Commit LazySort NameCache.

Record SymbolQuery : Type := mkSymbolQuery {
  sq_pattern : str;
  sq_kind : option str;
  sq_language : option str;
  sq_org : option str;
  sq_repo : option str;
  sq_file : option str;
  sq_limit : option Z;
  sq_offset : option Z;
  sq_exact_case : bool;
}.
Definition SymbolQuery_new (pattern : str) : SymbolQuery :=
  mkSymbolQuery pattern None None None None None None None false.

Record SymbolHit : Type := mkSymbolHit {
  sh_org : str;
  sh_repo : str;
  sh_file : str;
  sh_language : option str;
  sh_name : str;
  sh_qualified : str;
  sh_kind : SymbolKind;
  sh_lang_kind : option str;
  sh_span : option Span;
  sh_name_pos : option Position;
  sh_owner : option str;
  sh_encoding : option str;
  sh_lossy : bool;
}.
Definition set_name_pos (p : Position) (h : SymbolHit) : SymbolHit :=
  mkSymbolHit (sh_org h) (sh_repo h) (sh_file h) (sh_language h) (sh_name h) (sh_qualified h) (sh_kind h) (sh_lang_kind h)
    (sh_span h) (Some p) (sh_owner h) (sh_encoding h) (sh_lossy h).

Definition USIZE_MAX : Z := 2 ^ 64 - 1.

(** [a.cmp(b) != Greater] on tuples of numbers and strings. *)
Definition key_le {K} `{KeyOrder K} (a b : K) : bool := bool_decide (¬ key_lt b a).
#[global] Instance nat_key_order : KeyOrder nat.
Proof. refine {| key_lt := lt |}; intros; lia. Defined.

(** ** Pieces of the search *)

Definition kind_matches (sym : Node) (kind : str) : bool :=
  eq_ignore_ascii_case (SymbolKind_as_str (default SKOther (n_symbol_kind sym))) kind ||
  match n_lang_kind sym with Some k => eq_ignore_ascii_case k kind | None => false end.

(** [v.truncate(n)], [iter.take(n)]; [v.drain(0..n.min(v.len()))], [iter.skip(n)]. *)
Definition truncate {A} (n : Z) (l : list A) : list A := take (Z.to_nat (Z.min n (Z.of_nat (length l)))) l.
Definition skip {A} (n : Z) (l : list A) : list A := drop (Z.to_nat (Z.min n (Z.of_nat (length l)))) l.

(** [v.dedup()]. *)
Fixpoint dedup (l : list Z) : list Z :=
  match l with
  | x :: ((y :: _) as l) => if x =? y then dedup l else x :: dedup l
  | _ => l
  end.

(** [t.iter()] of a multimap: its keys, each with its values. *)
Fixpoint group {K V} `{EqDecision K} (l : list (K * V * unit)) : list (K * list V) :=
  match l with
  | [] => []
  | ((k, v), _) :: l =>
      match group l with
      | (k', vs) :: gs => if decide (k = k') then (k, v :: vs) :: gs else (k, [v]) :: (k', vs) :: gs
      | [] => [(k, [v])]
      end
  end.

(** The leading rows that satisfy [p]. *)
Fixpoint take_while {A} (p : A → bool) (l : list A) : list A :=
  match l with
  | [] => []
  | x :: l => if p x then x :: take_while p l else []
  end.

Section search.
Context `{Redb tbl} `{Serde} `{Unstable} (r : Db tbl).
Context (sym_fold : option (tbl (str * Z) _ _ unit)) (file_keys : option (tbl Z _ _ (list Z))).

Definition multimap_iter (t : tbl (str * Z) _ _ unit) : list (str * list Z) := group (tbl_iter t).

(** The ids of the names containing or ending with the needle, by the cache of
    this generation or by a walk that builds one. *)
Definition infix_ids (index : tbl (str * Z) _ _ unit) (exact_case : bool) (pattern : SymbolPattern) (needle : str)
    (names : option (NameCaches * Z)) : result (list Z * option NameCaches) :=
  let caches := fst <$> names in
  let names := if decide (needle = []) then None else names in
  match ('(c, g) ← names; NameCaches_get c exact_case g) with
  | Some cache => ids ← lift (NameCache_collect cache needle (pattern_matches pattern) []); Ok (ids, caches)
  | None =>
      let rows := multimap_iter index in
      let ids := rows ≫= λ row : str * list Z, if pattern_matches pattern row.1 then row.2 else [] in
      match names with
      | None => Ok (ids, caches)
      | Some (c, g) =>
          match builder c exact_case g with
          | (None, c) => Ok (ids, Some c)
          | (Some b, c) => Ok (ids, Some (put c exact_case (foldl push_row b rows)))
          end
      end
  end.

Definition index_ids (index : tbl (str * Z) _ _ unit) (exact_case : bool) (pattern : SymbolPattern)
    (names : option (NameCaches * Z)) : result (list Z * option NameCaches) :=
  match pattern with
  | Exact name => Ok (multimap_get index name, fst <$> names)
  | Prefix prefix =>
      let rows := tbl_range (λ kv : str * Z, key_le prefix kv.1) index in
      Ok ((λ row : str * Z * unit, row.1.2) <$> take_while (λ row : str * Z * unit, starts_with row.1.1 prefix) rows,
          fst <$> names)
  | Infix needle | Suffix needle => infix_ids index exact_case pattern needle names
  end.

(** Symbol indexes by file. *)
Definition by_file (ids : list Z) : gmap Z (list Z) :=
  foldl (λ m id, let '(tag, file, i) := split_id id in
    if tag =? TAG_SYM then <[file := default [] (m !! file) ++ [i]]> m else m) ∅ ids.

Definition entity (id : Z) : result Node := need r id.

Record FileCtx : Type := mkFileCtx { fx_org : Node; fx_repo : Node; fx_file : Node }.
Definition ctx (file_id : Z) : result FileCtx :=
  file ← need r file_id;
  repo_id ← ok_or (n_parent file) (Corrupt (lit "file without repo"));
  repo ← entity repo_id;
  org_id ← ok_or (n_parent repo) (Corrupt (lit "repo without org"));
  org ← entity org_id;
  Ok (mkFileCtx org repo file).

(** ** The candidate files *)

(** The parent, the language filter and the path of a candidate; [None] skips it. *)
Definition file_row (want_lang : option str) (fid : Z) : result (option (Z * bool * str)) :=
  let lang_ok (lang : option str) := match want_lang with Some l => bool_decide (lang = Some l) | None => true end in
  match (match file_keys with Some keys => tbl_get keys fid | None => None end) with
  | Some v => key ← decode_file_key v; Ok (Some (fk_parent key, lang_ok (fk_language key), fk_name key))
  | None =>
      n ← node r fid;
      match n with
      | Some n =>
          if decide (n_kind n = File) then
            parent ← ok_or (n_parent n) (Corrupt (lit "file without repo"));
            Ok (Some (parent, lang_ok (n_language n), n_name n))
          else Ok None
      | None => Ok None
      end
  end.

(** Slots of the repositories met so far ([None]: filtered out), and their rows. *)
Abbreviation Slots := (gmap Z (option nat) * list (Node * Node))%type.

Definition repo_slot (org repo : option str) (s : Slots) (parent : Z) : result (option nat * Slots) :=
  let '(repos, names) := s in
  match repos !! parent with
  | Some slot => Ok (slot, s)
  | None =>
      rn ← entity parent;
      org_id ← ok_or (n_parent rn) (Corrupt (lit "repo without org"));
      on ← entity org_id;
      let refused := match org with Some o => negb (bool_decide (n_name on = o)) | None => false end ||
                     match repo with Some q => negb (bool_decide (n_name rn = q)) | None => false end in
      let '(slot, names) := if refused then (None, names) else (Some (length names), names ++ [(on, rn)]) in
      Ok (slot, (<[parent := slot]> repos, names))
  end.

Definition keep_file (q : SymbolQuery) (s : Slots * list (nat * str * Z)) (fid : Z) : result (Slots * list (nat * str * Z)) :=
  let '(slots, keyed) := s in
  row ← file_row (to_ascii_lowercase <$> sq_language q) fid;
  match row with
  | None => Ok s
  | Some (parent, lang_ok, name) =>
      '(slot, slots) ← repo_slot (sq_org q) (sq_repo q) slots parent;
      match slot with
      | None => Ok (slots, keyed)
      | Some slot =>
          if negb lang_ok || match normalize_path <$> sq_file q with Some f => negb (bool_decide (name = f)) | None => false end
          then Ok (slots, keyed) else Ok (slots, keyed ++ [(slot, name, fid)])
      end
  end.

(** The place of each slot in the order of (org name, repo name). *)
Definition slot_key (names : list (Node * Node)) (i : nat) : str * str :=
  match names !! i with Some x => (n_name x.1, n_name x.2) | None => ([], []) end.
Definition slot_le (names : list (Node * Node)) (i j : nat) : bool := key_le (slot_key names i) (slot_key names j).
Definition ranks (names : list (Node * Node)) : list nat :=
  foldl (λ rank (rs : nat * nat), <[rs.2 := rs.1]> rank) (replicate (length names) 0%nat)
    (enumerate (sort_by (slot_le names) (seq 0 (length names)))).
Definition file_le (rank : list nat) (a b : nat * str * Z) : bool :=
  let '(sa, na, fa) := a in
  let '(sb, nb, fb) := b in
  key_le (default 0%nat (rank !! sa), na, fa) (default 0%nat (rank !! sb), nb, fb).

(** ** The rows of a file *)

(** The texts of the enclosing symbols, innermost first. *)
Fixpoint qual_chain (fuel : nat) (syms : list SymRec) (cur : option Z) : result (list str) :=
  match fuel, cur with
  | _, None => Ok []
  | O, Some _ => Panic
  | S fuel, Some p =>
      s ← index syms (Z.to_nat p);
      name ← text r (s_name s);
      rest ← qual_chain fuel syms (s_parent s);
      Ok (name :: rest)
  end.

Abbreviation Row := (Z * str * Z * SymbolHit)%type.

(** [None] skips the symbol. *)
Definition symbol_row (q : SymbolQuery) (c : FileCtx) (fid : Z) (syms : list SymRec) (i : Z) : result (option Row) :=
  if (length syms <=? Z.to_nat i)%nat then Ok None else
  sym ← sym_node r fid (Z.to_nat i) syms;
  if match sq_kind q with Some k => negb (kind_matches sym k) | None => false end then Ok None else
  s ← index syms (Z.to_nat i);
  quals ← qual_chain (length syms) syms (s_parent s);
  let qualified := join (lit "::") (reverse (n_name sym :: quals)) in
  owner ← (match s_owner s with Some o => t ← text r o; Ok (Some t) | None => Ok None end);
  Ok (Some (start (s_span s), qualified, sub_id TAG_SYM fid i,
    mkSymbolHit (n_name (fx_org c)) (n_name (fx_repo c)) (n_name (fx_file c)) (n_language (fx_file c)) (n_name sym) qualified
      (default SKOther (n_symbol_kind sym)) (n_lang_kind sym) (n_span sym) None owner
      (n_encoding (fx_file c)) (n_lossy (fx_file c)))).

Definition row_key_le (a b : Row) : bool := key_le a.1 b.1.

(** The rows that are returned get their name position. *)
Fixpoint push_rows (offset : Z) (lz : Lazy) (syms : list SymRec) (out : list SymbolHit) (rows : list Row)
    : result (list SymbolHit) :=
  match rows with
  | [] => Ok out
  | (_, _, id, h) :: rows =>
      h ← (if offset <=? Z.of_nat (length out) then
             let '(_, _, i) := split_id id in
             s ← index syms (Z.to_nat i);
             p ← name_pos lz s;
             Ok (set_name_pos p h)
           else Ok h);
      push_rows offset lz syms (out ++ [h]) rows
  end.

(** One file of the walk. *)
Definition walk_file (q : SymbolQuery) (files : gmap Z (list Z)) (want : Z) (out : list SymbolHit) (fid : Z)
    : result (list SymbolHit) :=
  c ← ctx fid;
  match tbl_get (db_streams r) fid with
  | None => Ok out
  | Some raw =>
      lz ← decode_lazy raw;
      syms ← lazy_symbols lz;
      idxs ← unwrap (files !! fid);
      rows ← collect (symbol_row q c fid syms) idxs;
      let rows := sort_by row_key_le (omap id rows) in
      push_rows (default 0 (sq_offset q)) lz syms out
        (truncate (want - Z.of_nat (length out)) rows)
  end.

(** [while out.len() < want { .. order.next() .. }]: at most one round per
    file, and one that finds none left. *)
Fixpoint walk_files (fuel : nat) (rank : list nat) (q : SymbolQuery) (files : gmap Z (list Z)) (want : Z)
    (order : LazySorted (nat * str * Z)) (out : list SymbolHit) : result (list SymbolHit) :=
  if want <=? Z.of_nat (length out) then Ok out else
  match fuel with
  | O => Panic
  | S fuel =>
      '(item, order) ← LazySorted_next (file_le rank) order;
      match item with
      | None => Ok out
      | Some (_, _, fid) =>
          out ← walk_file q files want out fid;
          walk_files fuel rank q files want order out
      end
  end.

(** ** The search *)

Definition empty_filter (q : SymbolQuery) : option string :=
  (λ x : nat * (string * option str), x.2.1) <$> list_find (λ x : string * option str, x.2 = Some [])
    [("org", sq_org q); ("repo", sq_repo q); ("language", sq_language q); ("file", sq_file q); ("kind", sq_kind q)]%string.

Definition no_fold_index : StoreError :=
  Rejected (lit "this store has no case-insensitive symbol index yet (reopen it writable to build it, or use --exact-case)").

(** The index of the query's case mode, and the pattern for it. *)
Definition choose_index (q : SymbolQuery) (parsed : SymbolPattern) : result (tbl (str * Z) _ _ unit * SymbolPattern) :=
  if sq_exact_case q then Ok (db_sym_idx r, parsed)
  else match sym_fold with
       | None => Err no_fold_index
       | Some fold => Ok (fold, folded parsed)
       end.

Definition search_symbols (q : SymbolQuery) (names : option (NameCaches * Z))
    : result (list SymbolHit * option NameCaches) :=
  match empty_filter q with
  | Some what => Err (Rejected (lit "empty " ++ lit what ++ lit " filter"))
  | None =>
      parsed ← parse_symbol_pattern (sq_pattern q);
      '(index, pattern) ← choose_index q parsed;
      '(ids, names) ← index_ids index (sq_exact_case q) pattern names;
      let files := by_file (dedup (sort_unstable Z.leb ids)) in
      '(slots, keyed) ← try_fold (keep_file q) (∅, [], []) (gmap_rows files).*1;
      let rank := ranks slots.2 in
      let want := Z.min (default 0 (sq_offset q) + default USIZE_MAX (sq_limit q)) USIZE_MAX in
      out ← walk_files (S (length keyed)) rank q files want (LazySorted_new keyed) [];
      let out := truncate want out in
      let out := match sq_offset q with Some off => skip off out | None => out end in
      let out := match sq_limit q with Some n => truncate n out | None => out end in
      Ok (out, names)
  end.
End search.
