(* ===== verification/SymbolIds.v ===== *)
(** * The candidates of a symbol search

    What the index lookups of [search_symbols] give: the ids of exactly the
    symbols whose indexed name matches, grouped by file in source order. *)
From S2P Require Import Prelude Text StrOps Schema Varint Stream Posting DictBlock Table DictRev.
From S2P Require Import Language Walk Pattern Prep Db Catalog Reader Encoding Write Commit Prune LazySort NameCache Symbols.

(** ** Orders *)

Section key_le.
Context `{KeyOrder K}.
Lemma key_le_true (a b : K) : key_le a b = true ↔ key_lt a b ∨ a = b.
Proof.
  unfold key_le. rewrite bool_decide_eq_true. split.
  - intros Hn. destruct (key_lt_total a b) as [?|[?|?]]; auto. done.
  - intros [Hl| <- ] Hr; [|by apply key_lt_irrefl in Hr]. by eapply key_lt_irrefl, key_lt_trans.
Qed.
Lemma key_le_total (a b : K) : key_le a b = true ∨ key_le b a = true.
Proof. rewrite !key_le_true. destruct (key_lt_total a b) as [?|[?|?]]; auto. Qed.
Lemma key_le_trans (a b c : K) : key_le a b = true → key_le b c = true → key_le a c = true.
Proof. rewrite !key_le_true. intros [?| -> ] [?| -> ]; eauto using key_lt_trans. Qed.
Lemma key_le_anti (a b : K) : key_le a b = true → key_le b a = true → a = b.
Proof. rewrite !key_le_true. intros [Hl| -> ] [Hr|?]; try done. by destruct (key_lt_irrefl a); eapply key_lt_trans. Qed.
End key_le.

(** Between a prefix and an extension of it, every string extends it. *)
Lemma prefix_between p k1 k2 :
  ¬ str_lt k1 p → ¬ str_lt k2 k1 → starts_with k2 p = true → starts_with k1 p = true.
Proof.
  rewrite !starts_with_spec. intros H1 H2 [x ->]. revert k1 H1 H2.
  induction p as [|c p IH]; intros k1 H1 H2; [by exists k1|]. destruct k1 as [|e k1]; [by destruct H1|].
  cbn in H1, H2. assert (e = c) as -> by (apply Decidable.not_or in H1 as [? _]; apply Decidable.not_or in H2 as [? _]; lia).
  destruct (IH k1) as [y ->]; [tauto|tauto|]. by exists y.
Qed.

Lemma take_while_elem {A} (P : A → bool) l x :
  StronglySorted (λ a b, P b = true → P a = true) l → x ∈ take_while P l ↔ x ∈ l ∧ P x = true.
Proof.
  induction 1 as [|a l Hl IH Ha]; cbn; [by rewrite elem_of_nil; split; [|intros []]|]. destruct (P a) eqn:E.
  - rewrite !elem_of_cons, IH. split; [intros [->|[? ?]]; auto|]. intros [[->|?] ?]; auto.
  - split; [by intros ?%elem_of_nil|]. intros [[->|Hin]%elem_of_cons Hx]; [congruence|]. rewrite Forall_forall in Ha.
    specialize (Ha x Hin Hx). congruence.
Qed.

(** ** The rows of an index *)

Lemma group_elem {K V} `{EqDecision K} (l : list (K * V * unit)) (P : K → Prop) v :
  (∃ row, row ∈ group l ∧ P row.1 ∧ v ∈ row.2) ↔ ∃ k, P k ∧ (k, v, ()) ∈ l.
Proof.
  induction l as [|[[k w] []] l IH]; cbn [group].
  { split; [by intros (? & ?%elem_of_nil & _)|by intros (? & _ & ?%elem_of_nil)]. }
  assert ((∃ row, row ∈ (k, [w]) :: group l ∧ P row.1 ∧ v ∈ row.2) ↔ ∃ k0, P k0 ∧ (k0, v, ()) ∈ (k, w, ()) :: l) as Hone.
  { split.
    - intros (row & [->|Hin]%elem_of_cons & HP & Hv); [apply list_elem_of_singleton in Hv as ->; exists k; split; [done|left]|].
      destruct (proj1 IH) as (k0 & ? & ?); [by exists row|]. exists k0. split; [done|by right].
    - intros (k0 & HP & [[= -> ->]|Hin]%elem_of_cons).
      + exists (k, [w]). split; [left|]. split; [done|]. left.
      + destruct (proj2 IH) as (row & ? & ? & ?); [by exists k0|]. exists row. split; [by right|done]. }
  destruct (group l) as [|[k' vs] gs] eqn:E; [exact Hone|]. case_decide as Hk; [|exact Hone]. subst k'. rewrite <- Hone. split.
  - intros (row & [->|Hin]%elem_of_cons & HP & Hv); cbn in *.
    + apply elem_of_cons in Hv as [->|Hv]; [exists (k, [w]); split; [left|split; [done|left]]|].
      exists (k, vs). split; [right; left|done].
    + exists row. split; [by right; right|done].
  - intros (row & [->|[->|Hin]%elem_of_cons]%elem_of_cons & HP & Hv); cbn in *.
    + apply list_elem_of_singleton in Hv as ->. exists (k, w :: vs). split; [left|split; [done|left]].
    + exists (k, w :: vs). split; [left|split; [done|by right]].
    + exists row. split; [by right|done].
Qed.

Section index.
Context `{Redb tbl}.

(** An index lookup by [pattern] gives these ids. *)
Definition index_hits (index : tbl (str * Z) _ _ unit) (pattern : SymbolPattern) (id : Z) : Prop :=
  ∃ k, tbl_map index !! (k, id) = Some () ∧ pattern_matches pattern k = true.

(** The caches answer as the index does. *)
Definition caches_hold (index : tbl (str * Z) _ _ unit) (exact_case : bool) (names : option (NameCaches * Z)) : Prop :=
  ∀ c g x, names = Some (c, g) → NameCaches_get c exact_case g = Some x → x = cache_of g (multimap_iter index).

Lemma rows_hits (index : tbl (str * Z) _ _ unit) pattern id :
  id ∈ (multimap_iter index ≫= λ row : str * list Z, if pattern_matches pattern row.1 then row.2 else []) ↔ index_hits index pattern id.
Proof.
  unfold index_hits. rewrite list_elem_of_bind. unfold multimap_iter. split.
  - intros (row & Hid & Hin). destruct (pattern_matches pattern row.1) eqn:E; [|by apply elem_of_nil in Hid].
    destruct (proj1 (group_elem (tbl_iter index) (λ k, pattern_matches pattern k = true) id)) as (k & Hk & Hx); [by exists row|].
    exists k. split; [by apply tbl_iter_elem|done].
  - intros (k & Hk & Hp). destruct (proj2 (group_elem (tbl_iter index) (λ k, pattern_matches pattern k = true) id)) as (row & Hin & Hr & Hv).
    { exists k. split; [done|]. by apply tbl_iter_elem. }
    exists row. by rewrite Hr.
Qed.

Lemma matching_bind (rows : list (str * list Z)) (p : str → bool) :
  concat (filter (λ r : str * list Z, p r.1 = true) rows).*2 = rows ≫= λ row, if p row.1 then row.2 else [].
Proof.
  induction rows as [|r rows IH]; [done|]. rewrite filter_cons. cbn [mbind list_bind]. destruct (p r.1) eqn:E.
  - rewrite decide_True by done. cbn. by rewrite IH.
  - by rewrite decide_False.
Qed.

Lemma infix_ids_run index exact_case pattern needle names :
  needle_of pattern = Some needle → caches_hold index exact_case names →
  ∃ ids c, infix_ids index exact_case pattern needle names = Ok (ids, c) ∧ ∀ id, id ∈ ids ↔ index_hits index pattern id.
Proof.
  intros Hn Hc. unfold infix_ids.
  set (rows := multimap_iter index ≫= λ row : str * list Z, if pattern_matches pattern row.1 then row.2 else []).
  assert (∀ id, id ∈ rows ↔ index_hits index pattern id) as Hrows by (intros; apply rows_hits).
  destruct (decide (needle = [])) as [He|He]; [by eexists _, _|].
  destruct names as [[c g]|]; cbn [mbind option_bind]; [|by eexists _, _].
  destruct (NameCaches_get c exact_case g) as [x|] eqn:Ex.
  - rewrite (Hc c g x eq_refl Ex), NameCache_collect_run by (done || (intros ?; by apply needle_contains)). cbn [lift mbind outcome_mbind outcome_bind].
    eexists _, _. split; [done|]. intros id. unfold matching. rewrite matching_bind. apply Hrows.
  - destruct (builder c exact_case g) as [[b|] c']; by eexists _, _.
Qed.

Lemma index_ids_run index exact_case pattern names :
  caches_hold index exact_case names →
  ∃ ids c, index_ids index exact_case pattern names = Ok (ids, c) ∧ ∀ id, id ∈ ids ↔ index_hits index pattern id.
Proof.
  intros Hc. unfold index_ids. destruct pattern as [s|s|s|s].
  - eexists _, _. split; [done|]. intros id. rewrite multimap_elem. unfold index_hits. cbn. split; [intros ?; exists s; by rewrite bool_decide_eq_true|].
    intros (k & ? & ->%bool_decide_eq_true). done.
  - eexists _, _. split; [done|]. intros id. rewrite list_elem_of_fmap. unfold index_hits, tbl_range. cbn [pattern_matches].
    setoid_rewrite take_while_elem.
    + split.
      * intros ([[k i] []] & -> & [[_ Hin]%list_elem_of_filter Hs]). cbn in *. exists k. split; [by apply tbl_iter_elem|done].
      * intros (k & Hk & Hs). exists (k, id, ()). split; [done|]. split; [|done]. apply list_elem_of_filter. cbn. split; [|by apply tbl_iter_elem].
        unfold key_le. rewrite bool_decide_eq_true. apply starts_with_spec in Hs as [x ->]. intros Hl. cbn in Hl. clear -Hl.
        induction s as [|a s IH]; [by destruct x|]. cbn in Hl. destruct Hl as [?|[_ ?]]; [lia|by apply IH].
    + pose proof (tbl_iter_sorted _ index) as Hs. revert Hs. generalize (tbl_iter index) as l. clear. intros l Hs.
      induction l as [|[[k i] []] l IH]; [constructor|]. cbn [fmap list_fmap] in Hs. apply StronglySorted_inv in Hs as [Hs HF].
      rewrite filter_cons. case_decide as Hk; [|by apply IH]. constructor; [by apply IH|]. apply Forall_forall.
      intros [[k' i'] []] [Hk' Hin]%list_elem_of_filter. cbn in *. unfold key_le in Hk. rewrite bool_decide_eq_true in Hk.
      apply prefix_between; [exact Hk|]. rewrite Forall_forall in HF. specialize (HF (k', i')). cbn in HF.
      assert (prod_lt (k, i) (k', i')) as Hlt by (apply HF, list_elem_of_fmap; by exists (k', i', ())). intros Hk2.
      destruct Hlt as [Hlt|[Heq _]]; cbn in *; [by destruct (key_lt_irrefl k); eapply (key_lt_trans k k' k)|subst; by destruct (key_lt_irrefl k')].
  - by apply infix_ids_run.
  - by apply infix_ids_run.
Qed.
End index.

(** ** Grouping by file *)

Lemma dedup_run (l : list Z) :
  StronglySorted (λ x y, (x <=? y) = true) l → StronglySorted Z.lt (dedup l) ∧ ∀ x, x ∈ dedup l ↔ x ∈ l.
Proof.
  induction 1 as [|x l Hl [IH1 IH2] Hx]; [split; [constructor|done]|]. destruct l as [|y l]; [split; [by repeat constructor|done]|].
  change (dedup (x :: y :: l)) with (if x =? y then dedup (y :: l) else x :: dedup (y :: l)).
  rewrite Forall_forall in Hx. destruct (x =? y) eqn:E; bool_prop.
  - subst y. split; [done|]. intros z. rewrite IH2, !elem_of_cons. naive_solver.
  - split.
    + constructor; [done|]. apply Forall_forall. intros z Hz%IH2. pose proof (Hx y ltac:(left)) as Hxy.
      apply StronglySorted_inv in Hl as [_ Hy]. rewrite Forall_forall in Hy. apply elem_of_cons in Hz as [->|Hz]; [|specialize (Hy z Hz)]; lia.
    + intros z. by rewrite !elem_of_cons, IH2, elem_of_cons.
Qed.

(** The indexes of [f]'s symbols among [ids]. *)
Definition idx_of (f : Z) (id : Z) : option Z :=
  let '(tag, file, i) := split_id id in if decide (tag = TAG_SYM ∧ file = f) then Some i else None.
Definition idxs_of (f : Z) (ids : list Z) : list Z := omap (idx_of f) ids.

Lemma by_file_lookup ids f : by_file ids !! f = if decide (idxs_of f ids = []) then None else Some (idxs_of f ids).
Proof.
  induction ids as [|id ids IH] using rev_ind; [by rewrite decide_True|]. unfold by_file. rewrite foldl_snoc.
  fold (by_file ids). unfold idxs_of. rewrite omap_app. fold (idxs_of f ids). cbn [omap list_omap].
  destruct (split_id id) as [[tag file] i] eqn:E.
  assert (idx_of f id = if decide (tag = TAG_SYM ∧ file = f) then Some i else None) as -> by (unfold idx_of; by rewrite E).
  destruct (tag =? TAG_SYM) eqn:Et; bool_prop.
  - destruct (decide (file = f)) as [->|Hne].
    + destruct (decide (tag = TAG_SYM ∧ f = f)) as [_|Hd]; [|tauto].
      rewrite lookup_insert_eq, IH. rewrite (decide_False (P:=idxs_of f ids ++ [i] = [])) by (by destruct (idxs_of f ids)).
      case_decide as Hd; [by rewrite Hd|done].
    + destruct (decide (tag = TAG_SYM ∧ file = f)) as [Hd|_]; [tauto|]. by rewrite app_nil_r, lookup_insert_ne.
  - destruct (decide (tag = TAG_SYM ∧ file = f)) as [Hd|_]; [tauto|]. by rewrite app_nil_r.
Qed.

Lemma split_id_eq id : u64 id → let '(tag, file, i) := split_id id in id = (tag * 2 ^ 30 + file) * 2 ^ 32 + i.
Proof.
  intros Hu. rewrite split_id_div by done. cbn beta iota. change (2 ^ 62) with (2 ^ 32 * 2 ^ 30). rewrite <- Z.div_div by lia.
  rewrite <- Z.mul_comm. pose proof (Z.div_mod (id / 2 ^ 32) (2 ^ 30)). pose proof (Z.div_mod id (2 ^ 32)). lia.
Qed.

Lemma idxs_sorted f ids : Forall u64 ids → StronglySorted Z.lt ids → StronglySorted Z.lt (idxs_of f ids).
Proof.
  intros HF Hs. induction Hs as [|id ids Hs IH Hid]; [constructor|]. apply Forall_cons in HF as [Hu HF]. unfold idxs_of. cbn [omap list_omap].
  destruct (idx_of f id) as [i|] eqn:E; [|by apply IH]. constructor; [by apply IH|]. apply Forall_forall.
  intros j (id' & Hin & E')%list_elem_of_omap. rewrite Forall_forall in Hid, HF. specialize (Hid id' Hin). specialize (HF id' Hin).
  unfold idx_of in E, E'. pose proof (split_id_eq id Hu) as H1. pose proof (split_id_eq id' HF) as H2.
  destruct (split_id id) as [[tag file] i0], (split_id id') as [[tag' file'] i0']. repeat case_decide; try done. simplify_eq. lia.
Qed.

Lemma idxs_elem f ids i :
  0 ≤ f ≤ MAX_LOCAL → u32 i → Forall u64 ids → i ∈ idxs_of f ids ↔ sub_id TAG_SYM f i ∈ ids.
Proof.
  intros Hf Hi HF. unfold idxs_of. rewrite list_elem_of_omap. destruct (sub_id_run TAG_SYM f i ltac:(unfold TAG_SYM; lia) Hf Hi) as [Hu Hs]. split.
  - intros (id & Hin & E). rewrite Forall_forall in HF. pose proof (split_id_eq id (HF id Hin)) as H1.
    pose proof (split_id_eq _ Hu) as H2. rewrite Hs in H2. unfold idx_of in E. destruct (split_id id) as [[tag file] j].
    case_decide as Hd; [|done]. destruct Hd as [-> ->]. injection E as ->. by rewrite H2, <- H1.
  - intros Hin. exists (sub_id TAG_SYM f i). split; [done|]. unfold idx_of. rewrite Hs. by rewrite decide_True.
Qed.
