(* ===== verification/SearchFiles.v ===== *)
(** * The candidate files of a search

    The part [search_symbols] and [search] share: the row of a candidate file,
    the slots and ranks of the repositories, and the order of the files. *)
From S2P Require Import Prelude Text StrOps Schema Varint Stream StreamRound Posting DictBlock Table DictRev.
From S2P Require Import Language Walk Pattern Prep Located Db Catalog Reader Encoding Write Dict Store Entities Content Ingest.
From S2P Require Import Commit Batch Summary LazySort NameCache Symbols SymbolIds.

(** Texts of documents are strings that fit in memory. *)
Definition docs_valid (a : gmap dkey Doc) : Prop :=
  ∀ k v, a !! k = Some v → text_ok k.2 ∧ ∀ l, doc_language v = Some l → text_ok l.

Section files.
Context `{Redb tbl} `{Serde} (sha256 : list Z → list Z).
Context (d : Db tbl) (a : gmap dkey Doc) (N : gmap Z Node) (S : gmap Z Stream) (es : list (Z * str)) (next nt : Z).
Hypothesis R : rep sha256 d a N S es next nt.
Hypothesis valid : docs_valid a.

Let E := rp_ents _ _ _ _ _ _ _ _ R.

Lemma node_at id n : N !! id = Some n → node d id = Ok (Some n).
Proof.
  intros Hn. unfold node. rewrite tbl_get_spec, (en_nodes _ _ _ _ _ E), lookup_fmap, Hn. cbn [fmap option_fmap option_map]. by rewrite dec_enc.
Qed.
Lemma entity_at id n : N !! id = Some n → entity d id = Ok n.
Proof. intros Hn. unfold entity, need. by rewrite (node_at id n Hn). Qed.

(** ** A file's row *)

Lemma file_key_at f n p :
  N !! f = Some n → n_kind n = File → n_parent n = Some p →
  ∃ b, tbl_get (db_file_keys d) f = Some b ∧ decode_file_key b = Ok (mkFileKey p (n_language n) (n_name n)).
Proof.
  intros Hn Hk Hp. rewrite tbl_get_spec, (rp_rows _ _ _ _ _ _ _ _ R f). unfold Store.file_row. rewrite Hn. cbn [mbind option_bind].
  rewrite decide_True by done. unfold file_key_row. rewrite Hp. cbn [ok_or mbind outcome_mbind outcome_bind]. eexists. split; [done|].
  destruct (rep_file _ _ _ _ _ _ _ _ _ _ R Hn Hk) as (s & v & k & Hs & Hv & Hpath & Ha).
  destruct (doc_of_fields _ _ _ _ Hv) as (_ & _ & Hl). destruct (valid k v Ha) as [Hpt Hlt].
  apply path_of_Some in Hpath as (n' & r & rn & o & on & Hn' & _ & Hr & Hrn & _ & _ & ->). cbn [snd] in Hpt. assert (n' = n) as -> by congruence.
  destruct (en_id _ _ _ _ _ E _ _ Hrn) as [_ Hid]. pose proof (en_max _ _ _ _ _ E) as Hmax. change MAX_LOCAL with (2 ^ 30 - 1) in Hmax.
  assert (file_key_ok (mkFileKey p (n_language n) (n_name n))) as Hok.
  { split; cbn; [assert (p = r) as -> by congruence; mach|]. split; [apply Hpt|]. destruct (n_language n) eqn:El; [|done]. by apply Hlt. }
  apply file_key_roundtrip; [exact Hok|]. destruct Hok as (Hu & _ & Hlok). cbn in Hu, Hlok. unfold encode_file_key. cbn [fk_parent fk_language fk_name].
  rewrite !length_app. pose proof (put_varint_loop_length 10 p) as Hp1. destruct Hpt as [_ Hpt]. unfold str_len in Hpt.
  destruct (n_language n) as [l|]; [|unfold put_varint in *; cbn [length] in *; lia]. destruct Hlok as [_ Hll]. rewrite length_app.
  pose proof (put_varint_loop_length 10 (Z.of_nat (str_len l) + 1)) as Hp2. unfold str_len, put_varint in *. lia.
Qed.

Definition lang_ok (want : option str) (lang : option str) : bool :=
  match want with Some l => bool_decide (lang = Some l) | None => true end.

Lemma file_row_run keys want f n :
  keys = None ∨ keys = Some (db_file_keys d) → N !! f = Some n → n_kind n = File →
  ∃ p, n_parent n = Some p ∧ file_row d keys want f = Ok (Some (p, lang_ok want (n_language n), n_name n)).
Proof.
  intros Hkeys Hn Hk. destruct (file_parents _ _ _ _ _ _ _ E Hn Hk) as (p & rn & o & on & Hp & _). exists p. split; [done|].
  unfold file_row. destruct Hkeys as [-> | ->].
  - rewrite (node_at f n Hn). cbn [mbind outcome_mbind outcome_bind]. rewrite decide_True by done. by rewrite Hp.
  - destruct (file_key_at f n p Hn Hk Hp) as (b & -> & Hb). by rewrite Hb.
Qed.

(** ** Slots *)

Definition refused (org repo : option str) (on rn : Node) : bool :=
  match org with Some o => negb (bool_decide (n_name on = o)) | None => false end ||
  match repo with Some q => negb (bool_decide (n_name rn = q)) | None => false end.

(** A repository row with its organisation. *)
Definition repo_rows (p : Z) (on rn : Node) : Prop :=
  N !! p = Some rn ∧ n_kind rn = Repo ∧ ∃ o, n_parent rn = Some o ∧ N !! o = Some on.

Record slots_ok (org repo : option str) (s : gmap Z (option nat) * list (Node * Node)) : Prop := mkSlotsOk {
  so_slot p sl : s.1 !! p = Some sl → ∃ on rn, repo_rows p on rn ∧
    match sl with None => refused org repo on rn = true | Some i => refused org repo on rn = false ∧ s.2 !! i = Some (on, rn) end;
  so_names i on rn : s.2 !! i = Some (on, rn) → s.1 !! n_id rn = Some (Some i) ∧ repo_rows (n_id rn) on rn;
}.

Lemma repo_rows_fun p on rn on' rn' : repo_rows p on rn → repo_rows p on' rn' → on = on' ∧ rn = rn'.
Proof. intros (H1 & _ & o & H2 & H3) (H1' & _ & o' & H2' & H3'). by simplify_eq. Qed.

Lemma repo_slot_run org repo s p on rn :
  slots_ok org repo s → repo_rows p on rn →
  ∃ sl s', repo_slot d org repo s p = Ok (sl, s') ∧ slots_ok org repo s' ∧ s.1 ⊆ s'.1 ∧ s.2 `prefix_of` s'.2 ∧
    match sl with None => refused org repo on rn = true | Some i => refused org repo on rn = false ∧ s'.2 !! i = Some (on, rn) end.
Proof.
  intros Hs Hp. pose proof Hp as (Hrn & Hk & o & Ho & Hon). destruct s as [repos names]. unfold repo_slot.
  destruct (repos !! p) as [sl|] eqn:Ep.
  { exists sl, (repos, names). split; [done|]. split; [done|]. split; [done|]. split; [done|].
    destruct (so_slot _ _ _ Hs p sl Ep) as (on' & rn' & Hp' & Hsl). by destruct (repo_rows_fun _ _ _ _ _ Hp Hp') as [-> ->]. }
  rewrite (entity_at p rn Hrn). cbn [mbind outcome_mbind outcome_bind]. rewrite Ho. cbn [ok_or mbind outcome_mbind outcome_bind].
  rewrite (entity_at o on Hon). cbn [mbind outcome_mbind outcome_bind]. fold (refused org repo on rn).
  destruct (en_id _ _ _ _ _ E _ _ Hrn) as [Hid _].
  assert (∀ i on' rn', names !! i = Some (on', rn') → n_id rn' ≠ p) as Hfresh.
  { intros i on' rn' Hi Heq. destruct (so_names _ _ _ Hs i on' rn' Hi) as [Hx _]. cbn in Hx. rewrite Heq in Hx. congruence. }
  destruct (refused org repo on rn) eqn:Er.
  - eexists None, (_, names). split; [done|]. split; [|split; [by apply insert_subseteq|done]]. split; cbn [fst snd].
    + intros p' sl [[<- <-]|[_ Hsl]]%lookup_insert_Some; [by exists on, rn|]. by apply (so_slot _ _ _ Hs).
    + intros i on' rn' Hi. rewrite lookup_insert_ne by (symmetry; by eapply Hfresh). by apply (so_names _ _ _ Hs).
  - eexists (Some (length names)), (_, names ++ [(on, rn)]). split; [done|]. split; [split; cbn [fst snd]|].
    + intros p' sl [[<- <-]|[_ Hsl]]%lookup_insert_Some.
      * exists on, rn. split; [done|]. split; [done|]. by rewrite lookup_app_r, Nat.sub_diag.
      * destruct (so_slot _ _ _ Hs _ _ Hsl) as (on' & rn' & Hp' & Hx). exists on', rn'. split; [done|]. destruct sl; [|done].
        destruct Hx as [? Hx]. split; [done|]. by apply lookup_app_l_Some.
    + intros i on' rn' [Hi|[Hi Hx]]%lookup_app_Some.
      * rewrite lookup_insert_ne by (symmetry; by eapply Hfresh). by apply (so_names _ _ _ Hs).
      * apply list_lookup_singleton_Some in Hx as [Hx [= <- <-]]. rewrite Hid, lookup_insert_eq. split; [|done]. do 2 f_equal. lia.
    + cbn [fst snd]. split; [by apply insert_subseteq|]. split; [by apply prefix_app_r|]. split; [done|]. by rewrite lookup_app_r, Nat.sub_diag.
Qed.

(** Repositories in different slots differ in name. *)
Lemma slots_inj org repo s i j x y :
  slots_ok org repo s → s.2 !! i = Some x → s.2 !! j = Some y → n_name x.1 = n_name y.1 → n_name x.2 = n_name y.2 → i = j.
Proof.
  destruct x as [on rn], y as [on' rn']. cbn. intros Hs Hi Hj Ho Hr.
  destruct (so_names _ _ _ Hs i on rn Hi) as [Hsi (H1 & Hk & o & Hp & Hon)], (so_names _ _ _ Hs j on' rn' Hj) as [Hsj (H1' & Hk' & o' & Hp' & Hon')].
  assert (o = o') as <-.
  { pose proof (en_shape _ _ _ _ _ E _ _ H1) as Hs1. pose proof (en_shape _ _ _ _ _ E _ _ H1') as Hs2. unfold shape_ok in Hs1, Hs2.
    rewrite Hk in Hs1. rewrite Hk' in Hs2. destruct Hs1 as (? & ? & ? & ? & Hko), Hs2 as (? & ? & ? & ? & Hko'). simplify_eq.
    pose proof (en_shape _ _ _ _ _ E _ _ Hon) as Hs1. pose proof (en_shape _ _ _ _ _ E _ _ Hon') as Hs2. unfold shape_ok in Hs1, Hs2.
    rewrite Hko in Hs1. rewrite Hko' in Hs2. eapply ents_key_inj; [exact E|exact Hon|exact Hon'|congruence|congruence|done]. }
  assert (n_id rn = n_id rn') as Heq by (eapply ents_key_inj; [exact E|exact H1|exact H1'|congruence|congruence|done]).
  rewrite Heq in Hsi. congruence.
Qed.
End files.

(** ** Ranks *)

Lemma rank_fold (l : list (nat * nat)) : ∀ rank i r,
  NoDup l.*2 → (r, i) ∈ l → (i < length rank)%nat →
  foldl (λ rank (rs : nat * nat), <[rs.2 := rs.1]> rank) rank l !! i = Some r.
Proof.
  induction l as [|[q j] l IH] using rev_ind; intros rank i r Hnd Hin Hlt; [by apply elem_of_nil in Hin|].
  rewrite foldl_snoc. cbn [fst snd]. rewrite fmap_app in Hnd. apply NoDup_app in Hnd as (Hnd & Hdis & _).
  assert (length (foldl (λ rank (rs : nat * nat), <[rs.2 := rs.1]> rank) rank l) = length rank) as Hlen.
  { clear. revert rank. induction l as [|x l IH]; intros rank; [done|]. cbn. by rewrite IH, length_insert. }
  apply elem_of_app in Hin as [Hin|Hin].
  - rewrite list_lookup_insert_ne; [by apply IH|]. intros <-. apply (Hdis j); [apply list_elem_of_fmap; by exists (r, j)|left].
  - apply list_elem_of_singleton in Hin as [= -> ->]. by rewrite list_lookup_insert_eq by lia.
Qed.

Lemma ranks_lt names i j :
  (∀ i j, (i < length names)%nat → (j < length names)%nat → slot_key names i = slot_key names j → i = j) →
  (i < length names)%nat → (j < length names)%nat →
  (default 0%nat (ranks names !! i) < default 0%nat (ranks names !! j))%nat ↔ key_lt (slot_key names i) (slot_key names j).
Proof.
  intros Hinj Hi Hj. unfold ranks. set (l := sort_by (slot_le names) (seq 0 (length names))).
  assert (l ≡ₚ seq 0 (length names)) as Hperm by apply sort_by_perm.
  assert (StronglySorted (λ x y, slot_le names x y = true) l) as Hs.
  { apply sort_by_sorted; intros; unfold slot_le; [by eapply key_le_trans|apply key_le_total]. }
  assert (NoDup l) as Hnd by (rewrite Hperm; apply NoDup_seq).
  assert (∀ k, (k < length names)%nat → ∃ p, l !! p = Some k ∧ foldl (λ rank (rs : nat * nat), <[rs.2 := rs.1]> rank) (replicate (length names) 0%nat) (enumerate l) !! k = Some p) as Hrank.
  { intros k Hk. assert (k ∈ l) as Hin by (rewrite Hperm; apply elem_of_seq; lia). apply list_elem_of_lookup in Hin as [p Hp]. exists p. split; [done|].
    apply rank_fold; [|by apply enumerate_elem|by rewrite length_replicate].
    assert ((enumerate l).*2 = l) as ->; [|done]. unfold enumerate. clear. generalize 0%nat. induction l as [|x l IH]; intros n; [done|]. cbn. by rewrite IH. }
  destruct (Hrank i Hi) as (p & Hp & ->), (Hrank j Hj) as (q & Hq & ->). cbn [default from_option id].
  assert (∀ p q i j, l !! p = Some i → l !! q = Some j → (p < q)%nat → (i < length names)%nat → (j < length names)%nat → key_lt (slot_key names i) (slot_key names j)) as Hlt.
  { clear -Hs Hinj Hnd. intros p q i j Hp Hq Hpq Hi Hj. pose proof (sorted_lookup _ l p q i j Hs Hp Hq Hpq) as Hle. unfold slot_le in Hle.
    apply key_le_true in Hle as [?|Heq]; [done|]. apply Hinj in Heq as ->; [|done..]. rewrite (NoDup_lookup _ _ _ _ Hnd Hp Hq) in Hpq. lia. }
  split; [intros; by eapply Hlt|]. intros Hk. destruct (Nat.lt_trichotomy p q) as [?|[->|Hqp]]; [done|simplify_eq; by apply key_lt_irrefl in Hk|].
  pose proof (Hlt q p j i Hq Hp Hqp Hj Hi) as Hk'. by destruct (key_lt_irrefl (slot_key names i)); eapply key_lt_trans.
Qed.

(** ** Files in order *)

(** The slots give the repository part of each item's key. *)
Definition keyed_by {T} (names : list (Node * Node)) (slot : T → nat) (name : T → str) (key : T → dkey) (x : T) : Prop :=
  ∃ on rn, names !! slot x = Some (on, rn) ∧ key x = (n_name on, n_name rn, name x).

Section order.
Context {T : Type} (names : list (Node * Node)) (slot : T → nat) (name : T → str) (key : T → dkey).
Hypothesis names_inj : ∀ i j, (i < length names)%nat → (j < length names)%nat → slot_key names i = slot_key names j → i = j.

Lemma rank_key x y :
  keyed_by names slot name key x → keyed_by names slot name key y →
  key_le (default 0%nat (ranks names !! slot x), name x) (default 0%nat (ranks names !! slot y), name y) = true →
  key_lt (key x) (key y) ∨ key x = key y.
Proof.
  intros (on & rn & Hx & Hkx) (on' & rn' & Hy & Hky). rewrite key_le_true, Hkx, Hky.
  pose proof (lookup_lt_Some _ _ _ Hx) as Hlx. pose proof (lookup_lt_Some _ _ _ Hy) as Hly.
  assert (slot_key names (slot x) = (n_name on, n_name rn)) as Sx by (unfold slot_key; by rewrite Hx).
  assert (slot_key names (slot y) = (n_name on', n_name rn')) as Sy by (unfold slot_key; by rewrite Hy).
  assert (default 0%nat (ranks names !! slot x) = default 0%nat (ranks names !! slot y) → slot x = slot y) as Heq.
  { intros Hr. destruct (key_lt_total (slot_key names (slot x)) (slot_key names (slot y))) as [Hl|[Hl|Hl]].
    - apply ranks_lt in Hl; [lia|done..].
    - by apply names_inj.
    - apply ranks_lt in Hl; [lia|done..]. }
  intros [[Hl|[Hr Hn]]|[= Hr Hn]]; cbn in *.
  - left. left. apply ranks_lt in Hl; [|done..]. rewrite Sx, Sy in Hl. exact Hl.
  - left. right. specialize (Heq Hr). rewrite Heq in Hx. simplify_eq. split; [done|exact Hn].
  - right. specialize (Heq Hr). rewrite Heq in Hx. simplify_eq. by rewrite Hn.
Qed.
End order.

Lemma sorted_keys {T} `{KeyOrder K} (le : T → T → bool) (key : T → K) l :
  (∀ x y z, le x y = true → le y z = true → le x z = true) → (∀ x y, le x y = true ∨ le y x = true) →
  (∀ x y, x ∈ l → y ∈ l → le x y = true → key_lt (key x) (key y) ∨ key x = key y) → NoDup (key <$> l) →
  StronglySorted key_lt (key <$> sort_by le l).
Proof.
  intros Htr Htot Hk Hnd. pose proof (sort_by_sorted le Htr Htot l) as Hs. pose proof (sort_by_perm le l) as Hp.
  assert (NoDup (key <$> sort_by le l)) as Hnd' by by rewrite Hp. assert (∀ x, x ∈ sort_by le l → x ∈ l) as Hsub by (intros x; by rewrite Hp).
  clear Hp Hnd. induction Hs as [|x k Hs IH Hx]; [constructor|]. cbn [fmap list_fmap] in *. apply NoDup_cons in Hnd' as [Hn Hnd'].
  constructor; [apply IH; [done|intros; apply Hsub; by right]|]. apply Forall_forall. intros z (y & -> & Hy)%list_elem_of_fmap.
  rewrite Forall_forall in Hx. destruct (Hk x y) as [?|Heq]; [apply Hsub; by left|apply Hsub; by right|by apply Hx|done|].
  destruct Hn. rewrite Heq. apply list_elem_of_fmap. by exists y.
Qed.

Definition opt_is (o : option str) (x : str) : bool := match o with Some y => bool_decide (x = y) | None => true end.

(** The filters on a document. *)
Definition doc_wanted (q : SymbolQuery) (k : dkey) (lang : option str) : bool :=
  opt_is (sq_org q) k.1.1 && opt_is (sq_repo q) k.1.2 && lang_ok (to_ascii_lowercase <$> sq_language q) lang &&
  opt_is (normalize_path <$> sq_file q) k.2.

Section keep.
Context `{Redb tbl} `{Serde} (sha256 : list Z → list Z).
Context (d : Db tbl) (a : gmap dkey Doc) (N : gmap Z Node) (S : gmap Z Stream) (es : list (Z * str)) (next nt : Z).
Hypothesis R : rep sha256 d a N S es next nt.
Hypothesis valid : docs_valid a.
Context (q : SymbolQuery) (keys : option (tbl Z _ _ (list Z))).
Hypothesis keys_of : keys = None ∨ keys = Some (db_file_keys d).

(** The place of a file, and its filters. *)
Definition file_wanted (f : Z) : bool :=
  match path_of N f, N !! f with Some k, Some n => doc_wanted q k (n_language n) | _, _ => false end.
Definition file_key (x : nat * str * Z) : dkey := default ([], [], []) (path_of N x.2).

Lemma keep_file_run slots keyed f n :
  slots_ok N (sq_org q) (sq_repo q) slots → N !! f = Some n → n_kind n = File →
  (∀ x, x ∈ keyed → keyed_by slots.2 (λ x, x.1.1) (λ x, x.1.2) file_key x) →
  ∃ slots' keyed', keep_file d keys q (slots, keyed) f = Ok (slots', keyed') ∧ slots_ok N (sq_org q) (sq_repo q) slots' ∧
    keyed'.*2 = keyed.*2 ++ (if file_wanted f then [f] else []) ∧
    ∀ x, x ∈ keyed' → keyed_by slots'.2 (λ x, x.1.1) (λ x, x.1.2) file_key x.
Proof.
  intros Hs Hn Hk Hkeyed. unfold keep_file.
  destruct (file_row_run sha256 d a N S es next nt R valid keys (to_ascii_lowercase <$> sq_language q) f n keys_of Hn Hk) as (p & Hp & ->).
  cbn [mbind outcome_mbind outcome_bind].
  destruct (file_parents _ _ _ _ _ _ _ (rp_ents _ _ _ _ _ _ _ _ R) Hn Hk) as (p' & rn & o & on & Hp' & Hrn & Hkr & Ho & Hon & _).
  assert (p' = p) as -> by congruence.
  assert (repo_rows N p on rn) as Hrows by (split; [done|]; split; [done|]; by exists o).
  destruct (repo_slot_run sha256 d a N S es next nt R (sq_org q) (sq_repo q) slots p on rn Hs Hrows) as (sl & slots' & -> & Hs' & _ & Hpre & Hsl).
  cbn [mbind outcome_mbind outcome_bind].
  assert (path_of N f = Some (n_name on, n_name rn, n_name n)) as Hpath by (apply path_of_Some; by exists n, p, rn, o, on).
  assert (file_wanted f = negb (refused (sq_org q) (sq_repo q) on rn) && lang_ok (to_ascii_lowercase <$> sq_language q) (n_language n) &&
    opt_is (normalize_path <$> sq_file q) (n_name n)) as Hw.
  { unfold file_wanted. rewrite Hpath, Hn. unfold doc_wanted, refused, opt_is. cbn [fst snd].
    destruct (sq_org q), (sq_repo q); cbn [negb orb]; rewrite ?negb_orb, ?negb_involutive, ?andb_true_r; done. }
  assert (∀ x, x ∈ keyed → keyed_by slots'.2 (λ x, x.1.1) (λ x, x.1.2) file_key x) as Hkeyed'.
  { intros x Hx. destruct (Hkeyed x Hx) as (on' & rn' & Hi & Hkey). exists on', rn'. split; [|done]. by eapply prefix_lookup_Some. }
  destruct sl as [i|].
  - destruct Hsl as [Hr Hi]. rewrite Hr in Hw. cbn [negb andb] in Hw.
    assert ((negb (lang_ok (to_ascii_lowercase <$> sq_language q) (n_language n)) ||
      match normalize_path <$> sq_file q with Some f0 => negb (bool_decide (n_name n = f0)) | None => false end) = negb (file_wanted f)) as ->.
    { rewrite Hw, negb_andb. by destruct (normalize_path <$> sq_file q). }
    destruct (file_wanted f); cbn [negb].
    + eexists _, _. split; [done|]. split; [done|]. split; [by rewrite fmap_app|]. intros x [Hx|Hx]%elem_of_app; [by apply Hkeyed'|].
      apply list_elem_of_singleton in Hx as ->. exists on, rn. split; [done|]. unfold file_key. cbn [snd fst]. by rewrite Hpath.
    + eexists _, _. split; [done|]. split; [done|]. split; [by rewrite app_nil_r|done].
  - rewrite Hsl in Hw. cbn [negb andb] in Hw. rewrite Hw. eexists _, _. split; [done|]. split; [done|]. split; [by rewrite app_nil_r|done].
Qed.

Lemma keep_files_run fids : ∀ slots keyed,
  slots_ok N (sq_org q) (sq_repo q) slots → (∀ f, f ∈ fids → ∃ n, N !! f = Some n ∧ n_kind n = File) →
  (∀ x, x ∈ keyed → keyed_by slots.2 (λ x, x.1.1) (λ x, x.1.2) file_key x) →
  ∃ slots' keyed', try_fold (keep_file d keys q) (slots, keyed) fids = Ok (slots', keyed') ∧ slots_ok N (sq_org q) (sq_repo q) slots' ∧
    keyed'.*2 = keyed.*2 ++ filter (λ f, file_wanted f = true) fids ∧
    ∀ x, x ∈ keyed' → keyed_by slots'.2 (λ x, x.1.1) (λ x, x.1.2) file_key x.
Proof.
  induction fids as [|f fids IH]; intros slots keyed Hs Hf Hk; [exists slots, keyed; split; [done|]; split; [done|]; by rewrite app_nil_r|].
  destruct (Hf f) as (n & Hn & Hkn); [by left|]. cbn [try_fold].
  destruct (keep_file_run slots keyed f n Hs Hn Hkn Hk) as (slots1 & keyed1 & -> & Hs1 & Hx1 & Hk1). cbn [mbind outcome_mbind outcome_bind].
  destruct (IH slots1 keyed1 Hs1 ltac:(intros; apply Hf; by right) Hk1) as (slots2 & keyed2 & -> & Hs2 & Hx2 & Hk2).
  exists slots2, keyed2. split; [done|]. split; [done|]. split; [|done]. rewrite Hx2, Hx1, <- app_assoc. f_equal. rewrite filter_cons.
  destruct (file_wanted f); [by rewrite decide_True|by rewrite decide_False].
Qed.
End keep.
