(* ===== verification/Chains.v ===== *)
(** * Enclosing symbols

    What the walks over parents in [graph-store/src/v2.rs] find in a stored
    file, in terms of its declarations: the symbols around a point, their
    names and nodes, and the position of a symbol's name. *)
From S2P Require Import Prelude Text StrOps Schema Varint Stream StreamRound StreamSafe Ranges Posting DictBlock Table DictRev.
From S2P Require Import Language Walk Prep Located Db Catalog Reader Navigate Nodes Encoding Write Dict Store Content Commit LazySort NameCache Symbols.

Lemma filter_ext_in {A} (P Q : A → Prop) `{∀ x, Decision (P x), ∀ x, Decision (Q x)} (l : list A) :
  (∀ x, x ∈ l → P x ↔ Q x) → filter P l = filter Q l.
Proof.
  induction l as [|x l IH]; intros Hl; [done|]. rewrite !filter_cons. rewrite IH by (intros; apply Hl; by right).
  pose proof (Hl x ltac:(left)). destruct (decide (P x)), (decide (Q x)); tauto.
Qed.

(** Following parents from [cur] meets the symbols [l]. *)
Fixpoint chains (syms : list SymRec) (cur : option Z) (l : list nat) : Prop :=
  match l with
  | [] => cur = None
  | i :: l => cur = Some (Z.of_nat i) ∧ ∃ r, syms !! i = Some r ∧ chains syms (s_parent r) l
  end.

(** The symbols before [k] whose span covers [p], outermost first. *)
Definition around (syms : list SymRec) (k : nat) (p : Z) : list nat := (filter (covers p) (enumerate (take k syms))).*1.

Lemma around_S syms k p r :
  syms !! k = Some r → around syms (S k) p = around syms k p ++ if decide (covers p (k, r)) then [k] else [].
Proof.
  intros Hk. unfold around, enumerate. rewrite (take_S_r _ _ _ Hk), enum_from_app, filter_app, fmap_app. f_equal.
  rewrite length_take_le by (apply lookup_lt_Some in Hk; lia). cbn [enum_from Nat.add]. rewrite filter_cons. by case_decide.
Qed.

Section located.
Context (st : Stream) (L : located st).

(** The symbols around a point of a symbol are around its start. *)
Lemma around_start k r p :
  st_symbols st !! k = Some r → covers p (k, r) → around (st_symbols st) k p = around (st_symbols st) k (start (s_span r)).
Proof.
  intros Hk [H1 H2]. cbn in H1, H2. unfold around. f_equal. apply filter_ext_in.
  intros [j q] [Hj Hlt]%enumerate_elem%lookup_take_Some. unfold covers. cbn [fst snd].
  pose proof (sym_starts st L j k q r ltac:(lia) Hj Hk). destruct (lo_nest _ L j k q r Hlt Hj Hk); lia.
Qed.

Lemma around_chains k : ∀ p, (k ≤ length (st_symbols st))%nat →
  chains (st_symbols st) (innermost (take k (st_symbols st)) p) (reverse (around (st_symbols st) k p)).
Proof.
  induction k as [|k IH]; intros p Hk; [done|]. destruct (lookup_lt_is_Some_2 (st_symbols st) k) as [r Hr]; [lia|].
  rewrite (around_S _ _ _ _ Hr). unfold innermost, enumerate. rewrite (take_S_r _ _ _ Hr), enum_from_app, filter_app.
  rewrite length_take_le by lia. cbn [enum_from Nat.add]. rewrite filter_cons, filter_nil. case_decide as Hc.
  - rewrite reverse_snoc, last_snoc. cbn [fmap option_fmap option_map chains fst]. split; [done|]. exists r. split; [done|].
    rewrite (lo_sym _ L _ _ Hr), (around_start k r p Hr Hc). apply IH. lia.
  - rewrite !app_nil_r. apply IH. lia.
Qed.
End located.

Lemma chains_ext syms syms' l : ∀ cur,
  s_parent <$> syms = s_parent <$> syms' → chains syms cur l → chains syms' cur l.
Proof.
  induction l as [|i l IH]; intros cur Heq; cbn [chains]; [done|]. intros (-> & r & Hr & Hl). split; [done|].
  assert ((s_parent <$> syms') !! i = Some (s_parent r)) as Hi by (rewrite <- Heq, list_lookup_fmap; by rewrite Hr).
  rewrite list_lookup_fmap in Hi. apply fmap_Some in Hi as (r' & Hr' & Hp). exists r'. split; [done|]. rewrite <- Hp. by apply IH.
Qed.

(** ** Declarations *)

(** Symbol [i] of [syms] is the declaration [s]. *)
Definition decl_at (es : list (Z * str)) (syms : list SymRec) (i : nat) (s : SymbolDecl) : Prop :=
  ∃ r, syms !! i = Some r ∧ decl_of_sym es r = Some s.
Definition decl_covers (p : Z) (s : SymbolDecl) : Prop := start (sd_span s) ≤ p ∧ p < end_ (sd_span s).
#[global] Instance decl_covers_dec p s : Decision (decl_covers p s).
Proof. unfold decl_covers. apply _. Defined.
(** The declarations before [k] around [p], outermost first. *)
Definition around_decls (decls : list SymbolDecl) (k : nat) (p : Z) : list SymbolDecl := filter (decl_covers p) (take k decls).

Lemma decl_span es r s : decl_of_sym es r = Some s → sd_span s = s_span r ∧ sd_kind s = s_kind r.
Proof. unfold decl_of_sym. by intros (x & _ & (y & _ & (z & _ & [= <-])%bind_Some)%bind_Some)%bind_Some. Qed.

Lemma decls_at es syms decls i s :
  mapM (decl_of_sym es) syms = Some decls → decls !! i = Some s → decl_at es syms i s.
Proof. intros HF%mapM_Some Hi. destruct (Forall2_lookup_r _ _ _ _ _ HF Hi) as (r & Hr & Hs). by exists r. Qed.

Lemma around_decls_at es syms decls k p :
  mapM (decl_of_sym es) syms = Some decls → (k ≤ length syms)%nat → Forall2 (decl_at es syms) (around syms k p) (around_decls decls k p).
Proof.
  intros Hm. pose proof Hm as HF%mapM_Some. induction k as [|k IH]; intros Hk; [constructor|].
  destruct (lookup_lt_is_Some_2 syms k) as [r Hr]; [lia|]. destruct (Forall2_lookup_l _ _ _ _ _ HF Hr) as (s & Hs & Hd).
  rewrite (around_S _ _ _ _ Hr). unfold around_decls. rewrite (take_S_r _ _ _ Hs), filter_app. apply Forall2_app; [apply IH; lia|].
  rewrite filter_cons. destruct (decl_span _ _ _ Hd) as [Hsp _].
  assert (decl_covers p s ↔ covers p (k, r)) as Hc by (unfold decl_covers, covers; by rewrite Hsp).
  destruct (decide (covers p (k, r))) as [H1|H1], (decide (decl_covers p s)) as [H2|H2]; try tauto; [|constructor].
  constructor; [by exists r|constructor].
Qed.

Section names.
Context `{Redb tbl} `{Serde} (sha256 : list Z → list Z) (d : Db tbl) (es : list (Z * str)) (nt : Z).
Hypothesis D : dict_ok sha256 d es nt.

Lemma opt_text_run o t :
  opt_text es o = Some t → (match o with Some k => x ← text d k; Ok (Some x) | None => Ok None end : result (option str)) = Ok t.
Proof.
  unfold opt_text. destruct o as [k|]; [|by intros [= <-]]. intros (x & Hx & ->)%fmap_Some. by rewrite (text_run _ _ _ _ _ _ D Hx).
Qed.

Lemma sym_node_at file syms i s :
  decl_at es syms i s →
  ∃ n, sym_node d file i syms = Ok n ∧ n_id n = sub_id TAG_SYM file (Z.of_nat i) ∧ n_name n = sd_name s ∧
    n_symbol_kind n = Some (sd_kind s) ∧ n_lang_kind n = sd_lang_kind s ∧ n_span n = Some (sd_span s).
Proof.
  intros (r & Hr & (name & Hn & (lk & Hlk & (ow & _ & [= <-])%bind_Some)%bind_Some)%bind_Some).
  unfold sym_node, index. rewrite Hr. cbn [mbind outcome_mbind outcome_bind]. rewrite (text_run _ _ _ _ _ _ D Hn).
  cbn [mbind outcome_mbind outcome_bind]. rewrite (opt_text_run _ _ Hlk). cbn [mbind outcome_mbind outcome_bind]. by eexists.
Qed.

Lemma qual_chain_run syms l ds : ∀ cur fuel,
  chains syms cur l → Forall2 (decl_at es syms) l ds → (length l ≤ fuel)%nat → qual_chain d fuel syms cur = Ok (sd_name <$> ds).
Proof.
  revert ds. induction l as [|i l IH]; intros ds cur fuel Hc HF Hl; cbn [chains] in Hc.
  { apply Forall2_nil_inv_l in HF as ->. subst cur. by destruct fuel. }
  destruct Hc as (-> & r & Hr & Hc). apply Forall2_cons_inv_l in HF as (s & ds' & (r' & Hr' & Hs) & HF & ->).
  destruct fuel as [|fuel]; [cbn in Hl; lia|]. cbn [qual_chain]. rewrite Nat2Z.id. unfold index. rewrite Hr. cbn [mbind outcome_mbind outcome_bind].
  assert (r' = r) as -> by congruence. destruct (proj1 (bind_Some _ _ _) Hs) as (name & Hn & (lk & _ & (ow & _ & [= <-])%bind_Some)%bind_Some).
  rewrite (text_run _ _ _ _ _ _ D Hn). cbn [mbind outcome_mbind outcome_bind]. rewrite (IH ds' _ fuel Hc HF) by (cbn in Hl; lia). done.
Qed.

(** The nodes met, innermost first. *)
Lemma sym_chain_run file syms l ds : ∀ cur fuel,
  chains syms cur l → Forall2 (decl_at es syms) l ds → (length l ≤ fuel)%nat →
  ∃ ns, sym_chain d fuel file syms cur = Ok ns ∧
    Forall2 (λ n (js : nat * SymbolDecl), n_id n = sub_id TAG_SYM file (Z.of_nat js.1) ∧ n_name n = sd_name js.2 ∧ n_symbol_kind n = Some (sd_kind js.2) ∧
      n_lang_kind n = sd_lang_kind js.2 ∧ n_span n = Some (sd_span js.2)) ns (zip l ds).
Proof.
  revert ds. induction l as [|i l IH]; intros ds cur fuel Hc HF Hl; cbn [chains] in Hc.
  { subst cur. exists []. split; [by destruct fuel|constructor]. }
  destruct Hc as (-> & r & Hr & Hc). apply Forall2_cons_inv_l in HF as (s & ds' & Hat & HF & ->).
  destruct fuel as [|fuel]; [cbn in Hl; lia|]. cbn [sym_chain]. rewrite Nat2Z.id.
  destruct (sym_node_at file syms i s Hat) as (n & -> & Hn). cbn [mbind outcome_mbind outcome_bind]. unfold index. rewrite Hr.
  cbn [mbind outcome_mbind outcome_bind]. destruct (IH ds' _ fuel Hc HF) as (ns & -> & HF'); [cbn in Hl; lia|].
  exists (n :: ns). split; [done|]. constructor; done.
Qed.

(** ** Name positions *)

Definition name_decl (s : SymbolDecl) (t : TokenDecl) : Prop :=
  start (sd_span s) ≤ start (td_span t) ∧ start (td_span t) < end_ (sd_span s) ∧
  td_text t = sd_name s ∧ td_class t = Identifier ∧ end_ (td_span t) ≤ end_ (sd_span s).
#[global] Instance name_decl_dec s t : Decision (name_decl s t).
Proof. unfold name_decl. apply _. Defined.
(** The first identifier inside the declaration that spells its name, or its start. *)
Definition decl_pos (toks : list TokenDecl) (s : SymbolDecl) : Position :=
  default (start_of (sd_span s)) ((λ it : nat * TokenDecl, start_of (td_span it.2)) <$> list_find (name_decl s) toks).

Lemma entry_text_inj k l t : entry_text k es = Some t → entry_text l es = Some t → k = l.
Proof.
  intros Hk Hl. apply entry_text_elem in Hk, Hl; [|by eapply dk_ids..]. pose proof (dk_texts _ _ _ _ D) as Hnd.
  apply list_elem_of_lookup in Hk as [i Hi], Hl as [j Hj].
  assert (es.*2 !! i = Some t) as Hi2 by (rewrite list_lookup_fmap; by rewrite Hi).
  assert (es.*2 !! j = Some t) as Hj2 by (rewrite list_lookup_fmap; by rewrite Hj).
  rewrite (NoDup_lookup _ _ _ _ Hnd Hi2 Hj2) in Hi. congruence.
Qed.

Lemma name_pos_at st toks r s :
  located st → mapM (decl_of_tok es) (st_tokens st) = Some toks → decl_of_sym es r = Some s →
  name_pos (lazy_of st) r = Ok (decl_pos toks s).
Proof.
  intros L Ht Hs. pose proof (lo_wf _ L) as Hwf. rewrite (name_pos_run _ (st_tokens st)).
  - destruct (decl_span _ _ _ Hs) as [Hsp _]. unfold decl_pos. rewrite Hsp. do 2 f_equal.
    apply mapM_Some in Ht. unfold first_name. induction Ht as [|t td ts tds Htd _ IH]; [done|]. cbn [list_find].
    destruct (proj1 (bind_Some _ _ _) Htd) as (x & Hx & [= <-]). destruct (proj1 (bind_Some _ _ _) Hs) as (name & Hn & (lk & _ & (ow & _ & [= <-])%bind_Some)%bind_Some).
    assert (name_token r t ↔ name_decl (mkSymbolDecl name (s_kind r) lk (s_span r) ow) (mkTokenDecl x (t_class t) (t_span t))) as Hiff.
    { unfold name_token, name_decl. cbn. split; intros (? & ? & Hterm & ? & ?); (split_and!; [done|done| |done|done]).
      - rewrite Hterm in Hx. congruence.
      - subst name. by eapply entry_text_inj. }
    destruct (decide (name_token r t)) as [H1|H1], (decide (name_decl _ _)) as [H2|H2]; try tauto.
    destruct (list_find (name_token r) ts) as [[i t1]|], (list_find (name_decl _) tds) as [[j t2]|]; cbn in *; congruence.
  - unfold lazy_of. destruct (compute_ranges _ _). cbn [lz_toks]. by eapply tok_bytes_u8, Hwf.
  - unfold lazy_of. destruct (compute_ranges _ _). cbn [lz_cks lz_ntok]. unfold cks_of. by rewrite length_fmap, length_seq.
  - by apply lazy_tokens_encode.
  - apply L.
Qed.
End names.
