(* ===== verification/SymbolSearch.v ===== *)
(** * Symbol search answers the query

    [search_symbols] against the documents of the store: the hits are the
    declarations of the wanted documents whose name matches the pattern, in the
    order of path, start and qualified name, and a page of them is returned. *)
From S2P Require Import Prelude Text StrOps Schema Varint Stream StreamRound Posting DictBlock Table DictRev.
From S2P Require Import Language Walk Prep Pattern Located Db Catalog Reader Navigate Encoding Write Dict Store Entities Content Ingest.
From S2P Require Import Commit Batch Refine Summary LazySort NameCache Symbols SymbolIds SearchFiles Chains.

(** ** What a query asks for *)

Definition wanted_symbol (q : SymbolQuery) (p : SymbolPattern) (s : SymbolDecl) : bool :=
  (if sq_exact_case q then pattern_matches p (sd_name s) else pattern_matches (folded p) (fold_symbol_name (sd_name s))) &&
  match sq_kind q with
  | Some k => eq_ignore_ascii_case (SymbolKind_as_str (sd_kind s)) k ||
              match sd_lang_kind s with Some l => eq_ignore_ascii_case l k | None => false end
  | None => true
  end.

(** [A::B::name]: the declarations around the start of [s], then [s]. *)
Definition qualified_name (syms : list SymbolDecl) (j : nat) (s : SymbolDecl) : str :=
  join (lit "::") (sd_name <$> around_decls syms j (start (sd_span s)) ++ [s]).

Definition doc_hit (k : dkey) (v : Doc) (j : nat) (s : SymbolDecl) : SymbolHit :=
  mkSymbolHit k.1.1 k.1.2 k.2 (doc_language v) (sd_name s) (qualified_name (ex_symbols (doc_ex v)) j s) (sd_kind s) (sd_lang_kind s)
    (Some (sd_span s)) (Some (decl_pos (ex_tokens (doc_ex v)) s)) (sd_owner s) (fm_encoding (doc_meta v)) (fm_lossy (doc_meta v)).

(** The place of a declaration among a document's hits. *)
Definition hit_key (v : Doc) (js : nat * SymbolDecl) : Z * str * nat :=
  (start (sd_span js.2), qualified_name (ex_symbols (doc_ex v)) js.1 js.2, js.1).
Definition doc_symbols (q : SymbolQuery) (p : SymbolPattern) (v : Doc) : list (nat * SymbolDecl) :=
  sort_by (λ a b, key_le (hit_key v a) (hit_key v b))
    (filter (λ js : nat * SymbolDecl, wanted_symbol q p js.2 = true) (enumerate (ex_symbols (doc_ex v)))).
Definition doc_hits_of (q : SymbolQuery) (p : SymbolPattern) (k : dkey) (v : Doc) : list SymbolHit :=
  (λ js : nat * SymbolDecl, doc_hit k v js.1 js.2) <$> doc_symbols q p v.

(** All hits, by path. *)
Definition symbol_hits (q : SymbolQuery) (p : SymbolPattern) (a : gmap dkey Doc) : list SymbolHit :=
  filter (λ kv : dkey * Doc, doc_wanted q kv.1 (doc_language kv.2) = true) (gmap_rows a) ≫= λ kv, doc_hits_of q p kv.1 kv.2.

Definition page {A} (offset limit : option Z) (l : list A) : list A :=
  let l := match offset with Some o => skip o l | None => l end in
  match limit with Some n => truncate n l | None => l end.

(** ** Lists *)

Lemma sort_by_ext {A} (le1 le2 : A → A → bool) l :
  (∀ x y, x ∈ l → y ∈ l → le1 x y = le2 x y) → sort_by le1 l = sort_by le2 l.
Proof.
  induction l as [|x l IH]; intros Hl; [done|]. cbn. unfold sort_by in IH. rewrite IH by (intros; apply Hl; by right).
  assert (∀ k, (∀ y, y ∈ k → y ∈ l) → insert_by le1 x k = insert_by le2 x k) as Hins.
  { induction k as [|y k IHk]; intros Hk; [done|]. cbn. rewrite (Hl x y) by (by left || (right; apply Hk; by left)).
    rewrite IHk by (intros; apply Hk; by right). done. }
  apply Hins. intros y. change (foldr (insert_by le2) [] l) with (sort_by le2 l). by rewrite sort_by_perm.
Qed.

Lemma truncate_le {A} (n : Z) (l : list A) : Z.of_nat (length l) ≤ n → truncate n l = l.
Proof. intros Hn. unfold truncate. rewrite Z.min_r by lia. rewrite Nat2Z.id. by apply take_ge. Qed.
Lemma truncate_take {A} (n : Z) (l : list A) : 0 ≤ n → truncate n l = take (Z.to_nat n) l.
Proof.
  intros Hn. unfold truncate. destruct (Z.min_spec n (Z.of_nat (length l))) as [[_ ->]|[Hle ->]]; [done|].
  rewrite Nat2Z.id, !take_ge by lia. done.
Qed.
Lemma skip_drop {A} (n : Z) (l : list A) : 0 ≤ n → skip n l = drop (Z.to_nat n) l.
Proof.
  intros Hn. unfold skip. destruct (Z.min_spec n (Z.of_nat (length l))) as [[_ ->]|[Hle ->]]; [done|].
  rewrite Nat2Z.id, !drop_ge by lia. done.
Qed.
Lemma truncate_length {A} (n : Z) (l : list A) : 0 ≤ n → Z.of_nat (length (truncate n l)) = Z.min n (Z.of_nat (length l)).
Proof. intros Hn. unfold truncate. rewrite length_take. lia. Qed.
Lemma truncate_app {A} (n : Z) (l k : list A) : 0 ≤ n → truncate n (truncate n l ++ k) = truncate n (l ++ k).
Proof.
  intros Hn. rewrite !truncate_take by done. destruct (decide (length l ≤ Z.to_nat n)%nat) as [Hl|Hl]; [by rewrite (take_ge l)|].
  rewrite !take_app_le by (rewrite ?length_take; lia). rewrite take_take. f_equal. lia.
Qed.
Lemma truncate_rest {A} (n : Z) (l k : list A) : Z.of_nat (length l) ≤ n → l ++ truncate (n - Z.of_nat (length l)) k = truncate n (l ++ k).
Proof.
  intros Hl. rewrite !truncate_take by lia. rewrite take_app_ge by lia. do 2 f_equal. lia.
Qed.

Lemma truncate_fmap {A B} (g : A → B) (n : Z) (l : list A) : truncate n (g <$> l) = g <$> truncate n l.
Proof. unfold truncate. by rewrite length_fmap, fmap_take. Qed.
Lemma elem_of_take_sub {A} (n : Z) (l : list A) x : x ∈ truncate n l → x ∈ l.
Proof. unfold truncate. intros Hx. rewrite <- (take_drop (Z.to_nat (Z.min n (Z.of_nat (length l)))) l). apply elem_of_app. by left. Qed.

(** Equal from [off] on. *)
Definition agree {A} (off : Z) (l k : list A) : Prop := length l = length k ∧ drop (Z.to_nat off) l = drop (Z.to_nat off) k.
Lemma agree_snoc {A} off (l k : list A) x y :
  agree off l k → (off ≤ Z.of_nat (length l) → x = y) → agree off (l ++ [x]) (k ++ [y]).
Proof.
  intros [Hlen Hd] Hxy. split; [by rewrite !length_app, Hlen|]. destruct (decide (off ≤ Z.of_nat (length l))) as [Hle|Hgt].
  - rewrite (Hxy Hle), !drop_app_le by lia. by rewrite Hd.
  - by rewrite !drop_ge by (rewrite length_app; cbn; lia).
Qed.

Lemma page_agree {A} (offset limit : option Z) (out all : list A) :
  (∀ o, offset = Some o → 0 ≤ o) → (∀ n, limit = Some n → 0 ≤ n) → Z.of_nat (length all) ≤ USIZE_MAX →
  let want := Z.min (default 0 offset + default USIZE_MAX limit) USIZE_MAX in
  agree (default 0 offset) out (truncate want all) → page offset limit (truncate want out) = page offset limit all.
Proof.
  intros Ho Hl Hmax want [Hlen Hd]. assert (0 ≤ default 0 offset) as Hoff by (destruct offset; [by apply Ho|done]).
  assert (0 ≤ want) as Hw by (unfold want; destruct limit as [n|]; [specialize (Hl n eq_refl)|]; cbn; unfold USIZE_MAX; lia).
  assert (truncate want out = out) as -> by (apply truncate_le; rewrite Hlen, truncate_length by done; lia).
  assert (match offset with Some o => skip o out | None => out end = drop (Z.to_nat (default 0 offset)) out) as E1.
  { destruct offset as [o|]; [|done]. apply skip_drop. by apply Ho. }
  assert (match offset with Some o => skip o all | None => all end = drop (Z.to_nat (default 0 offset)) all) as E2.
  { destruct offset as [o|]; [|done]. apply skip_drop. by apply Ho. }
  unfold page. cbv zeta. rewrite E1, E2, Hd. rewrite truncate_take by done. unfold want in *. destruct limit as [n|]; cbn [default from_option id] in *.
  - rewrite !truncate_take by (by apply Hl). specialize (Hl n eq_refl).
    destruct (Z.min_spec (default 0 offset + n) USIZE_MAX) as [[_ E]|[_ E]]; rewrite E in *.
    + generalize dependent (default 0 offset). intros o. intros. rewrite !take_drop_commute, take_take. do 2 f_equal. lia.
    + by rewrite (take_ge all) by lia.
  - rewrite (take_ge all); [done|]. unfold USIZE_MAX in *. lia.
Qed.

(** ** A file's rows *)

Definition name_ok (q : SymbolQuery) (p : SymbolPattern) (s : SymbolDecl) : bool :=
  if sq_exact_case q then pattern_matches p (sd_name s) else pattern_matches (folded p) (fold_symbol_name (sd_name s)).
Definition kind_ok (q : SymbolQuery) (s : SymbolDecl) : bool :=
  match sq_kind q with
  | Some k => eq_ignore_ascii_case (SymbolKind_as_str (sd_kind s)) k ||
              match sd_lang_kind s with Some l => eq_ignore_ascii_case l k | None => false end
  | None => true
  end.

(** A hit before its name is looked up. *)
Definition bare_hit (k : dkey) (v : Doc) (j : nat) (s : SymbolDecl) : SymbolHit :=
  mkSymbolHit k.1.1 k.1.2 k.2 (doc_language v) (sd_name s) (qualified_name (ex_symbols (doc_ex v)) j s) (sd_kind s) (sd_lang_kind s)
    (Some (sd_span s)) None (sd_owner s) (fm_encoding (doc_meta v)) (fm_lossy (doc_meta v)).
Definition row_of (f : Z) (k : dkey) (v : Doc) (js : nat * SymbolDecl) : Z * str * Z * SymbolHit :=
  (start (sd_span js.2), qualified_name (ex_symbols (doc_ex v)) js.1 js.2, sub_id TAG_SYM f (Z.of_nat js.1), bare_hit k v js.1 js.2).

Lemma key_le_mono {A B C} `{EqDecision A} `{KeyOrder A, KeyOrder B, KeyOrder C} (x y : A) (b b' : B) (c c' : C) :
  (key_lt b b' ↔ key_lt c c') → (key_lt b' b ↔ key_lt c' c) → key_le (x, b) (y, b') = key_le (x, c) (y, c').
Proof. intros Hlt Hgt. unfold key_le. apply bool_decide_ext. cbn. unfold prod_lt. cbn. tauto. Qed.

Lemma sub_id_lt f i j : 0 ≤ f ≤ MAX_LOCAL → Z.of_nat i < 2 ^ 32 → Z.of_nat j < 2 ^ 32 →
  sub_id TAG_SYM f (Z.of_nat i) < sub_id TAG_SYM f (Z.of_nat j) ↔ (i < j)%nat.
Proof. intros Hf Hi Hj. unfold TAG_SYM. rewrite !sub_id_sum by (lia || done || (unfold u32; lia)). lia. Qed.

Lemma around_ext syms syms' k p : s_span <$> syms = s_span <$> syms' → around syms k p = around syms' k p.
Proof.
  intros Heq. unfold around, enumerate. assert (s_span <$> take k syms = s_span <$> take k syms') as Heq' by by rewrite !fmap_take, Heq.
  revert Heq'. generalize 0%nat, (take k syms), (take k syms'). intros m l. revert m. clear.
  induction l as [|x l IH]; intros m [|y k] Hl; try done. cbn in Hl. injection Hl as Hx Hl. cbn [enum_from].
  rewrite !filter_cons. assert (covers p (m, x) ↔ covers p (m, y)) as Hc by (unfold covers; cbn; by rewrite Hx).
  specialize (IH (Datatypes.S m) k Hl). destruct (decide (covers p (m, x))), (decide (covers p (m, y))); try tauto; cbn; congruence.
Qed.

Section file.
Context `{Redb tbl} `{Serde} `{Unstable} (sha256 : list Z → list Z).
Context (d : Db tbl) (a : gmap dkey Doc) (N : gmap Z Node) (S : gmap Z Stream) (es : list (Z * str)) (next nt : Z).
Hypothesis R : rep sha256 d a N S es next nt.
Context (q : SymbolQuery) (p : SymbolPattern) (f : Z) (k : dkey) (v : Doc).
Hypothesis entry : entry_at N S es f = Some (k, v).

(** What the stores of [f] hold. *)
Record file_is (n : Node) (on rn : Node) (s : Stream) : Prop := mkFileIs {
  fi_ctx : ctx d f = Ok (mkFileCtx on rn n);
  fi_key : k = (n_name on, n_name rn, n_name n);
  fi_lang : n_language n = doc_language v;
  fi_enc : n_encoding n = fm_encoding (doc_meta v);
  fi_lossy : n_lossy n = fm_lossy (doc_meta v);
  fi_raw : tbl_get (db_streams d) f = Some (encode s);
  fi_loc : located s;
  fi_id : 1 ≤ f ≤ MAX_LOCAL;
  fi_syms : mapM (decl_of_sym es) (st_symbols (with_ranges s)) = Some (ex_symbols (doc_ex v));
  fi_toks : mapM (decl_of_tok es) (st_tokens s) = Some (ex_tokens (doc_ex v));
}.
Lemma file_is_at : ∃ n on rn s, S !! f = Some s ∧ N !! f = Some n ∧ n_kind n = File ∧ file_is n on rn s.
Proof.
  apply entry_at_Some in entry as (n & s & Hp & Hn & Hs & Hv). apply path_of_Some in Hp as (n' & r & rn & o & on & Hn' & Hk & Hr & Hrn & Ho & Hon & Hkey).
  assert (n' = n) as -> by congruence. exists n, on, rn, s. split; [done|]. split; [done|]. split; [done|].
  destruct (co_stream _ _ _ _ _ _ _ _ (rp_content _ _ _ _ _ _ _ _ R) _ _ Hs) as (Hid & L & _).
  destruct (doc_of_fields _ _ _ _ Hv) as (Hm & _ & Hl). unfold doc_of in Hv. apply bind_Some in Hv as (ex & Hex & Hvx). rewrite <- decls_with_ranges in Hex.
  unfold decls_of in Hex. apply bind_Some in Hex as (syms & Hsyms & (toks & Htoks & [= <-])%bind_Some). split.
  - unfold ctx, need. rewrite (node_at sha256 d a N S es next nt R f n Hn). cbn [mbind outcome_mbind outcome_bind ok_or]. rewrite Hr. cbn [mbind outcome_mbind outcome_bind ok_or].
    rewrite (entity_at sha256 d a N S es next nt R r rn Hrn). cbn [mbind outcome_mbind outcome_bind ok_or]. rewrite Ho. cbn [mbind outcome_mbind outcome_bind ok_or].
    by rewrite (entity_at sha256 d a N S es next nt R o on Hon).
  - done.
  - done.
  - by injection Hvx as <-.
  - by injection Hvx as <-.
  - by rewrite tbl_get_spec, (co_streams _ _ _ _ _ _ _ _ (rp_content _ _ _ _ _ _ _ _ R)), lookup_fmap, Hs.
  - done.
  - done.
  - by injection Hvx as <-.
  - by injection Hvx as <-.
Qed.

Section stored.
Context (n on rn : Node) (s : Stream).
Hypothesis F : file_is n on rn s.
Let syms := st_symbols (with_ranges s).
Let decls := ex_symbols (doc_ex v).

Lemma syms_length : length syms = length decls ∧ Z.of_nat (length decls) ≤ 2 ^ 32.
Proof.
  pose proof (fi_syms _ _ _ _ F) as HF%mapM_Some%Forall2_length. fold syms decls in HF. split; [done|]. rewrite <- HF.
  assert (length syms = length (st_symbols s)) as ->.
  { unfold syms. rewrite <- !(length_fmap s_parent). by rewrite with_ranges_fmap. }
  apply (lo_wf _ (fi_loc _ _ _ _ F)).
Qed.

Lemma parents_run j sd :
  decls !! j = Some sd → ∃ r, syms !! j = Some r ∧ decl_of_sym es r = Some sd ∧
    qual_chain d (length syms) syms (s_parent r) = Ok (reverse (sd_name <$> around_decls decls j (start (sd_span sd)))).
Proof.
  intros Hj. destruct (decls_at es syms decls j sd (fi_syms _ _ _ _ F) Hj) as (r & Hr & Hd). exists r. split; [done|]. split; [done|].
  pose proof (fi_loc _ _ _ _ F) as L. destruct (decl_span _ _ _ Hd) as [Hsp _].
  assert (∃ r0, st_symbols s !! j = Some r0 ∧ s_parent r0 = s_parent r ∧ s_span r0 = s_span r) as (r0 & Hr0 & Hp0 & Hs0).
  { pose proof (with_ranges_fmap (λ r, (s_parent r, s_span r)) s ltac:(done)) as Heq. fold syms in Heq.
    assert (((λ r, (s_parent r, s_span r)) <$> st_symbols s) !! j = Some (s_parent r, s_span r)) as Hl by (rewrite <- Heq, list_lookup_fmap; by rewrite Hr).
    rewrite list_lookup_fmap in Hl. apply fmap_Some in Hl as (r0 & Hr0 & [= ? ?]). by exists r0. }
  assert (around syms j (start (s_span r)) = around (st_symbols s) j (start (s_span r))) as Har by (apply around_ext; unfold syms; by rewrite with_ranges_fmap).
  rewrite <- fmap_reverse. apply (qual_chain_run sha256 d es nt (rp_dict _ _ _ _ _ _ _ _ R) syms (reverse (around syms j (start (s_span r))))).
  - rewrite Har, <- Hp0, (lo_sym _ L _ _ Hr0), Hs0. apply (chains_ext (st_symbols s)); [unfold syms; by rewrite with_ranges_fmap|].
    apply around_chains; [done|]. apply lookup_lt_Some in Hr0. lia.
  - apply Forall2_reverse. rewrite Hsp. apply (around_decls_at es syms decls); [exact (fi_syms _ _ _ _ F)|]. apply lookup_lt_Some in Hr. lia.
  - rewrite length_reverse. unfold around, enumerate. rewrite length_fmap. etrans; [apply length_filter|].
    rewrite length_enum_from, length_take. apply lookup_lt_Some in Hr. lia.
Qed.
Lemma symbol_row_run j sd :
  decls !! j = Some sd →
  symbol_row d q (mkFileCtx on rn n) f syms (Z.of_nat j) = Ok (if kind_ok q sd then Some (row_of f k v (j, sd)) else None).
Proof.
  intros Hj. destruct (parents_run j sd Hj) as (r & Hr & Hd & Hq). unfold symbol_row. rewrite Nat2Z.id.
  assert ((length syms <=? j)%nat = false) as -> by (apply Nat.leb_gt; by eapply lookup_lt_Some).
  destruct (sym_node_at sha256 d es nt (rp_dict _ _ _ _ _ _ _ _ R) f syms j sd) as (m & -> & Hid & Hname & Hkind & Hlk & Hspan); [by exists r|].
  cbn [mbind outcome_mbind outcome_bind]. destruct (decl_span _ _ _ Hd) as [Hsp _].
  assert (match sq_kind q with Some k => negb (kind_matches m k) | None => false end = negb (kind_ok q sd)) as ->.
  { unfold kind_ok, kind_matches. rewrite Hkind, Hlk. by destruct (sq_kind q). }
  destruct (kind_ok q sd); [|done]. cbn [negb]. unfold index. rewrite Hr. cbn [mbind outcome_mbind outcome_bind]. rewrite Hq.
  cbn [mbind outcome_mbind outcome_bind]. assert (opt_text es (s_owner r) = Some (sd_owner sd)) as Ho.
  { by destruct (proj1 (bind_Some _ _ _) Hd) as (x & _ & (lk & _ & (ow & Ho & [= <-])%bind_Some)%bind_Some). }
  rewrite (opt_text_run sha256 d es nt (rp_dict _ _ _ _ _ _ _ _ R) _ _ Ho). cbn [mbind outcome_mbind outcome_bind].
  unfold row_of, bare_hit, qualified_name. cbn [fst snd fx_org fx_repo fx_file].
  rewrite Hname, Hkind, Hlk, Hspan, <- Hsp, (fi_key _ _ _ _ F), (fi_lang _ _ _ _ F), (fi_enc _ _ _ _ F), (fi_lossy _ _ _ _ F).
  cbn [fst snd default from_option id]. rewrite reverse_cons, reverse_involutive, fmap_app. done.
Qed.

Lemma rows_run (l : list (nat * SymbolDecl)) :
  (∀ js, js ∈ l → decls !! js.1 = Some js.2) →
  ∃ rows, collect (symbol_row d q (mkFileCtx on rn n) f syms) ((λ js : nat * SymbolDecl, Z.of_nat js.1) <$> l) = Ok rows ∧
    omap id rows = row_of f k v <$> filter (λ js : nat * SymbolDecl, kind_ok q js.2 = true) l.
Proof.
  induction l as [|[j sd] l IH]; intros Hl; [by exists []|]. destruct IH as (rows & Hc & Ho); [intros; apply Hl; by right|].
  cbn [fmap list_fmap collect fst]. rewrite (symbol_row_run j sd) by (apply (Hl (j, sd)); by left). cbn [mbind outcome_mbind outcome_bind].
  rewrite Hc. eexists. split; [done|]. rewrite filter_cons. cbn [omap list_omap snd]. destruct (kind_ok q sd); cbn [id]; rewrite Ho.
  - by rewrite decide_True.
  - by rewrite decide_False.
Qed.

Lemma push_rows_run (off : Z) (l : list (nat * SymbolDecl)) : ∀ out out',
  (∀ js, js ∈ l → decls !! js.1 = Some js.2) → agree off out out' →
  ∃ res, push_rows off (lazy_of s) syms out (row_of f k v <$> l) = Ok res ∧
    agree off res (out' ++ ((λ js : nat * SymbolDecl, doc_hit k v js.1 js.2) <$> l)).
Proof.
  induction l as [|[j sd] l IH]; intros out out' Hl Ha; [exists out; by rewrite app_nil_r|].
  cbn [fmap list_fmap push_rows row_of fst snd]. pose proof (Hl (j, sd) ltac:(left)) as Hj. cbn [fst snd] in Hj.
  destruct (decls_at es syms decls j sd (fi_syms _ _ _ _ F) Hj) as (r & Hr & Hd). destruct syms_length as [_ Hmax].
  assert (∃ h, (if off <=? Z.of_nat (length out) then
      let '(_, _, i) := split_id (sub_id TAG_SYM f (Z.of_nat j)) in
      s1 ← index syms (Z.to_nat i); p ← name_pos (lazy_of s) s1; Ok (set_name_pos p (bare_hit k v j sd))
    else Ok (bare_hit k v j sd)) = (Ok h : result SymbolHit) ∧ (off ≤ Z.of_nat (length out) → h = doc_hit k v j sd)) as (h & Heq & Hh).
  { destruct (off <=? Z.of_nat (length out)) eqn:E; bool_prop; [|eexists; split; [done|lia]].
    pose proof (fi_id _ _ _ _ F) as Hf. apply lookup_lt_Some in Hj.
    destruct (sub_id_run TAG_SYM f (Z.of_nat j)) as [_ ->]; [unfold TAG_SYM; lia|lia|unfold u32; lia|]. rewrite Nat2Z.id.
    unfold index. rewrite Hr. cbn [mbind outcome_mbind outcome_bind].
    rewrite (name_pos_at sha256 d es nt (rp_dict _ _ _ _ _ _ _ _ R) s _ r sd (fi_loc _ _ _ _ F) (fi_toks _ _ _ _ F) Hd).
    cbn [mbind outcome_mbind outcome_bind]. by eexists. }
  rewrite Heq. cbn [mbind outcome_mbind outcome_bind]. destruct (IH (out ++ [h]) (out' ++ [doc_hit k v j sd])) as (res & Hres & Hag).
  - intros js Hjs. apply Hl. by right.
  - by apply agree_snoc.
  - exists res. split; [done|]. by rewrite <- app_assoc in Hag.
Qed.
Lemma rows_in_order :
  sort_by row_key_le (row_of f k v <$> filter (λ js : nat * SymbolDecl, kind_ok q js.2 = true)
    (filter (λ js : nat * SymbolDecl, name_ok q p js.2 = true) (enumerate decls))) = row_of f k v <$> doc_symbols q p v.
Proof.
  rewrite list_filter_filter.
  rewrite (list_filter_iff _ (λ js : nat * SymbolDecl, wanted_symbol q p js.2 = true)).
  2: { intros [j sd]. cbn. change (wanted_symbol q p sd) with (name_ok q p sd && kind_ok q sd). rewrite andb_true_iff. tauto. }
  rewrite sort_by_fmap. f_equal.
  apply sort_by_ext. intros [i x] [j y] Hi Hj. apply list_elem_of_filter in Hi as [_ Hi%enumerate_elem], Hj as [_ Hj%enumerate_elem].
  apply lookup_lt_Some in Hi, Hj. destruct syms_length as [_ Hmax]. pose proof (fi_id _ _ _ _ F) as Hf. fold decls in Hi, Hj.
  unfold row_key_le, row_of, hit_key. cbn [fst snd]. apply key_le_mono; cbn; apply sub_id_lt; lia.
Qed.

Lemma walk_file_run (files : gmap Z (list Z)) (want : Z) (out out' : list SymbolHit) :
  files !! f = Some ((λ js : nat * SymbolDecl, Z.of_nat js.1) <$> filter (λ js : nat * SymbolDecl, name_ok q p js.2 = true) (enumerate decls)) →
  Z.of_nat (length out) ≤ want → agree (default 0 (sq_offset q)) out out' →
  ∃ res, walk_file d q files want out f = Ok res ∧ agree (default 0 (sq_offset q)) res (truncate want (out' ++ doc_hits_of q p k v)).
Proof.
  intros Hfiles Hlen Ha. unfold walk_file. rewrite (fi_ctx _ _ _ _ F). cbn [mbind outcome_mbind outcome_bind]. rewrite (fi_raw _ _ _ _ F).
  pose proof (lo_wf _ (fi_loc _ _ _ _ F)) as Hwf. rewrite decode_lazy_encode by done. cbn [mbind outcome_mbind outcome_bind].
  rewrite lazy_symbols_encode by done. cbn [mbind outcome_mbind outcome_bind]. rewrite Hfiles. cbn [unwrap mbind outcome_mbind outcome_bind]. fold syms.
  destruct (rows_run (filter (λ js : nat * SymbolDecl, name_ok q p js.2 = true) (enumerate decls))) as (rows & -> & Ho).
  { intros [j sd] [_ ?%enumerate_elem]%list_elem_of_filter. done. }
  cbn [mbind outcome_mbind outcome_bind]. rewrite Ho, rows_in_order, truncate_fmap.
  destruct (push_rows_run (default 0 (sq_offset q)) (truncate (want - Z.of_nat (length out)) (doc_symbols q p v)) out out') as (res & -> & Hag); [|done|].
  { intros [j sd] Hjs. assert ((j, sd) ∈ doc_symbols q p v) as Hin by (by eapply elem_of_take_sub). unfold doc_symbols in Hin. rewrite sort_by_perm in Hin.
    by apply list_elem_of_filter in Hin as [_ ?%enumerate_elem]. }
  exists res. split; [done|]. rewrite <- truncate_fmap in Hag. rewrite (proj1 Ha) in Hlen, Hag. by rewrite truncate_rest in Hag.
Qed.
End stored.
End file.

(** ** The walk over the files *)

Lemma truncate_full {A} (n : Z) (l k : list A) : 0 ≤ n → n ≤ Z.of_nat (length (truncate n l)) → truncate n (l ++ k) = truncate n l.
Proof. intros Hn Hl. rewrite truncate_length in Hl by done. rewrite !truncate_take by done. apply take_app_le. lia. Qed.

Lemma file_le_key rank x y :
  file_le rank x y = key_le (default 0%nat (rank !! x.1.1), x.1.2, x.2) (default 0%nat (rank !! y.1.1), y.1.2, y.2).
Proof. by destruct x as [[? ?] ?], y as [[? ?] ?]. Qed.
Lemma file_le_total rank x y : file_le rank x y = true ∨ file_le rank y x = true.
Proof. rewrite !file_le_key. apply key_le_total. Qed.
Lemma file_le_trans rank x y z : file_le rank x y = true → file_le rank y z = true → file_le rank x z = true.
Proof. rewrite !file_le_key. apply key_le_trans. Qed.

#[local] Instance Z_lt_anti : AntiSymm (=) Z.lt.
Proof. intros x y. lia. Qed.

Section walk.
Context `{Redb tbl} `{Serde} `{Unstable} (sha256 : list Z → list Z).
Context (d : Db tbl) (a : gmap dkey Doc) (N : gmap Z Node) (S : gmap Z Stream) (es : list (Z * str)) (next nt : Z).
Hypothesis R : rep sha256 d a N S es next nt.
Context (q : SymbolQuery) (p : SymbolPattern) (files : gmap Z (list Z)).

Definition name_idxs (v : Doc) : list Z :=
  (λ js : nat * SymbolDecl, Z.of_nat js.1) <$> filter (λ js : nat * SymbolDecl, name_ok q p js.2 = true) (enumerate (ex_symbols (doc_ex v))).
Definition file_hits (x : nat * str * Z) : list SymbolHit :=
  match entry_at N S es x.2 with Some kv => doc_hits_of q p kv.1 kv.2 | None => [] end.

Lemma walk_files_run rank want items : 0 ≤ want → ∀ fuel order out out',
  lazy_is (file_le rank) order items →
  (∀ x, x ∈ items → ∃ kv, entry_at N S es x.2 = Some kv ∧ files !! x.2 = Some (name_idxs kv.2)) →
  agree (default 0 (sq_offset q)) out (truncate want out') → (length items < fuel)%nat →
  ∃ res, walk_files d fuel rank q files want order out = Ok res ∧
    agree (default 0 (sq_offset q)) res (truncate want (out' ++ (items ≫= file_hits))).
Proof.
  intros Hw. induction items as [|x items IH]; intros fuel order out out' Hz Hx Ha Hf; (destruct fuel as [|fuel]; [cbn in Hf; lia|]); cbn [walk_files];
    (destruct (want <=? Z.of_nat (length out)) eqn:E; bool_prop;
     [exists out; split; [done|]; rewrite truncate_full by (done || by rewrite <- (proj1 Ha)); done|]).
  - destruct (lazy_end (file_le rank) (file_le_total rank) (file_le_trans rank) _ Hz) as [s ->]. cbn [mbind outcome_mbind outcome_bind]. exists out. by rewrite app_nil_r.
  - destruct (lazy_next (file_le rank) (file_le_total rank) (file_le_trans rank) _ _ _ Hz) as (s & -> & Hz'). cbn [mbind outcome_mbind outcome_bind].
    destruct (Hx x ltac:(left)) as ([k v] & He & Hi). destruct x as [[sl nm] f]. cbn [snd] in *.
    destruct (file_is_at sha256 d a N S es next nt R f k v He) as (n & on & rn & st & _ & _ & _ & F).
    destruct (walk_file_run sha256 d a N S es next nt R q p f k v n on rn st F files want out (truncate want out') Hi) as (out1 & -> & Ha1); [lia|done|].
    cbn [mbind outcome_mbind outcome_bind]. rewrite truncate_app in Ha1 by done.
    destruct (IH fuel s out1 (out' ++ doc_hits_of q p k v) Hz') as (res & -> & Hres); [intros; apply Hx; by right|done|cbn in Hf; lia|].
    exists res. split; [done|]. rewrite bind_cons. unfold file_hits at 1. cbn [snd]. rewrite He. by rewrite app_assoc.
Qed.
(** ** The index rows of the documents *)

(** [id] is the id of a declaration of a document whose name is as wanted. *)
Definition name_hit (id : Z) : Prop :=
  ∃ f kv j sd, entry_at N S es f = Some kv ∧ ex_symbols (doc_ex kv.2) !! j = Some sd ∧ name_ok q p sd = true ∧ id = sub_id TAG_SYM f (Z.of_nat j).

Lemma entry_syms f k v :
  entry_at N S es f = Some (k, v) → ∃ s, S !! f = Some s ∧ mapM (decl_of_sym es) (st_symbols s) = Some (ex_symbols (doc_ex v)) ∧
    1 ≤ f ≤ MAX_LOCAL ∧ Z.of_nat (length (ex_symbols (doc_ex v))) ≤ 2 ^ 32.
Proof.
  intros (n & s & _ & _ & Hs & Hv)%entry_at_Some. exists s. split; [done|].
  destruct (co_stream _ _ _ _ _ _ _ _ (rp_content _ _ _ _ _ _ _ _ R) _ _ Hs) as (Hid & L & _).
  unfold doc_of, decls_of in Hv. apply bind_Some in Hv as (ex & (syms & Hsyms & (toks & _ & [= <-])%bind_Some)%bind_Some & [= <-]).
  split; [done|]. split; [done|]. cbn. apply mapM_Some, Forall2_length in Hsyms. rewrite <- Hsyms. apply (lo_wf _ L).
Qed.

Lemma sym_at_decl name id :
  sym_at S es name id ↔ ∃ f kv j sd, entry_at N S es f = Some kv ∧ ex_symbols (doc_ex kv.2) !! j = Some sd ∧ sd_name sd = name ∧
    id = sub_id TAG_SYM f (Z.of_nat j).
Proof.
  split.
  - intros (f & s & i & r & Hs & Hr & -> & Hname). destruct (proj1 (rp_link _ _ _ _ _ _ _ _ R f)) as (n & Hn & Hk); [by eexists|].
    destruct (rep_file _ _ _ _ _ _ _ _ _ _ R Hn Hk) as (s' & v & k & Hs' & Hv & Hp & _). assert (s' = s) as -> by congruence.
    assert (entry_at N S es f = Some (k, v)) as He by (apply entry_at_Some; by exists n, s).
    destruct (entry_syms f k v He) as (s1 & Hs1 & HF%mapM_Some & _). assert (s1 = s) as -> by congruence.
    destruct (Forall2_lookup_l _ _ _ _ _ HF Hr) as (sd & Hsd & Hd). exists f, (k, v), i, sd. split_and!; try done.
    by destruct (proj1 (bind_Some _ _ _) Hd) as (x & Hx & (lk & _ & (ow & _ & [= <-])%bind_Some)%bind_Some); simplify_eq.
  - intros (f & [k v] & j & sd & He & Hj & <- & ->). destruct (entry_syms f k v He) as (s & Hs & Hm & _).
    destruct (decls_at _ _ _ _ _ Hm Hj) as (r & Hr & Hd). exists f, s, j, r. split_and!; try done.
    by destruct (proj1 (bind_Some _ _ _) Hd) as (x & Hx & (lk & _ & (ow & _ & [= <-])%bind_Some)%bind_Some).
Qed.

Lemma index_names index pattern id :
  choose_index d (Some (db_sym_fold d)) q p = Ok (index, pattern) → index_hits index pattern id ↔ name_hit id.
Proof.
  unfold choose_index, index_hits, name_hit, name_ok. pose proof (rp_content _ _ _ _ _ _ _ _ R) as C. destruct (sq_exact_case q); intros [= <- <-].
  - setoid_rewrite (co_idx _ _ _ _ _ _ _ _ C). setoid_rewrite sym_at_decl. split.
    + intros (k & (f & kv & j & sd & He & Hj & <- & ->) & Hp). by exists f, kv, j, sd.
    + intros (f & kv & j & sd & He & Hj & Hp & ->). exists (sd_name sd). split; [|done]. by exists f, kv, j, sd.
  - setoid_rewrite (co_fold _ _ _ _ _ _ _ _ C). setoid_rewrite sym_at_decl. split.
    + intros (k & (name & -> & f & kv & j & sd & He & Hj & <- & ->) & Hp). by exists f, kv, j, sd.
    + intros (f & kv & j & sd & He & Hj & Hp & ->). exists (fold_symbol_name (sd_name sd)). split; [|done].
      exists (sd_name sd). split; [done|]. by exists f, kv, j, sd.
Qed.
Lemma name_idxs_elem v i : i ∈ name_idxs v ↔ ∃ j sd, i = Z.of_nat j ∧ ex_symbols (doc_ex v) !! j = Some sd ∧ name_ok q p sd = true.
Proof.
  unfold name_idxs. rewrite list_elem_of_fmap. split.
  - intros ([j sd] & -> & [Hn Hj%enumerate_elem]%list_elem_of_filter). by exists j, sd.
  - intros (j & sd & -> & Hj & Hn). exists (j, sd). split; [done|]. apply list_elem_of_filter. split; [done|]. by apply enumerate_elem.
Qed.
Lemma name_idxs_sorted v : StronglySorted Z.lt (name_idxs v).
Proof.
  unfold name_idxs, enumerate. generalize (ex_symbols (doc_ex v)) as l, 0%nat. induction l as [|x l IH]; intros m; cbn [enum_from]; [constructor|].
  rewrite filter_cons. case_decide; [|apply IH]. cbn [fmap list_fmap]. constructor; [apply IH|]. apply Forall_forall.
  intros i ([j y] & -> & [_ [Hj _]%elem_of_enum_from]%list_elem_of_filter)%list_elem_of_fmap. cbn in *. lia.
Qed.

Lemma no_names_no_hits k v : name_idxs v = [] → doc_hits_of q p k v = [].
Proof.
  intros Hnil. unfold doc_hits_of, doc_symbols. destruct (filter _ _) as [|[j sd] l] eqn:E; [done|].
  assert (Z.of_nat j ∈ name_idxs v) as Hin; [|rewrite Hnil in Hin; by apply elem_of_nil in Hin].
  assert ((j, sd) ∈ (j, sd) :: l) as Hj by left. rewrite <- E in Hj. apply list_elem_of_filter in Hj as [Hw Hj%enumerate_elem].
  apply name_idxs_elem. exists j, sd. split; [done|]. split; [done|]. by apply andb_true_iff in Hw as [? _].
Qed.

Section ids.
Context (ids : list Z).
Hypothesis ids_sorted : StronglySorted Z.lt ids.
Hypothesis ids_hits : ∀ id, id ∈ ids ↔ name_hit id.

Lemma hit_split id : name_hit id → u64 id ∧ ∃ f kv j sd, entry_at N S es f = Some kv ∧ ex_symbols (doc_ex kv.2) !! j = Some sd ∧
  name_ok q p sd = true ∧ split_id id = (TAG_SYM, f, Z.of_nat j).
Proof.
  intros (f & [k v] & j & sd & He & Hj & Hn & ->). destruct (entry_syms f k v He) as (_ & _ & _ & Hf & Hmax). cbn [snd] in Hj.
  pose proof (lookup_lt_Some _ _ _ Hj) as Hl. destruct (sub_id_run TAG_SYM f (Z.of_nat j)) as [Hu Hs]; [unfold TAG_SYM; lia|lia|unfold u32; lia|].
  split; [done|]. by exists f, (k, v), j, sd.
Qed.

Lemma idxs_of_entry f kv : entry_at N S es f = Some kv → idxs_of f ids = name_idxs kv.2.
Proof.
  intros He. assert (Forall u64 ids) as Hu by (apply Forall_forall; intros id Hid%ids_hits; by apply hit_split).
  pose proof (idxs_sorted f ids Hu ids_sorted) as H1s. pose proof (name_idxs_sorted kv.2) as H2s.
  apply (StronglySorted_unique Z.lt); [done|done|]. apply NoDup_Permutation; [by apply key_sorted_NoDup|by apply key_sorted_NoDup|].
  intros i. rewrite name_idxs_elem. unfold idxs_of. rewrite list_elem_of_omap. split.
  - intros (id & Hid & Hi). apply ids_hits, hit_split in Hid as (_ & g & kv' & j & sd & He' & Hj & Hn & Hs).
    unfold idx_of in Hi. rewrite Hs in Hi. case_decide as Hd; [|done]. destruct Hd as [_ ->]. injection Hi as <-.
    assert (kv' = kv) as -> by congruence. by exists j, sd.
  - intros (j & sd & -> & Hj & Hn). exists (sub_id TAG_SYM f (Z.of_nat j)). split; [apply ids_hits; by exists f, kv, j, sd|].
    destruct kv as [k v]. destruct (entry_syms f k v He) as (_ & _ & _ & Hf & Hmax). cbn [snd] in Hj. pose proof (lookup_lt_Some _ _ _ Hj) as Hl.
    unfold idx_of. destruct (sub_id_run TAG_SYM f (Z.of_nat j)) as [_ ->]; [unfold TAG_SYM; lia|lia|unfold u32; lia|]. by rewrite decide_True.
Qed.

Lemma files_entry f : is_Some (by_file ids !! f) ↔ ∃ kv, entry_at N S es f = Some kv ∧ name_idxs kv.2 ≠ [].
Proof.
  rewrite by_file_lookup. split.
  - case_decide as Hd; [by intros []|]. intros _. destruct (idxs_of f ids) as [|i l] eqn:E; [done|].
    assert (i ∈ idxs_of f ids) as Hi by (rewrite E; by left). unfold idxs_of in Hi. apply list_elem_of_omap in Hi as (id & Hid & Hi).
    apply ids_hits, hit_split in Hid as (_ & g & kv & j & sd & He & Hj & Hn & Hs). unfold idx_of in Hi. rewrite Hs in Hi.
    case_decide as Hd'; [|done]. destruct Hd' as [_ ->]. exists kv. split; [done|]. by rewrite <- (idxs_of_entry f kv He), E.
  - intros (kv & He & Hne). rewrite (idxs_of_entry f kv He), decide_False by done. by eexists.
Qed.
Lemma files_at f kv : entry_at N S es f = Some kv → name_idxs kv.2 ≠ [] → by_file ids !! f = Some (name_idxs kv.2).
Proof. intros He Hne. by rewrite by_file_lookup, (idxs_of_entry f kv He), decide_False. Qed.
End ids.
End walk.

(** ** The files in order *)

Lemma bind_filter {A B} (P : A → Prop) `{∀ x, Decision (P x)} (h : A → list B) l :
  (∀ x, x ∈ l → ¬ P x → h x = []) → filter P l ≫= h = l ≫= h.
Proof.
  induction l as [|x l IH]; intros Hl; [done|]. rewrite filter_cons, bind_cons, <- IH by (intros; apply Hl; [by right|done]).
  case_decide as Hx; [by rewrite bind_cons|]. by rewrite (Hl x) by (done || left).
Qed.

Lemma bounded_length (l : list Z) m : NoDup l → (∀ x, x ∈ l → 1 ≤ x ≤ m) → Z.of_nat (length l) ≤ Z.max 0 m.
Proof.
  intros Hnd Hl. assert (l ⊆+ seqZ 1 m) as Hs%submseteq_length.
  { apply NoDup_submseteq; [done|]. intros x Hx. apply elem_of_seqZ. specialize (Hl x Hx). lia. }
  rewrite length_seqZ in Hs. lia.
Qed.
Lemma bind_length {A B} (h : A → list B) l m : 0 ≤ m → (∀ x, x ∈ l → Z.of_nat (length (h x)) ≤ m) → Z.of_nat (length (l ≫= h)) ≤ Z.of_nat (length l) * m.
Proof.
  intros Hm. induction l as [|x l IH]; intros Hl; [cbn; lia|]. rewrite bind_cons, length_app. cbn [length].
  pose proof (Hl x ltac:(left)). specialize (IH ltac:(intros; apply Hl; by right)). lia.
Qed.
Lemma snd_inj {A B} (l : list (A * B)) x y : NoDup l.*2 → x ∈ l → y ∈ l → x.2 = y.2 → x = y.
Proof.
  intros Hnd [i Hi]%list_elem_of_lookup [j Hj]%list_elem_of_lookup Heq.
  assert (l.*2 !! i = Some x.2) as Hi2 by (rewrite list_lookup_fmap; by rewrite Hi).
  assert (l.*2 !! j = Some x.2) as Hj2 by (rewrite list_lookup_fmap, Heq; by rewrite Hj).
  rewrite (NoDup_lookup _ _ _ _ Hnd Hi2 Hj2) in Hi. congruence.
Qed.

Section order.
Context `{Redb tbl} `{Serde} `{Unstable} (sha256 : list Z → list Z).
Context (d : Db tbl) (a : gmap dkey Doc) (N : gmap Z Node) (S : gmap Z Stream) (es : list (Z * str)) (next nt : Z).
Hypothesis R : rep sha256 d a N S es next nt.
Context (q : SymbolQuery) (p : SymbolPattern).

(** The candidates the search keeps: a row per wanted document that has a name. *)
Context (slots : gmap Z (option nat) * list (Node * Node)) (keyed : list (nat * str * Z)).
Hypothesis slots_fine : slots_ok N (sq_org q) (sq_repo q) slots.
Hypothesis keyed_nodup : NoDup keyed.*2.
Hypothesis keyed_elem : ∀ f, f ∈ keyed.*2 ↔ file_wanted N q f = true ∧ ∃ kv, entry_at N S es f = Some kv ∧ name_idxs q p kv.2 ≠ [].
Hypothesis keyed_names : ∀ x, x ∈ keyed → keyed_by slots.2 (λ x, x.1.1) (λ x, x.1.2) (file_key N) x.

Lemma keyed_entry x : x ∈ keyed → ∃ v, entry_at N S es x.2 = Some (file_key N x, v) ∧ name_idxs q p v ≠ [] ∧ doc_wanted q (file_key N x) (doc_language v) = true.
Proof.
  intros Hx. assert (x.2 ∈ keyed.*2) as Hin by (apply list_elem_of_fmap; by exists x). apply keyed_elem in Hin as (Hw & [k v] & He & Hne).
  exists v. pose proof He as He'. apply entry_at_Some in He as (n & s & Hp & Hn & Hs & Hv). unfold file_key. rewrite Hp. cbn [default from_option id].
  split; [done|]. split; [done|]. unfold file_wanted in Hw. rewrite Hp, Hn in Hw. by destruct (doc_of_fields _ _ _ _ Hv) as (_ & _ & ->).
Qed.

Lemma keys_nodup : NoDup (file_key N <$> keyed).
Proof.
  apply NoDup_fmap_2_strong; [|by eapply NoDup_fmap_1]. intros x y Hx Hy Heq. apply (snd_inj keyed); [done..|].
  destruct (keyed_entry x Hx) as (v & He & _), (keyed_entry y Hy) as (w & Hf & _). rewrite Heq in He.
  apply entry_at_Some in He as (? & ? & Hp & _), Hf as (? & ? & Hp' & _). by eapply path_unique; [apply R|..].
Qed.

Let rank := ranks slots.2.
Let items := sort_by (file_le rank) keyed.

Lemma items_lazy : lazy_is (file_le rank) (LazySorted_new keyed) items.
Proof.
  apply lazy_new; [apply file_le_total|apply file_le_trans|]. intros x y Hx Hy. rewrite !file_le_key. intros Hle Hge.
  pose proof (key_le_anti _ _ Hle Hge) as [= _ _ Heq]. by apply (snd_inj keyed).
Qed.

Lemma items_sorted : StronglySorted key_lt (file_key N <$> items).
Proof.
  apply sorted_keys; [apply file_le_trans|apply file_le_total| |apply keys_nodup]. intros x y Hx Hy. rewrite file_le_key. intros Hle.
  apply (rank_key slots.2 (λ x, x.1.1) (λ x, x.1.2)); [|by apply keyed_names..|].
  - intros i j Hi Hj Hk. destruct (lookup_lt_is_Some_2 _ _ Hi) as [u Hu], (lookup_lt_is_Some_2 _ _ Hj) as [w Hw].
    unfold slot_key in Hk. rewrite Hu, Hw in Hk. injection Hk as Ho Hr. by eapply (slots_inj sha256 d a N S es next nt R).
  - apply key_le_true in Hle. apply key_le_true. cbn in *. unfold prod_lt in *. cbn in *. fold rank. destruct Hle as [[Hle|[[= ? ?] _]]|[= ? ? ?]]; [by left|right; congruence..].
Qed.

Lemma items_hits : items ≫= file_hits N S es q p = symbol_hits q p a.
Proof.
  pose (docs := omap (λ x : nat * str * Z, entry_at N S es x.2) items).
  assert (∀ x, x ∈ items → x ∈ keyed) as Hsub by (intros x; unfold items; by rewrite sort_by_perm).
  assert (items ≫= file_hits N S es q p = docs ≫= λ kv, doc_hits_of q p kv.1 kv.2) as ->.
  { unfold docs. clear -keyed_elem Hsub. induction items as [|x l IH]; [done|]. rewrite bind_cons, IH by (intros; apply Hsub; by right).
    unfold file_hits. cbn [omap list_omap]. by destruct (entry_at N S es x.2). }
  assert (docs.*1 = file_key N <$> items) as Hdocs.
  { unfold docs. revert Hsub. generalize items. intros l Hsub. induction l as [|x l IH]; [done|]. cbn [omap list_omap].
    destruct (keyed_entry x) as (v & -> & _); [apply Hsub; by left|]. cbn. by rewrite IH by (intros; apply Hsub; by right). }
  unfold symbol_hits. rewrite <- (bind_filter (λ kv : dkey * Doc, name_idxs q p kv.2 ≠ []) _ (filter _ (gmap_rows a))).
  - rewrite list_filter_filter. f_equal. apply rows_eq; [rewrite Hdocs; apply items_sorted|apply filter_rows_sorted, gmap_rows_sorted|].
    intros [k v]. rewrite list_elem_of_filter, gmap_rows_elem. unfold docs. rewrite list_elem_of_omap. cbn [fst snd].
    rewrite (rp_docs _ _ _ _ _ _ _ _ R k v). split.
    + intros (x & Hx & He). destruct (keyed_entry x (Hsub x Hx)) as (w & He' & Hne & Hw). rewrite He in He'. injection He' as -> ->. eauto.
    + intros ((Hne & Hw) & f & He). assert (f ∈ keyed.*2) as (x & -> & Hx)%list_elem_of_fmap; [|exists x; unfold items; by rewrite sort_by_perm].
      apply keyed_elem. split; [|by exists (k, v)]. unfold file_wanted. apply entry_at_Some in He as (n & s & -> & -> & _ & Hv).
      by destruct (doc_of_fields _ _ _ _ Hv) as (_ & _ & <-).
  - intros [k v] _ Hnil%dec_stable. cbn [fst snd] in *. by apply no_names_no_hits.
Qed.
Lemma hits_bound : Z.of_nat (length (symbol_hits q p a)) ≤ USIZE_MAX.
Proof.
  rewrite <- items_hits. etrans; [apply (bind_length _ _ (2 ^ 32)); [done|]|].
  - intros x Hx. unfold items in Hx. rewrite sort_by_perm in Hx. destruct (keyed_entry x Hx) as (v & He & _). unfold file_hits. rewrite He. cbn [fst snd].
    destruct (entry_syms sha256 d a N S es next nt R _ _ _ He) as (_ & _ & _ & _ & Hmax). unfold doc_hits_of, doc_symbols.
    rewrite length_fmap, sort_by_perm. etrans; [|exact Hmax]. apply Nat2Z.inj_le. etrans; [apply length_filter|]. unfold enumerate. by rewrite length_enum_from.
  - assert (Z.of_nat (length keyed.*2) ≤ Z.max 0 MAX_LOCAL) as Hl.
    { apply bounded_length; [done|]. intros f Hf. apply keyed_elem in Hf as (_ & [k v] & He & _).
      by destruct (entry_syms sha256 d a N S es next nt R _ _ _ He) as (_ & _ & _ & ? & _). }
    unfold items. rewrite sort_by_perm. rewrite length_fmap in Hl. change (Z.max 0 MAX_LOCAL) with (2 ^ 30 - 1) in Hl. unfold USIZE_MAX. lia.
Qed.
End order.

Section search.
Context `{Redb tbl} `{Serde} `{Unstable} (sha256 : list Z → list Z).

Lemma kept_files (d : Db tbl) a N S es next nt q p keys ids :
  rep sha256 d a N S es next nt → docs_valid a → keys = None ∨ keys = Some (db_file_keys d) →
  StronglySorted Z.lt ids → (∀ id, id ∈ ids ↔ name_hit N S es q p id) →
  ∃ slots keyed, try_fold (keep_file d keys q) (∅, [], []) (gmap_rows (by_file ids)).*1 = Ok (slots, keyed) ∧
    slots_ok N (sq_org q) (sq_repo q) slots ∧ NoDup keyed.*2 ∧
    (∀ f, f ∈ keyed.*2 ↔ file_wanted N q f = true ∧ ∃ kv, entry_at N S es f = Some kv ∧ name_idxs q p kv.2 ≠ []) ∧
    ∀ x, x ∈ keyed → keyed_by slots.2 (λ x, x.1.1) (λ x, x.1.2) (file_key N) x.
Proof.
  intros R Hv Hkeys Hs Hids. set (fids := (gmap_rows (by_file ids)).*1).
  assert (∀ f, f ∈ fids ↔ ∃ kv, entry_at N S es f = Some kv ∧ name_idxs q p kv.2 ≠ []) as Hfids.
  { intros f. rewrite <- (files_entry sha256 d a N S es next nt R q p ids Hs Hids f). unfold fids. rewrite list_elem_of_fmap. split.
    - intros ([g l] & -> & Hin%gmap_rows_elem). by exists l.
    - intros [l Hl]. exists (f, l). split; [done|]. by apply gmap_rows_elem. }
  assert (slots_ok N (sq_org q) (sq_repo q) (∅, [])) as Hs0 by (split; cbn; [intros ? ? Hx; by rewrite lookup_empty in Hx|done]).
  destruct (keep_files_run sha256 d a N S es next nt R Hv q keys Hkeys fids (∅, []) [] Hs0) as (slots & keyed & Hrun & Hok & Hx & Hk).
  { intros f (kv & He & _)%Hfids. destruct kv as [k v]. apply entry_at_Some in He as (n & s & (n' & _ & _ & _ & _ & Hn' & Hkn & _)%path_of_Some & _). by exists n'. }
  { by intros x ?%elem_of_nil. }
  cbn [fmap list_fmap app] in Hx. exists slots, keyed. split; [done|]. split; [done|]. rewrite Hx. split; [|split; [|done]].
  - apply NoDup_filter, key_sorted_NoDup, gmap_rows_sorted.
  - intros f. by rewrite list_elem_of_filter, Hfids.
Qed.

Lemma search_symbols_run (d : Db tbl) a q p keys names :
  stores sha256 d a → docs_valid a → (∀ o, sq_offset q = Some o → 0 ≤ o) → (∀ n, sq_limit q = Some n → 0 ≤ n) →
  keys = None ∨ keys = Some (db_file_keys d) →
  caches_hold (if sq_exact_case q then db_sym_idx d else db_sym_fold d) (sq_exact_case q) names →
  empty_filter q = None → parse_symbol_pattern (sq_pattern q) = Ok p →
  ∃ c, search_symbols d (Some (db_sym_fold d)) keys q names = Ok (page (sq_offset q) (sq_limit q) (symbol_hits q p a), c).
Proof.
  intros (N & S & es & next & nt & R) Hv Ho Hl Hkeys Hc He Hp. unfold search_symbols. rewrite He, Hp. cbn [mbind outcome_mbind outcome_bind].
  assert (choose_index d (Some (db_sym_fold d)) q p =
    Ok (if sq_exact_case q then db_sym_idx d else db_sym_fold d, if sq_exact_case q then p else folded p)) as Hch.
  { unfold choose_index. by destruct (sq_exact_case q). }
  rewrite Hch. cbn [mbind outcome_mbind outcome_bind].
  destruct (index_ids_run _ (sq_exact_case q) (if sq_exact_case q then p else folded p) names Hc) as (ids & c & -> & Hids).
  cbn [mbind outcome_mbind outcome_bind]. exists c. destruct (dedup_run (sort_unstable Z.leb ids)) as [Hs Hd].
  { apply sort_unstable_sorted; intros; bool_prop; lia. }
  set (ids' := dedup (sort_unstable Z.leb ids)) in *.
  assert (∀ id, id ∈ ids' ↔ name_hit N S es q p id) as Hhit.
  { intros id. rewrite Hd, sort_unstable_perm, Hids. by apply (index_names sha256 d a N S es next nt R). }
  destruct (kept_files d a N S es next nt q p keys ids' R Hv Hkeys Hs Hhit) as (slots & keyed & -> & Hok & Hnd & Hel & Hk).
  cbn [mbind outcome_mbind outcome_bind]. set (want := Z.min _ USIZE_MAX).
  assert (0 ≤ want) as Hw.
  { unfold want. destruct (sq_offset q) as [o|], (sq_limit q) as [m|]; cbn; try specialize (Ho _ eq_refl); try specialize (Hl _ eq_refl); unfold USIZE_MAX; lia. }
  destruct (walk_files_run sha256 d a N S es next nt R q p (by_file ids') (ranks slots.2) want (sort_by (file_le (ranks slots.2)) keyed) Hw
    (Datatypes.S (length keyed)) (LazySorted_new keyed) [] []) as (out & -> & Hag).
  - by apply items_lazy.
  - intros x Hx. rewrite sort_by_perm in Hx. destruct (keyed_entry N S es q p keyed Hel x Hx) as (v & Hx' & Hne & _).
    exists (file_key N x, v). split; [done|]. by apply (files_at sha256 d a N S es next nt R q p ids').
  - unfold truncate. by rewrite take_nil.
  - rewrite sort_by_perm. lia.
  - cbn [mbind outcome_mbind outcome_bind app] in *. rewrite (items_hits sha256 d a N S es next nt R q p slots keyed Hok Hnd Hel Hk) in Hag.
    do 2 f_equal. apply page_agree; [done|done| |done]. by eapply (hits_bound sha256 d a N S es next nt R q p).
Qed.

(** C18: a symbol search of a store that holds the documents [a] answers the
    query: every declaration of a document within the query's organisation,
    repository, language and file whose name matches the pattern and whose kind
    is the one asked for is a hit, and nothing else is; hits come in the order
    of organisation, repository, path, start and qualified name, each with the
    position of its name, and the page of the offset and the limit is
    returned. An empty filter and a malformed pattern are refused. The answer
    does not depend on the name caches nor on the row index of the files. *)
Theorem search_symbols_exact (d : Db tbl) a q keys names :
  stores sha256 d a → docs_valid a → (∀ o, sq_offset q = Some o → 0 ≤ o) → (∀ n, sq_limit q = Some n → 0 ≤ n) →
  keys = None ∨ keys = Some (db_file_keys d) →
  caches_hold (if sq_exact_case q then db_sym_idx d else db_sym_fold d) (sq_exact_case q) names →
  ∃ c, search_symbols d (Some (db_sym_fold d)) keys q names =
    match empty_filter q with
    | Some what => Err (Rejected (lit "empty " ++ lit what ++ lit " filter"))
    | None => p ← parse_symbol_pattern (sq_pattern q); Ok (page (sq_offset q) (sq_limit q) (symbol_hits q p a), c)
    end.
Proof.
  intros Hd Hv Ho Hl Hk Hc. destruct (empty_filter q) as [what|] eqn:E; [exists None; unfold search_symbols; by rewrite E|].
  destruct (parse_symbol_pattern (sq_pattern q)) as [p|e|] eqn:Ep; [by apply search_symbols_run|exists None; unfold search_symbols; by rewrite E, Ep..].
Qed.
End search.

Module Found.
Definition query : SymbolQuery := mkSymbolQuery (lit "*") None (Some (lit "RUST")) (Some (lit "o")) None None (Some 1) (Some 1) false.
Lemma valid : docs_valid Sample.docs.
Proof.
  intros k v Hk. unfold Sample.docs in Hk. apply lookup_singleton_Some in Hk as [<- <-]. split; [apply (bool_decide_unpack _); by vm_compute|].
  intros l [= <-]. apply (bool_decide_unpack _). by vm_compute.
Qed.
End Found.
#[local] Existing Instance gmap_redb.
#[local] Existing Instance coded_serde.
#[local] Existing Instance stable_unstable.
Lemma search_symbols_exact_witness :
  ∃ c h, search_symbols Sample.store (Some (db_sym_fold Sample.store)) (Some (db_file_keys Sample.store)) Found.query None = Ok ([h], c) ∧
    sh_file h = lit "src/a.rs".
Proof.
  destruct (search_symbols_exact Sample.sha Sample.store Sample.docs Found.query (Some (db_file_keys Sample.store)) None Sample.stored Found.valid)
    as (c & Hs); [intros o [= <-]; lia|intros n [= <-]; lia|by right|done|]. exists c. eexists. rewrite Hs. split; [vm_compute; exact eq_refl|].
  exact eq_refl.
Defined.
