(* ===== verification/History.v ===== *)
(** * Every store holds documents

    The writes of [V2Store] ([graph-store/src/v2.rs]) as a step relation on
    the committed database, whatever a write returned: a batch that stopped on
    the way is a step too. Every database that writes lead to from an empty one
    represents a map of documents, so what is proved of such stores holds of
    every store the program makes. *)
From S2P Require Import Prelude Text StrOps Schema Varint Stream StreamRound Posting DictBlock Table DictRev.
From S2P Require Import Language Walk Prep Located Db Catalog Reader Write Dict Store Entities Content Ingest Prune.
From S2P Require Import Vacuum Commit Marked Batch Encoding Prepare Refine.

Section history.
Context (sha256 : list Z → list Z) (is_alphabetic is_numeric : Z → bool) `{EncodingRs} `{Redb tbl} `{Serde}.
Context (hook : RaftMarker → result unit).
Implicit Types (d wt db : Db tbl) (registry : Registry) (opts : IndexOptions).

Definition is_store d : Prop := ∃ a, stores sha256 d a.

(** ** What may be written *)

(** An extraction of at most [W] distinct terms. *)
Definition ex_fits (W : nat) (ex : Extraction) : Prop := small_ex ex ∧ texts_ok ex ∧ (term_count ex ≤ W)%nat.
Definition file_fits (W : nat) registry (p : PreparedFile) : Prop :=
  meta_ok (FileMeta_of p) ∧
  match work_of is_alphabetic is_numeric registry p with
  | Ok (PExtracted ex, _) => ex_fits W ex ∧ spans_ok ex ∧ default (V2Prep_build ex) (pf_v2 p) = V2Prep_build ex
  | _ => True
  end.
(** A raw file whose text the registry's extractor turns into one that fits. *)
Definition raw_fits (W : nat) registry opts (f : BatchFile) : Prop :=
  named (bf_encoding f) ∧ named (io_encoding opts) ∧
  ∀ src lang fp enc lossy ex w, head_of sha256 registry f opts = inr (src, lang, fp, enc, lossy) →
    extract_checked is_alphabetic is_numeric registry (normalize_path (bf_path f)) lang src = Ok (PExtracted ex, w) → ex_fits W ex.

Inductive write_step (d : Db tbl) : Db tbl → Prop :=
  | w_ingest org repo path language ex origin stats d' :
      small_ex ex → texts_ok ex → term_room d ex →
      ingest_file_with_origin sha256 d org repo path language ex origin = Ok (stats, d') → write_step d d'
  | w_index_bytes W registry org repo path bytes language origin opts stats d' :
      raw_fits W registry opts (mkBatchFile path bytes language origin (io_encoding opts) (io_strict_encoding opts)) → terms_fit d W →
      index_bytes_opts sha256 is_alphabetic is_numeric d registry org repo path bytes language origin opts = Ok (stats, d') → write_step d d'
  | w_index_batch W registry chunk_bytes org repo files opts r d' :
      Forall (raw_fits W registry opts) files → terms_fit d (length files * W) →
      index_batch sha256 is_alphabetic is_numeric hook d registry chunk_bytes org repo files opts = (d', r) → write_step d d'
  | w_index_prepared W registry chunk_bytes org repo files opts r d' :
      Forall (file_fits W registry) files → terms_fit d (length files * W) →
      index_prepared_counted sha256 is_alphabetic is_numeric hook d registry chunk_bytes org repo files opts = (d', r) → write_step d d'
  | w_prune org repo keep dry_run removed d' :
      prune_files d org repo keep dry_run = Ok (removed, d') → write_step d d'
  | w_vacuum stats d' : no_collisions sha256 d → vacuum sha256 d = Ok (stats, d') → write_step d d'
  | w_index_marked W registry org repo files opts marker membership r d' :
      Forall (file_fits W registry) files → terms_fit d (length files * W) →
      index_prepared_marked sha256 is_alphabetic is_numeric hook d registry org repo files opts marker membership = (d', r) → write_step d d'
  | w_prune_marked org repo keep marker membership removed d' :
      prune_files_marked hook d org repo keep marker membership = Ok (removed, d') → write_step d d'
  | w_vacuum_marked marker membership stats d' :
      no_collisions sha256 d → vacuum_marked sha256 hook d marker membership = Ok (stats, d') → write_step d d'
  | w_ingest_marked org repo path language ex origin marker membership stats d' :
      small_ex ex → texts_ok ex → term_room d ex →
      ingest_file_marked sha256 hook d org repo path language ex origin marker membership = Ok (stats, d') → write_step d d'
  | w_mark_only marker membership d' : mark_only hook d marker membership = Ok d' → write_step d d'
  | w_clear_raft : write_step d (clear_raft_state d).

(** The stores that writes make of an empty one. *)
Definition reachable : Db tbl → Prop := rtc write_step db_empty.

(** ** Single writes *)

Lemma terms_meta d g h n :
  tbl_map (g (db_meta d)) !! lit "next_term" = tbl_map (db_meta d) !! lit "next_term" →
  terms_fit d n → terms_fit (upd_open_batch h (upd_meta g d)) n.
Proof. intros He. unfold terms_fit. rewrite !tbl_get_spec. cbn [upd_open_batch upd_meta db_meta db_dict]. by rewrite He. Qed.
Lemma terms_mono d d' n m : db_meta d' = db_meta d → db_dict d' = db_dict d → (m ≤ n)%nat → terms_fit d n → terms_fit d' m.
Proof. unfold terms_fit. intros -> ->. lia. Qed.

Lemma terms_fit_by d n :
  (default 0 (tbl_get (db_meta d) (lit "next_term")) + Z.of_nat n <? 2 ^ 64) && (tbl_len (db_dict d) + Z.of_nat n <? 2 ^ 32) = true → terms_fit d n.
Proof. intros [?%Z.ltb_lt ?%Z.ltb_lt]%andb_true_iff. by split. Qed.

(** The raft table is no part of what a store holds. *)
Lemma raft_store d g : is_store d → is_store (upd_raft_sm g d).
Proof. intros (a & N & S & es & next & nt & []). exists a, N, S, es, next, nt. split; try done. by eapply (dict_ok_frame sha256 d). Qed.
Lemma stamp_store d m mem wt : is_store d → stamp_marker d m mem = Ok wt → is_store wt ∧ db_meta wt = db_meta d ∧ db_dict wt = db_dict d ∧ db_rev wt = db_rev d.
Proof.
  intros Hd Hs. unfold stamp_marker in Hs. apply bind_Ok in Hs as (u & _ & [= <-]). destruct mem; (split; [|done]); by repeat apply raft_store.
Qed.

Lemma ingest_store d W n org repo path language ex meta v2 stats d' :
  is_store d → ex_fits W ex → spans_ok ex → meta_ok meta → default (V2Prep_build ex) v2 = V2Prep_build ex → terms_fit d (W + n) →
  ingest_prepped sha256 d org repo path language ex meta v2 = Ok (stats, d') → is_store d' ∧ terms_fit d' n.
Proof.
  intros [a Ha] (Hsm & Htx & HW) Hsp Hme Hv2 Hfit Hi.
  destruct (ingest_guard_cases org repo language ex) as [[Hg _]|[[m Hg] _]]; [|unfold ingest_prepped in Hi; by rewrite Hg in Hi].
  destruct (ingest_total sha256 d a org repo path language ex meta v2 Ha Hg Hsm Hsp Htx Hme) as [[He _]|(file & d1 & He & Hs & _ & Hn)]; try done.
  - eapply (terms_mono d d _ (term_count ex)) in Hfit; [exact Hfit|done|done|lia].
  - by rewrite He in Hi.
  - rewrite He in Hi. injection Hi as _ <-. split; [by eexists|]. apply Hn. eapply (terms_mono d d); [done|done| |exact Hfit]. lia.
Qed.

Lemma checked_store d org repo path lang fp origin r d' :
  is_store d → check_unchanged d org repo path lang fp origin = Ok (r, d') → is_store d' ∧ db_meta d' = db_meta d ∧ db_dict d' = db_dict d.
Proof.
  intros [a Ha] Hc. pose proof (check_unchanged_run sha256 d a org repo path lang fp origin Ha) as Hr.
  destruct (a !! _) as [v|]; [case_decide|].
  - destruct Hr as (file & d1 & Hc1 & Hd1 & Hm). rewrite Hc in Hc1. injection Hc1 as -> ->. split; [by eexists|done].
  - rewrite Hc in Hr. injection Hr as -> ->. split; [by eexists|done].
  - rewrite Hc in Hr. injection Hr as -> ->. split; [by eexists|done].
Qed.

(** ** Batches *)

Lemma commit_store d W n registry org repo p opts r d' :
  is_store d → file_fits W registry p → terms_fit d (W + n) →
  commit_prepared sha256 is_alphabetic is_numeric d registry org repo p opts = Ok (r, d') → is_store d' ∧ terms_fit d' n.
Proof.
  intros Hd [Hme Hp] Hfit Hc. unfold commit_prepared in Hc. destruct (negb _ || negb _); [done|].
  assert (is_store d ∧ terms_fit d n) as Hsame by (split; [done|]; eapply (terms_mono d d); [done|done| |exact Hfit]; lia).
  assert (∀ k, ('(unchanged, d) ← (if io_reindex opts then Ok (None, d) else
      check_unchanged d org repo (pf_path p) (pf_language p) (pf_fingerprint p) (pf_origin p)); k unchanged d) = Ok (r, d') →
    ∃ un d1, is_store d1 ∧ terms_fit d1 (W + n) ∧ k un d1 = Ok (r, d')) as Hcheck.
  { intros k Hk. destruct (io_reindex opts); [by exists None, d|]. apply bind_Ok in Hk as ([un d1] & Hun & Hk).
    destruct (checked_store _ _ _ _ _ _ _ _ _ Hd Hun) as (H1s & Hm & Hdi). exists un, d1. split; [done|]. split; [|done]. by eapply terms_mono. }
  assert (∀ d1, is_store d1 → terms_fit d1 (W + n) → is_store d1 ∧ terms_fit d1 n) as Hless.
  { intros d1 ? ?. split; [done|]. eapply (terms_mono d1 d1); [done|done| |done]. lia. }
  unfold work_of in Hp. destruct (pf_work p) as [src|ex|e|b]; [| |by injection Hc as _ <-|by injection Hc as _ <-];
    apply Hcheck in Hc as (un & d1 & Hd1 & Hf1 & Hc); (destruct un as [[s dirty]|]; [injection Hc as _ <-; by apply Hless|]).
  - apply bind_Ok in Hc as ([w warn] & Hx & Hc). rewrite Hx in Hp. destruct w as [|ex|e|]; try done; [|injection Hc as _ <-; by apply Hless].
    apply bind_Ok in Hc as ([st d2] & Hi & [= _ <-]). destruct Hp as (Hex & Hsp & Hv2). by eapply ingest_store.
  - cbn [mbind outcome_mbind outcome_bind] in Hc. apply bind_Ok in Hc as ([st d2] & Hi & [= _ <-]). destruct Hp as (Hex & Hsp & Hv2). by eapply ingest_store.
Qed.

(** Every file [next] gives fits, and giving it changes no more than a row of a file. *)
Definition next_fits (W : nat) registry (next : Db tbl → nat → result (PreparedFile * Db tbl)) : Prop :=
  ∀ wt i p wt', is_store wt → next wt i = Ok (p, wt') →
    is_store wt' ∧ db_meta wt' = db_meta wt ∧ db_dict wt' = db_dict wt ∧ file_fits W registry p.

Lemma mark_store bid org repo d n : is_store d → terms_fit d n → is_store (mark_open_batch bid org repo d) ∧ terms_fit (mark_open_batch bid org repo d) n.
Proof.
  intros [a Ha] Hf. split; [exists a; by apply (mark_run sha256 bid org repo d a 0 0)|].
  apply (terms_meta d (tbl_insert (lit "open_batch_id") bid) (λ t, tbl_insert (lit "repo") repo (tbl_insert (lit "org") org t))); [|done].
  by rewrite tbl_insert_spec, lookup_insert_ne.
Qed.

Lemma batch_loop_store W registry org repo opts chunk bid next n :
  next_fits W registry next → ∀ i db wt txn out c,
  is_store db → is_store wt → terms_fit wt (n * W) →
  let '(db', r) := batch_loop sha256 is_alphabetic is_numeric registry org repo opts chunk bid next n i db wt txn out c in
  is_store db' ∧ match r with Ok (wt', _, _) => is_store wt' | _ => True end.
Proof.
  intros Hnext. induction n as [|n IH]; intros i db wt txn out c Hdb Hwt Hfit; [done|]. cbn [batch_loop].
  destruct (next wt i) as [[p wt1]|e|] eqn:En; [|done|done]. cbn [mbind outcome_mbind outcome_bind].
  destruct (Hnext wt i p wt1 Hwt En) as (Hwt1 & Hm & Hdi & Hp).
  destruct (commit_prepared _ _ _ wt1 _ _ _ _ _) as [[r wt2]|e|] eqn:Ec; [|done|done]. cbn [mbind outcome_mbind outcome_bind].
  destruct (commit_store wt1 W (n * W) registry org repo p opts r wt2 Hwt1 Hp) as [Hwt2 Hf2]; [by eapply terms_mono|done|].
  destruct (negb _); [by apply IH|]. destruct (chunk <=? _); [|by apply IH].
  destruct (mark_store bid org repo wt2 (n * W) Hwt2 Hf2). by apply IH.
Qed.

Lemma batch_store W d registry org repo n opts chunk marker next d' r :
  next_fits W registry next → is_store d → terms_fit d (n * W) →
  commit_each_counted sha256 is_alphabetic is_numeric hook d registry org repo n opts chunk marker next = (d', r) → is_store d'.
Proof.
  intros Hnext Hd Hfit. unfold commit_each_counted.
  set (stamped := match marker with Some (m, membership) => stamp_marker d m membership | None => Ok d end).
  destruct stamped as [wt|e|] eqn:Es; [|by intros [= <- _]|by intros [= <- _]].
  assert (is_store wt ∧ terms_fit wt (n * W)) as [Hwt Hfw].
  { unfold stamped in Es. destruct marker as [[m mem]|]; [|by injection Es as <-].
    destruct (stamp_store _ _ _ _ Hd Es) as (? & ? & ? & _). split; [done|]. by eapply terms_mono. }
  assert (is_store (next_batch_id wt).2 ∧ terms_fit (next_batch_id wt).2 (n * W)) as [Hw1 Hf1].
  { split; [destruct Hwt as [a Ha]; exists a; by apply (batch_id_run sha256 wt a 0 0)|].
    apply (terms_meta wt (tbl_insert (lit "next_batch_id") _) (λ t, t)); [|done]. by rewrite tbl_insert_spec, lookup_insert_ne. }
  destruct (next_batch_id wt) as [bid wt1]. cbn [snd] in *. destruct (mark_store bid org repo wt1 _ Hw1 Hf1) as [Hw2 Hf2].
  pose proof (λ ch, batch_loop_store W registry org repo opts ch bid next n Hnext 0 d _ 0 [] 0 Hd Hw2 Hf2) as Hloop.
  set (ch := match marker with Some _ => USIZE_MAX | None => chunk end). specialize (Hloop ch).
  destruct (batch_loop _ _ _ _ _ _ _ ch _ _ _ _ _ _ _ _ _) as [db [[[wt3 out] c]|e|]]; destruct Hloop as [Hdb Hw3];
    [|by intros [= <- _]|by intros [= <- _]].
  destruct (match marker with Some (m, _) => hook m | None => Ok () end) as [u|e|]; intros [= <- _]; [|done|done].
  destruct Hw3 as [a Ha]. exists a. by apply clear_run.
Qed.

Lemma nth_file_fits W registry files : Forall (file_fits W registry) files → next_fits W registry (nth_file files).
Proof.
  intros HF wt i p wt' Hwt Hn. unfold nth_file in Hn. apply bind_Ok in Hn as (q & Hq & [= <- <-]). split; [done|]. split; [done|]. split; [done|].
  unfold index in Hq. destruct (files !! i) as [x|] eqn:Hi; [|done]. injection Hq as <-. by eapply Forall_lookup_1.
Qed.

(** ** Raw files *)

(** A file that was prepared by this registry's extractors. *)
Lemma prepared_fits {St} W registry org repo f opts u (s s' : St) p :
  raw_fits W registry opts f → prepare_file sha256 is_alphabetic is_numeric registry org repo f opts u s = Ok (p, s') → file_fits W registry p.
Proof.
  intros (Hf & Ho & Hx). rewrite prepare_file_eq. destruct (head_of sha256 registry f opts) as [e|[[[[src lang] fp] enc] lossy]] eqn:Eh; [by intros [= <- _]|].
  intros Hp. apply bind_Ok in Hp as ([same s1] & _ & Hp). apply bind_Ok in Hp as (ww & Hww & [= <- _]). split.
  - exact (head_named _ _ _ _ _ _ _ _ _ Hf Ho Eh).
  - destruct (full_file_work _ _ registry org repo f lang fp enc lossy src same ww Hww) as [-> _].
    destruct (extract_checked _ _ _ _ _ _) as [[[|ex| |] w]| |] eqn:Ex; try done.
    split; [by eapply Hx|]. split; [by eapply extract_spans|]. done.
Qed.

Lemma next_file_fits W registry org repo files opts :
  Forall (raw_fits W registry opts) files → next_fits W registry (next_file sha256 is_alphabetic is_numeric registry org repo files opts).
Proof.
  intros HF wt i p wt' Hwt Hn. unfold next_file in Hn. apply bind_Ok in Hn as (f & Hf & Hn).
  assert (raw_fits W registry opts f) as Hnf by (unfold index in Hf; destruct (files !! i) as [x|] eqn:Hi; [|done]; injection Hf as <-; by eapply Forall_lookup_1 in HF).
  pose proof (prepared_fits W registry org repo f opts _ _ _ _ Hnf Hn) as Hp. rewrite prepare_file_eq in Hn.
  destruct (head_of sha256 registry f opts) as [e|[[[[src lang] fp] enc] lossy]]; [by injection Hn as _ <-|].
  apply bind_Ok in Hn as ([same wt1] & Hc & Hn). apply bind_Ok in Hn as (ww & _ & [= _ <-]).
  destruct (io_reindex opts); [by injection Hc as _ <-|]. unfold check_in in Hc. apply bind_Ok in Hc as ([r wt2] & Hc & [= _ <-]).
  by destruct (checked_store _ _ _ _ _ _ _ _ _ Hwt Hc) as (? & ? & ?).
Qed.

Lemma index_bytes_store W d registry org repo path bytes language origin opts stats d' :
  raw_fits W registry opts (mkBatchFile path bytes language origin (io_encoding opts) (io_strict_encoding opts)) → is_store d → terms_fit d W →
  index_bytes_opts sha256 is_alphabetic is_numeric d registry org repo path bytes language origin opts = Ok (stats, d') → is_store d'.
Proof.
  set (f := mkBatchFile _ _ _ _ _ _). intros Hraw Hd Hfit Hi. unfold index_bytes_opts in Hi. fold f in Hi. apply bind_Ok in Hi as ([p [wt un]] & Hp & Hi).
  pose proof (prepared_fits W registry org repo f opts _ _ _ _ Hraw Hp) as [Hme Hpf]. rewrite prepare_file_eq in Hp.
  assert (is_store wt ∧ terms_fit wt W) as [Hwt Hfw].
  { destruct (head_of sha256 registry f opts) as [e|[[[[src lang] fp] enc] lossy]]; [by injection Hp as _ <- _|].
    apply bind_Ok in Hp as ([same [wt1 un1]] & Hc & Hp). apply bind_Ok in Hp as (ww & _ & [= _ <- _]).
    destruct (io_reindex opts); [by injection Hc as _ <- _|]. unfold check_keep in Hc. apply bind_Ok in Hc as ([r wt2] & Hc & [= _ <- _]).
    destruct (checked_store _ _ _ _ _ _ _ _ _ Hd Hc) as (? & ? & ?). split; [done|]. by eapply terms_mono. }
  unfold work_of in Hpf. destruct (pf_work p) as [src|ex|e|b]; [| |by destruct e|done].
  - apply bind_Ok in Hi as ([st dirty] & _ & [= _ <-]). by destruct dirty.
  - apply bind_Ok in Hi as ([st d2] & Hi & [= _ <-]). destruct Hpf as (Hex & Hsp & _).
    eapply (ingest_store wt W 0); [done|done|done|done| |by rewrite Nat.add_0_r|exact Hi]. done.
Qed.

Lemma vacuum_store d stats b d' :
  (∀ x, Forall u8 (sha256 x)) → is_store d → no_collisions sha256 d → vacuum_in sha256 d = Ok (stats, b, d') → is_store d'.
Proof.
  intros Hsha [a Ha] Hnc Hv. destruct (vacuum_run sha256 Hsha d a Ha Hnc) as (stats' & d1 & Hr & Hd1 & _).
  unfold vacuum in Hr. rewrite Hv in Hr. cbn [mbind outcome_mbind outcome_bind] in Hr. injection Hr as _ <-. destruct b; [|by exists a].
  unfold vacuum_in in Hv. apply bind_Ok in Hv as (live & _ & Hv). apply bind_Ok in Hv as (all & _ & Hv). apply bind_Ok in Hv as (d2 & Hf & [= _ Hb <-]).
  apply bool_decide_eq_true in Hb. rewrite Hb in *. injection Hf as <-. by exists a.
Qed.

(** ** Every write *)

Lemma step_store d d' : (∀ x, Forall u8 (sha256 x)) → is_store d → write_step d d' → is_store d'.
Proof.
  intros Hsha Hd Hs. destruct Hs as
    [org repo path language ex origin stats d' Hsm Htx Hfit Hr|W registry org repo path bytes language origin opts stats d' Hraw Hfit Hr
    |W registry chunk org repo files opts r d' HF Hfit Hr|W registry chunk org repo files opts r d' Hx Hfit Hr
    |org repo keep dry removed d' Hr|stats d' Hnc Hr|W registry org repo files opts m mem r d' Hx Hfit Hr
    |org repo keep m mem removed d' Hr|m mem stats d' Hnc Hr|org repo path language ex origin m mem stats d' Hsm Htx Hfit Hr|m mem d' Hr|].
  - unfold ingest_file_with_origin in Hr. destruct (validate_spans_cases ex) as [[Hsp Hv]|[_ [msg Hv]]]; rewrite Hv in Hr; [|done].
    by eapply (ingest_store d (term_count ex) 0); [..|exact Hr]; rewrite ?Nat.add_0_r.
  - by eapply index_bytes_store.
  - unfold index_batch in Hr. destruct (commit_each_counted _ _ _ _ _ _ _ _ _ _ _ _ _) as [d1 r1] eqn:E. injection Hr as <- _.
    eapply batch_store; [by apply next_file_fits|done|done|exact E].
  - eapply batch_store; [by eapply nth_file_fits|done|done|exact Hr].
  - destruct Hd as [a Ha]. destruct (prune_run sha256 d a org repo keep Ha) as (rm & d1 & H1r & H2r & Hs & _).
    destruct dry; [rewrite H2r in Hr|rewrite H1r in Hr]; injection Hr as _ <-; by eexists.
  - destruct Hd as [a Ha]. destruct (vacuum_run sha256 Hsha d a Ha Hnc) as (st & d1 & Hv & Hs & _). rewrite Hv in Hr. injection Hr as _ <-. by exists a.
  - unfold index_prepared_marked in Hr. destruct (commit_each_counted _ _ _ _ _ _ _ _ _ _ _ _ _) as [d1 r1] eqn:E. injection Hr as <- _.
    eapply batch_store; [by eapply nth_file_fits|done|done|exact E].
  - unfold prune_files_marked in Hr. apply bind_Ok in Hr as (wt & Hst & Hr). apply bind_Ok in Hr as ([rm wt1] & Hp & Hr). apply bind_Ok in Hr as (u & _ & [= _ <-]).
    destruct (stamp_store _ _ _ _ Hd Hst) as ([a Ha] & _). destruct (prune_run sha256 wt a org repo keep Ha) as (rm' & d1 & H1r & _ & Hs & _).
    unfold prune_files in H1r. rewrite Hp in H1r. injection H1r as _ <-. by eexists.
  - unfold vacuum_marked in Hr. apply bind_Ok in Hr as (wt & Hst & Hr). apply bind_Ok in Hr as ([[st b] wt1] & Hv & Hr). apply bind_Ok in Hr as (u & _ & [= _ <-]).
    destruct (stamp_store _ _ _ _ Hd Hst) as (Hwt & _ & _ & Hrev). eapply vacuum_store; [done|exact Hwt| |exact Hv]. unfold no_collisions in *. by rewrite Hrev.
  - unfold ingest_file_marked in Hr. destruct (validate_spans_cases ex) as [[Hsp Hv]|[_ [msg Hv]]]; rewrite Hv in Hr; [|done].
    cbn [mbind outcome_mbind outcome_bind] in Hr. apply bind_Ok in Hr as (wt & Hst & Hr). apply bind_Ok in Hr as ([st wt1] & Hi & Hr). apply bind_Ok in Hr as (u & _ & [= _ <-]).
    destruct (stamp_store _ _ _ _ Hd Hst) as (Hwt & Hm & Hdi & _).
    eapply (ingest_store wt (term_count ex) 0); [done|done|done|apply extracted_ok| | |exact Hi]; [done|]. rewrite Nat.add_0_r. by eapply (terms_mono d).
  - unfold mark_only in Hr. apply bind_Ok in Hr as (wt & Hst & Hr). apply bind_Ok in Hr as (u & _ & [= <-]). by destruct (stamp_store _ _ _ _ Hd Hst).
  - by apply raft_store.
Qed.

(** C3: every database that the store's writes make of an empty one, in any
    order and however they ended, holds documents: its tables are in step
    with a map from organisation, repository and path to documents (entities
    and their names, streams, postings, both symbol indexes, dictionary in both
    directions, catalog counters, file rows). Batches that a rejected file, an
    exhausted id space or a failing hook stopped on the way are covered, and so
    are writes of a replicated log with its markers. *)
Theorem reachable_stores d : (∀ x, Forall u8 (sha256 x)) → reachable d → ∃ a, stores sha256 d a.
Proof.
  intros Hsha Hr. unfold reachable in Hr. assert (is_store (db_empty (tbl:=tbl))) as Hempty by (exists ∅; apply stores_empty).
  revert Hempty. induction Hr as [d|d d1 d2 Hs _ IH]; intros Hd; [exact Hd|]. apply IH. by eapply step_store.
Qed.
End history.

(** A file is stored, then a batch of two stops at the second and keeps the first. *)
#[local] Existing Instance gmap_redb.
#[local] Existing Instance coded_serde.
#[local] Existing Instance sample_rs.
Module Stopped.
Definition run : Sample.db * result (list (result IngestStats) * Z) :=
  index_prepared_counted Sample.sha Sample.no_char Sample.no_char (λ _, Ok ()) Sample.store Sampled.registry 1 (lit "o") (lit "r")
    [Sampled.second; Sampled.stray] Sampled.opts.
Lemma refusal {A} (r : result A) : match r with Err (Rejected _) => true | _ => false end = true → ∃ e, r = Err (Rejected e).
Proof. destruct r as [|e|]; try done. destruct e; try done. by eexists. Qed.
Lemma stop_refused : ∃ e, run.2 = Err (Rejected e).
Proof. apply refusal. vm_compute. exact eq_refl. Qed.
Lemma fits : Forall (file_fits Sample.no_char Sample.no_char 10 Sampled.registry) [Sampled.second; Sampled.stray].
Proof.
  assert (ex_fits 10 demo ∧ spans_ok demo ∧ V2Prep_build demo = V2Prep_build demo) as Hd.
  { split; [|split; [exact demo_spans_ok|done]]. split; [exact demo_small|]. split; [exact Sample.demo_texts|]. apply (bool_decide_unpack _). by vm_compute. }
  apply Forall_cons. split; [split; [done|exact Hd]|]. apply Forall_cons. split; [split; [done|exact Hd]|]. by apply Forall_nil.
Qed.
Lemma first_write : ∃ st, Sample.ingested = Ok (st, Sample.store).
Proof.
  unfold Sample.store. assert (match Sample.ingested with Ok _ => true | _ => false end = true) as Hi by (vm_compute; exact eq_refl).
  destruct Sample.ingested as [[st d]| |]; [by exists st|done|done].
Qed.
Lemma second_write :
  index_prepared_counted Sample.sha Sample.no_char Sample.no_char (λ _, Ok ()) Sample.store Sampled.registry 1 (lit "o") (lit "r")
    [Sampled.second; Sampled.stray] Sampled.opts = (run.1, run.2).
Proof. unfold run. apply surjective_pairing. Qed.
Lemma has_room : terms_fit Sample.store (length [Sampled.second; Sampled.stray] * 10).
Proof. apply terms_fit_by. vm_compute. exact eq_refl. Qed.
Lemma stop_reached : reachable Sample.sha Sample.no_char Sample.no_char (λ _, Ok ()) run.1.
Proof.
  destruct first_write as [st Hst]. eapply rtc_l; [|apply rtc_once].
  - exact (w_ingest _ _ _ _ db_empty _ _ _ _ _ _ st Sample.store demo_small Sample.demo_texts Sample.demo_term_room Hst).
  - exact (w_index_prepared _ _ _ _ Sample.store 10 _ _ _ _ _ _ _ _ fits has_room second_write).
Qed.
End Stopped.

Lemma reachable_stores_witness : (∃ e, Stopped.run.2 = Err (Rejected e)) ∧ ∃ a, stores Sample.sha Stopped.run.1 a.
Proof.
  split; [exact Stopped.stop_refused|]. apply (reachable_stores Sample.sha Sample.no_char Sample.no_char (λ _, Ok ()) Stopped.run.1).
  - intros x. apply Forall_nil. exact I.
  - exact Stopped.stop_reached.
Defined.
