(* ===== verification/Search.v ===== *)
(** * Token search

    [R::search] of [graph-store/src/v2.rs] with the owner resolution it uses,
    [grain_accepts] of [graph-store/src/common.rs] and the queries and hits of
    [graph-store/src/lib.rs]. The memo tables of one query (owners of a file,
    owners found in sibling files and the files they were found in) are part of
    the state; the read statistics are left out. Counts are sums over stored
    tokens, of which there are fewer than [2^62]. *)
From S2P Require Import Prelude Text StrOps Schema Varint Stream Posting DictBlock Table DictRev.
From S2P Require Import Language Walk Pattern Prep Db Catalog Reader Encoding Write Commit Prepare LazySort NameCache Symbols.

Inductive Grain : Type := GToken | GSymbol | GMethod | GClass | GFile | GRepo | GOrg.
#[global] Instance Grain_eq_dec : EqDecision Grain.
Proof. solve_decision. Defined.

Definition is_symbolic (g : Grain) : bool := match g with GSymbol | GMethod | GClass => true | _ => false end.

Record Query : Type := mkQuery {
  q_text : str;
  q_language : option str;
  q_org : option str;
  q_repo : option str;
  q_class : option TokenClass;
  q_grain : Grain;
  q_symbol_kind : option str;
  q_limit : option Z;
  q_offset : option Z;
}.
Definition Query_new (text : str) : Query := mkQuery text None None None None GToken None None None.

Record Hit : Type := mkHit {
  h_grain : Grain;
  h_org : str;
  h_repo : option str;
  h_file : option str;
  h_language : option str;
  h_symbol : option str;
  h_symbol_kind : option SymbolKind;
  h_lang_kind : option str;
  h_token_class : option TokenClass;
  h_span : option Span;
  h_name_pos : option Position;
  h_count : Z;
  h_no_symbols : bool;
  h_no_matching_symbol : bool;
  h_encoding : option str;
  h_lossy : bool;
}.

(** ** Parts of a hit *)

(** [h.count += n], [h.name_pos = p]. *)
Definition add_count (n : Z) (h : Hit) : Hit :=
  mkHit (h_grain h) (h_org h) (h_repo h) (h_file h) (h_language h) (h_symbol h) (h_symbol_kind h) (h_lang_kind h)
    (h_token_class h) (h_span h) (h_name_pos h) (h_count h + n) (h_no_symbols h) (h_no_matching_symbol h) (h_encoding h) (h_lossy h).
Definition at_pos (p : option Position) (h : Hit) : Hit :=
  mkHit (h_grain h) (h_org h) (h_repo h) (h_file h) (h_language h) (h_symbol h) (h_symbol_kind h) (h_lang_kind h)
    (h_token_class h) (h_span h) p (h_count h) (h_no_symbols h) (h_no_matching_symbol h) (h_encoding h) (h_lossy h).
(** [hit.symbol], [symbol_kind], [lang_kind], [token_class] and [span]. *)
Definition with_symbol (sym : option str) (kind : option SymbolKind) (lang_kind : option str) (class : option TokenClass)
    (span : option Span) (h : Hit) : Hit :=
  mkHit (h_grain h) (h_org h) (h_repo h) (h_file h) (h_language h) sym kind lang_kind
    class span (h_name_pos h) (h_count h) (h_no_symbols h) (h_no_matching_symbol h) (h_encoding h) (h_lossy h).
Definition unmatched (no_symbols : bool) (h : Hit) : Hit :=
  mkHit (h_grain h) (h_org h) (h_repo h) (h_file h) (h_language h) (h_symbol h) (h_symbol_kind h) (h_lang_kind h)
    (h_token_class h) (h_span h) (h_name_pos h) (h_count h)
    (if no_symbols then true else h_no_symbols h) (if no_symbols then h_no_matching_symbol h else true) (h_encoding h) (h_lossy h).
Definition in_file (n : Node) (h : Hit) : Hit :=
  mkHit (h_grain h) (h_org h) (h_repo h) (Some (n_name n)) (n_language n) (h_symbol h) (h_symbol_kind h) (h_lang_kind h)
    (h_token_class h) (h_span h) (h_name_pos h) (h_count h) (h_no_symbols h) (h_no_matching_symbol h) (n_encoding n) (n_lossy n).

(** The [roll] closure. *)
Definition roll (g : Grain) (h : Hit) : Hit :=
  let none (repo : option str) :=
    mkHit (h_grain h) (h_org h) repo None None (h_symbol h) (h_symbol_kind h) (h_lang_kind h)
      (h_token_class h) (h_span h) (h_name_pos h) (h_count h) (h_no_symbols h) (h_no_matching_symbol h) None false in
  match g with
  | GRepo => none (h_repo h)
  | GOrg => none None
  | _ => h
  end.

(** ** Which symbols a grain accepts *)

Definition CLASS_CONTAINER_LANG_KINDS : list str := [lit "impl"].

Definition grain_accepts (grain : Grain) (sym : Node) : bool :=
  match grain with
  | GSymbol => true
  | GMethod => bool_decide (n_symbol_kind sym = Some SKMethod) || bool_decide (n_symbol_kind sym = Some SKFunction)
  | GClass => bool_decide (n_symbol_kind sym = Some SKType) || existsb (kind_matches sym) CLASS_CONTAINER_LANG_KINDS
  | _ => false
  end.
Definition kind_allows (kind : option str) (sym : Node) : bool :=
  match kind with Some k => kind_matches sym k | None => true end.

(** [n.rsplit_once('/')]: the directory of a path, and the prefix of its siblings. *)
Definition dir (n : str) : str := match rfind_split [SLASH] n with Some (d, _) => d | None => [] end.
Definition dir_prefix (n : str) : str := match rfind_split [SLASH] n with Some (d, _) => d ++ [SLASH] | None => [] end.

(** [serde_json] reading only the fields of a file's row that are needed. *)
Record FileSlim : Type := mkFileSlim { sl_parent : option Z; sl_name : str; sl_language : option str }.
Class SerdeSlim `{Serde} := {
  dec_slim : list Z → result FileSlim;
  dec_slim_enc n : dec_slim (enc n) = Ok (mkFileSlim (n_parent n) (n_name n) (n_language n));
}.

Abbreviation Key := (str * str * str * Z * Z)%type.
Abbreviation SibKey := (Z * option Z * str * option str)%type.

(** [rows.entry(key).and_modify(|h| h.count += n).or_insert(hit)], [n] being
    the count of [hit]. *)
Definition add_row {K} `{Countable K} (key : K) (hit : Hit) (rows : gmap K Hit) : gmap K Hit :=
  match rows !! key with
  | Some h => <[key := add_count (h_count hit) h]> rows
  | None => <[key := hit]> rows
  end.

Section search.
Context `{Redb tbl} `{SerdeSlim} `{Unstable} (sha256 : list Z → list Z) (r : Db tbl) (file_keys : option (tbl Z _ _ (list Z))).

(** ** Owner hints *)

Fixpoint resolve_owner_loop (file : Z) (syms : list SymRec) (owner : Z) (symbol_kind : option str) (l : list (nat * SymRec))
    : result (option nat) :=
  match l with
  | [] => Ok None
  | (j, s) :: l =>
      if negb (s_name s =? owner) then resolve_owner_loop file syms owner symbol_kind l else
      n ← sym_node r file j syms;
      if grain_accepts GClass n && kind_allows symbol_kind n then Ok (Some j)
      else resolve_owner_loop file syms owner symbol_kind l
  end.
Definition resolve_owner (file : Z) (syms : list SymRec) (owner : Z) (symbol_kind : option str) : result (option nat) :=
  resolve_owner_loop file syms owner symbol_kind (enumerate syms).

(** One row of the name index: a candidate when its file is a sibling.
    [rows] holds the path of each file asked before, [None] when it is none. *)
Definition sibling_row (file : Node) (rows : gmap Z (option str)) (f2 : Z) : result (option str * gmap Z (option str)) :=
  match rows !! f2 with
  | Some p => Ok (p, rows)
  | None =>
      n ← need r f2;
      let keep := bool_decide (n_parent n = n_parent file) && bool_decide (n_language n = n_language file) &&
                  bool_decide (dir (n_name n) = dir (n_name file)) in
      let p := if keep then Some (n_name n) else None in
      Ok (p, <[f2 := p]> rows)
  end.
Definition sibling_cand (file : Node) (s : list (str * Z * Z) * gmap Z (option str)) (id : Z)
    : result (list (str * Z * Z) * gmap Z (option str)) :=
  let '(cands, rows) := s in
  let '(tag, f2, idx) := split_id id in
  if negb (tag =? TAG_SYM) || (f2 =? n_id file) then Ok s else
  '(path, rows) ← sibling_row file rows f2;
  Ok (match path with Some p => cands ++ [(p, idx, f2)] | None => cands end, rows).

Definition load_symbols (f2 : Z) : result (list SymRec) :=
  raw ← ok_or (tbl_get (db_streams r) f2) (Corrupt (lit "file " ++ show f2 ++ lit " without stream"));
  lz ← decode_lazy raw;
  lazy_symbols lz.

(** The first candidate that is a type, with the symbols of its file; [None]
    also when the kind filter rejects it. *)
Fixpoint sibling_pick (owner : Z) (symbol_kind : option str) (decoded : option (Z * list SymRec)) (cands : list (str * Z * Z))
    : result (option (Z * Z * list SymRec)) :=
  match cands with
  | [] => Ok None
  | (_, idx, f2) :: cands =>
      syms ← (match decoded with
              | Some (f, syms) => if f =? f2 then Ok syms else load_symbols f2
              | None => load_symbols f2
              end);
      s ← ok_or (syms !! Z.to_nat idx) (Corrupt (lit "symbol index " ++ show idx ++ lit " past file " ++ show f2));
      if negb (s_name s =? owner) then sibling_pick owner symbol_kind (Some (f2, syms)) cands else
      n ← sym_node r f2 (Z.to_nat idx) syms;
      if grain_accepts GClass n then
        if negb (kind_allows symbol_kind n) then Ok None else Ok (Some (idx, f2, syms))
      else sibling_pick owner symbol_kind (Some (f2, syms)) cands
  end.

Definition ctx_in (file_id : Z) (cache : gmap Z FileCtx) : result (gmap Z FileCtx) :=
  match cache !! file_id with
  | Some _ => Ok cache
  | None => c ← ctx r file_id; Ok (<[file_id := c]> cache)
  end.

Definition resolve_owner_sibling (file : Node) (owner : Z) (symbol_kind : option str) (cache : gmap Z FileCtx)
    : result (option (Z * list Node) * gmap Z FileCtx) :=
  name ← text r owner;
  '(cands, _) ← try_fold (sibling_cand file) ([], ∅) (multimap_get (db_sym_idx r) name);
  best ← sibling_pick owner symbol_kind None (sort_by key_le cands);
  match best with
  | None => Ok (None, cache)
  | Some (idx, f2, syms) =>
      cache ← ctx_in f2 cache;
      chain ← sym_chain r (S (length syms)) f2 syms (Some idx);
      Ok (Some (f2, chain), cache)
  end.

(** The resolutions known: of this file, of this file without the kind
    filter, and of siblings with the files they are in. *)
Record Owners : Type := mkOwners { ow_here : gmap Z (option nat); ow_any : gmap Z bool }.
Record Siblings : Type := mkSiblings { sb_files : gmap Z FileCtx; sb_owners : gmap SibKey (option (Z * list Node)) }.

Definition owner_here (fid : Z) (syms : list SymRec) (kind : option str) (o : Z) (ow : Owners) : result (option nat * Owners) :=
  match ow_here ow !! o with
  | Some j => Ok (j, ow)
  | None => j ← resolve_owner fid syms o kind; Ok (j, mkOwners (<[o := j]> (ow_here ow)) (ow_any ow))
  end.
Definition owner_any (fid : Z) (syms : list SymRec) (o : Z) (ow : Owners) : result (bool * Owners) :=
  match ow_any ow !! o with
  | Some b => Ok (b, ow)
  | None => j ← resolve_owner fid syms o None;
            let b := bool_decide (is_Some j) in Ok (b, mkOwners (ow_here ow) (<[o := b]> (ow_any ow)))
  end.
Definition owner_sibling (file : Node) (kind : option str) (o : Z) (sb : Siblings) : result (option (Z * list Node) * Siblings) :=
  let sk := (o, n_parent file, dir (n_name file), n_language file) in
  match sb_owners sb !! sk with
  | Some f => Ok (f, sb)
  | None => '(f, files) ← resolve_owner_sibling file o kind (sb_files sb); Ok (f, mkSiblings files (<[sk := f]> (sb_owners sb)))
  end.

(** [for &i in &chain_idx { .. }]: the chain of the owner, and the file it is
    in when that is not this one. *)
Fixpoint owned_loop (kind : option str) (file : Node) (fid : Z) (syms : list SymRec) (idxs : list nat) (ow : Owners) (sb : Siblings)
    : result (list Node * option Z * Owners * Siblings) :=
  match idxs with
  | [] => Ok ([], None, ow, sb)
  | i :: idxs =>
      s ← index syms i;
      match s_owner s with
      | None => owned_loop kind file fid syms idxs ow sb
      | Some o =>
          '(j, ow) ← owner_here fid syms kind o ow;
          match j with
          | Some j => chain ← sym_chain r (S (length syms)) fid syms (Some (Z.of_nat j)); Ok (chain, None, ow, sb)
          | None =>
              '(any, ow) ← (match kind with Some _ => owner_any fid syms o ow | None => Ok (false, ow) end);
              if any : bool then owned_loop kind file fid syms idxs ow sb else
              '(found, sb) ← owner_sibling file kind o sb;
              match found with
              | Some (f2, chain) => Ok (chain, Some f2, ow, sb)
              | None => owned_loop kind file fid syms idxs ow sb
              end
          end
      end
  end.
(** ** The candidate files *)

(** A file with the occurrence count of the term, when only counts are needed. *)
Abbreviation Cand := (Z * option (result Z))%type.

Definition counts_only (q : Query) : bool :=
  match q_class q with None => match q_grain q with GFile | GRepo | GOrg => true | _ => false end | Some _ => false end.

Definition candidates (q : Query) (term : Z) : list Cand :=
  (λ row : Z * Z * list Z, (row.1.2, if counts_only q then Some (posting_count row.2) else None)) <$>
    tbl_range (λ k : Z * Z, bool_decide (k.1 = term)) (db_post r).

Definition file_slim (id : Z) : result FileSlim :=
  match (match file_keys with Some keys => tbl_get keys id | None => None end) with
  | Some v => k ← decode_file_key v; Ok (mkFileSlim (Some (fk_parent k)) (fk_name k) (fk_language k))
  | None =>
      v ← ok_or (tbl_get (db_nodes r) id) (Corrupt (lit "dangling node " ++ show id));
      dec_slim v
  end.

(** The [consider] closure on the row of a candidate. *)
Definition consider (q : Query) (s : gmap Z (option nat) * list (Node * Node) * list (nat * str * Cand)) (row : FileSlim) (cand : Cand)
    : result (gmap Z (option nat) * list (Node * Node) * list (nat * str * Cand)) :=
  let '(slots, keyed) := s in
  parent ← ok_or (sl_parent row) (Corrupt (lit "file without repo"));
  '(slot, slots) ← repo_slot r (q_org q) (q_repo q) slots parent;
  match slot with
  | None => Ok (slots, keyed)
  | Some slot =>
      if match to_ascii_lowercase <$> q_language q with Some l => negb (bool_decide (sl_language row = Some l)) | None => false end
      then Ok (slots, keyed) else Ok (slots, keyed ++ [(slot, sl_name row, cand)])
  end.
Definition keep_cand (q : Query) (s : gmap Z (option nat) * list (Node * Node) * list (nat * str * Cand)) (cand : Cand)
    : result (gmap Z (option nat) * list (Node * Node) * list (nat * str * Cand)) :=
  match (match file_keys with Some keys => tbl_get keys cand.1 | None => None end) with
  | Some v => k ← decode_file_key v; consider q s (mkFileSlim (Some (fk_parent k)) (fk_name k) (fk_language k)) cand
  | None => row ← file_slim cand.1; consider q s row cand
  end.

Definition cand_le (rank : list nat) (a b : nat * str * Cand) : bool :=
  key_le (default 0%nat (rank !! a.1.1), a.1.2) (default 0%nat (rank !! b.1.1), b.1.2).

(** ** The walk *)

Record Walk : Type := mkWalk { wk_rows : gmap Key Hit; wk_last : option (Z * Z * Z); wk_sibs : Siblings }.

Definition group_of (g : Grain) (c : FileCtx) (fid : Z) : Z * Z * Z :=
  match g with
  | GOrg => (n_id (fx_org c), 0, 0)
  | GRepo => (n_id (fx_org c), n_id (fx_repo c), 0)
  | _ => (n_id (fx_org c), n_id (fx_repo c), fid)
  end.

(** What the limit says of the next file: stop, pass it by, or read it. *)
Inductive Cut : Type := CStop | CSkip | CRead (past_cut : bool).
Definition cut_at (g : Grain) (want : Z) (w : Walk) (c : FileCtx) (fid : Z) : result Cut :=
  if (want <=? Z.of_nat (size (wk_rows w))) && negb (bool_decide (wk_last w = Some (group_of g c fid))) then
    if negb (bool_decide (g = GClass)) || (want =? 0) then Ok CStop else
    '(co, cr, cp, _, _) ← unwrap ((gmap_rows (wk_rows w)).*1 !! Z.to_nat (want - 1));
    if negb (bool_decide (n_name (fx_org c) = co) && bool_decide (n_name (fx_repo c) = cr)) then Ok CStop else
    if key_le (n_name (fx_file c)) cp then Ok (CRead false)
    else if key_le cp (dir_prefix (n_name (fx_file c))) then Ok CSkip else Ok (CRead true)
  else Ok (CRead false).

Definition base_hit (g : Grain) (c : FileCtx) (count : Z) : Hit :=
  mkHit g (n_name (fx_org c)) (Some (n_name (fx_repo c))) (Some (n_name (fx_file c))) (n_language (fx_file c)) None None None None None None
    count false false (n_encoding (fx_file c)) (n_lossy (fx_file c)).
Definition row_key (g : Grain) (c : FileCtx) : Key :=
  match g with
  | GRepo => (n_name (fx_org c), n_name (fx_repo c), [], 0, 0)
  | GOrg => (n_name (fx_org c), [], [], 0, 0)
  | _ => (n_name (fx_org c), n_name (fx_repo c), n_name (fx_file c), 0, 0)
  end.

(** The enclosing symbols, innermost first, with their indexes. *)
Fixpoint chain_of (fuel : nat) (fid : Z) (syms : list SymRec) (cur : option Z) : result (list (nat * Node)) :=
  match fuel, cur with
  | _, None => Ok []
  | O, Some _ => Panic
  | S fuel, Some p =>
      n ← sym_node r fid (Z.to_nat p) syms;
      s ← index syms (Z.to_nat p);
      rest ← chain_of fuel fid syms (s_parent s);
      Ok ((Z.to_nat p, n) :: rest)
  end.
Definition qual (chain : list Node) : option str :=
  match chain with [] => None | _ => Some (join (lit "::") (n_name <$> reverse chain)) end.

(** The row of a match at a symbolic grain. *)
Definition symbolic_row (q : Query) (c : FileCtx) (fid : Z) (syms : list SymRec) (chain : list (nat * Node)) (ow : Owners) (sb : Siblings)
    : result (Key * Hit * Owners * Siblings) :=
  let g := q_grain q in
  let pick := list_find (λ x : nat * Node, grain_accepts g x.2 && kind_allows (q_symbol_kind q) x.2 = true) chain in
  '(owned, owned_in, ow, sb) ←
    (if bool_decide (pick = None) && bool_decide (g = GClass) && negb (existsb (λ x : nat * Node, grain_accepts GClass x.2) chain)
     then owned_loop (q_symbol_kind q) (fx_file c) fid syms chain.*1 ow sb else Ok ([], None, ow, sb));
  let hit := base_hit g c 1 in
  '(hit, row_file) ← (match owned_in with
    | Some f2 => o ← unwrap (sb_files sb !! f2); Ok (in_file (fx_file o) hit, n_name (fx_file o))
    | None => Ok (hit, n_name (fx_file c))
    end);
  let found := match pick with
    | Some (i, _) => Some (drop i chain.*2)
    | None => match owned with [] => None | _ => Some owned end
    end in
  match found with
  | Some chain =>
      s ← unwrap (head chain);
      Ok (n_name (fx_org c), n_name (fx_repo c), row_file, match n_span s with Some x => start x | None => 0 end, n_id s,
          with_symbol (qual chain) (n_symbol_kind s) (n_lang_kind s) None (n_span s) hit, ow, sb)
  | None => Ok (row_key GFile c, unmatched (bool_decide (syms = [])) hit, ow, sb)
  end.

Definition match_row (q : Query) (c : FileCtx) (fid : Z) (syms : list SymRec) (ord : nat) (t : TokRec) (ow : Owners) (sb : Siblings)
    : result (Key * Hit * Owners * Siblings) :=
  let g := q_grain q in
  chain ← (if bool_decide (g = GToken) || is_symbolic g then chain_of (S (length syms)) fid syms (t_parent t) else Ok []);
  match g with
  | GToken =>
      Ok (n_name (fx_org c), n_name (fx_repo c), n_name (fx_file c), start (t_span t), sub_id TAG_TOK fid (Z.of_nat ord),
          with_symbol (qual chain.*2) (head chain.*2 ≫= n_symbol_kind) (head chain.*2 ≫= n_lang_kind) (Some (t_class t)) (Some (t_span t))
            (base_hit g c 1), ow, sb)
  | GSymbol | GMethod | GClass => symbolic_row q c fid syms chain ow sb
  | _ => Ok (row_key g c, roll g (base_hit g c 1), ow, sb)
  end.

Fixpoint add_matches (q : Query) (c : FileCtx) (fid : Z) (syms : list SymRec) (ms : list (nat * TokRec)) (ow : Owners) (sb : Siblings)
    (rows : gmap Key Hit) : result (gmap Key Hit * Siblings) :=
  match ms with
  | [] => Ok (rows, sb)
  | (ord, t) :: ms =>
      '(key, hit, ow, sb) ← match_row q c fid syms ord t ow sb;
      add_matches q c fid syms ms ow sb (add_row key hit rows)
  end.

(** The visitor of the postings' tokens. *)
Definition match_visit (q : Query) (term need : Z) : visitor (list (nat * TokRec)) := λ ord t ms,
  let ms := if (t_term t =? term) && match q_class q with Some c => bool_decide (c = t_class t) | None => true end
            then ms ++ [(ord, t)] else ms in
  (Z.of_nat (length ms) <? need, ms).

(** One file that is read. *)
Definition search_file (q : Query) (term want : Z) (w : Walk) (c : FileCtx) (cand : Cand) (past_cut : bool) : result Walk :=
  let '(fid, post) := cand in
  let g := q_grain q in
  let last := Some (group_of g c fid) in
  let keep := Ok (mkWalk (wk_rows w) last (wk_sibs w)) in
  if counts_only q then
    n ← ok_or post (Corrupt (lit "count missing"));
    n ← n;
    Ok (mkWalk (add_row (row_key g c) (roll g (base_hit g c n)) (wk_rows w)) last (wk_sibs w))
  else
    raw ← ok_or (tbl_get (db_streams r) fid) (Corrupt (lit "file " ++ show fid ++ lit " without stream"));
    lz ← decode_lazy raw;
    pass ← (if past_cut : bool then syms ← lazy_symbols lz; Ok (negb (existsb (λ s, bool_decide (is_Some (s_owner s))) syms)) else Ok false);
    if pass : bool then keep else
    post ← ok_or (tbl_get (db_post r) (term, fid)) (Corrupt (lit "posting (" ++ show term ++ lit ", " ++ show fid ++ lit ") vanished"));
    ords ← posting_ordinals post;
    let need := if decide (g = GToken) then Z.max 0 (want - Z.of_nat (size (wk_rows w))) else USIZE_MAX in
    ms ← tokens_at_while lz (Z.to_nat <$> ords) (match_visit q term need) [];
    match ms with
    | [] => keep
    | _ =>
        syms ← (if bool_decide (g = GToken) || is_symbolic g then lazy_symbols lz else Ok []);
        '(rows, sibs) ← add_matches q c fid syms ms (mkOwners ∅ ∅) (wk_sibs w) (wk_rows w);
        Ok (mkWalk rows last sibs)
    end.

(** [while let Some(..) = order.next() { .. }]: at most one round per file,
    and one that finds none left. *)
Fixpoint search_files (fuel : nat) (rank : list nat) (q : Query) (term want : Z) (order : LazySorted (nat * str * Cand)) (w : Walk)
    : result Walk :=
  match fuel with
  | O => Panic
  | S fuel =>
      '(item, order) ← LazySorted_next (cand_le rank) order;
      match item with
      | None => Ok w
      | Some (_, _, cand) =>
          c ← ctx r cand.1;
          cut ← cut_at (q_grain q) want w c cand.1;
          match cut with
          | CStop => Ok w
          | CSkip => search_files fuel rank q term want order w
          | CRead past_cut => w ← search_file q term want w c cand past_cut; search_files fuel rank q term want order w
          end
      end
  end.

Definition row_pos (q : Query) (row : Key * Hit) : result Hit :=
  let '(key, h) := row in
  if is_symbolic (q_grain q) && bool_decide (is_Some (h_symbol h)) && negb (h_no_matching_symbol h) then
    p ← name_pos_of_id r key.2; Ok (at_pos p h)
  else Ok h.

Definition search (q : Query) : result (list Hit) :=
  term ← lookup_term sha256 r (q_text q);
  match term with
  | None => Ok []
  | Some term =>
      '(slots, keyed) ← try_fold (keep_cand q) (∅, [], []) (candidates q term);
      let rank := ranks slots.2 in
      order ← LazySorted_prepare (cand_le rank) (LazySorted_new keyed);
      let want := Z.min (default 0 (q_offset q) + default USIZE_MAX (q_limit q)) USIZE_MAX in
      w ← search_files (S (length keyed)) rank q term want order (mkWalk ∅ None (mkSiblings ∅ ∅));
      collect (row_pos q) (truncate (default USIZE_MAX (q_limit q)) (skip (default 0 (q_offset q)) (gmap_rows (wk_rows w))))
  end.
End search.
