(* ===== verification/SearchSpec.v ===== *)
(** * The rows of a search

    Rows are kept in a map by their place in the answer. Rows past the number
    that is wanted may be left out: what the map holds up to that number is
    what it would hold with them. *)
From S2P Require Import Prelude Text Schema Table StrOps Language Walk Prep Db Reader Write Store Summary Symbols.
From S2P Require Import SymbolIds SearchFiles Chains SymbolSearch Search.

Section rows.
Context {K : Type} `{Countable K} `{!KeyOrder K}.
Implicit Types (m : gmap K Hit) (l : list (K * Hit)) (k cut : K).

Definition add_rows m l : gmap K Hit := foldl (λ m x, add_row x.1 x.2 m) m l.
Definition tally l : gmap K Hit := add_rows ∅ l.

Lemma add_rows_app m l l' : add_rows m (l ++ l') = add_rows (add_rows m l) l'.
Proof. apply foldl_app. Qed.

Lemma add_row_ne m k k' h : k ≠ k' → add_row k h m !! k' = m !! k'.
Proof. intros Hne. unfold add_row. case_match; by rewrite lookup_insert_ne. Qed.
Lemma add_row_eq m m' k h : m !! k = m' !! k → add_row k h m !! k = add_row k h m' !! k.
Proof. intros He. unfold add_row. rewrite He. case_match; by rewrite !lookup_insert_eq. Qed.
Lemma add_row_some m k k' h : is_Some (m !! k') → is_Some (add_row k h m !! k').
Proof.
  intros Hk. destruct (decide (k = k')) as [->|Hne]; [|by rewrite add_row_ne]. unfold add_row. case_match; rewrite lookup_insert_eq; by eexists.
Qed.
Lemma add_rows_dom m l k : is_Some (add_rows m l !! k) ↔ is_Some (m !! k) ∨ k ∈ l.*1.
Proof.
  revert m. induction l as [|x l IH]; intros m; [cbn; rewrite elem_of_nil; tauto|]. cbn [add_rows foldl fmap list_fmap]. fold (add_rows (add_row x.1 x.2 m) l).
  rewrite IH, elem_of_cons. destruct (decide (x.1 = k)) as [<-|Hne].
  - split; [tauto|]. intros _. left. unfold add_row. case_match; rewrite lookup_insert_eq; by eexists.
  - rewrite add_row_ne by done. split; [tauto|]. intros [?|[->|?]]; tauto.
Qed.

(** [n] rows of one key are one row of their sum. *)
Lemma add_rows_same m k h n :
  (0 < n)%nat → h_count h = 1 → add_rows m (replicate n (k, h)) = add_row k (add_count (Z.of_nat n - 1) h) m.
Proof.
  intros Hn Hc. destruct n as [|n]; [lia|]. clear Hn. revert m. induction n as [|n IH] using nat_ind; intros m.
  - assert (add_count (Z.of_nat 1 - 1) h = h) as -> by (destruct h; unfold add_count; cbn; f_equal; lia). done.
  - assert (replicate (S (S n)) (k, h) = replicate (S n) (k, h) ++ [(k, h)]) as -> by (rewrite <- replicate_S_end; done).
    rewrite add_rows_app, IH. cbn [add_rows foldl fst snd]. unfold add_row at 2 3.
    destruct (m !! k) as [h0|].
    + unfold add_row. rewrite lookup_insert_eq, insert_insert_eq. f_equal. unfold add_count. cbn. rewrite Hc. f_equal. lia.
    + unfold add_row. rewrite lookup_insert_eq, insert_insert_eq. f_equal. unfold add_count. cbn. rewrite Hc. f_equal. lia.
Qed.

Lemma gmap_rows_length m : length (gmap_rows m) = size m.
Proof. unfold gmap_rows. by rewrite merge_sort_Permutation, length_map_to_list. Qed.

(** ** Leaving out what is not wanted *)

Section want.
Context (want : nat).

Definition upto cut m : list (K * Hit) := filter (λ x, ¬ key_lt cut x.1) (gmap_rows m).
Definition agree_rows m m' : Prop :=
  m = m' ∨ ∃ cut, (want ≤ length (upto cut m))%nat ∧ ∀ k, ¬ key_lt cut k → m !! k = m' !! k.

Lemma sorted_prefix cut (l : list (K * Hit)) :
  StronglySorted key_lt l.*1 → ∃ l', l = filter (λ x, ¬ key_lt cut x.1) l ++ l' ∧ Forall (λ x, key_lt cut x.1) l'.
Proof.
  induction l as [|x l IH]; intros Hs; [by exists []|]. cbn in Hs. apply StronglySorted_inv in Hs as [Hs Hx]. destruct (IH Hs) as (l' & Hl & HF).
  rewrite filter_cons. case_decide as Hc.
  - exists l'. split; [cbn; by rewrite <- Hl|done].
  - exists (x :: l). assert (filter (λ x, ¬ key_lt cut x.1) l = []) as ->.
    { apply filter_none. intros y Hy Hn. apply Hn. rewrite Forall_forall in Hx. eapply key_lt_trans; [exact Hc|]. apply Hx, list_elem_of_fmap. by exists y. }
    split; [done|]. constructor; [done|]. rewrite Forall_forall in Hx. apply Forall_forall. intros y Hy. eapply key_lt_trans; [exact Hc|].
    apply Hx, list_elem_of_fmap. by exists y.
Qed.

Lemma upto_same cut m m' : (∀ k, ¬ key_lt cut k → m !! k = m' !! k) → upto cut m = upto cut m'.
Proof.
  intros Heq. apply rows_eq; [apply filter_rows_sorted, gmap_rows_sorted..|]. intros [k h]. unfold upto. rewrite !list_elem_of_filter, !gmap_rows_elem.
  cbn. split; intros [Hk Hm]; (split; [done|]); [by rewrite <- Heq|by rewrite Heq].
Qed.

Lemma upto_keys cut m k : k ∈ (upto cut m).*1 ↔ ¬ key_lt cut k ∧ is_Some (m !! k).
Proof.
  unfold upto. rewrite list_elem_of_fmap. split.
  - intros ([k' h] & -> & [Hk Hin%gmap_rows_elem]%list_elem_of_filter). split; [done|]. by eexists.
  - intros [Hk [h Hh]]. exists (k, h). split; [done|]. apply list_elem_of_filter. split; [done|]. by apply gmap_rows_elem.
Qed.
Lemma upto_NoDup cut m : NoDup (upto cut m).*1.
Proof. apply key_sorted_NoDup, filter_rows_sorted, gmap_rows_sorted. Qed.

Lemma agree_take m m' : agree_rows m m' → take want (gmap_rows m) = take want (gmap_rows m').
Proof.
  intros [->|(cut & Hl & Heq)]; [done|]. pose proof (upto_same cut m m' Heq) as Hu. unfold upto in *.
  destruct (sorted_prefix cut _ (gmap_rows_sorted m)) as (l1 & H1 & _), (sorted_prefix cut _ (gmap_rows_sorted m')) as (l2 & H2 & _).
  rewrite H1, H2, <- Hu. by rewrite !take_app_le.
Qed.

Lemma agree_add m m' k h : agree_rows m m' → agree_rows (add_row k h m) (add_row k h m').
Proof.
  intros [->|(cut & Hl & Heq)]; [by left|]. right. exists cut. split.
  - etrans; [exact Hl|]. rewrite <- !(length_fmap fst). apply submseteq_length, NoDup_submseteq; [apply upto_NoDup|].
    intros k'. rewrite !upto_keys. intros [Hk' Hm]. split; [done|]. by apply add_row_some.
  - intros k' Hk'. destruct (decide (k = k')) as [<-|Hne]; [by apply add_row_eq, Heq|]. rewrite !add_row_ne by done. by apply Heq.
Qed.
Lemma agree_adds l m m' : agree_rows m m' → agree_rows (add_rows m l) (add_rows m' l).
Proof. revert m m'. induction l as [|x l IH]; intros m m' Ha; [done|]. by apply IH, agree_add. Qed.

(** Rows that come after the wanted ones can be left out. *)
Lemma agree_skip m m' cut l :
  agree_rows m m' → (gmap_rows m).*1 !! (want - 1)%nat = Some cut → (0 < want)%nat → (∀ x, x ∈ l → key_lt cut x.1) → agree_rows m (add_rows m' l).
Proof.
  intros Ha Hcut Hw Hl. assert (agree_rows m m' → ∃ c, ¬ key_lt c cut ∧ ∀ k, ¬ key_lt c k → m !! k = m' !! k) as Hc.
  { intros [->|(c & Hlen & Heq)]; [by exists cut; split; [apply key_lt_irrefl|]|]. exists c. split; [|done]. unfold upto in Hlen.
    destruct (sorted_prefix c _ (gmap_rows_sorted m)) as (l1 & H1 & _). rewrite H1, fmap_app, lookup_app_l in Hcut by (rewrite length_fmap; lia).
    apply list_elem_of_lookup_2, list_elem_of_fmap in Hcut as (x & -> & Hx). by apply list_elem_of_filter in Hx as [? _]. }
  destruct (Hc Ha) as (c & Hcc & Heq). right. exists cut. split.
  - assert ((∀ i k, (i ≤ want - 1)%nat → (gmap_rows m).*1 !! i = Some k → ¬ key_lt cut k)) as Hbefore.
    { intros i k Hi Hk Hlt. destruct (decide (i = want - 1)%nat) as [->|Hne]; [rewrite Hcut in Hk; injection Hk as ->; by apply key_lt_irrefl in Hlt|].
      pose proof (sorted_lookup _ _ _ _ _ _ (gmap_rows_sorted m) Hk Hcut ltac:(lia)) as Hkc. eapply key_lt_irrefl, key_lt_trans; [exact Hlt|exact Hkc]. }
    rewrite <- (length_fmap fst). assert (want = length (take want (gmap_rows m).*1)) as E.
    { apply lookup_lt_Some in Hcut. rewrite length_take. lia. }
    rewrite E at 1. apply submseteq_length, NoDup_submseteq; [eapply sublist_NoDup; [apply (gmap_rows_NoDup m)|apply sublist_take]|].
    intros k [i Hi]%list_elem_of_lookup. apply lookup_take_Some in Hi as [Hi Hlt]. apply upto_keys. split; [eapply (Hbefore i); [lia|done]|].
    apply list_elem_of_lookup_2, list_elem_of_fmap in Hi as ([k' h] & -> & Hk'%gmap_rows_elem). by eexists.
  - intros k Hk. rewrite Heq.
    2: { intros Hlt. apply Hk. destruct (key_lt_total cut c) as [Hx|[->|Hx]]; [by eapply key_lt_trans|done|done]. }
    clear -Hl Hk. revert m'. induction l as [|x l IH]; intros m'; [done|]. cbn [add_rows foldl]. fold (add_rows (add_row x.1 x.2 m') l).
    rewrite <- IH by (intros; apply Hl; by right). rewrite add_row_ne; [done|]. intros <-. apply Hk, Hl. by left.
Qed.

Lemma nth_key m : (0 < want ≤ size m)%nat → ∃ cut, (gmap_rows m).*1 !! (want - 1)%nat = Some cut ∧ is_Some (m !! cut).
Proof.
  intros Hw. destruct (lookup_lt_is_Some_2 (gmap_rows m).*1 (want - 1)) as [cut Hc].
  { rewrite length_fmap, gmap_rows_length. lia. }
  exists cut. split; [done|]. apply list_elem_of_lookup_2, list_elem_of_fmap in Hc as ([k h] & -> & Hk%gmap_rows_elem). by eexists.
Qed.
End want.
End rows.

(** ** Renaming keys *)
Section rename.
Context {K L : Type} `{Countable K} `{!KeyOrder K} `{Countable L} `{!KeyOrder L} (ren : K → L) (P : K → Prop).
Hypothesis ren_mono : ∀ x y, P x → P y → key_lt x y → key_lt (ren x) (ren y).

Lemma ren_inj x y : P x → P y → ren x = ren y → x = y.
Proof.
  intros Hx Hy Heq. destruct (key_lt_total x y) as [Hlt|[?|Hlt]]; [|done|]; apply ren_mono in Hlt; try done; rewrite Heq in Hlt; by apply key_lt_irrefl in Hlt.
Qed.

Lemma tally_rename (l : list (K * Hit)) :
  (∀ x, x ∈ l → P x.1) →
  (∀ k, P k → tally (prod_map ren id <$> l) !! ren k = tally l !! k) ∧
  ∀ k', is_Some (tally (prod_map ren id <$> l) !! k') → ∃ k, P k ∧ k' = ren k.
Proof.
  induction l as [|x l IH] using rev_ind; intros Hl; [split; [intros; cbn; by rewrite !lookup_empty|intros k'; cbn; by rewrite lookup_empty; intros []]|].
  destruct IH as [IH1 IH2]; [intros; apply Hl, elem_of_app; by left|]. assert (P x.1) as Hx by (apply Hl, elem_of_app; right; left).
  unfold tally. rewrite fmap_app, !add_rows_app. cbn [fmap list_fmap add_rows foldl]. fold (tally l) (tally (prod_map ren id <$> l)).
  change ((prod_map ren id x).1) with (ren x.1). change ((prod_map ren id x).2) with x.2. split.
  - intros k Hk. destruct (decide (x.1 = k)) as [<-|Hne].
    + unfold add_row. rewrite IH1 by done. case_match; by rewrite !lookup_insert_eq.
    + assert (ren x.1 ≠ ren k) by (intros ?; by apply Hne, ren_inj). rewrite !add_row_ne by done. by apply IH1.
  - intros k' Hk'. destruct (decide (ren x.1 = k')) as [<-|Hne]; [by exists x.1|]. rewrite add_row_ne in Hk' by done. by apply IH2.
Qed.

Lemma rows_rename (l : list (K * Hit)) :
  (∀ x, x ∈ l → P x.1) → gmap_rows (tally (prod_map ren id <$> l)) = prod_map ren id <$> gmap_rows (tally l).
Proof.
  intros Hl. destruct (tally_rename l Hl) as [H1 H2].
  assert (∀ x, x ∈ gmap_rows (tally l) → P x.1) as HP.
  { intros [k h] Hin%gmap_rows_elem. assert (is_Some (tally l !! k)) as Hk by by eexists. apply add_rows_dom in Hk as [[? Hk]|Hk]; [by rewrite lookup_empty in Hk|].
    apply list_elem_of_fmap in Hk as (x & -> & Hx). exact (Hl x Hx). }
  apply rows_eq; [apply gmap_rows_sorted| |].
  - pose proof (gmap_rows_sorted (tally l)) as Hs. revert Hs HP. generalize (gmap_rows (tally l)) as g. induction g as [|x g IH]; intros Hs HP; [constructor|].
    cbn in Hs |- *. apply StronglySorted_inv in Hs as [Hs Hx]. constructor; [apply IH; [done|intros; apply HP; by right]|]. apply Forall_forall.
    intros k' (y & -> & Hy)%list_elem_of_fmap. apply list_elem_of_fmap in Hy as (z & -> & Hz). apply ren_mono; [apply HP; by left|apply HP; by right|].
    rewrite Forall_forall in Hx. apply Hx, list_elem_of_fmap. by exists z.
  - intros [k' h]. rewrite gmap_rows_elem, list_elem_of_fmap. split.
    + intros Hk'. destruct (H2 k') as (k & Hk & ->); [by eexists|]. exists (k, h). split; [done|]. apply gmap_rows_elem. by rewrite <- H1.
    + intros ([k h'] & [= -> ->] & Hk). pose proof (HP _ Hk) as Hp. apply gmap_rows_elem in Hk. by rewrite H1.
Qed.
End rename.

(** ** What a search asks for

    The answer of a token search in terms of documents: each matching token of
    each document in scope belongs to one row, the row of the declaration the
    grain picks for it; rows are ordered by path, start and index, and count
    their tokens. *)

(** A place in the answer: a document, a start, and [0] for the document itself
    or [S j] for its token or declaration [j]. *)
Abbreviation place := (dkey * Z * nat)%type.

Section spec.
Context (q : Query) (a : gmap dkey Doc).
Implicit Types (k : dkey) (v : Doc) (js : nat * SymbolDecl).

Definition in_scope k (lang : option str) : bool :=
  opt_is (q_org q) k.1.1 && opt_is (q_repo q) k.1.2 && lang_ok (to_ascii_lowercase <$> q_language q) lang.

(** ** Declarations *)

Definition decl_kind_is (s : SymbolDecl) (k : str) : bool :=
  eq_ignore_ascii_case (SymbolKind_as_str (sd_kind s)) k ||
  match sd_lang_kind s with Some l => eq_ignore_ascii_case l k | None => false end.
Definition allows (kind : option str) (s : SymbolDecl) : bool := match kind with Some k => decl_kind_is s k | None => true end.
Definition decl_allowed (s : SymbolDecl) : bool := allows (q_symbol_kind q) s.
(** Any declaration, a callable, or a type or [impl] block. *)
Definition decl_accepts (g : Grain) (s : SymbolDecl) : bool :=
  match g with
  | GSymbol => true
  | GMethod => bool_decide (sd_kind s = SKMethod) || bool_decide (sd_kind s = SKFunction)
  | GClass => bool_decide (sd_kind s = SKType) || existsb (decl_kind_is s) CLASS_CONTAINER_LANG_KINDS
  | _ => false
  end.

(** The declarations around a token, innermost first. *)
Definition enclosing v (t : TokenDecl) : list (nat * SymbolDecl) :=
  reverse (filter (λ js : nat * SymbolDecl, decl_covers (start (td_span t)) js.2) (enumerate (ex_symbols (doc_ex v)))).

(** ** Owners *)

(** The types of a document with a name. *)
Definition types_named v (o : str) : list (nat * SymbolDecl) :=
  filter (λ js : nat * SymbolDecl, sd_name js.2 = o ∧ decl_accepts GClass js.2 = true) (enumerate (ex_symbols (doc_ex v))).
(** The documents of the same directory and language, by path. *)
Definition near k v : list (dkey * Doc) :=
  filter (λ kv : dkey * Doc, kv.1.1 = k.1 ∧ dir kv.1.2 = dir k.2 ∧ doc_language kv.2 = doc_language v) (gmap_rows a).
Definition types_near k v (o : str) : list (dkey * Doc * (nat * SymbolDecl)) :=
  near k v ≫= λ kv, (λ js, (kv, js)) <$> types_named kv.2 o.

(** The type an owner hint stands for: the first of this document that the
    kind filter allows; if the document has no type of that name, the first of
    its directory, provided the filter allows that one. *)
Definition owner_type k v (o : str) : option (dkey * Doc * (nat * SymbolDecl)) :=
  match types_named v o with
  | [] => x ← head (types_near k v o); if decl_allowed x.2.2 then Some x else None
  | ts => js ← head (filter (λ js : nat * SymbolDecl, decl_allowed js.2 = true) ts); Some (k, v, js)
  end.
Definition owned k v (chain : list (nat * SymbolDecl)) : option (dkey * Doc * (nat * SymbolDecl)) :=
  head (omap (λ js : nat * SymbolDecl, o ← sd_owner js.2; owner_type k v o) chain).

(** ** Rows *)

Definition doc_base k v : Hit :=
  mkHit (q_grain q) k.1.1 (Some k.1.2) (Some k.2) (doc_language v) None None None None None None 1 false false
    (fm_encoding (doc_meta v)) (fm_lossy (doc_meta v)).

(** The declaration a symbolic grain picks for a token. *)
Definition picked k v (t : TokenDecl) : option (dkey * Doc * (nat * SymbolDecl)) :=
  let chain := enclosing v t in
  match head (filter (λ js : nat * SymbolDecl, decl_accepts (q_grain q) js.2 && decl_allowed js.2 = true) chain) with
  | Some js => Some (k, v, js)
  | None =>
      if bool_decide (q_grain q = GClass) && negb (existsb (λ js : nat * SymbolDecl, decl_accepts GClass js.2) chain)
      then owned k v chain else None
  end.

Definition symbol_hit k v js : Hit :=
  with_symbol (Some (qualified_name (ex_symbols (doc_ex v)) js.1 js.2)) (Some (sd_kind js.2)) (sd_lang_kind js.2) None
    (Some (sd_span js.2)) (doc_base k v).
Definition token_hit k v (t : TokenDecl) : Hit :=
  let inner := head (enclosing v t) in
  with_symbol ((λ js : nat * SymbolDecl, qualified_name (ex_symbols (doc_ex v)) js.1 js.2) <$> inner) ((λ js : nat * SymbolDecl, sd_kind js.2) <$> inner)
    (inner ≫= λ js : nat * SymbolDecl, sd_lang_kind js.2) (Some (td_class t)) (Some (td_span t)) (doc_base k v).

Definition token_row k v (it : nat * TokenDecl) : place * Hit :=
  match q_grain q with
  | GToken => ((k, start (td_span it.2), S it.1), token_hit k v it.2)
  | GSymbol | GMethod | GClass =>
      match picked k v it.2 with
      | Some (k', v', js) => ((k', start (sd_span js.2), S js.1), symbol_hit k' v' js)
      | None => ((k, 0, 0%nat), unmatched (bool_decide (ex_symbols (doc_ex v) = [])) (doc_base k v))
      end
  | GFile => ((k, 0, 0%nat), doc_base k v)
  | GRepo => ((k.1, [], 0, 0%nat), roll GRepo (doc_base k v))
  | GOrg => ((k.1.1, [], [], 0, 0%nat), roll GOrg (doc_base k v))
  end.

Definition token_found (t : TokenDecl) : Prop :=
  td_text t = q_text q ∧ match q_class q with Some c => c = td_class t | None => True end.
#[global] Instance token_found_dec t : Decision (token_found t).
Proof. unfold token_found. destruct (q_class q); apply _. Defined.
Definition found_tokens v : list (nat * TokenDecl) :=
  filter (λ it : nat * TokenDecl, token_found it.2) (enumerate (ex_tokens (doc_ex v))).
Definition doc_rows k v : list (place * Hit) := token_row k v <$> found_tokens v.

(** The rows of all documents in scope, with their counts. *)
Definition search_rows : list (place * Hit) :=
  filter (λ kv : dkey * Doc, in_scope kv.1 (doc_language kv.2) = true) (gmap_rows a) ≫= λ kv, doc_rows kv.1 kv.2.
(** The position of the picked declaration's name. *)
Definition row_position (x : place * Hit) : Hit :=
  if is_symbolic (q_grain q) && bool_decide (is_Some (h_symbol x.2)) then
    at_pos (v ← a !! x.1.1.1; s ← ex_symbols (doc_ex v) !! pred x.1.2; Some (decl_pos (ex_tokens (doc_ex v)) s)) x.2
  else x.2.
Definition search_answer : list Hit := row_position <$> page (q_offset q) (q_limit q) (gmap_rows (tally search_rows)).
End spec.
