(* ===== verification/SearchOwners.v ===== *)
(** * The chain of a match

    The symbols [R::search] walks up from a token, or from a type an owner hint
    names, in terms of the file's declarations. *)
From S2P Require Import Prelude Text Schema Varint Stream StreamRound Posting DictBlock Table DictRev StrOps Pattern.
From S2P Require Import Language Encoding Walk Prep Db Catalog Reader Located Navigate Nodes Write Dict Store Entities.
From S2P Require Import Content Ingest Prune Commit Batch Prepare Summary NameCache LazySort Symbols SymbolIds.
From S2P Require Import SearchFiles Chains SymbolSearch Search SearchSpec.

(** The declaration [s], then those around its start, innermost first. *)
Definition up (decls : list SymbolDecl) (j : nat) (s : SymbolDecl) : list (nat * SymbolDecl) :=
  (j, s) :: reverse (filter (λ js : nat * SymbolDecl, decl_covers (start (sd_span s)) js.2) (enumerate (take j decls))).

(** The node of a declaration. *)
Definition node_is (f : Z) (n : Node) (js : nat * SymbolDecl) : Prop :=
  n_id n = sub_id TAG_SYM f (Z.of_nat js.1) ∧ n_name n = sd_name js.2 ∧ n_symbol_kind n = Some (sd_kind js.2) ∧
  n_lang_kind n = sd_lang_kind js.2 ∧ n_span n = Some (sd_span js.2).

Lemma node_kind f n js k : node_is f n js → kind_matches n k = decl_kind_is js.2 k.
Proof. intros (_ & _ & Hk & Hl & _). unfold kind_matches, decl_kind_is. by rewrite Hk, Hl. Qed.
Lemma node_accepts f n js g : node_is f n js → grain_accepts g n = decl_accepts g js.2.
Proof.
  intros Hn. pose proof Hn as (_ & _ & Hk & _). destruct g; cbn; try done; rewrite Hk.
  - f_equal; apply bool_decide_ext; split; congruence.
  - rewrite !(node_kind _ _ _ _ Hn). f_equal. apply bool_decide_ext. split; congruence.
Qed.
Lemma node_allows f n js kind : node_is f n js → kind_allows kind n = allows kind js.2.
Proof. intros Hn. unfold kind_allows, allows. destruct kind; [|done]. by eapply node_kind. Qed.

Lemma filter_enum_snd {A} (P : A → Prop) `{∀ x, Decision (P x)} (l : list A) :
  (filter (λ x : nat * A, P x.2) (enumerate l)).*2 = filter P l.
Proof.
  unfold enumerate. generalize 0%nat. induction l as [|x l IH]; intros m; [done|]. cbn [enum_from]. rewrite !filter_cons. cbn [snd].
  destruct (decide (P x)); cbn [fmap list_fmap snd]; by rewrite IH.
Qed.

(** Filters that keep the same positions are equal. *)
Lemma filter_ext_fst {A} (P Q : nat * A → Prop) `{∀ x, Decision (P x), ∀ x, Decision (Q x)} (l : list (nat * A)) :
  (∀ i x y, (i, x) ∈ l → (i, y) ∈ l → x = y) → (filter P l).*1 = (filter Q l).*1 → filter P l = filter Q l.
Proof.
  intros Hfun Heq. assert (∀ x, x ∈ filter P l → x ∈ l) as HP by (intros x Hx; by apply list_elem_of_filter in Hx as [_ ?]).
  assert (∀ x, x ∈ filter Q l → x ∈ l) as HQ by (intros x Hx; by apply list_elem_of_filter in Hx as [_ ?]).
  revert HP HQ Heq. generalize (filter P l), (filter Q l). intros l1. induction l1 as [|[i x] l1 IH]; intros [|[j y] l2] HP HQ Heq; try done.
  cbn in Heq. injection Heq as -> Heq. rewrite (Hfun j x y (HP _ ltac:(left)) (HQ _ ltac:(left))). f_equal. apply IH; [|by intros; apply HQ; right|done].
  intros z Hz. apply HP. by right.
Qed.

Lemma qualified_up decls j s : qualified_name decls j s = join (lit "::") ((λ js : nat * SymbolDecl, sd_name js.2) <$> reverse (up decls j s)).
Proof.
  unfold qualified_name, up. rewrite reverse_cons, reverse_involutive, fmap_app. cbn [fmap list_fmap snd]. do 2 f_equal. rewrite fmap_app. f_equal.
  unfold around_decls. by rewrite <- filter_enum_snd, <- list_fmap_compose.
Qed.

(** Nodes of declarations, in step. *)
Lemma nodes_qual f ns l : Forall2 (node_is f) ns l → l ≠ [] → qual ns = Some (join (lit "::") ((λ js : nat * SymbolDecl, sd_name js.2) <$> reverse l)).
Proof.
  intros HF Hne. assert (n_name <$> reverse ns = (λ js : nat * SymbolDecl, sd_name js.2) <$> reverse l) as <-.
  { apply Forall2_reverse in HF. induction HF as [|n js ns' l' (_ & Hn & _) _ IH]; [done|]. cbn. by rewrite Hn, IH. }
  destruct HF; [done|]. done.
Qed.

Section stored.
Context `{Redb tbl} `{Serde} (sha256 : list Z → list Z).
Context (d : Db tbl) (es : list (Z * str)) (nt : Z).
Hypothesis D : dict_ok sha256 d es nt.
Context (f : Z) (k : dkey) (v : Doc) (n on rn : Node) (s : Stream).
Hypothesis F : file_is d es f k v n on rn s.
Let syms := st_symbols (with_ranges s).
Let decls := ex_symbols (doc_ex v).

Lemma decl_in j sd : decls !! j = Some sd → decl_at es syms j sd.
Proof. intros Hj. exact (decls_at es syms decls j sd (fi_syms _ _ _ _ _ _ _ _ _ F) Hj). Qed.

Lemma around_enum m p :
  (m ≤ length syms)%nat → (filter (λ js : nat * SymbolDecl, decl_covers p js.2) (enumerate (take m decls))).*1 = around syms m p.
Proof.
  pose proof (fi_syms _ _ _ _ _ _ _ _ _ F) as HF%mapM_Some. fold syms decls in HF. intros _. unfold around, enumerate. clear -HF.
  assert (Forall2 (λ r sd, decl_of_sym es r = Some sd) (take m syms) (take m decls)) as HF' by by apply Forall2_take.
  revert HF'. generalize (take m syms), (take m decls), 0%nat. intros l1 l2 i HF'. revert i.
  induction HF' as [|r sd l1 l2 Hd _ IH]; intros i; [done|]. cbn [enum_from]. rewrite !filter_cons. destruct (decl_span _ _ _ Hd) as [Hsp _].
  assert (decl_covers p sd ↔ covers p (i, r)) as Hc by (unfold decl_covers, covers; by rewrite Hsp). cbn [snd].
  destruct (decide (covers p (i, r))), (decide (decl_covers p sd)); try tauto; cbn [fmap list_fmap fst]; by rewrite IH.
Qed.

(** Following parents meets these declarations. *)
Lemma chain_run l : ∀ cur fuel,
  chains syms cur l.*1 → (∀ js, js ∈ l → decls !! js.1 = Some js.2) → (length l ≤ fuel)%nat →
  ∃ ns, sym_chain d fuel f syms cur = Ok ns ∧ chain_of d fuel f syms cur = Ok (zip l.*1 ns) ∧ Forall2 (node_is f) ns l.
Proof.
  induction l as [|[j sd] l IH]; intros cur fuel Hc Hl Hf; cbn [fmap list_fmap chains fst] in Hc.
  { subst cur. exists []. split; [by destruct fuel|]. split; [by destruct fuel|constructor]. }
  destruct Hc as (-> & r & Hr & Hc). destruct fuel as [|fuel]; [cbn in Hf; lia|]. cbn [sym_chain chain_of]. rewrite Nat2Z.id.
  destruct (sym_node_at sha256 d es nt D f syms j sd) as (m & -> & Hm); [apply decl_in, (Hl (j, sd)); left|].
  cbn [mbind outcome_mbind outcome_bind]. unfold index. rewrite Hr. cbn [mbind outcome_mbind outcome_bind].
  destruct (IH (s_parent r) fuel Hc) as (ns & -> & -> & HF); [intros; apply Hl; by right|cbn in Hf; lia|].
  exists (m :: ns). split; [done|]. split; [done|]. by constructor.
Qed.

Lemma located_sym j r : syms !! j = Some r →
  ∃ r0, st_symbols s !! j = Some r0 ∧ s_parent r0 = s_parent r ∧ s_span r0 = s_span r.
Proof.
  intros Hr. pose proof (with_ranges_fmap (λ r, (s_parent r, s_span r)) s ltac:(done)) as Heq. fold syms in Heq.
  assert (((λ r, (s_parent r, s_span r)) <$> st_symbols s) !! j = Some (s_parent r, s_span r)) as Hl by (rewrite <- Heq, list_lookup_fmap; by rewrite Hr).
  rewrite list_lookup_fmap in Hl. apply fmap_Some in Hl as (r0 & Hr0 & [= ? ?]). by exists r0.
Qed.
Lemma stream_around m p : around syms m p = around (st_symbols s) m p.
Proof. apply around_ext. unfold syms. by rewrite with_ranges_fmap. Qed.
Lemma syms_len : length syms = length decls ∧ length (st_symbols s) = length syms.
Proof.
  pose proof (fi_syms _ _ _ _ _ _ _ _ _ F) as HF%mapM_Some%Forall2_length. split; [exact HF|].
  unfold syms. rewrite <- (length_fmap s_parent (st_symbols (with_ranges s))), with_ranges_fmap by done. by rewrite length_fmap.
Qed.

Lemma decl_node j sd : decls !! j = Some sd → ∃ m, sym_node d f j syms = Ok m ∧ node_is f m (j, sd).
Proof. intros Hj. destruct (sym_node_at sha256 d es nt D f syms j sd (decl_in j sd Hj)) as (m & Hm & Hn). by exists m. Qed.

(** A name is the dictionary's id of it. *)
Lemma named_iff o ot j sd r :
  entry_text o es = Some ot → decls !! j = Some sd → syms !! j = Some r → (s_name r =? o) = bool_decide (sd_name sd = ot).
Proof.
  intros Ho Hj Hr. destruct (decl_in j sd Hj) as (r' & Hr' & Hd). assert (r' = r) as -> by congruence.
  destruct (proj1 (bind_Some _ _ _) Hd) as (name & Hn & (lk & _ & (ow & _ & [= <-])%bind_Some)%bind_Some). cbn [sd_name].
  case_bool_decide as He; [apply Z.eqb_eq; subst; by eapply (entry_text_inj sha256 d es nt D)|]. apply Z.eqb_neq. intros <-. congruence.
Qed.

(** The first type of this file with the owner's name. *)
Lemma resolve_owner_run kind o ot :
  entry_text o es = Some ot →
  resolve_owner d f syms o kind = Ok (fst <$> head (filter (λ js : nat * SymbolDecl, allows kind js.2 = true) (types_named v ot))).
Proof.
  intros Ho. unfold resolve_owner, types_named. fold decls.
  assert (∀ l l', Forall2 (λ (x : nat * SymRec) (y : nat * SymbolDecl), x.1 = y.1 ∧ syms !! x.1 = Some x.2 ∧ decls !! y.1 = Some y.2) l l' →
    resolve_owner_loop d f syms o kind l = Ok (fst <$> head (filter (λ js : nat * SymbolDecl, allows kind js.2 = true)
      (filter (λ js : nat * SymbolDecl, sd_name js.2 = ot ∧ decl_accepts GClass js.2 = true) l')))) as Hgo.
  { induction 1 as [|[i r] [j sd] l l' (Hij & Hr & Hj) _ IH]; [done|]. cbn [fst snd] in *. subst i. cbn [resolve_owner_loop].
    rewrite (named_iff o ot j sd r Ho Hj Hr), filter_cons. cbn [snd]. case_bool_decide as Hn; cbn [negb].
    - destruct (decl_node j sd Hj) as (m & -> & Hm). cbn [mbind outcome_mbind outcome_bind].
      rewrite (node_accepts _ _ _ GClass Hm), (node_allows _ _ _ kind Hm). cbn [snd]. destruct (decl_accepts GClass sd) eqn:Ea.
      + rewrite decide_True by done. rewrite filter_cons. cbn [snd]. destruct (allows kind sd) eqn:Ek; [by rewrite decide_True|]. by rewrite decide_False.
      + rewrite decide_False by (intros [_ ?]; done). exact IH.
    - rewrite decide_False by (intros [? _]; done). exact IH. }
  apply Hgo. pose proof (fi_syms _ _ _ _ _ _ _ _ _ F) as HF%mapM_Some. fold syms decls in HF. apply Forall2_same_length_lookup.
  unfold enumerate. rewrite !length_enum_from. split; [by eapply Forall2_length|]. intros i [i1 r] [i2 sd]. rewrite !lookup_enum_from.
  intros (r0 & Hr & [= <- <-])%fmap_Some (s0 & Hs & [= <- <-])%fmap_Some. cbn. done.
Qed.

(** The chain of a declaration. *)
Lemma up_run j sd :
  decls !! j = Some sd → ∃ ns, sym_chain d (S (length syms)) f syms (Some (Z.of_nat j)) = Ok ns ∧ Forall2 (node_is f) ns (up decls j sd).
Proof.
  intros Hj. destruct (decl_in j sd Hj) as (r & Hr & Hd). destruct (located_sym j r Hr) as (r0 & Hr0 & Hp & Hsp). destruct (decl_span _ _ _ Hd) as [Hspan _].
  pose proof (fi_loc _ _ _ _ _ _ _ _ _ F) as L. pose proof (lookup_lt_Some _ _ _ Hr) as Hlt. destruct syms_len as [_ Hlen].
  destruct (chain_run (up decls j sd) (Some (Z.of_nat j)) (S (length syms))) as (ns & Hns & _ & HF); [| | |by exists ns].
  - cbn [up fmap list_fmap fst chains]. split; [done|]. exists r. split; [done|].
    rewrite fmap_reverse, around_enum, stream_around, <- Hp, (lo_sym _ L _ _ Hr0), Hspan, Hsp by lia.
    apply (chains_ext (st_symbols s)); [unfold syms; by rewrite with_ranges_fmap|]. apply around_chains; [done|lia].
  - intros [i x] [Hi|Hi]%elem_of_cons; [by injection Hi as -> ->|]. apply elem_of_reverse, list_elem_of_filter in Hi as [_ Hi%enumerate_elem].
    by apply lookup_take_Some in Hi as [? _].
  - unfold up. cbn [length]. rewrite length_reverse. assert (length (filter (λ js : nat * SymbolDecl, decl_covers (start (sd_span sd)) js.2) (enumerate (take j decls))) ≤ j)%nat; [|lia].
    etrans; [apply length_filter|]. unfold enumerate. rewrite length_enum_from, length_take. lia.
Qed.

(** The chain of a token. *)
Lemma enclosing_run o t td :
  st_tokens s !! o = Some t → decl_of_tok es t = Some td →
  ∃ ns, chain_of d (S (length syms)) f syms (t_parent t) = Ok (zip (enclosing v td).*1 ns) ∧ Forall2 (node_is f) ns (enclosing v td).
Proof.
  intros Ho Htd. pose proof (fi_loc _ _ _ _ _ _ _ _ _ F) as L. destruct syms_len as [Hl1 Hlen].
  assert (td_span td = t_span t) as Hsp by (by destruct (proj1 (bind_Some _ _ _) Htd) as (x & _ & [= <-])).
  destruct (chain_run (enclosing v td) (t_parent t) (S (length syms))) as (ns & _ & Hns & HF); [| | |by exists ns].
  - unfold enclosing. fold decls. rewrite fmap_reverse, <- (take_ge decls (length syms)), around_enum, stream_around by lia.
    rewrite Hsp, (lo_tok _ L _ _ Ho), <- Hlen. apply (chains_ext (st_symbols s)); [unfold syms; by rewrite with_ranges_fmap|].
    rewrite <- (take_ge (st_symbols s) (length (st_symbols s))) at 2 by lia. by apply around_chains.
  - intros [i x] [_ Hi%enumerate_elem]%elem_of_reverse%list_elem_of_filter. done.
  - unfold enclosing. rewrite length_reverse. etrans; [apply length_filter|]. unfold enumerate. rewrite length_enum_from. fold decls. lia.
Qed.

(** What is left of a token's chain from a symbol on is the symbol's own chain. *)
Lemma enclosing_drop td i j sd :
  enclosing v td !! i = Some (j, sd) → drop i (enclosing v td) = up decls j sd.
Proof.
  intros Hi. set (p := start (td_span td)). set (L := filter (λ js : nat * SymbolDecl, decl_covers p js.2) (enumerate decls)).
  assert (enclosing v td = reverse L) as He by done. rewrite He in *.
  assert ((j, sd) ∈ L) as Hin by (apply elem_of_reverse; by eapply list_elem_of_lookup_2). apply list_elem_of_filter in Hin as [Hcov Hj%enumerate_elem].
  cbn [snd] in Hcov. assert (L = filter (λ js : nat * SymbolDecl, decl_covers p js.2) (enumerate (take j decls)) ++ (j, sd) ::
    filter (λ js : nat * SymbolDecl, decl_covers p js.2) (enum_from (S j) (drop (S j) decls))) as HL.
  { unfold L, enumerate. rewrite <- (take_drop_middle decls j sd Hj) at 1. rewrite enum_from_app, filter_app. f_equal.
    rewrite length_take_le by (apply lookup_lt_Some in Hj; lia). cbn [enum_from Nat.add]. rewrite filter_cons. by rewrite decide_True. }
  assert (filter (λ js : nat * SymbolDecl, decl_covers p js.2) (enumerate (take j decls)) =
    filter (λ js : nat * SymbolDecl, decl_covers (start (sd_span sd)) js.2) (enumerate (take j decls))) as Hsame.
  { destruct (decl_in j sd Hj) as (r & Hr & Hd). destruct (located_sym j r Hr) as (r0 & Hr0 & Hp0 & Hsp0). destruct (decl_span _ _ _ Hd) as [Hspan _].
    destruct syms_len as [Hl1 Hlen]. apply lookup_lt_Some in Hj as Hjl.
    apply filter_ext_fst; [intros i1 x y Hx%enumerate_elem Hy%enumerate_elem; congruence|]. rewrite !around_enum, !stream_around by lia.
    rewrite Hspan, <- Hsp0. apply (around_start s (fi_loc _ _ _ _ _ _ _ _ _ F) j r0 p Hr0). unfold covers. cbn. rewrite Hsp0, <- Hspan. exact Hcov. }
  rewrite HL, reverse_app, reverse_cons, <- app_assoc in *. set (A := reverse (filter _ (enum_from _ _))) in *.
  assert (i = length A) as ->.
  { assert (NoDup (reverse L)) as Hnd by (rewrite reverse_Permutation; apply NoDup_filter, enumerate_NoDup).
    eapply NoDup_lookup; [exact Hnd| |]; rewrite HL, reverse_app, reverse_cons, <- app_assoc; [exact Hi|]. fold A.
    rewrite lookup_app_r by lia. by rewrite Nat.sub_diag. }
  rewrite drop_app_length. cbn [app]. unfold up. by rewrite Hsame.
Qed.
End stored.

(** ** Owner hints

    Where an owner hint leads ([R::resolve_owner_sibling] and its memo tables)
    in terms of documents: the first type of that name among the files of the
    directory. *)

(** The file of a document. *)
Definition fid (N : gmap Z Node) (k : dkey) : Z := default 0 (head (filter (λ f, path_of N f = Some k) (map_to_list N).*1)).

Lemma bind_sorted {A B} `{KeyOrder K} (R : A → A → Prop) (h : A → list B) (g : B → K) l :
  StronglySorted R l → (∀ x, x ∈ l → StronglySorted key_lt (g <$> h x)) →
  (∀ x y u w, x ∈ l → y ∈ l → R x y → u ∈ h x → w ∈ h y → key_lt (g u) (g w)) → StronglySorted key_lt (g <$> (l ≫= h)).
Proof.
  induction 1 as [|x l Hl IH Hx]; intros Hin Hcross; [constructor|]. rewrite bind_cons, fmap_app. apply StronglySorted_app_2.
  - intros c e (u & -> & Hu)%list_elem_of_fmap (w & -> & Hw)%list_elem_of_fmap. apply list_elem_of_bind in Hw as (y & Hw & Hy).
    rewrite Forall_forall in Hx. eapply (Hcross x y); [left|by right|by apply Hx|done|done].
  - apply Hin. left.
  - apply IH; [intros; apply Hin; by right|]. intros y z u w Hy Hz. apply Hcross; by right.
Qed.

Lemma key_sorted_eq `{KeyOrder K} (l l' : list K) : StronglySorted key_lt l → StronglySorted key_lt l' → (∀ x, x ∈ l ↔ x ∈ l') → l = l'.
Proof.
  intros Hl Hl' Heq. assert (∀ m : list K, ((λ x, (x, ())) <$> m).*1 = m) as Hid by (intros m; rewrite <- list_fmap_compose; apply list_fmap_id).
  rewrite <- (Hid l), <- (Hid l'). f_equal. apply rows_eq; [by rewrite Hid..|].
  intros [x []]. rewrite !list_elem_of_fmap. split; intros (y & [= <-] & Hy); exists x; split; [done|by apply Heq|done|by apply Heq].
Qed.
Lemma omap_NoDup {A B} (g : A → option B) l :
  (∀ x y z, x ∈ l → y ∈ l → g x = Some z → g y = Some z → x = y) → NoDup l → NoDup (omap g l).
Proof.
  intros Hinj. induction 1 as [|x l Hx Hnd IH]; [constructor|]. cbn [omap list_omap]. specialize (IH ltac:(intros ? ? ? ? ?; apply Hinj; by right)).
  destruct (g x) as [z|] eqn:E; [|done]. constructor; [|done]. intros (y & Hy & Hz)%list_elem_of_omap. apply Hx.
  by rewrite (Hinj x y z ltac:(left) ltac:(by right) E Hz).
Qed.
Lemma filter_enum_sorted {A} (P : nat * A → Prop) `{∀ x, Decision (P x)} (l : list A) :
  StronglySorted key_lt ((λ x : nat * A, Z.of_nat x.1) <$> filter P (enumerate l)).
Proof.
  unfold enumerate. generalize 0%nat. induction l as [|x l IH]; intros m; cbn [enum_from]; [constructor|].
  rewrite filter_cons. case_decide; [|apply IH]. cbn [fmap list_fmap]. constructor; [apply IH|]. apply Forall_forall.
  intros i ([j y] & -> & [_ [Hj _]%elem_of_enum_from]%list_elem_of_filter)%list_elem_of_fmap. cbn in *. lia.
Qed.
Lemma sorted_by_key {A} `{KeyOrder K} (g : A → K) l : StronglySorted key_lt (g <$> l) → StronglySorted (λ x y, key_lt (g x) (g y)) l.
Proof.
  induction l as [|x l IH]; intros Hs; [constructor|]. cbn in Hs. apply StronglySorted_inv in Hs as [Hs Hx]. constructor; [by apply IH|].
  rewrite Forall_fmap in Hx. exact Hx.
Qed.

Section owners.
Context `{Redb tbl} `{SerdeSlim} (sha256 : list Z → list Z).
Context (d : Db tbl) (a : gmap dkey Doc) (N : gmap Z Node) (S : gmap Z Stream) (es : list (Z * str)) (next nt : Z).
Hypothesis R : rep sha256 d a N S es next nt.

Lemma fid_path f k : path_of N f = Some k → fid N k = f.
Proof.
  intros Hf. unfold fid. assert (f ∈ filter (λ f, path_of N f = Some k) (map_to_list N).*1) as Hin.
  { apply list_elem_of_filter. split; [done|]. apply path_of_Some in Hf as (n & _ & _ & _ & _ & Hn & _). apply list_elem_of_fmap. exists (f, n). split; [done|]. by apply elem_of_map_to_list. }
  destruct (filter _ _) as [|g l] eqn:E; [by apply elem_of_nil in Hin|]. cbn. assert (g ∈ g :: l) as Hg by left. rewrite <- E in Hg.
  apply list_elem_of_filter in Hg as [Hg _]. by eapply path_unique; [apply R|..].
Qed.
Lemma fid_entry k v : a !! k = Some v → entry_at N S es (fid N k) = Some (k, v).
Proof.
  intros (f & Hf)%(rp_docs _ _ _ _ _ _ _ _ R). pose proof Hf as (n & s & Hp & _)%entry_at_Some. by rewrite (fid_path f k Hp).
Qed.
Lemma entry_doc f k v : entry_at N S es f = Some (k, v) → a !! k = Some v ∧ fid N k = f.
Proof.
  intros Hf. split; [apply (rp_docs _ _ _ _ _ _ _ _ R); by exists f|]. apply entry_at_Some in Hf as (n & s & Hp & _). by apply fid_path.
Qed.

(** ** Sibling files *)

(** A file as the search sees it. *)
Record file_row_is (f : Z) (k : dkey) (v : Doc) (n : Node) : Prop := mkFileRowIs {
  fr_entry : entry_at N S es f = Some (k, v);
  fr_node : N !! f = Some n;
  fr_id : n_id n = f;
  fr_name : n_name n = k.2;
  fr_lang : n_language n = doc_language v;
}.
Lemma entry_row f k v : entry_at N S es f = Some (k, v) → ∃ n, file_row_is f k v n ∧ n_kind n = File.
Proof.
  intros He. pose proof He as (n & s & (n' & r & rn & o & on & Hn' & Hk & _ & _ & _ & _ & ->)%path_of_Some & Hn & Hs & Hv)%entry_at_Some.
  assert (n' = n) as -> by congruence. exists n. split; [|done]. destruct (doc_of_fields _ _ _ _ Hv) as (_ & _ & Hl).
  split; try done. by apply (en_id _ _ _ _ _ (rp_ents _ _ _ _ _ _ _ _ R)).
Qed.

(** Files with the same parent are in the same repository, and conversely. *)
Lemma same_parent f k v n f' k' v' n' :
  file_row_is f k v n → file_row_is f' k' v' n' → n_parent n = n_parent n' ↔ k.1 = k'.1.
Proof.
  intros [He Hn _ _ _] [He' Hn' _ _ _].
  apply entry_at_Some in He as (? & ? & (m & r & rn & o & on & Hm & Hk & Hr & Hrn & Ho & Hon & ->)%path_of_Some & _).
  apply entry_at_Some in He' as (? & ? & (m' & r' & rn' & o' & on' & Hm' & Hk' & Hr' & Hrn' & Ho' & Hon' & ->)%path_of_Some & _).
  assert (m = n) as -> by congruence. assert (m' = n') as -> by congruence. rewrite Hr, Hr'. cbn [fst]. split.
  - intros [= <-]. assert (rn' = rn) as -> by congruence. assert (o' = o) as -> by congruence. congruence.
  - intros [= E1 E2]. pose proof (rp_ents _ _ _ _ _ _ _ _ R) as E.
    destruct (file_parents _ _ _ _ _ _ _ E Hn Hk) as (r1 & rn1 & o1 & on1 & X1 & X2 & X3 & X4 & X5 & X6 & X7).
    destruct (file_parents _ _ _ _ _ _ _ E Hn' Hk') as (r2 & rn2 & o2 & on2 & Y1 & Y2 & Y3 & Y4 & Y5 & Y6 & Y7). simplify_eq.
    assert (o' = o) as -> by (eapply ents_key_inj; [exact E|done|done|congruence..]).
    f_equal. eapply ents_key_inj; [exact E|done|done|congruence..].
Qed.
Section sibling.
Context (f : Z) (k : dkey) (v : Doc) (n : Node) (ot : str).
Hypothesis Fr : file_row_is f k v n.

Definition sib_path (f2 : Z) : option str :=
  m ← N !! f2;
  if bool_decide (n_parent m = n_parent n) && bool_decide (n_language m = n_language n) && bool_decide (dir (n_name m) = dir (n_name n))
  then Some (n_name m) else None.
Definition cand_of (id : Z) : option (str * Z * Z) :=
  let '(tag, f2, idx) := split_id id in
  if negb (tag =? TAG_SYM) || (f2 =? n_id n) then None else p ← sib_path f2; Some (p, idx, f2).

Lemma cands_run ids : ∀ cands rows,
  (∀ f2 p, rows !! f2 = Some p → p = sib_path f2) → (∀ id, id ∈ ids → is_Some (N !! (split_id id).1.2)) →
  ∃ rows', try_fold (sibling_cand d n) (cands, rows) ids = Ok (cands ++ omap cand_of ids, rows').
Proof.
  induction ids as [|id ids IH]; intros cands rows Hm Hin; [exists rows; cbn; by rewrite app_nil_r|]. cbn [try_fold omap list_omap]. unfold sibling_cand at 2. unfold cand_of at 1.
  pose proof (Hin id ltac:(left)) as [m Hf2]. destruct (split_id id) as [[tag f2] idx]. cbn [fst snd] in Hf2.
  destruct (negb (tag =? TAG_SYM) || (f2 =? n_id n)).
  { cbn [mbind outcome_mbind outcome_bind]. apply IH; [done|intros; apply Hin; by right]. }
  assert (∃ rows', sibling_row d n rows f2 = Ok (sib_path f2, rows') ∧ ∀ g p, rows' !! g = Some p → p = sib_path g) as (rows' & -> & Hm').
  { unfold sibling_row. destruct (rows !! f2) as [p|] eqn:E; [rewrite (Hm _ _ E) in *; by exists rows|].
    unfold need. rewrite (node_at sha256 d a N S es next nt R f2 m Hf2). cbn [mbind outcome_mbind outcome_bind ok_or]. unfold sib_path at 1. rewrite Hf2. cbn [mbind option_bind].
    eexists. split; [done|]. intros g p [[<- <-]|[Hne Hg]]%lookup_insert_Some; [|by apply Hm]. unfold sib_path. by rewrite Hf2. }
  cbn [mbind outcome_mbind outcome_bind]. destruct (IH (match sib_path f2 with Some p => cands ++ [(p, idx, f2)] | None => cands end) rows') as (rows2 & ->);
    [done|intros; apply Hin; by right|]. exists rows2. destruct (sib_path f2); cbn [mbind option_bind]; [|done]. by rewrite <- app_assoc.
Qed.

(** The declarations of that name in the other files of the directory. *)
Definition named_decls (w : Doc) : list (nat * SymbolDecl) :=
  filter (λ js : nat * SymbolDecl, sd_name js.2 = ot) (enumerate (ex_symbols (doc_ex w))).
Definition near_named : list (dkey * Doc * (nat * SymbolDecl)) :=
  filter (λ kv : dkey * Doc, kv.1 ≠ k) (near a k v) ≫= λ kv, (λ js, (kv, js)) <$> named_decls kv.2.
Definition cand_at (x : dkey * Doc * (nat * SymbolDecl)) : str * Z * Z := (x.1.1.2, Z.of_nat x.2.1, fid N x.1.1).

Lemma near_named_elem x :
  x ∈ near_named ↔ a !! x.1.1 = Some x.1.2 ∧ x.1.1 ≠ k ∧ x.1.1.1 = k.1 ∧ dir x.1.1.2 = dir k.2 ∧ doc_language x.1.2 = doc_language v ∧
    ex_symbols (doc_ex x.1.2) !! x.2.1 = Some x.2.2 ∧ sd_name x.2.2 = ot.
Proof.
  destruct x as [[k' v'] [j sd]]. unfold near_named. rewrite list_elem_of_bind. cbn [fst snd]. split.
  - intros ([k1 v1] & ([j1 s1] & [= -> -> -> ->] & Hj)%list_elem_of_fmap & [Hk Hn]%list_elem_of_filter).
    apply list_elem_of_filter in Hn as [(Hd1 & Hd2 & Hd3) Hin%gmap_rows_elem]. apply list_elem_of_filter in Hj as [Hs Hj%enumerate_elem]. cbn [fst snd] in *. done.
  - intros (Ha & Hk & Hd1 & Hd2 & Hd3 & Hj & Hs). exists (k', v'). split.
    + apply list_elem_of_fmap. exists (j, sd). split; [done|]. apply list_elem_of_filter. split; [done|]. by apply enumerate_elem.
    + apply list_elem_of_filter. split; [done|]. apply list_elem_of_filter. split; [done|]. by apply gmap_rows_elem.
Qed.

Lemma cand_of_at id x :
  cand_of id = Some x → sym_at S es ot id → ∃ y, y ∈ near_named ∧ x = cand_at y.
Proof.
  intros Hc (f2 & [k' v'] & j & sd & He & Hj & Hs & ->)%(sym_at_decl sha256 d a N S es next nt R).
  destruct (entry_syms sha256 d a N S es next nt R f2 k' v' He) as (_ & _ & _ & Hf & Hmax). cbn [snd] in Hj. pose proof (lookup_lt_Some _ _ _ Hj) as Hl.
  unfold cand_of in Hc. destruct (sub_id_run TAG_SYM f2 (Z.of_nat j)) as [_ Hsp]; [unfold TAG_SYM; lia|lia|unfold u32; lia|]. rewrite Hsp in Hc.
  destruct (entry_row f2 k' v' He) as (m & Fm & _). destruct (entry_doc f2 k' v' He) as [Ha Hfid].
  cbn [negb orb] in Hc. rewrite Z.eqb_refl in Hc. cbn [negb orb] in Hc. destruct (f2 =? n_id n) eqn:Ef; [done|]. apply Z.eqb_neq in Ef.
  unfold sib_path in Hc. rewrite (fr_node _ _ _ _ Fm) in Hc. cbn [mbind option_bind] in Hc.
  destruct (bool_decide (n_parent m = n_parent n)) eqn:E1; [|done]. destruct (bool_decide (n_language m = n_language n)) eqn:E2; [|done].
  destruct (bool_decide (dir (n_name m) = dir (n_name n))) eqn:E3; [|done]. apply bool_decide_eq_true in E1, E2, E3. injection Hc as <-.
  exists (k', v', (j, sd)). split; [|unfold cand_at; cbn; by rewrite (fr_name _ _ _ _ Fm), Hfid].
  apply near_named_elem. cbn [fst snd]. rewrite (fr_lang _ _ _ _ Fm), (fr_lang _ _ _ _ Fr) in E2. rewrite (fr_name _ _ _ _ Fm), (fr_name _ _ _ _ Fr) in E3.
  split_and!; try done.
  - intros ->. apply Ef. rewrite (fr_id _ _ _ _ Fr). destruct (entry_doc f k v (fr_entry _ _ _ _ Fr)) as [_ Hf']. congruence.
  - by apply (same_parent _ _ _ _ _ _ _ _ Fm Fr).
Qed.

Lemma cand_at_of y : y ∈ near_named → ∃ id, sym_at S es ot id ∧ cand_of id = Some (cand_at y) ∧ u64 id.
Proof.
  destruct y as [[k' v'] [j sd]]. intros (Ha & Hk & Hd1 & Hd2 & Hd3 & Hj & Hs)%near_named_elem. cbn [fst snd] in *.
  pose proof (fid_entry k' v' Ha) as He. set (f2 := fid N k') in *.
  destruct (entry_syms sha256 d a N S es next nt R f2 k' v' He) as (_ & _ & _ & Hf & Hmax). pose proof (lookup_lt_Some _ _ _ Hj) as Hl.
  destruct (sub_id_run TAG_SYM f2 (Z.of_nat j)) as [Hu Hsp]; [unfold TAG_SYM; lia|lia|unfold u32; lia|].
  exists (sub_id TAG_SYM f2 (Z.of_nat j)). split; [apply (sym_at_decl sha256 d a N S es next nt R); by exists f2, (k', v'), j, sd|]. split; [|done].
  destruct (entry_row f2 k' v' He) as (m & Fm & _). unfold cand_of. rewrite Hsp, Z.eqb_refl. cbn [negb orb].
  assert ((f2 =? n_id n) = false) as ->.
  { apply Z.eqb_neq. rewrite (fr_id _ _ _ _ Fr). intros Heq. apply Hk. pose proof (fr_entry _ _ _ _ Fr) as He'. rewrite <- Heq in He'. congruence. }
  unfold sib_path. rewrite (fr_node _ _ _ _ Fm). cbn [mbind option_bind].
  rewrite !bool_decide_eq_true_2; [cbn [andb mbind option_bind]; unfold cand_at; cbn; by rewrite (fr_name _ _ _ _ Fm)|..].
  - by rewrite (fr_name _ _ _ _ Fm), (fr_name _ _ _ _ Fr).
  - by rewrite (fr_lang _ _ _ _ Fm), (fr_lang _ _ _ _ Fr).
  - by apply (same_parent _ _ _ _ _ _ _ _ Fm Fr).
Qed.
Lemma cand_of_id id x : sym_at S es ot id → cand_of id = Some x → id = sub_id TAG_SYM x.2 x.1.2.
Proof.
  intros (f2 & [k' v'] & j & sd & He & Hj & Hs & ->)%(sym_at_decl sha256 d a N S es next nt R).
  destruct (entry_syms sha256 d a N S es next nt R f2 k' v' He) as (_ & _ & _ & Hf & Hmax). cbn [snd] in Hj. pose proof (lookup_lt_Some _ _ _ Hj) as Hl.
  unfold cand_of. destruct (sub_id_run TAG_SYM f2 (Z.of_nat j)) as [_ ->]; [unfold TAG_SYM; lia|lia|unfold u32; lia|].
  case_match; [done|]. by intros (p & _ & [= <-])%bind_Some.
Qed.

Lemma named_decls_sorted w : StronglySorted key_lt ((λ js : nat * SymbolDecl, Z.of_nat js.1) <$> named_decls w).
Proof. unfold named_decls. apply filter_enum_sorted. Qed.

Lemma near_named_sorted : StronglySorted key_lt (cand_at <$> near_named).
Proof.
  unfold near_named. apply (bind_sorted (λ x y : dkey * Doc, key_lt x.1 y.1)).
  - apply sorted_by_key, filter_rows_sorted. unfold near. apply filter_rows_sorted, gmap_rows_sorted.
  - intros [k' v'] _. rewrite <- list_fmap_compose. cbn [snd]. pose proof (named_decls_sorted v') as Hs. revert Hs. generalize (named_decls v') as l.
    induction l as [|js l IH]; intros Hs; [constructor|]. cbn in Hs |- *. apply StronglySorted_inv in Hs as [Hs Hx]. constructor; [by apply IH|].
    rewrite Forall_forall in Hx. apply Forall_forall. intros c (y & -> & Hy)%list_elem_of_fmap. left. right. split; [done|]. apply Hx, list_elem_of_fmap. by exists y.
  - intros [k1 v1] [k2 v2] u w Hx%list_elem_of_filter Hy%list_elem_of_filter Hlt (j1 & -> & _)%list_elem_of_fmap (j2 & -> & _)%list_elem_of_fmap.
    destruct Hx as [_ [(E1 & _) _]%list_elem_of_filter], Hy as [_ [(E2 & _) _]%list_elem_of_filter]. cbn [fst snd] in *. left. left. cbn.
    destruct Hlt as [Hlt|[_ Hlt]]; [|done]. rewrite E1, E2 in Hlt. by apply key_lt_irrefl in Hlt.
Qed.

(** The candidates in order are those declarations. *)
Lemma cands_sorted :
  ∃ rows, try_fold (sibling_cand d n) ([], ∅) (multimap_get (db_sym_idx d) ot) = Ok (omap cand_of (multimap_get (db_sym_idx d) ot), rows) ∧
    sort_by key_le (omap cand_of (multimap_get (db_sym_idx d) ot)) = cand_at <$> near_named.
Proof.
  set (ids := multimap_get (db_sym_idx d) ot).
  assert (∀ id, id ∈ ids ↔ sym_at S es ot id) as Hids.
  { intros id. unfold ids. rewrite multimap_elem. apply (co_idx _ _ _ _ _ _ _ _ (rp_content _ _ _ _ _ _ _ _ R)). }
  destruct (cands_run ids [] ∅) as (rows & Hrun).
  { intros ? ? Hx. by rewrite lookup_empty in Hx. }
  { intros id (f2 & [k' v'] & j & sd & He & Hj & Hs & ->)%Hids%(sym_at_decl sha256 d a N S es next nt R).
    destruct (entry_syms sha256 d a N S es next nt R f2 k' v' He) as (_ & _ & _ & Hf & Hmax). cbn [snd] in Hj. pose proof (lookup_lt_Some _ _ _ Hj) as Hl.
    destruct (sub_id_run TAG_SYM f2 (Z.of_nat j)) as [_ ->]; [unfold TAG_SYM; lia|lia|unfold u32; lia|]. destruct (entry_row f2 k' v' He) as (m & Fm & _).
    exists m. apply Fm. }
  exists rows. split; [exact Hrun|]. apply key_sorted_eq; [|apply near_named_sorted|].
  - rewrite <- (list_fmap_id (sort_by _ _)). apply (sorted_keys key_le (λ x, x)); [apply key_le_trans|apply key_le_total|intros; by apply key_le_true|].
    rewrite list_fmap_id. apply omap_NoDup; [|apply multimap_NoDup].
    intros i1 i2 x Hi1%Hids Hi2%Hids H1x H2x. by rewrite (cand_of_id i1 x), (cand_of_id i2 x).
  - intros x. rewrite sort_by_perm, list_elem_of_omap, list_elem_of_fmap. split.
    + intros (id & Hid%Hids & Hx). destruct (cand_of_at id x Hx Hid) as (y & Hy & ->). by exists y.
    + intros (y & -> & Hy). destruct (cand_at_of y Hy) as (id & Hid & Hc & _). exists id. by rewrite Hids.
Qed.
End sibling.
(** ** The owner in a sibling *)

Definition syms_at (f : Z) : list SymRec := match S !! f with Some s => st_symbols (with_ranges s) | None => [] end.

Lemma load_symbols_run f k v : entry_at N S es f = Some (k, v) → load_symbols d f = Ok (syms_at f).
Proof.
  intros He. destruct (file_is_at sha256 d a N S es next nt R f k v He) as (n & on & rn & s & Hs & _ & _ & F). unfold load_symbols, syms_at.
  rewrite (fi_raw _ _ _ _ _ _ _ _ _ F), Hs. pose proof (lo_wf _ (fi_loc _ _ _ _ _ _ _ _ _ F)) as Hwf. cbn [ok_or mbind outcome_mbind outcome_bind].
  rewrite decode_lazy_encode by done. cbn [mbind outcome_mbind outcome_bind]. by apply lazy_symbols_encode.
Qed.

Section pick.
Context (kind : option str).
Abbreviation decl_place := (dkey * Doc * (nat * SymbolDecl))%type.

Lemma pick_run o ot (l : list decl_place) : entry_text o es = Some ot → ∀ decoded,
  (∀ g syms, decoded = Some (g, syms) → syms = syms_at g) →
  (∀ x, x ∈ l → a !! x.1.1 = Some x.1.2 ∧ ex_symbols (doc_ex x.1.2) !! x.2.1 = Some x.2.2 ∧ sd_name x.2.2 = ot) →
  sibling_pick d o kind decoded (cand_at <$> l) =
    Ok (x ← head (filter (λ x : decl_place, decl_accepts GClass x.2.2 = true) l);
        if allows kind x.2.2 then Some (Z.of_nat x.2.1, fid N x.1.1, syms_at (fid N x.1.1)) else None).
Proof.
  intros Ho. induction l as [|[[k v] [j sd]] l IH]; intros decoded Hd Hl; [done|]. cbn [fmap list_fmap sibling_pick]. unfold cand_at at 1. cbn [fst snd].
  destruct (Hl (k, v, (j, sd)) ltac:(left)) as (Ha & Hj & Hn). cbn [fst snd] in *. pose proof (fid_entry k v Ha) as He. set (f := fid N k) in *.
  assert ((match decoded with Some (g, syms) => if g =? f then Ok syms else load_symbols d f | None => load_symbols d f end) = Ok (syms_at f)) as ->.
  { destruct decoded as [[g syms]|]; [|by eapply load_symbols_run]. destruct (g =? f) eqn:E; [|by eapply load_symbols_run].
    apply Z.eqb_eq in E as ->. by rewrite (Hd _ _ eq_refl). }
  cbn [mbind outcome_mbind outcome_bind].
  destruct (file_is_at sha256 d a N S es next nt R f k v He) as (n & on & rn & s & Hs & _ & _ & F).
  pose proof (rp_dict _ _ _ _ _ _ _ _ R) as D. assert (syms_at f = st_symbols (with_ranges s)) as Hsy by (unfold syms_at; by rewrite Hs).
  destruct (decl_in d es f k v n on rn s F j sd Hj) as (r & Hr & _). rewrite Nat2Z.id, Hsy, Hr. cbn [ok_or mbind outcome_mbind outcome_bind].
  rewrite (named_iff sha256 d es nt D f k v n on rn s F o ot j sd r Ho Hj Hr), bool_decide_eq_true_2 by done. cbn [negb].
  destruct (decl_node sha256 d es nt D f k v n on rn s F j sd Hj) as (m & -> & Hm). cbn [mbind outcome_mbind outcome_bind].
  rewrite (node_accepts _ _ _ GClass Hm), (node_allows _ _ _ kind Hm), filter_cons. cbn [fst snd]. destruct (decl_accepts GClass sd).
  - rewrite decide_True by done. cbn [head mbind option_bind fst snd]. rewrite <- Hsy. by destruct (allows kind sd).
  - rewrite decide_False by done. apply IH; [|intros; apply Hl; by right]. intros g syms [= <- <-]. by rewrite Hsy.
Qed.

(** The type a hint stands for outside its own file. *)
Definition sibling_type k v (ot : str) : option decl_place := x ← head (types_near a k v ot); if allows kind x.2.2 then Some x else None.

Lemma types_near_named k v ot :
  types_named v ot = [] → a !! k = Some v → filter (λ x : decl_place, decl_accepts GClass x.2.2 = true) (near_named k v ot) = types_near a k v ot.
Proof.
  intros Hnil Hk. unfold near_named, types_near. rewrite <- (bind_filter (λ kv : dkey * Doc, kv.1 ≠ k) _ (near a k v)).
  - generalize (filter (λ kv : dkey * Doc, kv.1 ≠ k) (near a k v)) as l. induction l as [|kv l IH]; [done|]. rewrite !bind_cons, filter_app, IH. f_equal.
    rewrite filter_fmap. f_equal. unfold named_decls, types_named. rewrite list_filter_filter. apply list_filter_iff. intros [j sd]. cbn. tauto.
  - intros [k' v'] [_ Hin%gmap_rows_elem]%list_elem_of_filter Hx%dec_stable. cbn [fst snd] in *. subst k'. assert (v' = v) as -> by congruence. by rewrite Hnil.
Qed.

(** What a resolution says: the chain of the type's symbols, in its file, which is among those read. *)
Definition sibling_is (x : option decl_place) (files : gmap Z FileCtx) (res : option (Z * list Node)) : Prop :=
  match x with
  | None => res = None
  | Some (k, v, js) => a !! k = Some v ∧ ex_symbols (doc_ex v) !! js.1 = Some js.2 ∧ is_Some (files !! fid N k) ∧
      ∃ ns, res = Some (fid N k, ns) ∧ Forall2 (node_is (fid N k)) ns (up (ex_symbols (doc_ex v)) js.1 js.2)
  end.
Definition files_ok (files : gmap Z FileCtx) : Prop := ∀ g c, files !! g = Some c → ctx d g = Ok c.

Lemma sibling_is_mono x files files' res : sibling_is x files res → files ⊆ files' → sibling_is x files' res.
Proof. destruct x as [[[k v] js]|]; [|done]. intros (Ha & Hj & Hf & Hn) Hsub. split_and!; try done. by eapply lookup_weaken_is_Some. Qed.

Lemma resolve_owner_sibling_run f k v n o ot files :
  file_row_is f k v n → entry_text o es = Some ot → types_named v ot = [] → files_ok files →
  ∃ res files', resolve_owner_sibling d n o kind files = Ok (res, files') ∧ files_ok files' ∧ files ⊆ files' ∧ sibling_is (sibling_type k v ot) files' res.
Proof.
  intros Fr Ho Hnil Hf. pose proof (rp_dict _ _ _ _ _ _ _ _ R) as D. unfold resolve_owner_sibling. rewrite (text_run _ _ _ _ _ _ D Ho).
  cbn [mbind outcome_mbind outcome_bind]. destruct (cands_sorted f k v n ot Fr) as (rows & -> & Hs). cbn [mbind outcome_mbind outcome_bind]. rewrite Hs.
  rewrite (pick_run o ot (near_named k v ot) Ho) by (done || intros x (? & _ & _ & _ & _ & ? & ?)%near_named_elem; done).
  destruct (entry_doc f k v (fr_entry _ _ _ _ Fr)) as [Hk _]. rewrite (types_near_named k v ot Hnil Hk). cbn [mbind outcome_mbind outcome_bind].
  unfold sibling_type. destruct (head (types_near a k v ot)) as [[[k2 v2] [j sd]]|] eqn:Eh; cbn [mbind option_bind fst snd]; [|by exists None, files].
  destruct (allows kind sd); [|by exists None, files].
  assert (a !! k2 = Some v2 ∧ ex_symbols (doc_ex v2) !! j = Some sd) as [Ha2 Hj].
  { apply head_Some_elem_of in Eh. unfold types_near in Eh. apply list_elem_of_bind in Eh as ([k3 v3] & (js & [= <- <- <-] & Hjs)%list_elem_of_fmap & [_ Hin%gmap_rows_elem]%list_elem_of_filter).
    split; [done|]. unfold types_named in Hjs. by apply list_elem_of_filter in Hjs as [_ ?%enumerate_elem]. }
  pose proof (fid_entry k2 v2 Ha2) as He. destruct (file_is_at sha256 d a N S es next nt R _ k2 v2 He) as (n2 & on & rn & s & Hs2 & _ & _ & F).
  assert (syms_at (fid N k2) = st_symbols (with_ranges s)) as -> by (unfold syms_at; by rewrite Hs2).
  destruct (up_run sha256 d es nt D _ k2 v2 n2 on rn s F j sd Hj) as (ns & Hns & HF).
  assert (∃ files', ctx_in d (fid N k2) files = Ok files' ∧ files_ok files' ∧ files ⊆ files' ∧ is_Some (files' !! fid N k2)) as (files' & -> & H1f & H2f & H3f).
  { unfold ctx_in. destruct (files !! fid N k2) as [c|] eqn:Ec; [exists files; split_and!; try done; by rewrite Ec|]. rewrite (fi_ctx _ _ _ _ _ _ _ _ _ F).
    cbn [mbind outcome_mbind outcome_bind]. eexists. split; [done|]. split; [|split; [by apply insert_subseteq|rewrite lookup_insert_eq; by eexists]].
    intros g c [[<- <-]|[_ Hg]]%lookup_insert_Some; [apply F|by apply Hf]. }
  cbn [mbind outcome_mbind outcome_bind]. rewrite Hns. cbn [mbind outcome_mbind outcome_bind]. eexists _, files'. split; [done|]. split; [done|]. split; [done|].
  cbn. split_and!; try done. by exists ns.
Qed.
End pick.
End owners.

(** ** The owner of a match

    The owner hints on the chain of a match, followed through the memo tables
    of one query ([R::search] of [graph-store/src/v2.rs]): they give the first
    type that one of the hints stands for. *)

Lemma filter_same {A} (P : A → Prop) `{∀ x, Decision (P x)} (l : list A) : (∀ x, x ∈ l → P x) → filter P l = l.
Proof. induction l as [|x l IH]; intros Hl; [done|]. rewrite filter_cons, decide_True by (apply Hl; left). f_equal. apply IH. intros. apply Hl. by right. Qed.

Section owned.
Context `{Redb tbl} `{SerdeSlim} (sha256 : list Z → list Z).
Context (d : Db tbl) (a : gmap dkey Doc) (N : gmap Z Node) (S : gmap Z Stream) (es : list (Z * str)) (next nt : Z).
Hypothesis R : rep sha256 d a N S es next nt.
Context (q : Query).
Let kind := q_symbol_kind q.

(** ** Memo tables *)

(** The resolutions in a file. *)
Record owners_ok (v : Doc) (ow : Owners) : Prop := mkOwnersOk {
  oo_here o ot j : ow_here ow !! o = Some j → entry_text o es = Some ot →
    j = fst <$> head (filter (λ js : nat * SymbolDecl, allows kind js.2 = true) (types_named v ot));
  oo_any o ot b : ow_any ow !! o = Some b → entry_text o es = Some ot → b = negb (bool_decide (types_named v ot = []));
}.
(** The resolutions in siblings hold for every file of the directory. *)
Record siblings_ok (sb : Siblings) : Prop := mkSiblingsOk {
  so_files : files_ok d (sb_files sb);
  so_owners o ot res f k v n : sb_owners sb !! (o, n_parent n, dir (n_name n), n_language n) = Some res → entry_text o es = Some ot →
    file_row_is N S es f k v n → sibling_is a N (sibling_type a kind k v ot) (sb_files sb) res;
}.

Lemma owners_empty v : owners_ok v (mkOwners ∅ ∅).
Proof. split; intros o ot x Hx; cbn in Hx; by rewrite lookup_empty in Hx. Qed.
Lemma siblings_empty : siblings_ok (mkSiblings ∅ ∅).
Proof. split; [intros g c Hx; cbn in Hx; by rewrite lookup_empty in Hx|]. intros o ot res f k v n Hx. cbn in Hx. by rewrite lookup_empty in Hx. Qed.

(** Files of one directory have the same siblings. *)
Lemma near_same f k v n f' k' v' n' :
  file_row_is N S es f k v n → file_row_is N S es f' k' v' n' → n_parent n = n_parent n' → dir (n_name n) = dir (n_name n') →
  n_language n = n_language n' → near a k v = near a k' v'.
Proof.
  intros F F' Hp Hd Hl. apply (same_parent sha256 d a N S es next nt R _ _ _ _ _ _ _ _ F F') in Hp.
  rewrite (fr_name _ _ _ _ _ _ _ F), (fr_name _ _ _ _ _ _ _ F') in Hd. rewrite (fr_lang _ _ _ _ _ _ _ F), (fr_lang _ _ _ _ _ _ _ F') in Hl.
  unfold near. apply list_filter_iff. intros x. by rewrite Hp, Hd, Hl.
Qed.

Section file.
Context (f : Z) (k : dkey) (v : Doc) (n on rn : Node) (s : Stream).
Hypothesis Fr : file_row_is N S es f k v n.
Hypothesis F : file_is d es f k v n on rn s.
Let syms := st_symbols (with_ranges s).
Let decls := ex_symbols (doc_ex v).

Lemma owner_here_run o ot ow :
  owners_ok v ow → entry_text o es = Some ot → ∃ ow', owner_here d f syms kind o ow =
    Ok (fst <$> head (filter (λ js : nat * SymbolDecl, allows kind js.2 = true) (types_named v ot)), ow') ∧ owners_ok v ow'.
Proof.
  intros Hw Ho. unfold owner_here. destruct (ow_here ow !! o) as [j|] eqn:E; [exists ow; by rewrite (oo_here _ _ Hw o ot j E Ho)|].
  pose proof (rp_dict _ _ _ _ _ _ _ _ R) as D. unfold syms. rewrite (resolve_owner_run sha256 d es nt D f k v n on rn s F kind o ot Ho).
  cbn [mbind outcome_mbind outcome_bind]. eexists. split; [done|]. destruct Hw as [H1w H2w]. split; cbn; [|done].
  intros o' ot' j [[<- <-]|[_ Hj]]%lookup_insert_Some Ho'; [|by eapply H1w]. by assert (ot' = ot) as -> by congruence.
Qed.
Lemma owner_any_run o ot ow :
  owners_ok v ow → entry_text o es = Some ot → ∃ ow', owner_any d f syms o ow = Ok (negb (bool_decide (types_named v ot = [])), ow') ∧ owners_ok v ow'.
Proof.
  intros Hw Ho. unfold owner_any. destruct (ow_any ow !! o) as [j|] eqn:E; [exists ow; by rewrite (oo_any _ _ Hw o ot j E Ho)|].
  pose proof (rp_dict _ _ _ _ _ _ _ _ R) as D. unfold syms. rewrite (resolve_owner_run sha256 d es nt D f k v n on rn s F None o ot Ho).
  cbn [mbind outcome_mbind outcome_bind]. rewrite filter_same by done.
  assert (bool_decide (is_Some (fst <$> head (types_named v ot))) = negb (bool_decide (types_named v ot = []))) as ->.
  { rewrite <- bool_decide_not. apply bool_decide_ext. destruct (types_named v ot); cbn; split; try done. }
  eexists. split; [done|]. destruct Hw as [H1w H2w]. split; cbn; [done|].
  intros o' ot' j [[<- <-]|[_ Hj]]%lookup_insert_Some Ho'; [|by eapply H2w]. by assert (ot' = ot) as -> by congruence.
Qed.
Lemma owner_sibling_run o ot sb :
  siblings_ok sb → entry_text o es = Some ot → types_named v ot = [] →
  ∃ res sb', owner_sibling d n kind o sb = Ok (res, sb') ∧ siblings_ok sb' ∧ sibling_is a N (sibling_type a kind k v ot) (sb_files sb') res.
Proof.
  intros Hs Ho Hnil. unfold owner_sibling. destruct (sb_owners sb !! _) as [res|] eqn:E.
  { exists res, sb. split; [done|]. split; [done|]. by eapply so_owners. }
  destruct (resolve_owner_sibling_run sha256 d a N S es next nt R kind f k v n o ot (sb_files sb) Fr Ho Hnil (so_files _ Hs)) as (res & files & -> & H1f & Hsub & His).
  cbn [mbind outcome_mbind outcome_bind]. eexists _, _. split; [done|]. split; [|done]. split; cbn; [done|].
  intros o' ot' res' f' k' v' n' [[[= <- Hp Hd Hl] <-]|[_ Hx]]%lookup_insert_Some Ho' Fr'.
  - assert (ot' = ot) as -> by congruence. unfold sibling_type, types_near in *. by rewrite (near_same _ _ _ _ _ _ _ _ Fr' Fr).
  - eapply sibling_is_mono; [|exact Hsub]. by eapply so_owners.
Qed.

(** What the loop over the chain finds. *)
Definition owned_is (x : option (dkey * Doc * (nat * SymbolDecl))) (files : gmap Z FileCtx) (chain : list Node) (oin : option Z) : Prop :=
  match x with
  | None => chain = [] ∧ oin = None
  | Some (k', v', js) => a !! k' = Some v' ∧ ex_symbols (doc_ex v') !! js.1 = Some js.2 ∧
      Forall2 (node_is (fid N k')) chain (up (ex_symbols (doc_ex v')) js.1 js.2) ∧
      (k' = k ∧ oin = None ∨ oin = Some (fid N k') ∧ is_Some (files !! fid N k'))
  end.

Lemma owned_loop_run l : (∀ js, js ∈ l → decls !! js.1 = Some js.2) → ∀ ow sb, owners_ok v ow → siblings_ok sb →
  ∃ chain oin ow' sb', owned_loop d kind n f syms l.*1 ow sb = Ok (chain, oin, ow', sb') ∧ owners_ok v ow' ∧ siblings_ok sb' ∧
    owned_is (owned q a k v l) (sb_files sb') chain oin.
Proof.
  destruct (entry_doc sha256 d a N S es next nt R f k v (fr_entry _ _ _ _ _ _ _ Fr)) as [Hk Hfid]. pose proof (rp_dict _ _ _ _ _ _ _ _ R) as D.
  induction l as [|[i sd] l IH]; intros Hl ow sb Hw Hs; [by exists [], None, ow, sb|]. cbn [fmap list_fmap fst owned_loop].
  specialize (IH ltac:(intros; apply Hl; by right)). pose proof (Hl (i, sd) ltac:(left)) as Hi. cbn [fst snd] in Hi.
  destruct (decl_in d es f k v n on rn s F i sd Hi) as (r & Hr & Hd). unfold index. fold syms in Hr. rewrite Hr. cbn [mbind outcome_mbind outcome_bind].
  destruct (proj1 (bind_Some _ _ _) Hd) as (name & _ & (lk & _ & (ot & Hot & [= Hsd])%bind_Some)%bind_Some).
  assert (sd_owner sd = ot) as Hown by (by subst sd). unfold owned. cbn [omap list_omap snd]. fold (owned q a k v l). rewrite Hown. clear Hsd.
  destruct (s_owner r) as [o|]; [|injection Hot as <-; cbn [mbind option_bind]; by apply IH]. apply fmap_Some in Hot as (t & Ho & ->). cbn [mbind option_bind].
  destruct (owner_here_run o t ow Hw Ho) as (ow1 & -> & Hw1). cbn [mbind outcome_mbind outcome_bind]. unfold owner_type.
  destruct (head (filter (λ js : nat * SymbolDecl, allows kind js.2 = true) (types_named v t))) as [[j sj]|] eqn:Eh; cbn [fmap option_fmap option_map fst].
  - assert (decls !! j = Some sj) as Hj.
    { apply head_Some_elem_of, list_elem_of_filter in Eh as [_ Hin]. unfold types_named in Hin. by apply list_elem_of_filter in Hin as [_ ?%enumerate_elem]. }
    destruct (up_run sha256 d es nt D f k v n on rn s F j sj Hj) as (ns & Hns & HF). unfold syms. rewrite Hns. cbn [mbind outcome_mbind outcome_bind].
    exists ns, None, ow1, sb. split; [done|]. split; [done|]. split; [done|].
    destruct (types_named v t) as [|y ys]; [done|]. unfold decl_allowed. fold kind. rewrite Eh. cbn [mbind option_bind head owned_is]. rewrite Hfid. split_and!; try done. by left.
  - assert (∃ ow2, (match kind with Some _ => owner_any d f syms o ow1 | None => Ok (false, ow1) end) = Ok (negb (bool_decide (types_named v t = [])), ow2) ∧
      owners_ok v ow2) as (ow2 & -> & Hw2).
    { clear IH. destruct kind eqn:Ek; [by apply owner_any_run|]. exists ow1. rewrite filter_same in Eh by done.
      destruct (types_named v t); [done|]. by cbn in Eh. }
    cbn [mbind outcome_mbind outcome_bind]. destruct (types_named v t) as [|y ys] eqn:Et; cbn [bool_decide negb].
    + rewrite bool_decide_eq_true_2 by done. cbn [negb].
      destruct (owner_sibling_run o t sb Hs Ho Et) as (res & sb1 & -> & Hs1 & His). cbn [mbind outcome_mbind outcome_bind].
      unfold sibling_type in His. unfold decl_allowed. fold kind.
      destruct (x ← head (types_near a k v t); if allows kind x.2.2 then Some x else None) as [[[k2 v2] js]|]; cbn [sibling_is] in His.
      * destruct His as (Ha2 & Hj2 & Hf2 & ns & -> & HF). exists ns, (Some (fid N k2)), ow2, sb1. split; [done|]. split; [done|]. split; [done|].
        cbn [head owned_is]. split_and!; try done. by right.
      * subst res. by apply IH.
    + rewrite bool_decide_eq_false_2 by done. cbn [negb]. unfold decl_allowed. fold kind. rewrite Eh. cbn [mbind option_bind]. by apply IH.
Qed.
End file.
End owned.
