(* ===== verification/SearchMatch.v ===== *)
(** * The row of a match

    The key and the hit [R::search] of [graph-store/src/v2.rs] makes for a
    token at each grain, in terms of the document: the row [token_row] of the
    specification, with ids in place of indexes. *)
From S2P Require Import Prelude Text Schema Varint Stream StreamRound StreamSafe Posting DictBlock Table DictRev StrOps.
From S2P Require Import Pattern Language Encoding Walk Prep Db Catalog Reader Located Navigate Nodes Write Dict Store.
From S2P Require Import Entities Content Ingest Prune Commit Batch Prepare Summary NameCache LazySort Symbols SymbolIds.
From S2P Require Import SearchFiles Chains SymbolSearch Search SearchSpec SearchOwners.

(** The first match of two lists in step. *)
Lemma find_head {A B} (P : A → Prop) (Q : B → Prop) `{∀ x, Decision (P x), ∀ x, Decision (Q x)} l l' :
  Forall2 (λ x y, P x ↔ Q y) l l' →
  match list_find P l with
  | Some (i, _) => ∃ y, l' !! i = Some y ∧ head (filter Q l') = Some y
  | None => head (filter Q l') = None
  end.
Proof.
  induction 1 as [|x y l l' Hxy _ IH]; [done|]. cbn [list_find]. rewrite filter_cons. destruct (decide (P x)) as [Hp|Hp].
  - rewrite decide_True by tauto. by exists y.
  - rewrite decide_False by tauto. by destruct (list_find P l) as [[i z]|].
Qed.
Lemma existsb_step {A B} (p : A → bool) (q : B → bool) l l' : Forall2 (λ x y, p x = q y) l l' → existsb p l = existsb q l'.
Proof. induction 1 as [|x y l l' Hxy _ IH]; [done|]. cbn. by rewrite Hxy, IH. Qed.

(** The symbols of a chain make this part of a hit. *)
Lemma chain_hit g ns decls j sd h :
  Forall2 (node_is g) ns (up decls j sd) → ∃ m, head ns = Some m ∧ n_id m = sub_id TAG_SYM g (Z.of_nat j) ∧ n_span m = Some (sd_span sd) ∧
    with_symbol (qual ns) (n_symbol_kind m) (n_lang_kind m) None (n_span m) h =
    with_symbol (Some (qualified_name decls j sd)) (Some (sd_kind sd)) (sd_lang_kind sd) None (Some (sd_span sd)) h.
Proof.
  intros HF. pose proof (nodes_qual g ns _ HF ltac:(done)) as Hq. rewrite <- qualified_up in Hq.
  inversion HF as [|m js ns' l' (Hid & Hn & Hk & Hl & Hsp) HF' E1 E2]; subst. exists m. cbn [fst snd] in *. by rewrite Hq, Hk, Hl, Hsp.
Qed.

Section row.
Context `{Redb tbl} `{SerdeSlim} (sha256 : list Z → list Z).
Context (d : Db tbl) (a : gmap dkey Doc) (N : gmap Z Node) (S : gmap Z Stream) (es : list (Z * str)) (next nt : Z).
Hypothesis R : rep sha256 d a N S es next nt.
Context (q : Query).

(** A place as a key: indexes become ids. *)
Definition ren (x : place) : Key :=
  (x.1, match x.2 with O => 0 | Datatypes.S j => sub_id (if decide (q_grain q = GToken) then TAG_TOK else TAG_SYM) (fid N x.1.1) (Z.of_nat j) end).

Lemma owned_near k v l x : a !! k = Some v → owned q a k v l = Some x → x.1.1.1 = k.1.
Proof.
  intros Hk Hx. unfold owned in Hx. apply head_Some_elem_of, list_elem_of_omap in Hx as (js & _ & (o & _ & Ho)%bind_Some). unfold owner_type in Ho.
  destruct (types_named v o); [|by apply bind_Some in Ho as (y & _ & [= <-])]. apply bind_Some in Ho as (y & Hy & Ho). destruct (decl_allowed q y.2.2); [|done].
  injection Ho as ->. apply head_Some_elem_of in Hy. unfold types_near in Hy.
  apply list_elem_of_bind in Hy as ([k' v'] & (z & -> & _)%list_elem_of_fmap & [(? & _) _]%list_elem_of_filter). done.
Qed.

Section file.
Context (f : Z) (k : dkey) (v : Doc) (n on rn : Node) (s : Stream).
Hypothesis Fr : file_row_is N S es f k v n.
Hypothesis F : file_is d es f k v n on rn s.
Let c := mkFileCtx on rn n.
Let syms := st_symbols (with_ranges s).
Let decls := ex_symbols (doc_ex v).

Lemma base_hit_run : base_hit (q_grain q) c 1 = doc_base q k v.
Proof.
  unfold base_hit, doc_base, c. cbn. rewrite (fi_lang _ _ _ _ _ _ _ _ _ F), (fi_enc _ _ _ _ _ _ _ _ _ F), (fi_lossy _ _ _ _ _ _ _ _ _ F).
  by rewrite (fi_key _ _ _ _ _ _ _ _ _ F).
Qed.
Lemma names_key : (n_name on, n_name rn, n_name n) = k.
Proof. by rewrite (fi_key _ _ _ _ _ _ _ _ _ F). Qed.

(** The hit of an owner is in the owner's file. *)
Lemma owned_hit k' v' js oin files :
  a !! k' = Some v' → k'.1 = k.1 → files_ok d files → (k' = k ∧ oin = None ∨ oin = Some (fid N k') ∧ is_Some (files !! fid N k')) →
  ∃ h p, (match oin with
    | Some f2 => o ← unwrap (files !! f2); Ok (in_file (fx_file o) (base_hit (q_grain q) c 1), n_name (fx_file o))
    | None => Ok (base_hit (q_grain q) c 1, n_name (fx_file c))
    end) = Ok (E:=StoreError) (h, p) ∧
    with_symbol (Some (qualified_name (ex_symbols (doc_ex v')) js.1 js.2)) (Some (sd_kind js.2)) (sd_lang_kind js.2) None (Some (sd_span js.2)) h = symbol_hit q k' v' js ∧
    (n_name (fx_org c), n_name (fx_repo c), p) = k'.
Proof.
  intros Ha Hsame Hf. destruct (entry_doc sha256 d a N S es next nt R f k v (fr_entry _ _ _ _ _ _ _ Fr)) as [Hk Hfid]. intros [[-> ->]|[-> [o Ho]]].
  - assert (v' = v) as -> by congruence. eexists _, _. split; [done|]. split; [by rewrite base_hit_run|]. apply names_key.
  - rewrite Ho. cbn [unwrap mbind outcome_mbind outcome_bind]. eexists _, _. split; [done|].
    pose proof (fid_entry sha256 d a N S es next nt R k' v' Ha) as He. destruct (file_is_at sha256 d a N S es next nt R _ k' v' He) as (n' & on' & rn' & s' & _ & _ & _ & F').
    pose proof (Hf _ _ Ho) as Hc. rewrite (fi_ctx _ _ _ _ _ _ _ _ _ F') in Hc. injection Hc as <-. cbn [fx_file].
    pose proof names_key as Hn. pose proof (fi_key _ _ _ _ _ _ _ _ _ F') as Hk'. split.
    + rewrite base_hit_run. unfold symbol_hit, in_file, with_symbol, doc_base. cbn. rewrite (fi_lang _ _ _ _ _ _ _ _ _ F'), (fi_enc _ _ _ _ _ _ _ _ _ F'), (fi_lossy _ _ _ _ _ _ _ _ _ F').
      by rewrite Hsame, Hk'.
    + rewrite <- Hn, Hk' in Hsame. cbn in Hsame. rewrite Hk'. cbn. by rewrite Hsame.
Qed.

(** A match among the declarations of a chain, or an owner. *)
Lemma symbolic_run td ns ow sb :
  q_grain q ≠ GToken → Forall2 (node_is f) ns (enclosing v td) → owners_ok es q v ow → siblings_ok d a N S es q sb →
  ∃ ow' sb', symbolic_row d q c f syms (zip (enclosing v td).*1 ns) ow sb =
    Ok (ren (match picked q a k v td with Some (k', v', js) => (k', start (sd_span js.2), Datatypes.S js.1) | None => (k, 0, 0%nat) end),
        match picked q a k v td with Some (k', v', js) => symbol_hit q k' v' js | None => unmatched (bool_decide (decls = [])) (doc_base q k v) end, ow', sb') ∧
    owners_ok es q v ow' ∧ siblings_ok d a N S es q sb'.
Proof.
  intros Hg HF Hw Hs. unfold symbolic_row. destruct (entry_doc sha256 d a N S es next nt R f k v (fr_entry _ _ _ _ _ _ _ Fr)) as [Hk Hfid].
  set (chain := zip (enclosing v td).*1 ns). assert (chain.*2 = ns) as H2c.
  { unfold chain. rewrite snd_zip; [done|]. rewrite length_fmap. by rewrite (Forall2_length _ _ _ HF). }
  assert (chain.*1 = (enclosing v td).*1) as H1c.
  { unfold chain. rewrite fst_zip; [done|]. rewrite length_fmap. by rewrite (Forall2_length _ _ _ HF). }
  assert (Forall2 (node_is f) chain.*2 (enclosing v td)) as HF2 by by rewrite H2c.
  assert (∀ js, js ∈ enclosing v td → decls !! js.1 = Some js.2) as Hdecl.
  { intros [i x] [_ Hi%enumerate_elem]%elem_of_reverse%list_elem_of_filter. done. }
  assert (existsb (λ x : nat * Node, grain_accepts GClass x.2) chain = existsb (λ js : nat * SymbolDecl, decl_accepts GClass js.2) (enclosing v td)) as ->.
  { apply existsb_step. rewrite Forall2_fmap_l in HF2. eapply Forall2_impl; [exact HF2|]. intros x js Hx. by apply node_accepts with f. }
  pose proof (find_head (λ x : nat * Node, grain_accepts (q_grain q) x.2 && kind_allows (q_symbol_kind q) x.2 = true)
    (λ js : nat * SymbolDecl, decl_accepts (q_grain q) js.2 && decl_allowed q js.2 = true) chain (enclosing v td)) as Hfind.
  assert (Forall2 (λ (x : nat * Node) (js : nat * SymbolDecl), grain_accepts (q_grain q) x.2 && kind_allows (q_symbol_kind q) x.2 = true ↔
    decl_accepts (q_grain q) js.2 && decl_allowed q js.2 = true) chain (enclosing v td)) as HP.
  { rewrite Forall2_fmap_l in HF2. eapply Forall2_impl; [exact HF2|]. intros x js Hx. unfold decl_allowed.
    by rewrite (node_accepts _ _ _ (q_grain q) Hx), (node_allows _ _ _ (q_symbol_kind q) Hx). }
  specialize (Hfind HP).
  assert (∀ (ow : Owners) (sb : Siblings), Ok (row_key GFile c, unmatched (bool_decide (syms = [])) (base_hit (q_grain q) c 1), ow, sb) =
    Ok (E:=StoreError) (ren (k, 0, 0%nat), unmatched (bool_decide (decls = [])) (doc_base q k v), ow, sb)) as Hno.
  { intros. rewrite base_hit_run. unfold ren, row_key, c. cbn [fst snd fx_org fx_repo fx_file]. rewrite names_key. do 5 f_equal.
    apply bool_decide_ext. rewrite <- !length_zero_iff_nil. unfold syms. by rewrite (proj1 (syms_len d es f k v n on rn s F)). }
  unfold picked. destruct (list_find _ chain) as [[i x]|] eqn:Ef.
  - destruct Hfind as ([j sd] & Hi & ->). rewrite bool_decide_eq_false_2 by done. cbn [andb mbind outcome_mbind outcome_bind].
    rewrite H2c. assert (Forall2 (node_is f) (drop i ns) (up decls j sd)) as Hup.
    { unfold decls. rewrite <- (enclosing_drop d es f k v n on rn s F td i j sd Hi). by apply Forall2_drop. }
    destruct (chain_hit f _ decls j sd (base_hit (q_grain q) c 1) Hup) as (m & Hm & Hid & Hsp & Hh). rewrite Hm. cbn [unwrap mbind outcome_mbind outcome_bind]. rewrite Hh.
    exists ow, sb. split; [|done]. rewrite base_hit_run. unfold ren, c. cbn [fst snd fx_org fx_repo fx_file]. rewrite names_key. by rewrite decide_False, Hfid, Hid, Hsp.
  - rewrite Hfind, (bool_decide_eq_true_2 (@None (nat * (nat * Node)) = None)) by done. cbn [andb].
    destruct (bool_decide (q_grain q = GClass) && negb (existsb (λ js : nat * SymbolDecl, decl_accepts GClass js.2) (enclosing v td))).
    + rewrite H1c. destruct (owned_loop_run sha256 d a N S es next nt R q f k v n on rn s Fr F (enclosing v td) Hdecl ow sb Hw Hs) as (ch & oin & ow' & sb' & Hrun & Hw' & Hs' & His).
      change (owned_loop d (q_symbol_kind q) (fx_file c) f syms (enclosing v td).*1 ow sb = Ok (ch, oin, ow', sb')) in Hrun. rewrite Hrun.
      cbn [mbind outcome_mbind outcome_bind]. exists ow', sb'. split; [|done].
      destruct (owned q a k v (enclosing v td)) as [[[k' v'] js]|] eqn:Eo; cbn [owned_is] in His; [|destruct His as [-> ->]; exact (Hno _ _)].
      destruct His as (Ha' & Hj' & HF' & Hin). pose proof (owned_near _ _ _ _ Hk Eo) as Hsame. cbn [fst snd] in Hsame.
      destruct (owned_hit k' v' js oin (sb_files sb') Ha' Hsame (so_files _ _ _ _ _ _ _ Hs') Hin) as (h & p & -> & Hh & Hp). cbn [mbind outcome_mbind outcome_bind].
      destruct (chain_hit _ _ _ _ _ h HF') as (m & Hm & Hid & Hsp & Hh2). destruct ch as [|m' ch]; [done|]. rewrite Hm. cbn [unwrap mbind outcome_mbind outcome_bind].
      rewrite Hh2, Hh. unfold ren. cbn [fst snd]. by rewrite decide_False, Hid, Hsp, Hp.
    + cbn [mbind outcome_mbind outcome_bind]. exists ow, sb. split; [|done]. exact (Hno _ _).
Qed.
(** A match and its token. *)
Definition match_is (x : nat * TokRec) (y : nat * TokenDecl) : Prop :=
  x.1 = y.1 ∧ st_tokens s !! x.1 = Some x.2 ∧ decl_of_tok es x.2 = Some y.2.
(** The symbols are read when the grain needs them. *)
Definition read_syms : list SymRec := if bool_decide (q_grain q = GToken) || is_symbolic (q_grain q) then syms else [].

Lemma match_row_run x y ow sb :
  match_is x y → owners_ok es q v ow → siblings_ok d a N S es q sb →
  ∃ ow' sb', match_row d q c f read_syms x.1 x.2 ow sb = Ok (ren (token_row q a k v y).1, (token_row q a k v y).2, ow', sb') ∧
    owners_ok es q v ow' ∧ siblings_ok d a N S es q sb'.
Proof.
  destruct x as [ord t], y as [ord' td]. intros (Hord & Ht & Htd) Hw Hs. cbn [fst snd] in *. subst ord'. unfold match_row, read_syms.
  destruct (entry_doc sha256 d a N S es next nt R f k v (fr_entry _ _ _ _ _ _ _ Fr)) as [Hk Hfid]. pose proof (rp_dict _ _ _ _ _ _ _ _ R) as D.
  destruct (enclosing_run sha256 d es nt D f k v n on rn s F ord t td Ht Htd) as (ns & Hch & HF). fold syms in Hch.
  pose proof (Forall2_length _ _ _ HF) as Hlen.
  assert (td_span td = t_span t ∧ td_class td = t_class t) as [Hsp Hcl] by (by destruct (proj1 (bind_Some _ _ _) Htd) as (x & _ & [= <-])).
  unfold token_row. pose proof (symbolic_run td ns ow sb) as Hsym. unfold token_row. pose proof base_hit_run as Hb. pose proof names_key as Hn.
  destruct (q_grain q) eqn:Eg; cbn [is_symbolic bool_decide orb] in *;
    try (rewrite bool_decide_eq_false_2 by done; cbn [orb]; rewrite Hch; cbn [mbind outcome_mbind outcome_bind fst snd];
      destruct (Hsym ltac:(done) HF Hw Hs) as (ow' & sb' & -> & Hw' & Hs'); exists ow', sb'; split; [|done]; by destruct (picked q a k v td) as [[[k' v'] js]|]).
  - rewrite bool_decide_eq_true_2 by done. cbn [orb]. rewrite Hch. cbn [mbind outcome_mbind outcome_bind fst snd]. exists ow, sb. split; [|done].
    rewrite snd_zip by (rewrite length_fmap; lia). unfold ren. cbn [fst snd]. rewrite decide_True, Hfid by done. rewrite Hb. unfold c. cbn [fx_org fx_repo fx_file]. rewrite Hn, Hsp.
    do 4 f_equal. unfold token_hit. rewrite Hcl, Hsp. destruct (enclosing v td) as [|[j sd] l] eqn:Ee.
    { by inversion HF. }
    pose proof (enclosing_drop d es f k v n on rn s F td 0 j sd ltac:(by rewrite Ee)) as Hup. rewrite drop_0, Ee in Hup. rewrite Hup in HF.
    pose proof (nodes_qual f ns _ HF ltac:(done)) as Hq. rewrite <- qualified_up in Hq. rewrite Hq.
    inversion HF as [|m js ns' l' (_ & _ & Hkd & Hlk & _) _ E1 E2]; subst. cbn. by rewrite Hkd, Hlk.
  - rewrite bool_decide_eq_false_2 by done. cbn [orb mbind outcome_mbind outcome_bind fst snd]. exists ow, sb. split; [|done]. rewrite Hb. unfold ren, row_key, c. cbn [fst snd fx_org fx_repo fx_file roll]. by rewrite Hn.
  - rewrite bool_decide_eq_false_2 by done. cbn [orb mbind outcome_mbind outcome_bind fst snd]. exists ow, sb. split; [|done]. fold c in Hb. rewrite Hb.
    unfold ren, row_key, c. cbn [fst snd fx_org fx_repo fx_file]. rewrite <- Hn. done.
  - rewrite bool_decide_eq_false_2 by done. cbn [orb mbind outcome_mbind outcome_bind fst snd]. exists ow, sb. split; [|done]. rewrite Hb.
    unfold ren, row_key, c. cbn [fst snd fx_org fx_repo fx_file]. rewrite <- Hn. done.
Qed.
Lemma add_matches_run ms ys : Forall2 match_is ms ys → ∀ ow sb rows,
  owners_ok es q v ow → siblings_ok d a N S es q sb →
  ∃ sb', add_matches d q c f read_syms ms ow sb rows = Ok (add_rows rows (prod_map ren id <$> (token_row q a k v <$> ys)), sb') ∧ siblings_ok d a N S es q sb'.
Proof.
  induction 1 as [|x y ms ys Hxy _ IH]; intros ow sb rows Hw Hs; [by exists sb|]. destruct x as [ord t]. cbn [add_matches].
  destruct (match_row_run _ _ ow sb Hxy Hw Hs) as (ow' & sb' & Hrun & Hw' & Hs'). cbn [fst snd] in Hrun. rewrite Hrun. cbn [mbind outcome_mbind outcome_bind].
  exact (IH ow' sb' _ Hw' Hs').
Qed.
End file.
End row.

(** ** A file that is read

    What [R::search] of [graph-store/src/v2.rs] adds to its rows for one file:
    the rows of the document's matching tokens, found through the posting list. *)

(** Positions kept by filters in step. *)
Lemma filter_step {A B} (T : A → B → Prop) (P : A → Prop) (Q : B → Prop) `{∀ x, Decision (P x), ∀ x, Decision (Q x)} l l' :
  Forall2 T l l' → (∀ x y, T x y → P x ↔ Q y) → Forall2 T (filter P l) (filter Q l').
Proof.
  intros HF Hpq. induction HF as [|x y l l' Hxy _ IH]; [constructor|]. rewrite !filter_cons. specialize (Hpq x y Hxy).
  destruct (decide (P x)), (decide (Q y)); try tauto. by constructor.
Qed.

Section read.
Context `{Redb tbl} `{SerdeSlim} (sha256 : list Z → list Z).
Context (d : Db tbl) (a : gmap dkey Doc) (N : gmap Z Node) (S : gmap Z Stream) (es : list (Z * str)) (next nt : Z).
Hypothesis R : rep sha256 d a N S es next nt.
Context (q : Query) (term : Z).
Hypothesis term_text : entry_text term es = Some (q_text q).
Context (f : Z) (k : dkey) (v : Doc) (n on rn : Node) (s : Stream).
Hypothesis Fr : file_row_is N S es f k v n.
Hypothesis F : file_is d es f k v n on rn s.
Hypothesis stream : S !! f = Some s.
Let c := mkFileCtx on rn n.
Let toks := st_tokens s.

Definition class_ok (t : TokRec) : Prop := match q_class q with Some c => c = t_class t | None => True end.
#[global] Instance class_ok_dec t : Decision (class_ok t).
Proof. unfold class_ok. destruct (q_class q); apply _. Defined.
(** The tokens of the term, and those of the class asked for. *)
Definition term_toks : list (nat * TokRec) := filter (λ p : nat * TokRec, t_term p.2 = term) (enumerate toks).
Definition matched : list (nat * TokRec) := filter (λ p : nat * TokRec, class_ok p.2) term_toks.

Lemma matched_found : Forall2 (match_is es s) matched (found_tokens q v).
Proof.
  unfold matched, term_toks, found_tokens. rewrite list_filter_filter. pose proof (fi_toks _ _ _ _ _ _ _ _ _ F) as HF%mapM_Some. fold toks in HF.
  apply filter_step.
  - apply Forall2_same_length_lookup. unfold enumerate. rewrite !length_enum_from. split; [by eapply Forall2_length|].
    intros i [i1 t] [i2 td]. rewrite !lookup_enum_from. intros (t0 & Ht & [= <- <-])%fmap_Some (s0 & Hs & [= <- <-])%fmap_Some.
    split; [done|]. split; [done|]. cbn [fst snd]. exact (Forall2_lookup_lr _ _ _ _ _ _ HF Ht Hs).
  - intros [i t] [j td] (_ & _ & Htd). cbn [fst snd] in *. destruct (proj1 (bind_Some _ _ _) Htd) as (x & Hx & [= <-]).
    unfold token_found, class_ok. cbn. assert (t_term t = term ↔ x = q_text q) as Ht; [|destruct (q_class q); tauto].
    split; [intros Ht; rewrite Ht in Hx; congruence|]. intros ->. by eapply (entry_text_inj sha256 d es nt (rp_dict _ _ _ _ _ _ _ _ R)).
Qed.

Lemma ords_toks : ords_with term toks = (λ p : nat * TokRec, Z.of_nat p.1) <$> term_toks.
Proof. done. Qed.
Lemma toks_len : Z.of_nat (length toks) ≤ 2 ^ 32.
Proof. apply (lo_wf _ (fi_loc _ _ _ _ _ _ _ _ _ F)). Qed.

Lemma posting_run :
  posting_ordinals (encode_posting (ords_with term toks)) = Ok (ords_with term toks) ∧
  posting_count (encode_posting (ords_with term toks)) = Ok (Z.of_nat (length term_toks)).
Proof.
  destruct (ords_with_sorted term toks) as [Hs Hb]. pose proof toks_len as Hl.
  assert (Z.of_nat (length (ords_with term toks)) ≤ 2 ^ 32) as Hlen.
  { rewrite ords_toks, length_fmap. unfold term_toks. pose proof (length_filter (λ p : nat * TokRec, t_term p.2 = term) (enumerate toks)) as Hf.
    unfold enumerate in *. rewrite length_enum_from in Hf. lia. }
  rewrite <- (length_fmap (λ p : nat * TokRec, Z.of_nat p.1) term_toks). apply posting_roundtrip_run; [split; [done|]|done].
  eapply Forall_impl; [exact Hb|]. intros o. simpl. mach.
Qed.

(** Visiting stops once enough are found. *)
Lemma visit_matches need (l : list (nat * TokRec)) : (∀ o t, (o, t) ∈ l → toks !! o = Some t ∧ t_term t = term) → ∀ acc,
  Z.of_nat (length acc) < need →
  visit_at (match_visit q term need) toks l.*1 acc = take (Z.to_nat need) (acc ++ filter (λ p : nat * TokRec, class_ok p.2) l).
Proof.
  induction l as [|[o t] l IH]; intros Hl acc Hacc; cbn [fmap list_fmap fst visit_at].
  { rewrite app_nil_r, take_ge by lia. done. }
  destruct (Hl o t ltac:(left)) as [-> Ht]. specialize (IH ltac:(intros; apply Hl; by right)). unfold match_visit at 1. rewrite Ht, Z.eqb_refl. cbn [andb].
  assert (match q_class q with Some c => bool_decide (c = t_class t) | None => true end = bool_decide (class_ok t)) as ->.
  { destruct (decide (class_ok t)) as [Hc|Hc]; [rewrite (bool_decide_eq_true_2 (class_ok t)) by done|rewrite (bool_decide_eq_false_2 (class_ok t)) by done];
      unfold class_ok in Hc; destruct (q_class q); [by rewrite bool_decide_eq_true_2|done|by rewrite bool_decide_eq_false_2|done]. }
  rewrite filter_cons. cbn [snd]. case_bool_decide as Hc; [rewrite decide_True by done|rewrite decide_False by done].
  - destruct (Z.of_nat (length (acc ++ [(o, t)])) <? need) eqn:E; bool_prop.
    + rewrite IH by done. by rewrite <- app_assoc.
    + rewrite length_app in E. cbn [length] in E.
      transitivity (take (Z.to_nat need) ((acc ++ [(o, t)]) ++ filter (λ p : nat * TokRec, class_ok p.2) l)); [|by rewrite <- app_assoc].
      symmetry. apply take_app_length'. rewrite length_app. cbn [length]. lia.
  - rewrite (proj2 (Z.ltb_lt _ _)) by done. by apply IH.
Qed.

Lemma tokens_found need :
  0 < need → tokens_at_while (lazy_of s) (Z.to_nat <$> ords_with term toks) (match_visit q term need) [] = Ok (take (Z.to_nat need) matched).
Proof.
  intros Hneed. assert (Z.to_nat <$> ords_with term toks = term_toks.*1) as ->.
  { rewrite ords_toks, <- list_fmap_compose. apply list_fmap_ext. intros ? [o t] _. cbn. lia. }
  rewrite tokens_at_encoded; [|apply (fi_loc _ _ _ _ _ _ _ _ _ F)|].
  - f_equal. fold toks. rewrite visit_matches; [done| |done]. unfold term_toks. intros o t [Ht Ho%enumerate_elem]%list_elem_of_filter. done.
  - apply ascending_sorted; [apply selected_sorted|]. apply Forall_forall.
    intros o ([o' t] & -> & [_ Ht%enumerate_elem%lookup_lt_Some]%list_elem_of_filter)%list_elem_of_fmap. simpl in *. unfold toks in Ht. lia.
Qed.
(** ** The file's rows *)

Lemma replicate_fmap {A B} (h : A → B) x l : (∀ y, y ∈ l → h y = x) → h <$> l = replicate (length l) x.
Proof. induction l as [|y l IH]; intros Hl; [done|]. cbn. rewrite (Hl y) by left. f_equal. apply IH. intros. apply Hl. by right. Qed.

(** Only the number of occurrences is needed. *)
Lemma counted_rows m :
  counts_only q = true → term_toks ≠ [] →
  add_row (row_key (q_grain q) c) (roll (q_grain q) (base_hit (q_grain q) c (Z.of_nat (length term_toks)))) m =
  add_rows m (prod_map (ren N q) id <$> doc_rows q a k v).
Proof.
  intros Hc Hne. unfold counts_only in Hc. destruct (q_class q) eqn:Ec; [done|].
  assert (length (found_tokens q v) = length term_toks) as Hlen.
  { rewrite <- (Forall2_length _ _ _ matched_found). unfold matched. rewrite filter_same; [done|]. intros x _. unfold class_ok. by rewrite Ec. }
  pose proof (names_key d es f k v n on rn s F) as Hn. pose proof (base_hit_run d es q f k v n on rn s F) as Hb. fold c in Hb.
  assert (0 < length term_toks)%nat as Hpos by (destruct term_toks; [done|cbn; lia]).
  assert (prod_map (ren N q) id <$> doc_rows q a k v = replicate (length term_toks) (row_key (q_grain q) c, roll (q_grain q) (doc_base q k v))) as ->.
  { unfold doc_rows. rewrite <- list_fmap_compose, <- Hlen. apply replicate_fmap. intros y _. unfold ren, row_key, c. cbn [fx_org fx_repo fx_file compose].
    unfold token_row. destruct (q_grain q); try done; rewrite <- Hn; done. }
  rewrite add_rows_same; [|done|by destruct (q_grain q)]. f_equal. rewrite <- Hb.
  unfold base_hit, add_count, roll. destruct (q_grain q); try done; cbn; f_equal; lia.
Qed.

Lemma post_get : term_toks ≠ [] → tbl_get (db_post d) (term, f) = Some (encode_posting (ords_with term toks)).
Proof.
  intros Hne. rewrite tbl_get_spec, (co_post _ _ _ _ _ _ _ _ (rp_content _ _ _ _ _ _ _ _ R)), stream. cbn [mbind option_bind]. unfold post_row. fold toks.
  rewrite decide_False; [done|]. rewrite ords_toks. by intros ?%fmap_nil_inv.
Qed.

(** Without owner hints a document's rows are its own. *)
Lemma own_rows x : Forall (λ sd, sd_owner sd = None) (ex_symbols (doc_ex v)) → q_grain q = GClass → x ∈ doc_rows q a k v → x.1.1.1 = k.
Proof.
  intros Hno Hg (it & -> & _)%list_elem_of_fmap. unfold token_row. rewrite Hg. destruct (picked q a k v it.2) as [[[k' v'] js]|] eqn:Ep; [|done]. cbn.
  unfold picked in Ep. destruct (head (filter _ _)); [by injection Ep as <- <- <-|]. case_match; [|done]. unfold owned in Ep.
  apply head_Some_elem_of, list_elem_of_omap in Ep as ([i sd] & Hin & (o & Ho & _)%bind_Some). apply elem_of_reverse, list_elem_of_filter in Hin as [_ Hi%enumerate_elem].
  rewrite Forall_forall in Hno. cbn [snd] in Ho. specialize (Hno sd (list_elem_of_lookup_2 _ _ _ Hi)). congruence.
Qed.
Lemma no_owners : existsb (λ s : SymRec, bool_decide (is_Some (s_owner s))) (st_symbols (with_ranges s)) = false → Forall (λ sd, sd_owner sd = None) (ex_symbols (doc_ex v)).
Proof.
  intros Hex. apply Forall_forall. intros sd (j & Hj)%list_elem_of_lookup. destruct (decl_in d es f k v n on rn s F j sd Hj) as (r & Hr & Hd).
  destruct (proj1 (bind_Some _ _ _) Hd) as (name & _ & (lk & _ & (ot & Hot & [= <-])%bind_Some)%bind_Some). cbn.
  destruct (s_owner r) eqn:Eo; [|by injection Hot as <-]. assert (existsb (λ s : SymRec, bool_decide (is_Some (s_owner s))) (st_symbols (with_ranges s)) = true) as Ht; [|congruence].
  apply existsb_exists. exists r. split; [apply list_elem_of_In; by eapply list_elem_of_lookup_2|]. rewrite Eo. by apply bool_decide_eq_true_2.
Qed.

(** The rows a reading of the file adds: those of all its matches, or at the
    token grain as many as are wanted; or none, when past the cut-off there is
    no hint that could lead before it. *)
Definition rows_read (want : Z) (m : gmap Key Hit) (past_cut : bool) (l : list (place * Hit)) : Prop :=
  l = (if decide (q_grain q = GToken) then take (Z.to_nat (want - Z.of_nat (size m))) (doc_rows q a k v) else doc_rows q a k v) ∨
  past_cut = true ∧ l = [] ∧ ∀ x, q_grain q = GClass → x ∈ doc_rows q a k v → x.1.1.1 = k.

Lemma search_file_run want w post past_cut :
  term_toks ≠ [] → (counts_only q = true → post = Some (posting_count (encode_posting (ords_with term toks)))) →
  siblings_ok d a N S es q (wk_sibs w) → want ≤ USIZE_MAX → (q_grain q = GToken → Z.of_nat (size (wk_rows w)) < want) →
  ∃ w' l, search_file d q term want w c (f, post) past_cut = Ok w' ∧ wk_last w' = Some (group_of (q_grain q) c f) ∧
    siblings_ok d a N S es q (wk_sibs w') ∧ wk_rows w' = add_rows (wk_rows w) (prod_map (ren N q) id <$> l) ∧ rows_read want (wk_rows w) past_cut l.
Proof.
  intros Hne Hpost Hsb Hwant Htok. unfold search_file. destruct (counts_only q) eqn:Ec.
  { rewrite (Hpost eq_refl). cbn [ok_or mbind outcome_mbind outcome_bind]. rewrite (proj2 posting_run). cbn [mbind outcome_mbind outcome_bind].
    eexists _, _. split; [done|]. split; [done|]. split; [done|]. split; [by apply counted_rows|]. left. rewrite decide_False; [done|].
    intros Hg. unfold counts_only in Ec. rewrite Hg in Ec. by destruct (q_class q). }
  rewrite (fi_raw _ _ _ _ _ _ _ _ _ F). pose proof (lo_wf _ (fi_loc _ _ _ _ _ _ _ _ _ F)) as Hwf. cbn [ok_or mbind outcome_mbind outcome_bind].
  rewrite decode_lazy_encode by done. cbn [mbind outcome_mbind outcome_bind]. rewrite lazy_symbols_encode by done. cbn [mbind outcome_mbind outcome_bind].
  set (pass := if past_cut then _ else _).
  assert (pass = Ok (past_cut && negb (existsb (λ s, bool_decide (is_Some (s_owner s))) (st_symbols (with_ranges s))))) as -> by (by destruct past_cut).
  cbn [mbind outcome_mbind outcome_bind]. destruct (past_cut && _) eqn:Ep.
  { apply andb_true_iff in Ep as [-> Ep]. apply negb_true_iff, no_owners in Ep. eexists _, []. split; [done|]. split; [done|]. split; [done|]. split; [done|]. right.
    split; [done|]. split; [done|]. intros. by apply own_rows. }
  rewrite post_get by done. cbn [ok_or mbind outcome_mbind outcome_bind]. rewrite (proj1 posting_run). cbn [mbind outcome_mbind outcome_bind].
  set (need := if decide (q_grain q = GToken) then _ else _).
  assert (0 < need) as Hneed by (unfold need; case_decide as Hg; [specialize (Htok Hg); lia|done]).
  rewrite (tokens_found need Hneed). cbn [mbind outcome_mbind outcome_bind].
  set (l := take (Z.to_nat need) (doc_rows q a k v)).
  assert (rows_read want (wk_rows w) past_cut l) as Hread.
  { left. unfold l, need. case_decide as Hg; [specialize (Htok Hg); do 2 f_equal; lia|]. apply take_ge.
    pose proof toks_len as Hlen. unfold doc_rows. rewrite length_fmap, <- (Forall2_length _ _ _ matched_found). unfold matched, term_toks. rewrite list_filter_filter.
    pose proof (length_filter (λ p : nat * TokRec, class_ok p.2 ∧ t_term p.2 = term) (enumerate toks)) as Hf. unfold enumerate in *. rewrite length_enum_from in Hf.
    apply Nat2Z.inj_le. rewrite Z2Nat.id by done. unfold USIZE_MAX. lia. }
  pose proof (Forall2_take _ _ _ (Z.to_nat need) matched_found) as HF.
  assert (l = token_row q a k v <$> take (Z.to_nat need) (found_tokens q v)) as El by (unfold l, doc_rows; by rewrite fmap_take).
  destruct (take (Z.to_nat need) matched) as [|x ms] eqn:Em.
  { apply Forall2_nil_inv_l in HF as E. exists (mkWalk (wk_rows w) (Some (group_of (q_grain q) c f)) (wk_sibs w)), l. do 3 (split; [done|]). split; [|done]. by rewrite El, E. }
  assert ((if bool_decide (q_grain q = GToken) || is_symbolic (q_grain q) then Ok (st_symbols (with_ranges s)) else Ok []) = Ok (E:=StoreError) (read_syms q s)) as ->.
  { unfold read_syms. by destruct (bool_decide _ || _). }
  cbn [mbind outcome_mbind outcome_bind].
  destruct (add_matches_run sha256 d a N S es next nt R q f k v n on rn s Fr F _ _ HF _ (wk_sibs w) (wk_rows w) (owners_empty es q v) Hsb) as (sb' & Hrun & Hs').
  fold c in Hrun. rewrite Hrun. cbn [mbind outcome_mbind outcome_bind]. eexists _, l. split; [done|]. split; [done|]. split; [done|]. split; [|done]. by rewrite El.
Qed.
End read.
