(* ===== verification/SearchWalk.v ===== *)
(** * The order of the rows

    Where the rows of a document are among those of a search: the rows of later
    documents come later, and at the class grain no earlier than the directory
    of the document allows. *)
From S2P Require Import Prelude Text Schema Varint Stream StreamRound StreamSafe Posting DictBlock Table DictRev StrOps.
From S2P Require Import Pattern Language Encoding Walk Prep Db Catalog Reader Located Navigate Nodes Write Dict Store.
From S2P Require Import Entities Content Ingest Prune Commit Batch Prepare Summary NameCache LazySort Symbols SymbolIds.
From S2P Require Import SearchFiles Chains SymbolSearch Search SearchSpec SearchOwners SearchMatch.

(** ** Directories *)

(** A path relative to the root of its repository, of a file. *)
Definition plain_path (p : str) : Prop := p ≠ [] ∧ head p ≠ Some SLASH ∧ last p ≠ Some SLASH.

Lemma str_lt_app (p r : str) : r ≠ [] → key_lt p (p ++ r).
Proof. intros Hr. induction p as [|x p IH]; [by destruct r|]. right. by split. Qed.

(** A path in the same directory is past whatever the directory is past. *)
Lemma sibling_after p p' cp : plain_path p → plain_path p' → dir p' = dir p → key_le cp (dir_prefix p) = true → key_lt cp p'.
Proof.
  intros (_ & Hp & _) (Hne & Hp' & Hl') Hd Hle. assert (key_lt (dir_prefix p) p') as Hlt.
  { unfold dir in Hd. unfold dir_prefix. destruct (rfind_split [SLASH] p) as [[e b]|] eqn:E.
    - destruct (rfind_split [SLASH] p') as [[e' b']|] eqn:E'.
      + subst e'. apply rfind_split_Some in E' as ->. rewrite app_assoc in *. apply str_lt_app. intros ->. apply Hl'. by rewrite app_nil_r, last_snoc.
      + subst e. apply rfind_split_Some in E as ->. by destruct Hp.
    - destruct (rfind_split [SLASH] p') as [[e' b']|] eqn:E'; [subst e'; apply rfind_split_Some in E' as ->; by destruct Hp'|].
      by apply (str_lt_app []). }
  apply key_le_true in Hle as [?| -> ]; [by eapply key_lt_trans|done].
Qed.

(** ** Adding new rows *)
Section sizes.
Context {K : Type} `{Countable K}.
Lemma add_rows_size (m : gmap K Hit) l : NoDup l.*1 → (∀ x, x ∈ l → m !! x.1 = None) → size (add_rows m l) = (size m + length l)%nat.
Proof.
  revert m. induction l as [|x l IH]; intros m Hnd Hm; [cbn; lia|]. cbn [fmap list_fmap] in Hnd. apply NoDup_cons in Hnd as [Hx Hnd].
  cbn [add_rows foldl]. fold (add_rows (add_row x.1 x.2 m) l). rewrite IH; [|done|].
  - unfold add_row. rewrite (Hm x) by left. rewrite map_size_insert_None by (apply Hm; left). cbn. lia.
  - intros y Hy. rewrite add_row_ne; [apply Hm; by right|]. intros Heq. apply Hx. rewrite Heq. apply list_elem_of_fmap. by exists y.
Qed.
End sizes.

Section places.
Context `{Redb tbl} `{SerdeSlim} (sha256 : list Z → list Z).
Context (d : Db tbl) (a : gmap dkey Doc) (N : gmap Z Node) (S : gmap Z Stream) (es : list (Z * str)) (next nt : Z).
Hypothesis R : rep sha256 d a N S es next nt.
Context (q : Query).

(** ** Keys are ordered as places are *)

Definition good (x : place) : Prop :=
  match x.2 with O => True | Datatypes.S j => is_Some (a !! x.1.1) ∧ Z.of_nat j < 2 ^ 32 end.

Lemma fid_bound k : is_Some (a !! k) → 1 ≤ fid N k ≤ MAX_LOCAL.
Proof.
  intros [v Hk]. pose proof (fid_entry sha256 d a N S es next nt R k v Hk) as He.
  by destruct (entry_syms sha256 d a N S es next nt R _ k v He) as (_ & _ & _ & Hf & _).
Qed.
Lemma ren_mono' x y : good x → good y → key_lt x y → key_lt (ren N q x) (ren N q y).
Proof.
  destruct x as [[k s] i], y as [[k' s'] j]. intros Hx Hy [Hlt|[[= -> ->] Hij]]; [left; exact Hlt|]. right. split; [done|]. cbn [ren fst snd].
  change (i < j)%nat in Hij. destruct j as [|j]; [lia|]. destruct Hy as [Hk Hj]. cbn in Hk. pose proof (fid_bound k' Hk) as Hf.
  destruct i as [|i].
  - case_decide; unfold TAG_TOK, TAG_SYM; rewrite sub_id_sum by (lia || done || (unfold u32; lia)); cbn; lia.
  - destruct Hx as [_ Hi]. case_decide; unfold TAG_TOK, TAG_SYM; rewrite !sub_id_sum by (lia || done || (unfold u32; lia)); cbn; lia.
Qed.

(** ** The rows of a document *)

(** The document part of a row that is not of the class grain. *)
Definition group_key (k : dkey) : dkey := match q_grain q with GOrg => (k.1.1, [], []) | GRepo => (k.1, []) | _ => k end.

Lemma picked_own k v t x : q_grain q ≠ GClass → picked q a k v t = Some x → x.1 = (k, v).
Proof.
  intros Hg. unfold picked. destruct (head _); [by intros [= <-]|]. rewrite bool_decide_eq_false_2 by done. done.
Qed.
Lemma row_group k v x : q_grain q ≠ GClass → x ∈ doc_rows q a k v → x.1.1.1 = group_key k.
Proof.
  intros Hg (it & -> & _)%list_elem_of_fmap. unfold token_row, group_key. destruct (q_grain q) eqn:E; try done;
    (destruct (picked q a k v it.2) as [[[k' v'] js]|] eqn:Ep; [|done]; apply picked_own in Ep as [= -> ->]; [done|by rewrite E]).
Qed.
Lemma group_key_mono k k' : key_lt k k' → key_lt (group_key k) (group_key k') ∨ group_key k = group_key k'.
Proof.
  destruct k as [[o r] p], k' as [[o' r'] p']. unfold group_key. intros Hlt. destruct (q_grain q); try by left.
  - destruct Hlt as [Hlt|[Heq _]]; [left; by left|right]. cbn in Heq. cbn. by rewrite Heq.
  - destruct Hlt as [[Hlt|[Heq _]]|[Heq _]]; [left; left; by left|right..]; cbn in *; simplify_eq; done.
Qed.

(** At the class grain a row is the document's own, or of a file of its directory. *)
Lemma row_class k v x : a !! k = Some v → x ∈ doc_rows q a k v → q_grain q = GClass →
  x.1.1.1 = k ∨ is_Some (a !! x.1.1.1) ∧ x.1.1.1.1 = k.1 ∧ dir x.1.1.1.2 = dir k.2.
Proof.
  intros Hk (it & -> & _)%list_elem_of_fmap Hg. unfold token_row. rewrite Hg. destruct (picked q a k v it.2) as [[[k' v'] js]|] eqn:Ep; [|by left]. cbn [fst snd].
  unfold picked in Ep. destruct (head (filter _ _)); [injection Ep as <- <- <-; by left|]. case_match; [|done]. unfold owned in Ep.
  apply head_Some_elem_of, list_elem_of_omap in Ep as (y & _ & (o & _ & Ho)%bind_Some). unfold owner_type in Ho.
  destruct (types_named v o); [|apply bind_Some in Ho as (z & _ & [= <- <- <-]); by left]. apply bind_Some in Ho as (z & Hz & Ho). case_match; [|done].
  injection Ho as ->. right. apply head_Some_elem_of in Hz. unfold types_near in Hz.
  apply list_elem_of_bind in Hz as ([k3 v3] & (w & [= -> -> ->] & _)%list_elem_of_fmap & [(? & ? & ?) Hin%gmap_rows_elem]%list_elem_of_filter). cbn in *. split; [by eexists|done].
Qed.
Lemma row_repo k v x : a !! k = Some v → x ∈ doc_rows q a k v → q_grain q = GClass → x.1.1.1.1 = k.1.
Proof. intros Hk Hx Hg. destruct (row_class k v x Hk Hx Hg) as [->|(_ & ? & _)]; done. Qed.

Lemma picked_at k v t k' v' js :
  a !! k = Some v → picked q a k v t = Some (k', v', js) → a !! k' = Some v' ∧ ex_symbols (doc_ex v') !! js.1 = Some js.2.
Proof.
  intros Hk Ep. unfold picked in Ep. destruct (head (filter _ _)) as [y|] eqn:Eh.
  { injection Ep as <- <- <-. split; [done|]. apply head_Some_elem_of, list_elem_of_filter in Eh as [_ Hin]. unfold enclosing in Hin.
    destruct y as [i sd]. by apply elem_of_reverse, list_elem_of_filter in Hin as [_ ?%enumerate_elem]. }
  case_match; [|done]. unfold owned in Ep. apply head_Some_elem_of, list_elem_of_omap in Ep as (y & _ & (o & _ & Ho)%bind_Some). unfold owner_type in Ho.
  assert (∀ w x, x ∈ types_named w o → ex_symbols (doc_ex w) !! x.1 = Some x.2) as Hty.
  { intros w [i sd] Hx. unfold types_named in Hx. by apply list_elem_of_filter in Hx as [_ ?%enumerate_elem]. }
  destruct (types_named v o) as [|y0 ys] eqn:Et.
  - apply bind_Some in Ho as (z & Hz & Ho). case_match; [|done]. injection Ho as ->. apply head_Some_elem_of in Hz. unfold types_near in Hz.
    apply list_elem_of_bind in Hz as ([k3 v3] & (w & [= -> -> ->] & Hw)%list_elem_of_fmap & [_ Hin%gmap_rows_elem]%list_elem_of_filter). split; [done|by apply Hty].
  - apply bind_Some in Ho as (z & Hz & [= <- <- <-]). split; [done|]. apply Hty. rewrite Et. by apply head_Some_elem_of, list_elem_of_filter in Hz as [_ ?].
Qed.

Lemma doc_sizes k v : a !! k = Some v → Z.of_nat (length (ex_symbols (doc_ex v))) ≤ 2 ^ 32 ∧ Z.of_nat (length (ex_tokens (doc_ex v))) ≤ 2 ^ 32.
Proof.
  intros Hk. pose proof (fid_entry sha256 d a N S es next nt R k v Hk) as He.
  destruct (entry_syms sha256 d a N S es next nt R _ k v He) as (_ & _ & _ & _ & Hmax). split; [done|].
  destruct (file_is_at sha256 d a N S es next nt R _ k v He) as (n & on & rn & s & _ & _ & _ & F).
  pose proof (fi_toks _ _ _ _ _ _ _ _ _ F) as HF%mapM_Some%Forall2_length. rewrite <- HF. apply (lo_wf _ (fi_loc _ _ _ _ _ _ _ _ _ F)).
Qed.

Lemma rows_good k v x : a !! k = Some v → x ∈ doc_rows q a k v → good x.1.
Proof.
  intros Hk ([i td] & -> & Hit)%list_elem_of_fmap. unfold found_tokens in Hit. apply list_elem_of_filter in Hit as [_ Hi%enumerate_elem].
  apply lookup_lt_Some in Hi. destruct (doc_sizes k v Hk) as [_ Ht].
  assert (good (match picked q a k v td with Some (k', v', js) => (k', start (sd_span js.2), Datatypes.S js.1) | None => (k, 0, 0%nat) end)) as Hp.
  { destruct (picked q a k v td) as [[[k' v'] js]|] eqn:Ep; [|done]. destruct (picked_at k v td k' v' js Hk Ep) as [Hk' Hj]. unfold good. cbn [fst snd].
    split; [by eexists|]. destruct (doc_sizes k' v' Hk') as [Hs _]. apply lookup_lt_Some in Hj. lia. }
  unfold token_row. cbn [snd]. destruct (q_grain q); try done; try (by destruct (picked q a k v td) as [[[k' v'] js]|]).
  unfold good. cbn [fst snd]. split; [by eexists|]. lia.
Qed.

(** Tokens are rows of their own, in order. *)
Lemma token_rows_sorted k v : a !! k = Some v → q_grain q = GToken → StronglySorted key_lt (doc_rows q a k v).*1.
Proof.
  intros Hk Hg. pose proof (fid_entry sha256 d a N S es next nt R k v Hk) as He.
  destruct (file_is_at sha256 d a N S es next nt R _ k v He) as (n & on & rn & s & _ & _ & _ & F).
  pose proof (lo_toks _ (fi_loc _ _ _ _ _ _ _ _ _ F)) as Hs. pose proof (fi_toks _ _ _ _ _ _ _ _ _ F) as HF%mapM_Some.
  unfold doc_rows. rewrite <- list_fmap_compose. rewrite (list_fmap_ext _ (λ it : nat * TokenDecl, (k, start (td_span it.2), Datatypes.S it.1))) by (intros; unfold token_row; cbn; by rewrite Hg).
  assert (StronglySorted (λ t t' : TokenDecl, start (td_span t) ≤ start (td_span t')) (ex_tokens (doc_ex v))) as Hst.
  { clear -Hs HF. induction HF as [|t td l l' Htd HF IH]; [constructor|]. apply StronglySorted_inv in Hs as [Hs Ht]. constructor; [by apply IH|].
    rewrite Forall_forall in Ht. apply Forall_forall. intros td' [i Hi]%list_elem_of_lookup. destruct (Forall2_lookup_r _ _ _ _ _ HF Hi) as (t' & Ht' & Htd').
    specialize (Ht t' (list_elem_of_lookup_2 _ _ _ Ht')). destruct (proj1 (bind_Some _ _ _) Htd) as (? & _ & [= <-]), (proj1 (bind_Some _ _ _) Htd') as (? & _ & [= <-]). done. }
  clear HF. unfold found_tokens, enumerate. generalize 0%nat. induction Hst as [|t l Hl IH Ht]; intros m; [constructor|]. cbn [enum_from]. rewrite filter_cons.
  case_decide; [|apply IH]. cbn [fmap list_fmap fst snd]. constructor; [apply IH|]. apply Forall_forall.
  intros x ([j y] & -> & [_ [Hj Hy]%elem_of_enum_from]%list_elem_of_filter)%list_elem_of_fmap. rewrite Forall_forall in Ht.
  assert (start (td_span t) ≤ start (td_span y)) as Hle by (apply Ht; by eapply list_elem_of_lookup_2). cbn [fst snd] in *.
  destruct (Z.eq_dec (start (td_span t)) (start (td_span y))) as [->|Hne]; [right; split; [done|]; cbn; lia|left; right; split; [done|]; cbn; lia].
Qed.
End places.

(** ** The walk over the files

    The loop of [R::search] of [graph-store/src/v2.rs]: reading files in order
    of path, and leaving out those whose rows would come after the wanted ones,
    gives the wanted rows. *)

(** Keys of different documents are ordered as the documents. *)
Lemma key_dkey_lt (x y : Key) : key_lt (K:=dkey) x.1.1 y.1.1 → key_lt x y.
Proof. intros Hlt. left. left. exact Hlt. Qed.

Section walk.
Context `{Redb tbl} `{SerdeSlim} `{Unstable} (sha256 : list Z → list Z).
Context (d : Db tbl) (a : gmap dkey Doc) (N : gmap Z Node) (S : gmap Z Stream) (es : list (Z * str)) (next nt : Z).
Hypothesis R : rep sha256 d a N S es next nt.
Context (q : Query) (term want : Z).
Hypothesis term_text : entry_text term es = Some (q_text q).
Hypothesis want_ok : 0 < want ≤ USIZE_MAX.
Hypothesis plain_paths : q_grain q = GClass → ∀ k, is_Some (a !! k) → plain_path k.2.
Implicit Types (k : dkey) (v : Doc) (kv : dkey * Doc) (w : Walk).

Definition key_rows (l : list (place * Hit)) : list (Key * Hit) := prod_map (ren N q) id <$> l.

(** ** Groups *)

Lemma ctx_ids f k v c : entry_at N S es f = Some (k, v) → ctx d f = Ok c →
  ∃ r o, n_parent (fx_file c) = Some r ∧ N !! r = Some (fx_repo c) ∧ n_id (fx_repo c) = r ∧ n_kind (fx_repo c) = Repo ∧
    n_parent (fx_repo c) = Some o ∧ N !! o = Some (fx_org c) ∧ n_id (fx_org c) = o ∧ n_kind (fx_org c) = Org ∧ n_parent (fx_org c) = None ∧
    k = (n_name (fx_org c), n_name (fx_repo c), n_name (fx_file c)).
Proof.
  intros He Hc. pose proof (rp_ents _ _ _ _ _ _ _ _ R) as E.
  apply entry_at_Some in He as (? & ? & (n & r & rn & o & on & Hn & Hk & Hr & Hrn & Ho & Hon & ->)%path_of_Some & _).
  unfold ctx, need in Hc. rewrite (node_at sha256 d a N S es next nt R f n Hn) in Hc. cbn [mbind outcome_mbind outcome_bind ok_or] in Hc. rewrite Hr in Hc. cbn [mbind outcome_mbind outcome_bind ok_or] in Hc.
  rewrite (entity_at sha256 d a N S es next nt R r rn Hrn) in Hc. cbn [mbind outcome_mbind outcome_bind ok_or] in Hc. rewrite Ho in Hc. cbn [mbind outcome_mbind outcome_bind ok_or] in Hc.
  rewrite (entity_at sha256 d a N S es next nt R o on Hon) in Hc. injection Hc as <-. cbn [fx_org fx_repo fx_file].
  destruct (file_parents _ _ _ _ _ _ _ E Hn Hk) as (r1 & rn1 & o1 & on1 & X1 & X2 & X3 & X4 & X5 & X6 & X7). simplify_eq.
  exists r, o. split_and!; try done; by apply (en_id _ _ _ _ _ E).
Qed.
Lemma group_same f k v c f' k' v' c' :
  entry_at N S es f = Some (k, v) → ctx d f = Ok c → entry_at N S es f' = Some (k', v') → ctx d f' = Ok c' →
  group_key q k = group_key q k' → group_of (q_grain q) c f = group_of (q_grain q) c' f'.
Proof.
  intros He Hc He' Hc' Hg. pose proof (rp_ents _ _ _ _ _ _ _ _ R) as E.
  destruct (ctx_ids f k v c He Hc) as (r & o & A1 & A2 & A3 & A4 & A5 & A6 & A7 & A8 & A9 & Hk).
  destruct (ctx_ids f' k' v' c' He' Hc') as (r' & o' & B1 & B2 & B3 & B4 & B5 & B6 & B7 & B8 & B9 & Hk').
  assert (n_name (fx_org c) = n_name (fx_org c') → o = o') as Hoo by (intros; eapply ents_key_inj; [exact E|done|done|congruence..]).
  assert (o = o' → n_name (fx_repo c) = n_name (fx_repo c') → r = r') as Hrr by (intros; eapply ents_key_inj; [exact E|done|done|congruence..]).
  assert (k = k' → f = f') as Hff.
  { intros <-. destruct (entry_doc sha256 d a N S es next nt R f k v He) as [_ <-], (entry_doc sha256 d a N S es next nt R f' k v' He') as [_ <-]. done. }
  unfold group_key in Hg. unfold group_of. rewrite A7, B7, A3, B3. subst k k'.
  destruct (q_grain q); cbn [fst snd] in Hg; try rewrite (Hff Hg); pose proof (f_equal (λ k : dkey, k.1.1) Hg) as E1; cbn in E1; specialize (Hoo E1); rewrite Hoo; try done;
    pose proof (f_equal (λ k : dkey, k.1.2) Hg) as E2; cbn in E2; by rewrite (Hrr Hoo E2).
Qed.

(** ** What the cut-off leaves out *)

(** Rows before [w], from the documents seen. *)
Definition rows_from (done : list (dkey * Doc)) w : Prop :=
  ∀ key, is_Some (wk_rows w !! key) → ∃ kv x, kv ∈ done ∧ x ∈ doc_rows q a kv.1 kv.2 ∧ key = ren N q x.1.
(** The group read last is one that was seen; but for the class grain, the last one. *)
Definition gid kv : option (Z * Z * Z) :=
  match ctx d (fid N kv.1) with Ok c => Some (group_of (q_grain q) c (fid N kv.1)) | _ => None end.
Definition last_from (done : list (dkey * Doc)) w : Prop :=
  (∀ g, wk_last w = Some g → ∃ kv, kv ∈ done ∧ gid kv = Some g) ∧
  (q_grain q ≠ GClass → ∀ kv, last done = Some kv → wk_last w = gid kv).

Section cut.
Context (done : list (dkey * Doc)) (w : Walk) (k : dkey) (v : Doc) (c : FileCtx).
Hypothesis doc : a !! k = Some v.
Hypothesis docs : ∀ kv, kv ∈ done → a !! kv.1 = Some kv.2.
Hypothesis ctx_is : ctx d (fid N k) = Ok c.
Hypothesis sorted : StronglySorted key_lt done.*1.
Hypothesis before : ∀ kv, kv ∈ done → key_lt kv.1 k.
Hypothesis rows_of : rows_from done w.
Hypothesis last_of : last_from done w.

(** [l] comes after the wanted rows. *)
Definition after_cut (l : list (place * Hit)) : Prop :=
  want ≤ Z.of_nat (size (wk_rows w)) ∧
  ∀ cut, (gmap_rows (wk_rows w)).*1 !! (Z.to_nat want - 1)%nat = Some cut → ∀ x, x ∈ key_rows l → key_lt cut x.1.

Lemma last_before kv : kv ∈ done → ∃ l, last done = Some l ∧ (kv.1 = l.1 ∨ key_lt kv.1 l.1).
Proof.
  intros Hin. destruct (last done) as [l|] eqn:El; [|apply last_None in El; subst; by apply elem_of_nil in Hin]. exists l. split; [done|].
  apply last_Some in El as [ds ->]. apply elem_of_app in Hin as [Hin|Hin%list_elem_of_singleton]; [right|left; by subst].
  rewrite fmap_app in sorted. eapply StronglySorted_app_1_elem_of; [exact sorted|apply list_elem_of_fmap; by exists kv|left].
Qed.

(** But for the class grain, a new group is after the rows so far. *)
Lemma stop_group kv' x : q_grain q ≠ GClass → wk_last w ≠ Some (group_of (q_grain q) c (fid N k)) →
  a !! kv'.1 = Some kv'.2 → kv'.1 = k ∨ key_lt k kv'.1 → x ∈ doc_rows q a kv'.1 kv'.2 → ∀ key, is_Some (wk_rows w !! key) → key_lt key (ren N q x.1).
Proof.
  intros Hg Hlast Hd' Hord Hx key Hkey. destruct (rows_of key Hkey) as ([k1 v1] & x1 & Hin & Hx1 & ->). destruct (last_before _ Hin) as ([kl vl] & Hl & Hle). cbn [fst snd] in *.
  apply key_dkey_lt. cbn [ren fst]. rewrite (row_group a q k1 v1 x1 Hg Hx1), (row_group a q _ _ x Hg Hx).
  assert (kl ∈ done.*1) as Hkl by (apply last_Some in Hl as [ds ->]; rewrite fmap_app; apply elem_of_app; right; left). apply list_elem_of_fmap in Hkl as ([k2 v2] & -> & Hkl). cbn [fst snd] in *.
  assert (key_lt (group_key q k2) (group_key q k)) as Hlt.
  { destruct (group_key_mono q k2 k (before _ Hkl)) as [?|Heq]; [done|]. destruct Hlast. rewrite (proj2 last_of Hg _ Hl). unfold gid. cbn [fst].
    pose proof (docs _ Hkl) as Hd2. pose proof (fid_entry sha256 d a N S es next nt R _ _ Hd2) as He2. cbn [fst snd] in He2.
    destruct (file_is_at sha256 d a N S es next nt R _ _ _ He2) as (? & ? & ? & ? & _ & _ & _ & F2). rewrite (fi_ctx _ _ _ _ _ _ _ _ _ F2). f_equal.
    eapply (group_same _ k2 v2 _ _ k v); [done|apply F2|by apply (fid_entry sha256 d a N S es next nt R)|done|done]. }
  assert (key_lt (group_key q k1) (group_key q k2) ∨ group_key q k1 = group_key q k2) as H1k by (destruct Hle as [ -> |?]; [by right|by apply group_key_mono]).
  assert (key_lt (group_key q k) (group_key q kv'.1) ∨ group_key q k = group_key q kv'.1) as H2k by (destruct Hord as [ -> |?]; [by right|by apply group_key_mono]).
  destruct H1k as [?| -> ], H2k as [?| <- ]; eauto using key_lt_trans.
Qed.
(** A group of a single file is new. *)
Lemma file_group_new : q_grain q = GToken ∨ is_symbolic (q_grain q) = true → wk_last w ≠ Some (group_of (q_grain q) c (fid N k)).
Proof.
  intros Hg Hl. destruct (proj1 last_of _ Hl) as ([k1 v1] & Hin & Hgid). pose proof (docs _ Hin) as Hd1. pose proof (before _ Hin) as Hlt. cbn [fst snd] in *. unfold gid in Hgid. cbn [fst] in Hgid.
  destruct (ctx d (fid N k1)); [|done..]. injection Hgid as Hgid. assert (fid N k1 = fid N k) as Hf by (by destruct (q_grain q), Hg; try done; injection Hgid).
  pose proof (fid_entry sha256 d a N S es next nt R _ _ Hd1) as He1. pose proof (fid_entry sha256 d a N S es next nt R _ _ doc) as He.
  rewrite Hf, He in He1. injection He1 as <- _. by apply key_lt_irrefl in Hlt.
Qed.

(** The last wanted row of the class grain is in a repository seen. *)
Lemma cut_row :
  q_grain q = GClass → want ≤ Z.of_nat (size (wk_rows w)) →
  ∃ cut kv1, (gmap_rows (wk_rows w)).*1 !! (Z.to_nat want - 1)%nat = Some cut ∧ kv1 ∈ done ∧ cut.1.1.1 = kv1.1.1.
Proof.
  intros Hg Hsz. destruct (nth_key (Z.to_nat want) (wk_rows w)) as (cut & Hcut & Hin); [lia|]. exists cut.
  destruct (rows_of cut Hin) as ([k1 v1] & x1 & Hin1 & Hx1 & ->). exists (k1, v1). split; [done|]. split; [done|]. exact (row_repo a q k1 v1 x1 (docs _ Hin1) Hx1 Hg).
Qed.

Lemma names_of : (n_name (fx_org c), n_name (fx_repo c), n_name (fx_file c)) = k.
Proof.
  destruct (ctx_ids (fid N k) k v c (fid_entry sha256 d a N S es next nt R _ _ doc) ctx_is) as (? & ? & _ & _ & _ & _ & _ & _ & _ & _ & _ & ->). done.
Qed.

Lemma key_rows_elem l y : y ∈ key_rows l → ∃ x, x ∈ l ∧ y.1 = ren N q x.1.
Proof. intros (x & -> & Hx)%list_elem_of_fmap. by exists x. Qed.

Lemma class_cut : q_grain q = GClass → want ≤ Z.of_nat (size (wk_rows w)) →
  ∃ cut, cut_at (q_grain q) want w c (fid N k) = Ok cut ∧
  match cut with
  | CStop => ∀ kv' x, a !! kv'.1 = Some kv'.2 → kv'.1 = k ∨ key_lt k kv'.1 → x ∈ doc_rows q a kv'.1 kv'.2 → after_cut [x]
  | CSkip => after_cut (doc_rows q a k v)
  | CRead b => b = true → ∀ x, x ∈ doc_rows q a k v → x.1.1.1 = k → after_cut [x]
  end.
Proof.
  intros Hg Hsz. destruct (cut_row Hg Hsz) as ([[[[co cr] cp] cs] ci] & [k1 v1] & Hcut & Hin1 & Hrepo). cbn [fst] in Hrepo.
  assert (∀ l, (∀ x, x ∈ l → key_lt (K:=dkey) (co, cr, cp) x.1.1.1) → after_cut l) as Hafter.
  { intros l Hl. split; [done|]. intros cut' Hcut'. rewrite Hcut in Hcut'. injection Hcut' as <-. intros y (x & Hx & ->)%key_rows_elem. apply key_dkey_lt. exact (Hl x Hx). }
  unfold cut_at. rewrite (proj2 (Z.leb_le _ _) Hsz), bool_decide_eq_false_2 by (apply file_group_new; right; by rewrite Hg). cbn [negb andb].
  rewrite bool_decide_eq_true_2 by done. rewrite (proj2 (Z.eqb_neq want 0)) by lia. cbn [negb orb].
  replace (Z.to_nat (want - 1)) with (Z.to_nat want - 1)%nat by lia. rewrite Hcut. cbn [unwrap mbind outcome_mbind outcome_bind].
  pose proof names_of as Hn. pose proof (before _ Hin1) as Hlt. cbn [fst] in Hlt.
  destruct (decide ((co, cr) = k.1)) as [Hsame|Hne].
  - rewrite <- Hn in Hsame. cbn in Hsame. injection Hsame as -> ->. rewrite !bool_decide_eq_true_2 by done. cbn [andb negb].
    assert (n_name (fx_file c) = k.2) as Hp by (by rewrite <- Hn). rewrite Hp. assert ((n_name (fx_org c), n_name (fx_repo c)) = k.1) as Hk1 by (by rewrite <- Hn).
    destruct (key_le k.2 cp) eqn:E1; [by exists (CRead false)|].
    assert (key_lt cp k.2) as Hcp.
    { destruct (key_lt_total cp k.2) as [?|[Heq|Hgt]]; [done|..]; exfalso; apply not_true_iff_false in E1; apply E1, key_le_true; auto. }
    assert (∀ x : place * Hit, x.1.1.1 = k → key_lt (K:=dkey) (n_name (fx_org c), n_name (fx_repo c), cp) x.1.1.1) as Hown.
    { intros x ->. right. by split. }
    destruct (key_le cp (dir_prefix k.2)) eqn:E2.
    + exists CSkip. split; [done|]. apply Hafter. intros x Hx. destruct (row_class a q k v x doc Hx Hg) as [Hx1|(Hsome & Hx1 & Hx2)]; [by apply Hown|].
      right. cbn [fst snd]. split; [by rewrite Hx1|]. eapply (sibling_after k.2); [apply plain_paths; [done|by eexists]|by apply plain_paths|done|done].
    + exists (CRead true). split; [done|]. intros _ x Hx Hxk. apply Hafter. intros y ->%list_elem_of_singleton. by apply Hown.
  - assert ((bool_decide (n_name (fx_org c) = co) && bool_decide (n_name (fx_repo c) = cr)) = false) as ->.
    { apply andb_false_iff. rewrite !bool_decide_eq_false. rewrite <- Hn in Hne. cbn in Hne. destruct (decide (n_name (fx_org c) = co)); [right|by left]. congruence. }
    exists CStop. split; [done|]. intros [k' v'] x Ha' Hord Hx. cbn [fst snd] in *. apply Hafter. intros y ->%list_elem_of_singleton. left. cbn [fst].
    rewrite (row_repo a q k' v' x Ha' Hx Hg), Hrepo. rewrite Hrepo in Hne.
    assert (key_lt k1.1 k.1) as Hlt1 by (destruct Hlt as [?|[? _]]; done).
    destruct Hord as [->|[Hgt|[Heq _]]]; [done|by eapply key_lt_trans|]. by rewrite <- Heq.
Qed.

Lemma cut_run : ∃ cut, cut_at (q_grain q) want w c (fid N k) = Ok cut ∧
  match cut with
  | CStop => ∀ kv' x, a !! kv'.1 = Some kv'.2 → kv'.1 = k ∨ key_lt k kv'.1 → x ∈ doc_rows q a kv'.1 kv'.2 → after_cut [x]
  | CSkip => q_grain q = GClass ∧ after_cut (doc_rows q a k v)
  | CRead b => (b = true → ∀ x, x ∈ doc_rows q a k v → x.1.1.1 = k → after_cut [x]) ∧ (b = true → q_grain q = GClass) ∧
      (q_grain q = GToken → Z.of_nat (size (wk_rows w)) < want)
  end.
Proof.
  destruct (decide (want ≤ Z.of_nat (size (wk_rows w)))) as [Hsz|Hsz].
  - destruct (decide (q_grain q = GClass)) as [Hg|Hg].
    + destruct (class_cut Hg Hsz) as (cut & Hc & Hm). exists cut. split; [done|]. destruct cut as [| |b]; [done|done|]. split; [done|]. split; [done|]. by rewrite Hg.
    + unfold cut_at. rewrite (proj2 (Z.leb_le _ _) Hsz). cbn [andb]. case_bool_decide as Hl; cbn [negb].
      * exists (CRead false). split; [done|]. split; [done|]. split; [done|]. intros Hgt. exfalso. apply file_group_new in Hl; [done|by left].
      * rewrite bool_decide_eq_false_2 by done. cbn [negb orb]. exists CStop. split; [done|]. intros kv' x Ha' Hord Hx. split; [done|].
        intros cut Hcut y (x' & ->%list_elem_of_singleton & ->)%key_rows_elem. eapply stop_group; [done|done|done|done|done|].
        apply list_elem_of_lookup_2, list_elem_of_fmap in Hcut as ([key h] & -> & Hk%gmap_rows_elem). by eexists.
  - unfold cut_at. rewrite (proj2 (Z.leb_gt _ _)) by lia. cbn [andb]. exists (CRead false). split; [done|]. split; [done|]. split; [done|]. lia.
Qed.
End cut.
(** ** The loop *)

Abbreviation agrees := (agree_rows (Z.to_nat want)).

Lemma skip_run w m l : (∀ x, x ∈ l → after_cut w [x]) → agrees (wk_rows w) m → agrees (wk_rows w) (add_rows m (key_rows l)).
Proof.
  intros Hl Ha. destruct l as [|x0 l]; [done|]. destruct (Hl x0 ltac:(left)) as [Hsz _].
  destruct (nth_key (Z.to_nat want) (wk_rows w)) as (cut & Hcut & _); [lia|]. eapply agree_skip; [done|exact Hcut|lia|].
  intros y Hy. pose proof Hy as Hy'. apply list_elem_of_fmap in Hy' as (x & -> & Hx). apply (proj2 (Hl x Hx) cut Hcut). apply list_elem_of_fmap. exists x. split; [done|left].
Qed.
Lemma after_each w l : after_cut w l → ∀ x, x ∈ l → after_cut w [x].
Proof.
  intros [Hsz Hl] x Hx. split; [done|]. intros cut Hcut y (x' & Hx' & Hy)%key_rows_elem. apply list_elem_of_singleton in Hx' as ->. rewrite Hy.
  apply (Hl cut Hcut (prod_map (ren N q) id x)), list_elem_of_fmap. by exists x.
Qed.

Lemma key_rows_app l l' : key_rows (l ++ l') = key_rows l ++ key_rows l'.
Proof. apply fmap_app. Qed.
Lemma key_rows_sorted l : (∀ x, x ∈ l → good a x.1) → StronglySorted key_lt l.*1 → StronglySorted key_lt (key_rows l).*1.
Proof.
  intros Hg. induction l as [|x l IH]; intros Hs; [constructor|]. cbn in Hs |- *. apply StronglySorted_inv in Hs as [Hs Hx].
  constructor; [apply IH; [intros; apply Hg; by right|done]|]. apply Forall_forall. intros y (z & -> & (x' & -> & Hx')%list_elem_of_fmap)%list_elem_of_fmap. cbn [prod_map fst].
  rewrite Forall_forall in Hx. eapply (ren_mono' sha256 d a N S es next nt R q); [apply Hg; left|apply Hg; by right|]. apply Hx, list_elem_of_fmap. by exists x'.
Qed.

(** At the token grain, a file's rows past the wanted ones are left out. *)
Lemma token_rest done w m k v :
  q_grain q = GToken → a !! k = Some v → (∀ kv, kv ∈ done → key_lt kv.1 k) → rows_from done w → Z.of_nat (size (wk_rows w)) < want →
  agrees (wk_rows w) m →
  agrees (add_rows (wk_rows w) (key_rows (take (Z.to_nat (want - Z.of_nat (size (wk_rows w)))) (doc_rows q a k v)))) (add_rows m (key_rows (doc_rows q a k v))).
Proof.
  intros Hg Hk Hbefore Hfrom Hsz Ha. set (n := Z.to_nat (want - Z.of_nat (size (wk_rows w)))). set (l := doc_rows q a k v).
  assert (∀ x, x ∈ l → good a x.1) as Hgood by (intros x; by apply (rows_good sha256 d a N S es next nt R q k v)).
  pose proof (key_rows_sorted l Hgood (token_rows_sorted sha256 d a N S es next nt R q k v Hk Hg)) as Hs.
  rewrite <- (take_drop n l), key_rows_app, fmap_app in Hs. rewrite <- (take_drop n l) at 2. rewrite key_rows_app, add_rows_app.
  assert (q_grain q ≠ GClass) as Hnc by (by rewrite Hg).
  destruct (decide (length l ≤ n)%nat) as [Hle|Hgt]; [rewrite drop_ge by done; exact (agree_adds _ _ _ _ Ha)|].
  assert (∀ key x, is_Some (wk_rows w !! key) → x ∈ key_rows l → key_lt key x.1) as Hlt.
  { intros key y ([k1 v1] & x1 & Hin & Hx1 & ->)%Hfrom (x & Hx & ->)%key_rows_elem. apply key_dkey_lt. cbn [ren fst snd] in *.
    rewrite (row_group a q k1 v1 x1 Hnc Hx1), (row_group a q k v x Hnc Hx). unfold group_key. rewrite Hg. exact (Hbefore _ Hin). }
  assert (∀ y, y ∈ key_rows (take n l) → y ∈ key_rows l) as Hsub.
  { intros y Hy. rewrite <- (take_drop n l), key_rows_app. apply elem_of_app. by left. }
  set (m1 := add_rows (wk_rows w) (key_rows (take n l))).
  assert (size m1 = Z.to_nat want) as Hsz1.
  { unfold m1. rewrite add_rows_size.
    - unfold key_rows. rewrite length_fmap, length_take. unfold n in *. lia.
    - apply key_sorted_NoDup. by apply StronglySorted_app_1_l in Hs.
    - intros y Hy%Hsub. destruct (wk_rows w !! y.1) as [h|] eqn:Ey; [|done]. destruct (key_lt_irrefl y.1). by apply Hlt. }
  destruct (nth_key (Z.to_nat want) m1) as (cut & Hcut & Hin); [lia|]. eapply agree_skip; [by apply agree_adds|exact Hcut|lia|].
  intros y Hy. apply add_rows_dom in Hin as [Hin|Hin].
  - apply Hlt; [done|]. rewrite <- (take_drop n l), key_rows_app. apply elem_of_app. by right.
  - eapply StronglySorted_app_1_elem_of; [exact Hs|done|]. apply list_elem_of_fmap. by exists y.
Qed.
(** The state after the documents [done], whose rows are [m]. *)
Record walk_ok (done : list (dkey * Doc)) (w : Walk) (m : gmap Key Hit) : Prop := mkWalkOk {
  wo_agree : agrees (wk_rows w) m;
  wo_sibs : siblings_ok d a N S es q (wk_sibs w);
  wo_rows : rows_from done w;
  wo_last : last_from done w;
}.
(** A candidate of a document. *)
Definition cand_ok (x : nat * str * (Z * option (result Z))) (kv : dkey * Doc) : Prop :=
  x.2.1 = fid N kv.1 ∧ a !! kv.1 = Some kv.2 ∧ ∃ s, S !! fid N kv.1 = Some s ∧ ords_with term (st_tokens s) ≠ [] ∧
    (counts_only q = true → x.2.2 = Some (posting_count (encode_posting (ords_with term (st_tokens s))))).

Lemma rows_from_app done kv w : rows_from done w → rows_from (done ++ [kv]) w.
Proof. intros Hr key (kv1 & x & Hin & Hx)%Hr. exists kv1, x. split; [apply elem_of_app; by left|done]. Qed.

Lemma read_step done w m x k v c past_cut :
  walk_ok done w m → cand_ok x (k, v) → ctx d (fid N k) = Ok c → (∀ kv, kv ∈ done → key_lt kv.1 k) →
  (past_cut = true → ∀ x, x ∈ doc_rows q a k v → x.1.1.1 = k → after_cut w [x]) → (past_cut = true → q_grain q = GClass) →
  (q_grain q = GToken → Z.of_nat (size (wk_rows w)) < want) →
  ∃ w', search_file d q term want w c x.2 past_cut = Ok w' ∧ walk_ok (done ++ [(k, v)]) w' (add_rows m (key_rows (doc_rows q a k v))).
Proof.
  intros [Ha Hs Hr Hl] (Hf & Hk & s & HS & Hords & Hpost) Hc Hbefore Hpast Hclass Htok. cbn [fst snd] in *. destruct x as [[sl nm] [f post]]. cbn [fst snd] in *. subst f.
  pose proof (fid_entry sha256 d a N S es next nt R k v Hk) as He. destruct (file_is_at sha256 d a N S es next nt R _ k v He) as (n & on & rn & s' & HS' & _ & _ & F).
  assert (s' = s) as -> by congruence. assert (c = mkFileCtx on rn n) as -> by (pose proof (fi_ctx _ _ _ _ _ _ _ _ _ F); congruence).
  destruct (entry_row sha256 d a N S es next nt R _ k v He) as (n' & Fr & _).
  assert (n' = n) as ->.
  { destruct (ctx_ids _ _ _ _ He Hc) as (r & o & _). pose proof (fr_node _ _ _ _ _ _ _ Fr) as Hn'. unfold ctx, need in Hc.
    rewrite (node_at sha256 d a N S es next nt R _ n' Hn') in Hc. cbn [mbind outcome_mbind outcome_bind ok_or] in Hc.
    destruct (n_parent n'); [|done]. cbn [mbind outcome_mbind outcome_bind ok_or] in Hc. destruct (entity d z) as [rn'|e|]; [|done..]. cbn [mbind outcome_mbind outcome_bind] in Hc.
    destruct (n_parent rn'); [|done]. cbn [mbind outcome_mbind outcome_bind ok_or] in Hc. destruct (entity d z0) as [on'|e|]; [|done..]. by injection Hc. }
  destruct (search_file_run sha256 d a N S es next nt R q term term_text _ k v n on rn s Fr F HS want w post past_cut) as (w' & l & -> & Hlast & Hs' & Hrows & Hread); [|done|done|lia|done|].
  { intros Hnil. apply Hords. unfold ords_with. unfold term_toks in Hnil. by rewrite Hnil. }
  exists w'. split; [done|]. split; [|done|..].
  - rewrite Hrows. destruct Hread as [->|(Hpc & -> & Hown)].
    + case_decide as Hg; [by eapply token_rest; eauto|]. by apply agree_adds.
    + change (add_rows (wk_rows w) (prod_map (ren N q) id <$> [])) with (wk_rows w). apply skip_run; [|done]. intros x Hx. apply Hpast; [done|done|]. apply Hown; [by apply Hclass|done].
  - intros key Hkey. rewrite Hrows in Hkey. apply add_rows_dom in Hkey as [Hkey|Hkey]; [by apply (rows_from_app _ _ _ Hr)|].
    apply list_elem_of_fmap in Hkey as (y & -> & (z & -> & Hz)%list_elem_of_fmap). exists (k, v), z. split; [apply elem_of_app; right; left|]. split; [|done].
    destruct Hread as [->|(_ & -> & _)]; [|by apply elem_of_nil in Hz]. case_decide; [|done]. cbn [fst snd]. rewrite <- (take_drop (Z.to_nat (want - Z.of_nat (size (wk_rows w)))) (doc_rows q a k v)). apply elem_of_app. by left.
  - assert (wk_last w' = gid (k, v)) as Hgid by (unfold gid; cbn [fst]; by rewrite Hc). split.
    + intros g Hg. exists (k, v). split; [apply elem_of_app; right; left|]. by rewrite <- Hgid.
    + intros _ kv Hkv. rewrite last_snoc in Hkv. by injection Hkv as <-.
Qed.

Lemma search_files_run rank items docs : Forall2 cand_ok items docs → ∀ done w m fuel order,
  (∀ x y, cand_le rank x y = true ∨ cand_le rank y x = true) → (∀ x y z, cand_le rank x y = true → cand_le rank y z = true → cand_le rank x z = true) →
  lazy_is (cand_le rank) order items → walk_ok done w m → StronglySorted key_lt (done ++ docs).*1 → (∀ kv, kv ∈ done → a !! kv.1 = Some kv.2) → (length items < fuel)%nat →
  ∃ w', search_files d fuel rank q term want order w = Ok w' ∧ agrees (wk_rows w') (add_rows m (key_rows (docs ≫= λ kv, doc_rows q a kv.1 kv.2))).
Proof.
  induction 1 as [|x [k v] items docs Hx Hrest IH]; intros done w m fuel order Htot Htr Hz Hw Hs Hd Hf; (destruct fuel as [|fuel]; [cbn in Hf; lia|]); cbn [search_files].
  { destruct (lazy_end (cand_le rank) Htot Htr _ Hz) as [o ->]. cbn [mbind outcome_mbind outcome_bind]. exists w. split; [done|]. apply Hw. }
  destruct (lazy_next (cand_le rank) Htot Htr _ _ _ Hz) as (o & -> & Hz'). cbn [mbind outcome_mbind outcome_bind]. pose proof Hx as (Hf' & Hk & _). cbn [fst snd] in Hf', Hk.
  pose proof (fid_entry sha256 d a N S es next nt R k v Hk) as He. destruct (file_is_at sha256 d a N S es next nt R _ k v He) as (n & on & rn & s' & _ & _ & _ & F).
  pose proof (fi_ctx _ _ _ _ _ _ _ _ _ F) as Hc. set (c := mkFileCtx on rn n) in *.
  rewrite fmap_app in Hs. assert (∀ kv, kv ∈ done → key_lt kv.1 k) as Hbefore.
  { intros kv Hkv. eapply StronglySorted_app_1_elem_of; [exact Hs|apply list_elem_of_fmap; by exists kv|left]. }
  assert (StronglySorted key_lt done.*1) as Hsd by (by apply StronglySorted_app_1_l in Hs).
  assert (∀ kv, kv ∈ docs → key_lt k kv.1) as Hlater.
  { intros kv Hkv. apply StronglySorted_app_1_r in Hs. cbn in Hs. apply StronglySorted_inv in Hs as [_ Hs]. rewrite Forall_forall in Hs. apply Hs, list_elem_of_fmap. by exists kv. }
  assert (StronglySorted key_lt ((done ++ [(k, v)]) ++ docs).*1) as Hs' by (rewrite <- app_assoc, fmap_app; exact Hs).
  assert (∀ kv, kv ∈ done ++ [(k, v)] → a !! kv.1 = Some kv.2) as Hd' by (intros kv [?|Hkv%list_elem_of_singleton]%elem_of_app; [by apply Hd|by subst kv]).
  assert (∀ kv, kv ∈ docs → a !! kv.1 = Some kv.2) as Hdocs.
  { intros kv [i Hi]%list_elem_of_lookup. destruct (Forall2_lookup_r _ _ _ _ _ Hrest Hi) as (y & _ & (_ & ? & _)). done. }
  destruct (cut_run done w k v c Hk Hd Hc Hsd Hbefore (wo_rows _ _ _ Hw) (wo_last _ _ _ Hw)) as (cut & Hcut & Hm).
  destruct x as [[sl nm] [f post]]. cbn [fst snd] in Hf'. subst f. cbn [fst snd]. rewrite Hc. cbn [mbind outcome_mbind outcome_bind]. rewrite Hcut. cbn [mbind outcome_mbind outcome_bind].
  destruct cut as [| |b].
  - exists w. split; [done|]. apply skip_run; [|apply Hw]. intros y (kv & Hy & Hkv)%list_elem_of_bind.
    apply (Hm kv y); [apply elem_of_cons in Hkv as [->|?]; [done|by apply Hdocs]|apply elem_of_cons in Hkv as [->|?]; [by left|right; by apply Hlater]|done].
  - destruct Hm as [Hg Hm]. rewrite bind_cons, key_rows_app, add_rows_app. apply (IH (done ++ [(k, v)])); [done|done|done| |done|done|cbn in Hf; lia].
    destruct Hw as [Ha Hsb Hr Hl]. split; [by apply skip_run; [apply after_each|]|done|by apply rows_from_app|]. split; [|by rewrite Hg].
    intros g Hgl. destruct (proj1 Hl g Hgl) as (kv & Hin & Hkv). exists kv. split; [apply elem_of_app; by left|done].
  - destruct Hm as (Hm1 & Hm2 & Hm3). destruct (read_step done w m (sl, nm, (fid N k, post)) k v c b Hw Hx Hc Hbefore Hm1 Hm2 Hm3) as (w' & Hrun & Hw').
    cbn [snd] in Hrun. rewrite Hrun. cbn [mbind outcome_mbind outcome_bind]. rewrite bind_cons, key_rows_app, add_rows_app.
    apply (IH (done ++ [(k, v)])); try done. cbn in Hf. lia.
Qed.
End walk.
