(* ===== verification/SearchExact.v ===== *)
(** * Token search is exact

    The candidates of [R::search] of [graph-store/src/v2.rs], their order, and
    the theorem: a search of a store that holds documents answers the query on
    those documents. *)
From S2P Require Import Prelude Text StrOps Schema Varint Stream StreamRound StreamSafe Posting DictBlock Table DictRev.
From S2P Require Import Language Walk Pattern Prep Located Db Catalog Reader Navigate Nodes Encoding Write Dict Store Entities Content Ingest Prune Commit Batch.
From S2P Require Import Summary Prepare Refine LazySort NameCache Symbols SymbolIds SearchFiles Chains SymbolSearch Search SearchSpec SearchOwners SearchMatch SearchWalk.

Section exact.
Context `{Redb tbl} `{SerdeSlim} `{Unstable} (sha256 : list Z → list Z).
Context (d : Db tbl) (a : gmap dkey Doc) (N : gmap Z Node) (S : gmap Z Stream) (es : list (Z * str)) (next nt : Z).
Hypothesis R : rep sha256 d a N S es next nt.
Hypothesis valid : docs_valid a.
Context (q : Query) (keys : option (tbl Z _ _ (list Z))).
Hypothesis keys_of : keys = None ∨ keys = Some (db_file_keys d).

(** ** The candidates *)

Section term.
Context (term : Z).
Definition has_term (f : Z) : Prop := ∃ s, S !! f = Some s ∧ ords_with term (st_tokens s) ≠ [].
(** What a candidate carries. *)
Definition cand_post (x : Z * option (result Z)) : Prop :=
  ∃ s, S !! x.1 = Some s ∧ ords_with term (st_tokens s) ≠ [] ∧
    (counts_only q = true → x.2 = Some (posting_count (encode_posting (ords_with term (st_tokens s))))).

Lemma post_rows t f raw : ((t, f), raw) ∈ tbl_iter (db_post d) ↔
  ∃ s, S !! f = Some s ∧ ords_with t (st_tokens s) ≠ [] ∧ raw = encode_posting (ords_with t (st_tokens s)).
Proof.
  rewrite tbl_iter_elem, (co_post _ _ _ _ _ _ _ _ (rp_content _ _ _ _ _ _ _ _ R)), bind_Some. unfold post_row. split.
  - intros (s & Hs & Hr). case_decide; [done|]. injection Hr as <-. by exists s.
  - intros (s & Hs & Hne & ->). exists s. split; [done|]. by rewrite decide_False.
Qed.
Lemma candidates_run :
  NoDup (candidates d q term).*1 ∧ (∀ f, f ∈ (candidates d q term).*1 ↔ has_term f) ∧ ∀ x, x ∈ candidates d q term → cand_post x.
Proof.
  unfold candidates, tbl_range. set (l := filter _ (tbl_iter (db_post d))).
  assert (∀ t f raw, ((t, f), raw) ∈ l ↔ t = term ∧ ∃ s, S !! f = Some s ∧ ords_with t (st_tokens s) ≠ [] ∧ raw = encode_posting (ords_with t (st_tokens s))) as Hl.
  { intros t f raw. unfold l. rewrite list_elem_of_filter, post_rows. cbn [fst snd]. by rewrite bool_decide_eq_true. }
  split; [|split].
  - rewrite <- list_fmap_compose. apply NoDup_fmap_2_strong.
    + intros [[t f] raw] [[t' f'] raw'] [-> (s & Hs & _ & ->)]%Hl [-> (s' & Hs' & _ & ->)]%Hl Heq. cbn in Heq. subst f'. assert (s' = s) as -> by congruence. done.
    + unfold l. apply NoDup_filter, (NoDup_fmap_1 fst), key_sorted_NoDup. apply tbl_iter_sorted.
  - intros f. rewrite <- list_fmap_compose, list_elem_of_fmap. split.
    + intros ([[t f'] raw] & -> & [-> (s & Hs & Hne & _)]%Hl). by exists s.
    + intros (s & Hs & Hne). exists ((term, f), encode_posting (ords_with term (st_tokens s))). split; [done|]. apply Hl. split; [done|]. by exists s.
  - intros x ([[t f] raw] & -> & [-> (s & Hs & Hne & ->)]%Hl)%list_elem_of_fmap. exists s. split; [done|]. split; [done|]. cbn [fst snd]. by intros ->.
Qed.
End term.

(** ** Scope *)

Definition file_scope (f : Z) : bool :=
  match path_of N f, N !! f with Some k, Some n => in_scope q k (n_language n) | _, _ => false end.
Definition cand_key (x : nat * str * (Z * option (result Z))) : dkey := default ([], [], []) (path_of N x.2.1).

Lemma keep_is_consider f n p s cand :
  N !! f = Some n → n_kind n = File → n_parent n = Some p → cand.1 = f →
  keep_cand d keys q s cand = consider d q s (mkFileSlim (Some p) (n_name n) (n_language n)) cand.
Proof.
  intros Hn Hk Hp Hc. unfold keep_cand, file_slim. rewrite Hc. destruct keys_of as [-> | ->].
  - rewrite tbl_get_spec, (en_nodes _ _ _ _ _ (rp_ents _ _ _ _ _ _ _ _ R)), lookup_fmap, Hn. cbn [fmap option_fmap option_map ok_or mbind outcome_mbind outcome_bind].
    rewrite dec_slim_enc. cbn [mbind outcome_mbind outcome_bind]. by rewrite Hp.
  - destruct (file_key_at sha256 d a N S es next nt R valid f n p Hn Hk Hp) as (b & -> & Hb). by rewrite Hb.
Qed.

Lemma keep_cand_run slots keyed cand n :
  slots_ok N (q_org q) (q_repo q) slots → N !! cand.1 = Some n → n_kind n = File →
  (∀ x, x ∈ keyed → keyed_by slots.2 (λ x, x.1.1) (λ x, x.1.2) cand_key x) →
  ∃ slots' keyed', keep_cand d keys q (slots, keyed) cand = Ok (slots', keyed') ∧ slots_ok N (q_org q) (q_repo q) slots' ∧
    keyed'.*2 = keyed.*2 ++ (if file_scope cand.1 then [cand] else []) ∧
    ∀ x, x ∈ keyed' → keyed_by slots'.2 (λ x, x.1.1) (λ x, x.1.2) cand_key x.
Proof.
  intros Hs Hn Hk Hkeyed. destruct (file_parents _ _ _ _ _ _ _ (rp_ents _ _ _ _ _ _ _ _ R) Hn Hk) as (p & rn & o & on & Hp & Hrn & Hkr & Ho & Hon & _).
  rewrite (keep_is_consider cand.1 n p _ cand Hn Hk Hp eq_refl). unfold consider. cbn [sl_parent sl_name sl_language ok_or mbind outcome_mbind outcome_bind].
  assert (repo_rows N p on rn) as Hrows by (split; [done|]; split; [done|]; by exists o).
  destruct (repo_slot_run sha256 d a N S es next nt R (q_org q) (q_repo q) slots p on rn Hs Hrows) as (sl & slots' & -> & Hs' & _ & Hpre & Hsl).
  cbn [mbind outcome_mbind outcome_bind].
  assert (path_of N cand.1 = Some (n_name on, n_name rn, n_name n)) as Hpath by (apply path_of_Some; by exists n, p, rn, o, on).
  assert (file_scope cand.1 = negb (refused (q_org q) (q_repo q) on rn) && lang_ok (to_ascii_lowercase <$> q_language q) (n_language n)) as Hw.
  { unfold file_scope. rewrite Hpath, Hn. unfold in_scope, refused, opt_is. cbn [fst snd].
    destruct (q_org q), (q_repo q); cbn [negb orb]; rewrite ?negb_orb, ?negb_involutive, ?andb_true_r; done. }
  assert (∀ x, x ∈ keyed → keyed_by slots'.2 (λ x, x.1.1) (λ x, x.1.2) cand_key x) as Hkeyed'.
  { intros x Hx. destruct (Hkeyed x Hx) as (on' & rn' & Hi & Hkey). exists on', rn'. split; [|done]. by eapply prefix_lookup_Some. }
  destruct sl as [i|].
  - destruct Hsl as [Hr Hi]. rewrite Hr in Hw. cbn [negb andb] in Hw.
    assert ((match to_ascii_lowercase <$> q_language q with Some l => negb (bool_decide (n_language n = Some l)) | None => false end) = negb (file_scope cand.1)) as ->.
    { rewrite Hw. unfold lang_ok. by destruct (to_ascii_lowercase <$> q_language q). }
    destruct (file_scope cand.1); cbn [negb].
    + eexists _, _. split; [done|]. split; [done|]. split; [by rewrite fmap_app|]. intros x [Hx|Hx]%elem_of_app; [by apply Hkeyed'|].
      apply list_elem_of_singleton in Hx as ->. exists on, rn. split; [done|]. unfold cand_key. cbn [snd fst]. by rewrite Hpath.
    + eexists _, _. split; [done|]. split; [done|]. split; [by rewrite app_nil_r|done].
  - rewrite Hsl in Hw. cbn [negb andb] in Hw. rewrite Hw. eexists _, _. split; [done|]. split; [done|]. split; [by rewrite app_nil_r|done].
Qed.

Lemma keep_cands_run cands : ∀ slots keyed,
  slots_ok N (q_org q) (q_repo q) slots → (∀ x, x ∈ cands → ∃ n, N !! x.1 = Some n ∧ n_kind n = File) →
  (∀ x, x ∈ keyed → keyed_by slots.2 (λ x, x.1.1) (λ x, x.1.2) cand_key x) →
  ∃ slots' keyed', try_fold (keep_cand d keys q) (slots, keyed) cands = Ok (slots', keyed') ∧ slots_ok N (q_org q) (q_repo q) slots' ∧
    keyed'.*2 = keyed.*2 ++ filter (λ x : Z * option (result Z), file_scope x.1 = true) cands ∧
    ∀ x, x ∈ keyed' → keyed_by slots'.2 (λ x, x.1.1) (λ x, x.1.2) cand_key x.
Proof.
  induction cands as [|c cands IH]; intros slots keyed Hs Hf Hk; [exists slots, keyed; split; [done|]; split; [done|]; by rewrite app_nil_r|].
  destruct (Hf c) as (n & Hn & Hkn); [by left|]. cbn [try_fold].
  destruct (keep_cand_run slots keyed c n Hs Hn Hkn Hk) as (slots1 & keyed1 & -> & Hs1 & Hx1 & Hk1). cbn [mbind outcome_mbind outcome_bind].
  destruct (IH slots1 keyed1 Hs1 ltac:(intros; apply Hf; by right) Hk1) as (slots2 & keyed2 & -> & Hs2 & Hx2 & Hk2).
  exists slots2, keyed2. split; [done|]. split; [done|]. split; [|done]. rewrite Hx2, Hx1, <- app_assoc. f_equal. rewrite filter_cons.
  destruct (file_scope c.1); [by rewrite decide_True|by rewrite decide_False].
Qed.
(** ** The order of the candidates *)

Lemma cand_le_total rank x y : cand_le rank x y = true ∨ cand_le rank y x = true.
Proof. apply key_le_total. Qed.
Lemma cand_le_trans rank x y z : cand_le rank x y = true → cand_le rank y z = true → cand_le rank x z = true.
Proof. apply key_le_trans. Qed.

Section order.
Context (term : Z) (slots : gmap Z (option nat) * list (Node * Node)) (keyed : list (nat * str * (Z * option (result Z)))).
Hypothesis term_text : entry_text term es = Some (q_text q).
Hypothesis slots_fine : slots_ok N (q_org q) (q_repo q) slots.
Hypothesis keyed_nodup : NoDup keyed.*2.*1.
Hypothesis keyed_elem : ∀ f, f ∈ keyed.*2.*1 ↔ file_scope f = true ∧ has_term term f.
Hypothesis keyed_post : ∀ x, x ∈ keyed → cand_post term x.2.
Hypothesis keyed_names : ∀ x, x ∈ keyed → keyed_by slots.2 (λ x, x.1.1) (λ x, x.1.2) cand_key x.
Let rank := ranks slots.2.
Let items := sort_by (cand_le rank) keyed.

Lemma cand_entry x : x ∈ keyed → ∃ v, entry_at N S es x.2.1 = Some (cand_key x, v) ∧ in_scope q (cand_key x) (doc_language v) = true.
Proof.
  intros Hx. assert (x.2.1 ∈ keyed.*2.*1) as [Hs (s & HS & _)]%keyed_elem.
  { apply list_elem_of_fmap. exists x.2. split; [done|]. apply list_elem_of_fmap. by exists x. }
  destruct (proj1 (rp_link _ _ _ _ _ _ _ _ R x.2.1)) as (n & Hn & Hk); [by eexists|].
  destruct (rep_file _ _ _ _ _ _ _ _ _ _ R Hn Hk) as (s' & v & k & Hs' & Hv & Hp & _). exists v.
  unfold cand_key, file_scope in *. rewrite Hp, Hn in *. cbn [default from_option id]. split; [apply entry_at_Some; by exists n, s'|].
  by destruct (doc_of_fields _ _ _ _ Hv) as (_ & _ & ->).
Qed.
Lemma cand_inj x y : x ∈ keyed → y ∈ keyed → cand_key x = cand_key y → x = y.
Proof.
  intros Hx Hy Heq. assert (x.2.1 = y.2.1) as Hf.
  { destruct (cand_entry x Hx) as (v & He & _), (cand_entry y Hy) as (w & Hf & _). rewrite Heq in He.
    apply entry_at_Some in He as (? & ? & Hp & _), Hf as (? & ? & Hp' & _). by eapply path_unique; [apply R|..]. }
  clear -keyed_nodup Hx Hy Hf.
  apply list_elem_of_lookup in Hx as [i Hi], Hy as [j Hj].
  assert (keyed.*2.*1 !! i = Some x.2.1) as Hi2 by (rewrite !list_lookup_fmap; by rewrite Hi).
  assert (keyed.*2.*1 !! j = Some x.2.1) as Hj2 by (rewrite !list_lookup_fmap, Hf; by rewrite Hj).
  rewrite (NoDup_lookup _ _ _ _ keyed_nodup Hi2 Hj2) in Hi. congruence.
Qed.
Lemma cand_le_key x y : x ∈ keyed → y ∈ keyed → cand_le rank x y = true → key_lt (cand_key x) (cand_key y) ∨ cand_key x = cand_key y.
Proof.
  intros Hx Hy Hle. apply (rank_key slots.2 (λ x, x.1.1) (λ x, x.1.2)); [|by apply keyed_names..|exact Hle].
  intros i j Hi Hj Hk. destruct (lookup_lt_is_Some_2 _ _ Hi) as [u Hu], (lookup_lt_is_Some_2 _ _ Hj) as [w Hw].
  unfold slot_key in Hk. rewrite Hu, Hw in Hk. injection Hk as Ho Hr. by eapply (slots_inj sha256 d a N S es next nt R).
Qed.

Lemma cands_lazy : lazy_is (cand_le rank) (LazySorted_new keyed) items.
Proof.
  apply lazy_new; [apply cand_le_total|apply cand_le_trans|]. intros x y Hx Hy Hle Hge. apply cand_inj; [done|done|].
  destruct (cand_le_key x y Hx Hy Hle) as [H1k|?]; [|done]. destruct (cand_le_key y x Hy Hx Hge) as [H2k|?]; [|done].
  destruct (key_lt_irrefl (cand_key x)). by eapply key_lt_trans.
Qed.
Lemma cands_in_order : StronglySorted key_lt (cand_key <$> items).
Proof.
  apply sorted_keys; [apply cand_le_trans|apply cand_le_total|apply cand_le_key|]. apply NoDup_fmap_2_strong; [apply cand_inj|].
  eapply NoDup_fmap_1, NoDup_fmap_1, keyed_nodup.
Qed.

(** The documents of the candidates. *)
Definition cand_docs : list (dkey * Doc) := omap (λ x : nat * str * (Z * option (result Z)), entry_at N S es x.2.1) items.

Lemma items_in x : x ∈ items → x ∈ keyed.
Proof. unfold items. by rewrite sort_by_perm. Qed.
Lemma cand_docs_ok : Forall2 (cand_ok a N S q term) items cand_docs ∧ cand_docs.*1 = cand_key <$> items.
Proof.
  unfold cand_docs. pose proof items_in as Hsub. revert Hsub. generalize items. intros l Hsub. induction l as [|x l IH]; [by split|].
  destruct IH as [IH1 IH2]; [intros; apply Hsub; by right|]. cbn [omap list_omap]. pose proof (Hsub x ltac:(left)) as Hx. destruct (cand_entry x Hx) as (v & He & _). rewrite He.
  cbn [fmap list_fmap fst]. rewrite IH2. split; [|done]. constructor; [|done]. destruct (entry_doc sha256 d a N S es next nt R _ _ _ He) as [Hk Hf].
  unfold cand_ok. cbn [fst snd]. rewrite Hf. split; [done|]. split; [done|]. exact (keyed_post x Hx).
Qed.

Lemma no_term_no_rows k v : a !! k = Some v → ¬ has_term term (fid N k) → doc_rows q a k v = [].
Proof.
  intros Hk Hno. pose proof (fid_entry sha256 d a N S es next nt R k v Hk) as He.
  destruct (file_is_at sha256 d a N S es next nt R _ k v He) as (n & on & rn & s & HS & _ & _ & F).
  pose proof (matched_found sha256 d a N S es next nt R q term term_text _ k v n on rn s F) as HF.
  unfold doc_rows. destruct (decide (ords_with term (st_tokens s) = [])) as [Hnil|Hne]; [|destruct Hno; by exists s].
  unfold matched, term_toks in HF. unfold ords_with in Hnil. apply fmap_nil_inv in Hnil. rewrite Hnil in HF. apply Forall2_nil_inv_l in HF. by rewrite HF.
Qed.

Lemma cand_docs_rows : cand_docs ≫= (λ kv, doc_rows q a kv.1 kv.2) = search_rows q a.
Proof.
  unfold search_rows. assert (∀ f, Decision (has_term term f)) as Hdec.
  { intros f. unfold has_term. destruct (S !! f) as [s|] eqn:E; [|right; by intros (s & ? & _)].
    destruct (decide (ords_with term (st_tokens s) = [])) as [Hn|Hn]; [right; intros (s' & [= <-] & ?); done|left; by exists s]. }
  rewrite <- (bind_filter (λ kv : dkey * Doc, has_term term (fid N kv.1)) _ (filter _ (gmap_rows a))).
  - rewrite list_filter_filter. f_equal. destruct cand_docs_ok as [Hok Hkeys].
    apply rows_eq; [rewrite Hkeys; apply cands_in_order|apply filter_rows_sorted, gmap_rows_sorted|].
    intros [k v]. rewrite list_elem_of_filter, gmap_rows_elem. unfold cand_docs. rewrite list_elem_of_omap. cbn [fst snd]. split.
    + intros (x & Hx%items_in & He). destruct (cand_entry x Hx) as (w & He' & Hsc). rewrite He in He'. injection He' as -> ->.
      destruct (entry_doc sha256 d a N S es next nt R _ _ _ He) as [Hk Hf]. split; [|done]. split; [|done]. rewrite Hf.
      destruct (keyed_post x Hx) as (s & ? & ? & _). by exists s.
    + intros ((Ht & Hsc) & Hk). pose proof (fid_entry sha256 d a N S es next nt R k v Hk) as He.
      assert (fid N k ∈ keyed.*2.*1) as Hin.
      { apply keyed_elem. split; [|done]. unfold file_scope. apply entry_at_Some in He as (n & s & -> & -> & _ & Hv). by destruct (doc_of_fields _ _ _ _ Hv) as (_ & _ & <-). }
      apply list_elem_of_fmap in Hin as (y & Hy & (x & -> & Hx)%list_elem_of_fmap). exists x. split; [unfold items; by rewrite sort_by_perm|]. by rewrite <- Hy.
  - intros [k v] [_ Hk%gmap_rows_elem]%list_elem_of_filter Hno. by apply no_term_no_rows.
Qed.
End order.
(** ** The rows returned *)

Lemma tally_elem {K} `{Countable K} (l : list (K * Hit)) k h : tally l !! k = Some h → ∃ h0 n, (k, h0) ∈ l ∧ h = add_count n h0.
Proof.
  revert h. induction l as [|[k' h'] l IH] using rev_ind; intros h; [unfold tally; cbn; by rewrite lookup_empty|].
  unfold tally. rewrite add_rows_app. cbn [add_rows foldl fst snd]. fold (tally l). destruct (decide (k' = k)) as [->|Hne].
  - unfold add_row. destruct (tally l !! k) as [h1|] eqn:E; rewrite lookup_insert_eq; intros [= <-].
    + destruct (IH h1 eq_refl) as (h0 & n & Hin & ->). exists h0, (n + h_count h'). split; [apply elem_of_app; by left|]. unfold add_count. cbn. by rewrite Z.add_assoc.
    + exists h', 0. split; [apply elem_of_app; right; left|]. destruct h'. unfold add_count. cbn. f_equal. lia.
  - rewrite add_row_ne by done. intros (h0 & n & Hin & ->)%IH. exists h0, n. split; [apply elem_of_app; by left|done].
Qed.

Lemma rows_docs x : x ∈ search_rows q a → ∃ k v, a !! k = Some v ∧ x ∈ doc_rows q a k v.
Proof. intros ([k v] & Hx & [_ Hk%gmap_rows_elem]%list_elem_of_filter)%list_elem_of_bind. by exists k, v. Qed.

Lemma name_pos_decl k v j sd :
  a !! k = Some v → ex_symbols (doc_ex v) !! j = Some sd → name_pos_of_id d (sub_id TAG_SYM (fid N k) (Z.of_nat j)) = Ok (Some (decl_pos (ex_tokens (doc_ex v)) sd)).
Proof.
  intros Hk Hj. pose proof (fid_entry sha256 d a N S es next nt R k v Hk) as He. destruct (entry_syms sha256 d a N S es next nt R _ k v He) as (_ & _ & _ & Hf & Hmax).
  destruct (file_is_at sha256 d a N S es next nt R _ k v He) as (n & on & rn & s & _ & _ & _ & F). pose proof (rp_dict _ _ _ _ _ _ _ _ R) as D.
  pose proof (lookup_lt_Some _ _ _ Hj) as Hl. unfold name_pos_of_id. destruct (sub_id_run TAG_SYM (fid N k) (Z.of_nat j)) as [_ ->]; [unfold TAG_SYM; lia|lia|unfold u32; lia|].
  rewrite Z.eqb_refl. cbn [negb]. rewrite (fi_raw _ _ _ _ _ _ _ _ _ F). pose proof (lo_wf _ (fi_loc _ _ _ _ _ _ _ _ _ F)) as Hwf.
  rewrite decode_lazy_encode by done. cbn [mbind outcome_mbind outcome_bind]. rewrite lazy_symbols_encode by done. cbn [mbind outcome_mbind outcome_bind].
  destruct (decl_in d es _ k v n on rn s F j sd Hj) as (r & Hr & Hd). rewrite Nat2Z.id, Hr.
  by rewrite (name_pos_at sha256 d es nt D s _ r sd (fi_loc _ _ _ _ _ _ _ _ _ F) (fi_toks _ _ _ _ _ _ _ _ _ F) Hd).
Qed.

Lemma row_pos_run x : x ∈ gmap_rows (tally (search_rows q a)) → row_pos d q (ren N q x.1, x.2) = Ok (row_position q a x).
Proof.
  destruct x as [p h]. intros (h0 & n & Hin & ->)%gmap_rows_elem%tally_elem. apply rows_docs in Hin as (k & v & Hk & (it & Hrow & _)%list_elem_of_fmap).
  unfold row_pos, row_position. cbn [fst snd]. destruct (is_symbolic (q_grain q)) eqn:Eg; [|done]. cbn [andb].
  unfold token_row in Hrow. assert ((p, h0) = match picked q a k v it.2 with
    | Some (k', v', js) => ((k', start (sd_span js.2), Datatypes.S js.1), symbol_hit q k' v' js)
    | None => ((k, 0, 0%nat), unmatched (bool_decide (ex_symbols (doc_ex v) = [])) (doc_base q k v)) end) as Hrow' by (by destruct (q_grain q)). clear Hrow.
  destruct (picked q a k v it.2) as [[[k' v'] js]|] eqn:Ep; injection Hrow' as -> ->.
  - cbn [add_count h_symbol symbol_hit with_symbol h_no_matching_symbol doc_base]. rewrite bool_decide_eq_true_2 by (by eexists). cbn [andb negb ren fst snd pred].
    rewrite decide_False by (by intros Hg; rewrite Hg in Eg). destruct (picked_at a q k v it.2 k' v' js Hk Ep) as [Hk' Hj].
    rewrite (name_pos_decl k' v' js.1 js.2 Hk' Hj). cbn [mbind outcome_mbind outcome_bind]. rewrite Hk'. cbn [mbind option_bind]. by rewrite Hj.
  - cbn [add_count h_symbol unmatched doc_base]. rewrite bool_decide_eq_false_2 by (by intros []). done.
Qed.

Lemma page_fmap {A B} (g : A → B) o l (r : list A) : page o l (g <$> r) = g <$> page o l r.
Proof. unfold page, skip, truncate. destruct o, l; rewrite ?length_fmap, <- ?fmap_drop, ?length_fmap, <- ?fmap_take; done. Qed.
Lemma page_sub {A} o l (r : list A) x : x ∈ page o l r → x ∈ r.
Proof.
  unfold page, skip, truncate. assert (∀ n (r : list A), x ∈ take n r → x ∈ r) as Ht by (intros n r' Hx; rewrite <- (take_drop n r'); apply elem_of_app; by left).
  assert (∀ n (r : list A), x ∈ drop n r → x ∈ r) as Hd by (intros n r' Hx; rewrite <- (take_drop n r'); apply elem_of_app; by right).
  destruct o, l; eauto.
Qed.

(** The first [want] rows decide the page. *)
Lemma page_take {A} (o l : option Z) (r1 r2 : list A) :
  (∀ x, o = Some x → 0 ≤ x) → (∀ x, l = Some x → 0 ≤ x) → Z.of_nat (length r2) < USIZE_MAX →
  take (Z.to_nat (Z.min (default 0 o + default USIZE_MAX l) USIZE_MAX)) r1 = take (Z.to_nat (Z.min (default 0 o + default USIZE_MAX l) USIZE_MAX)) r2 →
  truncate (default USIZE_MAX l) (skip (default 0 o) r1) = page o l r2.
Proof.
  intros Ho Hl Hlen Heq. assert (page o l r2 = truncate (default USIZE_MAX l) (skip (default 0 o) r2)) as ->.
  { unfold page. assert (match o with Some o => skip o r2 | None => r2 end = skip (default 0 o) r2) as ->.
    { destruct o; [done|]. cbn [default from_option]. by rewrite skip_drop. }
    destruct l; [done|]. cbn [default from_option]. rewrite truncate_le; [done|]. unfold skip. rewrite length_drop. lia. }
  assert (0 ≤ default 0 o) as Ho' by (destruct o; cbn; [by apply Ho|done]). assert (0 ≤ default USIZE_MAX l) as Hl' by (destruct l; cbn; [by apply Hl|done]).
  set (n := default USIZE_MAX l) in *. set (m := default 0 o) in *. rewrite !skip_drop, !truncate_take by done.
  destruct (Z.min_spec (m + n) USIZE_MAX) as [[_ E]|[Hge E]]; rewrite E in Heq.
  - rewrite Z2Nat.inj_add in Heq by done. rewrite !take_drop_commute. by rewrite Heq.
  - assert (take (Z.to_nat USIZE_MAX) r2 = r2) as E2 by (apply take_ge; lia). rewrite E2 in Heq.
    assert (length (take (Z.to_nat USIZE_MAX) r1) = length r2) as E3 by (by rewrite Heq). rewrite length_take in E3.
    rewrite take_ge in Heq by lia. by rewrite Heq.
Qed.
Lemma tally_size {K} `{Countable K} (l : list (K * Hit)) : (size (tally l) ≤ length l)%nat.
Proof.
  induction l as [|x l IH] using rev_ind; [unfold tally; cbn; by rewrite map_size_empty|]. unfold tally. rewrite add_rows_app, length_app. cbn [add_rows foldl length]. fold (tally l).
  unfold add_row. destruct (tally l !! x.1) eqn:E; [rewrite map_size_insert_Some by (by eexists)|rewrite map_size_insert_None by done]; lia.
Qed.
Lemma rows_bound : Z.of_nat (length (gmap_rows (tally (search_rows q a)))) < USIZE_MAX.
Proof.
  rewrite gmap_rows_length. assert (Z.of_nat (length (search_rows q a)) < USIZE_MAX) as Hb; [|pose proof (tally_size (search_rows q a)); lia].
  unfold search_rows. set (docs := filter _ (gmap_rows a)).
  assert (∀ kv, kv ∈ docs → a !! kv.1 = Some kv.2) as Hdocs by (intros [k v] [_ ?%gmap_rows_elem]%list_elem_of_filter; done).
  eapply Z.le_lt_trans; [apply (bind_length _ _ (2 ^ 32)); [done|]|].
  - intros [k v] Hkv. cbn [fst snd]. destruct (doc_sizes sha256 d a N S es next nt R k v (Hdocs _ Hkv)) as [_ Ht]. unfold doc_rows. rewrite length_fmap.
    etrans; [|exact Ht]. apply Nat2Z.inj_le. unfold found_tokens. etrans; [apply length_filter|]. unfold enumerate. by rewrite length_enum_from.
  - assert (Z.of_nat (length ((λ kv : dkey * Doc, fid N kv.1) <$> docs)) ≤ Z.max 0 MAX_LOCAL) as Hl.
    { apply bounded_length.
      - apply NoDup_fmap_2_strong; [|unfold docs; apply NoDup_filter, (NoDup_fmap_1 fst), gmap_rows_NoDup].
        intros [k v] [k' v'] Hx%Hdocs Hy%Hdocs Heq. cbn [fst snd] in *. pose proof (fid_entry sha256 d a N S es next nt R k v Hx) as He.
        pose proof (fid_entry sha256 d a N S es next nt R k' v' Hy) as He'. rewrite Heq, He' in He. congruence.
      - intros f ([k v] & -> & Hkv%Hdocs)%list_elem_of_fmap. apply (fid_bound sha256 d a N S es next nt R). by eexists. }
    rewrite length_fmap in Hl. change (Z.max 0 MAX_LOCAL) with (2 ^ 30 - 1) in Hl. unfold USIZE_MAX. lia.
Qed.

Lemma answer_of r1 :
  (∀ o, q_offset q = Some o → 0 ≤ o) → (∀ n, q_limit q = Some n → 0 ≤ n) →
  take (Z.to_nat (Z.min (default 0 (q_offset q) + default USIZE_MAX (q_limit q)) USIZE_MAX)) r1 =
  take (Z.to_nat (Z.min (default 0 (q_offset q) + default USIZE_MAX (q_limit q)) USIZE_MAX)) (gmap_rows (tally (key_rows N q (search_rows q a)))) →
  collect (row_pos d q) (truncate (default USIZE_MAX (q_limit q)) (skip (default 0 (q_offset q)) r1)) = Ok (search_answer q a).
Proof.
  intros Ho Hl Heq. assert (gmap_rows (tally (key_rows N q (search_rows q a))) = prod_map (ren N q) id <$> gmap_rows (tally (search_rows q a))) as Hren.
  { apply (rows_rename _ (good a) (ren_mono' sha256 d a N S es next nt R q)). intros x (k & v & Hk & Hx)%rows_docs. by apply (rows_good sha256 d a N S es next nt R q k v). }
  rewrite Hren in Heq. erewrite page_take; [|done|done| |exact Heq]; [|rewrite length_fmap; apply rows_bound].
  rewrite page_fmap. unfold search_answer. assert (∀ x, x ∈ page (q_offset q) (q_limit q) (gmap_rows (tally (search_rows q a))) → row_pos d q (prod_map (ren N q) id x) = Ok (row_position q a x)) as Hx.
  { intros x Hx%page_sub. exact (row_pos_run x Hx). }
  revert Hx. generalize (page (q_offset q) (q_limit q) (gmap_rows (tally (search_rows q a)))) as l. induction l as [|x l IH]; intros Hx; [done|].
  cbn [fmap list_fmap collect]. rewrite (Hx x) by left. cbn [mbind outcome_mbind outcome_bind]. rewrite IH by (intros; apply Hx; by right). done.
Qed.

(** A text that is no term is nowhere. *)
Lemma unknown_term : id_of (q_text q) es = None → search_answer q a = [].
Proof.
  intros Hno. assert (search_rows q a = []) as Hnil.
  { destruct (search_rows q a) as [|x l] eqn:E; [done|]. assert (x ∈ search_rows q a) as Hx by (rewrite E; left).
    apply rows_docs in Hx as (k & v & Hk & ([i td] & _ & Hit)%list_elem_of_fmap). unfold found_tokens in Hit. apply list_elem_of_filter in Hit as [[Htd _] Hi%enumerate_elem].
    pose proof (fid_entry sha256 d a N S es next nt R k v Hk) as He. destruct (file_is_at sha256 d a N S es next nt R _ k v He) as (n & on & rn & s & _ & _ & _ & F).
    pose proof (fi_toks _ _ _ _ _ _ _ _ _ F) as HF%mapM_Some. destruct (Forall2_lookup_r _ _ _ _ _ HF Hi) as (t & _ & (x' & Hx' & [= <-])%bind_Some).
    cbn in Htd. subst x'. pose proof (rp_dict _ _ _ _ _ _ _ _ R) as D. apply (entry_text_elem es) in Hx'; [|by eapply dk_ids].
    apply (id_of_elem es) in Hx'; [congruence|]. by eapply dk_texts. }
  unfold search_answer. rewrite Hnil. assert (gmap_rows (tally ([] : list (place * Hit))) = []) as -> by (apply nil_length_inv; by rewrite gmap_rows_length).
  unfold page, skip, truncate. by destruct (q_offset q), (q_limit q); rewrite ?drop_nil, ?take_nil.
Qed.

(** No rows are wanted. *)
Lemma stop_at_once rank term n order items docs :
  lazy_is (cand_le rank) order items → Forall2 (cand_ok a N S q term) items docs →
  ∃ w, search_files d (Datatypes.S n) rank q term 0 order (mkWalk ∅ None (mkSiblings ∅ ∅)) = Ok w.
Proof.
  intros Hz Hdocs. cbn [search_files]. destruct Hdocs as [|x [k v] items docs (Hf & Hk & _) _].
  - destruct (lazy_end (cand_le rank) (cand_le_total rank) (cand_le_trans rank) _ Hz) as [o ->]. by eexists.
  - destruct (lazy_next (cand_le rank) (cand_le_total rank) (cand_le_trans rank) _ _ _ Hz) as (o & -> & _). cbn [mbind outcome_mbind outcome_bind].
    pose proof (fid_entry sha256 d a N S es next nt R k v Hk) as He. destruct (file_is_at sha256 d a N S es next nt R _ k v He) as (n' & on & rn & s & _ & _ & _ & F).
    destruct x as [[sl nm] [f post]]. cbn [fst snd] in *. rewrite Hf, (fi_ctx _ _ _ _ _ _ _ _ _ F). cbn [mbind outcome_mbind outcome_bind]. unfold cut_at. cbn [wk_rows wk_last].
    rewrite (proj2 (Z.leb_le _ _)) by lia. rewrite bool_decide_eq_false_2 by done. cbn [negb andb]. rewrite Z.eqb_refl, orb_true_r. by eexists.
Qed.

Lemma search_of_rep :
  (q_grain q = GClass → ∀ k, is_Some (a !! k) → plain_path k.2) → (∀ o, q_offset q = Some o → 0 ≤ o) → (∀ n, q_limit q = Some n → 0 ≤ n) →
  search sha256 d keys q = Ok (search_answer q a).
Proof.
  intros Hplain Ho Hl. pose proof (rp_dict _ _ _ _ _ _ _ _ R) as D. unfold search. rewrite (lookup_run sha256 d es nt (q_text q) D). cbn [mbind outcome_mbind outcome_bind].
  destruct (id_of (q_text q) es) as [term|] eqn:Eid; [|by rewrite unknown_term].
  assert (entry_text term es = Some (q_text q)) as Hterm.
  { apply (entry_text_elem es); [by eapply dk_ids|]. apply id_of_elem; [by eapply dk_texts|done]. }
  destruct (candidates_run term) as (Hnd & Hin & Hpost).
  assert (slots_ok N (q_org q) (q_repo q) (∅, [])) as Hs0 by (split; cbn; [intros ? ? Hx; by rewrite lookup_empty in Hx|done]).
  destruct (keep_cands_run (candidates d q term) (∅, []) [] Hs0) as (slots & keyed & -> & Hok & Hx & Hk).
  { intros x Hx. assert (x.1 ∈ (candidates d q term).*1) as (s & HS & _)%Hin by (apply list_elem_of_fmap; by exists x).
    destruct (proj1 (rp_link _ _ _ _ _ _ _ _ R x.1)) as (n & Hn & Hkn); [by eexists|]. by exists n. }
  { by intros x ?%elem_of_nil. }
  cbn [fmap list_fmap app mbind outcome_mbind outcome_bind] in *.
  assert (NoDup keyed.*2.*1) as Hnd' by (rewrite Hx; eapply sublist_NoDup; [exact Hnd|apply fmap_sublist, sublist_filter]).
  assert (∀ f, f ∈ keyed.*2.*1 ↔ file_scope f = true ∧ has_term term f) as Hel.
  { intros f. rewrite Hx, <- Hin, list_elem_of_fmap, list_elem_of_fmap. split.
    - intros (x & -> & [Hsc Hc]%list_elem_of_filter). split; [done|]. by exists x.
    - intros (Hsc & x & -> & Hc). exists x. split; [done|]. by apply list_elem_of_filter. }
  assert (∀ x, x ∈ keyed → cand_post term x.2) as Hcp.
  { intros x Hxk. apply Hpost. assert (x.2 ∈ keyed.*2) as Hxk' by (apply list_elem_of_fmap; by exists x). rewrite Hx in Hxk'. by apply list_elem_of_filter in Hxk' as [_ ?]. }
  set (rank := ranks slots.2). pose proof (cands_lazy term slots keyed Hok Hnd' Hel Hk) as Hlazy. fold rank in Hlazy.
  destruct (lazy_prepare (cand_le rank) (cand_le_total rank) (cand_le_trans rank) _ _ Hlazy) as (order & -> & Hz & _). cbn [mbind outcome_mbind outcome_bind].
  set (want := Z.min (default 0 (q_offset q) + default USIZE_MAX (q_limit q)) USIZE_MAX).
  assert (0 ≤ want ≤ USIZE_MAX) as Hw.
  { unfold want. destruct (q_offset q) as [o|], (q_limit q) as [m|]; cbn; try specialize (Ho _ eq_refl); try specialize (Hl _ eq_refl); unfold USIZE_MAX in *; lia. }
  destruct (cand_docs_ok term slots keyed Hel Hcp) as [Hdocs Hkeys].
  set (items := sort_by (cand_le rank) keyed) in *. fold rank in Hdocs, Hkeys. fold items in Hdocs, Hkeys.
  assert (length items = length keyed) as Hlen by (unfold items; by rewrite sort_by_perm).
  assert (∃ w, search_files d (Datatypes.S (length keyed)) rank q term want order (mkWalk ∅ None (mkSiblings ∅ ∅)) = Ok w ∧
    take (Z.to_nat want) (gmap_rows (wk_rows w)) = take (Z.to_nat want) (gmap_rows (tally (key_rows N q (search_rows q a))))) as (w & -> & Htake).
  { destruct (decide (want = 0)) as [Hw0|Hw0].
    - rewrite Hw0 in *. destruct (stop_at_once rank term (length keyed) order items _ Hz Hdocs) as (w & ->). exists w. by rewrite !take_0.
    - assert (walk_ok d a N S es q want [] (mkWalk ∅ None (mkSiblings ∅ ∅)) ∅) as Hw1.
      { split; cbn; [by left|apply siblings_empty|intros key [? Hx']; cbn in Hx'; by rewrite lookup_empty in Hx'|]. split; [done|]. intros _ kv [=]. }
      destruct (search_files_run sha256 d a N S es next nt R q term want Hterm ltac:(lia) Hplain rank items (cand_docs slots keyed) Hdocs [] _ _ (Datatypes.S (length keyed)) order
        (cand_le_total rank) (cand_le_trans rank) Hz Hw1) as (w & -> & Hag).
      + cbn [app]. rewrite Hkeys. exact (cands_in_order term slots keyed Hok Hnd' Hel Hk).
      + by intros kv ?%elem_of_nil.
      + lia.
      + exists w. split; [done|]. rewrite (cand_docs_rows term slots keyed Hterm Hok Hnd' Hel Hcp Hk) in Hag. by apply agree_take. }
  cbn [mbind outcome_mbind outcome_bind]. by apply answer_of.
Qed.
End exact.

(** C17: a search of a store that holds the documents [a] answers the query on
    them: every token with the text and class asked for, in a document within
    the query's organisation, repository and language, counts in exactly one
    row, which is that of the declaration the grain picks for it (at the class
    grain by enclosing span or else by owner hint, in the document or its
    directory), of the token itself, or of its file, repository or
    organisation; rows come in order of path, start and index with the position
    of the declaration's name, and the page of the offset and the limit is
    returned. The reading that the limit saves, the memo tables of owners and
    the row index of the files make no difference. At the class grain this is
    for stores in which no path starts or ends with a slash ([plain_path]);
    [absolute_path_limit] below is an example where it is needed. *)
Theorem search_exact `{Redb tbl} `{SerdeSlim} `{Unstable} (sha256 : list Z → list Z) (d : Db tbl) a q keys :
  stores sha256 d a → docs_valid a → (q_grain q = GClass → ∀ k, is_Some (a !! k) → plain_path k.2) →
  (∀ o, q_offset q = Some o → 0 ≤ o) → (∀ n, q_limit q = Some n → 0 ≤ n) → keys = None ∨ keys = Some (db_file_keys d) →
  search sha256 d keys q = Ok (search_answer q a).
Proof. intros (N & S & es & next & nt & R) Hv Hp Ho Hl Hk. by eapply search_of_rep. Qed.

(** ** Examples *)

#[local] Existing Instance gmap_redb.
#[local] Existing Instance coded_serde.
#[local] Existing Instance stable_unstable.
(** The interface can be met: decode the node. *)
Definition coded_slim : SerdeSlim.
Proof.
  refine {| dec_slim b := n ← dec b; Ok (mkFileSlim (n_parent n) (n_name n) (n_language n)) |}. intros n. by rewrite dec_enc.
Defined.
#[local] Existing Instance coded_slim.

Module Classes.
Definition query (text : str) (limit : option Z) : Query := mkQuery text None None None None GClass None limit None.
Lemma paths k : is_Some (Sample.docs !! k) → plain_path k.2.
Proof.
  intros [v Hk]. unfold Sample.docs in Hk. apply lookup_singleton_Some in Hk as [<- _]. unfold plain_path. split_and!; by vm_compute.
Qed.
End Classes.

Lemma search_exact_witness :
  ∃ h, search Sample.sha Sample.store (Some (db_file_keys Sample.store)) (Classes.query (lit "get") (Some 1)) = Ok [h] ∧
    h_symbol h = Some (lit "Rect") ∧ h_count h = 1.
Proof.
  pose proof (search_exact Sample.sha Sample.store Sample.docs (Classes.query (lit "get") (Some 1)) (Some (db_file_keys Sample.store)) Sample.stored Found.valid
    (λ _, Classes.paths)) as Hs. rewrite Hs; [|by intros o [=]|intros n [= <-]; lia|by right].
  eexists. split; [vm_compute; exact eq_refl|]. split; vm_compute; exact eq_refl.
Defined.

Module Absolute.
Definition method : Extraction :=
  mkExtraction [mkSymbolDecl (lit "m") SKMethod None (line_span 0 20) (Some (lit "T"))] [mkTokenDecl (lit "x") Identifier (line_span 5 6)] false.
Definition type : Extraction :=
  mkExtraction [mkSymbolDecl (lit "T") SKType None (line_span 0 20) None] [mkTokenDecl (lit "x") Identifier (line_span 5 6)] false.
Definition ingest (d : Sample.db) (path : string) (ex : Extraction) : result (IngestStats * Sample.db) :=
  ingest_file_with_origin Sample.sha d (lit "o") (lit "r") (lit path) (lit "go") ex None.
Definition after (r : result (IngestStats * Sample.db)) : Sample.db := match r with Ok (_, d) => d | _ => db_empty end.
Definition first : Sample.db := after (ingest db_empty "+a.go" type).
Definition store : Sample.db := after (ingest first "/b.go" method).
Definition doc (ex : Extraction) : Doc := new_doc (lit "go") (FileMeta_extracted None) ex.
Definition docs : gmap dkey Doc :=
  <[(lit "o", lit "r", lit "/b.go") := doc method]> {[(lit "o", lit "r", lit "+a.go") := doc type]}.

Lemma ingested d a path ex :
  stores Sample.sha d a → normalize_path (lit path) = lit path → ingest_guard (lit "o") (lit "r") (lit "go") ex = Ok () → small_ex ex → spans_ok ex → texts_ok ex →
  room d ex → stores Sample.sha (after (ingest d path ex)) (<[(lit "o", lit "r", lit path) := doc ex]> a).
Proof.
  intros Hd Hp Hg Hsm Hsp Htx Hr. destruct (ingest_run Sample.sha d a (lit "o") (lit "r") (lit path) (lit "go") ex (FileMeta_extracted None) None Hd Hg Hsm Hsp Htx)
    as (file & d' & Hrun & Hd' & _); [done|done|done|].
  eassert (ingest d path ex = Ok (_, d')) as ->; [|by rewrite Hp in Hd']. unfold ingest, ingest_file_with_origin.
  destruct (validate_spans_cases ex) as [[_ ->]|[Hn _]]; [exact Hrun|by destruct (Hn Hsp)].
Qed.
Lemma spans_by ex : validate_spans ex = Ok () → spans_ok ex.
Proof. intros Hv. destruct (validate_spans_cases ex) as [[? _]|[_ [m Hm]]]; [done|by rewrite Hv in Hm]. Qed.
Lemma both_stored : stores Sample.sha store docs.
Proof.
  apply ingested; [apply ingested; [apply stores_empty|by vm_compute|by vm_compute|apply (bool_decide_unpack _); by vm_compute|apply spans_by; by vm_compute|
    apply (bool_decide_unpack _); by vm_compute|by vm_compute]|by vm_compute|by vm_compute|apply (bool_decide_unpack _); by vm_compute|apply spans_by; by vm_compute|
    apply (bool_decide_unpack _); by vm_compute|by vm_compute].
Qed.
End Absolute.

(** Where the paths are not relative to the repository the limit can change
    the answer. With the type [T] in the file [+a.go], and in [/b.go] a method
    whose owner hint is [T] (both are files of the directory with the empty
    name), a search for one class row answers with one occurrence in [T], and
    the same search without a limit with two, which is the right answer. *)
Theorem absolute_path_limit :
  stores Sample.sha Absolute.store Absolute.docs ∧
  (∃ h, search Sample.sha Absolute.store None (Classes.query (lit "x") (Some 1)) = Ok [h] ∧ h_symbol h = Some (lit "T") ∧ h_count h = 1) ∧
  ∃ h, search Sample.sha Absolute.store None (Classes.query (lit "x") None) = Ok [h] ∧ h_symbol h = Some (lit "T") ∧ h_count h = 2 ∧
    search_answer (Classes.query (lit "x") (Some 1)) Absolute.docs = [h].
Proof.
  split; [exact Absolute.both_stored|]. split.
  - eexists. split; [vm_compute; exact eq_refl|]. split; vm_compute; exact eq_refl.
  - eexists. split; [vm_compute; exact eq_refl|]. split; [vm_compute; exact eq_refl|]. split; vm_compute; exact eq_refl.
Qed.
