(* ===== verification/TokenScan.v ===== *)
(** * Token scanning helpers

    [graph-core/src/scan.rs]: the helpers the token-stream extractors share.
    A delimiter or keyword pair is matched either by a forward scan from the
    opener or by one pass that fills a table for every opener; the theorems
    show that the table is the scan at every index, that the memo of
    [NestedEnds] answers as the plain scan does, and what the layout helpers
    and the cursor return. *)
From S2P Require Import Prelude Text Schema StrOps Tokenizer Language.

#[local] Open Scope nat_scope.

(** ** Spans, delimiters and keywords *)

(** [span_between]; the assertion of debug builds is the caller's duty. *)
Definition span_between (first last : Span) : Span :=
  mkSpan (start first) (end_ last) (start_line first) (start_col first)
    (end_line last) (end_col last).

Definition closer_for (text : str) : option str :=
  if one_of text [lit "("] then Some (lit ")")
  else if one_of text [lit "["] then Some (lit "]")
  else if one_of text [lit "{"] then Some (lit "}")
  else None.

(** [matches!(t.text.as_str(), ")" | "]" | "}")]. *)
Definition closes_any (text : str) : bool := one_of text [lit ")"; lit "]"; lit "}"].

Definition is_trivia (t : TokenDecl) : bool :=
  bool_decide (td_class t = Comment) || bool_decide (td_class t = Literal).

(** The loops of [matching_close] and [keyword_block], and of [close_table]
    and [keyword_close_table]: the same code over a delimiter's closer [C].
    The stack is a list, top first. *)
Section matching.
Context {C : Type} (opens : TokenDecl → option C) (closes : TokenDecl → bool)
  (fits : TokenDecl → C → bool).

Fixpoint block_loop (l : list (nat * TokenDecl)) (stack : list C) : option nat :=
  match l with
  | [] => None
  | (i, t) :: l =>
      if is_trivia t then block_loop l stack
      else
        match opens t with
        | Some c => block_loop l (c :: stack)
        | None =>
            if closes t then
              match stack with
              | [] => None
              | c :: stack =>
                  if negb (fits t c) then None
                  else match stack with [] => Some i | _ => block_loop l stack end
              end
            else block_loop l stack
        end
  end.

Definition block_at (tokens : list TokenDecl) (open : nat) : option nat :=
  first ← tokens !! open;
  if is_trivia first || negb (bool_decide (is_Some (opens first))) then None
  else block_loop (drop open (enumerate tokens)) [].

Fixpoint table_loop (l : list (nat * TokenDecl)) (stack : list (nat * C)) (out : list (option nat))
    : list (option nat) :=
  match l with
  | [] => out
  | (i, t) :: l =>
      if is_trivia t then table_loop l stack out
      else
        match opens t with
        | Some c => table_loop l ((i, c) :: stack) out
        | None =>
            if closes t then
              match stack with
              | (open, c) :: stack =>
                  if fits t c then table_loop l stack (<[open := Some i]> out)
                  else table_loop l [] out
              | [] => table_loop l [] out
              end
            else table_loop l stack out
        end
  end.

Definition table_of (tokens : list TokenDecl) : list (option nat) :=
  table_loop (enumerate tokens) [] (replicate (length tokens) None).
End matching.

Definition delim_opens (t : TokenDecl) : option str := closer_for (td_text t).
Definition delim_closes (t : TokenDecl) : bool := closes_any (td_text t).
Definition delim_fits (t : TokenDecl) (c : str) : bool := bool_decide (c = td_text t).

Definition matching_close (tokens : list TokenDecl) (open : nat) : option nat :=
  block_at delim_opens delim_closes delim_fits tokens open.
Definition close_table (tokens : list TokenDecl) : list (option nat) :=
  table_of delim_opens delim_closes delim_fits tokens.

(** [v[i] = x]: a panic out of range. *)
Definition set_at {A} (l : list A) (i : nat) (x : A) : tk (list A) :=
  if bool_decide (i < length l) then Ok (<[i := x]> l) else Panic.

Fixpoint positions (code : list (nat * nat)) (pos : list (option nat)) : tk (list (option nat)) :=
  match code with
  | [] => Ok pos
  | (c, i) :: code => pos ← set_at pos i (Some c); positions code pos
  end.

Definition code_close_table (tokens : list TokenDecl) (code : list nat) : tk (list (option nat)) :=
  let table := close_table tokens in
  pos ← positions (enumerate code) (replicate (length tokens) None);
  collect (λ i,
    e ← index table i;
    match e with
    | Some close => index pos close
    | None => Ok None
    end) code.

(** [for i in 0..tokens.len()], changing one class at a time: the escape rule
    sees the classes changed before it. *)
Fixpoint mark_loop (is_keyword : str → bool) (is_escaped : list TokenDecl → nat → bool)
    (todo : list nat) (tokens : list TokenDecl) : tk (list TokenDecl) :=
  match todo with
  | [] => Ok tokens
  | i :: todo =>
      t ← index tokens i;
      if bool_decide (td_class t = Identifier) && is_keyword (td_text t)
         && negb (is_escaped tokens i)
      then mark_loop is_keyword is_escaped todo
             (<[i := mkTokenDecl (td_text t) Keyword (td_span t)]> tokens)
      else mark_loop is_keyword is_escaped todo tokens
  end.

Definition mark_keywords (tokens : list TokenDecl) (keywords : list str)
    (is_escaped : list TokenDecl → nat → bool) : tk (list TokenDecl) :=
  mark_loop (λ text, one_of text keywords) is_escaped (seq 0 (length tokens)) tokens.

Definition mark_keywords_ignore_case (tokens : list TokenDecl) (keywords : list str)
    (is_escaped : list TokenDecl → nat → bool) : tk (list TokenDecl) :=
  mark_loop (λ text, existsb (λ k, eq_ignore_ascii_case k text) keywords) is_escaped
    (seq 0 (length tokens)) tokens.

Definition code_index (tokens : list TokenDecl) (skip : list TokenClass) : list nat :=
  (filter (λ p, td_class p.2 ∉ skip) (enumerate tokens)).*1.

(** [tokens[code[c]]], its text and whether it is an identifier: how the
    extractors read a code position. *)
Definition code_tok (tokens : list TokenDecl) (code : list nat) (c : nat) : tk TokenDecl :=
  i ← index code c; index tokens i.
Definition code_text (tokens : list TokenDecl) (code : list nat) (c : nat) : tk str :=
  t ← code_tok tokens code c; Ok (td_text t).
Definition code_ident (tokens : list TokenDecl) (code : list nat) (c : nat) : tk bool :=
  t ← code_tok tokens code c; Ok (bool_decide (td_class t = Identifier)).

(** ** Keyword blocks *)

Definition eq_text (ignore_case : bool) (a b : str) : bool :=
  if ignore_case then eq_ignore_ascii_case a b else bool_decide (a = b).

Definition closer_of (pairs : list (str * str)) (ignore_case : bool) (t : TokenDecl) : option str :=
  (λ p, p.2.2) <$> list_find (λ p, eq_text ignore_case (td_text t) p.1 = true) pairs.
Definition keyword_closes (pairs : list (str * str)) (ignore_case : bool) (t : TokenDecl) : bool :=
  existsb (λ p, eq_text ignore_case (td_text t) p.2) pairs.

Definition keyword_block (tokens : list TokenDecl) (open : nat) (pairs : list (str * str))
    (ignore_case : bool) : option nat :=
  block_at (closer_of pairs ignore_case) (keyword_closes pairs ignore_case)
    (λ t c, eq_text ignore_case (td_text t) c) tokens open.

(** The table's stack holds positions in [pairs], always in range. *)
Definition pair_of (pairs : list (str * str)) (ignore_case : bool) (t : TokenDecl) : option nat :=
  fst <$> list_find (λ p, eq_text ignore_case (td_text t) p.1 = true) pairs.

Definition keyword_close_table (tokens : list TokenDecl) (pairs : list (str * str))
    (ignore_case : bool) : list (option nat) :=
  table_of (pair_of pairs ignore_case) (keyword_closes pairs ignore_case)
    (λ t k, match pairs !! k with
            | Some p => eq_text ignore_case (td_text t) p.2
            | None => false
            end) tokens.

(** ** Nested lists *)

Inductive Step : Set :=
  | Open
  | Close
  | Stop
  | Skip (to : option nat)
  | Other.

(** The memo of [NestedEnds]. *)
Definition NestedEnds : Type := gmap (nat * nat) (option nat).

Section nested_ends.
Context (memo : NestedEnds) (open hi : nat) (step : nat → Step).

(** The loop: the result, the openers left on the stack (top first) and the
    answers found, last first. Every turn moves [c] forward. *)
Fixpoint find_loop (fuel : nat) (c : nat) (stack : list nat) (found : list (nat * option nat))
    : tk (option nat * list nat * list (nat * option nat)) :=
  if hi <=? c then Ok (None, stack, found)
  else
    match fuel with
    | O => Panic
    | S fuel =>
        match step c with
        | Open =>
            match (if c =? open then None else memo !! (c, hi)) with
            | Some (Some close) => find_loop fuel (close + 1) stack found
            | Some None => Ok (None, stack, found)
            | None => find_loop fuel (c + 1) (c :: stack) found
            end
        | Close =>
            match stack with
            | o :: stack =>
                let found := (o, Some c) :: found in
                match stack with
                | [] => Ok (Some c, stack, found)
                | _ => find_loop fuel (c + 1) stack found
                end
            | [] => Ok (None, stack, found)
            end
        | Stop | Skip None => Ok (None, stack, found)
        | Skip (Some to) => find_loop fuel (to + 1) stack found
        | Other => find_loop fuel (c + 1) stack found
        end
    end.

Definition find : tk (option nat * NestedEnds) :=
  match memo !! (open, hi) with
  | Some r => Ok (r, memo)
  | None =>
      '(result, stack, found) ← find_loop (hi - open) open [] [];
      let memo := foldl (λ m e, <[(e.1, hi) := e.2]> m) memo (rev found) in
      let memo := foldl (λ m o, <[(o, hi) := None]> m) memo (rev stack) in
      Ok (result, memo)
  end.
End nested_ends.

(** ** Layout *)

(** [while line_first > 0 && tokens[line_first - 1].span.start_line == line]. *)
Fixpoint line_first_of (tokens : list TokenDecl) (line : Z) (line_first : nat) : tk nat :=
  match line_first with
  | O => Ok 0
  | S prev =>
      t ← index tokens prev;
      if bool_decide (start_line (td_span t) = line) then line_first_of tokens line prev
      else Ok line_first
  end.

Fixpoint indent_loop (skip : list TokenClass) (indent : Z) (l : list (nat * TokenDecl))
    (last : nat) (prev_end_line : Z) (depth : nat) (line_open : bool) : nat :=
  match l with
  | [] => last
  | (j, t) :: l =>
      let line_open := if Z.ltb prev_end_line (start_line (td_span t)) then false else line_open in
      let prev_end_line := Z.max prev_end_line (end_line (td_span t)) in
      if bool_decide (td_class t ∈ skip) then
        indent_loop skip indent l last prev_end_line depth line_open
      else if negb line_open && (depth =? 0) && Z.leb (start_col (td_span t)) indent then last
      else
        let depth :=
          if is_trivia t then depth
          else if one_of (td_text t) [lit "("; lit "["; lit "{"] then S depth
          else if closes_any (td_text t) then depth - 1
          else depth in
        indent_loop skip indent l j prev_end_line depth true
  end.

Definition indent_block (tokens : list TokenDecl) (header : nat) (skip : list TokenClass) : tk nat :=
  match tokens !! header with
  | None => Ok header
  | Some h =>
      line_first ← line_first_of tokens (start_line (td_span h)) header;
      t ← index tokens line_first;
      Ok (indent_loop skip (start_col (td_span t)) (drop (header + 1) (enumerate tokens))
            header (end_line (td_span h)) 0 true)
  end.

(** [while tokens.get(i).is_some_and(|t| t.span.start_line == line)]. *)
Fixpoint run_end (line : Z) (tokens : list TokenDecl) (i : nat) : nat :=
  match tokens with
  | t :: tokens => if bool_decide (start_line (td_span t) = line) then run_end line tokens (S i) else i
  | [] => i
  end.

(** One call of the closure of [line_iter]: the item and the next [i]. *)
Definition line_next (tokens : list TokenDecl) (i : nat) : option (Z * (nat * nat)) :=
  first ← tokens !! i;
  let line := start_line (td_span first) in
  Some (line, (i, run_end line (drop i tokens) i)).

(** The items of [line_iter]; every call consumes a token. *)
Fixpoint line_items (tokens : list TokenDecl) (fuel i : nat) : list (Z * (nat * nat)) :=
  match fuel with
  | O => []
  | S fuel =>
      match line_next tokens i with
      | Some item => item :: line_items tokens fuel item.2.2
      | None => []
      end
  end.
Definition line_iter (tokens : list TokenDecl) : list (Z * (nat * nat)) :=
  line_items tokens (length tokens) 0.

(** ** The cursor *)

Record Cursor : Type := mkCursor { cu_tokens : list TokenDecl; cu_pos : nat }.

Definition Cursor_new (tokens : list TokenDecl) : Cursor := mkCursor tokens 0.
Definition set_pos (c : Cursor) (pos : nat) : Cursor :=
  mkCursor (cu_tokens c) (Nat.min pos (length (cu_tokens c))).
Definition at_end (c : Cursor) : bool := length (cu_tokens c) <=? cu_pos c.
Definition peek (c : Cursor) : option TokenDecl := cu_tokens c !! cu_pos c.

Definition is_comment (t : TokenDecl) : bool := bool_decide (td_class t = Comment).

Definition peek_code (c : Cursor) (n : nat) : option (nat * TokenDecl) :=
  filter (λ p, is_comment p.2 = false) (drop (cu_pos c) (enumerate (cu_tokens c))) !! n.

(** The position [skip_comments] moves to, over the tokens left. *)
Fixpoint after_comments (rest : list TokenDecl) (pos : nat) : nat :=
  match rest with
  | t :: rest => if is_comment t then after_comments rest (S pos) else pos
  | [] => pos
  end.
Definition skip_comments (c : Cursor) : Cursor :=
  mkCursor (cu_tokens c) (after_comments (drop (cu_pos c) (cu_tokens c)) (cu_pos c)).

Definition next_code (c : Cursor) : option (nat * TokenDecl) * Cursor :=
  let c := skip_comments c in
  let i := cu_pos c in
  match cu_tokens c !! i with
  | Some t => (Some (i, t), mkCursor (cu_tokens c) (i + 1))
  | None => (None, c)
  end.

Definition eat (c : Cursor) (text : str) : option nat * Cursor :=
  match peek_code c 0 with
  | Some (i, t) =>
      if bool_decide (td_text t = text) then (Some i, mkCursor (cu_tokens c) (i + 1)) else (None, c)
  | None => (None, c)
  end.

Definition skip_balanced (c : Cursor) : option (nat * nat) * Cursor :=
  match peek_code c 0 with
  | Some (open, _) =>
      match matching_close (cu_tokens c) open with
      | Some close => (Some (open, close), mkCursor (cu_tokens c) (close + 1))
      | None => (None, c)
      end
  | None => (None, c)
  end.

Definition skip_balanced_with (c : Cursor) (table : list (option nat)) : option (nat * nat) * Cursor :=
  match peek_code c 0 with
  | Some (open, _) =>
      match mjoin (table !! open) with
      | Some close => (Some (open, close), mkCursor (cu_tokens c) (close + 1))
      | None => (None, c)
      end
  | None => (None, c)
  end.

(** ** Token scanning helpers: proofs *)

#[local] Open Scope nat_scope.

(** ** One pass and one scan per opener *)

Section matching.
Context {C : Type} (opens : TokenDecl → option C) (closes : TokenDecl → bool)
  (fits : TokenDecl → C → bool).
#[local] Abbreviation scan := (block_loop opens closes fits).
#[local] Abbreviation fill := (table_loop opens closes fits).

Lemma fill_length l stack out : length (fill l stack out) = length out.
Proof.
  revert stack out. induction l as [|[i t] l IH]; intros stack out; simpl; [done|].
  repeat case_match; rewrite ?IH, ?length_insert; done.
Qed.

(** An entry of an opener that is neither open nor to come stays. *)
Lemma fill_closed l : ∀ n stack out o,
  o < n → o ∉ stack.*1 → fill (enum_from n l) stack out !! o = out !! o.
Proof.
  induction l as [|t l IH]; intros n stack out o Ho Hs; simpl; [done|].
  repeat case_match; subst; try (apply IH; [lia|done || set_solver]).
  - apply IH; [lia|]. simpl. apply not_elem_of_cons. split; [lia|done].
  - rewrite IH; [|lia|set_solver]. apply list_lookup_insert_ne. set_solver.
Qed.

(** An open delimiter's entry is what its own scan, with the delimiters
    opened since on the stack above it, goes on to find. *)
Lemma fill_open l : ∀ n above o c below out,
  NoDup (above ++ (o, c) :: below).*1 → Forall (λ i, i < n) (above ++ (o, c) :: below).*1 →
  out !! o = Some None →
  fill (enum_from n l) (above ++ (o, c) :: below) out !! o =
    Some (scan (enum_from n l) (above.*2 ++ [c])).
Proof.
  induction l as [|t l IH]; intros n above o c below out Hnd Hlt Ho; simpl; [done|].
  assert (Forall (λ i, i < S n) (above ++ (o, c) :: below).*1) as Hlt'
    by (eapply Forall_impl; [done|intros; simpl in *; lia]).
  destruct (is_trivia t); [by apply IH|].
  destruct (opens t) as [d|] eqn:Eo.
  { apply (IH (S n) ((n, d) :: above)); [|by constructor; [simpl; lia|]|done].
    constructor; [|done]. intros Hn. rewrite Forall_forall in Hlt.
    specialize (Hlt n Hn). simpl in Hlt. lia. }
  destruct (closes t); [|by apply IH].
  destruct above as [|[o' d] above]; simpl in *.
  - apply NoDup_cons in Hnd as [Hnd Hnd']. apply Forall_cons in Hlt as [Hlo Hlt].
    assert (o < length out) by (by eapply lookup_lt_Some).
    destruct (fits t c); simpl.
    + rewrite fill_closed; [by rewrite list_lookup_insert_eq|lia|done].
    + rewrite fill_closed; [done|lia|set_solver].
  - apply NoDup_cons in Hnd as [Hnd Hnd']. apply Forall_cons in Hlt as [Hlo Hlt].
    assert (o ≠ o') by (rewrite fmap_app in Hnd; set_solver).
    assert (o < n) by (rewrite Forall_forall in Hlt; apply (Hlt o); rewrite fmap_app; set_solver).
    destruct (fits t d); simpl.
    + rewrite IH; [|done|by apply Forall_cons in Hlt' as [_ ?]|by rewrite list_lookup_insert_ne].
      by destruct above.
    + rewrite fill_closed; [done|lia|set_solver].
Qed.

Definition scan_from (l : list TokenDecl) (n i : nat) : option nat :=
  t ← l !! i;
  if is_trivia t || negb (bool_decide (is_Some (opens t))) then None
  else scan (enum_from (n + i) (drop i l)) [].

Lemma fill_ahead l : ∀ n stack out i,
  i < length l → Forall (λ j, j < n) stack.*1 → NoDup stack.*1 → length out = n + length l →
  (∀ j, n ≤ j < length out → out !! j = Some None) → Forall (λ j, out !! j = Some None) stack.*1 →
  fill (enum_from n l) stack out !! (n + i) = Some (scan_from l n i).
Proof.
  induction l as [|t l IH]; intros n stack out i Hi Hlt Hnd Hl Hout Hst; simpl in *; [lia|].
  assert (∀ st : list (nat * C), Forall (λ j, j < n) st.*1 → Forall (λ j, j < S n) st.*1) as Hw
    by (intros st ?; eapply Forall_impl; [done|intros; simpl in *; lia]).
  assert (out !! n = Some None) as Hn by (apply Hout; lia).
  assert (n ∉ stack.*1) as Hns by (intros E; rewrite Forall_forall in Hlt; specialize (Hlt n E); simpl in Hlt; lia).
  assert (∀ above st o', stack = above ++ st → length o' = length out → (∀ j, n ≤ j → o' !! j = out !! j) →
    Forall (λ j, o' !! j = Some None) st.*1 →
    (is_trivia t = true ∨ opens t = None) →
    fill (enum_from (S n) l) st o' !! (n + i) = Some (scan_from (t :: l) n i)) as Hgo.
  { intros above st o' -> Hlen Hsame Hnone Hk.
    rewrite fmap_app in Hlt, Hnd. apply Forall_app in Hlt as [_ Hlt2].
    apply NoDup_app in Hnd as (_ & _ & Hnd2).
    destruct i as [|i].
    - rewrite Nat.add_0_r, fill_closed, Hsame, Hn; [|lia|lia|].
      + unfold scan_from. simpl. destruct (is_trivia t); [done|]. simpl.
        destruct Hk as [|Hk]; [done|]. by rewrite Hk.
      + intros E. rewrite Forall_forall in Hlt2. specialize (Hlt2 n E). simpl in Hlt2. lia.
    - unfold scan_from. simpl. rewrite <- Nat.add_succ_comm.
      apply (IH (S n)); [lia|by apply Hw|done|lia| |done].
      intros j Hj. rewrite Hsame by lia. apply Hout. lia. }
  destruct (is_trivia t) eqn:Et; [by apply (Hgo []); auto|].
  destruct (opens t) as [c|] eqn:Eo.
  - destruct i as [|i].
    + rewrite Nat.add_0_r, (fill_open l (S n) [] n c stack); [|by constructor|by constructor; [simpl; lia|apply Hw]|done].
      unfold scan_from. simpl. rewrite Nat.add_0_r, ?Et, ?Eo. simpl. by rewrite ?Et, ?Eo.
    + unfold scan_from. simpl. rewrite <- Nat.add_succ_comm.
      apply (IH (S n)); simpl; [lia|by constructor; [simpl; lia|apply Hw]|by constructor|lia| |by constructor].
      intros j Hj. apply Hout. lia.
  - destruct (closes t); [|by apply (Hgo []); auto].
    destruct stack as [|[o c] stack]; [by apply (Hgo []); auto|].
    simpl in *. apply Forall_cons in Hst as [? Hst]. apply NoDup_cons in Hnd as [Hno Hnd].
    apply Forall_cons in Hlt as [Hlo Hlt].
    destruct (fits t c).
    + apply (Hgo [(o, c)]); [done|by rewrite length_insert| | |auto].
      * intros j Hj. rewrite list_lookup_insert_ne by lia. done.
      * apply Forall_forall. intros j Hj. rewrite Forall_forall in Hst.
        rewrite list_lookup_insert_ne by set_solver. by apply Hst.
    + apply (Hgo ((o, c) :: stack)); [by rewrite app_nil_r|done|done|constructor|auto].
Qed.

Lemma drop_enum_from {A} (l : list A) : ∀ n i, drop i (enum_from n l) = enum_from (n + i) (drop i l).
Proof.
  induction l as [|a l IH]; intros n [|i]; simpl; rewrite ?Nat.add_0_r; try done.
  rewrite IH. f_equal. lia.
Qed.

Lemma table_of_run tokens i :
  i < length tokens →
  table_of opens closes fits tokens !! i = Some (block_at opens closes fits tokens i).
Proof.
  intros Hi. unfold table_of, block_at, enumerate.
  etrans; [apply (fill_ahead tokens 0)|]; [done|constructor|constructor
    |by rewrite length_replicate| |constructor|].
  - intros j Hj. rewrite length_replicate in Hj. apply lookup_replicate_2. lia.
  - unfold scan_from. by rewrite drop_enum_from.
Qed.

Lemma table_of_length tokens : length (table_of opens closes fits tokens) = length tokens.
Proof. unfold table_of. by rewrite fill_length, length_replicate. Qed.
Lemma table_of_None tokens i :
  length tokens ≤ i → block_at opens closes fits tokens i = None.
Proof. intros Hi. unfold block_at. by rewrite lookup_ge_None_2. Qed.

(** A closer is after its opener. *)
Lemma block_loop_after l : ∀ n stack j, scan (enum_from n l) stack = Some j → n ≤ j < n + length l.
Proof.
  induction l as [|t l IH]; intros n stack j; simpl; [done|].
  repeat case_match; try done; try (intros Hj%IH; lia). intros [= <-]. lia.
Qed.
Lemma block_at_after tokens i j :
  block_at opens closes fits tokens i = Some j → i < j < length tokens.
Proof.
  unfold block_at, enumerate. destruct (tokens !! i) as [t|] eqn:Et; simpl; [|done].
  destruct (is_trivia t) eqn:Ev; simpl; [done|]. destruct (opens t) eqn:Eo; simpl; [|done].
  rewrite drop_enum_from, (drop_S _ _ _ Et). simpl. rewrite Ev, Eo.
  intros Hj%block_loop_after. apply lookup_lt_Some in Et. rewrite length_drop in Hj. lia.
Qed.
End matching.

(** The scan does not depend on how a closer is named on the stack. *)
Lemma block_loop_rename {C D} (g : C → D) opens closes fits opens' fits' l stack :
  (∀ t, opens' t = g <$> opens t) → (∀ t c, opens t = Some c → ∀ t', fits' t' (g c) = fits t' c) →
  Forall (λ c, ∀ t, fits' t (g c) = fits t c) stack →
  block_loop opens' closes fits' l (g <$> stack) = block_loop opens closes fits l stack.
Proof.
  intros Ho Hf. revert stack. induction l as [|[i t] l IH]; intros stack Hs; simpl; [done|].
  rewrite Ho. destruct (is_trivia t); [by apply IH|].
  destruct (opens t) as [c|] eqn:Eo; simpl.
  { apply (IH (c :: stack)). constructor; [|done]. intros t'. by eapply Hf. }
  destruct (closes t); [|by apply IH]. destruct Hs as [|c stack Hc Hs]; simpl; [done|].
  rewrite Hc. destruct (fits t c); simpl; [|done]. rewrite <- IH by done. by destruct stack.
Qed.
Lemma block_at_rename {C D} (g : C → D) opens closes fits opens' fits' tokens i :
  (∀ t, opens' t = g <$> opens t) → (∀ t c, opens t = Some c → ∀ t', fits' t' (g c) = fits t' c) →
  block_at opens' closes fits' tokens i = block_at opens closes fits tokens i.
Proof.
  intros Ho Hf. unfold block_at. destruct (tokens !! i) as [t|]; simpl; [|done].
  rewrite Ho. assert (bool_decide (is_Some (g <$> opens t)) = bool_decide (is_Some (opens t))) as ->
    by (apply bool_decide_ext; by rewrite fmap_is_Some).
  case_match; [done|]. by apply (block_loop_rename g _ _ _ _ _ _ []).
Qed.

Lemma table_of_scans {C} (opens : TokenDecl → option C) closes fits tokens :
  table_of opens closes fits tokens = block_at opens closes fits tokens <$> seq 0 (length tokens).
Proof.
  apply list_eq. intros i. rewrite list_lookup_fmap. destruct (decide (i < length tokens)).
  - rewrite table_of_run by done. by rewrite lookup_seq_lt.
  - rewrite (lookup_ge_None_2 (table_of _ _ _ _)), lookup_seq_ge; [done|lia|rewrite table_of_length; lia].
Qed.

Lemma close_table_scans tokens :
  close_table tokens = matching_close tokens <$> seq 0 (length tokens).
Proof. apply table_of_scans. Qed.
Lemma close_table_lookup tokens i :
  mjoin (close_table tokens !! i) = matching_close tokens i.
Proof.
  rewrite close_table_scans, list_lookup_fmap. destruct (decide (i < length tokens)).
  - by rewrite lookup_seq_lt.
  - rewrite lookup_seq_ge by lia. symmetry. apply table_of_None. lia.
Qed.

Lemma keyword_close_table_scans tokens pairs ignore_case :
  keyword_close_table tokens pairs ignore_case =
    (λ i, keyword_block tokens i pairs ignore_case) <$> seq 0 (length tokens).
Proof.
  unfold keyword_close_table. rewrite table_of_scans. apply list_fmap_ext. intros _ i _.
  unfold keyword_block. symmetry.
  apply (block_at_rename (λ k, default [] (snd <$> pairs !! k))).
  - intros t. unfold closer_of, pair_of. rewrite <- option_fmap_compose.
    destruct (list_find _ _) as [[k p]|] eqn:Ef; [|done]. simpl.
    apply list_find_Some in Ef as (-> & _). done.
  - unfold pair_of. intros t k Hk t'.
    destruct (list_find _ _) as [[k' p]|] eqn:Ef; [|done]. injection Hk as <-.
    apply list_find_Some in Ef as (-> & _). done.
Qed.

(** C38: [close_table] and [keyword_close_table], one pass over the tokens, give
    at every index what [matching_close] and [keyword_block] find by a scan
    from that index, mismatched and missing closers included. *)
Theorem close_tables_scan tokens pairs ignore_case :
  close_table tokens = matching_close tokens <$> seq 0 (length tokens) ∧
  keyword_close_table tokens pairs ignore_case =
    (λ i, keyword_block tokens i pairs ignore_case) <$> seq 0 (length tokens).
Proof. split; [apply close_table_scans|apply keyword_close_table_scans]. Qed.

(** ** What a scan finds *)

(** A run of tokens whose delimiters pair up, literals and comments aside. *)
Inductive Balanced : list TokenDecl → Prop :=
  | Balanced_nil : Balanced []
  | Balanced_plain t l :
      is_trivia t = true ∨ closer_for (td_text t) = None ∧ closes_any (td_text t) = false →
      Balanced l → Balanced (t :: l)
  | Balanced_group o body t l :
      is_trivia o = false → closer_for (td_text o) = Some (td_text t) → Balanced body →
      is_trivia t = false → Balanced l → Balanced (o :: body ++ t :: l).

Lemma Balanced_app l k : Balanced l → Balanced k → Balanced (l ++ k).
Proof.
  induction 1 as [|t l Ht _ IH|o body t l Ho Hc Hb _ Ht _ IH]; intros Hk; simpl; [done| |].
  - constructor; auto.
  - rewrite <- app_assoc. simpl. apply Balanced_group; auto.
Qed.

#[local] Abbreviation delim_scan := (block_loop delim_opens delim_closes delim_fits).

(** A closer's text closes and opens nothing. *)
Lemma closer_for_closes a b : closer_for a = Some b → closes_any b = true ∧ closer_for b = None.
Proof. unfold closer_for. repeat case_match; intros [= <-]; done. Qed.

Lemma delim_closes_opens t : delim_closes t = true → delim_opens t = None.
Proof.
  unfold delim_closes, closes_any, one_of, delim_opens. intros H%bool_decide_eq_true_1.
  rewrite !elem_of_cons in H. by destruct H as [-> |[-> |[-> |[]%elem_of_nil]]].
Qed.

Lemma delim_scan_over body : Balanced body → ∀ n rest c stack,
  delim_scan (enum_from n (body ++ rest)) (c :: stack) =
    delim_scan (enum_from (n + length body) rest) (c :: stack).
Proof.
  induction 1 as [|t l Ht _ IH|o body t l Ho Hc _ IHb Ht _ IH]; intros n rest c stack; simpl.
  - by rewrite Nat.add_0_r.
  - rewrite <- Nat.add_succ_comm. rewrite <- IH.
    destruct Ht as [-> |[Ho Hc]]; [done|]. destruct (is_trivia t); [done|].
    assert (delim_opens t = None) as -> by done.
    by assert (delim_closes t = false) as -> by done.
  - rewrite Ho. assert (delim_opens o = Some (td_text t)) as -> by done.
    rewrite <- app_assoc. simpl.
    rewrite IHb. simpl. rewrite Ht. destruct (closer_for_closes _ _ Hc) as [Hd Hn].
    change (closer_for (td_text t)) with (delim_opens t) in Hn.
    change (closes_any (td_text t)) with (delim_closes t) in Hd.
    assert (delim_fits t (td_text t) = true) as Hf by by apply bool_decide_eq_true_2.
    rewrite Hn, Hd, Hf. simpl. rewrite IH. f_equal. f_equal.
    rewrite length_app. simpl. lia.
Qed.

(** The scan from below an open delimiter stops at its closer, the tokens
    between balanced. *)
Lemma delim_scan_split m : ∀ n l c stack j, length l ≤ m →
  delim_scan (enum_from n l) (c :: stack) = Some j →
  ∃ body t rest, l = body ++ t :: rest ∧ Balanced body ∧ is_trivia t = false ∧ c = td_text t ∧
    closes_any c = true ∧
    match stack with
    | [] => j = n + length body
    | _ => delim_scan (enum_from (S (n + length body)) rest) stack = Some j
    end.
Proof.
  induction m as [|m IH]; intros n [|t l] c stack j Hl; simpl in *; try done; [lia|].
  assert (∀ l', t :: l = [t] ++ l' → is_trivia t = true ∨ delim_opens t = None ∧ delim_closes t = false →
    delim_scan (enum_from (S n) l') (c :: stack) = Some j →
    ∃ body t' rest, t :: l = body ++ t' :: rest ∧ Balanced body ∧ is_trivia t' = false ∧ c = td_text t' ∧
    closes_any c = true ∧
    match stack with
    | [] => j = n + length body
    | _ => delim_scan (enum_from (S (n + length body)) rest) stack = Some j
    end) as Hplain.
  { intros l' [= <-] Ht (body & t' & rest & -> & Hb & Ht' & -> & Hc & Hj)%IH; [|lia].
    exists (t :: body), t', rest. split_and!; try done; [by constructor|].
    simpl. by rewrite <- Nat.add_succ_comm. }
  destruct (is_trivia t) eqn:Et; [by apply Hplain; auto|].
  destruct (delim_opens t) as [d|] eqn:Eo.
  - intros (b1 & t1 & r1 & -> & Hb1 & Ht1 & -> & _ & H1)%IH; [|lia].
    apply IH in H1 as (b2 & t2 & r2 & -> & Hb2 & Ht2 & -> & Hc2 & Hj);
      [|rewrite length_app in Hl; simpl in Hl; lia].
    exists (t :: b1 ++ t1 :: b2), t2, r2. split_and!; try done.
    + simpl. by rewrite <- app_assoc.
    + by apply Balanced_group.
    + simpl. rewrite length_app. simpl.
      replace (n + S (length b1 + S (length b2))) with (S (S n + length b1) + length b2) by lia. done.
  - destruct (delim_closes t) eqn:Ec; [|by apply Hplain; auto].
    destruct (delim_fits t c) eqn:Ef; simpl; [|done]. apply bool_decide_eq_true_1 in Ef as ->.
    intros Hj. exists [], t, l. split_and!; try done; [constructor|]. simpl. rewrite Nat.add_0_r.
    destruct stack; [by injection Hj|done].
Qed.

Lemma matching_close_after tokens i j : matching_close tokens i = Some j → i < j < length tokens.
Proof. apply block_at_after. Qed.

Lemma matching_close_enum pre o rest :
  matching_close (pre ++ o :: rest) (length pre) =
    if is_trivia o then None
    else c ← closer_for (td_text o); delim_scan (enum_from (S (length pre)) rest) [c].
Proof.
  unfold matching_close, block_at, enumerate.
  rewrite list_lookup_middle by done. simpl. destruct (is_trivia o) eqn:Eo; simpl; [done|].
  rewrite drop_enum_from, drop_app_length. simpl. rewrite Eo.
  assert (delim_opens o = closer_for (td_text o)) as -> by done.
  by destruct (closer_for (td_text o)).
Qed.

(** [matching_close] finds a closer exactly when the token is a code
    delimiter, the closer is the code token of the matching text, and the
    delimiters between the two pair up; there is at most one such closer. *)
Theorem matching_close_balanced tokens i j :
  matching_close tokens i = Some j ↔
  ∃ pre o body t post, tokens = pre ++ o :: body ++ t :: post ∧ length pre = i ∧
    j = i + S (length body) ∧ is_trivia o = false ∧ is_trivia t = false ∧
    closer_for (td_text o) = Some (td_text t) ∧ Balanced body.
Proof.
  split.
  - intros Hj. destruct (matching_close_after _ _ _ Hj) as [Hij Hjl].
    destruct (lookup_lt_is_Some_2 tokens i ltac:(lia)) as [o Ho].
    apply list_elem_of_split_length in Ho as (pre & rest & -> & ->).
    rewrite matching_close_enum in Hj. destruct (is_trivia o) eqn:Eo; [done|].
    destruct (closer_for (td_text o)) as [c|] eqn:Ec; simpl in Hj; [|done].
    apply (delim_scan_split _ _ _ _ _ _ (le_n _)) in Hj as (body & t & post & -> & Hb & Ht & -> & _ & ->).
    exists pre, o, body, t, post. split_and!; try done. lia.
  - intros (pre & o & body & t & post & -> & <- & -> & Ho & Ht & Hc & Hb).
    rewrite matching_close_enum, Ho, Hc. simpl. rewrite delim_scan_over by done. simpl. rewrite Ht.
    destruct (closer_for_closes _ _ Hc) as [Hd Hn].
    change (closer_for (td_text t)) with (delim_opens t) in Hn.
    change (closes_any (td_text t)) with (delim_closes t) in Hd.
    assert (delim_fits t (td_text t) = true) as Hf by by apply bool_decide_eq_true_2.
    rewrite Hn, Hd, Hf. simpl. f_equal. lia.
Qed.

(** ** Code positions *)

Lemma positions_run code : ∀ n pos,
  Forall (λ i, i < length pos) code → NoDup code →
  ∃ pos', positions (enum_from n code) pos = Ok pos' ∧ length pos' = length pos ∧
    ∀ i, i < length pos → pos' !! i =
      match list_find (i =.) code with Some (k, _) => Some (Some (n + k)) | None => pos !! i end.
Proof.
  induction code as [|i code IH]; intros n pos Hlt Hnd; simpl; [by exists pos|].
  apply Forall_cons in Hlt as [Hi Hlt]. apply NoDup_cons in Hnd as [Hni Hnd].
  unfold set_at. rewrite bool_decide_true by done. simpl.
  destruct (IH (S n) (<[i := Some n]> pos)) as (pos' & -> & Hl & Hp); [by rewrite length_insert|done|].
  rewrite length_insert in Hl, Hp. exists pos'. split_and!; [done|done|]. intros k Hk.
  rewrite Hp by done. destruct (decide (k = i)) as [-> |Hne].
  - destruct (list_find (i =.) code) as [[m x]|] eqn:Ef.
    + apply list_find_Some in Ef as (Hm & <- & _). by apply list_elem_of_lookup_2 in Hm.
    + by rewrite list_lookup_insert_eq, Nat.add_0_r.
  - destruct (list_find (k =.) code) as [[m x]|] eqn:Ef; simpl; [by rewrite <- Nat.add_succ_comm|].
    by rewrite list_lookup_insert_ne.
Qed.

(** [code.binary_search(&close).ok()] on a sorted index. *)
Definition code_position (code : list nat) (i : nat) : option nat := fst <$> list_find (i =.) code.

Lemma code_close_table_run tokens code :
  Forall (λ i, i < length tokens) code → NoDup code →
  code_close_table tokens code =
    Ok ((λ i, matching_close tokens i ≫= code_position code) <$> code).
Proof.
  intros Hlt Hnd. unfold code_close_table, enumerate.
  destruct (positions_run code 0 (replicate (length tokens) None)) as (pos & -> & Hl & Hp);
    [by rewrite length_replicate|done|]. rewrite length_replicate in Hl, Hp. simpl.
  apply collect_Forall2, Forall2_fmap_r, Forall2_same_length_lookup_2; [done|].
  intros k x y Hx Hy. replace y with x in * by congruence.
  assert (x < length tokens) as Hxl by by eapply Forall_lookup in Hlt.
  rewrite (index_Ok (close_table tokens) x (matching_close tokens x)) by by apply table_of_run. simpl.
  destruct (matching_close tokens x) as [close|] eqn:Ec; simpl; [|done].
  apply matching_close_after in Ec as [_ Hc]. unfold index. rewrite Hp by done.
  unfold code_position. destruct (list_find (close =.) code) as [[m z]|]; simpl; [done|].
  by rewrite lookup_replicate_2.
Qed.

Lemma code_index_sorted tokens skip : StronglySorted lt (code_index tokens skip).
Proof. apply selected_sorted. Qed.
Lemma code_index_elem tokens skip i :
  i ∈ code_index tokens skip ↔ ∃ t, tokens !! i = Some t ∧ td_class t ∉ skip.
Proof.
  unfold code_index. rewrite list_elem_of_fmap. setoid_rewrite list_elem_of_filter. split.
  - intros ([k t] & -> & Hs & Ht%enumerate_elem). eauto.
  - intros (t & Ht & Hs). exists (i, t). split_and!; [done|done|by apply enumerate_elem].
Qed.
