(* ===== verification/NestedScan.v ===== *)
(** * Nested lists, layout and the cursor: proofs

    The memo of [NestedEnds] against a plain scan, and what [indent_block],
    [line_iter], [mark_keywords] and the cursor of [graph-core/src/scan.rs]
    return. *)
From S2P Require Import Prelude Text Schema StrOps Tokenizer Language TokenScan.

#[local] Open Scope nat_scope.

(** ** The plain scan *)

Section plain.
Context (hi : nat) (step : nat → Step).

(** [plain_scan fuel c depth]: the position that brings [depth] back to zero,
    from [c] on, without a memo. *)
Fixpoint plain_scan (fuel c depth : nat) : option nat :=
  if hi <=? c then None
  else
    match fuel with
    | O => None
    | S fuel =>
        match step c with
        | Open => plain_scan fuel (c + 1) (S depth)
        | Close =>
            match depth with
            | O => None
            | S O => Some c
            | S depth => plain_scan fuel (c + 1) depth
            end
        | Stop | Skip None => None
        | Skip (Some to) => plain_scan fuel (to + 1) depth
        | Other => plain_scan fuel (c + 1) depth
        end
    end.

(** The end of the list opened at [open]. *)
Definition plain_find (open : nat) : option nat := plain_scan (hi - open) open 0.

(** A group's closer is not before it. *)
Definition skips_forward : Prop := ∀ c to, step c = Skip (Some to) → c ≤ to.
Hypothesis Hskip : skips_forward.

Lemma plain_scan_fuel f : ∀ g c d, hi - c ≤ f → hi - c ≤ g → plain_scan f c d = plain_scan g c d.
Proof.
  induction f as [|f IH]; intros g c d Hf Hg.
  { assert ((hi <=? c) = true) as E by (apply Nat.leb_le; lia). destruct g; simpl; by rewrite E. }
  destruct g as [|g].
  { assert ((hi <=? c) = true) as E by (apply Nat.leb_le; lia). simpl. by rewrite E. }
  simpl. destruct (Nat.leb_spec hi c); [done|].
  destruct (step c) as [| | |[to|]|] eqn:Es; try done; try (apply IH; lia).
  - destruct d as [|[|d]]; [done|done|]. apply IH; lia.
  - pose proof (Hskip _ _ Es). apply IH; lia.
Qed.

(** The scan with enough fuel, and its one-step equations. *)
Definition scan_at (c d : nat) : option nat := plain_scan (hi - c) c d.

Lemma scan_at_end c d : hi ≤ c → scan_at c d = None.
Proof. intros Hc. unfold scan_at. destruct (hi - c); simpl; by rewrite (proj2 (Nat.leb_le _ _) Hc). Qed.
Lemma scan_at_step c d : c < hi →
  scan_at c d =
    match step c with
    | Open => scan_at (c + 1) (S d)
    | Close => match d with O => None | S O => Some c | S d => scan_at (c + 1) d end
    | Stop | Skip None => None
    | Skip (Some to) => scan_at (to + 1) d
    | Other => scan_at (c + 1) d
    end.
Proof.
  intros Hc. unfold scan_at at 1. destruct (hi - c) as [|f] eqn:Ef; [lia|]. simpl.
  rewrite (proj2 (Nat.leb_gt _ _) Hc).
  destruct (step c) as [| | |[to|]|] eqn:Es; try done; try (apply plain_scan_fuel; lia).
  - destruct d as [|[|d]]; [done|done|]. apply plain_scan_fuel; lia.
  - pose proof (Hskip _ _ Es). apply plain_scan_fuel; lia.
Qed.
Lemma plain_find_open c : c < hi → step c = Open → plain_find c = scan_at (c + 1) 1.
Proof. intros Hc Hs. change (plain_find c) with (scan_at c 0). by rewrite scan_at_step, Hs. Qed.

Lemma scan_at_range f : ∀ c d x, hi - c ≤ f → scan_at c d = Some x → c ≤ x < hi.
Proof.
  induction f as [|f IH]; intros c d x Hf; (destruct (decide (hi ≤ c)); [by rewrite scan_at_end|]); [lia|].
  rewrite scan_at_step by lia. destruct (step c) as [| | |[to|]|] eqn:Es; try done.
  - intros E%IH; lia.
  - destruct d as [|[|d]]; [done|by intros [= <-]; lia|]. intros E%IH; lia.
  - pose proof (Hskip _ _ Es). intros E%IH; lia.
  - intros E%IH; lia.
Qed.

(** Coming down [d + e] levels is coming down [d], then [e]. *)
Lemma scan_at_add f : ∀ c d e, hi - c ≤ f → 1 ≤ d → 1 ≤ e →
  scan_at c (d + e) = (x ← scan_at c d; scan_at (x + 1) e).
Proof.
  induction f as [|f IH]; intros c d e Hf Hd He;
    (destruct (decide (hi ≤ c)); [by rewrite !scan_at_end|]); [lia|].
  rewrite !(scan_at_step c) by lia. destruct (step c) as [| | |[to|]|] eqn:Es; try done.
  - rewrite <- (IH (c + 1) (S d) e) by lia. done.
  - destruct d as [|[|d]]; simpl; [lia| |].
    + destruct e; [lia|done].
    + apply (IH (c + 1) (S d) e); lia.
  - pose proof (Hskip _ _ Es). apply IH; lia.
  - apply IH; lia.
Qed.

(** Passing an opener whose end is known. *)
Lemma scan_at_known c e : c < hi → step c = Open → 1 ≤ e →
  scan_at c e = (x ← plain_find c; scan_at (x + 1) e).
Proof.
  intros Hc Hs He. rewrite scan_at_step, Hs, (plain_find_open c) by done.
  apply (scan_at_add _ (c + 1) 1 e (le_n _)); lia.
Qed.
End plain.

(** ** The memo *)

Section memo.
Context (step : nat → nat → Step) (Hskip : ∀ hi, skips_forward (step hi)).

(** Every answer cached for an opener is the plain scan's. *)
Definition memo_ok (memo : NestedEnds) : Prop :=
  ∀ open hi r, memo !! (open, hi) = Some r →
    open < hi ∧ step hi open = Open ∧ r = plain_find hi (step hi) open.

Context (memo : NestedEnds) (Hmemo : memo_ok memo) (open hi : nat).
#[local] Abbreviation at_ := (scan_at hi (step hi)).
#[local] Abbreviation answer := (plain_find hi (step hi)).

(** The openers on the stack wait for the scan to come down to their depth. *)
Definition waiting (c : nat) (stack : list nat) : Prop :=
  ∀ k o, stack !! k = Some o → o < hi ∧ step hi o = Open ∧ answer o = at_ c (S k).
Definition answered (e : nat * option nat) : Prop :=
  e.1 < hi ∧ step hi e.1 = Open ∧ e.2 = answer e.1.

Lemma waiting_move c c' stack :
  (∀ d, 1 ≤ d → at_ c d = at_ c' d) → waiting c stack → waiting c' stack.
Proof. intros E Hw k o Hk. destruct (Hw k o Hk) as (? & ? & ->). split_and!; [done|done|apply E; lia]. Qed.
Lemma waiting_push c stack :
  c < hi → step hi c = Open → waiting c stack → waiting (c + 1) (c :: stack).
Proof.
  intros Hc Hs Hw [|k] o Hk.
  - injection Hk as <-. split_and!; [done|done|by apply plain_find_open].
  - destruct (Hw k o Hk) as (? & ? & ->). split_and!; [done|done|].
    by rewrite (scan_at_step hi _ (Hskip hi) c), Hs.
Qed.
Lemma waiting_pop c o stack :
  c < hi → step hi c = Close → waiting c (o :: stack) →
  answered (o, Some c) ∧ waiting (c + 1) stack.
Proof.
  intros Hc Hs Hw. pose proof (scan_at_step hi _ (Hskip hi) c) as Hstep. split.
  - destruct (Hw 0 o eq_refl) as (? & ? & E). split_and!; [done|done|]. simpl. by rewrite E, Hstep, Hs.
  - intros k o' Hk. destruct (Hw (S k) o' Hk) as (? & ? & E). split_and!; [done|done|].
    by rewrite E, Hstep, Hs.
Qed.
Lemma waiting_fail c stack :
  (∀ d, 1 ≤ d → at_ c d = None) → waiting c stack → Forall (λ o, answered (o, None)) stack.
Proof.
  intros E Hw. apply Forall_lookup. intros k o Hk. destruct (Hw k o Hk) as (? & ? & Ha).
  split_and!; [done|done|]. simpl. by rewrite Ha, E by lia.
Qed.

(** The first opener is at the bottom of the stack, and nothing else is when
    the scan starts. *)
Definition rooted (c : nat) (stack : list nat) : Prop :=
  (c = open ∧ stack = []) ∨ (open < c ∧ last stack = Some open).

Definition loop_done (r : option nat * list nat * list (nat * option nat)) : Prop :=
  r.1.1 = answer open ∧ Forall (λ o, answered (o, None)) r.1.2 ∧ Forall answered r.2.

Lemma rooted_answer c stack :
  rooted c stack → stack ≠ [] → waiting c stack → answer open = at_ c (length stack).
Proof.
  intros [[_ ?]|[_ Hl]] Hne Hw; [done|]. rewrite last_lookup in Hl.
  destruct (Hw _ _ Hl) as (_ & _ & ->). f_equal. destruct stack; simpl in *; [done|lia].
Qed.

(** A turn that gives up answers every opener still on the stack. *)
Lemma fails_at c stack found :
  rooted c stack → stack ≠ [] → waiting c stack → Forall answered found →
  (∀ d, 1 ≤ d → at_ c d = None) → loop_done (None, stack, found).
Proof.
  intros Hr Hne Hw Hf E. split_and!; [|by eapply waiting_fail|done]. simpl.
  rewrite (rooted_answer c stack), E; [done|destruct stack; simpl; [done|lia]|done|done|done].
Qed.

Lemma find_loop_run fuel : ∀ c stack found,
  hi - c ≤ fuel → step hi open = Open → open < hi →
  rooted c stack → waiting c stack → Forall answered found →
  ∃ r, find_loop memo open hi (step hi) fuel c stack found = Ok r ∧ loop_done r.
Proof.
  induction fuel as [|fuel IH]; intros c stack found Hfu Ho Hoh Hr Hw Hf; simpl;
    destruct (Nat.leb_spec hi c) as [Hc|Hc]; try lia.
  1,2: exists (None, stack, found); split; [done|]; apply (fails_at c); try done;
    [destruct Hr as [[-> ->]|[_ Hl]]; [lia|by intros ->]|intros; by apply scan_at_end].
  pose proof (scan_at_step hi _ (Hskip hi) c) as Hstep.
  destruct (decide (c = open)) as [-> |Hne].
  { rewrite Ho, Nat.eqb_refl. destruct Hr as [[_ ->]|[? _]]; [|lia].
    apply IH; [lia|done|done|right; split; [lia|done]| |done].
    apply waiting_push; [done|done|]. by intros ? ?. }
  destruct Hr as [[-> _]|[Hoc Hlast]]; [done|].
  assert (stack ≠ []) as Hns by by intros ->.
  assert (rooted c stack) as Hr by by right.
  destruct (step hi c) as [| | |[to|]|] eqn:Es.
  - rewrite (proj2 (Nat.eqb_neq c open) Hne). destruct (memo !! (c, hi)) as [[close|]|] eqn:Em.
    + apply Hmemo in Em as (_ & _ & Em). assert (c ≤ close < hi).
      { rewrite (plain_find_open _ _ (Hskip hi)) in Em by done. symmetry in Em.
        apply (scan_at_range _ _ (Hskip hi) _ _ _ _ (le_n _)) in Em. lia. }
      apply IH; [lia|done|done|right; split; [lia|done]| |done].
      apply (waiting_move c); [|done]. intros d Hd.
      by rewrite (scan_at_known _ _ (Hskip hi)), <- Em by done.
    + apply Hmemo in Em as (_ & _ & Em). eexists; split; [done|]. apply (fails_at c); try done.
      intros d Hd. by rewrite (scan_at_known _ _ (Hskip hi)), <- Em by done.
    + apply IH; [lia|done|done| |by apply waiting_push|done]. right. split; [lia|].
      by destruct stack.
  - destruct stack as [|o stack]; [done|]. apply waiting_pop in Hw as Hp; [|done|done].
    destruct Hp as [Ha Hw']. destruct stack as [|o' stack].
    + eexists; split; [done|]. split_and!; [|constructor|by constructor]. simpl.
      injection Hlast as ->. by destruct Ha as (_ & _ & Ha).
    + apply IH; [lia|done|done|right; split; [lia|done]|done|by constructor].
  - eexists; split; [done|]. apply (fails_at c); try done. intros. by rewrite Hstep, ?Es.
  - pose proof (Hskip hi _ _ Es). apply IH; [lia|done|done|right; split; [lia|done]| |done].
    apply (waiting_move c); [|done]. intros. by rewrite Hstep, ?Es.
  - eexists; split; [done|]. apply (fails_at c); try done. intros. by rewrite Hstep, ?Es.
  - apply IH; [lia|done|done|right; split; [lia|done]| |done].
    apply (waiting_move c); [|done]. intros. by rewrite Hstep, ?Es.
Qed.

Lemma memo_insert m e : memo_ok m → answered e → memo_ok (<[(e.1, hi) := e.2]> m).
Proof.
  intros Hm (? & ? & Ha) o h r Hl. unfold NestedEnds in *. destruct (decide ((o, h) = (e.1, hi))) as [E|Hne].
  - injection E as -> ->. rewrite lookup_insert_eq in Hl. injection Hl as <-. done.
  - rewrite lookup_insert_ne in Hl by done. by apply Hm.
Qed.
Lemma memo_fold {A} (f : A → nat * option nat) l m :
  memo_ok m → Forall (λ a, answered (f a)) l →
  memo_ok (foldl (λ m a, <[((f a).1, hi) := (f a).2]> m) m l).
Proof.
  intros Hm Hl. revert m Hm. induction Hl as [|a l Ha _ IH]; intros m Hm; simpl; [done|].
  by apply IH, memo_insert.
Qed.

Lemma find_run :
  open < hi → step hi open = Open →
  ∃ memo', find memo open hi (step hi) = Ok (answer open, memo') ∧ memo_ok memo'.
Proof.
  intros Ho Hs. unfold find. destruct (memo !! (open, hi)) as [r|] eqn:Em.
  { exists memo. split; [|done]. apply Hmemo in Em as (_ & _ & ->). done. }
  destruct (find_loop_run (hi - open) open [] []) as ([[r stack] found] & -> & Hr & Hst & Hf);
    [lia|done|done|by left|by intros ? ?|constructor|].
  simpl in *. eexists. split; [by rewrite Hr|].
  apply (memo_fold (λ o, (o, None))); [apply (memo_fold id)|]; [done| |].
  - by apply List.Forall_rev.
  - by apply List.Forall_rev.
Qed.
End memo.

(** C37: [NestedEnds::find] returns for every opener below [hi] and gives the
    end the plain scan from that opener gives, whatever lists were looked up
    before, and leaves a memo for which this stays true; the step function
    depends on the range end alone and no group closes before it opens. *)
Theorem nested_ends_scan (step : nat → nat → Step) memo open hi :
  (∀ hi, skips_forward (step hi)) → memo_ok step memo → open < hi → step hi open = Open →
  ∃ memo', find memo open hi (step hi) = Ok (plain_find hi (step hi) open, memo') ∧
    memo_ok step memo'.
Proof. intros Hskip Hm Ho Hs. by apply find_run. Qed.

(** The memo over [< < > ( ... ) <]: the second list is answered by the scan
    for the first, the third by its own. *)
Definition sample_step (hi c : nat) : Step :=
  match c with
  | 0 | 1 | 9 => Open
  | 2 | 7 => Close
  | 3 => Skip (Some 5)
  | 8 => Stop
  | _ => Other
  end.

Lemma nested_ends_scan_witness :
  ∃ memo', find ∅ 0 10 (sample_step 10) = Ok (Some 7, memo') ∧ memo_ok sample_step memo'.
Proof.
  apply (nested_ends_scan sample_step ∅ 0 10); [|by intros ? ? ?|lia|done].
  intros hi c to. unfold sample_step. repeat case_match; intros [=]. lia.
Defined.

(** ** Keyword marking *)

Definition as_keyword (t : TokenDecl) : TokenDecl := mkTokenDecl (td_text t) Keyword (td_span t).

(** The tokens [rest] after the marked tokens [before], each marked by what
    the escape rule says of the tokens as they are then. *)
Fixpoint marked (is_keyword : str → bool) (is_escaped : list TokenDecl → nat → bool)
    (before rest : list TokenDecl) : list TokenDecl :=
  match rest with
  | [] => []
  | t :: rest =>
      let t' :=
        if bool_decide (td_class t = Identifier) && is_keyword (td_text t)
           && negb (is_escaped (before ++ t :: rest) (length before))
        then as_keyword t else t in
      t' :: marked is_keyword is_escaped (before ++ [t']) rest
  end.

Lemma mark_loop_run is_keyword is_escaped rest : ∀ before,
  mark_loop is_keyword is_escaped (seq (length before) (length rest)) (before ++ rest) =
    Ok (before ++ marked is_keyword is_escaped before rest).
Proof.
  induction rest as [|t rest IH]; intros before; simpl; [done|].
  unfold index. rewrite list_lookup_middle by done. simpl.
  assert (∀ t', mark_loop is_keyword is_escaped (seq (S (length before)) (length rest))
    (before ++ t' :: rest) = Ok (before ++ t' :: marked is_keyword is_escaped (before ++ [t']) rest)) as Hgo.
  { intros t'. specialize (IH (before ++ [t'])). rewrite length_app, Nat.add_comm in IH. simpl in IH.
    by rewrite <- !app_assoc in IH. }
  case_match; [|apply Hgo]. rewrite insert_app_r_alt, Nat.sub_diag by done. apply Hgo.
Qed.

Lemma mark_keywords_run tokens keywords is_escaped :
  mark_keywords tokens keywords is_escaped =
    Ok (marked (λ text, one_of text keywords) is_escaped [] tokens).
Proof. apply (mark_loop_run _ _ tokens []). Qed.
Lemma mark_keywords_ignore_case_run tokens keywords is_escaped :
  mark_keywords_ignore_case tokens keywords is_escaped =
    Ok (marked (λ text, existsb (λ k, eq_ignore_ascii_case k text) keywords) is_escaped [] tokens).
Proof. apply (mark_loop_run _ _ tokens []). Qed.

(** Marking changes classes alone, and only from identifier to keyword. *)
Lemma marked_same is_keyword is_escaped rest : ∀ before,
  Forall2 (λ t t', t' = t ∨ td_class t = Identifier ∧ is_keyword (td_text t) = true ∧ t' = as_keyword t)
    rest (marked is_keyword is_escaped before rest).
Proof.
  induction rest as [|t rest IH]; intros before; simpl; constructor; [|apply IH].
  case_match eqn:E; [right|by left]. apply andb_true_iff in E as [E _].
  apply andb_true_iff in E as [E1%bool_decide_eq_true_1 E2]. done.
Qed.
Lemma marked_spans is_keyword is_escaped before rest :
  td_span <$> marked is_keyword is_escaped before rest = td_span <$> rest.
Proof.
  generalize (marked_same is_keyword is_escaped rest before).
  generalize (marked is_keyword is_escaped before rest). intros out H.
  induction H as [|t t' l l' Ht _ IH]; [done|]. rewrite !fmap_cons, IH. by destruct Ht as [-> |(_ & _ & ->)].
Qed.

(** ** Lines *)

Lemma run_end_spec line tokens : ∀ i,
  ∃ n, run_end line tokens i = i + n ∧ n ≤ length tokens ∧
    Forall (λ t, start_line (td_span t) = line) (take n tokens) ∧
    ∀ t, tokens !! n = Some t → start_line (td_span t) ≠ line.
Proof.
  induction tokens as [|t tokens IH]; intros i; simpl.
  { exists 0. rewrite Nat.add_0_r. done. }
  case_bool_decide as Ht.
  - destruct (IH (S i)) as (n & -> & Hn & Hf & He). exists (S n). simpl. split_and!; [lia|lia| |done].
    by constructor.
  - exists 0. rewrite Nat.add_0_r. simpl. split_and!; [done|lia|constructor|by intros ? [= <-]].
Qed.

(** An item is a maximal run of tokens of one line. *)
Definition line_run (tokens : list TokenDecl) (item : Z * (nat * nat)) : Prop :=
  let '(line, (a, b)) := item in
  a < b ∧ (∀ i t, a ≤ i < b → tokens !! i = Some t → start_line (td_span t) = line) ∧
  ∀ t, tokens !! b = Some t → start_line (td_span t) ≠ line.

Lemma line_next_spec tokens i : i < length tokens →
  ∃ line b, line_next tokens i = Some (line, (i, b)) ∧ b ≤ length tokens ∧ line_run tokens (line, (i, b)).
Proof.
  intros Hi. destruct (lookup_lt_is_Some_2 tokens i Hi) as [t Ht].
  unfold line_next. rewrite Ht. simpl. eexists _, _. split; [done|].
  destruct (run_end_spec (start_line (td_span t)) (drop i tokens) i) as (n & -> & Hn & Hf & He).
  rewrite length_drop in Hn. split; [lia|]. assert (0 < n) as Hn0.
  { destruct n; [|lia]. exfalso. apply (He t); [by rewrite lookup_drop, Nat.add_0_r|done]. }
  split_and!; [lia| |].
  - intros j u Hj Hu. rewrite Forall_lookup in Hf. apply (Hf (j - i) u).
    rewrite lookup_take_lt, lookup_drop by lia. by replace (i + (j - i)) with j by lia.
  - intros u Hu. apply He. by rewrite lookup_drop.
Qed.

Lemma line_items_spec tokens fuel : ∀ i, length tokens - i ≤ fuel → i ≤ length tokens →
  Forall (line_run tokens) (line_items tokens fuel i) ∧
  concat ((λ item, seq item.2.1 (item.2.2 - item.2.1)) <$> line_items tokens fuel i) =
    seq i (length tokens - i).
Proof.
  induction fuel as [|fuel IH]; intros i Hf Hi; cbn [line_items].
  { replace (length tokens - i) with 0 by lia. by split. }
  destruct (decide (i < length tokens)) as [Hlt|].
  - destruct (line_next_spec tokens i Hlt) as (line & b & -> & Hb & Hr). cbn [snd fst].
    assert (i < b) as Hib by apply Hr. destruct (IH b) as [H1 H2]; [lia|lia|].
    split; [by constructor|]. rewrite fmap_cons. cbn [concat snd fst]. rewrite H2.
    replace (length tokens - i) with ((b - i) + (length tokens - b)) by lia.
    rewrite seq_app. by replace (i + (b - i)) with b by lia.
  - unfold line_next. rewrite lookup_ge_None_2 by lia. simpl.
    replace (length tokens - i) with 0 by lia. by split.
Qed.

Lemma line_iter_partition tokens :
  Forall (line_run tokens) (line_iter tokens) ∧
  concat ((λ item, seq item.2.1 (item.2.2 - item.2.1)) <$> line_iter tokens) = seq 0 (length tokens).
Proof. destruct (line_items_spec tokens (length tokens) 0) as [? H]; [lia|lia|]. by rewrite Nat.sub_0_r in H. Qed.

(** ** Indented blocks *)

Lemma line_first_of_run tokens line n :
  n ≤ length tokens → ∃ m, line_first_of tokens line n = Ok m ∧ m ≤ n ∧
    ∀ i, m ≤ i < n → ∃ t, tokens !! i = Some t ∧ start_line (td_span t) = line.
Proof.
  induction n as [|n IH]; intros Hn; simpl; [exists 0; split_and!; [done|lia|lia]|].
  destruct (lookup_lt_is_Some_2 tokens n ltac:(lia)) as [t Ht]. rewrite (index_Ok _ _ _ Ht). simpl.
  case_bool_decide as Hl; [|exists (S n); split_and!; [done|lia|lia]].
  destruct IH as (m & -> & Hm & Hi); [lia|]. exists m. split_and!; [done|lia|].
  intros i Hi'. destruct (decide (i = n)) as [-> |]; [eauto|apply Hi; lia].
Qed.

(** The block ends at the header or at a token that is not skipped; past it
    come skipped tokens and then nothing, or a token at or left of the
    indent. *)
Lemma indent_loop_spec skip indent l : ∀ n last prev depth line_open,
  last < n →
  let r := indent_loop skip indent (enum_from n l) last prev depth line_open in
  (r = last ∨ n ≤ r ∧ ∃ t, l !! (r - n) = Some t ∧ td_class t ∉ skip) ∧
  ∀ j t, n ≤ j → r < j → l !! (j - n) = Some t →
    (∀ k u, r < k < j → n ≤ k → l !! (k - n) = Some u → td_class u ∈ skip) →
    td_class t ∈ skip ∨ (start_col (td_span t) ≤ indent)%Z.
Proof.
  induction l as [|t l IH]; intros n last prev depth line_open Hn; cbn zeta; simpl; [by split; [left|]|].
  destruct (bool_decide_reflect (td_class t ∈ skip)) as [Hs|Hs].
  - match goal with |- context [indent_loop skip indent ?a last ?b ?c ?d] =>
      destruct (IH (S n) last b c d ltac:(lia)) as [H1 H2]; set (r := indent_loop _ _ _ _ _ _ _) in * end.
    split.
    + destruct H1 as [? |(Hr & u & Hu & Hc)]; [by left|right]. split; [lia|]. exists u.
      by replace (r - n) with (S (r - S n)) by lia.
    + intros j u Hj Hr Hu Hk. destruct (decide (j = n)) as [-> |].
      { rewrite Nat.sub_diag in Hu. injection Hu as <-. by left. }
      apply (H2 j u); [lia|done|by replace (j - n) with (S (j - S n)) in Hu by lia|].
      intros k v Hk1 Hk2 Hv. apply (Hk k v); [done|lia|by replace (k - n) with (S (k - S n)) by lia].
  - case_match eqn:Ec; cbn zeta.
    + split; [by left|]. intros j u Hj Hr Hu Hk. destruct (decide (j = n)) as [-> |].
      { rewrite Nat.sub_diag in Hu. injection Hu as <-. right. apply andb_true_iff in Ec as [_ Ec]. lia. }
      exfalso. apply Hs. apply (Hk n t); [lia|lia|by rewrite Nat.sub_diag].
    + match goal with |- context [indent_loop skip indent ?a n ?b ?c ?d] =>
        destruct (IH (S n) n b c d ltac:(lia)) as [H1 H2]; set (r := indent_loop _ _ _ _ _ _ _) in * end.
      split.
      * right. destruct H1 as [-> |(Hr & u & Hu & Hc)].
        -- split; [lia|]. exists t. by rewrite Nat.sub_diag.
        -- split; [lia|]. exists u. by replace (r - n) with (S (r - S n)) by lia.
      * intros j u Hj Hr Hu Hk. assert (n ≤ r) by (destruct H1 as [-> |[? _]]; lia).
        apply (H2 j u); [lia|done|by replace (j - n) with (S (j - S n)) in Hu by lia|].
        intros k v Hk1 Hk2 Hv. apply (Hk k v); [done|lia|by replace (k - n) with (S (k - S n)) by lia].
Qed.

(** The header's indent: the column of the first token of its line. *)
Lemma indent_block_run tokens header skip h :
  tokens !! header = Some h →
  ∃ first t r, first ≤ header ∧ tokens !! first = Some t ∧ start_line (td_span t) = start_line (td_span h) ∧
    indent_block tokens header skip = Ok r ∧ header ≤ r < length tokens ∧
    (r = header ∨ ∃ u, tokens !! r = Some u ∧ td_class u ∉ skip) ∧
    ∀ j u, r < j → tokens !! j = Some u → (∀ k v, r < k < j → tokens !! k = Some v → td_class v ∈ skip) →
      td_class u ∈ skip ∨ (start_col (td_span u) ≤ start_col (td_span t))%Z.
Proof.
  intros Hh. pose proof (lookup_lt_Some _ _ _ Hh) as Hl. unfold indent_block, enumerate. rewrite Hh.
  destruct (line_first_of_run tokens (start_line (td_span h)) header) as (first & -> & Hf & Hall); [lia|].
  destruct (lookup_lt_is_Some_2 tokens first ltac:(lia)) as [t Ht]. simpl. rewrite (index_Ok _ _ _ Ht). simpl.
  rewrite drop_enum_from. simpl.
  destruct (indent_loop_spec skip (start_col (td_span t)) (drop (header + 1) tokens) (header + 1) header
    (end_line (td_span h)) 0 true ltac:(lia)) as [H1 H2].
  set (r := indent_loop _ _ _ _ _ _ _) in *.
  assert (∀ j, header + 1 ≤ j → drop (header + 1) tokens !! (j - (header + 1)) = tokens !! j) as Hd.
  { intros j Hj. rewrite lookup_drop. f_equal. lia. }
  assert (header ≤ r < length tokens ∧ (r = header ∨ ∃ u, tokens !! r = Some u ∧ td_class u ∉ skip)) as [Hr Hu].
  { destruct H1 as [-> |(Hr & u & Hu & Hc)]; [split; [lia|by left]|]. rewrite Hd in Hu by done.
    pose proof (lookup_lt_Some _ _ _ Hu). split; [lia|right; eauto]. }
  exists first, t, r. split_and!; try done.
  - destruct (decide (first = header)) as [-> |]; [by simplify_eq|].
    destruct (Hall first) as (t' & Ht' & E); [lia|]. by simplify_eq.
  - lia.
  - lia.
  - intros j u Hj Hu' Hk. apply (H2 j u); [lia|done|by rewrite Hd by lia|].
    intros k v Hkj Hk1 Hv. rewrite Hd in Hv by done. by apply (Hk k v).
Qed.

(** ** The cursor *)

Lemma after_comments_spec rest : ∀ pos,
  let p := after_comments rest pos in
  filter (λ x : nat * TokenDecl, is_comment x.2 = false) (enum_from pos rest) !! 0 =
    (λ t, (p, t)) <$> rest !! (p - pos) ∧ pos ≤ p ≤ pos + length rest.
Proof.
  induction rest as [|t rest IH]; intros pos; cbn zeta; simpl.
  { split; [done|lia]. }
  rewrite filter_cons. simpl. destruct (is_comment t); [rewrite decide_False by done|rewrite decide_True by done].
  - destruct (IH (S pos)) as [-> Hp]. set (p := after_comments _ _) in *.
    replace (p - pos) with (S (p - S pos)) by lia. split; [done|lia].
  - rewrite Nat.sub_diag. split; [done|lia].
Qed.

(** [next_code] returns what [peek_code(0)] shows and moves past it, or to the
    end. *)
Lemma next_code_peek c : cu_pos c ≤ length (cu_tokens c) →
  next_code c =
    match peek_code c 0 with
    | Some (i, t) => (Some (i, t), mkCursor (cu_tokens c) (i + 1))
    | None => (None, mkCursor (cu_tokens c) (length (cu_tokens c)))
    end.
Proof.
  intros Hc. unfold next_code, peek_code, skip_comments, enumerate. simpl.
  destruct (after_comments_spec (drop (cu_pos c) (cu_tokens c)) (cu_pos c)) as [Hp Hr].
  set (p := after_comments _ _) in *. rewrite drop_enum_from. simpl. rewrite Hp.
  rewrite lookup_drop, length_drop in *. replace (cu_pos c + (p - cu_pos c)) with p by lia.
  destruct (cu_tokens c !! p) eqn:Et; simpl; [done|]. apply lookup_ge_None in Et.
  by replace p with (length (cu_tokens c)) by lia.
Qed.

(** The cursor with a table moves as the one that scans. *)
Lemma skip_balanced_table c : skip_balanced_with c (close_table (cu_tokens c)) = skip_balanced c.
Proof.
  unfold skip_balanced_with, skip_balanced. destruct (peek_code c 0) as [[open t]|]; [|done].
  by rewrite close_table_lookup.
Qed.
