(* ===== verification/Extracted.v ===== *)
(** * Extractions over a token stream

    What the token-stream extractors share: symbols that span runs of tokens,
    nested or apart, make an extraction the store accepts as it is and reads
    back. *)
From S2P Require Import Prelude Text Schema Varint Stream StreamRound Walk Prep.
From S2P Require Import StrOps Tokenizer TokenizerProps Language Prep TokenScan NestedScan.

(** ** Runs of tokens *)

(** Two runs of positions, each with its first and last, nest or are apart. *)
Definition laminar (rs : list (nat * nat)) : Prop :=
  ∀ r r', r ∈ rs → r' ∈ rs → (r.1 < r'.1)%nat → (r.2 < r'.1)%nat ∨ (r'.2 ≤ r.2)%nat.

(** Strictly increasing positions keep runs nested. *)
Lemma laminar_fmap (g : nat → nat) n rs :
  (∀ i j, (i < j < n)%nat → (g i < g j)%nat) →
  Forall (λ r, (r.1 ≤ r.2 < n)%nat) rs → laminar rs →
  laminar ((λ r, (g r.1, g r.2)) <$> rs).
Proof.
  intros Hg Hr HL r r' (a & -> & Ha)%list_elem_of_fmap (b & -> & Hb)%list_elem_of_fmap. cbn [fst snd].
  rewrite Forall_forall in Hr. pose proof (Hr a Ha) as Hra. pose proof (Hr b Hb) as Hrb. simpl in Hra, Hrb.
  assert (∀ i j, (i ≤ j < n)%nat → (g i ≤ g j)%nat) as Hg'.
  { intros i j Hij. destruct (decide (i = j)) as [-> |]; [lia|]. pose proof (Hg i j ltac:(lia)). lia. }
  intros Hlt. assert ((a.1 < b.1)%nat) as Hab.
  { destruct (decide (b.1 ≤ a.1)%nat); [|lia]. pose proof (Hg' b.1 a.1 ltac:(lia)). lia. }
  destruct (HL a b Ha Hb Hab); [left; apply Hg|right; apply Hg']; lia.
Qed.

Section covered.
Context (spans : list Span).
Hypothesis Hne : Forall (λ s, start s < end_ s) spans.
Hypothesis Hsorted : StronglySorted (λ a b, end_ a ≤ start b) spans.

(** The symbol spans the run [r] of tokens. *)
Definition covers (s : SymbolDecl) (r : nat * nat) : Prop :=
  (r.1 ≤ r.2)%nat ∧
  ∃ a b, spans !! r.1 = Some a ∧ spans !! r.2 = Some b ∧ sd_span s = span_between a b.

Lemma spans_bounds i a : spans !! i = Some a → start a < end_ a.
Proof. rewrite Forall_lookup in Hne. apply Hne. Qed.
Lemma spans_apart i j a b : (i < j)%nat → spans !! i = Some a → spans !! j = Some b → end_ a ≤ start b.
Proof. intros Hij Ha Hb. by apply (sorted_lookup _ _ i j a b Hsorted). Qed.
Lemma spans_starts i j a b : spans !! i = Some a → spans !! j = Some b → start a < start b → (i < j)%nat.
Proof.
  intros Ha Hb Hlt. destruct (decide (i < j)%nat); [done|exfalso].
  destruct (decide (i = j)) as [-> |]; [simplify_eq; lia|].
  pose proof (spans_apart j i b a ltac:(lia) Hb Ha). pose proof (spans_bounds _ _ Hb). lia.
Qed.
Lemma spans_ends i j a b : (i ≤ j)%nat → spans !! i = Some a → spans !! j = Some b → end_ a ≤ end_ b.
Proof.
  intros Hij Ha Hb. destruct (decide (i = j)) as [-> |]; [by simplify_eq|].
  pose proof (spans_apart i j a b ltac:(lia) Ha Hb). pose proof (spans_bounds _ _ Hb). lia.
Qed.

Lemma covers_valid s r : covers s r → start (sd_span s) < end_ (sd_span s).
Proof.
  intros (Hr & a & b & Ha & Hb & ->). cbn. pose proof (spans_ends _ _ _ _ Hr Ha Hb).
  pose proof (spans_bounds _ _ Ha). lia.
Qed.
Lemma covers_apart s t r r' :
  covers s r → covers t r' → start (sd_span s) < start (sd_span t) →
  ((r.1 < r'.1)%nat → (r.2 < r'.1)%nat ∨ (r'.2 ≤ r.2)%nat) →
  end_ (sd_span s) ≤ start (sd_span t) ∨ end_ (sd_span t) ≤ end_ (sd_span s).
Proof.
  intros (Hr & a & b & Ha & Hb & ->) (Hr' & a' & b' & Ha' & Hb' & ->). cbn. intros Hlt HL.
  pose proof (spans_starts _ _ _ _ Ha Ha' Hlt) as Hi. destruct (HL Hi).
  - left. by eapply spans_apart.
  - right. by eapply spans_ends.
Qed.
Lemma covers_token s r i u :
  covers s r → spans !! i = Some u → start (sd_span s) ≤ start u →
  end_ (sd_span s) ≤ start u ∨ end_ u ≤ end_ (sd_span s).
Proof.
  intros (Hr & a & b & Ha & Hb & ->) Hu. cbn. intros Hle.
  destruct (decide (r.2 < i)%nat); [left; by eapply spans_apart|].
  right. eapply spans_ends; [|done|done]. lia.
Qed.

Lemma covered_spans_ok ex rs :
  td_span <$> ex_tokens ex = spans → Forall2 covers (ex_symbols ex) rs → laminar rs → spans_ok ex.
Proof.
  intros Ht Hc HL.
  assert (∀ t, t ∈ ex_tokens ex → ∃ i, spans !! i = Some (td_span t)) as Htok.
  { intros t [i Hi]%list_elem_of_lookup. exists i. by rewrite <- Ht, list_lookup_fmap, Hi. }
  assert (∀ s, s ∈ ex_symbols ex → ∃ r, r ∈ rs ∧ covers s r) as Hsym.
  { intros s [i Hi]%list_elem_of_lookup. destruct (Forall2_lookup_l _ _ _ _ _ Hc Hi) as (r & Hr & ?).
    exists r. by split; [eapply list_elem_of_lookup_2|]. }
  split_and!.
  - apply Forall_forall. intros s (r & _ & Hr)%Hsym. apply covers_valid in Hr. lia.
  - apply Forall_forall. intros t (i & Hi)%Htok. apply spans_bounds in Hi. lia.
  - intros a b (r & Hr & Ha)%Hsym (r' & Hr' & Hb)%Hsym Hlt. eapply covers_apart; [done..|]. by apply HL.
  - intros a t (r & _ & Ha)%Hsym (i & Hi)%Htok. by eapply covers_token.
Qed.

Lemma covered_span_ok syms rs :
  Forall span_ok spans → Forall2 covers syms rs → Forall (λ s, span_ok (sd_span s)) syms.
Proof.
  intros Hok. rewrite Forall_lookup in Hok.
  induction 1 as [|s r syms rs (_ & a & b & Ha%Hok & Hb%Hok & Hs) _ IH]; constructor; [|done].
  rewrite Hs. unfold span_ok in *. cbn. naive_solver.
Qed.
End covered.

#[local] Open Scope nat_scope.

(** ** Code positions *)

Section code.
Context (tokens : list TokenDecl) (code : list nat).
#[local] Abbreviation size := (length code).
#[local] Abbreviation tok := (code_tok tokens code).
#[local] Abbreviation text := (code_text tokens code).
#[local] Abbreviation is_ident := (code_ident tokens code).
Hypothesis Hcode : Forall (λ i, i < length tokens)%nat code.

Lemma tok_ends c : c < size → ends (λ t, tok c = Ok t) (tok c).
Proof.
  intros Hc. unfold code_tok. destruct (lookup_lt_is_Some_2 code c Hc) as [i Hi].
  rewrite (index_Ok _ _ _ Hi). simpl. assert (i < length tokens) by by eapply Forall_lookup in Hcode.
  destruct (lookup_lt_is_Some_2 tokens i) as [t Ht]; [done|]. by rewrite (index_Ok _ _ _ Ht).
Qed.
Lemma text_ends c : c < size → ends (λ _, True) (text c).
Proof. intros Hc. unfold code_text. eapply ends_bind; [by apply tok_ends|]. done. Qed.
(** The token at [n] is an identifier. *)
Definition names (n : nat) (name : str) : Prop :=
  ∃ t, tok n = Ok t ∧ td_class t = Identifier ∧ name = td_text t.
Lemma is_ident_ends c : c < size → ends (λ b, b = true → ∃ name, names c name) (is_ident c).
Proof.
  intros Hc. unfold code_ident. eapply ends_bind; [by apply tok_ends|]. intros t Ht. simpl.
  intros Hi%bool_decide_eq_true_1. by exists (td_text t), t.
Qed.
Lemma text_names n name : names n name → text n = Ok name.
Proof. intros (t & Ht & _ & ->). unfold code_text. by rewrite Ht. Qed.
(** The symbol runs over the code tokens of [r] and is named by one of them. *)
Definition spans_code (s : SymbolDecl) (r : nat * nat) : Prop :=
  r.1 ≤ r.2 < size ∧ (∃ n, r.1 ≤ n ≤ r.2 ∧ names n (sd_name s)) ∧ ∃ a b, tok r.1 = Ok a ∧ tok r.2 = Ok b ∧
    sd_span s = span_between (td_span a) (td_span b).

(** The tokens at code positions. *)
Definition at_code (c : nat) : nat := default 0 (code !! c).

Lemma tok_at c t : tok c = Ok t → code !! c = Some (at_code c) ∧ tokens !! at_code c = Some t.
Proof.
  unfold code_tok, at_code, index. destruct (code !! c) as [i|]; [|done]. simpl.
  destruct (tokens !! i) eqn:Et; [|done]. by intros [= ->].
Qed.

Hypothesis Hsorted : StronglySorted lt code.

Lemma at_code_mono i j : i < j < size → at_code i < at_code j.
Proof.
  intros Hij. destruct (lookup_lt_is_Some_2 code i) as [a Ha]; [lia|].
  destruct (lookup_lt_is_Some_2 code j) as [b Hb]; [lia|]. unfold at_code. rewrite Ha, Hb. simpl.
  eapply (sorted_lookup lt code i j); [done|done|done|lia].
Qed.
Lemma at_code_le i j : i ≤ j < size → at_code i ≤ at_code j.
Proof.
  intros Hij. destruct (decide (i = j)) as [-> |]; [lia|]. pose proof (at_code_mono i j ltac:(lia)). lia.
Qed.

(** The identifier of [tokens] that names the symbol, within the run [r]. *)
Definition named_in (s : SymbolDecl) (r : nat * nat) : Prop :=
  ∃ i t, r.1 ≤ i ≤ r.2 ∧ tokens !! i = Some t ∧ td_class t = Identifier ∧ sd_name s = td_text t.

Lemma spans_code_covers s r :
  spans_code s r → covers (td_span <$> tokens) s (at_code r.1, at_code r.2) ∧
    named_in s (at_code r.1, at_code r.2).
Proof.
  intros (Hr & (n & Hn & t & Ht & Hi & Hname) & a & b & Ha & Hb & Hs). split.
  - split; [simpl; by apply at_code_le|]. exists (td_span a), (td_span b). simpl. rewrite !list_lookup_fmap.
    apply tok_at in Ha as [_ ->]. apply tok_at in Hb as [_ ->]. done.
  - apply tok_at in Ht as [_ Ht]. exists (at_code n), t. split_and!; simpl; try done; apply at_code_le; lia.
Qed.

Lemma spans_code_run syms rs :
  Forall2 spans_code syms rs → laminar rs →
  ∃ rs', Forall2 (covers (td_span <$> tokens)) syms rs' ∧ Forall2 named_in syms rs' ∧ laminar rs'.
Proof.
  intros Hrs HL. exists ((λ r, (at_code r.1, at_code r.2)) <$> rs). split_and!.
  - apply Forall2_fmap_r. eapply Forall2_impl; [exact Hrs|]. by intros s r []%spans_code_covers.
  - apply Forall2_fmap_r. eapply Forall2_impl; [exact Hrs|]. by intros s r []%spans_code_covers.
  - eapply (laminar_fmap at_code size); [apply at_code_mono| |done].
    eapply Forall2_Forall_r; [exact Hrs|]. apply Forall_true. intros s r [? _]. done.
Qed.
End code.

(** Reading a code position in range. *)
Ltac reads := first [apply text_ends | apply is_ident_ends | apply tok_ends]; [done|lia].

Lemma code_index_bounds tokens skip : Forall (λ i, i < length tokens) (code_index tokens skip).
Proof. apply Forall_forall. intros i (t & Ht & _)%code_index_elem. by eapply lookup_lt_Some. Qed.
Lemma code_index_NoDup tokens skip : NoDup (code_index tokens skip).
Proof.
  induction (code_index_sorted tokens skip) as [|x l _ IH Hx]; constructor; [|done].
  intros Hin. rewrite Forall_forall in Hx. specialize (Hx x Hin). lia.
Qed.

(** The close table of a code index: a closer comes after its opener. *)
Lemma code_closes tokens skip :
  let code := code_index tokens skip in
  ∃ closes, code_close_table tokens code = Ok closes ∧ length closes = length code ∧
    ∀ c x, closes !! c = Some (Some x) → c < x < length code.
Proof.
  intros code. pose proof (code_index_sorted tokens skip) as Hs. fold code in Hs.
  eexists. split; [by apply code_close_table_run; [apply code_index_bounds|apply code_index_NoDup]|].
  split; [by rewrite length_fmap|]. intros c x. rewrite list_lookup_fmap.
  destruct (code !! c) as [i|] eqn:Ei; simpl; [|done]. intros [= Hx].
  destruct (matching_close tokens i) as [j|] eqn:Ej; simpl in Hx; [|done].
  unfold code_position in Hx. destruct (list_find (j =.) code) as [[k j']|] eqn:Ef; [|done].
  injection Hx as <-. apply list_find_Some in Ef as (Hk & <- & _). split; [|by eapply lookup_lt_Some].
  apply matching_close_after in Ej as [Hij _]. destruct (decide (c < k)); [done|exfalso].
  destruct (decide (c = k)) as [-> |]; [simplify_eq; lia|].
  assert (j < i) by (eapply (sorted_lookup lt code k c); [done|done|done|lia]). lia.
Qed.

(** The tokens of the reading, the reserved words among its identifiers
    classed as keywords. *)
Definition keyworded (keywords : list str) (t t' : TokenDecl) : Prop :=
  t' = t ∨ td_class t = Identifier ∧ one_of (td_text t) keywords = true ∧ t' = as_keyword t.

(** The symbol is named by an identifier of [out] inside its span. *)
Definition named_by (out : list TokenDecl) (s : SymbolDecl) : Prop :=
  ∃ t, t ∈ out ∧ td_class t = Identifier ∧ sd_name s = td_text t ∧
    (start (sd_span s) ≤ start (td_span t))%Z ∧ (end_ (td_span t) ≤ end_ (sd_span s))%Z.

Lemma named_in_by out src s r :
  Lexed out src → covers (td_span <$> out) s r → named_in out s r → named_by out s.
Proof.
  intros HL (_ & a & b & Ha & Hb & Hs) (i & t & Hi & Ht & Hc & Hn).
  pose proof (Lexed_spans out src HL) as (_ & Hsort & Hsl). specialize (Hsl []).
  assert (∀ j u, out !! j = Some u → (start (td_span u) < end_ (td_span u))%Z) as Hne.
  { intros j u Hu. eapply Forall_lookup in Hsl; [|exact Hu]. apply Hsl. }
  assert (∀ j k u v, j ≤ k → out !! j = Some u → out !! k = Some v →
    (start (td_span u) ≤ start (td_span v) ∧ end_ (td_span u) ≤ end_ (td_span v))%Z) as Hle.
  { intros j k u v Hjk Hu Hv. destruct (decide (j = k)) as [-> |]; [simplify_eq; lia|].
    pose proof (sorted_lookup _ _ j k u v Hsort Hu Hv ltac:(lia)) as Hb'. unfold before in Hb'.
    pose proof (Hne j u Hu). pose proof (Hne k v Hv). lia. }
  rewrite list_lookup_fmap in Ha, Hb.
  apply fmap_Some in Ha as (ta & Ha & ->). apply fmap_Some in Hb as (tb & Hb & ->).
  exists t. rewrite Hs. simpl. split_and!; [by eapply list_elem_of_lookup_2|done|done|..].
  - by apply (Hle r.1 i ta t); [lia|..].
  - by apply (Hle i r.2 t tb); [lia|..].
Qed.

#[local] Close Scope nat_scope.

(** ** Storing an extraction *)

(** The extraction of a reading of a source, its tokens reclassified and its
    symbols nested runs of them, passes validation and is read back from the
    stored stream: the symbols in span order, the tokens as they are. *)
Lemma extraction_stored src out ex rs :
  Z.of_nat (str_len src) < 2 ^ 32 - 1 → Lexed out src →
  td_span <$> ex_tokens ex = td_span <$> out → (length (ex_symbols ex) ≤ length out)%nat →
  Forall2 (covers (td_span <$> out)) (ex_symbols ex) rs → laminar rs →
  validate_spans ex = Ok () ∧
  ∃ s, decode (encode (vp_stream (V2Prep_build ex))) = Ok s ∧
    Forall2 (sym_rec (vp_terms (V2Prep_build ex))) (sorted_symbols ex) (st_symbols s) ∧
    Forall2 (tok_rec (vp_terms (V2Prep_build ex))) (ex_tokens ex) (st_tokens s).
Proof.
  intros Hl HL Ht Hlen Hc Hlam. pose proof (Lexed_spans out src HL) as (_ & Hsort & Hsl). specialize (Hsl []).
  assert (Forall (λ s, start s < end_ s) (td_span <$> out)) as Hne.
  { apply Forall_fmap. eapply Forall_impl; [exact Hsl|]. by intros t [? _]. }
  assert (StronglySorted (λ a b, end_ a ≤ start b) (td_span <$> out)) as Hs.
  { eapply StronglySorted_fmap; [|exact Hsort]. done. }
  assert (Forall span_ok (td_span <$> out)) as Hok by by apply Forall_fmap, (Lexed_span_ok _ _ HL).
  pose proof (Lexed_length _ _ HL) as Hol.
  assert (length (ex_tokens ex) = length out) as Htl.
  { apply (f_equal length) in Ht. by rewrite !length_fmap in Ht. }
  assert (small_ex ex) as Hsm.
  { split_and!; [lia|lia|by eapply covered_span_ok|]. rewrite <- Ht in Hok. by rewrite Forall_fmap in Hok. }
  split; [|destruct (build_decoded ex Hsm) as (s & Hd & _ & Hsym & Htok & _); exists s; split_and!; [done|done|]].
  - pose proof (covered_spans_ok _ Hne Hs _ _ Ht Hc Hlam).
    by destruct (validate_spans_cases ex) as [[_ ?]|[? _]].
  - unfold sorted_tokens in Htok. rewrite sort_by_id in Htok; [done|].
    rewrite <- Ht in Hne, Hs. apply tokens_in_order; [by rewrite Forall_fmap in Hne|].
    clear -Hs. induction (ex_tokens ex) as [|t l IH]; [constructor|]. inversion_clear Hs as [|? ? Hl Hf].
    constructor; [by apply IH|]. by rewrite Forall_fmap in Hf.
Qed.

(** What is shown of an extraction [ex] of the source [src]: its tokens are a
    reading of the source with the reserved words among its identifiers
    marked, every symbol is named by an identifier inside its span, the spans
    pass the store's validation, and decoding the stream the store writes
    gives the symbols, in span order, and the tokens back. *)
Definition indexed (keywords : list str) (src : str) (ex : Extraction) : Prop :=
  ∃ out s, Lexed out src ∧ Forall2 (keyworded keywords) out (ex_tokens ex) ∧
    Forall (named_by out) (ex_symbols ex) ∧ validate_spans ex = Ok () ∧
    decode (encode (vp_stream (V2Prep_build ex))) = Ok s ∧
    Forall2 (sym_rec (vp_terms (V2Prep_build ex))) (sorted_symbols ex) (st_symbols s) ∧
    Forall2 (tok_rec (vp_terms (V2Prep_build ex))) (ex_tokens ex) (st_tokens s).

(** Symbols over nested runs of code positions. *)
Lemma code_indexed src out keywords skip syms rs has_errors :
  Z.of_nat (str_len src) < 2 ^ 32 - 1 → Lexed out src →
  (length syms ≤ length out)%nat → Forall2 (spans_code out (code_index out skip)) syms rs → laminar rs →
  indexed keywords src
    (mkExtraction syms (marked (λ x, one_of x keywords) (λ _ _, false) [] out) has_errors).
Proof.
  intros Hl HL Hlen Hrs Hlam.
  destruct (spans_code_run out _ (code_index_sorted out skip) _ _ Hrs Hlam) as (rs' & Hc & Hn & Hlam').
  destruct (extraction_stored src out
    (mkExtraction syms (marked (λ x, one_of x keywords) (λ _ _, false) [] out) has_errors) rs' Hl HL)
    as (Hv & s & Hd & Hs & Ht); [apply marked_spans|done|done|done|].
  exists out, s. split_and!; try done; [apply (marked_same (λ x, one_of x keywords))|].
  apply Forall_lookup. intros i sym Hsym. cbn in Hsym.
  destruct (Forall2_lookup_l _ _ _ _ _ Hc Hsym) as (r & Hr & Hsr).
  eapply (named_in_by out src sym r); [done|done|]. by eapply Forall2_lookup_lr.
Qed.

Lemma code_index_length tokens skip : (length (code_index tokens skip) ≤ length tokens)%nat.
Proof.
  unfold code_index. rewrite length_fmap. etrans; [apply length_filter|]. unfold enumerate.
  by rewrite length_enum_from.
Qed.
