(* ===== verification/LangGo.v ===== *)
(** * The Go extractor

    [graph-lang-go/src/lib.rs]: a scanner over the tokens of the Go dialect.
    An index out of range is a [Panic]; so is running out of the fuel that
    stands for the loops, which the proofs exclude. *)
From S2P Require Import Prelude Text Schema Varint Stream StreamRound StrOps Tokenizer TokenizerProps Language Walk.
From S2P Require Import Prep TokenScan NestedScan Extracted.

#[local] Open Scope nat_scope.

Module Go.

Definition KEYWORDS : list str :=
  [lit "break"; lit "case"; lit "chan"; lit "const"; lit "continue"; lit "default"; lit "defer";
   lit "else"; lit "fallthrough"; lit "for"; lit "func"; lit "go"; lit "goto"; lit "if";
   lit "import"; lit "interface"; lit "map"; lit "package"; lit "range"; lit "return";
   lit "select"; lit "struct"; lit "switch"; lit "type"; lit "var"].

(** [Scanner]: the tokens, the code index and its close table; [out] is
    passed along. *)
Section scanner.
Context (tokens : list TokenDecl) (code : list nat) (closes : list (option nat)).

Definition tok (c : nat) : tk TokenDecl := code_tok tokens code c.
Definition text (c : nat) : tk str := code_text tokens code c.
Definition is_ident (c : nat) : tk bool := code_ident tokens code c.
Definition close_of (c : nat) : tk (option nat) := index closes c.

Definition push_owned (out : list SymbolDecl) (n : nat) (kind : SymbolKind) (lang : str)
    (first last : nat) (owner : option str) : tk (list SymbolDecl) :=
  name ← text n;
  a ← tok first;
  b ← tok last;
  Ok (out ++ [mkSymbolDecl name kind (Some lang) (span_between (td_span a) (td_span b)) owner]).
Definition push (out : list SymbolDecl) (n : nat) (kind : SymbolKind) (lang : str)
    (first last : nat) : tk (list SymbolDecl) :=
  push_owned out n kind lang first last None.

(** The loop of [receiver_type]: the position of the last identifier, or
    [None] for an early return. *)
Fixpoint receiver_loop (fuel close c : nat) (name : option nat) : tk (option nat) :=
  if c <? close then
    match fuel with
    | O => Panic
    | S fuel =>
        s ← text c;
        if bool_decide (s = lit "[") then
          x ← close_of c;
          match x with
          | Some x => if x <? close then receiver_loop fuel close (x + 1) name else Ok None
          | None => Ok None
          end
        else
          b ← is_ident c;
          receiver_loop fuel close (c + 1) (if b : bool then Some c else name)
    end
  else Ok name.

Definition receiver_type (open : nat) : tk (option str) :=
  close ← close_of open;
  match close with
  | None => Ok None
  | Some close =>
      name ← receiver_loop (close - open) close (open + 1) None;
      match name with
      | Some n => s ← text n; Ok (Some s)
      | None => Ok None
      end
  end.

Definition ends_statement (c : nat) : tk bool :=
  t ← tok c;
  if bool_decide (td_class t = Identifier) || bool_decide (td_class t = Literal) then Ok true
  else if one_of (td_text t) [lit ")"; lit "]"; lit "}"] then Ok true
  else if one_of (td_text t) [lit "+"; lit "-"] && (0 <? c) then
    p ← tok (c - 1);
    Ok (bool_decide (td_text p = td_text t) && bool_decide (end_ (td_span p) = start (td_span t)))
  else Ok false.

(** Whether the [{] at [c] is a function body. *)
Definition opens_body (body : bool) (c : nat) : tk bool :=
  if body && (0 <? c) then
    s ← text (c - 1);
    Ok (negb (one_of s [lit "struct"; lit "interface"]))
  else Ok false.

(** What the match at the top of the loop gives: the statement's end, or the
    end of the item at [c]. *)
Definition item_end (c hi : nat) (body : bool) : tk (nat + nat) :=
  s ← text c;
  brace ← (if bool_decide (s = lit "{") then opens_body body c else Ok false);
  if brace : bool then
    x ← close_of c;
    Ok (inl match x with Some x => if x <? hi then x else hi - 1 | None => hi - 1 end)
  else if one_of s [lit "("; lit "["; lit "{"] then
    x ← close_of c;
    Ok (match x with Some x => if x <? hi then inr x else inl (hi - 1) | None => inl (hi - 1) end)
  else Ok (inr c).

Fixpoint statement_end (fuel c hi : nat) (body : bool) : tk nat :=
  match fuel with
  | O => Panic
  | S fuel =>
      e ← item_end c hi body;
      match e with
      | inl e => Ok e
      | inr e =>
          if hi <=? e + 1 then Ok e
          else
            s ← text (e + 1);
            if bool_decide (s = lit ";") then Ok e
            else
              next ← tok (e + 1);
              t ← tok e;
              brk ← (if (end_line (td_span t) <? start_line (td_span next))%Z then ends_statement e
                     else Ok false);
              if brk : bool then Ok e else statement_end fuel (e + 1) hi body
      end
  end.

Definition spec (out : list SymbolDecl) (kw : str) (first n last : nat) : tk (list SymbolDecl) :=
  b ← is_ident n;
  if negb (b : bool) || (last <? n) then Ok out
  else if bool_decide (kw = lit "type") then
    let k := n + 1 in
    k ← (if k <=? last then
           s ← text k;
           if bool_decide (s = lit "[") then
             x ← close_of k; Ok (match x with Some x => x + 1 | None => last + 1 end)
           else Ok k
         else Ok k);
    s ← (if k <=? last then s ← text k; Ok (Some s) else Ok None);
    let lang :=
      if bool_decide (s = Some (lit "struct")) then lit "struct"
      else if bool_decide (s = Some (lit "interface")) then lit "interface"
      else lit "type" in
    push out n SKType lang first last
  else if bool_decide (kw = lit "const") then push out n SKConstant (lit "const") first last
  else if bool_decide (kw = lit "var") then push out n SKVariable (lit "var") first last
  else Ok out.

(** [while s < close]: the specs of a group. *)
Fixpoint group_loop (fuel : nat) (kw : str) (s close : nat) (out : list SymbolDecl)
    : tk (list SymbolDecl) :=
  if s <? close then
    match fuel with
    | O => Panic
    | S fuel =>
        txt ← text s;
        if bool_decide (txt = lit ";") then group_loop fuel kw (s + 1) close out
        else
          e ← statement_end (close - s) s close false;
          out ← spec out kw s s e;
          group_loop fuel kw (e + 1) close out
    end
  else Ok out.

(** The [func] arm: the symbols and the next position. *)
Definition func_decl (c hi : nat) (out : list SymbolDecl) : tk (nat * list SymbolDecl) :=
  e ← statement_end (hi - c) (c + 1) hi true;
  s ← text (c + 1);
  '(n, method, owner) ←
    (if bool_decide (s = lit "(") then
       owner ← receiver_type (c + 1);
       x ← close_of (c + 1);
       Ok (match x with Some x => x + 1 | None => hi end, true, owner)
     else Ok (c + 1, false, None));
  named ← (if n <=? e then is_ident n else Ok false);
  out ← (if named : bool then
           push_owned out n (if method : bool then SKMethod else SKFunction)
             (if method then lit "method" else lit "func") c e owner
         else Ok out);
  Ok (e + 1, out).

(** The [type], [const], [var] and [import] arm. *)
Definition group_decl (kw : str) (c hi : nat) (out : list SymbolDecl) : tk (nat * list SymbolDecl) :=
  s ← text (c + 1);
  if bool_decide (s = lit "(") then
    x ← close_of (c + 1);
    let close := default hi x in
    out ← group_loop (close - c) kw (c + 2) close out;
    Ok (close + 1, out)
  else
    e ← statement_end (hi - c) (c + 1) hi false;
    out ← spec out kw c (c + 1) e;
    Ok (e + 1, out).

Definition file_step (c hi : nat) (out : list SymbolDecl) : tk (nat * list SymbolDecl) :=
  s ← text c;
  package ← (if bool_decide (s = lit "package") && (c + 1 <? hi) then is_ident (c + 1) else Ok false);
  if package : bool then
    out ← push out (c + 1) SKModule (lit "package") c (hi - 1);
    Ok (c + 2, out)
  else if bool_decide (s = lit "func") && (c + 1 <? hi) then func_decl c hi out
  else if one_of s [lit "type"; lit "const"; lit "var"; lit "import"] && (c + 1 <? hi) then
    group_decl s c hi out
  else if one_of s [lit "("; lit "["; lit "{"] then
    x ← close_of c;
    Ok (match x with Some x => x + 1 | None => c + 1 end, out)
  else Ok (c + 1, out).

Fixpoint file_loop (fuel c hi : nat) (out : list SymbolDecl) : tk (list SymbolDecl) :=
  if c <? hi then
    match fuel with
    | O => Panic
    | S fuel => '(c, out) ← file_step c hi out; file_loop fuel c hi out
    end
  else Ok out.

Definition file : tk (list SymbolDecl) := file_loop (length code) 0 (length code) [].
End scanner.

Definition language : str := lit "go".
Definition extensions : list str := [lit "go"].
Definition version : str := lit "go-scan-2+kw1+tok" ++ show TOKENIZER_VERSION.

Definition extract (is_alphabetic is_numeric : Z → bool) (source : str) : tk Extraction :=
  tokens ← tokenize_with is_alphabetic is_numeric source GO;
  let code := code_index tokens [Comment] in
  closes ← code_close_table tokens code;
  symbols ← file tokens code closes;
  tokens ← mark_keywords tokens KEYWORDS (λ _ _, false);
  Ok (mkExtraction symbols tokens false).
End Go.

(** ** The Go extractor: proofs

    The scanner returns on every token stream, and its symbols are nested runs
    of the tokens, so what it extracts from a source is stored and read back. *)

#[local] Open Scope nat_scope.

Section scanner.
Context (tokens : list TokenDecl) (code : list nat) (closes : list (option nat)).
#[local] Abbreviation size := (length code).
Hypothesis Hcode : Forall (λ i, i < length tokens) code.
Hypothesis Hlen : length closes = size.
Hypothesis Hcloses : ∀ c x, closes !! c = Some (Some x) → c < x < size.

#[local] Abbreviation tok := (code_tok tokens code).
#[local] Abbreviation text := (code_text tokens code).
#[local] Abbreviation is_ident := (code_ident tokens code).
#[local] Abbreviation close_of := (Go.close_of closes).

Lemma close_of_ends c : c < size → ends (λ x, ∀ y, x = Some y → c < y < size) (close_of c).
Proof.
  intros Hc. unfold Go.close_of, index. destruct (closes !! c) as [x|] eqn:Ex.
  - simpl. intros y ->. by apply Hcloses.
  - apply lookup_ge_None in Ex. lia.
Qed.

Lemma receiver_loop_ends fuel : ∀ close c name,
  close - c ≤ fuel → close ≤ size → (∀ n, name = Some n → n < size) →
  ends (λ r, ∀ n, r = Some n → n < size) (Go.receiver_loop tokens code closes fuel close c name).
Proof.
  induction fuel as [|fuel IH]; intros close c name Hf Hc Hn; simpl;
    destruct (Nat.ltb_spec c close); try done; [lia|].
  eapply ends_bind; [reads|]. intros s _. case_bool_decide.
  - eapply ends_bind; [apply close_of_ends; lia|]. intros [x|] Hx; [|done]. specialize (Hx x eq_refl).
    destruct (Nat.ltb_spec x close); [|done]. apply IH; [lia|done|done].
  - eapply ends_bind; [reads|]. intros b _. apply IH; [lia|done|].
    destruct b; [|done]. intros n [= <-]. lia.
Qed.
Lemma receiver_type_ends open : open < size → ends (λ _, True) (Go.receiver_type tokens code closes open).
Proof.
  intros Ho. unfold Go.receiver_type. eapply ends_bind; [by apply close_of_ends|]. intros [close|] Hc; [|done].
  specialize (Hc close eq_refl). eapply ends_bind; [apply receiver_loop_ends; [lia|lia|done]|].
  intros [n|] Hn; [|done]. eapply ends_bind; [specialize (Hn n eq_refl); reads|]. done.
Qed.

Lemma ends_statement_ends c : c < size → ends (λ _, True) (Go.ends_statement tokens code c).
Proof.
  intros Hc. unfold Go.ends_statement. eapply ends_bind; [reads|]. intros t _.
  repeat case_match; try done. eapply ends_bind; [reads|]. done.
Qed.

Lemma item_end_ends c hi body : c < hi ≤ size →
  ends (λ e, match e with inl e | inr e => c ≤ e < hi end) (Go.item_end tokens code closes c hi body).
Proof.
  intros Hc. unfold Go.item_end. eapply ends_bind; [reads|]. intros s _.
  apply (ends_bind (λ _, True)).
  { case_match; [|done]. unfold Go.opens_body. case_match; [|done].
    eapply ends_bind; [reads|]. done. }
  intros brace _. destruct brace; [|case_match; [|simpl; lia]];
    (eapply ends_bind; [apply close_of_ends; lia|]); intros [x|] Hx; simpl; try lia;
    specialize (Hx x eq_refl); destruct (Nat.ltb_spec x hi); simpl; lia.
Qed.

Lemma statement_end_ends fuel : ∀ c hi body, c < hi ≤ size → hi - c ≤ fuel →
  ends (λ e, c ≤ e < hi) (Go.statement_end tokens code closes fuel c hi body).
Proof.
  induction fuel as [|fuel IH]; intros c hi body Hc Hf; simpl; [lia|].
  eapply ends_bind; [by apply item_end_ends|]. intros [e|e] He; simpl; [done|].
  destruct (Nat.leb_spec hi (e + 1)); [done|].
  eapply ends_bind; [reads|]. intros s _. case_bool_decide; [simpl; lia|].
  eapply ends_bind; [reads|]. intros next _.
  eapply ends_bind; [reads|]. intros t _.
  apply (ends_bind (λ _, True)); [case_match; [apply ends_statement_ends; lia|done]|].
  intros [] _; [simpl; lia|]. eapply ends_weaken; [apply IH; lia|]. simpl. lia.
Qed.

(** ** The symbols *)

(** The symbols found before position [c] nest; one that is not over runs to
    the end of the file. *)
Definition found (c : nat) (out : list SymbolDecl) : Prop :=
  length out ≤ c ∧ length out ≤ size ∧
  ∃ rs, Forall2 (spans_code tokens code) out rs ∧ laminar rs ∧
    Forall (λ r, r.1 < c ∧ (r.2 < c ∨ r.2 = size - 1)) rs.

Lemma found_mono c c' out : c ≤ c' → found c out → found c' out.
Proof.
  intros Hc (Hl & Hl' & rs & Hr & HL & Hb). split_and!; [lia|done|]. exists rs. split_and!; [done|done|].
  eapply Forall_impl; [exact Hb|]. simpl. lia.
Qed.

Lemma found_push c c' out s f l :
  found c out → spans_code tokens code s (f, l) → c ≤ f < c' → l < c' ∨ l = size - 1 → found c' (out ++ [s]).
Proof.
  intros (Hl & Hl' & rs & Hr & HL & Hb) Hs Hf Hlast. assert (f ≤ l < size) by apply Hs.
  split_and!; [rewrite length_app; simpl; lia..|]. exists (rs ++ [(f, l)]). rewrite Forall_forall in Hb. split_and!.
  - apply Forall2_app; [done|]. by constructor.
  - intros r r' [Hr1|Hr1%list_elem_of_singleton]%elem_of_app [Hr2|Hr2%list_elem_of_singleton]%elem_of_app Hlt.
    + by apply HL.
    + subst r'. specialize (Hb r Hr1). simpl in *. lia.
    + subst r. specialize (Hb r' Hr2). simpl in *. lia.
    + subst. simpl in *. lia.
  - apply Forall_app. split; [|apply Forall_singleton; simpl; lia].
    apply Forall_forall. intros r Hr1. specialize (Hb r Hr1). simpl in *. lia.
Qed.

Lemma push_owned_ends c c' out n kind lang first last owner :
  found c out → first ≤ n ≤ last → (∃ name, names tokens code n name) →
  c ≤ first < c' → last < size → last < c' ∨ last = size - 1 →
  ends (found c') (Go.push_owned tokens code out n kind lang first last owner).
Proof.
  intros Hf Hn [name Hname] Hc Hl Hlast. unfold Go.push_owned. unfold Go.text; rewrite (text_names _ _ _ _ Hname). simpl.
  eapply ends_bind; [reads|]. intros a Ha.
  eapply ends_bind; [reads|]. intros b Hb. simpl.
  eapply found_push; [done| |done|done]. split_and!; [simpl; lia..|by exists n|by exists a, b].
Qed.

Lemma spec_ends out kw first n last :
  found first out → n < size → first ≤ n → first ≤ last < size →
  ends (found (last + 1)) (Go.spec tokens code closes out kw first n last).
Proof.
  intros Hf Hn Hfn Hl. unfold Go.spec. eapply ends_bind; [reads|]. intros b Hb.
  assert (found (last + 1) out) as Hf' by (eapply found_mono; [|done]; lia).
  destruct b; simpl; [|done]. destruct (Nat.ltb_spec last n); [done|]. specialize (Hb eq_refl).
  assert (∀ kind lang, ends (found (last + 1)) (Go.push tokens code out n kind lang first last)) as Hpush.
  { intros kind lang. eapply (push_owned_ends first (last + 1)); [done|lia|done|lia|lia|lia]. }
  case_bool_decide; [|by repeat case_match; try apply Hpush].
  assert (∀ k, ends (λ _, True) (if k <=? last then s ← text k; Ok (Some s) else Ok None : tk (option str))) as Hk.
  { intros k. destruct (Nat.leb_spec k last); [|done]. eapply ends_bind; [reads|]. done. }
  apply (ends_bind (λ _, True)).
  - destruct (Nat.leb_spec (n + 1) last); [|done]. eapply ends_bind; [reads|]. intros s _.
    case_bool_decide; [|done]. eapply ends_bind; [apply close_of_ends; lia|]. done.
  - intros k _. eapply ends_bind; [apply Hk|]. intros s _. apply Hpush.
Qed.

Lemma group_loop_ends fuel : ∀ kw s close out, close - s ≤ fuel → close ≤ size → found s out →
  ends (found (s `max` close)) (Go.group_loop tokens code closes fuel kw s close out).
Proof.
  induction fuel as [|fuel IH]; intros kw s close out Hf Hc Ho; simpl;
    destruct (Nat.ltb_spec s close); try lia; try (by simpl; eapply found_mono; [|done]; lia).
  eapply ends_bind; [reads|]. intros txt _. case_bool_decide.
  - eapply ends_weaken; [apply IH; [lia|done|eapply found_mono; [|done]; lia]|].
    intros a Ha. eapply found_mono; [|exact Ha]. lia.
  - eapply ends_bind; [apply statement_end_ends; lia|]. intros e He. simpl in He.
    eapply ends_bind; [apply spec_ends; [done|lia|lia|lia]|]. intros out' Ho'.
    eapply ends_weaken; [apply IH; [lia|done|done]|]. intros a Ha. eapply found_mono; [|exact Ha]. lia.
Qed.

Definition moved (c : nat) (r : nat * list SymbolDecl) : Prop := c < r.1 ∧ found r.1 r.2.

Lemma func_decl_ends c out : c + 1 < size → found c out →
  ends (moved c) (Go.func_decl tokens code closes c size out).
Proof.
  intros Hc Hf. unfold Go.func_decl. eapply ends_bind; [apply statement_end_ends; lia|]. intros e He. simpl in He.
  eapply ends_bind; [reads|]. intros s _. apply (ends_bind (λ r, c < r.1.1)).
  { case_bool_decide; [|simpl; lia]. eapply ends_bind; [by apply receiver_type_ends|]. intros owner _.
    eapply ends_bind; [by apply close_of_ends|]. intros [x|] Hx; simpl; [specialize (Hx x eq_refl)|]; lia. }
  intros [[n method] owner] Hcn. apply (ends_bind (λ b, b = true → n ≤ e ∧ ∃ name, names tokens code n name)).
  { destruct (Nat.leb_spec n e); [|done]. eapply ends_weaken; [reads|].
    intros b Hb ->. by split; [|apply Hb]. }
  intros named Hn. apply (ends_bind (found (e + 1))); [|intros out' Ho; split; [simpl; lia|done]].
  destruct named; [|simpl; eapply found_mono; [|done]; lia].
  destruct (Hn eq_refl). simpl in Hcn. eapply (push_owned_ends c (e + 1)); [done|lia|done|lia|lia|lia].
Qed.

Lemma group_decl_ends kw c out : c + 1 < size → found c out →
  ends (moved c) (Go.group_decl tokens code closes kw c size out).
Proof.
  intros Hc Hf. unfold Go.group_decl. eapply ends_bind; [reads|]. intros s _. case_bool_decide.
  - eapply ends_bind; [by apply close_of_ends|]. intros x Hx.
    assert (c + 1 < default size x ≤ size) as Hx'.
    { destruct x as [x|]; simpl; [specialize (Hx x eq_refl); lia|lia]. }
    eapply ends_bind; [apply group_loop_ends; [lia|lia|eapply found_mono; [|done]; lia]|].
    intros out' Ho. split; simpl; [lia|]. eapply found_mono; [|exact Ho]. lia.
  - eapply ends_bind; [apply statement_end_ends; lia|]. intros e He. simpl in He.
    eapply ends_bind; [apply spec_ends; [done|lia|lia|lia]|]. intros out' Ho. split; simpl; [lia|done].
Qed.

Lemma file_step_ends c out : c < size → found c out →
  ends (moved c) (Go.file_step tokens code closes c size out).
Proof.
  intros Hc Hf. unfold Go.file_step. eapply ends_bind; [reads|]. intros s _.
  apply (ends_bind (λ b, b = true → c + 1 < size ∧ ∃ name, names tokens code (c + 1) name)).
  { case_match eqn:E; [|done]. apply andb_true_iff in E as [_ E%Nat.ltb_lt].
    eapply ends_weaken; [reads|]. intros b Hb ->. by split; [|apply Hb]. }
  intros package Hp. destruct package.
  { destruct (Hp eq_refl). eapply ends_bind; [eapply (push_owned_ends c (c + 2)); [done|lia|done|lia|lia|by right]|].
    intros out' Ho. split; simpl; [lia|done]. }
  case_match eqn:E1; [apply andb_true_iff in E1 as [_ E1%Nat.ltb_lt]; by apply func_decl_ends|].
  case_match eqn:E2; [apply andb_true_iff in E2 as [_ E2%Nat.ltb_lt]; by apply group_decl_ends|].
  case_match; [|split; simpl; [lia|eapply found_mono; [|done]; lia]].
  eapply ends_bind; [by apply close_of_ends|]. intros [x|] Hx; [specialize (Hx x eq_refl)|];
    (split; simpl; [lia|eapply found_mono; [|done]; lia]).
Qed.

Lemma file_loop_ends fuel : ∀ c out, size - c ≤ fuel → found c out →
  ends (λ out, ∃ c, found c out) (Go.file_loop tokens code closes fuel c size out).
Proof.
  induction fuel as [|fuel IH]; intros c out Hf Ho; simpl; destruct (Nat.ltb_spec c size); try lia; try (by exists c).
  eapply ends_bind; [by apply file_step_ends|]. intros [c' out'] [Hm Ho']. simpl in *. apply IH; [lia|done].
Qed.

Lemma file_run :
  ∃ out rs, Go.file tokens code closes = Ok out ∧ length out ≤ size ∧
    Forall2 (spans_code tokens code) out rs ∧ laminar rs.
Proof.
  assert (found 0 []) as H0.
  { split_and!; [done|simpl; lia|]. exists []. split_and!; [constructor|by intros ? ? []%elem_of_nil|constructor]. }
  pose proof (file_loop_ends size 0 [] ltac:(lia) H0) as Hf. unfold Go.file.
  destruct (Go.file_loop _ _ _ _ _ _ _) as [out|[]|]; [|done]. destruct Hf as (c & _ & Hl & rs & Hrs & HL & _).
  by exists out, rs.
Qed.
End scanner.

(** For every source below 4 GiB the Go extractor returns, its tokens are
    the lexer's reading with the reserved words marked, every symbol is named
    by an identifier inside its span, the extraction passes the store's span
    validation, and decoding the stored stream gives its symbols, in span
    order, and its tokens back. *)
Lemma go_extract_indexed is_alphabetic is_numeric src :
  (∀ c, is_ascii_digit c = true → is_numeric c = true) →
  valid_str src → (Z.of_nat (str_len src) < 2 ^ 32 - 1)%Z →
  ∃ ex, Go.extract is_alphabetic is_numeric src = Ok ex ∧ ex_has_errors ex = false ∧
    indexed Go.KEYWORDS src ex.
Proof.
  intros Hd Hv Hl. destruct (tokenize_with_Lexed is_alphabetic is_numeric Hd src GO Hv Hl) as (out & Ho & HL).
  destruct (code_closes out [Comment]) as (closes & Hcl & Hlen & Hc).
  destruct (file_run out (code_index out [Comment]) closes) as (syms & rs & Hf & Hsl & Hrs & Hlam);
    [apply code_index_bounds|done|done|].
  exists (mkExtraction syms (marked (λ x, one_of x Go.KEYWORDS) (λ _ _, false) [] out) false).
  split_and!; [|done|apply (code_indexed src out Go.KEYWORDS [Comment] syms rs); try done].
  - unfold Go.extract. rewrite Ho. simpl. rewrite Hcl. simpl. rewrite Hf. simpl. by rewrite mark_keywords_run.
  - etrans; [exact Hsl|apply code_index_length].
Qed.

(** A package with a group of types, a method with a generic receiver, a
    literal that holds a delimiter and an unclosed brace at the end. *)
Definition go_source : str :=
  lit "package main" ++ [LF] ++ lit "type ( A int; B struct { x rune } )" ++ [LF] ++
  lit "func (r *B[T]) Area() int {" ++ [LF] ++ lit " x++ // }" ++ [LF] ++ lit " return '}' }" ++ [LF] ++
  lit "var n, m = 1, 2" ++ [LF] ++ lit "func main() {".

(** What it extracts: names, kinds and owners. *)
Example go_source_symbols :
  (ex ← Go.extract is_ascii_alphabetic is_ascii_digit go_source;
   Ok ((λ s, (sd_name s, sd_lang_kind s, sd_owner s)) <$> ex_symbols ex)) =
  Ok [(lit "main", Some (lit "package"), None); (lit "A", Some (lit "type"), None);
      (lit "B", Some (lit "struct"), None); (lit "Area", Some (lit "method"), Some (lit "B"));
      (lit "n", Some (lit "var"), None); (lit "main", Some (lit "func"), None)].
Proof. by vm_compute. Qed.
