(* ===== verification/LangPython.v ===== *)
(** * The Python extractor

    [graph-lang-python/src/lib.rs]: a scanner over logical lines. *)
From S2P Require Import Prelude Text Schema Varint Stream StreamRound StrOps Tokenizer TokenizerProps Language Walk.
From S2P Require Import Prep TokenScan NestedScan Extracted.

#[local] Open Scope nat_scope.

Module Python.

Definition KEYWORDS : list str :=
  [lit "False"; lit "None"; lit "True"; lit "and"; lit "as"; lit "assert"; lit "async"; lit "await";
   lit "break"; lit "class"; lit "continue"; lit "def"; lit "del"; lit "elif"; lit "else";
   lit "except"; lit "finally"; lit "for"; lit "from"; lit "global"; lit "if"; lit "import";
   lit "in"; lit "is"; lit "lambda"; lit "nonlocal"; lit "not"; lit "or"; lit "pass"; lit "raise";
   lit "return"; lit "try"; lit "while"; lit "with"; lit "yield"].

Definition is_constant_name (name : str) : bool :=
  existsb is_ascii_upper name &&
  forallb (λ b, is_ascii_upper b || is_ascii_digit b || one_of [b] [lit "_"]) name.

Section tokens.
Context (tokens : list TokenDecl) (code : list nat).
#[local] Abbreviation tok := (code_tok tokens code).
#[local] Abbreviation text := (code_text tokens code).
#[local] Abbreviation is_ident := (code_ident tokens code).

(** ** Logical lines *)

(** The code positions that start a line; [code] is walked with its index. *)
Fixpoint starts_loop (l : list (nat * nat)) (depth : nat) : tk (list nat) :=
  match l with
  | [] => Ok []
  | (c, i) :: l =>
      t ← index tokens i;
      new_line ←
        match c with
        | O => Ok true
        | S p =>
            prev ← tok p;
            Ok ((end_line (td_span prev) <? start_line (td_span t))%Z
                && negb (bool_decide (td_text prev = lit "\")))
        end;
      let first := new_line && (depth =? 0) in
      let depth :=
        if bool_decide (td_class t = Literal) then depth
        else if one_of (td_text t) [lit "("; lit "["; lit "{"] then S depth
        else if closes_any (td_text t) then depth - 1
        else depth in
      starts ← starts_loop l depth;
      Ok (if first : bool then c :: starts else starts)
  end.

Definition logical_lines : tk (list (nat * nat)) :=
  starts ← starts_loop (enumerate code) 0;
  Ok ((λ p : nat * nat, (p.2, default (length code) (starts !! (p.1 + 1)))) <$> enumerate starts).

(** ** Errors *)

Fixpoint brackets_loop (l : list nat) (stack : list str) : tk bool :=
  match l with
  | [] => Ok (negb (bool_decide (stack = [])))
  | i :: l =>
      t ← index tokens i;
      if bool_decide (td_class t = Literal) then brackets_loop l stack
      else
        match closer_for (td_text t) with
        | Some c => brackets_loop l (c :: stack)
        | None =>
            if closes_any (td_text t) then
              match stack with
              | c :: stack => if bool_decide (c = td_text t) then brackets_loop l stack else Ok true
              | [] => Ok true
              end
            else brackets_loop l stack
        end
  end.

(** [while levels.last().is_some_and(|&l| l > col)]; the levels are a list,
    top first. *)
Fixpoint pop_levels (col : Z) (levels : list Z) : list Z :=
  match levels with
  | l :: rest => if (col <? l)%Z then pop_levels col rest else levels
  | [] => []
  end.

Fixpoint indent_errors (lines : list (nat * nat)) (levels : list Z) (block_expected : bool) : tk bool :=
  match lines with
  | [] => Ok block_expected
  | line :: lines =>
      t ← tok line.1;
      let col := start_col (td_span t) in
      let top := default 1%Z (head levels) in
      let next :=
        if block_expected then if (col <=? top)%Z then None else Some (col :: levels)
        else if (top <? col)%Z then None
        else
          let levels := pop_levels col levels in
          if bool_decide (head levels = Some col) then Some levels else None in
      match next with
      | None => Ok true
      | Some levels =>
          last ← text (line.2 - 1);
          indent_errors lines levels (bool_decide (last = lit ":"))
      end
  end.

Definition has_syntax_errors (lines : list (nat * nat)) : tk bool :=
  b ← brackets_loop code [];
  if b : bool then Ok true else indent_errors lines [1%Z] false.

(** ** The scan *)

(** [span(a, b)]: [a] is a code position, [b] a token index. *)
Definition span (a b : nat) : tk Span :=
  x ← tok a;
  y ← index tokens b;
  Ok (span_between (td_span x) (td_span y)).

(** The last line indented past [indent], or [last]. *)
Fixpoint block_last (indent : Z) (lines : list (nat * nat)) (last : nat * nat) : tk (nat * nat) :=
  match lines with
  | [] => Ok last
  | l :: lines =>
      t ← tok l.1;
      if (indent <? start_col (td_span t))%Z then block_last indent lines l else Ok last
  end.

(** [(s + 1..line.end).find(..)]: [n] positions from [e] on. *)
Fixpoint find_eq (n e end_ : nat) : tk (option nat) :=
  match n with
  | O => Ok None
  | S n =>
      s ← text e;
      hit ←
        (if bool_decide (s = lit "=") then
           next ← (if e + 1 <? end_ then s ← text (e + 1); Ok (bool_decide (s = lit "=")) else Ok false);
           if next : bool then Ok false
           else
             p ← text (e - 1);
             Ok (negb (one_of p [lit "="; lit "!"; lit "<"; lit ">"; lit ":"]))
         else Ok false);
      if hit : bool then Ok (Some e) else find_eq n (e + 1) end_
  end.

(** An assignment line: the symbol it declares, if any. *)
Definition assignment (line : nat * nat) (no_block : bool) : tk (option SymbolDecl) :=
  let s := line.1 in
  ident ← is_ident s;
  if negb ident || (line.2 <=? s + 1) then Ok None
  else
    eq ← find_eq (line.2 - (s + 1)) (s + 1) line.2;
    second ← text (s + 1);
    match eq with
    | Some eq =>
        if one_of second [lit "="; lit ":"] then
          name ← text s;
          last ← index code (line.2 - 1);
          value ← (if eq + 1 <? line.2 then s ← text (eq + 1); Ok (Some s) else Ok None);
          if bool_decide (value = Some (lit "lambda"))
             && (bool_decide (second = lit "=") || (s + 2 <? eq))
          then
            sp ← span s last;
            Ok (Some (mkSymbolDecl name SKFunction (Some (lit "lambda")) sp None))
          else if no_block && is_constant_name name then
            sp ← span s last;
            Ok (Some (mkSymbolDecl name SKConstant (Some (lit "constant")) sp None))
          else Ok None
        else Ok None
    | None => Ok None
    end.

(** The open class and def blocks, innermost first: the last token index and
    whether it is a class. *)
Fixpoint pop_open (open : list (nat * bool)) (i : nat) : list (nat * bool) :=
  match open with
  | (e, _) :: rest => if e <? i then pop_open rest i else open
  | [] => []
  end.

(** A [def] or [class] header: its symbol and its block. *)
Definition header (line : nat * nat) (rest : list (nat * nat)) (open : list (nat * bool))
    (start c : nat) (kw : str) : tk (SymbolDecl * (nat * bool)) :=
  t ← tok line.1;
  last ← block_last (start_col (td_span t)) rest line;
  e ← index code (last.2 - 1);
  let class := bool_decide (kw = lit "class") in
  let '(kind, lang) :=
    if class then (SKType, lit "class")
    else if match open with (_, is_class) :: _ => is_class | [] => false end then (SKMethod, lit "method")
    else (SKFunction, lit "function") in
  name ← text (c + 1);
  sp ← span start e;
  Ok (mkSymbolDecl name kind (Some lang) sp None, (e, class)).

Fixpoint scan_loop (lines : list (nat * nat)) (open : list (nat * bool)) (decorators : option nat)
    (out : list SymbolDecl) : tk (list SymbolDecl) :=
  match lines with
  | [] => Ok out
  | line :: lines =>
      let s := line.1 in
      i ← index code s;
      let open := pop_open open i in
      first ← text s;
      if bool_decide (first = lit "@") then
        scan_loop lines open (Some (default s decorators)) out
      else
        let start := default s decorators in
        let c := if bool_decide (first = lit "async") && (s + 1 <? line.2) then s + 1 else s in
        kw ← text c;
        named ← (if one_of kw [lit "def"; lit "class"] && (c + 1 <? line.2) then is_ident (c + 1)
                 else Ok false);
        if named : bool then
          '(sym, block) ← header line lines open start c kw;
          scan_loop lines (block :: open) None (out ++ [sym])
        else
          sym ← assignment line (bool_decide (open = []));
          scan_loop lines open None (match sym with Some sym => out ++ [sym] | None => out end)
  end.

Definition scan (lines : list (nat * nat)) : tk (list SymbolDecl) := scan_loop lines [] None [].
End tokens.

Definition language : str := lit "python".
Definition extensions : list str := [lit "py"; lit "pyw"; lit "pyi"].
Definition version : str := lit "python-scan-2+kw1+tok" ++ show TOKENIZER_VERSION.

Definition extract (is_alphabetic is_numeric : Z → bool) (source : str) : tk Extraction :=
  tokens ← tokenize_with is_alphabetic is_numeric source PYTHON;
  let code := code_index tokens [Comment] in
  lines ← logical_lines tokens code;
  has_errors ← has_syntax_errors tokens code lines;
  symbols ← (if has_errors : bool then Ok [] else scan tokens code lines);
  tokens ← mark_keywords tokens KEYWORDS (λ _ _, false);
  Ok (mkExtraction symbols tokens has_errors).

(** [symbols]: the scan alone, whatever the errors. *)
Definition symbols (tokens : list TokenDecl) : tk (list SymbolDecl) :=
  let code := code_index tokens [Comment] in
  lines ← logical_lines tokens code;
  scan tokens code lines.
End Python.

(** ** The Python extractor: proofs

    The scanner returns on every token stream. Its blocks are runs of logical
    lines; they nest unless a decorator line is followed by a line to its
    left. *)

#[local] Open Scope nat_scope.

Section scanner.
Context (tokens : list TokenDecl) (code : list nat).
#[local] Abbreviation size := (length code).
Hypothesis Hcode : Forall (λ i, i < length tokens) code.
#[local] Abbreviation tok := (code_tok tokens code).
#[local] Abbreviation text := (code_text tokens code).

Lemma index_ends c : c < size → ends (λ i, code !! c = Some i ∧ i < length tokens) (index (E:=Empty_set) code c).
Proof.
  intros Hc. destruct (lookup_lt_is_Some_2 code c Hc) as [i Hi]. rewrite (index_Ok _ _ _ Hi). simpl.
  split; [done|]. by eapply Forall_lookup in Hcode.
Qed.
Lemma tokens_ends i : i < length tokens → ends (λ t, tokens !! i = Some t) (index (E:=Empty_set) tokens i).
Proof. intros Hi. destruct (lookup_lt_is_Some_2 tokens i Hi) as [t Ht]. by rewrite (index_Ok _ _ _ Ht). Qed.

(** ** Logical lines *)

Lemma starts_loop_ends l : ∀ n depth, n + length l = size → (∀ k i, l !! k = Some i → i < length tokens) →
  ends (λ starts, StronglySorted lt starts ∧ Forall (λ c, n ≤ c < size) starts)
    (Python.starts_loop tokens code (enum_from n l) depth).
Proof.
  induction l as [|i l IH]; intros n depth Hn Hl; simpl; [by split; constructor|]. simpl in Hn.
  eapply ends_bind; [by apply tokens_ends, (Hl 0)|]. intros t _.
  apply (ends_bind (λ _, True)).
  { destruct n as [|p]; [done|]. eapply ends_bind; [reads|]. done. }
  intros new_line _. eapply ends_bind; [apply (IH (S n)); [lia|intros k; apply (Hl (S k))]|].
  intros starts [Hs Hf]. assert (Forall (λ c, n ≤ c < size) starts).
  { eapply Forall_impl; [exact Hf|]. simpl. lia. }
  case_match; simpl; split; try done; constructor; try done; [|lia].
  eapply Forall_impl; [exact Hf|]. simpl. lia.
Qed.

(** Lines are not empty, are in range, and follow one another. *)
Definition lines_ok (lines : list (nat * nat)) : Prop :=
  ∀ k l, lines !! k = Some l → l.1 < l.2 ≤ size ∧ ∀ l', lines !! S k = Some l' → l.2 = l'.1.

Lemma logical_lines_ends : ends lines_ok (Python.logical_lines tokens code).
Proof.
  unfold Python.logical_lines, enumerate. eapply ends_bind.
  { apply (starts_loop_ends code 0 0); [done|]. intros k i Hi. by eapply Forall_lookup in Hcode. }
  intros starts [Hs Hf]. intros k l. rewrite list_lookup_fmap, lookup_enum_from. simpl.
  destruct (starts !! k) as [s|] eqn:Es; simpl; [|done]. intros [= <-]. simpl.
  assert (s < size) by (eapply Forall_lookup in Hf; [|exact Es]; simpl in Hf; lia).
  rewrite Nat.add_1_r. split.
  - destruct (starts !! S k) as [e|] eqn:Ee; simpl; [|lia].
    pose proof (sorted_lookup lt starts k (S k) s e Hs Es Ee ltac:(lia)).
    eapply Forall_lookup in Hf; [|exact Ee]. simpl in Hf. lia.
  - intros l'. rewrite list_lookup_fmap, lookup_enum_from. simpl.
    destruct (starts !! S k) as [e|] eqn:Ee; simpl; [|done]. by intros [= <-].
Qed.

(** ** Errors *)

Lemma brackets_loop_ends l : ∀ stack, Forall (λ i, i < length tokens) l →
  ends (λ _, True) (Python.brackets_loop tokens l stack).
Proof.
  induction l as [|i l IH]; intros stack Hl; simpl; [done|]. apply Forall_cons in Hl as [Hi Hl].
  eapply ends_bind; [by apply tokens_ends|]. intros t _. repeat case_match; try done; by apply IH.
Qed.
Lemma indent_errors_ends lines : ∀ levels b, Forall (λ l, l.1 < l.2 ≤ size) lines →
  ends (λ _, True) (Python.indent_errors tokens code lines levels b).
Proof.
  induction lines as [|l lines IH]; intros levels b Hl; simpl; [done|]. apply Forall_cons in Hl as [Hi Hl].
  eapply ends_bind; [reads|]. intros t _. case_match; [|done].
  eapply ends_bind; [reads|]. intros last _. by apply IH.
Qed.
Lemma lines_ok_Forall lines : lines_ok lines → Forall (λ l, l.1 < l.2 ≤ size) lines.
Proof. intros Hl. apply Forall_lookup. intros k l Hk. by apply (Hl k). Qed.
Lemma has_syntax_errors_ends lines : lines_ok lines →
  ends (λ _, True) (Python.has_syntax_errors tokens code lines).
Proof.
  intros Hl. unfold Python.has_syntax_errors. eapply ends_bind; [by apply brackets_loop_ends|].
  intros [] _; [done|]. by apply indent_errors_ends, lines_ok_Forall.
Qed.

(** ** Blocks of lines *)

(** The column a line starts at. *)
Definition col (l : nat * nat) : Z :=
  match tok l.1 with Ok t => start_col (td_span t) | _ => 0%Z end.

Lemma block_last_ends indent rest : ∀ last, Forall (λ l, l.1 < l.2 ≤ size) rest →
  ends (λ l, ∃ n, (last :: rest) !! n = Some l ∧
          (∀ j l, j < n → rest !! j = Some l → (indent < col l)%Z) ∧
          ∀ l, rest !! n = Some l → (col l ≤ indent)%Z)
    (Python.block_last tokens code indent rest last).
Proof.
  induction rest as [|l rest IH]; intros last Hl; simpl.
  { exists 0. split_and!; [done|lia|done]. }
  apply Forall_cons in Hl as [Hb Hl].
  eapply ends_bind; [apply tok_ends; [done|lia]|]. intros t Ht. simpl in Ht.
  assert (col l = start_col (td_span t)) as Hc by (unfold col; by rewrite Ht).
  destruct (Z.ltb_spec indent (start_col (td_span t))).
  - eapply ends_weaken; [by apply IH|]. intros r (n & Hn & Ha & Hs). exists (S n). split_and!; [done| |done].
    intros [|j] l' Hj Hl'; [injection Hl' as <-; lia|]. apply (Ha j); [lia|done].
  - simpl. exists 0. split_and!; [done|lia|]. intros l' [= <-]. lia.
Qed.

Section lines.
Context (lines : list (nat * nat)) (Hlines : lines_ok lines).
#[local] Abbreviation L := (length lines).

Definition colk (k : nat) : Z := default 0%Z (col <$> lines !! k).
Definition first_of (k : nat) : nat := default 0 (fst <$> lines !! k).
Definition last_of (k : nat) : nat := default 0 ((λ l, l.2 - 1) <$> lines !! k).

Lemma lines_order j : ∀ i l l', i < j → lines !! i = Some l → lines !! j = Some l' → l.2 ≤ l'.1.
Proof.
  induction j as [|j IH]; intros i l l' Hij Hi Hj; [lia|].
  destruct (lookup_lt_is_Some_2 lines j) as [m Hm]; [apply lookup_lt_Some in Hj; lia|].
  destruct (Hlines j m Hm) as [Hb Hn]. specialize (Hn l' Hj).
  destruct (decide (i = j)) as [-> |]; [simplify_eq; lia|]. pose proof (IH i l m ltac:(lia) Hi Hm). lia.
Qed.
Lemma lines_length : L ≤ size.
Proof.
  assert (∀ k l, lines !! k = Some l → k ≤ l.1) as Hk.
  { induction k as [|k IH]; intros l Hl; [lia|].
    destruct (lookup_lt_is_Some_2 lines k) as [m Hm]; [apply lookup_lt_Some in Hl; lia|].
    pose proof (IH m Hm). destruct (Hlines k m Hm) as [Hb Hn]. specialize (Hn l Hl). lia. }
  destruct L as [|k] eqn:E; [lia|]. destruct (lookup_lt_is_Some_2 lines k) as [l Hl]; [lia|].
  pose proof (Hk k l Hl). destruct (Hlines k l Hl) as [Hb _]. lia.
Qed.
Lemma line_at k : k < L → ∃ l, lines !! k = Some l ∧ l.1 < l.2 ≤ size ∧ first_of k = l.1 ∧ last_of k = l.2 - 1
  ∧ colk k = col l.
Proof.
  intros Hk. destruct (lookup_lt_is_Some_2 lines k Hk) as [l Hl]. exists l. destruct (Hlines k l Hl) as [Hb _].
  unfold first_of, last_of, colk. by rewrite Hl.
Qed.

(** Runs of lines that nest are runs of code positions that nest. *)
Lemma lines_laminar es :
  Forall (λ e, e.1 ≤ e.2 < L) es → laminar es →
  laminar ((λ e, (first_of e.1, last_of e.2)) <$> es).
Proof.
  intros He HL r r' (a & -> & Ha)%list_elem_of_fmap (b & -> & Hb)%list_elem_of_fmap. cbn [fst snd].
  rewrite Forall_forall in He. pose proof (He a Ha) as Ha'. pose proof (He b Hb) as Hb'. simpl in Ha', Hb'.
  destruct (line_at a.1) as (x & Hx & Hx1 & -> & _); [lia|]. destruct (line_at a.2) as (y & Hy & Hy1 & _ & -> & _); [lia|].
  destruct (line_at b.1) as (z & Hz & Hz1 & -> & _); [lia|]. destruct (line_at b.2) as (w & Hw & Hw1 & _ & -> & _); [lia|].
  intros Hlt. assert (a.1 < b.1) as Hab.
  { destruct (decide (a.1 < b.1)); [done|]. destruct (decide (a.1 = b.1)) as [E|]; [rewrite E in Hx; simplify_eq; lia|].
    pose proof (lines_order a.1 b.1 z x ltac:(lia) Hz Hx). lia. }
  destruct (HL a b Ha Hb Hab) as [Hd|Hd].
  - left. pose proof (lines_order b.1 a.2 y z Hd Hy Hz). lia.
  - right. destruct (decide (b.2 = a.2)) as [E|]; [rewrite E in Hw; simplify_eq; lia|].
    pose proof (lines_order a.2 b.2 w y ltac:(lia) Hw Hy). lia.
Qed.

(** [b] is the last line of the block headed by line [m]. *)
Definition is_block (m b : nat) : Prop :=
  (∀ j, m < j ≤ b → (colk m < colk j)%Z) ∧ (b + 1 < L → (colk (b + 1) ≤ colk m)%Z).
(** No line of the run is left of its first. *)
Definition above (d b : nat) : Prop := ∀ j, d ≤ j ≤ b → (colk d ≤ colk j)%Z.

Lemma block_nests m b d' b' : is_block m b → m < d' ≤ b' → b' < L → above d' b' → b < d' ∨ b' ≤ b.
Proof.
  intros [Hin Hout] Hd Hb Ha. destruct (decide (b < d')); [by left|]. destruct (decide (b' ≤ b)); [by right|].
  exfalso. pose proof (Hout ltac:(lia)). pose proof (Hin d' ltac:(lia)). pose proof (Ha (b + 1) ltac:(lia)). lia.
Qed.

Definition entry_ok (d0 : nat) (e : nat * nat) : Prop :=
  ∃ m, e.1 ≤ m ≤ e.2 ∧ e.2 < L ∧ m < d0 ∧ (e.2 = m ∨ is_block m e.2).
Definition spans_lines (s : SymbolDecl) (e : nat * nat) : Prop :=
  spans_code tokens code s (first_of e.1, last_of e.2).
Definition found (d0 : nat) (out : list SymbolDecl) : Prop :=
  length out ≤ d0 ∧ ∃ es, Forall2 spans_lines out es ∧ Forall (entry_ok d0) es ∧ laminar es.

Lemma decls_mono d d' out : d ≤ d' → found d out → found d' out.
Proof.
  intros Hd (Hl & es & Hs & He & HL). split; [lia|]. exists es. split_and!; [done| |done].
  eapply Forall_impl; [exact He|]. intros e (m & ? & ? & ? & ?). exists m. split_and!; try done; lia.
Qed.
Lemma decls_push d0 k out s d b :
  found d0 out → d0 ≤ d ≤ k → k ≤ b < L → b = k ∨ is_block k b → above d b → spans_lines s (d, b) →
  found (k + 1) (out ++ [s]).
Proof.
  intros (Hl & es & Hs & He & HL) Hd Hb Hk Ha Hsp. split; [rewrite length_app; simpl; lia|].
  exists (es ++ [(d, b)]). split_and!.
  - apply Forall2_app; [done|]. by constructor.
  - apply Forall_app. split; [|apply Forall_singleton; exists k; simpl; split_and!; try done; lia].
    eapply Forall_impl; [exact He|]. intros e (m & ? & ? & ? & ?). exists m. split_and!; try done; lia.
  - rewrite Forall_forall in He.
    intros r r' [Hr|Hr%list_elem_of_singleton]%elem_of_app [Hr'|Hr'%list_elem_of_singleton]%elem_of_app Hlt.
    + by apply HL.
    + subst r'. destruct (He r Hr) as (m & ? & ? & ? & [Hm|Hm]); simpl in *; [lia|].
      apply (block_nests m); [done|lia|lia|done].
    + subst r. destruct (He r' Hr') as (m & ? & ? & ? & ?). simpl in *. lia.
    + subst. simpl in *. lia.
Qed.

(** ** The scan *)

Lemma span_ends a c i : a < size → code !! c = Some i →
  ends (λ sp, ∃ x y, tok a = Ok x ∧ tok c = Ok y ∧ sp = span_between (td_span x) (td_span y))
    (Python.span tokens code a i).
Proof.
  intros Ha Hc. unfold Python.span. eapply ends_bind; [apply tok_ends; [done|lia]|]. intros x Hx. simpl in Hx.
  eapply ends_bind; [apply tokens_ends; by eapply Forall_lookup in Hcode|]. intros y Hy. simpl in Hy. simpl.
  exists x, y. split_and!; [done| |done]. unfold code_tok. rewrite (index_Ok _ _ _ Hc). simpl.
  by rewrite (index_Ok _ _ _ Hy).
Qed.

Lemma find_eq_ends n : ∀ e end_, 1 ≤ e → e + n ≤ end_ ≤ size →
  ends (λ _, True) (Python.find_eq tokens code n e end_).
Proof.
  induction n as [|n IH]; intros e end_ He Hn; simpl; [done|].
  eapply ends_bind; [reads|]. intros s _. apply (ends_bind (λ _, True)).
  - case_bool_decide; [|done]. apply (ends_bind (λ _, True)).
    + destruct (Nat.ltb_spec (e + 1) end_); [|done]. eapply ends_bind; [reads|]. done.
    + intros [] _; [done|]. eapply ends_bind; [reads|]. done.
  - intros [] _; [done|]. apply IH; lia.
Qed.

Lemma assignment_ends k line no_block : lines !! k = Some line →
  ends (λ o, ∀ s, o = Some s → spans_lines s (k, k)) (Python.assignment tokens code line no_block).
Proof.
  intros Hk. destruct (line_at k) as (l & Hl & Hb & Hf & Hla & _); [by eapply lookup_lt_Some|].
  replace l with line in * by congruence. unfold Python.assignment.
  eapply ends_bind; [reads|]. intros ident Hi. destruct ident; simpl; [|done]. specialize (Hi eq_refl) as [nm Hnm].
  destruct (Nat.leb_spec line.2 (line.1 + 1)); [done|].
  eapply ends_bind; [apply find_eq_ends; lia|]. intros eq _.
  eapply ends_bind; [reads|]. intros second _. destruct eq as [eq|]; [|done]. case_match; [|done].
  rewrite (text_names _ _ _ _ Hnm). simpl. eapply ends_bind; [apply index_ends; lia|]. intros i [Hi _].
  apply (ends_bind (λ _, True)).
  { destruct (Nat.ltb_spec (eq + 1) line.2); [|done]. eapply ends_bind; [reads|]. done. }
  intros value _.
  assert (∀ kind lang, ends (λ o, ∀ s, o = Some s → spans_lines s (k, k))
    (sp ← Python.span tokens code line.1 i; Ok (Some (mkSymbolDecl nm kind lang sp None)))) as Hsp.
  { intros kind lang. eapply ends_bind; [apply span_ends; [lia|done]|]. intros sp (x & y & Hx & Hy & ->). simpl.
    intros s [= <-]. unfold spans_lines, spans_code. simpl. rewrite Hf, Hla.
    split; [lia|split; [|by exists x, y]]. exists line.1. split; [lia|done]. }
  case_match; [apply Hsp|]. case_match; [apply Hsp|done].
Qed.

Lemma header_ends k d line open c kw : lines !! k = Some line → d ≤ k →
  line.1 ≤ c → c + 1 < line.2 → (∃ name, names tokens code (c + 1) name) →
  ends (λ r, ∃ b, k ≤ b < L ∧ is_block k b ∧ spans_lines r.1 (d, b))
    (Python.header tokens code line (drop (S k) lines) open (first_of d) c kw).
Proof.
  intros Hk Hd Hc1 Hc2 [nm Hnm]. pose proof (lookup_lt_Some _ _ _ Hk) as HkL.
  destruct (line_at k) as (l & Hl & Hb & Hf & Hla & Hcol); [done|]. replace l with line in * by congruence.
  destruct (line_at d) as (ld & Hld & Hbd & Hfd & _ & _); [lia|]. unfold Python.header.
  eapply ends_bind; [apply tok_ends; [done|lia]|]. intros t Ht. simpl in Ht.
  assert (start_col (td_span t) = colk k) as -> by (rewrite Hcol; unfold col; by rewrite Ht).
  eapply ends_bind.
  { apply block_last_ends. apply Forall_forall. intros x [j Hj]%list_elem_of_lookup. rewrite lookup_drop in Hj.
    by apply (Hlines _ _ Hj). }
  intros last (n & Hn & Hin & Hout).
  assert (lines !! (k + n) = Some last) as Hlast.
  { destruct n; [rewrite Nat.add_0_r; by injection Hn as <-|]. simpl in Hn. rewrite lookup_drop in Hn.
    by rewrite <- Nat.add_succ_comm. }
  destruct (line_at (k + n)) as (l' & Hl' & Hb' & Hf' & Hla' & _); [by eapply lookup_lt_Some|].
  replace l' with last in * by congruence.
  assert (∀ j, drop (S k) lines !! j = lines !! (S k + j)) as Hdr by (intros; apply lookup_drop).
  eapply ends_bind; [apply index_ends; lia|]. intros e [He _].
  destruct (if bool_decide (kw = lit "class") then _ else _) as [kind lang].
  rewrite (text_names _ _ _ _ Hnm). simpl.
  eapply ends_bind; [apply (span_ends _ (last.2 - 1)); [lia|done]|]. intros sp (x & y & Hx & Hy & ->). simpl.
  exists (k + n). split_and!; [lia|by eapply lookup_lt_Some|split|].
  - intros j Hj. unfold colk at 2. destruct (lookup_lt_is_Some_2 lines j) as [lj Hlj];
      [apply lookup_lt_Some in Hlast; lia|]. rewrite Hlj. simpl. apply (Hin (j - S k)); [lia|].
    rewrite Hdr. by replace (S k + (j - S k)) with j by lia.
  - intros Hkn. unfold colk at 1. destruct (lookup_lt_is_Some_2 lines (k + n + 1)) as [lj Hlj]; [done|].
    rewrite Hlj. simpl. apply Hout. rewrite Hdr. by replace (S k + n) with (k + n + 1) by lia.
  - assert (line.2 ≤ last.2) as Hll.
    { destruct (decide (n = 0)) as [-> |]; [rewrite Nat.add_0_r in Hlast; simplify_eq; lia|].
      pose proof (lines_order (k + n) k line last ltac:(lia) Hk Hlast). lia. }
    assert (ld.1 ≤ line.1).
    { destruct (decide (d = k)) as [-> |]; [simplify_eq; lia|].
      pose proof (lines_order k d ld line ltac:(lia) Hld Hk). lia. }
    unfold spans_lines, spans_code. simpl. rewrite Hfd, Hla' in *.
    split; [lia|split; [|by exists x, y]]. exists (c + 1). split; [lia|done].
Qed.

(** Each decorator line is followed by a line at its column or to its right. *)
Definition attached : Prop :=
  ∀ k l, k + 1 < L → lines !! k = Some l → text l.1 = Ok (lit "@") → (colk k ≤ colk (k + 1))%Z.

(** The pending decorators start at line [d], and no line since is left of
    it. *)
Definition pending (k : nat) (decorators : option nat) (d : nat) : Prop :=
  match decorators with
  | None => d = k
  | Some p => d < k ∧ p = first_of d ∧ (attached → ∀ j, d ≤ j ≤ k → j < L → (colk d ≤ colk j)%Z)
  end.

Lemma pending_start k decorators d line :
  pending k decorators d → lines !! k = Some line →
  d ≤ k ∧ default line.1 decorators = first_of d ∧ (attached → ∀ j, d ≤ j ≤ k → (colk d ≤ colk j)%Z).
Proof.
  intros Hp Hl. pose proof (lookup_lt_Some _ _ _ Hl). destruct decorators as [p|]; simpl in *.
  - destruct Hp as (? & -> & Hj). split_and!; [lia|done|]. intros Ha j Hjk. apply Hj; [done|lia..].
  - subst d. split_and!; [lia|unfold first_of; by rewrite Hl|]. intros _ j Hj. by replace j with k by lia.
Qed.

Lemma pending_next k decorators d line :
  pending k decorators d → lines !! k = Some line → text line.1 = Ok (lit "@") →
  pending (S k) (Some (default line.1 decorators)) d.
Proof.
  intros Hp Hl Ht. destruct (pending_start _ _ _ _ Hp Hl) as (Hd & Hs & Hj). split_and!; [lia|done|].
  intros Ha j Hjk HjL. destruct (decide (j ≤ k)); [apply Hj; [done|lia]|].
  replace j with (k + 1) by lia. pose proof (Hj Ha k ltac:(lia)).
  pose proof (Ha k line ltac:(lia) Hl Ht). lia.
Qed.

Lemma scan_loop_ends rest : ∀ k open decorators d out,
  rest = drop k lines → k ≤ L → pending k decorators d → (attached → found d out) →
  ends (λ out, attached → ∃ d, d ≤ L ∧ found d out) (Python.scan_loop tokens code rest open decorators out).
Proof.
  induction rest as [|line rest IH]; intros k open decorators d out Hr HL Hp Ho; simpl.
  { intros Ha. exists d. split; [|by apply Ho]. destruct decorators; [destruct Hp; lia|simpl in Hp; lia]. }
  assert (lines !! k = Some line) as Hk by (by rewrite <- (Nat.add_0_r k), <- lookup_drop, <- Hr).
  assert (rest = drop (S k) lines) as Hr' by (by rewrite (drop_S _ _ _ Hk) in Hr; injection Hr).
  pose proof (lookup_lt_Some _ _ _ Hk) as HkL. destruct (Hlines k line Hk) as [Hb _].
  destruct (pending_start _ _ _ _ Hp Hk) as (Hd & Hs & Hj).
  eapply ends_bind; [apply index_ends; lia|]. intros i _.
  destruct (text line.1) as [first|[]|] eqn:Ef; [|by pose proof (text_ends _ _ Hcode line.1 ltac:(lia)) as Hx; rewrite Ef in Hx].
  simpl. case_bool_decide as Hat.
  { subst first. apply (IH (S k) _ _ d); [done|lia|by apply pending_next|done]. }
  set (c := if _ && _ then _ else _). assert (line.1 ≤ c < line.2) as Hc.
  { subst c. case_match eqn:E; [|lia]. apply andb_true_iff in E as [_ E%Nat.ltb_lt]. lia. }
  eapply ends_bind; [reads|]. intros kw _.
  apply (ends_bind (λ b, b = true → c + 1 < line.2 ∧ ∃ name, names tokens code (c + 1) name)).
  { case_match eqn:E; [|done]. apply andb_true_iff in E as [_ E%Nat.ltb_lt].
    eapply ends_weaken; [reads|]. intros b Hnm ->. split; [done|by apply Hnm]. }
  intros named Hnm. destruct named.
  - destruct (Hnm eq_refl) as [Hc2 Hname]. rewrite Hs, Hr'. eapply ends_bind; [apply (header_ends k d); try done; lia|].
    intros [sym block] (b & Hkb & Hbl & Hsp). simpl in Hsp. rewrite <- Hr'.
    apply (IH (S k) _ _ (S k)); [done|lia|done|]. intros Ha. specialize (Hj Ha). rewrite <- Nat.add_1_r.
    apply (decls_push d k _ _ d b); [by apply Ho|lia|done|by right| |done].
    intros j Hjb. destruct (decide (j ≤ k)); [apply Hj; lia|]. pose proof (Hj k ltac:(lia)).
    destruct Hbl as [Hbl _]. pose proof (Hbl j ltac:(lia)). lia.
  - eapply ends_bind; [by apply (assignment_ends k)|]. intros [sym|] Hsym;
      (apply (IH (S k) _ _ (S k)); [done|lia|done|]); intros Ha; rewrite <- Nat.add_1_r.
    + apply (decls_push d k _ _ k k); [by apply Ho|lia|lia|by left| |by apply Hsym].
      intros j Hjk. by replace j with k by lia.
    + eapply decls_mono; [|by apply Ho]. lia.
Qed.

Lemma scan_ends :
  ends (λ out, attached → ∃ rs, Forall2 (spans_code tokens code) out rs ∧ laminar rs ∧ length out ≤ size)
    (Python.scan tokens code lines).
Proof.
  assert (found 0 []) as H0.
  { split; [done|]. exists []. split_and!; [constructor|constructor|by intros ? ? []%elem_of_nil]. }
  eapply ends_weaken; [apply (scan_loop_ends lines 0 [] None 0 []); [done|lia|done|done]|].
  intros out Hf Ha. destruct (Hf Ha) as (d & Hd & Hl & es & Hs & He & HL).
  assert (Forall (λ e, e.1 ≤ e.2 < L) es) as Hes.
  { eapply Forall_impl; [exact He|]. intros e (m & ? & ? & ? & ?). simpl. lia. }
  exists ((λ e, (first_of e.1, last_of e.2)) <$> es). split_and!.
  - by apply Forall2_fmap_r.
  - by apply lines_laminar.
  - pose proof lines_length. lia.
Qed.
End lines.
End scanner.

(** ** The extractor *)

(** For every source below 4 GiB the Python extractor returns; a file with
    errors has no symbols; and when no decorator line is followed by a line
    to its left, its tokens are the lexer's reading with the reserved words
    marked, every symbol is named by an identifier inside its span, the
    extraction passes the store's span validation, and decoding the stored
    stream gives it back. *)
Lemma python_extract_indexed is_alphabetic is_numeric src :
  (∀ c, is_ascii_digit c = true → is_numeric c = true) →
  valid_str src → (Z.of_nat (str_len src) < 2 ^ 32 - 1)%Z →
  ∃ out lines ex, tokenize_with is_alphabetic is_numeric src PYTHON = Ok out ∧
    Python.logical_lines out (code_index out [Comment]) = Ok lines ∧
    Python.extract is_alphabetic is_numeric src = Ok ex ∧
    (ex_has_errors ex = true → ex_symbols ex = []) ∧
    (attached out (code_index out [Comment]) lines ∨ ex_has_errors ex = true →
     indexed Python.KEYWORDS src ex).
Proof.
  intros Hd Hv Hl. destruct (tokenize_with_Lexed is_alphabetic is_numeric Hd src PYTHON Hv Hl) as (out & Ho & HL).
  set (code := code_index out [Comment]). pose proof (code_index_bounds out [Comment]) as Hcode. fold code in Hcode.
  pose proof (logical_lines_ends out code Hcode) as Hlines.
  destruct (Python.logical_lines out code) as [lines|[]|] eqn:El; [|done]. simpl in Hlines.
  pose proof (has_syntax_errors_ends out code Hcode lines Hlines) as Herr.
  destruct (Python.has_syntax_errors out code lines) as [err|[]|] eqn:Ee; [|done].
  pose proof (scan_ends out code Hcode lines Hlines) as Hscan.
  destruct (Python.scan out code lines) as [syms|[]|] eqn:Es; [|done]. simpl in Hscan.
  exists out, lines, (mkExtraction (if err then [] else syms)
    (marked (λ x, one_of x Python.KEYWORDS) (λ _ _, false) [] out) err).
  split_and!; [done|done| |simpl; by intros -> |].
  - unfold Python.extract. rewrite Ho. simpl. fold code. rewrite El. simpl. rewrite Ee. simpl.
    destruct err; simpl; rewrite ?Es; simpl; by rewrite mark_keywords_run.
  - simpl. intros Hcase. destruct err.
    { apply (code_indexed src out _ [Comment] [] []); [done|done|simpl; lia|constructor|by intros ? ? []%elem_of_nil]. }
    destruct Hcase as [Ha|]; [|done]. destruct (Hscan Ha) as (rs & Hrs & Hlam & Hlen).
    apply (code_indexed src out _ [Comment] syms rs); try done. etrans; [exact Hlen|apply code_index_length].
Qed.

(** A decorated class with a method, a nested function, a lambda, a constant
    and a continued line. *)
Definition python_source : str :=
  lit "@dec(1," ++ [LF] ++ lit "  2)" ++ [LF] ++ lit "class A(B):" ++ [LF] ++
  lit "  def m(self): # c" ++ [LF] ++ lit "    def g():" ++ [LF] ++ lit "      pass" ++ [LF] ++
  lit "    f = lambda x: x" ++ [LF] ++ lit "MAX_N: int = 1".

(** What it extracts: names and kinds. *)
Example python_source_symbols :
  (ex ← Python.extract is_ascii_alphabetic is_ascii_digit python_source;
   Ok (ex_has_errors ex, (λ s, (sd_name s, sd_lang_kind s)) <$> ex_symbols ex)) =
  Ok (false, [(lit "A", Some (lit "class")); (lit "m", Some (lit "method"));
      (lit "g", Some (lit "function")); (lit "f", Some (lit "lambda"));
      (lit "MAX_N", Some (lit "constant"))]).
Proof. by vm_compute. Qed.
