(* ===== verification/Languages.v ===== *)
(** * Registered languages

    The extractors of [graph-lang-go] and [graph-lang-python] in the registry,
    and what [extract_checked] of the store makes of their extractions. *)
From S2P Require Import Prelude Text Schema Varint Stream StreamRound Walk Prep.
From S2P Require Import StrOps Tokenizer TokenizerProps Language Prep Commit TokenScan.
From S2P Require Import TokenScan NestedScan Extracted LangGo LangPython.

(** An extractor whose [extract] is [ext], with the default [extract_noted].
    A panic of [ext] is excluded where its value is used. *)
Definition extractor_of (language version : str) (extensions : list str) (ext : str → tk Extraction)
    : Extractor :=
  let run s := match ext s with Ok ex => ex | _ => mkExtraction [] [] false end in
  mkExtractor language run (λ s, (run s, None)) version extensions.

Section languages.
Context (is_alphabetic is_numeric : Z → bool).

Definition GoExtractor : Extractor :=
  extractor_of Go.language Go.version Go.extensions (Go.extract is_alphabetic is_numeric).
Definition PythonExtractor : Extractor :=
  extractor_of Python.language Python.version Python.extensions (Python.extract is_alphabetic is_numeric).

Lemma extract_checked_ok r path lang src ext version extensions ex :
  get r lang = Some (extractor_of lang version extensions ext) → ext src = Ok ex →
  validate_spans ex = Ok () →
  extract_checked is_alphabetic is_numeric r path lang src = Ok (PExtracted ex, None).
Proof.
  intros Hr He Hv. unfold extract_checked, extract_noted. rewrite Hr. cbn. rewrite He. cbn. by rewrite Hv.
Qed.
Lemma extract_checked_dropped r path lang src ext version extensions ex why :
  get r lang = Some (extractor_of lang version extensions ext) → ext src = Ok ex →
  validate_spans ex = Err (InvalidSpan why) →
  validate_spans (mkExtraction [] (ex_tokens ex) (ex_has_errors ex)) = Ok () →
  ∃ warning, extract_checked is_alphabetic is_numeric r path lang src =
    Ok (PExtracted (mkExtraction [] (ex_tokens ex) (ex_has_errors ex)), Some warning).
Proof.
  intros Hr He Hv Ht. unfold extract_checked, extract_noted. rewrite Hr. cbn -[validate_spans]. rewrite He. cbn -[validate_spans]. rewrite Hv. cbn -[validate_spans]. rewrite Ht.
  by eexists.
Qed.

Lemma get_register r e lang :
  to_ascii_lowercase lang = to_ascii_lowercase (e_language e) → get (register r e) lang = Some e.
Proof. intros Hl. unfold get, register. cbn. by rewrite Hl, lookup_insert_eq. Qed.
End languages.

(** C21: Every Go source below 4 GiB is stored with its symbols: where the Go
    extractor is registered the store's checked extraction returns what the
    extractor extracts, without a warning and without falling back to tokens
    only. Its tokens are the lexer's reading with the reserved words marked,
    every symbol is named by an identifier inside its span, and decoding the
    stored stream gives its symbols, in span order, and its tokens back. *)
Theorem go_index is_alphabetic is_numeric r path src :
  (∀ c, is_ascii_digit c = true → is_numeric c = true) →
  valid_str src → Z.of_nat (str_len src) < 2 ^ 32 - 1 →
  get r Go.language = Some (GoExtractor is_alphabetic is_numeric) →
  ∃ ex, Go.extract is_alphabetic is_numeric src = Ok ex ∧
    extract_checked is_alphabetic is_numeric r path Go.language src = Ok (PExtracted ex, None) ∧
    ex_has_errors ex = false ∧ indexed Go.KEYWORDS src ex.
Proof.
  intros Hd Hv Hl Hr. destruct (go_extract_indexed is_alphabetic is_numeric src Hd Hv Hl) as (ex & He & Herr & Hi).
  exists ex. split_and!; [done| |done|done]. destruct Hi as (_ & _ & _ & _ & _ & Hval & _).
  by eapply extract_checked_ok.
Qed.

Lemma go_index_witness :
  ∃ ex, Go.extract is_ascii_alphabetic is_ascii_digit go_source = Ok ex ∧
    extract_checked is_ascii_alphabetic is_ascii_digit
      (register Registry_default (GoExtractor is_ascii_alphabetic is_ascii_digit))
      (lit "a.go") Go.language go_source = Ok (PExtracted ex, None) ∧
    ex_has_errors ex = false ∧ indexed Go.KEYWORDS go_source ex.
Proof.
  apply (go_index is_ascii_alphabetic is_ascii_digit _ (lit "a.go") go_source).
  - done.
  - apply (bool_decide_unpack _). by vm_compute.
  - by vm_compute.
  - by apply get_register.
Defined.

(** C22: A Python source below 4 GiB in which no decorator line is followed by
    a line to its left, or which has errors, is stored as it is extracted,
    without a warning: no symbols for a file with errors, otherwise symbols
    that nest, each named by an identifier inside its span; decoding the
    stored stream gives the extraction back. *)
Theorem python_index is_alphabetic is_numeric r path src :
  (∀ c, is_ascii_digit c = true → is_numeric c = true) →
  valid_str src → Z.of_nat (str_len src) < 2 ^ 32 - 1 →
  get r Python.language = Some (PythonExtractor is_alphabetic is_numeric) →
  ∃ out lines ex, tokenize_with is_alphabetic is_numeric src PYTHON = Ok out ∧
    Python.logical_lines out (code_index out [Comment]) = Ok lines ∧
    Python.extract is_alphabetic is_numeric src = Ok ex ∧
    (ex_has_errors ex = true → ex_symbols ex = []) ∧
    (attached out (code_index out [Comment]) lines ∨ ex_has_errors ex = true →
     extract_checked is_alphabetic is_numeric r path Python.language src = Ok (PExtracted ex, None) ∧
     indexed Python.KEYWORDS src ex).
Proof.
  intros Hd Hv Hl Hr. destruct (python_extract_indexed is_alphabetic is_numeric src Hd Hv Hl)
    as (out & lines & ex & Ho & Hlines & He & Herr & Hi).
  exists out, lines, ex. split_and!; try done. intros Ha. specialize (Hi Ha). split; [|done].
  destruct Hi as (_ & _ & _ & _ & _ & Hval & _). by eapply extract_checked_ok.
Qed.

Definition python_registry : Registry :=
  register Registry_default (PythonExtractor is_ascii_alphabetic is_ascii_digit).
Lemma python_registered :
  get python_registry Python.language = Some (PythonExtractor is_ascii_alphabetic is_ascii_digit).
Proof. by apply get_register. Qed.

Lemma python_index_witness :
  ∃ out lines ex, tokenize_with is_ascii_alphabetic is_ascii_digit python_source PYTHON = Ok out ∧
    Python.logical_lines out (code_index out [Comment]) = Ok lines ∧
    Python.extract is_ascii_alphabetic is_ascii_digit python_source = Ok ex ∧
    (ex_has_errors ex = true → ex_symbols ex = []) ∧
    (attached out (code_index out [Comment]) lines ∨ ex_has_errors ex = true →
     extract_checked is_ascii_alphabetic is_ascii_digit
       python_registry (lit "a.py") Python.language python_source = Ok (PExtracted ex, None) ∧
     indexed Python.KEYWORDS python_source ex).
Proof.
  apply (python_index is_ascii_alphabetic is_ascii_digit _ (lit "a.py") python_source).
  - done.
  - apply (bool_decide_unpack _). by vm_compute.
  - by vm_compute.
  - apply python_registered.
Defined.

(** A decorator that ends a class body, and a function left of it. *)
Definition dangling_decorator : str :=
  lit "class A:" ++ [LF] ++ lit "    @dec" ++ [LF] ++ lit "def f(): pass".

(** Its extraction, evaluated. *)
Definition dangling_extraction : Extraction :=
  Eval vm_compute in
  match Python.extract is_ascii_alphabetic is_ascii_digit dangling_decorator with
  | Ok ex => ex
  | _ => mkExtraction [] [] false
  end.
Lemma dangling_extract :
  Python.extract is_ascii_alphabetic is_ascii_digit dangling_decorator = Ok dangling_extraction.
Proof. by vm_compute. Qed.
Lemma dangling_overlap :
  validate_spans dangling_extraction =
    Err (InvalidSpan (lit "bytes 13..31 partially overlap an enclosing symbol ending at 17")).
Proof. by vm_compute. Qed.
Lemma dangling_tokens :
  validate_spans (mkExtraction [] (ex_tokens dangling_extraction) (ex_has_errors dangling_extraction)) = Ok ().
Proof. by vm_compute. Qed.

Lemma dangling_names :
  ex_has_errors dangling_extraction = false ∧ sd_name <$> ex_symbols dangling_extraction = [lit "A"; lit "f"].
Proof. by vm_compute. Qed.
Lemma dangling_checked :
  ∃ warning, extract_checked is_ascii_alphabetic is_ascii_digit python_registry (lit "a.py") Python.language
    dangling_decorator =
    Ok (PExtracted (mkExtraction [] (ex_tokens dangling_extraction) (ex_has_errors dangling_extraction)),
        Some warning).
Proof.
  exact (extract_checked_dropped is_ascii_alphabetic is_ascii_digit python_registry (lit "a.py")
    Python.language dangling_decorator (Python.extract is_ascii_alphabetic is_ascii_digit)
    Python.version Python.extensions dangling_extraction _ python_registered
    dangling_extract dangling_overlap dangling_tokens).
Qed.

(** The condition on decorators is needed: for a decorator that ends a
    class body and a function left of it the extractor reports no error but
    two symbols that overlap, the function starting inside the class; the
    store drops both and keeps the tokens with a warning. *)
Theorem python_dangling_decorator :
  ∃ ex kept warning,
    Python.extract is_ascii_alphabetic is_ascii_digit dangling_decorator = Ok ex ∧
    ex_has_errors ex = false ∧ sd_name <$> ex_symbols ex = [lit "A"; lit "f"] ∧
    extract_checked is_ascii_alphabetic is_ascii_digit python_registry (lit "a.py") Python.language
      dangling_decorator = Ok (PExtracted kept, Some warning) ∧
    ex_symbols kept = [] ∧ ex_tokens kept = ex_tokens ex.
Proof.
  destruct dangling_checked as (warning & Hw). destruct dangling_names as [Herr Hn].
  refine (ex_intro _ dangling_extraction (ex_intro _ _ (ex_intro _ warning
    (conj dangling_extract (conj Herr (conj Hn (conj Hw (conj _ _)))))))); reflexivity.
Qed.
