(* ===== verification/WireError.v ===== *)
(** * Errors on the wire

    [graph-proto/src/error.rs]: the gRPC status of a store error, its typed
    detail and the way back. The prost codec of the detail message is an
    interface; the message types are those of
    [graph-proto/src/gen/memory_graph.v1.rs]. *)
From S2P Require Import Prelude Text Schema StrOps Db.

(** ** Display *)

Definition SCHEMA_VERSION : Z := 12.

Definition not_leader_hint (id : option Z) (addr : option str) : str :=
  match id, addr with
  | Some id, Some addr => lit " (leader is node " ++ show id ++ lit " at " ++ addr ++ lit ")"
  | Some id, None => lit " (leader is node " ++ show id ++ lit ")"
  | None, Some addr => lit " (leader is at " ++ addr ++ lit ")"
  | None, None => []
  end.

(** [SchemaError::to_string] and [StoreError::to_string]. *)
Definition SchemaError_display (e : SchemaError) : str :=
  match e with
  | InvalidContainment p c =>
      lit "invalid containment: " ++ NodeKind_debug p ++ lit " cannot contain " ++ NodeKind_debug c
  end.
Definition StoreError_display (e : StoreError) : str :=
  match e with
  | Locked m => lit "database is locked by another process: " ++ m
  | SchemaMismatch found =>
      lit "incompatible schema version " ++ show found ++ lit " (this build supports " ++
      show SCHEMA_VERSION ++ lit "); database left unmodified"
  | LegacyFormat path version =>
      lit "database `" ++ path ++ lit "` is in the retired v1 format (schema version " ++ show version ++
      lit "); this release reads only the v2 format. Re-index from source into a new file (recommended), or convert it with the last v1-capable release (git tag `v1-last`): `memory-graph migrate <new.redb>`"
  | OpenFailed path reason => lit "cannot open database " ++ path ++ lit ": " ++ reason
  | Rejected m => lit "rejected: " ++ m
  | NotUtf8 m => lit "rejected: " ++ m ++ lit " is not valid UTF-8"
  | StrictEncoding path encoding =>
      lit "rejected: `" ++ path ++ lit "` has byte sequences that are invalid in " ++ encoding ++
      lit " (strict encoding)"
  | Binary m => lit "rejected: " ++ m ++ lit " is binary"
  | TooLarge m => lit "rejected: " ++ m ++ lit " is larger than 4 GiB"
  | InvalidSpan m => lit "invalid span: " ++ m
  | Corrupt m => lit "corrupt database: " ++ m
  | Schema e => SchemaError_display e
  | Storage m => lit "storage error: " ++ m
  | SnapshotExpired age max_age =>
      lit "snapshot expired after " ++ show age ++ lit "s (max age " ++ show max_age ++
      lit "s); open a new snapshot with Store::snapshot"
  | NotLeader id addr => lit "not the leader" ++ not_leader_hint id addr
  | NoLeader ms => lit "no leader is currently known; retry after " ++ show ms ++ lit " ms"
  | Protocol m => lit "protocol error: " ++ m
  | WrongCluster expected found =>
      lit "wrong cluster: expected cluster " ++ expected ++ lit ", found cluster " ++ found ++
      lit "; nothing was changed (a data directory belongs to one cluster for life: clear it to join another)"
  | AlreadyApplied i => lit "raft marker " ++ show i ++ lit " already applied"
  | DeadlineExceeded m => lit "deadline exceeded: " ++ m
  | Unauthenticated m => lit "unauthenticated: " ++ m
  | PermissionDenied m _ => lit "permission denied: " ++ m
  end.

(** ** Wire errors *)

Inductive WireError : Set :=
  | WStore (e : StoreError)
  | WNotLeader (leader_id : option Z) (leader_addr : option str)
  | WNoLeader (retry_after_ms : Z)
  | WProtocol (m : str).

Definition WireError_display (e : WireError) : str :=
  match e with
  | WStore e => StoreError_display e
  | WNotLeader id addr => StoreError_display (NotLeader id addr)
  | WNoLeader ms => StoreError_display (NoLeader ms)
  | WProtocol m => StoreError_display (Protocol m)
  end.

(** [From<StoreError> for WireError] and back; [wire_view] re-creates the
    error field by field. *)
Definition WireError_from (e : StoreError) : WireError :=
  match e with
  | NotLeader id addr => WNotLeader id addr
  | NoLeader ms => WNoLeader ms
  | Protocol m => WProtocol m
  | e => WStore e
  end.
Definition StoreError_from (e : WireError) : StoreError :=
  match e with
  | WStore e => e
  | WNotLeader id addr => NotLeader id addr
  | WNoLeader ms => NoLeader ms
  | WProtocol m => Protocol m
  end.
Definition wire_view (e : StoreError) : WireError :=
  match e with
  | Locked m => WStore (Locked m)
  | SchemaMismatch found => WStore (SchemaMismatch found)
  | LegacyFormat path version => WStore (LegacyFormat path version)
  | OpenFailed path reason => WStore (OpenFailed path reason)
  | Rejected m => WStore (Rejected m)
  | AlreadyApplied i => WStore (AlreadyApplied i)
  | NotUtf8 p => WStore (NotUtf8 p)
  | StrictEncoding path encoding => WStore (StrictEncoding path encoding)
  | Binary p => WStore (Binary p)
  | TooLarge p => WStore (TooLarge p)
  | InvalidSpan m => WStore (InvalidSpan m)
  | Corrupt m => WStore (Corrupt m)
  | Schema (InvalidContainment p c) => WStore (Schema (InvalidContainment p c))
  | Storage m => WStore (Storage m)
  | WrongCluster expected found => WStore (WrongCluster expected found)
  | Unauthenticated m => WStore (Unauthenticated m)
  | PermissionDenied m role => WStore (PermissionDenied m role)
  | SnapshotExpired age max_age => WStore (SnapshotExpired age max_age)
  | NotLeader id addr => WNotLeader id addr
  | NoLeader ms => WNoLeader ms
  | Protocol m => WProtocol m
  | DeadlineExceeded m => WStore (DeadlineExceeded m)
  end.

(** ** Codes *)

(** [tonic::Code]. *)
Inductive Code : Set :=
  | COk | Cancelled | Unknown | InvalidArgument | CDeadlineExceeded | NotFound | AlreadyExists
  | CPermissionDenied | ResourceExhausted | FailedPrecondition | Aborted | OutOfRange
  | Unimplemented | Internal | Unavailable | DataLoss | CUnauthenticated.
#[global] Instance Code_eq_dec : EqDecision Code.
Proof. solve_decision. Defined.
Definition Code_debug (c : Code) : str :=
  match c with
  | COk => lit "Ok" | Cancelled => lit "Cancelled" | Unknown => lit "Unknown"
  | InvalidArgument => lit "InvalidArgument" | CDeadlineExceeded => lit "DeadlineExceeded"
  | NotFound => lit "NotFound" | AlreadyExists => lit "AlreadyExists"
  | CPermissionDenied => lit "PermissionDenied" | ResourceExhausted => lit "ResourceExhausted"
  | FailedPrecondition => lit "FailedPrecondition" | Aborted => lit "Aborted"
  | OutOfRange => lit "OutOfRange" | Unimplemented => lit "Unimplemented" | Internal => lit "Internal"
  | Unavailable => lit "Unavailable" | DataLoss => lit "DataLoss" | CUnauthenticated => lit "Unauthenticated"
  end.

(** On Linux. *)
Definition is_disk_full (msg : str) : bool :=
  let m := to_ascii_lowercase msg in
  let code n := contains m (lit "os error " ++ show n ++ lit ")") || ends_with m (lit "os error " ++ show n) in
  contains m (lit "no space left") || contains m (lit "disk full") ||
  contains m (lit "no storage space") || contains m (lit "quota exceeded") ||
  code 28 || code 112 || code 122.
Definition is_previous_io (msg : str) : bool :=
  contains (to_ascii_lowercase msg) (lit "previous i/o error").
Definition is_transport_loss (code : Code) (message : str) : bool :=
  match code with
  | Cancelled | CDeadlineExceeded | Aborted => true
  | Unknown =>
      let m := to_ascii_lowercase message in
      existsb (contains m)
        [lit "transport error"; lit "connection"; lit "broken pipe"; lit "reset"; lit "closed"]
  | _ => false
  end.

Definition WireError_code (e : WireError) : Code :=
  match e with
  | WStore e =>
      match e with
      | Rejected _ | NotUtf8 _ | StrictEncoding _ _ | Binary _ | TooLarge _ | InvalidSpan _ | Schema _
      | AlreadyApplied _ => InvalidArgument
      | Locked _ => Unavailable
      | SchemaMismatch _ | LegacyFormat _ _ | SnapshotExpired _ _ | WrongCluster _ _ => FailedPrecondition
      | Corrupt _ => DataLoss
      | Storage msg => if is_disk_full msg then ResourceExhausted else Internal
      | OpenFailed _ _ => Internal
      | NotLeader _ _ | NoLeader _ => Unavailable
      | Protocol _ => FailedPrecondition
      | DeadlineExceeded _ => CDeadlineExceeded
      | Unauthenticated _ => CUnauthenticated
      | PermissionDenied _ _ => CPermissionDenied
      end
  | WNotLeader _ _ | WNoLeader _ => Unavailable
  | WProtocol _ => FailedPrecondition
  end.

Definition from_code (code : Code) (msg : str) : WireError :=
  match code with
  | InvalidArgument | FailedPrecondition => WStore (Rejected msg)
  | Unavailable => WStore (Locked msg)
  | DataLoss => WStore (Corrupt msg)
  | ResourceExhausted | Internal => WStore (Storage msg)
  | Unimplemented => WProtocol (Code_debug code ++ lit ": " ++ msg)
  | CUnauthenticated => WStore (Unauthenticated msg)
  | CPermissionDenied => WStore (PermissionDenied msg [])
  | other =>
      if is_transport_loss other msg then
        WStore (Storage (lit "connection lost (" ++ Code_debug other ++ lit "): " ++ msg))
      else WStore (Storage (Code_debug other ++ lit ": " ++ msg))
  end.

(** ** The detail message *)

(** [pb::NodeKind] as an [i32] field, and back ([enum_map!]). *)
Definition NodeKind_i32 (k : NodeKind) : Z :=
  match k with Org => 1 | Repo => 2 | File => 3 | Symbol => 4 | Token => 5 end.
Definition NodeKind_of_i32 (v : Z) : option NodeKind :=
  if v =? 1 then Some Org else if v =? 2 then Some Repo else if v =? 3 then Some File
  else if v =? 4 then Some Symbol else if v =? 5 then Some Token else None.

(** [store_error_detail::Kind]; [StoreErrorDetail] is an optional kind. *)
Inductive DetailKind : Set :=
  | KLocked (msg : str)
  | KSchemaMismatch (found : Z)
  | KLegacyFormat (path : str) (version : Z)
  | KOpenFailed (path reason : str)
  | KRejected (msg : str) (transient : bool)
  | KNotUtf8 (path : str)
  | KTooLarge (path : str)
  | KInvalidSpan (msg : str)
  | KCorrupt (msg : str)
  | KSchema (msg : str) (parent child : Z)
  | KStorage (msg : str)
  | KSnapshotExpired (age_secs max_age_secs : Z)
  | KNotLeader (leader_id : option Z) (leader_addr : option str)
  | KNoLeader (retry_after_ms : Z)
  | KProtocol (msg : str)
  | KWrongCluster (expected found : str)
  | KBinary (path : str)
  | KStrictEncoding (path encoding : str)
  | KDeadlineExceeded (msg : str)
  | KUnauthenticated (msg : str)
  | KPermissionDenied (msg required_role : str).
#[global] Instance DetailKind_eq_dec : EqDecision DetailKind.
Proof. solve_decision. Defined.
Definition StoreErrorDetail : Set := option DetailKind.

Definition detail (e : WireError) : StoreErrorDetail :=
  Some match e with
  | WStore e =>
      match e with
      | Locked msg => KLocked msg
      | SchemaMismatch found => KSchemaMismatch found
      | LegacyFormat path version => KLegacyFormat path version
      | OpenFailed path reason => KOpenFailed path reason
      | Rejected msg => KRejected msg false
      | AlreadyApplied i => KRejected (StoreError_display (AlreadyApplied i)) false
      | NotUtf8 path => KNotUtf8 path
      | StrictEncoding path encoding => KStrictEncoding path encoding
      | Binary path => KBinary path
      | TooLarge path => KTooLarge path
      | InvalidSpan msg => KInvalidSpan msg
      | Corrupt msg => KCorrupt msg
      | Schema (InvalidContainment parent child) =>
          KSchema (StoreError_display (Schema (InvalidContainment parent child)))
            (NodeKind_i32 parent) (NodeKind_i32 child)
      | Storage msg => KStorage msg
      | SnapshotExpired age max_age => KSnapshotExpired age max_age
      | NotLeader id addr => KNotLeader id addr
      | NoLeader ms => KNoLeader ms
      | Protocol msg => KProtocol msg
      | WrongCluster expected found => KWrongCluster expected found
      | DeadlineExceeded msg => KDeadlineExceeded msg
      | Unauthenticated msg => KUnauthenticated msg
      | PermissionDenied msg role => KPermissionDenied msg role
      end
  | WNotLeader id addr => KNotLeader id addr
  | WNoLeader ms => KNoLeader ms
  | WProtocol msg => KProtocol msg
  end.

(** [TryFrom<pb::StoreErrorDetail> for WireError]; the error is the text of
    the [ConvertError]. *)
Definition WireError_try_from (d : StoreErrorDetail) : outcome str WireError :=
  match d with
  | None => Err (lit "StoreErrorDetail.kind is missing")
  | Some kind =>
      Ok match kind with
      | KLocked msg => WireError_from (Locked msg)
      | KSchemaMismatch found => WireError_from (SchemaMismatch found)
      | KLegacyFormat path version => WireError_from (LegacyFormat path version)
      | KOpenFailed path reason => WireError_from (OpenFailed path reason)
      | KRejected msg _ => WireError_from (Rejected msg)
      | KNotUtf8 path => WireError_from (NotUtf8 path)
      | KStrictEncoding path encoding => WireError_from (StrictEncoding path encoding)
      | KBinary path => WireError_from (Binary path)
      | KTooLarge path => WireError_from (TooLarge path)
      | KInvalidSpan msg => WireError_from (InvalidSpan msg)
      | KCorrupt msg => WireError_from (Corrupt msg)
      | KSchema msg parent child =>
          match NodeKind_of_i32 parent, NodeKind_of_i32 child with
          | Some p, Some c => WireError_from (Schema (InvalidContainment p c))
          | _, _ => WireError_from (Rejected msg)
          end
      | KStorage msg => WireError_from (Storage msg)
      | KSnapshotExpired age max_age => WireError_from (SnapshotExpired age max_age)
      | KNotLeader id addr => WNotLeader id addr
      | KNoLeader ms => WNoLeader ms
      | KProtocol msg => WProtocol msg
      | KWrongCluster expected found => WireError_from (WrongCluster expected found)
      | KDeadlineExceeded msg => WireError_from (DeadlineExceeded msg)
      | KUnauthenticated msg => WireError_from (Unauthenticated msg)
      | KPermissionDenied msg role => WireError_from (PermissionDenied msg role)
      end
  end.

(** ** Statuses *)

(** The prost codec of a message type: decoding undoes encoding. *)
Class Prost (M : Type) := {
  encode_to_vec : M → list Z;
  prost_decode : list Z → option M;
  prost_roundtrip m : prost_decode (encode_to_vec m) = Some m;
}.
(** A detail with a kind is not encoded as nothing: its field is written. *)
Class ProstDetail `{Prost StoreErrorDetail} := {
  detail_written k : encode_to_vec (Some k : StoreErrorDetail) ≠ [];
}.

(** [tonic::Status]. *)
Record Status : Set := mkStatus { st_code : Code; st_message : str; st_details : list Z }.

Section status.
Context `{ProstDetail}.

Definition Status_from (e : WireError) : Status :=
  mkStatus (WireError_code e) (WireError_display e) (encode_to_vec (detail e)).
Definition WireError_of_status (s : Status) : WireError :=
  match
    (if bool_decide (st_details s = []) then None
     else d ← prost_decode (st_details s); match WireError_try_from d with Ok w => Some w | _ => None end)
  with
  | Some w => w
  | None => from_code (st_code s) (st_message s)
  end.

Definition store_error_to_status (e : StoreError) : Status := Status_from (wire_view e).
Definition status_to_store_error (s : Status) : StoreError := StoreError_from (WireError_of_status s).

Definition transient_rejection (msg : str) : Status :=
  mkStatus InvalidArgument (StoreError_display (Rejected msg))
    (encode_to_vec (Some (KRejected msg true) : StoreErrorDetail)).
Definition is_transient_rejection (s : Status) : bool :=
  negb (bool_decide (st_details s = [])) &&
  match prost_decode (st_details s) with
  | Some (Some (KRejected _ transient)) => transient
  | _ => false
  end.

Definition ConvertError_display (e : str) : str := lit "malformed message: " ++ e.

(** [ErrDetail::of] and [ErrDetail::into_error] of [raft/types.rs]. The text
    of a failed decode is prost's. *)
Definition ErrDetail_of (e : StoreError) : list Z := encode_to_vec (detail (wire_view e)).
Definition into_error (why : str) (b : list Z) : StoreError :=
  match prost_decode b with
  | Some d =>
      match WireError_try_from d with
      | Ok w => StoreError_from w
      | Err e => Protocol (lit "undecodable error detail: " ++ ConvertError_display e)
      | Panic => Protocol (lit "undecodable error detail: " ++ why)
      end
  | None => Protocol (lit "undecodable error detail: " ++ why)
  end.
End status.

(** ** Round trips *)

Lemma NodeKind_wire k : NodeKind_of_i32 (NodeKind_i32 k) = Some k.
Proof. by destruct k. Qed.

(** What a store error is after a trip over the wire: itself, but for the
    server-internal one, which travels as a refusal with its text. *)
Definition over_wire (e : StoreError) : StoreError :=
  match e with
  | AlreadyApplied i => Rejected (StoreError_display (AlreadyApplied i))
  | e => e
  end.

Lemma detail_over_wire e : ∃ w, WireError_try_from (detail (wire_view e)) = Ok w ∧ StoreError_from w = over_wire e.
Proof.
  destruct e; try (eexists; split; reflexivity).
  destruct e as [p c]. cbn. rewrite !NodeKind_wire. by eexists.
Qed.
Lemma detail_kind e : ∃ k, detail (wire_view e) = Some k ∧ ∀ m, k ≠ KRejected m true.
Proof. destruct e; try (by eexists). destruct e. by eexists. Qed.

(** C20: Every store error survives the wire: the status of an error, and the
    detail bytes a replicated response carries, read back as the same error
    with all its fields, whatever the code table makes of it; only the
    server-internal "already applied" becomes a refusal with its text. No
    such status is a transient refusal, while a transient refusal is one and
    reads back as the plain refusal with the same code and message. *)
Theorem wire_error_roundtrip `{ProstDetail} e why m :
  status_to_store_error (store_error_to_status e) = over_wire e ∧
  into_error why (ErrDetail_of e) = over_wire e ∧
  is_transient_rejection (store_error_to_status e) = false ∧
  is_transient_rejection (transient_rejection m) = true ∧
  status_to_store_error (transient_rejection m) = Rejected m ∧
  st_code (transient_rejection m) = st_code (store_error_to_status (Rejected m)) ∧
  st_message (transient_rejection m) = st_message (store_error_to_status (Rejected m)).
Proof.
  destruct (detail_over_wire e) as (w & Hw & Ho). destruct (detail_kind e) as (k & Hk & Hkt).
  unfold status_to_store_error, WireError_of_status, into_error, ErrDetail_of, is_transient_rejection,
    store_error_to_status, Status_from. cbn [st_details].
  rewrite Hk in *. rewrite !bool_decide_false by apply detail_written. rewrite !prost_roundtrip.
  cbn [mbind option_bind]. rewrite Hw. split_and!; try done.
  - destruct k as [| | | |msg []| | | | | | | | | | | | | | | |]; try done. by destruct (Hkt msg).
  - cbn [transient_rejection st_details]. rewrite ?bool_decide_false by apply detail_written.
    by rewrite ?prost_roundtrip.
  - cbn [transient_rejection st_details]. rewrite ?bool_decide_false by apply detail_written.
    by rewrite ?prost_roundtrip.
Qed.

(** The interface can be met: one cell holding the message's code. *)
Definition coded_prost {M} `{Countable M} : Prost M.
Proof.
  refine {| encode_to_vec m := [Z.pos (encode m)];
            prost_decode b := match b with [Z.pos p] => decode p | _ => None end |}.
  intros m. by rewrite decode_encode.
Defined.

Definition DetailKind_fields (k : DetailKind) : Z * str * str * (Z * Z) * option Z * option str :=
  match k with
  | KLocked m => (1, m, [], (0, 0), None, None)
  | KSchemaMismatch f => (2, [], [], (f, 0), None, None)
  | KLegacyFormat p v => (3, p, [], (v, 0), None, None)
  | KOpenFailed p r => (4, p, r, (0, 0), None, None)
  | KRejected m t => (5, m, [], (Z.b2z t, 0), None, None)
  | KNotUtf8 p => (6, p, [], (0, 0), None, None)
  | KTooLarge p => (7, p, [], (0, 0), None, None)
  | KInvalidSpan m => (8, m, [], (0, 0), None, None)
  | KCorrupt m => (9, m, [], (0, 0), None, None)
  | KSchema m p c => (10, m, [], (p, c), None, None)
  | KStorage m => (11, m, [], (0, 0), None, None)
  | KSnapshotExpired a b => (12, [], [], (a, b), None, None)
  | KNotLeader i a => (13, [], [], (0, 0), i, a)
  | KNoLeader ms => (14, [], [], (ms, 0), None, None)
  | KProtocol m => (15, m, [], (0, 0), None, None)
  | KWrongCluster e f => (16, e, f, (0, 0), None, None)
  | KBinary p => (17, p, [], (0, 0), None, None)
  | KStrictEncoding p e => (18, p, e, (0, 0), None, None)
  | KUnauthenticated m => (19, m, [], (0, 0), None, None)
  | KPermissionDenied m r => (20, m, r, (0, 0), None, None)
  | KDeadlineExceeded m => (21, m, [], (0, 0), None, None)
  end.
Definition DetailKind_of (x : Z * str * str * (Z * Z) * option Z * option str) : DetailKind :=
  let '(tag, a, b, (u, v), i, s) := x in
  match Z.to_nat tag with
  | 1%nat => KLocked a | 2%nat => KSchemaMismatch u | 3%nat => KLegacyFormat a u | 4%nat => KOpenFailed a b
  | 5%nat => KRejected a (u =? 1) | 6%nat => KNotUtf8 a | 7%nat => KTooLarge a | 8%nat => KInvalidSpan a
  | 9%nat => KCorrupt a | 10%nat => KSchema a u v | 11%nat => KStorage a | 12%nat => KSnapshotExpired u v
  | 13%nat => KNotLeader i s | 14%nat => KNoLeader u | 15%nat => KProtocol a | 16%nat => KWrongCluster a b
  | 17%nat => KBinary a | 18%nat => KStrictEncoding a b | 19%nat => KUnauthenticated a
  | 20%nat => KPermissionDenied a b | _ => KDeadlineExceeded a
  end.
#[global] Instance DetailKind_countable : Countable DetailKind.
Proof. refine (inj_countable' DetailKind_fields DetailKind_of _). by intros [| | | |m []| | | | | | | | | | | | | | | |]. Defined.
#[global] Instance StoreErrorDetail_eq_dec : EqDecision StoreErrorDetail := _.
#[global] Instance StoreErrorDetail_countable : Countable StoreErrorDetail := _.
Definition coded_detail : ProstDetail (H:=coded_prost).
Proof. by constructor. Defined.

#[local] Existing Instance coded_prost.
#[local] Existing Instance coded_detail.
Lemma wire_error_roundtrip_witness :
  status_to_store_error (store_error_to_status (NotLeader (Some 3) None)) = NotLeader (Some 3) None ∧
  status_to_store_error (transient_rejection (lit "busy")) = Rejected (lit "busy").
Proof.
  destruct (wire_error_roundtrip (NotLeader (Some 3) None) [] (lit "busy")) as (H1 & _ & _ & _ & H2 & _).
  exact (conj H1 H2).
Defined.
