(* ===== verification/Wire.v ===== *)
(** * Messages and values

    [graph-proto/src/convert.rs]: the conversions between the messages of
    [graph-proto/src/gen/memory_graph.v1.rs] and the types they mirror. A
    [usize] has 64 bits. *)
From S2P Require Import Prelude Text StrOps Schema Stream Reader Db Write Commit Encoding Prepare Describe.
From S2P Require Import LazySort Symbols Search WireError.

(** [ConvertError]: its text. *)
Abbreviation conv := (outcome str).

Definition unspecified (what : str) (value : Z) : str :=
  what ++ lit " value " ++ show value ++ lit " is unspecified or unknown".
Definition missing (what : str) : str := lit "required field `" ++ what ++ lit "` is missing".

Definition to_usize (what : str) (v : Z) : conv Z :=
  if v <? 2 ^ 64 then Ok v else Err (lit "`" ++ what ++ lit "` = " ++ show v ++ lit " does not fit usize").
(** [v.map(f).transpose()]. *)
Definition opt_conv {A B} (f : A → conv B) (v : option A) : conv (option B) :=
  match v with Some v => b ← f v; Ok (Some b) | None => Ok None end.
Definition opt_usize (what : str) (v : option Z) : conv (option Z) := opt_conv (to_usize what) v.

(** ** Enums *)

(** What [enum_map!] generates for a type: its name, its values and the
    values back; zero is UNSPECIFIED. *)
Class EnumMap (R : Type) := {
  enum_what : str;
  enum_i32 : R → Z;
  enum_of_i32 : Z → option R;
}.
(** [Wire::<R>::try_from]. *)
Definition wire_try_from {R} `{EnumMap R} (v : Z) : conv R :=
  match enum_of_i32 v with Some r => Ok r | None => Err (unspecified (enum_what (R:=R)) v) end.
Definition enum_field {R} `{EnumMap R} (what : str) (v : Z) : conv R :=
  match wire_try_from v with Err e => Err (what ++ lit ": " ++ e) | r => r end.
Definition opt_enum_field {R} `{EnumMap R} (what : str) (v : option Z) : conv (option R) :=
  opt_conv (enum_field what) v.

#[export] Instance NodeKind_map : EnumMap NodeKind :=
  {| enum_what := lit "NodeKind"; enum_i32 := NodeKind_i32; enum_of_i32 := NodeKind_of_i32 |}.
#[export] Instance SymbolKind_map : EnumMap SymbolKind :=
  {| enum_what := lit "SymbolKind";
     enum_i32 k := match k with
       | SKModule => 1 | SKType => 2 | SKFunction => 3 | SKMethod => 4 | SKVariable => 5 | SKConstant => 6
       | SKOther => 7 end;
     enum_of_i32 v :=
       if v =? 1 then Some SKModule else if v =? 2 then Some SKType else if v =? 3 then Some SKFunction
       else if v =? 4 then Some SKMethod else if v =? 5 then Some SKVariable
       else if v =? 6 then Some SKConstant else if v =? 7 then Some SKOther else None |}.
#[export] Instance TokenClass_map : EnumMap TokenClass :=
  {| enum_what := lit "TokenClass";
     enum_i32 k := match k with
       | Identifier => 1 | Keyword => 2 | Literal => 3 | Operator => 4 | Punctuation => 5 | Comment => 6
       | TCOther => 7 end;
     enum_of_i32 v :=
       if v =? 1 then Some Identifier else if v =? 2 then Some Keyword else if v =? 3 then Some Literal
       else if v =? 4 then Some Operator else if v =? 5 then Some Punctuation
       else if v =? 6 then Some Comment else if v =? 7 then Some TCOther else None |}.
#[export] Instance Grain_map : EnumMap Grain :=
  {| enum_what := lit "Grain";
     enum_i32 k := match k with
       | GToken => 1 | GSymbol => 2 | GMethod => 3 | GClass => 4 | GFile => 5 | GRepo => 6 | GOrg => 7 end;
     enum_of_i32 v :=
       if v =? 1 then Some GToken else if v =? 2 then Some GSymbol else if v =? 3 then Some GMethod
       else if v =? 4 then Some GClass else if v =? 5 then Some GFile
       else if v =? 6 then Some GRepo else if v =? 7 then Some GOrg else None |}.

(** ** Messages *)

Module Pb.
Record Position := mkPosition { po_byte : Z; po_line : Z; po_col : Z }.
Record Span := mkSpan {
  sp_start : Z; sp_end : Z; sp_start_line : Z; sp_start_col : Z; sp_end_line : Z; sp_end_col : Z }.
Record Node := mkNode {
  no_id : Z; no_parent : option Z; no_kind : Z; no_name : str; no_language : option str;
  no_symbol_kind : option Z; no_lang_kind : option str; no_token_class : option Z; no_has_errors : bool;
  no_origin : option str; no_fingerprint : option str; no_span : option Span; no_encoding : option str;
  no_lossy : bool }.
Record Query := mkQuery {
  qu_text : str; qu_language : option str; qu_org : option str; qu_repo : option str; qu_class : option Z;
  qu_grain : Z; qu_symbol_kind : option str; qu_limit : option Z; qu_offset : option Z }.
Record SymbolQuery := mkSymbolQuery {
  sy_pattern : str; sy_kind : option str; sy_language : option str; sy_org : option str; sy_repo : option str;
  sy_file : option str; sy_limit : option Z; sy_offset : option Z; sy_exact_case : bool }.
Record Hit := mkHit {
  hi_grain : Z; hi_org : str; hi_repo : option str; hi_file : option str; hi_language : option str;
  hi_symbol : option str; hi_symbol_kind : option Z; hi_lang_kind : option str; hi_token_class : option Z;
  hi_span : option Span; hi_count : Z; hi_no_symbols : bool; hi_no_matching_symbol : bool;
  hi_encoding : option str; hi_lossy : bool; hi_name_pos : option Position }.
Record SymbolHit := mkSymbolHit {
  si_org : str; si_repo : str; si_file : str; si_language : option str; si_name : str; si_qualified : str;
  si_kind : Z; si_lang_kind : option str; si_span : option Span; si_owner : option str;
  si_encoding : option str; si_lossy : bool; si_name_pos : option Position }.
Record LanguageInfo := mkLanguageInfo { la_files : Z; la_symbols : Z; la_tokens : Z; la_symbol_kinds : gmap str Z }.
Record RepoInfo := mkRepoInfo {
  re_org : str; re_repo : str; re_files : Z; re_languages : gmap str LanguageInfo;
  re_token_classes : gmap str Z; re_open_batch : bool; re_encodings : gmap str Z; re_lossy : Z }.
Record ExtractorGap := mkExtractorGap {
  ga_org : str; ga_repo : str; ga_language : str; ga_stored_version : str; ga_symbols : Z }.
Record IngestStats := mkIngestStats {
  in_file_id : Z; in_symbols : Z; in_tokens : Z; in_replaced : bool; in_unchanged : bool;
  in_has_errors : bool; in_path : str; in_language : str; in_encoding : option str; in_lossy : bool;
  in_span_warning : option str }.
Record VacuumStats := mkVacuumStats { va_terms_removed : Z; va_terms_kept : Z }.
Record SymbolDecl := mkSymbolDecl {
  de_name : str; de_kind : Z; de_lang_kind : option str; de_span : option Span; de_owner : option str }.
Record TokenDecl := mkTokenDecl { to_text : str; to_class : Z; to_span : option Span }.
Record Extraction := mkExtraction { xt_symbols : list SymbolDecl; xt_tokens : list TokenDecl; xt_has_errors : bool }.
Record FileBytes := mkFileBytes {
  fb_path : str; fb_bytes : list Z; fb_language : option str; fb_origin : option str;
  fb_encoding_hint : option str; fb_strict_encoding : bool }.
(** [FileResult.result]. *)
Definition FileResult : Type := option (IngestStats + StoreErrorDetail).
(** [View.v]. *)
Inductive V := Mode (m : Z) | SnapshotId (id : Z).
End Pb.

(** ** Values to messages *)

Definition span_into (s : Span) : Pb.Span :=
  Pb.mkSpan (start s) (end_ s) (start_line s) (start_col s) (end_line s) (end_col s).
Definition span_from (s : Pb.Span) : conv Span :=
  Ok (mkSpan (Pb.sp_start s) (Pb.sp_end s) (Pb.sp_start_line s) (Pb.sp_start_col s) (Pb.sp_end_line s)
        (Pb.sp_end_col s)).
Definition position_into (p : Position) : Pb.Position := Pb.mkPosition (p_byte p) (p_line p) (p_col p).
Definition position_from (p : Pb.Position) : Position :=
  mkPosition (Pb.po_byte p) (Pb.po_line p) (Pb.po_col p).

Definition node_into (n : Node) : Pb.Node :=
  Pb.mkNode (n_id n) (n_parent n) (enum_i32 (n_kind n)) (n_name n) (n_language n)
    (enum_i32 <$> n_symbol_kind n) (n_lang_kind n) (enum_i32 <$> n_token_class n) (n_has_errors n)
    (n_origin n) (n_fingerprint n) (span_into <$> n_span n) (n_encoding n) (n_lossy n).

Definition query_into (q : Query) : Pb.Query :=
  Pb.mkQuery (q_text q) (q_language q) (q_org q) (q_repo q) (enum_i32 <$> q_class q) (enum_i32 (q_grain q))
    (q_symbol_kind q) (q_limit q) (q_offset q).
Definition query_from (q : Pb.Query) : conv Query :=
  class ← opt_enum_field (lit "Query.class") (Pb.qu_class q);
  grain ← enum_field (lit "Query.grain") (Pb.qu_grain q);
  limit ← opt_usize (lit "Query.limit") (Pb.qu_limit q);
  offset ← opt_usize (lit "Query.offset") (Pb.qu_offset q);
  Ok (mkQuery (Pb.qu_text q) (Pb.qu_language q) (Pb.qu_org q) (Pb.qu_repo q) class grain
        (Pb.qu_symbol_kind q) limit offset).

Definition symbol_query_into (q : SymbolQuery) : Pb.SymbolQuery :=
  Pb.mkSymbolQuery (sq_pattern q) (sq_kind q) (sq_language q) (sq_org q) (sq_repo q) (sq_file q) (sq_limit q)
    (sq_offset q) (sq_exact_case q).
Definition symbol_query_from (q : Pb.SymbolQuery) : conv SymbolQuery :=
  limit ← opt_usize (lit "SymbolQuery.limit") (Pb.sy_limit q);
  offset ← opt_usize (lit "SymbolQuery.offset") (Pb.sy_offset q);
  Ok (mkSymbolQuery (Pb.sy_pattern q) (Pb.sy_kind q) (Pb.sy_language q) (Pb.sy_org q) (Pb.sy_repo q)
        (Pb.sy_file q) limit offset (Pb.sy_exact_case q)).

Definition hit_into (h : Hit) : Pb.Hit :=
  Pb.mkHit (enum_i32 (h_grain h)) (h_org h) (h_repo h) (h_file h) (h_language h) (h_symbol h)
    (enum_i32 <$> h_symbol_kind h) (h_lang_kind h) (enum_i32 <$> h_token_class h) (span_into <$> h_span h)
    (h_count h) (h_no_symbols h) (h_no_matching_symbol h) (h_encoding h) (h_lossy h)
    (position_into <$> h_name_pos h).
Definition hit_from (h : Pb.Hit) : conv Hit :=
  grain ← enum_field (lit "Hit.grain") (Pb.hi_grain h);
  span ← opt_conv span_from (Pb.hi_span h);
  let name_pos :=
    match Pb.hi_name_pos h with
    | Some p => Some (position_from p)
    | None =>
        if is_symbolic grain && bool_decide (is_Some (Pb.hi_symbol h)) && negb (Pb.hi_no_matching_symbol h)
        then start_of <$> span else None
    end in
  symbol_kind ← opt_enum_field (lit "Hit.symbol_kind") (Pb.hi_symbol_kind h);
  token_class ← opt_enum_field (lit "Hit.token_class") (Pb.hi_token_class h);
  count ← to_usize (lit "Hit.count") (Pb.hi_count h);
  Ok (mkHit grain (Pb.hi_org h) (Pb.hi_repo h) (Pb.hi_file h) (Pb.hi_language h) (Pb.hi_symbol h) symbol_kind
        (Pb.hi_lang_kind h) token_class span name_pos count (Pb.hi_no_symbols h) (Pb.hi_no_matching_symbol h)
        (Pb.hi_encoding h) (Pb.hi_lossy h)).

(** [Position::name_or_start]. *)
Definition name_or_start (name_pos : option Position) (span : option Span) : option Position :=
  match name_pos with Some p => Some p | None => start_of <$> span end.
Definition symbol_hit_into (h : SymbolHit) : Pb.SymbolHit :=
  Pb.mkSymbolHit (sh_org h) (sh_repo h) (sh_file h) (sh_language h) (sh_name h) (sh_qualified h)
    (enum_i32 (sh_kind h)) (sh_lang_kind h) (span_into <$> sh_span h) (sh_owner h) (sh_encoding h) (sh_lossy h)
    (position_into <$> sh_name_pos h).
Definition symbol_hit_from (h : Pb.SymbolHit) : conv SymbolHit :=
  span ← opt_conv span_from (Pb.si_span h);
  let name_pos := name_or_start (position_from <$> Pb.si_name_pos h) span in
  kind ← enum_field (lit "SymbolHit.kind") (Pb.si_kind h);
  Ok (mkSymbolHit (Pb.si_org h) (Pb.si_repo h) (Pb.si_file h) (Pb.si_language h) (Pb.si_name h)
        (Pb.si_qualified h) kind (Pb.si_lang_kind h) span name_pos (Pb.si_owner h) (Pb.si_encoding h)
        (Pb.si_lossy h)).

(** ** Summaries and statistics *)

(** A map converted entry by entry. A [u64] fits a 64-bit [usize], so no entry
    fails and their order does not matter. *)
Definition map_conv {A B} (f : A → conv B) (m : gmap str A) : conv (gmap str B) :=
  l ← collect (λ e : str * A, b ← f e.2; Ok (e.1, b)) (map_to_list m);
  Ok (list_to_map l).
Definition counts_from (what : str) (m : gmap str Z) : conv (gmap str Z) := map_conv (to_usize what) m.

Definition language_info_into (l : LanguageInfo) : Pb.LanguageInfo :=
  Pb.mkLanguageInfo (li_files l) (li_symbols l) (li_tokens l) (li_symbol_kinds l).
Definition language_info_from (l : Pb.LanguageInfo) : conv LanguageInfo :=
  files ← to_usize (lit "LanguageInfo.files") (Pb.la_files l);
  symbols ← to_usize (lit "LanguageInfo.symbols") (Pb.la_symbols l);
  tokens ← to_usize (lit "LanguageInfo.tokens") (Pb.la_tokens l);
  kinds ← counts_from (lit "LanguageInfo.symbol_kinds") (Pb.la_symbol_kinds l);
  Ok (mkLanguageInfo files symbols tokens kinds).
Definition repo_info_into (r : RepoInfo) : Pb.RepoInfo :=
  Pb.mkRepoInfo (ri_org r) (ri_repo r) (ri_files r) (language_info_into <$> ri_languages r)
    (ri_token_classes r) (ri_open_batch r) (ri_encodings r) (ri_lossy r).
Definition repo_info_from (r : Pb.RepoInfo) : conv RepoInfo :=
  files ← to_usize (lit "RepoInfo.files") (Pb.re_files r);
  languages ← map_conv language_info_from (Pb.re_languages r);
  classes ← counts_from (lit "RepoInfo.token_classes") (Pb.re_token_classes r);
  encodings ← counts_from (lit "RepoInfo.encodings") (Pb.re_encodings r);
  lossy ← to_usize (lit "RepoInfo.lossy") (Pb.re_lossy r);
  Ok (mkRepoInfo (Pb.re_org r) (Pb.re_repo r) files languages classes (Pb.re_open_batch r) encodings lossy).
Definition gap_into (g : ExtractorGap) : Pb.ExtractorGap :=
  Pb.mkExtractorGap (eg_org g) (eg_repo g) (eg_language g) (eg_stored_version g) (eg_symbols g).
Definition gap_from (g : Pb.ExtractorGap) : conv ExtractorGap :=
  symbols ← to_usize (lit "ExtractorGap.symbols") (Pb.ga_symbols g);
  Ok (mkExtractorGap (Pb.ga_org g) (Pb.ga_repo g) (Pb.ga_language g) (Pb.ga_stored_version g) symbols).
Definition stats_into (s : IngestStats) : Pb.IngestStats :=
  Pb.mkIngestStats (is_file_id s) (Z.of_nat (is_symbols s)) (Z.of_nat (is_tokens s)) (is_replaced s)
    (is_unchanged s) (is_has_errors s) (is_path s) (is_language s) (is_encoding s) (is_lossy s)
    (is_span_warning s).
Definition stats_from (s : Pb.IngestStats) : conv IngestStats :=
  symbols ← to_usize (lit "IngestStats.symbols") (Pb.in_symbols s);
  tokens ← to_usize (lit "IngestStats.tokens") (Pb.in_tokens s);
  Ok (mkIngestStats (Pb.in_file_id s) (Z.to_nat symbols) (Z.to_nat tokens) (Pb.in_replaced s)
        (Pb.in_unchanged s) (Pb.in_has_errors s) (Pb.in_path s) (Pb.in_language s) (Pb.in_encoding s)
        (Pb.in_lossy s) (Pb.in_span_warning s)).
Definition vacuum_into (s : VacuumStats) : Pb.VacuumStats :=
  Pb.mkVacuumStats (Z.of_nat (vs_terms_removed s)) (Z.of_nat (vs_terms_kept s)).
Definition vacuum_from (s : Pb.VacuumStats) : conv VacuumStats :=
  removed ← to_usize (lit "VacuumStats.terms_removed") (Pb.va_terms_removed s);
  kept ← to_usize (lit "VacuumStats.terms_kept") (Pb.va_terms_kept s);
  Ok (mkVacuumStats (Z.to_nat removed) (Z.to_nat kept)).

(** ** Extractions and files *)

Definition symbol_into (s : SymbolDecl) : Pb.SymbolDecl :=
  Pb.mkSymbolDecl (sd_name s) (enum_i32 (sd_kind s)) (sd_lang_kind s) (Some (span_into (sd_span s)))
    (sd_owner s).
Definition symbol_from (s : Pb.SymbolDecl) : conv SymbolDecl :=
  kind ← enum_field (lit "SymbolDecl.kind") (Pb.de_kind s);
  sp ← ok_or (Pb.de_span s) (missing (lit "SymbolDecl.span"));
  span ← span_from sp;
  Ok (mkSymbolDecl (Pb.de_name s) kind (Pb.de_lang_kind s) span (Pb.de_owner s)).
Definition token_into (t : TokenDecl) : Pb.TokenDecl :=
  Pb.mkTokenDecl (td_text t) (enum_i32 (td_class t)) (Some (span_into (td_span t))).
Definition token_from (t : Pb.TokenDecl) : conv TokenDecl :=
  class ← enum_field (lit "TokenDecl.class") (Pb.to_class t);
  sp ← ok_or (Pb.to_span t) (missing (lit "TokenDecl.span"));
  span ← span_from sp;
  Ok (mkTokenDecl (Pb.to_text t) class span).
Definition extraction_into (e : Extraction) : Pb.Extraction :=
  Pb.mkExtraction (symbol_into <$> ex_symbols e) (token_into <$> ex_tokens e) (ex_has_errors e).
Definition extraction_from (e : Pb.Extraction) : conv Extraction :=
  symbols ← collect symbol_from (Pb.xt_symbols e);
  tokens ← collect token_from (Pb.xt_tokens e);
  Ok (mkExtraction symbols tokens (Pb.xt_has_errors e)).

Definition index_options_into (o : IndexOptions) : bool := io_reindex o.
Definition index_options_from (reindex : bool) : IndexOptions := mkIndexOptions reindex None false.

(** [EncodingError::to_string]. *)
Definition EncodingError_display (e : EncodingError) : str :=
  match e with
  | UnknownLabel l =>
      lit "unknown encoding label `" ++ l ++
      lit "` (examples: utf-8, utf-16le, utf-16be, windows-1252, latin1, shift_jis, gbk, gb18030, euc-kr, big5, iso-2022-jp, ansi)"
  | Replacement l =>
      lit "encoding label `" ++ l ++ lit "` names the `replacement` encoding, which cannot be used as a hint"
  | UnmappedCodePage p =>
      lit "the system ANSI code page " ++ show p ++ lit " has no supported encoding; pass --encoding explicitly"
  end.

Definition file_into (f : BatchFile) : Pb.FileBytes :=
  Pb.mkFileBytes (bf_path f) (bf_bytes f) (bf_language f) (bf_origin f) (bf_encoding f) (bf_strict_encoding f).

Section encodings.
Context `{EncodingRs}.

Definition is_known_encoding_name (name : str) : bool :=
  match for_label (as_bytes name) with
  | Some e => bool_decide (e = name) && negb (bool_decide (e = REPLACEMENT))
  | None => false
  end.

Definition node_from (n : Pb.Node) : conv Node :=
  kind ← enum_field (lit "Node.kind") (Pb.no_kind n);
  symbol_kind ← opt_enum_field (lit "Node.symbol_kind") (Pb.no_symbol_kind n);
  token_class ← opt_enum_field (lit "Node.token_class") (Pb.no_token_class n);
  encoding ←
    match Pb.no_encoding n with
    | Some e =>
        if is_known_encoding_name e then Ok (Some e)
        else Err (lit "Node.encoding: unknown source encoding `" ++ e ++ lit "`")
    | None => Ok None
    end;
  span ← opt_conv span_from (Pb.no_span n);
  Ok (mkNode (Pb.no_id n) (Pb.no_parent n) kind (Pb.no_name n) (Pb.no_language n) symbol_kind
        (Pb.no_lang_kind n) token_class (Pb.no_has_errors n) (Pb.no_origin n) (Pb.no_fingerprint n)
        encoding (Pb.no_lossy n) span).
(** A page is its items and whether there are more; a batch its nodes. *)
Definition nodes_into (l : list Node) : list Pb.Node := node_into <$> l.
Definition nodes_from (l : list Pb.Node) : conv (list Node) := collect node_from l.

Definition resolved_encoding_hint (f : Pb.FileBytes) : conv (option Encoding) :=
  opt_conv (λ l,
    match hint_from_label l with
    | inl e => Ok e
    | inr e => Err (lit "FileBytes.encoding_hint: " ++ EncodingError_display e)
    end) (Pb.fb_encoding_hint f).
Definition as_batch_file (f : Pb.FileBytes) : conv BatchFile :=
  encoding ← resolved_encoding_hint f;
  Ok (mkBatchFile (Pb.fb_path f) (Pb.fb_bytes f) (Pb.fb_language f) (Pb.fb_origin f) encoding
        (Pb.fb_strict_encoding f)).
End encodings.

(** ** Results and views *)

Definition file_result_into (r : IngestStats + StoreError) : Pb.FileResult :=
  Some match r with
  | inl s => inl (stats_into s)
  | inr e => inr (detail (WireError_from e))
  end.
Definition file_result_from (r : Pb.FileResult) : conv (IngestStats + StoreError) :=
  match r with
  | None => Err (missing (lit "FileResult.result"))
  | Some (inl s) => s ← stats_from s; Ok (inl s)
  | Some (inr d) => w ← WireError_try_from d; Ok (inr (StoreError_from w))
  end.

Inductive View : Type := VLocal | VLinearizable | VSnapshot (id : Z).
Definition view_into (v : View) : option Pb.V :=
  Some match v with VLocal => Pb.Mode 0 | VLinearizable => Pb.Mode 1 | VSnapshot id => Pb.SnapshotId id end.
Definition view_from (v : option Pb.V) : conv View :=
  match v with
  | None => Ok VLocal
  | Some (Pb.SnapshotId id) => Ok (VSnapshot id)
  | Some (Pb.Mode m) =>
      if m =? 0 then Ok VLocal else if m =? 1 then Ok VLinearizable else Err (unspecified (lit "ReadMode") m)
  end.
(** The [view] field of a request; absent means LOCAL. *)
Definition view_field (v : option (option Pb.V)) : conv View :=
  match v with Some v => view_from v | None => Ok VLocal end.

(** ** Round trips *)

Ltac enum_values :=
  repeat (match goal with |- context [?v =? ?n] => destruct (Z.eqb_spec v n) as [-> |]; [by intros [= <-]|] end);
  done.

(** The values of an enum are the numbers its conversion accepts. *)
Class EnumLaws (R : Type) `{EnumMap R} := enum_law v r : enum_of_i32 v = Some r ↔ v = enum_i32 r.
#[export] Instance NodeKind_laws : EnumLaws NodeKind.
Proof.
  intros v r. split; [|intros ->; by destruct r].
  unfold enum_of_i32, NodeKind_map, NodeKind_of_i32. enum_values.
Qed.
#[export] Instance SymbolKind_laws : EnumLaws SymbolKind.
Proof.
  intros v r. split; [|intros ->; by destruct r].
  cbn. enum_values.
Qed.
#[export] Instance TokenClass_laws : EnumLaws TokenClass.
Proof.
  intros v r. split; [|intros ->; by destruct r].
  cbn. enum_values.
Qed.
#[export] Instance Grain_laws : EnumLaws Grain.
Proof.
  intros v r. split; [|intros ->; by destruct r].
  cbn. enum_values.
Qed.

(** What the parts of a message convert from. *)
Lemma enum_field_Ok {R} `{EnumLaws R} what v r : enum_field what v = Ok r ↔ v = enum_i32 r.
Proof.
  unfold enum_field, wire_try_from. rewrite <- enum_law. destruct (enum_of_i32 v); [|done].
  split; [by intros [= ->]|by intros [= ->]].
Qed.
Lemma opt_conv_Ok {A B} (f : A → conv B) (g : B → A) (P : B → Prop) v r :
  (∀ a b, f a = Ok b ↔ a = g b ∧ P b) →
  opt_conv f v = Ok r ↔ v = g <$> r ∧ ∀ b, r = Some b → P b.
Proof.
  intros Hf. destruct v as [a|]; cbn.
  - destruct (f a) as [b| |] eqn:E; cbn.
    + apply Hf in E as [-> HP]. split; [intros [= <-]; split; [done|by intros ? [= <-]]|].
      destruct r as [b'|]; cbn; [|by intros [? _]]. intros [[= Hg] HP']. f_equal. f_equal.
      pose proof (proj2 (Hf (g b) b) (conj eq_refl HP)) as E1.
      assert (f (g b) = Ok b') as E2 by (apply Hf; split; [done|by apply HP']). congruence.
    + split; [done|]. destruct r as [b|]; [|by intros [? _]]. intros [[= ->] HP].
      rewrite (proj2 (Hf _ b) (conj eq_refl (HP b eq_refl))) in E. done.
    + split; [done|]. destruct r as [b|]; [|by intros [? _]]. intros [[= ->] HP].
      rewrite (proj2 (Hf _ b) (conj eq_refl (HP b eq_refl))) in E. done.
  - split; [by intros [= <-]|]. destruct r; [by intros [? _]|done].
Qed.
Lemma opt_enum_field_Ok {R} `{EnumLaws R} what v r : opt_enum_field what v = Ok r ↔ v = enum_i32 <$> r.
Proof.
  unfold opt_enum_field. rewrite (opt_conv_Ok _ enum_i32 (λ _, True)); [naive_solver|].
  intros a b. rewrite enum_field_Ok. naive_solver.
Qed.
Lemma span_from_Ok m s : span_from m = Ok s ↔ m = span_into s.
Proof. destruct m, s. unfold span_from, span_into. cbn. naive_solver. Qed.
Lemma opt_span_Ok v r : opt_conv span_from v = Ok r ↔ v = span_into <$> r.
Proof.
  rewrite (opt_conv_Ok _ span_into (λ _, True)); [naive_solver|]. intros a b. rewrite span_from_Ok. naive_solver.
Qed.
Lemma to_usize_Ok what v r : to_usize what v = Ok r ↔ v = r ∧ r < 2 ^ 64.
Proof. unfold to_usize. case_match eqn:E; split; [intros [= <-]; split; [done|lia]|by intros [-> _]|done|intros [-> ?]; lia]. Qed.

Definition fits (v : option Z) : Prop := ∀ b, v = Some b → b < 2 ^ 64.
Lemma opt_usize_Ok what v r : opt_usize what v = Ok r ↔ v = r ∧ fits r.
Proof.
  unfold opt_usize. rewrite (opt_conv_Ok _ id (λ b, b < 2 ^ 64)); [by rewrite option_fmap_id|]. apply to_usize_Ok.
Qed.

(** A bind that ends well, as a conjunction. *)
Lemma bind_Ok_iff {E A B} (m : outcome E A) (f : A → outcome E B) b :
  (m ≫= f) = Ok b ↔ ∃ a, m = Ok a ∧ f a = Ok b.
Proof. split; [apply bind_Ok|]. by intros (a & -> & Hf). Qed.

Lemma collect_inverse {E A B} (f : A → outcome E B) (g : B → A) l r :
  (∀ a b, f a = Ok b ↔ a = g b) → collect f l = Ok r ↔ l = g <$> r.
Proof.
  intros Hf. rewrite collect_Forall2. split.
  - induction 1 as [|a b l r Hab _ IH]; [done|]. apply Hf in Hab as ->. by rewrite IH.
  - intros ->. apply Forall2_fmap_l, Forall_Forall2_diag, Forall_true. intros b. by apply Hf.
Qed.

#[local] Arguments enum_i32 : simpl never.
#[local] Arguments enum_field : simpl never.
#[local] Arguments opt_enum_field : simpl never.
#[local] Arguments span_from : simpl never.
#[local] Arguments span_into : simpl never.
#[local] Arguments to_usize : simpl never.
#[local] Arguments opt_usize : simpl never.

(** Peel the binds of a conversion that ends well, and put each part in the
    form of its lemma. *)
Ltac parts :=
  repeat match goal with
  | H : (_ ≫= _) = Ok _ |- _ =>
      let a := fresh "a" in let Ha := fresh "Ha" in apply bind_Ok in H as (a & Ha & H)
  | H : enum_field _ _ = Ok _ |- _ => apply enum_field_Ok in H
  | H : opt_enum_field _ _ = Ok _ |- _ => apply opt_enum_field_Ok in H
  | H : opt_conv span_from _ = Ok _ |- _ => apply opt_span_Ok in H
  | H : span_from _ = Ok _ |- _ => apply span_from_Ok in H
  | H : to_usize _ _ = Ok _ |- _ => apply to_usize_Ok in H as [H ?]
  | H : opt_usize _ _ = Ok _ |- _ => apply opt_usize_Ok in H as [H ?]
  | H : ok_or ?o _ = Ok _ |- _ => destruct o eqn:?; [injection H as <-|discriminate H]
  | H : Ok _ = Ok _ |- _ => injection H as <-
  end.
(** Compute a conversion part by part. *)
Ltac converts :=
  repeat first
    [ rewrite (proj2 (enum_field_Ok _ _ _) eq_refl)
    | rewrite (proj2 (opt_enum_field_Ok _ _ _) eq_refl)
    | rewrite (proj2 (opt_span_Ok _ _) eq_refl)
    | rewrite (proj2 (span_from_Ok _ _) eq_refl)
    | match goal with |- context [to_usize ?w ?v] =>
        rewrite (proj2 (to_usize_Ok w v v)) by (split; [done|first [assumption|lia]]) end
    | match goal with |- context [opt_usize ?w ?v] =>
        rewrite (proj2 (opt_usize_Ok w v v)) by (split; done) end
    | progress cbn [mbind outcome_mbind outcome_bind ok_or] ].

Lemma symbol_from_Ok m s : symbol_from m = Ok s ↔ m = symbol_into s.
Proof.
  split.
  - unfold symbol_from. intros Hr. parts. destruct m; cbn in *; subst. done.
  - intros ->. unfold symbol_from, symbol_into. cbn. converts. by destruct s.
Qed.
Lemma token_from_Ok m t : token_from m = Ok t ↔ m = token_into t.
Proof.
  split.
  - unfold token_from. intros Hr. parts. destruct m; cbn in *; subst. done.
  - intros ->. unfold token_from, token_into. cbn. converts. by destruct t.
Qed.
Lemma extraction_from_Ok m e : extraction_from m = Ok e ↔ m = extraction_into e.
Proof.
  unfold extraction_from. rewrite bind_Ok_iff. setoid_rewrite bind_Ok_iff.
  setoid_rewrite (collect_inverse _ _ _ _ symbol_from_Ok). setoid_rewrite (collect_inverse _ _ _ _ token_from_Ok).
  split.
  - intros (syms & Hs & toks & Ht & [= <-]). destruct m; cbn in *; subst. done.
  - intros ->. exists (ex_symbols e). split; [done|]. exists (ex_tokens e). split; [done|]. by destruct e.
Qed.
Lemma query_from_Ok m q : query_from m = Ok q ↔ m = query_into q ∧ fits (q_limit q) ∧ fits (q_offset q).
Proof.
  split.
  - unfold query_from. intros Hr. parts. destruct m; cbn in *; subst. done.
  - intros (-> & Hl & Ho). unfold query_from, query_into. cbn. converts. by destruct q.
Qed.
Lemma symbol_query_from_Ok m q :
  symbol_query_from m = Ok q ↔ m = symbol_query_into q ∧ fits (sq_limit q) ∧ fits (sq_offset q).
Proof.
  split.
  - unfold symbol_query_from. intros Hr. parts. destruct m; cbn in *; subst. done.
  - intros (-> & Hl & Ho). unfold symbol_query_from, symbol_query_into. cbn. converts. by destruct q.
Qed.

Lemma map_conv_inverse {A B} (f : A → conv B) (g : B → A) (m : gmap str B) :
  map_Forall (λ _ b, f (g b) = Ok b) m → map_conv f (g <$> m) = Ok m.
Proof.
  intros Hm. unfold map_conv.
  assert (collect (λ e : str * A, b ← f e.2; Ok (e.1, b)) (map_to_list (g <$> m)) = Ok (map_to_list m)) as ->.
  { rewrite map_to_list_fmap. apply collect_Forall2, Forall2_fmap_l, Forall_Forall2_diag, Forall_forall.
    intros [k b] Hkb%elem_of_map_to_list. cbn. by rewrite (Hm k b Hkb). }
  cbn. by rewrite list_to_map_to_list.
Qed.
Lemma counts_from_inverse what m : map_Forall (λ _ n, n < 2 ^ 64) m → counts_from what m = Ok m.
Proof.
  intros Hm. rewrite <- (map_fmap_id m) at 1. apply (map_conv_inverse _ id).
  intros k b Hkb. apply to_usize_Ok. split; [done|]. by apply (Hm k).
Qed.

(** A picked symbol's place is known where its span is. *)
Definition hit_placed (h : Hit) : Prop :=
  is_symbolic (h_grain h) = true → is_Some (h_symbol h) → h_no_matching_symbol h = false →
  is_Some (h_span h) → is_Some (h_name_pos h).
Definition symbol_hit_placed (h : SymbolHit) : Prop := is_Some (sh_span h) → is_Some (sh_name_pos h).

Lemma hit_roundtrip h : h_count h < 2 ^ 64 → hit_placed h → hit_from (hit_into h) = Ok h.
Proof.
  intros Hc Hp. unfold hit_from, hit_into. cbn. converts. destruct h as [g o r f l s sk lk tc sp np c ns nm en lo].
  unfold hit_placed in Hp. cbn in *. do 2 f_equal. destruct np as [[]|]; [done|]. cbn.
  destruct (is_symbolic g); [|done]. case_bool_decide; [|done]. destruct nm; [done|]. destruct sp; [|done].
  destruct Hp; done.
Qed.
Lemma symbol_hit_roundtrip h : symbol_hit_placed h → symbol_hit_from (symbol_hit_into h) = Ok h.
Proof.
  intros Hp. unfold symbol_hit_from, symbol_hit_into. cbn. converts. destruct h. unfold symbol_hit_placed in Hp.
  cbn in *. do 2 f_equal. destruct sh_name_pos as [[]|]; [done|]. destruct sh_span; [|done]. by destruct Hp.
Qed.

Definition language_fits (l : LanguageInfo) : Prop :=
  li_files l < 2 ^ 64 ∧ li_symbols l < 2 ^ 64 ∧ li_tokens l < 2 ^ 64 ∧ map_Forall (λ _ n, n < 2 ^ 64) (li_symbol_kinds l).
Definition repo_fits (r : RepoInfo) : Prop :=
  ri_files r < 2 ^ 64 ∧ ri_lossy r < 2 ^ 64 ∧ map_Forall (λ _ l, language_fits l) (ri_languages r) ∧
  map_Forall (λ _ n, n < 2 ^ 64) (ri_token_classes r) ∧ map_Forall (λ _ n, n < 2 ^ 64) (ri_encodings r).
Lemma language_info_roundtrip l : language_fits l → language_info_from (language_info_into l) = Ok l.
Proof.
  intros (Hf & Hs & Ht & Hk). unfold language_info_from, language_info_into. cbn. converts.
  rewrite counts_from_inverse by done. by destruct l.
Qed.
Lemma repo_info_roundtrip r : repo_fits r → repo_info_from (repo_info_into r) = Ok r.
Proof.
  intros (Hf & Hl & Hm & Ht & He). unfold repo_info_from, repo_info_into. cbn. converts.
  rewrite map_conv_inverse by (intros k l Hkl; apply language_info_roundtrip; by apply (Hm k)). cbn.
  rewrite !counts_from_inverse by done. cbn. converts. by destruct r.
Qed.

Definition stats_fit (s : IngestStats) : Prop := Z.of_nat (is_symbols s) < 2 ^ 64 ∧ Z.of_nat (is_tokens s) < 2 ^ 64.
Lemma stats_roundtrip s : stats_fit s → stats_from (stats_into s) = Ok s.
Proof.
  intros [Hs Ht]. unfold stats_from, stats_into. cbn. converts. rewrite !Nat2Z.id. by destruct s.
Qed.

Lemma file_result_roundtrip r :
  match r with inl s => stats_fit s | inr _ => True end →
  file_result_from (file_result_into r) = Ok match r with inl s => inl s | inr e => inr (over_wire e) end.
Proof.
  unfold file_result_from, file_result_into. destruct r as [s|e]; intros Hf; [by rewrite stats_roundtrip|].
  assert (WireError_from e = wire_view e) as -> by (destruct e; try reflexivity; match goal with x : SchemaError |- _ => by destruct x end).
  destruct (detail_over_wire e) as (w & -> & <-). done.
Qed.
Lemma view_roundtrip v : view_from (view_into v) = Ok v.
Proof. by destruct v. Qed.

Section encoded.
Context `{EncodingRs}.

Lemma node_from_Ok m n :
  node_from m = Ok n ↔ m = node_into n ∧ ∀ e, n_encoding n = Some e → is_known_encoding_name e = true.
Proof.
  split.
  - unfold node_from. intros Hr. parts.
    assert (Pb.no_encoding m = a2 ∧ ∀ e, a2 = Some e → is_known_encoding_name e = true) as [He Hk].
    { destruct (Pb.no_encoding m) as [e|]; [|by injection Ha2 as <-].
      destruct (is_known_encoding_name e) eqn:E; [|done]. injection Ha2 as <-. split; [done|]. by intros ? [= <-]. }
    destruct m; cbn in *; subst. done.
  - intros [-> Hk]. unfold node_from, node_into. cbn. converts.
    assert (∀ o : option str, (∀ e, o = Some e → is_known_encoding_name e = true) →
      match o with
      | Some e => if is_known_encoding_name e then Ok (Some e)
                  else Err (lit "Node.encoding: unknown source encoding `" ++ e ++ lit "`")
      | None => Ok None
      end = (Ok o : conv _)) as Ho by (intros [e|] Ho; [by rewrite Ho|done]).
    rewrite Ho by done. cbn. converts. by destruct n.
Qed.

(** The client sends the name of the encoding; the server takes it as a label. *)
Lemma file_roundtrip f :
  (∀ e, bf_encoding f = Some e → is_known_encoding_name e = true ∧
     trim_end_matches is_whitespace (trim_start_matches is_whitespace e) = e) →
  as_batch_file (file_into f) = Ok f.
Proof.
  intros He. unfold as_batch_file, resolved_encoding_hint, file_into. destruct f as [p b l o [e|] s]; cbn; [|done].
  destruct (He e eq_refl) as [Hk Ht]. unfold hint_from_label. rewrite Ht. unfold is_known_encoding_name in Hk.
  destruct (for_label (as_bytes e)) as [e'|]; [|done]. repeat case_bool_decide; subst; done.
Qed.
End encoded.

(** C19: What the client and the server send each other arrives as it was sent.
    A node, an extraction and a query are read from a message exactly when the
    message is theirs, so no other message is taken for one and nothing is
    lost: a node must name its encoding as the encoding library does, a
    query's bounds must fit the machine. Hits arrive whole unless a picked
    symbol with a span has no place of its own, when the span's start is its
    place; summaries and results within a machine word arrive whole, an error
    as [over_wire] says; a file's encoding is read from the name it was sent
    as; views arrive, and a request without one is local. *)
Theorem wire_roundtrip `{EncodingRs} :
  (∀ m n, node_from m = Ok n ↔
     m = node_into n ∧ ∀ e, n_encoding n = Some e → is_known_encoding_name e = true) ∧
  (∀ m e, extraction_from m = Ok e ↔ m = extraction_into e) ∧
  (∀ m q, query_from m = Ok q ↔ m = query_into q ∧ fits (q_limit q) ∧ fits (q_offset q)) ∧
  (∀ m q, symbol_query_from m = Ok q ↔ m = symbol_query_into q ∧ fits (sq_limit q) ∧ fits (sq_offset q)) ∧
  (∀ h, h_count h < 2 ^ 64 → hit_placed h → hit_from (hit_into h) = Ok h) ∧
  (∀ h, symbol_hit_placed h → symbol_hit_from (symbol_hit_into h) = Ok h) ∧
  (∀ r, repo_fits r → repo_info_from (repo_info_into r) = Ok r) ∧
  (∀ r, match r with inl s => stats_fit s | inr _ => True end →
     file_result_from (file_result_into r) = Ok match r with inl s => inl s | inr e => inr (over_wire e) end) ∧
  (∀ f, (∀ e, bf_encoding f = Some e → is_known_encoding_name e = true ∧
           trim_end_matches is_whitespace (trim_start_matches is_whitespace e) = e) →
     as_batch_file (file_into f) = Ok f) ∧
  (∀ v, view_field (Some (view_into v)) = Ok v) ∧ view_field None = Ok VLocal.
Proof.
  split_and!.
  - apply node_from_Ok.
  - apply extraction_from_Ok.
  - apply query_from_Ok.
  - apply symbol_query_from_Ok.
  - apply hit_roundtrip.
  - apply symbol_hit_roundtrip.
  - apply repo_info_roundtrip.
  - apply file_result_roundtrip.
  - apply file_roundtrip.
  - apply view_roundtrip.
  - done.
Qed.

(** An encoding library that knows UTF-8 by its name. *)
Definition named_rs : EncodingRs.
Proof.
  refine {| for_bom := bom_of; for_label b := if decide (b = as_bytes UTF_8) then Some UTF_8 else None;
    decode_without_bom_handling e b := match sample_decoder e b with Some t => (t, false) | None => ([0xFFFD], true) end;
    decode_without_replacement := sample_decoder; guess _ := WINDOWS_1252 |}.
  - done.
  - intros e b t. destruct (sample_decoder e b); naive_solver.
  - intros b. unfold sample_decoder. by rewrite decide_True.
  - intros b _. unfold sample_decoder. by eexists.
Defined.
#[local] Existing Instance named_rs.
Definition utf8_node : Node :=
  mkNode 4 (Some 3) File (lit "a.rs") (Some (lit "rust")) None None None false None None (Some UTF_8) false None.
Lemma wire_roundtrip_witness :
  node_from (node_into utf8_node) = Ok utf8_node ∧
  as_batch_file (file_into (mkBatchFile (lit "a.rs") [104; 105] None None (Some UTF_8) true))
    = Ok (mkBatchFile (lit "a.rs") [104; 105] None None (Some UTF_8) true).
Proof.
  destruct wire_roundtrip as (Hn & _ & _ & _ & _ & _ & _ & _ & Hf & _). split.
  - apply Hn. split; [reflexivity|]. intros e [= <-]. vm_compute. reflexivity.
  - apply Hf. intros e [= <-]. split; vm_compute; reflexivity.
Defined.
