(* ===== verification/RaftLog.v ===== *)
(** * Raft types and the Raft log

    [graph-server/src/raft/types.rs]: the entries the nodes agree on and what
    applying one answers. openraft's ids and payloads are written out here;
    its cluster membership is a parameter. *)
From S2P Require Import Prelude Text Schema Table DictRev StrOps Db Write Vacuum Commit WireError.

(** [openraft::LogId]: the leader's term and node, and the index. *)
Record LogId : Set := mkLogId { lid_term : Z; lid_node_id : Z; lid_index : Z }.
#[global] Instance LogId_eq_dec : EqDecision LogId.
Proof. solve_decision. Defined.

(** [openraft::EntryPayload]; a [LogRequest] is the bytes of its command. *)
Inductive EntryPayload (M : Type) : Type :=
  | Blank
  | Normal (command : list Z)
  | Membership (m : M).
Arguments Blank {M}.
Arguments Normal {M} command.
Arguments Membership {M} m.
Record Entry (M : Type) : Type := mkEntry { e_log_id : LogId; e_payload : EntryPayload M }.
Arguments mkEntry {M} e_log_id e_payload.
Arguments e_log_id {M} e.
Arguments e_payload {M} e.
Abbreviation e_index e := (lid_index (e_log_id e)).

(** [openraft::StoredMembership]. *)
Record StoredMembership (M : Type) : Type := mkStoredMembership { sm_log_id : option LogId; sm_membership : M }.
Arguments mkStoredMembership {M} sm_log_id sm_membership.
Arguments sm_log_id {M} s.
Arguments sm_membership {M} s.

(** [serde_json] for a type: writing and reading back. A failure is its text. *)
Class Json (T : Type) := {
  to_vec : T → list Z;
  from_slice : list Z → T + str;
  json_roundtrip t : from_slice (to_vec t) = inl t;
}.

Definition marker_of (log_id : LogId) : RaftMarker :=
  mkRaftMarker (lid_term log_id) (lid_index log_id) (lid_node_id log_id).
Definition log_id_of (m : RaftMarker) : LogId := mkLogId (rm_term m) (rm_node_id m) (rm_index m).

Record VacuumOutcome : Set := mkVacuumOutcome { vo_terms_removed : nat; vo_terms_kept : nat }.
Definition VacuumOutcome_from (s : VacuumStats) : VacuumOutcome :=
  mkVacuumOutcome (vs_terms_removed s) (vs_terms_kept s).
Definition VacuumStats_from (s : VacuumOutcome) : VacuumStats := mkVacuumStats (vo_terms_removed s) (vo_terms_kept s).

(** [ErrDetail] is the bytes of the error's wire form. *)
Inductive LogResponse : Type :=
  | Skipped
  | Marked
  | Index (results : list (IngestStats + list Z))
  | Ingest (stats : IngestStats)
  | Prune (removed : list str)
  | Vacuum (outcome : VacuumOutcome)
  | Failed (detail : list Z).

(** A log id of machine words. *)
Definition log_id_ok (id : LogId) : Prop := marker_ok (marker_of id).
Lemma log_id_marker id : log_id_of (marker_of id) = id.
Proof. by destruct id. Qed.

(** ** The Raft log

    [graph-server/src/raft/log_store.rs]: the log and the hard state of a node
    in two redb tables, and the framing of an entry. Every write is one
    transaction; failures of the disk, retries and the compaction of the file
    (which moves pages, not rows) are not modelled. *)

Definition K_VOTE : str := lit "vote".
Definition K_COMMITTED : str := lit "committed".
Definition K_PURGED : str := lit "last_purged".

Definition KIND_BLANK : Z := 0.
Definition KIND_NORMAL : Z := 1.
Definition KIND_MEMBERSHIP : Z := 2.

(** ** Entries *)

Section entry.
Context {M : Type} `{Json M}.

Definition encode_entry (e : Entry M) : list Z :=
  let '(kind, payload) :=
    match e_payload e with
    | Blank => (KIND_BLANK, [])
    | Normal command => (KIND_NORMAL, command)
    | Membership m => (KIND_MEMBERSHIP, to_vec m)
    end in
  [kind] ++ to_le_bytes 8 (lid_term (e_log_id e)) ++ to_le_bytes 8 (lid_node_id (e_log_id e)) ++
  to_le_bytes 8 (e_index e) ++ payload.

Definition decode_entry (bytes : list Z) : result (Entry M) :=
  if (length bytes <? 25)%nat then
    Err (Corrupt (lit "raft log entry is " ++ show (Z.of_nat (length bytes)) ++ lit " bytes, expected at least 25"))
  else
    let u i := from_le_bytes (take 8 (drop i bytes)) in
    let log_id := mkLogId (u 1%nat) (u 9%nat) (u 17%nat) in
    let payload := drop 25 bytes in
    kind ← index bytes 0;
    payload ←
      (if kind =? KIND_BLANK then Ok Blank
       else if kind =? KIND_NORMAL then Ok (Normal payload)
       else if kind =? KIND_MEMBERSHIP then
         match from_slice payload with
         | inl m => Ok (Membership m)
         | inr e => Err (Corrupt (lit "raft log membership entry: " ++ e))
         end
       else Err (Corrupt (lit "raft log entry kind " ++ show kind ++ lit " is unknown")));
    Ok (mkEntry log_id payload).
End entry.

(** ** The store *)

(** [openraft::StorageError]: what was read or written, and why it failed. *)
Inductive StorageError : Type :=
  | ReadLogs (e : StoreError)
  | ReadLogsJson (e : str)
  | ReadVote (e : StorageError).

Section tables.
Context `{Redb tbl}.
Record LogDb : Type := mkLogDb {
  ld_log : tbl Z _ _ (list Z);
  ld_meta : tbl str _ _ (list Z);
}.
End tables.
Arguments LogDb tbl : clear implicits.

(** [openraft::LogState] and what [probe] finds. *)
Record LogState : Set := mkLogState { ls_last_purged_log_id : option LogId; ls_last_log_id : option LogId }.
Record LogProbe : Set := mkLogProbe { lp_exists : bool; lp_vote : bool; lp_entries : Z; lp_purged : bool }.
Definition is_blank (p : LogProbe) : bool := negb (lp_vote p) && (lp_entries p =? 0) && negb (lp_purged p).

(** What an observer of [append] sees, in order; then openraft is told. *)
Inductive AppendEvent : Set := Committed (last_index : Z) | Flushed (last_index : Z).

Section store.
Context `{Redb tbl} {M V : Type} `{Json M} `{Json V} `{Json LogId} `{!Json (option LogId)}.
(** [StorageError::to_string]. *)
Context (StorageError_display : StorageError → str).
Implicit Types (d : LogDb tbl).

Definition open : LogDb tbl := mkLogDb tbl_empty tbl_empty.

Definition read_entry (bytes : list Z) : outcome StorageError (Entry M) :=
  match decode_entry bytes with Ok e => Ok e | Err e => Err (ReadLogs e) | Panic => Panic end.

Definition meta {T} `{Json T} d (key : str) : outcome StorageError (option T) :=
  match tbl_get (ld_meta d) key with
  | None => Ok None
  | Some v => match from_slice v with inl t => Ok (Some t) | inr e => Err (ReadLogsJson e) end
  end.
Definition set_meta {T} `{Json T} d (key : str) (value : T) : LogDb tbl :=
  mkLogDb (ld_log d) (tbl_insert key (to_vec value) (ld_meta d)).

(** [t.last()]. *)
Definition last_log_id d : outcome StorageError (option LogId) :=
  match last (tbl_iter (ld_log d)) with
  | None => Ok None
  | Some (_, v) => e ← read_entry v; Ok (Some (e_log_id e))
  end.

(** The keys of a range, removed one by one. *)
Definition delete_range d (range : Z → bool) : LogDb tbl :=
  let keys := (tbl_range range (ld_log d)).*1 in
  mkLogDb (foldl (λ t k, tbl_remove k t) (ld_log d) keys) (ld_meta d).

Definition bytes_between d (after upto : Z) : Z :=
  if upto <=? after then 0
  else foldl (λ n (row : Z * list Z), as_u64 (n + Z.of_nat (length row.2))) 0
         (tbl_range (λ k, (after <? k) && (k <=? upto)) (ld_log d)).

Definition probe (exists_ : bool) d : LogProbe :=
  if negb exists_ then mkLogProbe false false 0 false
  else mkLogProbe true (bool_decide (is_Some (tbl_get (ld_meta d) K_VOTE))) (tbl_len (ld_log d))
         (bool_decide (is_Some (tbl_get (ld_meta d) K_PURGED))).

Definition committed_index d : option Z :=
  match meta (T:=option LogId) d K_COMMITTED with Ok (Some (Some l)) => Some (lid_index l) | _ => None end.

Definition storage_err {A} (m : outcome StorageError A) : result A :=
  match m with
  | Ok a => Ok a
  | Err e => Err (Storage (lit "raft log: " ++ StorageError_display e))
  | Panic => Panic
  end.
Definition last_index d : result (option Z) :=
  l ← storage_err (last_log_id d);
  purged ← storage_err (meta (T:=LogId) d K_PURGED);
  Ok (lid_index <$> match l with Some l => Some l | None => purged end).

Definition len d : Z := tbl_len (ld_log d).
Definition is_empty d : bool := len d =? 0.

(** ** What openraft calls *)

Definition try_get_log_entries d (range : Z → bool) : outcome StorageError (list (Entry M)) :=
  collect (λ row : Z * list Z, read_entry row.2) (tbl_range range (ld_log d)).

Definition get_log_state d : outcome StorageError LogState :=
  last_purged ← meta (T:=LogId) d K_PURGED;
  l ← last_log_id d;
  Ok (mkLogState last_purged match l with Some id => Some id | None => last_purged end).

Definition save_vote d (vote : V) : LogDb tbl := set_meta d K_VOTE vote.
Definition read_vote d : outcome StorageError (option V) :=
  match meta d K_VOTE with Ok v => Ok v | Err e => Err (ReadVote e) | Panic => Panic end.
Definition save_committed d (committed : option LogId) : LogDb tbl := set_meta d K_COMMITTED committed.
Definition read_committed d : outcome StorageError (option LogId) := meta d K_COMMITTED.

Definition append d (entries : list (Entry M)) : LogDb tbl * list AppendEvent :=
  let '(t, last) :=
    foldl (λ '(t, _) e, (tbl_insert (e_index e) (encode_entry e) t, e_index e)) (ld_log d, 0) entries in
  (mkLogDb t (ld_meta d), [Committed last; Flushed last]).
Definition truncate d (log_id : LogId) : LogDb tbl := delete_range d (λ k, lid_index log_id <=? k).
Definition purge d (log_id : LogId) : LogDb tbl :=
  delete_range (set_meta d K_PURGED log_id) (λ k, k <=? lid_index log_id).
End store.
