(* ===== verification/RaftLogSpec.v ===== *)
(** * The Raft log is a log

    What openraft expects of its log storage, as a list of entries above a
    purge point with the vote and the commit point beside it, and that
    [RaftLog] implements it: every sequence of calls openraft makes leaves
    the tables of the list the calls describe, and every read answers from
    that list. *)
From S2P Require Import Prelude Text StrOps Schema Table DictRev Db Write Commit Vacuum WireError RaftLog.

(** ** Framing *)
Section framing.
Context {M : Type} `{Json M}.

Lemma word_at (b rest : list Z) v :
  u64 v → from_le_bytes (take 8 (drop (length b) (b ++ to_le_bytes 8 v ++ rest))) = v.
Proof.
  intros Hv. rewrite drop_app_length, take_app_le, take_ge by (rewrite to_le_bytes_length; lia).
  by apply from_to_le_bytes.
Qed.

Definition frame (k t n i : Z) (pay : list Z) : list Z :=
  [k] ++ to_le_bytes 8 t ++ to_le_bytes 8 n ++ to_le_bytes 8 i ++ pay.
Lemma frame_parts k t n i pay :
  u64 t → u64 n → u64 i →
  (length (frame k t n i pay) <? 25)%nat = false ∧ from_le_bytes (take 8 (drop 1 (frame k t n i pay))) = t ∧
  from_le_bytes (take 8 (drop 9 (frame k t n i pay))) = n ∧
  from_le_bytes (take 8 (drop 17 (frame k t n i pay))) = i ∧ drop 25 (frame k t n i pay) = pay ∧
  frame k t n i pay !! 0%nat = Some k.
Proof.
  intros Ht Hn Hi. unfold frame. split_and!.
  - apply Nat.ltb_ge. rewrite !length_app, !to_le_bytes_length. simpl. lia.
  - exact (word_at [k] _ t Ht).
  - pose proof (word_at ([k] ++ to_le_bytes 8 t) (to_le_bytes 8 i ++ pay) n Hn) as Hw.
    rewrite <- app_assoc, length_app, to_le_bytes_length in Hw. exact Hw.
  - pose proof (word_at ([k] ++ to_le_bytes 8 t ++ to_le_bytes 8 n) pay i Hi) as Hw.
    rewrite <- !app_assoc, !length_app, !to_le_bytes_length in Hw. exact Hw.
  - pose proof (drop_app_length ([k] ++ to_le_bytes 8 t ++ to_le_bytes 8 n ++ to_le_bytes 8 i) pay) as Hd.
    rewrite <- !app_assoc, !length_app, !to_le_bytes_length in Hd. exact Hd.
  - done.
Qed.

Lemma decode_encode_entry (e : Entry M) : log_id_ok (e_log_id e) → decode_entry (encode_entry e) = Ok e.
Proof.
  intros (Ht & Hi & Hn). destruct e as [[t n i] p]. cbn in Ht, Hi, Hn.
  assert (∃ k pay, encode_entry (mkEntry (mkLogId t n i) p) = frame k t n i pay ∧
    (k, pay) = match p with Blank => (0, []) | Normal c => (1, c) | Membership m => (2, to_vec m) end)
    as (k & pay & -> & Hk) by (destruct p; by do 2 eexists).
  destruct (frame_parts k t n i pay Ht Hn Hi) as (Hl & H1 & H2 & H3 & H4 & H0).
  unfold decode_entry. rewrite Hl, H1, H2, H3, H4. unfold index. rewrite H0.
  cbn [mbind outcome_mbind outcome_bind]. destruct p; injection Hk as -> ->; cbn; [done|done|].
  by rewrite json_roundtrip.
Qed.
End framing.

(** ** The abstract log *)
Section spec.
Context `{Redb tbl} {M V : Type} `{!Json M} `{!Json V} `{!Json LogId} `{!Json (option LogId)}.
(** [Some] is written as what it holds, and an id is not read from [null]. *)
Hypothesis json_some : ∀ l : LogId, to_vec (Some l) = to_vec l.
Hypothesis json_none : ∃ e, from_slice (T:=LogId) (to_vec (None : option LogId)) = inr e.
Implicit Types (d : LogDb tbl).

Record RaftLog : Type := mkRaftLog {
  rl_entries : list (Entry M);
  rl_purged : option LogId;
  rl_vote : option V;
  rl_committed : option LogId;
}.
(** The index after a log id: where a log that was purged up to it starts. *)
Definition after_id (id : option LogId) : Z := match id with Some p => lid_index p + 1 | None => 0 end.
Definition starts (l : RaftLog) : Z := after_id (rl_purged l).

(** The entries are numbered on from [n]. *)
Definition numbered (n : Z) (es : list (Entry M)) : Prop :=
  ∀ k e, es !! k = Some e → e_index e = n + Z.of_nat k.
Definition entries_ok (es : list (Entry M)) : Prop := Forall (λ e, log_id_ok (e_log_id e)) es.
Record log_wf (l : RaftLog) : Prop := {
  wf_numbered : numbered (starts l) (rl_entries l);
  wf_entries : entries_ok (rl_entries l);
  wf_purged p : rl_purged l = Some p → log_id_ok p;
}.

(** The calls that change the log, what they do to it, and when openraft makes
    them: it appends where the log ends, and purges upwards. *)
Inductive LogOp : Type :=
  | OAppend (es : list (Entry M))
  | OTruncate (id : LogId)
  | OPurge (id : LogId)
  | OVote (v : V)
  | OCommitted (id : LogId).
Definition op_ok (l : RaftLog) (op : LogOp) : Prop :=
  match op with
  | OAppend es => numbered (starts l + Z.of_nat (length (rl_entries l))) es ∧ entries_ok es
  | OPurge id => log_id_ok id ∧ starts l ≤ lid_index id + 1
  | _ => True
  end.
Definition spec_op (l : RaftLog) (op : LogOp) : RaftLog :=
  match op with
  | OAppend es => mkRaftLog (rl_entries l ++ es) (rl_purged l) (rl_vote l) (rl_committed l)
  | OTruncate id =>
      mkRaftLog (take (Z.to_nat (lid_index id - starts l)) (rl_entries l)) (rl_purged l) (rl_vote l) (rl_committed l)
  | OPurge id =>
      mkRaftLog (drop (Z.to_nat (lid_index id + 1 - starts l)) (rl_entries l)) (Some id) (rl_vote l) (rl_committed l)
  | OVote v => mkRaftLog (rl_entries l) (rl_purged l) (Some v) (rl_committed l)
  | OCommitted id => mkRaftLog (rl_entries l) (rl_purged l) (rl_vote l) (Some id)
  end.
Definition log_op d (op : LogOp) : LogDb tbl :=
  match op with
  | OAppend es => (append d es).1
  | OTruncate id => truncate d id
  | OPurge id => purge d id
  | OVote v => save_vote d v
  | OCommitted id => save_committed d (Some id)
  end.

(** The tables of a log. *)
Record log_of d (l : RaftLog) : Prop := {
  lo_log : tbl_map (ld_log d) = map_seqZ (starts l) (encode_entry <$> rl_entries l);
  lo_purged : tbl_map (ld_meta d) !! K_PURGED = to_vec <$> rl_purged l;
  lo_vote : tbl_map (ld_meta d) !! K_VOTE = to_vec <$> rl_vote l;
  lo_committed : tbl_map (ld_meta d) !! K_COMMITTED = to_vec <$> rl_committed l;
}.

Lemma numbered_app n es es' : numbered n es → numbered (n + Z.of_nat (length es)) es' → numbered n (es ++ es').
Proof.
  intros Hes Hes' k e. rewrite lookup_app. destruct (es !! k) eqn:E; [intros [= <-]; by apply Hes|].
  intros He. apply lookup_ge_None in E. rewrite (Hes' _ _ He). lia.
Qed.
Lemma numbered_take n k es : numbered n es → numbered n (take k es).
Proof. intros Hes i e [He _]%lookup_take_Some. by apply Hes. Qed.
Lemma numbered_drop n k es : numbered n es → numbered (n + Z.of_nat k) (drop k es).
Proof. intros Hes i e He. rewrite lookup_drop in He. rewrite (Hes _ _ He). lia. Qed.

Lemma spec_op_wf l op : log_wf l → op_ok l op → log_wf (spec_op l op).
Proof.
  intros [Hn He Hp] Hop. destruct op as [es|id|id|v|id]; cbn in *; split; cbn; try done.
  - destruct Hop. by apply numbered_app.
  - destruct Hop. by apply Forall_app.
  - by apply numbered_take.
  - by apply Forall_take.
  - destruct Hop as [_ Hle]. unfold starts at 1. cbn [rl_purged after_id]. intros k e Hk.
    rewrite lookup_drop in Hk. rewrite (Hn _ _ Hk). unfold starts in *. cbn [rl_purged] in *. lia.
  - by apply Forall_drop.
  - destruct Hop as [Hid _]. by intros p [= <-].
Qed.

(** ** The calls *)

Lemma append_rows es : ∀ n l (t : tbl Z _ _ (list Z)) k,
  numbered (n + Z.of_nat (length l)) es → tbl_map t = map_seqZ n (encode_entry <$> l) →
  tbl_map (foldl (λ '(t, _) e, (tbl_insert (e_index e) (encode_entry e) t, e_index e)) (t, k) es).1
    = map_seqZ n (encode_entry <$> (l ++ es)).
Proof.
  induction es as [|e es IH]; intros n l t k Hn Ht; cbn [foldl fst]; [by rewrite app_nil_r|].
  rewrite (cons_middle e l es), app_assoc. apply IH.
  - intros i x Hx. rewrite length_app. cbn [length]. rewrite (Hn (S i) x Hx). lia.
  - rewrite tbl_insert_spec, Ht, fmap_app. change (encode_entry <$> [e]) with [encode_entry e].
    rewrite map_seqZ_snoc, length_fmap. by rewrite (Hn 0%nat e eq_refl), Z.add_0_r.
Qed.
Lemma removed_rows (keys : list Z) : ∀ (t : tbl Z _ _ (list Z)) k,
  tbl_map (foldl (λ t k, tbl_remove k t) t keys) !! k = if decide (k ∈ keys) then None else tbl_map t !! k.
Proof.
  induction keys as [|x keys IH]; intros t k; cbn [foldl]; [done|]. rewrite IH, tbl_remove_spec.
  destruct (decide (k = x)) as [->|Hne].
  - rewrite lookup_delete_eq, (decide_True _ _ (list_elem_of_here x keys)). by case_decide.
  - rewrite lookup_delete_ne by done. repeat case_decide; try done; set_solver.
Qed.
Lemma delete_range_rows d range k :
  tbl_map (ld_log (delete_range d range)) !! k = if range k then None else tbl_map (ld_log d) !! k.
Proof.
  unfold delete_range. cbn [ld_log]. rewrite removed_rows.
  assert (k ∈ (tbl_range range (ld_log d)).*1 ↔ range k = true ∧ is_Some (tbl_map (ld_log d) !! k)) as Hk.
  { unfold tbl_range. rewrite list_elem_of_fmap. split.
    - intros ([k' v] & -> & [Hr Hin%tbl_iter_elem]%list_elem_of_filter). by split; [|eexists].
    - intros [Hr [v Hv]]. exists (k, v). split; [done|]. apply list_elem_of_filter. by rewrite tbl_iter_elem. }
  case_decide as Hin; destruct (range k) eqn:E; try done.
  - by apply Hk in Hin as [? _].
  - destruct (tbl_map (ld_log d) !! k) eqn:El; [|done]. destruct Hin. apply Hk. by split; [|eexists].
Qed.

Lemma log_op_of d l op : log_wf l → op_ok l op → log_of d l → log_of (log_op d op) (spec_op l op).
Proof.
  intros [Hn He Hp] Hop [Hl Hm Hv Hc]. destruct op as [es|id|id|v|id]; cbn [log_op spec_op].
  - destruct Hop as [Hes _]. unfold append.
    destruct (foldl _ _ es) as [t k] eqn:E. split; cbn; try done. change t with ((t, k).1). rewrite <- E.
    by apply append_rows.
  - split; cbn [rl_purged rl_vote rl_committed rl_entries]; try done. apply map_eq. intros k. unfold truncate. rewrite delete_range_rows, Hl. unfold starts. cbn [rl_purged].
    apply option_eq. intros b. rewrite fmap_take, lookup_map_seqZ_Some, lookup_take_Some.
    destruct (Z.leb_spec (lid_index id) k) as [Hk|Hk]; [|rewrite lookup_map_seqZ_Some; split; [intros [? ?]; split_and!; [done|done|lia]|naive_solver]].
    split; [done|]. intros (? & _ & ?). lia.
  - destruct Hop as [_ Hle]. unfold purge. split; cbn [rl_purged rl_vote rl_committed rl_entries].
    + apply map_eq. intros k. rewrite delete_range_rows. cbn [set_meta ld_log]. rewrite Hl.
      apply option_eq. intros b. unfold starts at 2. cbn [rl_purged after_id]. rewrite fmap_drop, lookup_map_seqZ_Some, lookup_drop.
      destruct (Z.leb_spec k (lid_index id)) as [Hk|Hk]; [split; [done|]; intros [? _]; lia|].
      rewrite lookup_map_seqZ_Some.
      replace (Z.to_nat (k - starts l)) with (Z.to_nat (lid_index id + 1 - starts l) + Z.to_nat (k - (lid_index id + 1)))%nat by lia.
      split; intros [? ?]; (split; [lia|done]).
    + cbn. by rewrite tbl_insert_spec, lookup_insert_eq.
    + cbn. by rewrite tbl_insert_spec, lookup_insert_ne.
    + cbn. by rewrite tbl_insert_spec, lookup_insert_ne.
  - split; cbn; try done; rewrite tbl_insert_spec; [by rewrite lookup_insert_ne|by rewrite lookup_insert_eq|by rewrite lookup_insert_ne].
  - split; cbn; try done; rewrite tbl_insert_spec; [by rewrite lookup_insert_ne|by rewrite lookup_insert_ne|].
    by rewrite lookup_insert_eq, json_some.
Qed.

(** ** The reads *)

Definition row_of (e : Entry M) : Z * list Z := (e_index e, encode_entry e).
Lemma numbered_rows n es : numbered n es → number n (encode_entry <$> es) = row_of <$> es.
Proof.
  revert n. induction es as [|e es IH]; intros n Hn; cbn; [done|]. f_equal.
  - unfold row_of. rewrite (Hn 0%nat e eq_refl). f_equal. lia.
  - apply IH. intros k x Hx. rewrite (Hn (S k) x Hx). lia.
Qed.
Lemma log_rows d l : log_wf l → log_of d l → tbl_iter (ld_log d) = row_of <$> rl_entries l.
Proof.
  intros Hw Ho. rewrite <- (numbered_rows (starts l)) by apply Hw.
  apply rows_unique; [apply tbl_iter_sorted|apply number_sorted|].
  intros [i x]. by rewrite tbl_iter_elem, (lo_log _ _ Ho), number_elem.
Qed.
Lemma range_rows d l range :
  log_wf l → log_of d l →
  tbl_range range (ld_log d) = row_of <$> filter (λ e, range (e_index e) = true) (rl_entries l).
Proof. intros Hw Ho. unfold tbl_range. rewrite (log_rows d l Hw Ho). by rewrite filter_fmap. Qed.

Lemma read_entry_of (e : Entry M) : log_id_ok (e_log_id e) → read_entry (row_of e).2 = Ok e.
Proof. intros He. unfold read_entry. cbn. by rewrite decode_encode_entry. Qed.

Lemma meta_of {T} `{!Json T} d key (o : option T) :
  tbl_map (ld_meta d) !! key = to_vec <$> o → meta d key = Ok o.
Proof. intros Hk. unfold meta. rewrite tbl_get_spec, Hk. destruct o; cbn; [by rewrite json_roundtrip|done]. Qed.

Definition last_id (l : RaftLog) : option LogId :=
  match last (rl_entries l) with Some e => Some (e_log_id e) | None => rl_purged l end.

Lemma last_log_id_of d l : log_wf l → log_of d l → last_log_id (M:=M) d = Ok (e_log_id <$> last (rl_entries l)).
Proof.
  intros Hw Ho. unfold last_log_id. rewrite (log_rows d l Hw Ho), fmap_last.
  destruct (last (rl_entries l)) as [e|] eqn:E; cbn [fmap option_fmap option_map]; [|done].
  apply last_Some_elem_of in E. pose proof (wf_entries _ Hw) as He. unfold entries_ok in He. rewrite Forall_forall in He.
  pose proof (read_entry_of e (He e E)) as Hr. cbn [row_of snd] in *. by rewrite Hr.
Qed.
Lemma get_log_state_of d l :
  log_wf l → log_of d l → get_log_state (M:=M) d = Ok (mkLogState (rl_purged l) (last_id l)).
Proof.
  intros Hw Ho. unfold get_log_state. rewrite (meta_of d _ _ (lo_purged _ _ Ho)), (last_log_id_of d l Hw Ho).
  cbn. unfold last_id. by destruct (last (rl_entries l)).
Qed.
Lemma try_get_log_entries_of d l range :
  log_wf l → log_of d l →
  try_get_log_entries d range = Ok (filter (λ e, range (e_index e) = true) (rl_entries l)).
Proof.
  intros Hw Ho. unfold try_get_log_entries. rewrite (range_rows d l range Hw Ho). apply collect_Forall2, Forall2_fmap_l.
  apply Forall_Forall2_diag, Forall_forall. intros e [_ He]%list_elem_of_filter. apply read_entry_of.
  pose proof (wf_entries _ Hw) as Hok. unfold entries_ok in Hok. rewrite Forall_forall in Hok. auto.
Qed.
Lemma read_vote_of d l : log_of d l → read_vote d = Ok (rl_vote l).
Proof. intros Ho. unfold read_vote. by rewrite (meta_of d _ _ (lo_vote _ _ Ho)). Qed.
Lemma read_committed_of d l : log_of d l → read_committed d = Ok (rl_committed l).
Proof. intros Ho. exact (meta_of d _ _ (lo_committed _ _ Ho)). Qed.
Lemma committed_index_of d l : log_of d l → committed_index d = lid_index <$> rl_committed l.
Proof.
  intros Ho. unfold committed_index, meta. rewrite tbl_get_spec, (lo_committed _ _ Ho).
  destruct (rl_committed l) as [id|]; cbn; [|done]. by rewrite <- json_some, json_roundtrip.
Qed.
Lemma len_of d l : log_wf l → log_of d l → len d = Z.of_nat (length (rl_entries l)).
Proof.
  intros Hw Ho. unfold len. rewrite tbl_len_spec, (lo_log _ _ Ho). f_equal.
  rewrite <- length_map_to_list, map_to_list_seqZ, length_zip, length_seqZ, length_fmap. lia.
Qed.

Definition summed (es : list (Entry M)) : Z :=
  as_u64 (foldr (λ e n, Z.of_nat (length (encode_entry e)) + n) 0 es).
Lemma bytes_between_of d l lo hi :
  log_wf l → log_of d l →
  bytes_between d lo hi = if hi <=? lo then 0 else summed (filter (λ e, (lo <? e_index e) && (e_index e <=? hi) = true) (rl_entries l)).
Proof.
  intros Hw Ho. unfold bytes_between. destruct (hi <=? lo); [done|]. rewrite (range_rows d l _ Hw Ho).
  generalize (filter (λ e : Entry M, (lo <? e_index e) && (e_index e <=? hi) = true) (rl_entries l)) as es. intros es.
  unfold summed. change 0 with (as_u64 0) at 1. rewrite <- (Z.add_0_l (foldr _ _ es)). generalize 0 at 1 2 as n. induction es as [|e es IH]; intros n; cbn.
  - by rewrite Z.add_0_r.
  - replace (as_u64 (as_u64 n + Z.of_nat (length (encode_entry e)))) with (as_u64 (n + Z.of_nat (length (encode_entry e)))).
    + rewrite IH. f_equal. lia.
    + unfold as_u64. by rewrite Z.add_mod_idemp_l.
Qed.
Lemma last_index_of display d l :
  log_wf l → log_of d l → last_index (M:=M) display d = Ok (lid_index <$> last_id l).
Proof.
  intros Hw Ho. unfold last_index. rewrite (last_log_id_of d l Hw Ho), (meta_of d _ _ (lo_purged _ _ Ho)). cbn.
  unfold last_id. by destruct (last (rl_entries l)).
Qed.
Lemma probe_of d l :
  log_wf l → log_of d l →
  probe true d = mkLogProbe true (bool_decide (is_Some (rl_vote l))) (Z.of_nat (length (rl_entries l)))
    (bool_decide (is_Some (rl_purged l))).
Proof.
  intros Hw Ho. unfold probe. cbn [negb]. change (tbl_len (ld_log d)) with (len d). rewrite (len_of d l Hw Ho), !tbl_get_spec, (lo_vote _ _ Ho), (lo_purged _ _ Ho).
  f_equal; apply bool_decide_ext; by rewrite fmap_is_Some.
Qed.

(** ** Runs *)

Definition fresh : RaftLog := mkRaftLog [] None None None.
Fixpoint ops_ok (l : RaftLog) (ops : list LogOp) : Prop :=
  match ops with [] => True | op :: ops => op_ok l op ∧ ops_ok (spec_op l op) ops end.
Definition spec_run (ops : list LogOp) : RaftLog := foldl spec_op fresh ops.
Definition log_run (ops : list LogOp) : LogDb tbl := foldl log_op open ops.

Lemma fresh_of : log_wf fresh ∧ log_of open fresh.
Proof.
  split.
  - split; [intros [] ? [=]|constructor|done].
  - split; unfold open; cbn [ld_log ld_meta]; by rewrite tbl_empty_spec.
Qed.
Lemma run_of ops : ∀ d l, log_wf l → log_of d l → ops_ok l ops →
  log_wf (foldl spec_op l ops) ∧ log_of (foldl log_op d ops) (foldl spec_op l ops).
Proof.
  induction ops as [|op ops IH]; intros d l Hw Ho Hok; cbn; [done|]. destruct Hok as [Hop Hops].
  apply IH; [by apply spec_op_wf|by apply log_op_of|done].
Qed.

(** C16: The log store is the log openraft wants. After any calls it makes
    (appending where the log ends, cutting the tail, purging upwards, saving
    votes and commit points), reading a range gives exactly the entries of
    the log in that range, in order and unchanged; the log's state is its
    purge point and its last entry's id, or the purge point again when every
    entry is purged; the vote and the commit point are the last ones saved;
    the counts and sizes are those of the log; and a file in which nothing
    was saved is blank. The exception: a commit point saved as absent cannot
    be read back. *)
Theorem raft_log_refines display ops :
  ops_ok fresh ops →
  let l := spec_run ops in let d := log_run ops in
  log_wf l ∧
  (∀ range, try_get_log_entries d range = Ok (filter (λ e, range (e_index e) = true) (rl_entries l))) ∧
  get_log_state (M:=M) d = Ok (mkLogState (rl_purged l) (last_id l)) ∧
  last_index (M:=M) display d = Ok (lid_index <$> last_id l) ∧
  read_vote d = Ok (rl_vote l) ∧ read_committed d = Ok (rl_committed l) ∧
  committed_index d = lid_index <$> rl_committed l ∧
  len d = Z.of_nat (length (rl_entries l)) ∧
  (∀ lo hi, bytes_between d lo hi =
     if hi <=? lo then 0 else summed (filter (λ e, (lo <? e_index e) && (e_index e <=? hi) = true) (rl_entries l))) ∧
  (is_blank (probe true d) = true ↔ rl_entries l = [] ∧ rl_purged l = None ∧ rl_vote l = None) ∧
  ∃ e, read_committed (save_committed d None) = Err (ReadLogsJson e).
Proof.
  intros Hok l d. destruct (run_of ops _ _ (proj1 fresh_of) (proj2 fresh_of) Hok) as [Hw Ho].
  fold (spec_run ops) (log_run ops) in Hw, Ho. fold l in Hw, Ho. fold d in Ho. split_and!; auto using
    try_get_log_entries_of, get_log_state_of, last_index_of, read_vote_of, read_committed_of, committed_index_of, len_of, bytes_between_of.
  - rewrite (probe_of d l Hw Ho). unfold is_blank. cbn. rewrite !andb_true_iff, !negb_true_iff, !bool_decide_eq_false, <- !eq_None_not_Some.
    destruct (rl_entries l); cbn; naive_solver lia.
  - destruct json_none as [e He]. exists e. unfold read_committed, meta, save_committed, set_meta. cbn [ld_meta].
    by rewrite tbl_get_spec, tbl_insert_spec, lookup_insert_eq, He.
Qed.
End spec.

(** ** The interface can be met

    One cell holding the value's code; [null] is nothing. *)
#[global] Instance LogId_countable : Countable LogId.
Proof.
  refine (inj_countable' (λ i, (lid_term i, lid_node_id i, lid_index i)) (λ '(t, n, i), mkLogId t n i) _).
  by intros [].
Defined.
Definition coded_json {T} `{Countable T} : Json T.
Proof.
  refine {| to_vec t := [Z.pos (encode t)];
    from_slice b := match b with
      | [Z.pos p] => match decode p with Some t => inl t | None => inr (lit "invalid") end
      | _ => inr (lit "invalid") end |}.
  intros t. by rewrite decode_encode.
Defined.
Definition coded_json_option {T} `{Countable T} : Json (option T).
Proof.
  refine {| to_vec o := match o with Some t => to_vec (Json:=coded_json) t | None => [] end;
    from_slice b := match b with
      | [] => inl None
      | b => match from_slice (Json:=coded_json) b with inl t => inl (Some t) | inr e => inr e end end |}.
  intros [t|]; [|done]. cbn. by rewrite decode_encode.
Defined.
#[local] Existing Instance gmap_redb.
#[local] Instance Z_json : Json Z := coded_json.
#[local] Instance LogId_json : Json LogId := coded_json.
#[local] Instance LogId_option_json : Json (option LogId) := coded_json_option.
Definition log_example : list (LogOp (M:=Z) (V:=Z)) :=
  let at_ i := mkLogId 2 1 i in
  [OVote 7; OAppend [mkEntry (at_ 0) Blank; mkEntry (at_ 1) (Normal [104; 105]); mkEntry (at_ 2) (Membership 3)];
   OCommitted (at_ 1); OTruncate (at_ 2); OPurge (at_ 0); OAppend [mkEntry (mkLogId 3 4 2) (Normal [1])]].
Lemma raft_log_refines_witness :
  ∃ d : LogDb _, try_get_log_entries d (λ k, 1 <=? k) =
    Ok [mkEntry (mkLogId 2 1 1) (Normal [104; 105]); mkEntry (mkLogId 3 4 2) (Normal [1]) : Entry Z] ∧
  get_log_state (M:=Z) d = Ok (mkLogState (Some (mkLogId 2 1 0)) (Some (mkLogId 3 4 2))).
Proof.
  assert (∀ l : LogId, to_vec (Some l) = to_vec l) as Hsome by reflexivity.
  assert (∃ e, from_slice (T:=LogId) (to_vec (None : option LogId)) = inr e) as Hnone by (eexists; reflexivity).
  destruct (raft_log_refines Hsome Hnone (λ _, []) log_example) as (_ & Hr & Hs & _).
  - assert (∀ t n i, u64 t → u64 n → u64 i → log_id_ok (mkLogId t n i)) as Hid by (intros; by split_and!).
    repeat split; try done; try (intros [|[|[|k]]] e; cbn; intros [= <-]; done);
      try (repeat constructor; cbn; lia); cbn; lia.
  - exists (log_run log_example). split; [exact (Hr (λ k, 1 <=? k))|exact Hs].
Defined.
