(* ===== verification/RaftApply.v ===== *)
(** * Applying the log

    [graph-server/src/raft/state_machine.rs]: how a node applies committed
    entries to its store. The store's tables, their representation and the
    marked writes are those of the other files; openraft's membership, the
    encodings of commands and memberships and the extractors are parameters.
    Retries on a full disk, metrics and the test gates are left out. *)
From S2P Require Import Prelude Text StrOps Schema Varint Stream StreamRound Posting DictBlock Table DictRev.
From S2P Require Import Language Encoding Walk Prep Located Db Catalog Reader Write Dict Store Entities Content Ingest Prune.
From S2P Require Import Vacuum Commit Marked Batch Prepare Refine WireError Wire RaftLog.

(** [pb::log_command::Cmd]; an absent command is [None]. *)
Inductive LogCmd : Type :=
  | IndexChunk (org repo : str) (reindex : bool) (files : list Pb.FileBytes)
  | IngestExtraction (org repo path language : str) (extraction : option Pb.Extraction) (origin : option str)
  | PruneCmd (org repo : str) (keep : list str)
  | VacuumCmd
  | Noop.
Definition LogCommand : Type := option LogCmd.

Definition is_refusal (e : StoreError) : bool :=
  match e with
  | Rejected _ | NotUtf8 _ | Binary _ | TooLarge _ | InvalidSpan _ | Schema _ | Protocol _ => true
  | _ => false
  end.

Section apply.
Context (sha256 : list Z → list Z) (is_alphabetic is_numeric : Z → bool) `{EncodingRs} `{Redb tbl} `{Serde}.
Context `{ProstDetail} `{!Prost LogCommand} (decode_error : list Z → str).
Context {M : Type} `{!Json (StoredMembership M)} (default_membership : M).
Context (hook : RaftMarker → result unit) (registry : Registry).
Implicit Types (d : Db tbl).

(** [LogRequest::decode]. *)
Definition decode_request (command : list Z) : result LogCommand :=
  match prost_decode command with
  | Some c => Ok c
  | None => Err (Protocol (lit "undecodable log entry: " ++ decode_error command))
  end.

Definition protocol {A} (m : conv A) : result A :=
  match m with Ok a => Ok a | Err e => Err (Protocol (ConvertError_display e)) | Panic => Panic end.

(** A write in a transaction of its own: the database after it. *)
Definition committed {A} d (r : result (A * Db tbl)) : Db tbl * result A :=
  match r with Ok (a, d') => (d', Ok a) | Err e => (d, Err e) | Panic => (d, Panic) end.
Definition answer {A} (f : A → LogResponse) (r : Db tbl * result A) : Db tbl * result LogResponse :=
  (r.1, a ← r.2; Ok (f a)).

Definition mark d (marker : RaftMarker) (membership : option (list Z)) : Db tbl * result LogResponse :=
  answer (λ _ : unit, Marked) (committed d (d' ← mark_only hook d marker membership; Ok (tt, d'))).

(** [r.map_err(|e| ErrDetail::of(&e))]. *)
Definition file_answer (r : result IngestStats) : result (IngestStats + list Z) :=
  match r with Ok s => Ok (inl s) | Err e => Ok (inr (ErrDetail_of e)) | Panic => Panic end.

Definition prepare_chunk d (org repo : str) (opts : IndexOptions) (files : list Pb.FileBytes) : result (list PreparedFile) :=
  collect (λ f, f ← protocol (as_batch_file f);
                prepare sha256 is_alphabetic is_numeric d registry org repo f opts) files.

Definition apply_command d (cmd : LogCommand) (marker : RaftMarker) : Db tbl * result LogResponse :=
  match cmd with
  | None => (d, Err (Protocol (lit "empty LogCommand")))
  | Some (IndexChunk org repo reindex files) =>
      let opts := mkIndexOptions reindex None false in
      match prepare_chunk d org repo opts files with
      | Ok prepared =>
          let '(d, r) := index_prepared_marked sha256 is_alphabetic is_numeric hook d registry org repo prepared opts
                           marker None in
          (d, results ← r; out ← collect file_answer results; Ok (Index out))
      | Err e => (d, Err e)
      | Panic => (d, Panic)
      end
  | Some (IngestExtraction org repo path language extraction origin) =>
      match ok_or extraction (Protocol (lit "IngestExtraction.extraction is missing")) ≫= (λ x, protocol (extraction_from x)) with
      | Ok ex => answer Ingest (committed d (ingest_file_marked sha256 hook d org repo path language ex origin marker None))
      | Err e => (d, Err e)
      | Panic => (d, Panic)
      end
  | Some (PruneCmd org repo keep) => answer Prune (committed d (prune_files_marked hook d org repo keep marker None))
  | Some VacuumCmd => answer (λ s, Vacuum (VacuumOutcome_from s)) (committed d (vacuum_marked sha256 hook d marker None))
  | Some Noop => mark d marker None
  end.

Definition mark_refused d (marker : RaftMarker) : Db tbl * result unit :=
  match mark_only hook d marker None with
  | Ok d' => (d', Ok tt)
  | Err (AlreadyApplied _) => (d, Ok tt)
  | Err e => (d, Err e)
  | Panic => (d, Panic)
  end.

Definition already (cur : option RaftMarker) (marker : RaftMarker) : bool :=
  match cur with Some cur => rm_index marker <=? rm_index cur | None => false end.

Definition apply_payload d (e : Entry M) (marker : RaftMarker) : Db tbl * result LogResponse :=
  match e_payload e with
  | Blank => mark d marker None
  | Membership m => mark d marker (Some (to_vec (mkStoredMembership (Some (e_log_id e)) m)))
  | Normal command =>
      match decode_request command with
      | Ok cmd => apply_command d cmd marker
      | Err e => (d, Err e)
      | Panic => (d, Panic)
      end
  end.

Definition apply_one d (e : Entry M) : Db tbl * result LogResponse :=
  let marker := marker_of (e_log_id e) in
  match raft_marker d with
  | Err e => (d, Err e)
  | Panic => (d, Panic)
  | Ok cur =>
      if already cur marker then (d, Ok Skipped) else
      match apply_payload d e marker with
      | (d, Err (AlreadyApplied _)) => (d, Ok Skipped)
      | (d, Err err) =>
          if is_refusal err then answer (λ _, Failed (ErrDetail_of err)) (mark_refused d marker) else (d, Err err)
      | r => r
      end
  end.

(** An error names the entry it stopped at. *)
Fixpoint apply_all d (es : list (Entry M)) : Db tbl * outcome (LogId * StoreError) (list LogResponse) :=
  match es with
  | [] => (d, Ok [])
  | e :: es =>
      match apply_one d e with
      | (d, Ok r) => let '(d, rs) := apply_all d es in (d, rs ← rs; Ok (r :: rs))
      | (d, Err err) => (d, Err (e_log_id e, err))
      | (d, Panic) => (d, Panic)
      end
  end.

Definition stored_membership d : result (StoredMembership M) :=
  match raft_membership d with
  | Some bytes =>
      match from_slice bytes with
      | inl m => Ok m
      | inr e => Err (Corrupt (lit "raft membership in the store: " ++ e))
      end
  | None => Ok (mkStoredMembership None default_membership)
  end.
Definition read_applied d : result (option LogId * StoredMembership M) :=
  last ← raft_marker d;
  membership ← stored_membership d;
  Ok (option_map log_id_of last, membership).
End apply.
