(* ===== verification/RaftApplySpec.v ===== *)
(** * Applying the log keeps the marker

    What the state machine of [RaftApply] promises openraft on any database:
    one answer per entry, a marker that is the last applied entry's, and
    entries that were applied before are skipped. *)
From S2P Require Import Prelude Text StrOps Schema Varint Stream StreamRound Posting DictBlock Table DictRev.
From S2P Require Import Language Encoding Walk Prep Located Db Catalog Reader Write Dict Store Entities Content Ingest Prune.
From S2P Require Import Vacuum Commit Marked Batch Prepare Refine WireError Wire RaftLog RaftApply.

Section marks.
Context (sha256 : list Z → list Z) (is_alphabetic is_numeric : Z → bool) `{EncodingRs} `{Redb tbl} `{Serde}.
Context `{ProstDetail} `{!Prost LogCommand} (decode_error : list Z → str).
Context {M : Type} `{!Json (StoredMembership M)} (registry : Registry).
Abbreviation hook := (λ _ : RaftMarker, Ok () : result unit).
Abbreviation apply_command := (apply_command sha256 is_alphabetic is_numeric hook registry).
Abbreviation apply_payload := (apply_payload (M:=M) sha256 is_alphabetic is_numeric decode_error hook registry).
Abbreviation apply_one := (apply_one (M:=M) sha256 is_alphabetic is_numeric decode_error hook registry).
Abbreviation apply_all := (apply_all (M:=M) sha256 is_alphabetic is_numeric decode_error hook registry).
Implicit Types (d : Db tbl) (e : Entry M) (es : list (Entry M)).

Abbreviation marked d e := (raft_marker d = Ok (Some (marker_of (e_log_id e)))).

(** The files of a chunk together are below 2^64 - 1 bytes. *)
Definition entry_small e : Prop :=
  ∀ command org repo reindex files, e_payload e = Normal command →
    prost_decode command = Some (Some (IndexChunk org repo reindex files)) →
    sum_list (λ f, Z.of_nat (length (Pb.fb_bytes f))) files < USIZE_MAX.
Definition entry_ok e : Prop := log_id_ok (e_log_id e) ∧ entry_small e.

(** ** One write *)

Definition stamped d (m : RaftMarker) (mem : option (list Z)) : Db tbl :=
  let d := upd_raft_sm (tbl_insert RAFT_LAST_APPLIED (RaftMarker_encode m)) d in
  match mem with Some b => upd_raft_sm (tbl_insert RAFT_MEMBERSHIP b) d | None => d end.

Lemma stamp_fresh d m mem cur :
  raft_marker d = Ok cur → already cur m = false → stamp_marker d m mem = Ok (stamped d m mem).
Proof.
  unfold raft_marker, stamp_marker. destruct (tbl_get _ _) as [b|]; [|done].
  intros Hc Ha. apply bind_Ok in Hc as (c & -> & [= <-]). cbn in *. by rewrite Ha.
Qed.
Lemma stamped_marker d m mem cur d' :
  marker_ok m → raft_marker d = Ok cur → already cur m = false → keeps_marker (stamped d m mem) d' →
  raft_marker d' = Ok (Some m).
Proof. intros Hm Hc Ha. eapply stamp_marker_run; [done|]. by eapply stamp_fresh. Qed.

(** What a write promises: its marker, or nothing. *)
Definition moved {A} d (m : RaftMarker) (r : Db tbl * result A) : Prop :=
  match r with
  | (d', Ok _) => raft_marker d' = Ok (Some m)
  | (d', Err _) => d' = d
  | (d', Panic) => d' = d ∨ raft_marker d' = Ok (Some m)
  end.
Lemma moved_answer {A} d m (f : A → LogResponse) r : moved d m r → moved d m (answer f r).
Proof. by destruct r as [d' []]. Qed.

Section fresh.
Context (d : Db tbl) (m : RaftMarker) (cur : option RaftMarker).
Hypothesis m_ok : marker_ok m.
Hypothesis d_cur : raft_marker d = Ok cur.
Hypothesis m_new : already cur m = false.

Lemma moved_body {A} mem (body : Db tbl → result (A * Db tbl)) :
  (∀ wt x d', body wt = Ok (x, d') → keeps_marker wt d') →
  moved d m (committed d (wt ← stamp_marker d m mem; body wt)).
Proof.
  intros Hb. rewrite (stamp_fresh d m mem cur d_cur m_new). cbn [mbind outcome_mbind outcome_bind].
  destruct (body (stamped d m mem)) as [[x d']| |] eqn:E; cbn; [|done|by left]. by eapply stamped_marker, Hb.
Qed.
Lemma moved_mark mem : moved d m (mark hook d m mem).
Proof.
  apply moved_answer. unfold mark_only. rewrite (stamp_fresh d m mem cur d_cur m_new).
  exact (stamped_marker d m mem cur _ m_ok d_cur m_new eq_refl).
Qed.
Lemma moved_refused : ∃ d', mark_refused hook d m = (d', Ok tt) ∧ d' = stamped d m None ∧ raft_marker d' = Ok (Some m).
Proof.
  unfold mark_refused, mark_only. rewrite (stamp_fresh d m None cur d_cur m_new). cbn. eexists. split_and!; [done|done|].
  exact (stamped_marker d m None cur _ m_ok d_cur m_new eq_refl).
Qed.

Lemma moved_ingest org repo path language ex origin :
  moved d m (committed d (ingest_file_marked sha256 hook d org repo path language ex origin m None)).
Proof.
  unfold ingest_file_marked. destruct (validate_spans ex) as [[]| |]; [|done|by left]. cbn [mbind outcome_mbind outcome_bind].
  apply moved_body. intros wt x d' Hr. apply bind_Ok in Hr as ([st d1] & Hi & [= _ <-]). by eapply keeps_raft, ingest_keeps.
Qed.
Lemma moved_prune org repo keep : moved d m (committed d (prune_files_marked hook d org repo keep m None)).
Proof.
  apply moved_body. intros wt x d' Hr. apply bind_Ok in Hr as ([rm d1] & Hp & [= _ <-]). by eapply keeps_raft, prune_keeps.
Qed.
Lemma moved_vacuum : moved d m (committed d (vacuum_marked sha256 hook d m None)).
Proof.
  apply moved_body. intros wt x d' Hr. apply bind_Ok in Hr as ([[st b] d1] & Hv & [= _ <-]). by eapply keeps_raft, vacuum_keeps.
Qed.

Lemma prepare_len d1 org repo f opts p :
  prepare sha256 is_alphabetic is_numeric d1 registry org repo f opts = Ok p →
  pf_bytes_len p = Z.of_nat (length (bf_bytes f)).
Proof.
  unfold prepare. intros Hp. apply bind_Ok in Hp as ([q []] & Hq & [= <-]).
  assert (pf_bytes_len (build_v2_prep q) = pf_bytes_len q) as -> by (unfold build_v2_prep; by destruct (pf_work q)).
  rewrite prepare_file_eq in Hq. destruct (head_of sha256 registry f opts) as [er|[[[[src lang] fp] enc] lossy]]; [by injection Hq as <-|].
  apply bind_Ok in Hq as ([same []] & _ & Hq). by apply bind_Ok in Hq as (ww & _ & [= <-]).
Qed.
Lemma chunk_len d1 org repo opts files ps :
  prepare_chunk sha256 is_alphabetic is_numeric registry d1 org repo opts files = Ok ps →
  Forall (λ p, 0 ≤ pf_bytes_len p) ps ∧ sum_list pf_bytes_len ps = sum_list (λ f, Z.of_nat (length (Pb.fb_bytes f))) files.
Proof.
  unfold prepare_chunk. rewrite collect_Forall2. induction 1 as [|f p files ps Hp _ [IH1 IH2]]; [done|].
  apply bind_Ok in Hp as (b & Hb & Hp%prepare_len).
  assert (bf_bytes b = Pb.fb_bytes f) as Heq.
  { unfold protocol, as_batch_file in Hb. destruct (resolved_encoding_hint f) as [enc| |]; cbn in Hb; [by injection Hb as <-|done|done]. }
  rewrite Heq in Hp. split; [constructor; [lia|done]|]. cbn [sum_list]. lia.
Qed.

Lemma answers_given rs er : collect file_answer rs ≠ Err er.
Proof.
  induction rs as [|r rs IH]; [done|]. cbn. destruct r; cbn; [| |done]; destruct (collect file_answer rs); cbn; congruence.
Qed.

(** The whole command. *)
Lemma moved_command cmd :
  (∀ org repo reindex files, cmd = Some (IndexChunk org repo reindex files) →
     sum_list (λ f, Z.of_nat (length (Pb.fb_bytes f))) files < USIZE_MAX) →
  moved d m (apply_command d cmd m).
Proof.
  intros Hsm. destruct cmd as [[org repo reindex files|org repo path language x origin|org repo keep| |]|]; [| | | | |done]; cbn [RaftApply.apply_command].
  - destruct (prepare_chunk _ _ _ _ _ _ _ _ _) as [ps| |] eqn:Ep; [|done|by left].
    destruct (chunk_len _ _ _ _ _ _ Ep) as [Hlen Hsum]. specialize (Hsm _ _ _ _ eq_refl). rewrite <- Hsum in Hsm.
    pose proof (marked_run sha256 is_alphabetic is_numeric registry (mkIndexOptions reindex None false) hook d org repo ps m None Hlen Hsm m_ok) as Hr.
    destruct (index_prepared_marked _ _ _ _ _ _ _ _ _ _ _ _) as [d' [rs| |]]; cbn; [|done|by left]. destruct Hr as [Hr _].
    destruct (collect file_answer rs) eqn:E; cbn; [done|by apply answers_given in E|by right].
  - destruct (_ ≫= _) as [ex| |]; [|done|by left]. by apply moved_answer, moved_ingest.
  - by apply moved_answer, moved_prune.
  - by apply moved_answer, moved_vacuum.
  - by apply moved_mark.
Qed.
End fresh.

(** ** One entry *)

(** The answer of a write that was done. *)
Definition done_answer (r : LogResponse) : Prop := match r with Skipped | Failed _ => False | _ => True end.
Definition answers (r : Db tbl * result LogResponse) : Prop := match r with (_, Ok r) => done_answer r | _ => True end.
Lemma answers_answer {A} (f : A → LogResponse) r : (∀ a, done_answer (f a)) → answers (answer f r).
Proof. intros Hf. destruct r as [d' [a| |]]; [apply Hf|done|done]. Qed.
Lemma command_answer d cmd m : answers (apply_command d cmd m).
Proof.
  destruct cmd as [[org repo reindex files|org repo path language x origin|org repo keep| |]|]; cbn [RaftApply.apply_command];
    [| |by apply answers_answer|by apply answers_answer|by apply answers_answer|done].
  - destruct (prepare_chunk _ _ _ _ _ _ _ _ _); [|done|done]. destruct (index_prepared_marked _ _ _ _ _ _ _ _ _ _ _ _) as [d1 [rs| |]];
      cbn; [|done|done]. by destruct (collect file_answer rs).
  - destruct (_ ≫= _); [by apply answers_answer|done|done].
Qed.
Lemma payload_answer d e m : answers (apply_payload d e m).
Proof.
  unfold RaftApply.apply_payload. destruct (e_payload e) as [|command|mem]; [by apply answers_answer| |by apply answers_answer].
  unfold decode_request. destruct (prost_decode command); [apply command_answer|done].
Qed.
Lemma payload_moved d e cur :
  entry_ok e → raft_marker d = Ok cur → already cur (marker_of (e_log_id e)) = false →
  moved d (marker_of (e_log_id e)) (apply_payload d e (marker_of (e_log_id e))).
Proof.
  intros [Hid Hsm] Hc Ha. unfold RaftApply.apply_payload. destruct (e_payload e) as [|command|mem] eqn:Ep.
  - by eapply moved_mark.
  - unfold decode_request. destruct (prost_decode command) as [cmd|] eqn:Ed; [|done].
    eapply moved_command; [done..|]. intros org repo reindex files ->. by eapply Hsm.
  - by eapply moved_mark.
Qed.

Lemma apply_one_settled d e cur :
  raft_marker d = Ok (Some cur) → e_index e ≤ rm_index cur → apply_one d e = (d, Ok Skipped).
Proof. intros Hc Hle. unfold RaftApply.apply_one. rewrite Hc. cbn. by rewrite (proj2 (Z.leb_le _ _) Hle). Qed.

Lemma apply_one_run d e :
  entry_ok e →
  match apply_one d e with
  | (d', Ok Skipped) => d' = d
  | (d', Ok (Failed detail)) => d' = stamped d (marker_of (e_log_id e)) None ∧ marked d' e
  | (d', Ok _) => marked d' e
  | (d', Err er) => d' = d ∧ is_refusal er = false
  | (d', Panic) => d' = d ∨ marked d' e
  end.
Proof.
  intros He. unfold RaftApply.apply_one. destruct (raft_marker d) as [cur|er|] eqn:Hc; [| |by left].
  2:{ split; [done|]. unfold raft_marker in Hc. destruct (tbl_get _ _); [|done]. unfold RaftMarker_decode in Hc.
      destruct (_ =? _)%nat; [done|]. by injection Hc as <-. }
  destruct (already cur (marker_of (e_log_id e))) eqn:Ha; [done|].
  pose proof (payload_moved d e cur He Hc Ha) as Hm. pose proof (payload_answer d e (marker_of (e_log_id e))) as Hs.
  destruct (apply_payload d e (marker_of (e_log_id e))) as [d' [r|er|]] eqn:Er; cbn in Hm; [| |exact Hm].
  - by destruct r.
  - subst d'. destruct (moved_refused d (marker_of (e_log_id e)) cur (proj1 He) Hc Ha) as (d' & Hr & Hd' & Hmk).
    destruct er; try done; cbn [is_refusal]; rewrite Hr; done.
Qed.

(** ** A batch *)

Lemma apply_all_settled p q d cur :
  raft_marker d = Ok (Some cur) → Forall (λ e, e_index e ≤ rm_index cur) p →
  apply_all d (p ++ q) = let '(d', r) := apply_all d q in (d', rs ← r; Ok (replicate (length p) Skipped ++ rs)).
Proof.
  intros Hc. induction 1 as [|e p He _ IH]; cbn [app RaftApply.apply_all].
  - by destruct (apply_all d q) as [d' []].
  - rewrite (apply_one_settled d e cur Hc He), IH. by destruct (apply_all d q) as [d' []].
Qed.

(** The last entry that was not skipped. *)
Fixpoint last_done (es : list (Entry M)) (rs : list LogResponse) (m : option RaftMarker) : option RaftMarker :=
  match es, rs with
  | e :: es, r :: rs => last_done es rs (match r with Skipped => m | _ => Some (marker_of (e_log_id e)) end)
  | _, _ => m
  end.

Lemma apply_all_run es : ∀ d, Forall entry_ok es →
  match apply_all d es with
  | (d', Ok rs) => length rs = length es ∧ ∀ m, raft_marker d = Ok m → raft_marker d' = Ok (last_done es rs m)
  | (d', Err (id, er)) =>
      ∃ p e q rs, es = p ++ e :: q ∧ e_log_id e = id ∧ apply_all d p = (d', Ok rs) ∧ is_refusal er = false
  | (_, Panic) => True
  end.
Proof.
  induction es as [|e es IH]; intros d Hes; [by split; [|intros m ->]|]. apply Forall_cons in Hes as [He Hes].
  cbn [RaftApply.apply_all]. pose proof (apply_one_run d e He) as Hone.
  destruct (apply_one d e) as [d1 [r|er|]] eqn:E1; [| |done].
  - specialize (IH d1 Hes). destruct (apply_all d1 es) as [d' [rs|[id er]|]] eqn:Ea; cbn [mbind outcome_mbind outcome_bind]; [| |done].
    + destruct IH as [Hl Hm]. split; [cbn; lia|]. intros m Hd. cbn [last_done]. apply Hm. destruct r; naive_solver.
    + destruct IH as (p & x & q & rs & -> & Hid & Hp & Hr). exists (e :: p), x, q, (r :: rs). split_and!; [done|done| |done].
      cbn [RaftApply.apply_all]. by rewrite E1, Hp.
  - destruct Hone as [-> Hr]. exists [], e, es, []. by split_and!.
Qed.

(** C15: The state machine keeps its promise to openraft on any database,
    damaged ones included. A batch that ends well has one answer per entry, and
    the marker is that of the last entry not skipped; an entry at or below the
    marker is answered "skipped" and changes nothing, so a replay is exactly
    once; a refused entry moves the marker alone; and an error, which is never
    a refusal, stops at one entry with exactly the entries before it applied
    (for chunks below 2^64 - 1 bytes). *)
Theorem apply_answers es d :
  Forall entry_ok es →
  (match apply_all d es with
   | (d', Ok rs) => length rs = length es ∧ ∀ m, raft_marker d = Ok m → raft_marker d' = Ok (last_done es rs m)
   | (d', Err (id, er)) =>
       ∃ p e q rs, es = p ++ e :: q ∧ e_log_id e = id ∧ apply_all d p = (d', Ok rs) ∧ is_refusal er = false
   | (_, Panic) => True
   end) ∧
  (∀ p cur, raft_marker d = Ok (Some cur) → Forall (λ e, e_index e ≤ rm_index cur) p →
     apply_all d (p ++ es) = let '(d', r) := apply_all d es in (d', rs ← r; Ok (replicate (length p) Skipped ++ rs))) ∧
  Forall (λ e, ∀ d1, match apply_one d1 e with
    | (d', Ok (Failed _)) => d' = stamped d1 (marker_of (e_log_id e)) None ∧ marked d' e
    | (d', Err _) => d' = d1
    | _ => True
    end) es.
Proof.
  intros Hes. split; [by apply apply_all_run|]. split; [intros p cur; by apply apply_all_settled|].
  eapply Forall_impl; [exact Hes|]. intros e He d1. pose proof (apply_one_run d1 e He) as Hr.
  destruct (apply_one d1 e) as [d' [[]| |]]; try done. by destruct Hr.
Qed.
End marks.
