(* ===== verification/RaftReplica.v ===== *)
(** * Replicas hold the same documents

    The state a log of entries describes, as a map of documents with the last
    applied id and the membership, and that a store to which the entries are
    applied ([RaftApply]) is in that state: so replicas that applied the same
    entries hold the same documents, however often they were restarted. *)
From S2P Require Import Prelude Text StrOps Schema Varint Stream StreamRound Posting DictBlock Table DictRev.
From S2P Require Import Language Encoding Walk Prep Located Db Catalog Reader Write Dict Store Entities Content Ingest Prune.
From S2P Require Import Vacuum Commit Marked Batch Prepare Refine WireError Wire RaftLog RaftLogSpec RaftApply RaftApplySpec.

Section replica.
Context (sha256 : list Z → list Z) (is_alphabetic is_numeric : Z → bool) `{EncodingRs} `{Redb tbl} `{Serde}.
Context `{ProstDetail} `{!Prost LogCommand} (decode_error : list Z → str).
Context {M : Type} `{!Json (StoredMembership M)} (default_membership : M) (registry : Registry).
Hypothesis sha256_bytes : ∀ b, Forall u8 (sha256 b).
Abbreviation hook := (λ _ : RaftMarker, Ok () : result unit).
Abbreviation apply_command := (apply_command sha256 is_alphabetic is_numeric hook registry).
Abbreviation apply_payload := (apply_payload (M:=M) sha256 is_alphabetic is_numeric decode_error hook registry).
Abbreviation apply_one := (apply_one (M:=M) sha256 is_alphabetic is_numeric decode_error hook registry).
Abbreviation apply_all := (apply_all (M:=M) sha256 is_alphabetic is_numeric decode_error hook registry).
Abbreviation commit_doc := (commit_doc is_alphabetic is_numeric registry).
Abbreviation first_abort := (first_abort is_alphabetic is_numeric registry).
Abbreviation raw_prepared := (raw_prepared sha256 registry).
Abbreviation prepared_at := (prepared_at is_alphabetic is_numeric registry).
Abbreviation raw_ok := (raw_ok sha256 is_alphabetic is_numeric registry).
Abbreviation shaped := (shaped is_alphabetic is_numeric registry).
Abbreviation terms_of := (terms_of is_alphabetic is_numeric registry).
Abbreviation all_terms_of := (all_terms_of is_alphabetic is_numeric registry).
Abbreviation outcomes := (outcomes is_alphabetic is_numeric registry).
Implicit Types (d : Db tbl) (e : Entry M) (es : list (Entry M)) (a : gmap dkey Doc).

(** ** What an entry does to the documents *)

(** What the files of a chunk stand for; [None] when one of them cannot be read. *)
Definition chunk_files (org repo : str) (opts : IndexOptions) (files : list Pb.FileBytes) : option (list PreparedFile) :=
  match collect as_batch_file files with
  | Ok fs => Some (raw_prepared org repo opts <$> fs)
  | _ => None
  end.
Definition given_extraction (x : option Pb.Extraction) : option Extraction :=
  x ≫= (λ x, match extraction_from x with Ok ex => Some ex | _ => None end).
(** All files of a chunk are prepared on the store before it, then committed in
    order; when one of them ends the batch, none is stored. *)
Definition cmd_docs a (cmd : LogCmd) : gmap dkey Doc :=
  match cmd with
  | IndexChunk org repo reindex files =>
      let opts := mkIndexOptions reindex None false in
      match chunk_files org repo opts files with
      | Some qs =>
          let ps := prepared_at opts a <$> qs in
          match first_abort opts org repo a ps with Some _ => a | None => foldl (commit_doc opts) a ps end
      | None => a
      end
  | IngestExtraction org repo path language x origin =>
      match given_extraction x with
      | Some ex =>
          match validate_spans ex, ingest_guard org repo language ex with
          | Ok _, Ok _ => <[(org, repo, normalize_path path) := new_doc language (FileMeta_extracted origin) ex]> a
          | _, _ => a
          end
      | None => a
      end
  | PruneCmd org repo keep => filter (λ kv, ¬ pruned org repo keep kv.1 kv.2) a
  | VacuumCmd | Noop => a
  end.
Definition entry_cmd e : option LogCmd :=
  match e_payload e with Normal command => mjoin (prost_decode command) | _ => None end.
Definition entry_docs a e : gmap dkey Doc := match entry_cmd e with Some c => cmd_docs a c | None => a end.

(** The state of a replica. *)
Record Replica : Type := mkReplica {
  ra_docs : gmap dkey Doc;
  ra_last : option LogId;
  ra_membership : StoredMembership M;
}.
Definition spec_apply (s : Replica) e : Replica :=
  if already (marker_of <$> ra_last s) (marker_of (e_log_id e)) then s else
  mkReplica (entry_docs (ra_docs s) e) (Some (e_log_id e))
    match e_payload e with
    | Membership m => mkStoredMembership (Some (e_log_id e)) m
    | _ => ra_membership s
    end.

(** ** Stamps *)

Lemma raft_stores d a g : stores sha256 d a → stores sha256 (upd_raft_sm g d) a.
Proof. intros (N & S & es & next & nt & []). exists N, S, es, next, nt. split; try done. by eapply (dict_ok_frame sha256 d). Qed.
Lemma stamped_stores d a m mem : stores sha256 d a → stores sha256 (stamped d m mem) a.
Proof. intros R. destruct mem; by repeat apply raft_stores. Qed.
Lemma stamped_room d m mem k n : room_for d k n → room_for (stamped d m mem) k n.
Proof. by destruct mem. Qed.

(** ** Files *)

Lemma prepare_run d a org repo opts f :
  stores sha256 d a → raw_ok org repo opts f →
  prepare sha256 is_alphabetic is_numeric d registry org repo f opts = Ok (build_v2_prep (prepared_at opts a (raw_prepared org repo opts f))).
Proof.
  intros R Hok. unfold prepare. rewrite (prepare_file_at _ _ _ _ _ _ _ _ _ a tt tt Hok); [done|].
  set (q := raw_prepared org repo opts f). destruct (raw_repo sha256 registry org repo opts f) as [Ho Hr]. fold q in Ho, Hr.
  unfold asks_for. destruct (pf_work q); try done. unfold up_to_date. destruct (io_reindex opts); [done|].
  destruct (fingerprint_matches_run sha256 d a org repo (pf_path q) (pf_fingerprint q) R) as (b & -> & Hb). cbn. do 2 f_equal.
  unfold pf_key. rewrite Ho, Hr. destruct b; symmetry; [apply bool_decide_eq_true; by apply Hb|]. apply bool_decide_eq_false. intros Hf. by apply Hb in Hf.
Qed.
(** The chunk as it is committed. *)
Definition built opts a (qs : list PreparedFile) : list PreparedFile := build_v2_prep <$> (prepared_at opts a <$> qs).
Lemma chunk_prepared d a org repo opts files fs :
  stores sha256 d a → collect as_batch_file files = Ok fs → Forall (raw_ok org repo opts) fs →
  prepare_chunk sha256 is_alphabetic is_numeric registry d org repo opts files = Ok (built opts a (raw_prepared org repo opts <$> fs)).
Proof.
  intros R Hfs%collect_Forall2. induction Hfs as [|b f files fs Hb _ IH]; intros Hok; [done|]. apply Forall_cons in Hok as [Hf Hok].
  unfold prepare_chunk in *. cbn [collect]. rewrite Hb. cbn [protocol mbind outcome_mbind outcome_bind]. rewrite (prepare_run d a org repo opts f R Hf).
  cbn [mbind outcome_mbind outcome_bind]. by rewrite (IH Hok).
Qed.
Lemma built_shaped org repo opts a fs : Forall (raw_ok org repo opts) fs →
  let qs := raw_prepared org repo opts <$> fs in
  Forall shaped (built opts a qs) ∧ length (built opts a qs) = length qs ∧ all_terms_of (built opts a qs) = all_terms_of qs.
Proof.
  intros Hok qs. unfold built. rewrite !length_fmap. induction Hok as [|f fs Hf _ (IH1 & _ & IH2)]; [done|]. cbn [qs fmap list_fmap] in *.
  set (q := raw_prepared org repo opts f). assert (∀ x, pf_work q ≠ PExtracted x) as Hne by apply raw_work.
  pose proof (raw_shaped _ _ _ _ _ _ _ _ Hf) as Hq. fold q in Hq. pose proof (prepared_shaped _ _ _ opts a q Hne Hq) as Hp.
  assert (pf_v2 (prepared_at opts a q) = None) as Hv.
  { destruct (prepared_fields is_alphabetic is_numeric registry opts a q) as (_ & _ & _ & _ & _ & _ & -> & _). unfold q, Prepare.raw_prepared.
    by destruct (head_of sha256 registry f opts) as [|[[[[? ?] ?] ?] ?]]. }
  destruct (build_v2_shaped _ _ _ _ Hv Hp) as [Hb Ht]. split_and!; [by constructor|done|]. unfold Batch.all_terms_of in *. cbn. rewrite IH2, Ht.
  f_equal. unfold Batch.terms_of. by rewrite prepared_work.
Qed.
Lemma abort_refusal opts org repo a l i er : first_abort opts org repo a l = Some (i, er) → is_refusal er = true.
Proof.
  intros (l1 & p & l2 & _ & _ & _ & Hp)%first_abort_Some. unfold abort_of in Hp. destruct (negb _ || negb _); [by injection Hp as <-|].
  assert (∀ ex, ingest_guard org repo (pf_language p) ex = Err er → is_refusal er = true) as Hg.
  { intros ex Hex. destruct (ingest_guard_cases org repo (pf_language p) ex) as [[? _]|[[m Hm] _]]; rewrite Hex in *; by simplify_eq. }
  repeat case_match; try done; injection Hp as ->; by eapply Hg.
Qed.

(** A marked batch: all of it, or the marker of an entry that was refused. *)
Lemma marked_batch_run d a m cur org repo opts ps :
  stores sha256 d a → raft_marker d = Ok cur → already cur m = false → marker_ok m →
  Forall shaped ps → room_for d (length ps) (all_terms_of ps) →
  Forall (λ p, 0 ≤ pf_bytes_len p) ps → sum_list pf_bytes_len ps < USIZE_MAX →
  let run := index_prepared_marked sha256 is_alphabetic is_numeric hook d registry org repo ps opts m None in
  match first_abort opts org repo a ps with
  | None => ∃ d' rs, run = (d', Ok rs) ∧
      outcomes opts a ps rs ∧ stores sha256 d' (foldl (commit_doc opts) a ps) ∧ keeps_marker (stamped d m None) d'
  | Some (_, er) => run = (d, Err er)
  end.
Proof.
  intros R Hc Ha Hmok Hsh Hroom Hlen Hsum run. pose proof (marked_run sha256 is_alphabetic is_numeric registry opts hook d org repo ps m None Hlen Hsum Hmok) as Hwhole.
  fold run in Hwhole. unfold run, index_prepared_marked, commit_each_counted in *. rewrite (stamp_fresh d m None cur Hc Ha) in *.
  set (wt := stamped d m None) in *. assert (stores sha256 wt a) as Rw by by apply stamped_stores.
  assert (room_for wt (length ps) (all_terms_of ps)) as Hw by by apply stamped_room.
  destruct (batch_id_run sha256 wt a (length ps) (all_terms_of ps)) as [Hid Hidr]. specialize (Hid Rw). specialize (Hidr Hw).
  assert (keeps_marker wt (next_batch_id wt).2) as Hk by done. destruct (next_batch_id wt) as [bid wt1]. cbn [snd] in *.
  destruct (mark_run sha256 bid org repo wt1 a (length ps) (all_terms_of ps)) as [Hmk Hmkr]. specialize (Hmk Hid). specialize (Hmkr Hidr).
  pose proof (nth_files_step sha256 is_alphabetic is_numeric registry opts ps org repo Hsh) as Hstep.
  destruct (first_abort opts org repo a ps) as [[i er]|] eqn:Ef.
  - clear Hk. pose proof Ef as (l1 & p & l2 & Hps & Hi & Hno & Hp)%first_abort_Some.
    destruct (batch_loop_stops sha256 is_alphabetic is_numeric registry opts org repo USIZE_MAX bid (nth_file ps) l1 (length l2) 0 d
      (mark_open_batch bid org repo wt1) 0 [] 0 a (S (length l2)) (terms_of p + all_terms_of l2) er) as (db' & Hrun & _); [| done| |done| |].
    + intros j q Hj. apply Hstep. rewrite Hps. by apply lookup_app_l_Some.
    + intros w Hw1 Hr1. pose proof (Hstep (length l1) p) as Hs. rewrite Hps in Hs at 1. rewrite lookup_app_r, Nat.sub_diag in Hs by done.
      specialize (Hs eq_refl w _ _ _ Hw1 Hr1). by rewrite Hp in Hs.
    + rewrite Hps in Hmkr. unfold Batch.all_terms_of in *. by rewrite length_app, sum_list_with_app in Hmkr.
    + assert (length ps = length l1 + S (length l2))%nat as Hl by (rewrite Hps, length_app; done). rewrite Hl in *. rewrite Hrun in *. cbn in *. by rewrite Hwhole.
  - clear Hwhole. destruct (batch_loop_rounds sha256 is_alphabetic is_numeric registry opts org repo USIZE_MAX bid (nth_file ps) ps 0 0 d
      (mark_open_batch bid org repo wt1) 0 [] 0 a 0 0 Hstep Ef Hmk) as (db' & wt' & rs & txn' & c' & Hrun & Rs & _ & Hrs & _); [by rewrite !Nat.add_0_r|].
    rewrite Nat.add_0_r in Hrun. cbn [batch_loop app] in Hrun. pose proof Hrun as Hkeep.
    apply (batch_loop_keeps _ _ _ _ _ _ _ _ _ _ _ (nth_file_keeps ps) _ d) in Hkeep as [_ Hkeep]; [|by left].
    specialize (Hkeep _ _ _ eq_refl). rewrite Hrun. cbn [app mbind outcome_mbind outcome_bind].
    exists (clear_open_batch wt'), rs. split_and!; [done|done|by apply clear_run|]. unfold keeps_marker in *.
    change (db_raft_sm wt' = db_raft_sm wt). by rewrite Hkeep.
Qed.

(** The marked vacuum keeps what it wrote also when no term was dead. *)
Lemma vacuum_stores d a :
  stores sha256 d a → no_collisions sha256 d → ∃ st b d', vacuum_in sha256 d = Ok (st, b, d') ∧ stores sha256 d' a.
Proof.
  intros Ha Hnc. destruct (vacuum_run sha256 sha256_bytes d a Ha Hnc) as (st & d' & Hv & Hd' & _).
  unfold vacuum in Hv. apply bind_Ok in Hv as ([[st1 b] d1] & Hv & [= -> Hb]). exists st, b, d1. split; [done|].
  destruct b; [|by subst]. unfold vacuum_in in Hv. apply bind_Ok in Hv as (live & _ & Hv). apply bind_Ok in Hv as (all & _ & Hv).
  apply bind_Ok in Hv as (d2 & Hf & [= _ Hdead <-]). apply bool_decide_eq_true in Hdead. rewrite Hdead in *. by injection Hf as <-.
Qed.

(** ** Conversions do not panic *)

Lemma collect_total {E A B} (f : A → outcome E B) l : (∀ x, f x ≠ Panic) → collect f l ≠ Panic.
Proof.
  intros Hf. induction l as [|x l IH]; [done|]. cbn. specialize (Hf x). destruct (f x); cbn; [|done|done].
  by destruct (collect f l).
Qed.
Lemma enum_total {R} `{EnumMap R} what v : enum_field (R:=R) what v ≠ Panic.
Proof. unfold enum_field, wire_try_from. by destruct (enum_of_i32 v). Qed.
Lemma extraction_total x : extraction_from x ≠ Panic.
Proof.
  assert (∀ y, symbol_from y ≠ Panic) as Hs.
  { intros y. unfold symbol_from. pose proof (enum_total (R:=SymbolKind) (lit "SymbolDecl.kind") (Pb.de_kind y)).
    destruct (enum_field _ _); [|done|done]. by destruct (Pb.de_span y). }
  assert (∀ y, token_from y ≠ Panic) as Ht.
  { intros y. unfold token_from. pose proof (enum_total (R:=TokenClass) (lit "TokenDecl.class") (Pb.to_class y)).
    destruct (enum_field _ _); [|done|done]. by destruct (Pb.to_span y). }
  unfold extraction_from. pose proof (collect_total symbol_from (Pb.xt_symbols x) Hs). pose proof (collect_total token_from (Pb.xt_tokens x) Ht).
  destruct (collect symbol_from _); [|done|done]. by destruct (collect token_from _).
Qed.
Lemma batch_file_total f : as_batch_file f ≠ Panic.
Proof. unfold as_batch_file, resolved_encoding_hint. destruct (Pb.fb_encoding_hint f) as [l|]; cbn; [|done]. by destruct (hint_from_label l). Qed.

(** ** Commands *)

(** What the store and its extractors must be able to hold. *)
Definition cmd_fits d (cmd : LogCmd) : Prop :=
  match cmd with
  | IndexChunk org repo reindex files =>
      let opts := mkIndexOptions reindex None false in
      sum_list (λ f, Z.of_nat (length (Pb.fb_bytes f))) files < USIZE_MAX ∧
      (∀ f b, f ∈ files → as_batch_file f = Ok b → raw_ok org repo opts b) ∧
      ∀ qs, chunk_files org repo opts files = Some qs → room_for d (length qs) (all_terms_of qs)
  | IngestExtraction org repo path language x origin =>
      ∀ ex, given_extraction x = Some ex → small_ex ex ∧ texts_ok ex ∧ term_room d ex ∧ id_room d
  | VacuumCmd => no_collisions sha256 d
  | _ => True
  end.
Definition refused (r : LogResponse) : Prop := ∃ er, is_refusal er = true ∧ r = Failed (ErrDetail_of er).
Lemma refused_by er : is_refusal er = true → refused (Failed (ErrDetail_of er)).
Proof. intros Her. by exists er. Qed.
Definition cmd_answer a (cmd : LogCmd) (r : LogResponse) : Prop :=
  match cmd with
  | IndexChunk org repo reindex files =>
      let opts := mkIndexOptions reindex None false in
      match chunk_files org repo opts files with
      | Some qs =>
          let ps := prepared_at opts a <$> qs in
          match first_abort opts org repo a ps with
          | Some (_, er) => r = Failed (ErrDetail_of er)
          | None => ∃ rs out, outcomes opts a ps rs ∧ collect file_answer rs = Ok out ∧ r = Index out
          end
      | None => refused r
      end
  | IngestExtraction org repo path language x origin =>
      match given_extraction x with
      | Some ex =>
          match validate_spans ex, ingest_guard org repo language ex with
          | Ok _, Ok _ => ∃ stats, r = Ingest stats ∧ is_unchanged stats = false ∧
              is_replaced stats = bool_decide (is_Some (a !! (org, repo, normalize_path path))) ∧
              is_symbols stats = length (ex_symbols ex) ∧ is_tokens stats = length (ex_tokens ex)
          | _, _ => refused r
          end
      | None => refused r
      end
  | PruneCmd org repo keep =>
      ∃ removed, r = Prune removed ∧ StronglySorted str_lt removed ∧
        ∀ p, p ∈ removed ↔ ∃ v, a !! (org, repo, p) = Some v ∧ pruned org repo keep (org, repo, p) v
  | VacuumCmd => ∃ o, r = Vacuum o
  | Noop => r = Marked
  end.

(** A write that was done, or refused without a trace. *)
Definition performed d (m : RaftMarker) (mem : option (list Z)) (docs docs' : gmap dkey Doc) (ans : LogResponse → Prop)
    (w : Db tbl * result LogResponse) : Prop :=
  match w with
  | (d', Ok r) => keeps_marker (stamped d m mem) d' ∧ stores sha256 d' docs' ∧ ans r
  | (d', Err er) => d' = d ∧ is_refusal er = true ∧ docs' = docs ∧ ans (Failed (ErrDetail_of er))
  | (_, Panic) => False
  end.

(** Reduce a write whose parts are known. *)
Ltac run_write := cbn [mbind outcome_mbind outcome_bind answer committed fst snd performed].

Section commands.
Context (d : Db tbl) (a : gmap dkey Doc) (m : RaftMarker) (cur : option RaftMarker).
Hypothesis d_a : stores sha256 d a.
Hypothesis d_cur : raft_marker d = Ok cur.
Hypothesis m_new : already cur m = false.
Hypothesis m_ok : marker_ok m.

Lemma chunk_cases org repo opts files :
  (∀ f b, f ∈ files → as_batch_file f = Ok b → raw_ok org repo opts b) →
  (∃ fs, collect as_batch_file files = Ok fs ∧ Forall (raw_ok org repo opts) fs) ∨
  ((∀ fs, collect as_batch_file files ≠ Ok fs) ∧
   ∃ msg, prepare_chunk sha256 is_alphabetic is_numeric registry d org repo opts files = Err (Protocol msg)).
Proof.
  induction files as [|f files IH]; intros Hf; [left; by exists []|].
  unfold prepare_chunk in *. cbn [collect].
  pose proof (batch_file_total f) as Hp. destruct (as_batch_file f) as [b|msg|] eqn:Eb; [| |done].
  - pose proof (Hf f b ltac:(by left) Eb) as Hb. cbn [protocol mbind outcome_mbind outcome_bind].
    rewrite (prepare_run d a org repo opts b d_a Hb). cbn [mbind outcome_mbind outcome_bind].
    destruct IH as [(fs & Hfs & Hok)|[Hc [msg Hm]]]; [intros g c Hg; apply Hf; by right| |].
    + left. exists (b :: fs). rewrite Hfs. by split; [|constructor].
    + right. rewrite Hm. split; [|by eexists]. intros fs. destruct (collect as_batch_file files) as [fs'| |]; [|done|done]. by destruct (Hc fs').
  - right. split; [done|by eexists].
Qed.

Lemma outcomes_answered opts l : ∀ a rs, outcomes opts a l rs → ∃ out, collect file_answer rs = Ok out.
Proof.
  induction l as [|p l IH]; intros a1 [|r rs] Ho; try done; [by exists []|]. destruct Ho as [Hr Ho].
  destruct (IH _ _ Ho) as [out Hout]. cbn [collect]. assert (∃ x, file_answer r = Ok x) as [x ->].
  { unfold commit_outcome in Hr. repeat case_match; try done; first [destruct Hr as (s & -> & _); by eexists|subst r; by eexists]. }
  cbn [mbind outcome_mbind outcome_bind]. rewrite Hout. by eexists.
Qed.

Lemma chunk_performed org repo reindex files :
  cmd_fits d (IndexChunk org repo reindex files) →
  performed d m None a (cmd_docs a (IndexChunk org repo reindex files)) (cmd_answer a (IndexChunk org repo reindex files))
    (apply_command d (Some (IndexChunk org repo reindex files)) m).
Proof.
  intros (Hsum & Hf & Hroom). cbn [RaftApply.apply_command cmd_docs]. cbv zeta. set (opts := mkIndexOptions reindex None false) in *.
  unfold cmd_answer, chunk_files in *. fold opts.
  destruct (chunk_cases org repo opts files Hf) as [(fs & Hfs & Hok)|[Hc [msg Hm]]].
  - pose proof (chunk_prepared d a org repo opts files fs d_a Hfs Hok) as Hps. destruct (chunk_len _ _ _ _ _ _ _ _ _ _ Hps) as [Hlen Hbytes]. rewrite Hps.
    destruct (built_shaped org repo opts a fs Hok) as (Hsh & Hl & Ht). rewrite Hfs in *. set (qs := raw_prepared org repo opts <$> fs) in *.
    specialize (Hroom qs eq_refl). rewrite <- Hl, <- Ht in Hroom. rewrite <- Hbytes in Hsum.
    pose proof (marked_batch_run d a m cur org repo opts (built opts a qs) d_a d_cur m_new m_ok Hsh Hroom Hlen Hsum) as Hrun. cbv zeta in Hrun |- *.
    destruct (build_v2_batch is_alphabetic is_numeric registry opts org repo (prepared_at opts a <$> qs) a) as (Ec & Ef & Eo).
    unfold built in *. rewrite Ef, Ec in Hrun. destruct (first_abort opts org repo a _) as [[i er]|] eqn:Ea.
    + rewrite Hrun. cbn. by eapply abort_refusal in Ea.
    + destruct Hrun as (d' & rs & -> & Ho & Rd & Hk). apply Eo in Ho.
      destruct (outcomes_answered opts _ a rs Ho) as [out Hout]. cbn [mbind outcome_mbind outcome_bind]. rewrite Hout. cbn.
      split_and!; [done|done|by exists rs, out].
  - rewrite Hm. destruct (collect as_batch_file files) as [fs| |]; [by destruct (Hc fs)|..]; cbn; (split_and!; [done|done|done|by apply refused_by]).
Qed.

Lemma ingest_performed org repo path language x origin :
  cmd_fits d (IngestExtraction org repo path language x origin) →
  performed d m None a (cmd_docs a (IngestExtraction org repo path language x origin))
    (cmd_answer a (IngestExtraction org repo path language x origin))
    (apply_command d (Some (IngestExtraction org repo path language x origin)) m).
Proof.
  intros Hfit. cbn [cmd_fits RaftApply.apply_command cmd_docs] in *. unfold cmd_answer.
  destruct (given_extraction x) as [ex|] eqn:Ex.
  2:{ assert (∃ msg, ok_or x (Protocol (lit "IngestExtraction.extraction is missing")) ≫= (λ x, protocol (extraction_from x)) = Err (Protocol msg)) as [msg ->].
      { destruct x as [x|]; [|by eexists]. cbn in *. pose proof (extraction_total x). destruct (extraction_from x); try done. by eexists. }
      cbn. split_and!; [done|done|done|by apply refused_by]. }
  assert (ok_or x (Protocol (lit "IngestExtraction.extraction is missing")) ≫= (λ x, protocol (extraction_from x)) = Ok ex) as ->.
  { destruct x as [x|]; [|done]. cbn in *. destruct (extraction_from x); try done. by injection Ex as ->. }
  destruct (Hfit ex eq_refl) as (Hsm & Htx & Htr & Hid). unfold ingest_file_marked.
  destruct (validate_spans_cases ex) as [[Hsp ->]|[_ [msg ->]]]; [|by split_and!; [..|by apply refused_by]].
  cbn [mbind outcome_mbind outcome_bind]. rewrite (stamp_fresh d m None cur d_cur m_new). cbn [mbind outcome_mbind outcome_bind].
  unfold ingest_validated. set (wt := stamped d m None).
  destruct (ingest_guard_cases org repo language ex) as [[Hg _]|[[msg Hg] _]]; rewrite Hg.
  - destruct (ingest_total sha256 wt a org repo path language ex (FileMeta_extracted origin) None) as [[_ Hno]|(file & d' & He & Rd & _)]; try done.
    { by apply stamped_stores. }
    pose proof (keeps_raft _ _ (ingest_keeps _ _ _ _ _ _ _ _ _ _ _ He)) as Hk.
    rewrite He. run_write.
    split; [exact Hk|]. split; [done|]. eexists. by split_and!.
  - unfold ingest_prepped. rewrite Hg. cbn. split_and!; [done|done|done|by apply refused_by].
Qed.

Lemma mark_performed mem ans :
  ans Marked → performed d m mem a a ans (mark hook d m mem).
Proof.
  intros Hans. unfold mark, mark_only. rewrite (stamp_fresh d m mem cur d_cur m_new). run_write.
  split; [done|]. split; [by apply stamped_stores|done].
Qed.
Lemma cmd_performed cmd :
  cmd_fits d cmd → performed d m None a (cmd_docs a cmd) (cmd_answer a cmd) (apply_command d (Some cmd) m).
Proof.
  intros Hfit. destruct cmd as [org repo reindex files|org repo path language x origin|org repo keep| |].
  - by apply chunk_performed.
  - by apply ingest_performed.
  - cbn [RaftApply.apply_command]. unfold prune_files_marked. rewrite (stamp_fresh d m None cur d_cur m_new). cbn [mbind outcome_mbind outcome_bind].
    destruct (prune_run sha256 (stamped d m None) a org repo keep (stamped_stores d a m None d_a)) as (rm & d' & Hp & _ & Rd & Hsr & Hin).
    unfold prune_files in Hp. apply bind_Ok in Hp as ([rm' d1] & Hp & [= -> ->]). pose proof (keeps_raft _ _ (prune_keeps _ _ _ _ _ _ _ Hp)) as Hk. rewrite Hp. run_write.
    split; [exact Hk|]. split; [done|]. by eexists.
  - cbn [RaftApply.apply_command]. unfold vacuum_marked. rewrite (stamp_fresh d m None cur d_cur m_new). cbn [mbind outcome_mbind outcome_bind].
    destruct (vacuum_stores (stamped d m None) a (stamped_stores d a m None d_a) Hfit) as (st & b & d' & Hv & Rd).
    pose proof (keeps_raft _ _ (vacuum_keeps _ _ _ _ _ Hv)) as Hk. rewrite Hv. run_write. split; [exact Hk|]. split; [done|]. by eexists.
  - by apply mark_performed.
Qed.
End commands.

(** ** Entries *)

Definition entry_fits d e : Prop :=
  log_id_ok (e_log_id e) ∧ match entry_cmd e with Some c => cmd_fits d c | None => True end.
Definition entry_answer a e (r : LogResponse) : Prop :=
  match e_payload e with
  | Normal _ => match entry_cmd e with Some c => cmd_answer a c r | None => refused r end
  | _ => r = Marked
  end.
Definition entry_membership e : option (list Z) :=
  match e_payload e with
  | Membership mm => Some (to_vec (mkStoredMembership (Some (e_log_id e)) mm))
  | _ => None
  end.

Lemma payload_performed d a m cur e :
  stores sha256 d a → raft_marker d = Ok cur → already cur m = false → marker_ok m → entry_fits d e →
  performed d m (entry_membership e) a (entry_docs a e) (entry_answer a e) (apply_payload d e m).
Proof.
  intros R Hc Ha Hmok [_ Hfit]. unfold entry_fits, entry_answer, entry_docs, entry_membership, entry_cmd, RaftApply.apply_payload in *.
  destruct (e_payload e) as [|command|mm]; [by eapply mark_performed| |by eapply mark_performed].
  unfold decode_request. destruct (prost_decode command) as [[c|]|]; cbn [mjoin option_join] in *.
  - by eapply cmd_performed.
  - split_and!; [done|done|done|by apply refused_by].
  - split_and!; [done|done|done|by apply refused_by].
Qed.

(** The store is in the state [s]. *)
Definition represents d (s : Replica) : Prop :=
  stores sha256 d (ra_docs s) ∧ raft_marker d = Ok (marker_of <$> ra_last s) ∧
  stored_membership default_membership d = Ok (ra_membership s).

Lemma stamped_membership d m mem d' :
  keeps_marker (stamped d m mem) d' →
  raft_membership d' = match mem with Some b => Some b | None => raft_membership d end.
Proof.
  intros Hk. unfold raft_membership. rewrite !tbl_get_spec, Hk. unfold stamped.
  destruct mem; change (db_raft_sm (upd_raft_sm ?g ?x)) with (g (db_raft_sm x)); rewrite tbl_insert_spec.
  - by rewrite lookup_insert_eq.
  - by rewrite lookup_insert_ne.
Qed.
Lemma represents_moved d s e d' docs :
  represents d s → log_id_ok (e_log_id e) → already (marker_of <$> ra_last s) (marker_of (e_log_id e)) = false →
  keeps_marker (stamped d (marker_of (e_log_id e)) (entry_membership e)) d' → stores sha256 d' docs →
  represents d' (mkReplica docs (Some (e_log_id e))
    match e_payload e with Membership mm => mkStoredMembership (Some (e_log_id e)) mm | _ => ra_membership s end).
Proof.
  intros (_ & Hm & Hs) Hid Ha Hk Rd. split; [done|]. split; cbn [ra_last ra_membership].
  - by eapply stamped_marker.
  - unfold stored_membership in *. rewrite (stamped_membership _ _ _ _ Hk). unfold entry_membership.
    destruct (e_payload e); [done|done|]. by rewrite json_roundtrip.
Qed.

(** What is answered in the state [s]. *)
Definition state_answer (s : Replica) e (r : LogResponse) : Prop :=
  if already (marker_of <$> ra_last s) (marker_of (e_log_id e)) then r = Skipped else entry_answer (ra_docs s) e r.

Lemma apply_one_spec d s e :
  represents d s → entry_fits d e →
  ∃ d' r, apply_one d e = (d', Ok r) ∧ represents d' (spec_apply s e) ∧ state_answer s e r.
Proof.
  intros Hrep Hfit. pose proof Hrep as (R & Hm & Hs). unfold RaftApply.apply_one, spec_apply, state_answer. rewrite Hm.
  destruct (already _ _) eqn:Ha; [by exists d, Skipped|].
  pose proof (payload_performed d (ra_docs s) _ _ e R Hm Ha (proj1 Hfit) Hfit) as Hp.
  destruct (apply_payload d e (marker_of (e_log_id e))) as [d' [r|er|]]; cbn [performed] in Hp; [| |done].
  - destruct Hp as (Hk & Rd & Hans). exists d', r. split_and!; [done| |done]. by eapply represents_moved; [..|apply Hfit| | |].
  - destruct Hp as (-> & Href & Hdocs & Hans). exists (stamped d (marker_of (e_log_id e)) None), (Failed (ErrDetail_of er)).
    destruct (moved_refused d (marker_of (e_log_id e)) _ (proj1 Hfit) Hm Ha) as (d' & Hr & -> & _).
    split; [destruct er; try done; cbn [is_refusal]; by rewrite Hr|]. split; [|done].
    assert (entry_membership e = None) as Hmem by (unfold entry_answer, entry_membership in *; by destruct (e_payload e)).
    rewrite Hdocs. eapply represents_moved; [done|apply Hfit|done| |by apply stamped_stores]. by rewrite Hmem.
Qed.

(** ** Logs *)

Fixpoint log_fits d es : Prop :=
  match es with [] => True | e :: es => entry_fits d e ∧ log_fits (apply_one d e).1 es end.
Fixpoint log_answers (s : Replica) es (rs : list LogResponse) : Prop :=
  match es, rs with
  | [], [] => True
  | e :: es, r :: rs => state_answer s e r ∧ log_answers (spec_apply s e) es rs
  | _, _ => False
  end.

Lemma apply_all_spec es : ∀ d s, represents d s → log_fits d es →
  ∃ d' rs, apply_all d es = (d', Ok rs) ∧ represents d' (foldl spec_apply s es) ∧ log_answers s es rs.
Proof.
  induction es as [|e es IH]; intros d s Hrep Hfit; [by exists d, []|]. destruct Hfit as [Hfit Hfits].
  destruct (apply_one_spec d s e Hrep Hfit) as (d1 & r & He & Hrep1 & Hans). rewrite He in Hfits.
  destruct (IH d1 (spec_apply s e) Hrep1 Hfits) as (d' & rs & Hes & Hrep' & Hanss).
  exists d', (r :: rs). cbn [RaftApply.apply_all]. rewrite He, Hes. by split_and!.
Qed.

(** Entries at or below the last applied one change nothing. *)
Lemma spec_apply_settled p s l :
  ra_last s = Some l → Forall (λ e, e_index e ≤ lid_index l) p → foldl spec_apply s p = s.
Proof.
  intros Hl. induction 1 as [|e p He _ IH]; [done|]. cbn [foldl].
  assert (spec_apply s e = s) as -> by (unfold spec_apply; rewrite Hl; cbn; by rewrite (proj2 (Z.leb_le _ _) He)). done.
Qed.

(** C5: Replicas that apply the same entries hold the same documents. On a
    store in a given state, applying entries that fit it completes with one
    answer per entry and leaves the store in the state that the entries
    describe: the documents changed by each indexed chunk, extraction and prune
    in order, the last entry's id, and the last membership. Vacuums, blanks,
    memberships and undecodable commands change no document, and neither does a
    chunk with a file that can be stored under no name, or an extraction with
    spans or names that are refused; each is answered with its error. The
    answers are those of the entries, and the applied state the node reads back
    after a restart is the last id and that membership. Replaying entries at or
    below the last applied one before them answers "skipped" for each and
    changes nothing. To fit ([log_fits]) an entry has a log id of machine width,
    the sources of a chunk are below 2^64 - 1 bytes, what is extracted fits the
    32-bit format, ids are left for it, and no two terms that a vacuum meets
    have one hash. *)
Theorem replicas_agree d s es :
  represents d s → log_fits d es →
  ∃ d' rs, apply_all d es = (d', Ok rs) ∧ represents d' (foldl spec_apply s es) ∧ log_answers s es rs ∧
    read_applied default_membership d' = Ok (ra_last (foldl spec_apply s es), ra_membership (foldl spec_apply s es)) ∧
    ∀ p l, ra_last s = Some l → Forall (λ e, e_index e ≤ lid_index l) p →
      apply_all d (p ++ es) = (d', Ok (replicate (length p) Skipped ++ rs)) ∧ foldl spec_apply s (p ++ es) = foldl spec_apply s es.
Proof.
  intros Hrep Hfit. destruct (apply_all_spec es d s Hrep Hfit) as (d' & rs & Hes & Hrep' & Hans).
  exists d', rs. split; [done|]. split; [done|]. split; [done|]. split.
  - destruct Hrep' as (_ & Hm & Hmem). unfold read_applied. rewrite Hm, Hmem. cbn. do 2 f_equal.
    destruct (ra_last _); [|done]. cbn. by rewrite log_id_marker.
  - intros p l Hl Hp. split; [|by rewrite foldl_app, (spec_apply_settled p s l)].
    destruct Hrep as (_ & Hm & _). rewrite Hl in Hm. rewrite (apply_all_settled _ _ _ _ _ p es d _ Hm Hp), Hes. done.
Qed.
End replica.

(** ** An example *)
#[global] Instance PbSpan_eq_dec : EqDecision Pb.Span.
Proof. solve_decision. Defined.
#[global] Instance PbSpan_countable : Countable Pb.Span.
Proof.
  refine (inj_countable' (λ s, (Pb.sp_start s, Pb.sp_end s, Pb.sp_start_line s, Pb.sp_start_col s, Pb.sp_end_line s, Pb.sp_end_col s))
    (λ '(a, b, c, d, e, f), Pb.mkSpan a b c d e f) _). by intros [].
Defined.
#[global] Instance PbSymbolDecl_eq_dec : EqDecision Pb.SymbolDecl.
Proof. solve_decision. Defined.
#[global] Instance PbSymbolDecl_countable : Countable Pb.SymbolDecl.
Proof.
  refine (inj_countable' (λ s, (Pb.de_name s, Pb.de_kind s, Pb.de_lang_kind s, Pb.de_span s, Pb.de_owner s))
    (λ '(a, b, c, d, e), Pb.mkSymbolDecl a b c d e) _). by intros [].
Defined.
#[global] Instance PbTokenDecl_eq_dec : EqDecision Pb.TokenDecl.
Proof. solve_decision. Defined.
#[global] Instance PbTokenDecl_countable : Countable Pb.TokenDecl.
Proof.
  refine (inj_countable' (λ t, (Pb.to_text t, Pb.to_class t, Pb.to_span t)) (λ '(a, b, c), Pb.mkTokenDecl a b c) _). by intros [].
Defined.
#[global] Instance PbExtraction_eq_dec : EqDecision Pb.Extraction.
Proof. solve_decision. Defined.
#[global] Instance PbExtraction_countable : Countable Pb.Extraction.
Proof.
  refine (inj_countable' (λ x, (Pb.xt_symbols x, Pb.xt_tokens x, Pb.xt_has_errors x)) (λ '(a, b, c), Pb.mkExtraction a b c) _). by intros [].
Defined.
#[global] Instance PbFileBytes_eq_dec : EqDecision Pb.FileBytes.
Proof. solve_decision. Defined.
#[global] Instance PbFileBytes_countable : Countable Pb.FileBytes.
Proof.
  refine (inj_countable' (λ f, (Pb.fb_path f, Pb.fb_bytes f, Pb.fb_language f, Pb.fb_origin f, Pb.fb_encoding_hint f, Pb.fb_strict_encoding f))
    (λ '(a, b, c, d, e, f), Pb.mkFileBytes a b c d e f) _). by intros [].
Defined.
#[global] Instance LogCmd_eq_dec : EqDecision LogCmd.
Proof. solve_decision. Defined.
#[global] Instance LogCmd_countable : Countable LogCmd.
Proof.
  refine (inj_countable' (λ c, match c with
      | IndexChunk o r b fs => inl (o, r, b, fs)
      | IngestExtraction o r p l x g => inr (inl (o, r, p, l, x, g))
      | PruneCmd o r k => inr (inr (inl (o, r, k)))
      | VacuumCmd => inr (inr (inr true))
      | Noop => inr (inr (inr false)) end)
    (λ c, match c with
      | inl (o, r, b, fs) => IndexChunk o r b fs
      | inr (inl (o, r, p, l, x, g)) => IngestExtraction o r p l x g
      | inr (inr (inl (o, r, k))) => PruneCmd o r k
      | inr (inr (inr true)) => VacuumCmd
      | inr (inr (inr false)) => Noop end) _). by intros [].
Defined.
#[global] Instance LogCommand_eq_dec : EqDecision LogCommand.
Proof. unfold LogCommand. apply _. Defined.
#[global] Instance LogCommand_countable : Countable LogCommand.
Proof. unfold LogCommand, LogCommand_eq_dec. apply _. Defined.
#[global] Instance StoredMembership_eq_dec : EqDecision (StoredMembership Z).
Proof. solve_decision. Defined.
#[global] Instance StoredMembership_countable : Countable (StoredMembership Z).
Proof.
  refine (inj_countable' (λ s, (sm_log_id s, sm_membership s)) (λ '(i, m), mkStoredMembership i m) _). by intros [].
Defined.

#[local] Existing Instance gmap_redb.
#[local] Existing Instance coded_serde.
#[local] Existing Instance sample_rs.
#[local] Existing Instance coded_prost.
#[local] Existing Instance coded_detail.
#[local] Instance membership_json : Json (StoredMembership Z) := coded_json.
Module Replayed.
(** A membership, an extraction, a prune that removes it again, and a command that no node can read. *)
Definition at_ (i : Z) : LogId := mkLogId 2 1 i.
Definition cmd (c : LogCmd) : EntryPayload Z := Normal (encode_to_vec (Some c : LogCommand)).
Definition log : list (Entry Z) :=
  [mkEntry (at_ 0) (Membership 5);
   mkEntry (at_ 1) (cmd (IngestExtraction (lit "o") (lit "r") (lit "src//a.rs") (lit "Rust") (Some (extraction_into demo)) (Some ORIGIN_DIRECTORY)));
   mkEntry (at_ 2) (Normal []);
   mkEntry (at_ 3) (cmd (PruneCmd (lit "o") (lit "r") []))].
Definition start : Replica (M:=Z) := mkReplica ∅ None (mkStoredMembership None 0).
Definition stops : Replica (M:=Z) :=
  foldl (spec_apply Sample.sha Sample.no_char Sample.no_char Sampled.registry) start log.

Lemma started : represents Sample.sha 0 (db_empty (tbl:=λ K _ _ V, gmap K V)) start.
Proof. split; [apply stores_empty|]. split; by vm_compute. Qed.
Lemma ids i : 0 ≤ i < 10 → log_id_ok (at_ i).
Proof. intros Hi. split_and!; cbn; mach. Qed.
Lemma entry_of i c : entry_cmd (mkEntry (at_ i) (cmd c)) = Some c.
Proof. unfold entry_cmd, cmd. cbn [e_payload]. by rewrite prost_roundtrip. Qed.
Abbreviation db := (Db (λ K _ _ V, gmap K V)).
Abbreviation fits := (entry_fits (M:=Z) Sample.sha Sample.no_char Sample.no_char Sampled.registry).
Lemma membership_fits (d : db) i m : 0 ≤ i < 10 → fits d (mkEntry (at_ i) (Membership m)).
Proof. intros Hi. split; [by apply ids|exact I]. Qed.
Lemma unread_fits (d : db) i : 0 ≤ i < 10 → fits d (mkEntry (at_ i) (Normal [])).
Proof. intros Hi. split; [by apply ids|exact I]. Qed.
Lemma prune_fits (d : db) i org repo keep : 0 ≤ i < 10 → fits d (mkEntry (at_ i) (cmd (PruneCmd org repo keep))).
Proof. intros Hi. split; [by apply ids|]. rewrite entry_of. exact I. Qed.
Lemma ingest_fits (d : db) i org repo path language origin :
  0 ≤ i < 10 → term_room d demo → id_room d →
  fits d (mkEntry (at_ i) (cmd (IngestExtraction org repo path language (Some (extraction_into demo)) origin))).
Proof.
  intros Hi Ht Hid. split; [by apply ids|]. rewrite entry_of. intros ex Hex. assert (ex = demo) as ->.
  { unfold given_extraction in Hex. cbn [mbind option_bind] in Hex. rewrite (proj2 (extraction_from_Ok _ _) eq_refl) in Hex. by injection Hex. }
  split; [exact demo_small|]. split; [exact Sample.demo_texts|]. by split.
Qed.
Definition after_membership : db :=
  (apply_one Sample.sha Sample.no_char Sample.no_char (λ _, []) (λ _, Ok ()) Sampled.registry db_empty (mkEntry (at_ 0) (Membership 5))).1.
Lemma room_after : term_room after_membership demo ∧ id_room after_membership.
Proof. split; [unfold term_room; by vm_compute|by vm_compute]. Qed.
Lemma fitting :
  log_fits Sample.sha Sample.no_char Sample.no_char (λ _, []) Sampled.registry (db_empty (tbl:=λ K _ _ V, gmap K V)) log.
Proof.
  split; [apply membership_fits; lia|]. split; [apply ingest_fits; [lia|apply room_after..]|].
  split; [apply unread_fits; lia|]. split; [apply prune_fits; lia|exact I].
Qed.
Lemma stops_at : ra_last stops = Some (at_ 3) ∧ ra_membership stops = mkStoredMembership (Some (at_ 0)) 5.
Proof. lazy. by split. Qed.
End Replayed.
Lemma replicas_agree_witness :
  ∃ d' rs, apply_all Sample.sha Sample.no_char Sample.no_char (λ _, []) (λ _, Ok ()) Sampled.registry
      (db_empty (tbl:=λ K _ _ V, gmap K V)) Replayed.log = (d', Ok rs) ∧
    represents Sample.sha 0 d' Replayed.stops ∧
    read_applied 0 d' = Ok (Some (Replayed.at_ 3), mkStoredMembership (Some (Replayed.at_ 0)) 5).
Proof.
  destruct (replicas_agree Sample.sha Sample.no_char Sample.no_char (λ _, []) 0 Sampled.registry (λ _, Forall_nil_2 _)
    (db_empty (tbl:=λ K _ _ V, gmap K V)) Replayed.start Replayed.log Replayed.started Replayed.fitting)
    as (d' & rs & Hrun & Hrep & _ & Happ & _).
  exists d', rs. split; [exact Hrun|]. split; [exact Hrep|].
  destruct Replayed.stops_at as [Hl Hm]. unfold Replayed.stops in Hl, Hm. rewrite Hl, Hm in Happ. exact Happ.
Defined.

Lemma apply_answers_witness :
  ∃ d' rs, apply_all Sample.sha Sample.no_char Sample.no_char (λ _, []) (λ _, Ok ()) Sampled.registry
      (db_empty (tbl:=λ K _ _ V, gmap K V)) [mkEntry (Replayed.at_ 0) (Blank (M:=Z)); mkEntry (Replayed.at_ 1) (Normal [])] = (d', Ok rs) ∧
    length rs = 2%nat.
Proof.
  destruct (apply_answers Sample.sha Sample.no_char Sample.no_char (λ _, []) Sampled.registry
    [mkEntry (Replayed.at_ 0) (Blank (M:=Z)); mkEntry (Replayed.at_ 1) (Normal [])] (db_empty (tbl:=λ K _ _ V, gmap K V))) as [Hrun _].
  - apply Forall_cons. split; [|apply Forall_cons; split; [|by apply Forall_nil]]; (split; [apply Replayed.ids; lia|]);
      intros command org repo reindex files [= <-]; done.
  - destruct (apply_all _ _ _ _ _ _ _ _) as [d' [rs| |]] eqn:E; [exists d', rs; split; [reflexivity|apply Hrun]| |];
      vm_compute in E; discriminate E.
Defined.
