(* ===== verification/Service.v ===== *)
(** * The write service

    [graph-server/src/services/write.rs] on the node that leads: every write
    becomes commands of the replicated log, proposed one after the other, and
    what the state machine answers becomes the answer of the call. The
    cluster is an environment that decides the fate of each proposal;
    forwarding to another node, tracing and the test hook are left out. *)
From S2P Require Import Prelude Text Schema Table DictRev StrOps Language Encoding Prep Db Write Commit Prepare WireError Wire.
From S2P Require Import RaftLog RaftApply.

Definition RAFT_ENTRY_MAX_BYTES : Z := Z.shiftl 8 20.

(** ** Cutting files into entries *)

Definition source_bytes (f : Pb.FileBytes) : Z := Z.of_nat (length (Pb.fb_bytes f)).
(** [!cur.is_empty() && cur_bytes + f.bytes.len() > RAFT_ENTRY_MAX_BYTES]. *)
Definition overflows (cur : list Pb.FileBytes) (cur_bytes : Z) (f : Pb.FileBytes) : bool :=
  match cur with [] => false | _ => RAFT_ENTRY_MAX_BYTES <? cur_bytes + source_bytes f end.

Fixpoint cut_loop (files : list Pb.FileBytes) (out : list (list Pb.FileBytes)) (cur : list Pb.FileBytes) (cur_bytes : Z)
    : list (list Pb.FileBytes) :=
  match files with
  | [] => match cur with [] => out | _ => out ++ [cur] end
  | f :: files =>
      if overflows cur cur_bytes f then cut_loop files (out ++ [cur]) [f] (source_bytes f)
      else cut_loop files out (cur ++ [f]) (cur_bytes + source_bytes f)
  end.
Definition cut_chunks (files : list Pb.FileBytes) : list (list Pb.FileBytes) := cut_loop files [] [] 0.

(** ** Messages *)

(** [pb::index_request::Msg]; the options are whether to reindex. *)
Inductive IndexMsg : Type :=
  | IndexHeader (org repo : str) (options : option bool)
  | IndexFile (file : Pb.FileBytes).
(** A message of a stream, or the error that ends it. *)
Definition IndexRequest : Type := option IndexMsg.
Record IndexResponse : Type := mkIndexResponse {
  ir_results : list Pb.FileResult;
  ir_forwarded_to_leader : bool;
  ir_applied_index : Z;
}.
(** An answer to one of the other writes. *)
Record Answered (A : Type) : Type := mkAnswered { an_answer : A; an_forwarded_to_leader : bool; an_applied_index : Z }.
Arguments mkAnswered {A} an_answer an_forwarded_to_leader an_applied_index.
Arguments an_answer {A} _.
Arguments an_forwarded_to_leader {A} _.
Arguments an_applied_index {A} _.

Definition internal (msg : str) : Status := mkStatus Internal msg [].

Section service.
Context (sha256 : list Z → list Z) (is_alphabetic is_numeric : Z → bool) `{EncodingRs} `{Redb tbl} `{Serde}.
Context `{ProstDetail} `{!Prost LogCommand} (decode_error : list Z → str).
Context {M : Type} `{!Json (StoredMembership M)}.
Context (hook : RaftMarker → result unit) (registry : Registry).
(** The texts of prost's and openraft's errors and of [{:?}] of an answer. *)
Context (detail_error : list Z → str) (fatal_text : LogId * StoreError → str) (debug : LogResponse → str).

Definition status (e : StoreError) : Status := store_error_to_status e.
(** [From<ConvertError> for Status]. *)
Definition converted {A} (m : conv A) : outcome Status A :=
  match m with
  | Ok a => Ok a
  | Err e => Err (Status_from (WProtocol (ConvertError_display e)))
  | Panic => Panic
  end.

(** ** Proposals *)

(** What becomes of a proposal: the call fails (no leader, no quorum, a full
    disk, a transfer of the lead, a lost lead), or the cluster commits it under
    an id after other entries and this node applies them; the caller may stop
    waiting. A proposal whose call failed may be committed later all the same:
    it is then among the entries before a later one, as are the blanks of new
    leaders, memberships and the proposals of others. *)
Inductive Fate : Type :=
  | Turned (e : StoreError)
  | Committed (before : list (Entry M)) (id : LogId) (lost : option StoreError).

(** The node: the commands proposed to it, its store, and the entries applied. *)
Record Leader : Type := mkLeader { ld_sent : list (list Z); ld_db : Db tbl; ld_log : list (Entry M) }.
Context (fate : nat → Fate).

(** [RaftNode::propose]. *)
Definition node_propose (command : list Z) (n : Leader) : Leader * result (LogResponse * Z) :=
  let sent := ld_sent n ++ [command] in
  match fate (length (ld_sent n)) with
  | Turned e => (mkLeader sent (ld_db n) (ld_log n), Err e)
  | Committed before id lost =>
      let es := before ++ [mkEntry id (Normal command)] in
      let '(d, rs) := apply_all sha256 is_alphabetic is_numeric decode_error hook registry (ld_db n) es in
      (mkLeader sent d (ld_log n ++ es),
       match lost with
       | Some e => Err e
       | None =>
           match rs with
           | Ok rs => match last rs with Some r => Ok (r, lid_index id) | None => Panic end
           | Err e => Err (Storage (lit "raft: " ++ fatal_text e))
           | Panic => Panic
           end
       end)
  end.

(** A call on the node. *)
Definition serve (A : Type) : Type := Leader → Leader * outcome Status A.
#[local] Instance serve_ret : MRet serve := λ A a n, (n, Ok a).
#[local] Instance serve_bind : MBind serve := λ A B f m n,
  match m n with
  | (n, Ok a) => f a n
  | (n, Err e) => (n, Err e)
  | (n, Panic) => (n, Panic)
  end.
Definition lift {A} (m : outcome Status A) : serve A := λ n, (n, m).

Definition propose (cmd : LogCmd) : serve (LogResponse * Z) := λ n,
  match node_propose (encode_to_vec (Some cmd : LogCommand)) n with
  | (n, Ok (Failed d, _)) => (n, Err (status (into_error (detail_error d) d)))
  | (n, Ok (Skipped, _)) =>
      (n, Err (internal (lit "the entry was skipped as already applied; this cannot happen for a fresh proposal")))
  | (n, Ok r) => (n, Ok r)
  | (n, Err e) => (n, Err (status e))
  | (n, Panic) => (n, Panic)
  end.

(** ** Writes *)

Definition file_result (r : IngestStats + list Z) : Pb.FileResult :=
  file_result_into match r with inl s => inl s | inr d => inr (into_error (detail_error d) d) end.

Definition index_chunk (org repo : str) (reindex : bool) (files : list Pb.FileBytes) : serve (list Pb.FileResult * Z) :=
  '(resp, i) ← propose (IndexChunk org repo reindex files);
  match resp with
  | Index results =>
      if (length results =? length files)%nat then mret (file_result <$> results, i)
      else lift (Err (internal (lit "IndexChunk applied as " ++ debug resp)))
  | _ => lift (Err (internal (lit "IndexChunk applied as " ++ debug resp)))
  end.

(** The loop of [index_here] over the messages after the header. *)
Fixpoint index_loop (org repo : str) (reindex : bool) (stream : list (IndexRequest + Status))
    (pending : list Pb.FileBytes) (pending_bytes : Z) (results : list Pb.FileResult) (applied_index : Z)
    : serve IndexResponse :=
  match stream with
  | [] =>
      match pending with
      | [] => mret (mkIndexResponse results false applied_index)
      | _ =>
          '(r, i) ← index_chunk org repo reindex pending;
          mret (mkIndexResponse (results ++ r) false i)
      end
  | msg :: stream =>
      file ← lift match msg with
        | inr e => Err e
        | inl (Some (IndexFile f)) => Ok f
        | inl (Some (IndexHeader _ _ _)) => converted (Err (lit "a second IndexHeader in the stream"))
        | inl None => converted (Err (lit "empty IndexRequest"))
        end;
      _ ← lift (converted (resolved_encoding_hint file));
      if overflows pending pending_bytes file then
        '(r, i) ← index_chunk org repo reindex pending;
        index_loop org repo reindex stream [file] (source_bytes file) (results ++ r) i
      else index_loop org repo reindex stream (pending ++ [file]) (pending_bytes + source_bytes file) results applied_index
  end.
Definition index_here (stream : list (IndexRequest + Status)) : serve IndexResponse :=
  match stream with
  | inl (Some (IndexHeader org repo options)) :: stream =>
      index_loop org repo (default false options) stream [] 0 [] 0
  | inl _ :: _ => lift (converted (Err (lit "Index stream must start with an IndexHeader")))
  | inr e :: _ => lift (Err e)
  | [] => lift (converted (Err (lit "empty Index stream")))
  end.

(** Indexing files from inside the process. *)
Fixpoint chunks_loop (org repo : str) (reindex : bool) (chunks : list (list Pb.FileBytes)) (results : list Pb.FileResult)
    : serve (list Pb.FileResult) :=
  match chunks with
  | [] => mret results
  | chunk :: chunks =>
      '(r, _) ← index_chunk org repo reindex chunk;
      chunks_loop org repo reindex chunks (results ++ r)
  end.
Definition index_files (org repo : str) (reindex : bool) (files : list Pb.FileBytes) : serve (list Pb.FileResult) :=
  _ ← lift (collect (λ f, converted (resolved_encoding_hint f)) files);
  chunks_loop org repo reindex (cut_chunks files) [].

Definition index_file (org repo : str) (file : option Pb.FileBytes) (options : option bool)
    : serve (Answered (option Pb.IngestStats)) :=
  file ← lift (converted (ok_or file (lit "required field `IndexFileRequest.file` is missing")));
  _ ← lift (converted (resolved_encoding_hint file));
  '(results, i) ← index_chunk org repo (default false options) [file];
  match results with
  | [] => lift Panic
  | r :: _ =>
      outcome ← lift (converted (file_result_from r));
      match outcome with
      | inl stats => mret (mkAnswered (Some (stats_into stats)) false i)
      | inr e => lift (Err (status e))
      end
  end.

Definition ingest_extraction (org repo path language : str) (extraction : option Pb.Extraction) (origin : option str)
    : serve (Answered (option Pb.IngestStats)) :=
  '(resp, i) ← propose (IngestExtraction org repo path language extraction origin);
  match resp with
  | Ingest stats => mret (mkAnswered (Some (stats_into stats)) false i)
  | _ => lift (Err (internal (lit "IngestExtraction applied as " ++ debug resp)))
  end.

(** A dry run reads this node's store. *)
Definition prune (org repo : str) (keep : list str) (dry_run : bool) : serve (Answered (list str)) :=
  if dry_run then λ n,
    match prune_files (ld_db n) org repo keep true with
    | Ok (removed, _) => (n, Ok (mkAnswered removed false 0))
    | Err e => (n, Err (status e))
    | Panic => (n, Panic)
    end
  else
    '(resp, i) ← propose (PruneCmd org repo keep);
    match resp with
    | Prune removed => mret (mkAnswered removed false i)
    | _ => lift (Err (internal (lit "Prune applied as " ++ debug resp)))
    end.

Definition vacuum_call : serve (Answered (option Pb.VacuumStats)) :=
  '(resp, i) ← propose VacuumCmd;
  match resp with
  | Vacuum v => mret (mkAnswered (Some (vacuum_into (VacuumStats_from v))) false i)
  | _ => lift (Err (internal (lit "Vacuum applied as " ++ debug resp)))
  end.
End service.
