(* ===== verification/Remote.v ===== *)
(** * The remote store

    The writes of [graph-client/src/remote.rs] and the retrying calls of
    [graph-client/src/conn.rs] under them, against the write service of
    [Service]. The network is an environment: what becomes of each attempt,
    and how many attempts the deadline leaves room for. Delays, warnings on
    the terminal and credentials are left out. *)
From S2P Require Import Prelude Text Schema Table DictRev StrOps Language Encoding Prep Db Write Commit Prepare WireError Wire.
From S2P Require Import RaftLog RaftApply Service.

Inductive Kind : Set := KRead | KWrite.
#[global] Instance Kind_eq_dec : EqDecision Kind.
Proof. solve_decision. Defined.

Section remote.
Context (sha256 : list Z → list Z) (is_alphabetic is_numeric : Z → bool) `{EncodingRs} `{Redb tbl} `{Serde}.
Context `{ProstDetail} `{!Prost LogCommand} (decode_error : list Z → str).
Context {M : Type} `{!Json (StoredMembership M)}.
Context (hook : RaftMarker → result unit) (registry : Registry).
Context (detail_error : list Z → str) (fatal_text : LogId * StoreError → str) (debug : LogResponse → str).
Context (fate : nat → Fate (M:=M)).
(** The configured endpoints and the longest pause between attempts, in
    milliseconds; the text of a malformed endpoint; the status of a stream
    that breaks off. *)
Context (endpoints : list str) (retry_cap_ms : Z) (bad_endpoint : str → option str) (broken : Status).
Abbreviation Leader := (Leader (tbl:=tbl) (M:=M)).
Abbreviation serve := (serve (tbl:=tbl) (M:=M)).

(** ** Statuses *)

Definition no_details (s : Status) : bool := bool_decide (st_details s = []).
Definition lost_transport (s : Status) : bool := no_details s && is_transport_loss (st_code s) (st_message s).
Definition map_status (endpoint : str) (s : Status) : StoreError :=
  if no_details s && bool_decide (st_code s = Unavailable) then
    Storage (lit "server " ++ endpoint ++ lit " unavailable: " ++ st_message s)
  else if lost_transport s then
    Storage (lit "server " ++ endpoint ++ lit " connection lost: " ++ st_message s)
  else status_to_store_error s.
Definition retryable (kind : Kind) (s : Status) : bool :=
  bool_decide (st_code s = Unavailable) || (bool_decide (kind = KWrite) && lost_transport s).
Definition read_moves_on (kind : Kind) (s : Status) : bool :=
  bool_decide (kind = KRead) && (1 <? length endpoints)%nat && lost_transport s.
Definition transient_refusal (kind : Kind) (s : Status) : bool :=
  bool_decide (kind = KWrite) && is_transient_rejection s.
Definition deadline_error (kind : Kind) (endpoint : str) (s : Status) : StoreError :=
  let mapped := map_status endpoint s in
  match kind, mapped with
  | KWrite, NotLeader _ _ => mapped
  | KWrite, _ => if transient_refusal kind s then mapped else NoLeader retry_cap_ms
  | KRead, _ => mapped
  end.

(** ** Calls *)

Definition switch_to (addr : str) : result str :=
  match bad_endpoint addr with
  | Some e => Err (Rejected (lit "bad endpoint `" ++ addr ++ lit "`: " ++ e))
  | None => Ok addr
  end.
Definition rotate (active : str) : str :=
  if (length endpoints <? 2)%nat then active
  else
    let next := match list_find (λ e, e = active) endpoints with
      | Some (i, _) => ((i + 1) mod length endpoints)%nat
      | None => 0%nat
      end in
    match endpoints !! next with
    | Some e => match switch_to e with Ok active => active | _ => active end
    | None => active
    end.

(** An attempt does not reach a server that handles it, or it is handled,
    after so many messages of a stream arrived if it broke off, and the answer
    may be lost. *)
Inductive Attempt : Type :=
  | Unreached (s : Status)
  | Handled (arrives : option nat) (lost : option Status).

Definition attempted {A} (f : option nat → serve A) (a : Attempt) : serve A := λ n,
  match a with
  | Unreached s => (n, Err s)
  | Handled arrives lost =>
      let '(n, r) := f arrives n in (n, match lost with Some s => Err s | None => r end)
  end.

(** [Conn::call_at]. [late] says that the deadline has passed when a
    redirection arrives; [more] are the attempts that fit before it. *)
Fixpoint call_at {A} (kind : Kind) (pin : option str) (f : option nat → serve A) (more : list (Attempt * bool))
    (a : Attempt) (late : bool) (active : str) (n : Leader) : str * Leader * result (A * str) :=
  let endpoint := default active pin in
  match attempted f a n with
  | (n, Ok v) => (active, n, Ok (v, endpoint))
  | (n, Panic) => (active, n, Panic)
  | (n, Err s) =>
      let again (active : str) :=
        match more with
        | [] => (active, n, Err (deadline_error kind endpoint s))
        | (a, late) :: more => call_at kind pin f more a late active n
        end in
      let wire := WireError_of_status s in
      match pin with
      | Some _ =>
          if negb (retryable kind s) || match wire with WNoLeader _ => true | _ => false end
          then (active, n, Err (map_status endpoint s)) else again active
      | None =>
          match wire with
          | WNotLeader _ (Some addr) =>
              if late then (active, n, Err (StoreError_from wire))
              else match switch_to addr with
                   | Ok active => again active
                   | Err e => (active, n, Err e)
                   | Panic => (active, n, Panic)
                   end
          | WNoLeader _ => again (rotate active)
          | _ =>
              if retryable kind s || read_moves_on kind s then again (rotate active)
              else if transient_refusal kind s then again active
              else (active, n, Err (map_status endpoint s))
          end
      end
  end.
Definition call {A} (kind : Kind) (f : option nat → serve A) (attempts : (Attempt * bool) * list (Attempt * bool))
    (active : str) (n : Leader) : str * Leader * result A :=
  let '(active, n, r) := call_at kind None f attempts.2 attempts.1.1 attempts.1.2 active n in
  (active, n, '(v, _) ← r; Ok v).

(** ** Prepared files *)

(** [PreparedFile::remote] and [with_encoding]. *)
Definition PreparedFile_remote (org repo path : str) (bytes : list Z) (language origin : option str)
    (hint : option Encoding) (strict_encoding : bool) : PreparedFile :=
  mkPreparedFile org repo (normalize_path path) (default [] (to_ascii_lowercase <$> language)) []
    (Z.of_nat (length bytes)) origin (PRemote bytes) None None false hint strict_encoding None.
Definition remote_prepare (org repo : str) (file : BatchFile) (opts : IndexOptions) : PreparedFile :=
  PreparedFile_remote org repo (bf_path file) (bf_bytes file) (bf_language file) (bf_origin file)
    match bf_encoding file with Some e => Some e | None => io_encoding opts end
    (bf_strict_encoding file || io_strict_encoding opts).

(** [remote_parts], as the message that carries them. *)
Definition remote_parts (p : PreparedFile) : option Pb.FileBytes :=
  match pf_work p with
  | PRemote bytes =>
      Some (Pb.mkFileBytes (pf_path p) bytes (if bool_decide (pf_language p = []) then None else Some (pf_language p))
              (pf_origin p) (pf_hint p) (pf_strict_encoding p))
  | _ => None
  end.

(** ** Writes *)

(** The client: the active endpoint, the highest applied index and whether an
    answer was forwarded. *)
Record Client : Type := mkClient { cl_active : str; cl_applied : Z; cl_forwarded : bool }.

Definition index_message (org repo : str) (f : PreparedFile) : result IndexRequest :=
  match remote_parts f with
  | None => Err (Rejected (lit "`" ++ pf_path f ++ lit "` was prepared by an embedded store, not by this remote store"))
  | Some file =>
      if bool_decide (pf_org f = org ∧ pf_repo f = repo) then Ok (Some (IndexFile file))
      else Err (Rejected (lit "`" ++ pf_path f ++ lit "` was prepared for " ++ pf_org f ++ lit "/" ++ pf_repo f ++
                          lit ", not " ++ org ++ lit "/" ++ repo))
  end.
(** The stream as it arrives. *)
Definition stream_of (msgs : list IndexRequest) (arrives : option nat) : list (IndexRequest + Status) :=
  match arrives with
  | None => inl <$> msgs
  | Some k => (inl <$> take k msgs) ++ [inr broken]
  end.
(** [StoreError::from] of a [ConvertError]. *)
Definition protocol_result {A} (m : conv A) : result A :=
  match m with Ok a => Ok a | Err e => Err (Protocol (ConvertError_display e)) | Panic => Panic end.

Definition index_remote (attempts : (Attempt * bool) * list (Attempt * bool)) (org repo : str) (files : list PreparedFile)
    (opts : IndexOptions) (c : Client) (n : Leader) : Client * Leader * result (list (IngestStats + StoreError)) :=
  match collect (index_message org repo) files with
  | Err e => (c, n, Err e)
  | Panic => (c, n, Panic)
  | Ok msgs =>
      let msgs := Some (IndexHeader org repo (Some (io_reindex opts))) :: msgs in
      match call KWrite (λ arrives, index_here sha256 is_alphabetic is_numeric decode_error hook registry detail_error
                                      fatal_text debug fate (stream_of msgs arrives)) attempts (cl_active c) n with
      | (active, n, Err e) => (mkClient active (cl_applied c) (cl_forwarded c), n, Err e)
      | (active, n, Panic) => (mkClient active (cl_applied c) (cl_forwarded c), n, Panic)
      | (active, n, Ok resp) =>
          (mkClient active (Z.max (cl_applied c) (ir_applied_index resp)) (cl_forwarded c || ir_forwarded_to_leader resp), n,
           if (length (ir_results resp) =? length files)%nat then
             collect (λ r, protocol_result (file_result_from r)) (ir_results resp)
           else Err (Protocol (lit "Index answered " ++ show (Z.of_nat (length (ir_results resp))) ++ lit " results for " ++
                               show (Z.of_nat (length files)) ++ lit " files")))
      end
  end.
Definition remote_index_prepared attempts (org repo : str) (files : list PreparedFile) (opts : IndexOptions) (c : Client) (n : Leader) :=
  match files with
  | [] => (c, n, Ok [])
  | _ => index_remote attempts org repo files opts c n
  end.
Definition remote_index_batch attempts (org repo : str) (files : list BatchFile) (opts : IndexOptions) (c : Client) (n : Leader) :=
  remote_index_prepared attempts org repo ((λ f, remote_prepare org repo f opts) <$> files) opts c n.

(** The unary writes: the call, and what is read from its answer. *)
Definition remote_unary {A B} (attempts : (Attempt * bool) * list (Attempt * bool)) (kind : Kind) (f : serve A)
    (read : A → result B) (c : Client) (n : Leader) : Client * Leader * result B :=
  let '(active, n, r) := call kind (λ _, f) attempts (cl_active c) n in
  (mkClient active (cl_applied c) (cl_forwarded c), n, r ≫= read).

Definition remote_index_bytes_opts attempts (org repo path : str) (bytes : list Z) (language origin : option str)
    (opts : IndexOptions) : Client → Leader → Client * Leader * result IngestStats :=
  remote_unary attempts KWrite
    (index_file sha256 is_alphabetic is_numeric decode_error hook registry detail_error fatal_text debug fate org repo
       (Some (Pb.mkFileBytes (normalize_path path) bytes language origin (io_encoding opts) (io_strict_encoding opts)))
       (Some (io_reindex opts)))
    (λ r, s ← ok_or (an_answer r) (Protocol (lit "IndexFileResponse.stats is missing")); protocol_result (stats_from s)).
Definition remote_ingest attempts (org repo path language : str) (ex : Extraction) (origin : option str)
    : Client → Leader → Client * Leader * result IngestStats :=
  remote_unary attempts KWrite
    (ingest_extraction sha256 is_alphabetic is_numeric decode_error hook registry detail_error fatal_text debug fate org repo
       (normalize_path path) language (Some (extraction_into ex)) origin)
    (λ r, s ← ok_or (an_answer r) (Protocol (lit "IngestExtractionResponse.stats is missing")); protocol_result (stats_from s)).
Definition remote_prune_files attempts (org repo : str) (keep : list str) (dry_run : bool)
    : Client → Leader → Client * Leader * result (list str) :=
  remote_unary attempts (if dry_run then KRead else KWrite)
    (prune sha256 is_alphabetic is_numeric decode_error hook registry detail_error fatal_text debug fate org repo
       (normalize_path <$> keep) dry_run)
    (λ r, Ok (an_answer r)).
Definition remote_vacuum attempts : Client → Leader → Client * Leader * result VacuumStats :=
  remote_unary attempts KWrite
    (vacuum_call sha256 is_alphabetic is_numeric decode_error hook registry detail_error fatal_text debug fate)
    (λ r, s ← ok_or (an_answer r) (Protocol (lit "VacuumResponse.stats is missing")); protocol_result (vacuum_from s)).
End remote.
