(* ===== verification/RemoteSpec.v ===== *)
(** * Indexing through the cluster

    What a write of the remote store ([Remote]) does through the write service
    ([Service]) to the documents of the replicated store ([RaftReplica]). *)
From S2P Require Import Prelude Text Schema Table DictRev StrOps Language Encoding Walk Prep Db Write Store Ingest Prune Vacuum Commit Batch Prepare.
From S2P Require Import Refine WireError Wire RaftLog RaftLogSpec RaftApply RaftApplySpec RaftReplica Service Remote.

(** ** Cutting *)

(** A chunk is one file, or as many as fit. *)
Definition chunk_bytes (c : list Pb.FileBytes) : Z := foldr (λ f b, source_bytes f + b) 0 c.
Definition chunk_ok (c : list Pb.FileBytes) : Prop :=
  c ≠ [] ∧ (length c = 1%nat ∨ chunk_bytes c ≤ RAFT_ENTRY_MAX_BYTES).
Lemma chunk_bytes_app c1 c2 : chunk_bytes (c1 ++ c2) = chunk_bytes c1 + chunk_bytes c2.
Proof. unfold chunk_bytes. induction c1 as [|f c1 IH]; [done|]. cbn. rewrite IH. lia. Qed.

Lemma cut_loop_out files : ∀ out cur b, cut_loop files out cur b = out ++ cut_loop files [] cur b.
Proof.
  induction files as [|f files IH]; intros out cur b; cbn.
  - destruct cur; [by rewrite app_nil_r|done].
  - destruct (overflows cur b f); [|apply IH]. rewrite (IH (out ++ [cur])), (IH [cur]). by rewrite <- app_assoc.
Qed.
Lemma cut_loop_concat files : ∀ cur b, concat (cut_loop files [] cur b) = cur ++ files.
Proof.
  induction files as [|f files IH]; intros cur b; cbn [cut_loop].
  - destruct cur; cbn; by rewrite ?app_nil_r.
  - destruct (overflows cur b f); [|by rewrite IH, <- app_assoc]. rewrite cut_loop_out, concat_app, IH. cbn. by rewrite app_nil_r.
Qed.
Lemma cut_loop_ok files : ∀ cur, (cur = [] ∨ chunk_ok cur) → Forall chunk_ok (cut_loop files [] cur (chunk_bytes cur)).
Proof.
  induction files as [|f files IH]; intros cur Hcur; cbn [cut_loop].
  - destruct cur; [done|]. destruct Hcur; [done|]. by constructor.
  - assert (∀ g, chunk_bytes [g] = source_bytes g) as Hone by (intros; cbn; lia).
    assert (chunk_ok [f]) as Hf by (split; [done|by left]).
    destruct (overflows cur (chunk_bytes cur) f) eqn:Eo.
    + rewrite cut_loop_out, <- Hone. apply Forall_app. split; [|by apply IH; right].
      destruct Hcur as [->|Hcur]; [done|]. by constructor.
    + replace (chunk_bytes cur + source_bytes f) with (chunk_bytes (cur ++ [f])) by (rewrite chunk_bytes_app, Hone; done).
      apply IH. right. split; [by destruct cur|]. destruct cur as [|g cur]; [by left|]. right. rewrite chunk_bytes_app, Hone.
      unfold overflows in Eo. lia.
Qed.

Section spec.
Context (sha256 : list Z → list Z) (is_alphabetic is_numeric : Z → bool) `{EncodingRs} `{Redb tbl} `{Serde}.
Context `{ProstDetail} `{!Prost LogCommand} (decode_error : list Z → str).
Context {M : Type} `{!Json (StoredMembership M)} (default_membership : M) (registry : Registry).
Context (detail_error : list Z → str) (fatal_text : LogId * StoreError → str) (debug : LogResponse → str).
Context (fate : nat → Fate (M:=M)).
Hypothesis sha256_bytes : ∀ b, Forall u8 (sha256 b).
Abbreviation hook := (λ _ : RaftMarker, Ok () : result unit).
Abbreviation Leader := (Leader (tbl:=tbl) (M:=M)).
Abbreviation apply_one := (apply_one (M:=M) sha256 is_alphabetic is_numeric decode_error hook registry).
Abbreviation apply_all := (apply_all (M:=M) sha256 is_alphabetic is_numeric decode_error hook registry).
Abbreviation node_propose := (node_propose sha256 is_alphabetic is_numeric decode_error hook registry fatal_text fate).
Abbreviation propose := (propose sha256 is_alphabetic is_numeric decode_error hook registry detail_error fatal_text fate).
Abbreviation index_chunk := (index_chunk sha256 is_alphabetic is_numeric decode_error hook registry detail_error fatal_text debug fate).
Abbreviation index_here := (index_here sha256 is_alphabetic is_numeric decode_error hook registry detail_error fatal_text debug fate).
Abbreviation index_loop := (index_loop sha256 is_alphabetic is_numeric decode_error hook registry detail_error fatal_text debug fate).
Abbreviation commit_doc := (commit_doc is_alphabetic is_numeric registry).
Abbreviation outcomes := (outcomes is_alphabetic is_numeric registry).
Abbreviation log_fits := (log_fits sha256 is_alphabetic is_numeric decode_error registry).
Abbreviation spec_apply := (spec_apply sha256 is_alphabetic is_numeric registry).
Abbreviation represents := (represents sha256 default_membership).
Abbreviation commit_outcome := (commit_outcome is_alphabetic is_numeric registry).
Abbreviation first_abort := (first_abort is_alphabetic is_numeric registry).
Abbreviation raw_prepared := (raw_prepared sha256 registry).
Abbreviation prepared_at := (prepared_at is_alphabetic is_numeric registry).
Abbreviation chunk_files := (chunk_files sha256 registry).
Abbreviation cmd_docs := (cmd_docs sha256 is_alphabetic is_numeric registry).
Abbreviation cmd_answer := (cmd_answer sha256 is_alphabetic is_numeric registry).
Abbreviation entry_docs := (entry_docs sha256 is_alphabetic is_numeric registry).
Abbreviation state_answer := (state_answer sha256 is_alphabetic is_numeric registry).
Abbreviation log_answers := (log_answers sha256 is_alphabetic is_numeric registry).
Implicit Types (d : Db tbl) (e : Entry M) (es : list (Entry M)) (a : gmap dkey Doc) (n : Leader).

(** ** Runs of entries *)

(** The ids of committed entries increase. *)
Fixpoint log_fresh (last : option LogId) es : Prop :=
  match es with
  | [] => True
  | e :: es => already (marker_of <$> last) (marker_of (e_log_id e)) = false ∧ log_fresh (Some (e_log_id e)) es
  end.
Lemma apply_all_app d l1 l2 :
  apply_all d (l1 ++ l2) =
  match apply_all d l1 with
  | (d', Ok rs) => let '(d', r) := apply_all d' l2 in (d', rs2 ← r; Ok (rs ++ rs2))
  | r => r
  end.
Proof.
  revert d. induction l1 as [|e l1 IH]; intros d; cbn [app RaftApply.apply_all].
  { by destruct (apply_all d l2) as [d' []]. }
  destruct (apply_one d e) as [d1 [r|er|]]; [|done|done]. rewrite IH.
  destruct (apply_all d1 l1) as [d2 [rs|er|]]; cbn; [|done|done]. by destruct (apply_all d2 l2) as [d3 []].
Qed.
Lemma log_fits_app d l1 l2 d' rs :
  apply_all d l1 = (d', Ok rs) → log_fits d (l1 ++ l2) → log_fits d l1 ∧ log_fits d' l2.
Proof.
  revert d rs. induction l1 as [|e l1 IH]; intros d rs Hrun Hfit; cbn in *; [by injection Hrun as <- _|].
  destruct Hfit as [He Hfit]. destruct (apply_one d e) as [d1 [r|er|]]; cbn in *; [|done|done].
  destruct (apply_all d1 l1) as [d2 [rs1|er|]] eqn:E1; cbn in Hrun; [|done|done]. injection Hrun as -> _.
  destruct (IH _ _ E1 Hfit) as [? ?]. done.
Qed.
Lemma log_fresh_app s l1 l2 :
  log_fresh (ra_last s) (l1 ++ l2) → log_fresh (ra_last s) l1 ∧ log_fresh (ra_last (foldl spec_apply s l1)) l2.
Proof.
  revert s. induction l1 as [|e l1 IH]; intros s Hf; [done|]. destruct Hf as [He Hf].
  assert (ra_last (spec_apply s e) = Some (e_log_id e)) as Hl by (unfold RaftReplica.spec_apply; by rewrite He).
  destruct (IH (spec_apply s e)) as [Hf1 Hf2]; [by rewrite Hl|]. rewrite Hl in Hf1. done.
Qed.
Lemma last_answer s l e rs :
  log_answers s (l ++ [e]) rs → ∃ r, last rs = Some r ∧ state_answer (foldl spec_apply s l) e r.
Proof.
  revert s rs. induction l as [|e1 l IH]; intros s rs Ha.
  - destruct rs as [|r [|]]; [done| |by destruct Ha]. exists r. by destruct Ha as [? _].
  - destruct rs as [|r rs]; [done|]. destruct Ha as [_ Ha]. destruct (IH _ _ Ha) as (r' & Hr & ?). exists r'. split; [|done].
    by destruct rs.
Qed.
Lemma fresh_docs es : ∀ s, log_fresh (ra_last s) es → ra_docs (foldl spec_apply s es) = foldl entry_docs (ra_docs s) es.
Proof.
  induction es as [|e es IH]; intros s Hf; [done|]. destruct Hf as [He Hf]. cbn [foldl].
  assert (spec_apply s e = mkReplica (entry_docs (ra_docs s) e) (Some (e_log_id e)) (ra_membership (spec_apply s e))) as Hs
    by (unfold RaftReplica.spec_apply; by rewrite He).
  rewrite IH; rewrite Hs; done.
Qed.

(** ** One writer *)
Section run.
Context (d0 : Db tbl) (s0 : Replica (M:=M)).
Hypothesis start : represents d0 s0.

(** The store is what its entries make of the first one. *)
Definition state n : Replica := foldl spec_apply s0 (ld_log n).
Definition docs n : gmap dkey Doc := ra_docs (state n).
Definition caught_up n : Prop := ∃ rs, apply_all d0 (ld_log n) = (ld_db n, Ok rs).
(** Nobody else writes: before a proposal the cluster commits only blanks of
    new leaders, memberships, and earlier proposals that land late. *)
Definition own (sent : list (list Z)) e : Prop := match e_payload e with Normal c => c ∈ sent | _ => True end.
Definition sole n : Prop :=
  ∀ i before id lost, (i < length (ld_sent n))%nat → fate i = Committed before id lost → Forall (own (take i (ld_sent n))) before.
(** What the store must be able to hold, the order of the ids, and one writer. *)
Definition in_order n : Prop := log_fits d0 (ld_log n) ∧ log_fresh (ra_last s0) (ld_log n) ∧ sole n.

Lemma caught_up_represents n : caught_up n → in_order n → represents (ld_db n) (state n).
Proof.
  intros [rs Hrun] [Hfit _]. destruct (apply_all_spec sha256 is_alphabetic is_numeric decode_error default_membership registry
    sha256_bytes (ld_log n) d0 s0 start Hfit) as (d' & rs' & He & Hrep & _). rewrite Hrun in He. injection He as <- _. done.
Qed.
Lemma entries_applied n sent es :
  caught_up n → in_order (mkLeader sent (apply_all (ld_db n) es).1 (ld_log n ++ es)) →
  ∃ d' rs, apply_all (ld_db n) es = (d', Ok rs) ∧ caught_up (mkLeader sent d' (ld_log n ++ es)) ∧
    state (mkLeader sent d' (ld_log n ++ es)) = foldl spec_apply (state n) es ∧
    log_fresh (ra_last (state n)) es ∧ log_answers (state n) es rs.
Proof.
  intros [rs Hrun] (Hfit & Hfresh & Hsole). cbn [ld_log] in *. destruct (log_fits_app _ _ _ _ _ Hrun Hfit) as [Hfit1 Hfit2].
  destruct (log_fresh_app s0 (ld_log n) es Hfresh) as [Hf1 Hnew].
  destruct (apply_all_spec sha256 is_alphabetic is_numeric decode_error default_membership registry
    sha256_bytes (ld_log n) d0 s0 start Hfit1) as (d1 & rs1 & He1 & Hrep1 & _). rewrite Hrun in He1. injection He1 as <- _.
  destruct (apply_all_spec sha256 is_alphabetic is_numeric decode_error default_membership registry sha256_bytes es (ld_db n) (state n))
    as (d' & rs' & He & _ & Hans); [done|done|]. exists d', rs'. split_and!; [done| | |done|done].
  - exists (rs ++ rs'). cbn [ld_log ld_db]. by rewrite apply_all_app, Hrun, He.
  - unfold state. cbn [ld_log]. by rewrite foldl_app.
Qed.

(** What becomes of a command: its call failed, or it was applied after other
    entries, and its answer arrived or not. *)
Lemma proposed_run cmd n n' r :
  caught_up n → node_propose (encode_to_vec (Some cmd : LogCommand)) n = (n', r) → in_order n' →
  caught_up n' ∧ ld_sent n' = ld_sent n ++ [encode_to_vec (Some cmd : LogCommand)] ∧
  ((docs n' = docs n ∧ ∃ er, fate (length (ld_sent n)) = Turned er ∧ r = Err er) ∨
   ∃ before id lost resp, fate (length (ld_sent n)) = Committed before id lost ∧ Forall (own (ld_sent n)) before ∧
     let b := foldl entry_docs (docs n) before in
     docs n' = cmd_docs b cmd ∧ cmd_answer b cmd resp ∧
     r = match lost with Some er => Err er | None => Ok (resp, lid_index id) end).
Proof.
  intros Hn. unfold Service.node_propose. destruct (fate (length (ld_sent n))) as [er|before id lost] eqn:Ef.
  { intros [= <- <-] _. split; [exact Hn|]. split; [done|]. left. split; [done|]. by exists er. }
  set (e := mkEntry id (Normal (encode_to_vec (Some cmd : LogCommand)))). set (sent := ld_sent n ++ _).
  intros Hr Hord. assert (in_order (mkLeader sent (apply_all (ld_db n) (before ++ [e])).1 (ld_log n ++ before ++ [e]))) as Hord'.
  { destruct (apply_all (ld_db n) (before ++ [e])) as [d' ?]. injection Hr as <- <-. exact Hord. }
  destruct (entries_applied n sent (before ++ [e]) Hn Hord') as (d' & rs & He & Hc & Hs & Hfresh & Hans).
  rewrite He in Hr. injection Hr as <- <-. split; [done|]. split; [done|]. right.
  destruct (last_answer _ _ _ _ Hans) as (resp & Hlast & Hresp). destruct (log_fresh_app (state n) before [e] Hfresh) as [Hfb [Hnew _]].
  exists before, id, lost, resp. split; [done|]. split.
  { destruct Hord as (_ & _ & Hsole). specialize (Hsole (length (ld_sent n)) before id lost). cbn [ld_sent] in Hsole. unfold sent in Hsole.
    rewrite take_app_length in Hsole. apply Hsole; [|done]. rewrite length_app. cbn. lia. }
  assert (entry_cmd e = Some cmd) as Hcmd by (unfold entry_cmd; cbn; by rewrite prost_roundtrip).
  cbv zeta. change (docs n) with (ra_docs (state n)). rewrite <- (fresh_docs before (state n) Hfb). split_and!.
  - unfold docs at 1. rewrite Hs, foldl_app. cbn [foldl]. unfold RaftReplica.spec_apply at 1. rewrite Hnew. cbn [ra_docs].
    unfold RaftReplica.entry_docs. by rewrite Hcmd.
  - unfold RaftReplica.state_answer in Hresp. rewrite Hnew in Hresp. unfold entry_answer in Hresp. rewrite Hcmd in Hresp. exact Hresp.
  - destruct lost; [done|]. by rewrite Hlast.
Qed.

(** ** Answers of a chunk *)

(** What the client reads of the outcome of a file. *)
Definition received (r : result IngestStats) (x : IngestStats + StoreError) : Prop :=
  match r, x with
  | Ok s, inl s' => s' = s
  | Err er, inr er' => er' = over_wire er
  | _, _ => False
  end.
Definition reported (r : result IngestStats) (m : Pb.FileResult) : Prop := ∃ x, received r x ∧ m = file_result_into x.

Lemma into_error_of why er : into_error why (ErrDetail_of er) = over_wire er.
Proof.
  unfold into_error, ErrDetail_of. rewrite prost_roundtrip. destruct (detail_over_wire er) as (w & -> & Hw). done.
Qed.
Lemma file_results rs out :
  collect file_answer rs = Ok out → Forall2 reported rs (file_result detail_error <$> out).
Proof.
  intros Hc%collect_Forall2. induction Hc as [|r x rs out Hx _ IH]; [constructor|]. cbn. constructor; [|done].
  destruct r as [s|er|]; [| |done]; injection Hx as <-.
  - by exists (inl s).
  - exists (inr (over_wire er)). split; [done|]. unfold file_result. by rewrite into_error_of.
Qed.
Lemma outcomes_length opts l : ∀ a rs, outcomes opts a l rs → length rs = length l.
Proof. induction l as [|p l IH]; intros a [|r rs] Ho; try done. destruct Ho as [_ Ho]. cbn. by rewrite (IH _ _ Ho). Qed.
Lemma outcomes_join opts l1 l2 : ∀ a rs1 rs2, outcomes opts a l1 rs1 → outcomes opts (foldl (commit_doc opts) a l1) l2 rs2 →
  outcomes opts a (l1 ++ l2) (rs1 ++ rs2).
Proof.
  induction l1 as [|p l1 IH]; intros a [|r rs1] rs2 Ho1 Ho2; try done. destruct Ho1 as [Hr Ho1]. split; [done|]. by apply IH.
Qed.

(** ** Growth *)

(** The log and the commands sent only grow. *)
Definition grows {A} (f : serve (tbl:=tbl) (M:=M) A) : Prop :=
  ∀ n, ∃ es cs, ld_log (f n).1 = ld_log n ++ es ∧ ld_sent (f n).1 = ld_sent n ++ cs.
Lemma grows_lift {A} (m : outcome Status A) : grows (lift m).
Proof. intros n. exists [], []. by rewrite !app_nil_r. Qed.
Lemma grows_bind {A B} (f : A → serve (tbl:=tbl) (M:=M) B) m : grows m → (∀ x, grows (f x)) → grows (serve_bind A B f m).
Proof.
  intros Hm Hf n. unfold serve_bind. destruct (Hm n) as (es & cs & He & Hc). destruct (m n) as [n1 [x|er|]]; cbn in *; [|by exists es, cs..].
  destruct (Hf x n1) as (es' & cs' & He' & Hc'). exists (es ++ es'), (cs ++ cs'). by rewrite He', He, Hc', Hc, !app_assoc.
Qed.
Lemma grows_propose cmd : grows (propose cmd).
Proof.
  intros n. unfold Service.propose, Service.node_propose. destruct (fate (length (ld_sent n))) as [er|before id lost]; cbn.
  { exists [], [encode_to_vec (Some cmd : LogCommand)]. by rewrite app_nil_r. }
  exists (before ++ [mkEntry id (Normal (encode_to_vec (Some cmd : LogCommand)))]), [encode_to_vec (Some cmd : LogCommand)].
  destruct (apply_all (ld_db n) _) as [d' rs]. by destruct (match lost with Some _ => _ | None => _ end) as [[[] ?]| |].
Qed.
Lemma grows_chunk org repo reindex files : grows (index_chunk org repo reindex files).
Proof.
  apply grows_bind; [apply grows_propose|]. intros [resp i]. destruct resp; try apply grows_lift. destruct (_ =? _)%nat; apply grows_lift.
Qed.
Lemma grows_index_loop org repo reindex stream : ∀ pending b results i, grows (index_loop org repo reindex stream pending b results i).
Proof.
  induction stream as [|msg stream IH]; intros pending b results i; cbn [Service.index_loop].
  - destruct pending; [apply grows_lift|]. apply grows_bind; [apply grows_chunk|]. intros []. apply grows_lift.
  - apply grows_bind; [apply grows_lift|]. intros file. apply grows_bind; [apply grows_lift|]. intros _.
    destruct (overflows pending b file); [|apply IH]. apply grows_bind; [apply grows_chunk|]. intros []. apply IH.
Qed.
Lemma log_fits_prefix l1 l2 : ∀ d, log_fits d (l1 ++ l2) → log_fits d l1.
Proof. induction l1 as [|e l1 IH]; intros d Hf; [done|]. destruct Hf as [He Hf]. split; [done|]. by apply IH. Qed.
Lemma in_order_before n n' es cs : ld_log n' = ld_log n ++ es → ld_sent n' = ld_sent n ++ cs → in_order n' → in_order n.
Proof.
  intros He Hc (Hfit & Hfr & Hs). unfold in_order, sole in *. rewrite He in *. split; [by eapply log_fits_prefix|].
  split; [by apply log_fresh_app in Hfr as [? _]|]. intros i before id lost Hi Hf. specialize (Hs i before id lost).
  rewrite Hc, length_app, take_app_le in Hs by lia. apply Hs; [lia|done].
Qed.

(** ** Retries *)
Section retries.
Context (endpoints : list str) (retry_cap_ms : Z) (bad_endpoint : str → option str).
Abbreviation attempted := (attempted (tbl:=tbl) (M:=M)).
Abbreviation call_at := (call_at (tbl:=tbl) (M:=M) endpoints retry_cap_ms bad_endpoint).

Lemma attempted_grows {A} (f : option nat → serve (tbl:=tbl) (M:=M) A) : (∀ arrives, grows (f arrives)) → ∀ t, grows (attempted f t).
Proof.
  intros Hf t. destruct t as [st|arrives lost]; [apply (grows_lift (Err st))|]. intros n. cbn. destruct (Hf arrives n) as (es & cs & He & Hc).
  destruct (f arrives n) as [n' r]. by exists es, cs.
Qed.
(** What a property of all ends of a call must hold of. *)
Lemma call_ends {A} kind (f : option nat → serve (tbl:=tbl) (M:=M) A) (P : str * Leader * result (A * str) → Prop)
    more t late active n n1 r1 :
  attempted f t n = (n1, r1) →
  (∀ x ep, r1 = Ok x → P (active, n1, Ok (x, ep))) → (r1 = Panic → P (active, n1, Panic)) →
  (∀ st ac er, r1 = Err st → P (ac, n1, Err er)) →
  (∀ st ac t2 late2 more2, r1 = Err st → more = (t2, late2) :: more2 → P (call_at kind None f more2 t2 late2 ac n1)) →
  P (call_at kind None f more t late active n).
Proof.
  intros Ht Hok Hpanic Hstop Hmore. destruct more as [|[t2 late2] more]; cbn [Remote.call_at]; rewrite Ht;
    (destruct r1 as [x|st|]; [by apply Hok| |by apply Hpanic]); cbn [default];
    (destruct (WireError_of_status st) as [ |? [addr|]| | ]; repeat case_match; try (by eapply Hstop); try (by eapply Hmore)).
  all: unfold switch_to in *; by case_match.
Qed.
Lemma call_grows {A} kind (f : option nat → serve (tbl:=tbl) (M:=M) A) more : (∀ arrives, grows (f arrives)) → ∀ t late active n,
  ∃ es cs, ld_log (call_at kind None f more t late active n).1.2 = ld_log n ++ es ∧ ld_sent (call_at kind None f more t late active n).1.2 = ld_sent n ++ cs.
Proof.
  intros Hf. induction more as [|[t1 late1] more IH]; intros t late active n; pose proof (attempted_grows f Hf t n) as (es & cs & Hg & Hc);
    destruct (attempted f t n) as [n1 r1] eqn:Et; cbn in Hg, Hc;
    eapply (call_ends kind f (λ c, ∃ es cs, ld_log c.1.2 = ld_log n ++ es ∧ ld_sent c.1.2 = ld_sent n ++ cs)); try done; try (by eexists _, _); try (intros; by eexists _, _).
  intros st ac t2 late2 more2 _ [= -> -> ->]. destruct (IH t2 late2 ac n1) as (es' & cs' & -> & ->). exists (es ++ es'), (cs ++ cs'). by rewrite Hg, Hc, !app_assoc.
Qed.
Lemma call_extends {A} kind (f : option nat → serve (tbl:=tbl) (M:=M) A) more t late active n n1 r1 : (∀ arrives, grows (f arrives)) →
  attempted f t n = (n1, r1) →
  ∃ es cs, ld_log (call_at kind None f more t late active n).1.2 = ld_log n1 ++ es ∧ ld_sent (call_at kind None f more t late active n).1.2 = ld_sent n1 ++ cs.
Proof.
  intros Hf Ht. eapply (call_ends kind f (λ c, ∃ es cs, ld_log c.1.2 = ld_log n1 ++ es ∧ ld_sent c.1.2 = ld_sent n1 ++ cs)); [exact Ht| | | |].
  all: try (intros; exists [], []; by rewrite !app_nil_r). intros. by apply call_grows.
Qed.
Lemma call_succeeds {A} kind (f : option nat → serve (tbl:=tbl) (M:=M) A) more t late active n n1 x :
  attempted f t n = (n1, Ok x) → call_at kind None f more t late active n = (active, n1, Ok (x, active)).
Proof. intros Ht. destruct more as [|[t2 late2] more]; cbn [Remote.call_at]; by rewrite Ht. Qed.
(** A refusal by the store is final. *)
Lemma call_refused {A} (f : option nat → serve (tbl:=tbl) (M:=M) A) more t late active n n1 m :
  attempted f t n = (n1, Err (store_error_to_status (Rejected m))) →
  call_at KWrite None f more t late active n = (active, n1, Err (Rejected m)).
Proof.
  intros Ht. set (st := store_error_to_status (Rejected m)) in *.
  assert (WireError_of_status st = WStore (Rejected m)) as Hw.
  { unfold WireError_of_status, st, store_error_to_status, Status_from. cbn [st_details wire_view detail].
    rewrite bool_decide_false by apply detail_written. by rewrite prost_roundtrip. }
  assert (no_details st = false) as Hd by (apply bool_decide_eq_false; apply detail_written).
  assert (lost_transport st = false ∧ retryable KWrite st = false ∧ read_moves_on endpoints KWrite st = false ∧
    transient_refusal KWrite st = false) as (Hl & Hr & Hm & Htr).
  { unfold retryable, read_moves_on, transient_refusal, lost_transport. rewrite Hd. split_and!; try done.
    unfold is_transient_rejection, st, store_error_to_status, Status_from. cbn [st_details wire_view detail]. by rewrite prost_roundtrip, andb_false_r. }
  assert (map_status (default active None) st = Rejected m) as Hmap.
  { unfold map_status. rewrite Hd, Hl. unfold status_to_store_error. by rewrite Hw. }
  destruct more as [|[t2 late2] more]; cbn [Remote.call_at]; rewrite Ht, Hw, Hr, Hm, Htr, Hmap; done.
Qed.
End retries.

(** The messages of some files, and the error of a stream that broke off. *)
Definition file_messages (files : list Pb.FileBytes) : list (IndexRequest + Status) := (λ f, inl (Some (IndexFile f))) <$> files.
Lemma loop_file org repo reindex f stream pending b results i n h :
  resolved_encoding_hint f = Ok h →
  index_loop org repo reindex (inl (Some (IndexFile f)) :: stream) pending b results i n =
  (if overflows pending b f then
     serve_bind _ _ (λ '(r, j), index_loop org repo reindex stream [f] (source_bytes f) (results ++ r) j) (index_chunk org repo reindex pending)
   else index_loop org repo reindex stream (pending ++ [f]) (b + source_bytes f) results i) n.
Proof.
  intros Hh. cbn [Service.index_loop]. unfold mbind, lift. cbn [converted]. unfold serve_bind at 1 2. rewrite Hh. cbn [converted].
  by destruct (overflows pending b f).
Qed.

(** ** A list of files *)
Definition all_answered : Prop := ∀ i, ∃ before id, fate i = Committed before id None.

Section calls.
Context (org repo : str) (reindex : bool) (a0 : gmap dkey Doc) (qs : list PreparedFile).
Abbreviation server_opts := (mkIndexOptions reindex None false).
Abbreviation commit := (commit_doc server_opts).
Hypothesis distinct : NoDup (pf_key <$> qs).
Hypothesis unread : ∀ q x, q ∈ qs → pf_work q ≠ PExtracted x.

(** The documents when the first [k] files are there. *)
Definition upto (k : nat) : gmap dkey Doc := foldl commit a0 (take k qs).

Lemma upto_lands l0 l l2 k : qs = l0 ++ l ++ l2 → (length l0 ≤ k)%nat →
  foldl commit (upto k) l = upto (k `max` (length l0 + length l)).
Proof.
  intros Hqs Hk. unfold upto. assert (∀ i, NoDup (pf_key <$> take i qs)) as Hnd.
  { intros i. pose proof distinct as Hi. rewrite <- (take_drop i qs), fmap_app in Hi. by apply NoDup_app in Hi as (? & _). }
  destruct (decide (length l0 + length l ≤ k)%nat) as [Hle|Hlt].
  - rewrite Nat.max_l by done. apply commits_absorbed; [done|]. intros p Hp.
    assert (take k qs = l0 ++ l ++ take (k - length l0 - length l) l2) as -> by (rewrite Hqs, !take_app_ge by lia; done). set_solver.
  - rewrite Nat.max_r by lia. assert (take k qs = l0 ++ take (k - length l0) l) as Ht
      by (rewrite Hqs, take_app_ge, take_app_le by lia; done).
    assert (take (length l0 + length l) qs = l0 ++ l) as He by (rewrite Hqs, app_assoc, <- length_app; apply take_app_length).
    rewrite He, Ht. specialize (Hnd k). rewrite Ht in Hnd. set (m := l0 ++ take (k - length l0) l) in *.
    assert (l0 ++ l = m ++ drop (k - length l0) l) as -> by (unfold m; by rewrite <- app_assoc, take_drop).
    rewrite <- (take_drop (k - length l0) l) at 1. rewrite !foldl_app. f_equal. apply commits_absorbed; [done|unfold m; set_solver].
Qed.
Lemma upto_key k q : q ∈ qs → upto k !! pf_key q = a0 !! pf_key q ∨ upto k !! pf_key q = commit a0 q !! pf_key q.
Proof.
  intros Hq. unfold upto. destruct (decide (pf_key q ∈ pf_key <$> take k qs)) as [Hk|Hk]; [right|left; by apply commits_other].
  apply list_elem_of_fmap in Hk as (q' & Hqq & Hq'). assert (q' = q) as ->.
  { apply elem_of_take in Hq' as (i & Hi & _). apply list_elem_of_lookup in Hq as (j & Hj).
    assert (i = j) as ->; [|congruence]. eapply NoDup_lookup; [exact distinct|by rewrite list_lookup_fmap, Hi|rewrite list_lookup_fmap, Hj; cbn; by rewrite Hqq]. }
  rewrite commits_key; [by rewrite commit_key| |done].
  pose proof distinct as Hi. rewrite <- (take_drop k qs), fmap_app in Hi. by apply NoDup_app in Hi as (? & _).
Qed.

(** The outcome of a file that is sent more than once: its own on the first
    documents, or on those that have it. *)
Definition once q (r : result IngestStats) : Prop := commit_outcome server_opts a0 q r ∨ commit_outcome server_opts (commit a0 q) q r.
Lemma outcomes_once l k rs : l ⊆ qs → NoDup (pf_key <$> l) → outcomes server_opts (upto k) l rs → Forall2 once l rs.
Proof.
  intros Hl Hnd. assert (∀ b, (∀ q, q ∈ l → b !! pf_key q = upto k !! pf_key q) → outcomes server_opts b l rs → Forall2 once l rs) as Hgo; [|by apply Hgo].
  revert rs Hl Hnd. induction l as [|q l IH]; intros [|r rs] Hl Hnd b Hb Ho; try done. destruct Ho as [Hr Ho]. cbn in Hnd.
  apply NoDup_cons in Hnd as [Hq Hnd]. constructor.
  - unfold once. destruct (upto_key k q) as [Hu|Hu]; [apply Hl; by left| |]; rewrite <- Hb in Hu by (by left); [left|right];
      by eapply (outcome_local _ _ _ _ _ _ _ _ Hu).
  - eapply IH; [set_solver|done| |exact Ho]. intros x Hx. rewrite commit_other; [apply Hb; by right|].
    intros Heq. apply Hq. rewrite <- Heq. by apply list_elem_of_fmap_2.
Qed.

(** The file a server makes of a message. *)
Definition served (m : Pb.FileBytes) q : Prop := ∃ f, as_batch_file m = Ok f ∧ q = raw_prepared org repo server_opts f.
Lemma served_chunk files l : Forall2 served files l → chunk_files org repo server_opts files = Some l.
Proof.
  intros Hq. unfold RaftReplica.chunk_files. assert (∃ fs, collect as_batch_file files = Ok fs ∧ raw_prepared org repo server_opts <$> fs = l)
    as (fs & -> & ->); [|done].
  induction Hq as [|m q files l (f & Hf & ->) _ (fs & Hfs & <-)]; [by exists []|]. exists (f :: fs). cbn. by rewrite Hf, Hfs.
Qed.
Lemma served_hint m q : served m q → ∃ h, resolved_encoding_hint m = Ok h.
Proof. intros (f & Hf & _). unfold as_batch_file in Hf. destruct (resolved_encoding_hint m) as [h| |]; [by exists h|done|done]. Qed.

(** What a chunk does when some first files are there. *)
Section chunk.
Context (files : list Pb.FileBytes) (l0 l l2 : list PreparedFile).
Hypothesis files_l : Forall2 served files l.
Hypothesis qs_l : qs = l0 ++ l ++ l2.
Abbreviation cmd := (IndexChunk org repo reindex files).

Lemma part_distinct : NoDup (pf_key <$> l).
Proof. pose proof distinct as Hd. rewrite qs_l, !fmap_app in Hd. apply NoDup_app in Hd as (_ & _ & Hd). by apply NoDup_app in Hd as (? & _). Qed.
Lemma chunk_lands k : (length l0 ≤ k)%nat →
  cmd_docs (upto k) cmd =
    match first_abort server_opts org repo (upto k) l with Some _ => upto k | None => upto (k `max` (length l0 + length l)) end ∧
  ∀ resp, cmd_answer (upto k) cmd resp →
    match first_abort server_opts org repo (upto k) l with
    | Some (_, er) => resp = Failed (ErrDetail_of er)
    | None => ∃ rs out, outcomes server_opts (upto k) l rs ∧ collect file_answer rs = Ok out ∧ resp = Index out
    end.
Proof.
  intros Hk. unfold RaftReplica.cmd_docs, RaftReplica.cmd_answer. cbv zeta. rewrite (served_chunk files l files_l).
  destruct (prepared_batch is_alphabetic is_numeric registry server_opts org repo l (upto k) (upto k) part_distinct) as (-> & -> & Ho); [|done|].
  { intros q x Hq. apply unread. rewrite qs_l. set_solver. }
  rewrite (upto_lands l0 l l2 k qs_l Hk). split; [done|]. intros resp. destruct (first_abort _ _ _ _ _) as [[]|]; [done|].
  intros (rs & out & Hrs & Hout & ->). exists rs, out. split; [|done]. by apply Ho.
Qed.
End chunk.

(** A command of this call, with the files from [s] to [t]. *)
Definition proposed (c : list Z) (s t : nat) : Prop :=
  ∃ files l0 l l2, c = encode_to_vec (Some (IndexChunk org repo reindex files) : LogCommand) ∧ Forall2 served files l ∧ qs = l0 ++ l ++ l2 ∧
    s = length l0 ∧ t = (length l0 + length l)%nat.
(** The first [k] files are there, and every command sent starts at or before
    the next; and no command reaches beyond them. *)
Definition reached n (k : nat) : Prop := docs n = upto k ∧ ∀ c, c ∈ ld_sent n → ∃ s t, proposed c s t ∧ (s ≤ k)%nat.
Definition exactly n (k : nat) : Prop := docs n = upto k ∧ ∀ c, c ∈ ld_sent n → ∃ s t, proposed c s t ∧ (s ≤ k)%nat ∧ (t ≤ k)%nat.
Lemma exactly_reached n k : exactly n k → reached n k.
Proof. intros [Hd Hs]. split; [done|]. intros c Hc. destruct (Hs c Hc) as (s & t & ? & ? & _). by exists s, t. Qed.

Lemma late_lands sent before : Forall (own sent) before → ∀ k,
  (∀ c, c ∈ sent → ∃ s t, proposed c s t ∧ (s ≤ k)%nat) →
  ∃ k', (k ≤ k')%nat ∧ foldl entry_docs (upto k) before = upto k'.
Proof.
  induction 1 as [|e before He _ IH]; intros k Hk; [by exists k|]. cbn [foldl].
  assert (∃ k1, (k ≤ k1)%nat ∧ entry_docs (upto k) e = upto k1) as (k1 & Hk1 & ->).
  { unfold RaftReplica.entry_docs, entry_cmd, own in *. destruct (e_payload e) as [|c|m]; [by exists k| |by exists k].
    destruct (Hk c He) as (s & t & (files & l0 & l & l2 & -> & Hf & Hqs & -> & ->) & Hs).
    rewrite prost_roundtrip. cbn [mjoin option_join]. destruct (chunk_lands files l0 l l2 Hf Hqs k Hs) as [-> _].
    destruct (first_abort _ _ _ _ _); [by exists k|]. exists (k `max` (length l0 + length l))%nat. split; [lia|done]. }
  destruct (IH k1) as (k' & Hk' & ->); [|exists k'; split; [lia|done]].
  intros c Hc. destruct (Hk c Hc) as (s & t & ? & ?). exists s, t. split; [done|lia].
Qed.
Lemma late_stays sent before k : Forall (own sent) before →
  (∀ c, c ∈ sent → ∃ s t, proposed c s t ∧ (s ≤ k)%nat ∧ (t ≤ k)%nat) → foldl entry_docs (upto k) before = upto k.
Proof.
  intros Hb Hk. induction Hb as [|e before He _ IH]; [done|]. cbn [foldl]. assert (entry_docs (upto k) e = upto k) as ->; [|done].
  unfold RaftReplica.entry_docs, entry_cmd, own in *. destruct (e_payload e) as [|c|m]; [done| |done].
  destruct (Hk c He) as (s & t & (files & l0 & l & l2 & -> & Hf & Hqs & -> & ->) & Hs & Hle).
  rewrite prost_roundtrip. cbn [mjoin option_join]. destruct (chunk_lands files l0 l l2 Hf Hqs k Hs) as [-> _].
  destruct (first_abort _ _ _ _ _); [done|]. by rewrite Nat.max_l.
Qed.

(** A call that is to put in the files [l], of which those before are there. It
    returns; some more files are there after it; if it succeeds, all of [l] are,
    and every outcome is that of the file; and if the call is the first, arrives
    whole and all its proposals are answered, it succeeds with the outcomes in
    order unless a file ends it with its error. *)
Definition progress {A} (whole : Prop) (l0 l : list PreparedFile) n (k : nat) (call : Leader * outcome Status A)
    (Q : list (result IngestStats) → A → Prop) : Prop :=
  let '(n', r) := call in
  in_order n' →
  caught_up n' ∧ r ≠ Panic ∧ (∃ k', (k ≤ k')%nat ∧ reached n' k') ∧
  (∀ x, r = Ok x → ∃ k' rs, (k ≤ k')%nat ∧ (length l0 + length l ≤ k')%nat ∧ reached n' k' ∧ Forall2 once l rs ∧ Q rs x) ∧
  (whole → all_answered → k = length l0 → exactly n k →
     match first_abort server_opts org repo (upto k) l with
     | None => ∃ x rs, r = Ok x ∧ exactly n' (length l0 + length l) ∧ outcomes server_opts (upto k) l rs ∧ Q rs x
     | Some (_, er) => r = Err (store_error_to_status (over_wire er))
     end).

(** The answer of a chunk as a function of what became of its proposal. *)
Definition chunk_result (files : list Pb.FileBytes) (r : result (LogResponse * Z)) : outcome Status (list Pb.FileResult * Z) :=
  match r with
  | Ok (Failed d, _) => Err (status (into_error (detail_error d) d))
  | Ok (Skipped, _) => Err (internal (lit "the entry was skipped as already applied; this cannot happen for a fresh proposal"))
  | Ok (Index results, i) =>
      if (length results =? length files)%nat then Ok (file_result detail_error <$> results, i)
      else Err (internal (lit "IndexChunk applied as " ++ debug (Index results)))
  | Ok (resp, _) => Err (internal (lit "IndexChunk applied as " ++ debug resp))
  | Err e => Err (status e)
  | Panic => Panic
  end.
Lemma index_chunk_eq files n :
  index_chunk org repo reindex files n =
  let '(n1, r) := node_propose (encode_to_vec (Some (IndexChunk org repo reindex files) : LogCommand)) n in (n1, chunk_result files r).
Proof.
  unfold Service.index_chunk, mbind, serve_bind, Service.propose. destruct (node_propose _ n) as [n1 [[[] i]| |]]; try done.
  cbn. by destruct (length results =? length files)%nat.
Qed.

Lemma chunk_progress files l0 l l2 n k :
  Forall2 served files l → qs = l0 ++ l ++ l2 → caught_up n → reached n k → (length l0 ≤ k)%nat →
  progress True l0 l n k (index_chunk org repo reindex files n) (λ rs x, Forall2 reported rs x.1).
Proof.
  intros Hf Hqs Hn [Hd Hsent] Hk. rewrite index_chunk_eq. unfold progress. set (c := encode_to_vec _).
  destruct (node_propose c n) as [n1 r1] eqn:Ep. intros Hord.
  assert (proposed c (length l0) (length l0 + length l)) as Hc by (exists files, l0, l, l2; done).
  destruct (proposed_run _ _ _ _ Hn Ep Hord) as (Hn1 & Hs1 & Hr). fold c in Hs1.
  assert (∀ k', (k ≤ k')%nat → docs n1 = upto k' → reached n1 k') as Hreach.
  { intros k' Hk' Hd1. split; [done|]. rewrite Hs1. intros x [Hx|Hx%list_elem_of_singleton]%elem_of_app.
    - destruct (Hsent x Hx) as (s & t & ? & ?). exists s, t. split; [done|lia].
    - subst x. eexists _, _. split; [exact Hc|lia]. }
  destruct Hr as [(Hd1 & er & Hfate & ->)|(before & id & lost & resp & Hfate & Hown & Hdocs & Hans & ->)].
  { cbn [chunk_result]. split_and!; [done|done|exists k; split; [done|apply Hreach; [done|by rewrite Hd1]]|done|].
    intros _ Hall. destruct (Hall (length (ld_sent n))) as (b & id & Hid). congruence. }
  rewrite Hd in Hdocs, Hans. destruct (late_lands (ld_sent n) before Hown k Hsent) as (k1 & Hk1 & Hb). rewrite Hb in Hdocs, Hans.
  destruct (chunk_lands files l0 l l2 Hf Hqs k1) as [Hland Hanswer]; [lia|]. rewrite Hland in Hdocs. specialize (Hanswer resp Hans).
  assert (∃ k', (k ≤ k')%nat ∧ reached n1 k') as Hsome.
  { destruct (first_abort _ _ _ _ _); eexists; (split; [|apply Hreach; [|exact Hdocs]]); lia. }
  assert (length files = length l) as Hlen by by eapply Forall2_length.
  assert (∀ out rs, outcomes server_opts (upto k1) l rs → collect file_answer rs = Ok out → (length out =? length files)%nat = true) as Hcount.
  { intros out rs Ho Hout. apply Nat.eqb_eq. apply collect_length in Hout. rewrite (outcomes_length _ _ _ _ Ho) in Hout. lia. }
  split; [done|]. split.
  { destruct lost; [done|]. unfold chunk_result. destruct resp; try done. by destruct (_ =? _)%nat. }
  split; [done|]. split.
  - intros x. destruct lost as [er|]; [done|]. destruct (first_abort server_opts org repo (upto k1) l) as [[i er]|].
    { by rewrite Hanswer. }
    destruct Hanswer as (rs & out & Ho & Hout & ->). cbn [chunk_result]. rewrite (Hcount out rs Ho Hout). intros [= <-].
    exists (k1 `max` (length l0 + length l))%nat, rs. split_and!; [lia|lia|apply Hreach; [lia|done]| |by apply file_results].
    eapply outcomes_once; [|by eapply part_distinct|exact Ho]. rewrite Hqs. set_solver.
  - intros _ Hall -> [_ Hex]. rewrite (late_stays _ _ _ Hown Hex) in Hb. rewrite <- Hb in *.
    destruct (Hall (length (ld_sent n))) as (b & id' & Hid). rewrite Hid in Hfate. injection Hfate as -> -> <-.
    destruct (first_abort server_opts org repo _ l) as [[i er]|].
    { rewrite Hanswer. cbn [chunk_result]. by rewrite into_error_of. }
    destruct Hanswer as (rs & out & Ho & Hout & ->). cbn [chunk_result]. eexists _, rs. split_and!; [| |exact Ho|].
    + rewrite (Hcount out rs Ho Hout). done.
    + split.
      * rewrite Hdocs. assert (upto (k1 `max` (length l0 + length l)) = foldl commit (upto k1) l) as -> by (symmetry; by eapply upto_lands; [exact Hqs|lia]).
        rewrite <- Hb. rewrite (upto_lands l0 l l2 (length l0) Hqs) by lia. f_equal. lia.
      * rewrite Hs1. intros x [Hx|Hx%list_elem_of_singleton]%elem_of_app.
        -- destruct (Hex x Hx) as (s & t & ? & ? & ?). exists s, t. split; [done|lia].
        -- subst x. eexists _, _. split; [exact Hc|lia].
    + by apply file_results.
Qed.

Lemma progress_bind {A B} whole l0 l l' l2 n k (m : serve (tbl:=tbl) (M:=M) A) (f : A → serve (tbl:=tbl) (M:=M) B) Q1 Q2 :
  qs = l0 ++ l ++ l2 → progress True l0 l n k (m n) Q1 → (∀ x, grows (f x)) →
  (∀ x n1 k1 rs1, caught_up n1 → reached n1 k1 → (length (l0 ++ l) ≤ k1)%nat → Q1 rs1 x →
     progress whole (l0 ++ l) l' n1 k1 (f x n1) (λ rs y, Q2 (rs1 ++ rs) y)) →
  progress whole l0 (l ++ l') n k (serve_bind A B f m n) Q2.
Proof.
  unfold progress, serve_bind. intros Hqs Hm Hg Hf. assert (length (l0 ++ l) = length l0 + length l)%nat as Hll by apply length_app.
  assert (∀ i j, length l0 + length (l ++ l') = length (l0 ++ l) + length l' ∧ (i ≤ j → i ≤ j))%nat as Hlen by (intros; rewrite !length_app; lia).
  assert (first_abort server_opts org repo (upto (length l0)) (l ++ l') =
    match first_abort server_opts org repo (upto (length l0)) l with
    | Some x => Some x
    | None => prod_map (Nat.add (length l)) id <$> first_abort server_opts org repo (upto (length (l0 ++ l))) l'
    end) as Happ.
  { rewrite first_abort_app. destruct (first_abort server_opts org repo (upto (length l0)) l); [done|]. rewrite (upto_lands l0 l l2 (length l0) Hqs) by lia. do 3 f_equal. lia. }
  destruct (m n) as [n1 [x|er|]].
  - destruct (Hg x n1) as (es & cs & He & Hc). specialize (Hf x n1). destruct (f x n1) as [n2 r] eqn:E2. cbn in He, Hc. intros Hord.
    destruct (Hm (in_order_before _ _ _ _ He Hc Hord)) as (Hn1 & _ & _ & Hok & Hstrict).
    destruct (Hok x eq_refl) as (k1 & rs1 & Hk1 & Hle1 & Hr1 & Ho1 & HQ1).
    destruct (Hf k1 rs1 Hn1 Hr1 ltac:(lia) HQ1 Hord) as (Hn2 & Hp & (k2 & Hk2 & Hr2) & Hok2 & _).
    split_and!; [done|done|exists k2; split; [lia|done]| |].
    + intros y Hy. destruct (Hok2 y Hy) as (k' & rs & ? & Hk' & ? & ? & ?). exists k', (rs1 ++ rs).
      split_and!; [lia|rewrite length_app; lia|done|by apply Forall2_app|done].
    + intros Hw Hall -> Hex. rewrite Happ. specialize (Hstrict I Hall eq_refl Hex).
      destruct (first_abort server_opts org repo (upto (length l0)) l) as [[i er]|]; [done|].
      destruct Hstrict as (x' & rs & [= <-] & Hex1 & Ho & HQ). rewrite <- Hll in Hex1.
      destruct (Hf _ rs Hn1 (exactly_reached _ _ Hex1) ltac:(lia) HQ Hord) as (_ & _ & _ & _ & Hstrict2). specialize (Hstrict2 Hw Hall eq_refl Hex1).
      destruct (first_abort server_opts org repo (upto (length (l0 ++ l))) l') as [[i er]|]; cbn; [done|].
      destruct Hstrict2 as (y & rs' & -> & Hex2 & Ho2 & HQ2). exists y, (rs ++ rs'). split_and!; [done| | |done].
      * by rewrite (proj1 (Hlen 0 0)%nat).
      * apply outcomes_join; [done|]. rewrite (upto_lands l0 l l2 (length l0) Hqs) by lia. replace (length l0 `max` (length l0 + length l))%nat with (length (l0 ++ l)) by lia. done.
  - intros Hord. destruct (Hm Hord) as (Hn1 & _ & Hk' & _ & Hstrict). split_and!; [done|done|done|done|].
    intros Hw Hall -> Hex. rewrite Happ. specialize (Hstrict I Hall eq_refl Hex). destruct (first_abort server_opts org repo (upto (length l0)) l) as [[i er']|]; [by injection Hstrict as ->|].
    by destruct Hstrict as (? & ? & [=] & _).
  - intros Hord. by destruct (Hm Hord) as (_ & ? & _).
Qed.

Lemma progress_ret {A} whole l0 n k (x : A) (Q : list (result IngestStats) → A → Prop) :
  caught_up n → reached n k → (length l0 ≤ k)%nat → Q [] x → progress whole l0 [] n k (n, Ok x) Q.
Proof.
  intros Hn Hr Hk HQ _. split_and!; [done|done|by exists k| |].
  - intros y [= <-]. exists k, []. cbn. split_and!; [lia|lia|done|constructor|done].
  - intros _ _ -> Hex. exists x, []. cbn. by rewrite Nat.add_0_r.
Qed.
Lemma progress_err {A} (whole : Prop) l0 l n k st (Q : list (result IngestStats) → A → Prop) :
  caught_up n → reached n k → (whole → False) → progress whole l0 l n k (n, Err st) Q.
Proof. intros Hn Hr Hw _. split_and!; [done|done|by exists k|done|]. by intros ?%Hw. Qed.
Lemma progress_weaken {A} (whole whole' : Prop) l0 l n k (c : Leader * outcome Status A) (Q Q' : list (result IngestStats) → A → Prop) :
  (whole' → whole) → (∀ rs x, Q rs x → Q' rs x) → progress whole l0 l n k c Q → progress whole' l0 l n k c Q'.
Proof.
  intros Hw HQ. unfold progress. destruct c as [n' r]. intros Hc Hord. destruct (Hc Hord) as (? & ? & ? & Hok & Hs). split_and!; try done.
  - intros x Hx. destruct (Hok x Hx) as (k' & rs & ? & ? & ? & ? & ?). exists k', rs. split_and!; auto.
  - intros Hw' Hall Hk Hex. specialize (Hs (Hw Hw') Hall Hk Hex). destruct (first_abort _ _ _ _ _) as [[]|]; [done|].
    destruct Hs as (x & rs & ? & ? & ? & ?). exists x, rs. split_and!; auto.
Qed.

(** ** Streams *)
Lemma loop_progress tail files : (tail = [] ∨ ∃ st, tail = [inr st]) → ∀ l0 pending lp b results i lm l2 n k,
  caught_up n → reached n k → (length l0 ≤ k)%nat → Forall2 served pending lp → Forall2 served files lm → qs = l0 ++ lp ++ lm ++ l2 →
  progress (tail = []) l0 (lp ++ lm) n k (index_loop org repo reindex (file_messages files ++ tail) pending b results i n)
    (λ rs resp, tail = [] ∧ ∃ ms, Forall2 reported rs ms ∧ ir_results resp = results ++ ms).
Proof.
  intros Htail. induction files as [|f files IH]; intros l0 pending lp b results i lm l2 n k Hn Hr Hk Hlp Hlm Hqs.
  - apply Forall2_nil_inv_l in Hlm as ->. cbn [file_messages fmap list_fmap app]. destruct Htail as [->|[st ->]].
    2:{ cbn. by apply progress_err. }
    cbn [Service.index_loop]. destruct pending as [|f pending].
    { apply Forall2_nil_inv_l in Hlp as ->. cbn. apply progress_ret; [done..|]. split; [done|]. exists []. by rewrite app_nil_r. }
    eapply progress_bind; [exact Hqs|by eapply chunk_progress|intros []; apply grows_lift|].
    intros [ms j] n1 k1 rs1 Hn1 Hr1 Hk1 Hms. cbn. apply progress_ret; [done..|]. split; [done|]. exists ms. by rewrite app_nil_r.
  - apply Forall2_cons_inv_l in Hlm as (q & lm' & Hq & Hlm & ->). destruct (served_hint _ _ Hq) as [h Hh].
    cbn [file_messages fmap list_fmap app]. fold (file_messages files). rewrite (loop_file _ _ _ _ _ _ _ _ _ _ h Hh).
    destruct (overflows pending b f).
    + eapply progress_bind; [exact Hqs|by eapply chunk_progress|intros []; apply grows_index_loop|].
      intros [ms j] n1 k1 rs1 Hn1 Hr1 Hk1 Hms. eapply progress_weaken; [done| |apply (IH (l0 ++ lp) [f] [q] _ _ _ lm' l2); try done].
      * intros rs resp (Ht & ms2 & Hms2 & Hres). split; [done|]. exists (ms ++ ms2). split; [by apply Forall2_app|]. by rewrite Hres, app_assoc.
      * by repeat constructor.
      * rewrite Hqs. by rewrite <- !app_assoc.
    + replace (lp ++ q :: lm') with ((lp ++ [q]) ++ lm') by by rewrite <- app_assoc. eapply IH; try done.
      * apply Forall2_app; [done|]. by repeat constructor.
      * rewrite Hqs. by rewrite <- !app_assoc.
Qed.

(** The handler of a call with these messages, of which a stream that breaks
    off brings some. *)
Context (broken : Status) (msgs : list Pb.FileBytes).
Hypothesis msgs_qs : Forall2 served msgs qs.
Definition handler (arrives : option nat) : serve (tbl:=tbl) (M:=M) IndexResponse :=
  index_here (stream_of broken (Some (IndexHeader org repo (Some reindex)) :: ((λ m, Some (IndexFile m)) <$> msgs)) arrives).
Definition answered (rs : list (result IngestStats)) (resp : IndexResponse) : Prop := Forall2 reported rs (ir_results resp).
Lemma handler_grows arrives : grows (handler arrives).
Proof. unfold handler, stream_of. destruct arrives as [[|k]|]; cbn; [apply grows_lift|apply grows_index_loop..]. Qed.
Lemma messages_of k : inl <$> take k ((λ m, Some (IndexFile m)) <$> msgs) = file_messages (take k msgs).
Proof. unfold file_messages. rewrite <- fmap_take, <- list_fmap_compose. done. Qed.
Lemma handler_progress arrives n k : caught_up n → reached n k → progress (arrives = None) [] qs n k (handler arrives n) answered.
Proof.
  intros Hn Hr. unfold handler, stream_of. destruct arrives as [[|j]|].
  - by refine (progress_err _ _ _ _ _ broken _ Hn Hr _).
  - cbn [take fmap list_fmap app Service.index_here]. rewrite messages_of.
    pose proof (loop_progress [inr broken] (take j msgs) ltac:(right; by eexists) [] [] [] 0 [] 0 (take j qs) (drop j qs) n k Hn Hr ltac:(cbn; lia)
      ltac:(constructor) ltac:(by apply Forall2_take) ltac:(cbn; by rewrite take_drop)) as Hl. unfold progress in *.
    destruct (index_loop _ _ _ _ _ _ _ _ n) as [n' r]. intros Hord. destruct (Hl Hord) as (? & ? & ? & Hok & _). split_and!; try done.
    intros x Hx. by destruct (Hok x Hx) as (? & ? & _ & _ & _ & _ & ? & _).
  - pose proof (messages_of (length msgs)) as Hms. rewrite !take_ge in Hms by (rewrite ?length_fmap; lia).
    assert (∀ stream, stream = file_messages msgs → progress (@None nat = None) [] qs n k (index_loop org repo reindex stream [] 0 [] 0 n) answered) as Hgo;
      [|exact (Hgo _ Hms)]. intros stream ->.
    pose proof (loop_progress [] msgs ltac:(by left) [] [] [] 0 [] 0 qs [] n k Hn Hr ltac:(cbn; lia) ltac:(constructor) msgs_qs
      ltac:(cbn; by rewrite app_nil_r)) as Hl. rewrite app_nil_r in Hl. cbn [app] in Hl.
    eapply progress_weaken; [| |exact Hl]; [done|]. intros rs x (_ & ms & Hm & Hx). unfold answered. by rewrite Hx.
Qed.

(** ** The client *)
Context (endpoints : list str) (retry_cap_ms : Z) (bad_endpoint : str → option str).
Abbreviation attempted := (attempted (tbl:=tbl) (M:=M)).
Abbreviation call_at := (call_at (tbl:=tbl) (M:=M) endpoints retry_cap_ms bad_endpoint).

Lemma attempted_progress t n k :
  caught_up n → reached n k → progress (t = Handled None None) [] qs n k (attempted handler t n) answered.
Proof.
  intros Hn Hr. destruct t as [st|arrives lost]; [by refine (progress_err _ _ _ _ _ st _ Hn Hr _)|].
  pose proof (handler_progress arrives n k Hn Hr) as Hc. cbn [Remote.attempted]. unfold progress in *. destruct (handler arrives n) as [n' r]. intros Hord.
  destruct (Hc Hord) as (? & ? & ? & Hok & Hall). destruct lost as [st|]; [by split_and!|]. split_and!; try done. intros [= ->]. by apply Hall.
Qed.

(** A call that is retried: between the attempts some first files are there. *)
Definition ended (c : str * Leader * result (IndexResponse * str)) : Prop :=
  let '(_, n', r) := c in
  in_order n' →
  caught_up n' ∧ r ≠ Panic ∧ (∃ k, reached n' k) ∧
  (∀ x ep, r = Ok (x, ep) → docs n' = upto (length qs) ∧ ∃ rs, Forall2 once qs rs ∧ answered rs x).
Lemma call_progress more : ∀ t late active n k, caught_up n → reached n k → ended (call_at KWrite None handler more t late active n).
Proof.
  induction more as [|[t1 late1] more IH]; intros t late active n k Hn Hk;
    pose proof (attempted_progress t n k Hn Hk) as Hc; unfold progress in Hc; destruct (attempted handler t n) as [n1 r1] eqn:Et.
  all: assert (∀ x, in_order n1 → r1 = Ok x → docs n1 = upto (length qs) ∧ ∃ rs, Forall2 once qs rs ∧ answered rs x) as Hdone by
    (intros x Hord ->; destruct (Hc Hord) as (_ & _ & _ & Hok & _); destruct (Hok x eq_refl) as (k' & rs & _ & Hk' & [Hd _] & Ho & Ha);
     split; [rewrite Hd; unfold upto; f_equal; rewrite !take_ge by (cbn in Hk'; lia); done|by exists rs]).
  all: eapply (call_ends _ _ _ _ _ ended); [exact Et| | | |]; unfold ended in *.
  all: try (intros x ep Hx Hord; destruct (Hc Hord) as (? & _ & (k' & _ & ?) & _); split_and!; [done|done|by exists k'|];
    intros y ep' [= <- <-]; by apply Hdone).
  all: try (intros -> Hord; by destruct (Hc Hord) as (_ & ? & _)).
  all: try (intros st ac er -> Hord; destruct (Hc Hord) as (? & _ & (k' & _ & ?) & _); split_and!; [done|done|by exists k'|done]).
  - done.
  - intros st ac t2 late2 more2 -> [= <- <- <-]. pose proof (call_grows endpoints retry_cap_ms bad_endpoint KWrite handler more handler_grows t1 late1 ac n1) as (es & cs & Hg & Hs).
    specialize (IH t1 late1 ac n1). destruct (call_at KWrite None handler more t1 late1 ac n1) as [[ac' n'] r]. cbn in Hg, Hs. intros Hord.
    destruct (Hc (in_order_before _ _ _ _ Hg Hs Hord)) as (Hn1 & _ & (k' & _ & Hr1) & _). exact (IH k' Hn1 Hr1 Hord).
Qed.
Lemma abort_rejected a l i er : first_abort server_opts org repo a l = Some (i, er) → ∃ m, er = Rejected m.
Proof.
  intros (l1 & p & l2 & _ & _ & _ & Hp)%first_abort_Some. unfold abort_of in Hp. destruct (negb _ || negb _); [injection Hp as <-; by eexists|].
  assert (∀ ex, ingest_guard org repo (pf_language p) ex = Err er → ∃ m, er = Rejected m) as Hg.
  { intros ex Hex. destruct (ingest_guard_cases org repo (pf_language p) ex) as [[? _]|[[m Hm] _]]; rewrite Hex in *; simplify_eq; by eexists. }
  repeat case_match; try done; injection Hp as ->; by eapply Hg.
Qed.
(** The first attempt decides when it arrives whole and is answered. *)
Lemma call_first more late active n :
  caught_up n → exactly n 0 → all_answered →
  let '(_, n', r) := call_at KWrite None handler more (Handled None None) late active n in
  in_order n' →
  match first_abort server_opts org repo a0 qs with
  | None => ∃ x ep rs, r = Ok (x, ep) ∧ outcomes server_opts a0 qs rs ∧ answered rs x
  | Some (_, er) => r = Err er
  end.
Proof.
  intros Hn Hex Hall. pose proof (attempted_progress (Handled None None) n 0 Hn (exactly_reached _ _ Hex)) as Hc. unfold progress in Hc.
  destruct (attempted handler (Handled None None) n) as [n1 r1] eqn:Et.
  destruct (call_extends endpoints retry_cap_ms bad_endpoint KWrite handler more (Handled None None) late active n n1 r1 handler_grows Et) as (es & cs & Hg & Hs).
  destruct (call_at KWrite None handler more (Handled None None) late active n) as [[ac n'] r] eqn:Ecall. cbn in Hg, Hs. intros Hord.
  destruct (Hc (in_order_before _ _ _ _ Hg Hs Hord)) as (_ & _ & _ & _ & Hstrict). specialize (Hstrict eq_refl Hall eq_refl Hex).
  change (upto 0) with a0 in Hstrict. destruct (first_abort server_opts org repo a0 qs) as [[i er]|] eqn:Ef.
  - destruct (abort_rejected _ _ _ _ Ef) as [m ->]. rewrite Hstrict in Et. rewrite (call_refused _ _ _ _ _ _ _ _ _ _ _ Et) in Ecall. by injection Ecall as _ _ <-.
  - destruct Hstrict as (x & rs & -> & _ & Ho & Ha). rewrite (call_succeeds _ _ _ _ _ _ _ _ _ _ _ _ Et) in Ecall. injection Ecall as _ _ <-. by eexists x, _, rs.
Qed.
End calls.

(** ** Reading the answer *)
Definition fitting (r : result IngestStats) : Prop := match r with Ok s => stats_fit s | _ => True end.
Lemma stats_read s : (∃ er, stats_from (stats_into s) = Err er ∧ ¬ stats_fit s) ∨ stats_from (stats_into s) = Ok s.
Proof.
  destruct (decide (stats_fit s)) as [Hf|Hf]; [right; by apply stats_roundtrip|left].
  unfold stats_from, stats_into. cbn. unfold stats_fit in Hf. unfold to_usize. repeat case_match; cbn; try (eexists; split; [done|done]).
  exfalso. apply Hf. split; lia.
Qed.
Lemma result_read r m : reported r m →
  (∃ x, received r x ∧ protocol_result (file_result_from m) = Ok x) ∨ (∃ er, protocol_result (file_result_from m) = Err er ∧ ¬ fitting r).
Proof.
  intros (x & Hx & ->). destruct r as [s|er|], x as [s'|er']; try done; cbn in Hx; subst.
  - cbn. destruct (stats_read s) as [(er & -> & Hf)| ->]; cbn; [right; by eexists|left; by exists (inl s)].
  - left. exists (inr (over_wire er)). split; [done|]. rewrite file_result_roundtrip by done. cbn. do 2 f_equal. by destruct er.
Qed.
Lemma results_read rs ms : Forall2 reported rs ms →
  match collect (λ m, protocol_result (file_result_from m)) ms with
  | Ok outs => Forall2 received rs outs
  | Err _ => ¬ Forall fitting rs
  | Panic => False
  end.
Proof.
  induction 1 as [|r m rs ms Hm _ IH]; [constructor|]. cbn [collect].
  destruct (result_read r m Hm) as [(x & Hx & ->)|(er & -> & Hf)]; cbn.
  - destruct (collect _ ms) as [outs|er|]; cbn; [by constructor| |done]. intros Hall. by apply Forall_cons in Hall as [_ ?].
  - intros Hall. by apply Forall_cons in Hall as [? _].
Qed.

(** ** Indexing *)
Section index.
Context (endpoints : list str) (retry_cap_ms : Z) (bad_endpoint : str → option str) (broken : Status).
Context (org repo : str) (opts : IndexOptions).
Abbreviation server_opts := (mkIndexOptions (io_reindex opts) None false).
Abbreviation commit := (commit_doc server_opts).

(** The file as the server sees it. *)
Definition sent (f : BatchFile) : BatchFile :=
  mkBatchFile (normalize_path (bf_path f)) (bf_bytes f)
    (match bf_language f with
     | Some l => if bool_decide (to_ascii_lowercase l = []) then None else Some (to_ascii_lowercase l)
     | None => None
     end)
    (bf_origin f) match bf_encoding f with Some e => Some e | None => io_encoding opts end
    (bf_strict_encoding f || io_strict_encoding opts).
(** A hint is the name of an encoding. *)
Definition hint_ok (f : BatchFile) : Prop :=
  ∀ h, bf_encoding (sent f) = Some h → is_known_encoding_name h = true ∧
    trim_end_matches is_whitespace (trim_start_matches is_whitespace h) = h.
(** What the server takes the file for. *)
Definition server_file (f : BatchFile) : PreparedFile := raw_prepared org repo server_opts (sent f).

Lemma sent_message f : index_message org repo (remote_prepare org repo f opts) = Ok (Some (IndexFile (file_into (sent f)))).
Proof.
  unfold index_message, remote_prepare, PreparedFile_remote, remote_parts, sent, file_into. cbn. rewrite bool_decide_eq_true_2 by done.
  by destruct (bf_language f).
Qed.
Lemma sent_served f : hint_ok f → served org repo (io_reindex opts) (file_into (sent f)) (server_file f).
Proof. intros Hh. exists (sent f). split; [by apply file_roundtrip|done]. Qed.
Lemma server_key f : pf_key (server_file f) = (org, repo, normalize_path (bf_path f)).
Proof.
  destruct (raw_repo sha256 registry org repo server_opts (sent f)) as [Ho Hr]. unfold pf_key, server_file. rewrite Ho, Hr. do 2 f_equal.
  unfold Prepare.raw_prepared. destruct (head_of sha256 registry (sent f) server_opts) as [|[[[[? ?] ?] ?] ?]]; cbn; apply normalize_again.
Qed.

(** C6: Indexing through the cluster is indexing. A client sends files and
    retries through lost connections, changes of the leader and answers that do
    not arrive; the files arrive whole or in part, are cut into entries, and
    some of the entries are committed, at once or late, with blanks and
    memberships between them. Whatever happens, the store holds the documents of
    the first so many files put in, in order. When the call succeeds it holds
    those of all of them, and each result is the outcome of its file on the
    documents before or, stored by an earlier attempt, on those that have it,
    with errors as they read after the wire. And when the first attempt arrives
    whole and all proposals are answered, the call succeeds with the outcomes of
    the files in order, or fails with the error of the first file that can be
    stored under no name. For a sole writer ([sole]) and files with distinct
    paths whose hints are names of encodings; what is applied fits the store
    ([log_fits]), and the ids of committed entries increase. *)
Theorem remote_index_refines files attempts c n :
  Forall hint_ok files → NoDup ((λ f, normalize_path (bf_path f)) <$> files) →
  ld_db n = d0 → ld_log n = [] → ld_sent n = [] →
  let qs := server_file <$> files in
  let '(_, n', r) := remote_index_batch sha256 is_alphabetic is_numeric decode_error hook registry detail_error fatal_text debug fate
    endpoints retry_cap_ms bad_endpoint broken attempts org repo files opts c n in
  in_order n' →
  ∃ s', represents (ld_db n') s' ∧ (∃ k, ra_docs s' = foldl commit (ra_docs s0) (take k qs)) ∧
  match r with
  | Ok outs => ra_docs s' = foldl commit (ra_docs s0) qs ∧
      ∃ rs, Forall2 (once (io_reindex opts) (ra_docs s0)) qs rs ∧ Forall2 received rs outs
  | Err _ => True
  | Panic => False
  end ∧
  (attempts.1.1 = Handled None None → all_answered →
   match first_abort server_opts org repo (ra_docs s0) qs with
   | None => ∃ rs, outcomes server_opts (ra_docs s0) qs rs ∧ (Forall fitting rs → ∃ outs, r = Ok outs ∧ Forall2 received rs outs)
   | Some (_, er) => r = Err er
   end).
Proof.
  intros Hhint Hpaths Hd Hl Hs qs. assert (caught_up n) as Hn by (exists []; by rewrite Hl, Hd).
  assert (docs n = ra_docs s0) as Hdocs by (unfold docs, state; by rewrite Hl).
  assert (exactly org repo (io_reindex opts) (ra_docs s0) qs n 0) as Hex by (split; [done|]; rewrite Hs; by intros x ?%elem_of_nil).
  assert (NoDup (pf_key <$> qs)) as Hnd.
  { unfold qs. rewrite <- list_fmap_compose. assert (pf_key ∘ server_file <$> files = (λ p, (org, repo, p)) <$> ((λ f, normalize_path (bf_path f)) <$> files)) as ->.
    { rewrite <- list_fmap_compose. apply list_fmap_ext. intros i f _. apply server_key. }
    apply NoDup_fmap_2; [|done]. by intros p q [= ->]. }
  assert (∀ q x, q ∈ qs → pf_work q ≠ PExtracted x) as Hun by (intros q x (f & -> & _)%list_elem_of_fmap; apply raw_work).
  set (msgs := (λ f, file_into (sent f)) <$> files).
  assert (Forall2 (served org repo (io_reindex opts)) msgs qs) as Hms.
  { unfold msgs, qs. apply Forall2_fmap, Forall_Forall2_diag. eapply Forall_impl; [exact Hhint|]. intros f. apply sent_served. }
  unfold remote_index_batch, remote_index_prepared. destruct ((λ f, remote_prepare org repo f opts) <$> files) as [|p ps] eqn:Ep.
  { intros Hord. exists (state n). split; [by apply caught_up_represents|]. apply fmap_nil_inv in Ep. unfold qs. rewrite Ep.
    split; [by exists 0%nat|]. split; [split; [done|]; exists []; by split|]. intros _ _. exists []. split; [done|]. intros _. by exists []. }
  rewrite <- Ep. unfold index_remote.
  assert (collect (index_message org repo) ((λ f, remote_prepare org repo f opts) <$> files) = Ok ((λ m, Some (IndexFile m)) <$> msgs)) as ->.
  { clear. unfold msgs. induction files as [|f fs IH]; [done|]. cbn [fmap list_fmap collect]. rewrite sent_message. cbn. cbn in IH. by rewrite IH. }
  unfold call. set (h := λ arrives, Service.index_here _ _ _ _ _ _ _ _ _ _ _). change h with (handler org repo (io_reindex opts) broken msgs).
  pose proof (call_progress org repo (io_reindex opts) (ra_docs s0) qs Hnd Hun broken msgs Hms endpoints retry_cap_ms bad_endpoint
    attempts.2 attempts.1.1 attempts.1.2 (cl_active c) n 0 Hn (exactly_reached _ _ _ _ _ _ _ Hex)) as Hc.
  pose proof (λ Hall, call_first org repo (io_reindex opts) (ra_docs s0) qs Hnd Hun broken msgs Hms endpoints retry_cap_ms bad_endpoint
    attempts.2 attempts.1.2 (cl_active c) n Hn Hex Hall) as Hf.
  assert (∀ resp rs, Forall2 reported rs (ir_results resp) → length rs = length qs → length (ir_results resp) = length files) as Hlen.
  { intros resp rs Hr Hq. rewrite <- (Forall2_length _ _ _ Hr), Hq. unfold qs. apply length_fmap. }
  assert (attempts.1.1 = Handled None None → call_at endpoints retry_cap_ms bad_endpoint KWrite None (handler org repo (io_reindex opts) broken msgs)
    attempts.2 (Handled None None) attempts.1.2 (cl_active c) n = call_at endpoints retry_cap_ms bad_endpoint KWrite None
    (handler org repo (io_reindex opts) broken msgs) attempts.2 attempts.1.1 attempts.1.2 (cl_active c) n) as Hsame by (by intros ->).
  unfold ended in Hc.
  destruct (call_at _ _ _ KWrite None _ attempts.2 attempts.1.1 attempts.1.2 (cl_active c) n) as [[active n'] [[resp ep]|er|]]; cbn.
  - intros Hord. destruct (Hc Hord) as (Hn' & _ & (k & Hk & _) & Hok). destruct (Hok resp ep eq_refl) as (Hdone & rs & Ho & Hr).
    rewrite length_fmap, (Hlen _ _ Hr (eq_sym (Forall2_length _ _ _ Ho))), Nat.eqb_refl. pose proof (results_read _ _ Hr) as Hread.
    exists (state n'). split; [by apply caught_up_represents|]. split; [by exists k|]. split.
    + destruct (collect _ _) as [outs|er|]; [|done|done]. split; [|by exists rs]. fold (docs n'). rewrite Hdone. unfold upto. by rewrite take_ge.
    + intros Hw Hall. specialize (Hf Hall). rewrite (Hsame Hw) in Hf. specialize (Hf Hord).
      destruct (first_abort server_opts org repo (ra_docs s0) qs) as [[]|]; [done|]. destruct Hf as (x & ep' & rs' & [= <- <-] & Ho' & Hr').
      exists rs'. split; [done|]. intros Hfit. pose proof (results_read _ _ Hr') as Hread'. destruct (collect _ _) as [outs|er|]; [|done|done]. by exists outs.
  - intros Hord. destruct (Hc Hord) as (Hn' & _ & (k & Hk & _) & _). exists (state n'). split; [by apply caught_up_represents|].
    split; [by exists k|]. split; [done|]. intros Hw Hall. specialize (Hf Hall). rewrite (Hsame Hw) in Hf. specialize (Hf Hord).
    destruct (first_abort server_opts org repo (ra_docs s0) qs) as [[]|]; [by injection Hf as ->|]. by destruct Hf as (? & ? & ? & [=] & _).
  - intros Hord. by destruct (Hc Hord) as (_ & ? & _).
Qed.
End index.
(** ** Writes of one command *)
Section single.
Context (cmd : LogCmd).
Hypothesis again : ∀ b, cmd_docs (cmd_docs b cmd) cmd = cmd_docs b cmd.

(** The command was applied or not, and no other was sent. *)
Definition maybe a (b : gmap dkey Doc) : Prop := b = a ∨ b = cmd_docs a cmd.
Definition only n : Prop := ∀ c, c ∈ ld_sent n → c = encode_to_vec (Some cmd : LogCommand).
Lemma maybe_step a b : maybe a b → maybe a (cmd_docs b cmd) ∧ cmd_docs b cmd = cmd_docs a cmd.
Proof. intros [->| ->]; [by split; [right|]|]. rewrite again. by split; [right|]. Qed.
Lemma maybe_late a n before : only n → Forall (own (ld_sent n)) before → ∀ b, maybe a b → maybe a (foldl entry_docs b before).
Proof.
  intros Ho. induction 1 as [|e before He _ IH]; intros b Hb; [done|]. cbn [foldl]. apply IH.
  unfold RaftReplica.entry_docs, entry_cmd, own in *. destruct (e_payload e) as [|c|m]; [done| |done].
  rewrite (Ho c He), prost_roundtrip. cbn. by apply maybe_step.
Qed.
Lemma none_late before : Forall (own []) before → ∀ b, foldl entry_docs b before = b.
Proof.
  induction 1 as [|e before He _ IH]; intros b; [done|]. cbn [foldl]. rewrite IH.
  unfold RaftReplica.entry_docs, entry_cmd, own in *. destruct (e_payload e) as [|c|m]; [done| |done]. by apply elem_of_nil in He.
Qed.

(** A call that proposes the command once. It returns; a success means that the
    command was applied, and [Q] relates its result to the answer of an
    application. If it is the first, gets to propose ([live]) and is answered, its
    result is that of the application to the documents before. *)
Definition performs {A} (live : Prop) (f : serve (tbl:=tbl) (M:=M) A) (Q : LogResponse → outcome Status A → Prop) : Prop :=
  grows f ∧ ∀ n a, caught_up n → only n → maybe a (docs n) →
  let '(n', r) := f n in
  in_order n' →
  caught_up n' ∧ only n' ∧ r ≠ Panic ∧ maybe a (docs n') ∧
  (∀ x, r = Ok x → docs n' = cmd_docs a cmd ∧ ∃ b resp, maybe a b ∧ cmd_answer b cmd resp ∧ Q resp (Ok x)) ∧
  (live → all_answered → ld_sent n = [] → ∃ resp, cmd_answer (docs n) cmd resp ∧ Q resp r).

(** What a handler is given for an answer. *)
Definition replied (resp : LogResponse) (r : outcome Status (LogResponse * Z)) : Prop :=
  match r with
  | Ok x => x.1 = resp
  | Err _ => match resp with Failed _ | Skipped => True | _ => False end
  | Panic => False
  end.
Lemma propose_performs live : performs live (propose cmd) replied.
Proof.
  split; [apply grows_propose|]. intros n a Hn Ho Ha. unfold Service.propose.
  destruct (node_propose (encode_to_vec (Some cmd : LogCommand)) n) as [n1 r1] eqn:Ep.
  assert (in_order n1 → caught_up n1 ∧ only n1 ∧ maybe a (docs n1) ∧
    ((∃ er, r1 = Err er ∧ ¬ all_answered) ∨
     ∃ b resp, maybe a b ∧ (ld_sent n = [] → b = docs n) ∧ docs n1 = cmd_docs a cmd ∧ cmd_answer b cmd resp ∧
       ((∃ i, r1 = Ok (resp, i)) ∨ ∃ er, r1 = Err er ∧ ¬ all_answered))) as Hrun.
  { intros Hord. destruct (proposed_run cmd n n1 r1 Hn Ep Hord) as (Hn1 & Hs1 & Hr). split; [done|]. split.
    { intros c. rewrite Hs1. intros [Hc|Hc%list_elem_of_singleton]%elem_of_app; [by apply Ho|done]. }
    destruct Hr as [(Hd & er & Hf & ->)|(before & id & lost & resp & Hf & Hown & Hd & Hans & ->)].
    { rewrite Hd. split; [done|]. left. exists er. split; [done|]. intros Hall. destruct (Hall (length (ld_sent n))) as (? & ? & Hx). congruence. }
    pose proof (maybe_late a n before Ho Hown (docs n) Ha) as Hb. cbv zeta in Hd, Hans. set (b := foldl entry_docs (docs n) before) in *.
    destruct (maybe_step a b Hb) as [Hb' Hlast]. rewrite Hd. split; [done|]. right. exists b, resp. split; [done|]. split.
    { intros Hs. unfold b. rewrite Hs in Hown. by apply none_late. }
    split; [done|]. split; [done|]. destruct lost as [er|]; [right|left; by eexists]. exists er. split; [done|].
    intros Hall. destruct (Hall (length (ld_sent n))) as (? & ? & Hx). congruence. }
  clear Ep. destruct r1 as [[resp i]|er|].
  - assert (in_order n1 → caught_up n1 ∧ only n1 ∧ maybe a (docs n1) ∧ docs n1 = cmd_docs a cmd ∧
      ∃ b, maybe a b ∧ cmd_answer b cmd resp ∧ (ld_sent n = [] → cmd_answer (docs n) cmd resp)) as Hok.
    { intros Hord. destruct (Hrun Hord) as (? & ? & ? & [(? & [=] & _)|(b & resp' & Hb & Hs & ? & Hans & [[? [= <- _]]|(? & [=] & _)])]).
      split_and!; try done. exists b. split_and!; [done|done|]. intros Hn0. by rewrite <- (Hs Hn0). }
    clear Hrun. destruct resp; intros Hord; destruct (Hok Hord) as (? & ? & ? & ? & b & ? & ? & ?); (split_and!; try done);
      try (intros x [= <-]; split; [done|]; by eexists _, _); intros _ _ Hs; eexists; (split; [by auto|done]).
  - intros Hord. destruct (Hrun Hord) as (? & ? & ? & [(? & [= <-] & Hno)|(b & resp & _ & _ & _ & _ & [[? [=]]|(? & [= <-] & Hno)])]);
      split_and!; done.
  - intros Hord. by destruct (Hrun Hord) as (? & ? & ? & [(? & [=] & _)|(b & resp & _ & _ & _ & _ & [[? [=]]|(? & [=] & _)])]).
Qed.
(** The last step of a handler as a function of the answer. *)
Definition final {A B} (h : A → serve (tbl:=tbl) (M:=M) B) (x : A) : outcome Status B := (h x (mkLeader [] d0 [])).2.
Lemma performs_map {A B} live (f : serve (tbl:=tbl) (M:=M) A) (h : A → serve (tbl:=tbl) (M:=M) B) Q Q' :
  performs live f Q → (∀ x n, h x n = (n, final h x)) →
  (∀ resp x, Q resp (Ok x) → final h x ≠ Panic ∧ Q' resp (final h x)) → (∀ resp er, Q resp (Err er) → Q' resp (Err er)) →
  performs live (serve_bind A B h f) Q'.
Proof.
  intros [Hg Hf] Hh HQ HE. split.
  { apply grows_bind; [done|]. intros x n. exists [], []. by rewrite Hh, !app_nil_r. }
  intros n a Hn Ho Ha. specialize (Hf n a Hn Ho Ha). unfold serve_bind. destruct (f n) as [n1 [x|er|]].
  - rewrite Hh. intros Hord. destruct (Hf Hord) as (Hc & Ho1 & _ & Hd & Hok & Hlive). destruct (Hok x eq_refl) as (Hx & b & resp & Hb & Hans & Hq).
    destruct (HQ _ _ Hq) as [Hp Hy]. split_and!; [done|done|done|done| |].
    + intros y Hgy. split; [done|]. exists b, resp. split; [done|]. split; [done|]. by rewrite <- Hgy.
    + intros Hl Hall Hs. destruct (Hlive Hl Hall Hs) as (resp' & Ha' & Hq'). exists resp'. split; [done|]. by apply HQ.
  - intros Hord. destruct (Hf Hord) as (Hc & Ho1 & _ & Hd & _ & Hlive). split_and!; [done|done|done|done|done|].
    intros Hl Hall Hs. destruct (Hlive Hl Hall Hs) as (resp' & Ha' & Hq'). exists resp'. split; [done|]. by apply HE.
  - intros Hord. by destruct (Hf Hord) as (_ & _ & ? & _).
Qed.
Lemma performs_refused {A} st (Q : LogResponse → outcome Status A → Prop) : performs False (lift (Err st)) Q.
Proof. split; [apply grows_lift|]. intros n a Hn Ho Ha Hord. by split_and!. Qed.
Lemma performs_ext {A} (live live' : Prop) (f g : serve (tbl:=tbl) (M:=M) A) Q :
  (live' → live) → (∀ n, f n = g n) → performs live g Q → performs live' f Q.
Proof.
  intros Hl Hfg [Hg Hp]. split; [intros n; rewrite Hfg; apply Hg|]. intros n a Hn Ho Ha. rewrite Hfg. specialize (Hp n a Hn Ho Ha).
  destruct (g n) as [n' r]. intros Hord. destruct (Hp Hord) as (? & ? & ? & ? & ? & Hlive). split_and!; try done. intros H'. apply Hlive, Hl, H'.
Qed.

(** Retrying the call. *)
Section retried.
Context (endpoints : list str) (retry_cap_ms : Z) (bad_endpoint : str → option str).
Abbreviation call_at := (call_at (tbl:=tbl) (M:=M) endpoints retry_cap_ms bad_endpoint).
Definition call_done {A} (Q : LogResponse → outcome Status A → Prop) a (c : str * Leader * result (A * str)) : Prop :=
  let '(_, n', r) := c in
  in_order n' →
  caught_up n' ∧ r ≠ Panic ∧ maybe a (docs n') ∧
  (∀ x ep, r = Ok (x, ep) → docs n' = cmd_docs a cmd ∧ ∃ b resp, maybe a b ∧ cmd_answer b cmd resp ∧ Q resp (Ok x)).
Lemma call_performs {A} live (f : serve (tbl:=tbl) (M:=M) A) Q kind a more : performs live f Q →
  ∀ t late active n, caught_up n → only n → maybe a (docs n) → call_done Q a (call_at kind None (λ _, f) more t late active n).
Proof.
  intros [Hg Hf]. induction more as [|[t1 late1] more IH]; intros t late active n Hn Ho Ha.
  all: destruct (attempted (λ _, f) t n) as [n1 r1] eqn:Et.
  all: assert (in_order n1 → caught_up n1 ∧ only n1 ∧ r1 ≠ Panic ∧ maybe a (docs n1) ∧
    (∀ x, r1 = Ok x → docs n1 = cmd_docs a cmd ∧ ∃ b resp, maybe a b ∧ cmd_answer b cmd resp ∧ Q resp (Ok x))) as Hrun.
  1,3: destruct t as [st|arrives lost]; cbn in Et; [injection Et as <- <-; intros _; by split_and!|];
    specialize (Hf n a Hn Ho Ha); destruct (f n) as [n2 r2]; injection Et as <- <-; intros Hord; destruct (Hf Hord) as (Hc & Ho1 & Hp & Hd & Hok & _);
    (split_and!; [done|done|by destruct lost|done|]); intros x Hx; destruct lost; [done|]; by apply Hok.
  all: eapply (call_ends endpoints retry_cap_ms bad_endpoint _ _ (call_done Q a)); [exact Et| | | |]; unfold call_done in *.
  all: try (intros x ep -> Hord; destruct (Hrun Hord) as (? & ? & ? & ? & Hok); split_and!; [done|done|done|]; intros y ep' [= <- <-]; by apply Hok).
  all: try (intros -> Hord; by destruct (Hrun Hord) as (_ & _ & ? & _)).
  all: try (intros st ac er -> Hord; destruct (Hrun Hord) as (? & ? & ? & ? & ?); by split_and!).
  - done.
  - intros st ac t2 late2 more2 -> [= <- <- <-].
    pose proof (call_grows endpoints retry_cap_ms bad_endpoint kind (λ _, f) more (λ _, Hg) t1 late1 ac n1) as (es & cs & Hgr & Hgs). specialize (IH t1 late1 ac n1).
    destruct (call_at kind None (λ _, f) more t1 late1 ac n1) as [[ac' n'] r]. cbn in Hgr, Hgs. intros Hord.
    pose proof (in_order_before _ _ _ _ Hgr Hgs Hord) as Hord1. destruct (Hrun Hord1) as (Hn1 & Ho1 & _ & Ha1 & _). by apply IH.
Qed.

(** What a write of the command leaves behind, and what its answer says. *)
Definition written {B} (live : Prop) (ans : B → LogResponse) (fits : B → Prop) (attempts : (Attempt * bool) * list (Attempt * bool))
    (c : Client * Leader * result B) : Prop :=
  let '(_, n', r) := c in
  in_order n' →
  ∃ s', represents (ld_db n') s' ∧ maybe (ra_docs s0) (ra_docs s') ∧
  match r with
  | Ok x => ra_docs s' = cmd_docs (ra_docs s0) cmd ∧ ∃ a, maybe (ra_docs s0) a ∧ cmd_answer a cmd (ans x)
  | Err _ => True
  | Panic => False
  end ∧
  (live → attempts.1.1 = Handled None None → all_answered →
   ∃ resp, cmd_answer (ra_docs s0) cmd resp ∧ ∀ x, resp = ans x → fits x → r = Ok x).
Lemma unary_written {A B} live (f : serve (tbl:=tbl) (M:=M) A) Q (read : A → result B) ans (fits : B → Prop) attempts kind c n :
  ld_db n = d0 → ld_log n = [] → ld_sent n = [] → performs live f Q →
  (∀ resp x, Q resp (Ok x) →
     match read x with Ok y => resp = ans y ∧ ∀ z, resp = ans z → z = y | Err _ => ∀ z, resp = ans z → ¬ fits z | Panic => False end) →
  (∀ resp er z, Q resp (Err er) → resp = ans z → ¬ fits z) →
  written live ans fits attempts (remote_unary endpoints retry_cap_ms bad_endpoint attempts kind f read c n).
Proof.
  intros Hd Hl Hs Hf Hread Hrefuse. assert (caught_up n) as Hn by (exists []; by rewrite Hl, Hd).
  assert (docs n = ra_docs s0) as Hdocs by (unfold docs, state; by rewrite Hl). unfold remote_unary, call.
  assert (only n) as Ho by (intros x; rewrite Hs; by intros ?%elem_of_nil). assert (maybe (ra_docs s0) (docs n)) as Ha by (by left).
  pose proof (call_performs live f Q kind (ra_docs s0) attempts.2 Hf attempts.1.1 attempts.1.2 (cl_active c) n Hn Ho Ha) as Hc.
  pose proof (call_extends endpoints retry_cap_ms bad_endpoint kind (λ _, f) attempts.2 attempts.1.1 attempts.1.2 (cl_active c) n) as He.
  pose proof (λ n1 x, call_succeeds endpoints retry_cap_ms bad_endpoint kind (λ _, f) attempts.2 attempts.1.1 attempts.1.2 (cl_active c) n n1 x) as Hgo.
  destruct (call_at _ _ _ _ _ _ _ n) as [[active n'] r]. unfold call_done, written in *. intros Hord.
  destruct (Hc Hord) as (Hn' & Hp & Hm & Hok). exists (state n'). split; [by apply caught_up_represents|]. split; [done|]. split.
  - destruct r as [[x ep]|er|]; cbn; [|done|done]. destruct (Hok x ep eq_refl) as (Hdone & b & resp & Hb & Hans & Hq).
    specialize (Hread resp x Hq). destruct (read x) as [y|er|]; [|done|done]. split; [done|]. exists b. by rewrite <- (proj1 Hread).
  - intros Hlive Hw Hall. destruct Hf as [Hg Hf]. specialize (Hf n (ra_docs s0) Hn Ho Ha). rewrite Hw in He, Hgo. cbn in He, Hgo.
    destruct (f n) as [n1 r1]. destruct (He n1 r1 (λ _, Hg) eq_refl) as (es & cs & He1 & Hc1).
    destruct (Hf (in_order_before _ _ _ _ He1 Hc1 Hord)) as (_ & _ & Hp1 & _ & _ & Hans). destruct (Hans Hlive Hall Hs) as (resp & Hresp & Hq).
    rewrite Hdocs in Hresp. exists resp. split; [done|]. intros x Hx Hfit. destruct r1 as [y|er|]; [|by destruct (Hrefuse resp er x Hq Hx)|done].
    specialize (Hgo n1 y eq_refl). injection Hgo as _ _ ->. cbn. specialize (Hread resp y Hq). destruct (read y) as [z|er|]; [|by destruct (Hread x Hx)|done].
    destruct Hread as [_ Hz]. by rewrite (Hz x Hx).
Qed.
End retried.
End single.

(** ** The handlers of one command *)
Lemma single_again cmd a : match cmd with IndexChunk _ _ _ [_] => True | IndexChunk _ _ _ _ => False | _ => True end →
  cmd_docs (cmd_docs a cmd) cmd = cmd_docs a cmd.
Proof.
  destruct cmd as [org repo reindex [|f []]|org repo path language x origin|org repo keep| |]; try done; intros _.
  - set (opts := mkIndexOptions reindex None false). destruct (as_batch_file f) as [b| |] eqn:Ef.
    2,3: unfold RaftReplica.cmd_docs, RaftReplica.chunk_files; cbn [collect]; by rewrite Ef.
    set (q := raw_prepared org repo opts b).
    assert (∀ c, cmd_docs c (IndexChunk org repo reindex [f]) =
      match first_abort opts org repo c [q] with Some _ => c | None => commit_doc opts c q end) as Hq.
    { intros c. unfold RaftReplica.cmd_docs, RaftReplica.chunk_files. cbn [collect]. rewrite Ef. cbn [mbind outcome_mbind outcome_bind fmap list_fmap].
      destruct (prepared_batch is_alphabetic is_numeric registry opts org repo [q] c c) as (Hc & Ha & _); [by apply NoDup_singleton| |done|].
      - intros p x ->%list_elem_of_singleton. apply raw_work.
      - cbn [fmap list_fmap] in Hc, Ha. cbv zeta in Hc, Ha |- *. fold opts. fold q. by rewrite Hc, Ha. }
    rewrite !Hq. destruct (first_abort opts org repo a [q]) as [x|] eqn:Ea; [by rewrite Ea|].
    destruct (first_abort opts org repo (commit_doc opts a q) [q]); [done|apply commit_again].
  - cbn. destruct (given_extraction x) as [ex|]; [|done]. destruct (validate_spans ex); [|done|done].
    destruct (ingest_guard org repo language ex); [|done|done]. apply insert_insert_eq.
  - cbn. rewrite map_filter_filter_l; done.
Qed.
(** A handler that reads the answer of its command, and refuses all others. *)
Lemma handler_performs {A} cmd (h : LogResponse * Z → serve (tbl:=tbl) (M:=M) A) (Q : LogResponse → outcome Status A → Prop) :
  (∀ b, cmd_docs (cmd_docs b cmd) cmd = cmd_docs b cmd) →
  (∀ x n, h x n = (n, final h x)) → (∀ resp i, final h (resp, i) ≠ Panic ∧ Q resp (final h (resp, i))) →
  (∀ w er, Q (Failed w) (Err er)) → (∀ er, Q Skipped (Err er)) →
  performs cmd True (serve_bind _ _ h (propose cmd)) Q.
Proof.
  intros Hid Hh HQ HF HS. eapply performs_map; [apply propose_performs, Hid|done| |].
  - intros resp [resp' i] ->. apply HQ.
  - intros resp er Hr. by destruct resp.
Qed.
Lemma chunk_performs org repo reindex file :
  performs (IndexChunk org repo reindex [file]) True (index_chunk org repo reindex [file])
    (λ resp r, match r with
      | Ok x => ∃ y, resp = Index [y] ∧ x.1 = [file_result detail_error y]
      | Err _ => ∀ y, resp ≠ Index [y]
      | Panic => False
      end).
Proof.
  apply handler_performs; [by intros; apply single_again| | |done|done].
  - intros [resp i] n. unfold final. destruct resp; try done. by destruct (length results =? _)%nat.
  - intros resp i. unfold final. destruct resp; try done. destruct results as [|y []]; try done. split; [done|]. by exists y.
Qed.
Lemma ingest_performs org repo path language x origin :
  performs (IngestExtraction org repo path language x origin) True
    (ingest_extraction sha256 is_alphabetic is_numeric decode_error hook registry detail_error fatal_text debug fate org repo path language x origin)
    (λ resp r, match r with
      | Ok y => ∃ stats, resp = Ingest stats ∧ an_answer y = Some (stats_into stats)
      | Err _ => ∀ stats, resp ≠ Ingest stats
      | Panic => False
      end).
Proof.
  apply handler_performs; [by intros; apply single_again| | |done|done].
  - intros [resp i] n. unfold final. by destruct resp.
  - intros resp i. unfold final. destruct resp; try done. split; [done|]. by exists stats.
Qed.
Lemma prune_performs org repo keep :
  performs (PruneCmd org repo keep) True
    (prune sha256 is_alphabetic is_numeric decode_error hook registry detail_error fatal_text debug fate org repo keep false)
    (λ resp r, match r with Ok y => resp = Prune (an_answer y) | Err _ => ∀ rm, resp ≠ Prune rm | Panic => False end).
Proof.
  apply handler_performs; [by intros; apply single_again| | |done|done].
  - intros [resp i] n. unfold final. by destruct resp.
  - intros resp i. unfold final. by destruct resp.
Qed.
Lemma vacuum_performs :
  performs VacuumCmd True (vacuum_call sha256 is_alphabetic is_numeric decode_error hook registry detail_error fatal_text debug fate)
    (λ resp r, match r with
      | Ok y => ∃ o, resp = Vacuum o ∧ an_answer y = Some (vacuum_into (VacuumStats_from o))
      | Err _ => ∀ o, resp ≠ Vacuum o
      | Panic => False
      end).
Proof.
  apply handler_performs; [by intros; apply single_again| | |done|done].
  - intros [resp i] n. unfold final. by destruct resp.
  - intros resp i. unfold final. destruct resp; try done. split; [done|]. by eexists.
Qed.
Lemma file_result_read x : file_result_from (file_result detail_error x) ≠ Panic ∧
  match file_result_from (file_result detail_error x) with
  | Ok (inl s) => x = inl s
  | _ => ∀ s, x = inl s → ¬ stats_fit s
  end.
Proof.
  unfold file_result. destruct x as [s|b].
  - cbn. destruct (stats_read s) as [(er & -> & Hs)| ->]; cbn; (split; [done|]); [|done]. by intros s' [= <-].
  - by rewrite file_result_roundtrip.
Qed.
Lemma index_file_performs org repo file options :
  performs (IndexChunk org repo (default false options) [file]) (∃ h, resolved_encoding_hint file = Ok h)
    (index_file sha256 is_alphabetic is_numeric decode_error hook registry detail_error fatal_text debug fate org repo (Some file) options)
    (λ resp r, match r with
      | Ok y => ∃ stats, resp = Index [inl stats] ∧ an_answer y = Some (stats_into stats)
      | Err _ => ∀ stats, resp = Index [inl stats] → ¬ stats_fit stats
      | Panic => False
      end).
Proof.
  destruct (resolved_encoding_hint file) as [hint|er|] eqn:Eh.
  - eapply (performs_ext _ True); [done| |].
    { intros n. unfold index_file. cbn [ok_or converted]. unfold mbind, lift. unfold serve_bind at 1 2. rewrite Eh. reflexivity. }
    eapply performs_map; [apply chunk_performs| | |].
    + intros [[|m ms] i] n; [done|]. unfold final, serve_bind. by destruct (file_result_from m) as [[]| |].
    + intros resp [ms i] (y & -> & Hms). cbn in Hms. subst ms. unfold final, serve_bind, lift. destruct (file_result_read y) as [Hp Hx].
      destruct (file_result_from _) as [[s|er]|er|]; cbn; try done; (split; [done|]); [by exists s; rewrite Hx|..]; intros stats [= Hy]; by apply Hx.
    + intros resp er Hr stats ->. by destruct (Hr (inl stats)).
  - eapply (performs_ext _ False); [by intros (? & ?)| |apply performs_refused]. intros n. unfold index_file. cbn [ok_or converted]. unfold mbind, lift.
    unfold serve_bind at 1 2. rewrite Eh. reflexivity.
  - exfalso. unfold resolved_encoding_hint in Eh. destruct (Pb.fb_encoding_hint file) as [l|]; [|done]. cbn in Eh. by destruct (hint_from_label l).
Qed.
Lemma stats_answer (x : option Pb.IngestStats) s msg : x = Some (stats_into s) →
  match (s ← ok_or x (Protocol msg); protocol_result (stats_from s)) with Ok y => y = s | Err _ => ¬ stats_fit s | Panic => False end.
Proof. intros ->. cbn. by destruct (stats_read s) as [(er & -> & Hs)| ->]. Qed.
Definition vacuum_fit (v : VacuumStats) : Prop := Z.of_nat (vs_terms_removed v) < 2 ^ 64 ∧ Z.of_nat (vs_terms_kept v) < 2 ^ 64.

Section writes.
Context (endpoints : list str) (retry_cap_ms : Z) (bad_endpoint : str → option str).
Abbreviation call_at := (call_at (tbl:=tbl) (M:=M) endpoints retry_cap_ms bad_endpoint).

Lemma dry_run_reads (f : serve (tbl:=tbl) (M:=M) (Answered (list str))) x more : ∀ t late active n, f n = (n, Ok x) →
  let '(_, n', r) := call_at KRead None (λ _, f) more t late active n in
  n' = n ∧ (∀ y ep, r = Ok (y, ep) → y = x) ∧ (t = Handled None None → ∃ ep, r = Ok (x, ep)).
Proof.
  intros t late active n Hf. set (P := λ c : str * Leader * result (Answered (list str) * str),
    let '(_, n', r) := c in n' = n ∧ ∀ y ep, r = Ok (y, ep) → y = x).
  assert (P (call_at KRead None (λ _, f) more t late active n)) as HP.
  { revert t late active. induction more as [|[t1 late1] more IH]; intros t late active.
    all: destruct (attempted (λ _, f) t n) as [n1 r1] eqn:Et;
      assert (n1 = n ∧ ∀ y, r1 = Ok y → y = x) as [-> Hr1] by
        (destruct t as [st|arrives lost]; cbn in Et; [by injection Et as <- <-|]; rewrite Hf in Et; injection Et as <- <-;
         (split; [done|]); destruct lost; [done|by intros y [= <-]]).
    all: eapply (call_ends endpoints retry_cap_ms bad_endpoint _ _ P); [exact Et| | | |]; unfold P.
    all: try (intros; split; [done|]; intros ? ? [=]; subst; by apply Hr1).
    all: try (intros; by split).
    { done. }
    intros st ac t2 late2 more2 _ [= <- <- <-]. apply IH. }
  pose proof (call_succeeds endpoints retry_cap_ms bad_endpoint KRead (λ _, f) more t late active n n x) as Hgo.
  destruct (call_at _ _ _ _ _ _ _ n) as [[ac n'] r]. destruct HP as [-> Hr]. split; [done|]. split; [done|]. intros ->. cbn in Hgo.
  rewrite Hf in Hgo. specialize (Hgo eq_refl). injection Hgo as _ ->. by eexists.
Qed.

End writes.
End run.

(** ** Streams and lists of files *)
Abbreviation chunks_loop := (chunks_loop sha256 is_alphabetic is_numeric decode_error hook registry detail_error fatal_text debug fate).
Abbreviation resolve := (collect (λ f, converted (resolved_encoding_hint f))).
Lemma hint_total f : resolved_encoding_hint f ≠ Panic.
Proof. unfold resolved_encoding_hint. destruct (Pb.fb_encoding_hint f) as [l|]; [|done]. cbn. by destruct (hint_from_label l). Qed.
(** A stream whose hints are names of encodings. *)
Lemma loop_chunks org repo reindex files hs : resolve files = Ok hs → ∀ pending b results i n,
  let '(n1, r1) := index_loop org repo reindex (file_messages files) pending b results i n in
  chunks_loop org repo reindex (cut_loop files [] pending b) results n = (n1, resp ← r1; Ok (ir_results resp)).
Proof.
  revert hs. induction files as [|f files IH]; intros hs Hh pending b results i n.
  - cbn. destruct pending as [|g pending]; [done|]. cbn. unfold mbind, serve_bind.
    by destruct (index_chunk org repo reindex (g :: pending) n) as [n1 [[r j]| |]].
  - cbn [collect] in Hh. destruct (resolved_encoding_hint f) as [h| |] eqn:Hf; [|done|done]. apply bind_Ok in Hh as (h' & _ & Hh).
    apply bind_Ok in Hh as (hs' & Hh & _). specialize (IH hs' Hh). cbn [file_messages fmap list_fmap]. fold (file_messages files).
    rewrite (loop_file _ _ _ _ _ _ _ _ _ _ h Hf). cbn [cut_loop]. destruct (overflows pending b f); [|apply IH].
    rewrite cut_loop_out. cbn [app Service.chunks_loop]. unfold mbind, serve_bind.
    destruct (index_chunk org repo reindex pending n) as [n1 [[r j]| |]]; [apply IH|done|done].
Qed.
(** One with a hint that is not: the chunk it would have ended in is given up. *)
Lemma loop_refused org repo reindex good hs bad er rest : resolve good = Ok hs → converted (resolved_encoding_hint bad) = Err er → ∀ pending b results i n,
  index_loop org repo reindex (file_messages (good ++ bad :: rest)) pending b results i n =
  serve_bind _ _ (λ _, lift (Err er)) (chunks_loop org repo reindex (removelast (cut_loop good [] pending b)) results) n.
Proof.
  intros Hh Hb. revert hs Hh. induction good as [|f good IH]; intros hs Hh pending b results i n.
  - assert (removelast (cut_loop [] [] pending b) = []) as -> by (by destruct pending). cbn. unfold mbind, lift, serve_bind at 1 2. by rewrite Hb.
  - cbn [collect] in Hh. destruct (resolved_encoding_hint f) as [h| |] eqn:Hf; [|done|done]. apply bind_Ok in Hh as (h' & _ & Hh).
    apply bind_Ok in Hh as (hs' & Hh & _). specialize (IH hs' Hh). cbn [file_messages fmap list_fmap app]. fold (file_messages (good ++ bad :: rest)).
    rewrite (loop_file _ _ _ _ _ _ _ _ _ _ h Hf). cbn [cut_loop]. destruct (overflows pending b f); [|apply IH].
    rewrite cut_loop_out. cbn [app]. pose proof (cut_loop_concat good [f] (source_bytes f)) as Hc.
    assert (removelast (pending :: cut_loop good [] [f] (source_bytes f)) = pending :: removelast (cut_loop good [] [f] (source_bytes f))) as ->
      by (by destruct (cut_loop good [] [f] (source_bytes f))).
    cbn [Service.chunks_loop]. unfold mbind, serve_bind at 1. unfold serve_bind at 2.
    destruct (index_chunk org repo reindex pending n) as [n1 [[r j]| |]] eqn:Ei; unfold serve_bind at 1; rewrite ?Ei; [apply IH|done|done].
Qed.
Lemma resolve_cases files :
  (∃ hs, resolve files = Ok hs) ∨
  ∃ good hs bad rest er, files = good ++ bad :: rest ∧ resolve good = Ok hs ∧ converted (resolved_encoding_hint bad) = Err er ∧ resolve files = Err er.
Proof.
  induction files as [|f files IH]; [left; by exists []|]. cbn [collect]. pose proof (hint_total f) as Hp.
  destruct (resolved_encoding_hint f) as [h|er|] eqn:Hf; [| |done].
  - destruct IH as [[hs ->]|(good & hs & bad & rest & er & -> & Hg & Hb & ->)]; [left; by eexists|right].
    exists (f :: good), (h :: hs), bad, rest, er. cbn [collect]. by rewrite Hf, Hg.
  - right. exists [], [], f, files. eexists. by rewrite Hf.
Qed.

(** C36: Files are proposed in chunks of at most 8 MiB of source, or a larger
    file alone, in order and none left out. A stream of files whose hints are
    names of encodings is cut, proposed and answered as the same files given at
    once, whatever the cluster does. Otherwise the first other hint is the error
    of both; files given at once propose nothing, and a stream proposes the chunks
    that were full before that file, and gives up the one not yet full. *)
Theorem index_stream_cut org repo options files n :
  concat (cut_chunks files) = files ∧ Forall chunk_ok (cut_chunks files) ∧
  let run := index_here (inl (Some (IndexHeader org repo options)) :: file_messages files) n in
  let at_once := index_files sha256 is_alphabetic is_numeric decode_error hook registry detail_error fatal_text debug fate
    org repo (default false options) files n in
  match resolve files with
  | Ok _ => at_once = (run.1, resp ← run.2; Ok (ir_results resp))
  | Err er => at_once = (n, Err er) ∧
      ∃ good bad rest, files = good ++ bad :: rest ∧ (∃ hs, resolve good = Ok hs) ∧ converted (resolved_encoding_hint bad) = Err er ∧
        let full := chunks_loop org repo (default false options) (removelast (cut_chunks good)) [] n in
        run = (full.1, _ ← full.2; Err er)
  | Panic => False
  end.
Proof.
  split; [apply cut_loop_concat|]. split; [apply (cut_loop_ok files []); by left|]. cbn [Service.index_here]. unfold index_files, mbind, serve_bind, lift.
  destruct (resolve_cases files) as [[hs Hh]|(good & hs & bad & rest & er & -> & Hg & Hb & Hh)]; rewrite Hh.
  - pose proof (loop_chunks org repo (default false options) files hs Hh [] 0 [] 0 n) as Hl. by destruct (index_loop _ _ _ _ _ _ _ _ n) as [n1 r1].
  - split; [done|]. exists good, bad, rest. split; [done|]. split; [by exists hs|]. split; [done|].
    rewrite (loop_refused org repo (default false options) good hs bad er rest Hg Hb [] 0 [] 0 n). unfold serve_bind, lift, cut_chunks.
    by destruct (chunks_loop _ _ _ _ _ n) as [n1 []].
Qed.
End spec.

(** ** Examples *)
#[local] Existing Instance gmap_redb.
#[local] Existing Instance coded_serde.
#[local] Existing Instance sample_rs.
#[local] Existing Instance coded_prost.
#[local] Existing Instance coded_detail.
#[local] Instance membership_json : Json (StoredMembership Z) := coded_json.
Module Linked.
(** A new leader, which commits a blank and then every proposal, and a client
    with one endpoint whose first answer is lost. *)
Definition blank : Entry Z := mkEntry (Replayed.at_ 0) Blank.
Definition fate (i : nat) : Fate (M:=Z) := Committed (if (i =? 0)%nat then [blank] else []) (Replayed.at_ (Z.of_nat i + 1)) None.
Definition client : Client := mkClient (lit "h:1") 0 false.
Definition cut : Status := mkStatus Unavailable [] [].
Definition attempts : (Attempt * bool) * list (Attempt * bool) := ((Handled None (Some cut), false), [(Handled None None, false)]).
Definition text (x : list Z) : str := [].
Definition fatal (x : LogId * StoreError) : str := [].
Definition debug (r : LogResponse) : str := [].
Lemma sole_writer d l s : sole fate (mkLeader (tbl:=λ K _ _ V, gmap K V) s d l).
Proof. intros i before id lost _ [= <- _ _]. destruct (i =? 0)%nat; [|constructor]. by apply Forall_singleton. Qed.
Lemma blank_fits (d : Replayed.db) : Replayed.fits d blank.
Proof. split; [apply Replayed.ids; lia|exact I]. Qed.

(** A text file is indexed. *)
Abbreviation raw_sent := (sent Sampled.opts Sampled.raw).
Definition chunk : LogCmd := IndexChunk (lit "o") (lit "r") false [file_into raw_sent].
Abbreviation batch := (remote_index_batch Sample.sha Sample.no_char Sample.no_char text (λ _, Ok ()) Sampled.registry text fatal debug
  fate [lit "h:1"] 1000 (λ _, None) cut attempts (lit "o") (lit "r") [Sampled.raw] Sampled.opts client (mkLeader [] db_empty [])).
Lemma batch_log : ld_log batch.1.2 = [blank; mkEntry (Replayed.at_ 1) (Replayed.cmd chunk); mkEntry (Replayed.at_ 2) (Replayed.cmd chunk)].
Proof. vm_compute. exact eq_refl. Qed.
Definition after (d : Replayed.db) (e : Entry Z) : Replayed.db :=
  (apply_one Sample.sha Sample.no_char Sample.no_char text (λ _, Ok ()) Sampled.registry d e).1.
Definition arrived : PreparedFile := raw_prepared Sample.sha Sampled.registry (lit "o") (lit "r") (mkIndexOptions false None false) raw_sent.
Lemma arrived_work : work_of Sample.no_char Sample.no_char Sampled.registry arrived = Ok (PExtracted Sampled.text, None).
Proof. by vm_compute. Qed.
Lemma chunk_fits (d : Replayed.db) i :
  0 ≤ i < 10 → room_for d 1 (all_terms_of Sample.no_char Sample.no_char Sampled.registry [arrived]) →
  Replayed.fits d (mkEntry (Replayed.at_ i) (Replayed.cmd chunk)).
Proof.
  intros Hi Hroom. split; [by apply Replayed.ids|]. rewrite Replayed.entry_of. split; [by vm_compute|].
  assert (as_batch_file (file_into raw_sent) = Ok raw_sent) as Hsent by (by apply file_roundtrip). split.
  - intros f b Hf%list_elem_of_singleton Hb. subst f. rewrite Hsent in Hb. injection Hb as <-.
    split; [done|]. split; [done|]. fold arrived. rewrite arrived_work. exact Sampled.text_small.
  - intros qs. unfold chunk_files. cbn [collect]. rewrite Hsent. by intros [= <-].
Qed.
Definition first : Replayed.db := after db_empty blank.
Definition second : Replayed.db := after first (mkEntry (Replayed.at_ 1) (Replayed.cmd chunk)).
Lemma first_room : room_for first 1 (all_terms_of Sample.no_char Sample.no_char Sampled.registry [arrived]).
Proof. unfold room_for. by vm_compute. Qed.
Lemma second_room : room_for second 1 (all_terms_of Sample.no_char Sample.no_char Sampled.registry [arrived]).
Proof. unfold room_for. by vm_compute. Qed.
Lemma batch_in_order : in_order Sample.sha Sample.no_char Sample.no_char text Sampled.registry fate db_empty Replayed.start batch.1.2.
Proof.
  split; [|split; [|destruct batch.1.2; apply sole_writer]]; rewrite batch_log; [|done].
  split; [apply blank_fits|]. split; [apply chunk_fits; [lia|apply first_room]|]. split; [apply chunk_fits; [lia|apply second_room]|exact I].
Qed.
Lemma raw_hint : Forall (hint_ok Sampled.opts) [Sampled.raw].
Proof. by apply Forall_singleton. Qed.

(** A repository is pruned. *)
Definition docs : Replica (M:=Z) := mkReplica Sample.docs None (mkStoredMembership None 0).
Lemma docs_stored : represents Sample.sha 0 Sample.store docs.
Proof. split; [apply Sample.stored|]. split; by vm_compute. Qed.
Definition cleared : LogCmd := PruneCmd (lit "o") (lit "r") [].
Abbreviation pruning := (remote_prune_files Sample.sha Sample.no_char Sample.no_char text (λ _, Ok ()) Sampled.registry text fatal debug
  fate [lit "h:1"] 1000 (λ _, None) attempts (lit "o") (lit "r") [] false client (mkLeader [] Sample.store [])).
Lemma pruning_log : ld_log pruning.1.2 = [blank; mkEntry (Replayed.at_ 1) (Replayed.cmd cleared); mkEntry (Replayed.at_ 2) (Replayed.cmd cleared)].
Proof. vm_compute. exact eq_refl. Qed.
Lemma pruning_in_order : in_order Sample.sha Sample.no_char Sample.no_char text Sampled.registry fate Sample.store docs pruning.1.2.
Proof.
  split; [|split; [|destruct pruning.1.2; apply sole_writer]]; rewrite pruning_log; [|done].
  split; [apply blank_fits|]. split; [apply Replayed.prune_fits; lia|]. split; [apply Replayed.prune_fits; lia|exact I].
Qed.
End Linked.

(** The answer to the first attempt is lost; the second finds the file stored. *)
Lemma remote_index_refines_witness :
  ∃ c n s s', Linked.batch = (c, n, Ok [inl s]) ∧ is_unchanged s = true ∧ represents Sample.sha 0 (ld_db n) s' ∧
    is_Some (ra_docs s' !! (lit "o", lit "r", lit "a.txt")).
Proof.
  pose proof (remote_index_refines Sample.sha Sample.no_char Sample.no_char Linked.text 0 Sampled.registry Linked.text Linked.fatal Linked.debug
    Linked.fate (λ _, Forall_nil_2 _) db_empty Replayed.start Replayed.started [lit "h:1"] 1000 (λ _, None) Linked.cut
    (lit "o") (lit "r") Sampled.opts [Sampled.raw] Linked.attempts Linked.client (mkLeader [] db_empty []) Linked.raw_hint
    (NoDup_singleton _) eq_refl eq_refl eq_refl) as Hr. cbv zeta in Hr.
  pose proof Linked.batch_in_order as Hf.
  assert (match Linked.batch.2 with Ok [inl s] => is_unchanged s = true | _ => False end) as Hb by (vm_compute; exact eq_refl).
  destruct Linked.batch as [[c n] r]. cbn [fst snd] in Hf, Hb. destruct (Hr Hf) as (s' & Hrep & _ & Hok & _).
  destruct r as [[|[s|] []]| |]; try (exfalso; exact Hb). destruct Hok as [Hdocs _]. exists c, n, s, s'.
  split; [exact eq_refl|]. split; [exact Hb|]. split; [exact Hrep|]. rewrite Hdocs. apply (bool_decide_unpack _). vm_compute. exact I.
Defined.

